(* ===== verification/_CoqProject ===== *)
-Q . S2P
Prelude.v
Algorithms.v
RaftProto.v
ConfigState.v
LogMetadata.v
ConsensusState.v
Consensus.v
RaftLog.v
ConsensusInv.v
ConsensusOps.v
ConsensusNew.v
ConsensusCycle.v
ConsensusMachine.v
ConsensusCommit.v
RaftScenario.v
RaftTheorems.v
RaftDataTheorems.v
Cluster.v
ClusterInv.v
ClusterTheorems.v
Replica.v
ReplicaScenario.v
ReplicaInv.v
ReplicaTheorems.v
Wire.v
Encoding.v
Crc.v
RecordLog.v
RecordLogProofs.v
RecordLogTheorems.v
Comparator.v
DataBlock.v
Snappy.v
SnappyTheorems.v
Filter.v
FilterTheorems.v
SkipList.v
SkipListProofs.v
SkipListTheorems.v
WriteBatch.v
WriteBatchTheorems.v
BinaryHeap.v
BinaryHeapTheorems.v
MergeIterator.v
MergeIteratorTheorems.v
Snapshot.v
SnapshotProofs.v
SnapshotTheorems.v
Table.v
TableProofs.v
TableProperties.v
TableBuild.v
TableTheorems.v
BlockCache.v
BlockCacheTheorems.v
VersionEdit.v
VersionEditTheorems.v
Version.v
VersionProofs.v
VersionRecovery.v
VersionTheorems.v
LevelIterator.v
LevelIteratorTheorems.v
Compaction.v
CompactionProofs.v
CompactionBuild.v
CompactionTheorems.v
VersionRows.v
Database.v
DatabaseReads.v
DatabaseProofs.v
DatabaseJobs.v
DatabaseSelect.v
DatabaseCompact.v
DatabaseRounds.v
DatabaseOpen.v
DatabaseMachine.v
DatabaseSample.v
DatabaseTheorems.v
StorageTheorems.v
