(* ===== verification/Prelude.v ===== *)
(** * A verification library for the replicated storage stack of dacha

    The repository is a monorepo of Rust packages. This library models the
    core of its replicated store: the Raft implementation (src/pkg/raft) with
    the data structures below it, and the storage formats (src/pkg/sstable,
    src/pkg/protobuf/core) it keeps its data in.

    The program

    A Raft server is driven by a [ConsensusModule]
    (src/pkg/raft/src/consensus/module.rs), a state machine without I/O: each
    operation takes the events of the outside world (a request, a response, a
    flushed log sequence, a point in time) and a [Tick], into which it writes
    what the caller must do: persist metadata, append log entries, send
    messages, call again later. The module keeps the metadata of the log
    ([LogMetadata], log/log_metadata.rs), the cluster configuration
    ([ConfigurationStateMachine], consensus/config_state.rs) and the state of
    its role (consensus/state.rs). The log itself is behind the [Log] trait
    (log/log.rs); a response that depends on flushed entries is wrapped in a
    [FlushConstraint] (consensus/constraint.rs). State machines store their
    data in an [EmbeddedDB] (src/pkg/sstable/src/db/db.rs), a log-structured
    merge tree. A batch of writes is appended to a log of checksummed records
    (record_log.rs) and applied to a memtable, a skip list
    (memtable/skip_list.rs). A compaction thread turns a full memtable into
    sorted tables made of blocks of key-value pairs (table/), merges tables of
    neighbouring levels (db/version.rs), and records each change as an edit in
    a manifest (db/version_edit.rs), itself a record log. A read merges the
    memtables and the tables of a version (db/snapshot.rs,
    db/merge_iterator.rs, db/level_iterator.rs). Opening a database recovers
    the version from the manifest and the memtables from the logs.

    The files:

    - Prelude.v (this file): outcomes of running Rust code, the state monad,
      its program logic [wpx], tactics and shared lemmas.
    - Algorithms.v: the binary searches of src/pkg/common/src/algorithms/mod.rs.
    - RaftProto.v: messages and configurations (src/pkg/raft/proto).
    - ConfigState.v: [ConfigurationStateMachine], quorums and their overlap.
    - LogMetadata.v: [LogMetadata], run-length compressed offsets, refined to
      the full list of offsets [all_offsets].
    - ConsensusState.v: the structs of state.rs, tick.rs and module.rs, the
      constants, and the random helpers of src/pkg/crypto/src/random.rs.
    - Consensus.v: every operation of module.rs, by its name.
    - RaftLog.v: [MemoryLogSync] (log/memory_log.rs), the [Log] trait as the
      classes [Log] (operations) and [LogLaws] (what clients rely on), and
      [FlushConstraint::poll], proved against the classes.
    - ConsensusInv.v, ConsensusOps.v: the invariant [Inv] of a server between
      two operations, the relation [StepX] between the states around one, and
      that every operation keeps both; what votes and appends guarantee.
    - ConsensusNew.v: [ConsensusModule::new] against the [Log] interface.
    - ConsensusCycle.v: a measure that decreases in every recursive call of
      [cycle], so that it ends.
    - ConsensusMachine.v: one server as a transition system; reachability.
    - ConsensusCommit.v: the choice of the commit index and of the lease.
    - RaftScenario.v: two servers, an election and a commit, step by step.
    - RaftTheorems.v, RaftDataTheorems.v: the theorems about the server and
      about its data structures, with concrete instances.
    - Cluster.v: several servers with their metadata files and the votes
      between them (src/pkg/raft/src/server/server.rs and server_shared.rs) as
      a transition system in which messages are lost, delayed and repeated
      and servers crash; ClusterInv.v: its invariant; ClusterTheorems.v:
      election safety, and a run that shows what early votes lead to.
    - Replica.v: the same servers with their logs, the entries sent between
      them and the state machines; ReplicaInv.v: refinement to Cluster.v and
      the invariant of the logs; ReplicaScenario.v: an interpreter for runs
      and a run in which two servers diverge; ReplicaTheorems.v.
    - Wire.v: src/pkg/protobuf/core/src/wire.rs.
    - Encoding.v: src/pkg/sstable/src/encoding.rs.
    - Comparator.v: key orders (table/comparator.rs, db/internal_key.rs); the
      class [KeyComparatorLaws] states what blocks rely on, with instances for
      the bytewise order and, given any lawful one, for internal keys.
    - DataBlock.v: blocks (table/data_block.rs, table/data_block_builder.rs,
      table/block_handle.rs), proved for every lawful comparator.
    - Crc.v: src/pkg/crypto/src/checksum/crc.rs.
    - RecordLog.v: reader and writer of record logs; RecordLogProofs.v,
      RecordLogTheorems.v: recovery from a cut file, tailing, termination.
    - Snappy.v, Filter.v: snappy compression (src/pkg/compression/src/snappy)
      and Bloom filters with their blocks, each with its theorems
      (SnappyTheorems.v, FilterTheorems.v).
    - SkipList.v: the skip list as a store of nodes, with every store of a
      pointer a step; WriteBatch.v: memtables and batches; BinaryHeap.v:
      src/pkg/common/src/tree/binary_heap.rs; MergeIterator.v: the [Iterable]
      trait as a class with the laws [IterableLaws], and merges of lawful
      iterators; Snapshot.v: reading at a sequence. Their proofs are in the
      files named after them.
    - Table.v: tables as the contents of a file, with the builder, the reader
      and its iterator; TableProofs.v, TableProperties.v, TableBuild.v,
      TableTheorems.v; what a search of the index relies on is the class
      [JoinLaws], with instances for bytewise and internal keys. BlockCache.v:
      the cache of blocks as a machine. Table.v reads a block from the file
      each time, without the cache.
    - VersionEdit.v: records of the manifest; Version.v: versions, their
      recovery and the choice of tables to compact (VersionProofs.v,
      VersionRecovery.v, VersionTheorems.v, VersionRows.v); LevelIterator.v.
    - Compaction.v: [build_tables_from_iterator] over any [TableStore] (the
      tables of Table.v are an instance that keeps the laws
      [TableStoreLaws]); CompactionProofs.v, CompactionBuild.v,
      CompactionTheorems.v.
    - Database.v: [EmbeddedDB] on a state of the memory and the files.
      DatabaseReads.v, DatabaseProofs.v: the invariant of the memory
      ([mem_ok]); DatabaseJobs.v, DatabaseSelect.v,
      DatabaseCompact.v, DatabaseRounds.v: the invariant of the files
      ([disk_ok]) and the rounds of the compaction thread; DatabaseOpen.v:
      opening; DatabaseMachine.v: the states that can be reached ([reaches]);
      DatabaseSample.v: an instance of the interfaces and a run;
      DatabaseTheorems.v.
    - StorageTheorems.v: theorems about the wire format and keys.

    How code is modelled:

    Numbers are [Z]; a u64 addition or subtraction that could overflow is
    checked and panics, as in a build with overflow checks, and casts and
    shifts wrap where the code lets them. Instants and durations are
    nanoseconds, and instants do not overflow. A stateful method is a
    function in the monad [M]: it returns ([Done]), panics ([Panicked]) or
    runs out of the fuel of the model ([OutOfFuel]). An operation of the
    module runs on a [Node]: the module, the tick and an unknown sequence of
    random numbers. HashMaps and HashSets are stdpp maps and sets; where the
    code iterates over one the model uses the order of stdpp, of which the
    theorems do not depend. Methods that are async but hold a lock for their
    whole body are one step. Console output is left out.

    What the theorems show:

    - Safety of one server, in every state reachable from [new] by any
      operations at any times with any random numbers: the invariant holds
      (part of it: what a leader has of earlier terms is at or before the first
      index it answers reads at); terms and commit indexes only grow and a vote
      is never changed; a leader has counted a majority of its configuration in
      votes of its term; metadata that changed is flagged; log metadata and emitted entries stay in step;
      messages are truthful.
    - Safety of a group of servers with one configuration, for every
      interleaving: one leader per term, also when servers crash if votes are
      stored before they are sent; logs that agree on an entry agree on all
      before it when servers do not crash; the metadata of every module is
      that of the log beside it. Two runs show where the code falls short
      when servers crash: votes sent before they are stored, and a candidate
      that wins before its own vote is stored.
    - Functional behaviour: commit rule and lease rule as equivalences or
      bounds on quorums, granting and refusing votes, accepting entries,
      resolving reads, proposal status, starting from a log; which tables a
      compaction selects.
    - Refinement: log metadata and the log in memory against abstract logs.
    - Termination: every operation ends; parsing ends.
    - Round trips and orders: varints, zigzag, fields, internal keys, blocks,
      snappy, tables, edits, record logs cut at any point; seeking in a block
      gives exactly the rows from the key on, and seeking in a table, with the
      keys of a database too, at least these.
    - Data structures: the skip list is a sorted list, also for readers in
      the middle of an insert; heaps and merges give sorted sequences; a read
      of memtables and tables gives the last write of the key; the tables that
      a compaction writes can replace its input without changing a read.
    - The database is a map: after any writes, snapshots, rounds, crashes and
      openings, [get] returns what the batches make of a key, a snapshot what
      they made of it when it was taken; no operation fails or panics; after
      a crash the database opens to a prefix of the batches.
    - Errors of the code, as runs or as statements about all inputs: deleted
      keys that come back after a flush or a compaction, keys that are lost
      in a table, reads that depend on random numbers, panics.

    The theorems about the database are proved for every [TableStore] and
    every iterator over its tables that keep their laws. The tables of Table.v
    keep the laws of a store, but their iterator does not keep the law of an
    exact seek in general (TableTheorems.v); the instance in DatabaseSample.v
    keeps both. The theorems also ask that a round drops no deletion that hides
    an older entry ([removals_hide]), which the code does not ensure. Runs at
    the end of DatabaseTheorems.v, over the tables of Table.v, show what
    happens without these two conditions. The theorems are for a database with
    a log and without a compaction waterline, and for batches of distinct keys
    with sequences below 2^56.

    A theorem about an operation that says what holds when it returns does
    not exclude that it panics; the witnesses show concrete runs that do not.

    Bounds and fuel:

    [cycle] is given [cycle_fuel] levels of recursion: the number of servers
    (each can be promoted once), how far the configuration is ahead of the
    log, and a constant for changes of the role. [cycle_terminates] shows
    that this is always enough. The loop of [replicate_entries] asserts fewer
    than 10000 rounds in the code, which is its fuel. The loops of the wire
    format, of blocks and of logs use up at least a byte per round and are
    given the length of their input. A read of the database and the building
    of tables are given a number of entries as fuel; theorems about them say
    that every number from some bound on, or more than the entries there are,
    is enough. Theorems about written tables are for rows that take less than
    1 GiB, counted with 64 bytes for each row, and a filter block of less than
    4 GiB ([rows_fit]): above, offsets of 32 bits could overflow.

    What is not modelled:

    In the group of servers: snapshots, log compaction, membership changes,
    clients and their callbacks, and the timers that decide when a task runs
    (every order is allowed). A server that restarts has an empty state
    machine. The logs of Raft on disk (segmented_log.rs) are not modelled.

    In the database: failures of the file system, deleting the files of tables
    that are no longer used while the database runs (they are deleted when it
    is opened), backups, file names, the identity and lock files, and the
    tasks that wait for a flush or a compaction. An operation that holds the lock of the
    state is one step, and so is the selection of a round; a crash comes
    between two steps. A crash can cut the end of the log that is written to,
    not that of the manifest or of a log that the manifest already calls the
    previous one. The other packages of the repository are not modelled. *)

From stdpp Require Export base list numbers gmap sorting.
From Stdlib Require Export ZArith Lia.

#[global] Open Scope Z_scope.

(** ** Outcomes of running Rust code

    [Done] is a normal return, [Panicked] a Rust panic ([assert!],
    [unwrap], [panic!], [todo!], an overflowing addition or subtraction of
    a build with overflow checks), [OutOfFuel] the bound of a recursive
    definition of the model being reached; the last one is no behaviour of
    the code and is excluded by the termination theorems. *)
Inductive run (A : Type) : Type :=
| Done (a : A)
| Panicked
| OutOfFuel.
Arguments Done {A} a.
Arguments Panicked {A}.
Arguments OutOfFuel {A}.

(** Stateful code: a function of the state it mutates. *)
Definition M (S A : Type) : Type := S → run (A * S).

Definition ret {S A} (a : A) : M S A := λ s, Done (a, s).

Definition bind {S A B} (m : M S A) (k : A → M S B) : M S B := λ s,
  match m s with
  | Done (a, s') => k a s'
  | Panicked => Panicked
  | OutOfFuel => OutOfFuel
  end.

Lemma run_bind {S A B} (m : M S A) (k : A → M S B) s a s' :
  m s = Done (a, s') → bind m k s = k a s'.
Proof. unfold bind. by intros ->. Qed.

Definition panic {S A} : M S A := λ _, Panicked.
Definition out_of_fuel {S A} : M S A := λ _, OutOfFuel.
Definition gets {S A} (f : S → A) : M S A := λ s, Done (f s, s).
Definition modify {S} (f : S → S) : M S unit := λ s, Done (tt, f s).

(** [assert!(b)] *)
Definition assert {S} (b : bool) : M S unit :=
  if b then ret tt else panic.

(** [o.unwrap()] *)
Definition unwrap {S A} (o : option A) : M S A :=
  match o with Some a => ret a | None => panic end.

Declare Scope run_scope.
Delimit Scope run_scope with run.
#[global] Open Scope run_scope.
Notation "'let!' x ':=' m 'in' k" := (bind m (λ x, k))
  (at level 10, x pattern, m at level 100, k at level 200,
   format "'[v' 'let!'  x  ':='  m  'in' '/' k ']'") : run_scope.
Notation "m ;! k" := (bind m (λ _, k))
  (at level 100, k at level 200, right associativity,
   format "'[v' m  ;! '/' k ']'") : run_scope.

(** ** Machine integers

    A u64 is a [Z] in [0, 2^64). Additions and subtractions follow the
    build with overflow checks (the dev and test profiles of Cargo.toml):
    leaving the range panics. *)
Definition U64_MAX : Z := 2 ^ 64 - 1.

Definition u64_add {S} (a b : Z) : M S Z :=
  if a + b <=? U64_MAX then ret (a + b) else panic.

Definition u64_sub {S} (a b : Z) : M S Z :=
  if b <=? a then ret (a - b) else panic.

(** ** Weakest preconditions

    [wpx pp pf m Q s]: from [s], [m] returns a value and a state in [Q];
    [pp] says whether a panic is acceptable, [pf] whether running out of
    fuel is. [wp] is partial correctness, [twp] total correctness and
    [fwp] allows panics but excludes exhausted fuel. *)
Section Wp.
Context {S : Type}.

Definition wpx (pp pf : Prop) {A} (m : M S A) (Q : A → S → Prop) (s : S) : Prop :=
  match m s with
  | Done (a, s') => Q a s'
  | Panicked => pp
  | OutOfFuel => pf
  end.

Context (pp pf : Prop).

Lemma wpx_ret {A} (a : A) Q s : Q a s → wpx pp pf (ret a) Q s.
Proof. done. Qed.

Lemma wpx_bind {A B} (m : M S A) (k : A → M S B) Q s :
  wpx pp pf m (λ a, wpx pp pf (k a) Q) s → wpx pp pf (bind m k) Q s.
Proof. unfold wpx, bind. by destruct (m s) as [[a s']| |]. Qed.

Lemma wpx_bind_inv {A B} (m : M S A) (k : A → M S B) Q s :
  wpx pp pf (bind m k) Q s → wpx pp pf m (λ a, wpx pp pf (k a) Q) s.
Proof. unfold wpx, bind. by destruct (m s) as [[a s']| |]. Qed.

Lemma wpx_mono {A} (m : M S A) (Q Q' : A → S → Prop) s :
  wpx pp pf m Q s → (∀ a s', Q a s' → Q' a s') → wpx pp pf m Q' s.
Proof. unfold wpx. destruct (m s) as [[a s']| |]; auto. Qed.

Lemma wpx_conj {A} (m : M S A) (Q Q' : A → S → Prop) s :
  wpx pp pf m Q s → wpx pp pf m Q' s → wpx pp pf m (λ a s', Q a s' ∧ Q' a s') s.
Proof. unfold wpx. destruct (m s) as [[a s']| |]; auto. Qed.

Lemma wpx_gets {A} (f : S → A) (Q : A → S → Prop) s :
  Q (f s) s → wpx pp pf (gets f) Q s.
Proof. done. Qed.

Lemma wpx_modify (f : S → S) (Q : unit → S → Prop) s :
  Q tt (f s) → wpx pp pf (modify f) Q s.
Proof. done. Qed.

Lemma wpx_panic {A} (Q : A → S → Prop) s : pp → wpx pp pf panic Q s.
Proof. done. Qed.

Lemma wpx_assert (b : bool) (Q : unit → S → Prop) s :
  (b = true → Q tt s) → (b = false → pp) → wpx pp pf (assert b) Q s.
Proof. destruct b; cbn; auto. Qed.

Lemma wpx_unwrap {A} (o : option A) (Q : A → S → Prop) s :
  (∀ a, o = Some a → Q a s) → (o = None → pp) → wpx pp pf (unwrap o) Q s.
Proof. destruct o; cbn; auto. Qed.

Lemma wpx_u64_add (a b : Z) (Q : Z → S → Prop) s :
  (a + b ≤ U64_MAX → Q (a + b) s) → (U64_MAX < a + b → pp) →
  wpx pp pf (u64_add a b) Q s.
Proof.
  unfold u64_add. intros HQ Hp. destruct (a + b <=? U64_MAX) eqn:E.
  - apply HQ. by apply Z.leb_le.
  - apply Hp. by apply Z.leb_gt.
Qed.

Lemma wpx_u64_sub (a b : Z) (Q : Z → S → Prop) s :
  (b ≤ a → Q (a - b) s) → (a < b → pp) → wpx pp pf (u64_sub a b) Q s.
Proof.
  unfold u64_sub. intros HQ Hp. destruct (b <=? a) eqn:E.
  - apply HQ. by apply Z.leb_le.
  - apply Hp. by apply Z.leb_gt.
Qed.
End Wp.

#[global] Arguments wpx : simpl never.

Abbreviation wp := (wpx True True).
Abbreviation fwp := (wpx True False).
Abbreviation twp := (wpx False False).

Lemma wpx_weaken {S A} (pp pp' pf pf' : Prop) (m : M S A) Q s :
  (pp → pp') → (pf → pf') → wpx pp pf m Q s → wpx pp' pf' m Q s.
Proof. unfold wpx. destruct (m s) as [[a s']| |]; auto. Qed.

Lemma wpx_done {S A} pp pf (m : M S A) Q s a s' :
  wpx pp pf m Q s → m s = Done (a, s') → Q a s'.
Proof. intros H Hm. unfold wpx in H. by rewrite Hm in H. Qed.

Lemma wpx_run {S A} pp pf (m : M S A) (Q : A → S → Prop) s a s' :
  m s = Done (a, s') → Q a s' → wpx pp pf m Q s.
Proof. intros Hm HQ. unfold wpx. by rewrite Hm. Qed.

(** A monadic [for] loop over a list. *)
Fixpoint for_each {S A} (l : list A) (f : A → M S unit) : M S unit :=
  match l with
  | [] => ret tt
  | x :: l' => f x ;! for_each l' f
  end.

Lemma wpx_for_each {S A} pp pf (f : A → M S unit) (I : list A → S → Prop) (Q : unit → S → Prop) l s :
  I l s →
  (∀ x l' s', I (x :: l') s' → wpx pp pf (f x) (λ _ s'', I l' s'') s') →
  (∀ s', I [] s' → Q tt s') →
  wpx pp pf (for_each l f) Q s.
Proof.
  intros HI Hstep HQ. revert s HI.
  induction l as [|x l IH]; intros s HI; cbn [for_each].
  - apply wpx_ret. auto.
  - apply wpx_bind. eapply wpx_mono; [by apply Hstep|]. intros [] s' HI'. cbn. auto.
Qed.

(** ** Automation *)

(** Boolean tests on [Z] turned into propositions. *)
Lemma Zltb_true a b : (a <? b) = true ↔ a < b. Proof. apply Z.ltb_lt. Qed.
Lemma Zltb_false a b : (a <? b) = false ↔ b ≤ a. Proof. apply Z.ltb_ge. Qed.
Lemma Zleb_true a b : (a <=? b) = true ↔ a ≤ b. Proof. apply Z.leb_le. Qed.
Lemma Zleb_false a b : (a <=? b) = false ↔ b < a. Proof. apply Z.leb_gt. Qed.
Lemma Zgtb_true a b : (a >? b) = true ↔ b < a. Proof. rewrite Z.gtb_lt. done. Qed.
Lemma Zgtb_false a b : (a >? b) = false ↔ a ≤ b. Proof. rewrite Z.gtb_ltb. apply Z.ltb_ge. Qed.
Lemma Zgeb_true a b : (a >=? b) = true ↔ b ≤ a. Proof. rewrite Z.geb_leb. apply Z.leb_le. Qed.
Lemma Zgeb_false a b : (a >=? b) = false ↔ a < b. Proof. rewrite Z.geb_leb. apply Z.leb_gt. Qed.

#[global] Create Rewrite HintDb b2p.
#[export] Hint Rewrite Zltb_true Zltb_false Zleb_true Zleb_false Zgtb_true Zgtb_false
  Zgeb_true Zgeb_false Z.eqb_eq Z.eqb_neq andb_true_iff andb_false_iff
  orb_true_iff orb_false_iff negb_true_iff negb_false_iff
  Nat.ltb_lt Nat.ltb_ge Nat.leb_le Nat.leb_gt Nat.eqb_eq Nat.eqb_neq : b2p.

Ltac b2p := autorewrite with b2p in *.

(** One step of symbolic execution on a [wpx] goal. *)
Ltac wp_step :=
  cbn beta iota;
  lazymatch goal with
  | |- wpx _ _ (bind _ _) _ _ => apply wpx_bind
  | |- wpx _ _ (ret _) _ _ => apply wpx_ret
  | |- wpx _ _ (gets _) _ _ => apply wpx_gets
  | |- wpx _ _ (modify _) _ _ => apply wpx_modify
  | |- wpx _ _ panic _ _ => apply wpx_panic
  | |- wpx _ _ (assert _) _ _ => apply wpx_assert; [intros ?|intros ?; try exact I]
  | |- wpx _ _ (unwrap _) _ _ => apply wpx_unwrap; [intros ? ?|intros ?; try exact I]
  | |- wpx _ _ (u64_add _ _) _ _ => apply wpx_u64_add; [intros ?|intros ?; try exact I]
  | |- wpx _ _ (u64_sub _ _) _ _ => apply wpx_u64_sub; [intros ?|intros ?; try exact I]
  end; cbn beta iota.

(** Split on the discriminee of the program's next [if] or [match]. *)
Ltac wp_case :=
  lazymatch goal with
  | |- wpx _ _ (if ?b then _ else _) _ _ => destruct b eqn:?
  | |- wpx _ _ (match ?x with _ => _ end) _ _ => destruct x eqn:?
  end.

(** Use a specification already proved for the program's next call. *)
Tactic Notation "wp_use" uconstr(H) := eapply wpx_mono; [eapply H|cbn beta].

(** ** Generic list facts *)
Lemma last_app_one {A} (l : list A) x : last (l ++ [x]) = Some x.
Proof. apply last_snoc. Qed.

Lemma take_app_le_eq {A} (l k : list A) n : (n <= length l)%nat → take n (l ++ k) = take n l.
Proof. apply take_app_le. Qed.

(** ** Filtered and sorted lists *)

Lemma filter_true {A} (P : A → Prop) `{!∀ x, Decision (P x)} (l : list A) : Forall P l → filter P l = l.
Proof. induction 1 as [|x l Hx _ IH]; [done|]. by rewrite filter_cons_True, IH. Qed.

Lemma filter_fmap {A B} (f : A → B) (P : B → Prop) `{!∀ x, Decision (P x)} (l : list A) :
  filter P (f <$> l) = f <$> filter (λ x, P (f x)) l.
Proof. induction l as [|x l IH]; [done|]. rewrite fmap_cons, !filter_cons, IH. by destruct (decide _). Qed.

Lemma sorted_split {A} (R : relation A) (P : A → Prop) `{!∀ x, Decision (P x)} l :
  StronglySorted R l → (∀ x y, R x y → P y → P x) →
  ∃ l1 l2, l = l1 ++ l2 ∧ Forall P l1 ∧ Forall (λ x, ¬ P x) l2.
Proof.
  intros Hs Hmono. induction Hs as [|x l _ IH Hx]; [by exists [], []|].
  destruct (decide (P x)) as [HP|HP].
  - destruct IH as (l1 & l2 & -> & H1 & H2). exists (x :: l1), l2. split_and!; [done|by constructor|done].
  - exists [], (x :: l). split_and!; [done|done|]. constructor; [done|].
    rewrite Forall_forall in Hx |- *. intros y Hy HPy. eauto.
Qed.

Lemma filter_none {A} (P : A → Prop) `{!∀ x, Decision (P x)} l :
  Forall (λ x, ¬ P x) l → filter P l = [].
Proof. induction 1 as [|x l Hx _ IH]; [done|]. by rewrite filter_cons_False. Qed.

Lemma head_filter_app {A} (P : A → Prop) `{!∀ x, Decision (P x)} l1 l2 :
  Forall (λ x, ¬ P x) l1 → head (filter P (l1 ++ l2)) = head (filter P l2).
Proof. intros Hn. by rewrite filter_app, filter_none. Qed.

(** Up to the first element that satisfies [P]. *)
Lemma filter_first {A} (P : A → Prop) `{!∀ x, Decision (P x)} l :
  (∃ l1 x l2, l = l1 ++ x :: l2 ∧ Forall (λ x, ¬ P x) l1 ∧ P x) ∨ Forall (λ x, ¬ P x) l.
Proof.
  induction l as [|x l IH]; [by right|]. destruct (decide (P x)) as [HP|HP]; [left; by exists [], x, l|].
  destruct IH as [(l1 & y & l2 & -> & H1 & H2)|Hn]; [left; exists (x :: l1), y, l2|right; by constructor].
  split_and!; [done|by constructor|done].
Qed.

Lemma head_filter_first {A} (P : A → Prop) `{!∀ x, Decision (P x)} l1 x l2 :
  Forall (λ x, ¬ P x) l1 → P x → head (filter P (l1 ++ x :: l2)) = Some x.
Proof. intros H1 Hx. rewrite head_filter_app by done. by rewrite filter_cons_True. Qed.

Lemma head_filter_none {A} (P : A → Prop) `{!∀ x, Decision (P x)} l :
  Forall (λ x, ¬ P x) l → head (filter P l) = None.
Proof. intros Hn. by rewrite filter_none. Qed.

Lemma last_filter {A} (P : A → Prop) `{!∀ x, Decision (P x)} l x :
  last l = Some x → P x → last (filter P l) = Some x.
Proof.
  intros [l' ->]%last_Some HP. rewrite filter_app, filter_cons_True by done. apply last_snoc.
Qed.

Lemma filter_ext_in {A} (P P' : A → Prop) `{!∀ x, Decision (P x), !∀ x, Decision (P' x)} (l : list A) :
  (∀ x, x ∈ l → P x ↔ P' x) → filter P l = filter P' l.
Proof.
  induction l as [|x l IH]; [done|]. intros Hx. rewrite !filter_cons, IH by set_solver.
  assert (P x ↔ P' x) as Hxx by set_solver. by destruct (decide (P x)), (decide (P' x)); [|tauto..|].
Qed.

Lemma sorted_insert {A} (R : relation A) l1 l2 x :
  StronglySorted R (l1 ++ l2) → Forall (λ y, R y x) l1 → Forall (R x) l2 → StronglySorted R (l1 ++ x :: l2).
Proof.
  rewrite !StronglySorted_app, StronglySorted_cons, !Forall_forall. intros (H1 & H2 & H3) H4 H5.
  split_and!; [|done|done|done]. intros y z Hy [->|Hz]%elem_of_cons; eauto.
Qed.

Lemma sorted_impl_in {A} (R R' : relation A) (l : list A) :
  (∀ x y, x ∈ l → y ∈ l → R x y → R' x y) → StronglySorted R l → StronglySorted R' l.
Proof.
  intros Himp Hs. induction Hs as [|x l Hs IH Hx]; constructor.
  - apply IH. intros y z Hy Hz. apply Himp; by right.
  - rewrite Forall_forall in Hx |- *. intros y Hy. apply Himp; [by left|by right|auto].
Qed.

Lemma reverse_seq_S n : reverse (seq 0 (S n)) = n :: reverse (seq 0 n).
Proof. by rewrite seq_S, reverse_snoc. Qed.

Lemma filter_filter_impl {A} (P Q : A → Prop) `{!∀ x, Decision (P x), !∀ x, Decision (Q x)} (l : list A) :
  (∀ x, P x → Q x) → filter P (filter Q l) = filter P l.
Proof.
  intros Himp. induction l as [|x l IH]; [done|]. rewrite (filter_cons Q). destruct (decide (Q x)).
  - by rewrite !filter_cons, IH.
  - rewrite filter_cons_False by auto. done.
Qed.

Lemma sorted_filter {A} (R : A → A → Prop) (P : A → Prop) `{!∀ x, Decision (P x)} (l : list A) :
  StronglySorted R l → StronglySorted R (filter P l).
Proof.
  induction 1 as [|x l Hs IH Hx]; [constructor|]. rewrite filter_cons. destruct (decide (P x)); [|done].
  constructor; [done|]. apply Forall_forall. intros y [_ Hy]%list_elem_of_filter. rewrite Forall_forall in Hx. auto.
Qed.

Lemma sorted_nodup {A B} (R : relation A) (f : A → B) (l : list A) :
  StronglySorted R l → NoDup (f <$> l) → StronglySorted (λ a b, R a b ∧ f a ≠ f b) l.
Proof.
  induction 1 as [|x l Hs IH Hx]; [constructor|]. rewrite fmap_cons, NoDup_cons. intros [Hnin Hnd].
  constructor; [by apply IH|]. rewrite Forall_forall in *. intros y Hy. split; [auto|]. intros E. apply Hnin.
  rewrite E. by apply list_elem_of_fmap_2.
Qed.

Lemma sorted_reverse {A} (R : relation A) (l : list A) : StronglySorted R l → StronglySorted (flip R) (reverse l).
Proof.
  induction 1 as [|x l Hs IH Hx]; [constructor|]. rewrite reverse_cons. apply StronglySorted_app_2; [|done|by repeat constructor].
  intros y z Hy ->%list_elem_of_singleton. rewrite Forall_forall in Hx. apply Hx. by apply elem_of_reverse.
Qed.

(** The head of a list in descending order is the last of the same elements in
    ascending order. *)
Lemma head_last {A} (f : A → Z) (l1 l2 : list A) :
  l1 ≡ₚ l2 → StronglySorted (λ a b, f b < f a) l1 → StronglySorted (λ a b, f a < f b) l2 → head l1 = last l2.
Proof.
  intros Hp H1 H2. apply sorted_reverse in H2. rewrite <- head_reverse. f_equal.
  assert (AntiSymm (=) (λ a b, f b < f a)) by (intros a b ? ?; lia).
  apply (StronglySorted_unique (λ a b, f b < f a)); [done|exact H2|]. by rewrite reverse_Permutation.
Qed.
