(* ===== verification/Algorithms.v ===== *)
(** * Binary searches of [common::algorithms]

    [lower_bound_by] and [upper_bound_by] of
    src/pkg/common/src/algorithms/mod.rs, which the raft log metadata and
    the datastore use on sorted sequences. A [SliceLike] (a slice, or the
    two halves of a [VecDeque]) is the list of its elements; [slice] and
    [slice_from] are [take] and [drop] on it. *)

From S2P Require Import Prelude.

Section Search.
Context {T : Type}.

(** The loop of [upper_bound_by]: [values] is the remaining slice,
    [offset] the position of its first element in the original one. *)
Fixpoint upper_bound_loop (fuel : nat) (less_eq : T → bool)
    (values : list T) (offset : nat) (best : option nat) : option nat :=
  match fuel with
  | O => best
  | S fuel' =>
    if (length values =? 0)%nat then best else
    let mid_idx := (length values / 2)%nat in
    match values !! mid_idx with
    | None => best
    | Some v =>
      if less_eq v then
        upper_bound_loop fuel' less_eq (drop (mid_idx + 1) values)
          (offset + (mid_idx + 1)) (Some (mid_idx + offset)%nat)
      else
        upper_bound_loop fuel' less_eq (take mid_idx values) offset best
    end
  end.

(** The slice shrinks at every iteration, so its length plus one bounds
    the number of iterations. *)
Definition upper_bound_by (values : list T) (less_eq : T → bool) : option nat :=
  upper_bound_loop (S (length values)) less_eq values 0 None.

Fixpoint lower_bound_loop (fuel : nat) (greater_eq : T → bool)
    (values : list T) (offset : nat) (best : option nat) : option nat :=
  match fuel with
  | O => best
  | S fuel' =>
    if (length values =? 0)%nat then best else
    let mid_idx := (length values / 2)%nat in
    match values !! mid_idx with
    | None => best
    | Some v =>
      if greater_eq v then
        lower_bound_loop fuel' greater_eq (take mid_idx values) offset
          (Some (mid_idx + offset)%nat)
      else
        lower_bound_loop fuel' greater_eq (drop (mid_idx + 1) values)
          (offset + (mid_idx + 1)) best
    end
  end.

Definition lower_bound_by (values : list T) (greater_eq : T → bool) : option nat :=
  lower_bound_loop (S (length values)) greater_eq values 0 None.
End Search.

(** ** Specification

    On a sequence where the test holds of a prefix exactly ([split_at n]),
    the searches find the boundary. *)
Section SearchSpec.
Context {T : Type}.
Implicit Types (l : list T) (p : T → bool).

(** [p] holds of the first [n] elements and of no other. *)
Definition holds_before (p : T → bool) (n : nat) (l : list T) : Prop :=
  ∀ i x, l !! i = Some x → p x = bool_decide (i < n)%nat.

Definition index_before (n : nat) : option nat :=
  match n with O => None | S m => Some m end.

Definition index_from (n len : nat) : option nat :=
  if (n <? len)%nat then Some n else None.

Lemma mid_lookup l : l ≠ [] → ∃ v, l !! (length l / 2)%nat = Some v.
Proof.
  intros Hl. apply lookup_lt_is_Some_2.
  assert (0 < length l)%nat by (destruct l; [done|simpl; lia]).
  apply Nat.div_lt; lia.
Qed.

Lemma holds_before_drop p n k l :
  holds_before p n l → holds_before p (n - k) (drop k l).
Proof.
  intros H i x Hi. rewrite lookup_drop in Hi. rewrite (H _ _ Hi).
  apply bool_decide_ext. lia.
Qed.

Lemma holds_before_take p n k l :
  holds_before p n l → (n ≤ k)%nat → holds_before p n (take k l).
Proof.
  intros H _ i x Hi. apply lookup_take_Some in Hi as [Hi _]. eauto.
Qed.

Lemma upper_bound_loop_spec p fuel : ∀ l n offset best,
  (length l < fuel)%nat → (n ≤ length l)%nat → holds_before p n l →
  (n = 0%nat → best = index_before offset) →
  upper_bound_loop fuel p l offset best = index_before (offset + n).
Proof.
  induction fuel as [|fuel IH]; intros l n offset best Hf Hn Hp Hb; [lia|].
  cbn [upper_bound_loop].
  destruct (length l =? 0)%nat eqn:E0.
  { b2p. assert (n = 0%nat) as -> by lia. rewrite Nat.add_0_r. auto. }
  b2p. destruct (mid_lookup l) as [v Hv]; [by destruct l|]. rewrite Hv.
  pose proof (lookup_lt_Some _ _ _ Hv) as Hlt.
  pose proof (Hp _ _ Hv) as Hpv.
  destruct (p v).
  - symmetry in Hpv. apply bool_decide_eq_true in Hpv.
    rewrite IH with (n := (n - (length l / 2 + 1))%nat).
    + f_equal; lia.
    + rewrite length_drop. lia.
    + rewrite length_drop. lia.
    + by apply holds_before_drop.
    + intros _. by replace (offset + (length l / 2 + 1))%nat
        with (S (length l / 2 + offset)) by lia.
  - symmetry in Hpv. apply bool_decide_eq_false in Hpv.
    apply IH; [rewrite length_take; lia|rewrite length_take; lia| |done].
    apply holds_before_take; [done|lia].
Qed.

Lemma upper_bound_by_spec p l n :
  (n ≤ length l)%nat → holds_before p n l →
  upper_bound_by l p = index_before n.
Proof.
  intros Hn Hp. unfold upper_bound_by.
  rewrite upper_bound_loop_spec with (n := n); auto.
Qed.

Lemma lower_bound_loop_spec p fuel : ∀ l n offset best,
  (length l < fuel)%nat → (n ≤ length l)%nat →
  holds_before (λ x, negb (p x)) n l →
  (best = None ∨ best = Some (offset + length l)%nat) →
  lower_bound_loop fuel p l offset best =
    if (n <? length l)%nat then Some (offset + n)%nat else best.
Proof.
  induction fuel as [|fuel IH]; intros l n offset best Hf Hn Hp Hb; [lia|].
  cbn [lower_bound_loop].
  destruct (length l =? 0)%nat eqn:E0.
  { b2p. destruct (n <? length l)%nat eqn:E; b2p; [lia|done]. }
  b2p. destruct (mid_lookup l) as [v Hv]; [by destruct l|]. rewrite Hv.
  pose proof (lookup_lt_Some _ _ _ Hv) as Hlt.
  pose proof (Hp _ _ Hv) as Hpv. cbn beta in Hpv.
  destruct (p v); cbn [negb] in Hpv; symmetry in Hpv.
  - apply bool_decide_eq_false in Hpv.
    rewrite IH with (n := n).
    + rewrite length_take, Nat.min_l by lia.
      destruct (n <? length l)%nat eqn:E; b2p; [|lia].
      destruct (n <? length l / 2)%nat eqn:E'; b2p; [done|apply (f_equal Some); lia].
    + rewrite length_take. lia.
    + rewrite length_take. lia.
    + apply holds_before_take; [done|lia].
    + right. rewrite length_take. apply (f_equal Some). lia.
  - apply bool_decide_eq_true in Hpv.
    rewrite IH with (n := (n - (length l / 2 + 1))%nat).
    + rewrite length_drop.
      destruct (n <? length l)%nat eqn:E; b2p;
        destruct (_ <? _)%nat eqn:E'; b2p; try lia; [apply (f_equal Some); lia|done].
    + rewrite length_drop. lia.
    + rewrite length_drop. lia.
    + by apply holds_before_drop.
    + rewrite length_drop. destruct Hb as [->| ->]; [by left|right; apply (f_equal Some); lia].
Qed.

Lemma lower_bound_by_spec p l n :
  (n ≤ length l)%nat → holds_before (λ x, negb (p x)) n l →
  lower_bound_by l p = index_from n (length l).
Proof.
  intros Hn Hp. unfold lower_bound_by.
  rewrite lower_bound_loop_spec with (n := n); auto.
Qed.
End SearchSpec.
