(* ===== verification/RaftProto.v ===== *)
(** * Raft messages and cluster configuration

    The protobuf messages of src/pkg/raft/proto/*.proto as records and
    inductive types, and the operations on them written by hand in
    src/pkg/raft/proto/lib.rs ([LogPosition], [Configuration]).
    The [typed_num] messages (Term, LogIndex, ServerId, RequestId) wrap one
    u64 and are modelled by it; an unset optional number reads as 0. *)

From S2P Require Import Prelude.

Abbreviation ServerId := Z (only parsing).
Abbreviation Term := Z (only parsing).
Abbreviation LogIndex := Z (only parsing).
Abbreviation RequestId := Z (only parsing).

(** ** Log positions and entries *)

Record LogPosition := mkLogPosition { pos_term : Term; pos_index : LogIndex }.

Definition LogPosition_zero : LogPosition := mkLogPosition 0 0.

#[export] Instance LogPosition_eq_dec : EqDecision LogPosition.
Proof. solve_decision. Defined.

(** The [oneof] of ConfigChange. *)
Inductive ConfigChange :=
| AddMember (id : ServerId)
| AddLearner (id : ServerId)
| RemoveServer (id : ServerId)
| AddAspiring (id : ServerId)
| ConfigChange_NOT_SET.

#[export] Instance ConfigChange_eq_dec : EqDecision ConfigChange.
Proof. solve_decision. Defined.

(** The [oneof] of LogEntryData; a command is its bytes. *)
Inductive LogEntryData :=
| Noop (b : bool)
| Config (c : ConfigChange)
| Command (data : list Z)
| LogEntryData_NOT_SET.

#[export] Instance LogEntryData_eq_dec : EqDecision LogEntryData.
Proof. solve_decision. Defined.

Record LogEntry := mkLogEntry { entry_pos : LogPosition; entry_data : LogEntryData }.

#[export] Instance LogEntry_eq_dec : EqDecision LogEntry.
Proof. solve_decision. Defined.

(** ** Configurations *)

Inductive ServerRole := UNKNOWN | LEARNER | ASPIRING | MEMBER.

#[export] Instance ServerRole_eq_dec : EqDecision ServerRole.
Proof. solve_decision. Defined.

Definition role_eqb (a b : ServerRole) : bool := bool_decide (a = b).

Record Server := mkServer { server_id : ServerId; role : ServerRole }.

#[export] Instance Server_eq_dec : EqDecision Server.
Proof. solve_decision. Defined.

Record Configuration := mkConfiguration { servers : list Server }.

#[export] Instance Configuration_eq_dec : EqDecision Configuration.
Proof. solve_decision. Defined.

Record ConfigurationSnapshot := mkConfigurationSnapshot {
  snap_last_applied : LogIndex;
  snap_data : Configuration;
}.

(** [Configuration::server]: the first server with the given id. *)
Fixpoint find_server (l : list Server) (id : ServerId) : option Server :=
  match l with
  | [] => None
  | s :: l' => if server_id s =? id then Some s else find_server l' id
  end.

Definition Configuration_server (c : Configuration) (id : ServerId) : option Server :=
  find_server (servers c) id.

Definition server_role (c : Configuration) (id : ServerId) : ServerRole :=
  match Configuration_server c id with
  | Some s => role s
  | None => UNKNOWN
  end.

(** [server_mut] followed by a change of the role of the server it returns:
    the first server with the id, or a new one (role 0 = UNKNOWN) pushed at
    the end. *)
Fixpoint update_server (l : list Server) (id : ServerId) (f : ServerRole → ServerRole)
    : list Server :=
  match l with
  | [] => [mkServer id (f UNKNOWN)]
  | s :: l' =>
    if server_id s =? id then mkServer (server_id s) (f (role s)) :: l'
    else s :: update_server l' id f
  end.

Definition server_mut (c : Configuration) (id : ServerId) (f : ServerRole → ServerRole)
    : Configuration := mkConfiguration (update_server (servers c) id f).

(** The removal loop of [apply]: the first server with the id. *)
Fixpoint remove_server (l : list Server) (id : ServerId) : list Server :=
  match l with
  | [] => []
  | s :: l' => if server_id s =? id then l' else s :: remove_server l' id
  end.

Definition aspiring_role (r : ServerRole) : ServerRole :=
  match r with
  | UNKNOWN | ASPIRING | LEARNER => ASPIRING
  | MEMBER => MEMBER
  end.

Definition Configuration_apply (c : Configuration) (change : ConfigChange) : Configuration :=
  match change with
  | AddLearner s => server_mut c s (λ _, LEARNER)
  | AddMember s => server_mut c s (λ _, MEMBER)
  | AddAspiring s => server_mut c s aspiring_role
  | RemoveServer s => mkConfiguration (remove_server (servers c) s)
  | ConfigChange_NOT_SET => c
  end.

(** ** RPC messages *)

Record RequestVoteRequest := mkRequestVoteRequest {
  rv_term : Term;
  rv_candidate_id : ServerId;
  rv_last_log_index : LogIndex;
  rv_last_log_term : Term;
  rv_leader_approval : option Term;
}.

(** [req.leader_approval()]: the default when the field is not set. *)
Definition leader_approval_value (req : RequestVoteRequest) : Term :=
  default 0 (rv_leader_approval req).

Record RequestVoteResponse := mkRequestVoteResponse {
  rvr_term : Term;
  rvr_vote_granted : bool;
  rvr_last_config_hint : option ConfigurationSnapshot;
}.

Record HeartbeatRequest := mkHeartbeatRequest { hb_term : Term; hb_leader_id : ServerId }.
Record HeartbeatResponse := mkHeartbeatResponse { hbr_term : Term }.

Record AppendEntriesRequest := mkAppendEntriesRequest {
  ae_term : Term;
  ae_leader_id : ServerId;
  ae_prev_log_index : LogIndex;
  ae_prev_log_term : Term;
  ae_entries : list LogEntry;
  ae_leader_commit : LogIndex;
  ae_timeout_now : bool;
}.

Record AppendEntriesResponse := mkAppendEntriesResponse {
  aer_term : Term;
  aer_success : bool;
  aer_last_log_index : LogIndex;
}.

Record InstallSnapshotRequest := mkInstallSnapshotRequest {
  is_term : Term;
  is_leader_id : ServerId;
  is_last_applied : LogPosition;
  is_last_config : ConfigurationSnapshot;
}.

Record InstallSnapshotResponse := mkInstallSnapshotResponse { isr_term : Term }.

(** consensus_state.proto; a [voted_for] of 0 is no vote. *)
Record Metadata := mkMetadata {
  current_term : Term;
  voted_for : ServerId;
  commit_index : LogIndex;
}.

Record LeaderHint := mkLeaderHint { hint_term : Term; hint_leader_id : option ServerId }.

(** ** Facts about configurations *)

Definition ids (c : Configuration) : list ServerId := server_id <$> servers c.

(** Every server id occurs once. *)
Definition Configuration_wf (c : Configuration) : Prop := NoDup (ids c).

(** The voting members, in order. *)
Definition is_member (s : Server) : bool := role_eqb (role s) MEMBER.
Definition members (c : Configuration) : list ServerId :=
  server_id <$> filter (λ s, is_member s = true) (servers c).

(** [ConsensusModule::majority_size] on a configuration: [usize::MAX]
    guards the empty cluster. *)
Definition majority_size (c : Configuration) : Z :=
  let num_voters :=
    foldl (λ n s, if role_eqb (role s) MEMBER then n + 1 else n) 0 (servers c) in
  if num_voters =? 0 then U64_MAX else num_voters / 2 + 1.

Section ServerList.
Implicit Types (l : list Server) (id : ServerId).

Lemma find_server_update l id f id' :
  find_server (update_server l id f) id' =
    if id' =? id then Some (mkServer id (f (from_option role UNKNOWN (find_server l id))))
    else find_server l id'.
Proof.
  induction l as [|s l IH]; simpl.
  - rewrite (Z.eqb_sym id id'). by destruct (id' =? id).
  - destruct (server_id s =? id) eqn:E; simpl; b2p.
    + rewrite E, (Z.eqb_sym id id'). destruct (id' =? id) eqn:E'; b2p; [|done].
      by subst.
    + rewrite IH. destruct (server_id s =? id') eqn:E1, (id' =? id) eqn:E2; b2p;
        try done. congruence.
Qed.

Lemma find_server_remove_ne l id id' :
  id' ≠ id → find_server (remove_server l id) id' = find_server l id'.
Proof.
  intros Hne. induction l as [|s l IH]; simpl; [done|].
  destruct (server_id s =? id) eqn:E; simpl; b2p.
  - destruct (server_id s =? id') eqn:E'; b2p; [congruence|done].
  - by rewrite IH.
Qed.

Lemma find_server_None l id : id ∉ server_id <$> l → find_server l id = None.
Proof.
  induction l as [|s l IH]; simpl; [done|].
  intros [? ?]%not_elem_of_cons.
  destruct (server_id s =? id) eqn:E; b2p; [congruence|auto].
Qed.

Lemma find_server_Some l id s : find_server l id = Some s → s ∈ l ∧ server_id s = id.
Proof.
  induction l as [|s' l IH]; simpl; [done|].
  destruct (server_id s' =? id) eqn:E; b2p; intros H.
  - simplify_eq. by split; [apply list_elem_of_here|].
  - destruct IH; auto. split; [by apply list_elem_of_further|done].
Qed.

Lemma find_server_elem l s :
  NoDup (server_id <$> l) → s ∈ l → find_server l (server_id s) = Some s.
Proof.
  induction l as [|s' l IH]; simpl; intros Hnd Hs; [by apply not_elem_of_nil in Hs|].
  apply NoDup_cons in Hnd as [Hni Hnd].
  apply elem_of_cons in Hs as [->|Hs]; [by rewrite Z.eqb_refl|].
  destruct (server_id s' =? server_id s) eqn:E; b2p; [|auto].
  exfalso. apply Hni. rewrite E. by apply list_elem_of_fmap_2.
Qed.

Lemma update_server_ids_old l id f :
  id ∈ server_id <$> l → server_id <$> update_server l id f = server_id <$> l.
Proof.
  induction l as [|s l IH]; csimpl; [by intros ?%not_elem_of_nil|].
  destruct (server_id s =? id) eqn:E; csimpl; b2p; [done|].
  intros [?|?]%elem_of_cons; [congruence|]. by rewrite IH.
Qed.

Lemma update_server_ids_new l id f :
  id ∉ server_id <$> l →
  server_id <$> update_server l id f = (server_id <$> l) ++ [id].
Proof.
  induction l as [|s l IH]; csimpl; [done|].
  intros [? ?]%not_elem_of_cons.
  destruct (server_id s =? id) eqn:E; csimpl; b2p; [congruence|]. by rewrite IH.
Qed.

Lemma remove_server_ids_sub l id i :
  i ∈ server_id <$> remove_server l id → i ∈ server_id <$> l.
Proof.
  induction l as [|s l IH]; csimpl; [done|].
  destruct (server_id s =? id); csimpl; rewrite ?elem_of_cons; naive_solver.
Qed.

Lemma remove_server_NoDup l id :
  NoDup (server_id <$> l) → NoDup (server_id <$> remove_server l id).
Proof.
  induction l as [|s l IH]; csimpl; [done|]. intros [Hni Hnd]%NoDup_cons.
  destruct (server_id s =? id); csimpl; [done|].
  apply NoDup_cons. split; [|auto]. intros H. by apply Hni, (remove_server_ids_sub _ id).
Qed.

Lemma remove_server_absent l id :
  NoDup (server_id <$> l) → find_server (remove_server l id) id = None.
Proof.
  induction l as [|s l IH]; csimpl; [done|]. intros [Hni Hnd]%NoDup_cons.
  destruct (server_id s =? id) eqn:E; b2p.
  - apply find_server_None. by rewrite <- E.
  - csimpl. destruct (server_id s =? id) eqn:E'; b2p; [done|auto].
Qed.
End ServerList.

Lemma Configuration_apply_wf c ch : Configuration_wf c → Configuration_wf (Configuration_apply c ch).
Proof.
  unfold Configuration_wf, ids. intros H.
  assert (∀ id f, NoDup (server_id <$> update_server (servers c) id f)) as Hu.
  { intros id f. destruct (decide (id ∈ server_id <$> servers c)).
    { by rewrite update_server_ids_old. }
    rewrite update_server_ids_new by done.
    apply NoDup_app. repeat split; [done| |apply NoDup_singleton].
    intros x Hx ->%list_elem_of_singleton. done. }
  destruct ch; simpl; auto using remove_server_NoDup.
Qed.
