(* ===== verification/ConfigState.v ===== *)
(** * The configuration state machine

    src/pkg/raft/src/consensus/config_state.rs: the active configuration
    with one revert record, and how log entries, truncations and commits
    change it. [revert] and [snapshot] can panic, so they are monadic. *)

From S2P Require Import Prelude RaftProto.

Record ConfigurationPending := mkConfigurationPending {
  last_change : LogIndex;
  previous : Configuration;
}.

Record ConfigurationStateMachine := mkCSM {
  csm_value : Configuration;
  csm_last_applied : LogIndex;
  csm_pending : option ConfigurationPending;
}.

Definition CSM_from (s : ConfigurationSnapshot) : ConfigurationStateMachine :=
  mkCSM (snap_data s) (snap_last_applied s) None.

(** [ConfigurationStateMachine::apply] *)
Definition CSM_apply (c : ConfigurationStateMachine) (entry : LogEntry)
    (commit_index : LogIndex) : ConfigurationStateMachine :=
  let index := pos_index (entry_pos entry) in
  if index <? csm_last_applied c then c else
  match entry_data entry with
  | Config change =>
    mkCSM (Configuration_apply (csm_value c) change) index
      (if index <? commit_index
       then Some (mkConfigurationPending index (csm_value c))
       else csm_pending c)
  | _ => mkCSM (csm_value c) index (csm_pending c)
  end.

(** [ConfigurationStateMachine::revert] *)
Definition CSM_revert {St} (c : ConfigurationStateMachine) (index : LogIndex)
    : M St ConfigurationStateMachine :=
  match csm_pending c with
  | Some pending =>
    if last_change pending <=? index
    then ret (mkCSM (previous pending) index None)
    else ret (mkCSM (csm_value c) index (csm_pending c))
  | None =>
    if csm_last_applied c >? index then panic
    else ret (mkCSM (csm_value c) index None)
  end.

(** [ConfigurationStateMachine::commit]: whether the committed snapshot
    changed, and the new state. *)
Definition CSM_commit (c : ConfigurationStateMachine) (commit_index : LogIndex)
    : bool * ConfigurationStateMachine :=
  match csm_pending c with
  | Some pending =>
    if last_change pending <=? commit_index
    then (true, mkCSM (csm_value c) (csm_last_applied c) None)
    else (false, c)
  | None => (false, c)
  end.

(** [ConfigurationStateMachine::snapshot] with [to_proto] *)
Definition CSM_snapshot {St} (c : ConfigurationStateMachine) : M St ConfigurationSnapshot :=
  match csm_pending c with
  | Some pending =>
    let! last_applied := u64_sub (last_change pending) 1 in
    ret (mkConfigurationSnapshot last_applied (previous pending))
  | None => ret (mkConfigurationSnapshot (csm_last_applied c) (csm_value c))
  end.

(** ** Roles after a change *)

(** The server a change is about. *)
Definition change_target (ch : ConfigChange) : option ServerId :=
  match ch with
  | AddMember id | AddLearner id | RemoveServer id | AddAspiring id => Some id
  | ConfigChange_NOT_SET => None
  end.

(** What a change does to the role of its target. *)
Definition change_role (ch : ConfigChange) (r : ServerRole) : ServerRole :=
  match ch with
  | AddMember _ => MEMBER
  | AddLearner _ => LEARNER
  | AddAspiring _ => aspiring_role r
  | RemoveServer _ => UNKNOWN
  | ConfigChange_NOT_SET => r
  end.

Lemma server_role_server_mut c id f id' :
  server_role (server_mut c id f) id' =
    if id' =? id then f (server_role c id) else server_role c id'.
Proof.
  unfold server_role, Configuration_server, server_mut. cbn [servers].
  rewrite find_server_update. destruct (id' =? id); [|done].
  cbn [role]. by destruct (find_server (servers c) id).
Qed.

Lemma server_role_remove c id id' :
  Configuration_wf c →
  server_role (mkConfiguration (remove_server (servers c) id)) id' =
    if id' =? id then UNKNOWN else server_role c id'.
Proof.
  intros Hwf. unfold server_role, Configuration_server. cbn [servers].
  destruct (id' =? id) eqn:E; b2p.
  - subst. by rewrite remove_server_absent.
  - by rewrite find_server_remove_ne.
Qed.

Lemma server_role_apply c ch id' :
  Configuration_wf c →
  server_role (Configuration_apply c ch) id' =
    if decide (change_target ch = Some id') then change_role ch (server_role c id')
    else server_role c id'.
Proof.
  intros Hwf. destruct ch as [id|id|id|id|]; cbn [Configuration_apply change_target].
  1,2,4: rewrite server_role_server_mut; destruct (id' =? id) eqn:E; b2p; subst;
    destruct (decide _); try done; congruence.
  - rewrite server_role_remove by done. destruct (id' =? id) eqn:E; b2p; subst;
    destruct (decide _); try done; congruence.
  - done.
Qed.

Lemma elem_of_members c id :
  Configuration_wf c → id ∈ members c ↔ server_role c id = MEMBER.
Proof.
  intros Hwf. unfold members, server_role, Configuration_server. split.
  - intros (s & -> & [Hm Hs]%list_elem_of_filter)%list_elem_of_fmap.
    rewrite find_server_elem by done.
    unfold is_member, role_eqb in Hm. by apply bool_decide_eq_true in Hm.
  - destruct (find_server (servers c) id) as [s|] eqn:E; [|done]. intros Hr.
    apply find_server_Some in E as [Hs <-].
    apply list_elem_of_fmap_2, list_elem_of_filter. split; [|done].
    unfold is_member, role_eqb. by apply bool_decide_eq_true.
Qed.

Lemma members_NoDup c : Configuration_wf c → NoDup (members c).
Proof.
  unfold Configuration_wf, ids, members. destruct c as [l]. cbn [servers].
  induction l as [|s l IH]; csimpl; [intros _; apply NoDup_nil; done|].
  intros [Hni Hnd]%NoDup_cons. rewrite filter_cons. destruct (decide _); [|auto].
  csimpl. apply NoDup_cons. split; [|auto].
  intros (s' & E & [_ Hs']%list_elem_of_filter)%list_elem_of_fmap.
  apply Hni. rewrite E. by apply list_elem_of_fmap_2.
Qed.

Lemma majority_size_members c :
  majority_size c =
    if Z.of_nat (length (members c)) =? 0 then U64_MAX
    else Z.of_nat (length (members c)) / 2 + 1.
Proof.
  unfold majority_size.
  assert (∀ l n, foldl (λ n s, if role_eqb (role s) MEMBER then n + 1 else n) n l =
    n + Z.of_nat (length (server_id <$> filter (λ s, is_member s = true) l))) as ->.
  { induction l as [|s l IH]; intros n; csimpl; [lia|].
    rewrite IH, filter_cons. unfold is_member.
    destruct (role_eqb (role s) MEMBER) eqn:E; destruct (decide _); csimpl; try lia; done. }
  done.
Qed.

(** ** Quorums *)

(** A set of distinct voting members large enough to decide. *)
Definition quorum (c : Configuration) (Q : list ServerId) : Prop :=
  NoDup Q ∧ (∀ x, x ∈ Q → x ∈ members c) ∧ majority_size c ≤ Z.of_nat (length Q).

Lemma quorum_half c Q : Configuration_wf c → quorum c Q →
  Z.of_nat (length (members c)) < 2 * Z.of_nat (length Q).
Proof.
  intros Hwf (Hnd & Hsub & Hlen). rewrite majority_size_members in Hlen.
  destruct (Z.of_nat _ =? 0) eqn:E; b2p; [|Z.div_mod_to_equations; lia].
  destruct Q as [|x Q]; [cbn in Hlen; unfold U64_MAX in Hlen; lia|simpl; lia].
Qed.

(** Two disjoint duplicate-free lists inside a list of [n] elements. *)
Lemma disjoint_lengths (Q1 Q2 L : list ServerId) :
  NoDup Q1 → NoDup Q2 → (∀ x, x ∈ Q1 → x ∈ Q2 → False) →
  (∀ x, x ∈ Q1 → x ∈ L) → (∀ x, x ∈ Q2 → x ∈ L) →
  (length Q1 + length Q2 ≤ length L)%nat.
Proof.
  intros H1 H2 Hd S1 S2. rewrite <- length_app.
  apply submseteq_length, NoDup_submseteq.
  - apply NoDup_app. eauto.
  - intros x [?|?]%elem_of_app; auto.
Qed.

(** Dropping one id removes it from a duplicate-free list and nothing else. *)
Lemma length_without (L : list ServerId) id : NoDup L →
  length L = (length (filter (λ x, x ≠ id) L) + (if decide (id ∈ L) then 1 else 0))%nat.
Proof.
  induction L as [|y L IH]; intros Hnd.
  - by rewrite decide_False by apply not_elem_of_nil.
  - apply NoDup_cons in Hnd as [Hni Hnd]. rewrite filter_cons. specialize (IH Hnd).
    destruct (decide (y ≠ id)) as [Hy|Hy]; cbn [length].
    + rewrite IH. destruct (decide (id ∈ L)), (decide (id ∈ y :: L)) as [Hc|Hc]; try lia;
        rewrite elem_of_cons in Hc; naive_solver.
    + apply dec_stable in Hy as ->.
      rewrite (decide_True (P := id ∈ id :: L)) by apply list_elem_of_here.
      rewrite decide_False in IH by done. lia.
Qed.

Lemma members_apply_other c ch id :
  Configuration_wf c → change_target ch ≠ Some id →
  id ∈ members (Configuration_apply c ch) ↔ id ∈ members c.
Proof.
  intros Hwf Ht. rewrite !elem_of_members by auto using Configuration_apply_wf.
  rewrite server_role_apply by done. by rewrite decide_False.
Qed.

(** Quorums of one configuration share a member. *)
Lemma quorum_overlap c Q1 Q2 :
  Configuration_wf c → quorum c Q1 → quorum c Q2 → ∃ x, x ∈ Q1 ∧ x ∈ Q2.
Proof.
  intros Hwf HQ1 HQ2.
  pose proof (quorum_half _ _ Hwf HQ1). pose proof (quorum_half _ _ Hwf HQ2).
  destruct HQ1 as (N1 & S1 & _), HQ2 as (N2 & S2 & _).
  destruct (decide (Exists (λ x, x ∈ Q2) Q1)) as [(x & ? & ?)%Exists_exists|Hn]; [eauto|].
  assert (length Q1 + length Q2 ≤ length (members c))%nat; [|lia].
  apply disjoint_lengths; auto. intros x ? ?. apply Hn, Exists_exists. eauto.
Qed.

(** The members other than [id], a list both configurations share. *)
Lemma without_submseteq (L1 L2 : list ServerId) id :
  NoDup L1 → (∀ x, x ≠ id → x ∈ L1 → x ∈ L2) →
  (length (filter (λ x, x ≠ id) L1) ≤ length (filter (λ x, x ≠ id) L2))%nat.
Proof.
  intros Hnd Hsub. apply submseteq_length, NoDup_submseteq; [by apply NoDup_filter|].
  intros x [? ?]%list_elem_of_filter. apply list_elem_of_filter. auto.
Qed.

(** Disjoint quorums of two configurations that differ in one server only
    would need more members than both have together. *)
Lemma quorum_overlap_differ c1 c2 id Q1 Q2 :
  Configuration_wf c1 → Configuration_wf c2 →
  (∀ x, x ≠ id → x ∈ members c1 ↔ x ∈ members c2) →
  quorum c1 Q1 → quorum c2 Q2 → ∃ x, x ∈ Q1 ∧ x ∈ Q2.
Proof.
  intros W1 W2 Hdiff HQ1 HQ2.
  pose proof (quorum_half _ _ W1 HQ1) as L1. pose proof (quorum_half _ _ W2 HQ2) as L2.
  destruct HQ1 as (N1 & S1 & _), HQ2 as (N2 & S2 & _).
  destruct (decide (Exists (λ x, x ∈ Q2) Q1)) as [(x & ? & ?)%Exists_exists|Hn]; [eauto|].
  exfalso.
  assert (∀ x, x ∈ Q1 → x ∈ Q2 → False) as Hd.
  { intros x ? ?. apply Hn, Exists_exists. eauto. }
  pose proof (length_without _ id (members_NoDup _ W1)) as E1.
  pose proof (length_without _ id (members_NoDup _ W2)) as E2.
  assert (length (filter (λ x, x ≠ id) (members c1)) =
          length (filter (λ x, x ≠ id) (members c2)))%nat as E.
  { apply Nat.le_antisymm; apply without_submseteq; auto using members_NoDup; naive_solver. }
  destruct (decide (id ∈ members c2)) as [Hin|Hin].
  - assert (length Q1 + length Q2 ≤ length (members c2))%nat; [|case_decide; lia].
    apply disjoint_lengths; auto. intros x Hx.
    destruct (decide (x = id)) as [->|]; [done|]. by apply Hdiff, S1.
  - assert (length Q1 + length Q2 ≤ length (members c1))%nat; [|case_decide; lia].
    apply disjoint_lengths; auto. intros x Hx.
    destruct (decide (x = id)) as [->|]; [by apply S2 in Hx|]. by apply Hdiff, S2.
Qed.

(** A quorum before a membership change and one after it share a member,
    whichever single change [Configuration_apply] makes. *)
Theorem quorum_overlap_apply c ch Q1 Q2 :
  Configuration_wf c → quorum c Q1 → quorum (Configuration_apply c ch) Q2 →
  ∃ x, x ∈ Q1 ∧ x ∈ Q2.
Proof.
  intros Hwf HQ1 HQ2. destruct (change_target ch) as [id|] eqn:Et.
  - eapply (quorum_overlap_differ c (Configuration_apply c ch) id); eauto using Configuration_apply_wf.
    intros x Hx. rewrite members_apply_other; [done|done|congruence].
  - destruct ch; try done. by eapply quorum_overlap.
Qed.

(** ** Assumptions on the group

    Configuration states, log entries and server ids that are closed under
    everything the module does to its configuration and its vote. What the module keeps
    is proved for every such policy: [any_config] allows everything,
    [fixed_config c] describes a group whose servers are those of [c]. *)
Class ConfigPolicy := mkConfigPolicy {
  cfg_ok : ConfigurationStateMachine → Prop;
  entry_ok : LogEntryData → Prop;
  id_ok : ServerId → Prop;
  noop_ok b : entry_ok (Noop b);
  apply_ok c e ci : cfg_ok c → entry_ok (entry_data e) → cfg_ok (CSM_apply c e ci);
  commit_ok c ci : cfg_ok c → cfg_ok (CSM_commit c ci).2;
  revert_ok {St} c i (s : St) pf : cfg_ok c →
    wpx True pf (CSM_revert c i) (λ c' s', s' = s ∧ cfg_ok c') s;
  snapshot_of_ok {St} c (s : St) pf : cfg_ok c →
    wpx True pf (CSM_snapshot c) (λ snap s', s' = s ∧ cfg_ok (CSM_from snap)) s;
  id_zero : id_ok 0;
  id_positive id : 0 < id → id_ok id;
  promote_ok c id : cfg_ok c → server_role (csm_value c) id = ASPIRING →
    entry_ok (Config (AddMember id));
}.

(** A configuration snapshot that may be adopted. *)
Definition snapshot_ok {CP : ConfigPolicy} (s : ConfigurationSnapshot) : Prop := cfg_ok (CSM_from s).

(** The entries do not lead to a configuration that is not allowed. *)
Definition entries_ok {CP : ConfigPolicy} (l : list LogEntry) : Prop :=
  Forall (λ e, entry_ok (entry_data e)) l.

Lemma apply_all_ok {CP : ConfigPolicy} {A} c (l : list (LogEntry * A)) ci :
  cfg_ok c → entries_ok (fst <$> l) → cfg_ok (foldl (λ c e, CSM_apply c e.1 ci) c l).
Proof.
  revert c. induction l as [|e l IH]; intros c Hc; csimpl; [done|].
  intros [He Hl]%Forall_cons. apply IH; [by apply apply_ok|done].
Qed.

Lemma CSM_revert_pure {St} pf c i (s : St) : wpx True pf (CSM_revert c i) (λ _ s', s' = s) s.
Proof. unfold CSM_revert. repeat first [wp_step|wp_case]; done. Qed.

Lemma CSM_snapshot_pure {St} pf c (s : St) :
  wpx True pf (CSM_snapshot c) (λ _ s', s' = s) s.
Proof. unfold CSM_snapshot. wp_case; repeat wp_step; done. Qed.

#[export, refine] Instance any_config : ConfigPolicy | 1000 := {|
  cfg_ok _ := True;
  entry_ok _ := True;
  id_ok _ := True;
|}.
Proof.
  all: try done.
  - intros St c i s pf _. eapply wpx_mono; [apply CSM_revert_pure|]. by intros ? ? ->.
  - intros St c s pf _. eapply wpx_mono; [apply CSM_snapshot_pure|]. by intros ? ? ->.
Defined.

(** No server is about to be promoted. *)
Definition no_aspiring (c : Configuration) : Prop := ∀ id, server_role c id ≠ ASPIRING.

Definition is_config (d : LogEntryData) : bool :=
  match d with Config _ => true | _ => false end.

Definition fixed_csm (c : Configuration) (m : ConfigurationStateMachine) : Prop :=
  csm_value m = c ∧ csm_pending m = None.

#[refine] Definition fixed_config (c : Configuration) (Hc : no_aspiring c) : ConfigPolicy := {|
  cfg_ok := fixed_csm c;
  entry_ok d := is_config d = false;
  id_ok id := 0 ≤ id;
|}.
Proof.
  - done.
  - intros m [p d] ci [Hv Hp] Hd. unfold CSM_apply. cbn in *.
    destruct (_ <? _); [done|]. by destruct d.
  - intros m ci [Hv Hp]. unfold CSM_commit. by rewrite Hp.
  - intros St m i s pf [Hv Hp]. unfold CSM_revert. rewrite Hp. wp_case; wp_step; done.
  - intros St m s pf [Hv Hp]. unfold CSM_snapshot. rewrite Hp. by wp_step.
  - done.
  - lia.
  - intros m id [Hv _] Ha. rewrite Hv in Ha. by destruct (Hc id).
Defined.
