(* ===== verification/LogMetadata.v ===== *)
(** * Compressed log metadata

    src/pkg/raft/src/log/log_metadata.rs: the run-length encoded view of
    the raft log (term and flush sequence of every index) that the
    consensus module keeps. The operations are first transcribed, then
    related to the list of offsets they encode. *)

From S2P Require Import Prelude Algorithms RaftProto.

(** A [LogSequence] is its [opaque_value]. *)
Abbreviation LogSequence := Z (only parsing).

Record LogOffset := mkLogOffset { position : LogPosition; sequence : LogSequence }.

#[export] Instance LogOffset_eq_dec : EqDecision LogOffset.
Proof. solve_decision. Defined.

Abbreviation off_index o := (pos_index (position o)).
Abbreviation off_term o := (pos_term (position o)).

Definition LogOffset_zero : LogOffset := mkLogOffset LogPosition_zero 0.

Record LogMetadata := mkLogMetadata {
  offsets : list LogOffset;
  last_offset : LogOffset;
}.

Definition LogMetadata_new : LogMetadata :=
  mkLogMetadata [LogOffset_zero] LogOffset_zero.

(** [prev]: [&self.offsets[0]] *)
Definition LogMetadata_prev (lm : LogMetadata) : option LogOffset := offsets lm !! 0%nat.

Definition LogMetadata_last (lm : LogMetadata) : LogOffset := last_offset lm.

(** The sums of [lookup] and [lookup_seq] do not overflow: the offset they give
    is between two offsets of the log. *)
Definition LogMetadata_lookup (lm : LogMetadata) (index : LogIndex) : option LogOffset :=
  if index >? off_index (last_offset lm) then None else
  match upper_bound_by (offsets lm) (λ off, off_index off <=? index) with
  | None => None
  | Some prev_offset_idx =>
    prev_offset ← offsets lm !! prev_offset_idx;
    Some (mkLogOffset (mkLogPosition (off_term prev_offset) index)
            (sequence prev_offset + (index - off_index prev_offset)))
  end.

Definition LogMetadata_lookup_seq (lm : LogMetadata) (seq : LogSequence) : option LogOffset :=
  if seq >? sequence (last_offset lm) then None else
  match upper_bound_by (offsets lm) (λ off, sequence off <=? seq) with
  | None => None
  | Some prev_offset_idx =>
    prev_offset ← offsets lm !! prev_offset_idx;
    let relative_offset := seq - sequence prev_offset in
    Some (mkLogOffset (mkLogPosition (off_term prev_offset)
                         (off_index prev_offset + relative_offset)) seq)
  end.

Definition LogMetadata_truncate {St} (lm : LogMetadata) (start_index : LogIndex)
    : M St LogMetadata :=
  let! before := u64_sub start_index 1 in
  let! prev_offset_idx :=
    unwrap (upper_bound_by (offsets lm) (λ off, off_index off <=? before)) in
  let lm1 := mkLogMetadata (take (prev_offset_idx + 1) (offsets lm)) (last_offset lm) in
  let! last := unwrap (LogMetadata_lookup lm1 before) in
  ret (mkLogMetadata (offsets lm1) last).

Definition LogMetadata_append {St} (lm : LogMetadata) (offset : LogOffset)
    : M St LogMetadata :=
  assert (off_term offset >=? off_term (LogMetadata_last lm)) ;!
  assert (sequence offset >? sequence (last_offset lm)) ;!
  let! lm1 := (if off_index offset <=? off_index (LogMetadata_last lm)
               then LogMetadata_truncate lm (off_index offset)
               else ret lm) in
  let! next := u64_add (off_index (LogMetadata_last lm1)) 1 in
  assert (off_index offset =? next) ;!
  (* [plus(1)] stays below [offset.sequence] by the second assertion. *)
  let offsets' :=
    if negb (off_term offset =? off_term (last_offset lm1))
       || negb (sequence offset =? sequence (last_offset lm1) + 1)
    then offsets lm1 ++ [offset] else offsets lm1 in
  ret (mkLogMetadata offsets' offset).

Definition LogMetadata_discard {St} (lm : LogMetadata) (new_start : LogPosition)
    : M St LogMetadata :=
  if pos_index new_start >? off_index (last_offset lm) then
    let o := mkLogOffset new_start (sequence (last_offset lm)) in
    ret (mkLogMetadata [o] o)
  else
  let! prev := unwrap (LogMetadata_prev lm) in
  if pos_index new_start <=? off_index prev then ret lm else
  let! found := unwrap (LogMetadata_lookup lm (pos_index new_start)) in
  let! offset_idx :=
    unwrap (upper_bound_by (offsets lm) (λ off, off_index off <=? pos_index new_start)) in
  let rest := drop offset_idx (offsets lm) in
  ret (mkLogMetadata (mkLogOffset new_start (sequence found) :: tail rest) (last_offset lm)).

(** ** What the compressed form stands for *)

(** The offset of index [i] extrapolated from a run that starts at [o]. *)
Definition extrapolate (o : LogOffset) (i : LogIndex) : LogOffset :=
  mkLogOffset (mkLogPosition (off_term o) i) (sequence o + (i - off_index o)).

(** The offsets of a run of [n] indexes starting at [o]. *)
Definition run_of (o : LogOffset) (n : Z) : list LogOffset :=
  extrapolate o <$> seqZ (off_index o) n.

Fixpoint expand (o : LogOffset) (l : list LogOffset) (last_index : LogIndex) : list LogOffset :=
  match l with
  | [] => run_of o (last_index - off_index o + 1)
  | o' :: l' => run_of o (off_index o' - off_index o) ++ expand o' l' last_index
  end.

(** All offsets of the log, the one before the first entry included. *)
Definition all_offsets (lm : LogMetadata) : list LogOffset :=
  match offsets lm with
  | [] => []
  | o :: l => expand o l (off_index (last_offset lm))
  end.

(** Run [o'] can follow run [o]. *)
Definition follows (o o' : LogOffset) : Prop :=
  off_index o < off_index o' ∧ off_term o ≤ off_term o' ∧
  sequence o + (off_index o' - off_index o) ≤ sequence o'.

Fixpoint chain (o : LogOffset) (l : list LogOffset) (last_off : LogOffset) : Prop :=
  match l with
  | [] => off_index o ≤ off_index last_off ∧ last_off = extrapolate o (off_index last_off)
  | o' :: l' => follows o o' ∧ chain o' l' last_off
  end.

Definition LogMetadata_wf (lm : LogMetadata) : Prop :=
  match offsets lm with
  | [] => False
  | o :: l => 0 ≤ off_index o ∧ chain o l (last_offset lm)
  end.

(** ** Facts about runs and chains *)

Lemma length_run_of o n : length (run_of o n) = Z.to_nat n.
Proof. unfold run_of. by rewrite length_fmap, length_seqZ. Qed.

Lemma run_of_lookup o n k :
  (k < Z.to_nat n)%nat → run_of o n !! k = Some (extrapolate o (off_index o + Z.of_nat k)).
Proof.
  intros Hk. unfold run_of. rewrite list_lookup_fmap, lookup_seqZ_lt by lia. done.
Qed.

Lemma extrapolate_self o : extrapolate o (off_index o) = o.
Proof. unfold extrapolate. destruct o as [[t i] s]. cbn. f_equal. lia. Qed.

Lemma extrapolate_extrapolate o i j :
  extrapolate (extrapolate o i) j = extrapolate o j.
Proof. unfold extrapolate. cbn. f_equal. lia. Qed.

Lemma run_of_snoc o n : 0 ≤ n →
  run_of o (n + 1) = run_of o n ++ [extrapolate o (off_index o + n)].
Proof.
  intros Hn. unfold run_of.
  rewrite seqZ_app, fmap_app by lia. done.
Qed.

Lemma run_of_one o : run_of o 1 = [o].
Proof.
  change 1 with (0 + 1). rewrite run_of_snoc by lia.
  by rewrite Z.add_0_r, extrapolate_self.
Qed.

Lemma run_of_take o n k : 0 ≤ k ≤ n → run_of o k = take (Z.to_nat k) (run_of o n).
Proof.
  intros Hk. replace n with (k + (n - k)) by lia. unfold run_of.
  rewrite seqZ_app, fmap_app by lia.
  rewrite take_app_length'; [done|]. rewrite length_fmap, length_seqZ. done.
Qed.

Lemma chain_last_index o l lst : chain o l lst → off_index o ≤ off_index lst.
Proof.
  revert o. induction l as [|o' l IH]; intros o; cbn [chain]; [tauto|].
  intros [(? & ? & ?) ?%IH]. lia.
Qed.

Lemma chain_last_term o l lst : chain o l lst → off_term o ≤ off_term lst.
Proof.
  revert o. induction l as [|o' l IH]; intros o; cbn [chain].
  - intros [? ->]. cbn. lia.
  - intros [(? & ? & ?) ?%IH]. lia.
Qed.

Lemma chain_last_seq o l lst :
  chain o l lst → sequence o + (off_index lst - off_index o) ≤ sequence lst.
Proof.
  revert o. induction l as [|o' l IH]; intros o; cbn [chain].
  - intros [? ->]. cbn. lia.
  - intros [(? & ? & ?) ?%IH]. lia.
Qed.

Lemma length_expand o l lst : chain o l lst →
  length (expand o l (off_index lst)) = Z.to_nat (off_index lst - off_index o + 1).
Proof.
  revert o. induction l as [|o' l IH]; intros o; cbn [chain expand].
  - intros _. apply length_run_of.
  - intros [(? & ? & ?) Hc]. rewrite length_app, length_run_of, IH by done.
    apply chain_last_index in Hc. lia.
Qed.

Lemma chain_indexes_ge o l lst k x :
  chain o l lst → (o :: l) !! k = Some x → off_index o ≤ off_index x.
Proof.
  revert o k. induction l as [|o' l IH]; intros o [|k] Hc Hx; cbn in Hx; simplify_eq; try lia.
  cbn [chain] in Hc. destruct Hc as [(? & ? & ?) Hc].
  specialize (IH _ _ Hc Hx). lia.
Qed.

Lemma chain_seqs_ge o l lst k x :
  chain o l lst → (o :: l) !! k = Some x → sequence o ≤ sequence x.
Proof.
  revert o k. induction l as [|o' l IH]; intros o [|k] Hc Hx; cbn in Hx; simplify_eq; try lia.
  cbn [chain] in Hc. destruct Hc as [(? & ? & ?) Hc].
  specialize (IH _ _ Hc Hx). lia.
Qed.

Lemma holds_before_cons {T} (p : T → bool) n x l :
  p x = true → holds_before p n l → holds_before p (S n) (x :: l).
Proof.
  intros Hx Hl [|k] y Hy; cbn in Hy.
  - simplify_eq. by rewrite bool_decide_eq_true_2 by lia.
  - rewrite (Hl _ _ Hy). apply bool_decide_ext. lia.
Qed.

Lemma holds_before_none {T} (p : T → bool) l :
  (∀ k x, l !! k = Some x → p x = false) → holds_before p 0 l.
Proof. intros H k x Hx. rewrite bool_decide_eq_false_2 by lia. eauto. Qed.

(** The run an index falls into: the search finds it, the expansion holds
    the extrapolated offset at the index, and cutting the runs after it
    cuts the expansion after the index. *)
Lemma chain_find o l lst i :
  chain o l lst → off_index o ≤ i ≤ off_index lst →
  ∃ n p, (o :: l) !! n = Some p ∧ off_index p ≤ i ∧
    holds_before (λ off, off_index off <=? i) (S n) (o :: l) ∧
    expand o l (off_index lst) !! Z.to_nat (i - off_index o) = Some (extrapolate p i) ∧
    chain o (take n l) (extrapolate p i) ∧
    expand o (take n l) i = take (Z.to_nat (i - off_index o + 1)) (expand o l (off_index lst)).
Proof.
  revert o. induction l as [|o' l IH]; intros o; cbn [chain expand].
  - intros [Hle Heq] Hi. exists 0%nat, o. cbn [take chain expand].
    repeat split; [lia| | |cbn; lia|].
    + apply holds_before_cons; [b2p; lia|]. by apply holds_before_none.
    + rewrite run_of_lookup by lia. do 2 f_equal. lia.
    + apply run_of_take. lia.
  - intros [(Hlt & Ht & Hs) Hc] Hi. destruct (decide (off_index o' ≤ i)) as [Hge|Hge].
    + destruct (IH o' Hc) as (n & p & Hn & Hp & Hh & He & Hch & Hex); [lia|].
      exists (S n), p. cbn [take chain expand]. repeat split; try done.
      * apply holds_before_cons; [b2p; lia|done].
      * rewrite lookup_app_r; rewrite length_run_of; [|lia].
        rewrite <- He. f_equal. lia.
      * rewrite Hex, take_app_ge by (rewrite length_run_of; lia).
        rewrite length_run_of. do 2 f_equal. lia.
    + exists 0%nat, o. cbn [take chain expand]. repeat split; [lia| | |cbn; lia|].
      * apply holds_before_cons; [b2p; lia|]. apply holds_before_none.
        intros k x Hx. b2p. pose proof (chain_indexes_ge _ _ _ _ _ Hc Hx). lia.
      * rewrite lookup_app_l; [|rewrite length_run_of; lia].
        rewrite run_of_lookup by lia. do 2 f_equal. lia.
      * rewrite take_app_le by (rewrite length_run_of; lia). apply run_of_take. lia.
Qed.

(** The same for the flush sequence of an offset of the log. *)
Lemma chain_find_seq o l lst k e :
  chain o l lst → expand o l (off_index lst) !! k = Some e →
  ∃ n p, (o :: l) !! n = Some p ∧ e = extrapolate p (off_index e) ∧
    off_index p ≤ off_index e ∧
    holds_before (λ off, sequence off <=? sequence e) (S n) (o :: l) ∧
    sequence o ≤ sequence e ≤ sequence lst ∧ off_term o ≤ off_term e ≤ off_term lst.
Proof.
  revert o k. induction l as [|o' l IH]; intros o k; cbn [chain expand].
  - intros [Hle Heq] He. pose proof (lookup_lt_Some _ _ _ He) as Hk.
    rewrite length_run_of in Hk. rewrite run_of_lookup in He by lia. simplify_eq.
    exists 0%nat, o. cbn. repeat split; [lia| |lia|rewrite Heq; cbn; lia|lia|by rewrite Heq].
    apply holds_before_cons; [cbn; b2p; lia|]. by apply holds_before_none.
  - intros [(Hlt & Ht & Hs) Hc] He.
    pose proof (chain_last_seq _ _ _ Hc) as Hls. pose proof (chain_last_term _ _ _ Hc) as Hlt'.
    pose proof (chain_last_index _ _ _ Hc) as Hli.
    apply lookup_app_Some in He as [He|[Hk He]].
    + pose proof (lookup_lt_Some _ _ _ He) as Hk.
      rewrite length_run_of in Hk. rewrite run_of_lookup in He by lia. simplify_eq.
      exists 0%nat, o. cbn. repeat split; try lia.
      apply holds_before_cons; [cbn; b2p; lia|]. apply holds_before_none.
      intros j x Hx. b2p. pose proof (chain_seqs_ge _ _ _ _ _ Hc Hx). cbn. lia.
    + destruct (IH _ _ Hc He) as (n & p & Hn & Hp & Hle & Hh & Hb & Hb').
      exists (S n), p. repeat split; try done; try lia.
      apply holds_before_cons; [b2p; lia|done].
Qed.

(** ** Lookups *)

Lemma LogMetadata_prev_spec lm : LogMetadata_wf lm → ∃ o l,
  offsets lm = o :: l ∧ LogMetadata_prev lm = Some o ∧ 0 ≤ off_index o ∧
  chain o l (last_offset lm).
Proof.
  unfold LogMetadata_wf, LogMetadata_prev. destruct (offsets lm) as [|o l]; [done|].
  intros [? Hc]. by exists o, l.
Qed.

(** The offset of an index in the abstract log. *)
Definition offset_at (lm : LogMetadata) (prev : LogOffset) (i : LogIndex) : option LogOffset :=
  if decide (off_index prev ≤ i) then all_offsets lm !! Z.to_nat (i - off_index prev) else None.

Lemma LogMetadata_lookup_correct lm prev i :
  LogMetadata_wf lm → LogMetadata_prev lm = Some prev →
  LogMetadata_lookup lm i = offset_at lm prev i.
Proof.
  intros (o & l & Eo & Hp & H0 & Hc)%LogMetadata_prev_spec Hprev. simplify_eq.
  unfold LogMetadata_lookup, offset_at, all_offsets. rewrite Eo.
  destruct (i >? off_index (last_offset lm)) eqn:Elast; b2p.
  - case_decide; [|done]. symmetry. apply lookup_ge_None.
    rewrite length_expand by done. lia.
  - case_decide as Hge.
    + destruct (chain_find _ _ _ i Hc) as (n & p & Hn & Hle & Hh & He & _); [lia|].
      rewrite (upper_bound_by_spec _ _ (S n)); [|apply lookup_lt_Some in Hn; lia|done].
      cbn [index_before]. rewrite Hn, He. done.
    + rewrite (upper_bound_by_spec _ _ 0); [done|lia|].
      apply holds_before_none. intros k x Hx. b2p.
      pose proof (chain_indexes_ge _ _ _ _ _ Hc Hx). lia.
Qed.

Lemma LogMetadata_lookup_seq_correct lm e :
  LogMetadata_wf lm → e ∈ all_offsets lm → LogMetadata_lookup_seq lm (sequence e) = Some e.
Proof.
  intros (o & l & Eo & Hp & H0 & Hc)%LogMetadata_prev_spec. unfold all_offsets. rewrite Eo.
  intros [k Hk]%list_elem_of_lookup.
  destruct (chain_find_seq _ _ _ _ _ Hc Hk) as (n & p & Hn & Hpe & Hle & Hh & Hb & _).
  unfold LogMetadata_lookup_seq. rewrite Eo.
  destruct (sequence e >? sequence (last_offset lm)) eqn:E; b2p; [lia|].
  rewrite (upper_bound_by_spec _ _ (S n)); [|apply lookup_lt_Some in Hn; lia|done].
  cbn [index_before]. rewrite Hn. cbn. f_equal.
  rewrite Hpe. unfold extrapolate. cbn. f_equal. f_equal. lia.
Qed.

(** ** Updates *)

Lemma LogMetadata_truncate_spec lm prev start :
  LogMetadata_wf lm → LogMetadata_prev lm = Some prev →
  off_index prev < start ≤ off_index (last_offset lm) + 1 →
  ∃ lm', (∀ St (s : St), LogMetadata_truncate lm start s = Done (lm', s)) ∧
    LogMetadata_wf lm' ∧ LogMetadata_prev lm' = Some prev ∧
    off_index (last_offset lm') = start - 1 ∧
    sequence (last_offset lm') ≤ sequence (last_offset lm) ∧
    off_term (last_offset lm') ≤ off_term (last_offset lm) ∧
    all_offsets lm' = take (Z.to_nat (start - off_index prev)) (all_offsets lm).
Proof.
  intros Hwf Hprev Hs. pose proof Hwf as (o & l & Eo & Hp & H0 & Hc)%LogMetadata_prev_spec.
  assert (prev = o) as -> by congruence.
  destruct (chain_find _ _ _ (start - 1) Hc) as (n & p & Hn & Hle & Hh & He & Hch & Hex); [lia|].
  set (lm' := mkLogMetadata (o :: take n l) (extrapolate p (start - 1))).
  assert (upper_bound_by (o :: l) (λ off, off_index off <=? start - 1) = Some n) as Hub.
  { rewrite (upper_bound_by_spec _ _ (S n)); [done|apply lookup_lt_Some in Hn; lia|done]. }
  exists lm'. split; [|split; [|split; [done|]]].
  - intros St s. unfold LogMetadata_truncate, bind, u64_sub.
    destruct (1 <=? start) eqn:E1; b2p; [|lia]. cbn [ret].
    rewrite Eo, Hub. cbn [unwrap ret].
    rewrite Nat.add_1_r. cbn [take].
    unfold LogMetadata_lookup. cbn [offsets last_offset].
    destruct (start - 1 >? off_index (last_offset lm)) eqn:E2; b2p; [lia|].
    rewrite (upper_bound_by_spec _ _ (S n)).
    + cbn [index_before].
      replace ((o :: take n l) !! n) with (Some p); [done|].
      rewrite <- Hn. symmetry. change (o :: take n l) with (take (S n) (o :: l)).
      apply lookup_take_lt. lia.
    + apply lookup_lt_Some in Hn. cbn [length] in *. rewrite length_take. lia.
    + change (o :: take n l) with (take (S n) (o :: l)). by apply holds_before_take.
  - unfold LogMetadata_wf. cbn. done.
  - cbn. unfold all_offsets. cbn. rewrite Eo.
    destruct (chain_find_seq _ _ _ _ _ Hc He) as (? & ? & ? & ? & ? & ? & Hb & Hb').
    cbn in Hb, Hb'. repeat split; [lia|lia|]. rewrite Hex. f_equal. lia.
Qed.

(** Appending the offset that continues the last run. *)
Lemma chain_extend o l lst off :
  chain o l lst → off_index off = off_index lst + 1 → off_term off = off_term lst →
  sequence off = sequence lst + 1 →
  chain o l off ∧ expand o l (off_index off) = expand o l (off_index lst) ++ [off].
Proof.
  intros Hc Hi Ht Hs. revert o Hc.
  induction l as [|o' l IH]; intros o; cbn [chain expand].
  - intros [Hle Heq].
    assert (off = extrapolate o (off_index off)) as Hoff.
    { destruct off as [[t i] sq]. cbn in *. rewrite Heq in Hs, Ht. cbn in Hs, Ht.
      unfold extrapolate. cbn. f_equal; [f_equal; lia|lia]. }
    split; [split; [lia|done]|].
    replace (off_index off - off_index o + 1)
      with ((off_index lst - off_index o + 1) + 1) by lia.
    rewrite run_of_snoc by lia. do 2 f_equal. rewrite Hoff at 1. f_equal. lia.
  - intros [Hf Hc]. destruct (IH _ Hc) as [? ->]. split; [done|]. by rewrite app_assoc.
Qed.

(** Starting a new run. *)
Lemma chain_push o l lst off :
  chain o l lst → off_index off = off_index lst + 1 → off_term lst ≤ off_term off →
  sequence lst < sequence off →
  chain o (l ++ [off]) off ∧
  expand o (l ++ [off]) (off_index off) = expand o l (off_index lst) ++ [off].
Proof.
  intros Hc Hi Ht Hs. revert o Hc.
  induction l as [|o' l IH]; intros o; cbn [chain expand app].
  - intros [Hle Heq]. rewrite Heq in Hs, Ht. cbn in Hs, Ht.
    split; [split; [unfold follows; lia|]|].
    + split; [lia|]. by rewrite extrapolate_self.
    + f_equal; [f_equal; lia|].
      replace (off_index off - off_index off + 1) with 1 by lia.
      apply run_of_one.
  - intros [Hf Hc]. destruct (IH _ Hc) as [? ->]. split; [done|]. by rewrite app_assoc.
Qed.

(** When [append] succeeds: the assertions it makes, plus the index being
    one of the log or the next one. *)
Definition append_ok (lm : LogMetadata) (prev off : LogOffset) : Prop :=
  off_term (last_offset lm) ≤ off_term off ∧ sequence (last_offset lm) < sequence off ∧
  off_index prev < off_index off ≤ off_index (last_offset lm) + 1 ∧ off_index off ≤ U64_MAX.

Lemma LogMetadata_append_spec lm prev off :
  LogMetadata_wf lm → LogMetadata_prev lm = Some prev → append_ok lm prev off →
  ∃ lm', (∀ St (s : St), LogMetadata_append lm off s = Done (lm', s)) ∧
    LogMetadata_wf lm' ∧ LogMetadata_prev lm' = Some prev ∧ last_offset lm' = off ∧
    all_offsets lm' =
      take (Z.to_nat (off_index off - off_index prev)) (all_offsets lm) ++ [off].
Proof.
  intros Hwf Hprev (Ht & Hs & Hi & Hmax).
  assert (∃ lm1, (∀ St (s : St),
      (if off_index off <=? off_index (LogMetadata_last lm)
       then LogMetadata_truncate lm (off_index off) else ret lm) s = Done (lm1, s)) ∧
    LogMetadata_wf lm1 ∧ LogMetadata_prev lm1 = Some prev ∧
    off_index (last_offset lm1) = off_index off - 1 ∧
    sequence (last_offset lm1) ≤ sequence (last_offset lm) ∧
    off_term (last_offset lm1) ≤ off_term (last_offset lm) ∧
    all_offsets lm1 = take (Z.to_nat (off_index off - off_index prev)) (all_offsets lm))
    as (lm1 & Hrun & Hwf1 & Hprev1 & Hi1 & Hs1 & Ht1 & Ha1).
  { unfold LogMetadata_last. destruct (_ <=? _) eqn:E; b2p.
    - apply LogMetadata_truncate_spec; auto; lia.
    - exists lm. repeat split; auto; [lia..|]. symmetry. apply take_ge.
      pose proof Hwf as (o & l & Eo & Hp & H0 & Hc)%LogMetadata_prev_spec.
      assert (prev = o) as -> by congruence.
      unfold all_offsets. rewrite Eo, length_expand by done. lia. }
  pose proof Hwf1 as (o & l & Eo & Hp & H0 & Hc)%LogMetadata_prev_spec.
  assert (prev = o) as -> by congruence.
  exists (mkLogMetadata (if negb (off_term off =? off_term (last_offset lm1))
     || negb (sequence off =? sequence (last_offset lm1) + 1)
     then offsets lm1 ++ [off] else offsets lm1) off).
  split.
  { intros St s. unfold LogMetadata_append, bind, assert, LogMetadata_last.
    destruct (off_term off >=? _) eqn:E1; b2p; [|lia].
    destruct (sequence off >? _) eqn:E2; b2p; [|lia]. cbn [ret].
    unfold LogMetadata_last in Hrun. rewrite Hrun. unfold u64_add.
    destruct (_ <=? U64_MAX) eqn:E3; b2p; [|lia]. cbn [ret].
    destruct (off_index off =? _) eqn:E4; b2p; [|lia]. done. }
  rewrite Eo. unfold LogMetadata_wf, LogMetadata_prev, all_offsets in *.
  rewrite Eo in *. cbn [offsets last_offset]. rewrite <- Ha1.
  destruct (negb _ || negb _) eqn:E; b2p; cbn.
  - destruct (chain_push o l (last_offset lm1) off) as [? ->]; auto with lia.
  - destruct E as [E1 E2].
    destruct (chain_extend o l (last_offset lm1) off) as [? ->]; auto with lia.
Qed.

(** Otherwise it panics. *)
Lemma LogMetadata_append_panics lm prev off St (s : St) :
  LogMetadata_wf lm → LogMetadata_prev lm = Some prev → 0 ≤ off_index off →
  ¬ append_ok lm prev off → LogMetadata_append lm off s = Panicked.
Proof.
  intros Hwf Hprev Hpos Hno. unfold append_ok in Hno.
  unfold LogMetadata_append, bind, assert, LogMetadata_last.
  destruct (off_term off >=? _) eqn:E1; b2p; [|done].
  destruct (sequence off >? _) eqn:E2; b2p; [|done]. cbn [ret].
  destruct (off_index off <=? off_index (last_offset lm)) eqn:E3; b2p.
  - destruct (decide (off_index prev < off_index off)) as [Hlt|Hlt].
    + destruct (LogMetadata_truncate_spec lm prev (off_index off)) as (lm1 & Hrun & _ & _ & Hi & _);
        auto with lia.
      rewrite Hrun. unfold u64_add. destruct (_ <=? U64_MAX) eqn:E4; b2p; [|done]. lia.
    + unfold LogMetadata_truncate, bind, u64_sub.
      destruct (1 <=? _) eqn:E5; b2p; [|done]. cbn [ret].
      pose proof Hwf as (o & l & Eo & Hp & H0 & Hc)%LogMetadata_prev_spec.
      assert (prev = o) as -> by congruence.
      rewrite Eo, (upper_bound_by_spec _ _ 0); [done|lia|].
      apply holds_before_none. intros k x Hx. b2p.
      pose proof (chain_indexes_ge _ _ _ _ _ Hc Hx). lia.
  - cbn [ret]. unfold u64_add. destruct (_ <=? U64_MAX) eqn:E4; b2p; [|done]. cbn [ret].
    destruct (off_index off =? _) eqn:E5; b2p; [|done].
    pose proof Hwf as (o & l & Eo & Hp & H0 & Hc)%LogMetadata_prev_spec.
    assert (prev = o) as -> by congruence. pose proof (chain_last_index _ _ _ Hc). lia.
Qed.

Lemma run_of_drop o n k : 0 ≤ k ≤ n →
  run_of (extrapolate o (off_index o + k)) (n - k) = drop (Z.to_nat k) (run_of o n).
Proof.
  intros Hk. replace n with (k + (n - k)) at 2 by lia. unfold run_of.
  rewrite seqZ_app, fmap_app by lia.
  rewrite drop_app_length' by (rewrite length_fmap, length_seqZ; done).
  apply list_fmap_ext. intros j x _. apply extrapolate_extrapolate.
Qed.

(** The search finds the run an index is in, and the runs from it on, cut
    at the index, expand to the rest of the log. *)
Lemma chain_cut o l lst i :
  chain o l lst → off_index o ≤ i ≤ off_index lst →
  ∃ n p l2, holds_before (λ off, off_index off <=? i) (S n) (o :: l) ∧
    drop n (o :: l) = p :: l2 ∧ chain (extrapolate p i) l2 lst ∧
    expand (extrapolate p i) l2 (off_index lst) =
      drop (Z.to_nat (i - off_index o)) (expand o l (off_index lst)).
Proof.
  revert o. induction l as [|o' l IH]; intros o; cbn [chain expand].
  - intros [Hle Heq] Hi. exists 0%nat, o, []. cbn [drop chain expand].
    repeat split; [| cbn; lia | |].
    + apply holds_before_cons; [b2p; lia|]. by apply holds_before_none.
    + by rewrite extrapolate_extrapolate.
    + rewrite <- run_of_drop by lia.
      replace (off_index o + (i - off_index o)) with i by lia. f_equal. cbn. lia.
  - intros [(Hlt & Ht & Hs) Hc] Hi. destruct (decide (off_index o' ≤ i)) as [Hge|Hge].
    + destruct (IH o' Hc) as (n & p & l2 & Hh & Hd & Hch & Hex); [lia|].
      exists (S n), p, l2. repeat split; try done.
      * apply holds_before_cons; [b2p; lia|done].
      * rewrite Hex, drop_app_ge by (rewrite length_run_of; lia).
        rewrite length_run_of. f_equal. lia.
    + exists 0%nat, o, (o' :: l). cbn [drop chain expand]. repeat split; try done.
      * apply holds_before_cons; [b2p; lia|]. apply holds_before_none.
        intros k x Hx. b2p. pose proof (chain_indexes_ge _ _ _ _ _ Hc Hx). lia.
      * cbn. lia.
      * cbn. lia.
      * rewrite drop_app_le by (rewrite length_run_of; lia). f_equal.
        rewrite <- run_of_drop by lia.
        replace (off_index o + (i - off_index o)) with i by lia. f_equal. cbn. lia.
Qed.

(** Discarding beyond the end of the log leaves the new start only. *)
Lemma LogMetadata_discard_past lm pos St (s : St) :
  off_index (last_offset lm) < pos_index pos →
  let o := mkLogOffset pos (sequence (last_offset lm)) in
  LogMetadata_discard lm pos s = Done (mkLogMetadata [o] o, s).
Proof.
  intros H. unfold LogMetadata_discard. destruct (_ >? _) eqn:E; b2p; [done|lia].
Qed.

(** Discarding what is already discarded changes nothing. *)
Lemma LogMetadata_discard_old lm prev pos St (s : St) :
  LogMetadata_wf lm → LogMetadata_prev lm = Some prev → pos_index pos ≤ off_index prev →
  LogMetadata_discard lm pos s = Done (lm, s).
Proof.
  intros Hwf Hprev Hle. pose proof Hwf as (o & l & Eo & Hp & H0 & Hc)%LogMetadata_prev_spec.
  assert (prev = o) as -> by congruence. pose proof (chain_last_index _ _ _ Hc).
  unfold LogMetadata_discard, bind. destruct (_ >? _) eqn:E; b2p; [lia|].
  rewrite Hp. cbn [unwrap ret]. destruct (_ <=? _) eqn:E'; b2p; [done|lia].
Qed.

(** Discarding up to an entry of the log drops the offsets before it. *)
Lemma LogMetadata_discard_mid lm prev e :
  LogMetadata_wf lm → LogMetadata_prev lm = Some prev →
  off_index prev < off_index e → LogMetadata_lookup lm (off_index e) = Some e →
  ∃ lm', (∀ St (s : St), LogMetadata_discard lm (position e) s = Done (lm', s)) ∧
    LogMetadata_wf lm' ∧ LogMetadata_prev lm' = Some e ∧ last_offset lm' = last_offset lm ∧
    all_offsets lm' = drop (Z.to_nat (off_index e - off_index prev)) (all_offsets lm).
Proof.
  intros Hwf Hprev Hlt Hlook.
  pose proof Hwf as (o & l & Eo & Hp & H0 & Hc)%LogMetadata_prev_spec.
  assert (prev = o) as -> by congruence.
  assert (off_index e ≤ off_index (last_offset lm)) as Hle.
  { unfold LogMetadata_lookup in Hlook. destruct (_ >? _) eqn:E in Hlook; b2p; [done|lia]. }
  destruct (chain_cut _ _ _ (off_index e) Hc) as (n & p & l2 & Hh & Hd & Hch & Hex); [lia|].
  assert (n < length (o :: l))%nat as Hn.
  { apply Nat.nle_gt. intros Hge. rewrite drop_ge in Hd by done. done. }
  assert (upper_bound_by (o :: l) (λ off, off_index off <=? off_index e) = Some n) as Hub.
  { rewrite (upper_bound_by_spec _ _ (S n)); [done|lia|done]. }
  assert ((o :: l) !! n = Some p) as Hnp.
  { pose proof (lookup_drop (o :: l) n 0) as Hl. rewrite Hd, Nat.add_0_r in Hl. done. }
  assert (extrapolate p (off_index e) = e) as He.
  { unfold LogMetadata_lookup in Hlook. destruct (_ >? _) in Hlook; [done|].
    rewrite Eo, Hub, Hnp in Hlook. cbn in Hlook. by injection Hlook. }
  rewrite He in Hch, Hex.
  exists (mkLogMetadata (e :: l2) (last_offset lm)). repeat split.
  - intros St s. unfold LogMetadata_discard, bind.
    destruct (_ >? _) eqn:E; b2p; [lia|].
    rewrite Hp. cbn [unwrap ret]. destruct (_ <=? _) eqn:E'; b2p; [lia|].
    rewrite Hlook. cbn [unwrap ret]. rewrite Eo, Hub. cbn [unwrap ret].
    rewrite Hd. cbn [tail]. by destruct e.
  - cbn. lia.
  - cbn. done.
  - unfold all_offsets. rewrite Eo. cbn. done.
Qed.

(** ** Consequences used by the consensus module *)

Lemma length_all_offsets lm prev :
  LogMetadata_wf lm → LogMetadata_prev lm = Some prev →
  length (all_offsets lm) = Z.to_nat (off_index (last_offset lm) - off_index prev + 1).
Proof.
  intros (o & l & Eo & Hp & H0 & Hc)%LogMetadata_prev_spec Hprev. simplify_eq.
  unfold all_offsets. rewrite Eo. by apply length_expand.
Qed.

#[export] Instance append_ok_dec lm prev off : Decision (append_ok lm prev off).
Proof. unfold append_ok. apply _. Defined.

(** Appending at the end of the log: either a panic, or one more offset. *)
Lemma LogMetadata_append_next lm off St (s : St) :
  LogMetadata_wf lm → off_index off = off_index (last_offset lm) + 1 →
  wp (LogMetadata_append lm off) (λ lm' s', s' = s ∧ LogMetadata_wf lm' ∧
    LogMetadata_prev lm' = LogMetadata_prev lm ∧ last_offset lm' = off ∧
    all_offsets lm' = all_offsets lm ++ [off]) s.
Proof.
  intros Hwf Hi. pose proof Hwf as (prev & l & Eo & Hp & H0 & Hc)%LogMetadata_prev_spec.
  pose proof (chain_last_index _ _ _ Hc). unfold wpx.
  destruct (decide (append_ok lm prev off)) as [Hok|Hno].
  - destruct (LogMetadata_append_spec _ _ _ Hwf Hp Hok) as (lm' & -> & Hwf' & Hp' & Hl & Ha).
    split_and!; try congruence. rewrite Ha. f_equal. apply take_ge.
    rewrite (length_all_offsets _ _ Hwf Hp). lia.
  - by rewrite (LogMetadata_append_panics _ _ _ _ _ Hwf Hp) by (done || lia).
Qed.

Lemma LogMetadata_lookup_Some lm i o :
  LogMetadata_wf lm → LogMetadata_lookup lm i = Some o → o ∈ all_offsets lm ∧ off_index o = i.
Proof.
  intros Hwf Hl. pose proof Hwf as (prev & l & Eo & Hp & H0 & Hc)%LogMetadata_prev_spec.
  split.
  - rewrite (LogMetadata_lookup_correct _ _ _ Hwf Hp) in Hl. unfold offset_at in Hl.
    case_decide; [|done]. by eapply list_elem_of_lookup_2.
  - unfold LogMetadata_lookup in Hl. case_match; [done|]. case_match; [|done].
    destruct (offsets lm !! _); cbn in Hl; by simplify_eq.
Qed.

(** An offset of the log is found by its index, so indexes are unique. *)
Lemma LogMetadata_lookup_elem lm e :
  LogMetadata_wf lm → e ∈ all_offsets lm → LogMetadata_lookup lm (off_index e) = Some e.
Proof.
  intros Hwf [k Hk]%list_elem_of_lookup.
  pose proof Hwf as (prev & l & Eo & Hp & H0 & Hc)%LogMetadata_prev_spec.
  assert (LogMetadata_lookup lm (off_index prev + Z.of_nat k) = Some e) as Hl.
  { rewrite (LogMetadata_lookup_correct _ _ _ Hwf Hp). unfold offset_at.
    rewrite decide_True by lia. by replace (Z.to_nat _) with k by lia. }
  by destruct (LogMetadata_lookup_Some _ _ _ Hwf Hl) as [_ ->].
Qed.

Lemma all_offsets_unique lm o o' :
  LogMetadata_wf lm → o ∈ all_offsets lm → o' ∈ all_offsets lm → off_index o = off_index o' → o = o'.
Proof.
  intros Hwf H1 H2 E. apply LogMetadata_lookup_elem in H1, H2; [|done..]. congruence.
Qed.

Lemma all_offsets_lookup lm prev k e :
  LogMetadata_wf lm → LogMetadata_prev lm = Some prev → all_offsets lm !! k = Some e →
  off_index e = off_index prev + Z.of_nat k.
Proof.
  intros Hwf Hp Hk. assert (LogMetadata_lookup lm (off_index prev + Z.of_nat k) = Some e) as Hl.
  { rewrite (LogMetadata_lookup_correct _ _ _ Hwf Hp). unfold offset_at.
    rewrite decide_True by lia. by replace (Z.to_nat _) with k by lia. }
  by destruct (LogMetadata_lookup_Some _ _ _ Hwf Hl) as [_ ->].
Qed.

Lemma all_offsets_le_last lm o :
  LogMetadata_wf lm → o ∈ all_offsets lm → off_index o ≤ off_index (last_offset lm).
Proof.
  intros Hwf [k Hk]%list_elem_of_lookup_1. pose proof Hwf as (prev & l' & Eo & Hp & H0 & Hc)%LogMetadata_prev_spec.
  rewrite (all_offsets_lookup _ _ _ _ Hwf Hp Hk). pose proof (length_all_offsets _ _ Hwf Hp) as Hlen.
  apply lookup_lt_Some in Hk. lia.
Qed.

(** The offsets are consecutive, from the first one. *)
Lemma all_offsets_index lm o l :
  LogMetadata_wf lm → all_offsets lm = o :: l →
  off_index (last_offset lm) = off_index o + Z.of_nat (length l) ∧
  ∀ k e, l !! k = Some e → off_index e = off_index o + 1 + Z.of_nat k.
Proof.
  intros Hwf Hl. pose proof Hwf as (prev & l' & Eo & Hp & H0 & Hc)%LogMetadata_prev_spec.
  pose proof (all_offsets_lookup _ _ 0 o Hwf Hp) as Ho. rewrite Hl in Ho. specialize (Ho eq_refl).
  pose proof (length_all_offsets _ _ Hwf Hp) as Hlen. rewrite Hl in Hlen. cbn [length] in Hlen.
  pose proof (chain_last_index _ _ _ Hc). split; [lia|].
  intros k e Hk. rewrite (all_offsets_lookup _ _ (S k) e Hwf Hp); [lia|]. by rewrite Hl.
Qed.
