(* ===== verification/ConsensusState.v ===== *)
(** * State of the consensus module

    The data of src/pkg/raft/src/consensus/state.rs (roles and follower
    progress), tick.rs (requested side effects) and of the [ConsensusModule]
    struct of module.rs, with field setters and the monad the handlers run
    in. An [Instant] is a number of nanoseconds on the local monotonic
    clock, a [Duration] a number of nanoseconds. HashMaps and HashSets are
    [gmap]s and [gset]s; where the code iterates over one, the model uses
    the order of [map_to_list]. *)

From S2P Require Import Prelude RaftProto ConfigState LogMetadata.

Abbreviation Instant := Z (only parsing).
Abbreviation Duration := Z (only parsing).

Definition from_millis (n : Z) : Duration := n * 1000000.
Definition from_secs (n : Z) : Duration := n * 1000000000.

(** [a.duration_since(b)] and [a - b] on instants saturate at zero. *)
Definition duration_since (a b : Instant) : Duration := Z.max 0 (a - b).

(** ** Constants of module.rs *)
Definition ELECTION_TIMEOUT : Z * Z := (400, 800).
Definition HEARTBEAT_INTERVAL : Duration := from_millis 150.
Definition APPEND_ENTRIES_INTERVAL : Duration := from_millis 500.
(** An f32 in the code, used only to divide 400 by it. *)
Definition CLOCK_DRIFT_BOUND : Z := 2.
Definition ROUND_TARGET_DURATION : Duration := from_millis 200.
Definition SYNCHRONIZED_ROUNDS_THRESHOLD : Z := 4.
Definition MAX_IN_FLIGHT_REQUESTS : nat := 32.
Definition MAX_ENTRIES_PER_LIVE_APPEND : Z := 32.
Definition MAX_ENTRIES_PER_PESSIMISTIC_APPEND : Z := 4.
Definition MIN_PESSIMISTIC_APPEND_INTERVAL : Duration := from_millis 50.
Definition MAX_COMMAND_SIZE : Z := 4 * 1024 * 1024.
Definition TIMEOUT_NOW_DEADLINE : Duration := from_secs 1.
Definition TIMEOUT_NOW_SEND_MAX_QUEUE_LENGTH : nat := 4.

(** [Duration::from_millis(((ELECTION_TIMEOUT.0 as f32) / CLOCK_DRIFT_BOUND) as u64)] *)
Definition LEASE_MARGIN : Duration := from_millis (ELECTION_TIMEOUT.1 / CLOCK_DRIFT_BOUND).

(** ** Progress of one follower *)

Inductive ConsensusFollowerMode := Live | Pesimistic | CatchingUp | InstallingSnapshot.

#[export] Instance ConsensusFollowerMode_eq_dec : EqDecision ConsensusFollowerMode.
Proof. solve_decision. Defined.

Definition mode_eqb (a b : ConsensusFollowerMode) : bool := bool_decide (a = b).

Record PendingAppendEntries := mkPendingAppendEntries {
  pa_start_time : Instant;
  pa_prev_log_index : LogIndex;
  pa_last_index_sent : LogIndex;
}.

Record ConsensusFollowerProgress := mkProgress {
  fp_mode : ConsensusFollowerMode;
  fp_next_index : LogIndex;
  fp_match_index : LogIndex;
  fp_lease_start : option Instant;
  fp_last_heartbeat_sent : option Instant;
  fp_last_append_entries_sent : option Instant;
  fp_last_commit_index_sent : LogIndex;
  fp_pending_heartbeat_requests : gmap RequestId Instant;
  fp_pending_append_requests : gmap RequestId PendingAppendEntries;
  fp_successful_rounds : Z;
  fp_round_start : option (LogIndex * Instant);
}.

(** [ConsensusFollowerProgress::new] *)
Definition Progress_new {St} (last_log_index : LogIndex) : M St ConsensusFollowerProgress :=
  let! next_index := u64_add last_log_index 1 in
  ret (mkProgress Pesimistic next_index 0 None None None 0 ∅ ∅ 0 None).

Definition fp_set_mode v p := mkProgress v (fp_next_index p) (fp_match_index p)
  (fp_lease_start p) (fp_last_heartbeat_sent p) (fp_last_append_entries_sent p)
  (fp_last_commit_index_sent p) (fp_pending_heartbeat_requests p)
  (fp_pending_append_requests p) (fp_successful_rounds p) (fp_round_start p).
Definition fp_set_next_index v p := mkProgress (fp_mode p) v (fp_match_index p)
  (fp_lease_start p) (fp_last_heartbeat_sent p) (fp_last_append_entries_sent p)
  (fp_last_commit_index_sent p) (fp_pending_heartbeat_requests p)
  (fp_pending_append_requests p) (fp_successful_rounds p) (fp_round_start p).
Definition fp_set_match_index v p := mkProgress (fp_mode p) (fp_next_index p) v
  (fp_lease_start p) (fp_last_heartbeat_sent p) (fp_last_append_entries_sent p)
  (fp_last_commit_index_sent p) (fp_pending_heartbeat_requests p)
  (fp_pending_append_requests p) (fp_successful_rounds p) (fp_round_start p).
Definition fp_set_lease_start v p := mkProgress (fp_mode p) (fp_next_index p)
  (fp_match_index p) v (fp_last_heartbeat_sent p) (fp_last_append_entries_sent p)
  (fp_last_commit_index_sent p) (fp_pending_heartbeat_requests p)
  (fp_pending_append_requests p) (fp_successful_rounds p) (fp_round_start p).
Definition fp_set_last_heartbeat_sent v p := mkProgress (fp_mode p) (fp_next_index p)
  (fp_match_index p) (fp_lease_start p) v (fp_last_append_entries_sent p)
  (fp_last_commit_index_sent p) (fp_pending_heartbeat_requests p)
  (fp_pending_append_requests p) (fp_successful_rounds p) (fp_round_start p).
Definition fp_set_pending_heartbeat_requests v p := mkProgress (fp_mode p) (fp_next_index p)
  (fp_match_index p) (fp_lease_start p) (fp_last_heartbeat_sent p)
  (fp_last_append_entries_sent p) (fp_last_commit_index_sent p) v
  (fp_pending_append_requests p) (fp_successful_rounds p) (fp_round_start p).
Definition fp_set_pending_append_requests v p := mkProgress (fp_mode p) (fp_next_index p)
  (fp_match_index p) (fp_lease_start p) (fp_last_heartbeat_sent p)
  (fp_last_append_entries_sent p) (fp_last_commit_index_sent p)
  (fp_pending_heartbeat_requests p) v (fp_successful_rounds p) (fp_round_start p).
Definition fp_set_round rounds start p := mkProgress (fp_mode p) (fp_next_index p)
  (fp_match_index p) (fp_lease_start p) (fp_last_heartbeat_sent p)
  (fp_last_append_entries_sent p) (fp_last_commit_index_sent p)
  (fp_pending_heartbeat_requests p) (fp_pending_append_requests p) rounds start.
(** The fields [replicate_entries] updates when it sends a request. *)
Definition fp_set_sent time commit round next p := mkProgress (fp_mode p) next
  (fp_match_index p) (fp_lease_start p) (fp_last_heartbeat_sent p) (Some time)
  commit (fp_pending_heartbeat_requests p) (fp_pending_append_requests p)
  (fp_successful_rounds p) round.

(** ** Roles *)

Record ConsensusFollowerState := mkFollowerState {
  fs_election_timeout : Duration;
  fs_last_leader_id : option ServerId;
  fs_last_heartbeat : Instant;
}.

Record ConsensusCandidateState := mkCandidateState {
  cs_attempt_number : Z;
  cs_election_start : Instant;
  cs_election_timeout : Duration;
  cs_vote_request_id : RequestId;
  cs_pre_votes_received : gset ServerId;
  cs_main_vote_start : option Instant;
  cs_votes_received : gset ServerId;
  cs_some_rejected : bool;
  cs_leader_approval : option Term;
}.

Definition cs_set_main_vote_start v c := mkCandidateState (cs_attempt_number c)
  (cs_election_start c) (cs_election_timeout c) (cs_vote_request_id c)
  (cs_pre_votes_received c) v (cs_votes_received c) (cs_some_rejected c) (cs_leader_approval c).
Definition cs_set_pre_votes_received v c := mkCandidateState (cs_attempt_number c)
  (cs_election_start c) (cs_election_timeout c) (cs_vote_request_id c)
  v (cs_main_vote_start c) (cs_votes_received c) (cs_some_rejected c) (cs_leader_approval c).
Definition cs_set_votes_received v c := mkCandidateState (cs_attempt_number c)
  (cs_election_start c) (cs_election_timeout c) (cs_vote_request_id c)
  (cs_pre_votes_received c) (cs_main_vote_start c) v (cs_some_rejected c) (cs_leader_approval c).
Definition cs_set_some_rejected v c := mkCandidateState (cs_attempt_number c)
  (cs_election_start c) (cs_election_timeout c) (cs_vote_request_id c)
  (cs_pre_votes_received c) (cs_main_vote_start c) (cs_votes_received c) v (cs_leader_approval c).

Record ConsensusLeaderState := mkLeaderState {
  ls_followers : gmap ServerId ConsensusFollowerProgress;
  ls_min_read_index : LogIndex;
  ls_lease_start : Instant;
  ls_heartbeat_now : bool;
}.

Definition ls_set_followers v l := mkLeaderState v (ls_min_read_index l) (ls_lease_start l)
  (ls_heartbeat_now l).
Definition ls_set_lease_start v l := mkLeaderState (ls_followers l) (ls_min_read_index l) v
  (ls_heartbeat_now l).
Definition ls_set_heartbeat_now v l := mkLeaderState (ls_followers l) (ls_min_read_index l)
  (ls_lease_start l) v.

Inductive ConsensusState :=
| Follower (s : ConsensusFollowerState)
| Candidate (s : ConsensusCandidateState)
| Leader (s : ConsensusLeaderState).

Definition is_follower (s : ConsensusState) : bool :=
  match s with Follower _ => true | _ => false end.
Definition is_candidate (s : ConsensusState) : bool :=
  match s with Candidate _ => true | _ => false end.
Definition is_leader (s : ConsensusState) : bool :=
  match s with Leader _ => true | _ => false end.

(** ** Side effects: tick.rs *)

Record NewLogEntry := mkNewLogEntry { ne_sequence : LogSequence; ne_entry : LogEntry }.

Inductive ConsensusMessageBody :=
| PreVote (r : RequestVoteRequest)
| RequestVote (r : RequestVoteRequest)
| Heartbeat (r : HeartbeatRequest)
| AppendEntries (request : AppendEntriesRequest) (last_log_index : LogIndex)
    (last_log_sequence : LogSequence)
| InstallSnapshot (r : InstallSnapshotRequest).

Record ConsensusMessage := mkConsensusMessage {
  msg_request_id : RequestId;
  msg_to : list ServerId;
  msg_body : ConsensusMessageBody;
}.

Record Tick := mkTick {
  tick_time : Instant;
  tick_meta : bool;
  tick_config : bool;
  tick_new_entries : list NewLogEntry;
  tick_messages : list ConsensusMessage;
  tick_next_tick : option Duration;
}.

(** [Tick::empty] at a given reading of the clock. *)
Definition Tick_empty (now : Instant) : Tick := mkTick now false false [] [] None.

(** ** The module *)

Record DrainingState := mkDrainingState {
  dr_term : Term;
  dr_next_leader : option (ServerId * Instant);
}.

Record ConsensusModule := mkModule {
  cm_id : ServerId;
  cm_meta : Metadata;
  cm_persisted_meta : Metadata;
  cm_log_meta : LogMetadata;
  cm_log_last_flushed : LogSequence;
  cm_config : ConfigurationStateMachine;
  cm_state : ConsensusState;
  cm_draining : option DrainingState;
  cm_pending_conflict : option LogSequence;
  cm_pending_commit_index : option LogIndex;
  cm_last_request_id : RequestId;
}.

(** What a handler runs on: the module, the tick it was given and the
    random numbers it draws ([uniform::<u64>()] of a clock-seeded
    generator is an unknown sequence of numbers, [node_draws] of which are
    used up). *)
Record Node := mkNode {
  node_cm : ConsensusModule;
  node_tick : Tick;
  node_rand : nat → Z;
  node_draws : nat;
}.

Definition cm_set_meta v m := mkModule (cm_id m) v (cm_persisted_meta m) (cm_log_meta m)
  (cm_log_last_flushed m) (cm_config m) (cm_state m) (cm_draining m) (cm_pending_conflict m)
  (cm_pending_commit_index m) (cm_last_request_id m).
Definition cm_set_persisted_meta v m := mkModule (cm_id m) (cm_meta m) v (cm_log_meta m)
  (cm_log_last_flushed m) (cm_config m) (cm_state m) (cm_draining m) (cm_pending_conflict m)
  (cm_pending_commit_index m) (cm_last_request_id m).
Definition cm_set_log_meta v m := mkModule (cm_id m) (cm_meta m) (cm_persisted_meta m) v
  (cm_log_last_flushed m) (cm_config m) (cm_state m) (cm_draining m) (cm_pending_conflict m)
  (cm_pending_commit_index m) (cm_last_request_id m).
Definition cm_set_log_last_flushed v m := mkModule (cm_id m) (cm_meta m) (cm_persisted_meta m)
  (cm_log_meta m) v (cm_config m) (cm_state m) (cm_draining m) (cm_pending_conflict m)
  (cm_pending_commit_index m) (cm_last_request_id m).
Definition cm_set_config v m := mkModule (cm_id m) (cm_meta m) (cm_persisted_meta m)
  (cm_log_meta m) (cm_log_last_flushed m) v (cm_state m) (cm_draining m)
  (cm_pending_conflict m) (cm_pending_commit_index m) (cm_last_request_id m).
Definition cm_set_state v m := mkModule (cm_id m) (cm_meta m) (cm_persisted_meta m)
  (cm_log_meta m) (cm_log_last_flushed m) (cm_config m) v (cm_draining m)
  (cm_pending_conflict m) (cm_pending_commit_index m) (cm_last_request_id m).
Definition cm_set_draining v m := mkModule (cm_id m) (cm_meta m) (cm_persisted_meta m)
  (cm_log_meta m) (cm_log_last_flushed m) (cm_config m) (cm_state m) v
  (cm_pending_conflict m) (cm_pending_commit_index m) (cm_last_request_id m).
Definition cm_set_pending_conflict v m := mkModule (cm_id m) (cm_meta m) (cm_persisted_meta m)
  (cm_log_meta m) (cm_log_last_flushed m) (cm_config m) (cm_state m) (cm_draining m) v
  (cm_pending_commit_index m) (cm_last_request_id m).
Definition cm_set_pending_commit_index v m := mkModule (cm_id m) (cm_meta m)
  (cm_persisted_meta m) (cm_log_meta m) (cm_log_last_flushed m) (cm_config m) (cm_state m)
  (cm_draining m) (cm_pending_conflict m) v (cm_last_request_id m).
Definition cm_set_last_request_id v m := mkModule (cm_id m) (cm_meta m) (cm_persisted_meta m)
  (cm_log_meta m) (cm_log_last_flushed m) (cm_config m) (cm_state m) (cm_draining m)
  (cm_pending_conflict m) (cm_pending_commit_index m) v.

(** ** Primitive actions *)

Definition get_cm : M Node ConsensusModule := gets node_cm.
Definition get_time : M Node Instant := gets (λ n, tick_time (node_tick n)).

Definition modify_cm (f : ConsensusModule → ConsensusModule) : M Node unit :=
  modify (λ n, mkNode (f (node_cm n)) (node_tick n) (node_rand n) (node_draws n)).

Definition modify_tick (f : Tick → Tick) : M Node unit :=
  modify (λ n, mkNode (node_cm n) (f (node_tick n)) (node_rand n) (node_draws n)).

(** [Tick::write_meta], [write_config], [send] and the field updates. *)
Definition write_meta : M Node unit :=
  modify_tick (λ t, mkTick (tick_time t) true (tick_config t) (tick_new_entries t)
    (tick_messages t) (tick_next_tick t)).
Definition write_config : M Node unit :=
  modify_tick (λ t, mkTick (tick_time t) (tick_meta t) true (tick_new_entries t)
    (tick_messages t) (tick_next_tick t)).
Definition send (m : ConsensusMessage) : M Node unit :=
  modify_tick (λ t, mkTick (tick_time t) (tick_meta t) (tick_config t) (tick_new_entries t)
    (tick_messages t ++ [m]) (tick_next_tick t)).
Definition push_new_entry (e : NewLogEntry) : M Node unit :=
  modify_tick (λ t, mkTick (tick_time t) (tick_meta t) (tick_config t)
    (tick_new_entries t ++ [e]) (tick_messages t) (tick_next_tick t)).
Definition set_next_tick (d : Duration) : M Node unit :=
  modify_tick (λ t, mkTick (tick_time t) (tick_meta t) (tick_config t) (tick_new_entries t)
    (tick_messages t) (Some d)).

(** ** Random numbers: src/pkg/crypto/src/random.rs *)

(** [uniform::<u64>()]: the next number of the unknown sequence, as a u64. *)
Definition uniform : M Node Z := λ n,
  Done (node_rand n (node_draws n) mod 2 ^ 64,
        mkNode (node_cm n) (node_tick n) (node_rand n) (S (node_draws n))).

(** [between::<u64>(min, max)]: [between_buffer] of a uniform number. *)
Definition between (min max : Z) : M Node Z :=
  assert (max >=? min) ;!
  let! num := uniform in
  (* [num % range] panics on an empty range *)
  assert (negb (max - min =? 0)) ;!
  ret (num mod (max - min) + min).

(** [elements.swap(i, j)] *)
Definition swap {A} (l : list A) (i j : nat) : list A :=
  match l !! i, l !! j with
  | Some x, Some y => <[j := x]> (<[i := y]> l)
  | _, _ => l
  end.

(** [shuffle]: for every index, a swap with a random one. *)
Fixpoint shuffle_loop {A} (n i : nat) (l : list A) : M Node (list A) :=
  match n with
  | O => ret l
  | S n' =>
    let! j := uniform in
    shuffle_loop n' (S i) (swap l i (Z.to_nat (j mod Z.of_nat (length l))))
  end.

Definition shuffle {A} (l : list A) : M Node (list A) := shuffle_loop (length l) 0 l.

Ltac wp_get := unfold get_cm, get_time; wp_step.
