(* ===== verification/Consensus.v ===== *)
(** * The consensus module

    src/pkg/raft/src/consensus/module.rs: every operation of
    [ConsensusModule], transcribed as a monadic function on [Node]. The
    operations that call each other ([cycle], [become_candidate],
    [become_follower], [propose_entry]) take the recursive call to [cycle]
    as an argument; [cycle] ties the knot with fuel. Log output is left
    out. *)

From stdpp Require Import sorting.
From S2P Require Import Prelude RaftProto ConfigState LogMetadata ConsensusState.

(** ** Results and errors *)

Inductive ProposeError :=
| RetryAfter (p : LogPosition)
| ReadIndexTainted
| NotLeader
| PendingElection
| RejectedConfigChange
| CommandTooLarge
| Draining.

Inductive ProposalStatus := Commited | Failed | Pending | Missing | Unavailable.

Record ReadIndex := mkReadIndex {
  ri_term : Term;
  ri_time : Instant;
  ri_index : LogIndex;
}.

Inductive ReadIndexError :=
| RI_StaleIndex
| RI_PendingElection
| RI_NotLeader
| RI_RetryAfter (p : LogPosition)
| RI_WaitForLease (t : Instant).

(** The [err_msg]s of [heartbeat] and [append_entries], and the
    [rpc::Status]es of [install_snapshot]. *)
Inductive ModuleError :=
| AnotherLeaderInTerm
| StillCandidate
| PreviousEntryDoesNotFollow
| EntriesInconsistent
| PrevBeforeLogStart
| RefusingToTruncateCommitted
| NextNotAfterLast
| TimeoutNowCannotLead
| SnapshotFromOldTerm
| SnapshotBehindConfig.

(** src/pkg/raft/src/consensus/constraint.rs *)
Record FlushConstraint (T : Type) := mkFlushConstraint {
  fc_inner : T;
  fc_point : option (LogSequence * LogPosition);
}.
Arguments mkFlushConstraint {T}.
Arguments fc_inner {T}.
Arguments fc_point {T}.

(** ** Read-only queries *)

Definition leader_hint (m : ConsensusModule) : LeaderHint :=
  mkLeaderHint (current_term (cm_meta m))
    match cm_state m with
    | Leader _ | Candidate _ => Some (cm_id m)
    | Follower s => fs_last_leader_id s
    end.

Definition lease_start (m : ConsensusModule) : option Instant :=
  match cm_state m with
  | Leader s => Some (ls_lease_start s)
  | _ => None
  end.

Definition pending_election (m : ConsensusModule) : bool :=
  match cm_state m with
  | Candidate s => cs_attempt_number s =? 0
  | _ => false
  end.

Definition is_follower_synchronized (p : ConsensusFollowerProgress) : bool :=
  mode_eqb (fp_mode p) Live && (fp_successful_rounds p >=? SYNCHRONIZED_ROUNDS_THRESHOLD).

Definition servers_len (m : ConsensusModule) : nat := length (servers (csm_value (cm_config m))).
Definition my_role (m : ConsensusModule) : ServerRole :=
  server_role (csm_value (cm_config m)) (cm_id m).
Definition last_log_index (m : ConsensusModule) : LogIndex :=
  off_index (LogMetadata_last (cm_log_meta m)).
Definition last_log_term (m : ConsensusModule) : Term :=
  off_term (LogMetadata_last (cm_log_meta m)).

Definition read_index (m : ConsensusModule) (time : Instant) : LeaderHint + ReadIndex :=
  match cm_state m with
  | Leader s =>
    let time := if (servers_len m =? 1)%nat then ls_lease_start s else time in
    inr (mkReadIndex (current_term (cm_meta m)) time
           (Z.max (commit_index (cm_meta m)) (ls_min_read_index s)))
  | Follower _ | Candidate _ => inl (leader_hint m)
  end.

Definition resolve_read_index {St} (m : ConsensusModule) (ri : ReadIndex) (optimistic : bool)
    : M St (ReadIndexError + LogIndex) :=
  match cm_state m with
  | Follower _ => ret (inl RI_NotLeader)
  | Candidate _ =>
    if pending_election m then ret (inl RI_PendingElection) else ret (inl RI_NotLeader)
  | Leader leader_state =>
    if negb (current_term (cm_meta m) =? ri_term ri) then ret (inl RI_StaleIndex) else
    if commit_index (cm_meta m) <? ri_index ri then
      let! off := unwrap (LogMetadata_lookup (cm_log_meta m) (ri_index ri)) in
      ret (inl (RI_RetryAfter (position off)))
    else
    let min_time :=
      match cm_draining m with
      | None => if optimistic then ri_time ri - LEASE_MARGIN else ri_time ri
      | Some _ => ri_time ri
      end in
    if ls_lease_start leader_state <? min_time then ret (inl (RI_WaitForLease min_time))
    else ret (inr (ri_index ri))
  end.

Definition proposal_status (m : ConsensusModule) (prop : LogPosition) : ProposalStatus :=
  if (pos_term prop >? last_log_term m) || (pos_index prop >? last_log_index m) then Missing
  else
  match LogMetadata_lookup (cm_log_meta m) (pos_index prop) with
  | None => Unavailable
  | Some off =>
    let cur_term := off_term off in
    if cur_term >? pos_term prop then Failed
    else if cur_term <? pos_term prop then
      if commit_index (cm_meta m) >=? pos_index prop then Failed else Missing
    else
      if commit_index (cm_meta m) >=? pos_index prop then Commited else Failed
  end.

Definition can_be_leader (m : ConsensusModule) : bool :=
  role_eqb (my_role m) MEMBER && (last_log_index m >=? commit_index (cm_meta m)).

Definition mem_commit_index (m : ConsensusModule) : LogIndex :=
  match cm_pending_commit_index m with
  | Some v => v
  | None => commit_index (cm_meta m)
  end.

(** ** Choosing the commit index and the lease *)

#[export] Instance Zge_decision : RelDecision (λ a b : Z, b ≤ a).
Proof. intros a b. apply Z_le_dec. Defined.

(** [sort_by(|a, b| b.cmp(a))] *)
Definition sort_desc (l : list Z) : list Z := merge_sort (λ a b, b ≤ a) l.

(** [l[i]] for a usize [i] *)
Definition index_at {A} (l : list A) (i : Z) : option A :=
  if (0 <=? i) && (i <? Z.of_nat (length l)) then l !! Z.to_nat i else None.

(** The flushed index of one voting server, as the leader knows it. *)
Definition match_index_of (m : ConsensusModule) (s : ConsensusLeaderState) (server : Server)
    : option LogIndex :=
  if negb (role_eqb (role server) MEMBER) then None
  else if server_id server =? cm_id m then
    Some (match LogMetadata_lookup_seq (cm_log_meta m) (cm_log_last_flushed m) with
          | Some off => off_index off
          | None => 0
          end)
  else
    match ls_followers s !! server_id server with
    | Some progress => Some (fp_match_index progress)
    | None => Some 0
    end.

Definition match_indexes (m : ConsensusModule) (s : ConsensusLeaderState) : list LogIndex :=
  omap (match_index_of m s) (servers (csm_value (cm_config m))).

Definition find_next_commit_index {St} (m : ConsensusModule) (s : ConsensusLeaderState)
    : M St (option LogIndex) :=
  if last_log_index m =? commit_index (cm_meta m) then ret None else
  let sorted := sort_desc (match_indexes m s) in
  let! candidate_index :=
    unwrap (index_at sorted (majority_size (csm_value (cm_config m)) - 1)) in
  if candidate_index <=? commit_index (cm_meta m) then ret None else
  match LogMetadata_lookup (cm_log_meta m) candidate_index with
  | None => ret None
  | Some v =>
    if negb (off_term v =? current_term (cm_meta m)) then ret None
    else ret (Some candidate_index)
  end.

(** The lease times of the voting followers that have one. *)
Definition lease_start_times (m : ConsensusModule) (s : ConsensusLeaderState) : list Instant :=
  omap (λ '(follower_id, follower),
    if negb (role_eqb (server_role (csm_value (cm_config m)) follower_id) MEMBER) then None
    else fp_lease_start follower) (map_to_list (ls_followers s)).

Definition find_next_lease_start {St} (m : ConsensusModule) (s : ConsensusLeaderState)
    (now : Instant) : M St Instant :=
  let majority := majority_size (csm_value (cm_config m)) in
  let majority := if role_eqb (my_role m) MEMBER then majority - 1 else majority in
  if majority =? 0 then ret now else
  let times := lease_start_times m s in
  if Z.of_nat (length times) <? majority then ret (ls_lease_start s) else
  let! candidate_time := unwrap (index_at (sort_desc times) (majority - 1)) in
  if candidate_time <? ls_lease_start s then ret (ls_lease_start s)
  else ret candidate_time.

(** ** Small state changes *)

Definition new_election_timeout : M Node Duration :=
  let! time := between ELECTION_TIMEOUT.1 ELECTION_TIMEOUT.2 in
  ret (from_millis time).

Definition new_follower (now : Instant) : M Node ConsensusState :=
  let! election_timeout := new_election_timeout in
  ret (Follower (mkFollowerState election_timeout None now)).

Definition set_state (s : ConsensusState) : M Node unit := modify_cm (cm_set_state s).

(** [update_commited] *)
Definition update_commited (index : LogIndex) : M Node unit :=
  let! m := get_cm in
  assert (index >? mem_commit_index m) ;!
  let! proceed :=
    match cm_pending_conflict m with
    | Some c =>
      if cm_log_last_flushed m >=? c then
        modify_cm (cm_set_pending_conflict None) ;! ret true
      else
        modify_cm (cm_set_pending_commit_index (Some index)) ;! ret false
    | None => ret true
    end in
  if negb proceed then ret tt else
  (if index >? commit_index (cm_meta m) then
     modify_cm (cm_set_meta (mkMetadata (current_term (cm_meta m)) (voted_for (cm_meta m)) index)) ;!
     write_meta
   else ret tt) ;!
  let! m := get_cm in
  let '(changed, config) := CSM_commit (cm_config m) (commit_index (cm_meta m)) in
  modify_cm (cm_set_config config) ;!
  if changed then write_config else ret tt.

(** [update_lease_start] *)
Definition update_lease_start (new_time : Instant) : M Node unit :=
  let! m := get_cm in
  match cm_state m with
  | Leader s => set_state (Leader (ls_set_lease_start new_time s))
  | _ => panic
  end.

(** [perform_election] *)
Definition perform_election (request_id : RequestId) (pre_vote : bool) : M Node unit :=
  let! m := get_cm in
  match cm_state m with
  | Candidate state =>
    let req := mkRequestVoteRequest (current_term (cm_meta m)) (cm_id m)
                 (last_log_index m) (last_log_term m) (cs_leader_approval state) in
    let ids := server_id <$> filter
      (λ s, negb (server_id s =? cm_id m) && role_eqb (role s) MEMBER = true)
      (servers (csm_value (cm_config m))) in
    if (length ids =? 0)%nat then ret tt else
    send (mkConsensusMessage request_id ids
            (if pre_vote then PreVote req else RequestVote req))
  | _ => panic
  end.

(** The [followers] map a new leader starts with. *)
Fixpoint new_followers (id : ServerId) (last_log_index : LogIndex) (l : list Server)
    : M Node (gmap ServerId ConsensusFollowerProgress) :=
  match l with
  | [] => ret ∅
  | s :: l' =>
    if server_id s =? id then new_followers id last_log_index l' else
    let! progress := Progress_new last_log_index in
    let! rest := new_followers id last_log_index l' in
    ret (<[server_id s := progress]> rest)
  end.

(** ** Sending heartbeats *)

Record HeartbeatAcc := mkHeartbeatAcc {
  ha_followers : gmap ServerId ConsensusFollowerProgress;
  ha_to_ids : list ServerId;
  ha_next_time : Instant;
}.

(** [t.map(|s| s + HEARTBEAT_INTERVAL).unwrap_or(time)] *)
Definition interval_after (t : option Instant) (time : Instant) : Instant :=
  match t with Some s => s + HEARTBEAT_INTERVAL | None => time end.

(** The loop of [send_heartbeats] over the servers. *)
Fixpoint heartbeat_loop (leader_id : ServerId) (last_log_index : LogIndex)
    (request_id : RequestId) (time : Instant) (heartbeat_now : bool)
    (l : list Server) (acc : HeartbeatAcc) : M Node HeartbeatAcc :=
  match l with
  | [] => ret acc
  | server :: l' =>
    let continue := heartbeat_loop leader_id last_log_index request_id time heartbeat_now l' in
    let id := server_id server in
    if id =? leader_id then continue acc else
    let! followers :=
      match ha_followers acc !! id with
      | Some _ => ret (ha_followers acc)
      | None =>
        let! p := Progress_new last_log_index in ret (<[id := p]> (ha_followers acc))
      end in
    let! progress := unwrap (followers !! id) in
    if (MAX_IN_FLIGHT_REQUESTS <=? size (fp_pending_heartbeat_requests progress))%nat
    then continue (mkHeartbeatAcc followers (ha_to_ids acc) (ha_next_time acc))
    else
    let next_follower_heartbeat_time :=
      Z.max (interval_after (fp_lease_start progress) time)
            (interval_after (fp_last_heartbeat_sent progress) time) in
    if (time >=? next_follower_heartbeat_time) || heartbeat_now then
      let progress' := fp_set_last_heartbeat_sent (Some time)
        (fp_set_pending_heartbeat_requests
           (<[request_id := time]> (fp_pending_heartbeat_requests progress)) progress) in
      continue (mkHeartbeatAcc (<[id := progress']> followers) (ha_to_ids acc ++ [id])
                  (Z.min (ha_next_time acc) (time + HEARTBEAT_INTERVAL)))
    else
      continue (mkHeartbeatAcc followers (ha_to_ids acc)
                  (Z.min (ha_next_time acc) next_follower_heartbeat_time))
  end.

Definition send_heartbeats : M Node Instant :=
  let! m := get_cm in
  match cm_state m with
  | Leader state =>
    let! time := get_time in
    let! request_id := u64_add (cm_last_request_id m) 1 in
    let! acc := heartbeat_loop (cm_id m) (last_log_index m) request_id time
      (ls_heartbeat_now state) (servers (csm_value (cm_config m)))
      (mkHeartbeatAcc (ls_followers state) [] (time + HEARTBEAT_INTERVAL)) in
    set_state (Leader (ls_set_followers (ha_followers acc) (ls_set_heartbeat_now false state))) ;!
    (match ha_to_ids acc with
     | [] => ret tt
     | to_ids =>
       modify_cm (cm_set_last_request_id request_id) ;!
       send (mkConsensusMessage request_id to_ids
               (Heartbeat (mkHeartbeatRequest (current_term (cm_meta m)) (cm_id m))))
     end) ;!
    ret (ha_next_time acc)
  | _ => panic
  end.

(** ** Replicating entries *)

(** [pick_timeout_now_server_id] *)
Definition pick_timeout_now_server_id (now : Instant) : M Node (option ServerId) :=
  let! m := get_cm in
  match cm_state m, cm_draining m with
  | Leader state, Some draining =>
    let too_soon :=
      match dr_next_leader draining with
      | Some (_, last_time) => last_time + TIMEOUT_NOW_DEADLINE >=? now
      | None => false
      end in
    if too_soon then ret None else
    let candidates := server_id <$> filter (λ s,
        negb (server_id s =? cm_id m) && role_eqb (role s) MEMBER &&
        match ls_followers state !! server_id s with
        | Some progress => is_follower_synchronized progress
        | None => false
        end = true) (servers (csm_value (cm_config m))) in
    match candidates with
    | [] => ret None
    | _ =>
      let! shuffled := shuffle candidates in
      let! first := unwrap (shuffled !! 0%nat) in
      ret (Some first)
    end
  | _, _ => ret None
  end.

(** Keys of [message_map], ordered as the tuples of the BTreeMap. *)
Abbreviation MessageKey := (LogIndex * LogIndex * bool)%type (only parsing).

Definition bool_cmp (a b : bool) : comparison :=
  match a, b with
  | false, true => Lt
  | true, false => Gt
  | _, _ => Eq
  end.

Definition key_cmp (a b : MessageKey) : comparison :=
  let '(a1, a2, a3) := a in
  let '(b1, b2, b3) := b in
  match a1 ?= b1 with
  | Eq => match a2 ?= b2 with Eq => bool_cmp a3 b3 | c => c end
  | c => c
  end.

(** A BTreeMap as its sorted association list. *)
Fixpoint btree_get {V} (k : MessageKey) (l : list (MessageKey * V)) : option V :=
  match l with
  | [] => None
  | (k', v) :: l' => match key_cmp k k' with Eq => Some v | _ => btree_get k l' end
  end.

Fixpoint btree_insert {V} (k : MessageKey) (v : V) (l : list (MessageKey * V))
    : list (MessageKey * V) :=
  match l with
  | [] => [(k, v)]
  | (k', v') :: l' =>
    match key_cmp k k' with
    | Lt => (k, v) :: (k', v') :: l'
    | Eq => (k, v) :: l'
    | Gt => (k', v') :: btree_insert k v l'
    end
  end.

Record ReplicateAcc := mkReplicateAcc {
  ra_followers : gmap ServerId ConsensusFollowerProgress;
  ra_draining : option DrainingState;
  ra_last_request_id : RequestId;
  ra_message_map : list (MessageKey * ConsensusMessage);
  ra_install_snapshot_ids : list ServerId;
  ra_next_send_time : Instant;
  ra_timeout_now_id : option ServerId;
}.

Definition ra_set_follower id p acc := mkReplicateAcc (<[id := p]> (ra_followers acc))
  (ra_draining acc) (ra_last_request_id acc) (ra_message_map acc)
  (ra_install_snapshot_ids acc) (ra_next_send_time acc) (ra_timeout_now_id acc).
Definition ra_set_next_send_time t acc := mkReplicateAcc (ra_followers acc)
  (ra_draining acc) (ra_last_request_id acc) (ra_message_map acc)
  (ra_install_snapshot_ids acc) t (ra_timeout_now_id acc).
Definition ra_set_timeout_sent d acc := mkReplicateAcc (ra_followers acc)
  d (ra_last_request_id acc) (ra_message_map acc)
  (ra_install_snapshot_ids acc) (ra_next_send_time acc) None.
Definition ra_set_messages id mm acc := mkReplicateAcc (ra_followers acc)
  (ra_draining acc) id mm
  (ra_install_snapshot_ids acc) (ra_next_send_time acc) (ra_timeout_now_id acc).
Definition ra_push_install id acc := mkReplicateAcc (ra_followers acc)
  (ra_draining acc) (ra_last_request_id acc) (ra_message_map acc)
  (ra_install_snapshot_ids acc ++ [id]) (ra_next_send_time acc) (ra_timeout_now_id acc).

(** Whether the server may get another request in its mode, and how many
    entries at most. *)
Definition flow_control (p : ConsensusFollowerProgress) : option Z :=
  let pending := size (fp_pending_append_requests p) in
  match fp_mode p with
  | Live =>
    if (MAX_IN_FLIGHT_REQUESTS <=? pending)%nat then None
    else Some MAX_ENTRIES_PER_LIVE_APPEND
  | Pesimistic | CatchingUp =>
    if (0 <? pending)%nat then None else Some MAX_ENTRIES_PER_PESSIMISTIC_APPEND
  | InstallingSnapshot => None
  end.

(** The request for a range of entries: an existing message with the same
    key gets another recipient, otherwise a new one is made; [None] when
    the entry before the range is no longer in the log. *)
Definition append_message (m : ConsensusModule) (id : ServerId)
    (prev_log_index last_log_index : LogIndex) (timeout_now : bool) (acc : ReplicateAcc)
    : M Node (option (RequestId * ReplicateAcc)) :=
  let key := (prev_log_index, last_log_index, timeout_now) in
  match btree_get key (ra_message_map acc) with
  | Some msg =>
    let msg' := mkConsensusMessage (msg_request_id msg) (msg_to msg ++ [id]) (msg_body msg) in
    ret (Some (msg_request_id msg,
      ra_set_messages (ra_last_request_id acc) (btree_insert key msg' (ra_message_map acc)) acc))
  | None =>
    match LogMetadata_lookup (cm_log_meta m) prev_log_index with
    | None => ret None
    | Some prev =>
      let! last := unwrap (LogMetadata_lookup (cm_log_meta m) last_log_index) in
      let! request_id := u64_add (ra_last_request_id acc) 1 in
      let request := mkAppendEntriesRequest (current_term (cm_meta m)) (cm_id m)
        prev_log_index (off_term prev) [] (commit_index (cm_meta m)) timeout_now in
      let msg := mkConsensusMessage request_id [id]
        (AppendEntries request last_log_index (sequence last)) in
      ret (Some (request_id,
        ra_set_messages request_id (btree_insert key msg (ra_message_map acc)) acc))
    end
  end.

(** One iteration of the loop of [replicate_entries] on a server other
    than the leader; the boolean says whether to stay on the server. *)
Definition replicate_step (m : ConsensusModule) (time : Instant) (id : ServerId)
    (acc : ReplicateAcc) : M Node (bool * ReplicateAcc) :=
  let leader_last_log_index := last_log_index m in
  let leader_commit := commit_index (cm_meta m) in
  let! progress :=
    match ra_followers acc !! id with
    | Some p => ret p
    | None => Progress_new leader_last_log_index
    end in
  let acc := ra_set_follower id progress acc in
  match flow_control progress with
  | None => ret (false, acc)
  | Some max_entries_per_request =>
    let! prev_log_index := u64_sub (fp_next_index progress) 1 in
    let! limit := u64_add prev_log_index (1 + max_entries_per_request) in
    let last_log_index := Z.min limit leader_last_log_index in
    let can_send_timeout_now :=
      (prev_log_index =? leader_last_log_index) &&
      (leader_last_log_index =? last_log_index) &&
      bool_decide (ra_timeout_now_id acc = Some id) &&
      (size (fp_pending_append_requests progress) <=? TIMEOUT_NOW_SEND_MAX_QUEUE_LENGTH)%nat in
    let '(due, acc) :=
      match fp_last_append_entries_sent progress with
      | Some t =>
        let next_t := t + APPEND_ENTRIES_INTERVAL in
        if next_t <=? time then (true, acc)
        else (false, ra_set_next_send_time (Z.min next_t (ra_next_send_time acc)) acc)
      | None => (true, acc)
      end in
    let need_another_request :=
      due || (fp_next_index progress <=? leader_last_log_index) ||
      (fp_last_commit_index_sent progress <? leader_commit) || can_send_timeout_now in
    if negb need_another_request then ret (false, acc) else
    let wait_until :=
      if mode_eqb (fp_mode progress) Live then None else
      match fp_last_append_entries_sent progress with
      | Some last_time =>
        let next_allowed := last_time + MIN_PESSIMISTIC_APPEND_INTERVAL in
        if time <? next_allowed then Some next_allowed else None
      | None => None
      end in
    match wait_until with
    | Some next_allowed =>
      ret (false, ra_set_next_send_time (Z.min next_allowed (ra_next_send_time acc)) acc)
    | None =>
      let round := match fp_round_start progress with
                   | None => Some (leader_last_log_index, time)
                   | r => r
                   end in
      let! next_index := u64_add last_log_index 1 in
      let progress := fp_set_sent time leader_commit round next_index progress in
      let acc := ra_set_follower id progress acc in
      let! acc :=
        (if can_send_timeout_now then
           let! d := unwrap (ra_draining acc) in
           ret (ra_set_timeout_sent
                  (Some (mkDrainingState (dr_term d) (Some (id, time)))) acc)
         else ret acc) in
      let! r := append_message m id prev_log_index last_log_index can_send_timeout_now acc in
      match r with
      | None =>
        let progress := fp_set_pending_append_requests ∅
          (fp_set_mode InstallingSnapshot progress) in
        ret (false, ra_push_install id (ra_set_follower id progress acc))
      | Some (request_id, acc) =>
        assert (bool_decide (fp_pending_append_requests progress !! request_id = None)) ;!
        let progress := fp_set_pending_append_requests
          (<[request_id := mkPendingAppendEntries time prev_log_index last_log_index]>
             (fp_pending_append_requests progress)) progress in
        ret (true, ra_set_follower id progress acc)
      end
    end
  end.

(** The [while] loop: [cur_server] stays at the head of the list until the
    step moves on. The code asserts that it iterates less than 10000
    times, which is the fuel. *)
Fixpoint replicate_loop (fuel : nat) (m : ConsensusModule) (time : Instant)
    (l : list Server) (acc : ReplicateAcc) : M Node ReplicateAcc :=
  match l with
  | [] => ret acc
  | server :: l' =>
    match fuel with
    | O => panic
    | S fuel' =>
      if server_id server =? cm_id m then replicate_loop fuel' m time l' acc else
      let! (stay, acc) := replicate_step m time (server_id server) acc in
      replicate_loop fuel' m time (if stay : bool then l else l') acc
    end
  end.

Definition replicate_entries : M Node Instant :=
  let! time := get_time in
  let! timeout_now_id := pick_timeout_now_server_id time in
  let! m := get_cm in
  match cm_state m with
  | Leader state =>
    let! acc := replicate_loop (Pos.to_nat 9999) m time (servers (csm_value (cm_config m)))
      (mkReplicateAcc (ls_followers state) (cm_draining m) (cm_last_request_id m) [] []
         (time + APPEND_ENTRIES_INTERVAL) timeout_now_id) in
    modify_cm (λ m, cm_set_last_request_id (ra_last_request_id acc)
      (cm_set_draining (ra_draining acc)
        (cm_set_state (Leader (ls_set_followers (ra_followers acc) state)) m))) ;!
    for_each (ra_message_map acc) (λ '(_, msg), send msg) ;!
    (match ra_install_snapshot_ids acc with
     | [] => ret tt
     | install_ids =>
       let! config := CSM_snapshot (cm_config m) in
       send (mkConsensusMessage 0 install_ids
         (InstallSnapshot (mkInstallSnapshotRequest (current_term (cm_meta m)) (cm_id m)
            LogPosition_zero config)))
     end) ;!
    ret (ra_next_send_time acc)
  | _ => panic
  end.

(** ** Elections and proposals; [cycle] is the recursive call *)

Section OpenRecursion.
Variable cycle : M Node unit.

Definition become_candidate (leader_approval : option Term) : M Node unit :=
  let! m := get_cm in
  assert (can_be_leader m) ;!
  let must_increment :=
    match cm_state m with Candidate s => cs_some_rejected s | _ => true end in
  let attempt_number :=
    match cm_state m with Candidate s => cs_attempt_number s + 1 | _ => 0 end in
  (if must_increment then
     let! term := u64_add (current_term (cm_meta m)) 1 in
     modify_cm (cm_set_meta (mkMetadata term (cm_id m) (commit_index (cm_meta m)))) ;!
     write_meta
   else ret tt) ;!
  let! request_id := u64_add (cm_last_request_id m) 1 in
  modify_cm (cm_set_last_request_id request_id) ;!
  let! time := get_time in
  let! election_timeout := new_election_timeout in
  set_state (Candidate (mkCandidateState attempt_number time election_timeout request_id
    ∅ None ∅ false leader_approval)) ;!
  (match leader_approval with
   | None => perform_election request_id true
   | Some _ => ret tt
   end) ;!
  cycle.

Definition become_follower : M Node unit :=
  let! time := get_time in
  let! s := new_follower time in
  set_state s ;!
  cycle.

Definition observe_term (term : Term) : M Node unit :=
  let! m := get_cm in
  if term >? current_term (cm_meta m) then
    modify_cm (cm_set_meta (mkMetadata term 0 (commit_index (cm_meta m)))) ;!
    write_meta ;!
    become_follower
  else ret tt.

(** The checks and the [followers] update of [propose_entry] for a
    configuration change. *)
Definition propose_config_change (m : ConsensusModule) (leader_state : ConsensusLeaderState)
    (c : ConfigChange) : M Node (option ProposeError) :=
  match csm_pending (cm_config m) with
  | Some pending =>
    let! off := unwrap (LogMetadata_lookup (cm_log_meta m) (last_change pending)) in
    ret (Some (RetryAfter (mkLogPosition (off_term off) (last_change pending))))
  | None =>
    match c with
    | RemoveServer id =>
      if id =? cm_id m then ret (Some RejectedConfigChange) else
      set_state (Leader (ls_set_followers (delete id (ls_followers leader_state)) leader_state)) ;!
      ret None
    | AddLearner id | AddAspiring id | AddMember id =>
      if id =? cm_id m then ret (Some RejectedConfigChange) else
      match ls_followers leader_state !! id with
      | Some _ => ret None
      | None =>
        let! p := Progress_new (last_log_index m) in
        set_state (Leader (ls_set_followers (<[id := p]> (ls_followers leader_state)) leader_state)) ;!
        ret None
      end
    | ConfigChange_NOT_SET => ret (Some RejectedConfigChange)
    end
  end.

(** [propose_entry] *)
Definition propose_entry (data : LogEntryData) (read : option ReadIndex)
    : M Node (ProposeError + LogPosition) :=
  let! m := get_cm in
  match cm_state m with
  | Leader leader_state =>
    let! index := u64_add (last_log_index m) 1 in
    let term := current_term (cm_meta m) in
    let! sequence := u64_add (sequence (LogMetadata_last (cm_log_meta m))) 1 in
    let tainted := match read with
                   | Some r => negb (ri_term r =? term)
                   | None => false
                   end in
    if tainted then ret (inl ReadIndexTainted) else
    match cm_draining m with
    | Some _ => ret (inl Draining)
    | None =>
      assert (term >? 0) ;!
      let! rejected :=
        match data with
        | Config c => propose_config_change m leader_state c
        | Command c =>
          if Z.of_nat (length c) >=? MAX_COMMAND_SIZE then ret (Some CommandTooLarge)
          else ret None
        | _ => ret None
        end in
      match rejected with
      | Some e => ret (inl e)
      | None =>
        let pos := mkLogPosition term index in
        let e := mkLogEntry pos data in
        modify_cm (λ m, cm_set_config (CSM_apply (cm_config m) e (commit_index (cm_meta m))) m) ;!
        let! log_meta := LogMetadata_append (cm_log_meta m) (mkLogOffset pos sequence) in
        modify_cm (cm_set_log_meta log_meta) ;!
        push_new_entry (mkNewLogEntry sequence e) ;!
        cycle ;!
        ret (inr (mkLogPosition term index))
      end
    end
  | Follower _ => ret (inl NotLeader)
  | Candidate _ =>
    if pending_election m then ret (inl PendingElection) else ret (inl NotLeader)
  end.

Definition propose_command (data : list Z) : M Node (ProposeError + LogPosition) :=
  propose_entry (Command data) None.

Definition propose_noop : M Node (ProposeError + LogPosition) :=
  propose_entry (Noop true) None.

(** [.unwrap()] / [.expect()] of a [Result] *)
Definition unwrap_result {E A} (r : E + A) : M Node A :=
  match r with inr a => ret a | inl _ => panic end.

(** The Follower case of [cycle]. *)
Definition cycle_follower (state : ConsensusFollowerState) : M Node unit :=
  let! m := get_cm in
  let! time := get_time in
  let elapsed := duration_since time (fs_last_heartbeat state) in
  let election_timeout := fs_election_timeout state in
  if negb (can_be_leader m) || bool_decide (is_Some (cm_draining m)) then
    let! s := new_follower time in
    set_state s ;!
    set_next_tick (from_secs 2)
  else if (elapsed >=? election_timeout) || (servers_len m =? 1)%nat then
    become_candidate None
  else
    let! wait := u64_sub election_timeout elapsed in
    set_next_tick wait.

(** The state a candidate that has won becomes. *)
Definition become_leader (main_vote_start : Instant) : M Node unit :=
  let! m := get_cm in
  let last_log_index := last_log_index m in
  let! followers := new_followers (cm_id m) last_log_index (servers (csm_value (cm_config m))) in
  let! min_read_index :=
    (if commit_index (cm_meta m) =? last_log_index then ret last_log_index
     else u64_add last_log_index 1) in
  set_state (Leader (mkLeaderState followers min_read_index main_vote_start false)) ;!
  (if commit_index (cm_meta m) <? last_log_index then
     let! r := propose_noop in
     let! _ := unwrap_result r in
     ret tt
   else ret tt) ;!
  cycle.

(** Whether the candidate's vote for itself is persisted and counts. *)
Definition have_self_voted (m : ConsensusModule) : bool :=
  (current_term (cm_persisted_meta m) =? current_term (cm_meta m)) &&
  negb (voted_for (cm_persisted_meta m) =? 0) && role_eqb (my_role m) MEMBER.

Definition pre_vote_count (m : ConsensusModule) (state : ConsensusCandidateState) : Z :=
  Z.of_nat (size (cs_pre_votes_received state)) + (if role_eqb (my_role m) MEMBER then 1 else 0).

Definition vote_count (m : ConsensusModule) (state : ConsensusCandidateState) : Z :=
  Z.of_nat (size (cs_votes_received state)) + (if have_self_voted m then 1 else 0).

(** The Candidate case of [cycle]. *)
Definition cycle_candidate (state : ConsensusCandidateState) : M Node unit :=
  let! m := get_cm in
  let! time := get_time in
  let elapsed := duration_since time (cs_election_start state) in
  if elapsed >=? cs_election_timeout state then become_candidate None else
  let! wait := u64_sub (cs_election_timeout state) elapsed in
  set_next_tick wait ;!
  let majority := majority_size (csm_value (cm_config m)) in
  let! main_vote_start :=
    match cs_main_vote_start state with
    | Some t => ret (Some t)
    | None =>
      if (pre_vote_count m state >=? majority) || bool_decide (is_Some (cs_leader_approval state)) then
        set_state (Candidate (cs_set_main_vote_start (Some time) state)) ;!
        perform_election (cs_vote_request_id state) false ;!
        ret (Some time)
      else ret None
    end in
  match main_vote_start with
  | None => ret tt
  | Some main_vote_start =>
    if vote_count m state >=? majority then become_leader main_vote_start else ret tt
  end.

(** A round that takes too long is abandoned. *)
Definition stop_slow_round (time : Instant) (p : ConsensusFollowerProgress)
    : ConsensusFollowerProgress :=
  match fp_round_start p with
  | Some (_, round_start) =>
    if round_start + ROUND_TARGET_DURATION <=? time then fp_set_round 0 None p else p
  | None => p
  end.

(** The last follower of the iteration that is ASPIRING and synchronized. *)
Definition server_to_promote (c : Configuration)
    (followers : gmap ServerId ConsensusFollowerProgress) : option ServerId :=
  foldl (λ best '(id, progress),
    if negb (role_eqb (server_role c id) ASPIRING) then best
    else if negb (is_follower_synchronized progress) then best
    else Some id) None (map_to_list followers).

(** What the leader does once it keeps its lease: rounds, messages and
    the promotion of one server. *)
Definition cycle_leader_tail : M Node unit :=
  let! m := get_cm in
  let! time := get_time in
  match cm_state m with
  | Leader state =>
    set_state (Leader (ls_set_followers (stop_slow_round time <$> ls_followers state) state)) ;!
    let! t1 := send_heartbeats in
    let! t2 := replicate_entries in
    let! m := get_cm in
    let next_heartbeat := duration_since (Z.min t1 t2) time in
    let next_heartbeat := if (servers_len m =? 1)%nat then from_secs 2 else next_heartbeat in
    let! promote :=
      match csm_pending (cm_config m), cm_draining m with
      | None, None =>
        match cm_state m with
        | Leader state => ret (server_to_promote (csm_value (cm_config m)) (ls_followers state))
        | _ => panic
        end
      | _, _ => ret None
      end in
    match promote with
    | Some id =>
      let! r := propose_entry (Config (AddMember id)) None in
      let! _ := unwrap_result r in
      ret tt
    | None => set_next_tick next_heartbeat
    end
  | _ => panic
  end.

(** The Leader case of [cycle]. *)
Definition cycle_leader (state : ConsensusLeaderState) : M Node unit :=
  let! m := get_cm in
  let! time := get_time in
  assert (can_be_leader m) ;!
  let! next_commit_index := find_next_commit_index m state in
  let! next_lease_start := find_next_lease_start m state time in
  (match next_commit_index with
   | Some ci => update_commited ci
   | None => ret tt
   end) ;!
  update_lease_start next_lease_start ;!
  if time >=? next_lease_start + from_millis ELECTION_TIMEOUT.2 then
    let! m := get_cm in
    match cm_draining m with
    | Some _ => become_follower
    | None => become_candidate None
    end
  else cycle_leader_tail.

(** [cycle] *)
Definition cycle_body : M Node unit :=
  let! m := get_cm in
  if role_eqb (my_role m) UNKNOWN then
    assert (is_follower (cm_state m)) ;!
    set_next_tick (from_secs 1)
  else
    match cm_state m with
    | Follower state => cycle_follower state
    | Candidate state => cycle_candidate state
    | Leader state => cycle_leader state
    end.
End OpenRecursion.

Fixpoint cycle (fuel : nat) : M Node unit :=
  match fuel with
  | O => out_of_fuel
  | S fuel' => cycle_body (cycle fuel')
  end.

(** The depth of the recursion: at most one promotion per server (and per index
    the configuration is ahead of the log, where a promotion has no effect), and a
    bounded number of role changes. *)
Definition cycle_fuel (m : ConsensusModule) : nat :=
  servers_len m + Z.to_nat (csm_last_applied (cm_config m) - last_log_index m) + 8.

Definition run_cycle : M Node unit :=
  let! m := get_cm in cycle (cycle_fuel m).

(** ** Operations of the module *)

Definition schedule_heartbeat : M Node unit :=
  let! m := get_cm in
  match cm_state m with
  | Leader s => set_state (Leader (ls_set_heartbeat_now true s)) ;! run_cycle
  | _ => ret tt
  end.

Definition reset_follower (time : Instant) : M Node unit :=
  let! m := get_cm in
  match cm_state m with
  | Follower _ => let! s := new_follower time in set_state s
  | _ => ret tt
  end.

Definition drain : M Node unit :=
  let! m := get_cm in
  match cm_draining m with
  | Some _ => ret tt
  | None =>
    modify_cm (cm_set_draining (Some (mkDrainingState (current_term (cm_meta m)) None))) ;!
    run_cycle
  end.

Definition log_flushed (last_flushed : LogSequence) : M Node unit :=
  let! m := get_cm in
  assert (last_flushed >=? cm_log_last_flushed m) ;!
  modify_cm (cm_set_log_last_flushed last_flushed) ;!
  run_cycle.

(** A follower whose next entry is discarded is moved past the discard. *)
Definition log_discarded (prev : LogPosition) : M Node unit :=
  let! m := get_cm in
  let! log_meta := LogMetadata_discard (cm_log_meta m) prev in
  modify_cm (cm_set_log_meta log_meta) ;!
  match cm_state m with
  | Leader leader =>
    if bool_decide (map_Exists (λ _ p, (fp_next_index p <=? pos_index prev) = true)
                      (ls_followers leader)) then
      let! next := u64_add (pos_index prev) 1 in
      set_state (Leader (ls_set_followers
        ((λ p, if fp_next_index p <=? pos_index prev then fp_set_next_index next p else p)
           <$> ls_followers leader) leader))
    else ret tt
  | _ => ret tt
  end.

Definition persisted_metadata (meta : Metadata) : M Node unit :=
  modify_cm (cm_set_persisted_meta meta) ;!
  run_cycle.

(** [observe_last_config_hint] *)
Definition observe_last_config_hint (resp : RequestVoteResponse) : M Node unit :=
  let! m := get_cm in
  match rvr_last_config_hint resp with
  | Some hint =>
    if snap_last_applied hint >? csm_last_applied (cm_config m) then
      modify_cm (cm_set_config (mkCSM (snap_data hint) (snap_last_applied hint) None)) ;!
      write_config
    else ret tt
  | None => ret tt
  end.

Definition request_vote_callback (from_id : ServerId) (request_id : RequestId)
    (is_pre_vote : bool) (resp : RequestVoteResponse) : M Node unit :=
  observe_term run_cycle (rvr_term resp) ;!
  observe_last_config_hint resp ;!
  let! m := get_cm in
  if negb (current_term (cm_meta m) =? rvr_term resp) then ret tt else
  if from_id =? cm_id m then ret tt else
  match cm_state m with
  | Candidate s =>
    if negb (cs_vote_request_id s =? request_id) then ret tt else
    set_state (Candidate
      (if rvr_vote_granted resp then
         if is_pre_vote
         then cs_set_pre_votes_received ({[from_id]} ∪ cs_pre_votes_received s) s
         else cs_set_votes_received ({[from_id]} ∪ cs_votes_received s) s
       else cs_set_some_rejected true s)) ;!
    run_cycle
  | _ => ret tt
  end.

(** [std::cmp::max] on [Option<Instant>]: [None] is the least. *)
Definition max_lease (a : option Instant) (b : Instant) : option Instant :=
  match a with Some x => Some (Z.max x b) | None => Some b end.

(** What a response to an AppendEntries request changes in the progress of
    the follower; the boolean is [should_noop]. *)
Definition append_response_progress {St} (m : ConsensusModule) (time : Instant)
    (request_ctx : PendingAppendEntries) (resp : AppendEntriesResponse)
    (progress : ConsensusFollowerProgress) : M St (ConsensusFollowerProgress * bool) :=
  let progress := fp_set_lease_start
    (max_lease (fp_lease_start progress) (pa_start_time request_ctx)) progress in
  let! (progress, should_noop) :=
    (if aer_success resp then
       let progress := fp_set_mode Live progress in
       let progress :=
         if pa_last_index_sent request_ctx >? fp_match_index progress
         then fp_set_match_index (pa_last_index_sent request_ctx) progress else progress in
       let should_noop :=
         (aer_last_log_index resp >? 0) &&
         (aer_last_log_index resp >? last_log_index m) &&
         negb (last_log_term m =? current_term (cm_meta m)) in
       ret (progress, should_noop)
     else
       let! next := u64_add (aer_last_log_index resp) 1 in
       ret (fp_set_next_index next (fp_set_mode CatchingUp progress), false)) in
  let progress :=
    match fp_round_start progress with
    | Some (target_index, round_start) =>
      if fp_match_index progress >=? target_index then
        fp_set_round
          (if duration_since time round_start <=? ROUND_TARGET_DURATION
           then fp_successful_rounds progress + 1 else 0) None progress
      else progress
    | None => progress
    end in
  ret (progress, should_noop).

Definition append_entries_callback (from_id : ServerId) (request_id : RequestId)
    (resp : AppendEntriesResponse) : M Node unit :=
  observe_term run_cycle (aer_term resp) ;!
  let! m := get_cm in
  let! time := get_time in
  match cm_state m with
  | Leader leader_state =>
    match ls_followers leader_state !! from_id with
    | None => ret tt
    | Some progress =>
      if mode_eqb (fp_mode progress) InstallingSnapshot then ret tt else
      match fp_pending_append_requests progress !! request_id with
      | None => ret tt
      | Some request_ctx =>
        let progress := fp_set_pending_append_requests
          (delete request_id (fp_pending_append_requests progress)) progress in
        let! (progress, should_noop) :=
          append_response_progress m time request_ctx resp progress in
        set_state (Leader (ls_set_followers
          (<[from_id := progress]> (ls_followers leader_state)) leader_state)) ;!
        if should_noop : bool then
          let! r := propose_noop run_cycle in
          let! _ := unwrap_result r in
          ret tt
        else run_cycle
      end
    end
  | _ => ret tt
  end.

Definition append_entries_noresponse (from_id : ServerId) (request_id : RequestId) : M Node unit :=
  let! m := get_cm in
  match cm_state m with
  | Leader leader_state =>
    match ls_followers leader_state !! from_id with
    | None => ret tt
    | Some progress =>
      if mode_eqb (fp_mode progress) InstallingSnapshot then ret tt else
      match fp_pending_append_requests progress !! request_id with
      | None => ret tt
      | Some _ =>
        let progress := fp_set_mode Pesimistic (fp_set_pending_append_requests
          (delete request_id (fp_pending_append_requests progress)) progress) in
        set_state (Leader (ls_set_followers
          (<[from_id := progress]> (ls_followers leader_state)) leader_state)) ;!
        run_cycle
      end
    end
  | _ => ret tt
  end.

(** A leader of the current term is heard of: a candidate steps down. *)
Definition candidate_steps_down (term : Term) : M Node unit :=
  let! m := get_cm in
  if (term =? current_term (cm_meta m)) && is_candidate (cm_state m)
  then become_follower run_cycle else ret tt.

(** The follower notes the leader that contacted it. *)
Definition follow_leader (leader_id : ServerId) : M Node (option ModuleError) :=
  let! m := get_cm in
  let! time := get_time in
  match cm_state m with
  | Follower s =>
    set_state (Follower (mkFollowerState (fs_election_timeout s) (Some leader_id) time)) ;!
    ret None
  | Leader _ => ret (Some AnotherLeaderInTerm)
  | Candidate _ => ret (Some StillCandidate)
  end.

Definition heartbeat (req : HeartbeatRequest) : M Node (ModuleError + HeartbeatResponse) :=
  observe_term run_cycle (hb_term req) ;!
  candidate_steps_down (hb_term req) ;!
  let! m := get_cm in
  let res := mkHeartbeatResponse (current_term (cm_meta m)) in
  if hb_term req <? current_term (cm_meta m) then ret (inr res) else
  let! err := follow_leader (hb_leader_id req) in
  match err with
  | Some e => ret (inl e)
  | None => ret (inr res)
  end.

Definition heartbeat_callback (from_id : ServerId) (request_id : RequestId)
    (response : option HeartbeatResponse) : M Node unit :=
  (match response with
   | Some r => observe_term run_cycle (hbr_term r)
   | None => ret tt
   end) ;!
  let! m := get_cm in
  match cm_state m with
  | Leader leader_state =>
    match ls_followers leader_state !! from_id with
    | None => ret tt
    | Some progress =>
      match fp_pending_heartbeat_requests progress !! request_id with
      | None => ret tt
      | Some heartbeat_start_time =>
        let progress := fp_set_pending_heartbeat_requests
          (delete request_id (fp_pending_heartbeat_requests progress)) progress in
        let progress :=
          match response with
          | Some _ =>
            fp_set_lease_start (max_lease (fp_lease_start progress) heartbeat_start_time) progress
          | None =>
            if mode_eqb (fp_mode progress) Live then fp_set_mode Pesimistic progress else progress
          end in
        set_state (Leader (ls_set_followers
          (<[from_id := progress]> (ls_followers leader_state)) leader_state)) ;!
        run_cycle
      end
    end
  | _ => ret tt
  end.

(** ** Voting *)

(** Whether a candidate's log is at least as up to date as ours. *)
Definition up_to_date (m : ConsensusModule) (req : RequestVoteRequest) : bool :=
  (rv_last_log_term req >? last_log_term m) ||
  ((rv_last_log_term req =? last_log_term m) && (rv_last_log_index req >=? last_log_index m)).

(** When the server last knew of a leader of its term. *)
Definition last_leader_seen (m : ConsensusModule) : option Instant :=
  match cm_state m with
  | Follower s =>
    match fs_last_leader_id s with Some _ => Some (fs_last_heartbeat s) | None => None end
  | Candidate _ => None
  | Leader s => Some (ls_lease_start s)
  end.

Definition pre_vote_should_grant (m : ConsensusModule) (req : RequestVoteRequest)
    (now : Instant) : bool :=
  if rv_term req <? current_term (cm_meta m) then false else
  if negb (up_to_date m req) then false else
  if negb (rv_term req >? current_term (cm_meta m)) &&
     ((voted_for (cm_meta m) >? 0) && negb (voted_for (cm_meta m) =? rv_candidate_id req))
  then false else
  if leader_approval_value req =? current_term (cm_meta m) then true else
  match last_leader_seen m with
  | Some t => negb (t + LEASE_MARGIN >? now)
  | None => true
  end.

Definition pre_vote {St} (m : ConsensusModule) (req : RequestVoteRequest) (now : Instant)
    : M St RequestVoteResponse :=
  let granted := pre_vote_should_grant m req now in
  let! snapshot := CSM_snapshot (cm_config m) in
  let hint :=
    if negb (role_eqb (server_role (snap_data snapshot) (rv_candidate_id req)) MEMBER)
    then Some snapshot else None in
  let term := if rv_term req >? current_term (cm_meta m) then rv_term req
              else current_term (cm_meta m) in
  ret (mkRequestVoteResponse term granted hint).

(** [request_vote]; the response is wrapped in [MustPersistMetadata]: the
    caller persists the metadata before it releases the response. *)
Definition request_vote (req : RequestVoteRequest) : M Node RequestVoteResponse :=
  observe_term run_cycle (rv_term req) ;!
  let! m := get_cm in
  let! time := get_time in
  let! res := pre_vote m req time in
  if rvr_vote_granted res then
    match cm_state m with
    | Follower s =>
      set_state (Follower (mkFollowerState (fs_election_timeout s)
        (Some (rv_candidate_id req)) time)) ;!
      modify_cm (cm_set_meta (mkMetadata (current_term (cm_meta m)) (rv_candidate_id req)
        (commit_index (cm_meta m)))) ;!
      write_meta ;!
      ret res
    | _ => panic
    end
  else ret res.

(** ** AppendEntries on a follower *)

(** Sanity check 2: sorted, consecutive entries. *)
Fixpoint entries_consecutive {St} (l : list LogEntry) : M St bool :=
  match l with
  | cur :: ((next :: _) as l') =>
    if pos_term (entry_pos cur) >? pos_term (entry_pos next) then ret false else
    let! after := u64_add (pos_index (entry_pos cur)) 1 in
    if negb (pos_index (entry_pos next) =? after) then ret false
    else entries_consecutive l'
  | _ => ret true
  end.

(** The sanity checks on the entries of a request. *)
Definition check_entries {St} (req : AppendEntriesRequest) : M St (option ModuleError) :=
  match ae_entries req with
  | [] => ret None
  | first :: _ =>
    if pos_term (entry_pos first) <? ae_prev_log_term req
    then ret (Some PreviousEntryDoesNotFollow) else
    let! after_prev := u64_add (ae_prev_log_index req) 1 in
    if negb (pos_index (entry_pos first) =? after_prev)
    then ret (Some PreviousEntryDoesNotFollow) else
    let! ok := entries_consecutive (ae_entries req) in
    ret (if ok : bool then None else Some EntriesInconsistent)
  end.

(** The loop that finds [first_new] and [pending_truncation]. *)
Fixpoint find_first_new (l : list LogEntry) (first_new : nat)
    : M Node (ModuleError + nat * bool) :=
  match l with
  | [] => ret (inr (first_new, false))
  | e :: l' =>
    let! m := get_cm in
    match LogMetadata_lookup (cm_log_meta m) (pos_index (entry_pos e)) with
    | Some off =>
      if off_term off =? pos_term (entry_pos e) then find_first_new l' (S first_new)
      else if mem_commit_index m >=? pos_index (entry_pos e)
      then ret (inl RefusingToTruncateCommitted)
      else
        let! config := CSM_revert (cm_config m) (pos_index (entry_pos e)) in
        modify_cm (cm_set_config config) ;!
        ret (inr (first_new, true))
    | None => ret (inr (first_new, false))
    end
  end.

(** The loop that appends the new entries; returns the sequence of the
    last one and whether the truncation is still pending. *)
Fixpoint append_new_entries (l : list LogEntry) (last_new_seq : LogSequence)
    (pending_truncation : bool) : M Node (LogSequence * bool) :=
  match l with
  | [] => ret (last_new_seq, pending_truncation)
  | e :: l' =>
    let! m := get_cm in
    let! seq := u64_add (sequence (LogMetadata_last (cm_log_meta m))) 1 in
    let! log_meta := LogMetadata_append (cm_log_meta m) (mkLogOffset (entry_pos e) seq) in
    modify_cm (cm_set_log_meta log_meta) ;!
    push_new_entry (mkNewLogEntry seq e) ;!
    (if pending_truncation then modify_cm (cm_set_pending_conflict (Some seq)) else ret tt) ;!
    modify_cm (λ m, cm_set_config (CSM_apply (cm_config m) e (commit_index (cm_meta m))) m) ;!
    append_new_entries l' seq false
  end.

Abbreviation AppendResult := (ModuleError + FlushConstraint AppendEntriesResponse)%type (only parsing).

(** The end of [append_entries]: append the new entries, advance the commit
    index, and answer (after an election, if the leader asks for one). [off]
    is the offset of the entry before those of the request. *)
Definition append_and_commit (req : AppendEntriesRequest) (term : Term) (off : LogOffset)
    (new_entries : list LogEntry) (pending_truncation : bool) : M Node AppendResult :=
  let last_new := match last new_entries with
                  | Some e => entry_pos e
                  | None => mkLogPosition (ae_prev_log_term req) (ae_prev_log_index req)
                  end in
  let! (last_new_seq, pending_truncation) :=
    append_new_entries new_entries (sequence off) pending_truncation in
  let! m := get_cm in
  (if ae_leader_commit req >? commit_index (cm_meta m) then
     let next_commit_index := Z.min (ae_leader_commit req) (pos_index last_new) in
     if next_commit_index >? commit_index (cm_meta m) then update_commited next_commit_index
     else ret tt
   else ret tt) ;!
  let! m := get_cm in
  assert (negb pending_truncation) ;!
  let ok := mkFlushConstraint (mkAppendEntriesResponse term true (last_log_index m))
              (Some (last_new_seq, last_new)) in
  if ae_timeout_now req then
    if negb (can_be_leader m) then ret (inl TimeoutNowCannotLead) else
    become_candidate run_cycle (Some (ae_term req)) ;!
    ret (inr ok)
  else ret (inr ok).

(** Everything [append_entries] does once the request is known to be from
    the leader of the term. *)
Definition append_entries_to_log (req : AppendEntriesRequest) : M Node AppendResult :=
  let! m := get_cm in
  let term := current_term (cm_meta m) in
  let response success last_log_index := mkAppendEntriesResponse term success last_log_index in
  let! checked := check_entries req in
  match checked with
  | Some e => ret (inl e)
  | None =>
  let! prev := unwrap (LogMetadata_prev (cm_log_meta m)) in
  if ae_prev_log_index req <? off_index prev then ret (inl PrevBeforeLogStart) else
  match LogMetadata_lookup (cm_log_meta m) (ae_prev_log_index req) with
  | None => ret (inr (mkFlushConstraint (response false (last_log_index m)) None))
  | Some off =>
  if negb (off_term off =? ae_prev_log_term req)
  then ret (inr (mkFlushConstraint (response false (commit_index (cm_meta m))) None)) else
  let! found := find_first_new (ae_entries req) 0 in
  match found with
  | inl e => ret (inl e)
  | inr (first_new, pending_truncation) =>
  let new_entries := drop first_new (ae_entries req) in
  let! next_ok :=
    match new_entries with
    | [] => ret true
    | next :: _ =>
      let! after_last := u64_add (last_log_index m) 1 in
      ret (negb (negb (pos_index (entry_pos next) =? after_last) ||
                 (pos_term (entry_pos next) <? last_log_term m)))
    end in
  if negb next_ok then ret (inl NextNotAfterLast) else
  append_and_commit req term off new_entries pending_truncation
  end end end.

Definition append_entries (req : AppendEntriesRequest) : M Node AppendResult :=
  observe_term run_cycle (ae_term req) ;!
  candidate_steps_down (ae_term req) ;!
  let! m := get_cm in
  if ae_term req <? current_term (cm_meta m) then
    ret (inr (mkFlushConstraint
      (mkAppendEntriesResponse (current_term (cm_meta m)) false 0) None))
  else
  assert (ae_term req =? current_term (cm_meta m)) ;!
  let! err := follow_leader (ae_leader_id req) in
  match err with
  | Some e => ret (inl e)
  | None => append_entries_to_log req
  end.

(** ** Snapshots *)

Definition install_snapshot (first_request : InstallSnapshotRequest)
    : M Node (ModuleError + InstallSnapshotResponse) :=
  observe_term run_cycle (is_term first_request) ;!
  let! m := get_cm in
  let res := mkInstallSnapshotResponse (current_term (cm_meta m)) in
  if negb (is_term first_request =? current_term (cm_meta m))
  then ret (inl SnapshotFromOldTerm) else
  if pos_index (is_last_applied first_request) >? snap_last_applied (is_last_config first_request)
  then ret (inl SnapshotBehindConfig) else
  (if csm_last_applied (cm_config m) <? snap_last_applied (is_last_config first_request) then
     modify_cm (cm_set_config (CSM_from (is_last_config first_request))) ;!
     write_config
   else ret tt) ;!
  ret (inr res).

Definition install_snapshot_callback_impl (to_id : ServerId) (request : InstallSnapshotRequest)
    (response : InstallSnapshotResponse) (successful : bool) (last_applied_index : LogIndex)
    : M Node unit :=
  observe_term run_cycle (isr_term response) ;!
  let! m := get_cm in
  if negb (is_term request =? current_term (cm_meta m)) then ret tt else
  match cm_state m with
  | Leader leader_state =>
    match ls_followers leader_state !! to_id with
    | None => ret tt
    | Some follower =>
      if negb (mode_eqb (fp_mode follower) InstallingSnapshot) then ret tt else
      let! follower :=
        (if negb successful then
           ret (fp_set_mode Pesimistic (fp_set_next_index (last_log_index m) follower))
         else
           let! next := u64_add last_applied_index 1 in
           ret (fp_set_mode Live (fp_set_match_index last_applied_index
                  (fp_set_next_index next follower)))) in
      set_state (Leader (ls_set_followers
        (<[to_id := follower]> (ls_followers leader_state)) leader_state)) ;!
      run_cycle
    end
  | _ => ret tt
  end.

Definition install_snapshot_callback (to_id : ServerId) (request : InstallSnapshotRequest)
    (response : InstallSnapshotResponse) (last_applied_index : LogIndex) : M Node unit :=
  install_snapshot_callback_impl to_id request response true last_applied_index.

Definition install_snapshot_noresponse (to_id : ServerId) (request : InstallSnapshotRequest)
    : M Node unit :=
  let! m := get_cm in
  install_snapshot_callback_impl to_id request
    (mkInstallSnapshotResponse (current_term (cm_meta m))) false (last_log_index m).

(** ** Status *)

Inductive Status_Role := STATUS_CANDIDATE | STATUS_FOLLOWER | STATUS_LEADER.

Record Status := mkStatus {
  st_id : ServerId;
  st_role : Status_Role;
  st_metadata : Metadata;
  st_configuration : Configuration;
  st_followers : list (ServerId * LogIndex * bool);
  st_leader_hint : option ServerId;
  st_draining : option (Term * option ServerId);
}.

Definition current_status {St} (m : ConsensusModule) : M St Status :=
  let! snapshot := CSM_snapshot (cm_config m) in
  ret (mkStatus (cm_id m)
    match cm_state m with
    | Leader _ => STATUS_LEADER
    | Follower _ => STATUS_FOLLOWER
    | Candidate _ => STATUS_CANDIDATE
    end
    (cm_meta m) (snap_data snapshot)
    match cm_state m with
    | Leader s => (λ '(id, p), (id, fp_match_index p, is_follower_synchronized p))
                    <$> map_to_list (ls_followers s)
    | _ => []
    end
    match cm_state m with
    | Leader _ => Some (cm_id m)
    | Follower s => fs_last_leader_id s
    | Candidate _ => None
    end
    match cm_draining m with
    | Some d => Some (dr_term d, fst <$> dr_next_leader d)
    | None => None
    end).
