(* ===== verification/RaftLog.v ===== *)
(** * The log interface and the in-memory log

    The [Log] trait (src/pkg/raft/src/log/log.rs) as a class of operations
    with the laws its clients rely on, stated on an abstract log; the
    implementation [MemoryLogSync] of src/pkg/raft/src/log/memory_log.rs;
    and [FlushConstraint::poll] of consensus/constraint.rs, proved against
    the interface. The trait's methods are async but each one holds the
    lock of the log for its whole body, so an operation is one step. *)

From S2P Require Import Prelude RaftProto LogMetadata Consensus.

(** ** The in-memory log *)

Record MemoryLogSync := mkMemoryLog {
  ml_prev : LogPosition;
  ml_log : list (LogEntry * LogSequence);
}.

Definition MemoryLog_new : MemoryLogSync := mkMemoryLog LogPosition_zero [].

Section MemoryLog.
Context {St : Type}.

Definition ml_off_for (l : MemoryLogSync) (index : LogIndex) : M St (option nat) :=
  let! first_index := u64_add (pos_index (ml_prev l)) 1 in
  (* [checked_sub] *)
  if index <? first_index then ret None else
  let index := Z.to_nat (index - first_index) in
  if (length (ml_log l) <=? index)%nat then ret None else ret (Some index).

Definition ml_last_index (l : MemoryLogSync) : M St LogIndex :=
  u64_add (pos_index (ml_prev l)) (Z.of_nat (length (ml_log l))).

Definition ml_term (l : MemoryLogSync) (index : LogIndex) : M St (option Term) :=
  if index =? pos_index (ml_prev l) then ret (Some (pos_term (ml_prev l))) else
  let! off := ml_off_for l index in
  match off with
  | None => ret None
  | Some off =>
    match ml_log l !! off with
    | Some v =>
      assert (pos_index (entry_pos v.1) =? index) ;!
      ret (Some (pos_term (entry_pos v.1)))
    | None => ret None
    end
  end.

Definition ml_entry (l : MemoryLogSync) (index : LogIndex)
    : M St (option (LogEntry * LogSequence)) :=
  let! off := ml_off_for l index in
  match off with
  | None => ret None
  | Some off => ret (ml_log l !! off)
  end.

Definition ml_entries (l : MemoryLogSync) (start_index end_index : LogIndex)
    : M St (option (list LogEntry * LogSequence)) :=
  let! start_off := ml_off_for l start_index in
  match start_off with
  | None => ret None
  | Some start_off =>
    let! end_off := ml_off_for l end_index in
    match end_off with
    | None => ret None
    | Some end_off =>
      (* [for i in start_off..(end_off + 1)]: empty when start is after end *)
      let out := fst <$> take (S end_off - start_off) (drop start_off (ml_log l)) in
      let! last := unwrap (ml_log l !! end_off) in
      ret (Some (out, last.2))
    end
  end.

Definition ml_append (l : MemoryLogSync) (entry : LogEntry) (sequence : LogSequence)
    : M St MemoryLogSync :=
  let! last := ml_last_index l in
  let! l :=
    (if pos_index (entry_pos entry) <=? last then
       let! off := ml_off_for l (pos_index (entry_pos entry)) in
       let! off := unwrap off in
       ret (mkMemoryLog (ml_prev l) (take off (ml_log l)))
     else ret l) in
  let! last := ml_last_index l in
  let! next := u64_add last 1 in
  assert (next =? pos_index (entry_pos entry)) ;!
  ret (mkMemoryLog (ml_prev l) (ml_log l ++ [(entry, sequence)])).

(** The errors of [discard]. *)
Inductive DiscardError :=
| RediscardTerm
| DiscardNotMonotonic
| DiscardInconsistent.

Definition ml_discard (l : MemoryLogSync) (pos : LogPosition)
    : M St (DiscardError + MemoryLogSync) :=
  if pos_index pos <=? pos_index (ml_prev l) then
    if pos_term pos >? pos_term (ml_prev l) then ret (inl RediscardTerm) else ret (inr l)
  else
  let! last := ml_last_index l in
  if pos_index pos >? last then
    let! last_term := ml_term l last in
    let! last_term := unwrap last_term in
    if pos_term pos <? last_term then ret (inl DiscardNotMonotonic)
    else ret (inr (mkMemoryLog pos []))
  else
  let! i := ml_off_for l (pos_index pos) in
  let! i := unwrap i in
  let! e := unwrap (ml_log l !! i) in
  if negb (pos_term pos =? pos_term (entry_pos e.1)) then ret (inl DiscardInconsistent)
  else ret (inr (mkMemoryLog (entry_pos e.1) (drop (i + 1) (ml_log l)))).

(** [MemoryLog::last_flushed]: everything counts as flushed. *)
Definition ml_last_flushed (l : MemoryLogSync) : LogSequence :=
  match last (ml_log l) with
  | Some v => v.2
  | None => 0
  end.
End MemoryLog.

(** ** The abstract log *)

(** A position and the entries after it. *)
Record ALog := mkALog {
  al_prev : LogPosition;
  al_entries : list (LogEntry * LogSequence);
}.

Definition al_last_index (a : ALog) : LogIndex :=
  pos_index (al_prev a) + Z.of_nat (length (al_entries a)).

Definition al_lookup (a : ALog) (i : LogIndex) : option (LogEntry * LogSequence) :=
  if pos_index (al_prev a) <? i then al_entries a !! Z.to_nat (i - pos_index (al_prev a) - 1)
  else None.

Definition al_term (a : ALog) (i : LogIndex) : option Term :=
  if i =? pos_index (al_prev a) then Some (pos_term (al_prev a))
  else (λ e, pos_term (entry_pos e.1)) <$> al_lookup a i.

(** Entries from the index on are replaced by the new one. *)
Definition al_append (a : ALog) (e : LogEntry) (s : LogSequence) : ALog :=
  mkALog (al_prev a)
    (take (Z.to_nat (pos_index (entry_pos e) - pos_index (al_prev a) - 1)) (al_entries a)
       ++ [(e, s)]).

(** The entry at position [k] of the list has the [k]-th index after [prev]. *)
Definition al_wf (a : ALog) : Prop :=
  0 ≤ pos_index (al_prev a) ∧ al_last_index a < U64_MAX ∧
  ∀ k e, al_entries a !! k = Some e →
    pos_index (entry_pos e.1) = pos_index (al_prev a) + 1 + Z.of_nat k.

(** ** The interface *)

Class Log (L : Type) := {
  log_prev : L → LogPosition;
  log_term : ∀ {St}, L → LogIndex → M St (option Term);
  log_last_index : ∀ {St}, L → M St LogIndex;
  log_entry : ∀ {St}, L → LogIndex → M St (option (LogEntry * LogSequence));
  log_append : ∀ {St}, L → LogEntry → LogSequence → M St L;
  log_last_flushed : L → LogSequence;
}.

(** What an implementation promises: a view as an abstract log that the
    operations read and update as documented. *)
Class LogLaws (L : Type) `{!Log L} := {
  log_view : L → ALog;
  log_ok : L → Prop;
  log_ok_wf l : log_ok l → al_wf (log_view l);
  log_prev_ok l : log_prev l = al_prev (log_view l);
  log_term_ok l i St (s : St) :
    log_ok l → log_term l i s = Done (al_term (log_view l) i, s);
  log_last_index_ok l St (s : St) :
    log_ok l → log_last_index l s = Done (al_last_index (log_view l), s);
  log_entry_ok l i St (s : St) :
    log_ok l → log_entry l i s = Done (al_lookup (log_view l) i, s);
  log_append_ok l e q :
    log_ok l →
    pos_index (al_prev (log_view l)) < pos_index (entry_pos e) ≤ al_last_index (log_view l) + 1 →
    pos_index (entry_pos e) < U64_MAX →
    ∃ l', (∀ St (s : St), log_append l e q s = Done (l', s)) ∧ log_ok l' ∧
      log_view l' = al_append (log_view l) e q;
}.

#[export] Instance MemoryLog_Log : Log MemoryLogSync := {
  log_prev := ml_prev;
  log_term := @ml_term;
  log_last_index := @ml_last_index;
  log_entry := @ml_entry;
  log_append := @ml_append;
  log_last_flushed := ml_last_flushed;
}.

(** ** The in-memory log implements the interface *)

Definition ml_view (l : MemoryLogSync) : ALog := mkALog (ml_prev l) (ml_log l).

Section MemoryLogCorrect.
Context {St : Type} (s : St).
Implicit Types (l : MemoryLogSync) (i : LogIndex).

Lemma ml_off_for_ok l i : al_wf (ml_view l) →
  ml_off_for l i s =
    Done (if (pos_index (ml_prev l) <? i) && (i <=? al_last_index (ml_view l))
          then Some (Z.to_nat (i - pos_index (ml_prev l) - 1)) else None, s).
Proof.
  intros (H0 & Hmax & _). unfold ml_off_for, bind, u64_add, al_last_index in *. cbn in *.
  destruct (_ <=? U64_MAX) eqn:E; b2p; [|lia]. cbn [ret].
  destruct (i <? _) eqn:E1; b2p.
  - destruct (_ <? i) eqn:E2; b2p; [lia|done].
  - destruct (_ <? i) eqn:E2; b2p; [|lia]. cbn [andb].
    replace (i - (pos_index (ml_prev l) + 1)) with (i - pos_index (ml_prev l) - 1) by lia.
    destruct (_ <=? _)%nat eqn:E3, (i <=? _) eqn:E4; b2p; try done; lia.
Qed.

Lemma ml_last_index_ok l : al_wf (ml_view l) →
  ml_last_index l s = Done (al_last_index (ml_view l), s).
Proof.
  intros (H0 & Hmax & _). unfold ml_last_index, u64_add, al_last_index in *. cbn in *.
  destruct (_ <=? U64_MAX) eqn:E; b2p; [done|lia].
Qed.

Lemma al_lookup_range a i :
  (pos_index (al_prev a) <? i) && (i <=? al_last_index a) = false → al_lookup a i = None.
Proof.
  unfold al_lookup, al_last_index. destruct (_ <? i) eqn:E; b2p; [|done].
  cbn [andb]. intros Hle. b2p. apply lookup_ge_None. lia.
Qed.

Lemma al_lookup_in a i :
  (pos_index (al_prev a) <? i) && (i <=? al_last_index a) = true →
  al_lookup a i = al_entries a !! Z.to_nat (i - pos_index (al_prev a) - 1).
Proof.
  unfold al_lookup. destruct (_ <? i) eqn:E; [done|]. done.
Qed.

Lemma ml_entry_ok l i : al_wf (ml_view l) →
  ml_entry l i s = Done (al_lookup (ml_view l) i, s).
Proof.
  intros Hwf. unfold ml_entry, bind. rewrite ml_off_for_ok by done.
  destruct (_ && _) eqn:E.
  - by rewrite (al_lookup_in (ml_view l)) by done.
  - by rewrite (al_lookup_range (ml_view l)) by done.
Qed.

Lemma ml_term_ok l i : al_wf (ml_view l) →
  ml_term l i s = Done (al_term (ml_view l) i, s).
Proof.
  intros Hwf. unfold ml_term, bind, al_term. cbn [al_prev ml_view].
  destruct (i =? pos_index (ml_prev l)) eqn:E; [done|].
  rewrite ml_off_for_ok by done. destruct (_ && _) eqn:E1.
  - rewrite (al_lookup_in (ml_view l)) by done. cbn [al_entries al_prev ml_view].
    destruct (ml_log l !! _) as [v|] eqn:Ev; [|done]. cbn [ret].
    destruct Hwf as (H0 & _ & Hidx). pose proof (Hidx _ _ Ev) as Hi. cbn in Hi.
    b2p. destruct E1 as [E1 E2].
    unfold assert. destruct (_ =? i) eqn:E3; b2p; [done|lia].
  - by rewrite (al_lookup_range (ml_view l)) by done.
Qed.
End MemoryLogCorrect.

Lemma al_append_wf a e q :
  al_wf a → pos_index (al_prev a) < pos_index (entry_pos e) ≤ al_last_index a + 1 →
  pos_index (entry_pos e) < U64_MAX → al_wf (al_append a e q).
Proof.
  intros (H0 & Hmax & Hidx) Hi He. unfold al_last_index in *.
  assert (length (take (Z.to_nat (pos_index (entry_pos e) - pos_index (al_prev a) - 1))
            (al_entries a)) = Z.to_nat (pos_index (entry_pos e) - pos_index (al_prev a) - 1))
    as Hlen by (rewrite length_take; lia).
  repeat split; cbn.
  - done.
  - unfold al_last_index. cbn. rewrite length_app, Hlen. cbn. lia.
  - intros k x [Hk|[Hk Hx]]%lookup_app_Some.
    + apply lookup_take_Some in Hk as [Hk _]. by apply Hidx.
    + rewrite Hlen in Hk, Hx.
      apply list_lookup_singleton_Some in Hx as [Hx <-]. cbn. lia.
Qed.

Lemma ml_append_ok l e q :
  al_wf (ml_view l) →
  pos_index (al_prev (ml_view l)) < pos_index (entry_pos e) ≤ al_last_index (ml_view l) + 1 →
  pos_index (entry_pos e) < U64_MAX →
  ∃ l', (∀ St (s : St), ml_append l e q s = Done (l', s)) ∧ al_wf (ml_view l') ∧
    ml_view l' = al_append (ml_view l) e q.
Proof.
  intros Hwf Hi Hmax. set (n := Z.to_nat (pos_index (entry_pos e) - pos_index (ml_prev l) - 1)).
  set (l1 := mkMemoryLog (ml_prev l) (take n (ml_log l))).
  exists (mkMemoryLog (ml_prev l) (take n (ml_log l) ++ [(e, q)])).
  assert (al_last_index (ml_view l1) = pos_index (entry_pos e) - 1) as Hlast.
  { unfold al_last_index in *. cbn in *. rewrite length_take. lia. }
  assert (al_wf (ml_view l1)) as Hwf1.
  { destruct Hwf as (? & ? & Hidx). repeat split; [done|lia|].
    intros k x [Hk _]%lookup_take_Some. by apply Hidx. }
  split; [|split; [by apply (al_append_wf (ml_view l))|done]].
  intros St s. unfold ml_append.
  rewrite (run_bind _ _ _ _ _ (ml_last_index_ok s l Hwf)).
  rewrite (run_bind _ _ s l1 s).
  - rewrite (run_bind _ _ _ _ _ (ml_last_index_ok s l1 Hwf1)). unfold u64_add, bind.
    destruct (_ <=? U64_MAX) eqn:E; b2p; [|lia]. cbn [ret].
    unfold assert. destruct (_ =? _) eqn:E1; b2p; [done|lia].
  - destruct (_ <=? _) eqn:E; b2p.
    + unfold bind. rewrite ml_off_for_ok by done.
      destruct (_ && _) eqn:E1; [done|]. cbn in Hi. b2p. lia.
    + assert (l = l1) as Hl; [|by rewrite Hl at 1].
      destruct l as [p lg]. unfold l1. cbn. f_equal.
      symmetry. apply take_ge. unfold n, al_last_index in *. cbn in *. lia.
Qed.

#[export] Instance MemoryLog_LogLaws : LogLaws MemoryLogSync.
Proof.
  refine {| log_view := ml_view; log_ok := λ l, al_wf (ml_view l) |}.
  - done.
  - done.
  - intros. by apply ml_term_ok.
  - intros. by apply ml_last_index_ok.
  - intros. by apply ml_entry_ok.
  - intros. by apply ml_append_ok.
Defined.

(** ** Flush constraints, against the interface *)

Inductive ConstraintPoll (C T : Type) :=
| Satisfied (v : T)
| PendingC (c : C)
| Unsatisfiable.
Arguments Satisfied {C T}.
Arguments PendingC {C T}.
Arguments Unsatisfiable {C T}.

Section Poll.
Context {L : Type} `{!Log L, !LogLaws L} {T : Type}.

(** [FlushConstraint::poll] *)
Definition poll {St} (c : FlushConstraint T) (log : L)
    : M St (ConstraintPoll (FlushConstraint T * LogSequence) T) :=
  match fc_point c with
  | None => ret (Satisfied (fc_inner c))
  | Some (seq, pos) =>
    let! t := log_term log (pos_index pos) in
    match t with
    | Some v =>
      if negb (v =? pos_term pos) then ret Unsatisfiable
      else if log_last_flushed log >=? seq then ret (Satisfied (fc_inner c))
      else ret (PendingC (mkFlushConstraint (fc_inner c) (Some (seq, pos)), seq))
    | None => ret Unsatisfiable
    end
  end.

(** A constrained value is released exactly when the log still holds the
    constrained position and is flushed up to its sequence. *)
Lemma poll_satisfied_iff {St} (s : St) (c : FlushConstraint T) log seq pos v :
  log_ok log → fc_point c = Some (seq, pos) →
  poll c log s = Done (Satisfied v, s) ↔
    v = fc_inner c ∧ al_term (log_view log) (pos_index pos) = Some (pos_term pos) ∧
    seq ≤ log_last_flushed log.
Proof.
  intros Hok Hp. unfold poll. rewrite Hp.
  rewrite (run_bind _ _ _ _ _ (log_term_ok log (pos_index pos) St s Hok)).
  destruct (al_term _ _) as [t|]; [|split; [done|by intros (_ & ? & _)]].
  destruct (t =? pos_term pos) eqn:E; b2p; cbn [negb].
  - subst. destruct (_ >=? seq) eqn:E1; b2p.
    + split; [by intros [= <-]|by intros (-> & _)].
    + split; [done|]. intros (_ & _ & ?). lia.
  - split; [done|]. intros (_ & ? & _). congruence.
Qed.
End Poll.
