(* ===== verification/ConsensusInv.v ===== *)
(** * What every operation of the consensus module preserves

    [Inv] is the invariant of one server between two operations, [Step]
    what an operation may change: terms and commit indexes only grow, a
    vote is cast once per term, every change of the durable metadata is
    flagged in the tick, the log metadata is extended by exactly the
    entries handed to the tick, and every message names its sender, a term
    it voted for itself in and a position of its own log. *)

From S2P Require Import Prelude RaftProto ConfigState LogMetadata ConsensusState Consensus.

(** ** Definitions *)

Definition offset_of (e : NewLogEntry) : LogOffset :=
  mkLogOffset (entry_pos (ne_entry e)) (ne_sequence e).

Definition msg_term (b : ConsensusMessageBody) : Term :=
  match b with
  | PreVote r | RequestVote r => rv_term r
  | Heartbeat r => hb_term r
  | AppendEntries r _ _ => ae_term r
  | InstallSnapshot r => is_term r
  end.

Definition msg_sender (b : ConsensusMessageBody) : ServerId :=
  match b with
  | PreVote r | RequestVote r => rv_candidate_id r
  | Heartbeat r => hb_leader_id r
  | AppendEntries r _ _ => ae_leader_id r
  | InstallSnapshot r => is_leader_id r
  end.

(** An AppendEntries request starts after an entry of the sender's log,
    stops at one, leaves its entries to the caller, and carries a commit index the sender has reached. *)
Definition matches_log (m : ConsensusModule) (b : ConsensusMessageBody) : Prop :=
  match b with
  | AppendEntries r last_index last_seq =>
    (∃ p, p ∈ all_offsets (cm_log_meta m) ∧
       position p = mkLogPosition (ae_prev_log_term r) (ae_prev_log_index r)) ∧
    (∃ l, l ∈ all_offsets (cm_log_meta m) ∧ off_index l = last_index ∧ sequence l = last_seq) ∧
    ae_leader_commit r ≤ commit_index (cm_meta m) ∧ ae_entries r = []
  | _ => True
  end.

(** Votes are asked of other members of an allowed configuration. *)
Definition asks_voters {CP : ConfigPolicy} (m : ConsensusModule) (msg : ConsensusMessage) : Prop :=
  match msg_body msg with
  | PreVote _ | RequestVote _ =>
    ∃ config, cfg_ok config ∧
      Forall (λ id, id ≠ cm_id m ∧ id ∈ members (csm_value config)) (msg_to msg)
  | _ => True
  end.

Record sent_by {CP : ConfigPolicy} (m : ConsensusModule) (msg : ConsensusMessage) : Prop := mkSentBy {
  sb_sender : msg_sender (msg_body msg) = cm_id m;
  sb_term : msg_term (msg_body msg) ≤ current_term (cm_meta m);
  sb_vote : msg_term (msg_body msg) = current_term (cm_meta m) → voted_for (cm_meta m) = cm_id m;
  sb_log : matches_log m (msg_body msg);
  sb_to : asks_voters m msg;
}.

(** The entries of earlier terms in the log of a leader are at or before the
    first index it may answer reads at. *)
Definition reads_cover (m : ConsensusModule) : Prop :=
  ∀ s o, cm_state m = Leader s → o ∈ tail (all_offsets (cm_log_meta m)) →
    off_term o < current_term (cm_meta m) → off_index o ≤ ls_min_read_index s.

Record Inv {CP : ConfigPolicy} (m : ConsensusModule) : Prop := mkInv {
  inv_id : 0 < cm_id m;
  inv_log : LogMetadata_wf (cm_log_meta m);
  inv_term : 0 ≤ current_term (cm_meta m);
  inv_vote : is_follower (cm_state m) = false →
    voted_for (cm_meta m) = cm_id m ∧ 0 < current_term (cm_meta m);
  inv_conflict : cm_pending_conflict m = None;
  inv_pending_commit : cm_pending_commit_index m = None;
  inv_config : cfg_ok (cm_config m);
  inv_voted : id_ok (voted_for (cm_meta m));
  inv_reads : reads_cover m;
}.

(** What the durable metadata may become. *)
Record meta_step (a b : Metadata) : Prop := mkMetaStep {
  ms_term : current_term a ≤ current_term b;
  ms_vote : current_term a = current_term b → 0 < voted_for a → voted_for b = voted_for a;
  ms_commit : commit_index a ≤ commit_index b;
}.

(** The votes a candidate already had in term [t]. *)
Definition old_votes (m : ConsensusModule) (t : Term) : gset ServerId :=
  match cm_state m with
  | Candidate s => if current_term (cm_meta m) =? t then cs_votes_received s else ∅
  | _ => ∅
  end.

(** The candidate's votes, its own included, are a majority. *)
Definition wins (m : ConsensusModule) (s : ConsensusCandidateState) : Prop :=
  majority_size (csm_value (cm_config m)) ≤ vote_count m s.

(** A candidate [m] of term [t] that [n] has become wins the election, when
    [X t] are the votes [n] is told about for term [t]. *)
Record won {CP : ConfigPolicy} (X : Term → gset ServerId) (n : Node) (t : Term)
    (m : ConsensusModule) (s : ConsensusCandidateState) : Prop := mkWon {
  wo_state : cm_state m = Candidate s;
  wo_term : current_term (cm_meta m) = t;
  wo_id : cm_id m = cm_id (node_cm n);
  wo_persisted : cm_persisted_meta m = cm_persisted_meta (node_cm n);
  wo_meta : meta_step (cm_meta (node_cm n)) (cm_meta m);
  wo_vote : voted_for (cm_meta m) = cm_id m;
  wo_votes : cs_votes_received s ⊆ old_votes (node_cm n) t ∪ X t;
  wo_wins : wins m s;
  wo_config : cfg_ok (cm_config m);
}.

(** The server leads term [t] or wins its election. *)
Definition led {CP : ConfigPolicy} (X : Term → gset ServerId) (n : Node) (t : Term) : Prop :=
  (is_leader (cm_state (node_cm n)) = true ∧ current_term (cm_meta (node_cm n)) = t) ∨
  ∃ m s, won X n t m s.

(** How a server can come to its role: a candidate counts votes of its term
    only, and a leader has [led] the term. *)
Definition elect {CP : ConfigPolicy} (X : Term → gset ServerId) (n n' : Node) : Prop :=
  let t := current_term (cm_meta (node_cm n')) in
  match cm_state (node_cm n') with
  | Follower _ => True
  | Candidate s' => cs_votes_received s' ⊆ old_votes (node_cm n) t ∪ X t
  | Leader _ => led X n t
  end.

Definition no_votes : Term → gset ServerId := λ _, ∅.
Definition no_copies : LogEntry → Prop := λ _, False.

(** A new entry is copied from a request, or was made in a term the server
    [led]. *)
Definition made {CP : ConfigPolicy} (X : Term → gset ServerId) (C : LogEntry → Prop) (n : Node)
    (e : NewLogEntry) : Prop :=
  C (ne_entry e) ∨
  (led X n (pos_term (entry_pos (ne_entry e))) ∧ entry_ok (entry_data (ne_entry e))).

Record StepX {CP : ConfigPolicy} (X : Term → gset ServerId) (C : LogEntry → Prop) (n n' : Node)
    : Prop := mkStep {
  sp_id : cm_id (node_cm n') = cm_id (node_cm n);
  sp_persisted : cm_persisted_meta (node_cm n') = cm_persisted_meta (node_cm n);
  sp_flushed : cm_log_last_flushed (node_cm n') = cm_log_last_flushed (node_cm n);
  sp_time : tick_time (node_tick n') = tick_time (node_tick n);
  sp_meta : meta_step (cm_meta (node_cm n)) (cm_meta (node_cm n'));
  sp_written : cm_meta (node_cm n') = cm_meta (node_cm n) ∨ tick_meta (node_tick n') = true;
  sp_written_mono : tick_meta (node_tick n) = true → tick_meta (node_tick n') = true;
  sp_request : cm_last_request_id (node_cm n) ≤ cm_last_request_id (node_cm n');
  sp_log : ∃ k, tick_new_entries (node_tick n') = tick_new_entries (node_tick n) ++ k ∧
    all_offsets (cm_log_meta (node_cm n')) =
      all_offsets (cm_log_meta (node_cm n)) ++ (offset_of <$> k) ∧
    Forall (made X C n) k;
  sp_messages : ∃ k, tick_messages (node_tick n') = tick_messages (node_tick n) ++ k ∧
    Forall (sent_by (node_cm n')) k;
  sp_elect : elect X n n';
}.

Abbreviation Step := (StepX no_votes no_copies).

(** ** [Step] is a preorder *)

#[export] Instance meta_step_preorder : PreOrder meta_step.
Proof.
  split.
  - intros a. by split.
  - intros a b c [Ht Hv Hc] [Ht' Hv' Hc']. split; [lia| |lia].
    intros E Hp. assert (voted_for b = voted_for a) as Eb by (apply Hv; lia).
    rewrite <- Eb. apply Hv'; lia.
Qed.

Lemma sent_by_step {CP : ConfigPolicy} X C n n' msg :
  0 < cm_id (node_cm n) → StepX X C n n' → sent_by (node_cm n) msg → sent_by (node_cm n') msg.
Proof.
  intros Hid HS [Hs Ht Hv Hl Hto]. pose proof (sp_meta _ _ _ _ HS) as [Mt Mv Mc].
  split.
  - rewrite (sp_id _ _ _ _ HS). done.
  - lia.
  - intros E. assert (voted_for (cm_meta (node_cm n)) = cm_id (node_cm n)) as Ev by (apply Hv; lia).
    rewrite (sp_id _ _ _ _ HS), <- Ev. apply Mv; lia.
  - destruct (sp_log _ _ _ _ HS) as (k & _ & Hk & _). unfold matches_log in *.
    destruct (msg_body msg); try done.
    destruct Hl as ((p & Hp & Ep) & (l & Hl & El) & Hc & He). rewrite Hk. split_and!; [| |lia|done].
    + exists p. split; [by apply elem_of_app; left|done].
    + exists l. split; [by apply elem_of_app; left|done].
  - unfold asks_voters in *. by rewrite (sp_id _ _ _ _ HS).
Qed.

Lemma elect_refl {CP : ConfigPolicy} X n : elect X n n.
Proof.
  unfold elect, old_votes. destruct (cm_state (node_cm n)) eqn:E; [done| |left; by rewrite E].
  rewrite Z.eqb_refl. set_solver.
Qed.

(** A candidate's old votes before the second step come from the first. *)
Lemma old_votes_elect {CP : ConfigPolicy} X n n' :
  elect X n n' →
  old_votes (node_cm n') (current_term (cm_meta (node_cm n'))) ⊆
    old_votes (node_cm n) (current_term (cm_meta (node_cm n'))) ∪ X (current_term (cm_meta (node_cm n'))).
Proof.
  intros He. unfold elect in He. unfold old_votes at 1.
  destruct (cm_state (node_cm n')); [set_solver| |set_solver]. by rewrite Z.eqb_refl.
Qed.

Lemma old_votes_term m t : current_term (cm_meta m) ≠ t → old_votes m t = ∅.
Proof. unfold old_votes. intros Hne. destruct (cm_state m); try done. by rewrite (proj2 (Z.eqb_neq _ _)). Qed.

Lemma votes_trans (A B1 B2 X Y : gset ServerId) :
  A ⊆ B2 ∪ Y → B2 ⊆ B1 ∪ X → A ⊆ B1 ∪ (X ∪ Y).
Proof. set_solver. Qed.

Lemma votes_mono (A B X Y : gset ServerId) : A ⊆ B ∪ X → X ⊆ Y → A ⊆ B ∪ Y.
Proof. set_solver. Qed.

Lemma old_votes_step {CP : ConfigPolicy} X n n' t :
  elect X n n' → old_votes (node_cm n') t ⊆ old_votes (node_cm n) t ∪ X t.
Proof.
  intros He. pose proof (old_votes_elect _ _ _ He) as Hold.
  destruct (decide (current_term (cm_meta (node_cm n')) = t)) as [E|E]; [by rewrite E in Hold|].
  rewrite old_votes_term by done. apply empty_subseteq.
Qed.

Lemma led_mono {CP : ConfigPolicy} X Y n t : (∀ t, X t ⊆ Y t) → led X n t → led Y n t.
Proof.
  intros HXY [?|(m & s & [])]; [by left|right]. exists m, s. split; try done. by eapply votes_mono.
Qed.

Lemma led_trans {CP : ConfigPolicy} X Y n1 n2 t :
  cm_id (node_cm n2) = cm_id (node_cm n1) →
  cm_persisted_meta (node_cm n2) = cm_persisted_meta (node_cm n1) →
  meta_step (cm_meta (node_cm n1)) (cm_meta (node_cm n2)) →
  elect X n1 n2 → led Y n2 t → led (λ t, X t ∪ Y t) n1 t.
Proof.
  intros Eid Ep Hm H12 [[Hl <-]|(m & s & [])].
  - unfold elect in H12. destruct (cm_state (node_cm n2)); try done.
    eapply led_mono; [|exact H12]. intros t. apply union_subseteq_l.
  - right. exists m, s. split; try done; try congruence; [by etrans|].
    eapply votes_trans; [done|]. by apply old_votes_step.
Qed.

Lemma elect_trans {CP : ConfigPolicy} X Y n1 n2 n3 :
  cm_id (node_cm n2) = cm_id (node_cm n1) →
  cm_persisted_meta (node_cm n2) = cm_persisted_meta (node_cm n1) →
  meta_step (cm_meta (node_cm n1)) (cm_meta (node_cm n2)) →
  elect X n1 n2 → elect Y n2 n3 → elect (λ t, X t ∪ Y t) n1 n3.
Proof.
  intros Eid Ep Hm H12 H23. unfold elect in H23 |- *.
  destruct (cm_state (node_cm n3)); [done| |by eapply led_trans].
  eapply votes_trans; [done|]. by apply old_votes_step.
Qed.

Lemma made_mono {CP : ConfigPolicy} X Y (C D : LogEntry → Prop) n e :
  (∀ t, X t ⊆ Y t) → (∀ e, C e → D e) → made X C n e → made Y D n e.
Proof.
  intros HXY HCD [?|[? ?]]; [left; by apply HCD|right]. split; [by eapply led_mono|done].
Qed.

(** Elections depend on the identity, the metadata and the role only. *)
Definition same_voter (m m' : ConsensusModule) : Prop :=
  cm_id m = cm_id m' ∧ cm_persisted_meta m = cm_persisted_meta m' ∧
  cm_meta m = cm_meta m' ∧ cm_state m = cm_state m'.

Lemma led_ext {CP : ConfigPolicy} X n1 n2 t :
  same_voter (node_cm n1) (node_cm n2) → led X n1 t → led X n2 t.
Proof.
  intros (E1 & E2 & E3 & E4) [[? ?]|(m & s & [])]; [left|right].
  - by rewrite <- E3, <- E4.
  - exists m, s. split; try done; try congruence.
    unfold old_votes in *. by rewrite <- E3, <- E4.
Qed.

Lemma elect_ext {CP : ConfigPolicy} X n1 n2 n' :
  same_voter (node_cm n1) (node_cm n2) → elect X n1 n' → elect X n2 n'.
Proof.
  intros Hs. unfold elect. destruct (cm_state (node_cm n')); [done| |by apply led_ext].
  destruct Hs as (_ & _ & E3 & E4). unfold old_votes. by rewrite <- E3, <- E4.
Qed.

Lemma made_ext {CP : ConfigPolicy} X C n1 n2 e :
  same_voter (node_cm n1) (node_cm n2) → made X C n1 e → made X C n2 e.
Proof. intros Hs [?|[? ?]]; [by left|right]. split; [by eapply led_ext|done]. Qed.

Lemma Step_refl {CP : ConfigPolicy} n : Step n n.
Proof.
  split; auto using elect_refl; try done; exists []; rewrite ?app_nil_r; auto.
Qed.

Lemma StepX_trans {CP : ConfigPolicy} X Y C D n1 n2 n3 :
  0 < cm_id (node_cm n2) → StepX X C n1 n2 → StepX Y D n2 n3 →
  StepX (λ t, X t ∪ Y t) (λ e, C e ∨ D e) n1 n3.
Proof.
  intros Hid H12 H23. split.
  - rewrite (sp_id _ _ _ _ H23). apply H12.
  - rewrite (sp_persisted _ _ _ _ H23). apply H12.
  - rewrite (sp_flushed _ _ _ _ H23). apply H12.
  - rewrite (sp_time _ _ _ _ H23). apply H12.
  - etrans; [apply H12|apply H23].
  - destruct (sp_written _ _ _ _ H23) as [->|]; [|by right].
    destruct (sp_written _ _ _ _ H12); [by left|right]. by apply (sp_written_mono _ _ _ _ H23).
  - intros. by apply (sp_written_mono _ _ _ _ H23), (sp_written_mono _ _ _ _ H12).
  - pose proof (sp_request _ _ _ _ H12). pose proof (sp_request _ _ _ _ H23). lia.
  - destruct (sp_log _ _ _ _ H12) as (k1 & E1 & L1 & M1), (sp_log _ _ _ _ H23) as (k2 & E2 & L2 & M2).
    exists (k1 ++ k2). rewrite E2, E1, L2, L1, fmap_app, !(assoc_L (++)). split_and!; [done..|].
    apply Forall_app. split; eapply Forall_impl; [exact M1| |exact M2|].
    + intros e. apply made_mono; [|by left]. intros t. apply union_subseteq_l.
    + intros e [?|[Hl ?]]; [left; by right|right]. split; [|done].
      eapply led_trans; [apply H12..|exact Hl].
  - destruct (sp_messages _ _ _ _ H12) as (k1 & E1 & F1), (sp_messages _ _ _ _ H23) as (k2 & E2 & F2).
    exists (k1 ++ k2). rewrite E2, E1, (assoc_L (++)). split; [done|].
    apply Forall_app. split; [|done].
    eapply Forall_impl; [exact F1|]. eauto using sent_by_step.
  - eapply elect_trans; [apply H12..|apply H23].
Qed.

Lemma StepX_ext {CP : ConfigPolicy} X Y (C D : LogEntry → Prop) n n' :
  (∀ t, X t ⊆ Y t) → (∀ e, C e → D e) → StepX X C n n' → StepX Y D n n'.
Proof.
  intros HXY HCD []. split; try done.
  - destruct sp_log0 as (k & ? & ? & Hk). exists k. split_and!; try done.
    eapply Forall_impl; [exact Hk|]. intros e. by apply made_mono.
  - unfold elect in *. destruct (cm_state (node_cm n')); try done.
    + by eapply votes_mono.
    + by eapply led_mono.
Qed.

Lemma Step_trans {CP : ConfigPolicy} n1 n2 n3 :
  0 < cm_id (node_cm n2) → Step n1 n2 → Step n2 n3 → Step n1 n3.
Proof.
  intros Hid H12 H23. eapply StepX_ext; [| |by eapply StepX_trans].
  - unfold no_votes. set_solver.
  - by intros e [|].
Qed.

(** ** Keeping the invariant *)

Definition Keep {CP : ConfigPolicy} (n0 n : Node) : Prop := Inv (node_cm n) ∧ Step n0 n.

Definition keeps {CP : ConfigPolicy} {A} (m : M Node A) : Prop :=
  ∀ n, Inv (node_cm n) → wp m (λ _ n', Keep n n') n.

Lemma Keep_refl {CP : ConfigPolicy} n : Inv (node_cm n) → Keep n n.
Proof. split; [done|apply Step_refl]. Qed.

Lemma Keep_trans {CP : ConfigPolicy} n1 n2 n3 : Keep n1 n2 → Keep n2 n3 → Keep n1 n3.
Proof. intros [I2 S12] [I3 S23]. split; [done|].
  apply (Step_trans _ n2); [by apply inv_id|done|done]. Qed.

(** The same when entries may be copied from a request. *)
Definition KeepC {CP : ConfigPolicy} (C : LogEntry → Prop) (n0 n : Node) : Prop :=
  Inv (node_cm n) ∧ StepX no_votes C n0 n.

Lemma Keep_KeepC {CP : ConfigPolicy} C n n' : Keep n n' → KeepC C n n'.
Proof.
  intros [HI HS]. split; [done|]. by apply (StepX_ext no_votes no_votes no_copies C).
Qed.

Lemma KeepC_trans {CP : ConfigPolicy} C n1 n2 n3 : KeepC C n1 n2 → KeepC C n2 n3 → KeepC C n1 n3.
Proof.
  intros [I2 S12] [I3 S23]. split; [done|].
  eapply StepX_ext; [| |exact (StepX_trans _ _ _ _ _ _ _ (inv_id _ I2) S12 S23)].
  - unfold no_votes. set_solver.
  - by intros e [|].
Qed.

Lemma keeps_from {CP : ConfigPolicy} {A} (m : M Node A) n0 n :
  keeps m → Keep n0 n → wp m (λ _ n', Keep n0 n') n.
Proof.
  intros Hm HK. eapply wpx_mono; [apply Hm, HK|]. cbn. eauto using Keep_trans.
Qed.

Lemma keeps_bind {CP : ConfigPolicy} {A B} (m : M Node A) (k : A → M Node B) :
  keeps m → (∀ a, keeps (k a)) → keeps (bind m k).
Proof.
  intros Hm Hk n Hn. apply wpx_bind. eapply wpx_mono; [by apply Hm|].
  intros a n' HK. by eapply keeps_from.
Qed.

Lemma keeps_ret {CP : ConfigPolicy} {A} (a : A) : keeps (ret a).
Proof. intros n Hn. apply wpx_ret, Keep_refl, Hn. Qed.

(** Only the bookkeeping of the module changed. *)
Lemma Step_silent {CP : ConfigPolicy} n n' :
  cm_id (node_cm n') = cm_id (node_cm n) →
  cm_persisted_meta (node_cm n') = cm_persisted_meta (node_cm n) →
  cm_log_last_flushed (node_cm n') = cm_log_last_flushed (node_cm n) →
  cm_meta (node_cm n') = cm_meta (node_cm n) →
  cm_log_meta (node_cm n') = cm_log_meta (node_cm n) →
  cm_last_request_id (node_cm n) ≤ cm_last_request_id (node_cm n') →
  tick_time (node_tick n') = tick_time (node_tick n) →
  tick_meta (node_tick n') = tick_meta (node_tick n) →
  tick_new_entries (node_tick n') = tick_new_entries (node_tick n) →
  tick_messages (node_tick n') = tick_messages (node_tick n) →
  elect no_votes n n' →
  Step n n'.
Proof.
  intros E1 E2 E3 E4 E5 E6 E7 E8 E9 E10 E11. split; try congruence.
  - by rewrite E4.
  - by left.
  - exists []. rewrite E9, E5, !app_nil_r. auto.
  - exists []. by rewrite E10, app_nil_r.
Qed.

(** Messages were sent and nothing else tracked changed. *)
Lemma Step_send {CP : ConfigPolicy} n n' k :
  cm_id (node_cm n') = cm_id (node_cm n) →
  cm_persisted_meta (node_cm n') = cm_persisted_meta (node_cm n) →
  cm_log_last_flushed (node_cm n') = cm_log_last_flushed (node_cm n) →
  cm_meta (node_cm n') = cm_meta (node_cm n) →
  cm_log_meta (node_cm n') = cm_log_meta (node_cm n) →
  cm_last_request_id (node_cm n) ≤ cm_last_request_id (node_cm n') →
  tick_time (node_tick n') = tick_time (node_tick n) →
  tick_meta (node_tick n') = tick_meta (node_tick n) →
  tick_new_entries (node_tick n') = tick_new_entries (node_tick n) →
  tick_messages (node_tick n') = tick_messages (node_tick n) ++ k →
  Forall (sent_by (node_cm n')) k →
  elect no_votes n n' →
  Step n n'.
Proof.
  intros E1 E2 E3 E4 E5 E6 E7 E8 E9 E10 Hk E11. split; try congruence.
  - by rewrite E4.
  - by left.
  - exists []. rewrite E9, E5, !app_nil_r. auto.
  - by exists k.
Qed.

(** The metadata was changed and flagged. *)
Lemma Step_meta {CP : ConfigPolicy} n n' :
  cm_id (node_cm n') = cm_id (node_cm n) →
  cm_persisted_meta (node_cm n') = cm_persisted_meta (node_cm n) →
  cm_log_last_flushed (node_cm n') = cm_log_last_flushed (node_cm n) →
  meta_step (cm_meta (node_cm n)) (cm_meta (node_cm n')) →
  cm_log_meta (node_cm n') = cm_log_meta (node_cm n) →
  cm_last_request_id (node_cm n) ≤ cm_last_request_id (node_cm n') →
  tick_time (node_tick n') = tick_time (node_tick n) →
  tick_meta (node_tick n') = true →
  tick_new_entries (node_tick n') = tick_new_entries (node_tick n) →
  tick_messages (node_tick n') = tick_messages (node_tick n) →
  elect no_votes n n' →
  Step n n'.
Proof.
  intros E1 E2 E3 E4 E5 E6 E7 E8 E9 E10 E11. split; try done.
  - by right.
  - exists []. rewrite E9, E5, !app_nil_r. auto.
  - exists []. by rewrite E10, app_nil_r.
Qed.

(** An entry was appended to the log metadata and handed to the tick. *)
Lemma Step_append {CP : ConfigPolicy} C n n' e :
  cm_id (node_cm n') = cm_id (node_cm n) →
  cm_persisted_meta (node_cm n') = cm_persisted_meta (node_cm n) →
  cm_log_last_flushed (node_cm n') = cm_log_last_flushed (node_cm n) →
  cm_meta (node_cm n') = cm_meta (node_cm n) →
  all_offsets (cm_log_meta (node_cm n')) = all_offsets (cm_log_meta (node_cm n)) ++ [offset_of e] →
  cm_last_request_id (node_cm n) ≤ cm_last_request_id (node_cm n') →
  tick_time (node_tick n') = tick_time (node_tick n) →
  tick_meta (node_tick n') = tick_meta (node_tick n) →
  tick_new_entries (node_tick n') = tick_new_entries (node_tick n) ++ [e] →
  tick_messages (node_tick n') = tick_messages (node_tick n) →
  elect no_votes n n' → made no_votes C n e →
  StepX no_votes C n n'.
Proof.
  intros E1 E2 E3 E4 E5 E6 E7 E8 E9 E10 E11 E12. split; try congruence.
  - by rewrite E4.
  - by left.
  - exists [e]. rewrite E9, E5. auto.
  - exists []. by rewrite E10, app_nil_r.
Qed.

(** A leader keeps the first index of its reads. *)
Definition same_reads (m m' : ConsensusModule) : Prop :=
  ∀ s', cm_state m' = Leader s' → ∃ s, cm_state m = Leader s ∧ ls_min_read_index s = ls_min_read_index s'.

Lemma reads_cover_set m m' :
  cm_log_meta m' = cm_log_meta m → current_term (cm_meta m') = current_term (cm_meta m) → same_reads m m' →
  reads_cover m → reads_cover m'.
Proof. intros E1 E2 Hr Hm s' o Hs. destruct (Hr s' Hs) as (s & Hs' & <-). rewrite E1, E2. by apply Hm. Qed.

Lemma reads_cover_follower m : is_leader (cm_state m) = false → reads_cover m.
Proof. intros Hf s o Hs. by rewrite Hs in Hf. Qed.

(** An entry of the leader's own term is appended. *)
Lemma reads_cover_append m m' off :
  LogMetadata_wf (cm_log_meta m) → all_offsets (cm_log_meta m') = all_offsets (cm_log_meta m) ++ [off] →
  current_term (cm_meta m') = current_term (cm_meta m) → off_term off = current_term (cm_meta m) →
  same_reads m m' → reads_cover m → reads_cover m'.
Proof.
  intros Hwf E1 E2 Ho Hr Hm s' o Hs. destruct (Hr s' Hs) as (s & Hs' & <-). rewrite E1, E2.
  destruct (all_offsets (cm_log_meta m)) as [|x l] eqn:El; [cbn; by rewrite elem_of_nil|]. cbn [app tail].
  rewrite elem_of_app, list_elem_of_singleton. intros [H| ->] Ht; [|lia]. apply (Hm s o); [done|by rewrite El|done].
Qed.

(** A new leader reads from its last entry on. *)
Lemma reads_cover_elected m s :
  LogMetadata_wf (cm_log_meta m) → last_log_index m ≤ ls_min_read_index s →
  reads_cover (cm_set_state (Leader s) m).
Proof.
  intros Hwf Hle ? o [= <-] Ho%list_elem_of_In _. cbn in *. transitivity (last_log_index m); [|done].
  apply all_offsets_le_last; [done|]. destruct (all_offsets _); [done|]. apply list_elem_of_In. by right.
Qed.

Ltac reads_tac :=
  first [ done
        | apply reads_cover_follower; (done || (cbn; congruence))
        | let s' := fresh in let Hs := fresh in intros s' Hs; cbn in Hs;
          first [ discriminate Hs
                | injection Hs as <-; eexists; split; [eassumption|done]
                | exists s'; split; [first [exact Hs|congruence]|done] ] ].

Lemma Inv_set {CP : ConfigPolicy} m m' :
  cm_id m' = cm_id m → cm_log_meta m' = cm_log_meta m →
  cm_meta m' = cm_meta m → cm_pending_conflict m' = cm_pending_conflict m →
  cm_pending_commit_index m' = cm_pending_commit_index m →
  (is_follower (cm_state m') = false → is_follower (cm_state m) = false) →
  cfg_ok (cm_config m') → same_reads m m' →
  Inv m → Inv m'.
Proof.
  intros E1 E2 E3 E4 E5 E6 E7 E8 [H1 H2 H3 H4 H5 H6 H7 H8 H9].
  split; rewrite ?E1, ?E2, ?E3, ?E4, ?E5; auto. apply (reads_cover_set m); by rewrite ?E3.
Qed.

(** A role is kept, given up, or a new election is started. *)
Lemma elect_same {CP : ConfigPolicy} n n' :
  cm_state (node_cm n') = cm_state (node_cm n) →
  current_term (cm_meta (node_cm n')) = current_term (cm_meta (node_cm n)) → elect no_votes n n'.
Proof.
  intros Hs Ht. unfold elect, old_votes. rewrite Hs, Ht.
  destruct (cm_state (node_cm n)) eqn:E; [done| |left; by rewrite E]. rewrite Z.eqb_refl. set_solver.
Qed.

Lemma elect_follower {CP : ConfigPolicy} n n' : is_follower (cm_state (node_cm n')) = true → elect no_votes n n'.
Proof. unfold elect. by destruct (cm_state (node_cm n')). Qed.

Lemma elect_leader {CP : ConfigPolicy} n n' :
  is_leader (cm_state (node_cm n)) = true → is_leader (cm_state (node_cm n')) = true →
  current_term (cm_meta (node_cm n')) = current_term (cm_meta (node_cm n)) → elect no_votes n n'.
Proof.
  intros Hs Hs' Ht. unfold elect. destruct (cm_state (node_cm n')); try done. left. by rewrite Ht.
Qed.

Lemma elect_fresh {CP : ConfigPolicy} n n' s' :
  cm_state (node_cm n') = Candidate s' → cs_votes_received s' = ∅ → elect no_votes n n'.
Proof. intros Hs Hv. unfold elect. rewrite Hs, Hv. set_solver. Qed.

Lemma elect_candidate {CP : ConfigPolicy} n n' s s' :
  cm_state (node_cm n) = Candidate s → cm_state (node_cm n') = Candidate s' →
  cs_votes_received s' = cs_votes_received s →
  current_term (cm_meta (node_cm n')) = current_term (cm_meta (node_cm n)) → elect no_votes n n'.
Proof.
  intros Hs Hs' Hv Ht. unfold elect, old_votes. rewrite Hs', Hs, Hv, Ht, Z.eqb_refl. set_solver.
Qed.

Lemma elect_won {CP : ConfigPolicy} n n' s :
  cm_state (node_cm n) = Candidate s → wins (node_cm n) s →
  is_leader (cm_state (node_cm n')) = true → Inv (node_cm n) →
  current_term (cm_meta (node_cm n')) = current_term (cm_meta (node_cm n)) → elect no_votes n n'.
Proof.
  intros Hs Hw Hl HI Ht. unfold elect. destruct (cm_state (node_cm n')); try done.
  right. exists (node_cm n), s. split; try done.
  - apply HI. by rewrite Hs.
  - unfold old_votes. rewrite Hs, Ht, Z.eqb_refl. set_solver.
  - apply HI.
Qed.

Ltac elect_tac :=
  first [ by apply elect_same
        | by apply elect_follower
        | apply elect_leader; [match goal with H : cm_state _ = _ |- _ => by rewrite H end|done|done]
        | by eapply elect_fresh
        | by eapply elect_candidate ].

(** Prove [Keep n n'] where only bookkeeping changed. *)
Ltac keep_silent :=
  split;
  [eapply Inv_set; [..|eassumption]; first [done|cbn; congruence
     |match goal with H : cm_state _ = _ |- _ => by rewrite H end
     |match goal with H : Inv _ |- _ => by apply (inv_config _ H) end|reads_tac|idtac]
  |apply Step_silent; first [done|cbn; lia|elect_tac|idtac]].

(** ** Random numbers *)

(** [n'] is [n] after drawing random numbers. *)
Definition drew (n n' : Node) : Prop :=
  ∃ k, n' = mkNode (node_cm n) (node_tick n) (node_rand n) k.

#[export] Instance drew_preorder : PreOrder drew.
Proof.
  split.
  - intros []. by eexists.
  - intros ??? [k ->] [k' ->]. by exists k'.
Qed.

Lemma Keep_drew {CP : ConfigPolicy} n n' : Inv (node_cm n) → drew n n' → Keep n n'.
Proof. intros HI [k ->]. split; [done|]. apply Step_silent; done || elect_tac. Qed.

Lemma uniform_spec pp pf n :
  wpx pp pf uniform (λ v n', 0 ≤ v < 2 ^ 64 ∧ drew n n') n.
Proof. unfold wpx. cbn -[Z.modulo Z.pow]. split; [by apply Z.mod_pos_bound|by eexists]. Qed.

Lemma between_spec pp pf min max n :
  min < max →
  wpx pp pf (between min max) (λ v n', min ≤ v < max ∧ drew n n') n.
Proof.
  intros Hlt. unfold between. wp_step.
  apply wpx_assert; [intros _|intros ?; b2p; lia]. wp_step.
  wp_use uniform_spec. intros v n' [Hv Hd]. wp_step.
  apply wpx_assert; [intros ?|intros ?; b2p; lia]. wp_step. split; [|done].
  pose proof (Z.mod_pos_bound v (max - min)). lia.
Qed.

Lemma new_election_timeout_spec pp pf n :
  wpx pp pf new_election_timeout
    (λ t n', from_millis 400 ≤ t < from_millis 800 ∧ drew n n') n.
Proof.
  unfold new_election_timeout. wp_step.
  eapply wpx_mono; [apply between_spec; cbn; lia|]. cbn. intros v n' [Hv Hd].
  wp_step. unfold from_millis. split; [lia|done].
Qed.

Lemma new_follower_spec pp pf now n :
  wpx pp pf (new_follower now) (λ s n', drew n n' ∧ ∃ t,
    s = Follower (mkFollowerState t None now) ∧ from_millis 400 ≤ t < from_millis 800) n.
Proof.
  unfold new_follower. wp_step. wp_use new_election_timeout_spec.
  intros t n' [Ht Hd]. wp_step. split; [done|]. by exists t.
Qed.

(** ** Sending *)

Section Sending.
Context (pf : Prop).

Lemma Progress_new_pure {St} i (s : St) :
  wpx True pf (Progress_new i) (λ _ s', s' = s) s.
Proof. unfold Progress_new. repeat wp_step. done. Qed.

Lemma heartbeat_loop_pure id last req time now l acc n :
  wpx True pf (heartbeat_loop id last req time now l acc) (λ _ n', n' = n) n.
Proof.
  revert acc. induction l as [|server l IH]; intros acc; cbn [heartbeat_loop]; [by wp_step|].
  wp_case; [apply IH|]. wp_step.
  eapply wpx_mono with (Q := λ _ n', n' = n).
  { wp_case; [by wp_step|]. wp_step. wp_use Progress_new_pure. intros ?? ->. by wp_step. }
  intros followers ? ->. wp_step. wp_step. wp_case; [apply IH|]. wp_case; apply IH.
Qed.

Lemma shuffle_loop_drew {A} k i (l : list A) n :
  wpx True pf (shuffle_loop k i l) (λ _ n', drew n n') n.
Proof.
  revert i l n. induction k as [|k IH]; intros i l n; cbn [shuffle_loop]; [by wp_step|].
  wp_step. wp_use uniform_spec. intros v n' [_ Hd].
  wp_use IH. intros l' n'' Hd'. by etrans.
Qed.

Lemma pick_timeout_now_drew now n :
  wpx True pf (pick_timeout_now_server_id now) (λ _ n', drew n n') n.
Proof.
  unfold pick_timeout_now_server_id. wp_step. unfold get_cm. wp_step.
  wp_case; try by wp_step. wp_case; try by wp_step. wp_case; [by wp_step|].
  wp_case; [by wp_step|]. wp_step. wp_use shuffle_loop_drew. intros l' n' Hd.
  wp_step. wp_step. by wp_step.
Qed.

Definition asks_vote (b : ConsensusMessageBody) : bool :=
  match b with PreVote _ | RequestVote _ => true | _ => false end.

Definition replicates {CP : ConfigPolicy} (m : ConsensusModule) (msg : ConsensusMessage) : Prop :=
  sent_by m msg ∧ asks_vote (msg_body msg) = false.

(** The sender's part of the accumulator. *)
Definition acc_ok {CP : ConfigPolicy} (m : ConsensusModule) (acc : ReplicateAcc) : Prop :=
  cm_last_request_id m ≤ ra_last_request_id acc ∧
  Forall (λ kv, replicates m kv.2) (ra_message_map acc).

Lemma btree_insert_Forall {V} (P : V → Prop) k v (l : list (MessageKey * V)) :
  P v → Forall (λ kv, P kv.2) l → Forall (λ kv, P kv.2) (btree_insert k v l).
Proof.
  intros Hv. induction 1 as [|[k' v'] l Hx Hl IH]; cbn [btree_insert].
  - by repeat constructor.
  - destruct (key_cmp k k'); repeat (constructor; try done).
Qed.

Lemma btree_get_Forall {V} (P : V → Prop) k v (l : list (MessageKey * V)) :
  btree_get k l = Some v → Forall (λ kv, P kv.2) l → P v.
Proof.
  induction l as [|[k' v'] l IH]; cbn [btree_get]; [done|]. intros Hg [Hx Hl]%Forall_cons.
  destruct (key_cmp k k'); [by simplify_eq|auto|auto].
Qed.

Lemma append_message_ok {CP : ConfigPolicy} m id prev last tn acc n :
  Inv m → voted_for (cm_meta m) = cm_id m → acc_ok m acc →
  wpx True pf (append_message m id prev last tn acc) (λ r n', n' = n ∧
    ∀ req acc', r = Some (req, acc') → acc_ok m acc') n.
Proof.
  intros HI Hv [Hr Hm]. unfold append_message. wp_case.
  - wp_step. split; [done|]. intros ?? [= <- <-]. split; [done|]. cbn.
    apply (btree_insert_Forall (replicates m)); [|done].
    pose proof (btree_get_Forall (replicates m) _ _ _ Heqo Hm) as [[] Hb].
    split; [|done]. split; try done. unfold asks_voters. cbn. by destruct (msg_body c).
  - wp_case; [|by wp_step]. rename l into p. wp_step. wp_step. rename a into lst.
    wp_step. wp_step. wp_step. split; [done|]. intros ?? [= <- <-]. split; [cbn; lia|]. cbn.
    apply (btree_insert_Forall (replicates m)); [|done].
    apply LogMetadata_lookup_Some in Heqo0 as [Hp Ep]; [|apply HI].
    apply LogMetadata_lookup_Some in H as [Hl El]; [|apply HI].
    split; [|done]. split; cbn; [done|lia|done| |done]. split_and!; [|by exists lst|lia|done].
    exists p. split; [done|]. destruct p as [[??]?]; cbn in *. by subst.
Qed.

Lemma replicate_step_ok {CP : ConfigPolicy} m time id acc n :
  Inv m → voted_for (cm_meta m) = cm_id m → acc_ok m acc →
  wpx True pf (replicate_step m time id acc) (λ r n', n' = n ∧ acc_ok m r.2) n.
Proof.
  intros HI Hv Ha. unfold replicate_step. wp_step.
  eapply wpx_mono with (Q := λ _ n', n' = n).
  { wp_case; [by wp_step|apply Progress_new_pure]. }
  intros p ? ->. wp_case; [|by wp_step]. wp_step. wp_step. wp_step. wp_step.
  match goal with |- context [fp_last_append_entries_sent p] => idtac end.
  set (acc1 := ra_set_follower id p acc).
  destruct (match fp_last_append_entries_sent p with Some t => _ | None => _ end)
    as [due acc2] eqn:Edue.
  assert (acc_ok m acc2) as Ha2.
  { repeat case_match; simplify_eq; done. }
  clear Edue. wp_case; [by wp_step|]. wp_case; [by wp_step|]. wp_step. wp_step. wp_step.
  eapply wpx_mono with (Q := λ acc' n', n' = n ∧ acc_ok m acc').
  { wp_case; [|by wp_step]. wp_step. wp_step. by wp_step. }
  intros acc3 ? [-> Ha3]. wp_step. wp_use append_message_ok; [done..|].
  intros r ? [-> Hr]. destruct r as [[req acc4]|]; [|by wp_step].
  wp_step. wp_step. wp_step. split; [done|]. by apply (Hr req acc4).
Qed.

Lemma replicate_loop_ok {CP : ConfigPolicy} fuel m time l acc n :
  Inv m → voted_for (cm_meta m) = cm_id m → acc_ok m acc →
  wpx True pf (replicate_loop fuel m time l acc) (λ acc' n', n' = n ∧ acc_ok m acc') n.
Proof.
  intros HI Hv. revert l acc.
  induction fuel as [|fuel IH]; intros [|s l] acc Ha; cbn [replicate_loop]; try by wp_step.
  wp_case; [by apply IH|]. wp_step. wp_use replicate_step_ok; [done..|].
  intros [stay acc'] ? [-> Ha']. by apply IH.
Qed.
End Sending.

Lemma Inv_leader_vote {CP : ConfigPolicy} m s :
  Inv m → cm_state m = Leader s → voted_for (cm_meta m) = cm_id m ∧ 0 < current_term (cm_meta m).
Proof. intros HI Hs. apply HI. by rewrite Hs. Qed.

Lemma Inv_candidate_vote {CP : ConfigPolicy} m s :
  Inv m → cm_state m = Candidate s → voted_for (cm_meta m) = cm_id m ∧ 0 < current_term (cm_meta m).
Proof. intros HI Hs. apply HI. by rewrite Hs. Qed.



Lemma send_heartbeats_keeps {CP : ConfigPolicy} : keeps send_heartbeats.
Proof.
  intros n HI. unfold send_heartbeats. wp_step. wp_get. wp_case; try by wp_step.
  pose proof (Inv_leader_vote _ _ HI Heqc) as [Hv Ht].
  wp_step. wp_get. wp_step. wp_step. wp_step. wp_use heartbeat_loop_pure.
  intros acc ? ->. wp_step. unfold set_state, modify_cm. wp_step. wp_step.
  destruct (ha_to_ids acc) as [|id ids]; wp_step.
  - wp_step. keep_silent.
  - wp_step. unfold send, modify_tick. wp_step. wp_step.
    split; [eapply Inv_set; [..|eassumption]; try done; cbn; [by rewrite Heqc|apply HI|reads_tac]|].
    eapply Step_send; try done; try elect_tac; [cbn; lia|]. constructor; [|done].
    by split.
Qed.

Lemma for_each_send_keeps {CP : ConfigPolicy} {K} (l : list (K * ConsensusMessage)) n0 n :
  Keep n0 n → Forall (λ kv, sent_by (node_cm n) kv.2) l →
  wp (for_each l (λ '(_, msg), send msg)) (λ _ n', Keep n0 n' ∧ node_cm n' = node_cm n) n.
Proof.
  intros HK Hl. apply (wpx_for_each _ _ _ (λ l' n', Keep n0 n' ∧ node_cm n' = node_cm n ∧
    Forall (λ kv, sent_by (node_cm n) kv.2) l')); [done| |intros ? (? & ? & _); done].
  intros [k x] l' n' (HK' & Hcm & [Hx Hl']%Forall_cons). unfold send, modify_tick. wp_step.
  split; [|done]. eapply Keep_trans; [exact HK'|]. split; [apply HK'|].
  eapply Step_send; try done; try elect_tac. constructor; [|done]. cbn. by rewrite Hcm.
Qed.

Lemma replicate_entries_keeps {CP : ConfigPolicy} : keeps replicate_entries.
Proof.
  intros n HI. unfold replicate_entries. wp_step. wp_get. wp_step.
  wp_use pick_timeout_now_drew. intros tn n1 Hd. wp_step. wp_get.
  pose proof (Keep_drew _ _ HI Hd) as HK1. destruct HK1 as [HI1 HS1].
  wp_case; try by wp_step. pose proof (Inv_leader_vote _ _ HI1 Heqc) as [Hv Ht].
  wp_step. wp_use replicate_loop_ok; [done..|split; [done|constructor]|].
  intros acc ? [-> [Hr Hm]]. wp_step. unfold modify_cm. wp_step. wp_step.
  match goal with |- wpx _ _ _ _ ?x => set (n2 := x) end.
  assert (Keep n n2) as HK2.
  { apply (Keep_trans _ n1); [by split|]. keep_silent. }
  assert (∀ msg, replicates (node_cm n1) msg → sent_by (node_cm n2) msg) as Hsent.
  { intros msg [[] _]. by split. }
  wp_use for_each_send_keeps; [done|eapply Forall_impl; [exact Hm|cbn; auto]|].
  intros _ n3 [HK3 Hcm]. wp_step. destruct (ra_install_snapshot_ids acc) as [|i ids]; wp_step.
  - by wp_step.
  - wp_use CSM_snapshot_pure. intros cfg ? ->. unfold send, modify_tick. wp_step. wp_step.
    apply (Keep_trans _ n3); [done|]. split; [apply HK3|].
    eapply Step_send; try done; try elect_tac. constructor; [|done]. rewrite Hcm. by split.
Qed.

(** The servers a candidate asks for their vote. *)
Lemma asked_members {CP : ConfigPolicy} m :
  Inv m →
  ∃ config, cfg_ok config ∧ Forall (λ id, id ≠ cm_id m ∧ id ∈ members (csm_value config))
    (server_id <$> filter (λ s, negb (server_id s =? cm_id m) && role_eqb (role s) MEMBER = true)
      (servers (csm_value (cm_config m)))).
Proof.
  intros HI. exists (cm_config m). split; [apply HI|]. apply Forall_forall.
  intros id (x & -> & [Hx Hin]%list_elem_of_filter)%list_elem_of_fmap.
  apply andb_prop in Hx as [Hne Hm]. b2p. split; [done|].
  by apply list_elem_of_fmap_2, list_elem_of_filter.
Qed.

Lemma perform_election_spec {CP : ConfigPolicy} req pv n :
  Inv (node_cm n) →
  wp (perform_election req pv) (λ _ n', Keep n n' ∧ node_cm n' = node_cm n) n.
Proof.
  intros HI. unfold perform_election. wp_step. wp_get. wp_case; try by wp_step.
  pose proof (Inv_candidate_vote _ _ HI Heqc) as [Hv Ht].
  wp_case; [wp_step; split; [by apply Keep_refl|done]|].
  unfold send, modify_tick. wp_step. split; [|done]. split; [done|].
  eapply Step_send; try done; try elect_tac. constructor; [|done].
  pose proof (asked_members _ HI) as Hto.
  by destruct pv.
Qed.

Lemma update_commited_keeps {CP : ConfigPolicy} ci : keeps (update_commited ci).
Proof.
  intros n HI. unfold update_commited. wp_step. wp_get. wp_step. wp_step. wp_step.
  rewrite (inv_conflict _ HI). wp_step. cbn [negb]. wp_step.
  unfold mem_commit_index in *. rewrite (inv_pending_commit _ HI) in *. b2p.
  match goal with H : commit_index _ < ci |- _ => rename H into Hlt end.
  destruct (ci >? _) eqn:E; b2p; [|lia].
  unfold modify_cm, write_meta, modify_tick. wp_step. wp_step. wp_step.
  match goal with |- wpx _ _ _ _ ?x => set (n1 := x) end.
  assert (Keep n n1) as HK.
  { destruct HI. split; [by split|]. apply Step_meta; try done; try elect_tac. split; cbn; lia || done. }
  wp_step. wp_get. pose proof (commit_ok _ ci (inv_config _ (proj1 HK))) as Hc.
  destruct (CSM_commit _ _) as [changed config]. wp_step. wp_step.
  apply (keeps_from _ n); [|apply (Keep_trans _ n1); [done|]; destruct HK; keep_silent].
  destruct changed; [|apply keeps_ret]. clear. intros n HI.
  unfold write_config, modify_tick. wp_step. keep_silent.
Qed.

Lemma find_next_commit_index_pure {St} pf m s (st : St) :
  wpx True pf (find_next_commit_index m s) (λ _ s', s' = st) st.
Proof. unfold find_next_commit_index. repeat first [wp_step|wp_case]; done. Qed.

Lemma find_next_lease_start_pure {St} pf m s now (st : St) :
  wpx True pf (find_next_lease_start m s now) (λ _ s', s' = st) st.
Proof. unfold find_next_lease_start. repeat first [wp_step|wp_case]; done. Qed.

Lemma update_lease_start_keeps {CP : ConfigPolicy} t : keeps (update_lease_start t).
Proof.
  intros n HI. unfold update_lease_start. wp_step. wp_get. wp_case; try by wp_step.
  unfold set_state, modify_cm. wp_step. keep_silent.
Qed.

Lemma new_followers_pure pf id last l n :
  wpx True pf (new_followers id last l) (λ _ n', n' = n) n.
Proof.
  induction l as [|s l IH]; cbn [new_followers]; [by wp_step|].
  wp_case; [done|]. wp_step. wp_use Progress_new_pure. intros p ? ->. wp_step.
  wp_use IH. intros r ? ->. by wp_step.
Qed.

Lemma set_next_tick_keeps {CP : ConfigPolicy} d : keeps (set_next_tick d).
Proof. intros n HI. unfold set_next_tick, modify_tick. wp_step. keep_silent. Qed.

(** ** The recursive operations, given that [cycle] keeps the invariant *)

Section OpenRecursion.
Context {CP : ConfigPolicy} (cycle : M Node unit) (Hcycle : keeps cycle).

Lemma become_candidate_keeps la : keeps (become_candidate cycle la).
Proof.
  intros n HI. unfold become_candidate. wp_step. wp_get. wp_step. wp_step. wp_step.
  eapply wpx_mono with (Q := λ _ n', ∀ s rid k,
    cs_votes_received s = ∅ → cm_last_request_id (node_cm n) ≤ rid →
    Keep n (mkNode (cm_set_state (Candidate s) (cm_set_last_request_id rid (node_cm n')))
              (node_tick n') (node_rand n') k)).
  { wp_case.
    - wp_step. wp_step. wp_step. unfold modify_cm, write_meta, modify_tick. wp_step. wp_step.
      intros s rid k Hs Hr. destruct HI. split; [split; cbn; auto using id_positive; first [lia|reads_tac]|].
      apply Step_meta; try done; try elect_tac. split; cbn; lia.
    - destruct (cm_state (node_cm n)) eqn:E; try done. wp_step. intros s' rid k Hs Hr. keep_silent. }
  intros _ n1 Hn1. wp_step. wp_step. wp_step. unfold modify_cm, set_state. wp_step.
  wp_step. wp_get. wp_step. wp_use new_election_timeout_spec. intros t n2 [_ [k ->]].
  unfold modify_cm. wp_step. wp_step.
  match goal with |- wpx _ _ _ _ ?x => set (n3 := x) end.
  assert (Keep n n3) as HK3 by (apply Hn1; [done|lia]).
  apply (keeps_from _ n); [|done]. apply keeps_bind; [|done].
  destruct la; [apply keeps_ret|]. intros n' HI'.
  wp_use perform_election_spec; [done|]. by intros _ ? [? ?].
Qed.

Lemma become_follower_keeps : keeps (become_follower cycle).
Proof.
  intros n HI. unfold become_follower. wp_step. wp_get. wp_step. wp_use new_follower_spec.
  intros s n1 [Hd (t & -> & _)]. wp_step. unfold set_state, modify_cm. wp_step.
  apply (keeps_from _ n); [done|]. apply (Keep_trans _ n1); [by apply Keep_drew|].
  destruct Hd as [k ->]. keep_silent.
Qed.

Lemma observe_term_keeps term : keeps (observe_term cycle term).
Proof.
  intros n HI. unfold observe_term. wp_step. wp_get. wp_case; [|by apply keeps_ret].
  b2p. unfold become_follower. wp_step. unfold modify_cm. wp_step. wp_step.
  unfold write_meta, modify_tick. wp_step. wp_step. wp_get.
  wp_step. wp_use new_follower_spec. intros s n1 [[k ->] (t & -> & _)].
  unfold set_state, modify_cm. wp_step. wp_step. apply (keeps_from _ n); [done|].
  destruct HI. split; [split; cbn; try done; first [lia|apply id_zero|reads_tac]|]. apply Step_meta; try done; try elect_tac. split; cbn; lia.
Qed.

(** A leader is kept: its log, its term and its role. *)
Definition still_leads (n n' : Node) : Prop :=
  cm_log_meta (node_cm n') = cm_log_meta (node_cm n) ∧
  cm_meta (node_cm n') = cm_meta (node_cm n) ∧ is_leader (cm_state (node_cm n')) = true.

Lemma propose_config_change_spec n s c :
  Inv (node_cm n) → cm_state (node_cm n) = Leader s →
  wp (propose_config_change (node_cm n) s c)
    (λ _ n', Keep n n' ∧ still_leads n n') n.
Proof.
  intros HI Hs. unfold propose_config_change, set_state, modify_cm.
  assert (Keep n n) by by apply Keep_refl.
  assert (still_leads n n) by (split_and!; [done..|by rewrite Hs]).
  wp_case; [repeat wp_step; done|].
  destruct c; repeat first [wp_step|wp_case]; try done;
    try (wp_use Progress_new_pure; intros p ? ->; repeat wp_step);
    (split; [keep_silent|done]).
Qed.

Lemma propose_entry_keeps data read : entry_ok data → keeps (propose_entry cycle data read).
Proof.
  intros Hdata n HI. unfold propose_entry. wp_step. wp_get.
  assert (Keep n n) by by apply Keep_refl.
  wp_case; [by wp_step|repeat first [wp_step|wp_case]; done|].
  wp_step. wp_step. wp_step. wp_step. wp_case; [by wp_step|]. wp_case; [by wp_step|].
  wp_step. wp_step. wp_step.
  assert (still_leads n n) by (split_and!; [done..|by rewrite Heqc]).
  eapply wpx_mono with (Q := λ _ n', Keep n n' ∧ still_leads n n').
  { destruct data; repeat first [wp_step|wp_case]; try done. by apply propose_config_change_spec. }
  intros [e|] n1 [HK1 (Hlog & Hmeta & Hl)]; [by wp_step|]. wp_step. unfold modify_cm. wp_step. wp_step.
  wp_use LogMetadata_append_next; [apply HI|done|].
  intros lm ? (-> & Hwf & _ & _ & Ha). wp_step. wp_step. wp_step.
  unfold push_new_entry, modify_tick. wp_step. wp_step.
  eapply wpx_mono; [apply (keeps_from _ n); [done|]|intros; by wp_step].
  apply (Keep_trans _ n1); [done|]. destruct HK1 as [[] _]. split;
    [split; try done; [by apply apply_ok|]; eapply (reads_cover_append (node_cm n1)); try done; cbn; [by rewrite Ha, Hlog|by rewrite Hmeta|reads_tac]|].
  eapply Step_append; try done; try elect_tac; [cbn; by rewrite Ha, Hlog|].
  right. split; [|done]. left. split; [done|]. by rewrite Hmeta.
Qed.

Lemma unwrap_result_keeps {E A} (r : E + A) : keeps (unwrap_result r).
Proof. destruct r; [intros n Hn; by apply wpx_panic|apply keeps_ret]. Qed.

Lemma cycle_follower_keeps s : keeps (cycle_follower cycle s).
Proof.
  intros n HI. unfold cycle_follower. wp_step. wp_get. wp_step. wp_get. wp_case.
  - wp_step. wp_use new_follower_spec. intros st n1 [Hd (t & -> & _)].
    apply (keeps_from _ n); [|by apply Keep_drew]. apply keeps_bind; [|intros; apply set_next_tick_keeps].
    intros n2 HI2. unfold set_state, modify_cm. wp_step. keep_silent.
  - wp_case; [by apply become_candidate_keeps|]. wp_step. wp_step. by apply set_next_tick_keeps.
Qed.

Lemma become_leader_keeps t s n :
  Inv (node_cm n) → cm_state (node_cm n) = Candidate s → wins (node_cm n) s →
  wp (become_leader cycle t) (λ _ n', Keep n n') n.
Proof.
  intros HI Hs Hw. unfold become_leader. wp_step. wp_get. wp_step. wp_use new_followers_pure.
  intros followers ? ->. wp_step.
  eapply wpx_mono with (Q := λ i n', n' = n ∧ last_log_index (node_cm n) ≤ i).
  { wp_case; repeat wp_step; (split; [done|lia]). }
  intros mri ? [-> Hmri]. wp_step. unfold set_state, modify_cm. wp_step.
  apply (keeps_from _ n); [|split; [destruct HI; split; try done; [by rewrite Hs in *|by apply reads_cover_elected]|
    apply Step_silent; first [done|eapply elect_won; try done; apply HI]]].
  apply keeps_bind; [|done].
  destruct (_ <? _); [|apply keeps_ret].
  apply keeps_bind; [apply propose_entry_keeps, noop_ok|intros r].
  apply keeps_bind; [apply unwrap_result_keeps|intros; apply keeps_ret].
Qed.

Lemma cycle_candidate_keeps s n :
  Inv (node_cm n) → cm_state (node_cm n) = Candidate s →
  wp (cycle_candidate cycle s) (λ _ n', Keep n n') n.
Proof.
  intros HI Hs. unfold cycle_candidate. wp_step. wp_get. wp_step. wp_get.
  wp_case; [by apply become_candidate_keeps|]. wp_step. wp_step. wp_step.
  unfold set_next_tick, modify_tick. wp_step. wp_step.
  match goal with |- wpx _ _ _ _ ?x => set (n1 := x) end.
  assert (Keep n n1 ∧ node_cm n1 = node_cm n) as [HK1 Hcm] by (split; [keep_silent|done]).
  clearbody n1.
  eapply wpx_mono with (Q := λ _ n', Keep n n' ∧ ∃ s', cm_state (node_cm n') = Candidate s' ∧
    (majority_size (csm_value (cm_config (node_cm n))) ≤ vote_count (node_cm n) s →
     wins (node_cm n') s')).
  { assert (∃ s', cm_state (node_cm n1) = Candidate s' ∧
      (majority_size (csm_value (cm_config (node_cm n))) ≤ vote_count (node_cm n) s →
       wins (node_cm n1) s')) as Hw1 by (rewrite Hcm; eauto).
    wp_case; [by wp_step|]. wp_case; [|by wp_step].
    wp_step. unfold set_state, modify_cm. wp_step. wp_step.
    match goal with |- wpx _ _ _ _ ?x => set (n2 := x) end.
    assert (Keep n n2) as HK2.
    { apply (Keep_trans _ n1); [done|]. rewrite <- Hcm in Hs. destruct HK1 as [HI1 _]. keep_silent. }
    wp_use perform_election_spec; [apply HK2|]. intros _ n3 [HK3 Hcm3]. wp_step.
    split; [by eapply Keep_trans|]. rewrite Hcm3. eexists. split; [done|].
    unfold wins. cbn. by rewrite Hcm. }
  intros mvs n2 [HK2 (s' & Hs2 & Hw)]. wp_case; [|by wp_step]. wp_case; [|by wp_step]. b2p.
  wp_use become_leader_keeps; [apply HK2|done|auto|]. intros. by eapply Keep_trans.
Qed.

Lemma server_to_promote_aspiring c followers id :
  server_to_promote c followers = Some id → server_role c id = ASPIRING.
Proof.
  unfold server_to_promote. intros Hl.
  assert (∀ l best, (∀ id, best = Some id → server_role c id = ASPIRING) →
    foldl (λ best '(id, progress),
      if negb (role_eqb (server_role c id) ASPIRING) then best
      else if negb (is_follower_synchronized progress) then best
      else Some id) best l = Some id → server_role c id = ASPIRING) as Hfold; [|by eapply Hfold in Hl].
  clear Hl. induction l as [|[k p] l IH]; cbn; intros best Hb; [auto|].
  apply IH. intros id'. destruct (role_eqb _ _) eqn:E; cbn; [|auto].
  destruct (is_follower_synchronized p); cbn; [|auto]. intros [= <-]. by apply bool_decide_eq_true in E.
Qed.

Lemma cycle_leader_tail_keeps : keeps (cycle_leader_tail cycle).
Proof.
  intros n HI. unfold cycle_leader_tail. wp_step. wp_get. wp_step. wp_get.
  generalize (tick_time (node_tick n)) as time. intros time.
  wp_case; try by wp_step. wp_step. unfold set_state, modify_cm. wp_step.
  apply (keeps_from _ n); [|keep_silent].
  apply keeps_bind; [apply send_heartbeats_keeps|intros t1].
  apply keeps_bind; [apply replicate_entries_keeps|intros t2].
  clear n HI Heqc. intros n HI. wp_step. wp_get. wp_step.
  eapply wpx_mono with (Q := λ r n', n' = n ∧
    ∀ id, r = Some id → server_role (csm_value (cm_config (node_cm n))) id = ASPIRING).
  { repeat first [wp_step|wp_case]; try done. split; [done|]. apply server_to_promote_aspiring. }
  intros [id|] ? [-> Hid]; [|by apply set_next_tick_keeps].
  pose proof (promote_ok _ _ (inv_config _ HI) (Hid _ eq_refl)) as Hok. clear Hid. revert n HI.
  apply keeps_bind; [by apply propose_entry_keeps|intros r].
  apply keeps_bind; [apply unwrap_result_keeps|intros; apply keeps_ret].
Qed.

Lemma cycle_leader_keeps s : keeps (cycle_leader cycle s).
Proof.
  intros n HI. unfold cycle_leader. wp_step. wp_get. wp_step. wp_get. wp_step. wp_step. wp_step.
  wp_use find_next_commit_index_pure. intros ci ? ->. wp_step.
  wp_use find_next_lease_start_pure. intros lease ? ->.
  generalize (tick_time (node_tick n)) as time. intros time. apply (keeps_from _ n); [|by apply Keep_refl].
  apply keeps_bind; [destruct ci; [apply update_commited_keeps|apply keeps_ret]|intros _].
  apply keeps_bind; [apply update_lease_start_keeps|intros _].
  case_match; [|apply cycle_leader_tail_keeps].
  clear n HI H. intros n HI. wp_step. wp_get.
  wp_case; [by apply become_follower_keeps|by apply become_candidate_keeps].
Qed.

Lemma cycle_body_keeps : keeps (cycle_body cycle).
Proof.
  intros n HI. unfold cycle_body. wp_step. wp_get. wp_case.
  - wp_step. wp_step. by apply set_next_tick_keeps.
  - wp_case; [by apply cycle_follower_keeps|by apply cycle_candidate_keeps|by apply cycle_leader_keeps].
Qed.
End OpenRecursion.

Lemma cycle_keeps {CP : ConfigPolicy} fuel : keeps (cycle fuel).
Proof. induction fuel as [|fuel IH]; cbn [cycle]; [done|by apply cycle_body_keeps]. Qed.

Lemma run_cycle_keeps {CP : ConfigPolicy} : keeps run_cycle.
Proof. intros n HI. unfold run_cycle. wp_step. wp_get. by apply cycle_keeps. Qed.
