(* ===== verification/ConsensusOps.v ===== *)
(** * The operations of the module keep the invariant

    Every RPC handler, callback and local operation of
    src/pkg/raft/src/consensus/module.rs against [Inv] and [Step] of
    ConsensusInv.v, and what [append_entries] and [request_vote] promise to
    their callers. *)

From S2P Require Import Prelude RaftProto ConfigState LogMetadata ConsensusState Consensus.
From S2P Require Import ConsensusInv.

Create HintDb keeps.
#[export] Hint Resolve keeps_ret run_cycle_keeps set_next_tick_keeps unwrap_result_keeps
  update_commited_keeps : keeps.
#[export] Hint Extern 1 (keeps (bind _ _)) => apply keeps_bind; [|intros ?] : keeps.
#[export] Hint Extern 2 (keeps (observe_term _ _)) => apply observe_term_keeps : keeps.
#[export] Hint Extern 2 (keeps (become_follower _)) => apply become_follower_keeps : keeps.
#[export] Hint Extern 2 (keeps (become_candidate _ _)) => apply become_candidate_keeps : keeps.
#[export] Hint Extern 2 (keeps (propose_entry _ _ _)) => apply propose_entry_keeps; [|try apply noop_ok] : keeps.

Lemma propose_noop_keeps {CP : ConfigPolicy} : keeps (propose_noop run_cycle).
Proof. apply propose_entry_keeps, noop_ok. apply run_cycle_keeps. Qed.
#[export] Hint Resolve propose_noop_keeps : keeps.

(** A leader's state is replaced by another leader state, then [k] runs. *)
Lemma set_leader_keeps {CP : ConfigPolicy} {A} s s' n (k : M Node A) :
  Inv (node_cm n) → cm_state (node_cm n) = Leader s → keeps k →
  ls_min_read_index s' = ls_min_read_index s →
  wp (set_state (Leader s') ;! k) (λ _ n', Keep n n') n.
Proof.
  intros HI Hs Hk Hr. wp_step. unfold set_state, modify_cm. wp_step.
  apply (keeps_from _ n); [done|]. keep_silent.
Qed.

Lemma schedule_heartbeat_keeps {CP : ConfigPolicy} : keeps schedule_heartbeat.
Proof.
  intros n HI. unfold schedule_heartbeat. wp_step. wp_get.
  wp_case; try by apply keeps_ret. eapply set_leader_keeps; eauto with keeps.
Qed.

Lemma reset_follower_keeps {CP : ConfigPolicy} time : keeps (reset_follower time).
Proof.
  intros n HI. unfold reset_follower. wp_step. wp_get. wp_case; try by apply keeps_ret.
  wp_step. wp_use new_follower_spec. intros st n1 [[k ->] (t & -> & _)].
  unfold set_state, modify_cm. wp_step. keep_silent.
Qed.

Lemma drain_keeps {CP : ConfigPolicy} : keeps drain.
Proof.
  intros n HI. unfold drain. wp_step. wp_get. wp_case; [by apply keeps_ret|].
  wp_step. unfold modify_cm. wp_step. apply (keeps_from _ n); [auto with keeps|]. keep_silent.
Qed.

(** The configuration a response to a vote request carries is allowed. *)
Definition hint_ok {CP : ConfigPolicy} (resp : RequestVoteResponse) : Prop :=
  ∀ s, rvr_last_config_hint resp = Some s → snapshot_ok s.

Lemma observe_last_config_hint_keeps {CP : ConfigPolicy} resp :
  hint_ok resp → keeps (observe_last_config_hint resp).
Proof.
  intros Hh n HI. unfold observe_last_config_hint. wp_step. wp_get.
  wp_case; [|by apply keeps_ret]. wp_case; [|by apply keeps_ret].
  wp_step. unfold modify_cm, write_config, modify_tick. wp_step. wp_step. keep_silent. by apply Hh.
Qed.
#[export] Hint Resolve observe_last_config_hint_keeps : keeps.

(** The vote a response to a vote request stands for. *)
Definition votes_of (from_id : ServerId) (is_pre_vote : bool) (resp : RequestVoteResponse)
    (t : Term) : gset ServerId :=
  if rvr_vote_granted resp && negb is_pre_vote && (rvr_term resp =? t) then {[from_id]} else ∅.

Lemma StepX_state {CP : ConfigPolicy} X n st :
  elect X n (mkNode (cm_set_state st (node_cm n)) (node_tick n) (node_rand n) (node_draws n)) →
  StepX X no_copies n (mkNode (cm_set_state st (node_cm n)) (node_tick n) (node_rand n) (node_draws n)).
Proof.
  intros He. split; try done; [by left|exists []; rewrite ?app_nil_r; auto..].
Qed.

Lemma request_vote_callback_spec {CP : ConfigPolicy} from req pre resp n :
  hint_ok resp → Inv (node_cm n) →
  wp (request_vote_callback from req pre resp)
    (λ _ n', Inv (node_cm n') ∧ StepX (votes_of from pre resp) no_copies n n') n.
Proof.
  intros Hh HI. unfold request_vote_callback. wp_step.
  wp_use observe_term_keeps; [apply run_cycle_keeps|done|]. intros _ n1 HK1. wp_step.
  wp_use observe_last_config_hint_keeps; [done|apply HK1|]. intros _ n2 HK2.
  assert (Keep n n2) as HK by by eapply Keep_trans.
  assert (∀ n', Keep n n' → Inv (node_cm n') ∧ StepX (votes_of from pre resp) no_copies n n') as Hok.
  { intros n' [HI' HS']. split; [done|]. eapply StepX_ext; [|done|exact HS']. intros t. apply empty_subseteq. }
  clear HK1 HK2. destruct HK as [HI2 HS2].
  wp_step. wp_get. wp_case; [wp_step; by apply Hok|]. wp_case; [wp_step; by apply Hok|].
  wp_case; try (wp_step; by apply Hok). wp_case; [wp_step; by apply Hok|]. b2p.
  wp_step. unfold set_state, modify_cm. wp_step. rename Heqb into Et, Heqc into Hs.
  match goal with |- wpx _ _ _ _ ?x => set (n3 := x) end.
  assert (Inv (node_cm n3)) as HI3.
  { eapply Inv_set; [..|exact HI2]; try done; cbn; [by rewrite Hs|apply HI2]. }
  assert (StepX (votes_of from pre resp) no_copies n2 n3) as HS3.
  { apply StepX_state. unfold elect, old_votes, votes_of. cbn. rewrite Hs, Et, !Z.eqb_refl.
    destruct (rvr_vote_granted resp), pre; cbn; set_solver. }
  wp_use run_cycle_keeps; [exact HI3|]. intros _ n4 [HI4 HS4]. split; [done|].
  pose proof (StepX_trans _ _ _ _ _ _ _ (inv_id _ HI3) HS3 HS4) as H34.
  pose proof (StepX_trans _ _ _ _ _ _ _ (inv_id _ HI2) HS2 H34) as H.
  eapply StepX_ext; [| |exact H]; [intros t; unfold no_votes; set_solver|]. by intros e [|[|]].
Qed.

Lemma append_response_progress_pure {St} pf m time ctx resp p (s : St) :
  wpx True pf (append_response_progress m time ctx resp p) (λ _ s', s' = s) s.
Proof.
  unfold append_response_progress. wp_step. eapply wpx_mono with (Q := λ _ s', s' = s).
  { wp_case; repeat wp_step; done. }
  intros [p' b] ? ->. by wp_step.
Qed.

Lemma append_entries_callback_keeps {CP : ConfigPolicy} from req resp : keeps (append_entries_callback from req resp).
Proof.
  unfold append_entries_callback. apply keeps_bind; [auto with keeps|intros _].
  intros n HI. wp_step. wp_get. wp_step. wp_get. wp_case; try by apply keeps_ret.
  wp_case; [|by apply keeps_ret]. wp_case; [by apply keeps_ret|]. wp_case; [|by apply keeps_ret].
  wp_step. wp_use append_response_progress_pure. intros [p' should_noop] ? ->.
  eapply set_leader_keeps; [done|done| |done]. destruct should_noop; auto 10 with keeps.
Qed.

Lemma append_entries_noresponse_keeps {CP : ConfigPolicy} from req : keeps (append_entries_noresponse from req).
Proof.
  intros n HI. unfold append_entries_noresponse. wp_step. wp_get. wp_case; try by apply keeps_ret.
  wp_case; [|by apply keeps_ret]. wp_case; [by apply keeps_ret|]. wp_case; [|by apply keeps_ret].
  eapply set_leader_keeps; eauto with keeps.
Qed.

Lemma candidate_steps_down_keeps {CP : ConfigPolicy} term : keeps (candidate_steps_down term).
Proof.
  intros n HI. unfold candidate_steps_down. wp_step. wp_get.
  wp_case; [|by apply keeps_ret]. apply become_follower_keeps; auto with keeps.
Qed.

Lemma follow_leader_spec {CP : ConfigPolicy} id n :
  Inv (node_cm n) →
  wp (follow_leader id) (λ r n', Keep n n' ∧
    (r = None → is_follower (cm_state (node_cm n')) = true) ∧
    cm_log_meta (node_cm n') = cm_log_meta (node_cm n) ∧
    cm_meta (node_cm n') = cm_meta (node_cm n)) n.
Proof.
  intros HI. unfold follow_leader. wp_step. wp_get. wp_step. wp_get.
  pose proof (Keep_refl _ HI). wp_case; try by wp_step.
  wp_step. unfold set_state, modify_cm. wp_step. wp_step. split; [|done]. keep_silent.
Qed.

Lemma follow_leader_keeps {CP : ConfigPolicy} id : keeps (follow_leader id).
Proof. intros n HI. wp_use follow_leader_spec; [done|]. by intros ?? [??]. Qed.
#[export] Hint Resolve candidate_steps_down_keeps follow_leader_keeps : keeps.

Lemma heartbeat_keeps {CP : ConfigPolicy} req : keeps (heartbeat req).
Proof.
  unfold heartbeat. apply keeps_bind; [auto with keeps|intros _].
  apply keeps_bind; [auto with keeps|intros _]. intros n HI. wp_step. wp_get.
  wp_case; [by apply keeps_ret|]. apply (keeps_from _ n); [|by apply Keep_refl].
  apply keeps_bind; [auto with keeps|intros [e|]]; auto with keeps.
Qed.

Lemma heartbeat_callback_keeps {CP : ConfigPolicy} from req resp : keeps (heartbeat_callback from req resp).
Proof.
  unfold heartbeat_callback. apply keeps_bind; [destruct resp; auto with keeps|intros _].
  intros n HI. wp_step. wp_get. wp_case; try by apply keeps_ret.
  wp_case; [|by apply keeps_ret]. wp_case; [|by apply keeps_ret].
  eapply set_leader_keeps; eauto with keeps.
Qed.

Lemma install_snapshot_keeps {CP : ConfigPolicy} req :
  snapshot_ok (is_last_config req) → keeps (install_snapshot req).
Proof.
  intros Hc.
  unfold install_snapshot. apply keeps_bind; [auto with keeps|intros _].
  intros n HI. wp_step. wp_get. wp_case; [by apply keeps_ret|]. wp_case; [by apply keeps_ret|].
  wp_step. wp_case; [|wp_step; by apply keeps_ret].
  wp_step. unfold modify_cm, write_config, modify_tick. wp_step. wp_step. wp_step. keep_silent.
Qed.

Lemma install_snapshot_callback_impl_keeps {CP : ConfigPolicy} to req resp ok last :
  keeps (install_snapshot_callback_impl to req resp ok last).
Proof.
  unfold install_snapshot_callback_impl. apply keeps_bind; [auto with keeps|intros _].
  intros n HI. wp_step. wp_get. wp_case; [by apply keeps_ret|]. wp_case; try by apply keeps_ret.
  wp_case; [|by apply keeps_ret]. wp_case; [by apply keeps_ret|]. wp_step.
  eapply wpx_mono with (Q := λ _ n', n' = n); [wp_case; repeat wp_step; done|].
  intros p' ? ->. eapply set_leader_keeps; eauto with keeps.
Qed.

Lemma install_snapshot_noresponse_keeps {CP : ConfigPolicy} to req : keeps (install_snapshot_noresponse to req).
Proof.
  intros n HI. unfold install_snapshot_noresponse. wp_step. wp_get.
  by apply install_snapshot_callback_impl_keeps.
Qed.

(** ** Votes *)

Lemma observe_term_spec {CP : ConfigPolicy} term n :
  Inv (node_cm n) →
  wp (observe_term run_cycle term) (λ _ n', Keep n n' ∧ term ≤ current_term (cm_meta (node_cm n'))) n.
Proof.
  intros HI. unfold observe_term. wp_step. wp_get. destruct (term >? _) eqn:E; b2p.
  - wp_step. unfold modify_cm. wp_step. wp_step. unfold write_meta, modify_tick. wp_step.
    match goal with |- wpx _ _ _ _ ?x => set (n1 := x) end.
    unfold become_follower. wp_step. wp_get. wp_step. wp_use new_follower_spec.
    intros s n2 [[k ->] (t & -> & _)]. wp_step. unfold set_state, modify_cm. wp_step.
    match goal with |- wpx _ _ _ _ ?x => set (n2 := x) end.
    assert (Keep n n2) as HK.
    { destruct HI. split; [split; cbn; try done; [lia|apply id_zero]|]. apply Step_meta; try done; try elect_tac. split; cbn; lia. }
    wp_use run_cycle_keeps; [apply HK|]. intros _ n3 HK3. split; [by eapply Keep_trans|].
    destruct HK3 as [_ HS]. by destruct (sp_meta _ _ _ _ HS).
  - wp_step. split; [by apply Keep_refl|done].
Qed.

Lemma pre_vote_spec {CP : ConfigPolicy} {St} pf m req now (s : St) :
  cfg_ok (cm_config m) →
  wpx True pf (pre_vote m req now) (λ r s', s' = s ∧ hint_ok r ∧
    rvr_vote_granted r = pre_vote_should_grant m req now ∧
    rvr_term r = Z.max (rv_term req) (current_term (cm_meta m))) s.
Proof.
  intros Hc. unfold pre_vote. wp_step. wp_use snapshot_of_ok; [done|]. intros c ? [-> Hok]. wp_step.
  split_and!; try done; [by intros x; cbn; case_match; intros [= <-]|]. cbn. destruct (_ >? _) eqn:E; b2p; lia.
Qed.

(** What a granted (pre-)vote implies. *)
Lemma pre_vote_should_grant_spec m req now :
  pre_vote_should_grant m req now = true →
  current_term (cm_meta m) ≤ rv_term req ∧ up_to_date m req = true ∧
  (rv_term req = current_term (cm_meta m) →
   0 < voted_for (cm_meta m) → voted_for (cm_meta m) = rv_candidate_id req) ∧
  (leader_approval_value req ≠ current_term (cm_meta m) →
   ∀ t, last_leader_seen m = Some t → t + LEASE_MARGIN ≤ now).
Proof.
  unfold pre_vote_should_grant. intros Hg.
  destruct (rv_term req <? _) eqn:E1; [done|]. destruct (up_to_date m req) eqn:E2; [|done].
  cbn [negb] in Hg. destruct (negb (rv_term req >? _) && _) eqn:E3; [done|]. b2p.
  split_and!; try done.
  - intros. destruct (decide (voted_for (cm_meta m) = rv_candidate_id req)); [done|]. lia.
  - intros Hne t Ht. destruct (_ =? current_term _) eqn:E4; b2p; [done|].
    rewrite Ht in Hg. b2p. lia.
Qed.

(** A vote is granted to a candidate of the current term whose log is up to
    date, is recorded, and is flagged to be persisted. *)
Lemma request_vote_spec {CP : ConfigPolicy} req n :
  id_ok (rv_candidate_id req) → Inv (node_cm n) →
  wp (request_vote req) (λ r n', Keep n n' ∧ hint_ok r ∧ (rvr_vote_granted r = true →
    current_term (cm_meta (node_cm n')) = rv_term req ∧ rvr_term r = rv_term req ∧
    voted_for (cm_meta (node_cm n')) = rv_candidate_id req ∧
    tick_meta (node_tick n') = true ∧ up_to_date (node_cm n') req = true)) n.
Proof.
  intros Hid HI. unfold request_vote. wp_step. wp_use observe_term_spec; [done|].
  intros _ n1 [HK1 Ht]. wp_step. wp_get. wp_step. wp_get. wp_step. wp_use pre_vote_spec; [apply HK1|].
  intros r ? (-> & Hhint & Hg & Hrt). wp_case; [|wp_step; split_and!; [done..|congruence]]. symmetry in Hg.
  destruct (pre_vote_should_grant_spec _ _ _ Hg) as (Hle & Hup & Hvote & _).
  wp_case; try by wp_step. wp_step. unfold set_state, modify_cm, write_meta, modify_tick.
  repeat wp_step. split; [|split; [done|intros _; split_and!; cbn; try done; lia]].
  apply (Keep_trans _ n1); [done|]. destruct HK1 as [[] _]. split; [by split|].
  apply Step_meta; try done; try elect_tac. split; cbn; [lia| |lia]. intros _ Hp. symmetry. apply Hvote; lia.
Qed.

Lemma request_vote_keeps {CP : ConfigPolicy} req :
  id_ok (rv_candidate_id req) → keeps (request_vote req).
Proof. intros Hid n HI. wp_use request_vote_spec; [done..|]. by intros ?? [??]. Qed.

(** ** AppendEntries *)

(** The position is in the log. *)
Definition pos_in (m : ConsensusModule) (p : LogPosition) : Prop :=
  ∃ o, o ∈ all_offsets (cm_log_meta m) ∧ position o = p.

Lemma pos_in_step {CP : ConfigPolicy} X C n n' p : StepX X C n n' → pos_in (node_cm n) p → pos_in (node_cm n') p.
Proof.
  intros HS (o & Ho & <-). destruct (sp_log _ _ _ _ HS) as (k & _ & Hk & _).
  exists o. split; [|done]. rewrite Hk. apply elem_of_app. by left.
Qed.

Lemma lookup_pos_in {CP : ConfigPolicy} m i o :
  Inv m → LogMetadata_lookup (cm_log_meta m) i = Some o →
  pos_in m (mkLogPosition (off_term o) i).
Proof.
  intros HI [Ho Hi]%LogMetadata_lookup_Some; [|apply HI].
  exists o. split; [done|]. destruct o as [[]]; cbn in *. by subst.
Qed.

(** The entries have the indexes [i], [i + 1], ... *)
Definition consecutive (i : LogIndex) (l : list LogEntry) : Prop :=
  ∀ k e, l !! k = Some e → pos_index (entry_pos e) = i + Z.of_nat k.

Lemma consecutive_cons i e l :
  consecutive i (e :: l) ↔ pos_index (entry_pos e) = i ∧ consecutive (i + 1) l.
Proof.
  split.
  - intros H. split; [rewrite (H 0%nat e); [lia|done]|].
    intros k e' He. rewrite (H (S k) e' He). lia.
  - intros [He Hl] [|k] e' He'; cbn in He'; [simplify_eq; lia|]. rewrite (Hl _ _ He'). lia.
Qed.

Lemma consecutive_drop i l k : consecutive i l → consecutive (i + Z.of_nat k) (drop k l).
Proof. intros H j e. rewrite lookup_drop. intros He. rewrite (H _ _ He). lia. Qed.

Lemma entries_consecutive_spec {St} pf e l (s : St) :
  wpx True pf (entries_consecutive (e :: l)) (λ ok s', s' = s ∧
    (ok = true → consecutive (pos_index (entry_pos e)) (e :: l))) s.
Proof.
  revert e. induction l as [|e' l IH]; intros e; cbn [entries_consecutive].
  - wp_step. split; [done|]. intros _. apply consecutive_cons. split; [done|]. by intros [].
  - wp_case; [by wp_step|]. wp_step. wp_step. wp_case; [by wp_step|]. b2p.
    wp_use IH. intros ok ? [-> Hok]. split; [done|]. intros ->. apply consecutive_cons.
    split; [done|]. by rewrite <- Heqb0; apply Hok.
Qed.

Lemma check_entries_spec {St} pf req (s : St) :
  wpx True pf (check_entries req) (λ r s', s' = s ∧
    (r = None → consecutive (ae_prev_log_index req + 1) (ae_entries req))) s.
Proof.
  unfold check_entries. wp_case.
  - wp_step. split; [done|]. by intros _ [].
  - wp_case; [by wp_step|]. wp_step. wp_step. wp_case; [by wp_step|]. wp_step. b2p.
    wp_use entries_consecutive_spec. intros ok ? [-> Hok]. wp_step. split; [done|].
    destruct ok; [|done]. intros _. rewrite <- Heqb0. by apply Hok.
Qed.


(** The entries before [first_new] are in the log; the one at [first_new]
    is not, or conflicts. *)
Lemma find_first_new_spec {CP : ConfigPolicy} l k0 n :
  Inv (node_cm n) →
  wp (find_first_new l k0) (λ r n', Keep n n' ∧
    cm_log_meta (node_cm n') = cm_log_meta (node_cm n) ∧
    cm_state (node_cm n') = cm_state (node_cm n) ∧
    ∀ k conflict, r = inr (k, conflict) → ∃ l1 l2, l = l1 ++ l2 ∧ k = (k0 + length l1)%nat ∧
      Forall (λ e, pos_in (node_cm n) (entry_pos e)) l1 ∧
      (conflict = true → ∃ e o, head l2 = Some e ∧
         LogMetadata_lookup (cm_log_meta (node_cm n)) (pos_index (entry_pos e)) = Some o)) n.
Proof.
  intros HI. revert k0. induction l as [|e l IH]; intros k0; cbn [find_first_new].
  { wp_step. split; [by apply Keep_refl|]. split_and!; try done.
    intros ?? [= <- <-]. exists [], []. split_and!; try done; cbn; lia. }
  wp_step. wp_get. wp_case.
  2:{ wp_step. split; [by apply Keep_refl|]. split_and!; try done.
      intros ?? [= <- <-]. exists [], (e :: l). split_and!; try done; cbn; lia. }
  wp_case.
  - b2p. wp_use IH. intros r n' (HK & Hlog & Hst & Hr). split_and!; try done.
    intros k conflict ->. destruct (Hr _ _ eq_refl) as (l1 & l2 & -> & -> & Hf & Hc).
    exists (e :: l1), l2. split_and!; try done; [cbn; lia|]. constructor; [|done].
    destruct (entry_pos e) as [t i] eqn:Ee. cbn in *. subst t. by apply lookup_pos_in.
  - wp_case; [wp_step; split; [by apply Keep_refl|done]|].
    wp_step. wp_use revert_ok; [apply HI|]. intros cfg ? [-> Hcfg]. wp_step. unfold modify_cm. wp_step. wp_step.
    split; [keep_silent|]. split_and!; try done.
    intros ?? [= <- <-]. exists [], (e :: l). split_and!; try done; cbn; try lia.
    intros _. by exists e, l0.
Qed.

(** Exactly the entries [l] of a request were added to the log and the tick. *)
Definition copied {CP : ConfigPolicy} (l : list LogEntry) (n n' : Node) : Prop :=
  KeepC (λ e, e ∈ l) n n' ∧
  ∃ k, tick_new_entries (node_tick n') = tick_new_entries (node_tick n) ++ k ∧ ne_entry <$> k = l.

Lemma copied_cons {CP : ConfigPolicy} e l n n1 n2 :
  copied [e] n n1 → copied l n1 n2 → copied (e :: l) n n2.
Proof.
  intros [[H1 S1] (k1 & E1 & K1)] [[H2 S2] (k2 & E2 & K2)]. split.
  - apply (KeepC_trans _ _ n1); (split; [done|]).
    + eapply StepX_ext; [intros t; reflexivity| |exact S1].
      intros x ->%list_elem_of_singleton. apply list_elem_of_here.
    + eapply StepX_ext; [intros t; reflexivity| |exact S2]. intros x. by apply list_elem_of_further.
  - exists (k1 ++ k2). by rewrite E2, E1, (assoc_L (++)), fmap_app, K1, K2.
Qed.

(** The new entries are appended one by one to the log and the tick. *)
Lemma append_new_entries_spec {CP : ConfigPolicy} l seq0 n :
  Inv (node_cm n) → is_follower (cm_state (node_cm n)) = true → entries_ok l →
  consecutive (last_log_index (node_cm n) + 1) l →
  wp (append_new_entries l seq0 false) (λ r n', copied l n n' ∧ r.2 = false ∧
    cm_state (node_cm n') = cm_state (node_cm n) ∧
    cm_meta (node_cm n') = cm_meta (node_cm n) ∧
    Forall (λ e, pos_in (node_cm n') (entry_pos e)) l ∧
    match last l with
    | Some e => mkLogOffset (entry_pos e) r.1 ∈ all_offsets (cm_log_meta (node_cm n'))
    | None => r.1 = seq0
    end) n.
Proof.
  revert seq0 n. induction l as [|e l IH]; intros seq0 n HI Hfo Hok Hl; cbn [append_new_entries].
  { wp_step. split; [|done]. split; [by apply Keep_KeepC, Keep_refl|]. exists []. by rewrite app_nil_r. }
  apply consecutive_cons in Hl as [He Hl]. apply Forall_cons in Hok as [Hoke Hok].
  wp_step. wp_get. wp_step. wp_step. wp_step.
  wp_use LogMetadata_append_next; [apply HI|done|].
  intros lm ? (-> & Hwf & _ & Hlast & Ha). wp_step. unfold modify_cm. wp_step. wp_step.
  unfold push_new_entry, modify_tick. wp_step. wp_step. wp_step. wp_step. wp_step.
  match goal with |- wpx _ _ _ _ ?x => set (n1 := x) end.
  assert (copied [e] n n1) as HK1.
  { destruct HI. split; [split; [split; try done|]|by eexists].
    { by apply apply_ok. }
    { apply reads_cover_follower. cbn. by destruct (cm_state (node_cm n)). }
    eapply (Step_append _ _ _
      (mkNewLogEntry (sequence (LogMetadata_last (cm_log_meta (node_cm n))) + 1) e)); try done; try elect_tac.
    left. by apply list_elem_of_singleton. }
  assert (mkLogOffset (entry_pos e) (sequence (LogMetadata_last (cm_log_meta (node_cm n))) + 1)
    ∈ all_offsets (cm_log_meta (node_cm n1))) as Hin.
  { cbn. rewrite Ha. apply elem_of_app. right. by constructor. }
  wp_use (IH _ n1); [apply HK1|done|done| |].
  { unfold last_log_index, LogMetadata_last. cbn. rewrite Hlast. cbn. by rewrite He. }
  intros [seq b] n2 (HK2 & Hb & Hst & Hm & Hf & Hseq). split_and!; try done.
  - by eapply copied_cons.
  - constructor; [|done]. eapply pos_in_step; [apply HK2|]. eexists. split; [exact Hin|done].
  - destruct l as [|e' l].
    2:{ change (last (e :: e' :: l)) with (last (e' :: l)).
        destruct (last (e' :: l)) eqn:El; [exact Hseq|by apply last_None in El]. }
    cbn in *. subst seq.
    destruct HK2 as [[_ HS2] _]. destruct (sp_log _ _ _ _ HS2) as (k & _ & -> & _).
    apply elem_of_app. by left.
Qed.

(** What a successful response stands for: the previous position and all
    entries of the request are in the follower's log, and the flush
    constraint names an offset of it. *)
Definition append_success (req : AppendEntriesRequest) (r : AppendResult) (m : ConsensusModule) : Prop :=
  ∀ fc, r = inr fc → aer_success (fc_inner fc) = true →
    pos_in m (mkLogPosition (ae_prev_log_term req) (ae_prev_log_index req)) ∧
    Forall (λ e, pos_in m (entry_pos e)) (ae_entries req) ∧
    ∃ seq pos, fc_point fc = Some (seq, pos) ∧
      mkLogOffset pos seq ∈ all_offsets (cm_log_meta m).

Lemma append_success_step {CP : ConfigPolicy} X C req r n n' :
  StepX X C n n' → append_success req r (node_cm n) → append_success req r (node_cm n').
Proof.
  intros HS H fc Hr Hs. destruct (H fc Hr Hs) as (Hp & He & seq & pos & Hfc & Ho).
  split_and!; [by eapply pos_in_step| |].
  - eapply Forall_impl; [exact He|]. eauto using pos_in_step.
  - exists seq, pos. split; [done|]. destruct (sp_log _ _ _ _ HS) as (k & _ & -> & _).
    apply elem_of_app. by left.
Qed.

(** The check that the first new entry follows the end of the log rules
    out a conflict, so the truncation is never pending afterwards. *)
Lemma next_entry_follows {CP : ConfigPolicy} n l l1 l2 conflict :
  Inv (node_cm n) → l = l1 ++ l2 →
  (conflict = true → ∃ e o, head l2 = Some e ∧
     LogMetadata_lookup (cm_log_meta (node_cm n)) (pos_index (entry_pos e)) = Some o) →
  (∀ e, head l2 = Some e → pos_index (entry_pos e) = last_log_index (node_cm n) + 1) →
  conflict = false.
Proof.
  intros HI -> Hc Hn. destruct conflict; [|done].
  destruct (Hc eq_refl) as (e & o & He & Ho). specialize (Hn e He).
  unfold LogMetadata_lookup in Ho. unfold last_log_index, LogMetadata_last in Hn.
  destruct (_ >? _) eqn:E; b2p; [done|lia].
Qed.

Lemma append_success_err req e m : append_success req (inl e) m.
Proof. done. Qed.

Lemma append_success_false req term last p m :
  append_success req (inr (mkFlushConstraint (mkAppendEntriesResponse term false last) p)) m.
Proof. by intros fc [= <-]. Qed.
#[local] Hint Resolve append_success_err append_success_false : core.

(** How a request changes a server: its entries that are not in the log yet
    are copied, after a position the log has and the entries it has. *)
Inductive append_path {CP : ConfigPolicy} (req : AppendEntriesRequest) (n n' : Node) : Prop :=
| path_none : Keep n n' → append_path req n n'
| path_copy n1 n2 l1 l2 :
    Keep n n1 → pos_in (node_cm n1) (mkLogPosition (ae_prev_log_term req) (ae_prev_log_index req)) →
    ae_entries req = l1 ++ l2 → consecutive (ae_prev_log_index req + 1) (ae_entries req) →
    Forall (λ e, pos_in (node_cm n1) (entry_pos e)) l1 →
    consecutive (last_log_index (node_cm n1) + 1) l2 →
    copied l2 n1 n2 → Keep n2 n' → append_path req n n'.

Lemma append_path_from {CP : ConfigPolicy} req n0 n n' :
  Keep n0 n → append_path req n n' → append_path req n0 n'.
Proof.
  intros HK [HK'|n1 n2 l1 l2 HK1 Hp El Hcons Hl1 Hl2 Hc HK2].
  - left. by eapply Keep_trans.
  - by eapply (path_copy _ _ _ n1 n2 l1 l2); [eapply Keep_trans|..].
Qed.

Lemma append_path_Keep {CP : ConfigPolicy} req n n' :
  append_path req n n' → KeepC (λ e, e ∈ ae_entries req) n n'.
Proof.
  intros [HK|n1 n2 l1 l2 HK1 _ El _ _ _ [[HI HS] _] HK2]; [by apply Keep_KeepC|].
  eapply KeepC_trans; [by apply Keep_KeepC|]. apply (KeepC_trans _ _ n2); [|by apply Keep_KeepC].
  split; [done|]. eapply StepX_ext; [intros t; reflexivity| |exact HS].
  intros e He. rewrite El. apply elem_of_app. by right.
Qed.
#[local] Hint Constructors append_path : core.

Lemma append_and_commit_spec {CP : ConfigPolicy} req term off l1 l2 n :
  Inv (node_cm n) → is_follower (cm_state (node_cm n)) = true → entries_ok l2 →
  consecutive (last_log_index (node_cm n) + 1) l2 →
  ae_entries req = l1 ++ l2 → Forall (λ e, pos_in (node_cm n) (entry_pos e)) l1 →
  off ∈ all_offsets (cm_log_meta (node_cm n)) →
  position off = mkLogPosition (ae_prev_log_term req) (ae_prev_log_index req) →
  wp (append_and_commit req term off l2 false)
    (λ r n', (∃ n1, copied l2 n n1 ∧ Keep n1 n') ∧ append_success req r (node_cm n')) n.
Proof.
  intros HI Hfo Hok2 Hl2 El Hl1 Hoff Epos. unfold append_and_commit. wp_step.
  wp_use append_new_entries_spec; [done..|]. intros [seq pt] n1 (HK1 & Hpt & _ & _ & Hin & Hseq).
  cbn in Hpt, Hseq. subst pt. wp_step. wp_get.
  match goal with |- context [mkFlushConstraint _ (Some (seq, ?p))] => set (last_new := p) end.
  assert (∀ t last n', Keep n1 n' → append_success req (inr (mkFlushConstraint
    (mkAppendEntriesResponse t true last) (Some (seq, last_new)))) (node_cm n')) as Hok.
  { intros t last n' [_ HS]. eapply append_success_step; [exact HS|]. intros fc [= <-] _.
    destruct HK1 as [[_ HS1] _]. split_and!.
    - eapply pos_in_step; [done|]. by exists off.
    - rewrite El. apply Forall_app. split; [|done].
      eapply Forall_impl; [exact Hl1|]. eauto using pos_in_step.
    - exists seq, last_new. split; [done|]. unfold last_new. destruct (list.last l2); [done|].
      subst seq. rewrite <- Epos. destruct (sp_log _ _ _ _ HS1) as (k & _ & -> & _).
      apply elem_of_app. left. by destruct off. }
  wp_step. eapply wpx_mono with (Q := λ _ n', Keep n1 n').
  { pose proof (Keep_refl _ (proj1 (proj1 HK1))).
    repeat wp_case; try by wp_step. by apply update_commited_keeps, HK1. }
  intros _ n2 HK2. wp_step. wp_get. wp_step. wp_step.
  wp_case; [|wp_step; split; [by exists n1|by apply Hok]]. wp_case; [wp_step; split; [by exists n1|done]|].
  wp_step. wp_use become_candidate_keeps; [apply run_cycle_keeps|apply HK2|].
  intros _ n3 HK3. assert (Keep n1 n3) as HK13 by by apply (Keep_trans _ n2).
  wp_step. split; [by exists n1|by apply Hok].
Qed.

Lemma append_entries_to_log_spec {CP : ConfigPolicy} req n :
  entries_ok (ae_entries req) → Inv (node_cm n) → is_follower (cm_state (node_cm n)) = true →
  wp (append_entries_to_log req) (λ r n', append_path req n n' ∧ append_success req r (node_cm n')) n.
Proof.
  intros Hall HI Hfo. unfold append_entries_to_log. wp_step. wp_get. wp_step.
  pose proof (Keep_refl _ HI) as HK0.
  wp_use check_entries_spec. intros chk ? [-> Hchk]. wp_case; [wp_step; by auto|].
  specialize (Hchk eq_refl). wp_step. wp_step. wp_case; [wp_step; by auto|].
  wp_case; [|wp_step; by auto]. rename l into off, Heqo0 into Hoff.
  wp_case; [wp_step; by auto|]. b2p.
  apply LogMetadata_lookup_Some in Hoff as [Hoff Ei]; [|apply HI].
  wp_step. wp_use find_first_new_spec; [done|].
  intros found n1 (HK1 & Hlog1 & Hst1 & Hfound). wp_case; [wp_step; by auto|].
  destruct p as [first_new conflict].
  destruct (Hfound _ _ eq_refl) as (l1 & l2 & El & -> & Hl1 & Hc).
  rewrite El in Hchk |- *. rewrite Nat.add_0_l, drop_app_length. wp_step.
  eapply wpx_mono with (Q := λ ok n', n' = n1 ∧ (ok = true → ∀ e, head l2 = Some e →
    pos_index (entry_pos e) = last_log_index (node_cm n) + 1)).
  { wp_case; repeat wp_step; (split; [done|]); [done|]. intros Hok e' [= <-].
    b2p. tauto. }
  intros next_ok ? [-> Hnext]. destruct next_ok; cbn [negb]; [|wp_step; by auto].
  specialize (Hnext eq_refl).
  rewrite (next_entry_follows n (l1 ++ l2) l1 l2 conflict) by done.
  pose proof (consecutive_drop _ _ (length l1) Hchk) as Hl2. rewrite drop_app_length in Hl2.
  assert (consecutive (last_log_index (node_cm n1) + 1) l2) as Hcons.
  { unfold last_log_index. rewrite Hlog1. fold (last_log_index (node_cm n)).
    destruct l2 as [|e l2]; [by intros []|]. rewrite <- (Hnext e) by done.
    by rewrite (proj1 (proj1 (consecutive_cons _ _ _) Hl2)). }
  assert (Forall (λ e, pos_in (node_cm n1) (entry_pos e)) l1) as Hl1'.
  { eapply Forall_impl; [exact Hl1|]. intros e. eapply pos_in_step, HK1. }
  assert (position off = mkLogPosition (ae_prev_log_term req) (ae_prev_log_index req)) as Epos.
  { destruct off as [[]]; cbn in *. by subst. }
  rewrite <- Hlog1 in Hoff. rewrite <- El in Hchk.
  eapply wpx_mono; [apply (append_and_commit_spec _ _ _ l1); try done; [apply HK1|by rewrite Hst1|]|].
  - rewrite El in Hall. by apply Forall_app in Hall as [_ ?].
  - intros r n' [(n2 & Hn2 & HK2) Hr]. split; [|done].
    eapply (path_copy _ _ _ n1 n2 l1 l2); try done. by exists off.
Qed.

Lemma append_entries_spec {CP : ConfigPolicy} req n :
  entries_ok (ae_entries req) → Inv (node_cm n) →
  wp (append_entries req) (λ r n', append_path req n n' ∧ append_success req r (node_cm n')) n.
Proof.
  intros Hall HI. unfold append_entries. wp_step. wp_use observe_term_spec; [done|].
  intros _ n1 [HK1 _]. wp_step. wp_use candidate_steps_down_keeps; [apply HK1|].
  intros _ n2 HK2. assert (Keep n n2) as HK by by eapply Keep_trans.
  wp_step. wp_get. wp_case; [wp_step; by auto|]. wp_step. wp_step. wp_step.
  wp_use follow_leader_spec; [apply HK|]. intros r n3 (HK3 & Hfo & _).
  assert (Keep n n3) by by eapply Keep_trans. wp_case; [wp_step; by auto|].
  wp_use append_entries_to_log_spec; [done|apply HK3|by apply Hfo|].
  intros r' n4 [HK4 Hr]. split; [by eapply append_path_from|done].
Qed.

(** ** Requests whose entries are all in the log *)

Lemma pos_in_lookup {CP : ConfigPolicy} m p :
  Inv m → pos_in m p →
  ∃ o, LogMetadata_lookup (cm_log_meta m) (pos_index p) = Some o ∧ off_term o = pos_term p.
Proof.
  intros HI (o & Ho & <-). exists o. split; [|done].
  apply LogMetadata_lookup_elem; [apply HI|done].
Qed.

Lemma find_first_new_all {CP : ConfigPolicy} l k0 n :
  Inv (node_cm n) → Forall (λ e, pos_in (node_cm n) (entry_pos e)) l →
  find_first_new l k0 n = Done (inr (k0 + length l, false)%nat, n).
Proof.
  intros HI Hl. revert k0. induction Hl as [|e l He Hl IH]; intros k0; cbn [find_first_new].
  - by rewrite Nat.add_0_r.
  - destruct (pos_in_lookup _ _ HI He) as (o & Ho & Et). unfold bind, get_cm, gets.
    rewrite Ho, Et, Z.eqb_refl, IH. cbn [length]. by rewrite Nat.add_succ_r.
Qed.

(** What a success that adds nothing is held back for. *)
Definition held_for_prev (req : AppendEntriesRequest) (r : AppendResult) : Prop :=
  ∀ fc, r = inr fc → aer_success (fc_inner fc) = true →
  ∃ seq, fc_point fc = Some (seq, mkLogPosition (ae_prev_log_term req) (ae_prev_log_index req)).

Lemma held_for_prev_err req e : held_for_prev req (inl e).
Proof. done. Qed.

Lemma held_for_prev_false req term last p :
  held_for_prev req (inr (mkFlushConstraint (mkAppendEntriesResponse term false last) p)).
Proof. by intros fc [= <-]. Qed.

Lemma held_for_prev_ok req term last seq :
  held_for_prev req (inr (mkFlushConstraint (mkAppendEntriesResponse term true last)
    (Some (seq, mkLogPosition (ae_prev_log_term req) (ae_prev_log_index req))))).
Proof. intros fc [= <-] _. by exists seq. Qed.
#[local] Hint Resolve held_for_prev_err held_for_prev_false held_for_prev_ok : core.

Lemma wp_any {A} (m : M Node A) (Q : A → Node → Prop) n : (∀ a n', Q a n') → wp m Q n.
Proof. intros H. unfold wpx. by destruct (m n) as [[]| |]. Qed.

Lemma append_nothing_held req term off n :
  wp (append_and_commit req term off [] false) (λ r _, held_for_prev req r) n.
Proof.
  unfold append_and_commit. cbn [append_new_entries list.last]. repeat wp_step. wp_get. wp_step.
  apply wp_any. intros _ n1. wp_step. wp_get. wp_step. wp_step.
  wp_case; [|by wp_step; auto]. wp_case; [by wp_step; auto|].
  wp_step. apply wp_any. intros _ n2. by wp_step; auto.
Qed.

Lemma append_duplicate_to_log {CP : ConfigPolicy} req n :
  Inv (node_cm n) → Forall (λ e, pos_in (node_cm n) (entry_pos e)) (ae_entries req) →
  wp (append_entries_to_log req) (λ r _, held_for_prev req r) n.
Proof.
  intros HI Hall. unfold append_entries_to_log. wp_step. wp_get. wp_step.
  wp_use check_entries_spec. intros chk ? [-> _]. wp_case; [wp_step; by auto|].
  wp_step. wp_step. wp_case; [wp_step; by auto|]. wp_case; [|wp_step; by auto].
  wp_case; [wp_step; by auto|]. wp_step. eapply wpx_run; [by apply find_first_new_all|].
  cbn beta iota. rewrite Nat.add_0_l, drop_all. repeat wp_step. apply append_nothing_held.
Qed.

Lemma append_duplicate {CP : ConfigPolicy} req n :
  Inv (node_cm n) → Forall (λ e, pos_in (node_cm n) (entry_pos e)) (ae_entries req) →
  wp (append_entries req) (λ r _, held_for_prev req r) n.
Proof.
  intros HI Hall. unfold append_entries. wp_step. wp_use observe_term_spec; [done|].
  intros _ n1 [HK1 _]. wp_step. wp_use candidate_steps_down_keeps; [apply HK1|].
  intros _ n2 HK2. assert (Keep n n2) as HK by by eapply Keep_trans.
  wp_step. wp_get. wp_case; [wp_step; by auto|]. wp_step. wp_step. wp_step.
  wp_use follow_leader_spec; [apply HK|]. intros r n3 (HK3 & _).
  assert (Keep n n3) as HKn by by eapply Keep_trans. wp_case; [wp_step; by auto|].
  apply append_duplicate_to_log; [apply HK3|].
  eapply Forall_impl; [exact Hall|]. intros e. eapply pos_in_step, HKn.
Qed.

Lemma append_entries_copies {CP : ConfigPolicy} req :
  entries_ok (ae_entries req) →
  ∀ n, Inv (node_cm n) → wp (append_entries req) (λ _ n', append_path req n n') n.
Proof. intros Hall n HI. wp_use append_entries_spec; [done..|]. by intros ?? [??]. Qed.
