(* ===== verification/ConsensusNew.v ===== *)
(** * Starting a consensus module from a log

    [ConsensusModule::new] of src/pkg/raft/src/consensus/module.rs against
    the [Log] interface, and that the metadata it builds describes the log. *)

From S2P Require Import Prelude RaftProto ConfigState LogMetadata ConsensusState Consensus.
From S2P Require Import RaftLog ConsensusInv.

Section New.
Context {L : Type} `{!Log L}.

(** The loop that appends the offset of every entry. *)
Fixpoint load_log_meta (log : L) (indexes : list LogIndex) (lm : LogMetadata)
    : M Node LogMetadata :=
  match indexes with
  | [] => ret lm
  | i :: rest =>
    let! e := log_entry log i in
    let! (entry, sequence) := unwrap e in
    let! lm := LogMetadata_append lm (mkLogOffset (entry_pos entry) sequence) in
    load_log_meta log rest lm
  end.

(** The loop that applies the entries after the configuration snapshot. *)
Fixpoint load_config (log : L) (indexes : list LogIndex) (commit_index : LogIndex)
    (config : ConfigurationStateMachine) : M Node ConfigurationStateMachine :=
  match indexes with
  | [] => ret config
  | i :: rest =>
    let! e := log_entry log i in
    let! (entry, _) := unwrap e in
    load_config log rest commit_index (CSM_apply config entry commit_index)
  end.

(** The indexes of [(a..b)] *)
Definition range (a b : Z) : list Z := seqZ a (b - a).

Definition ConsensusModule_new (id : ServerId) (meta : Metadata)
    (config_snapshot : ConfigurationSnapshot) (log : L) (time : Instant)
    : M Node ConsensusModule :=
  let log_last_flushed := log_last_flushed log in
  let! log_meta := LogMetadata_discard LogMetadata_new (log_prev log) in
  let! first := u64_add (pos_index (log_prev log)) 1 in
  let! last := log_last_index log in
  let! log_meta := load_log_meta log (range first (last + 1)) log_meta in
  let! last_log_term := log_term log last in
  let! last_log_term := unwrap last_log_term in
  let meta :=
    if last_log_term >? current_term meta
    then mkMetadata last_log_term 0 (commit_index meta) else meta in
  assert (negb (snap_last_applied config_snapshot <? pos_index (log_prev log))) ;!
  let config := CSM_from config_snapshot in
  let! first := u64_add (csm_last_applied config) 1 in
  let! after_last := u64_add last 1 in
  let! config := load_config log (range first after_last) (commit_index meta) config in
  let config := (CSM_commit config (commit_index meta)).2 in
  let! state := new_follower time in
  ret (mkModule id meta meta log_meta log_last_flushed config state None None None 0).

(** ** What [new] establishes *)

Context `{!LogLaws L}.

(** Terms do not decrease and sequences increase along the entries. *)
Fixpoint sorted_from (term : Term) (seq : LogSequence) (l : list (LogEntry * LogSequence)) : Prop :=
  match l with
  | [] => True
  | (e, q) :: l' =>
    term ≤ pos_term (entry_pos e) ∧ seq < q ∧ sorted_from (pos_term (entry_pos e)) q l'
  end.

Definition entry_offset (e : LogEntry * LogSequence) : LogOffset :=
  mkLogOffset (entry_pos e.1) e.2.

(** A log [new] can start from. *)
Record log_startable (log : L) : Prop := mkStartable {
  lst_ok : log_ok log;
  lst_sorted : sorted_from (pos_term (log_prev log)) 0 (al_entries (log_view log));
  lst_zero : pos_index (log_prev log) = 0 → log_prev log = LogPosition_zero;
}.

Lemma load_log_meta_spec log k rest lm (n : Node) :
  log_ok log → drop k (al_entries (log_view log)) = rest →
  LogMetadata_wf lm → off_index (last_offset lm) = pos_index (al_prev (log_view log)) + Z.of_nat k →
  sorted_from (off_term (last_offset lm)) (sequence (last_offset lm)) rest →
  twp (load_log_meta log (seqZ (pos_index (al_prev (log_view log)) + Z.of_nat k + 1)
         (Z.of_nat (length rest))) lm)
    (λ lm' n', n' = n ∧ LogMetadata_wf lm' ∧
       all_offsets lm' = all_offsets lm ++ (entry_offset <$> rest)) n.
Proof.
  intros Hok. revert k lm. induction rest as [|[e q] rest IH]; intros k lm Hk Hwf Hlast Hs.
  { rewrite seqZ_nil by done. cbn [load_log_meta]. wp_step. by rewrite app_nil_r. }
  destruct Hs as (Ht & Hq & Hs). destruct (log_ok_wf _ Hok) as (H0 & Hmax & Hidx).
  assert (al_entries (log_view log) !! k = Some (e, q)) as He.
  { rewrite <- (Nat.add_0_r k), <- lookup_drop, Hk. done. }
  pose proof (Hidx _ _ He) as Hi. apply lookup_lt_Some in He as Hlen. cbn in Hi.
  rewrite seqZ_cons by (cbn; lia). cbn [load_log_meta]. wp_step.
  eapply wpx_run; [by apply log_entry_ok|]. unfold al_lookup.
  destruct (_ <? _) eqn:E; b2p; [|lia].
  replace (Z.to_nat _) with k by lia. rewrite He. wp_step. eapply wpx_run; [done|]. wp_step.
  pose proof Hwf as (prev & l & Eo & Hp & Hp0 & Hc)%LogMetadata_prev_spec.
  pose proof (chain_last_index _ _ _ Hc). unfold al_last_index in Hmax.
  destruct (LogMetadata_append_spec lm prev (entry_offset (e, q)) Hwf Hp)
    as (lm' & Happ & Hwf' & Hp' & Hl' & Ha').
  { unfold append_ok. cbn. lia. }
  eapply wpx_run; [apply Happ|].
  rewrite take_ge in Ha' by (rewrite (length_all_offsets _ _ Hwf Hp); cbn; lia).
  eapply wpx_mono.
  - replace (Z.succ _) with (pos_index (al_prev (log_view log)) + Z.of_nat (S k) + 1) by lia.
    replace (Z.pred _) with (Z.of_nat (length rest)) by (cbn; lia).
    apply IH; [by rewrite <- Nat.add_1_r, <- drop_drop, Hk|done|rewrite Hl'; cbn; lia|by rewrite Hl'].
  - cbn. intros lm2 n' (-> & ? & ->). rewrite Ha', <- (assoc_L (++)). done.
Qed.

(** The entries after the snapshot are applied to the configuration. *)
Lemma load_config_spec log k rest ci config (n : Node) :
  log_ok log → drop k (al_entries (log_view log)) = rest →
  twp (load_config log (seqZ (pos_index (al_prev (log_view log)) + Z.of_nat k + 1)
         (Z.of_nat (length rest))) ci config)
    (λ c n', n' = n ∧ c = foldl (λ c e, CSM_apply c e.1 ci) config rest) n.
Proof.
  intros Hok. revert k config. induction rest as [|[e q] rest IH]; intros k config Hk.
  { rewrite seqZ_nil by done. cbn [load_config]. by wp_step. }
  destruct (log_ok_wf _ Hok) as (H0 & Hmax & Hidx).
  assert (al_entries (log_view log) !! k = Some (e, q)) as He.
  { rewrite <- (Nat.add_0_r k), <- lookup_drop, Hk. done. }
  rewrite seqZ_cons by (cbn; lia). cbn [load_config]. wp_step.
  eapply wpx_run; [by apply log_entry_ok|]. unfold al_lookup.
  destruct (_ <? _) eqn:E; b2p; [|lia].
  replace (Z.to_nat _) with k by lia. rewrite He. wp_step. eapply wpx_run; [done|].
  cbn beta iota.
  replace (Z.succ _) with (pos_index (al_prev (log_view log)) + Z.of_nat (S k) + 1) by lia.
  replace (Z.pred _) with (Z.of_nat (length rest)) by (cbn; lia).
  apply IH. by rewrite <- Nat.add_1_r, <- drop_drop, Hk.
Qed.

Lemma discard_new pos :
  0 ≤ pos_index pos → (pos_index pos = 0 → pos = LogPosition_zero) →
  ∀ St (s : St), LogMetadata_discard LogMetadata_new pos s =
    Done (mkLogMetadata [mkLogOffset pos 0] (mkLogOffset pos 0), s).
Proof.
  intros H0 Hz St s. destruct (decide (pos_index pos = 0)) as [E|E].
  - rewrite (Hz E). done.
  - apply LogMetadata_discard_past. cbn. lia.
Qed.

Lemma al_term_last a : al_wf a → is_Some (al_term a (al_last_index a)).
Proof.
  intros _. unfold al_term, al_lookup, al_last_index.
  destruct (_ =? _) eqn:E; b2p; [by eexists|]. destruct (_ <? _) eqn:E'; b2p; [|lia].
  destruct (lookup_lt_is_Some_2 (al_entries a)
    (Z.to_nat (pos_index (al_prev a) + Z.of_nat (length (al_entries a)) - pos_index (al_prev a) - 1)))
    as [x ->]; [lia|by eexists].
Qed.

Lemma range_entries log i :
  al_wf (log_view log) → pos_index (al_prev (log_view log)) ≤ i →
  let k := Z.to_nat (i - pos_index (al_prev (log_view log))) in
  range (i + 1) (al_last_index (log_view log) + 1) =
    seqZ (pos_index (al_prev (log_view log)) + Z.of_nat k + 1)
      (Z.of_nat (length (drop k (al_entries (log_view log))))).
Proof.
  intros _ Hi k. unfold range, al_last_index, k. rewrite length_drop.
  destruct (decide (i < pos_index (al_prev (log_view log)) + Z.of_nat (length (al_entries (log_view log))))).
  - f_equal; lia.
  - rewrite !seqZ_nil by lia. done.
Qed.

(** [new] does not panic on a well-formed log with a configuration snapshot
    that is not behind it, and starts a follower whose log metadata are
    exactly the offsets of the log. *)
Lemma ConsensusModule_new_spec {CP : ConfigPolicy} id meta snap log time n :
  0 < id → 0 ≤ current_term meta → log_startable log →
  pos_index (log_prev log) ≤ snap_last_applied snap < U64_MAX →
  snapshot_ok snap → id_ok (voted_for meta) → entries_ok (fst <$> al_entries (log_view log)) →
  twp (ConsensusModule_new id meta snap log time) (λ m n', drew n n' ∧ Inv m ∧
    cm_id m = id ∧ is_follower (cm_state m) = true ∧ cm_persisted_meta m = cm_meta m ∧
    meta_step meta (cm_meta m) ∧ (cm_meta m = meta ∨ voted_for (cm_meta m) = 0) ∧ commit_index (cm_meta m) = commit_index meta ∧
    all_offsets (cm_log_meta m) =
      mkLogOffset (log_prev log) 0 :: (entry_offset <$> al_entries (log_view log))) n.
Proof.
  intros Hid Hterm [Hok Hs Hz] Hsnap Hcfg Hvoted Hall. pose proof (log_ok_wf _ Hok) as Hal. pose proof Hal as (H0 & Hmax & _).
  unfold ConsensusModule_new. rewrite (log_prev_ok log) in *.
  set (prev := al_prev (log_view log)) in *. wp_step.
  eapply wpx_run; [by apply discard_new|]. wp_step.
  unfold al_last_index in Hmax. fold prev in Hmax.
  apply wpx_u64_add; [intros _|lia]. wp_step.
  eapply wpx_run; [by apply log_last_index_ok|]. wp_step.
  rewrite range_entries by (done || lia). fold prev. rewrite Z.sub_diag. cbn [Z.to_nat].
  eapply wpx_mono; [apply load_log_meta_spec; [done|done|split; cbn; [done|]|unfold prev; cbn; lia|done]|].
  { split; [done|]. by rewrite extrapolate_self. }
  intros lm ? (-> & Hwf & Hlm). wp_step. eapply wpx_run; [by apply log_term_ok|]. wp_step.
  destruct (al_term_last (log_view log)) as [t Et]; [by apply log_ok_wf|]. rewrite Et.
  eapply wpx_run; [done|]. wp_step. apply wpx_assert; [intros _|intros ?; b2p; lia]. wp_step.
  apply wpx_u64_add; [intros _|cbn; lia]. wp_step.
  apply wpx_u64_add; [intros _|unfold al_last_index; fold prev; lia]. wp_step. cbn [csm_last_applied CSM_from].
  rewrite range_entries by (done || (fold prev; lia)).
  eapply wpx_mono; [by apply load_config_spec|]. intros c ? [-> Hc]. wp_step.
  assert (cfg_ok c) as Hcok.
  { rewrite Hc. apply apply_all_ok; [done|]. rewrite fmap_drop. by apply Forall_drop. }
  wp_use new_follower_spec. intros st n' [Hd (to & -> & _)]. wp_step.
  assert (all_offsets lm = mkLogOffset prev 0 :: (entry_offset <$> al_entries (log_view log))) as Eall.
  { rewrite Hlm. unfold all_offsets. cbn. by rewrite Z.sub_diag, run_of_one. }
  split_and!; try done; cbn.
  - split; cbn; try done; [|by apply commit_ok|]; destruct (_ >? _) eqn:E; b2p; cbn; try lia; auto using id_zero.
  - destruct (_ >? _) eqn:E; b2p; [|done]. split; cbn; lia.
  - destruct (_ >? _); auto.
  - by destruct (_ >? _).
Qed.
End New.

Lemma MemoryLog_new_startable : log_startable MemoryLog_new.
Proof. by split. Qed.
