(* ===== verification/ConsensusCycle.v ===== *)
(** * [cycle] terminates

    [ConsensusModule::cycle] calls itself through [become_candidate],
    [become_follower], [become_leader]'s no-op and the promotion of a
    synchronized server. [rank] bounds the depth of these calls: it counts
    the role changes that are left and, in [pot], the promotions. *)

From S2P Require Import Prelude RaftProto ConfigState LogMetadata ConsensusState Consensus.
From S2P Require Import ConsensusInv.

(** ** The measure *)

Definition aspiring (c : Configuration) : nat :=
  length (filter (λ s, role s = ASPIRING) (servers c)).

(** How many indexes the configuration is ahead of the log. *)
Definition backlog (m : ConsensusModule) : nat :=
  Z.to_nat (csm_last_applied (cm_config m) - last_log_index m).

Definition pot (m : ConsensusModule) : nat :=
  (aspiring (csm_value (cm_config m)) + backlog m)%nat.

(** The leader has not outlived its lease. *)
Definition in_lease (lease time : Instant) : bool :=
  time <? lease + from_millis ELECTION_TIMEOUT.2.

(** The candidate's election is not over, and winning it gives a lease. *)
Definition fresh (s : ConsensusCandidateState) (time : Instant) : bool :=
  (duration_since time (cs_election_start s) <? cs_election_timeout s) &&
  match cs_main_vote_start s with Some t => in_lease t time | None => true end.

Definition rank (n : Node) : nat :=
  let m := node_cm n in
  let time := tick_time (node_tick n) in
  (match cm_state m with
   | Leader s => if in_lease (ls_lease_start s) time then 1 else 3
   | Candidate s => if fresh s time then 2 else 4
   | Follower _ => match cm_draining m with Some _ => 1 | None => 3 end
   end + pot m)%nat.

(** ** What the operations that do not recurse leave alone *)

Definition leader_lease (s : ConsensusState) : option Instant :=
  match s with Leader l => Some (ls_lease_start l) | _ => None end.

Record same_pot (n n' : Node) : Prop := mkSamePot {
  sf_time : tick_time (node_tick n') = tick_time (node_tick n);
  sf_value : csm_value (cm_config (node_cm n')) = csm_value (cm_config (node_cm n));
  sf_applied : csm_last_applied (cm_config (node_cm n')) = csm_last_applied (cm_config (node_cm n));
  sf_log : cm_log_meta (node_cm n') = cm_log_meta (node_cm n);
  sf_draining : bool_decide (is_Some (cm_draining (node_cm n'))) =
                bool_decide (is_Some (cm_draining (node_cm n)));
}.

#[export] Instance same_pot_preorder : PreOrder same_pot.
Proof. split; [by split|]. intros ??? [] []. split; congruence. Qed.

Lemma same_pot_pot n n' : same_pot n n' → pot (node_cm n') = pot (node_cm n).
Proof.
  intros [_ Hv Ha Hl _]. unfold pot, backlog, last_log_index. by rewrite Hv, Ha, Hl.
Qed.

Lemma drew_same_pot n n' : drew n n' → same_pot n n'.
Proof. by intros [k ->]. Qed.

Definition same_leader (n n' : Node) : Prop :=
  same_pot n n' ∧ leader_lease (cm_state (node_cm n')) = leader_lease (cm_state (node_cm n)).

#[export] Instance same_leader_preorder : PreOrder same_leader.
Proof. split; [by split|]. intros ??? [? E1] [? E2]. split; [by etrans|congruence]. Qed.

Section Frames.
Context (pf : Prop).
Implicit Types n : Node.

Lemma send_heartbeats_frame n : wpx True pf send_heartbeats (λ _ n', same_leader n n') n.
Proof.
  unfold send_heartbeats. wp_step. wp_get. wp_case; try by wp_step.
  wp_step. wp_get. wp_step. wp_step. wp_step. wp_use heartbeat_loop_pure.
  intros acc ? ->. wp_step. unfold set_state, modify_cm. wp_step. wp_step.
  destruct (ha_to_ids acc); unfold send, modify_tick; repeat wp_step; (split; [by split|cbn; by rewrite Heqc]).
Qed.

Lemma for_each_send_frame {K} (l : list (K * ConsensusMessage)) n :
  wpx True pf (for_each l (λ '(_, msg), send msg))
    (λ _ n', node_cm n' = node_cm n ∧ tick_time (node_tick n') = tick_time (node_tick n)) n.
Proof.
  apply (wpx_for_each _ _ _ (λ _ n', node_cm n' = node_cm n ∧
    tick_time (node_tick n') = tick_time (node_tick n))); [done| |done].
  intros [k x] l' n' [Hcm Ht]. unfold send, modify_tick. by wp_step.
Qed.

(** The draining state of the accumulator stays set or unset. *)
Definition acc_draining (d : option DrainingState) (acc : ReplicateAcc) : Prop :=
  bool_decide (is_Some (ra_draining acc)) = bool_decide (is_Some d).

Lemma append_message_draining m id prev last tn acc n :
  wpx True pf (append_message m id prev last tn acc) (λ r n', n' = n ∧
    ∀ req acc', r = Some (req, acc') → ra_draining acc' = ra_draining acc) n.
Proof.
  unfold append_message. repeat first [wp_step|wp_case]; (split; [done|]); by intros ?? [= <- <-].
Qed.

Lemma replicate_step_draining d m time id acc n :
  acc_draining d acc →
  wpx True pf (replicate_step m time id acc) (λ r n', n' = n ∧ acc_draining d r.2) n.
Proof.
  intros Ha. unfold replicate_step. wp_step.
  eapply wpx_mono with (Q := λ _ n', n' = n).
  { wp_case; [by wp_step|apply Progress_new_pure]. }
  intros p ? ->. wp_case; [|by wp_step]. wp_step. wp_step. wp_step. wp_step.
  set (acc1 := ra_set_follower id p acc).
  destruct (match fp_last_append_entries_sent p with Some t => _ | None => _ end)
    as [due acc2] eqn:Edue.
  assert (acc_draining d acc2) as Ha2.
  { repeat case_match; simplify_eq; done. }
  clear Edue. wp_case; [by wp_step|]. wp_case; [by wp_step|]. wp_step. wp_step. wp_step.
  eapply wpx_mono with (Q := λ acc' n', n' = n ∧ acc_draining d acc').
  { wp_case; [|by wp_step]. wp_step. wp_step. wp_step. split; [done|].
    unfold acc_draining in *. rewrite <- Ha2.
    match goal with H : ra_draining _ = Some _ |- _ => cbn in H; by rewrite H end. }
  intros acc3 ? [-> Ha3]. wp_step. wp_use append_message_draining.
  intros r ? [-> Hr]. destruct r as [[req acc4]|]; [|by wp_step].
  wp_step. wp_step. wp_step. split; [done|]. unfold acc_draining. cbn.
  by rewrite (Hr req acc4).
Qed.

Lemma replicate_loop_draining d fuel m time l acc n :
  acc_draining d acc →
  wpx True pf (replicate_loop fuel m time l acc) (λ acc' n', n' = n ∧ acc_draining d acc') n.
Proof.
  revert l acc. induction fuel as [|fuel IH]; intros [|s l] acc Ha; cbn [replicate_loop];
    try by wp_step.
  wp_case; [by apply IH|]. wp_step. wp_use replicate_step_draining; [done|].
  intros [stay acc'] ? [-> Ha']. by apply IH.
Qed.

Lemma replicate_entries_frame n : wpx True pf replicate_entries (λ _ n', same_leader n n') n.
Proof.
  unfold replicate_entries. wp_step. wp_get. wp_step.
  wp_use pick_timeout_now_drew. intros tn n1 Hd. wp_step. wp_get. wp_case; try by wp_step.
  wp_step. wp_use (replicate_loop_draining (cm_draining (node_cm n1))); [done|].
  intros acc ? [-> Ha]. wp_step. unfold modify_cm. wp_step. wp_step. wp_use for_each_send_frame.
  intros _ n2 [Hcm Ht]. wp_step.
  eapply wpx_mono with (Q := λ _ n', node_cm n' = node_cm n2 ∧
    tick_time (node_tick n') = tick_time (node_tick n2)).
  { wp_case; [by wp_step|]. wp_step. wp_use CSM_snapshot_pure. intros c ? ->.
    unfold send, modify_tick. by wp_step. }
  intros _ n3 [Hcm3 Ht3]. wp_step. destruct Hd as [k ->].
  split; [split|]; rewrite ?Hcm3, ?Hcm, ?Ht3, ?Ht; cbn in *; try done. by rewrite Heqc.
Qed.
End Frames.

Section Frames2.
Context (pf : Prop).
Implicit Types n : Node.

Lemma update_commited_frame ci n :
  wpx True pf (update_commited ci) (λ _ n', same_pot n n' ∧
    cm_state (node_cm n') = cm_state (node_cm n)) n.
Proof.
  unfold update_commited. wp_step. wp_get. wp_step. wp_step. wp_step.
  eapply wpx_mono with (Q := λ _ n', same_pot n n' ∧ cm_state (node_cm n') = cm_state (node_cm n) ∧
    cm_config (node_cm n') = cm_config (node_cm n)).
  { unfold modify_cm. repeat first [wp_step|wp_case]; by split_and!. }
  intros proceed n1 (H1 & Hs1 & Hc1). wp_case; [by wp_step|]. wp_step.
  eapply wpx_mono with (Q := λ _ n', same_pot n n' ∧ cm_state (node_cm n') = cm_state (node_cm n)).
  { wp_case; [|by wp_step]. unfold modify_cm, write_meta, modify_tick. repeat wp_step.
    destruct H1. by split. }
  intros _ n2 [H2 Hs2]. wp_step. wp_get. destruct (CSM_commit _ _) as [changed cfg] eqn:Ec.
  assert (csm_value cfg = csm_value (cm_config (node_cm n2)) ∧
          csm_last_applied cfg = csm_last_applied (cm_config (node_cm n2))) as [Ev Ea].
  { unfold CSM_commit in Ec. repeat case_match; by simplify_eq. }
  wp_step. unfold modify_cm. wp_step. destruct H2.
  destruct changed; unfold write_config, modify_tick; wp_step;
    (split; [split; cbn; congruence|done]).
Qed.

(** The lease is renewed, or not older than before. *)
Lemma find_next_lease_start_ge {St} m s now (st : St) :
  wpx True pf (find_next_lease_start m s now)
    (λ t s', s' = st ∧ (t = now ∨ ls_lease_start s ≤ t)) st.
Proof.
  unfold find_next_lease_start.
  repeat first [wp_step|wp_case]; b2p; (split; [done|]); (by left) || (right; lia).
Qed.

Lemma LogMetadata_append_last {St} lm off (s : St) :
  wpx True pf (LogMetadata_append lm off) (λ lm' s', s' = s ∧ last_offset lm' = off) s.
Proof.
  unfold LogMetadata_append. do 4 wp_step. wp_step.
  eapply wpx_mono with (Q := λ _ s', s' = s).
  { wp_case; [|by wp_step]. unfold LogMetadata_truncate. repeat wp_step; done. }
  intros lm1 ? ->. repeat first [wp_step|wp_case]; done.
Qed.
End Frames2.

(** ** Proposals *)

Lemma aspiring_apply_AddMember c id :
  server_role c id = ASPIRING →
  S (aspiring (Configuration_apply c (AddMember id))) = aspiring c.
Proof.
  unfold server_role, Configuration_server, aspiring. cbn [Configuration_apply server_mut servers].
  destruct c as [l]. cbn [servers]. induction l as [|s l IH]; cbn [find_server update_server]; [done|].
  destruct (server_id s =? id) eqn:E.
  - intros Hr. rewrite filter_cons_False by done. by rewrite filter_cons_True by done.
  - intros Hr. rewrite !filter_cons. destruct (decide (role s = ASPIRING)); cbn; auto.
Qed.

(** The configuration after an entry at index [i] is applied. *)
Definition applied (m m' : ConsensusModule) (e : LogEntry) : Prop :=
  cm_config m' = CSM_apply (cm_config m) e (commit_index (cm_meta m)) ∧
  last_log_index m' = pos_index (entry_pos e) ∧ pos_index (entry_pos e) = last_log_index m + 1.

(** An entry that is not a configuration change does not raise [pot]. *)
Lemma pot_apply_noop m m' e :
  (∀ c, entry_data e ≠ Config c) → applied m m' e → (pot m' <= pot m)%nat.
Proof.
  intros Hd (Hc & Hl & Hi). unfold pot, backlog. rewrite Hc, Hl. unfold CSM_apply.
  destruct (_ <? _) eqn:E; b2p; [lia|]. destruct (entry_data e) eqn:Ed; cbn; try lia.
  by destruct (Hd c).
Qed.

(** The promotion of an ASPIRING server lowers it. *)
Lemma pot_apply_promote m m' e id :
  entry_data e = Config (AddMember id) → server_role (csm_value (cm_config m)) id = ASPIRING →
  applied m m' e → (S (pot m') <= pot m)%nat.
Proof.
  intros Hd Hr (Hc & Hl & Hi). unfold pot, backlog. rewrite Hc, Hl. unfold CSM_apply. rewrite Hd.
  pose proof (aspiring_apply_AddMember _ _ Hr) as Ha.
  destruct (_ <? _) eqn:E; b2p; [lia|]. cbn [csm_value csm_last_applied]. lia.
Qed.

Lemma server_to_promote_Some c followers id :
  server_to_promote c followers = Some id → server_role c id = ASPIRING.
Proof.
  unfold server_to_promote.
  assert (∀ l best, (∀ i, best = Some i → server_role c i = ASPIRING) →
    ∀ i, foldl (λ best '(id, progress),
      if negb (role_eqb (server_role c id) ASPIRING) then best
      else if negb (is_follower_synchronized progress) then best
      else Some id) best l = Some i → server_role c i = ASPIRING) as Hfold.
  { induction l as [|[i p] l IH]; intros best Hb; cbn [foldl]; [done|].
    apply IH. intros j. destruct (role_eqb (server_role c i) ASPIRING) eqn:E; cbn [negb]; [|auto].
    destruct (negb _); [auto|]. intros [= <-]. by apply bool_decide_eq_true in E. }
  intros H. by apply (Hfold _ None) in H.
Qed.

(** ** The recursive operations *)

Definition good_cycle (f : nat) (c : M Node unit) : Prop :=
  ∀ n, (rank n <= f)%nat → fwp c (λ _ n', (rank n' <= rank n)%nat) n.

Section Rank.
Context (f : nat) (cycle : M Node unit) (Hcycle : good_cycle f cycle).
Implicit Types n : Node.

Lemma rank_leader n s :
  cm_state (node_cm n) = Leader s →
  rank n = ((if in_lease (ls_lease_start s) (tick_time (node_tick n)) then 1 else 3) + pot (node_cm n))%nat.
Proof. intros Hs. unfold rank. by rewrite Hs. Qed.

Lemma propose_config_change_frame n s c :
  cm_state (node_cm n) = Leader s →
  fwp (propose_config_change (node_cm n) s c) (λ _ n', node_tick n' = node_tick n ∧
    cm_config (node_cm n') = cm_config (node_cm n) ∧
    cm_meta (node_cm n') = cm_meta (node_cm n) ∧
    ∃ s', cm_state (node_cm n') = Leader s' ∧ ls_lease_start s' = ls_lease_start s) n.
Proof.
  intros Hs. unfold propose_config_change, set_state, modify_cm.
  wp_case; [repeat wp_step; split_and!; eauto|].
  destruct c; repeat first [wp_step|wp_case]; try (split_and!; eauto; fail);
    (wp_use Progress_new_pure; intros p ? ->; repeat wp_step; split_and!; eauto).
Qed.

(** A proposal by a leader calls [cycle] with a rank that is lower by as
    much as the entry lowers [pot]. *)
Lemma propose_entry_rank data n d r :
  (∀ m' e, entry_data e = data → applied (node_cm n) m' e → d + pot m' <= pot (node_cm n))%nat →
  (rank n <= d + r)%nat → (r <= f)%nat →
  fwp (propose_entry cycle data None) (λ res n', ∀ p, res = inr p → (rank n' <= r)%nat) n.
Proof.
  intros Hpot Hr Hf. unfold propose_entry. wp_step. wp_get.
  wp_case; [by wp_step|by wp_case; wp_step|]. rename s into ls, Heqc into Hs.
  wp_step. wp_step. wp_step. wp_step. wp_case; [by wp_step|].
  wp_step. wp_step. wp_step.
  eapply wpx_mono with (Q := λ _ n', node_tick n' = node_tick n ∧
    cm_config (node_cm n') = cm_config (node_cm n) ∧
    cm_meta (node_cm n') = cm_meta (node_cm n) ∧
    ∃ s', cm_state (node_cm n') = Leader s' ∧ ls_lease_start s' = ls_lease_start ls).
  { destruct data; repeat first [wp_step|wp_case]; try (split_and!; eauto; fail).
    by apply propose_config_change_frame. }
  intros [e|] n1 (Ht & Hc & Hm & ls' & Hs' & El); [by wp_step|].
  wp_step. unfold modify_cm. wp_step. wp_step.
  wp_use LogMetadata_append_last. intros lm ? [-> Hlast]. wp_step. wp_step. wp_step.
  unfold push_new_entry, modify_tick. wp_step. wp_step.
  match goal with |- wpx _ _ _ _ ?x => set (n2 := x) end.
  assert (rank n2 <= r)%nat as Hr2.
  { rewrite (rank_leader n2 ls' Hs'), El. rewrite (rank_leader n ls Hs) in Hr.
    assert (d + pot (node_cm n2) <= pot (node_cm n))%nat;
      [|cbn -[in_lease pot] in *; rewrite Ht; lia].
    apply (Hpot _ (mkLogEntry (mkLogPosition (current_term (cm_meta (node_cm n)))
      (last_log_index (node_cm n) + 1)) data)); [done|split_and!]; [| |done].
    - cbn. by rewrite Hc, Hm.
    - unfold last_log_index, LogMetadata_last. cbn. by rewrite Hlast. }
  eapply wpx_mono; [apply Hcycle; lia|]. intros [] n3 Hn3. wp_step. intros _ _. lia.
Qed.

(** A fresh candidate is two ranks above a leader with a lease. *)
Lemma become_candidate_rank la n r :
  (2 + pot (node_cm n) <= r)%nat → (r <= f)%nat →
  fwp (become_candidate cycle la) (λ _ n', (rank n' <= r)%nat) n.
Proof.
  intros Hr Hf. unfold become_candidate. wp_step. wp_get. wp_step. wp_step. wp_step.
  eapply wpx_mono with (Q := λ _ n', same_pot n n').
  { wp_case; [|by wp_step]. wp_step. wp_step. wp_step.
    unfold modify_cm, write_meta, modify_tick. by repeat wp_step. }
  intros _ n1 H1. wp_step. wp_step. wp_step. unfold modify_cm, set_state. wp_step.
  wp_step. wp_get. wp_step. wp_use new_election_timeout_spec. intros t n2 [Ht [k ->]].
  unfold modify_cm. wp_step. wp_step.
  match goal with |- wpx _ _ _ _ ?x => set (n3 := x) end.
  assert (rank n3 <= r)%nat as Hr3.
  { unfold rank. cbn -[pot fresh].
    replace (fresh _ _) with true; [change (pot _) with (pot (node_cm n1)); rewrite (same_pot_pot n n1) by done; lia|].
    unfold fresh, duration_since. cbn -[Z.max]. rewrite Z.sub_diag, andb_true_r.
    unfold from_millis in Ht. symmetry. apply Z.ltb_lt. lia. }
  wp_step. eapply wpx_mono with (Q := λ _ n', rank n' = rank n3).
  { wp_case; [by wp_step|]. unfold perform_election. wp_step. wp_get. cbn [node_cm cm_state n3].
    wp_case; try by wp_step. wp_case; [by wp_step|]. unfold send, modify_tick. by wp_step. }
  intros _ n4 H4. eapply wpx_mono; [apply Hcycle; lia|]. cbn beta. lia.
Qed.

Lemma rank_same_leader n n' :
  is_Some (leader_lease (cm_state (node_cm n))) → same_leader n n' → rank n' = rank n.
Proof.
  intros [t Ht] [Hp Hl]. unfold rank. rewrite (same_pot_pot _ _ Hp), (sf_time _ _ Hp).
  rewrite Ht in Hl.
  destruct (cm_state (node_cm n)) eqn:E, (cm_state (node_cm n')) eqn:E'; try done.
  cbn in *. assert (ls_lease_start s0 = ls_lease_start s) as -> by congruence. done.
Qed.

(** A server that is being drained does not start an election. *)
Lemma become_follower_rank n :
  is_Some (cm_draining (node_cm n)) → (1 + pot (node_cm n) <= f)%nat →
  fwp (become_follower cycle) (λ _ n', (rank n' <= 1 + pot (node_cm n))%nat) n.
Proof.
  intros [d Hd] Hf. unfold become_follower. wp_step. wp_get. wp_step. wp_use new_follower_spec.
  intros s n1 [[k ->] (t & -> & _)]. wp_step. unfold set_state, modify_cm. wp_step.
  match goal with |- wpx _ _ _ _ ?x => set (n2 := x) end.
  assert (rank n2 = 1 + pot (node_cm n))%nat as H2 by (unfold rank; cbn -[pot]; by rewrite Hd).
  eapply wpx_mono; [apply Hcycle; lia|]. cbn beta. lia.
Qed.

Lemma become_leader_rank t n r :
  ((if in_lease t (tick_time (node_tick n)) then 1 else 3) + pot (node_cm n) <= r)%nat →
  (r <= f)%nat →
  fwp (become_leader cycle t) (λ _ n', (rank n' <= r)%nat) n.
Proof.
  intros Hr Hf. unfold become_leader. wp_step. wp_get. wp_step. wp_use new_followers_pure.
  intros followers ? ->. wp_step.
  eapply wpx_mono with (Q := λ _ n', n' = n); [wp_case; repeat wp_step; done|].
  intros mri ? ->. wp_step. unfold set_state, modify_cm. wp_step. wp_step.
  match goal with |- wpx _ _ _ _ ?x => set (n1 := x) end.
  assert (rank n1 <= r)%nat as Hr1 by (rewrite (rank_leader n1 _ eq_refl); exact Hr).
  eapply wpx_mono with (Q := λ _ n', (rank n' <= r)%nat).
  { wp_case; [|by wp_step]. wp_step. unfold propose_noop.
    wp_use (propose_entry_rank _ n1 0); [|exact Hr1|done|].
    - intros m' e Hd. apply pot_apply_noop. by rewrite Hd.
    - intros [e|p] n2 Hn2; wp_step; [done|]. cbn [unwrap_result]. wp_step. wp_step. by eapply Hn2. }
  intros _ n2 Hr2. eapply wpx_mono; [apply Hcycle; lia|]. cbn beta. lia.
Qed.

Lemma cycle_follower_rank s n :
  cm_state (node_cm n) = Follower s → (rank n <= S f)%nat →
  fwp (cycle_follower cycle s) (λ _ n', (rank n' <= rank n)%nat) n.
Proof.
  intros Hs Hf. unfold cycle_follower. wp_step. wp_get. wp_step. wp_get.
  unfold rank in Hf. rewrite Hs in Hf. wp_case.
  - wp_step. wp_use new_follower_spec. intros st n1 [[k ->] (t & -> & _)].
    unfold set_state, modify_cm, set_next_tick, modify_tick. repeat wp_step.
    unfold rank. cbn -[pot]. by rewrite Hs.
  - b2p. destruct Heqb as [_ Hd]. apply bool_decide_eq_false in Hd.
    destruct (cm_draining (node_cm n)) eqn:Ed; [by destruct Hd|]. wp_case.
    + wp_use (become_candidate_rank _ _ (2 + pot (node_cm n))); [lia|lia|].
      cbn. intros _ n' Hn'. unfold rank at 2. rewrite Hs, Ed. lia.
    + unfold set_next_tick, modify_tick. repeat wp_step. done.
Qed.

Lemma cycle_candidate_rank s n :
  cm_state (node_cm n) = Candidate s → (rank n <= S f)%nat →
  fwp (cycle_candidate cycle s) (λ _ n', (rank n' <= rank n)%nat) n.
Proof.
  intros Hs Hf. unfold cycle_candidate. wp_step. wp_get. wp_step. wp_get.
  pose proof (eq_refl (rank n)) as Er. unfold rank at 1 in Er. rewrite Hs in Er.
  wp_case.
  { replace (fresh _ _) with false in Er.
    - wp_use (become_candidate_rank _ _ (2 + pot (node_cm n))); [lia|lia|]. cbn beta. lia.
    - unfold fresh. b2p. rewrite (proj2 (Z.ltb_ge _ _)) by done. done. }
  wp_step. wp_step. wp_step. unfold set_next_tick, modify_tick. wp_step. wp_step.
  match goal with |- wpx _ _ _ _ ?x => set (n1 := x) end.
  assert (rank n1 = rank n) as E1 by done.
  eapply wpx_mono with (Q := λ mvs n', (rank n' <= rank n)%nat ∧ ∀ t, mvs = Some t →
    (S ((if in_lease t (tick_time (node_tick n')) then 1 else 3) + pot (node_cm n')) <= rank n)%nat).
  - unfold fresh in Er. b2p. rewrite (proj2 (Z.ltb_lt _ _)) in Er by done. cbn [andb] in Er.
    wp_case; [|wp_case; [|by wp_step; split; [lia|]]].
    + wp_step. split; [lia|]. intros t [= <-]. rewrite <- Er.
      change (tick_time (node_tick n1)) with (tick_time (node_tick n)).
      change (pot (node_cm n1)) with (pot (node_cm n)). destruct (in_lease _ _); lia.
    + wp_step. unfold set_state, modify_cm. wp_step. wp_step.
      match goal with |- wpx _ _ _ _ ?x => set (n2 := x) end.
      assert (in_lease (tick_time (node_tick n)) (tick_time (node_tick n)) = true) as Hl.
      { unfold in_lease, from_millis. cbn [snd ELECTION_TIMEOUT]. apply Z.ltb_lt. lia. }
      assert (rank n2 = 2 + pot (node_cm n))%nat as E2.
      { unfold rank, fresh. cbn -[pot in_lease]. rewrite Hl, (proj2 (Z.ltb_lt _ _)) by done. done. }
      eapply wpx_mono with (Q := λ _ n', rank n' = rank n2 ∧ pot (node_cm n') = pot (node_cm n) ∧
        tick_time (node_tick n') = tick_time (node_tick n)).
      { unfold perform_election. wp_step. wp_get. wp_case; try by wp_step. wp_case; [by wp_step|].
        unfold send, modify_tick. by wp_step. }
      intros _ n3 (Hr3 & Hp3 & Ht3). wp_step. split; [lia|]. intros t [= <-].
      rewrite Ht3, Hl, Hp3. lia.
  - intros [t|] n2 [H2 Ht]; [|by wp_step]. wp_case; [|by wp_step].
    specialize (Ht t eq_refl). wp_use (become_leader_rank t n2 (pred (rank n))); [lia|lia|].
    cbn beta. lia.
Qed.

Lemma cycle_leader_tail_rank n :
  (rank n = 1 + pot (node_cm n))%nat → (rank n <= S f)%nat →
  fwp (cycle_leader_tail cycle) (λ _ n', (rank n' <= rank n)%nat) n.
Proof.
  intros Hr Hf. unfold cycle_leader_tail. wp_step. wp_get. wp_step. wp_get.
  generalize (tick_time (node_tick n)) at 1 2 as time. intros time.
  wp_case; try by wp_step. wp_step. unfold set_state, modify_cm. wp_step. wp_step.
  match goal with |- wpx _ _ _ _ ?x => set (n1 := x) end.
  assert (same_leader n n1) as H1 by (split; [by split|cbn; by rewrite Heqc]).
  wp_use send_heartbeats_frame. intros t1 n2 H2. wp_step.
  wp_use replicate_entries_frame. intros t2 n3 H3. wp_step. wp_get.
  assert (same_leader n n3) as HS by (etrans; [exact H1|by etrans]).
  assert (rank n3 = rank n) as Er3.
  { apply rank_same_leader; [|done]. rewrite Heqc. by eexists. }
  pose proof (same_pot_pot _ _ (proj1 HS)) as Ep3. wp_step.
  eapply wpx_mono with (Q := λ p n', n' = n3 ∧ ∀ id, p = Some id →
    server_role (csm_value (cm_config (node_cm n3))) id = ASPIRING).
  { repeat first [wp_step|wp_case]; first [exact I|split; [done|]]; try done.
    intros id. apply server_to_promote_Some. }
  intros [id|] ? [-> Hid].
  - wp_step. wp_use (propose_entry_rank _ n3 1 (pred (rank n))); [|lia|lia|].
    + intros m' e Hd Ha. eapply pot_apply_promote; eauto.
    + intros [e|p] n4 Hn4; wp_step; [done|]. cbn [unwrap_result]. wp_step. wp_step.
      specialize (Hn4 p eq_refl). lia.
  - unfold set_next_tick, modify_tick. wp_step. change (rank n3 <= rank n)%nat. lia.
Qed.

Lemma cycle_leader_rank s n :
  cm_state (node_cm n) = Leader s → (rank n <= S f)%nat →
  fwp (cycle_leader cycle s) (λ _ n', (rank n' <= rank n)%nat) n.
Proof.
  intros Hs Hf. unfold cycle_leader. wp_step. wp_get. wp_step. wp_get. wp_step. wp_step. wp_step.
  wp_use find_next_commit_index_pure. intros ci ? ->. wp_step.
  wp_use find_next_lease_start_ge. intros lease ? [-> Hlease]. wp_step.
  eapply wpx_mono with (Q := λ _ n', same_pot n n' ∧ cm_state (node_cm n') = cm_state (node_cm n)).
  { wp_case; [apply update_commited_frame|by wp_step]. }
  intros _ n1 [H1 Hs1]. rewrite Hs in Hs1. wp_step. unfold update_lease_start. wp_step. wp_get.
  rewrite Hs1. unfold set_state, modify_cm. wp_step.
  match goal with |- wpx _ _ _ _ ?x => set (n2 := x) end.
  assert (pot (node_cm n2) = pot (node_cm n)) as Ep by exact (same_pot_pot _ _ H1).
  pose proof (rank_leader n s Hs) as Er.
  pose proof (rank_leader n2 _ eq_refl) as Er2. cbn [ls_lease_start ls_set_lease_start] in Er2.
  change (tick_time (node_tick n2)) with (tick_time (node_tick n1)) in Er2.
  rewrite (sf_time _ _ H1), Ep in Er2. unfold in_lease in Er, Er2.
  wp_case; b2p.
  - rewrite (proj2 (Z.ltb_ge _ _)) in Er; [|destruct Hlease; [subst; unfold from_millis in *; cbn in *; lia|lia]].
    wp_step. wp_get. wp_case.
    + wp_use (become_follower_rank n2); [by eexists|lia|]. cbn beta. lia.
    + wp_use (become_candidate_rank _ n2 (2 + pot (node_cm n))); [lia|lia|]. cbn beta. lia.
  - rewrite (proj2 (Z.ltb_lt _ _)) in Er2 by done.
    wp_use (cycle_leader_tail_rank n2); [lia|destruct (_ <? _); lia|].
    cbn beta. destruct (_ <? _) in Er; lia.
Qed.

Lemma cycle_body_rank n :
  (rank n <= S f)%nat → fwp (cycle_body cycle) (λ _ n', (rank n' <= rank n)%nat) n.
Proof.
  intros Hf. unfold cycle_body. wp_step. wp_get. wp_case.
  - wp_step. wp_step. unfold set_next_tick, modify_tick. by wp_step.
  - wp_case; [by apply cycle_follower_rank|by apply cycle_candidate_rank|by apply cycle_leader_rank].
Qed.
End Rank.

Lemma cycle_rank fuel : good_cycle fuel (cycle fuel).
Proof.
  induction fuel as [|fuel IH]; intros n Hn.
  - unfold rank in Hn. repeat case_match; lia.
  - by apply (cycle_body_rank fuel).
Qed.

Lemma rank_le n : (rank n <= 4 + pot (node_cm n))%nat.
Proof. unfold rank. repeat case_match; lia. Qed.

Lemma cycle_fuel_enough n : (rank n <= cycle_fuel (node_cm n))%nat.
Proof.
  pose proof (rank_le n). unfold pot, backlog, cycle_fuel, servers_len, aspiring in *.
  pose proof (length_filter (λ s, role s = ASPIRING)
    (servers (csm_value (cm_config (node_cm n))))). lia.
Qed.

(** ** Enough fuel is enough *)

(** [a] computes the same as [b], or runs out of fuel. *)
Definition approx {A} (a b : M Node A) : Prop := ∀ n, a n = OutOfFuel ∨ a n = b n.

Lemma approx_refl {A} (a : M Node A) : approx a a.
Proof. by right. Qed.

Lemma approx_bind {A B} (a a' : M Node A) (k k' : A → M Node B) :
  approx a a' → (∀ x, approx (k x) (k' x)) → approx (bind a k) (bind a' k').
Proof.
  intros Ha Hk n. unfold bind. destruct (Ha n) as [->| ->]; [by left|].
  destruct (a' n) as [[x n']| |]; [apply Hk|by right|by right].
Qed.

Ltac approx_tac :=
  repeat first
    [ match goal with H : approx ?a ?b |- approx ?a ?b => exact H end
    | match goal with |- approx ?a ?a => apply approx_refl end
    | match goal with |- approx (bind _ _) _ => apply approx_bind; [|intros ?] end
    | match goal with |- approx (if ?b then _ else _) _ => destruct b end
    | match goal with |- approx (match ?x with _ => _ end) _ => destruct x end ].

Section Approx.
Context (c c' : M Node unit) (Hc : approx c c').

Lemma become_candidate_approx la : approx (become_candidate c la) (become_candidate c' la).
Proof. unfold become_candidate. approx_tac. Qed.

Lemma become_follower_approx : approx (become_follower c) (become_follower c').
Proof. unfold become_follower. approx_tac. Qed.

Lemma propose_entry_approx d r : approx (propose_entry c d r) (propose_entry c' d r).
Proof. unfold propose_entry. approx_tac. Qed.

Lemma become_leader_approx t : approx (become_leader c t) (become_leader c' t).
Proof. unfold become_leader, propose_noop. approx_tac. apply propose_entry_approx. Qed.

Lemma cycle_body_approx : approx (cycle_body c) (cycle_body c').
Proof.
  unfold cycle_body, cycle_follower, cycle_candidate, cycle_leader, cycle_leader_tail.
  approx_tac.
  all: first [apply become_candidate_approx|apply become_follower_approx
             |apply become_leader_approx|apply propose_entry_approx].
Qed.
End Approx.

Lemma cycle_approx f k : approx (cycle f) (cycle (f + k)).
Proof.
  induction f as [|f IH]; [by left|]. cbn [cycle Nat.add]. by apply cycle_body_approx.
Qed.

(** [cycle] ends, and with the result of any larger amount of fuel. *)
Lemma cycle_fuel_irrelevant n fuel :
  (cycle_fuel (node_cm n) <= fuel)%nat → cycle fuel n = run_cycle n ∧ run_cycle n ≠ OutOfFuel.
Proof.
  intros Hf. pose proof (cycle_rank (cycle_fuel (node_cm n)) n (cycle_fuel_enough n)) as Hw.
  change (run_cycle n) with (cycle (cycle_fuel (node_cm n)) n).
  replace fuel with (cycle_fuel (node_cm n) + (fuel - cycle_fuel (node_cm n)))%nat by lia.
  unfold wpx in Hw. destruct (cycle_approx (cycle_fuel (node_cm n)) (fuel - cycle_fuel (node_cm n)) n)
    as [E|E].
  - by rewrite E in Hw.
  - split; [done|]. intros Hn. by rewrite Hn in Hw.
Qed.
