(* ===== verification/ConsensusMachine.v ===== *)
(** * One server as a state machine

    The operations of [ConsensusModule] as the transitions of a server, the
    states reachable from [ConsensusModule::new], and what holds in all of
    them. An operation runs on a fresh [Tick] at any reading of the clock
    and with any random numbers; one that panics ends the run. *)

From stdpp Require Import relations.
From S2P Require Import Prelude RaftProto ConfigState LogMetadata ConsensusState Consensus.
From S2P Require Import RaftLog ConsensusInv ConsensusOps ConsensusCycle ConsensusNew.

(** ** Operations *)

Inductive Op :=
| OpCycle
| OpScheduleHeartbeat
| OpResetFollower (time : Instant)
| OpDrain
| OpPropose (data : LogEntryData) (read : option ReadIndex)
| OpLogFlushed (seq : LogSequence)
| OpLogDiscarded (prev : LogPosition)
| OpPersistedMetadata (meta : Metadata)
| OpRequestVote (req : RequestVoteRequest)
| OpRequestVoteCallback (from : ServerId) (id : RequestId) (pre : bool) (resp : RequestVoteResponse)
| OpAppendEntries (req : AppendEntriesRequest)
| OpAppendEntriesCallback (from : ServerId) (id : RequestId) (resp : AppendEntriesResponse)
| OpAppendEntriesNoresponse (from : ServerId) (id : RequestId)
| OpHeartbeat (req : HeartbeatRequest)
| OpHeartbeatCallback (from : ServerId) (id : RequestId) (resp : option HeartbeatResponse)
| OpInstallSnapshot (req : InstallSnapshotRequest)
| OpInstallSnapshotCallback (to : ServerId) (req : InstallSnapshotRequest)
    (resp : InstallSnapshotResponse) (last_applied : LogIndex)
| OpInstallSnapshotNoresponse (to : ServerId) (req : InstallSnapshotRequest).

Definition ignore {A} (m : M Node A) : M Node unit := m ;! ret tt.

Definition run_op (op : Op) : M Node unit :=
  match op with
  | OpCycle => run_cycle
  | OpScheduleHeartbeat => schedule_heartbeat
  | OpResetFollower time => reset_follower time
  | OpDrain => drain
  | OpPropose data read => ignore (propose_entry run_cycle data read)
  | OpLogFlushed seq => log_flushed seq
  | OpLogDiscarded prev => log_discarded prev
  | OpPersistedMetadata meta => persisted_metadata meta
  | OpRequestVote req => ignore (request_vote req)
  | OpRequestVoteCallback from id pre resp => request_vote_callback from id pre resp
  | OpAppendEntries req => ignore (append_entries req)
  | OpAppendEntriesCallback from id resp => append_entries_callback from id resp
  | OpAppendEntriesNoresponse from id => append_entries_noresponse from id
  | OpHeartbeat req => ignore (heartbeat req)
  | OpHeartbeatCallback from id resp => heartbeat_callback from id resp
  | OpInstallSnapshot req => ignore (install_snapshot req)
  | OpInstallSnapshotCallback to req resp last => install_snapshot_callback to req resp last
  | OpInstallSnapshotNoresponse to req => install_snapshot_noresponse to req
  end.

(** The log is discarded up to a position it holds (or held), or past its
    end when a snapshot is installed. *)
Definition op_pre (m : ConsensusModule) (op : Op) : Prop :=
  match op with
  | OpLogDiscarded prev =>
    0 ≤ pos_index prev ∧
    (pos_in m prev ∨ last_log_index m < pos_index prev ∨
     ∃ o, LogMetadata_prev (cm_log_meta m) = Some o ∧ pos_index prev ≤ off_index o)
  | _ => True
  end.

(** The arguments of an operation lead to allowed configurations. *)
Definition op_ok {CP : ConfigPolicy} (op : Op) : Prop :=
  match op with
  | OpPropose data _ => entry_ok data
  | OpRequestVote req => id_ok (rv_candidate_id req)
  | OpRequestVoteCallback _ _ _ resp => hint_ok resp
  | OpAppendEntries req => entries_ok (ae_entries req)
  | OpInstallSnapshot req => snapshot_ok (is_last_config req)
  | _ => True
  end.

Definition discards (op : Op) : bool :=
  match op with OpLogDiscarded _ => true | _ => false end.

(** The votes an operation reports. *)
Definition op_votes (op : Op) : Term → gset ServerId :=
  match op with
  | OpRequestVoteCallback from _ pre resp => votes_of from pre resp
  | _ => no_votes
  end.

(** The entries an operation may copy into the log. *)
Definition op_copies (op : Op) : LogEntry → Prop :=
  match op with
  | OpAppendEntries req => λ e, e ∈ ae_entries req
  | _ => no_copies
  end.

(** The metadata known to be durable while an operation runs. *)
Definition op_persisted (op : Op) (m : ConsensusModule) : ConsensusModule :=
  match op with
  | OpPersistedMetadata meta => cm_set_persisted_meta meta m
  | _ => m
  end.

Definition with_cm (m : ConsensusModule) (n : Node) : Node :=
  mkNode m (node_tick n) (node_rand n) (node_draws n).

(** What an operation does to the server and its tick. *)
Record op_effect {CP : ConfigPolicy} (op : Op) (n n' : Node) : Prop := mkOpEffect {
  oe_id : cm_id (node_cm n') = cm_id (node_cm n);
  oe_persisted : cm_persisted_meta (node_cm n') = cm_persisted_meta (op_persisted op (node_cm n));
  oe_meta : meta_step (cm_meta (node_cm n)) (cm_meta (node_cm n'));
  oe_written : cm_meta (node_cm n') = cm_meta (node_cm n) ∨ tick_meta (node_tick n') = true;
  oe_messages : ∃ k, tick_messages (node_tick n') = tick_messages (node_tick n) ++ k ∧
    Forall (sent_by (node_cm n')) k;
  oe_log : discards op = false →
    ∃ k, tick_new_entries (node_tick n') = tick_new_entries (node_tick n) ++ k ∧
      all_offsets (cm_log_meta (node_cm n')) =
        all_offsets (cm_log_meta (node_cm n)) ++ (offset_of <$> k) ∧
      Forall (made (op_votes op) (op_copies op) (with_cm (op_persisted op (node_cm n)) n)) k;
  oe_elect : elect (op_votes op) (with_cm (op_persisted op (node_cm n)) n) n';
}.

(** ** Every operation keeps the invariant *)

Lemma ignore_keeps {CP : ConfigPolicy} {A} (m : M Node A) : keeps m → keeps (ignore m).
Proof. intros Hm. apply keeps_bind; [done|]. intros _. apply keeps_ret. Qed.

Lemma StepX_effect {CP : ConfigPolicy} op n n' :
  op_persisted op (node_cm n) = node_cm n → StepX (op_votes op) (op_copies op) n n' → op_effect op n n'.
Proof.
  intros Hp HS. destruct n as [m t r d]. unfold with_cm. cbn in *. destruct HS.
  split; cbn in *; rewrite ?Hp; done.
Qed.

Lemma Keep_effect {CP : ConfigPolicy} op n n' :
  op_persisted op (node_cm n) = node_cm n → KeepC (op_copies op) n n' → op_effect op n n'.
Proof.
  intros Hp [_ HS]. apply StepX_effect; [done|]. eapply StepX_ext; [|done|exact HS].
  intros t. apply empty_subseteq.
Qed.

(** The operation is another one on a module that differs in bookkeeping. *)
Lemma StepX_effect_from {CP : ConfigPolicy} op n n1 n' :
  op_votes op = no_votes → op_copies op = no_copies →
  same_voter (node_cm n1) (op_persisted op (node_cm n)) →
  cm_log_meta (node_cm n1) = cm_log_meta (node_cm n) → node_tick n1 = node_tick n →
  Step n1 n' → op_effect op n n'.
Proof.
  intros Ev Ec Hs El Et [H1 H2 H3 H4 H5 H6 H7 H8 H9 H10 H11]. pose proof Hs as (E1 & E2 & E3 & E4).
  assert (cm_id (op_persisted op (node_cm n)) = cm_id (node_cm n)) as Eid by by destruct op.
  assert (cm_meta (op_persisted op (node_cm n)) = cm_meta (node_cm n)) as Em by by destruct op.
  rewrite E1, Eid in H1. rewrite E3, Em in H5, H6. rewrite Et in *. rewrite El in H9.
  split; try done; try congruence.
  - intros _. destruct H9 as (k & ? & ? & Hk). exists k. split_and!; try done.
    rewrite Ev, Ec. eapply Forall_impl; [exact Hk|]. intros e. by apply made_ext.
  - rewrite Ev. by eapply elect_ext; [|exact H11].
Qed.

Lemma log_flushed_spec {CP : ConfigPolicy} seq n :
  Inv (node_cm n) →
  wp (log_flushed seq) (λ _ n', Inv (node_cm n') ∧ op_effect (OpLogFlushed seq) n n') n.
Proof.
  intros HI. unfold log_flushed. wp_step. wp_get. wp_step. wp_step. wp_step. unfold modify_cm. wp_step.
  wp_use run_cycle_keeps; [eapply Inv_set; [..|exact HI]; try done; [apply HI|reads_tac]|].
  intros _ n' [HI' HS]. split; [done|]. by eapply StepX_effect_from; [..|exact HS].
Qed.

Lemma persisted_metadata_spec {CP : ConfigPolicy} meta n :
  Inv (node_cm n) →
  wp (persisted_metadata meta) (λ _ n', Inv (node_cm n') ∧ op_effect (OpPersistedMetadata meta) n n') n.
Proof.
  intros HI. unfold persisted_metadata. wp_step. unfold modify_cm. wp_step.
  wp_use run_cycle_keeps; [eapply Inv_set; [..|exact HI]; try done; [apply HI|reads_tac]|].
  intros _ n' [HI' HS]. split; [done|]. by eapply StepX_effect_from; [..|exact HS].
Qed.

Lemma LogMetadata_discard_wf {CP : ConfigPolicy} m prev {St} (s : St) :
  Inv m → op_pre m (OpLogDiscarded prev) →
  twp (LogMetadata_discard (cm_log_meta m) prev) (λ lm s', s' = s ∧ LogMetadata_wf lm ∧
    tail (all_offsets lm) ⊆ tail (all_offsets (cm_log_meta m))) s.
Proof.
  intros HI [H0 Hpos]. pose proof (inv_log _ HI) as Hwf. set (lm := cm_log_meta m) in *.
  pose proof Hwf as (o & l & Eo & Hp & Hp0 & Hc)%LogMetadata_prev_spec.
  destruct (decide (off_index (last_offset lm) < pos_index prev)).
  { eapply wpx_run; [by apply LogMetadata_discard_past|]. split; [done|]. split.
    - split; cbn; [done|]. split; [done|]. by rewrite extrapolate_self.
    - unfold all_offsets at 1. cbn. rewrite Z.sub_diag. set_solver. }
  destruct (decide (pos_index prev ≤ off_index o)).
  { eapply wpx_run; [by eapply LogMetadata_discard_old|]. done. }
  destruct Hpos as [(e & He & <-)|[Hlt|(o' & Ho' & ?)]].
  - destruct (LogMetadata_discard_mid lm o e Hwf Hp) as (lm' & Hd & Hwf' & _ & _ & Ha);
      [lia|by apply LogMetadata_lookup_elem|].
    eapply wpx_run; [apply Hd|]. split_and!; [done..|]. rewrite Ha.
    assert (∀ l' : list LogOffset, tail l' = drop 1 l') as Et by by intros [].
    rewrite !Et, drop_drop, Nat.add_comm, <- drop_drop. apply subseteq_drop.
  - by destruct n.
  - assert (o' = o) as -> by congruence. lia.
Qed.

Lemma log_discarded_spec {CP : ConfigPolicy} prev n :
  Inv (node_cm n) → op_pre (node_cm n) (OpLogDiscarded prev) →
  wp (log_discarded prev) (λ _ n', Inv (node_cm n') ∧ op_effect (OpLogDiscarded prev) n n') n.
Proof.
  intros HI Hpre. unfold log_discarded. wp_step. wp_get. wp_step.
  eapply wpx_weaken; [..|eapply wpx_mono; [by apply LogMetadata_discard_wf|]]; [done..|].
  intros lm ? (-> & Hwf & Htail). wp_step. unfold modify_cm, set_state. wp_step.
  assert (∀ st, (is_follower st = false → is_follower (cm_state (node_cm n)) = false) →
    same_reads (node_cm n) (cm_set_state st (node_cm n)) → Inv (cm_set_state st (cm_set_log_meta lm (node_cm n)))) as Hst.
  { intros st Hf Hr. destruct HI. split; cbn; auto. intros s' o Hs Ho Ht.
    destruct (Hr s' Hs) as (s & Hs' & <-). apply (inv_reads s); auto. }
  assert (∀ st, st = cm_state (node_cm n) ∨
      (is_leader (cm_state (node_cm n)) = true ∧ is_leader st = true) →
    op_effect (OpLogDiscarded prev) n (mkNode (cm_set_state st (cm_set_log_meta lm (node_cm n))) (node_tick n)
       (node_rand n) (node_draws n))) as Heff.
  { intros st Hst'. split; cbn; try done; [by left|exists []; by rewrite app_nil_r|].
    destruct Hst' as [->|[? ?]]; [by apply elect_same|by apply elect_leader]. }
  assert (cm_set_log_meta lm (node_cm n) =
          cm_set_state (cm_state (node_cm n)) (cm_set_log_meta lm (node_cm n))) as Eid.
  { by destruct (node_cm n). }
  wp_case; try (wp_step; rewrite Eid; split; [apply Hst; [done|reads_tac]|apply Heff; auto]).
  wp_case; [|wp_step; rewrite Eid; split; [apply Hst; [done|reads_tac]|apply Heff; auto]].
  unfold modify_cm. repeat wp_step. split; [apply Hst; [done|reads_tac]|apply Heff; auto].
Qed.

(** Every operation that is allowed in a state with the invariant keeps it. *)
Lemma run_op_spec {CP : ConfigPolicy} op n :
  Inv (node_cm n) → op_pre (node_cm n) op → op_ok op →
  wp (run_op op) (λ _ n', Inv (node_cm n') ∧ op_effect op n n') n.
Proof.
  intros HI Hpre Hok.
  assert (op_persisted op (node_cm n) = node_cm n → ∀ m : M Node unit, keeps m →
    wp m (λ _ n', Inv (node_cm n') ∧ op_effect op n n') n) as Hk.
  { intros Hp m Hm. wp_use Hm; [done|]. intros _ n' HK. split; [apply HK|by apply Keep_effect, Keep_KeepC]. }
  destruct op; cbn [run_op];
    try (by apply log_flushed_spec); try (by apply log_discarded_spec);
    try (by apply persisted_metadata_spec);
    try (unfold ignore; wp_step; wp_use append_entries_copies; [done..|]; intros ? n' Hn'%append_path_Keep;
         wp_step; split; [apply Hn'|by apply Keep_effect]);
    try (wp_use request_vote_callback_spec; [done..|]; intros _ n' [? ?]; split; [done|by apply StepX_effect]);
    (apply Hk; [done|]); try apply ignore_keeps;
    auto using run_cycle_keeps, schedule_heartbeat_keeps, reset_follower_keeps, drain_keeps,
      propose_entry_keeps, request_vote_keeps,
      append_entries_callback_keeps, append_entries_noresponse_keeps, heartbeat_keeps,
      heartbeat_callback_keeps, install_snapshot_keeps, install_snapshot_noresponse_keeps.
  apply install_snapshot_callback_impl_keeps.
Qed.

(** ** Every operation ends *)

Definition ends {A} (m : M Node A) : Prop := ∀ n, m n ≠ OutOfFuel.

Lemma ends_bind {A B} (m : M Node A) (k : A → M Node B) :
  ends m → (∀ a, ends (k a)) → ends (bind m k).
Proof.
  intros Hm Hk n. unfold bind. specialize (Hm n). destruct (m n) as [[a n']| |]; [apply Hk|done|done].
Qed.

Lemma ends_wp {A} (m : M Node A) Q : (∀ n, wpx True False m (Q n) n) → ends m.
Proof. intros H n E. specialize (H n). unfold wpx in H. by rewrite E in H. Qed.

Lemma run_cycle_ends : ends run_cycle.
Proof. intros n. by eapply cycle_fuel_irrelevant. Qed.

Lemma new_follower_ends t : ends (new_follower t).
Proof. eapply ends_wp. intros n. apply new_follower_spec. Qed.

Lemma new_election_timeout_ends : ends new_election_timeout.
Proof. eapply ends_wp. intros n. apply new_election_timeout_spec. Qed.

Lemma ends_pure {A} (m : M Node A) : (∀ n, wpx True False m (λ _ n', n' = n) n) → ends m.
Proof. apply ends_wp. Qed.

(** Everything but the loops is a composition of steps that end. *)
Ltac ends_tac :=
  repeat first
    [ apply run_cycle_ends
    | apply new_follower_ends
    | apply new_election_timeout_ends
    | match goal with |- ends (bind _ _) => apply ends_bind; [|intros ?] end
    | match goal with |- ends (if ?b then _ else _) => destruct b end
    | match goal with |- ends (match ?x with _ => _ end) => destruct x end
    | (intros ?n; done)
    | (intros ?n; unfold unwrap, assert, u64_add, u64_sub; by case_match)
    | match goal with |- ends (Progress_new _) =>
        apply ends_pure; intros ?; apply Progress_new_pure end
    | match goal with |- ends (CSM_snapshot _) =>
        apply ends_pure; intros ?; apply CSM_snapshot_pure end
    | match goal with |- ends (CSM_revert _ _) =>
        apply ends_pure; intros ?; apply CSM_revert_pure end
    | match goal with |- ends (LogMetadata_append _ _) =>
        eapply ends_wp; intros ?; apply LogMetadata_append_last end
    | match goal with |- ends (check_entries _) =>
        eapply ends_wp; intros ?; apply check_entries_spec end
    | match goal with |- ends (append_response_progress _ _ _ _ _) =>
        apply ends_pure; intros ?; apply append_response_progress_pure end
    | match goal with |- ends (pre_vote _ _ _) =>
        eapply ends_wp; intros ?; by apply pre_vote_spec end
    | match goal with |- ends (update_commited _) =>
        eapply ends_wp; intros ?; apply update_commited_frame end ].

Lemma become_follower_ends : ends (become_follower run_cycle).
Proof. unfold become_follower. ends_tac. Qed.

Lemma become_candidate_ends la : ends (become_candidate run_cycle la).
Proof. unfold become_candidate, perform_election. ends_tac. Qed.

Lemma observe_term_ends t : ends (observe_term run_cycle t).
Proof. unfold observe_term. ends_tac. apply become_follower_ends. Qed.

Lemma propose_entry_ends d r : ends (propose_entry run_cycle d r).
Proof. unfold propose_entry, propose_config_change. ends_tac. Qed.

Lemma find_first_new_ends l k : ends (find_first_new l k).
Proof.
  revert k. induction l as [|e l IH]; intros k; cbn [find_first_new]; ends_tac. apply IH.
Qed.

Lemma append_new_entries_ends l s b : ends (append_new_entries l s b).
Proof.
  revert s b. induction l as [|e l IH]; intros s b; cbn [append_new_entries]; ends_tac; apply IH.
Qed.

Lemma append_entries_ends req : ends (append_entries req).
Proof.
  unfold append_entries, candidate_steps_down, follow_leader, append_entries_to_log, append_and_commit.
  ends_tac; auto using observe_term_ends, become_follower_ends, find_first_new_ends,
    append_new_entries_ends, become_candidate_ends.
Qed.

Lemma LogMetadata_discard_ends lm p : ends (LogMetadata_discard lm p).
Proof. unfold LogMetadata_discard. ends_tac. Qed.

Lemma run_op_ends op : ends (run_op op).
Proof.
  destruct op; cbn [run_op ignore];
    unfold ignore, schedule_heartbeat, reset_follower, drain, log_flushed, log_discarded,
      persisted_metadata, request_vote, request_vote_callback, observe_last_config_hint,
      append_entries_callback, append_entries_noresponse, heartbeat, candidate_steps_down,
      follow_leader, heartbeat_callback, install_snapshot, install_snapshot_noresponse,
      install_snapshot_callback, install_snapshot_callback_impl, propose_noop, unwrap_result;
    ends_tac; auto using observe_term_ends, become_follower_ends, propose_entry_ends,
      append_entries_ends, LogMetadata_discard_ends.
Qed.

(** ** Runs of a server *)

Inductive server_step (m : ConsensusModule) (op : Op) : Tick → ConsensusModule → Prop :=
| server_step_run now rand n' :
    op_pre m op →
    run_op op (mkNode m (Tick_empty now) rand 0) = Done (tt, n') →
    server_step m op (node_tick n') (node_cm n').

Definition server_moves (m m' : ConsensusModule) : Prop := ∃ op t, server_step m op t m'.

(** A module as [new] builds it from a log in memory. *)
Inductive started : ConsensusModule → Prop :=
| started_new id meta snap (log : MemoryLogSync) time n m n' :
    0 < id → 0 ≤ current_term meta → log_startable log →
    pos_index (log_prev log) ≤ snap_last_applied snap < U64_MAX →
    ConsensusModule_new id meta snap log time n = Done (m, n') →
    started m.

Definition reachable (m : ConsensusModule) : Prop := ∃ m0, started m0 ∧ rtc server_moves m0 m.

Lemma server_step_effect {CP : ConfigPolicy} m op t m' :
  Inv m → op_ok op → server_step m op t m' →
  Inv m' ∧ ∃ n n', node_cm n = m ∧ tick_new_entries (node_tick n) = [] ∧
    tick_messages (node_tick n) = [] ∧ node_cm n' = m' ∧ node_tick n' = t ∧ op_effect op n n'.
Proof.
  intros HI Hok [now rand n' Hpre Hrun].
  pose proof (wpx_done _ _ _ _ _ _ _ (run_op_spec op (mkNode m (Tick_empty now) rand 0) HI Hpre Hok) Hrun)
    as [HI' He].
  split; [done|]. by exists (mkNode m (Tick_empty now) rand 0), n'.
Qed.

Lemma entries_ok_any l : entries_ok l.
Proof. by apply Forall_true. Qed.

Lemma op_ok_any op : op_ok op.
Proof. destruct op; try done. apply entries_ok_any. Qed.

Lemma started_Inv m : started m → Inv m.
Proof.
  intros [id meta snap log time n m' n' Hid Ht Hlog Hsnap Hnew].
  pose proof (wpx_done _ _ _ _ _ _ _ (ConsensusModule_new_spec _ _ _ _ time n Hid Ht Hlog Hsnap I I (entries_ok_any _)) Hnew)
    as (_ & HI & _). done.
Qed.

Lemma moves_Inv m m' : Inv m → rtc server_moves m m' → Inv m'.
Proof.
  intros HI Hr. induction Hr as [|m1 m2 m3 (op & t & Hs) _ IH]; [done|].
  by apply IH, (server_step_effect _ _ _ _ HI (op_ok_any op) Hs).
Qed.

Lemma reachable_inv m : reachable m → Inv m.
Proof. intros (m0 & H0 & Hr). by eapply moves_Inv; [apply started_Inv|]. Qed.

Lemma moves_meta m m' : Inv m → rtc server_moves m m' → meta_step (cm_meta m) (cm_meta m').
Proof.
  intros HI Hr. induction Hr as [|m1 m2 m3 (op & t & Hs) _ IH]; [done|].
  destruct (server_step_effect _ _ _ _ HI (op_ok_any op) Hs) as (HI2 & n & n' & <- & _ & _ & <- & _ & He).
  etrans; [apply He|auto].
Qed.
