(* ===== verification/ConsensusCommit.v ===== *)
(** * What the leader commits, and its lease

    [find_next_commit_index] picks the largest index that a quorum of the
    voting members has, [find_next_lease_start] the latest instant after
    which a quorum answered; both by sorting and taking one element. *)

From stdpp Require Import sorting.
From S2P Require Import Prelude RaftProto ConfigState LogMetadata ConsensusState Consensus.

(** ** The element a majority reaches *)

#[local] Instance Zge_trans : Transitive (λ a b : Z, b ≤ a).
Proof. intros a b c. lia. Qed.
#[local] Instance Zge_total : Total (λ a b : Z, b ≤ a).
Proof. intros a b. lia. Qed.

(** How many elements are at least [x]. *)
Definition count_ge (x : Z) (l : list Z) : nat := length (filter (λ y, x ≤ y) l).

Lemma multiset_ge x y (l : list Z) :
  y ≤ x → filter (λ z, x ≤ z) l ⊆+ filter (λ z, y ≤ z) l.
Proof.
  intros Hle. induction l as [|z l IH]; [done|]. rewrite !filter_cons.
  destruct (decide (x ≤ z)), (decide (y ≤ z)); try lia; [by apply submseteq_skip|by apply submseteq_cons|done].
Qed.

Lemma sorted_desc_nth (l : list Z) k x :
  StronglySorted (λ a b, b ≤ a) l → l !! k = Some x →
  (k < count_ge x l)%nat ∧
  ∀ y, x < y → (count_ge y l <= k)%nat.
Proof.
  unfold count_ge. intros Hs. revert k. induction Hs as [|a l Hs IH Ha]; intros k Hk; [done|].
  rewrite Forall_forall in Ha. destruct k as [|k]; cbn in Hk.
  - simplify_eq. split; [rewrite filter_cons_True by lia; cbn; lia|].
    intros y Hy. rewrite filter_cons_False by lia.
    destruct (filter (λ z, y ≤ z) l) as [|z zs] eqn:E; [done|].
    assert (z ∈ filter (λ z, y ≤ z) l) as [Hz Hl]%list_elem_of_filter by (rewrite E; by constructor).
    specialize (Ha z Hl). lia.
  - destruct (IH k Hk) as [H1 H2]. assert (x ≤ a) by (apply Ha; by eapply list_elem_of_lookup_2).
    split; [rewrite filter_cons_True by done; cbn; lia|].
    intros y Hy. specialize (H2 y Hy). pose proof (filter_cons (λ z, y ≤ z) a l) as E.
    destruct (decide (y ≤ a)); rewrite E; cbn; lia.
Qed.

Lemma sort_desc_nth (l : list Z) k x :
  sort_desc l !! k = Some x →
  (k < count_ge x l)%nat ∧
  ∀ y, x < y → (count_ge y l <= k)%nat.
Proof.
  intros Hk. assert (sort_desc l ≡ₚ l) as HP by apply merge_sort_Permutation.
  destruct (sorted_desc_nth _ k x (StronglySorted_merge_sort _ l) Hk) as [H1 H2].
  unfold count_ge in *. split; [by rewrite <- HP|]. intros y. rewrite <- HP. apply H2.
Qed.

Lemma index_at_Some {A} (l : list A) i x :
  index_at l i = Some x → 0 ≤ i ∧ l !! Z.to_nat i = Some x.
Proof. unfold index_at. case_match; [|done]. b2p. intros. split; [lia|done]. Qed.

(** ** Commit index *)

(** The voting members that are known to hold the log up to [i]. *)
Definition acked (m : ConsensusModule) (s : ConsensusLeaderState) (i : LogIndex) : list ServerId :=
  server_id <$> filter (λ srv,
    match match_index_of m s srv with Some j => i <=? j | None => false end = true)
    (servers (csm_value (cm_config m))).

Lemma length_acked m s i :
  length (acked m s i) = count_ge i (match_indexes m s).
Proof.
  unfold count_ge, acked, match_indexes. rewrite length_fmap.
  induction (servers (csm_value (cm_config m))) as [|srv l IH]; [done|].
  rewrite filter_cons. cbn [omap list_omap]. destruct (match_index_of m s srv) as [j|].
  - pose proof (filter_cons (λ j, i ≤ j) j (omap (match_index_of m s) l)) as E. rewrite E. clear E.
    destruct (decide (i ≤ j)), (decide (_ = true)); b2p; cbn; (lia || done).
  - destruct (decide (_ = true)); [done|]. exact IH.
Qed.

Lemma acked_members m s i x :
  x ∈ acked m s i → x ∈ members (csm_value (cm_config m)).
Proof.
  intros (srv & -> & [Hm Hs]%list_elem_of_filter)%list_elem_of_fmap.
  apply list_elem_of_fmap_2, list_elem_of_filter. split; [|done].
  unfold match_index_of, is_member in *. by destruct (role_eqb (role srv) MEMBER).
Qed.

Lemma acked_NoDup m s i : Configuration_wf (csm_value (cm_config m)) → NoDup (acked m s i).
Proof.
  unfold Configuration_wf, ids, acked. intros Hnd.
  eapply sublist_NoDup; [exact Hnd|]. apply fmap_sublist, sublist_filter.
Qed.

Lemma acked_quorum m s i :
  Configuration_wf (csm_value (cm_config m)) →
  quorum (csm_value (cm_config m)) (acked m s i) ↔
  majority_size (csm_value (cm_config m)) ≤ Z.of_nat (length (acked m s i)).
Proof.
  intros Hwf. split; [by intros (_ & _ & ?)|]. intros Hlen. split_and!; [|apply acked_members|done].
  by apply acked_NoDup.
Qed.

Lemma majority_size_pos c : 1 ≤ majority_size c.
Proof.
  rewrite majority_size_members. destruct (_ =? 0); [done|]. Z.div_mod_to_equations. lia.
Qed.

(** The element at position [majority - 1] is the largest index a quorum has. *)
Lemma majority_index m s c :
  Configuration_wf (csm_value (cm_config m)) →
  index_at (sort_desc (match_indexes m s)) (majority_size (csm_value (cm_config m)) - 1) = Some c →
  ∀ j, quorum (csm_value (cm_config m)) (acked m s j) ↔ j ≤ c.
Proof.
  intros Hwf [H0 [H1 H2]%sort_desc_nth]%index_at_Some j. rewrite acked_quorum, length_acked by done.
  split; intros Hj.
  - destruct (decide (j ≤ c)); [done|]. specialize (H2 j). lia.
  - assert (count_ge c (match_indexes m s) <= count_ge j (match_indexes m s))%nat; [|lia].
    unfold count_ge. apply submseteq_length, multiset_ge. lia.
Qed.

(** An index is chosen exactly when it is new and of the current term, and
    is the largest index a quorum of the voting members holds. *)
Lemma find_next_commit_index_spec m s {St} (st : St) i :
  Configuration_wf (csm_value (cm_config m)) →
  find_next_commit_index m s st = Done (Some i, st) ↔
  last_log_index m ≠ commit_index (cm_meta m) ∧ commit_index (cm_meta m) < i ∧
  (∃ off, LogMetadata_lookup (cm_log_meta m) i = Some off ∧
     off_term off = current_term (cm_meta m)) ∧
  (∀ j, quorum (csm_value (cm_config m)) (acked m s j) ↔ j ≤ i).
Proof.
  intros Hwf. unfold find_next_commit_index. destruct (_ =? commit_index _) eqn:E0; b2p.
  { split; [done|by intros (? & _)]. }
  set (pick := index_at _ _). assert (∀ c, pick = Some c →
    ∀ j, quorum (csm_value (cm_config m)) (acked m s j) ↔ j ≤ c) as Hpick by by intros; eapply majority_index.
  unfold bind. destruct pick as [c|] eqn:Ei; cbn [unwrap ret].
  - specialize (Hpick c eq_refl). split.
    + destruct (c <=? _) eqn:Ec; [done|]. destruct (LogMetadata_lookup _ c) as [off|] eqn:El; [|done].
      destruct (_ =? _) eqn:Et; [|done]. cbn [negb]. intros [= <-]. b2p.
      split_and!; eauto.
    + intros (_ & Hi & (off & El & Et) & Hq). assert (c = i) as ->.
      { pose proof (proj1 (Hq c) (proj2 (Hpick c) (Z.le_refl _))).
        pose proof (proj1 (Hpick i) (proj2 (Hq i) (Z.le_refl _))). lia. }
      destruct (i <=? _) eqn:Ec; b2p; [lia|]. rewrite El, Et, Z.eqb_refl. done.
  - split; [done|]. intros (_ & _ & _ & Hq). exfalso.
    pose proof (proj2 (Hq i) (Z.le_refl _)) as Hi. rewrite acked_quorum, length_acked in Hi by done.
    pose proof (majority_size_pos (csm_value (cm_config m))).
    unfold pick, index_at in Ei. unfold count_ge in Hi.
    assert (length (sort_desc (match_indexes m s)) = length (match_indexes m s)) as El
      by (apply Permutation_length, merge_sort_Permutation).
    pose proof (length_filter (λ y, i ≤ y) (match_indexes m s)).
    destruct (_ && _) eqn:E in Ei; b2p; [apply lookup_ge_None in Ei; lia|lia].
Qed.

(** ** Lease *)

Definition lease_after (m : ConsensusModule) (t : Instant)
    (kv : ServerId * ConsensusFollowerProgress) : bool :=
  role_eqb (server_role (csm_value (cm_config m)) kv.1) MEMBER &&
  match fp_lease_start kv.2 with Some t' => t <=? t' | None => false end.

(** The voting members that answered a request sent at [t] or later, the
    leader included. *)
Definition leased (m : ConsensusModule) (s : ConsensusLeaderState) (t : Instant) : list ServerId :=
  (if role_eqb (my_role m) MEMBER then [cm_id m] else []) ++
  (filter (λ kv, lease_after m t kv = true) (map_to_list (ls_followers s))).*1.

Lemma length_leased_followers m s t :
  length (filter (λ kv, lease_after m t kv = true) (map_to_list (ls_followers s))).*1 =
  count_ge t (lease_start_times m s).
Proof.
  unfold count_ge, lease_start_times. rewrite length_fmap.
  induction (map_to_list (ls_followers s)) as [|[id p] l IH]; [done|].
  rewrite filter_cons. cbn [omap list_omap].
  destruct (decide (lease_after m t (id, p) = true)) as [Hd|Hd]; unfold lease_after in Hd; cbn [fst snd] in Hd;
    destruct (role_eqb _ MEMBER); cbn [negb andb] in *; try done;
    destruct (fp_lease_start p) as [t'|]; try done; b2p.
  - rewrite filter_cons_True by done. cbn. lia.
  - rewrite filter_cons_False by (intros ?; apply Hd; by apply Z.leb_le). done.
Qed.

Lemma leased_NoDup m s t : ls_followers s !! cm_id m = None → NoDup (leased m s t).
Proof.
  intros Hself. unfold leased.
  set (l := (filter (λ kv, lease_after m t kv = true) (map_to_list (ls_followers s))).*1).
  assert (NoDup l) as Hl.
  { eapply sublist_NoDup; [apply (NoDup_fst_map_to_list (ls_followers s))|].
    apply fmap_sublist, sublist_filter. }
  destruct (role_eqb _ _); [|done]. apply NoDup_cons. split; [|done].
  intros ([id p] & Hid & [_ Hp]%list_elem_of_filter)%list_elem_of_fmap. cbn in Hid. subst id.
  apply elem_of_map_to_list in Hp. congruence.
Qed.

Lemma leased_members m s t x :
  Configuration_wf (csm_value (cm_config m)) → x ∈ leased m s t →
  x ∈ members (csm_value (cm_config m)).
Proof.
  intros Hwf. rewrite elem_of_members by done. unfold leased. rewrite elem_of_app. intros [Hx|Hx].
  - destruct (role_eqb _ _) eqn:E; [|by apply elem_of_nil in Hx].
    apply list_elem_of_singleton in Hx as ->. by apply bool_decide_eq_true in E.
  - apply list_elem_of_fmap in Hx as ([id p] & -> & [Hp _]%list_elem_of_filter).
    unfold lease_after in Hp. b2p. destruct Hp as [Hp _]. by apply bool_decide_eq_true in Hp.
Qed.

(** The lease is extended only to an instant that a quorum answered after. *)
Lemma find_next_lease_start_spec m s now {St} (st : St) t :
  Configuration_wf (csm_value (cm_config m)) → ls_followers s !! cm_id m = None →
  find_next_lease_start m s now st = Done (t, st) →
  t = ls_lease_start s ∨
  (quorum (csm_value (cm_config m)) (leased m s t) ∧ (t = now ∨ ls_lease_start s ≤ t)).
Proof.
  intros Hwf Hself. unfold find_next_lease_start.
  assert (∀ k, (if role_eqb (my_role m) MEMBER then majority_size (csm_value (cm_config m)) - 1
     else majority_size (csm_value (cm_config m))) = k → k ≤ Z.of_nat (count_ge t (lease_start_times m s)) →
     quorum (csm_value (cm_config m)) (leased m s t)) as Hq.
  { intros k Hk Hle. split_and!; [by apply leased_NoDup|intros x; by apply leased_members|].
    unfold leased. rewrite length_app, length_leased_followers.
    destruct (role_eqb _ MEMBER); cbn; lia. }
  set (k := if role_eqb _ MEMBER then _ else _) in *. destruct (k =? 0) eqn:E0; b2p.
  { intros [= <-]. right. split; [apply (Hq _ eq_refl); lia|by left]. }
  destruct (_ <? k); [intros [= <-]; by left|]. unfold bind.
  destruct (index_at _ _) as [c|] eqn:Ei; [|done]. cbn [unwrap ret].
  destruct (c <? _) eqn:Ec; intros [= <-]; [by left|]. b2p. right. split; [|by right].
  apply index_at_Some in Ei as [H0 [H1 _]%sort_desc_nth]. apply (Hq _ eq_refl). lia.
Qed.
