(* ===== verification/RaftScenario.v ===== *)
(** * A cluster of two servers, step by step

    The scenario of the unit test [two_member_initial_leader_election] of
    src/pkg/raft/src/consensus/module.rs played through the model: server 1
    times out, wins the election with the vote of server 2, proposes a
    command and commits it. The modules of the scenario are the concrete
    inputs of the theorems about one server. *)

From stdpp Require Import relations.
From S2P Require Import Prelude RaftProto ConfigState LogMetadata ConsensusState Consensus.
From S2P Require Import RaftLog ConsensusInv ConsensusOps ConsensusNew ConsensusMachine.

Definition rand0 : nat → Z := λ n, Z.of_nat n * 37.

Definition node_at (m : ConsensusModule) (t : Instant) : Node := mkNode m (Tick_empty t) rand0 0.

(** The state after an operation at a time, if it does not panic. *)
Definition op_at (m : ConsensusModule) (t : Instant) (op : Op) : option Node :=
  match run_op op (node_at m t) with Done (_, n) => Some n | _ => None end.

(** A sequence of operations. *)
Fixpoint play (m : ConsensusModule) (l : list (Instant * Op)) : option ConsensusModule :=
  match l with
  | [] => Some m
  | (t, op) :: l' => n ← op_at m t op; play (node_cm n) l'
  end.

Lemma op_at_step m t op n :
  discards op = false → op_at m t op = Some n → server_step m op (node_tick n) (node_cm n).
Proof.
  unfold op_at. intros Hd H. destruct (run_op op (node_at m t)) as [[[] n']| |] eqn:E; simplify_eq.
  eapply server_step_run; [by destruct op|exact E].
Qed.

Lemma play_moves m l m' :
  forallb (λ x, negb (discards x.2)) l = true → play m l = Some m' → rtc server_moves m m'.
Proof.
  revert m. induction l as [|[t op] l IH]; intros m Hd H; cbn in *; [by simplify_eq|].
  apply andb_prop in Hd as [Hd Hl]. apply negb_true_iff in Hd.
  apply bind_Some in H as (n & Hn & H). apply op_at_step in Hn; [|done].
  eapply rtc_l; [by do 2 eexists|]. by apply IH.
Qed.

(** ** Starting *)

Definition dummy : ConsensusModule := mkModule 0 (mkMetadata 0 0 0) (mkMetadata 0 0 0)
  LogMetadata_new 0 (mkCSM (mkConfiguration []) 0 None)
  (Follower (mkFollowerState 0 None 0)) None None None 0.

Definition start (id : ServerId) (c : Configuration) : run (ConsensusModule * Node) :=
  ConsensusModule_new id (mkMetadata 0 0 0) (mkConfigurationSnapshot 0 c) MemoryLog_new 0
    (node_at dummy 0).

Definition started_module (id : ServerId) (c : Configuration) : ConsensusModule :=
  match start id c with Done (m, _) => m | _ => dummy end.

Definition two : Configuration := mkConfiguration [mkServer 1 MEMBER; mkServer 2 MEMBER].

Lemma started_two id : id = 1 ∨ id = 2 → started (started_module id two).
Proof.
  intros Hid. apply (started_new id (mkMetadata 0 0 0) (mkConfigurationSnapshot 0 two) MemoryLog_new 0
    (node_at dummy 0) _ (match start id two with Done (_, n) => n | _ => node_at dummy 0 end)).
  - lia.
  - done.
  - apply MemoryLog_new_startable.
  - done.
  - destruct Hid as [-> | ->]; vm_compute; reflexivity.
Qed.

(** ** Server 1 becomes the leader of term 1 *)

Definition t1 : Instant := from_millis 801.
Definition ms (k : Z) : Instant := t1 + from_millis k.
Definition granted : RequestVoteResponse := mkRequestVoteResponse 1 true None.

Definition to_candidate : list (Instant * Op) :=
  [(t1, OpCycle); (t1, OpRequestVoteCallback 2 1 true granted)].
Definition to_voted : list (Instant * Op) :=
  to_candidate ++ [(ms 3, OpRequestVoteCallback 2 1 false granted)].
Definition to_leader : list (Instant * Op) :=
  to_voted ++ [(ms 4, OpPersistedMetadata (mkMetadata 1 1 0))].

Definition played (m : ConsensusModule) (l : list (Instant * Op)) : ConsensusModule :=
  default dummy (play m l).

Definition s1 : ConsensusModule := Eval vm_compute in started_module 1 two.
Definition s2 : ConsensusModule := Eval vm_compute in started_module 2 two.
Definition candidate1 : ConsensusModule := Eval vm_compute in played s1 to_candidate.
Definition voted1 : ConsensusModule := Eval vm_compute in played s1 to_voted.
Definition leader1 : ConsensusModule := Eval vm_compute in played s1 to_leader.

Lemma played_reachable m l m' :
  reachable m → forallb (λ x, negb (discards x.2)) l = true → play m l = Some m' → reachable m'.
Proof. intros (m0 & H0 & Hr) Hl Hp. exists m0. split; [done|]. by etrans; [|eapply play_moves]. Qed.

Lemma s1_reachable : reachable s1.
Proof. exists s1. split; [|done]. apply (started_two 1). by left. Qed.

Lemma s2_reachable : reachable s2.
Proof. exists s2. split; [|done]. apply (started_two 2). by right. Qed.

Lemma candidate1_reachable : reachable candidate1.
Proof. apply (played_reachable s1 to_candidate); [apply s1_reachable|done|by vm_compute]. Qed.

Lemma voted1_reachable : reachable voted1.
Proof. apply (played_reachable s1 to_voted); [apply s1_reachable|done|by vm_compute]. Qed.

Lemma leader1_reachable : reachable leader1.
Proof. apply (played_reachable s1 to_leader); [apply s1_reachable|done|by vm_compute]. Qed.

Example leader1_state :
  is_leader (cm_state leader1) = true ∧ cm_meta leader1 = mkMetadata 1 1 0.
Proof. by vm_compute. Qed.

(** ** It commits a command *)

Definition command1 : LogEntryData := Command [16; 17; 18].
Definition entry1 : LogEntry := mkLogEntry (mkLogPosition 1 1) command1.

Definition to_sent : list (Instant * Op) :=
  [(ms 5, OpPropose command1 None); (ms 6, OpLogFlushed 1);
   (ms 7, OpHeartbeatCallback 2 2 (Some (mkHeartbeatResponse 1)));
   (ms 10, OpAppendEntriesCallback 2 3 (mkAppendEntriesResponse 1 true 0))].
Definition to_committed : list (Instant * Op) :=
  to_sent ++ [(ms 12, OpAppendEntriesCallback 2 4 (mkAppendEntriesResponse 1 true 1))].

Definition sent1 : ConsensusModule := Eval vm_compute in played leader1 to_sent.
Definition committed1 : ConsensusModule := Eval vm_compute in played leader1 to_committed.

Lemma sent1_reachable : reachable sent1.
Proof. apply (played_reachable leader1 to_sent); [apply leader1_reachable|done|by vm_compute]. Qed.

Lemma committed1_reachable : reachable committed1.
Proof. apply (played_reachable leader1 to_committed); [apply leader1_reachable|done|by vm_compute]. Qed.

Example committed1_state : commit_index (cm_meta committed1) = 1 ∧ commit_index (cm_meta sent1) = 0.
Proof. by vm_compute. Qed.

(** ** Server 2 votes and follows *)

Definition vote_request : RequestVoteRequest := mkRequestVoteRequest 1 1 0 0 None.
Definition append_request : AppendEntriesRequest :=
  mkAppendEntriesRequest 1 1 0 0 [entry1] 0 false.

Definition voter2 : ConsensusModule := Eval vm_compute in
  played s2 [(ms 1, OpRequestVote vote_request)].
Definition follower2 : ConsensusModule := Eval vm_compute in
  played voter2 [(ms 11, OpAppendEntries append_request)].

Lemma voter2_reachable : reachable voter2.
Proof.
  apply (played_reachable s2 [(ms 1, OpRequestVote vote_request)]);
    [apply s2_reachable|done|by vm_compute].
Qed.

Lemma follower2_reachable : reachable follower2.
Proof.
  apply (played_reachable voter2 [(ms 11, OpAppendEntries append_request)]);
    [apply voter2_reachable|done|by vm_compute].
Qed.

(** A leader of term 2 that has another entry at index 1. *)
Definition conflicting_request : AppendEntriesRequest :=
  mkAppendEntriesRequest 2 1 0 0 [mkLogEntry (mkLogPosition 2 1) command1] 0 false.
