(* ===== verification/RaftTheorems.v ===== *)
(** * Theorems about a Raft server

    What the consensus module promises, for every state a server can reach
    from [ConsensusModule::new], with the states of RaftScenario.v as
    concrete inputs. *)

From stdpp Require Import relations.
From S2P Require Import Prelude RaftProto ConfigState LogMetadata ConsensusState Consensus.
From S2P Require Import RaftLog ConsensusInv ConsensusOps ConsensusNew ConsensusCycle.
From S2P Require Import ConsensusMachine ConsensusCommit RaftScenario.

Definition tick_after (m : ConsensusModule) (t : Instant) (op : Op) : Tick :=
  match op_at m t op with Some n => node_tick n | None => Tick_empty 0 end.

Lemma step_of m op t m' :
  discards op = false → node_cm <$> op_at m t op = Some m' →
  server_step m op (tick_after m t op) m'.
Proof.
  intros Hd Hn. unfold tick_after. destruct (op_at m t op) as [n|] eqn:E; [|done].
  simplify_eq/=. by eapply op_at_step.
Qed.

(** ** Invariants of runs *)

(** C12: every state a server can reach is consistent: its log metadata is
    well formed, a candidate or leader has voted for itself in a positive
    term, and no truncation or deferred commit is ever pending. *)
Theorem reachable_consistent m : reachable m → Inv m.
Proof. apply reachable_inv. Qed.

Lemma reachable_consistent_witness : Inv committed1.
Proof. apply reachable_consistent, committed1_reachable. Defined.

(** C11: over any run of a server its term and commit index never decrease,
    and a vote it has cast in a term is never changed in that term. *)
Theorem one_vote_per_term m m' :
  reachable m → rtc server_moves m m' →
  current_term (cm_meta m) ≤ current_term (cm_meta m') ∧
  commit_index (cm_meta m) ≤ commit_index (cm_meta m') ∧
  (current_term (cm_meta m) = current_term (cm_meta m') → 0 < voted_for (cm_meta m) →
   voted_for (cm_meta m') = voted_for (cm_meta m)).
Proof. intros HI%reachable_inv Hr. by destruct (moves_meta m m' HI Hr). Qed.

Lemma one_vote_per_term_witness :
  current_term (cm_meta leader1) ≤ current_term (cm_meta committed1) ∧
  commit_index (cm_meta leader1) ≤ commit_index (cm_meta committed1) ∧
  (current_term (cm_meta leader1) = current_term (cm_meta committed1) →
   0 < voted_for (cm_meta leader1) → voted_for (cm_meta committed1) = voted_for (cm_meta leader1)).
Proof.
  apply (one_vote_per_term leader1 committed1 leader1_reachable).
  by apply (play_moves _ to_committed); vm_compute.
Defined.

(** The vote of the server for itself counts in term [t] once it is stored. *)
Definition own_vote (m : ConsensusModule) (t : Term) : Z :=
  if (current_term (cm_persisted_meta m) =? t) && negb (voted_for (cm_persisted_meta m) =? 0) && role_eqb (my_role m) MEMBER
  then 1 else 0.

(** An operation that does not bring another configuration than [c]. *)
Definition keeps_config (c : Configuration) (op : Op) : Prop :=
  match op with
  | OpPropose data _ => is_config data = false
  | OpRequestVoteCallback _ _ _ resp => ∀ s, rvr_last_config_hint resp = Some s → fixed_csm c (CSM_from s)
  | OpAppendEntries req => Forall (λ e, is_config (entry_data e) = false) (ae_entries req)
  | OpInstallSnapshot req => fixed_csm c (CSM_from (is_last_config req))
  | _ => True
  end.

(** The policy of such operations. *)
Definition settled_config (c : Configuration) (Hc : no_aspiring c) : ConfigPolicy :=
  let F := fixed_config c Hc in
  @mkConfigPolicy (@cfg_ok F) (@entry_ok F) (λ _, True) (@noop_ok F) (@apply_ok F) (@commit_ok F) (@revert_ok F)
    (@snapshot_of_ok F) I (λ _ _, I) (@promote_ok F).

Lemma keeps_config_ok c Hc op : keeps_config c op → op_ok (CP := settled_config c Hc) op.
Proof. by destruct op. Qed.

Lemma settled_inv c Hc m : fixed_csm c (cm_config m) → Inv m → Inv (CP := settled_config c Hc) m.
Proof. intros Hf [H1 H2 H3 H4 H5 H6 _ _ H9]. by split. Qed.

(** C10: a server that is leader after an operation was leader of the same
    term before it, or was elected during it by a majority of the
    configuration it had before it. The votes that make up the majority were
    reported to the server for this very term, before the operation or by it;
    its own vote is among them only when it is stored. This is for a
    configuration without a pending change and without servers that wait for
    their promotion, and an operation that brings no other configuration. *)
Theorem leader_won_election m op t m' :
  let c := csm_value (cm_config m) in
  let term := current_term (cm_meta m') in
  reachable m → csm_pending (cm_config m) = None → no_aspiring c → keeps_config c op →
  server_step m op t m' → is_leader (cm_state m') = true →
  (is_leader (cm_state m) = true ∧ current_term (cm_meta m) = term) ∨
  ∃ votes : gset ServerId, votes ⊆ old_votes m term ∪ op_votes op term ∧
    majority_size c ≤ Z.of_nat (size votes) + own_vote (op_persisted op m) term.
Proof.
  intros c term HI%reachable_inv Hpend Hc Hok Hs Hl.
  apply (settled_inv c Hc) in HI; [|done]. apply (keeps_config_ok c Hc) in Hok.
  destruct (server_step_effect _ _ _ _ HI Hok Hs) as (_ & n & n' & <- & _ & _ & <- & _ & He).
  pose proof (oe_elect _ _ _ He) as Hel. unfold elect in Hel. destruct (cm_state (node_cm n')) as [?|?|?]; try done.
  destruct Hel as [[H1 H2]|(w & cs & [Hw Ht Hi Hp _ _ Hv Hwins [Hcw _]])]; [left|right].
  - by destruct op.
  - exists (cs_votes_received cs). split; [by destruct op|]. unfold wins, vote_count, have_self_voted, my_role in Hwins.
    rewrite Hcw, Ht, Hi, Hp in Hwins. fold term in Hwins. unfold own_vote, my_role. by destruct op.
Qed.

Lemma leader_won_election_witness :
  (is_leader (cm_state voted1) = true ∧ current_term (cm_meta voted1) = 1) ∨
  ∃ votes : gset ServerId, votes ⊆ old_votes voted1 1 ∪ ∅ ∧
    majority_size (csm_value (cm_config voted1)) ≤ Z.of_nat (size votes) + own_vote (cm_set_persisted_meta (mkMetadata 1 1 0) voted1) 1.
Proof.
  assert (csm_value (cm_config voted1) = two) as E by (by vm_compute).
  apply (leader_won_election voted1 (OpPersistedMetadata (mkMetadata 1 1 0)) (tick_after voted1 (ms 4) (OpPersistedMetadata (mkMetadata 1 1 0)))
    leader1 voted1_reachable); [by vm_compute| |done| |done].
  - rewrite E. intros id. unfold server_role, Configuration_server, two. cbn. by repeat case_match; simplify_eq.
  - apply step_of; [done|by vm_compute].
Defined.

(** Every message an operation sends names its sender and a term the
    sender has reached, one it voted for itself in if it is the current
    one; an AppendEntries message starts and stops at entries of the
    sender's log and carries a commit index the sender has reached. *)
Theorem operation_messages m op t m' :
  reachable m → server_step m op t m' → Forall (sent_by m') (tick_messages t).
Proof.
  intros HI%reachable_inv Hs.
  destruct (server_step_effect _ _ _ _ HI (op_ok_any op) Hs) as (_ & n & n' & _ & _ & Hm & <- & <- & He).
  destruct (oe_messages _ _ _ He) as (k & -> & Hk). by rewrite Hm.
Qed.

Lemma operation_messages_witness :
  Forall (sent_by candidate1) (tick_messages
    (tick_after (played s1 [(t1, OpCycle)]) t1 (OpRequestVoteCallback 2 1 true granted))).
Proof.
  apply (operation_messages (played s1 [(t1, OpCycle)]) (OpRequestVoteCallback 2 1 true granted)).
  - apply (played_reachable s1 [(t1, OpCycle)]); [apply s1_reachable|done|by vm_compute].
  - apply step_of; [done|by vm_compute].
Defined.

(** An operation that changes the term, the vote or the commit index
    tells the caller to persist the metadata. *)
Theorem operation_flags_metadata m op t m' :
  reachable m → server_step m op t m' → tick_meta t = false → cm_meta m' = cm_meta m.
Proof.
  intros HI%reachable_inv Hs Ht.
  destruct (server_step_effect _ _ _ _ HI (op_ok_any op) Hs) as (_ & n & n' & <- & _ & _ & <- & <- & He).
  destruct (oe_written _ _ _ He); [done|congruence].
Qed.

Lemma operation_flags_metadata_witness :
  cm_meta (played leader1 [(ms 5, OpPropose command1 None)]) = cm_meta leader1.
Proof.
  apply (operation_flags_metadata leader1 (OpPropose command1 None)
    (tick_after leader1 (ms 5) (OpPropose command1 None)) _ leader1_reachable).
  - apply step_of; [done|by vm_compute].
  - by vm_compute.
Defined.

(** The log metadata and the entries handed to the caller stay in step:
    an operation other than a discard extends the offsets of the log by
    exactly the new entries, and never removes one. *)
Theorem operation_extends_log m op t m' :
  reachable m → server_step m op t m' → discards op = false →
  all_offsets (cm_log_meta m') =
    all_offsets (cm_log_meta m) ++ (offset_of <$> tick_new_entries t).
Proof.
  intros HI%reachable_inv Hs Hd.
  destruct (server_step_effect _ _ _ _ HI (op_ok_any op) Hs) as (_ & n & n' & <- & Hn & _ & <- & <- & He).
  destruct (oe_log _ _ _ He Hd) as (k & -> & Hk & _). by rewrite Hn.
Qed.

Lemma operation_extends_log_witness :
  all_offsets (cm_log_meta follower2) =
    all_offsets (cm_log_meta voter2) ++
      (offset_of <$> tick_new_entries (tick_after voter2 (ms 11) (OpAppendEntries append_request))).
Proof.
  apply (operation_extends_log voter2 (OpAppendEntries append_request)).
  - apply voter2_reachable.
  - apply step_of; [done|by vm_compute].
  - done.
Defined.

(** ** Termination *)

(** [cycle] and the functions it calls recursively end: the bound used by
    the model is never reached, and any larger one gives the same result. *)
Theorem cycle_terminates n fuel :
  (cycle_fuel (node_cm n) <= fuel)%nat →
  cycle fuel n = run_cycle n ∧ run_cycle n ≠ OutOfFuel.
Proof. apply cycle_fuel_irrelevant. Qed.

Lemma cycle_terminates_witness :
  cycle 100 (node_at s1 t1) = run_cycle (node_at s1 t1) ∧ run_cycle (node_at s1 t1) ≠ OutOfFuel.
Proof. apply (cycle_terminates (node_at s1 t1) 100). vm_compute. lia. Defined.

(** C16: every operation of the module ends, in every state and for every
    argument: it returns or panics. *)
Theorem operation_terminates op n :
  (∃ n', run_op op n = Done (tt, n')) ∨ run_op op n = Panicked.
Proof.
  pose proof (run_op_ends op n). destruct (run_op op n) as [[[] n']| |]; eauto. done.
Qed.

(** ** Committing, leases and reads *)

(** C13: a leader moves its commit index to [i] exactly when [i] is new and an
    entry of its own term, and is the largest index that a majority of the
    voting members are known to hold. *)
Theorem commit_rule m s i {St} (st : St) :
  Configuration_wf (csm_value (cm_config m)) →
  find_next_commit_index m s st = Done (Some i, st) ↔
  last_log_index m ≠ commit_index (cm_meta m) ∧ commit_index (cm_meta m) < i ∧
  (∃ off, LogMetadata_lookup (cm_log_meta m) i = Some off ∧
     off_term off = current_term (cm_meta m)) ∧
  (∀ j, quorum (csm_value (cm_config m)) (acked m s j) ↔ j ≤ i).
Proof. apply find_next_commit_index_spec. Qed.

(** The leader of the scenario just before it commits. *)
Definition committing : ConsensusModule := cm_set_meta (mkMetadata 1 1 0) committed1.
Definition committing_state : ConsensusLeaderState :=
  match cm_state committed1 with Leader s => s | _ => mkLeaderState ∅ 0 0 false end.

Lemma two_wf : Configuration_wf two.
Proof. apply (bool_decide_unpack _). by vm_compute. Qed.

Lemma commit_rule_witness :
  find_next_commit_index committing committing_state tt = Done (Some 1, tt) ∧
  (∀ j, quorum (csm_value (cm_config committing)) (acked committing committing_state j) ↔ j ≤ 1).
Proof.
 assert (find_next_commit_index committing committing_state tt = Done (Some 1, tt)) as E by by vm_compute.
  split; [exact E|]. by apply (commit_rule committing committing_state 1 tt two_wf).
Defined.

(** A leader's lease is moved only to an instant that a majority of the
    voting members, itself included if it is one, is known to have followed
    it at, and never back. *)
Theorem lease_rule m s now {St} (st : St) t :
  Configuration_wf (csm_value (cm_config m)) → ls_followers s !! cm_id m = None →
  find_next_lease_start m s now st = Done (t, st) →
  t = ls_lease_start s ∨
  (quorum (csm_value (cm_config m)) (leased m s t) ∧ (t = now ∨ ls_lease_start s ≤ t)).
Proof. apply find_next_lease_start_spec. Qed.

Lemma lease_rule_witness :
  from_millis 811 = ls_lease_start (ls_set_lease_start 0 committing_state) ∨
  (quorum two (leased committing (ls_set_lease_start 0 committing_state) (from_millis 811)) ∧
   (from_millis 811 = ms 20 ∨ ls_lease_start (ls_set_lease_start 0 committing_state) ≤ from_millis 811)).
Proof.
  apply (lease_rule committing (ls_set_lease_start 0 committing_state) (ms 20) tt (from_millis 811));
    [apply two_wf|by vm_compute|by vm_compute].
Defined.

(** C17: a read that a leader resolves is linearizable: from taking the read
    index to resolving it the server was in one term, as whose leader it
    resolves it; every entry of an earlier term that the server had in its log
    when it took the read index, committed or not, is at or before the index;
    the index is at least the commit index at the start and is committed at
    the end. A read that is not optimistic, in a group of more than one server,
    is resolved only when the lease covers the time of the read. *)
Theorem read_index_linearizable m time ri m' optimistic i {St} (s s' : St) :
  reachable m → read_index m time = inr ri → rtc server_moves m m' →
  resolve_read_index m' ri optimistic s = Done (inr i, s') →
  is_leader (cm_state m') = true ∧
  (∀ k, rtc server_moves m k → rtc server_moves k m' →
     current_term (cm_meta k) = current_term (cm_meta m)) ∧
  (∀ o, o ∈ tail (all_offsets (cm_log_meta m)) → off_term o < current_term (cm_meta m) → off_index o ≤ i) ∧
  commit_index (cm_meta m) ≤ i ≤ commit_index (cm_meta m') ∧
  (servers_len m ≠ 1%nat → optimistic = false →
   ∃ t, lease_start m' = Some t ∧ time ≤ t).
Proof.
  intros HR Hr Hm Hres. pose proof (inv_reads _ (reachable_inv _ HR)) as Hreads.
  unfold read_index in Hr. destruct (cm_state m) as [|?|ls] eqn:Est; try done.
  simplify_eq/=. unfold resolve_read_index, lease_start in *.
  destruct (cm_state m') as [?|?|ls']; cbn in Hres; try by repeat case_match; simplify_eq.
  destruct (negb _) eqn:E1 in Hres; [done|]. apply negb_false_iff in E1. b2p. cbn in E1.
  destruct (_ <? _) eqn:E2 in Hres.
  { unfold bind, unwrap, ret, panic in Hres. by destruct (LogMetadata_lookup _ _). }
  destruct (_ <? _) eqn:E3 in Hres; [done|]. b2p. unfold ret in Hres. simplify_eq. cbn in *.
  split_and!; try done; try lia.
  { intros k Hk Hk'. pose proof (reachable_inv _ HR) as HI.
    pose proof (ms_term _ _ (moves_meta _ _ HI Hk)).
    pose proof (ms_term _ _ (moves_meta _ _ (moves_Inv _ _ HI Hk) Hk')). lia. }
  { intros o Ho Ht. pose proof (Hreads _ o Est Ho Ht). lia. }
  intros Hlen ->. exists (ls_lease_start ls'). split; [done|].
  rewrite (proj2 (Nat.eqb_neq _ _) Hlen) in E3. by destruct (cm_draining m').
Qed.

Lemma read_index_linearizable_witness :
  is_leader (cm_state committed1) = true ∧
  (∀ k, rtc server_moves leader1 k → rtc server_moves k committed1 →
     current_term (cm_meta k) = current_term (cm_meta leader1)) ∧
  (∀ o, o ∈ tail (all_offsets (cm_log_meta leader1)) → off_term o < current_term (cm_meta leader1) → off_index o ≤ 0) ∧
  commit_index (cm_meta leader1) ≤ 0 ≤ commit_index (cm_meta committed1) ∧
  (servers_len leader1 ≠ 1%nat → false = false →
   ∃ t, lease_start committed1 = Some t ∧ ms 5 ≤ t).
Proof.
  apply (read_index_linearizable leader1 (ms 5) (mkReadIndex 1 (ms 5) 0) committed1 false 0 tt tt).
  - apply leader1_reachable.
  - by vm_compute.
  - by apply (play_moves _ to_committed); vm_compute.
  - by vm_compute.
Defined.

(** ** Voting *)

(** C14: a vote is granted only in the term the request names, to a candidate
    whose log is at least as up to date, is the server's one vote of that
    term, and is flagged to be persisted. *)
Theorem vote_granted_rule req n r n' :
  Inv (node_cm n) → request_vote req n = Done (r, n') → rvr_vote_granted r = true →
  current_term (cm_meta (node_cm n')) = rv_term req ∧ rvr_term r = rv_term req ∧
  voted_for (cm_meta (node_cm n')) = rv_candidate_id req ∧
  tick_meta (node_tick n') = true ∧ up_to_date (node_cm n') req = true ∧
  meta_step (cm_meta (node_cm n)) (cm_meta (node_cm n')).
Proof.
  intros HI Hrun Hg.
  destruct (wpx_done _ _ _ _ _ _ _ (request_vote_spec (CP := any_config) req n I HI) Hrun) as ([_ HS] & _ & H).
  destruct (H Hg) as (? & ? & ? & ? & ?). split_and!; try done. apply HS.
Qed.

Definition result_of {A} (d : A) (n : Node) (r : run (A * Node)) : A * Node :=
  match r with Done p => p | _ => (d, n) end.

Definition voting : RequestVoteResponse * Node :=
  result_of granted (node_at s2 (ms 1)) (request_vote vote_request (node_at s2 (ms 1))).

Lemma vote_granted_rule_witness :
  current_term (cm_meta (node_cm voting.2)) = 1 ∧ rvr_term voting.1 = 1 ∧
  voted_for (cm_meta (node_cm voting.2)) = 1 ∧
  tick_meta (node_tick voting.2) = true ∧ up_to_date (node_cm voting.2) vote_request = true ∧
  meta_step (cm_meta s2) (cm_meta (node_cm voting.2)).
Proof.
  apply (vote_granted_rule vote_request (node_at s2 (ms 1)) voting.1 voting.2).
  - apply reachable_inv, s2_reachable.
  - by vm_compute.
  - by vm_compute.
Defined.

(** A server grants no vote and no pre-vote to a candidate of an older
    term, to one with an older log, to a second candidate of a term it voted
    in, or, without the leader's approval, while the lease of the leader it
    follows, or of itself as the leader, may be valid. *)
Theorem vote_refused m req now :
  rv_term req < current_term (cm_meta m) ∨ up_to_date m req = false ∨
  (rv_term req = current_term (cm_meta m) ∧ 0 < voted_for (cm_meta m) ∧
   voted_for (cm_meta m) ≠ rv_candidate_id req) ∨
  (leader_approval_value req ≠ current_term (cm_meta m) ∧
   ∃ t, last_leader_seen m = Some t ∧ now < t + LEASE_MARGIN) →
  pre_vote_should_grant m req now = false.
Proof.
  intros H. destruct (pre_vote_should_grant m req now) eqn:E; [|done]. exfalso.
  apply pre_vote_should_grant_spec in E as (H1 & H2 & H3 & H4).
  destruct H as [?|[?|[(? & ? & ?)|(? & t & Ht & ?)]]]; [lia|congruence|auto|].
  specialize (H4 ltac:(done) t Ht). lia.
Qed.

Lemma vote_refused_witness :
  pre_vote_should_grant follower2 (mkRequestVoteRequest 2 2 5 1 None) (ms 12) = false.
Proof.
  apply vote_refused. right; right; right. split; [done|].
  eexists. split; by vm_compute.
Defined.

(** Election timeouts are drawn from 400 ms up to 800 ms, whatever the
    random numbers are. *)
Theorem election_timeout_range n :
  ∃ t n', new_election_timeout n = Done (t, n') ∧ from_millis 400 ≤ t < from_millis 800 ∧
    node_cm n' = node_cm n.
Proof.
  pose proof (new_election_timeout_spec False False n) as H. unfold wpx in H.
  destruct (new_election_timeout n) as [[t n']| |] eqn:E; try done.
  destruct H as [Ht [k ->]]. by eexists _, _.
Qed.

(** ** Appending *)

(** C15: a follower answers an AppendEntries request with success only when
    its log then holds the entry before those of the request and all of
    them, and it names an entry of its log to be flushed first. *)
Theorem append_accepted req n r n' fc :
  Inv (node_cm n) → append_entries req n = Done (r, n') → r = inr fc →
  aer_success (fc_inner fc) = true →
  pos_in (node_cm n') (mkLogPosition (ae_prev_log_term req) (ae_prev_log_index req)) ∧
  Forall (λ e, pos_in (node_cm n') (entry_pos e)) (ae_entries req) ∧
  ∃ seq pos, fc_point fc = Some (seq, pos) ∧
    mkLogOffset pos seq ∈ all_offsets (cm_log_meta (node_cm n')).
Proof.
  intros HI Hrun. destruct (wpx_done _ _ _ _ _ _ _ (append_entries_spec req n (entries_ok_any _) HI) Hrun) as [_ H].
  apply H.
Qed.

Definition appending : AppendResult * Node :=
  result_of (inl NextNotAfterLast) (node_at voter2 (ms 11))
    (append_entries append_request (node_at voter2 (ms 11))).
Definition appended : FlushConstraint AppendEntriesResponse :=
  mkFlushConstraint (mkAppendEntriesResponse 1 true 1) (Some (1, mkLogPosition 1 1)).

Lemma append_accepted_witness :
  pos_in (node_cm appending.2) (mkLogPosition 0 0) ∧
  Forall (λ e, pos_in (node_cm appending.2) (entry_pos e)) [entry1] ∧
  ∃ seq pos, fc_point appended = Some (seq, pos) ∧
    mkLogOffset pos seq ∈ all_offsets (cm_log_meta (node_cm appending.2)).
Proof.
  apply (append_accepted append_request (node_at voter2 (ms 11)) appending.1 appending.2 appended).
  - apply reachable_inv, voter2_reachable.
  - by vm_compute.
  - by vm_compute.
  - done.
Defined.

(** C18: a follower never accepts entries that conflict with its log: when the
    log holds an entry of another term at the index of one of the entries,
    the request is refused (with an error, or as unsuccessful), the log is
    not truncated and the new entry does not get into it. *)
Theorem append_conflict_refused req n r n' e o :
  Inv (node_cm n) → append_entries req n = Done (r, n') → e ∈ ae_entries req →
  LogMetadata_lookup (cm_log_meta (node_cm n)) (pos_index (entry_pos e)) = Some o →
  off_term o ≠ pos_term (entry_pos e) →
  (∀ fc, r = inr fc → aer_success (fc_inner fc) = false) ∧
  LogMetadata_lookup (cm_log_meta (node_cm n')) (pos_index (entry_pos e)) = Some o.
Proof.
  intros HI Hrun He Ho Hne.
  destruct (wpx_done _ _ _ _ _ _ _ (append_entries_spec req n (entries_ok_any _) HI) Hrun) as [[HI' HS]%append_path_Keep H].
  apply LogMetadata_lookup_Some in Ho as [Ho Hi]; [|apply HI].
  destruct (sp_log _ _ _ _ HS) as (k & _ & Hk & _).
  assert (o ∈ all_offsets (cm_log_meta (node_cm n'))) as Ho' by (rewrite Hk; apply elem_of_app; by left).
  split.
  - intros fc Hfc. destruct (aer_success (fc_inner fc)) eqn:E; [|done].
    destruct (H fc Hfc E) as (_ & Hall & _). rewrite Forall_forall in Hall.
    destruct (Hall e He) as (o2 & Ho2 & Hp). exfalso. apply Hne.
    assert (o2 = o) as ->; [|by rewrite <- Hp].
    eapply all_offsets_unique; [apply HI'|done|done|]. rewrite Hi, <- Hp. done.
  - rewrite <- Hi. apply LogMetadata_lookup_elem; [apply HI'|done].
Qed.

Definition conflicting : AppendResult * Node :=
  result_of (inl EntriesInconsistent) (node_at follower2 (ms 12))
    (append_entries conflicting_request (node_at follower2 (ms 12))).

Lemma append_conflict_refused_witness :
  (∀ fc, conflicting.1 = inr fc → aer_success (fc_inner fc) = false) ∧
  LogMetadata_lookup (cm_log_meta (node_cm conflicting.2)) 1 =
    Some (mkLogOffset (mkLogPosition 1 1) 1).
Proof.
  apply (append_conflict_refused conflicting_request (node_at follower2 (ms 12)) conflicting.1
    conflicting.2 (mkLogEntry (mkLogPosition 2 1) command1) (mkLogOffset (mkLogPosition 1 1) 1)).
  - apply reachable_inv, follower2_reachable.
  - by vm_compute.
  - by left.
  - by vm_compute.
  - done.
Defined.

(** The answer to a request whose entries are all in the log already is
    held back only until the entry before them is flushed, not they
    themselves. *)
Theorem duplicate_append_constraint req n r n' fc :
  Inv (node_cm n) → Forall (λ e, pos_in (node_cm n) (entry_pos e)) (ae_entries req) →
  append_entries req n = Done (r, n') → r = inr fc → aer_success (fc_inner fc) = true →
  ∃ seq, fc_point fc = Some (seq, mkLogPosition (ae_prev_log_term req) (ae_prev_log_index req)).
Proof.
  intros HI Hall Hrun. apply (wpx_done _ _ _ _ _ _ _ (append_duplicate req n HI Hall) Hrun).
Qed.

(** Server 2 has the entry of the request, unflushed. *)
Definition duplicating : AppendResult * Node :=
  result_of (inl NextNotAfterLast) (node_at follower2 (ms 12))
    (append_entries append_request (node_at follower2 (ms 12))).

Lemma duplicate_append_constraint_witness :
  cm_log_last_flushed (node_cm duplicating.2) = 0 ∧
  ∃ fc, duplicating.1 = inr fc ∧ aer_success (fc_inner fc) = true ∧
    ∃ seq, fc_point fc = Some (seq, mkLogPosition 0 0).
Proof.
  split; [by vm_compute|]. destruct duplicating.1 as [|fc] eqn:E; [by vm_compute in E|].
  assert (aer_success (fc_inner fc) = true) as Hs by (vm_compute in E; by simplify_eq).
  exists fc. split; [done|]. split; [done|].
  apply (duplicate_append_constraint append_request (node_at follower2 (ms 12)) duplicating.1
    duplicating.2 fc); [apply reachable_inv, follower2_reachable| |by vm_compute|done|done].
  apply Forall_singleton. exists (mkLogOffset (mkLogPosition 1 1) 1). split; [|done].
  vm_compute. right. left.
Defined.
