(* ===== verification/RaftDataTheorems.v ===== *)
(** * Theorems about the data structures of the Raft server

    Binary searches, the log metadata, the log in memory, flush constraints
    and the configuration, each against its specification. *)

From S2P Require Import Prelude Algorithms RaftProto ConfigState LogMetadata ConsensusState.
From S2P Require Import Consensus RaftLog ConsensusInv ConsensusOps ConsensusNew.
From S2P Require Import ConsensusMachine RaftScenario.

(** ** Binary searches *)

(** The binary searches: on a sequence whose elements satisfy the
    predicate exactly in the first [n] positions [upper_bound_by] returns the
    last of these, if any, and on one whose elements satisfy it exactly from
    position [n] on [lower_bound_by] returns [n], if it is in range. *)
Theorem binary_searches_correct {T} (p : T → bool) l n :
  (n ≤ length l)%nat →
  (holds_before p n l → upper_bound_by l p = index_before n) ∧
  (holds_before (λ x, negb (p x)) n l → lower_bound_by l p = index_from n (length l)).
Proof. intros Hn. split; intros Hp; [by apply upper_bound_by_spec|by apply lower_bound_by_spec]. Qed.

Lemma binary_searches_correct_witness :
  upper_bound_by [1; 3; 5; 7; 9] (λ x, x <=? 6) = index_before 3.
Proof.
  apply (binary_searches_correct (λ x, x <=? 6) [1; 3; 5; 7; 9] 3); [cbn; lia|].
  intros k x Hk. do 5 (destruct k as [|k]; [by simplify_eq/=|]). done.
Defined.

(** ** Log metadata *)

(** Looking an index up in the compressed log metadata gives the offset
    of that index in the full list of offsets, and nothing outside of it. *)
Theorem log_metadata_lookup lm prev i :
  LogMetadata_wf lm → LogMetadata_prev lm = Some prev →
  LogMetadata_lookup lm i =
    if decide (off_index prev ≤ i) then all_offsets lm !! Z.to_nat (i - off_index prev) else None.
Proof. apply LogMetadata_lookup_correct. Qed.

(** Three runs: up to index 2, to index 4, and index 5. *)
Definition sample_log : LogMetadata :=
  mkLogMetadata [mkLogOffset (mkLogPosition 0 0) 0; mkLogOffset (mkLogPosition 1 1) 1;
                 mkLogOffset (mkLogPosition 3 3) 4; mkLogOffset (mkLogPosition 3 5) 9]
    (mkLogOffset (mkLogPosition 3 5) 9).
Definition log_start : LogOffset := mkLogOffset (mkLogPosition 0 0) 0.

Lemma sample_log_wf : LogMetadata_wf sample_log.
Proof. by vm_compute. Qed.

Lemma log_metadata_lookup_witness :
  LogMetadata_lookup sample_log 4 = all_offsets sample_log !! 4%nat.
Proof. apply (log_metadata_lookup sample_log log_start 4 sample_log_wf eq_refl). Defined.

(** Looking up the flush sequence of an entry of the log gives its
    offset. *)
Theorem log_metadata_lookup_seq lm e :
  LogMetadata_wf lm → e ∈ all_offsets lm → LogMetadata_lookup_seq lm (sequence e) = Some e.
Proof. apply LogMetadata_lookup_seq_correct. Qed.

Lemma log_metadata_lookup_seq_witness :
  LogMetadata_lookup_seq sample_log 5 = Some (mkLogOffset (mkLogPosition 3 4) 5).
Proof.
  apply (log_metadata_lookup_seq sample_log (mkLogOffset (mkLogPosition 3 4) 5) sample_log_wf).
  vm_compute. do 4 right. left.
Defined.

(** Appending to the log metadata replaces the offsets from the index of
    the new one on by it; when the term or the sequence goes back or the
    index leaves a gap or is not after the start, it panics. *)
Theorem log_metadata_append lm prev off :
  LogMetadata_wf lm → LogMetadata_prev lm = Some prev → 0 ≤ off_index off →
  (append_ok lm prev off → ∃ lm', (∀ St (s : St), LogMetadata_append lm off s = Done (lm', s)) ∧
     LogMetadata_wf lm' ∧ LogMetadata_prev lm' = Some prev ∧ last_offset lm' = off ∧
     all_offsets lm' =
       take (Z.to_nat (off_index off - off_index prev)) (all_offsets lm) ++ [off]) ∧
  (¬ append_ok lm prev off → ∀ St (s : St), LogMetadata_append lm off s = Panicked).
Proof.
  intros Hwf Hp H0. split.
  - intros Ha. by apply LogMetadata_append_spec.
  - intros Ha St s. by eapply LogMetadata_append_panics.
Qed.

Lemma log_metadata_append_witness :
  ∃ lm', (∀ St (s : St), LogMetadata_append sample_log (mkLogOffset (mkLogPosition 4 3) 10) s = Done (lm', s)) ∧
     LogMetadata_wf lm' ∧ LogMetadata_prev lm' = Some log_start ∧
     last_offset lm' = mkLogOffset (mkLogPosition 4 3) 10 ∧
     all_offsets lm' = take 3 (all_offsets sample_log) ++ [mkLogOffset (mkLogPosition 4 3) 10].
Proof.
  apply (log_metadata_append sample_log log_start (mkLogOffset (mkLogPosition 4 3) 10)
    sample_log_wf eq_refl); [done|]. by vm_compute.
Defined.

(** Truncating the log metadata at an index keeps the offsets before it. *)
Theorem log_metadata_truncate lm prev start :
  LogMetadata_wf lm → LogMetadata_prev lm = Some prev →
  off_index prev < start ≤ off_index (last_offset lm) + 1 →
  ∃ lm', (∀ St (s : St), LogMetadata_truncate lm start s = Done (lm', s)) ∧
    LogMetadata_wf lm' ∧ LogMetadata_prev lm' = Some prev ∧
    off_index (last_offset lm') = start - 1 ∧
    all_offsets lm' = take (Z.to_nat (start - off_index prev)) (all_offsets lm).
Proof.
  intros Hwf Hp Hs. destruct (LogMetadata_truncate_spec lm prev start Hwf Hp Hs)
    as (lm' & ? & ? & ? & ? & _ & _ & ?). by exists lm'.
Qed.

Lemma log_metadata_truncate_witness :
  ∃ lm', (∀ St (s : St), LogMetadata_truncate sample_log 4 s = Done (lm', s)) ∧
    LogMetadata_wf lm' ∧ LogMetadata_prev lm' = Some log_start ∧
    off_index (last_offset lm') = 3 ∧ all_offsets lm' = take 4 (all_offsets sample_log).
Proof. apply (log_metadata_truncate sample_log log_start 4 sample_log_wf eq_refl). by vm_compute. Defined.

(** Discarding the log up to one of its entries drops the offsets before
    that entry; discarding what is already discarded changes nothing, and
    discarding past the end leaves the given position alone. *)
Theorem log_metadata_discard lm prev pos :
  LogMetadata_wf lm → LogMetadata_prev lm = Some prev →
  (pos_index pos ≤ off_index prev → ∀ St (s : St), LogMetadata_discard lm pos s = Done (lm, s)) ∧
  (∀ e, off_index prev < off_index e → e ∈ all_offsets lm → position e = pos →
     ∃ lm', (∀ St (s : St), LogMetadata_discard lm pos s = Done (lm', s)) ∧
       LogMetadata_wf lm' ∧ LogMetadata_prev lm' = Some e ∧ last_offset lm' = last_offset lm ∧
       all_offsets lm' = drop (Z.to_nat (off_index e - off_index prev)) (all_offsets lm)) ∧
  (off_index (last_offset lm) < pos_index pos → ∀ St (s : St),
     let o := mkLogOffset pos (sequence (last_offset lm)) in
     LogMetadata_discard lm pos s = Done (mkLogMetadata [o] o, s)).
Proof.
  intros Hwf Hp. split_and!.
  - intros Hi St s. by eapply LogMetadata_discard_old.
  - intros e Hi He <-. apply LogMetadata_discard_mid; try done. by apply LogMetadata_lookup_elem.
  - intros Hi St s. by apply LogMetadata_discard_past.
Qed.

Lemma log_metadata_discard_witness :
  ∃ lm', (∀ St (s : St), LogMetadata_discard sample_log (mkLogPosition 3 4) s = Done (lm', s)) ∧
    LogMetadata_wf lm' ∧ LogMetadata_prev lm' = Some (mkLogOffset (mkLogPosition 3 4) 5) ∧
    last_offset lm' = last_offset sample_log ∧ all_offsets lm' = drop 4 (all_offsets sample_log).
Proof.
  apply (log_metadata_discard sample_log log_start (mkLogPosition 3 4) sample_log_wf eq_refl);
    [done| |done]. vm_compute. do 4 right. left.
Defined.

(** ** The log in memory *)

Definition sample_memory : MemoryLogSync := mkMemoryLog (mkLogPosition 1 2)
  [(mkLogEntry (mkLogPosition 1 3) command1, 3); (mkLogEntry (mkLogPosition 2 4) command1, 4);
   (mkLogEntry (mkLogPosition 2 5) command1, 5)].

Lemma sample_memory_wf : al_wf (ml_view sample_memory).
Proof.
  split; [done|]. split; [done|]. intros k e Hk.
  do 3 (destruct k as [|k]; [by simplify_eq/=|]). done.
Qed.

(** The reads of the log in memory agree with a log that is a position
    and the entries after it: last index, term, single entries and ranges
    with the sequence of their last entry. *)
Theorem memory_log_reads l {St} (s : St) :
  al_wf (ml_view l) →
  ml_last_index l s = Done (al_last_index (ml_view l), s) ∧
  (∀ i, ml_term l i s = Done (al_term (ml_view l) i, s)) ∧
  (∀ i, ml_entry l i s = Done (al_lookup (ml_view l) i, s)) ∧
  (∀ i j e, pos_index (ml_prev l) < i ≤ j → al_lookup (ml_view l) j = Some e →
     ml_entries l i j s =
       Done (Some (fst <$> take (Z.to_nat (j - i + 1))
                             (drop (Z.to_nat (i - pos_index (ml_prev l) - 1)) (ml_log l)), e.2), s)).
Proof.
  intros Hwf. split_and!; auto using ml_last_index_ok, ml_term_ok, ml_entry_ok.
  intros i j e Hij He.
  assert (al_lookup (ml_view l) j = ml_log l !! Z.to_nat (j - pos_index (ml_prev l) - 1)) as El.
  { unfold al_lookup. cbn. by rewrite (proj2 (Z.ltb_lt _ _)) by lia. }
  rewrite El in He. pose proof (lookup_lt_Some _ _ _ He) as Hlt.
  assert (∀ k, i ≤ k ≤ j →
    ml_off_for l k s = Done (Some (Z.to_nat (k - pos_index (ml_prev l) - 1)), s)) as Hoff.
  { intros k Hk. rewrite ml_off_for_ok by done. unfold al_last_index. cbn [ml_view al_prev al_entries].
    rewrite (proj2 (Z.ltb_lt _ _)), (proj2 (Z.leb_le _ _)) by lia. done. }
  unfold ml_entries. rewrite (run_bind _ _ _ _ _ (Hoff i ltac:(lia))).
  rewrite (run_bind _ _ _ _ _ (Hoff j ltac:(lia))). rewrite He. unfold unwrap, bind, ret.
  replace (S (Z.to_nat (j - pos_index (ml_prev l) - 1)) - Z.to_nat (i - pos_index (ml_prev l) - 1))%nat
    with (Z.to_nat (j - i + 1)) by lia. done.
Qed.

Lemma memory_log_reads_witness :
  ml_entries sample_memory 3 4 tt =
    Done (Some ([mkLogEntry (mkLogPosition 1 3) command1; mkLogEntry (mkLogPosition 2 4) command1], 4), tt).
Proof.
  apply (proj2 (proj2 (proj2 (memory_log_reads sample_memory tt sample_memory_wf))) 3 4
    (mkLogEntry (mkLogPosition 2 4) command1, 4)); [done|done].
Defined.

(** Appending to the log in memory at an index after its start and at
    most one past its end replaces the entries from that index on. *)
Theorem memory_log_append l e q :
  al_wf (ml_view l) →
  pos_index (ml_prev l) < pos_index (entry_pos e) ≤ al_last_index (ml_view l) + 1 →
  pos_index (entry_pos e) < U64_MAX →
  ∃ l', (∀ St (s : St), ml_append l e q s = Done (l', s)) ∧ al_wf (ml_view l') ∧
    ml_view l' = al_append (ml_view l) e q.
Proof. apply ml_append_ok. Qed.

Lemma memory_log_append_witness :
  ∃ l', (∀ St (s : St), ml_append sample_memory (mkLogEntry (mkLogPosition 3 4) command1) 6 s = Done (l', s)) ∧
    al_wf (ml_view l') ∧
    ml_view l' = al_append (ml_view sample_memory) (mkLogEntry (mkLogPosition 3 4) command1) 6.
Proof. apply (memory_log_append sample_memory _ 6 sample_memory_wf); by vm_compute. Defined.

(** Discarding the log in memory up to a position: nothing to do before
    its start, the entries up to it dropped when it is in the log, the log
    emptied when it is past the end, and an error exactly when the position
    contradicts the terms of the log. *)
Theorem memory_log_discard l pos {St} (s : St) :
  al_wf (ml_view l) →
  ml_discard l pos s = Done (
    if pos_index pos <=? pos_index (ml_prev l) then
      if pos_term pos >? pos_term (ml_prev l) then inl RediscardTerm else inr l
    else
      match al_lookup (ml_view l) (pos_index pos) with
      | Some e =>
        if pos_term pos =? pos_term (entry_pos e.1)
        then inr (mkMemoryLog pos (drop (Z.to_nat (pos_index pos - pos_index (ml_prev l))) (ml_log l)))
        else inl DiscardInconsistent
      | None =>
        match al_term (ml_view l) (al_last_index (ml_view l)) with
        | Some t => if pos_term pos <? t then inl DiscardNotMonotonic else inr (mkMemoryLog pos [])
        | None => inr l
        end
      end, s).
Proof.
  intros Hwf. unfold ml_discard. destruct (_ <=? _) eqn:E1; [by case_match|]. b2p.
  rewrite (run_bind _ _ _ _ _ (ml_last_index_ok s l Hwf)).
  destruct (_ >? _) eqn:E2; b2p.
  - rewrite (al_lookup_range (ml_view l)) by (unfold al_last_index in *; cbn in *;
      apply andb_false_intro2, Z.leb_gt; lia).
    rewrite (run_bind _ _ _ _ _ (ml_term_ok s l _ Hwf)).
    destruct (al_term_last _ Hwf) as [t ->]. unfold unwrap, bind, ret. by case_match.
  - pose proof (ml_off_for_ok s l (pos_index pos) Hwf) as Ho.
    assert ((pos_index (ml_prev l) <? pos_index pos) && (pos_index pos <=? al_last_index (ml_view l)) = true)
      as Er by (apply andb_true_intro; split; [apply Z.ltb_lt|apply Z.leb_le]; lia).
    rewrite Er in Ho. rewrite (run_bind _ _ _ _ _ Ho). rewrite (al_lookup_in (ml_view l)) by done.
    unfold al_last_index in E2. cbn [ml_view al_prev al_entries] in *.
    set (k := Z.to_nat (pos_index pos - pos_index (ml_prev l) - 1)) in *.
    destruct (lookup_lt_is_Some_2 (ml_log l) k) as [e He]; [lia|]. rewrite He.
    destruct Hwf as (_ & _ & Hidx). specialize (Hidx k e He). cbn in Hidx.
    unfold unwrap, bind, ret. rewrite He. destruct (_ =? _) eqn:E3; b2p; cbn [negb]; [|done].
    do 3 f_equal. f_equal; [destruct pos, (entry_pos e.1); cbn in *; f_equal; lia|f_equal; lia].
Qed.

Lemma memory_log_discard_witness :
  ml_discard sample_memory (mkLogPosition 2 4) tt =
    Done (inr (mkMemoryLog (mkLogPosition 2 4) [(mkLogEntry (mkLogPosition 2 5) command1, 5)]), tt).
Proof. apply (memory_log_discard sample_memory (mkLogPosition 2 4) tt sample_memory_wf). Defined.

(** ** Flush constraints *)

(** A response that waits for the log to be flushed is released exactly
    when the log still holds the constrained position and is flushed up to
    its sequence, for every log that keeps the laws of the [Log] trait. *)
Theorem flush_constraint_released {L : Type} `{!Log L, !LogLaws L} {T St} (s : St)
    (c : FlushConstraint T) (log : L) seq pos v :
  log_ok log → fc_point c = Some (seq, pos) →
  poll c log s = Done (Satisfied v, s) ↔
    v = fc_inner c ∧ al_term (log_view log) (pos_index pos) = Some (pos_term pos) ∧
    seq ≤ log_last_flushed log.
Proof. apply poll_satisfied_iff. Qed.

Lemma flush_constraint_released_witness :
  poll (mkFlushConstraint true (Some (4, mkLogPosition 2 4))) sample_memory tt =
    Done (Satisfied true, tt).
Proof.
  apply (flush_constraint_released tt (mkFlushConstraint true (Some (4, mkLogPosition 2 4)))
    sample_memory 4 (mkLogPosition 2 4) true); [apply sample_memory_wf|done|by vm_compute].
Defined.

(** ** Configurations *)

(** A membership change keeps the server ids unique, gives its target the
    role it names and leaves every other server's role alone. *)
Theorem configuration_apply_roles c ch id :
  Configuration_wf c →
  Configuration_wf (Configuration_apply c ch) ∧
  server_role (Configuration_apply c ch) id =
    if decide (change_target ch = Some id) then change_role ch (server_role c id)
    else server_role c id.
Proof. split; [by apply Configuration_apply_wf|by apply server_role_apply]. Qed.

Lemma configuration_apply_roles_witness :
  Configuration_wf (Configuration_apply two (RemoveServer 2)) ∧
  server_role (Configuration_apply two (RemoveServer 2)) 2 = UNKNOWN.
Proof.
  apply (configuration_apply_roles two (RemoveServer 2) 2).
  apply (bool_decide_unpack _). by vm_compute.
Defined.

(** C19: a majority before a membership change and a majority after it share a
    voting member, whichever single change is made. *)
Theorem majorities_overlap_across_change c ch Q1 Q2 :
  Configuration_wf c → quorum c Q1 → quorum (Configuration_apply c ch) Q2 →
  ∃ x, x ∈ Q1 ∧ x ∈ Q2.
Proof. apply quorum_overlap_apply. Qed.

Lemma quorum_check c Q :
  NoDup Q → forallb (λ x, bool_decide (x ∈ members c)) Q = true →
  majority_size c ≤ Z.of_nat (length Q) → quorum c Q.
Proof.
  intros Hn Hf Hl. split; [done|]. split; [|done].
  intros x Hx. rewrite forallb_forall in Hf. apply list_elem_of_In in Hx.
  by apply (bool_decide_unpack _), Is_true_true, Hf.
Qed.

Lemma majorities_overlap_across_change_witness : ∃ x, x ∈ [1; 2] ∧ x ∈ [2; 3].
Proof.
  apply (majorities_overlap_across_change two (AddMember 3)).
  - apply (bool_decide_unpack _). by vm_compute.
  - apply quorum_check; [apply (bool_decide_unpack _)| |]; by vm_compute.
  - apply quorum_check; [apply (bool_decide_unpack _)| |]; by vm_compute.
Defined.

(** An uncommitted configuration change is not undone by reverting the
    entry that made it: the record [revert] needs is only kept for entries
    before the commit index. *)
Theorem revert_keeps_uncommitted_change c e ch commit_index {St} (s : St) :
  csm_pending c = None → entry_data e = Config ch →
  csm_last_applied c ≤ pos_index (entry_pos e) → commit_index ≤ pos_index (entry_pos e) →
  CSM_revert (CSM_apply c e commit_index) (pos_index (entry_pos e)) s =
    Done (mkCSM (Configuration_apply (csm_value c) ch) (pos_index (entry_pos e)) None, s).
Proof.
  intros Hp He Hl Hc. unfold CSM_apply. rewrite (proj2 (Z.ltb_ge _ _) Hl), He.
  rewrite (proj2 (Z.ltb_ge _ _) Hc). unfold CSM_revert. cbn. rewrite Hp.
  by rewrite Z.gtb_ltb, Z.ltb_irrefl.
Qed.

Lemma revert_keeps_uncommitted_change_witness :
  CSM_revert (CSM_apply (mkCSM two 4 None) (mkLogEntry (mkLogPosition 1 5) (Config (RemoveServer 2))) 3)
    5 tt = Done (mkCSM (Configuration_apply two (RemoveServer 2)) 5 None, tt).
Proof.
  apply (revert_keeps_uncommitted_change (mkCSM two 4 None)
    (mkLogEntry (mkLogPosition 1 5) (Config (RemoveServer 2))) (RemoveServer 2) 3 tt); done.
Defined.

(** ** Starting *)

(** [new] does not panic on a well-formed log and a configuration
    snapshot that is not behind it; it starts a consistent follower whose
    log metadata are exactly the offsets of the log, with the term raised to
    that of the last entry, for every log that keeps the laws of the trait. *)
Theorem new_module_consistent {L : Type} `{!Log L, !LogLaws L} id meta snap (log : L) time n :
  0 < id → 0 ≤ current_term meta → log_startable log →
  pos_index (log_prev log) ≤ snap_last_applied snap < U64_MAX →
  ∃ m n', ConsensusModule_new id meta snap log time n = Done (m, n') ∧ Inv m ∧
    cm_id m = id ∧ is_follower (cm_state m) = true ∧
    meta_step meta (cm_meta m) ∧ commit_index (cm_meta m) = commit_index meta ∧
    all_offsets (cm_log_meta m) =
      mkLogOffset (log_prev log) 0 :: (entry_offset <$> al_entries (log_view log)).
Proof.
  intros Hid Ht Hl Hs. pose proof (ConsensusModule_new_spec id meta snap log time n Hid Ht Hl Hs I I (entries_ok_any _)) as H.
  unfold wpx in H. destruct (ConsensusModule_new id meta snap log time n) as [[m n']| |]; [|done..].
  destruct H as (_ & HI & ? & ? & _ & ? & ? & ?). by exists m, n'.
Qed.

Lemma sample_memory_startable : log_startable sample_memory.
Proof. split; [apply sample_memory_wf|by vm_compute|done]. Qed.

Lemma new_module_consistent_witness :
  ∃ m n', ConsensusModule_new 1 (mkMetadata 1 1 3) (mkConfigurationSnapshot 2 two) sample_memory 0
      (node_at dummy 0) = Done (m, n') ∧ Inv m ∧
    cm_id m = 1 ∧ is_follower (cm_state m) = true ∧
    meta_step (mkMetadata 1 1 3) (cm_meta m) ∧ commit_index (cm_meta m) = 3 ∧
    all_offsets (cm_log_meta m) =
      mkLogOffset (mkLogPosition 1 2) 0 :: (entry_offset <$> ml_log sample_memory).
Proof.
  exact (@new_module_consistent MemoryLogSync MemoryLog_Log MemoryLog_LogLaws 1 (mkMetadata 1 1 3)
    (mkConfigurationSnapshot 2 two) sample_memory 0 (node_at dummy 0) eq_refl
    ltac:(done) sample_memory_startable ltac:(done)).
Defined.

(** ** Proposals *)

Lemma all_offsets_term_le lm o :
  LogMetadata_wf lm → o ∈ all_offsets lm →
  off_term o ≤ off_term (last_offset lm) ∧ off_index o ≤ off_index (last_offset lm).
Proof.
  intros (o0 & l & Eo & _ & _ & Hc)%LogMetadata_prev_spec Ho. unfold all_offsets in Ho.
  rewrite Eo in Ho. apply list_elem_of_lookup in Ho as [k Hk].
  destruct (chain_find_seq _ _ _ _ _ Hc Hk) as (? & ? & _ & _ & _ & _ & _ & Ht).
  split; [apply Ht|]. pose proof (lookup_lt_Some _ _ _ Hk) as Hlt.
  rewrite (length_expand _ _ _ Hc) in Hlt.
  destruct (chain_find _ _ _ (off_index o0 + Z.of_nat k) Hc) as (n & p & _ & _ & _ & Hx & _);
    [pose proof (chain_last_index _ _ _ Hc); lia|].
  replace (Z.to_nat (off_index o0 + Z.of_nat k - off_index o0)) with k in Hx by lia.
  rewrite Hk in Hx. simplify_eq. unfold extrapolate, off_index in *. cbn in *. lia.
Qed.

(** A proposal is reported as committed exactly when the entry is in the
    log at or below the commit index, and is never reported as pending: an
    entry of the log that is not committed yet is reported as failed. *)
Theorem proposal_status_cases m p :
  Inv m →
  (proposal_status m p = Commited ↔ pos_in m p ∧ pos_index p ≤ commit_index (cm_meta m)) ∧
  (pos_in m p → commit_index (cm_meta m) < pos_index p → proposal_status m p = Failed) ∧
  proposal_status m p ≠ Pending.
Proof.
  intros HI. pose proof (inv_log _ HI) as Hwf. unfold proposal_status.
  assert (pos_in m p → proposal_status m p =
    if commit_index (cm_meta m) >=? pos_index p then Commited else Failed) as Hin.
  { intros (o & Ho & <-). destruct (all_offsets_term_le _ _ Hwf Ho) as [H1 H2].
    unfold proposal_status, last_log_term, last_log_index, LogMetadata_last, off_term, off_index in *.
    rewrite (proj2 (orb_false_iff _ _)) by (split; rewrite Z.gtb_ltb; apply Z.ltb_ge; lia).
    pose proof (LogMetadata_lookup_elem _ _ Hwf Ho) as E. unfold off_index in E. rewrite E.
    by rewrite Z.gtb_ltb, !Z.ltb_irrefl. }
  unfold proposal_status in Hin. split_and!.
  - split; [|by intros [H Hc]; rewrite (Hin H), (proj2 (Z.geb_le _ _))].
    destruct (_ || _) eqn:E; [done|].
    destruct (LogMetadata_lookup (cm_log_meta m) (pos_index p)) as [o|] eqn:Eo; [|done].
    apply LogMetadata_lookup_Some in Eo as [Ho Hi]; [|done].
    repeat case_match; try done; intros _; b2p. split; [|lia].
    exists o. split; [done|]. unfold off_term, off_index in *.
    destruct (position o), p; cbn in *. f_equal; lia.
  - intros H Hc. rewrite (Hin H), Z.geb_leb, (proj2 (Z.leb_gt _ _)); done.
  - by repeat case_match.
Qed.

Lemma proposal_status_cases_witness : proposal_status committed1 (mkLogPosition 1 1) = Commited.
Proof.
  apply (proposal_status_cases committed1 (mkLogPosition 1 1));
    [apply reachable_inv, committed1_reachable|].
  split; [|by vm_compute]. exists (mkLogOffset (mkLogPosition 1 1) 1). split; [|done].
  vm_compute. right. left.
Defined.
