(* ===== verification/Cluster.v ===== *)
(** * A group of servers

    Several consensus modules, the disks their metadata is stored on and
    the messages between them: what src/pkg/raft/src/server/server.rs and
    server_shared.rs do around the module for an election. A message that
    was sent may be delivered late, many times or never. The metadata is
    stored by a task of its own ([run_meta_writer]), so it is on disk some
    time after the module has changed it, and a server that crashes starts
    again from what is on disk.

    Two parameters of the steps separate the contract of the module from
    its use in server.rs. When [gated], a granted vote leaves the server
    only while it is the vote on disk, which is what [MustPersistMetadata]
    asks for; server.rs itself calls [persisted] at once. [crashes] says
    whether servers can crash. *)

From stdpp Require Import relations.
From S2P Require Import Prelude RaftProto ConfigState LogMetadata ConsensusState Consensus.
From S2P Require Import RaftLog ConsensusInv ConsensusOps ConsensusNew ConsensusMachine.

(** ** State *)

(** Where [run_meta_writer] is in its loop. *)
Inductive Writer :=
| Idle
| Storing (meta : Metadata)
| Stored (meta : Metadata).

(** The response of a RequestVote RPC. *)
Record Answer := mkAnswer {
  an_from : ServerId;
  an_to : ServerId;
  an_request : RequestId;
  an_resp : RequestVoteResponse;
}.

Record Host := mkHost {
  h_module : ConsensusModule;
  h_durable : Metadata;
  h_writer : Writer;
  h_held : list Answer;
}.

Definition h_set_module m h := mkHost m (h_durable h) (h_writer h) (h_held h).

(** [cl_history] is not part of the system: it records what every server
    could last restart from (or, without crashes, what it remembers). *)
Record Cluster := mkCluster {
  cl_hosts : gmap ServerId Host;
  cl_sent : list (ServerId * ConsensusMessage);
  cl_answers : list Answer;
  cl_history : list (ServerId * Metadata);
}.

(** ** Steps *)

(** Operations that do not depend on another server's vote or on the disk. *)
Definition unrelated (op : Op) : bool :=
  match op with
  | OpRequestVote _ | OpRequestVoteCallback _ _ false _ | OpPersistedMetadata _ => false
  | _ => true
  end.

(** The operation does not bring in another configuration than [c]. *)
Definition static_op (c : Configuration) (op : Op) : Prop :=
  match op with
  | OpPropose data _ => is_config data = false
  | OpRequestVoteCallback _ _ _ resp =>
    ∀ s, rvr_last_config_hint resp = Some s → snap_data s = c
  | OpAppendEntries req => Forall (λ e, is_config (entry_data e) = false) (ae_entries req)
  | OpInstallSnapshot req => snap_data (is_last_config req) = c
  | _ => True
  end.

(** The RequestVote RPC of server.rs: the module handles the request, and the
    response is held by the server. *)
Definition request_vote_rpc (id from : ServerId) (msg : ConsensusMessage) (h : Host) (t : Tick)
    (h' : Host) : Prop :=
  ∃ req now rand r n, msg_body msg = RequestVote req ∧ id ∈ msg_to msg ∧
    request_vote req (mkNode (h_module h) (Tick_empty now) rand 0) = Done (r, n) ∧
    t = node_tick n ∧
    h' = mkHost (node_cm n) (h_durable h) (h_writer h)
           (h_held h ++ [mkAnswer id from (msg_request_id msg) r]).

(** [dispatch_request_vote]: the response reaches the server that asked. *)
Definition dispatch_request_vote (a : Answer) (h : Host) (t : Tick) (h' : Host) : Prop :=
  ∃ m, server_step (h_module h)
         (OpRequestVoteCallback (an_from a) (an_request a) false (an_resp a)) t m ∧
       h' = h_set_module m h.

(** [run_meta_writer]: the metadata is copied while the state is locked, is
    written to the disk, and the module is told. When a round of the loop
    starts (timers, changes) is left open. *)
Inductive run_meta_writer (h : Host) : Tick → Host → Prop :=
| writer_begin :
    h_writer h = Idle →
    run_meta_writer h (Tick_empty 0)
      (mkHost (h_module h) (h_durable h) (Storing (cm_meta (h_module h))) (h_held h))
| writer_store meta :
    h_writer h = Storing meta →
    run_meta_writer h (Tick_empty 0) (mkHost (h_module h) meta (Stored meta) (h_held h))
| writer_tell meta t m :
    h_writer h = Stored meta → server_step (h_module h) (OpPersistedMetadata meta) t m →
    run_meta_writer h t (mkHost m (h_durable h) Idle (h_held h)).

(** [Server::new]: a server starts from the metadata, the configuration and
    the log on its disk. *)
Inductive server_new (c : Configuration) (id : ServerId) (meta : Metadata) (log : MemoryLogSync)
    : Host → Prop :=
| server_new_module snap time n m n' :
    snap_data snap = c → log_startable log →
    Forall (λ e, is_config (entry_data e.1) = false) (al_entries (log_view log)) →
    pos_index (log_prev log) ≤ snap_last_applied snap < U64_MAX →
    ConsensusModule_new id meta snap log time n = Done (m, n') →
    server_new c id meta log (mkHost m meta Idle []).

Section Steps.
Context (c : Configuration) (gated crashes : bool).

(** What the server would remember after a crash, if it can crash. *)
Definition remembered (h : Host) : Metadata :=
  if gated then h_durable h else cm_meta (h_module h).

(** A server changed and sends the messages of the tick. *)
Definition put (id : ServerId) (h : Host) (t : Tick) (cl : Cluster) : Cluster :=
  mkCluster (<[id := h]> (cl_hosts cl)) (cl_sent cl ++ ((λ msg, (id, msg)) <$> tick_messages t))
    (cl_answers cl) (cl_history cl ++ [(id, remembered h)]).

(** When a response may leave the server. *)
Definition may_release (h : Host) (a : Answer) : bool :=
  negb (gated && rvr_vote_granted (an_resp a)) ||
  ((current_term (h_durable h) =? rvr_term (an_resp a)) && (voted_for (h_durable h) =? an_to a)).

Inductive cluster_step (cl : Cluster) : Cluster → Prop :=
| step_op id h op t m :
    cl_hosts cl !! id = Some h → unrelated op = true → static_op c op →
    server_step (h_module h) op t m →
    cluster_step cl (put id (h_set_module m h) t cl)
| step_vote id h from msg t h' :
    cl_hosts cl !! id = Some h → (from, msg) ∈ cl_sent cl → request_vote_rpc id from msg h t h' →
    cluster_step cl (put id h' t cl)
| step_release id h a :
    cl_hosts cl !! id = Some h → a ∈ h_held h → may_release h a = true →
    cluster_step cl (mkCluster (cl_hosts cl) (cl_sent cl) (cl_answers cl ++ [a]) (cl_history cl))
| step_answer h a t h' :
    cl_hosts cl !! an_to a = Some h → a ∈ cl_answers cl → dispatch_request_vote a h t h' →
    cluster_step cl (put (an_to a) h' t cl)
| step_writer id h t h' :
    cl_hosts cl !! id = Some h → run_meta_writer h t h' → cluster_step cl (put id h' t cl)
| step_crash id h log h' :
    crashes = true → cl_hosts cl !! id = Some h → server_new c id (h_durable h) log h' →
    cluster_step cl (put id h' (Tick_empty 0) cl).

(** A server that was just started for the first time. *)
Inductive fresh_host (id : ServerId) (h : Host) : Prop :=
| fresh_host_new meta log :
    0 < id → 0 ≤ current_term meta → 0 ≤ voted_for meta → server_new c id meta log h →
    fresh_host id h.

(** Servers that have not communicated yet. *)
Record cluster_start (cl : Cluster) : Prop := mkClusterStart {
  cst_hosts id h : cl_hosts cl !! id = Some h → fresh_host id h;
  cst_sent : cl_sent cl = [];
  cst_answers : cl_answers cl = [];
  cst_history : cl_history cl = (λ x, (x.1, remembered x.2)) <$> map_to_list (cl_hosts cl);
}.

Definition leads (cl : Cluster) (id : ServerId) (t : Term) : Prop :=
  ∃ h, cl_hosts cl !! id = Some h ∧ is_leader (cm_state (h_module h)) = true ∧
       current_term (cm_meta (h_module h)) = t.
End Steps.
