(* ===== verification/ClusterInv.v ===== *)
(** * The invariant of a group of servers

    Every vote a candidate or leader counts was remembered by its voter, and
    what a server remembers only moves forward, so that no server is on
    record with two votes in one term. *)

From stdpp Require Import relations.
From S2P Require Import Prelude RaftProto ConfigState LogMetadata ConsensusState Consensus.
From S2P Require Import RaftLog ConsensusInv ConsensusOps ConsensusNew ConsensusMachine Cluster.

(** ** Votes on record *)

Definition History := list (ServerId * Metadata).

Definition vote_cast (hist : History) (voter : ServerId) (t : Term) (candidate : ServerId) : Prop :=
  ∃ meta, (voter, meta) ∈ hist ∧ current_term meta = t ∧ voted_for meta = candidate.

Lemma vote_cast_mono hist hist' v t cand :
  hist ⊆ hist' → vote_cast hist v t cand → vote_cast hist' v t cand.
Proof. intros Hsub (m & Hm & ?). exists m. split; [by apply Hsub|done]. Qed.

(** Nobody is on record with two votes of one term. *)
Definition one_vote (hist : History) : Prop :=
  ∀ id m1 m2, (id, m1) ∈ hist → (id, m2) ∈ hist → current_term m1 = current_term m2 →
    0 < voted_for m1 → 0 < voted_for m2 → voted_for m1 = voted_for m2.

Section Invariant.
Context (c : Configuration) (gated crashes : bool).
Context (Hwf : Configuration_wf c) (Hc : no_aspiring c).

#[local] Instance fixed : ConfigPolicy | 0 := fixed_config c Hc.

Abbreviation remembered := (remembered gated).
Abbreviation put := (put gated).

(** A vote of another voting member. *)
Definition counts (hist : History) (id : ServerId) (t : Term) (x : ServerId) : Prop :=
  x ≠ id ∧ x ∈ members c ∧ vote_cast hist x t id.

(** A quorum of voters is on record for [id] in term [t]. *)
Definition elected (hist : History) (id : ServerId) (t : Term) : Prop :=
  ∃ Q, quorum c Q ∧ ∀ x, x ∈ Q → vote_cast hist x t id.

Record ModInv (hist : History) (id : ServerId) (m : ConsensusModule) : Prop := mkModInv {
  mi_id : cm_id m = id;
  mi_inv : Inv m;
  mi_persisted_sign : 0 ≤ voted_for (cm_persisted_meta m);
  mi_persisted : meta_step (cm_persisted_meta m) (cm_meta m);
  mi_persisted_hist : 0 < voted_for (cm_persisted_meta m) → (id, cm_persisted_meta m) ∈ hist;
  mi_candidate s : cm_state m = Candidate s →
    ∀ x, x ∈ cs_votes_received s → counts hist id (current_term (cm_meta m)) x;
  mi_leader : is_leader (cm_state m) = true → elected hist id (current_term (cm_meta m));
}.

(** A metadata on its way to the disk. *)
Definition writer_ok (hist : History) (id : ServerId) (h : Host) : Prop :=
  match h_writer h with
  | Idle => True
  | Storing meta =>
    0 ≤ voted_for meta ∧ 0 ≤ current_term meta ∧ meta_step (h_durable h) meta ∧
    meta_step meta (cm_meta (h_module h)) ∧ (gated = false → (id, meta) ∈ hist)
  | Stored meta => 0 ≤ voted_for meta ∧ meta_step meta (cm_meta (h_module h)) ∧ (id, meta) ∈ hist
  end.

(** A response whose vote, if granted, is on record when [recorded]. *)
Definition answer_ok (recorded : bool) (hist : History) (a : Answer) : Prop :=
  an_from a ≠ an_to a ∧ an_from a ∈ members c ∧ hint_ok (an_resp a) ∧
  (recorded = true → rvr_vote_granted (an_resp a) = true →
   vote_cast hist (an_from a) (rvr_term (an_resp a)) (an_to a)).

Record HostInv (hist : History) (id : ServerId) (h : Host) : Prop := mkHostInv {
  hi_module : ModInv hist id (h_module h);
  hi_remembered : (id, remembered h) ∈ hist;
  hi_sign : 0 ≤ voted_for (h_durable h);
  hi_term : 0 ≤ current_term (h_durable h);
  hi_durable : meta_step (h_durable h) (cm_meta (h_module h));
  hi_writer : writer_ok hist id h;
  hi_held : Forall (λ a, an_from a = id ∧ answer_ok (negb gated) hist a) (h_held h);
}.

(** A vote request names its sender and goes to the other voting members. *)
Definition request_ok (x : ServerId * ConsensusMessage) : Prop :=
  ∀ req, msg_body x.2 = RequestVote req →
    0 < x.1 ∧ rv_candidate_id req = x.1 ∧ ∀ to, to ∈ msg_to x.2 → to ≠ x.1 ∧ to ∈ members c.

Record ClusterInv (cl : Cluster) : Prop := mkClusterInv {
  ci_hosts id h : cl_hosts cl !! id = Some h → HostInv (cl_history cl) id h;
  ci_sent : Forall request_ok (cl_sent cl);
  ci_answers : Forall (answer_ok true (cl_history cl)) (cl_answers cl);
  ci_history id m : (id, m) ∈ cl_history cl →
    ∃ h, cl_hosts cl !! id = Some h ∧ meta_step m (remembered h);
  ci_one_vote : one_vote (cl_history cl);
}.

(** ** Growing the record *)

Lemma counts_mono hist hist' id t x : hist ⊆ hist' → counts hist id t x → counts hist' id t x.
Proof. intros Hsub (? & ? & ?). split_and!; [done..|by eapply vote_cast_mono]. Qed.

Lemma elected_mono hist hist' id t : hist ⊆ hist' → elected hist id t → elected hist' id t.
Proof.
  intros Hsub (Q & HQ & Hv). exists Q. split; [done|]. intros x Hx.
  eapply vote_cast_mono; [done|]. by apply Hv.
Qed.

(** A term has one winner. *)
Lemma elected_unique hist a b t :
  one_vote hist → 0 < a → 0 < b → elected hist a t → elected hist b t → a = b.
Proof.
  intros H1 Ha Hb (Qa & HQa & Va) (Qb & HQb & Vb).
  destruct (quorum_overlap c Qa Qb Hwf HQa HQb) as (x & Hxa & Hxb).
  destruct (Va x Hxa) as (m1 & I1 & T1 & <-), (Vb x Hxb) as (m2 & I2 & T2 & <-).
  eapply (H1 x); [done|done|congruence|lia..].
Qed.

Lemma ModInv_mono hist hist' id m : hist ⊆ hist' → ModInv hist id m → ModInv hist' id m.
Proof.
  intros Hsub []. split; try done.
  - intros. by apply Hsub, mi_persisted_hist0.
  - intros s Hs x Hx. eapply counts_mono; [done|]. by eapply mi_candidate0.
  - intros Hl. eapply elected_mono; [done|]. by apply mi_leader0.
Qed.

Lemma answer_ok_mono b hist hist' a : hist ⊆ hist' → answer_ok b hist a → answer_ok b hist' a.
Proof. intros Hsub (? & ? & ? & ?). split_and!; auto. intros. eapply vote_cast_mono; eauto. Qed.

Lemma HostInv_mono hist hist' id h : hist ⊆ hist' → HostInv hist id h → HostInv hist' id h.
Proof.
  intros Hsub []. split; try done.
  - by eapply ModInv_mono.
  - by apply Hsub.
  - unfold writer_ok in *. destruct (h_writer h); naive_solver.
  - eapply Forall_impl; [exact hi_held0|]. intros a [? ?]. split; [done|]. by eapply answer_ok_mono.
Qed.

Lemma one_vote_grow hist id old new :
  one_vote hist → (∀ m, (id, m) ∈ hist → meta_step m old) → meta_step old new →
  one_vote (hist ++ [(id, new)]).
Proof.
  intros H1 Hold Hnew.
  assert (∀ m, (id, m) ∈ hist → current_term m = current_term new → 0 < voted_for m →
    voted_for new = voted_for m) as Hm.
  { intros m Hm. pose proof (transitivity (Hold m Hm) Hnew) as []. done. }
  intros id' m1 m2 [H|H]%elem_of_app [H'|H']%elem_of_app; rewrite ?list_elem_of_singleton in *;
    simplify_eq; try done; intros.
  - by eapply H1.
  - symmetry. by apply Hm.
  - by apply Hm.
Qed.

(** A server moved on: nothing about the others changes. *)
Lemma put_inv cl id h h' t :
  ClusterInv cl → cl_hosts cl !! id = Some h → meta_step (remembered h) (remembered h') →
  HostInv (cl_history cl ++ [(id, remembered h')]) id h' →
  Forall (λ msg, request_ok (id, msg)) (tick_messages t) →
  ClusterInv (put id h' t cl).
Proof.
  intros [Hh Hs Ha Hhist Hv] Hid Hstep Hh' Hm.
  assert (cl_history cl ⊆ cl_history cl ++ [(id, remembered h')]) as Hsub.
  { intros x Hx. apply elem_of_app. by left. }
  split; cbn.
  - intros i x. rewrite lookup_insert. destruct (decide (id = i)) as [<-|]; [by intros [= <-]|].
    intros Hx. eapply HostInv_mono; [done|]. by apply Hh.
  - apply Forall_app. split; [done|]. by apply Forall_fmap.
  - eapply Forall_impl; [exact Ha|]. intros a. by apply answer_ok_mono.
  - intros i m [H|H]%elem_of_app.
    + destruct (Hhist _ _ H) as (x & Hx & Hmx). rewrite lookup_insert.
      destruct (decide (id = i)) as [<-|]; [|by exists x].
      simplify_eq. exists h'. split; [done|]. by etrans.
    + apply list_elem_of_singleton in H as [= -> ->]. exists h'. by rewrite lookup_insert_eq.
  - apply one_vote_grow with (old := remembered h); [done| |done].
    intros m (x & Hx & Hmx)%Hhist. by simplify_eq.
Qed.

(** ** One server takes a step *)

Lemma static_op_ok op : unrelated op = true → static_op c op → op_ok op.
Proof.
  destruct op; try done; intros _ H.
  intros s Hs. split; [by apply H|done].
Qed.

Lemma sent_request_ok m msg : Inv m → sent_by m msg → request_ok (cm_id m, msg).
Proof.
  intros HI [Hsender _ _ _ Hto] req Hb. cbn in *. unfold asks_voters in Hto. rewrite Hb in *.
  split_and!; [by apply inv_id|done|]. destruct Hto as (config & [Ev _] & Hto). rewrite Ev in Hto.
  by apply Forall_forall.
Qed.

(** Votes that win are a quorum of voters on record. *)
Lemma wins_quorum hist id t m s :
  cm_id m = id → cfg_ok (cm_config m) → wins m s →
  (∀ x, x ∈ cs_votes_received s → counts hist id t x) →
  (have_self_voted m = true → vote_cast hist id t id) →
  elected hist id t.
Proof.
  intros Hid [Hv _] Hw Hvotes Hself. unfold wins, vote_count in Hw. rewrite Hv in Hw.
  exists ((if have_self_voted m then [id] else []) ++ elements (cs_votes_received s)).
  split; [split_and!|].
  - apply NoDup_app. split_and!; [by case_match; apply NoDup_nil_2 || apply NoDup_singleton| |apply NoDup_elements].
    case_match; [|by intros ? ?%elem_of_nil]. intros x ->%list_elem_of_singleton Hx%elem_of_elements.
    by destruct (Hvotes _ Hx).
  - intros x [Hx|Hx%elem_of_elements]%elem_of_app; [|by destruct (Hvotes _ Hx) as (_ & ? & _)].
    destruct (have_self_voted m) eqn:E; [|by apply elem_of_nil in Hx].
    apply list_elem_of_singleton in Hx as ->. unfold have_self_voted, my_role in E.
    apply andb_prop in E as [_ E]. apply bool_decide_eq_true in E. rewrite Hv, Hid in E.
    by apply elem_of_members.
  - rewrite length_app. change (length (elements _)) with (size (cs_votes_received s)).
    destruct (have_self_voted m); cbn [length] in *; lia.
  - intros x [Hx|Hx%elem_of_elements]%elem_of_app; [|by destruct (Hvotes _ Hx) as (_ & _ & ?)].
    destruct (have_self_voted m); [|by apply elem_of_nil in Hx].
    apply list_elem_of_singleton in Hx as ->. auto.
Qed.

(** What the disk has confirmed while the operation runs. *)
Definition confirmed (hist : History) (id : ServerId) (m : ConsensusModule) (op : Op) : Prop :=
  let meta := cm_persisted_meta (op_persisted op m) in
  0 ≤ voted_for meta ∧ meta_step meta (cm_meta m) ∧ (0 < voted_for meta → (id, meta) ∈ hist).

Lemma unconfirmed hist id m op :
  op_persisted op m = m → ModInv hist id m → confirmed hist id m op.
Proof. intros Hp []. unfold confirmed. by rewrite Hp. Qed.

Lemma led_elected hist id m op n t :
  ModInv hist id m → confirmed hist id m op →
  (∀ x, x ∈ op_votes op t → counts hist id t x) →
  led (op_votes op) (with_cm (op_persisted op m) n) t → elected hist id t.
Proof.
  intros HM (Hsign & Hpm & Hph) Hvotes.
  assert (same_voter (cm_set_persisted_meta (cm_persisted_meta (op_persisted op m)) m)
    (op_persisted op m)) as (Ei & _ & Em & Es) by (by destruct op).
  cbn in Ei, Em, Es. unfold led. cbn. rewrite <- Em, <- Es.
  intros [[Hl <-]|(m' & s & [Hs Ht Hi Hp Hm Hv Hsub Hw Hc'])]; [by apply (mi_leader _ _ _ HM)|].
  cbn in *. rewrite <- Ei in Hi. rewrite <- Em in Hm.
  eapply (wins_quorum _ _ _ m' s); [by rewrite Hi; apply HM|done|done| |].
  - intros x [Hx|Hx]%Hsub%elem_of_union; [|by apply Hvotes]. unfold old_votes in Hx.
    rewrite <- Em, <- Es in Hx. destruct (cm_state m) eqn:E; try done.
    destruct (_ =? _) eqn:Et; [|done]. b2p. rewrite <- Et. by eapply mi_candidate.
  - unfold have_self_voted. intros [[H1 H2]%andb_prop _]%andb_prop. b2p. rewrite Hp in H1, H2.
    assert (0 < voted_for (cm_persisted_meta (op_persisted op m))) as Hpos by lia.
    eexists. split_and!; [by apply Hph|congruence|].
    rewrite <- (ms_vote _ _ (transitivity Hpm Hm)) by done. rewrite Hv, Hi. apply HM.
Qed.

(** A new entry is copied, or made in a term the server was elected for. *)
Definition entry_made (hist : History) (id : ServerId) (op : Op) (e : NewLogEntry) : Prop :=
  op_copies op (ne_entry e) ∨
  (elected hist id (pos_term (entry_pos (ne_entry e))) ∧ is_config (entry_data (ne_entry e)) = false).

(** The votes and the metadata an operation reports are on record. *)
Record op_sound (hist : History) (id : ServerId) (m : ConsensusModule) (op : Op) : Prop := mkOpSound {
  os_ok : op_ok op;
  os_confirmed : confirmed hist id m op;
  os_votes t x : x ∈ op_votes op t → counts hist id t x;
}.

Lemma ModInv_op hist id m op t m' :
  ModInv hist id m → op_sound hist id m op → server_step m op t m' →
  ModInv hist id m' ∧ meta_step (cm_meta m) (cm_meta m') ∧
  Forall (λ msg, request_ok (id, msg)) (tick_messages t) ∧
  (discards op = false → Forall (entry_made hist id op) (tick_new_entries t) ∧
    all_offsets (cm_log_meta m') = all_offsets (cm_log_meta m) ++ (offset_of <$> tick_new_entries t) ∧
    Forall (λ msg, matches_log m' (msg_body msg)) (tick_messages t)).
Proof.
  intros HM [Hok Hconf Hvotes] Hstep.
  destruct (server_step_effect _ _ _ _ (mi_inv _ _ _ HM) Hok Hstep)
    as (HI' & n & n' & En & Enew & Em & <- & <- & He). subst m.
  pose proof (oe_meta _ _ _ He) as Hmeta. pose proof (oe_id _ _ _ He) as Hid.
  pose proof (oe_persisted _ _ _ He) as Hp. rewrite (mi_id _ _ _ HM) in Hid.
  pose proof (oe_elect _ _ _ He) as Hel. unfold elect in Hel.
  split_and!; [|done|..].
  2:{ destruct (oe_messages _ _ _ He) as (k & -> & Hk). rewrite Em. cbn. rewrite <- Hid.
      eapply Forall_impl; [exact Hk|]. intros msg. by apply sent_request_ok. }
  2:{ intros Hd. destruct (oe_log _ _ _ He Hd) as (k & -> & Hoff & Hk). rewrite Enew. cbn.
      split_and!; [|done|].
      - eapply Forall_impl; [exact Hk|]. intros e [?|[Hl ?]]; [by left|right]. split; [|done].
        eapply (led_elected _ _ _ _ n); [done|done|apply Hvotes|done].
      - destruct (oe_messages _ _ _ He) as (k' & -> & Hk'). rewrite Em. cbn.
        eapply Forall_impl; [exact Hk'|]. by intros msg []. }
  pose proof Hconf as (Hsign & Hpm & Hph). split; rewrite ?Hp; try done.
  - by etrans.
  - intros s Hs x Hx. rewrite Hs in Hel. apply Hel, elem_of_union in Hx as [Hx|Hx]; [|by apply Hvotes].
    unfold old_votes in Hx. destruct (cm_state (node_cm (with_cm _ n))) eqn:Es; try done.
    destruct (_ =? _) eqn:Et; [|done]. b2p. rewrite <- Et.
    replace (cm_meta _) with (cm_meta (node_cm n)) by by destruct op.
    eapply mi_candidate; [done| |done]. by destruct op.
  - intros Hl. destruct (cm_state (node_cm n')); try done. eapply (led_elected _ _ _ _ n); [done|done|apply Hvotes|done].
Qed.

(** ** Steps of the group *)

Lemma hist_grow (hist : History) x : hist ⊆ hist ++ [x].
Proof. intros y Hy. apply elem_of_app. by left. Qed.

Lemma hist_new (hist : History) x : x ∈ hist ++ [x].
Proof. apply elem_of_app. right. by apply list_elem_of_singleton. Qed.

(** Only the module of a server changed. *)
Lemma HostInv_module hist id h m :
  HostInv hist id h → ModInv hist id m → meta_step (cm_meta (h_module h)) (cm_meta m) →
  meta_step (remembered h) (remembered (h_set_module m h)) ∧
  HostInv (hist ++ [(id, remembered (h_set_module m h))]) id (h_set_module m h).
Proof.
  intros [] HM Hs. split; [by unfold Cluster.remembered; destruct gated|]. split; cbn; try done.
  - eapply ModInv_mono; [apply hist_grow|done].
  - apply hist_new.
  - by etrans.
  - unfold writer_ok in *. cbn. pose proof (hist_grow hist) as Hg.
    destruct (h_writer h) as [|w|w]; [done| |].
    + destruct hi_writer0 as (? & ? & ? & ? & ?). split_and!; [done..|by etrans|]. intros ?. by apply Hg, H3.
    + destruct hi_writer0 as (? & ? & ?). split_and!; [done|by etrans|]. by apply Hg.
  - eapply Forall_impl; [exact hi_held0|]. intros a [? ?]. split; [done|].
    eapply answer_ok_mono; [apply hist_grow|done].
Qed.

Lemma step_module_inv cl id h m t :
  ClusterInv cl → cl_hosts cl !! id = Some h → ModInv (cl_history cl) id m →
  meta_step (cm_meta (h_module h)) (cm_meta m) →
  Forall (λ msg, request_ok (id, msg)) (tick_messages t) →
  ClusterInv (put id (h_set_module m h) t cl).
Proof.
  intros HC Hh HM Hs Hm. pose proof (ci_hosts _ HC _ _ Hh) as HH.
  destruct (HostInv_module _ _ _ _ HH HM Hs). by eapply put_inv.
Qed.

Lemma static_sound hist id m op :
  ModInv hist id m → unrelated op = true → static_op c op → op_sound hist id m op.
Proof.
  intros HM Hu Hst. split; [by apply static_op_ok|apply unconfirmed; [by destruct op|done]|].
  intros t' x Hx. destruct op as [| | | | | | | | |? ? pre resp| | | | | | | |]; try done.
  destruct pre; [|done]. unfold op_votes, votes_of in Hx. rewrite andb_false_r in Hx. done.
Qed.

Lemma answer_sound hist id m a :
  ModInv hist id m → answer_ok true hist a → an_to a = id →
  op_sound hist id m (OpRequestVoteCallback (an_from a) (an_request a) false (an_resp a)).
Proof.
  intros HM (Hne & Hmem & Hhint & Hcast) <-. split; [done|by apply unconfirmed|].
  intros t' x Hx. cbn in Hx. unfold votes_of in Hx. rewrite andb_true_r in Hx.
  destruct (rvr_vote_granted (an_resp a)) eqn:Eg; [|done].
  destruct (_ =? _) eqn:Et; [|done]. b2p. apply elem_of_singleton in Hx as ->.
  split_and!; [done..|]. rewrite <- Et. by apply Hcast.
Qed.

Lemma vote_sound hist id m from msg req :
  ModInv hist id m → request_ok (from, msg) → msg_body msg = RequestVote req →
  op_sound hist id m (OpRequestVote req).
Proof.
  intros HM Hreq Hbody. destruct (Hreq _ Hbody) as (? & ? & _). cbn in *.
  split; [cbn; lia|by apply unconfirmed|done].
Qed.

Lemma tell_sound hist id h meta :
  HostInv hist id h → h_writer h = Stored meta → op_sound hist id (h_module h) (OpPersistedMetadata meta).
Proof.
  intros HH Hw. pose proof (hi_writer _ _ _ HH) as Hwr. unfold writer_ok in Hwr. rewrite Hw in Hwr.
  destruct Hwr as (Hsign & Hm & Hrec). by split.
Qed.

Lemma step_op_inv cl id h op t m :
  ClusterInv cl → cl_hosts cl !! id = Some h → unrelated op = true → static_op c op →
  server_step (h_module h) op t m → ClusterInv (put id (h_set_module m h) t cl).
Proof.
  intros HC Hh Hu Hst Hstep. pose proof (hi_module _ _ _ (ci_hosts _ HC _ _ Hh)) as HM.
  destruct (ModInv_op _ _ _ _ _ _ HM (static_sound _ _ _ _ HM Hu Hst) Hstep) as (HM' & Hs & Hm & _).
  by eapply step_module_inv.
Qed.

Lemma step_answer_inv cl h a t h' :
  ClusterInv cl → cl_hosts cl !! an_to a = Some h → a ∈ cl_answers cl →
  dispatch_request_vote a h t h' → ClusterInv (put (an_to a) h' t cl).
Proof.
  intros HC Hh Ha (m & Hstep & ->). pose proof (hi_module _ _ _ (ci_hosts _ HC _ _ Hh)) as HM.
  pose proof (proj1 (Forall_forall _ _) (ci_answers _ HC) _ Ha) as Hok.
  destruct (ModInv_op _ _ _ _ _ _ HM (answer_sound _ _ _ _ HM Hok eq_refl) Hstep) as (HM' & Hs & Hm & _).
  by eapply step_module_inv.
Qed.

Lemma step_release_inv cl id h a :
  ClusterInv cl → cl_hosts cl !! id = Some h → a ∈ h_held h → may_release gated h a = true →
  ClusterInv (mkCluster (cl_hosts cl) (cl_sent cl) (cl_answers cl ++ [a]) (cl_history cl)).
Proof.
  intros HC Hh Ha Hr. pose proof (ci_hosts _ HC _ _ Hh) as HH. destruct HC. split; cbn; try done.
  apply Forall_app. split; [done|]. apply Forall_singleton.
  destruct (proj1 (Forall_forall _ _) (hi_held _ _ _ HH) _ Ha) as [Hid (Hne & Hmem & Hhint & Hcast)].
  split_and!; try done. intros _ Hg. unfold may_release in Hr. rewrite Hg, andb_true_r in Hr.
  pose proof (hi_remembered _ _ _ HH) as Hrem. unfold Cluster.remembered in Hrem.
  destruct gated; cbn in *; [|by apply Hcast]. apply andb_prop in Hr as [H1 H2]. b2p.
  exists (h_durable h). rewrite Hid. done.
Qed.

Lemma step_vote_inv cl id h from msg t h' :
  ClusterInv cl → cl_hosts cl !! id = Some h → (from, msg) ∈ cl_sent cl →
  request_vote_rpc id from msg h t h' → ClusterInv (put id h' t cl).
Proof.
  intros HC Hh Hsent (req & now & rand & r & n & Hbody & Hto & Hrun & -> & ->). pose proof (ci_hosts _ HC _ _ Hh) as HH.
  destruct (proj1 (Forall_forall _ _) (ci_sent _ HC) _ Hsent _ Hbody) as (Hpos & Hcand & Hvoters).
  cbn in *. destruct (Hvoters _ Hto) as [Hne Hmem].
  assert (server_step (h_module h) (OpRequestVote req) (node_tick n) (node_cm n)) as Hstep.
  { apply (server_step_run _ _ now rand); [done|]. cbn. unfold ignore, bind. by rewrite Hrun. }
  pose proof (hi_module _ _ _ HH) as HM.
  pose proof (vote_sound _ _ _ _ _ _ HM (proj1 (Forall_forall _ _) (ci_sent _ HC) _ Hsent) Hbody) as Hok.
  destruct (ModInv_op _ _ _ _ _ _ HM Hok Hstep) as (HM' & Hs & Hm & _).
  pose proof (wpx_done _ _ _ _ _ _ _ (request_vote_spec req
    (mkNode (h_module h) (Tick_empty now) rand 0) (os_ok _ _ _ _ Hok) (mi_inv _ _ _ HM)) Hrun)
    as (_ & Hhint & Hgrant).
  destruct (HostInv_module _ _ _ _ HH HM' Hs) as [Hrem [H1 H2 H3 H4 H5 H6 H7]].
  eapply put_inv; [done..| |done]. split; try done. cbn. apply Forall_app. split; [exact H7|].
  apply Forall_singleton. split; [done|]. split_and!; try done.
  intros Hng Hg. destruct (Hgrant Hg) as (Ht & Hrt & Hv & _). exists (cm_meta (node_cm n)).
  cbn. split_and!; [|congruence..]. unfold Cluster.remembered. destruct gated; [done|]. apply hist_new.
Qed.

Lemma step_begin_inv cl id h :
  ClusterInv cl → cl_hosts cl !! id = Some h → h_writer h = Idle →
  ClusterInv (put id (mkHost (h_module h) (h_durable h) (Storing (cm_meta (h_module h))) (h_held h))
    (Tick_empty 0) cl).
Proof.
  intros HC Hh Hw. pose proof (ci_hosts _ HC _ _ Hh) as HH. pose proof (hi_module _ _ _ HH) as HM.
  destruct (HostInv_module _ _ _ (h_module h) HH HM) as [Hrem [H1 H2 H3 H4 H5 H6 H7]]; [done|].
  eapply put_inv; [done..| |done]. split; try done. cbn. pose proof (mi_inv _ _ _ HM) as HI.
  split_and!; [apply (inv_voted _ HI)|apply (inv_term _ HI)|done|done|].
  intros ->. apply hist_new.
Qed.

Lemma step_store_inv cl id h meta :
  ClusterInv cl → cl_hosts cl !! id = Some h → h_writer h = Storing meta →
  ClusterInv (put id (mkHost (h_module h) meta (Stored meta) (h_held h)) (Tick_empty 0) cl).
Proof.
  intros HC Hh Hw. pose proof (ci_hosts _ HC _ _ Hh) as HH. pose proof (hi_module _ _ _ HH) as HM.
  pose proof (hi_writer _ _ _ HH) as Hwr. unfold writer_ok in Hwr. rewrite Hw in Hwr.
  destruct Hwr as (Hsign & Hterm & Hd & Hm & Hrec).
  eapply put_inv; [done|done|by unfold Cluster.remembered; destruct gated| |done].
  assert (cl_history cl ⊆ cl_history cl ++
    [(id, remembered (mkHost (h_module h) meta (Stored meta) (h_held h)))]) as Hsub by apply hist_grow.
  split; cbn; try done.
  - by eapply ModInv_mono.
  - apply hist_new.
  - split_and!; try done. destruct gated; [apply hist_new|]. by apply Hsub, Hrec.
  - eapply Forall_impl; [exact (hi_held _ _ _ HH)|]. intros a [? ?]. split; [done|].
    by eapply answer_ok_mono.
Qed.

Lemma step_tell_inv cl id h meta t m :
  ClusterInv cl → cl_hosts cl !! id = Some h → h_writer h = Stored meta →
  server_step (h_module h) (OpPersistedMetadata meta) t m →
  ClusterInv (put id (mkHost m (h_durable h) Idle (h_held h)) t cl).
Proof.
  intros HC Hh Hw Hstep. pose proof (ci_hosts _ HC _ _ Hh) as HH. pose proof (hi_module _ _ _ HH) as HM.
  destruct (ModInv_op _ _ _ _ _ _ HM (tell_sound _ _ _ _ HH Hw) Hstep) as (HM' & Hs & Hmsg & _).
  destruct (HostInv_module _ _ _ _ HH HM' Hs) as [Hrem [H1 H2 H3 H4 H5 H6 H7]].
  by eapply put_inv.
Qed.

Lemma step_writer_inv cl id h t h' :
  ClusterInv cl → cl_hosts cl !! id = Some h → run_meta_writer h t h' → ClusterInv (put id h' t cl).
Proof.
  intros HC Hh []; [by apply step_begin_inv|by apply step_store_inv|by eapply step_tell_inv].
Qed.

(** ** Starting *)

Lemma new_ModInv hist id meta log h :
  0 < id → 0 ≤ current_term meta → 0 ≤ voted_for meta → server_new c id meta log h →
  (id, remembered h) ∈ hist →
  ModInv hist id (h_module h) ∧ meta_step meta (cm_meta (h_module h)) ∧
  h_durable h = meta ∧ h_writer h = Idle ∧ h_held h = [].
Proof.
  intros Hid Ht Hv [snap time n m n' Hsnap Hlog Hents Hpos Hnew] Hin. cbn.
  assert (entries_ok (fst <$> al_entries (log_view log))) as Hok by by apply Forall_fmap.
  assert (snapshot_ok snap) as Hsok by by split.
  pose proof (wpx_done _ _ _ _ _ _ _
    (ConsensusModule_new_spec id meta snap log time n Hid Ht Hlog Hpos Hsok Hv Hok) Hnew)
    as (_ & HI & Ei & Hf & Ep & Hms & Hcase & _).
  assert (0 < voted_for (cm_meta m) → (id, cm_meta m) ∈ hist) as Hhist.
  { intros Hp. unfold Cluster.remembered in Hin. destruct gated; [|done].
    by destruct Hcase as [->|]; [|lia]. }
  split; [|done]. split; rewrite ?Ep; try done.
  - apply (inv_voted _ HI).
  - intros s Hs. by rewrite Hs in Hf.
  - by destruct (cm_state m).
Qed.

Lemma new_HostInv hist id meta log h :
  0 < id → 0 ≤ current_term meta → 0 ≤ voted_for meta → server_new c id meta log h →
  (id, remembered h) ∈ hist → HostInv hist id h.
Proof.
  intros Hid Ht Hv Hnew Hin. destruct (new_ModInv _ _ _ _ _ Hid Ht Hv Hnew Hin) as (HM & Hms & Ed & Ew & Eh).
  split; rewrite ?Ed, ?Eh; try done. unfold writer_ok. by rewrite Ew.
Qed.

Lemma start_inv cl : cluster_start c gated cl → ClusterInv cl.
Proof.
  intros [Hh Hs Ha Hhist].
  assert (∀ id m, (id, m) ∈ cl_history cl ↔ ∃ h, cl_hosts cl !! id = Some h ∧ m = remembered h) as Hin.
  { intros id m. rewrite Hhist, list_elem_of_fmap. split.
    - intros ([i h] & [= -> ->] & Hx%elem_of_map_to_list). by exists h.
    - intros (h & Hx & ->). exists (id, h). split; [done|]. by apply elem_of_map_to_list. }
  split; rewrite ?Hs, ?Ha; try done.
  - intros id h Hx. destruct (Hh _ _ Hx) as [meta log ? ? ? Hnew].
    eapply new_HostInv; [done..|]. apply Hin. by exists h.
  - intros id m (h & Hx & ->)%Hin. by exists h.
  - intros id m1 m2 (h1 & H1 & ->)%Hin (h2 & H2 & ->)%Hin. by simplify_eq.
Qed.

Lemma step_crash_inv cl id h log h' :
  gated = true → ClusterInv cl → cl_hosts cl !! id = Some h →
  server_new c id (h_durable h) log h' → ClusterInv (put id h' (Tick_empty 0) cl).
Proof.
  intros Hg HC Hh Hnew. pose proof (ci_hosts _ HC _ _ Hh) as HH. pose proof (hi_module _ _ _ HH) as HM.
  assert (0 < id) as Hid by (rewrite <- (mi_id _ _ _ HM); apply (inv_id _ (mi_inv _ _ _ HM))).
  eapply put_inv; [done|done| | |done].
  - unfold Cluster.remembered. rewrite Hg. by destruct Hnew.
  - by apply (new_HostInv _ _ (h_durable h) log); [done|apply HH|apply HH| |apply hist_new].
Qed.

Context (Hsafe : gated = true ∨ crashes = false).

Lemma cluster_step_inv cl cl' :
  ClusterInv cl → cluster_step c gated crashes cl cl' → ClusterInv cl'.
Proof.
  intros HC Hstep. destruct Hstep.
  - by eapply step_op_inv.
  - by eapply step_vote_inv.
  - by eapply step_release_inv.
  - by eapply step_answer_inv.
  - by eapply step_writer_inv.
  - eapply step_crash_inv; try done. destruct Hsafe; [done|congruence].
Qed.

Lemma run_inv cl cl' :
  ClusterInv cl → rtc (cluster_step c gated crashes) cl cl' →
  ClusterInv cl' ∧ cl_history cl ⊆ cl_history cl'.
Proof.
  intros HC Hr. induction Hr as [|x y z Hxy _ IH]; [done|].
  destruct (IH (cluster_step_inv _ _ HC Hxy)) as [HZ Hsub]. split; [done|].
  etrans; [|exact Hsub]. destruct Hxy; cbn; done || apply hist_grow.
Qed.

(** Two leaders of one term, at any two points of a run, are one. *)
Lemma leaders_unique cl cl' a b t :
  ClusterInv cl → rtc (cluster_step c gated crashes) cl cl' →
  leads cl a t → leads cl' b t → a = b.
Proof.
  intros HC Hr (ha & Ha & La & <-) (hb & Hb & Lb & Et).
  destruct (run_inv _ _ HC Hr) as [HC' Hsub].
  pose proof (hi_module _ _ _ (ci_hosts _ HC _ _ Ha)) as Ma.
  pose proof (hi_module _ _ _ (ci_hosts _ HC' _ _ Hb)) as Mb.
  pose proof (inv_id _ (mi_inv _ _ _ Ma)) as Pa. rewrite (mi_id _ _ _ Ma) in Pa.
  pose proof (inv_id _ (mi_inv _ _ _ Mb)) as Pb. rewrite (mi_id _ _ _ Mb) in Pb.
  eapply (elected_unique _ _ _ _ (ci_one_vote _ HC')); [done|done| |].
  - eapply elected_mono; [exact Hsub|]. by apply (mi_leader _ _ _ Ma).
  - rewrite <- Et. by apply (mi_leader _ _ _ Mb).
Qed.
End Invariant.
