(* ===== verification/ClusterTheorems.v ===== *)
(** * Theorems about a group of servers

    At most one leader per term, for every interleaving of the steps of
    Cluster.v, and the run that shows why the contract of
    [MustPersistMetadata] is needed for it. *)

From stdpp Require Import relations.
From S2P Require Import Prelude RaftProto ConfigState LogMetadata ConsensusState Consensus.
From S2P Require Import RaftLog ConsensusInv ConsensusOps ConsensusNew ConsensusMachine.
From S2P Require Import RaftScenario Cluster ClusterInv.

(** ** Replaying a run *)

Inductive Cmd :=
| DoCycle (id : ServerId) (t : Instant)
| DoPreVote (id from : ServerId) (request : RequestId) (resp : RequestVoteResponse) (t : Instant)
| DoVote (id : ServerId) (k : nat) (t : Instant)
| DoRelease (id : ServerId) (k : nat)
| DoAnswer (k : nat) (t : Instant)
| DoBegin (id : ServerId)
| DoStore (id : ServerId)
| DoTell (id : ServerId) (t : Instant)
| DoCrash (id : ServerId) (t : Instant).

Section Replay.
Context (c : Configuration) (gated crashes : bool).

Definition op_on (id : ServerId) (h : Host) (t : Instant) (op : Op) (cl : Cluster) : option Cluster :=
  n ← op_at (h_module h) t op;
  Some (put gated id (h_set_module (node_cm n) h) (node_tick n) cl).

Definition vote_on (id : ServerId) (h : Host) (k : nat) (t : Instant) (cl : Cluster) : option Cluster :=
  x ← cl_sent cl !! k;
  match msg_body x.2 with
  | RequestVote req =>
    if bool_decide (id ∈ msg_to x.2) then
      match request_vote req (node_at (h_module h) t) with
      | Done (r, n) =>
        Some (put gated id (mkHost (node_cm n) (h_durable h) (h_writer h)
          (h_held h ++ [mkAnswer id x.1 (msg_request_id x.2) r])) (node_tick n) cl)
      | _ => None
      end
    else None
  | _ => None
  end.

Definition exec (cmd : Cmd) (cl : Cluster) : option Cluster :=
  match cmd with
  | DoCycle id t => h ← cl_hosts cl !! id; op_on id h t OpCycle cl
  | DoPreVote id from request resp t =>
    h ← cl_hosts cl !! id;
    if bool_decide (rvr_last_config_hint resp = None)
    then op_on id h t (OpRequestVoteCallback from request true resp) cl else None
  | DoVote id k t => h ← cl_hosts cl !! id; vote_on id h k t cl
  | DoRelease id k =>
    h ← cl_hosts cl !! id; a ← h_held h !! k;
    if may_release gated h a
    then Some (mkCluster (cl_hosts cl) (cl_sent cl) (cl_answers cl ++ [a]) (cl_history cl))
    else None
  | DoAnswer k t =>
    a ← cl_answers cl !! k; h ← cl_hosts cl !! an_to a;
    op_on (an_to a) h t
      (OpRequestVoteCallback (an_from a) (an_request a) false (an_resp a)) cl
  | DoBegin id =>
    h ← cl_hosts cl !! id;
    match h_writer h with
    | Idle => Some (put gated id (mkHost (h_module h) (h_durable h)
                (Storing (cm_meta (h_module h))) (h_held h)) (Tick_empty 0) cl)
    | _ => None
    end
  | DoStore id =>
    h ← cl_hosts cl !! id;
    match h_writer h with
    | Storing meta =>
      Some (put gated id (mkHost (h_module h) meta (Stored meta) (h_held h)) (Tick_empty 0) cl)
    | _ => None
    end
  | DoTell id t =>
    h ← cl_hosts cl !! id;
    match h_writer h with
    | Stored meta =>
      n ← op_at (h_module h) t (OpPersistedMetadata meta);
      Some (put gated id (mkHost (node_cm n) (h_durable h) Idle (h_held h)) (node_tick n) cl)
    | _ => None
    end
  | DoCrash id t =>
    h ← cl_hosts cl !! id;
    if crashes then
      match ConsensusModule_new id (h_durable h) (mkConfigurationSnapshot 0 c) MemoryLog_new t
              (node_at dummy 0) with
      | Done (m, _) => Some (put gated id (mkHost m (h_durable h) Idle []) (Tick_empty 0) cl)
      | _ => None
      end
    else None
  end.

Fixpoint replay (l : list Cmd) (cl : Cluster) : option Cluster :=
  match l with
  | [] => Some cl
  | cmd :: l' => cl' ← exec cmd cl; replay l' cl'
  end.
End Replay.

Ltac binds :=
  repeat match goal with
  | H : _ ≫= _ = Some _ |- _ => apply bind_Some in H as (? & ? & ?)
  end.

Lemma exec_step c gated crashes cmd cl cl' :
  exec c gated crashes cmd cl = Some cl' → cluster_step c gated crashes cl cl'.
Proof.
  destruct cmd; cbn [exec]; intros H; binds; unfold op_on, vote_on in *; binds; simplify_eq.
  - eapply (step_op _ _ _ _ _ _ OpCycle); [done..|]. by eapply op_at_step.
  - case_bool_decide as Hh; [|done]. binds. simplify_eq.
    eapply (step_op _ _ _ _ _ _ (OpRequestVoteCallback from request true resp));
      [done..| |by eapply op_at_step]. cbn. by rewrite Hh.
  - destruct x0 as [from msg]. cbn in *. case_match eqn:Eb; try done. case_bool_decide; [|done].
    destruct (request_vote _ _) as [[resp n]| |] eqn:Er; simplify_eq.
    eapply step_vote; [done|by eapply list_elem_of_lookup_2|]. by repeat eexists.
  - case_match; simplify_eq. eapply step_release; try done. by eapply list_elem_of_lookup_2.
  - eapply step_answer; [done|by eapply list_elem_of_lookup_2|]. eexists. split; [by eapply op_at_step|done].
  - case_match; simplify_eq. eapply step_writer; [done|]. by apply writer_begin.
  - case_match; simplify_eq. eapply step_writer; [done|]. by apply writer_store.
  - case_match; simplify_eq. binds. simplify_eq. eapply step_writer; [done|].
    eapply writer_tell; [done|]. by eapply op_at_step.
  - destruct crashes; [|done]. destruct (ConsensusModule_new _ _ _ _ _ _) as [[m n]| |] eqn:En; simplify_eq.
    eapply (step_crash _ _ _ _ _ _ MemoryLog_new); [done|done|]. by eapply server_new_module; [..|exact En].
Qed.

Lemma replay_run c gated crashes l cl cl' :
  replay c gated crashes l cl = Some cl' → rtc (cluster_step c gated crashes) cl cl'.
Proof.
  revert cl. induction l as [|cmd l IH]; intros cl H; cbn in H; [by simplify_eq|].
  binds. eapply rtc_l; [by eapply exec_step|auto].
Qed.

(** ** Three servers *)

Definition three : Configuration :=
  mkConfiguration [mkServer 1 MEMBER; mkServer 2 MEMBER; mkServer 3 MEMBER].

Definition fresh (id : ServerId) : Host :=
  mkHost (started_module id three) (mkMetadata 0 0 0) Idle [].

Definition group (gated : bool) : Cluster := Eval vm_compute in
  let hosts := list_to_map ((λ id, (id, fresh id)) <$> [1; 2; 3]) in
  mkCluster hosts [] [] ((λ x, (x.1, remembered gated x.2)) <$> map_to_list hosts).

(** Server [id] times out and asks for votes; server 2 would grant one. *)
Definition stand (id : ServerId) (t : Instant) : list Cmd :=
  [DoCycle id t; DoPreVote id 2 1 granted t].
Definition persist (id : ServerId) (t : Instant) : list Cmd :=
  [DoBegin id; DoStore id; DoTell id t].

Lemma three_wf : Configuration_wf three.
Proof. by apply (bool_decide_unpack _). Qed.

Lemma three_no_aspiring : no_aspiring three.
Proof.
  intros id. unfold server_role, Configuration_server, find_server. cbn.
  repeat case_match; by simplify_eq/=.
Qed.

Lemma started_server id :
  id ∈ [1; 2; 3] → 0 < id ∧ server_new three id (mkMetadata 0 0 0) MemoryLog_new (fresh id).
Proof.
  intros Hid. split; [by repeat (apply elem_of_cons in Hid as [->|Hid]; [done|]); apply elem_of_nil in Hid|].
  apply (server_new_module _ _ _ _ (mkConfigurationSnapshot 0 three) 0 (node_at dummy 0) _
    (match start id three with Done (_, n) => n | _ => node_at dummy 0 end)); done.
Qed.

Lemma group_hosts gated : cl_hosts (group gated) = list_to_map ((λ id, (id, fresh id)) <$> [1; 2; 3]).
Proof. by vm_compute. Qed.

Lemma group_started gated : cluster_start three gated (group gated).
Proof.
  split; [|done|done|by destruct gated; vm_compute].
  intros id h. rewrite group_hosts. intros Hh%elem_of_list_to_map_2.
  apply list_elem_of_fmap in Hh as (i & [= -> ->] & Hi). destruct (started_server _ Hi).
  by eapply (fresh_host_new _ _ _ (mkMetadata 0 0 0)).
Qed.

(** Server 1 is elected with the vote of server 2, which is stored first. *)
Definition elect_stored : list Cmd :=
  stand 1 t1 ++ [DoVote 2 1 t1] ++ persist 2 t1 ++ [DoRelease 2 0; DoAnswer 0 t1] ++ persist 1 t1.

(** Server 1 is elected with a vote that is not stored; its voter crashes
    and votes for server 3 in the same term. *)
Definition elect_early : list Cmd :=
  stand 1 t1 ++ [DoVote 2 1 t1; DoRelease 2 0; DoAnswer 0 t1] ++ persist 1 t1.
Definition elect_again : list Cmd :=
  [DoCrash 2 t1] ++ stand 3 (ms 900) ++ [DoVote 2 5 (ms 900); DoRelease 2 0; DoAnswer 1 (ms 900)] ++
  persist 3 (ms 900).

Definition replayed (gated : bool) (l : list Cmd) (cl : Cluster) : Cluster :=
  default cl (replay three gated true l cl).

Definition stored1 : Cluster := Eval vm_compute in replayed true elect_stored (group true).
Definition crashed2 : Cluster := Eval vm_compute in replayed true [DoCrash 2 t1] stored1.
Definition split_brain : Cluster :=
  Eval vm_compute in replayed false (elect_early ++ elect_again) (group false).

(** C3: election safety. In a group with a fixed configuration, a term has
    at most one leader: a server that leads a term at one point of a run is
    the one that leads it at any later point, whatever is lost, reordered or
    delivered twice. It holds when servers crash and restart from their disk
    as long as a granted vote leaves a server only while it is the vote on
    disk, and it holds without that rule when no server crashes. *)
Theorem election_safety c gated crashes cl0 cl1 cl2 a b t :
  Configuration_wf c → no_aspiring c → gated = true ∨ crashes = false →
  cluster_start c gated cl0 →
  rtc (cluster_step c gated crashes) cl0 cl1 → rtc (cluster_step c gated crashes) cl1 cl2 →
  leads cl1 a t → leads cl2 b t → a = b.
Proof.
  intros Hwf Hc Hsafe H0 H01 H12.
  destruct (run_inv c gated crashes Hwf Hc Hsafe _ _ (start_inv c gated Hc _ H0) H01) as [HC _].
  by eapply leaders_unique.
Qed.

Lemma election_safety_witness : leads stored1 1 1 ∧ leads crashed2 1 1 ∧ 1 = 1.
Proof.
  assert (leads stored1 1 1) as H1 by (eexists; split; [by vm_compute|done]).
  assert (leads crashed2 1 1) as H2 by (eexists; split; [by vm_compute|done]).
  split; [exact H1|]. split; [exact H2|].
  refine (election_safety three true true (group true) stored1 crashed2 1 1 1 three_wf
    three_no_aspiring (or_introl eq_refl) (group_started true) _ _ H1 H2).
  - apply (replay_run _ _ _ elect_stored). by vm_compute.
  - apply (replay_run _ _ _ [DoCrash 2 t1]). by vm_compute.
Defined.

(** C8: releasing a vote before it is stored, as the RequestVote RPC does, is
    not safe when servers crash: a run of three servers has two leaders of
    term 1, because the voter restarts without its vote and votes again. *)
Theorem early_release_two_leaders :
  ∃ cl0 cl, cluster_start three false cl0 ∧ rtc (cluster_step three false true) cl0 cl ∧
    leads cl 1 1 ∧ leads cl 3 1.
Proof.
  exists (group false), split_brain. split_and!.
  - apply group_started.
  - apply (replay_run _ _ _ (elect_early ++ elect_again)). by vm_compute.
  - eexists. split; [by vm_compute|done].
  - eexists. split; [by vm_compute|done].
Qed.
