(* ===== verification/Replica.v ===== *)
(** * Servers with their logs

    The group of Cluster.v with the log of every server, the entries that
    AppendEntries requests carry, and the state machine: [finish_tick],
    [dispatch_messages], [populate_append_entries_request], the AppendEntries
    RPC, [run_matcher], [update_commit_index] and [run_apply_entries] of
    src/pkg/raft/src/server/server_shared.rs and server.rs. Snapshots,
    log compaction and membership changes are left out: a log starts at
    index 1 and all servers keep one configuration. *)

From stdpp Require Import relations.
From S2P Require Import Prelude RaftProto ConfigState LogMetadata ConsensusState Consensus.
From S2P Require Import RaftLog ConsensusInv ConsensusOps ConsensusNew ConsensusMachine Cluster.

(** ** The log of a server *)

(** Appended entries are visible at once and on disk after a flush. *)
Record DiskLog := mkDiskLog {
  dl_log : MemoryLogSync;
  dl_disk : MemoryLogSync;
}.

#[export] Instance DiskLog_Log : Log DiskLog := {
  log_prev l := ml_prev (dl_log l);
  log_term St l i := ml_term (dl_log l) i;
  log_last_index St l := ml_last_index (dl_log l);
  log_entry St l i := ml_entry (dl_log l) i;
  log_append St l e q := let! m := ml_append (dl_log l) e q in ret (mkDiskLog m (dl_disk l));
  log_last_flushed l := ml_last_flushed (dl_disk l);
}.

#[export] Instance DiskLog_LogLaws : LogLaws DiskLog.
Proof.
  refine {| log_view := λ l, ml_view (dl_log l); log_ok := λ l, al_wf (ml_view (dl_log l)) |}.
  - done.
  - done.
  - intros l i St s Hl. by apply ml_term_ok.
  - intros l St s Hl. by apply ml_last_index_ok.
  - intros l i St s Hl. by apply ml_entry_ok.
  - intros l e q Hl Hi Hmax. destruct (ml_append_ok (dl_log l) e q Hl Hi Hmax) as (m & Hm & Hwf & Hv).
    exists (mkDiskLog m (dl_disk l)). split; [|done]. intros St s. cbn. unfold bind. by rewrite Hm.
Defined.

(** All that was appended reaches the disk. *)
Definition flush (l : DiskLog) : DiskLog := mkDiskLog (dl_log l) (dl_log l).

(** What is left of the log after a crash. *)
Definition reopen (l : DiskLog) : DiskLog := mkDiskLog (dl_disk l) (dl_disk l).

(** ** What a tick leads to *)

(** An AppendEntries request on its way, with its entries. *)
Record Packet := mkPacket {
  pk_from : ServerId;
  pk_to : ServerId;
  pk_request : RequestId;
  pk_req : AppendEntriesRequest;
}.

(** The new entries of the tick are appended to the log. *)
Fixpoint append_all (l : DiskLog) (es : list NewLogEntry) : M unit DiskLog :=
  match es with
  | [] => ret l
  | e :: es' => let! l := log_append l (ne_entry e) (ne_sequence e) in append_all l es'
  end.

(** [populate_append_entries_request] *)
Definition populate_append_entries_request (l : DiskLog) (request : AppendEntriesRequest)
    (last_log_index : LogIndex) (last_log_sequence : LogSequence)
    : M unit (option AppendEntriesRequest) :=
  if ae_prev_log_index request =? last_log_index then ret (Some request) else
  assert (length (ae_entries request) =? 0)%nat ;!
  let! first := u64_add (ae_prev_log_index request) 1 in
  let! found := ml_entries (dl_log l) first last_log_index in
  match found with
  | None => ret None
  | Some (entries, last_entry_sequence) =>
    if negb (last_log_sequence =? last_entry_sequence) then ret None
    else ret (Some (mkAppendEntriesRequest (ae_term request) (ae_leader_id request)
           (ae_prev_log_index request) (ae_prev_log_term request) (ae_entries request ++ entries)
           (ae_leader_commit request) (ae_timeout_now request)))
  end.

(** The AppendEntries case of [dispatch_messages]; messages of the other
    kinds are in [g_sent] as they are. *)
Definition dispatch_message (id : ServerId) (l : DiskLog) (msg : ConsensusMessage)
    : M unit (list Packet) :=
  match msg_body msg with
  | AppendEntries request last_log_index last_log_sequence =>
    let! r := populate_append_entries_request l request last_log_index last_log_sequence in
    ret match r with
        | Some req => (λ to, mkPacket id to (msg_request_id msg) req) <$> msg_to msg
        | None => []
        end
  | _ => ret []
  end.

Fixpoint dispatch_messages (id : ServerId) (l : DiskLog) (msgs : list ConsensusMessage)
    : M unit (list Packet) :=
  match msgs with
  | [] => ret []
  | msg :: msgs' =>
    let! sent := dispatch_message id l msg in
    let! rest := dispatch_messages id l msgs' in
    ret (sent ++ rest)
  end.

(** [update_commit_index]: the committed position the applier may use. *)
Definition update_commit_index (l : DiskLog) (commit_index : LogIndex) : M unit LogPosition :=
  let! t := log_term l commit_index in
  match t with
  | Some term => ret (mkLogPosition term commit_index)
  | None =>
    let! last_log_index := log_last_index l in
    let! t := log_term l last_log_index in
    let! term := unwrap t in
    ret (mkLogPosition term last_log_index)
  end.

(** [finish_tick] *)
Definition finish_tick (id : ServerId) (l : DiskLog) (commit : LogPosition) (m : ConsensusModule)
    (t : Tick) : M unit (DiskLog * LogPosition * list Packet) :=
  let! l := append_all l (tick_new_entries t) in
  let! commit :=
    (if negb (length (tick_new_entries t) =? 0)%nat || tick_meta t
     then update_commit_index l (commit_index (cm_meta m)) else ret commit) in
  let! packets := dispatch_messages id l (tick_messages t) in
  ret (l, commit, packets).

(** The loop of [run_apply_entries]: the entries after the [applied] ones up
    to the committed index are applied in order; it stops at one that is not
    in the log. *)
Fixpoint apply_loop (fuel : nat) (l : DiskLog) (applied : list LogEntry) : M unit (list LogEntry) :=
  match fuel with
  | O => ret applied
  | S fuel =>
    let! e := log_entry l (Z.of_nat (length applied) + 1) in
    match e with
    | Some (entry, _) => apply_loop fuel l (applied ++ [entry])
    | None => ret applied
    end
  end.

Definition run_apply_entries (l : DiskLog) (commit : LogPosition) (applied : list LogEntry)
    : M unit (list LogEntry) :=
  apply_loop (Z.to_nat (pos_index commit - Z.of_nat (length applied))) l applied.

(** ** The group *)

(** A response of the AppendEntries RPC that waits for the log
    ([wait_for_match]). *)
Record Waiting := mkWaiting {
  wa_to : ServerId;
  wa_request : RequestId;
  wa_constraint : FlushConstraint AppendEntriesResponse;
}.

Record Ack := mkAck {
  ak_from : ServerId;
  ak_to : ServerId;
  ak_request : RequestId;
  ak_resp : AppendEntriesResponse;
}.

Record Peer := mkPeer {
  pe_host : Host;
  pe_log : DiskLog;
  pe_commit : LogPosition;
  pe_waiting : list Waiting;
  pe_applied : list LogEntry;
}.

Record Group := mkGroup {
  g_peers : gmap ServerId Peer;
  g_sent : list (ServerId * ConsensusMessage);
  g_answers : list Answer;
  g_history : list (ServerId * Metadata);
  g_packets : list Packet;
  g_acks : list Ack;
}.

(** What Cluster.v sees of a group. *)
Definition cluster_of (g : Group) : Cluster :=
  mkCluster (pe_host <$> g_peers g) (g_sent g) (g_answers g) (g_history g).

(** Operations of a server of its own, and requests that do not concern
    votes, entries or the disk. *)
Definition local_op (c : Configuration) (op : Op) : Prop :=
  match op with
  | OpCycle | OpScheduleHeartbeat | OpResetFollower _ | OpDrain
  | OpHeartbeat _ | OpHeartbeatCallback _ _ _ | OpAppendEntriesNoresponse _ _ => True
  | OpPropose data _ => is_config data = false
  | OpRequestVoteCallback _ _ pre resp =>
    pre = true ∧ ∀ s, rvr_last_config_hint resp = Some s → snap_data s = c
  | _ => False
  end.

(** The AppendEntries RPC of server.rs: the response waits for the log,
    unless the module refuses the request. *)
Definition append_entries_rpc (k : Packet) (p : Peer) (t : Tick) (h : Host) (waiting : list Waiting)
    : Prop :=
  ∃ now rand r n,
    append_entries (pk_req k) (mkNode (h_module (pe_host p)) (Tick_empty now) rand 0) = Done (r, n) ∧
    t = node_tick n ∧ h = h_set_module (node_cm n) (pe_host p) ∧
    waiting = pe_waiting p ++ match r with
                              | inr fc => [mkWaiting (pk_from k) (pk_request k) fc]
                              | inl _ => []
                              end.

(** [wait_for_append_entries]: a response reaches the leader. *)
Definition wait_for_append_entries (a : Ack) (h : Host) (t : Tick) (h' : Host) : Prop :=
  ∃ m, server_step (h_module h) (OpAppendEntriesCallback (ak_from a) (ak_request a) (ak_resp a)) t m ∧
       h' = h_set_module m h.

(** [update_log_last_flushed]: the module is told what is on disk. *)
Definition update_log_last_flushed (l : DiskLog) (h : Host) (t : Tick) (h' : Host) : Prop :=
  ∃ m, server_step (h_module h) (OpLogFlushed (log_last_flushed l)) t m ∧ h' = h_set_module m h.

Section Steps.
Context (c : Configuration) (gated crashes : bool).

Definition set_peer (id : ServerId) (p : Peer) (g : Group) : Group :=
  mkGroup (<[id := p]> (g_peers g)) (g_sent g) (g_answers g) (g_history g) (g_packets g) (g_acks g).

Definition gput (id : ServerId) (p : Peer) (t : Tick) (packets : list Packet) (g : Group) : Group :=
  mkGroup (<[id := p]> (g_peers g)) (g_sent g ++ ((λ msg, (id, msg)) <$> tick_messages t))
    (g_answers g) (g_history g ++ [(id, remembered gated (pe_host p))])
    (g_packets g ++ packets) (g_acks g).

(** [run_tick]: the module of [p] has become [m] with tick [t]. *)
Definition ticked (id : ServerId) (p : Peer) (h : Host) (t : Tick) (waiting : list Waiting)
    (g g' : Group) : Prop :=
  ∃ l commit packets,
    finish_tick id (pe_log p) (pe_commit p) (h_module h) t tt = Done (l, commit, packets, tt) ∧
    g' = gput id (mkPeer h l commit waiting (pe_applied p)) t packets g.

Inductive group_step (g : Group) : Group → Prop :=
| g_op id p op t m g' :
    g_peers g !! id = Some p → local_op c op → server_step (h_module (pe_host p)) op t m →
    ticked id p (h_set_module m (pe_host p)) t (pe_waiting p) g g' → group_step g g'
| g_vote id p from msg t h g' :
    g_peers g !! id = Some p → (from, msg) ∈ g_sent g →
    request_vote_rpc id from msg (pe_host p) t h →
    ticked id p h t (pe_waiting p) g g' → group_step g g'
| g_release id p a :
    g_peers g !! id = Some p → a ∈ h_held (pe_host p) → may_release gated (pe_host p) a = true →
    group_step g (mkGroup (g_peers g) (g_sent g) (g_answers g ++ [a]) (g_history g)
      (g_packets g) (g_acks g))
| g_vote_answer p a t h g' :
    g_peers g !! an_to a = Some p → a ∈ g_answers g → dispatch_request_vote a (pe_host p) t h →
    ticked (an_to a) p h t (pe_waiting p) g g' → group_step g g'
| g_append p k t h waiting g' :
    g_peers g !! pk_to k = Some p → k ∈ g_packets g →
    append_entries_rpc k p t h waiting →
    ticked (pk_to k) p h t waiting g g' → group_step g g'
| g_matched id p w v :
    g_peers g !! id = Some p → w ∈ pe_waiting p →
    poll (wa_constraint w) (pe_log p) tt = Done (Satisfied v, tt) →
    group_step g (mkGroup (g_peers g) (g_sent g) (g_answers g) (g_history g) (g_packets g)
      (g_acks g ++ [mkAck id (wa_to w) (wa_request w) v]))
| g_ack p a t h g' :
    g_peers g !! ak_to a = Some p → a ∈ g_acks g → wait_for_append_entries a (pe_host p) t h →
    ticked (ak_to a) p h t (pe_waiting p) g g' → group_step g g'
| g_writer id p t h g' :
    g_peers g !! id = Some p → run_meta_writer (pe_host p) t h →
    ticked id p h t (pe_waiting p) g g' → group_step g g'
| g_flush id p :
    g_peers g !! id = Some p →
    group_step g (set_peer id (mkPeer (pe_host p) (flush (pe_log p))
      (pe_commit p) (pe_waiting p) (pe_applied p)) g)
| g_flushed id p t h g' :
    g_peers g !! id = Some p → update_log_last_flushed (pe_log p) (pe_host p) t h →
    ticked id p h t (pe_waiting p) g g' → group_step g g'
| g_apply id p applied :
    g_peers g !! id = Some p →
    run_apply_entries (pe_log p) (pe_commit p) (pe_applied p) tt = Done (applied, tt) →
    group_step g (set_peer id (mkPeer (pe_host p) (pe_log p) (pe_commit p) (pe_waiting p) applied) g)
| g_crash id p h commit :
    crashes = true → g_peers g !! id = Some p →
    server_new c id (h_durable (pe_host p)) (dl_disk (pe_log p)) h →
    update_commit_index (reopen (pe_log p)) (commit_index (cm_meta (h_module h))) tt = Done (commit, tt) →
    group_step g (gput id (mkPeer h (reopen (pe_log p)) commit [] []) (Tick_empty 0) [] g).

(** A server that was just created: nothing on disk, an empty log. *)
Inductive fresh_peer (id : ServerId) : Peer → Prop :=
| fresh_peer_new h :
    0 < id → server_new c id (mkMetadata 0 0 0) MemoryLog_new h →
    fresh_peer id (mkPeer h (mkDiskLog MemoryLog_new MemoryLog_new) LogPosition_zero [] []).

Record group_start (g : Group) : Prop := mkGroupStart {
  gs_peers id p : g_peers g !! id = Some p → fresh_peer id p;
  gs_sent : g_sent g = [];
  gs_answers : g_answers g = [];
  gs_history : g_history g = (λ x, (x.1, remembered gated (pe_host x.2))) <$> map_to_list (g_peers g);
  gs_packets : g_packets g = [];
  gs_acks : g_acks g = [];
}.
End Steps.
