(* ===== verification/ReplicaScenario.v ===== *)
(** * Replaying runs of a group with logs

    An interpreter for the steps of Replica.v, and the run in which two
    servers apply different commands at the same index. *)

From stdpp Require Import relations.
From S2P Require Import Prelude RaftProto ConfigState LogMetadata ConsensusState Consensus.
From S2P Require Import RaftLog ConsensusInv ConsensusOps ConsensusNew ConsensusMachine.
From S2P Require Import RaftScenario Cluster ClusterInv ClusterTheorems Replica.

Inductive GCmd :=
| GOp (id : ServerId) (t : Instant) (op : Op)
| GVote (id : ServerId) (k : nat) (t : Instant)
| GRelease (id : ServerId) (k : nat)
| GVoteAnswer (k : nat) (t : Instant)
| GAppend (k : nat) (t : Instant)
| GMatched (id : ServerId) (k : nat)
| GAck (k : nat) (t : Instant)
| GBegin (id : ServerId)
| GStore (id : ServerId)
| GTell (id : ServerId) (t : Instant)
| GFlush (id : ServerId)
| GFlushed (id : ServerId) (t : Instant)
| GApply (id : ServerId)
| GCrash (id : ServerId) (t : Instant).

(** The operations of the scenarios. *)
Definition plain_op (op : Op) : bool :=
  match op with
  | OpCycle | OpDrain | OpScheduleHeartbeat => true
  | OpPropose data _ => negb (is_config data)
  | OpRequestVoteCallback _ _ pre resp => pre && bool_decide (rvr_last_config_hint resp = None)
  | _ => false
  end.

Section Replay.
Context (c : Configuration) (gated crashes : bool).

Definition tick_on (id : ServerId) (p : Peer) (h : Host) (t : Tick) (w : list Waiting) (g : Group)
    : option Group :=
  match finish_tick id (pe_log p) (pe_commit p) (h_module h) t tt with
  | Done (l, commit, packets, _) =>
    Some (gput gated id (mkPeer h l commit w (pe_applied p)) t packets g)
  | _ => None
  end.

Definition gop_on (id : ServerId) (p : Peer) (t : Instant) (op : Op) (g : Group) : option Group :=
  n ← op_at (h_module (pe_host p)) t op;
  tick_on id p (h_set_module (node_cm n) (pe_host p)) (node_tick n) (pe_waiting p) g.

Definition gvote_on (id : ServerId) (p : Peer) (k : nat) (t : Instant) (g : Group) : option Group :=
  x ← g_sent g !! k;
  match msg_body x.2 with
  | RequestVote req =>
    if bool_decide (id ∈ msg_to x.2) then
      match request_vote req (node_at (h_module (pe_host p)) t) with
      | Done (r, n) =>
        tick_on id p (mkHost (node_cm n) (h_durable (pe_host p)) (h_writer (pe_host p))
          (h_held (pe_host p) ++ [mkAnswer id x.1 (msg_request_id x.2) r])) (node_tick n)
          (pe_waiting p) g
      | _ => None
      end
    else None
  | _ => None
  end.

Definition gappend_on (p : Peer) (k : Packet) (t : Instant) (g : Group) : option Group :=
  match append_entries (pk_req k) (node_at (h_module (pe_host p)) t) with
  | Done (r, n) =>
    tick_on (pk_to k) p (h_set_module (node_cm n) (pe_host p)) (node_tick n)
      (pe_waiting p ++ match r with
                       | inr fc => [mkWaiting (pk_from k) (pk_request k) fc]
                       | inl _ => []
                       end) g
  | _ => None
  end.

Definition gcrash_on (id : ServerId) (p : Peer) (t : Instant) (g : Group) : option Group :=
  match dl_disk (pe_log p) with
  | mkMemoryLog (mkLogPosition 0 0) [] =>
    match ConsensusModule_new id (h_durable (pe_host p)) (mkConfigurationSnapshot 0 c) MemoryLog_new t
            (node_at dummy 0) with
    | Done (m, _) =>
      match update_commit_index (mkDiskLog MemoryLog_new MemoryLog_new) (commit_index (cm_meta m)) tt with
      | Done (commit, _) =>
        Some (gput gated id (mkPeer (mkHost m (h_durable (pe_host p)) Idle [])
          (mkDiskLog MemoryLog_new MemoryLog_new) commit [] []) (Tick_empty 0) [] g)
      | _ => None
      end
    | _ => None
    end
  | _ => None
  end.

Definition gexec (cmd : GCmd) (g : Group) : option Group :=
  match cmd with
  | GOp id t op => p ← g_peers g !! id; if plain_op op then gop_on id p t op g else None
  | GVote id k t => p ← g_peers g !! id; gvote_on id p k t g
  | GRelease id k =>
    p ← g_peers g !! id; a ← h_held (pe_host p) !! k;
    if may_release gated (pe_host p) a
    then Some (mkGroup (g_peers g) (g_sent g) (g_answers g ++ [a]) (g_history g) (g_packets g) (g_acks g))
    else None
  | GVoteAnswer k t =>
    a ← g_answers g !! k; p ← g_peers g !! an_to a;
    gop_on (an_to a) p t (OpRequestVoteCallback (an_from a) (an_request a) false (an_resp a)) g
  | GAppend k t => k ← g_packets g !! k; p ← g_peers g !! pk_to k; gappend_on p k t g
  | GMatched id k =>
    p ← g_peers g !! id; w ← pe_waiting p !! k;
    match poll (wa_constraint w) (pe_log p) tt with
    | Done (Satisfied v, _) =>
      Some (mkGroup (g_peers g) (g_sent g) (g_answers g) (g_history g) (g_packets g)
        (g_acks g ++ [mkAck id (wa_to w) (wa_request w) v]))
    | _ => None
    end
  | GAck k t =>
    a ← g_acks g !! k; p ← g_peers g !! ak_to a;
    gop_on (ak_to a) p t (OpAppendEntriesCallback (ak_from a) (ak_request a) (ak_resp a)) g
  | GBegin id =>
    p ← g_peers g !! id;
    match h_writer (pe_host p) with
    | Idle => tick_on id p (mkHost (h_module (pe_host p)) (h_durable (pe_host p))
        (Storing (cm_meta (h_module (pe_host p)))) (h_held (pe_host p))) (Tick_empty 0) (pe_waiting p) g
    | _ => None
    end
  | GStore id =>
    p ← g_peers g !! id;
    match h_writer (pe_host p) with
    | Storing meta => tick_on id p (mkHost (h_module (pe_host p)) meta (Stored meta)
        (h_held (pe_host p))) (Tick_empty 0) (pe_waiting p) g
    | _ => None
    end
  | GTell id t =>
    p ← g_peers g !! id;
    match h_writer (pe_host p) with
    | Stored meta =>
      n ← op_at (h_module (pe_host p)) t (OpPersistedMetadata meta);
      tick_on id p (mkHost (node_cm n) (h_durable (pe_host p)) Idle (h_held (pe_host p)))
        (node_tick n) (pe_waiting p) g
    | _ => None
    end
  | GFlush id =>
    p ← g_peers g !! id;
    Some (set_peer id (mkPeer (pe_host p) (flush (pe_log p)) (pe_commit p) (pe_waiting p)
      (pe_applied p)) g)
  | GFlushed id t =>
    p ← g_peers g !! id; gop_on id p t (OpLogFlushed (log_last_flushed (pe_log p))) g
  | GApply id =>
    p ← g_peers g !! id;
    match run_apply_entries (pe_log p) (pe_commit p) (pe_applied p) tt with
    | Done (applied, _) =>
      Some (set_peer id (mkPeer (pe_host p) (pe_log p) (pe_commit p) (pe_waiting p) applied) g)
    | _ => None
    end
  | GCrash id t => p ← g_peers g !! id; if crashes then gcrash_on id p t g else None
  end.

Fixpoint greplay (l : list GCmd) (g : Group) : option Group :=
  match l with
  | [] => Some g
  | cmd :: l' => g' ← gexec cmd g; greplay l' g'
  end.
End Replay.

Lemma tick_on_ticked gated id p h t w g g' :
  tick_on gated id p h t w g = Some g' → ticked gated id p h t w g g'.
Proof.
  unfold tick_on, ticked. destruct (finish_tick _ _ _ _ _ _) as [[[[l commit] packets] []]| |] eqn:E;
    intros [= <-]. eauto.
Qed.

Lemma plain_op_local c op : plain_op op = true → local_op c op.
Proof.
  destruct op; cbn; try done; intros H; [by apply negb_true_iff in H|].
  apply andb_prop in H as [-> H%bool_decide_eq_true]. split; [done|]. by rewrite H.
Qed.

Lemma gop_on_step gated id p t op g g' :
  discards op = false → gop_on gated id p t op g = Some g' →
  ∃ k m, server_step (h_module (pe_host p)) op k m ∧
    ticked gated id p (h_set_module m (pe_host p)) k (pe_waiting p) g g'.
Proof.
  intros Hd H. unfold gop_on in H. binds. do 2 eexists. split; [by eapply op_at_step|].
  by apply tick_on_ticked.
Qed.

Lemma gcrash_on_step c gated id p t g g' :
  g_peers g !! id = Some p → gcrash_on c gated id p t g = Some g' → group_step c gated true g g'.
Proof.
  intros Hp. unfold gcrash_on.
  destruct (dl_disk (pe_log p)) as [[t0 i0] ents] eqn:Ed. destruct t0, i0, ents; try done.
  destruct (ConsensusModule_new _ _ _ _ _ _) as [[m n]| |] eqn:En; try done.
  destruct (update_commit_index _ _ _) as [[commit []]| |] eqn:Eu; intros [= <-].
  assert (dl_disk (pe_log p) = MemoryLog_new) as Em by done.
  change (mkDiskLog MemoryLog_new MemoryLog_new) with (reopen (mkDiskLog MemoryLog_new MemoryLog_new)).
  assert (reopen (pe_log p) = reopen (mkDiskLog MemoryLog_new MemoryLog_new)) as Er
    by (unfold reopen; by rewrite Em).
  rewrite <- Er. eapply g_crash; [done|done| |by rewrite Er]. rewrite Em.
  by eapply (server_new_module _ _ _ _ (mkConfigurationSnapshot 0 c)); [..|exact En].
Qed.

Lemma gexec_step c gated crashes cmd g g' :
  gexec c gated crashes cmd g = Some g' → group_step c gated crashes g g'.
Proof.
  destruct cmd; cbn [gexec]; intros H; binds; simplify_eq.
  - destruct (plain_op op) eqn:Eo; [|done]. apply gop_on_step in H0 as (k & m & Hs & Ht); [|by destruct op].
    eapply g_op; [done|by apply plain_op_local|done|done].
  - unfold gvote_on in *. binds. destruct (msg_body _) as [|req| | |] eqn:Eb; try done.
    case_bool_decide; [|done]. destruct (request_vote _ _) as [[resp n]| |] eqn:Er; try done.
    destruct x0 as [from msg]. eapply g_vote; [done|by eapply list_elem_of_lookup_2|by repeat eexists|].
    by apply tick_on_ticked.
  - case_match; simplify_eq. eapply g_release; try done. by eapply list_elem_of_lookup_2.
  - apply gop_on_step in H1 as (? & m & Hs & Ht); [|done].
    eapply g_vote_answer; [done|by eapply list_elem_of_lookup_2|by eexists|done].
  - unfold gappend_on in *. destruct (append_entries _ _) as [[r n]| |] eqn:Er; try done.
    eapply g_append; [done|by eapply list_elem_of_lookup_2|by repeat eexists|by apply tick_on_ticked].
  - destruct (poll _ _ _) as [[[v| |] []]| |] eqn:Ep; simplify_eq.
    eapply g_matched; try done. by eapply list_elem_of_lookup_2.
  - apply gop_on_step in H1 as (? & m & Hs & Ht); [|done].
    eapply g_ack; [done|by eapply list_elem_of_lookup_2|by eexists|done].
  - case_match; simplify_eq. eapply g_writer; [done|by apply writer_begin|by apply tick_on_ticked].
  - case_match; simplify_eq. eapply g_writer; [done|by eapply writer_store|by apply tick_on_ticked].
  - case_match; simplify_eq. binds. eapply g_writer; [done| |by apply tick_on_ticked].
    eapply writer_tell; [done|by eapply op_at_step].
  - by apply g_flush.
  - apply gop_on_step in H0 as (? & m & Hs & Ht); [|done]. 
    eapply g_flushed; [done|by eexists|done].
  - destruct (run_apply_entries _ _ _ _) as [[applied []]| |] eqn:Ea; simplify_eq. by eapply g_apply.
  - destruct crashes; [|done]. by eapply gcrash_on_step.
Qed.

Lemma greplay_run c gated crashes l g g' :
  greplay c gated crashes l g = Some g' → rtc (group_step c gated crashes) g g'.
Proof.
  revert g. induction l as [|cmd l IH]; intros g H; cbn in H; [by simplify_eq|].
  binds. eapply rtc_l; [by eapply gexec_step|auto].
Qed.

(** ** A leader that forgets its term

    Server 1 wins term 1 with the votes of servers 2 and 3 before its own
    metadata is stored, proposes a command and sends it to server 2. It
    crashes with nothing on disk, wins term 1 once more and proposes another
    command, which server 2 takes for the one it has. *)

Definition fresh_replica (id : ServerId) : Peer :=
  mkPeer (fresh id) (mkDiskLog MemoryLog_new MemoryLog_new) LogPosition_zero [] [].

Definition replicas (gated : bool) : Group := Eval vm_compute in
  let peers := list_to_map ((λ id, (id, fresh_replica id)) <$> [1; 2; 3]) in
  mkGroup peers [] [] ((λ x, (x.1, remembered gated (pe_host x.2))) <$> map_to_list peers) [] [].

Definition gpersist (id : ServerId) (t : Instant) : list GCmd := [GBegin id; GStore id; GTell id t].
Definition gstand (id from : ServerId) (t : Instant) : list GCmd :=
  [GOp id t OpCycle; GOp id t (OpRequestVoteCallback from 1 true granted)].

Definition first_command : LogEntryData := Command [1].
Definition second_command : LogEntryData := Command [2].
Definition t2 : Instant := ms 900.

Definition win_unstored : list GCmd :=
  gstand 1 2 t1 ++ [GVote 2 1 t1; GVote 3 1 t1] ++ gpersist 2 t1 ++ gpersist 3 t1 ++
  [GRelease 2 0; GRelease 3 0; GVoteAnswer 0 t1; GVoteAnswer 1 t1].
Definition replicate_first : list GCmd :=
  [GOp 1 t1 (OpPropose first_command None); GAppend 0 t1; GMatched 2 0; GAck 0 t1; GAppend 2 t1; GFlush 2].
Definition win_again : list GCmd :=
  [GCrash 1 t1] ++ gstand 1 3 t2 ++ [GVote 3 6 t2; GRelease 3 1; GVoteAnswer 2 t2] ++ gpersist 1 t2.
Definition replicate_second : list GCmd :=
  [GOp 1 t2 (OpPropose second_command None); GAppend 3 t2; GMatched 2 2; GAck 1 t2;
   GAppend 5 t2; GMatched 2 3; GFlush 1; GFlushed 1 t2; GAck 2 t2; GAppend 6 t2; GApply 1; GApply 2].

Definition greplayed (gated crashes : bool) (l : list GCmd) (g : Group) : Group :=
  default g (greplay three gated crashes l g).
Definition diverged : Group := Eval vm_compute in
  greplayed true true (win_unstored ++ replicate_first ++ win_again ++ replicate_second) (replicas true).

Definition applied_by (g : Group) (id : ServerId) : list LogEntry :=
  match g_peers g !! id with Some p => pe_applied p | None => [] end.

Lemma replicas_peers gated :
  g_peers (replicas gated) = list_to_map ((λ id, (id, fresh_replica id)) <$> [1; 2; 3]).
Proof. by vm_compute. Qed.

Lemma replicas_start gated : group_start three gated (replicas gated).
Proof.
  split; [|done..|by destruct gated; vm_compute|done|done].
  intros id p. rewrite replicas_peers. intros Hp%elem_of_list_to_map_2.
  apply list_elem_of_fmap in Hp as (i & [= -> ->] & Hi).
  destruct (started_server i Hi). by apply fresh_peer_new.
Qed.
