(* ===== verification/ReplicaInv.v ===== *)
(** * Logs of a group agree

    The group of Replica.v refines the one of Cluster.v, every log is the
    list of entries its module describes, and without crashes every log is,
    up to each of its entries, a prefix of the log of the leader that made
    the entry. *)

From stdpp Require Import relations.
From S2P Require Import Prelude RaftProto ConfigState LogMetadata ConsensusState Consensus.
From S2P Require Import RaftLog ConsensusInv ConsensusOps ConsensusNew ConsensusMachine.
From S2P Require Import Cluster ClusterInv Replica.

(** ** The log of one server *)

Definition log_of (p : Peer) : list LogEntry := fst <$> ml_log (dl_log (pe_log p)).

Definition plain (l : list (LogEntry * LogSequence)) : Prop :=
  Forall (λ e, is_config (entry_data e.1) = false) l.

(** The offsets a module has for a log that starts at index 1. *)
Definition offsets_of (l : list (LogEntry * LogSequence)) : list LogOffset :=
  mkLogOffset LogPosition_zero 0 :: (entry_offset <$> l).

Definition new_entry (e : NewLogEntry) : LogEntry * LogSequence := (ne_entry e, ne_sequence e).

Lemma offsets_of_app l k :
  offsets_of (l ++ (new_entry <$> k)) = offsets_of l ++ (offset_of <$> k).
Proof.
  unfold offsets_of. rewrite fmap_app, <- list_fmap_compose. done.
Qed.

Lemma offsets_of_index lm l :
  LogMetadata_wf lm → all_offsets lm = offsets_of l →
  off_index (last_offset lm) = Z.of_nat (length l) ∧
  ∀ k e, l !! k = Some e → pos_index (entry_pos e.1) = Z.of_nat k + 1.
Proof.
  intros Hwf Hl. destruct (all_offsets_index _ _ _ Hwf Hl) as [Hlast Hidx].
  rewrite length_fmap in Hlast. split; [done|]. intros k e Hk.
  specialize (Hidx k (entry_offset e)). rewrite list_lookup_fmap, Hk in Hidx.
  specialize (Hidx eq_refl). cbn in Hidx. lia.
Qed.

(** The position at index [i] of a log. *)
Definition position_at (l : list LogEntry) (i : nat) : option LogPosition :=
  match i with
  | O => Some LogPosition_zero
  | S k => entry_pos <$> l !! k
  end.

Lemma offsets_of_position lm l o :
  LogMetadata_wf lm → all_offsets lm = offsets_of l → o ∈ all_offsets lm →
  0 ≤ off_index o ≤ Z.of_nat (length l) ∧
  position_at (fst <$> l) (Z.to_nat (off_index o)) = Some (position o).
Proof.
  intros Hwf Hl Ho. rewrite Hl in Ho. apply elem_of_cons in Ho as [->|Ho]; [by split; [cbn; lia|]|].
  apply list_elem_of_fmap in Ho as (e & -> & [k Hk]%list_elem_of_lookup).
  destruct (offsets_of_index _ _ Hwf Hl) as [_ Hidx]. specialize (Hidx k e Hk).
  apply lookup_lt_Some in Hk as Hlt.
  change (pos_index (entry_pos e.1)) with (off_index (entry_offset e)) in Hidx. rewrite Hidx.
  replace (Z.to_nat (Z.of_nat k + 1)) with (S k) by lia. split; [lia|].
  cbn. by rewrite list_lookup_fmap, Hk.
Qed.

Lemma ml_append_end l e q l' :
  ml_prev l = LogPosition_zero → pos_index (entry_pos e) = Z.of_nat (length (ml_log l)) + 1 →
  ml_append l e q tt = Done (l', tt) → l' = mkMemoryLog LogPosition_zero (ml_log l ++ [(e, q)]).
Proof.
  intros Hp Hi. unfold ml_append, bind, ml_last_index, u64_add. rewrite Hp. cbn [pos_index LogPosition_zero].
  destruct (_ <=? U64_MAX); [|done]. cbn [ret]. destruct (_ <=? _) eqn:E; b2p; [lia|].
  cbn [ret ml_prev]. rewrite Hp. cbn [pos_index LogPosition_zero].
  destruct (_ <=? U64_MAX); [|done]. cbn [ret].
  destruct (_ <=? U64_MAX); [|done]. cbn [ret]. unfold assert. destruct (_ =? _); [|done]. by intros [= <-].
Qed.

(** Appending consecutive entries extends the list. *)
Lemma append_all_end es l l' :
  ml_prev (dl_log l) = LogPosition_zero →
  (∀ k e, es !! k = Some e →
    pos_index (entry_pos (ne_entry e)) = Z.of_nat (length (ml_log (dl_log l)) + k) + 1) →
  append_all l es tt = Done (l', tt) →
  l' = mkDiskLog (mkMemoryLog LogPosition_zero (ml_log (dl_log l) ++ (new_entry <$> es))) (dl_disk l).
Proof.
  revert l. induction es as [|e es IH]; intros l Hp Hidx; cbn [append_all].
  - intros [= <-]. destruct l as [[]]; cbn in *. by rewrite Hp, app_nil_r.
  - unfold bind. cbn [log_append DiskLog_Log]. unfold bind.
    destruct (ml_append _ _ _ _) as [[m []]| |] eqn:Em; [|done|done]. cbn [ret].
    apply ml_append_end in Em; [|done|rewrite (Hidx 0%nat e eq_refl); lia]. subst m.
    intros H. apply IH in H; [| |].
    + rewrite H. cbn. by rewrite <- (assoc_L (++)).
    + done.
    + intros k x Hk. cbn. rewrite length_app. cbn. rewrite (Hidx (S k) x Hk). lia.
Qed.

(** ** Logs that come from leaders *)

Section Rooted.
Context (c : Configuration) (Hwf : Configuration_wf c).
Implicit Types (S X : list LogEntry) (peers : gmap ServerId Peer).

(** Up to each entry, the list is a prefix of the log of a server that was
    elected for the term of the entry. *)
Definition rooted peers (hist : History) S : Prop :=
  ∀ i e, S !! i = Some e →
    pos_index (entry_pos e) = Z.of_nat i + 1 ∧
    ∃ id p, peers !! id = Some p ∧ elected c hist id (pos_term (entry_pos e)) ∧
      take (Datatypes.S i) (log_of p) = take (Datatypes.S i) S.

(** No server is lost and no log is cut. *)
Definition grows peers peers' : Prop :=
  ∀ id p, peers !! id = Some p → ∃ p', peers' !! id = Some p' ∧ log_of p `prefix_of` log_of p'.

Lemma take_prefix {A} (k : nat) (l l' : list A) :
  l `prefix_of` l' → (k ≤ length l)%nat → take k l' = take k l.
Proof. intros [x ->] Hk. by rewrite take_app_le. Qed.

Lemma take_lookup_length {A} (l l' : list A) i e :
  take (Datatypes.S i) l = take (Datatypes.S i) l' → l' !! i = Some e → (Datatypes.S i ≤ length l)%nat.
Proof.
  intros E He. apply lookup_lt_Some in He. apply (f_equal length) in E.
  rewrite !length_take in E. lia.
Qed.

Lemma rooted_mono peers peers' hist hist' S :
  grows peers peers' → hist ⊆ hist' → rooted peers hist S → rooted peers' hist' S.
Proof.
  intros Hg Hsub HS i e He. destruct (HS i e He) as (Hi & id & p & Hp & Hel & Ht). split; [done|].
  destruct (Hg _ _ Hp) as (p' & Hp' & Hpre). exists id, p'. split_and!; [done|by eapply elected_mono|].
  rewrite <- Ht. apply take_prefix; [done|]. by eapply take_lookup_length.
Qed.

Lemma rooted_take peers hist S k : rooted peers hist S → rooted peers hist (take k S).
Proof.
  intros HS i e [He Hk]%lookup_take_Some. destruct (HS i e He) as (Hi & id & p & Hp & Hel & Ht).
  split; [done|]. exists id, p. split_and!; [done..|]. by rewrite take_take, Nat.min_l by lia.
Qed.

(** Entries made by the elected owner of a log that has them. *)
Lemma rooted_made peers hist id p S new :
  rooted peers hist S → peers !! id = Some p → S ++ new `prefix_of` log_of p →
  Forall (λ e, elected c hist id (pos_term (entry_pos e))) new →
  (∀ i e, (S ++ new) !! i = Some e → pos_index (entry_pos e) = Z.of_nat i + 1) →
  rooted peers hist (S ++ new).
Proof.
  intros HS Hp Hpre Hnew Hidx i e He. split; [by apply Hidx|].
  apply lookup_app_Some in He as He'. destruct He' as [He'|[Hle He']].
  - destruct (HS i e He') as (_ & id' & p' & Hp' & Hel & Ht). exists id', p'. split_and!; [done..|].
    rewrite Ht, take_app_le; [done|]. apply lookup_lt_Some in He'. lia.
  - exists id, p. split_and!; [done| |].
    + eapply Forall_forall in Hnew; [exact Hnew|]. by eapply list_elem_of_lookup_2.
    + apply take_prefix; [done|]. apply lookup_lt_Some in He. lia.
Qed.

(** Two such lists that have an entry of one term at one index agree up to
    it. *)
Lemma rooted_match peers hist S S' i e e' :
  one_vote hist → (∀ id p, peers !! id = Some p → 0 < id) →
  rooted peers hist S → rooted peers hist S' →
  S !! i = Some e → S' !! i = Some e' → pos_term (entry_pos e) = pos_term (entry_pos e') →
  take (Datatypes.S i) S = take (Datatypes.S i) S'.
Proof.
  intros H1 Hpos HS HS' He He' Et.
  destruct (HS i e He) as (_ & id & p & Hp & Hel & <-).
  destruct (HS' i e' He') as (_ & id' & p' & Hp' & Hel' & <-).
  rewrite Et in Hel. assert (id = id') as ->; [|by simplify_eq].
  eapply (elected_unique c Hwf hist); eauto.
Qed.

Lemma position_at_match peers hist S S' k pos :
  one_vote hist → (∀ id p, peers !! id = Some p → 0 < id) →
  rooted peers hist S → rooted peers hist S' →
  position_at S k = Some pos → position_at S' k = Some pos → take k S = take k S'.
Proof.
  intros H1 Hpos HS HS'. destruct k as [|k]; [done|]. cbn.
  destruct (S !! k) as [e|] eqn:E, (S' !! k) as [e'|] eqn:E'; try done. cbn. intros [= <-] [= Ep].
  eapply rooted_match; [done..|congruence].
Qed.

(** The new entries of a request extend the log to a part of the list they
    were taken from. *)
Lemma rooted_copy peers hist X S prev pos n l1 l2 :
  one_vote hist → (∀ id p, peers !! id = Some p → 0 < id) →
  rooted peers hist X → rooted peers hist S →
  position_at X prev = Some pos → position_at S prev = Some pos →
  l1 ++ l2 = take n (drop prev S) →
  Forall (λ e, position_at X (Z.to_nat (pos_index (entry_pos e))) = Some (entry_pos e)) l1 →
  (l2 ≠ [] → length X = (prev + length l1)%nat) →
  rooted peers hist (X ++ l2).
Proof.
  intros H1 Hpos HX HS HpX HpS El Hl1 Hlen.
  destruct (decide (l2 = [])) as [->|Hne]; [by rewrite app_nil_r|]. specialize (Hlen Hne).
  assert (∀ k, (k ≤ length l1)%nat → position_at X (prev + k) = position_at S (prev + k)) as Hsame.
  { intros [|k] Hk; [rewrite Nat.add_0_r; congruence|].
    destruct (lookup_lt_is_Some_2 l1 k) as [e He]; [lia|].
    assert (S !! (prev + k)%nat = Some e) as HSe.
    { rewrite <- lookup_drop. eapply lookup_app_l_Some in He. rewrite El in He.
      by apply lookup_take_Some in He as [? _]. }
    eapply Forall_lookup_1 in Hl1; [|exact He]. destruct (HS _ _ HSe) as [Hi _].
    rewrite Hi in Hl1. replace (prev + Datatypes.S k)%nat with (Datatypes.S (prev + k)) by lia.
    replace (Z.to_nat _) with (Datatypes.S (prev + k)) in Hl1 by lia. cbn [position_at].
    rewrite HSe. done. }
  assert (take (prev + length l1) X = take (prev + length l1) S) as Htake.
  { destruct (position_at S (prev + length l1)) as [q|] eqn:Eq.
    - eapply position_at_match; [done..| |done]. rewrite Hsame; done || lia.
    - destruct (prev + length l1)%nat as [|k] eqn:Ek; [done|]. exfalso. cbn in Eq.
      apply fmap_None, lookup_ge_None in Eq. apply (f_equal length) in El.
      rewrite length_app, length_take, length_drop in El. destruct l2; [done|]. cbn in El. lia. }
  rewrite <- Hlen, take_ge in Htake by lia. rewrite Htake.
  assert (l2 = take (n - length l1) (drop (length X) S)) as ->.
  { apply (f_equal (drop (length l1))) in El.
    rewrite drop_app_length, skipn_firstn_comm, drop_drop in El. by rewrite Hlen. }
  rewrite take_take_drop. by apply rooted_take.
Qed.
End Rooted.

(** ** The entries of a request *)

(** The entries of a request are those after a position of a list. *)
Definition taken_from (S : list LogEntry) (req : AppendEntriesRequest) : Prop :=
  0 ≤ ae_prev_log_index req ∧
  position_at S (Z.to_nat (ae_prev_log_index req)) =
    Some (mkLogPosition (ae_prev_log_term req) (ae_prev_log_index req)) ∧
  ∃ n, ae_entries req = take n (drop (Z.to_nat (ae_prev_log_index req)) S).

Lemma ml_off_for_zero l i o :
  ml_prev l = LogPosition_zero → ml_off_for l i tt = Done (Some o, tt) →
  o = Z.to_nat (i - 1) ∧ (o < length (ml_log l))%nat.
Proof.
  intros Hp. unfold ml_off_for, bind. rewrite Hp. change (u64_add (pos_index LogPosition_zero) 1 tt) with (Done (1, tt)). cbn beta iota.
  destruct (i <? 1) eqn:E; [done|]. destruct (_ <=? _)%nat eqn:E1; [done|]. intros [= <-]. b2p. lia.
Qed.

Lemma populate_taken m l r last seq req :
  ml_prev (dl_log l) = LogPosition_zero → LogMetadata_wf (cm_log_meta m) →
  all_offsets (cm_log_meta m) = offsets_of (ml_log (dl_log l)) →
  matches_log m (AppendEntries r last seq) →
  populate_append_entries_request l r last seq tt = Done (Some req, tt) →
  taken_from (fst <$> ml_log (dl_log l)) req.
Proof.
  intros Hp Hwf Hoff ((o & Ho & Epos) & _ & _ & He). unfold populate_append_entries_request, bind.
  destruct (offsets_of_position _ _ _ Hwf Hoff Ho) as [Hr Hpos].
  assert (off_index o = ae_prev_log_index r) as Ei by (unfold off_index; by rewrite Epos).
  rewrite Ei in Hr, Hpos. rewrite Epos in Hpos.
  destruct (_ =? last) eqn:El.
  { intros [= <-]. split_and!; [lia|done|]. exists 0%nat. by rewrite He. }
  unfold assert. rewrite He. cbn [length Nat.eqb]. unfold u64_add. destruct (_ <=? _); [|done]. cbn [ret].
  destruct (ml_entries _ _ _ _) as [[[[es q]|] []]| |] eqn:Ee; try done.
  destruct (negb _); [done|]. intros [= <-]. split_and!; [cbn; lia|done|]. cbn [ae_entries ae_prev_log_index app].
  unfold ml_entries, bind in Ee. destruct (ml_off_for _ _ _) as [[[a|] []]| |] eqn:Ea; try done.
  destruct (ml_off_for _ last _) as [[[b|] []]| |] eqn:Eb; try done. cbn -[take] in Ee.
  unfold unwrap in Ee. destruct (ml_log (dl_log l) !! b); [|done]. cbn -[take] in Ee.
  injection Ee as <- <-. apply ml_off_for_zero in Ea as [-> _]; [|done].
  exists (Datatypes.S b - Z.to_nat (ae_prev_log_index r + 1 - 1))%nat.
  rewrite fmap_take, fmap_drop. by replace (ae_prev_log_index r + 1 - 1) with (ae_prev_log_index r) by lia.
Qed.

Lemma dispatch_taken m id l msgs packets :
  ml_prev (dl_log l) = LogPosition_zero → LogMetadata_wf (cm_log_meta m) →
  all_offsets (cm_log_meta m) = offsets_of (ml_log (dl_log l)) →
  Forall (λ msg, matches_log m (msg_body msg)) msgs →
  dispatch_messages id l msgs tt = Done (packets, tt) →
  Forall (λ k, pk_from k = id ∧ taken_from (fst <$> ml_log (dl_log l)) (pk_req k)) packets.
Proof.
  intros Hp Hwf Hoff. revert packets. induction msgs as [|msg msgs IH]; cbn [dispatch_messages].
  { intros packets _ [= <-]. done. }
  intros packets [Hm Hms]%Forall_cons. unfold bind at 1.
  destruct (dispatch_message id l msg tt) as [[sent []]| |] eqn:Es; [|done|done].
  unfold bind. destruct (dispatch_messages id l msgs tt) as [[rest []]| |] eqn:Er; [|done|done].
  intros [= <-]. apply Forall_app. split; [|by apply IH].
  unfold dispatch_message in Es. destruct (msg_body msg) as [| | |r last seq|]; try (injection Es as <-; done).
  unfold bind in Es. destruct (populate_append_entries_request _ _ _ _ _) as [[[req|] []]| |] eqn:Epop;
    try done; injection Es as <-; [|done]. apply Forall_fmap, Forall_true. intros to. split; [done|]. by eapply populate_taken.
Qed.

Lemma taken_plain l req :
  plain l → taken_from (fst <$> l) req →
  Forall (λ e, is_config (entry_data e) = false) (ae_entries req).
Proof.
  intros Hl (_ & _ & n & ->). apply Forall_take, Forall_drop. by apply Forall_fmap.
Qed.

(** ** The invariant of the group *)

Section Invariant.
Context (c : Configuration) (gated crashes : bool).
Context (Hwf : Configuration_wf c) (Hc : no_aspiring c) (Hsafe : gated = true ∨ crashes = false).

Record PeerInv (peers : gmap ServerId Peer) (hist : History) (p : Peer) : Prop := mkPeerInv {
  pi_prev : ml_prev (dl_log (pe_log p)) = LogPosition_zero;
  pi_disk_prev : ml_prev (dl_disk (pe_log p)) = LogPosition_zero;
  pi_offsets : all_offsets (cm_log_meta (h_module (pe_host p))) = offsets_of (ml_log (dl_log (pe_log p)));
  pi_plain : plain (ml_log (dl_log (pe_log p)));
  pi_disk_plain : plain (ml_log (dl_disk (pe_log p)));
  pi_rooted : crashes = false → rooted c peers hist (log_of p);
}.

(** The entries of a request were taken from a rooted list. *)
Definition packet_ok (peers : gmap ServerId Peer) (hist : History) (k : Packet) : Prop :=
  Forall (λ e, is_config (entry_data e) = false) (ae_entries (pk_req k)) ∧
  (crashes = false → ∃ S, rooted c peers hist S ∧ taken_from S (pk_req k)).

Record GroupInv (g : Group) : Prop := mkGroupInv {
  gi_cluster : ClusterInv c gated Hc (cluster_of g);
  gi_peers id p : g_peers g !! id = Some p → PeerInv (g_peers g) (g_history g) p;
  gi_packets : Forall (packet_ok (g_peers g) (g_history g)) (g_packets g);
}.

Lemma cluster_of_host g id p :
  g_peers g !! id = Some p → cl_hosts (cluster_of g) !! id = Some (pe_host p).
Proof. intros Hp. cbn. by rewrite lookup_fmap, Hp. Qed.

Lemma peer_id_positive g id p : GroupInv g → g_peers g !! id = Some p → 0 < id.
Proof.
  intros HG Hp%cluster_of_host. pose proof (hi_module _ _ _ _ _ _ (ci_hosts _ _ _ _ (gi_cluster _ HG) _ _ Hp)) as HM.
  rewrite <- (mi_id _ _ _ _ _ HM). apply (inv_id _ (mi_inv _ _ _ _ _ HM)).
Qed.

Lemma cluster_of_gput id p t packets g :
  cluster_of (gput gated id p t packets g) = put gated id (pe_host p) t (cluster_of g).
Proof. unfold cluster_of, gput, put. cbn. by rewrite fmap_insert. Qed.

Lemma packet_ok_mono peers peers' hist hist' k :
  (crashes = false → grows peers peers') → hist ⊆ hist' →
  packet_ok peers hist k → packet_ok peers' hist' k.
Proof.
  intros Hg Hsub [? Hk]. split; [done|]. intros Hcr. destruct (Hk Hcr) as (S & HS & ?).
  exists S. split; [|done]. eapply rooted_mono; [by apply Hg|done|done].
Qed.

Lemma PeerInv_mono peers peers' hist hist' p :
  (crashes = false → grows peers peers') → hist ⊆ hist' →
  PeerInv peers hist p → PeerInv peers' hist' p.
Proof.
  intros Hg Hsub []. split; try done. intros Hcr. eapply rooted_mono; [by apply Hg|done|by apply pi_rooted0].
Qed.

(** A peer is replaced: the others keep their part of the invariant. *)
Lemma replace_inv g id p p' t packets :
  GroupInv g → g_peers g !! id = Some p → (crashes = false → log_of p `prefix_of` log_of p') →
  ClusterInv c gated Hc (put gated id (pe_host p') t (cluster_of g)) →
  (let peers := <[id := p']> (g_peers g) in
   let hist := g_history g ++ [(id, remembered gated (pe_host p'))] in
   (crashes = false → grows (g_peers g) peers) →
   PeerInv peers hist p' ∧ Forall (packet_ok peers hist) packets) →
  GroupInv (gput gated id p' t packets g).
Proof.
  intros HG Hp Hpre HC Hnew.
  assert (crashes = false → grows (g_peers g) (<[id := p']> (g_peers g))) as Hg.
  { intros Hcr i x Hx. rewrite lookup_insert. destruct (decide (id = i)) as [<-|]; [|by exists x].
    simplify_eq. exists p'. auto. }
  destruct (Hnew Hg) as [Hp' Hk]. pose proof (hist_grow (g_history g) (id, remembered gated (pe_host p'))) as Hsub.
  split; cbn.
  - by rewrite cluster_of_gput.
  - intros i x. rewrite lookup_insert. destruct (decide (id = i)) as [<-|]; [by intros [= <-]|].
    intros Hx. eapply PeerInv_mono; [done|done|]. by eapply gi_peers.
  - apply Forall_app. split; [|done]. eapply Forall_impl; [apply (gi_packets _ HG)|].
    intros k. by apply packet_ok_mono.
Qed.

Lemma finish_tick_done id l commit m t l' commit' packets :
  finish_tick id l commit m t tt = Done (l', commit', packets, tt) →
  append_all l (tick_new_entries t) tt = Done (l', tt) ∧
  dispatch_messages id l' (tick_messages t) tt = Done (packets, tt).
Proof.
  unfold finish_tick, bind. destruct (append_all _ _ _) as [[l1 []]| |]; [|done|done].
  destruct (if negb _ || _ then _ else _) as [[? []]| |]; [|done|done].
  destruct (dispatch_messages _ _ _ _) as [[? []]| |] eqn:Ed; [|done|done]. by intros [= <- <- <-].
Qed.

(** What a rooted log needs when [new] entries are appended. *)
Definition roots (g : Group) (id : ServerId) (p : Peer) (new : list LogEntry) : Prop :=
  ∀ peers hist p', grows (g_peers g) peers → g_history g ⊆ hist → one_vote hist →
    (∀ id p, peers !! id = Some p → 0 < id) →
    peers !! id = Some p' → log_of p' = log_of p ++ new →
    (∀ i e, log_of p' !! i = Some e → pos_index (entry_pos e) = Z.of_nat i + 1) →
    rooted c peers hist (log_of p').

Lemma ticked_inv g g' id p h t w :
  GroupInv g → g_peers g !! id = Some p → ticked gated id p h t w g g' →
  ClusterInv c gated Hc (put gated id h t (cluster_of g)) →
  all_offsets (cm_log_meta (h_module h)) =
    all_offsets (cm_log_meta (h_module (pe_host p))) ++ (offset_of <$> tick_new_entries t) →
  Forall (λ msg, matches_log (h_module h) (msg_body msg)) (tick_messages t) →
  Forall (λ e, is_config (entry_data (ne_entry e)) = false) (tick_new_entries t) →
  (crashes = false → roots g id p (ne_entry <$> tick_new_entries t)) →
  GroupInv g'.
Proof.
  intros HG Hp (l & commit & packets & Hfin & ->) HC Hoff Hmsg Hplain Hroots.
  apply finish_tick_done in Hfin as [Happ Hdis]. pose proof (gi_peers _ HG _ _ Hp) as HP.
  assert (HostInv c gated Hc (cl_history (put gated id h t (cluster_of g))) id h) as HH.
  { apply (ci_hosts _ _ _ _ HC). cbn. by rewrite lookup_insert_eq. }
  pose proof (inv_log _ (mi_inv _ _ _ _ _ (hi_module _ _ _ _ _ _ HH))) as Hlm.
  rewrite (pi_offsets _ _ _ HP), <- offsets_of_app in Hoff.
  destruct (offsets_of_index _ _ Hlm Hoff) as [_ Hidx].
  apply append_all_end in Happ; [|apply HP|].
  2:{ intros k e He. rewrite <- (Hidx (length (ml_log (dl_log (pe_log p))) + k)%nat (new_entry e)); [done|].
      rewrite lookup_app_r by lia. replace (_ + k - _)%nat with k by lia.
      by rewrite list_lookup_fmap, He. }
  set (p' := mkPeer h l commit w (pe_applied p)).
  assert (log_of p' = log_of p ++ (ne_entry <$> tick_new_entries t)) as Elog.
  { unfold log_of. cbn. rewrite Happ. cbn. by rewrite fmap_app, <- list_fmap_compose. }
  assert (plain (ml_log (dl_log l))) as Hpl.
  { rewrite Happ. cbn. apply Forall_app. split; [apply HP|]. by apply Forall_fmap. }
  assert (Forall (λ k, pk_from k = id ∧ taken_from (log_of p') (pk_req k)) packets) as Htaken.
  { apply (dispatch_taken (h_module h) id l (tick_messages t)); rewrite ?Happ; try done.
    by rewrite <- Happ. }
  eapply replace_inv; [done|done|rewrite Elog; intros _; by apply prefix_app_r|done|].
  intros peers hist Hg.
  assert (crashes = false → rooted c peers hist (log_of p')) as Hroot.
  { intros Hcr. apply (Hroots Hcr); [by apply Hg|apply hist_grow|apply (ci_one_vote _ _ _ _ HC)| | |done|].
    - intros i x. unfold peers. rewrite lookup_insert. destruct (decide (id = i)) as [<-|].
      + intros _. by eapply peer_id_positive.
      + intros Hx. by eapply peer_id_positive.
    - unfold peers. by rewrite lookup_insert_eq.
    - intros i e He. unfold log_of in He. cbn in He. rewrite Happ in He. cbn in He.
      apply list_lookup_fmap_Some in He as (x & -> & Hx). by apply Hidx. }
  split.
  - destruct HP. split; cbn; rewrite ?Happ; try done. cbn. by rewrite Happ in Hpl.
  - eapply Forall_impl; [exact Htaken|]. intros k [_ Hk]. split; [by eapply taken_plain|].
    intros Hcr. exists (log_of p'). split; [by apply Hroot|done].
Qed.

(** Entries the server made in terms it was elected for. *)
Lemma roots_made g id p new :
  GroupInv g → g_peers g !! id = Some p → crashes = false →
  Forall (λ e, elected c (g_history g) id (pos_term (entry_pos e))) new → roots g id p new.
Proof.
  intros HG Hp Hcr Hnew peers hist p' Hg Hsub H1 Hpos Hp' El Hidx. rewrite El.
  pose proof (pi_rooted _ _ _ (gi_peers _ HG _ _ Hp) Hcr) as Hr.
  eapply rooted_made; [by eapply rooted_mono|done|by rewrite El| |by rewrite <- El].
  eapply Forall_impl; [exact Hnew|]. intros e. by apply elected_mono.
Qed.

#[local] Instance policy : ConfigPolicy | 0 := fixed c Hc.

(** The entries a request leads to: some made by the server, the copied ones
    after a position the log has, and again some made by the server. *)
Record appended (hist : History) (id : ServerId) (req : AppendEntriesRequest) (n n' n1 : Node)
    (k1 k2 : list NewLogEntry) (l1 l2 : list LogEntry) : Prop := mkAppended {
  ap_inv : Inv (node_cm n1);
  ap_offsets : all_offsets (cm_log_meta (node_cm n1)) =
    all_offsets (cm_log_meta (node_cm n)) ++ (offset_of <$> k1);
  ap_entries : ne_entry <$> tick_new_entries (node_tick n') =
    (ne_entry <$> tick_new_entries (node_tick n)) ++ (ne_entry <$> k1) ++ l2 ++ (ne_entry <$> k2);
  ap_made : Forall (λ e, elected c hist id (pos_term (entry_pos e))) (ne_entry <$> k1 ++ k2);
  ap_copied : l2 ≠ [] →
    pos_in (node_cm n1) (mkLogPosition (ae_prev_log_term req) (ae_prev_log_index req)) ∧
    ae_entries req = l1 ++ l2 ∧ Forall (λ e, pos_in (node_cm n1) (entry_pos e)) l1 ∧
    last_log_index (node_cm n1) = ae_prev_log_index req + Z.of_nat (length l1);
}.

Lemma made_elected hist id n k :
  ModInv c Hc hist id (node_cm n) → Forall (made no_votes no_copies n) k →
  Forall (λ e, elected c hist id (pos_term (entry_pos (ne_entry e)))) k.
Proof.
  intros HM Hk. eapply Forall_impl; [exact Hk|]. intros e [[]|[Hl _]].
  eapply (led_elected c Hwf Hc hist id (node_cm n) OpDrain n); [done|by eapply unconfirmed|done|].
  destruct n. exact Hl.
Qed.

Lemma made_from C n n1 e :
  KeepC C n n1 → made no_votes no_copies n1 e → made no_votes no_copies n e.
Proof.
  intros [_ HS] [[]|[Hl He]]. right. split; [|done]. destruct HS.
  eapply led_mono; [|by eapply (led_trans no_votes no_votes n n1)]. unfold no_votes. set_solver.
Qed.

Lemma append_appended hist id req n n' :
  ModInv c Hc hist id (node_cm n) → append_path req n n' →
  ∃ n1 k1 k2 l1 l2, appended hist id req n n' n1 k1 k2 l1 l2.
Proof.
  intros HM [[_ HS]|n1 n2 l1 l2 HK1 Hp El Hcons Hl1 Hl2 [[HI2 HS2] (k & Ek & Kk)] [HI' HS']].
  - destruct (sp_log _ _ _ _ HS) as (k & E & _ & Hk). exists n, [], k, [], []. split.
    + apply HM.
    + by rewrite app_nil_r.
    + by rewrite E, fmap_app.
    + apply Forall_fmap. by eapply made_elected.
    + done.
  - pose proof HK1 as [HI1 HS1]. destruct (sp_log _ _ _ _ HS1) as (k1 & E1 & O1 & M1).
    destruct (sp_log _ _ _ _ HS') as (k2 & E2 & O2 & M2).
    exists n1, k1, k2, l1, l2. split; [done|done| | |].
    + by rewrite E2, Ek, E1, !fmap_app, Kk, <- !(assoc_L (++)).
    + apply Forall_fmap. eapply made_elected; [done|]. apply Forall_app. split; [done|].
      eapply Forall_impl; [exact M2|]. intros e He. apply (made_from no_copies n n1); [done|].
      by eapply (made_from _ n1 n2).
    + intros Hne. split_and!; [done..|]. destruct l2 as [|e l2]; [done|].
      rewrite El in Hcons. apply (consecutive_drop _ _ (length l1)) in Hcons.
      rewrite drop_app_length in Hcons. apply consecutive_cons in Hcons as [Hi _], Hl2 as [Hi' _]. lia.
Qed.

(** The copied entries extend a rooted log. *)
Lemma roots_appended g id p req n n' n1 k1 k2 l1 l2 :
  GroupInv g → g_peers g !! id = Some p → crashes = false →
  node_cm n = h_module (pe_host p) → tick_new_entries (node_tick n) = [] →
  (∃ S, rooted c (g_peers g) (g_history g) S ∧ taken_from S req) →
  appended (g_history g) id req n n' n1 k1 k2 l1 l2 →
  roots g id p (ne_entry <$> tick_new_entries (node_tick n')).
Proof.
  intros HG Hp Hcr En Et (S & HS & Hprev & HpS & m & Htake) [HI Hoff -> Hmade Hcopy].
  intros peers hist p' Hg Hsub H1 Hpos Hp' El Hidx. pose proof (gi_peers _ HG _ _ Hp) as HP.
  rewrite Et in El. cbn [fmap list_fmap app] in El. rewrite El.
  rewrite fmap_app, Forall_app in Hmade. destruct Hmade as [Hk1 Hk2].
  assert (∀ l, Forall (λ e, elected c (g_history g) id (pos_term (entry_pos e))) l →
    Forall (λ e, elected c hist id (pos_term (entry_pos e))) l) as Hmono.
  { intros l Hl. eapply Forall_impl; [exact Hl|]. intros e. by apply elected_mono. }
  rewrite !(assoc_L (++)) in *.
  assert (rooted c peers hist (log_of p ++ (ne_entry <$> k1))) as HX.
  { eapply rooted_made; [|exact Hp'| |by apply Hmono|].
    - eapply rooted_mono; [exact Hg|exact Hsub|]. by apply (pi_rooted _ _ _ HP).
    - rewrite El, <- (assoc_L (++)). by apply prefix_app_r.
    - intros i e He. apply Hidx. rewrite El, <- (assoc_L (++)). by apply lookup_app_l_Some. }
  eapply rooted_made; [|exact Hp'|by rewrite El|by apply Hmono|by rewrite <- El].
  destruct (decide (l2 = [])) as [->|Hne]; [by rewrite app_nil_r|].
  destruct (Hcopy Hne) as (Hpin & Eent & Hl1 & Hlast).
  rewrite En, (pi_offsets _ _ _ HP), <- offsets_of_app in Hoff.
  assert (log_of p ++ (ne_entry <$> k1) = fst <$> (ml_log (dl_log (pe_log p)) ++ (new_entry <$> k1))) as EX.
  { unfold log_of. by rewrite fmap_app, <- list_fmap_compose. }
  assert (∀ q, pos_in (node_cm n1) q →
    position_at (log_of p ++ (ne_entry <$> k1)) (Z.to_nat (pos_index q)) = Some q) as Hat.
  { intros q (o & Ho & <-). rewrite EX. by apply (offsets_of_position _ _ _ (inv_log _ HI) Hoff). }
  eapply (rooted_copy c Hwf peers hist _ S (Z.to_nat (ae_prev_log_index req)) _ m l1 l2); try done.
  - by eapply rooted_mono.
  - by apply (Hat _ Hpin).
  - by rewrite <- Htake, Eent.
  - eapply Forall_impl; [exact Hl1|]. intros e. apply Hat.
  - intros _. destruct (offsets_of_index _ _ (inv_log _ HI) Hoff) as [Hlen _].
    rewrite EX, length_fmap. unfold last_log_index, LogMetadata_last in Hlast. rewrite Hlen in Hlast. lia.
Qed.

(** ** Refinement *)

Lemma cluster_of_ticked id p h t w g g' :
  ticked gated id p h t w g g' → cluster_of g' = put gated id h t (cluster_of g).
Proof. intros (l & commit & packets & _ & ->). by rewrite cluster_of_gput. Qed.

(** The log and the state machine of a server changed, and what it sent. *)
Lemma cluster_of_peer g id p p' packets acks :
  g_peers g !! id = Some p → pe_host p' = pe_host p →
  cluster_of (mkGroup (<[id := p']> (g_peers g)) (g_sent g) (g_answers g) (g_history g) packets acks)
    = cluster_of g.
Proof.
  intros Hp Eh. unfold cluster_of. cbn. f_equal. rewrite fmap_insert, Eh. apply insert_id.
  by rewrite lookup_fmap, Hp.
Qed.

Lemma local_static op : local_op c op → unrelated op = true ∧ static_op c op ∧ discards op = false.
Proof. destruct op; try done. by intros [-> ?]. Qed.

(** A step of the group is a step of the servers without their logs, or
    changes only the logs. *)
Lemma group_refines g g' :
  GroupInv g → group_step c gated crashes g g' →
  cluster_of g' = cluster_of g ∨ cluster_step c gated crashes (cluster_of g) (cluster_of g').
Proof.
  intros HG [id p op t m g1 Hp Hop Hs Ht|id p from msg t h g1 Hp Hin Hs Ht|id p a Hp Ha Hm
    |p a t h g1 Hp Ha Hs Ht|p k t h w g1 Hp Hk (now & rand & r & n & Hr & -> & -> & ->) Ht
    |id p w v Hp Hw Hv|p a t h g1 Hp Ha (m & Hs & ->) Ht|id p t h g1 Hp Hw Ht|id p Hp
    |id p t h g1 Hp (m & Hs & ->) Ht|id p ap Hp Hrun|id p h commit Hcr Hp Hnew Hc1];
    try (by left); try (by left; eapply cluster_of_peer); right;
    rewrite ?(cluster_of_ticked _ _ _ _ _ _ _ Ht), ?cluster_of_gput; cbn [pe_host];
    pose proof (cluster_of_host _ _ _ Hp) as Hh.
  - destruct (local_static _ Hop) as (? & ? & _). by eapply step_op.
  - by eapply step_vote.
  - by eapply step_release.
  - by eapply step_answer.
  - eapply (step_op _ _ _ _ _ _ (OpAppendEntries (pk_req k))); [done|done| |].
    + by apply (proj1 (Forall_forall _ _) (gi_packets _ HG) _ Hk).
    + apply (server_step_run _ _ now rand); [done|]. cbn. unfold ignore, bind. by rewrite Hr.
  - by eapply (step_op _ _ _ _ _ _ (OpAppendEntriesCallback (ak_from a) (ak_request a) (ak_resp a))).
  - by eapply step_writer.
  - by eapply (step_op _ _ _ _ _ _ (OpLogFlushed (log_last_flushed (pe_log p)))).
  - by eapply step_crash.
Qed.

Lemma group_refines_inv g g' :
  GroupInv g → group_step c gated crashes g g' → ClusterInv c gated Hc (cluster_of g').
Proof.
  intros HG Hstep. pose proof (gi_cluster _ HG) as HC.
  destruct (group_refines _ _ HG Hstep) as [->|Hs]; [done|]. by eapply cluster_step_inv.
Qed.

(** ** Steps keep the invariant *)

(** A tick of an operation that copies no entries. *)
Lemma op_step_inv g g' id p op h t w :
  GroupInv g → g_peers g !! id = Some p →
  ticked gated id p h t w g g' → ClusterInv c gated Hc (cluster_of g') →
  op_copies op = no_copies → discards op = false →
  op_sound c Hc (g_history g) id (h_module (pe_host p)) op →
  server_step (h_module (pe_host p)) op t (h_module h) → GroupInv g'.
Proof.
  intros HG Hp Ht HC Hcp Hd Hs Hstep. rewrite (cluster_of_ticked _ _ _ _ _ _ _ Ht) in HC.
  pose proof (hi_module _ _ _ _ _ _ (ci_hosts _ _ _ _ (gi_cluster _ HG) _ _ (cluster_of_host _ _ _ Hp))) as HM.
  destruct (ModInv_op c Hwf Hc _ _ _ _ _ _ HM Hs Hstep) as (_ & _ & _ & Hnew).
  destruct (Hnew Hd) as (Hmade & Hoff & Hmsg).
  assert (Forall (λ e, elected c (g_history g) id (pos_term (entry_pos (ne_entry e))) ∧
    is_config (entry_data (ne_entry e)) = false) (tick_new_entries t)) as [He Hpl]%Forall_and.
  { eapply Forall_impl; [exact Hmade|]. intros e. unfold entry_made. rewrite Hcp. by intros [|]. }
  eapply ticked_inv; try done. intros Hcr. apply roots_made; try done. by apply Forall_fmap.
Qed.

Lemma append_step_inv g g' p k now rand r n w :
  GroupInv g → g_peers g !! pk_to k = Some p → k ∈ g_packets g →
  append_entries (pk_req k) (mkNode (h_module (pe_host p)) (Tick_empty now) rand 0) = Done (r, n) →
  ticked gated (pk_to k) p (h_set_module (node_cm n) (pe_host p)) (node_tick n) w g g' →
  ClusterInv c gated Hc (cluster_of g') → GroupInv g'.
Proof.
  intros HG Hp Hk Hrun Ht HC. rewrite (cluster_of_ticked _ _ _ _ _ _ _ Ht) in HC.
  destruct (proj1 (Forall_forall _ _) (gi_packets _ HG) _ Hk) as [Hplain Hroot].
  pose proof (hi_module _ _ _ _ _ _ (ci_hosts _ _ _ _ (gi_cluster _ HG) _ _ (cluster_of_host _ _ _ Hp))) as HM.
  set (n0 := mkNode (h_module (pe_host p)) (Tick_empty now) rand 0) in *.
  pose proof (wpx_done _ _ _ _ _ _ _ (append_entries_spec (pk_req k) n0 Hplain (mi_inv _ _ _ _ _ HM)) Hrun)
    as [Hpath _].
  destruct (append_appended _ _ _ n0 _ HM Hpath) as (n1 & k1 & k2 & l1 & l2 & Happ).
  assert (server_step (h_module (pe_host p)) (OpAppendEntries (pk_req k)) (node_tick n) (node_cm n)) as Hstep.
  { apply (server_step_run _ _ now rand); [done|]. fold n0. cbn [run_op]. unfold ignore, bind. by rewrite Hrun. }
  destruct (ModInv_op c Hwf Hc _ _ _ _ _ _ HM (static_sound c Hc _ _ _ (OpAppendEntries (pk_req k)) HM eq_refl Hplain) Hstep)
    as (_ & _ & _ & Hnew).
  destruct (Hnew eq_refl) as (Hmade & Hoff & Hmsg).
  eapply ticked_inv; try done.
  - eapply Forall_impl; [exact Hmade|]. intros e [He|[_ He]]; [|done].
    by apply (proj1 (Forall_forall _ _) Hplain).
  - intros Hcr. apply (roots_appended g _ p (pk_req k) n0 n n1 k1 k2 l1 l2); try done. by apply Hroot.
Qed.

(** Only the disk or the state machine of a server changed. *)
Lemma peer_step_inv g id p p' acks :
  GroupInv g → g_peers g !! id = Some p → pe_host p' = pe_host p →
  dl_log (pe_log p') = dl_log (pe_log p) →
  dl_disk (pe_log p') = dl_disk (pe_log p) ∨ dl_disk (pe_log p') = dl_log (pe_log p) →
  GroupInv (mkGroup (<[id := p']> (g_peers g)) (g_sent g) (g_answers g) (g_history g) (g_packets g) acks).
Proof.
  intros HG Hp Eh El Hd.
  assert (grows (g_peers g) (<[id := p']> (g_peers g))) as Hg.
  { intros i x Hx. rewrite lookup_insert. destruct (decide (id = i)) as [<-|]; [|by exists x].
    simplify_eq. exists p'. split; [done|]. unfold log_of. by rewrite El. }
  split; cbn.
  - erewrite cluster_of_peer; [apply HG|done|done].
  - intros i x. rewrite lookup_insert. destruct (decide (id = i)) as [<-|].
    + intros [= <-]. pose proof (gi_peers _ HG _ _ Hp) as HP.
      eapply PeerInv_mono in HP; [|intros _; exact Hg|reflexivity]. destruct HP.
      split; rewrite ?El, ?Eh; try done; try (by destruct Hd as [-> | ->]).
      unfold log_of. by rewrite El.
    + intros Hx. eapply PeerInv_mono; [intros _; exact Hg|reflexivity|]. by eapply gi_peers.
  - eapply Forall_impl; [apply (gi_packets _ HG)|]. intros k. by apply packet_ok_mono.
Qed.

Lemma new_offsets id meta log h :
  0 < id → 0 ≤ current_term meta → 0 ≤ voted_for meta → ml_prev log = LogPosition_zero →
  server_new c id meta log h →
  all_offsets (cm_log_meta (h_module h)) = offsets_of (ml_log log).
Proof.
  intros Hid Ht Hv Hz [snap time n m n' Hs Hl Hp Hpos Hnew].
  assert (entries_ok (fst <$> al_entries (log_view log))) as Hok by by apply Forall_fmap.
  assert (snapshot_ok snap) as Hsok by by split.
  destruct (wpx_done _ _ _ _ _ _ _
    (ConsensusModule_new_spec id meta snap log time n Hid Ht Hl Hpos Hsok Hv Hok) Hnew)
    as (_ & _ & _ & _ & _ & _ & _ & _ & E). cbn in *. by rewrite E, Hz.
Qed.

Lemma crash_step_inv g id p h commit :
  crashes = true → GroupInv g → g_peers g !! id = Some p →
  server_new c id (h_durable (pe_host p)) (dl_disk (pe_log p)) h →
  let p' := mkPeer h (reopen (pe_log p)) commit [] [] in
  ClusterInv c gated Hc (cluster_of (gput gated id p' (Tick_empty 0) [] g)) →
  GroupInv (gput gated id p' (Tick_empty 0) [] g).
Proof.
  intros Hcr HG Hp Hnew p' HC. rewrite cluster_of_gput in HC.
  pose proof (gi_peers _ HG _ _ Hp) as HP.
  pose proof (ci_hosts _ _ _ _ (gi_cluster _ HG) _ _ (cluster_of_host _ _ _ Hp)) as HH.
  eapply replace_inv; [done|done|congruence|done|]. intros peers hist _. split; [|done].
  split; cbn; try apply HP; [|congruence].
  apply (new_offsets id (h_durable (pe_host p))); [by eapply peer_id_positive|apply HH|apply HH|apply HP|done].
Qed.

(** The writer changes the log only through the tick that tells the module. *)
Lemma writer_step_inv g g' id p t h :
  GroupInv g → g_peers g !! id = Some p → run_meta_writer (pe_host p) t h →
  ticked gated id p h t (pe_waiting p) g g' → ClusterInv c gated Hc (cluster_of g') → GroupInv g'.
Proof.
  intros HG Hp Hw Ht HC.
  pose proof (ci_hosts _ _ _ _ (gi_cluster _ HG) _ _ (cluster_of_host _ _ _ Hp)) as HH.
  destruct Hw as [Hw|meta Hw|meta t m Hw Hs].
  3:{ eapply (op_step_inv _ _ _ _ _ _ _ _ HG Hp Ht HC); [| | |exact Hs]; [done|done|by eapply tell_sound]. }
  all: rewrite (cluster_of_ticked _ _ _ _ _ _ _ Ht) in HC.
  all: eapply ticked_inv; [done|done|exact Ht|done|by rewrite app_nil_r|done|done|].
  all: intros Hcr; by apply roots_made.
Qed.

Lemma group_step_inv g g' : GroupInv g → group_step c gated crashes g g' → GroupInv g'.
Proof.
  intros HG Hstep. pose proof (group_refines_inv _ _ HG Hstep) as HC.
  destruct Hstep as [id p op t m g1 Hp Hop Hs Ht
    |id p from msg t h g1 Hp Hin (req & now & rand & r & n & Hb & Hto & Hr & -> & ->) Ht|id p a Hp Ha Hm
    |p a t h g1 Hp Ha (m & Hs & ->) Ht|p k t h w g1 Hp Hk (now & rand & r & n & Hr & -> & -> & ->) Ht
    |id p w v Hp Hw Hv|p a t h g1 Hp Ha (m & Hs & ->) Ht|id p t h g1 Hp Hw Ht|id p Hp
    |id p t h g1 Hp (m & Hs & ->) Ht|id p ap Hp Hrun|id p h commit Hcr Hp Hnew Hc1];
    pose proof (ci_hosts _ _ _ _ (gi_cluster _ HG) _ _ (cluster_of_host _ _ _ Hp)) as HH;
    pose proof (hi_module _ _ _ _ _ _ HH) as HM.
  - destruct (local_static _ Hop) as (Hu & Hst & Hd).
    apply (op_step_inv _ _ _ _ op _ _ _ HG Hp Ht HC); [by destruct op|done|by apply static_sound|done].
  - apply (op_step_inv _ _ _ _ (OpRequestVote req) _ _ _ HG Hp Ht HC); [done|done| |].
    + eapply vote_sound; [done| |exact Hb].
      by apply (proj1 (Forall_forall _ _) (ci_sent _ _ _ _ (gi_cluster _ HG)) _ Hin).
    + apply (server_step_run _ _ now rand); [done|]. cbn. unfold ignore, bind. by rewrite Hr.
  - destruct HG. by split.
  - eapply (op_step_inv _ _ _ _ _ _ _ _ HG Hp Ht HC); [| | |exact Hs]; [done|done|].
    eapply answer_sound; [done| |done].
    by apply (proj1 (Forall_forall _ _) (ci_answers _ _ _ _ (gi_cluster _ HG)) _ Ha).
  - by eapply append_step_inv.
  - destruct HG. by split.
  - eapply (op_step_inv _ _ _ _ _ _ _ _ HG Hp Ht HC); [| | |exact Hs]; [done|done|by apply static_sound].
  - by eapply writer_step_inv.
  - eapply peer_step_inv; try done. by right.
  - eapply (op_step_inv _ _ _ _ _ _ _ _ HG Hp Ht HC); [| | |exact Hs]; [done|done|by apply static_sound].
  - eapply peer_step_inv; try done. by left.
  - by apply crash_step_inv.
Qed.

(** ** Runs *)

Lemma cluster_of_start g : group_start c gated g → cluster_start c gated (cluster_of g).
Proof.
  intros [Hp Hs Ha Hh _ _]. split; cbn; try done.
  - intros id h. rewrite lookup_fmap. destruct (g_peers g !! id) as [p|] eqn:E; [|done]. intros [= <-].
    destruct (Hp _ _ E) as [h Hid Hnew]. by apply (fresh_host_new c id h (mkMetadata 0 0 0) MemoryLog_new).
  - by rewrite Hh, map_to_list_fmap, <- list_fmap_compose.
Qed.

Lemma group_start_inv g : group_start c gated g → GroupInv g.
Proof.
  intros Hg. split.
  - by apply start_inv, cluster_of_start.
  - intros id p Hp. destruct (gs_peers _ _ _ Hg _ _ Hp) as [h Hid Hnew].
    split; try done; try (by apply Forall_nil_2). cbn.
    by apply (new_offsets id (mkMetadata 0 0 0) MemoryLog_new).
  - by rewrite (gs_packets _ _ _ Hg).
Qed.

Lemma group_run_inv g g' : GroupInv g → rtc (group_step c gated crashes) g g' → GroupInv g'.
Proof. intros HG Hr. induction Hr; [done|]. by apply IHHr, (group_step_inv x). Qed.

Lemma group_run_refines g g' :
  GroupInv g → rtc (group_step c gated crashes) g g' →
  rtc (cluster_step c gated crashes) (cluster_of g) (cluster_of g').
Proof.
  intros HG Hr. induction Hr as [|x y z Hxy _ IH]; [done|].
  specialize (IH (group_step_inv _ _ HG Hxy)).
  destruct (group_refines _ _ HG Hxy) as [<-|?]; [done|]. by eapply rtc_l.
Qed.

(** Logs with an entry of one term at one index agree up to it. *)
Lemma logs_match g a b pa pb i ea eb :
  crashes = false → GroupInv g → g_peers g !! a = Some pa → g_peers g !! b = Some pb →
  log_of pa !! i = Some ea → log_of pb !! i = Some eb →
  pos_term (entry_pos ea) = pos_term (entry_pos eb) →
  take (Datatypes.S i) (log_of pa) = take (Datatypes.S i) (log_of pb).
Proof.
  intros Hcr HG Ha Hb Hea Heb Et.
  eapply (rooted_match c Hwf); [exact (ci_one_vote _ _ _ _ (gi_cluster _ HG))| | | |done|done|done].
  - intros id p. by apply peer_id_positive.
  - by apply (pi_rooted _ _ _ (gi_peers _ HG _ _ Ha)).
  - by apply (pi_rooted _ _ _ (gi_peers _ HG _ _ Hb)).
Qed.

Lemma log_described g id p :
  GroupInv g → g_peers g !! id = Some p →
  all_offsets (cm_log_meta (h_module (pe_host p))) = offsets_of (ml_log (dl_log (pe_log p))) ∧
  ∀ k e, log_of p !! k = Some e → pos_index (entry_pos e) = Z.of_nat k + 1.
Proof.
  intros HG Hp. pose proof (pi_offsets _ _ _ (gi_peers _ HG _ _ Hp)) as Hoff. split; [done|].
  intros k e (x & -> & Hx)%list_lookup_fmap_Some.
  pose proof (hi_module _ _ _ _ _ _ (ci_hosts _ _ _ _ (gi_cluster _ HG) _ _ (cluster_of_host _ _ _ Hp))) as HM.
  by apply (offsets_of_index _ _ (inv_log _ (mi_inv _ _ _ _ _ HM)) Hoff).
Qed.
End Invariant.
