(* ===== verification/ReplicaTheorems.v ===== *)
(** * Theorems about servers with their logs *)

From stdpp Require Import relations.
From S2P Require Import Prelude RaftProto ConfigState LogMetadata ConsensusState Consensus.
From S2P Require Import RaftLog ConsensusMachine Cluster ClusterInv ClusterTheorems.
From S2P Require Import Replica ReplicaScenario ReplicaInv.

Definition replicated : Group := Eval vm_compute in
  greplayed true false (win_unstored ++ replicate_first) (replicas true).

Lemma replicated_run : rtc (group_step three true false) (replicas true) replicated.
Proof. apply (greplay_run _ _ _ (win_unstored ++ replicate_first)). by vm_compute. Qed.

Lemma diverged_run : rtc (group_step three true true) (replicas true) diverged.
Proof.
  apply (greplay_run _ _ _ (win_unstored ++ replicate_first ++ win_again ++ replicate_second)).
  by vm_compute.
Qed.

(** C4: log matching. In a group with a fixed configuration whose servers do
    not crash, if two logs have an entry of one term at one index, they have
    the same entries up to that index, in every reachable state. *)
Theorem log_matching c gated g0 g a b pa pb i ea eb :
  Configuration_wf c → no_aspiring c → group_start c gated g0 →
  rtc (group_step c gated false) g0 g →
  g_peers g !! a = Some pa → g_peers g !! b = Some pb →
  log_of pa !! i = Some ea → log_of pb !! i = Some eb →
  pos_term (entry_pos ea) = pos_term (entry_pos eb) →
  take (S i) (log_of pa) = take (S i) (log_of pb).
Proof.
  intros Hwf Hc H0 Hr.
  eapply (logs_match c gated false Hwf Hc); [done|].
  eapply (group_run_inv c gated false Hwf Hc); [by right| |exact Hr]. by apply group_start_inv.
Qed.

Definition peer_of (g : Group) (id : ServerId) : Peer := default (fresh_replica id) (g_peers g !! id).

Lemma log_matching_witness :
  take 1 (log_of (peer_of replicated 1)) = take 1 (log_of (peer_of replicated 2)) ∧
  log_of (peer_of replicated 1) = [mkLogEntry (mkLogPosition 1 1) first_command].
Proof.
  split; [|by vm_compute].
  refine (log_matching three true (replicas true) replicated 1 2 _ _ 0 _ _ three_wf three_no_aspiring
    (replicas_start true) replicated_run _ _ _ _ _); vm_compute; reflexivity.
Defined.

(** C7: a candidate may win an election before its own term and vote are
    stored. Servers that release a vote only once it is stored, restart from
    their disks and acknowledge only flushed entries can then apply different
    commands at index 1: server 1 leads term 1, crashes with nothing on its
    disk, leads term 1 again and replaces its first entry. *)
Theorem unstored_leader_diverges :
  ∃ g0 g, group_start three true g0 ∧ rtc (group_step three true true) g0 g ∧
    applied_by g 1 = [mkLogEntry (mkLogPosition 1 1) (Command [2])] ∧
    applied_by g 2 = [mkLogEntry (mkLogPosition 1 1) (Command [1])].
Proof.
  exists (replicas true), diverged. split_and!; [apply replicas_start|apply diverged_run|by vm_compute..].
Qed.

(** The group with logs refines the group without them. Every run from a
    start, seen without logs, entries and acknowledgements, is a run of the
    servers of Cluster.v. *)
Theorem group_refinement c gated crashes g0 g :
  Configuration_wf c → no_aspiring c → gated = true ∨ crashes = false →
  group_start c gated g0 → rtc (group_step c gated crashes) g0 g →
  cluster_start c gated (cluster_of g0) ∧
  rtc (cluster_step c gated crashes) (cluster_of g0) (cluster_of g).
Proof.
  intros Hwf Hc Hsafe H0 Hr. split; [by apply cluster_of_start|].
  eapply (group_run_refines c gated crashes Hwf Hc Hsafe); [by apply group_start_inv|done].
Qed.

Lemma group_refinement_witness :
  rtc (cluster_step three true true) (cluster_of (replicas true)) (cluster_of diverged) ∧
  leads (cluster_of diverged) 1 1.
Proof.
  split; [|by eexists; split; [by vm_compute|done]].
  refine (proj2 (group_refinement three true true (replicas true) diverged three_wf
    three_no_aspiring _ (replicas_start true) diverged_run)).
  by left.
Defined.

(** C9: In every reachable state of a group with one configuration, without
    crashes, or with crashes when votes leave a server only once they are
    stored, the log metadata of a module is the metadata of the log beside it:
    the entries are at the indexes 1, 2, ... and the module's offsets are their
    positions and sequences in order. *)
Theorem module_describes_log c gated crashes g0 g id p :
  Configuration_wf c → no_aspiring c → gated = true ∨ crashes = false →
  group_start c gated g0 → rtc (group_step c gated crashes) g0 g →
  g_peers g !! id = Some p →
  all_offsets (cm_log_meta (h_module (pe_host p))) = offsets_of (ml_log (dl_log (pe_log p))) ∧
  ∀ k e, log_of p !! k = Some e → pos_index (entry_pos e) = Z.of_nat k + 1.
Proof.
  intros Hwf Hc Hsafe H0 Hr Hp.
  assert (GroupInv c gated crashes Hc g) as HG.
  { eapply (group_run_inv c gated crashes Hwf Hc Hsafe); [by apply group_start_inv|done]. }
  by eapply log_described.
Qed.

Lemma module_describes_log_witness :
  all_offsets (cm_log_meta (h_module (pe_host (peer_of diverged 2)))) =
    offsets_of (ml_log (dl_log (pe_log (peer_of diverged 2)))) ∧
  length (log_of (peer_of diverged 2)) = 1%nat.
Proof.
  split; [|by vm_compute].
  refine (proj1 (module_describes_log three true true (replicas true) diverged 2 _ three_wf
    three_no_aspiring (or_introl eq_refl) (replicas_start true) diverged_run _)).
  by vm_compute.
Defined.
