(* ===== verification/Wire.v ===== *)
(** * The protobuf wire format

    src/pkg/protobuf/core/src/wire.rs: varints, zigzag integers, tags,
    fields and packed values. A byte is a [Z] in [0, 256), a u64 a [Z] in
    [0, 2^64), an i32 or i64 a [Z] in its signed range with the wrap-around
    of shifts and casts written out. Serializing into a [Vec<u8>] cannot
    fail, so it is a function to the list of bytes it appends; parsing
    returns an error or the value and the rest of the input. *)

From S2P Require Import Prelude.

Inductive WireError :=
| InvalidWireType
| UnexpectedWireType
| Incomplete
| IntegerOverflow
| UnexpectedEndGroup.

Abbreviation WireResult A := (WireError + A)%type.
Abbreviation bytes := (list Z).

(** [x?] on a [WireResult] *)
Definition try_bind {A B} (r : WireResult A) (k : A → WireResult B) : WireResult B :=
  match r with inl e => inl e | inr a => k a end.
Notation "'try!' x ':=' r 'in' k" := (try_bind r (λ x, k))
  (at level 10, x pattern, r at level 100, k at level 200) : run_scope.

(** ** Varints *)

Definition U64 : Z := 2 ^ 64.

(** The loop of [serialize_varint]: a u64 is used up after ten rounds. *)
Fixpoint serialize_varint_loop (fuel : nat) (v : Z) : bytes :=
  match fuel with
  | O => []
  | S fuel' =>
    let b := Z.land v 127 in
    let v' := Z.shiftr v 7 in
    if negb (v' =? 0) then Z.lor b 128 :: serialize_varint_loop fuel' v' else [b]
  end.

Definition serialize_varint (v : Z) : bytes := serialize_varint_loop 10 v.

(** The loop of [parse_varint] on the bytes from [i] on; [max_bytes] is what
    remains of [min(input.len(), 10)]. *)
Fixpoint parse_varint_loop (max_bytes : nat) (input : bytes) (i v : Z) : WireResult (Z * bytes) :=
  match max_bytes, input with
  | S max', byte :: rest =>
    let more := negb (Z.land byte 128 =? 0) in
    let b := Z.land byte 127 in
    (* [b << (7 * i)] on u64 drops the bits above 64 *)
    let v := Z.lor v (Z.shiftl b (7 * i) mod U64) in
    if more then parse_varint_loop max' rest (i + 1) v else inr (v, rest)
  | _, _ => inl Incomplete
  end.

Definition parse_varint (input : bytes) : WireResult (Z * bytes) :=
  parse_varint_loop (Nat.min (length input) 10) input 0 0.

Definition parse_word32 (input : bytes) : WireResult (bytes * bytes) :=
  if (length input <? 4)%nat then inl Incomplete else inr (take 4 input, drop 4 input).

Definition parse_word64 (input : bytes) : WireResult (bytes * bytes) :=
  if (length input <? 8)%nat then inl Incomplete else inr (take 8 input, drop 8 input).

(** ** Zigzag *)

(** The value of the low [w] bits as a signed integer: [as i32], [as i64]. *)
Definition to_signed (w v : Z) : Z :=
  let u := v mod 2 ^ w in
  if u <? 2 ^ (w - 1) then u else u - 2 ^ w.

(** [as u64] *)
Definition to_u64 (v : Z) : Z := v mod U64.

Definition encode_zigzag32 (n : Z) : Z :=
  to_u64 (Z.lxor (to_signed 32 (Z.shiftl n 1)) (Z.shiftr n 31)).

Definition decode_zigzag32 (v : Z) : WireResult Z :=
  let n := to_signed 32 v in
  if negb (n =? to_signed 64 v) then inl IntegerOverflow
  else inr (Z.lxor (Z.shiftr n 1) (- Z.land n 1)).

Definition encode_zigzag64 (n : Z) : Z :=
  to_u64 (Z.lxor (to_signed 64 (Z.shiftl n 1)) (Z.shiftr n 63)).

Definition decode_zigzag64 (v : Z) : Z :=
  let n := to_signed 64 v in
  Z.lxor (Z.shiftr n 1) (- Z.land n 1).

(** ** Tags *)

Inductive WireType := Varint_t | Word64_t | LengthDelim_t | StartGroup_t | EndGroup_t | Word32_t.

Definition WireType_as_u32 (t : WireType) : Z :=
  match t with
  | Varint_t => 0
  | Word64_t => 1
  | LengthDelim_t => 2
  | StartGroup_t => 3
  | EndGroup_t => 4
  | Word32_t => 5
  end.

Definition WireType_from_usize (v : Z) : WireResult WireType :=
  if v =? 0 then inr Varint_t
  else if v =? 1 then inr Word64_t
  else if v =? 2 then inr LengthDelim_t
  else if v =? 3 then inr StartGroup_t
  else if v =? 4 then inr EndGroup_t
  else if v =? 5 then inr Word32_t
  else inl InvalidWireType.

Record Tag := mkTag { field_number : Z; wire_type : WireType }.

Definition Tag_parse (input : bytes) : WireResult (Tag * bytes) :=
  try! (v, rest) := parse_varint input in
  try! wire_type := WireType_from_usize (Z.land v 7) in
  inr (mkTag (Z.shiftr v 3 mod 2 ^ 32) wire_type, rest).

(** [(self.field_number << 3) | (self.wire_type as u32)] on u32 *)
Definition Tag_serialize (t : Tag) : bytes :=
  serialize_varint
    (Z.lor (Z.shiftl (field_number t) 3 mod 2 ^ 32) (WireType_as_u32 (wire_type t))).

(** ** Fields *)

Inductive WireValue :=
| Varint (n : Z)
| Word64 (v : bytes)
| LengthDelim (v : bytes)
| Group (items : list WireValue)
| Word32 (v : bytes).

Record WireField := mkWireField { wf_number : Z; wf_value : WireValue }.

Fixpoint WireValue_serialize (v : WireValue) : bytes :=
  match v with
  | Varint n => serialize_varint n
  | Word64 v => v
  | LengthDelim v => serialize_varint (Z.of_nat (length v)) ++ v
  | Group items => flat_map WireValue_serialize items
  | Word32 v => v
  end.

Definition WireValue_type (v : WireValue) : WireType :=
  match v with
  | Varint _ => Varint_t
  | Word64 _ => Word64_t
  | LengthDelim _ => LengthDelim_t
  | Group _ => StartGroup_t
  | Word32 _ => Word32_t
  end.

Definition WireField_serialize (f : WireField) : bytes :=
  let wire_type := WireValue_type (wf_value f) in
  Tag_serialize (mkTag (wf_number f) wire_type) ++ WireValue_serialize (wf_value f) ++
  match wire_type with
  | StartGroup_t => Tag_serialize (mkTag (wf_number f) EndGroup_t)
  | _ => []
  end.

(** [WireFieldIter]: the rest of the input, and whether a group is open (the
    vector of its items is never pushed to). *)
Record WireFieldIter := mkWireFieldIter { wfi_input : bytes; wfi_group : option (list WireValue) }.

Definition WireFieldIter_new (input : bytes) : WireFieldIter := mkWireFieldIter input None.

(** The value after a tag; [None] asks for another round of the loop. *)
Definition next_value (t : WireType) (it : WireFieldIter)
    : WireResult (option WireValue * WireFieldIter) :=
  let input := wfi_input it in
  match t with
  | Varint_t =>
    try! (v, rest) := parse_varint input in
    inr (Some (Varint v), mkWireFieldIter rest (wfi_group it))
  | Word64_t =>
    try! (v, rest) := parse_word64 input in
    inr (Some (Word64 v), mkWireFieldIter rest (wfi_group it))
  | Word32_t =>
    try! (v, rest) := parse_word32 input in
    inr (Some (Word32 v), mkWireFieldIter rest (wfi_group it))
  | LengthDelim_t =>
    try! (len, rest) := parse_varint input in
    if Z.of_nat (length rest) <? len then inl Incomplete else
    inr (Some (LengthDelim (take (Z.to_nat len) rest)),
         mkWireFieldIter (drop (Z.to_nat len) rest) (wfi_group it))
  | StartGroup_t => inr (None, mkWireFieldIter input (Some []))
  | EndGroup_t =>
    match wfi_group it with
    | Some items => inr (Some (Group items), mkWireFieldIter input None)
    | None => inl UnexpectedEndGroup
    end
  end.

(** The loop of [next_impl]; every round uses up a tag, so the length of the
    input bounds it. The span is what the last round used up. *)
Fixpoint next_impl_loop (fuel : nat) (it : WireFieldIter)
    : WireResult (option (bytes * WireField) * WireFieldIter) :=
  match wfi_input it, fuel with
  | [], _ =>
    match wfi_group it with
    | Some _ => inl Incomplete
    | None => inr (None, it)
    end
  | _ :: _, O => inl Incomplete
  | _ :: _, S fuel' =>
    let initial_input := wfi_input it in
    try! (tag, rest) := Tag_parse initial_input in
    try! (value, it) := next_value (wire_type tag) (mkWireFieldIter rest (wfi_group it)) in
    match value with
    | None => next_impl_loop fuel' it
    | Some value =>
      let span := take (length initial_input - length (wfi_input it)) initial_input in
      inr (Some (span, mkWireField (field_number tag) value), it)
    end
  end.

Definition next_impl (it : WireFieldIter)
    : WireResult (option (bytes * WireField) * WireFieldIter) :=
  next_impl_loop (length (wfi_input it)) it.

(** [parse_all]; every field uses up part of the input. *)
Fixpoint parse_all_loop (fuel : nat) (it : WireFieldIter) : WireResult (list WireField) :=
  try! (f, it) := next_impl it in
  match f, fuel with
  | None, _ => inr []
  | Some _, O => inl Incomplete
  | Some (_, f), S fuel' =>
    try! rest := parse_all_loop fuel' it in
    inr (f :: rest)
  end.

Definition parse_all (input : bytes) : WireResult (list WireField) :=
  parse_all_loop (length input) (WireFieldIter_new input).

(** ** Packed values *)

Inductive WireValuePackedIteratorState (T : Type) :=
| PI_Singular (v : T)
| PI_LengthDelim (input : bytes)
| PI_Error (e : WireError).
Arguments PI_Singular {T}.
Arguments PI_LengthDelim {T}.
Arguments PI_Error {T}.

Definition packed_next {T} (parser : bytes → WireResult (T * bytes))
    (st : WireValuePackedIteratorState T)
    : option (WireResult T) * WireValuePackedIteratorState T :=
  match st with
  | PI_Singular v => (Some (inr v), PI_LengthDelim [])
  | PI_LengthDelim [] => (None, st)
  | PI_LengthDelim input =>
    match parser input with
    | inr (v, rest) => (Some (inr v), PI_LengthDelim rest)
    | inl e => (Some (inl e), st)
    end
  | PI_Error e => (Some (inl e), st)
  end.

Definition repeated_varint (v : WireValue) : WireValuePackedIteratorState Z :=
  match v with
  | Varint n => PI_Singular n
  | LengthDelim input => PI_LengthDelim input
  | _ => PI_Error UnexpectedWireType
  end.

Definition repeated_word32 (v : WireValue) : WireValuePackedIteratorState bytes :=
  match v with
  | Word32 n => PI_Singular n
  | LengthDelim input => PI_LengthDelim input
  | _ => PI_Error UnexpectedWireType
  end.

Definition repeated_word64 (v : WireValue) : WireValuePackedIteratorState bytes :=
  match v with
  | Word64 n => PI_Singular n
  | LengthDelim input => PI_LengthDelim input
  | _ => PI_Error UnexpectedWireType
  end.

(** The first [n] items of an iterator collected into a [Result<Vec<_>>]. *)
Fixpoint packed_collect {T} (n : nat) (parser : bytes → WireResult (T * bytes))
    (st : WireValuePackedIteratorState T) : WireResult (list T) :=
  match packed_next parser st, n with
  | (None, _), _ => inr []
  | (Some (inl e), _), _ => inl e
  | (Some (inr _), _), O => inl Incomplete
  | (Some (inr v), st'), S n' =>
    try! rest := packed_collect n' parser st' in
    inr (v :: rest)
  end.

(** ** Arithmetic of the bit operations *)

Lemma lor_disjoint a b k : 0 ≤ k → 0 ≤ a < 2 ^ k → Z.lor a (b * 2 ^ k) = a + b * 2 ^ k.
Proof.
  intros Hk Ha. assert (Z.land a (b * 2 ^ k) = 0) as Hl.
  { rewrite <- Z.shiftl_mul_pow2 by done. apply Z.bits_inj'. intros i Hi.
    rewrite Z.land_spec, Z.bits_0. destruct (decide (i < k)).
    - rewrite (Z.shiftl_spec_low b) by done. apply andb_false_r.
    - destruct (decide (a = 0)) as [->|]; [by rewrite Z.bits_0|].
      rewrite (Z.bits_above_log2 a); [done|lia|]. apply Z.log2_lt_pow2; [lia|].
      apply Z.lt_le_trans with (2 ^ k); [lia|]. apply Z.pow_le_mono_r; lia. }
  rewrite Z.add_nocarry_lxor by done. by rewrite Z.lxor_lor.
Qed.

Lemma land_127 v : Z.land v 127 = v mod 128.
Proof. apply (Z.land_ones v 7). done. Qed.

Lemma shiftr_7 v : Z.shiftr v 7 = v / 128.
Proof. apply (Z.shiftr_div_pow2 v 7). done. Qed.

Lemma lor_128 b : 0 ≤ b < 128 → Z.lor b 128 = b + 128.
Proof. intros Hb. apply (lor_disjoint b 1 7); [done|exact Hb]. Qed.

(** The top bit of a byte. *)
Lemma land_128 b : 0 ≤ b < 256 → Z.land b 128 = if b <? 128 then 0 else 128.
Proof.
  intros Hb. assert (b = b mod 128 + (b / 128) * 128) as E by (Z.div_mod_to_equations; lia).
  pose proof (Z.mod_pos_bound b 128).
  rewrite E at 1. change 128 with (2 ^ 7) at 3. rewrite <- (lor_disjoint (b mod 128) (b / 128) 7) by lia.
  rewrite Z.land_lor_distr_l.
  assert (Z.land (b mod 128) 128 = 0) as ->.
  { rewrite <- land_127, <- Z.land_assoc. change (Z.land 127 128) with 0. apply Z.land_0_r. }
  destruct (b <? 128) eqn:E2; b2p.
  - by rewrite Z.div_small by lia.
  - replace (b / 128) with 1; [done|]. Z.div_mod_to_equations. lia.
Qed.

(** ** Varints round-trip *)

Lemma serialize_varint_loop_cons fuel v :
  0 ≤ v →
  serialize_varint_loop (S fuel) v =
    if v <? 128 then [v] else (v mod 128 + 128) :: serialize_varint_loop fuel (v / 128).
Proof.
  intros Hv. cbn [serialize_varint_loop]. rewrite land_127, shiftr_7.
  pose proof (Z.mod_pos_bound v 128). rewrite lor_128 by lia.
  destruct (v <? 128) eqn:E; b2p.
  - rewrite (Z.div_small v), (Z.mod_small v) by lia. done.
  - destruct (v / 128 =? 0) eqn:E2; b2p; [|done]. Z.div_mod_to_equations. lia.
Qed.

Lemma parse_varint_loop_cons m b rest i v :
  0 ≤ b < 256 → 0 ≤ i → 0 ≤ v < 2 ^ (7 * i) → (b mod 128) * 2 ^ (7 * i) < U64 →
  parse_varint_loop (S m) (b :: rest) i v =
    if b <? 128 then inr (v + b * 2 ^ (7 * i), rest)
    else parse_varint_loop m rest (i + 1) (v + (b mod 128) * 2 ^ (7 * i)).
Proof.
  intros Hb Hi Hv Hs. cbn [parse_varint_loop]. rewrite land_128, land_127 by done.
  pose proof (Z.mod_pos_bound b 128). assert (0 < 2 ^ (7 * i)) by (apply Z.pow_pos_nonneg; lia).
  rewrite Z.shiftl_mul_pow2, (Z.mod_small (b mod 128 * _)) by nia.
  rewrite lor_disjoint by lia. destruct (b <? 128) eqn:E; b2p; [|done].
  cbn [negb Z.eqb]. by rewrite Z.mod_small by lia.
Qed.

Lemma parse_serialize_loop fuel v m rest i acc :
  0 ≤ v < 128 ^ Z.of_nat fuel → (0 < fuel)%nat → 0 ≤ i → 0 ≤ acc < 2 ^ (7 * i) →
  v * 2 ^ (7 * i) < U64 → (length (serialize_varint_loop fuel v) <= m)%nat →
  parse_varint_loop m (serialize_varint_loop fuel v ++ rest) i acc = inr (acc + v * 2 ^ (7 * i), rest).
Proof.
  revert v m i acc. induction fuel as [|fuel IH]; intros v m i acc Hv Hf Hi Hacc Hmax Hm; [lia|].
  rewrite serialize_varint_loop_cons in * by lia.
  assert (0 < 2 ^ (7 * i)) by (apply Z.pow_pos_nonneg; lia).
  assert (2 ^ (7 * (i + 1)) = 128 * 2 ^ (7 * i)) as Epow.
  { replace (7 * (i + 1)) with (7 + 7 * i) by lia. by rewrite Z.pow_add_r by lia. }
  pose proof (Z.mod_pos_bound v 128). pose proof (Z.div_mod v 128).
  destruct m as [|m]; [destruct (v <? 128); cbn in Hm; lia|].
  destruct (v <? 128) eqn:E; b2p; cbn [app].
  - rewrite parse_varint_loop_cons; [|lia..|rewrite Z.mod_small by lia; done].
    by rewrite (proj2 (Z.ltb_lt v 128)) by done.
  - assert ((v mod 128 + 128) mod 128 = v mod 128) as Em.
    { rewrite <- Z.add_mod_idemp_r by done. by rewrite Z.mod_same, Z.add_0_r, Z.mod_mod by done. }
    rewrite parse_varint_loop_cons; [|lia..|rewrite Em; nia].
    rewrite (proj2 (Z.ltb_ge (v mod 128 + 128) 128)), Em by lia.
    rewrite Nat2Z.inj_succ, Z.pow_succ_r in Hv by lia.
    rewrite IH; [apply (f_equal inr), (f_equal (λ x, (x, rest))); rewrite Epow; nia|..].
    + split; [apply Z.div_pos; lia|]. apply Z.div_lt_upper_bound; lia.
    + destruct fuel; [cbn in Hv; lia|lia].
    + lia.
    + rewrite Epow. nia.
    + rewrite Epow. nia.
    + cbn in Hm. lia.
Qed.

Lemma length_serialize_varint_loop fuel v :
  (0 < fuel)%nat → (0 < length (serialize_varint_loop fuel v) <= fuel)%nat.
Proof.
  revert v. induction fuel as [|fuel IH]; intros v Hf; cbn [serialize_varint_loop]; [lia|].
  destruct (negb _); cbn [length]; [|lia].
  destruct fuel as [|fuel]; [cbn; lia|]. specialize (IH (Z.shiftr v 7)). lia.
Qed.

Lemma length_serialize_varint_le v : (0 < length (serialize_varint v) ≤ 10)%nat.
Proof. apply length_serialize_varint_loop. lia. Qed.

Lemma parse_serialize_varint v rest :
  0 ≤ v < U64 → parse_varint (serialize_varint v ++ rest) = inr (v, rest).
Proof.
  intros Hv. unfold parse_varint, serialize_varint.
  pose proof (length_serialize_varint_loop 10 v). unfold U64 in *.
  rewrite (parse_serialize_loop 10 v _ rest 0 0); cbn [Z.mul Z.pow] in *.
  - by rewrite Z.mul_1_r.
  - split; [lia|]. apply Z.lt_trans with (2 ^ 64); [lia|done].
  - lia.
  - lia.
  - lia.
  - unfold U64. lia.
  - rewrite length_app. lia.
Qed.

(** ** Zigzag *)

Lemma to_signed_id w v : 0 < w → - 2 ^ (w - 1) ≤ v < 2 ^ (w - 1) → to_signed w v = v.
Proof.
  intros Hw Hv. unfold to_signed.
  assert (2 ^ w = 2 * 2 ^ (w - 1)) as E by (rewrite <- Z.pow_succ_r by lia; f_equal; lia).
  destruct (decide (0 ≤ v)).
  - rewrite Z.mod_small by lia. destruct (_ <? _) eqn:E1; b2p; lia.
  - replace (v mod 2 ^ w) with (v + 2 ^ w).
    + destruct (_ <? _) eqn:E1; b2p; lia.
    + symmetry. rewrite <- (Z.mod_small (v + 2 ^ w) (2 ^ w)) by lia.
      by rewrite <- Z.add_mod_idemp_r, Z.mod_same, Z.add_0_r by lia.
Qed.

(** Adding a multiple of [2^w] changes nothing. *)
Lemma to_signed_wrap w v k : 0 < w → to_signed w (v + k * 2 ^ w) = to_signed w v.
Proof. intros Hw. unfold to_signed. rewrite Z.mod_add; [done|]. pose proof (Z.pow_pos_nonneg 2 w). lia. Qed.

(** Decoding undoes the shift and the sign, on a signed number. *)
Lemma unzigzag_even n : Z.lxor (Z.shiftr (2 * n) 1) (- Z.land (2 * n) 1) = n.
Proof.
  rewrite Z.shiftr_div_pow2 by done. change 1 with (Z.ones 1) at 2. rewrite Z.land_ones by done.
  change (2 ^ 1) with 2. replace (2 * n) with (n * 2) by lia.
  rewrite Z.div_mul, Z.mod_mul by done. apply Z.lxor_0_r.
Qed.

Lemma unzigzag_odd n : Z.lxor (Z.shiftr (-2 * n - 1) 1) (- Z.land (-2 * n - 1) 1) = n.
Proof.
  rewrite Z.shiftr_div_pow2 by done. change 1 with (Z.ones 1) at 4. rewrite Z.land_ones by done.
  change (2 ^ 1) with 2. replace (-2 * n - 1) with (1 + (- n - 1) * 2) by lia.
  rewrite Z.div_add, Z.mod_add by done. change (- (1 mod 2)) with (-1).
  rewrite Z.lxor_m1_r. unfold Z.lnot. change (1 / 2) with 0. lia.
Qed.

(** The sign shifted down, and the exclusive or with it. *)
Lemma lxor_sign n x w :
  0 ≤ w → - 2 ^ w ≤ n < 2 ^ w → Z.lxor x (Z.shiftr n w) = if 0 <=? n then x else - x - 1.
Proof.
  intros Hw Hn. rewrite Z.shiftr_div_pow2 by done. destruct (0 <=? n) eqn:E; b2p.
  - rewrite Z.div_small by lia. apply Z.lxor_0_r.
  - replace (n / 2 ^ w) with (-1).
    + rewrite Z.lxor_m1_r. unfold Z.lnot. lia.
    + apply Z.div_unique with (n + 2 ^ w); lia.
Qed.

Lemma to_signed_range w v : 0 < w → - 2 ^ (w - 1) ≤ to_signed w v < 2 ^ (w - 1).
Proof.
  intros Hw. unfold to_signed. pose proof (Z.pow_pos_nonneg 2 w).
  pose proof (Z.mod_pos_bound v (2 ^ w)).
  assert (2 ^ w = 2 * 2 ^ (w - 1)) as E by (rewrite <- Z.pow_succ_r by lia; f_equal; lia).
  destruct (_ <? _) eqn:E1; b2p; lia.
Qed.

Lemma to_signed_double w n : 0 < w → to_signed (w + 1) (2 * n) = 2 * to_signed w n.
Proof.
  intros Hw. unfold to_signed. rewrite Z.pow_add_r, Z.mul_comm, (Z.mul_comm (2 ^ w)) by lia.
  change (2 ^ 1) with 2. rewrite (Z.mul_comm n). pose proof (Z.pow_pos_nonneg 2 w).
  rewrite Z.mul_mod_distr_l by lia. replace (w + 1 - 1) with (Z.succ (w - 1)) by lia.
  rewrite Z.pow_succ_r by lia.
  destruct (2 * _ <? _) eqn:E1, (_ <? 2 ^ (w - 1)) eqn:E2; b2p; lia.
Qed.

(** A signed number of [w] bits survives the casts to u64 and back. *)
Lemma to_signed_to_u64 w e :
  0 < w ≤ 64 → - 2 ^ (w - 1) ≤ e < 2 ^ (w - 1) → to_signed w (to_u64 e) = e.
Proof.
  intros Hw He. unfold to_u64, U64.
  replace (e mod 2 ^ 64) with (e + (- (e / 2 ^ 64) * 2 ^ (64 - w)) * 2 ^ w).
  - rewrite to_signed_wrap by lia. apply to_signed_id; [lia|done].
  - rewrite <- Z.mul_assoc, <- Z.pow_add_r by lia. replace (64 - w + w) with 64 by lia.
    rewrite Z.mod_eq by done. lia.
Qed.

(** What encoding does, on a signed number of [w] bits. *)
Lemma zigzag_encoded w n :
  1 < w → - 2 ^ (w - 1) ≤ n < 2 ^ (w - 1) →
  Z.lxor (to_signed w (Z.shiftl n 1)) (Z.shiftr n (w - 1)) =
    if 0 <=? n then 2 * to_signed (w - 1) n else -2 * to_signed (w - 1) n - 1.
Proof.
  intros Hw Hn. rewrite lxor_sign by (done || lia). rewrite Z.shiftl_mul_pow2 by done.
  change (2 ^ 1) with 2. rewrite (Z.mul_comm n 2).
  pose proof (to_signed_double (w - 1) n) as Hd. replace (w - 1 + 1) with w in Hd by lia.
  rewrite Hd by lia. destruct (0 <=? n); lia.
Qed.

Lemma decode_encode_zigzag64 n :
  - 2 ^ 63 ≤ n < 2 ^ 63 → decode_zigzag64 (encode_zigzag64 n) = to_signed 63 n.
Proof.
  intros Hn. unfold decode_zigzag64, encode_zigzag64.
  pose proof (zigzag_encoded 64 n ltac:(lia) Hn) as Ee. change (64 - 1) with 63 in Ee. rewrite Ee.
  pose proof (to_signed_range 63 n ltac:(lia)).
  destruct (0 <=? n); rewrite to_signed_to_u64 by lia; [apply unzigzag_even|apply unzigzag_odd].
Qed.

Lemma decode_encode_zigzag32 n :
  - 2 ^ 31 ≤ n < 2 ^ 31 → decode_zigzag32 (encode_zigzag32 n) = inr (to_signed 31 n).
Proof.
  intros Hn. unfold decode_zigzag32, encode_zigzag32.
  pose proof (zigzag_encoded 32 n ltac:(lia) Hn) as Ee. change (32 - 1) with 31 in Ee. rewrite Ee.
  pose proof (to_signed_range 31 n ltac:(lia)).
  set (e := if 0 <=? n then _ else _). assert (- 2 ^ 31 ≤ e < 2 ^ 31) as He.
  { unfold e. destruct (0 <=? n); lia. }
  rewrite !to_signed_to_u64 by lia. rewrite Z.eqb_refl. cbn [negb]. apply (f_equal inr).
  unfold e. destruct (0 <=? n); [apply unzigzag_even|apply unzigzag_odd].
Qed.

(** Only the numbers that fit in one bit less survive. *)
Lemma to_signed_fixed w n :
  0 < w → - 2 ^ w ≤ n < 2 ^ w → to_signed w n = n ↔ - 2 ^ (w - 1) ≤ n < 2 ^ (w - 1).
Proof.
  intros Hw Hn. split; [intros <-; by apply to_signed_range|by apply to_signed_id].
Qed.

(** ** Tags and fields round-trip *)

Lemma WireType_from_as t : WireType_from_usize (WireType_as_u32 t) = inr t.
Proof. by destruct t. Qed.

Lemma WireType_as_u32_range t : 0 ≤ WireType_as_u32 t < 8.
Proof. destruct t; cbn; lia. Qed.

Lemma Tag_parse_serialize t rest :
  0 ≤ field_number t < 2 ^ 29 → Tag_parse (Tag_serialize t ++ rest) = inr (t, rest).
Proof.
  intros Hf. unfold Tag_parse, Tag_serialize. pose proof (WireType_as_u32_range (wire_type t)) as Ht.
  rewrite Z.shiftl_mul_pow2, Z.mod_small by lia.
  rewrite Z.lor_comm, lor_disjoint by (done || lia).
  set (v := WireType_as_u32 _ + _). rewrite parse_serialize_varint by (unfold v, U64; lia). cbn [try_bind].
  assert (Z.land v 7 = WireType_as_u32 (wire_type t)) as ->.
  { change 7 with (Z.ones 3). rewrite Z.land_ones by done. unfold v.
    rewrite Z.mod_add by done. by apply Z.mod_small. }
  rewrite WireType_from_as. cbn [try_bind].
  assert (Z.shiftr v 3 = field_number t) as ->.
  { rewrite Z.shiftr_div_pow2 by done. unfold v. rewrite Z.div_add by done.
    by rewrite Z.div_small. }
  rewrite Z.mod_small by lia. by destruct t.
Qed.

(** Values a serialized message can hold, without the deprecated groups. *)
Definition WireValue_ok (v : WireValue) : Prop :=
  match v with
  | Varint n => 0 ≤ n < U64
  | Word64 b => length b = 8%nat
  | Word32 b => length b = 4%nat
  | LengthDelim b => Z.of_nat (length b) < U64
  | Group _ => False
  end.

Definition WireField_ok (f : WireField) : Prop :=
  0 ≤ wf_number f < 2 ^ 29 ∧ WireValue_ok (wf_value f).

Lemma next_value_serialize v rest g :
  WireValue_ok v →
  next_value (WireValue_type v) (mkWireFieldIter (WireValue_serialize v ++ rest) g) =
    inr (Some v, mkWireFieldIter rest g).
Proof.
  destruct v as [n|b|b|items|b]; cbn [WireValue_ok WireValue_type WireValue_serialize next_value wfi_input];
    intros Hv; try done.
  - by rewrite parse_serialize_varint by done.
  - unfold parse_word64. rewrite length_app, (proj2 (Nat.ltb_ge _ _)) by lia. cbn [try_bind].
    by rewrite take_app_length', drop_app_length' by done.
  - rewrite <- (assoc_L (++)), parse_serialize_varint by lia. cbn [try_bind].
    rewrite length_app, (proj2 (Z.ltb_ge _ _)) by lia.
    by rewrite Nat2Z.id, take_app_length, drop_app_length.
  - unfold parse_word32. rewrite length_app, (proj2 (Nat.ltb_ge _ _)) by lia. cbn [try_bind].
    by rewrite take_app_length', drop_app_length' by done.
Qed.

Lemma serialize_varint_nonempty v : serialize_varint v ≠ [].
Proof.
  pose proof (length_serialize_varint_loop 10 v ltac:(lia)) as Hl. intros E.
  unfold serialize_varint in E. rewrite E in Hl. cbn in Hl. lia.
Qed.

Lemma WireField_serialize_ok f :
  WireField_ok f →
  WireField_serialize f =
    Tag_serialize (mkTag (wf_number f) (WireValue_type (wf_value f))) ++ WireValue_serialize (wf_value f).
Proof.
  intros [_ Hv]. unfold WireField_serialize. destruct (wf_value f); try done; by rewrite app_nil_r.
Qed.

Lemma length_WireField_serialize f : WireField_ok f → (0 < length (WireField_serialize f))%nat.
Proof.
  intros Hf. rewrite WireField_serialize_ok, length_app by done. unfold Tag_serialize.
  pose proof (serialize_varint_nonempty (Z.lor (Z.shiftl (wf_number f) 3 mod 2 ^ 32)
    (WireType_as_u32 (WireValue_type (wf_value f))))) as Hne. cbn [field_number wire_type].
  destruct (serialize_varint _); [done|cbn; lia].
Qed.

Lemma next_impl_serialize f rest :
  WireField_ok f →
  next_impl (WireFieldIter_new (WireField_serialize f ++ rest)) =
    inr (Some (WireField_serialize f, f), WireFieldIter_new rest).
Proof.
  intros Hf. pose proof (length_WireField_serialize f Hf) as Hlen. unfold next_impl, WireFieldIter_new.
  cbn [wfi_input]. destruct (length (WireField_serialize f ++ rest)) as [|fuel] eqn:El;
    [rewrite length_app in El; lia|].
  cbn [next_impl_loop wfi_input wfi_group].
  destruct (WireField_serialize f ++ rest) as [|b l] eqn:E; [done|]. rewrite <- E.
  rewrite WireField_serialize_ok, <- (assoc_L (++)), Tag_parse_serialize by (done || apply Hf).
  cbn [try_bind wire_type wfi_group]. rewrite next_value_serialize by apply Hf. cbn [try_bind wfi_input].
  rewrite (assoc_L (++)), length_app, Nat.add_sub, take_app_length. by destruct f.
Qed.

Lemma parse_all_serialize fs :
  Forall WireField_ok fs → parse_all (flat_map WireField_serialize fs) = inr fs.
Proof.
  unfold parse_all. intros Hfs.
  assert (length fs <= length (flat_map WireField_serialize fs))%nat as Hlen.
  { induction Hfs as [|f fs Hf _ IH]; [done|]. cbn [flat_map length]. rewrite length_app.
    pose proof (length_WireField_serialize f Hf). lia. }
  revert Hlen. generalize (length (flat_map WireField_serialize fs)) as fuel.
  induction Hfs as [|f fs Hf _ IH]; intros fuel Hlen; [by destruct fuel|].
  cbn [flat_map]. destruct fuel as [|fuel]; [cbn in Hlen; lia|]. cbn [parse_all_loop].
  rewrite next_impl_serialize by done. cbn [try_bind]. rewrite IH by (cbn in Hlen; lia). done.
Qed.

(** ** Parsing any input *)

Lemma lor_range a b k : 0 ≤ k → 0 ≤ a < 2 ^ k → 0 ≤ b < 2 ^ k → 0 ≤ Z.lor a b < 2 ^ k.
Proof.
  intros Hk Ha Hb. split; [apply Z.lor_nonneg; lia|].
  destruct (decide (Z.lor a b = 0)) as [->|Hne]; [apply Z.pow_pos_nonneg; lia|].
  assert (0 ≤ Z.lor a b) by (apply Z.lor_nonneg; lia).
  apply Z.log2_lt_pow2; [lia|]. rewrite Z.log2_lor by lia.
  assert (∀ x, 0 ≤ x < 2 ^ k → 0 < k → Z.log2 x < k) as Hlog.
  { intros x Hx Hk'. destruct (decide (x = 0)) as [->|]; [by rewrite Z.log2_nonpos|].
    apply Z.log2_lt_pow2; lia. }
  destruct (decide (k = 0)) as [->|]; [|apply Z.max_lub_lt; apply Hlog; lia].
  assert (a = 0) as -> by lia. assert (b = 0) as -> by lia. done.
Qed.

Lemma parse_varint_loop_spec m input i acc v rest :
  0 ≤ acc < U64 → parse_varint_loop m input i acc = inr (v, rest) →
  0 ≤ v < U64 ∧ ∃ p, input = p ++ rest ∧ (0 < length p <= m)%nat.
Proof.
  revert input i acc. induction m as [|m IH]; intros [|b input] i acc Hacc; cbn [parse_varint_loop]; try done.
  assert (0 ≤ Z.lor acc (Z.shiftl (Z.land b 127) (7 * i) mod U64) < U64) as Hn.
  { apply (lor_range _ _ 64); [done|done|]. by apply Z.mod_pos_bound. }
  destruct (negb _).
  - intros Hp. destruct (IH _ _ _ Hn Hp) as (Hv & p & -> & Hl). split; [done|].
    exists (b :: p). split; [done|]. cbn. lia.
  - intros [= <- <-]. split; [done|]. exists [b]. split; [done|]. cbn. lia.
Qed.

Lemma parse_varint_spec input v rest :
  parse_varint input = inr (v, rest) →
  0 ≤ v < U64 ∧ ∃ p, input = p ++ rest ∧ (0 < length p <= 10)%nat.
Proof.
  intros Hp. apply parse_varint_loop_spec in Hp as (Hv & p & -> & Hl); [|done].
  split; [done|]. exists p. split; [done|]. lia.
Qed.

Lemma Tag_parse_shorter input t rest :
  Tag_parse input = inr (t, rest) → (length rest < length input)%nat.
Proof.
  unfold Tag_parse. destruct (parse_varint input) as [|[v r]] eqn:Ep; [done|]. cbn [try_bind].
  destruct (WireType_from_usize _); [done|]. cbn [try_bind]. intros [= _ <-].
  apply parse_varint_spec in Ep as (_ & p & -> & Hl). rewrite length_app. lia.
Qed.

Lemma next_value_shorter t it v it' :
  next_value t it = inr (v, it') → (length (wfi_input it') <= length (wfi_input it))%nat.
Proof.
  unfold next_value. destruct t; intros H.
  - destruct (parse_varint _) as [|[w r]] eqn:Ep; [done|]. cbn in H. simplify_eq.
    apply parse_varint_spec in Ep as (_ & p & -> & Hl). cbn. rewrite length_app. lia.
  - unfold parse_word64 in H. destruct (_ <? _)%nat; [done|]. cbn [try_bind] in H. simplify_eq.
    cbn [wfi_input]. rewrite length_drop. lia.
  - destruct (parse_varint _) as [|[w r]] eqn:Ep; [done|]. cbn [try_bind] in H.
    destruct (_ <? _); [done|]. simplify_eq. cbn [wfi_input].
    apply parse_varint_spec in Ep as (_ & p & -> & Hl). rewrite length_drop, length_app. lia.
  - by simplify_eq.
  - destruct (wfi_group it); [|done]. by simplify_eq.
  - unfold parse_word32 in H. destruct (_ <? _)%nat; [done|]. cbn [try_bind] in H. simplify_eq.
    cbn [wfi_input]. rewrite length_drop. lia.
Qed.

(** The length of the input is enough fuel for [next_impl]. *)
Lemma next_impl_fuel n fuel it :
  (length (wfi_input it) <= n)%nat → (n <= fuel)%nat → next_impl_loop fuel it = next_impl_loop n it.
Proof.
  revert fuel it. induction n as [|n IH]; intros fuel it Hn Hf.
  - destruct (wfi_input it) eqn:E; [|cbn in Hn; lia]. destruct fuel; cbn [next_impl_loop]; by rewrite E.
  - destruct fuel as [|fuel]; [lia|]. cbn [next_impl_loop].
    destruct (wfi_input it) as [|b l] eqn:E; [done|]. rewrite <- E in *.
    destruct (Tag_parse (wfi_input it)) as [|[tag rest]] eqn:Et; [done|]. cbn [try_bind].
    apply Tag_parse_shorter in Et.
    destruct (next_value _ _) as [|[v it']] eqn:Ev; [done|]. cbn [try_bind].
    apply next_value_shorter in Ev. cbn in Ev. destruct v; [done|]. apply IH; lia.
Qed.

Lemma next_impl_shorter n it f it' :
  next_impl_loop n it = inr (Some f, it') → (length (wfi_input it') < length (wfi_input it))%nat.
Proof.
  revert it. induction n as [|n IH]; intros it; cbn [next_impl_loop];
    destruct (wfi_input it) as [|b l] eqn:E; try (destruct (wfi_group it); done).
  rewrite <- E. destruct (Tag_parse (wfi_input it)) as [|[tag rest]] eqn:Et; [done|]. cbn [try_bind].
  apply Tag_parse_shorter in Et.
  destruct (next_value _ _) as [|[v it1]] eqn:Ev; [done|]. cbn [try_bind].
  apply next_value_shorter in Ev. cbn in Ev. destruct v.
  - intros [= _ <-]. lia.
  - intros H%IH. lia.
Qed.

(** The length of the input is enough fuel for [parse_all] too. *)
Lemma parse_all_fuel n fuel it :
  (length (wfi_input it) <= n)%nat → (n <= fuel)%nat → parse_all_loop fuel it = parse_all_loop n it.
Proof.
  revert fuel it. induction n as [|n IH]; intros fuel it Hn Hf.
  - destruct fuel; [done|]. cbn [parse_all_loop].
    destruct (next_impl it) as [|[[f|] it']] eqn:E; [done| |done].
    unfold next_impl in E. apply next_impl_shorter in E. lia.
  - destruct fuel as [|fuel]; [lia|]. cbn [parse_all_loop].
    destruct (next_impl it) as [|[[[sp f]|] it']] eqn:E; [done| |done]. cbn [try_bind].
    unfold next_impl in E. apply next_impl_shorter in E. rewrite (IH fuel it'); [done|lia|lia].
Qed.
