(* ===== verification/Encoding.v ===== *)
(** * Fixed-width and length-prefixed encodings

    src/pkg/sstable/src/encoding.rs over the varints of Wire.v, and the
    little-endian integers of Rust's standard library. *)

From S2P Require Import Prelude Wire.

(** Parse errors of the sstable crate: one constructor per [err_msg]. *)
Inductive ParseError :=
| EWire (e : WireError)
| ETooShort
| ESliceOutOfRange
| EUnknownValueType
| ENoRestart
| EFirstRestartNotZero
| ERestartNotValid
| EInsufficientShared
| EUnsupportedValueType
| EExtraData
| ESequenceAfterSnapshot
| ESequenceBelowWaterline
| EFirstAfterLast
| EInputTooSmall
| EInvalidReference
| ELiteralExceedsSize
| ELiteralExceedsInput
| EUnknownCompression
| EUnsupportedCompression
| EUnknownChecksum
| EUnsupportedChecksum
| EIncorrectChecksum
| EUndecodedData
| EUnexpectedEof
| EFileTooSmall
| EOldFooterVersion
| EFooterVersion
| EIncorrectMagic
| ENonZeroPadding
| ENotUtf8
| EManyFilters
| EKeysOutOfOrder
| EUnknownTag
| EUnsupportedTag
| EFileCreatedTwice
| EFileDeletedTwice
| EFileTouched
| EOffsetsOutOfRange
| EMisalignedOffsets
| EDataBeforeOffsets
| EFirstFilterNotZero
| EFilterOutOfRange
| EBlockTooLarge
| EFileExists
| ENoFile
| EEmptyMemtable
| EReadOnly
| EWaterlineDisabled
| EEmptyBatch
| ENonMonotonicSequence.

Abbreviation Result A := (ParseError + A)%type.

Definition rbind {A B} (r : Result A) (k : A → Result B) : Result B :=
  match r with inl e => inl e | inr a => k a end.
Notation "'ok!' x ':=' r 'in' k" := (rbind r (λ x, k))
  (at level 10, x pattern, r at level 100, k at level 200) : run_scope.

(** [?] in a method that changes its receiver. *)
Definition try_bind {S E A B} (m : M S (E + A)) (k : A → M S (E + B)) : M S (E + B) :=
  let! r := m in match r with inl e => ret (inl e) | inr a => k a end.
Notation "'try!' x ':=' m 'in' k" := (try_bind m (λ x, k))
  (at level 10, x pattern, m at level 100, k at level 200) : run_scope.

Lemma wpx_try {S E A B} pp pf (m : M S (E + A)) (k : A → M S (E + B)) Q s :
  wpx pp pf m (λ r s', match r with inl e => Q (inl e) s' | inr a => wpx pp pf (k a) Q s' end) s →
  wpx pp pf (try_bind m k) Q s.
Proof.
  intros H. unfold try_bind. apply wpx_bind. eapply wpx_mono; [exact H|]. intros [e|a] s' H'; [by apply wpx_ret|done].
Qed.

(** [?] on a wire result inside the crate. *)
Definition from_wire {A} (r : WireResult A) : Result A :=
  match r with inl e => inl (EWire e) | inr a => inr a end.

(** [min_size!] *)
Definition min_size (input : bytes) (n : Z) : Result unit :=
  if Z.of_nat (length input) <? n then inl ETooShort else inr tt.

(** ** Little-endian integers *)

Fixpoint to_le_bytes (n : nat) (v : Z) : bytes :=
  match n with
  | O => []
  | S n' => v mod 256 :: to_le_bytes n' (v / 256)
  end.

Fixpoint from_le_bytes (l : bytes) : Z :=
  match l with
  | [] => 0
  | b :: l' => b + 256 * from_le_bytes l'
  end.

(** ** encoding.rs *)

Definition parse_slice (input : bytes) : Result (bytes * bytes) :=
  ok! (len, input) := from_wire (parse_varint input) in
  if Z.of_nat (length input) <? len then inl ESliceOutOfRange
  else inr (take (Z.to_nat len) input, drop (Z.to_nat len) input).

Definition serialize_slice (data : bytes) : bytes :=
  serialize_varint (Z.of_nat (length data)) ++ data.

Definition parse_fixed32 (input : bytes) : Result (Z * bytes) :=
  if (length input <? 4)%nat then inl ETooShort
  else inr (from_le_bytes (take 4 input), drop 4 input).

Definition parse_fixed64 (input : bytes) : Result (Z * bytes) :=
  if (length input <? 8)%nat then inl ETooShort
  else inr (from_le_bytes (take 8 input), drop 8 input).

Definition parse_u8 (input : bytes) : Result (Z * bytes) :=
  match input with
  | [] => inl ETooShort
  | b :: rest => inr (b, rest)
  end.

(** ** Round trips *)

Lemma length_to_le_bytes n v : length (to_le_bytes n v) = n.
Proof. revert v. induction n as [|n IH]; intros v; cbn; [done|]. by rewrite IH. Qed.

Lemma from_to_le_bytes n v : 0 ≤ v < 256 ^ Z.of_nat n → from_le_bytes (to_le_bytes n v) = v.
Proof.
  revert v. induction n as [|n IH]; intros v Hv; cbn [to_le_bytes from_le_bytes].
  - cbn in Hv. lia.
  - rewrite Nat2Z.inj_succ, Z.pow_succ_r in Hv by lia. rewrite IH.
    + Z.div_mod_to_equations. lia.
    + split; [apply Z.div_pos; lia|]. apply Z.div_lt_upper_bound; lia.
Qed.

Lemma to_from_le_bytes l :
  Forall (λ b, 0 ≤ b < 256) l → to_le_bytes (length l) (from_le_bytes l) = l.
Proof.
  induction 1 as [|b l Hb Hl IH]; cbn [length to_le_bytes from_le_bytes]; [done|].
  rewrite (Z.mul_comm 256), Z.mod_add, Z.mod_small, Z.div_add, Z.div_small by lia.
  by rewrite Z.add_0_l, IH.
Qed.

Lemma from_le_bytes_range l :
  Forall (λ b, 0 ≤ b < 256) l → 0 ≤ from_le_bytes l < 256 ^ Z.of_nat (length l).
Proof.
  induction 1 as [|b l Hb Hl IH]; cbn [length from_le_bytes]; [done|].
  rewrite Nat2Z.inj_succ, Z.pow_succ_r by lia. lia.
Qed.

Lemma parse_serialize_slice data rest :
  Z.of_nat (length data) < U64 → parse_slice (serialize_slice data ++ rest) = inr (data, rest).
Proof.
  intros Hl. unfold parse_slice, serialize_slice.
  rewrite <- (assoc_L (++)), parse_serialize_varint by lia. cbn [from_wire rbind].
  rewrite length_app, (proj2 (Z.ltb_ge _ _)) by lia.
  by rewrite Nat2Z.id, take_app_length, drop_app_length.
Qed.

Lemma parse_fixed32_spec v rest :
  0 ≤ v < 2 ^ 32 → parse_fixed32 (to_le_bytes 4 v ++ rest) = inr (v, rest).
Proof.
  intros Hv. unfold parse_fixed32.
  rewrite length_app, length_to_le_bytes, (proj2 (Nat.ltb_ge _ _)) by lia.
  rewrite take_app_length', drop_app_length' by by rewrite length_to_le_bytes.
  by rewrite from_to_le_bytes.
Qed.

Lemma parse_fixed64_spec v rest :
  0 ≤ v < U64 → parse_fixed64 (to_le_bytes 8 v ++ rest) = inr (v, rest).
Proof.
  intros Hv. unfold parse_fixed64.
  rewrite length_app, length_to_le_bytes, (proj2 (Nat.ltb_ge _ _)) by lia.
  rewrite take_app_length', drop_app_length' by by rewrite length_to_le_bytes.
  by rewrite from_to_le_bytes.
Qed.
