(* ===== verification/Crc.v ===== *)
(** * Checksums

    CRC32 and CRC32C of src/pkg/crypto/src/checksum/crc.rs: the bytewise
    definition, the routine that uses a table and the one that uses the
    instructions of SSE 4.2. A hasher is its value. *)

From S2P Require Import Prelude Wire Encoding.

Definition CRC32_TABLE : list Z := [
  0x00000000; 0x77073096; 0xee0e612c; 0x990951ba; 0x076dc419; 0x706af48f; 0xe963a535; 0x9e6495a3;
  0x0edb8832; 0x79dcb8a4; 0xe0d5e91e; 0x97d2d988; 0x09b64c2b; 0x7eb17cbd; 0xe7b82d07; 0x90bf1d91;
  0x1db71064; 0x6ab020f2; 0xf3b97148; 0x84be41de; 0x1adad47d; 0x6ddde4eb; 0xf4d4b551; 0x83d385c7;
  0x136c9856; 0x646ba8c0; 0xfd62f97a; 0x8a65c9ec; 0x14015c4f; 0x63066cd9; 0xfa0f3d63; 0x8d080df5;
  0x3b6e20c8; 0x4c69105e; 0xd56041e4; 0xa2677172; 0x3c03e4d1; 0x4b04d447; 0xd20d85fd; 0xa50ab56b;
  0x35b5a8fa; 0x42b2986c; 0xdbbbc9d6; 0xacbcf940; 0x32d86ce3; 0x45df5c75; 0xdcd60dcf; 0xabd13d59;
  0x26d930ac; 0x51de003a; 0xc8d75180; 0xbfd06116; 0x21b4f4b5; 0x56b3c423; 0xcfba9599; 0xb8bda50f;
  0x2802b89e; 0x5f058808; 0xc60cd9b2; 0xb10be924; 0x2f6f7c87; 0x58684c11; 0xc1611dab; 0xb6662d3d;
  0x76dc4190; 0x01db7106; 0x98d220bc; 0xefd5102a; 0x71b18589; 0x06b6b51f; 0x9fbfe4a5; 0xe8b8d433;
  0x7807c9a2; 0x0f00f934; 0x9609a88e; 0xe10e9818; 0x7f6a0dbb; 0x086d3d2d; 0x91646c97; 0xe6635c01;
  0x6b6b51f4; 0x1c6c6162; 0x856530d8; 0xf262004e; 0x6c0695ed; 0x1b01a57b; 0x8208f4c1; 0xf50fc457;
  0x65b0d9c6; 0x12b7e950; 0x8bbeb8ea; 0xfcb9887c; 0x62dd1ddf; 0x15da2d49; 0x8cd37cf3; 0xfbd44c65;
  0x4db26158; 0x3ab551ce; 0xa3bc0074; 0xd4bb30e2; 0x4adfa541; 0x3dd895d7; 0xa4d1c46d; 0xd3d6f4fb;
  0x4369e96a; 0x346ed9fc; 0xad678846; 0xda60b8d0; 0x44042d73; 0x33031de5; 0xaa0a4c5f; 0xdd0d7cc9;
  0x5005713c; 0x270241aa; 0xbe0b1010; 0xc90c2086; 0x5768b525; 0x206f85b3; 0xb966d409; 0xce61e49f;
  0x5edef90e; 0x29d9c998; 0xb0d09822; 0xc7d7a8b4; 0x59b33d17; 0x2eb40d81; 0xb7bd5c3b; 0xc0ba6cad;
  0xedb88320; 0x9abfb3b6; 0x03b6e20c; 0x74b1d29a; 0xead54739; 0x9dd277af; 0x04db2615; 0x73dc1683;
  0xe3630b12; 0x94643b84; 0x0d6d6a3e; 0x7a6a5aa8; 0xe40ecf0b; 0x9309ff9d; 0x0a00ae27; 0x7d079eb1;
  0xf00f9344; 0x8708a3d2; 0x1e01f268; 0x6906c2fe; 0xf762575d; 0x806567cb; 0x196c3671; 0x6e6b06e7;
  0xfed41b76; 0x89d32be0; 0x10da7a5a; 0x67dd4acc; 0xf9b9df6f; 0x8ebeeff9; 0x17b7be43; 0x60b08ed5;
  0xd6d6a3e8; 0xa1d1937e; 0x38d8c2c4; 0x4fdff252; 0xd1bb67f1; 0xa6bc5767; 0x3fb506dd; 0x48b2364b;
  0xd80d2bda; 0xaf0a1b4c; 0x36034af6; 0x41047a60; 0xdf60efc3; 0xa867df55; 0x316e8eef; 0x4669be79;
  0xcb61b38c; 0xbc66831a; 0x256fd2a0; 0x5268e236; 0xcc0c7795; 0xbb0b4703; 0x220216b9; 0x5505262f;
  0xc5ba3bbe; 0xb2bd0b28; 0x2bb45a92; 0x5cb36a04; 0xc2d7ffa7; 0xb5d0cf31; 0x2cd99e8b; 0x5bdeae1d;
  0x9b64c2b0; 0xec63f226; 0x756aa39c; 0x026d930a; 0x9c0906a9; 0xeb0e363f; 0x72076785; 0x05005713;
  0x95bf4a82; 0xe2b87a14; 0x7bb12bae; 0x0cb61b38; 0x92d28e9b; 0xe5d5be0d; 0x7cdcefb7; 0x0bdbdf21;
  0x86d3d2d4; 0xf1d4e242; 0x68ddb3f8; 0x1fda836e; 0x81be16cd; 0xf6b9265b; 0x6fb077e1; 0x18b74777;
  0x88085ae6; 0xff0f6a70; 0x66063bca; 0x11010b5c; 0x8f659eff; 0xf862ae69; 0x616bffd3; 0x166ccf45;
  0xa00ae278; 0xd70dd2ee; 0x4e048354; 0x3903b3c2; 0xa7672661; 0xd06016f7; 0x4969474d; 0x3e6e77db;
  0xaed16a4a; 0xd9d65adc; 0x40df0b66; 0x37d83bf0; 0xa9bcae53; 0xdebb9ec5; 0x47b2cf7f; 0x30b5ffe9;
  0xbdbdf21c; 0xcabac28a; 0x53b39330; 0x24b4a3a6; 0xbad03605; 0xcdd70693; 0x54de5729; 0x23d967bf;
  0xb3667a2e; 0xc4614ab8; 0x5d681b02; 0x2a6f2b94; 0xb40bbe37; 0xc30c8ea1; 0x5a05df1b; 0x2d02ef8d].

Definition CRC32C_TABLE : list Z := [
  0x00000000; 0xf26b8303; 0xe13b70f7; 0x1350f3f4; 0xc79a971f; 0x35f1141c; 0x26a1e7e8; 0xd4ca64eb;
  0x8ad958cf; 0x78b2dbcc; 0x6be22838; 0x9989ab3b; 0x4d43cfd0; 0xbf284cd3; 0xac78bf27; 0x5e133c24;
  0x105ec76f; 0xe235446c; 0xf165b798; 0x030e349b; 0xd7c45070; 0x25afd373; 0x36ff2087; 0xc494a384;
  0x9a879fa0; 0x68ec1ca3; 0x7bbcef57; 0x89d76c54; 0x5d1d08bf; 0xaf768bbc; 0xbc267848; 0x4e4dfb4b;
  0x20bd8ede; 0xd2d60ddd; 0xc186fe29; 0x33ed7d2a; 0xe72719c1; 0x154c9ac2; 0x061c6936; 0xf477ea35;
  0xaa64d611; 0x580f5512; 0x4b5fa6e6; 0xb93425e5; 0x6dfe410e; 0x9f95c20d; 0x8cc531f9; 0x7eaeb2fa;
  0x30e349b1; 0xc288cab2; 0xd1d83946; 0x23b3ba45; 0xf779deae; 0x05125dad; 0x1642ae59; 0xe4292d5a;
  0xba3a117e; 0x4851927d; 0x5b016189; 0xa96ae28a; 0x7da08661; 0x8fcb0562; 0x9c9bf696; 0x6ef07595;
  0x417b1dbc; 0xb3109ebf; 0xa0406d4b; 0x522bee48; 0x86e18aa3; 0x748a09a0; 0x67dafa54; 0x95b17957;
  0xcba24573; 0x39c9c670; 0x2a993584; 0xd8f2b687; 0x0c38d26c; 0xfe53516f; 0xed03a29b; 0x1f682198;
  0x5125dad3; 0xa34e59d0; 0xb01eaa24; 0x42752927; 0x96bf4dcc; 0x64d4cecf; 0x77843d3b; 0x85efbe38;
  0xdbfc821c; 0x2997011f; 0x3ac7f2eb; 0xc8ac71e8; 0x1c661503; 0xee0d9600; 0xfd5d65f4; 0x0f36e6f7;
  0x61c69362; 0x93ad1061; 0x80fde395; 0x72966096; 0xa65c047d; 0x5437877e; 0x4767748a; 0xb50cf789;
  0xeb1fcbad; 0x197448ae; 0x0a24bb5a; 0xf84f3859; 0x2c855cb2; 0xdeeedfb1; 0xcdbe2c45; 0x3fd5af46;
  0x7198540d; 0x83f3d70e; 0x90a324fa; 0x62c8a7f9; 0xb602c312; 0x44694011; 0x5739b3e5; 0xa55230e6;
  0xfb410cc2; 0x092a8fc1; 0x1a7a7c35; 0xe811ff36; 0x3cdb9bdd; 0xceb018de; 0xdde0eb2a; 0x2f8b6829;
  0x82f63b78; 0x709db87b; 0x63cd4b8f; 0x91a6c88c; 0x456cac67; 0xb7072f64; 0xa457dc90; 0x563c5f93;
  0x082f63b7; 0xfa44e0b4; 0xe9141340; 0x1b7f9043; 0xcfb5f4a8; 0x3dde77ab; 0x2e8e845f; 0xdce5075c;
  0x92a8fc17; 0x60c37f14; 0x73938ce0; 0x81f80fe3; 0x55326b08; 0xa759e80b; 0xb4091bff; 0x466298fc;
  0x1871a4d8; 0xea1a27db; 0xf94ad42f; 0x0b21572c; 0xdfeb33c7; 0x2d80b0c4; 0x3ed04330; 0xccbbc033;
  0xa24bb5a6; 0x502036a5; 0x4370c551; 0xb11b4652; 0x65d122b9; 0x97baa1ba; 0x84ea524e; 0x7681d14d;
  0x2892ed69; 0xdaf96e6a; 0xc9a99d9e; 0x3bc21e9d; 0xef087a76; 0x1d63f975; 0x0e330a81; 0xfc588982;
  0xb21572c9; 0x407ef1ca; 0x532e023e; 0xa145813d; 0x758fe5d6; 0x87e466d5; 0x94b49521; 0x66df1622;
  0x38cc2a06; 0xcaa7a905; 0xd9f75af1; 0x2b9cd9f2; 0xff56bd19; 0x0d3d3e1a; 0x1e6dcdee; 0xec064eed;
  0xc38d26c4; 0x31e6a5c7; 0x22b65633; 0xd0ddd530; 0x0417b1db; 0xf67c32d8; 0xe52cc12c; 0x1747422f;
  0x49547e0b; 0xbb3ffd08; 0xa86f0efc; 0x5a048dff; 0x8ecee914; 0x7ca56a17; 0x6ff599e3; 0x9d9e1ae0;
  0xd3d3e1ab; 0x21b862a8; 0x32e8915c; 0xc083125f; 0x144976b4; 0xe622f5b7; 0xf5720643; 0x07198540;
  0x590ab964; 0xab613a67; 0xb831c993; 0x4a5a4a90; 0x9e902e7b; 0x6cfbad78; 0x7fab5e8c; 0x8dc0dd8f;
  0xe330a81a; 0x115b2b19; 0x020bd8ed; 0xf0605bee; 0x24aa3f05; 0xd6c1bc06; 0xc5914ff2; 0x37faccf1;
  0x69e9f0d5; 0x9b8273d6; 0x88d28022; 0x7ab90321; 0xae7367ca; 0x5c18e4c9; 0x4f48173d; 0xbd23943e;
  0xf36e6f75; 0x0105ec76; 0x12551f82; 0xe03e9c81; 0x34f4f86a; 0xc69f7b69; 0xd5cf889d; 0x27a40b9e;
  0x79b737ba; 0x8bdcb4b9; 0x988c474d; 0x6ae7c44e; 0xbe2da0a5; 0x4c4623a6; 0x5f16d052; 0xad7d5351].

Definition CRC32_POLYNOMIAL_REVERSED : Z := 0xedb88320.
Definition CRC32C_POLYNOMIAL : Z := 0x1edc6f41.

(** [!0] and [!v] on u32. *)
Definition U32_MAX : Z := 2 ^ 32 - 1.
Definition not32 (v : Z) : Z := Z.lxor v U32_MAX.

(** ** Hashers *)

Definition CRC32Hasher_new : Z := U32_MAX.
Definition CRC32CHasher_new : Z := U32_MAX.
Definition finish_u32 (val : Z) : Z := not32 val.

(** One round of the inner loop of [update_bytewise]. *)
Definition crc_bit (poly val : Z) : Z :=
  let overflow := negb (Z.land val 1 =? 0) in
  let val := Z.shiftr val 1 in
  if overflow then Z.lxor val poly else val.

Definition crc_byte (poly val byte : Z) : Z :=
  Nat.iter 8 (crc_bit poly) (Z.lxor val byte).

(** [update_bytewise]. The source has it for the polynomial of CRC32 only
    ([CRC32_POLYNOMIAL_REVERSED]); the polynomial is an argument here so that it
    also is the reference definition of CRC32C. *)
Definition update_bytewise (poly : Z) (data : bytes) (val : Z) : Z :=
  foldl (crc_byte poly) val data.

Definition lut_byte (table : list Z) (val byte : Z) : Z :=
  let idx := Z.lxor (val mod 256) byte in
  Z.lxor (Z.shiftr val 8) (table !!! Z.to_nat idx).

(** [update_lut], for both tables. *)
Definition update_lut (table : list Z) (data : bytes) (val : Z) : Z :=
  foldl (lut_byte table) val data.

(** [CRC32CHasher::update] without SSE 4.2. *)
Definition crc32c_update (data : bytes) (val : Z) : Z := update_lut CRC32C_TABLE data val.

Definition rotate_right_15 (v : Z) : Z :=
  Z.lor (Z.shiftr v 15) (Z.shiftl v 17 mod 2 ^ 32).

Definition masked (val : Z) : Z := (rotate_right_15 (finish_u32 val) + 0xa282ead8) mod 2 ^ 32.

(** [update_sse42] for the two instructions. *)
Section SSE42.
Context (mm_crc32_u64 mm_crc32_u8 : Z → Z → Z).

Fixpoint sse42_chunks (n : nat) (data : bytes) (val : Z) : Z :=
  match n with
  | O => val
  | S n' => sse42_chunks n' (drop 8 data) (mm_crc32_u64 val (from_le_bytes (take 8 data)) mod 2 ^ 32)
  end.

Definition update_sse42 (data : bytes) (val : Z) : Z :=
  let n := (length data / 8)%nat in
  foldl mm_crc32_u8 (sse42_chunks n data val) (drop (n * 8) data).
End SSE42.

(** ** The table and the polynomial *)

(** The bits of a u32 in reverse order. *)
Definition reverse_bits (v : Z) : Z :=
  foldr (λ i r, if Z.testbit v (31 - i) then Z.setbit r i else r) 0 (seqZ 0 32).

Definition table_of (poly : Z) : list Z := (λ i, Nat.iter 8 (crc_bit poly) i) <$> seqZ 0 256.

Lemma CRC32_TABLE_of : CRC32_TABLE = table_of CRC32_POLYNOMIAL_REVERSED.
Proof. by vm_compute. Qed.

Lemma CRC32C_TABLE_of : CRC32C_TABLE = table_of (reverse_bits CRC32C_POLYNOMIAL).
Proof. by vm_compute. Qed.

Lemma crc_bit_alt poly v :
  crc_bit poly v = Z.lxor (Z.shiftr v 1) (if Z.testbit v 0 then poly else 0).
Proof.
  unfold crc_bit. change 1 with (Z.ones 1) at 1. rewrite Z.land_ones by lia.
  rewrite Z.bit0_odd, Zodd_mod, Z.pow_1_r.
  pose proof (Z.mod_pos_bound v 2 ltac:(lia)).
  destruct (decide (v mod 2 = 0)) as [->|Hne]; [by rewrite Z.lxor_0_r|].
  by replace (v mod 2) with 1 by lia.
Qed.

Lemma crc_bit_lxor poly a b :
  crc_bit poly (Z.lxor a b) = Z.lxor (crc_bit poly a) (crc_bit poly b).
Proof.
  rewrite !crc_bit_alt, Z.shiftr_lxor, Z.lxor_spec. apply Z.bits_inj. intros i.
  rewrite !Z.lxor_spec.
  destruct (Z.testbit a 0), (Z.testbit b 0); cbn; rewrite ?Z.bits_0;
    destruct (Z.testbit (Z.shiftr a 1) i), (Z.testbit (Z.shiftr b 1) i), (Z.testbit poly i); done.
Qed.

Lemma crc_bits_lxor poly n a b :
  Nat.iter n (crc_bit poly) (Z.lxor a b) =
    Z.lxor (Nat.iter n (crc_bit poly) a) (Nat.iter n (crc_bit poly) b).
Proof. induction n as [|n IH]; [done|]. by rewrite !Nat.iter_succ, IH, crc_bit_lxor. Qed.

Lemma crc_bits_shiftl poly n a : Nat.iter n (crc_bit poly) (Z.shiftl a (Z.of_nat n)) = a.
Proof.
  induction n as [|n IH]; [apply Z.shiftl_0_r|].
  rewrite Nat.iter_succ_r. rewrite crc_bit_alt.
  rewrite Z.shiftl_spec_low by lia. rewrite Z.lxor_0_r, Z.shiftr_shiftl_l by lia.
  by replace (Z.of_nat (S n) - 1) with (Z.of_nat n) by lia.
Qed.

Lemma lxor_range k a b :
  0 ≤ k → 0 ≤ a < 2 ^ k → 0 ≤ b < 2 ^ k → 0 ≤ Z.lxor a b < 2 ^ k.
Proof.
  intros Hk Ha Hb. rewrite <- (Z.mod_small a (2 ^ k)), <- (Z.mod_small b (2 ^ k)) by done.
  rewrite <- !Z.land_ones by done.
  assert (Z.lxor (Z.land a (Z.ones k)) (Z.land b (Z.ones k)) = Z.land (Z.lxor a b) (Z.ones k)) as ->.
  { apply Z.bits_inj. intros i. rewrite !Z.lxor_spec, !Z.land_spec, Z.lxor_spec.
    by destruct (Z.testbit a i), (Z.testbit b i), (Z.testbit (Z.ones k) i). }
  rewrite Z.land_ones by done. apply Z.mod_pos_bound. lia.
Qed.

(** One step with the table is eight steps with the polynomial. *)
Lemma lut_byte_ok poly val byte :
  0 ≤ byte < 256 → lut_byte (table_of poly) val byte = crc_byte poly val byte.
Proof.
  intros Hb. unfold lut_byte, crc_byte.
  pose proof (Z.mod_pos_bound val 256 ltac:(lia)) as Hm.
  pose proof (lxor_range 8 _ _ ltac:(lia) Hm Hb) as Hi. set (idx := Z.lxor (val mod 256) byte) in *.
  assert (Z.lxor val byte = Z.lxor (Z.shiftl (Z.shiftr val 8) 8) idx) as ->.
  { unfold idx. rewrite <- Z.lxor_assoc. f_equal. change 256 with (2 ^ 8). rewrite <- Z.land_ones by lia.
    apply Z.bits_inj_iff'. intros i Hi'. rewrite Z.lxor_spec, Z.land_spec.
    destruct (decide (i < 8)).
    - rewrite Z.shiftl_spec_low, Z.ones_spec_low by lia. by rewrite andb_true_r.
    - rewrite Z.shiftl_spec_high, Z.shiftr_spec, Z.ones_spec_high by lia.
      rewrite andb_false_r, xorb_false_r. f_equal. lia. }
  rewrite crc_bits_lxor. change 8 with (Z.of_nat 8) at 2. rewrite crc_bits_shiftl. f_equal.
  apply list_lookup_total_correct, list_lookup_fmap_Some. exists idx. split; [done|].
  apply lookup_seqZ. lia.
Qed.

Lemma update_lut_bytewise poly data val :
  Forall (λ b, 0 ≤ b < 256) data → update_lut (table_of poly) data val = update_bytewise poly data val.
Proof.
  intros Hd. unfold update_lut, update_bytewise. revert val.
  induction Hd as [|b data Hb Hd IH]; intros val; cbn [foldl]; [done|]. by rewrite lut_byte_ok, IH.
Qed.

Lemma crc32c_update_app a b val : crc32c_update (a ++ b) val = crc32c_update b (crc32c_update a val).
Proof. apply foldl_app. Qed.

(** ** The instructions *)

(** What the documentation of [_mm_crc32_u8] and [_mm_crc32_u64] says: a byte,
    or eight bytes in little-endian order, are added to a CRC32C. *)
Record crc32_instructions (u64 u8 : Z → Z → Z) : Prop := mkInstructions {
  ins_u8 val b : 0 ≤ b < 256 → u8 val b = update_bytewise (reverse_bits CRC32C_POLYNOMIAL) [b] val;
  ins_u64 val v : 0 ≤ val < 2 ^ 32 → 0 ≤ v < 2 ^ 64 →
    u64 val v = update_bytewise (reverse_bits CRC32C_POLYNOMIAL) (to_le_bytes 8 v) val;
}.

Lemma crc_byte_range poly val byte :
  0 ≤ poly < 2 ^ 32 → 0 ≤ val < 2 ^ 32 → 0 ≤ byte < 256 → 0 ≤ crc_byte poly val byte < 2 ^ 32.
Proof.
  intros Hp Hv Hb. unfold crc_byte.
  assert (0 ≤ Z.lxor val byte < 2 ^ 32) as Hx by (apply lxor_range; lia).
  revert Hx. generalize (Z.lxor val byte) 8%nat. intros v n Hx. induction n as [|n IH]; [done|].
  rewrite Nat.iter_succ, crc_bit_alt. apply lxor_range; [lia| |by case_match].
  rewrite Z.shiftr_div_pow2 by lia. split; [apply Z.div_pos; lia|].
  eapply Z.le_lt_trans; [|apply IH]. apply Z.div_le_upper_bound; lia.
Qed.

Lemma update_bytewise_range poly data val :
  0 ≤ poly < 2 ^ 32 → Forall (λ b, 0 ≤ b < 256) data → 0 ≤ val < 2 ^ 32 →
  0 ≤ update_bytewise poly data val < 2 ^ 32.
Proof.
  intros Hp Hd. revert val. induction Hd as [|b data Hb Hd IH]; intros val Hv; [done|].
  cbn [update_bytewise foldl]. apply IH. by apply crc_byte_range.
Qed.

Section Instructions.
Context (u64 u8 : Z → Z → Z) (Hins : crc32_instructions u64 u8).
Abbreviation poly := (reverse_bits CRC32C_POLYNOMIAL).

Lemma poly_range : 0 ≤ poly < 2 ^ 32.
Proof. by vm_compute. Qed.

Lemma sse42_chunks_ok n data val :
  Forall (λ b, 0 ≤ b < 256) data → (n * 8 ≤ length data)%nat → 0 ≤ val < 2 ^ 32 →
  sse42_chunks u64 n data val = update_bytewise poly (take (n * 8) data) val.
Proof.
  revert data val. induction n as [|n IH]; intros data val Hd Hn Hv; [done|].
  cbn [sse42_chunks]. assert (length (take 8 data) = 8%nat) as Hl by (rewrite length_take; lia).
  pose proof (Forall_take _ 8 _ Hd) as Ht. pose proof (from_le_bytes_range _ Ht) as Hr. rewrite Hl in Hr.
  rewrite (ins_u64 _ _ Hins) by done.
  pose proof (to_from_le_bytes _ Ht) as Eb. rewrite Hl in Eb. rewrite Eb.
  pose proof (update_bytewise_range poly _ _ poly_range Ht Hv).
  rewrite Z.mod_small, IH by (done || (rewrite length_drop; lia) || by apply Forall_drop).
  unfold update_bytewise. rewrite <- foldl_app. f_equal. by rewrite take_take_drop.
Qed.

(** Eight bytes at a time give the same checksum. *)
Lemma update_sse42_ok data val :
  Forall (λ b, 0 ≤ b < 256) data → 0 ≤ val < 2 ^ 32 →
  update_sse42 u64 u8 data val = update_bytewise poly data val.
Proof.
  intros Hd Hv. unfold update_sse42. set (n := (length data / 8)%nat).
  assert (n * 8 ≤ length data)%nat as Hn.
  { unfold n. pose proof (Nat.Div0.mul_div_le (length data) 8). lia. }
  rewrite sse42_chunks_ok by done. rewrite <- (take_drop (n * 8) data) at 3.
  unfold update_bytewise. rewrite foldl_app.
  apply (Forall_drop _ (n * 8)) in Hd. revert Hd. generalize (foldl (crc_byte poly) val (take (n * 8) data)).
  generalize (drop (n * 8) data). intros l. induction l as [|b l IH]; intros v Hl; [done|].
  apply Forall_cons in Hl as [Hb Hl]. cbn [foldl]. by rewrite (ins_u8 _ _ Hins), IH.
Qed.
End Instructions.

(** C40: the optimised checksums are the bitwise ones. For CRC32 the routine
    with the table agrees with [update_bytewise]; for CRC32C the routine with
    the table agrees with the bitwise definition for its polynomial, and with
    the routine that feeds eight bytes at a time to the instructions of
    SSE 4.2, if those do what they are documented to do. *)
Theorem crc_equivalence u64 u8 data val :
  crc32_instructions u64 u8 → Forall (λ b, 0 ≤ b < 256) data → 0 ≤ val < 2 ^ 32 →
  update_lut CRC32_TABLE data val = update_bytewise CRC32_POLYNOMIAL_REVERSED data val ∧
  crc32c_update data val = update_bytewise (reverse_bits CRC32C_POLYNOMIAL) data val ∧
  update_sse42 u64 u8 data val = crc32c_update data val.
Proof.
  intros Hins Hd Hv. unfold crc32c_update. rewrite CRC32_TABLE_of, CRC32C_TABLE_of.
  rewrite !update_lut_bytewise by done. by rewrite update_sse42_ok.
Qed.

(** The check value of CRC32C: the checksum of the digits 1 to 9. *)
Lemma crc_equivalence_witness :
  let poly := reverse_bits CRC32C_POLYNOMIAL in
  let u64 val v := update_bytewise poly (to_le_bytes 8 v) val in
  let u8 val b := update_bytewise poly [b] val in
  let digits := [49; 50; 51; 52; 53; 54; 55; 56; 57] in
  update_sse42 u64 u8 digits CRC32CHasher_new = crc32c_update digits CRC32CHasher_new ∧
  finish_u32 (crc32c_update digits CRC32CHasher_new) = 0xe3069283.
Proof.
  intros poly u64 u8 digits. split; [|by vm_compute].
  refine (proj2 (proj2 (crc_equivalence u64 u8 digits CRC32CHasher_new _ _ _))).
  - by split.
  - repeat constructor; lia.
  - by vm_compute.
Defined.
