(* ===== verification/RecordLog.v ===== *)
(** * The record log

    src/pkg/sstable/src/record_log.rs: records are cut into fragments that do
    not cross the blocks of a file, each with a checksum. The writer appends
    to a list of bytes; the reader is given the contents of the file in every
    call, so that it can read a file that is still being written. Reading
    the file does not fail, and file offsets do not overflow. *)

From S2P Require Import Prelude Wire Encoding Crc.

(** 32 KiB; a [nat] of that size is kept folded. *)
Definition BLOCK_SIZE : nat := Z.to_nat 32768.
Definition FRAGMENT_HEADER_SIZE : nat := 7.

Inductive FragmentType := ZERO | FULL | FIRST | MIDDLE | LAST.

#[export] Instance FragmentType_eq_dec : EqDecision FragmentType.
Proof. solve_decision. Defined.

Definition FragmentType_to_value (t : FragmentType) : Z :=
  match t with ZERO => 0 | FULL => 1 | FIRST => 2 | MIDDLE => 3 | LAST => 4 end.

Definition FragmentType_from_value (v : Z) : option FragmentType :=
  match v with
  | 0 => Some ZERO | 1 => Some FULL | 2 => Some FIRST | 3 => Some MIDDLE | 4 => Some LAST
  | _ => None
  end.

Record Fragment := mkFragment { fr_typ : FragmentType; fr_data : bytes }.

(** [RecordReadError], without failures of the file system. *)
Inductive RecordReadError := EndOfFile | Corrupt | Dropped | Incomplete.

(** [check_zero_padding] *)
Definition all_zero (data : bytes) : bool := forallb (λ b, b =? 0) data.

Definition Fragment_parse (input : bytes) (remaining_block_length : nat)
    : RecordReadError + Fragment * nat :=
  if (remaining_block_length <? FRAGMENT_HEADER_SIZE)%nat then inl Corrupt
  else if (length input =? 0)%nat then inl EndOfFile
  else if (length input <? FRAGMENT_HEADER_SIZE)%nat then inl Incomplete else
  let checksum := from_le_bytes (take 4 input) in
  let len := Z.to_nat (from_le_bytes (take 2 (drop 4 input))) in
  match FragmentType_from_value (input !!! 6%nat) with
  | None => inl Corrupt
  | Some typ =>
    let data_end := (FRAGMENT_HEADER_SIZE + len)%nat in
    if bool_decide (typ = ZERO) then
      if negb (remaining_block_length =? length input)%nat then inl Incomplete
      else if all_zero input then inr (mkFragment typ [], length input)
      else inl Corrupt
    else if (remaining_block_length <? data_end)%nat then inl Corrupt
    else if (length input <? data_end)%nat then inl Incomplete else
    let data := take len (drop FRAGMENT_HEADER_SIZE input) in
    let checksum_expected := masked (crc32c_update (take (data_end - 6) (drop 6 input)) CRC32CHasher_new) in
    if negb (checksum =? checksum_expected) then inl Corrupt
    else inr (mkFragment typ data, data_end)
  end.

(** ** The reader *)

Record RecordBuffer := mkRecordBuffer {
  rb_started : bool;
  rb_ended : bool;
  rb_start_file_offset : nat;
  rb_data : bytes;
}.

Inductive RecordRecoveryMode := Strict | AllowIncomplete.

Record RecordReader := mkRecordReader {
  rr_recovery_mode : RecordRecoveryMode;
  rr_file_offset : nat;
  rr_block : bytes;
  rr_block_offset : nat;
  rr_block_corrupt : bool;
  rr_output_buffer : option RecordBuffer;
}.

Definition RecordReader_open : RecordReader := mkRecordReader AllowIncomplete 0 [] 0 false None.

Definition set_recovery_mode (mode : RecordRecoveryMode) (r : RecordReader) : RecordReader :=
  mkRecordReader mode (rr_file_offset r) (rr_block r) (rr_block_offset r) (rr_block_corrupt r)
    (rr_output_buffer r).

Definition set_block (file_offset : nat) (block : bytes) (block_offset : nat) (r : RecordReader)
    : RecordReader :=
  mkRecordReader (rr_recovery_mode r) file_offset block block_offset (rr_block_corrupt r)
    (rr_output_buffer r).
Definition set_corrupt (r : RecordReader) : RecordReader :=
  mkRecordReader (rr_recovery_mode r) (rr_file_offset r) (rr_block r) (rr_block_offset r) true
    (rr_output_buffer r).
Definition set_output_buffer (b : option RecordBuffer) (r : RecordReader) : RecordReader :=
  mkRecordReader (rr_recovery_mode r) (rr_file_offset r) (rr_block r) (rr_block_offset r)
    (rr_block_corrupt r) b.

(** [&l[o..]] *)
Definition slice_from {S} (l : bytes) (o : nat) : M S bytes :=
  if (o <=? length l)%nat then ret (drop o l) else panic.

Definition usize_sub {S} (a b : nat) : M S nat := if (b <=? a)%nat then ret (a - b)%nat else panic.

Section Reader.
Context (file : bytes).

(** The loop of reads up to the end of the block or of the file. *)
Definition read_block_remainder : M RecordReader unit :=
  modify (λ r,
    if (length (rr_block r) =? BLOCK_SIZE)%nat then r
    else set_block (rr_file_offset r)
           (rr_block r ++ take (BLOCK_SIZE - length (rr_block r))
                            (drop (rr_file_offset r + length (rr_block r)) file))
           (rr_block_offset r) r).

Definition read_block (off : nat) : M RecordReader unit :=
  modify (set_block off [] 0) ;! read_block_remainder.

(** The end of [read_fragment]: a fragment of the current block. *)
Definition parse_fragment : M RecordReader (RecordReadError + Fragment) :=
  let! r := gets id in
  let! remaining_block_length := usize_sub BLOCK_SIZE (rr_block_offset r) in
  let! input := slice_from (rr_block r) (rr_block_offset r) in
  match Fragment_parse input remaining_block_length with
  | inr (fragment, fragment_size) =>
    modify (set_block (rr_file_offset r) (rr_block r) (rr_block_offset r + fragment_size)) ;!
    ret (inr fragment)
  | inl e =>
    (match e with Corrupt => modify set_corrupt | _ => ret tt end) ;! ret (inl e)
  end.

Definition read_fragment : M RecordReader (RecordReadError + Fragment) :=
  let! r := gets id in
  (if rr_block_corrupt r then modify (set_block (rr_file_offset r + BLOCK_SIZE) [] 0) else ret tt) ;!
  read_block_remainder ;!
  let! r := gets id in
  let! room := usize_sub BLOCK_SIZE (rr_block_offset r) in
  let! padding :=
    (if (room <? FRAGMENT_HEADER_SIZE)%nat then
       let! remaining := slice_from (rr_block r) (rr_block_offset r) in
       if negb (all_zero remaining) then modify set_corrupt ;! ret (Some Corrupt)
       else if (length (rr_block r) =? BLOCK_SIZE)%nat
       then read_block (rr_file_offset r + BLOCK_SIZE) ;! ret None
       else ret (Some EndOfFile)
     else ret None) in
  match padding with
  | Some e => ret (inl e)
  | None => parse_fragment
  end.

(** The loop of [read_inner]; [out] is returned also with an error. *)
Fixpoint read_inner (fuel : nat) (out : RecordBuffer)
    : M RecordReader (RecordBuffer * option RecordReadError) :=
  if rb_ended out then ret (out, None) else
  match fuel with
  | O => out_of_fuel
  | S fuel =>
    let! res := read_fragment in
    match res with
    | inl e => ret (out, Some e)
    | inr fragment =>
      let data := rb_data out ++ fr_data fragment in
      match fr_typ fragment with
      | ZERO => if rb_started out then ret (out, Some Corrupt) else read_inner fuel out
      | FULL =>
        let out' := mkRecordBuffer true true (rb_start_file_offset out) data in
        if rb_started out then ret (out', Some Dropped) else read_inner fuel out'
      | FIRST =>
        let out' := mkRecordBuffer true (rb_ended out) (rb_start_file_offset out) data in
        if rb_started out then ret (out', Some Dropped) else read_inner fuel out'
      | MIDDLE =>
        if negb (rb_started out) then ret (out, Some Corrupt)
        else read_inner fuel (mkRecordBuffer (rb_started out) (rb_ended out) (rb_start_file_offset out) data)
      | LAST =>
        if negb (rb_started out) then ret (out, Some Corrupt)
        else read_inner fuel (mkRecordBuffer (rb_started out) true (rb_start_file_offset out) data)
      end
    end
  end.

Definition read_raw : M RecordReader (RecordReadError + bytes) :=
  let! r := gets id in
  modify (set_output_buffer None) ;!
  let out := default (mkRecordBuffer false false (rr_file_offset r + rr_block_offset r) [])
               (rr_output_buffer r) in
  let! (out, res) := read_inner (S (length file)) out in
  match res with
  | None => ret (inr (rb_data out))
  | Some Corrupt => ret (inl Corrupt)
  | Some e =>
    let e := match e with EndOfFile => if rb_started out then Incomplete else EndOfFile | _ => e end in
    modify (set_output_buffer (Some out)) ;! ret (inl e)
  end.

Definition read : M RecordReader (RecordReadError + option bytes) :=
  let! res := read_raw in
  let! r := gets id in
  ret match res with
      | inr v => inr (Some v)
      | inl EndOfFile => inr None
      | inl Incomplete =>
        match rr_recovery_mode r with Strict => inl Incomplete | AllowIncomplete => inr None end
      | inl e => inl e
      end.
End Reader.

(** ** The writer *)

Record RecordWriter := mkRecordWriter { rw_file : bytes; rw_extent : nat }.

Definition RecordWriter_new : RecordWriter := mkRecordWriter [] 0.

Definition write_all (data : bytes) : M RecordWriter unit :=
  modify (λ w, mkRecordWriter (rw_file w ++ data) (rw_extent w)).
Definition advance (n : nat) : M RecordWriter unit :=
  modify (λ w, mkRecordWriter (rw_file w) (rw_extent w + n)).

Definition fragment_header (typ : FragmentType) (data : bytes) : bytes :=
  let sum := masked (crc32c_update data
               (crc32c_update [FragmentType_to_value typ] CRC32CHasher_new)) in
  to_le_bytes 4 sum ++ to_le_bytes 2 (Z.of_nat (length data)) ++ [FragmentType_to_value typ].

Definition fragment_type (first_record last_record : bool) : FragmentType :=
  if first_record then if last_record then FULL else FIRST
  else if last_record then LAST else MIDDLE.

Fixpoint append_loop (fuel : nat) (data : bytes) (pos : nat) (first_record : bool)
    : M RecordWriter unit :=
  match fuel with
  | O => out_of_fuel
  | S fuel =>
    if (pos <? length data)%nat || first_record then
      let! extent := gets rw_extent in
      let! rem := usize_sub (BLOCK_SIZE - extent mod BLOCK_SIZE) FRAGMENT_HEADER_SIZE in
      let taken := Nat.min rem (length data - pos) in
      let typ := fragment_type first_record (pos + taken =? length data)%nat in
      let data_slice := take taken (drop pos data) in
      write_all (fragment_header typ data_slice) ;!
      write_all data_slice ;!
      advance (FRAGMENT_HEADER_SIZE + taken) ;!
      append_loop fuel data (pos + taken) false
    else ret tt
  end.

Definition append (data : bytes) : M RecordWriter unit :=
  let! extent := gets rw_extent in
  let rem := (BLOCK_SIZE - extent mod BLOCK_SIZE)%nat in
  (if (rem <? FRAGMENT_HEADER_SIZE)%nat
   then advance rem ;! write_all (replicate rem 0) else ret tt) ;!
  append_loop (S (S (length data))) data 0 true.

(** [into_writer]: [None] is an error, [Some None] that the file cannot be
    continued without truncating it. *)
Definition into_writer (file : bytes) (allow_truncation : bool)
    : M RecordReader (option (option RecordWriter)) :=
  let! res := read_raw file in
  match res with
  | inl EndOfFile | inl Incomplete =>
    let! r := gets id in
    let append_offset :=
      match rr_output_buffer r with
      | Some record => rb_start_file_offset record
      | None => (rr_file_offset r + rr_block_offset r)%nat
      end in
    if negb allow_truncation && (append_offset <? length file)%nat then ret (Some None) else
    let file' := take append_offset file ++ replicate (append_offset - length file) 0 in
    ret (Some (Some (mkRecordWriter file' append_offset)))
  | _ => ret None
  end.
