(* ===== verification/RecordLogProofs.v ===== *)
(** * What the record log guarantees

    A reader of a file that was cut at any point returns the records that
    are complete, and continues where it stopped when more of the file is
    there; the writer that continues a cut file is the one that wrote its
    complete records. *)

From S2P Require Import Prelude Wire Encoding Crc RecordLog.

#[local] Open Scope nat_scope.

Lemma BLOCK_SIZE_Z : Z.of_nat BLOCK_SIZE = 32768%Z.
Proof. by unfold BLOCK_SIZE; rewrite Z2Nat.id. Qed.

Lemma BLOCK_SIZE_bounds : 7 < BLOCK_SIZE /\ (Z.of_nat BLOCK_SIZE < 2 ^ 16)%Z.
Proof. pose proof BLOCK_SIZE_Z. lia. Qed.

#[local] Opaque BLOCK_SIZE.

(** ** Fragments *)

Definition encode (f : Fragment) : bytes := fragment_header (fr_typ f) (fr_data f) ++ fr_data f.

Definition fsize (f : Fragment) : nat := 7 + length (fr_data f).

Record fragment_ok (f : Fragment) : Prop := mkFragmentOk {
  fo_typ : fr_typ f ≠ ZERO;
  fo_size : fsize f ≤ BLOCK_SIZE;
}.

Lemma length_header typ d : length (fragment_header typ d) = 7.
Proof. unfold fragment_header. rewrite !length_app, !length_to_le_bytes. done. Qed.

Lemma length_encode_fragment f : length (encode f) = fsize f.
Proof. unfold encode. rewrite length_app, length_header. done. Qed.

Lemma masked_range v : (0 ≤ masked v < 2 ^ 32)%Z.
Proof. apply Z.mod_pos_bound. lia. Qed.

Lemma FragmentType_from_to t : FragmentType_from_value (FragmentType_to_value t) = Some t.
Proof. by destruct t. Qed.

(** The fields of a header. *)
Lemma header_fields typ d rest :
  (Z.of_nat (length d) < 2 ^ 16)%Z →
  let input := fragment_header typ d ++ rest in
  from_le_bytes (take 4 input) = masked (crc32c_update (FragmentType_to_value typ :: d) CRC32CHasher_new) ∧
  Z.to_nat (from_le_bytes (take 2 (drop 4 input))) = length d ∧
  input !!! 6 = FragmentType_to_value typ ∧ drop 7 input = rest ∧
  drop 6 input = FragmentType_to_value typ :: rest.
Proof.
  intros Hd input. unfold input, fragment_header. rewrite <- crc32c_update_app. cbn [app].
  set (s := masked _). pose proof (masked_range (crc32c_update (FragmentType_to_value typ :: d) CRC32CHasher_new)) as Hs.
  fold s in Hs. rewrite <- !(assoc_L (++)).
  rewrite take_app_length' by by rewrite length_to_le_bytes.
  rewrite from_to_le_bytes by done. split; [done|].
  rewrite drop_app_length' by by rewrite length_to_le_bytes.
  rewrite take_app_length' by by rewrite length_to_le_bytes.
  rewrite from_to_le_bytes by lia. split; [lia|]. split_and!.
  - rewrite (assoc_L (++)). rewrite lookup_total_app_r by (rewrite length_app, !length_to_le_bytes; lia).
    by rewrite length_app, !length_to_le_bytes.
  - rewrite !(assoc_L (++)). by rewrite drop_app_length' by (rewrite !length_app, !length_to_le_bytes; done).
  - rewrite (assoc_L (++)). by rewrite drop_app_length' by (rewrite !length_app, !length_to_le_bytes; done).
Qed.

Lemma fragment_length f : fragment_ok f → (Z.of_nat (length (fr_data f)) < 2 ^ 16)%Z.
Proof. intros [_ H]. unfold fsize in H. pose proof BLOCK_SIZE_bounds. lia. Qed.

Lemma Fragment_parse_ok f room rest :
  fragment_ok f → fsize f ≤ room → Fragment_parse (encode f ++ rest) room = inr (f, fsize f).
Proof.
  intros Hf Hr. pose proof (fragment_length f Hf) as Hd. destruct f as [typ d]. unfold encode, fsize in *. cbn [fr_typ fr_data] in *.
  rewrite <- (assoc_L (++)). destruct (header_fields typ d (d ++ rest) Hd) as (E1 & E2 & E3 & E4 & E5).
  unfold Fragment_parse, FRAGMENT_HEADER_SIZE. rewrite E1, E2, E3, E4, E5, FragmentType_from_to.
  rewrite !length_app, length_header.
  repeat match goal with |- context [(?a <? ?b)] => rewrite (proj2 (Nat.ltb_ge a b)) by lia end.
  rewrite (proj2 (Nat.eqb_neq _ _)) by lia.
  rewrite bool_decide_eq_false_2 by apply Hf.
  replace (7 + length d - 6) with (S (length d)) by lia. cbn [take].
  rewrite take_app_length. by rewrite Z.eqb_refl.
Qed.

(** The end of the file is in the fragment. *)
Definition at_end (e : RecordReadError) : Prop := e = EndOfFile ∨ e = Incomplete.

Lemma Fragment_parse_cut f room m :
  fragment_ok f → fsize f ≤ room → m < fsize f →
  ∃ e, Fragment_parse (take m (encode f)) room = inl e ∧ at_end e.
Proof.
  intros Hf Hr Hm. pose proof (fragment_length f Hf) as Hd. destruct f as [typ d].
  unfold encode, fsize in *. cbn [fr_typ fr_data] in *.
  unfold Fragment_parse, FRAGMENT_HEADER_SIZE. rewrite (proj2 (Nat.ltb_ge room 7)) by lia.
  rewrite !length_take, !length_app, length_header, !Nat.min_l by lia.
  destruct (m =? 0) eqn:E0; [by eexists; split; [|left]|].
  destruct (m <? 7) eqn:E7; [by eexists; split; [|right]|]. b2p.
  rewrite take_app_ge by (rewrite length_header; lia). rewrite length_header.
  destruct (header_fields typ d (take (m - 7) d) Hd) as (E1 & E2 & E3 & E4 & E5).
  rewrite E2, E3, FragmentType_from_to, bool_decide_eq_false_2 by apply Hf.
  rewrite (proj2 (Nat.ltb_ge room _)), (proj2 (Nat.ltb_lt m _)) by lia. by eexists; split; [|right].
Qed.

(** ** Where the reader is *)

Definition blk (file : bytes) (k : nat) : bytes := take BLOCK_SIZE (drop (k * BLOCK_SIZE) file).

(** The reader has parsed the file up to offset [o] of block [k]; it may have
    read that block when it was shorter. *)
Record reader_at (file : bytes) (r : RecordReader) (k o : nat) : Prop := mkReaderAt {
  ra_file_offset : rr_file_offset r = k * BLOCK_SIZE;
  ra_block_offset : rr_block_offset r = o;
  ra_le : o ≤ length (rr_block r);
  ra_block : rr_block r `prefix_of` blk file k;
  ra_in : k * BLOCK_SIZE ≤ length file;
  ra_ok : rr_block_corrupt r = false;
}.

Lemma length_blk file k : length (blk file k) ≤ BLOCK_SIZE.
Proof. unfold blk. rewrite length_take. lia. Qed.

Lemma drop_blk file k o : drop o (blk file k) = take (BLOCK_SIZE - o) (drop (k * BLOCK_SIZE + o) file).
Proof. unfold blk. by rewrite skipn_firstn_comm, drop_drop. Qed.

Lemma reader_at_le file r k o : reader_at file r k o → o ≤ BLOCK_SIZE ∧ k * BLOCK_SIZE + o ≤ length file.
Proof.
  intros [_ _ Hle Hb Hin _]. apply prefix_length in Hb. unfold blk in Hb. rewrite length_take, length_drop in Hb. lia.
Qed.

Lemma blk_grow file file' k : file `prefix_of` file' → blk file k `prefix_of` blk file' k.
Proof.
  intros [x ->]. unfold blk. rewrite drop_app. rewrite take_app. by apply prefix_app_r.
Qed.

Lemma reader_at_grow file file' r k o :
  file `prefix_of` file' → reader_at file r k o → reader_at file' r k o.
Proof.
  intros Hp []. split; [done|done|done| | |done].
  - etrans; [done|]. by apply blk_grow.
  - apply prefix_length in Hp. lia.
Qed.

Lemma reader_at_buffer file r k o b : reader_at file r k o → reader_at file (set_output_buffer b r) k o.
Proof. by intros []. Qed.

(** The state after the rest of the block was read. *)
Definition loaded (file : bytes) (r : RecordReader) (k o : nat) : RecordReader :=
  set_block (k * BLOCK_SIZE) (blk file k) o r.

Lemma loaded_at file r k o n :
  reader_at file r k o → o + n ≤ length (blk file k) → reader_at file (loaded file r k (o + n)) k (o + n).
Proof. by intros []. Qed.

Lemma read_block_remainder_ok file r k o :
  reader_at file r k o → read_block_remainder file r = Done (tt, loaded file r k o).
Proof.
  intros [Ef Eo Hle [x Hx] Hin Hc]. unfold read_block_remainder, modify. do 2 f_equal.
  assert (take (BLOCK_SIZE - length (rr_block r)) (drop (rr_file_offset r + length (rr_block r)) file) = x) as ->.
  { rewrite Ef, <- drop_blk, Hx. apply drop_app_length. }
  unfold loaded. rewrite Hx, <- Ef, <- Eo. destruct (_ =? _) eqn:E; [|done]. b2p.
  assert (x = []) as ->.
  { apply nil_length_inv. pose proof (length_blk file k) as Hl. rewrite Hx, length_app in Hl. lia. }
  rewrite app_nil_r. by destruct r.
Qed.

Definition parsed (file : bytes) (r : RecordReader) (k o : nat)
    : run ((RecordReadError + Fragment) * RecordReader) :=
  match Fragment_parse (take (BLOCK_SIZE - o) (drop (k * BLOCK_SIZE + o) file)) (BLOCK_SIZE - o) with
  | inr (f, n) => Done (inr f, loaded file r k (o + n))
  | inl Corrupt => Done (inl Corrupt, set_corrupt (loaded file r k o))
  | inl e => Done (inl e, loaded file r k o)
  end.

Lemma parse_fragment_ok file r k o :
  o ≤ length (blk file k) → parse_fragment (loaded file r k o) = parsed file r k o.
Proof.
  intros Ho. pose proof (length_blk file k). unfold parse_fragment, parsed, bind, gets, id.
  cbn [loaded set_block rr_block_offset rr_block rr_file_offset].
  unfold usize_sub. rewrite (proj2 (Nat.leb_le _ _)) by lia. cbn [ret].
  unfold slice_from. rewrite (proj2 (Nat.leb_le _ _)) by lia. cbn [ret].
  rewrite drop_blk. destruct (Fragment_parse _ _) as [[]|[f n]]; done.
Qed.

(** What [read_fragment] does after reading the block. *)
Lemma read_fragment_loaded file r k o :
  reader_at file r k o →
  read_fragment file r =
    if BLOCK_SIZE - o <? 7 then
      if all_zero (take (BLOCK_SIZE - o) (drop (k * BLOCK_SIZE + o) file)) then
        if length (blk file k) =? BLOCK_SIZE
        then parsed file (set_block (S k * BLOCK_SIZE) [] 0 r) (S k) 0
        else Done (inl EndOfFile, loaded file r k o)
      else Done (inl Corrupt, set_corrupt (loaded file r k o))
    else parsed file r k o.
Proof.
  intros Hr. pose proof (ra_le _ _ _ _ Hr) as Hle. pose proof (prefix_length _ _ (ra_block _ _ _ _ Hr)) as Hb.
  pose proof (length_blk file k) as HB.
  unfold read_fragment, bind, gets, id. rewrite (ra_ok _ _ _ _ Hr). cbn [ret].
  rewrite (read_block_remainder_ok _ _ _ _ Hr). cbn beta iota zeta.
  cbn [loaded set_block rr_block_offset rr_block rr_file_offset].
  unfold usize_sub. rewrite (proj2 (Nat.leb_le _ _)) by lia. cbn [ret]. unfold FRAGMENT_HEADER_SIZE.
  destruct (_ <? 7); [|by apply parse_fragment_ok; lia].
  unfold slice_from. rewrite (proj2 (Nat.leb_le _ _)) by lia. cbn [ret]. rewrite drop_blk.
  destruct (all_zero _); [cbn [negb]|done].
  destruct (length (blk file k) =? BLOCK_SIZE) eqn:E; [|done]. b2p.
  unfold blk in E. rewrite length_take, length_drop in E.
  unfold read_block, bind, modify at 1.
  assert (reader_at file (set_block (k * BLOCK_SIZE + BLOCK_SIZE) [] 0 (loaded file r k o)) (S k) 0) as H1.
  { split; [cbn; lia|done|cbn; lia|apply prefix_nil|cbn; lia|apply Hr]. }
  cbn beta iota. rewrite (read_block_remainder_ok _ _ _ _ H1). cbn [ret].
  rewrite parse_fragment_ok by lia. done.
Qed.

(** ** Where fragments are *)

(** The first place from [p] on where a header fits into the block. *)
Definition align (p : nat) : nat :=
  let m := p mod BLOCK_SIZE in if BLOCK_SIZE - m <? 7 then p + (BLOCK_SIZE - m) else p.

Lemma align_here k o : 7 ≤ BLOCK_SIZE - o → align (k * BLOCK_SIZE + o) = k * BLOCK_SIZE + o.
Proof.
  intros Ho. unfold align. rewrite Nat.add_comm, Nat.Div0.mod_add, Nat.mod_small by lia.
  by rewrite (proj2 (Nat.ltb_ge _ _)) by lia.
Qed.

Lemma align_next k o : o ≤ BLOCK_SIZE → BLOCK_SIZE - o < 7 → align (k * BLOCK_SIZE + o) = S k * BLOCK_SIZE.
Proof.
  intros HoB Ho. pose proof BLOCK_SIZE_bounds as [HB _]. destruct (decide (o = BLOCK_SIZE)) as [->|Hne].
  - replace (k * BLOCK_SIZE + BLOCK_SIZE) with (S k * BLOCK_SIZE + 0) by lia. rewrite align_here; lia.
  - unfold align. rewrite Nat.add_comm, Nat.Div0.mod_add, Nat.mod_small by lia.
    rewrite (proj2 (Nat.ltb_lt _ _)) by lia. lia.
Qed.

Lemma align_le p : p ≤ align p.
Proof. unfold align. case_match; lia. Qed.

(** Fragments with the padding before them, from offset [p] of a file on. *)
Fixpoint place (p : nat) (fs : list Fragment) : bytes :=
  match fs with
  | [] => []
  | f :: fs' => replicate (align p - p) 0%Z ++ encode f ++ place (align p + fsize f) fs'
  end.

Fixpoint fits (p : nat) (fs : list Fragment) : Prop :=
  match fs with
  | [] => True
  | f :: fs' => fragment_ok f ∧ align p mod BLOCK_SIZE + fsize f ≤ BLOCK_SIZE ∧ fits (align p + fsize f) fs'
  end.

(** The offset after the fragments. *)
Fixpoint end_of (p : nat) (fs : list Fragment) : nat :=
  match fs with
  | [] => p
  | f :: fs' => end_of (align p + fsize f) fs'
  end.

Lemma end_of_app p fs gs : end_of p (fs ++ gs) = end_of (end_of p fs) gs.
Proof. revert p. induction fs as [|f fs IH]; intros p; cbn; [done|apply IH]. Qed.

Lemma place_app p fs gs : place p (fs ++ gs) = place p fs ++ place (end_of p fs) gs.
Proof.
  revert p. induction fs as [|f fs IH]; intros p; cbn [place app end_of]; [done|].
  by rewrite IH, <- !(assoc_L (++)).
Qed.

Lemma fits_app p fs gs : fits p (fs ++ gs) ↔ fits p fs ∧ fits (end_of p fs) gs.
Proof. revert p. induction fs as [|f fs IH]; intros p; cbn [fits app end_of]; [by split; [|intros [_ ?]]|]. rewrite IH. tauto. Qed.

Lemma length_place p fs : p + length (place p fs) = end_of p fs.
Proof.
  revert p. induction fs as [|f fs IH]; intros p; cbn [place end_of length]; [lia|].
  rewrite !length_app, length_replicate, length_encode_fragment, <- IH. pose proof (align_le p). lia.
Qed.

Lemma end_of_le p fs : p ≤ end_of p fs.
Proof. rewrite <- length_place. lia. Qed.

(** Reading at a place where the fragment starts. *)
Lemma parsed_step F file r k o f rest :
  file `prefix_of` F → k * BLOCK_SIZE + o ≤ length file → fragment_ok f → o + fsize f ≤ BLOCK_SIZE →
  drop (k * BLOCK_SIZE + o) F = encode f ++ rest →
  if decide (k * BLOCK_SIZE + o + fsize f ≤ length file)
  then parsed file r k o = Done (inr f, loaded file r k (o + fsize f))
  else ∃ e, at_end e ∧ parsed file r k o = Done (inl e, loaded file r k o).
Proof.
  intros [x ->] Hp Hf Ho Hd. set (p := k * BLOCK_SIZE + o) in *.
  rewrite drop_app_le in Hd by done. unfold parsed. fold p.
  destruct (decide _) as [Hle|Hgt].
  - assert (drop p file = encode f ++ drop (fsize f) (drop p file)) as ->.
    { rewrite <- (take_drop (fsize f) (drop p file)) at 1. f_equal.
      apply (f_equal (take (fsize f))) in Hd. rewrite take_app_le in Hd by (rewrite length_drop; lia).
      by rewrite Hd, <- length_encode_fragment, take_app_length. }
    rewrite take_app_ge by (rewrite length_encode_fragment; lia). by rewrite Fragment_parse_ok by (done || lia).
  - assert (drop p file = take (length file - p) (encode f)) as ->.
    { apply (f_equal (take (length file - p))) in Hd.
      rewrite take_app_length' in Hd by (rewrite length_drop; lia).
      rewrite Hd, take_app_le; [done|]. rewrite length_encode_fragment. lia. }
    rewrite take_take, Nat.min_r by lia.
    destruct (Fragment_parse_cut f (BLOCK_SIZE - o) (length file - p) Hf) as (e & -> & He); [lia|lia|].
    exists e. split; [done|]. by destruct He as [-> | ->].
Qed.

(** The reader is at offset [p] of the file. *)
Definition at_pos (file : bytes) (r : RecordReader) (p : nat) : Prop :=
  ∃ k o, reader_at file r k o ∧ p = k * BLOCK_SIZE + o.

Record same_buffer (r r' : RecordReader) : Prop := mkSameBuffer {
  sb_buffer : rr_output_buffer r' = rr_output_buffer r;
  sb_mode : rr_recovery_mode r' = rr_recovery_mode r;
}.

(** What is left to read in the complete file [F]. *)
Definition ahead (F : bytes) (p : nat) (fs : list Fragment) : Prop := fits p fs ∧ drop p F = place p fs.

Lemma zero_prefix l x m rest : l ++ x = replicate m 0%Z ++ rest → all_zero (take m l) = true.
Proof.
  intros E. apply forallb_forall. intros b Hb%list_elem_of_In. apply list_elem_of_lookup in Hb as [i Hi].
  apply lookup_take_Some in Hi as [Hi Hm]. apply (lookup_app_l_Some _ x) in Hi. rewrite E in Hi.
  rewrite lookup_app_l in Hi by by rewrite length_replicate.
  apply lookup_replicate in Hi as [-> _]. done.
Qed.

Lemma parsed_at file r k o n :
  reader_at file r k o → o + n ≤ BLOCK_SIZE → k * BLOCK_SIZE + o + n ≤ length file →
  reader_at file (loaded file r k (o + n)) k (o + n).
Proof.
  intros Hr HB Hl. apply loaded_at; [done|]. unfold blk. rewrite length_take, length_drop. lia.
Qed.

Lemma loaded_here file r k o : reader_at file r k o → reader_at file (loaded file r k o) k o.
Proof.
  intros Hr. pose proof (reader_at_le _ _ _ _ Hr). replace o with (o + 0) by lia.
  apply parsed_at; [done|lia|lia].
Qed.

(** The outcome of reading the fragment [f] that is ahead at [p]: it is read
    if all of it is in the file; otherwise the reader reports the end and can
    go on when there is more. *)
Definition stepped (F file : bytes) (r : RecordReader) (p : nat) (f : Fragment) (fs : list Fragment)
    (res : run ((RecordReadError + Fragment) * RecordReader)) : Prop :=
  if decide (align p + fsize f ≤ length file)
  then ∃ r', res = Done (inr f, r') ∧ same_buffer r r' ∧
         at_pos file r' (align p + fsize f) ∧ ahead F (align p + fsize f) fs
  else ∃ e r' p', res = Done (inl e, r') ∧ at_end e ∧ same_buffer r r' ∧
         at_pos file r' p' ∧ ahead F p' (f :: fs) ∧ align p' = align p.

Lemma stepped_here F file r k o f fs :
  file `prefix_of` F → reader_at file r k o → 7 ≤ BLOCK_SIZE - o →
  ahead F (k * BLOCK_SIZE + o) (f :: fs) →
  stepped F file r (k * BLOCK_SIZE + o) f fs (parsed file r k o).
Proof.
  intros HF Hr Ho Hah. pose proof Hah as [(Hf & Hfit & Hfits) Hd]. unfold stepped.
  pose proof (reader_at_le _ _ _ _ Hr) as [HoB Hin]. cbn [place] in Hd. set (p := k * BLOCK_SIZE + o) in *.
  assert (align p = p) as Ea by (unfold p; rewrite align_here; lia). rewrite !Ea in *.
  rewrite Nat.sub_diag in Hd. cbn [replicate app] in Hd.
  assert (p mod BLOCK_SIZE = o) as Em.
  { unfold p. rewrite Nat.add_comm, Nat.Div0.mod_add, Nat.mod_small; lia. }
  rewrite Em in Hfit. pose proof (parsed_step F file r k o f _ HF Hin Hf Hfit Hd) as Hs. fold p in Hs.
  destruct (decide _) as [Hle|Hgt].
  - rewrite Hs. eexists. split_and!; [done|done| |].
    + exists k, (o + fsize f). split; [apply parsed_at; [done|lia|unfold p in *; lia]|unfold p; lia].
    + split; [done|]. by rewrite <- drop_drop, Hd, <- length_encode_fragment, drop_app_length.
  - destruct Hs as (e & He & ->). exists e. eexists. exists p. split_and!; [done|done|done| |done|done].
    exists k, o. split; [by apply loaded_here|done].
Qed.

Lemma ahead_align F p f fs : ahead F p (f :: fs) → align (align p) = align p → ahead F (align p) (f :: fs).
Proof.
  intros [(? & ? & ?) Hd] E. split; [by cbn [fits]; rewrite E|]. cbn [place] in *. rewrite E, Nat.sub_diag.
  pose proof (align_le p). replace (align p) with (p + (align p - p)) at 1 by lia.
  rewrite <- drop_drop, Hd. rewrite <- (length_replicate (align p - p) 0%Z) at 1. by rewrite drop_app_length.
Qed.

Lemma read_fragment_step F file r p f fs :
  file `prefix_of` F → at_pos file r p → ahead F p (f :: fs) →
  stepped F file r p f fs (read_fragment file r).
Proof.
  intros HF (k & o & Hr & ->) Hah. pose proof BLOCK_SIZE_bounds as [HB _].
  pose proof (reader_at_le _ _ _ _ Hr) as [HoB Hin].
  rewrite (read_fragment_loaded _ _ _ _ Hr). destruct (BLOCK_SIZE - o <? 7) eqn:Eroom; b2p.
  2:{ by apply stepped_here. }
  set (p := k * BLOCK_SIZE + o) in *.
  assert (align p = S k * BLOCK_SIZE) as Ea by by apply align_next.
  assert (align p = S k * BLOCK_SIZE + 0) as Ea0 by lia.
  assert (align (align p) = align p) as Eaa by (rewrite Ea0, align_here; lia).
  assert (all_zero (take (BLOCK_SIZE - o) (drop p file)) = true) as ->.
  { destruct HF as [x ->], Hah as [_ Hd]. rewrite drop_app_le in Hd by done. cbn [place] in Hd.
    replace (BLOCK_SIZE - o) with (align p - p) by (unfold p in *; lia). by eapply zero_prefix. }
  destruct (length (blk file k) =? BLOCK_SIZE) eqn:El; b2p;
    unfold blk in El; rewrite length_take, length_drop in El.
  - assert (reader_at file (set_block (S k * BLOCK_SIZE) [] 0 r) (S k) 0) as H1.
    { split; [done|done|cbn; lia|apply prefix_nil|cbn; unfold p in *; lia|apply Hr]. }
    pose proof (ahead_align _ _ _ _ Hah Eaa) as Hah1. rewrite Ea0 in Hah1.
    pose proof (stepped_here F file _ _ _ f fs HF H1 ltac:(lia) Hah1) as Hs.
    unfold stepped in *. rewrite <- Ea0, Eaa in Hs. destruct (decide _).
    + destruct Hs as (r' & -> & [E1 E2] & ?). eexists. by split.
    + destruct Hs as (e & r' & p' & -> & He & [E1 E2] & ?). by exists e, r', p'.
  - unfold stepped. rewrite decide_False by (unfold p in *; lia). exists EndOfFile. eexists. exists p.
    split_and!; [done|by left|done| |done|done]. exists k, o. split; [by apply loaded_here|done].
Qed.

Lemma read_fragment_end F file r p :
  file `prefix_of` F → at_pos file r p → drop p F = [] →
  ∃ r', read_fragment file r = Done (inl EndOfFile, r') ∧ same_buffer r r' ∧ at_pos file r' p.
Proof.
  intros HF (k & o & Hr & ->) Hd. pose proof BLOCK_SIZE_bounds as [HB _].
  pose proof (reader_at_le _ _ _ _ Hr) as [HoB Hin].
  assert (drop (k * BLOCK_SIZE + o) file = []) as Hd'.
  { destruct HF as [x ->]. rewrite drop_app_le in Hd by done. by apply app_eq_nil in Hd as [? _]. }
  assert (length file = k * BLOCK_SIZE + o) as El.
  { apply (f_equal length) in Hd'. rewrite length_drop in Hd'. cbn in Hd'. lia. }
  assert (∀ k' o' r1, k' * BLOCK_SIZE + o' = k * BLOCK_SIZE + o → 7 ≤ BLOCK_SIZE - o' →
    parsed file r1 k' o' = Done (inl EndOfFile, loaded file r1 k' o')) as Hend.
  { intros k' o' r1 E Ho'. unfold parsed. rewrite E, Hd', take_nil. unfold Fragment_parse.
    unfold FRAGMENT_HEADER_SIZE. by rewrite (proj2 (Nat.ltb_ge _ _)) by lia. }
  pose proof (loaded_here _ _ _ _ Hr) as Hl. rewrite (read_fragment_loaded _ _ _ _ Hr). rewrite Hd', take_nil. cbn [all_zero forallb].
  destruct (BLOCK_SIZE - o <? 7) eqn:Eroom; b2p.
  2:{ rewrite Hend by lia. eexists. split_and!; [done|done|]. by exists k, o. }
  destruct (length (blk file k) =? BLOCK_SIZE) eqn:Eb; b2p.
  - unfold blk in Eb. rewrite length_take, length_drop in Eb. rewrite Hend by lia.
    eexists. split_and!; [done|done|]. exists (S k), 0. split; [|lia]. apply loaded_here.
    split; [done|done|cbn; lia|apply prefix_nil|cbn; lia|apply Hr].
  - eexists. split_and!; [done|done|]. by exists k, o.
Qed.

(** ** Records *)

(** The fragments of a record, or of the rest of one that was started. *)
Inductive chain : bool → bytes → list Fragment → Prop :=
| chain_full d : chain false d [mkFragment FULL d]
| chain_first d d' fs : chain true d' fs → chain false (d ++ d') (mkFragment FIRST d :: fs)
| chain_middle d d' fs : chain true d' fs → chain true (d ++ d') (mkFragment MIDDLE d :: fs)
| chain_last d : chain true d [mkFragment LAST d].

(** Records with the offsets where they end, from offset [p] on. *)
Inductive chains : nat → list (bytes * nat) → list Fragment → Prop :=
| chains_nil p : chains p [] []
| chains_cons p d ds cur later :
    chain false d cur → chains (end_of p cur) ds later → chains p ((d, end_of p cur) :: ds) (cur ++ later).

(** What the reader at [p] has of the next record: nothing, or some of its
    fragments. [cur] are the others, [later] those of the records after it. *)
Inductive pending (p : nat) : bool → bytes → list (bytes * nat) → list Fragment → list Fragment → Prop :=
| pending_none : pending p false [] [] [] []
| pending_start d ds cur later :
    chain false d cur → chains (end_of p cur) ds later →
    pending p false [] ((d, end_of p cur) :: ds) cur later
| pending_middle acc d ds cur later :
    chain true d cur → chains (end_of p cur) ds later →
    pending p true acc ((acc ++ d, end_of p cur) :: ds) cur later.

Record out_ok (out : RecordBuffer) (started : bool) (acc : bytes) : Prop := mkOutOk {
  oo_started : rb_started out = started;
  oo_ended : rb_ended out = false;
  oo_data : rb_data out = acc;
}.

(** The reader is in the stream [F] with [ds] still to be returned; [out] is
    what it has of the first of them. *)
Definition in_stream (F file : bytes) (r : RecordReader) (out : RecordBuffer) (ds : list (bytes * nat)) : Prop :=
  ∃ p started acc cur later, at_pos file r p ∧ ahead F p (cur ++ later) ∧
    pending p started acc ds cur later ∧ out_ok out started acc.

(** The next record is read if it ends in the file. *)
Definition inner_done (F file : bytes) (r : RecordReader) (out : RecordBuffer) (ds : list (bytes * nat))
    (res : run (RecordBuffer * option RecordReadError * RecordReader)) : Prop :=
  match ds with
  | (d, e) :: ds' =>
    if decide (e ≤ length file)
    then ∃ out' r' later, res = Done (out', None, r') ∧ rb_data out' = d ∧ same_buffer r r' ∧
      at_pos file r' e ∧ ahead F e later ∧ chains e ds' later
    else ∃ out' err r', res = Done (out', Some err, r') ∧ at_end err ∧ same_buffer r r' ∧
      rb_start_file_offset out' = rb_start_file_offset out ∧ in_stream F file r' out' ds
  | [] =>
    ∃ out' r', res = Done (out', Some EndOfFile, r') ∧ same_buffer r r' ∧ rb_started out' = false ∧
      rb_start_file_offset out' = rb_start_file_offset out ∧ in_stream F file r' out' ds
  end.

Lemma same_buffer_trans r1 r2 r3 : same_buffer r1 r2 → same_buffer r2 r3 → same_buffer r1 r3.
Proof. intros [] []. split; congruence. Qed.

(** The outcome is that of the rest, once a fragment was read. *)
Lemma inner_done_from F file r r1 out out1 d e ds res :
  same_buffer r r1 → rb_start_file_offset out1 = rb_start_file_offset out →
  inner_done F file r1 out1 ((d, e) :: ds) res → inner_done F file r out ((d, e) :: ds) res.
Proof.
  intros Hs Ho. cbn. destruct (decide _).
  - intros (out' & r' & later & ? & ? & ? & ? & ? & ?). exists out', r', later. split_and!; try done.
    by eapply same_buffer_trans.
  - intros (out' & err & r' & ? & ? & ? & ? & ?). exists out', err, r'. split_and!; try done; [|congruence].
    by eapply same_buffer_trans.
Qed.

Lemma chain_cons b d fs : chain b d fs → ∃ f fs', fs = f :: fs'.
Proof. intros []; eauto. Qed.

(** A record whose next fragment is not complete. *)
Lemma inner_done_cut F file r p out started acc ds f cur later res :
  pending p started acc ds (f :: cur) later → out_ok out started acc →
  ¬ align p + fsize f ≤ length file →
  (∃ e r' p', res = Done (out, Some e, r') ∧ at_end e ∧ same_buffer r r' ∧ at_pos file r' p' ∧
     ahead F p' (f :: cur ++ later) ∧ align p' = align p) →
  inner_done F file r out ds res.
Proof.
  intros Hpend Hout Hlt (e & r' & p' & -> & He & Hs & Hp' & Ha & Eal).
  assert (end_of p' (f :: cur) = end_of p (f :: cur)) as Ee by (cbn; by rewrite Eal).
  assert (pending p' started acc ds (f :: cur) later) as Hpend'.
  { inversion Hpend; subst; rewrite <- Ee in *; by constructor. }
  assert (∃ d ds', ds = (d, end_of p (f :: cur)) :: ds') as (d & ds' & ->) by (inversion Hpend; eauto).
  cbn [inner_done]. rewrite decide_False.
  2:{ cbn [end_of]. pose proof (end_of_le (align p + fsize f) cur). lia. }
  exists out, e, r'. split_and!; try done. by exists p', started, acc, (f :: cur), later.
Qed.

Lemma read_inner_stream F file fuel r p out started acc ds cur later :
  file `prefix_of` F → at_pos file r p → ahead F p (cur ++ later) → pending p started acc ds cur later →
  out_ok out started acc → length file - p < fuel →
  inner_done F file r out ds (read_inner file fuel out r).
Proof.
  intros HF. revert r p out started acc ds cur. induction fuel as [|fuel IH]; [lia|].
  intros r p out started acc ds cur Hp Ha Hpend Hout Hfuel.
  cbn [read_inner]. rewrite (oo_ended _ _ _ Hout). unfold bind. destruct cur as [|f cur].
  { assert (ds = [] ∧ later = [] ∧ started = false) as (-> & -> & ->).
    { inversion Hpend; subst; [done|..]; match goal with H : chain _ _ [] |- _ => inversion H end. }
    destruct (read_fragment_end F file r p HF Hp) as (r' & -> & Hs & Hp'); [apply Ha|].
    cbn. exists out, r'. split_and!; [done|done|apply Hout|done|]. by exists p, false, acc, [], []. }
  pose proof (read_fragment_step F file r p f (cur ++ later) HF Hp Ha) as Hstep. unfold stepped in Hstep.
  destruct (decide (align p + fsize f ≤ length file)) as [Hle|Hlt].
  2:{ destruct Hstep as (e & r' & p' & -> & He & Hs & Hp' & Ha' & Eal).
      eapply inner_done_cut; [done..|]. by exists e, r', p'. }
  destruct Hstep as (r' & -> & Hs & Hp' & Ha').
  assert (length file - (align p + fsize f) < fuel) as Hf.
  { pose proof (align_le p). unfold fsize in *. lia. }
  assert (∀ x y out1, rb_start_file_offset out1 = rb_start_file_offset out →
    out_ok out1 true y → chain true x cur → ∀ ds', chains (end_of p (f :: cur)) ds' later →
    inner_done F file r out ((y ++ x, end_of p (f :: cur)) :: ds') (read_inner file fuel out1 r')) as Hgo.
  { intros x y out1 Eo Hout1 Hch ds' Hl. eapply inner_done_from; [exact Hs|exact Eo|].
    change (end_of p (f :: cur)) with (end_of (align p + fsize f) cur) in *.
    apply (IH r' (align p + fsize f) out1 true y _ cur); try done. by constructor. }
  assert (∀ x out1 ds', rb_ended out1 = true → rb_data out1 = x → cur = [] →
    chains (end_of p (f :: cur)) ds' later →
    inner_done F file r out ((x, end_of p (f :: cur)) :: ds') (read_inner file fuel out1 r')) as Hend.
  { intros x out1 ds' E1 E2 -> Hl. cbn [inner_done end_of] in *. rewrite decide_True by done.
    exists out1, r', later. split_and!; try done. destruct fuel; cbn [read_inner]; by rewrite E1. }
  inversion Hpend as [|d ds' ? ? Hc Hl|acc' d ds' ? ? Hc Hl]; subst;
    inversion Hc as [d0|d0 d' fs Hc'|d0 d' fs Hc'|d0]; subst;
    destruct Hout as [Es Ee Ed]; cbn [fr_typ fr_data]; rewrite ?Es.
  - apply Hend; [done|by cbn; rewrite Ed|done|exact Hl].
  - apply Hgo; [done| |exact Hc'|exact Hl]. split; cbn; [done|done|by rewrite Ed].
  - rewrite (assoc_L (++)). apply Hgo; [done| |exact Hc'|exact Hl]. by split; cbn; rewrite ?Ed.
  - apply Hend; [done|by cbn; rewrite Ed|done|exact Hl].
Qed.

(** The reader between two calls: [ds] are still to be returned, and the next
    of them starts at or after offset [q]. *)
Definition stream_at (F file : bytes) (r : RecordReader) (q : nat) (ds : list (bytes * nat)) : Prop :=
  let out := default (mkRecordBuffer false false (rr_file_offset r + rr_block_offset r) [])
               (rr_output_buffer r) in
  in_stream F file r out ds ∧ rb_start_file_offset out = q.

Lemma in_stream_buffer F file r out ds b :
  in_stream F file r out ds → in_stream F file (set_output_buffer b r) out ds.
Proof.
  intros (p & started & acc & cur & later & (k & o & Hr & ->) & ?). exists (k * BLOCK_SIZE + o), started, acc, cur, later.
  split; [|done]. exists k, o. split; [by apply reader_at_buffer|done].
Qed.

Lemma pending_of p ds later : chains p ds later → ∃ cur later', later = cur ++ later' ∧ pending p false [] ds cur later'.
Proof. intros [|? d ds' cur later' Hc Hl]; [exists [], []|exists cur, later']; (split; [done|by constructor]). Qed.

Lemma stream_next F file r p ds later :
  rr_output_buffer r = None → at_pos file r p → ahead F p later → chains p ds later →
  stream_at F file r p ds.
Proof.
  intros Eb Hp Ha Hc. unfold stream_at. rewrite Eb. cbn. pose proof Hp as (k & o & Hr & Ep). split.
  - destruct (pending_of _ _ _ Hc) as (cur & later' & -> & Hpend). by exists p, false, [], cur, later'.
  - by rewrite (ra_file_offset _ _ _ _ Hr), (ra_block_offset _ _ _ _ Hr).
Qed.

(** The next call returns the next record if it ends in the file, and reports
    the end otherwise; then it can be called again when the file has grown. *)
Lemma read_raw_stream F file r q ds :
  file `prefix_of` F → stream_at F file r q ds →
  match ds with
  | (d, e) :: ds' =>
    if decide (e ≤ length file)
    then ∃ r', read_raw file r = Done (inr d, r') ∧ stream_at F file r' e ds' ∧
           rr_recovery_mode r' = rr_recovery_mode r
    else ∃ err r' out, read_raw file r = Done (inl err, r') ∧ at_end err ∧ stream_at F file r' q ds ∧
           rr_output_buffer r' = Some out ∧ rr_recovery_mode r' = rr_recovery_mode r
  | [] =>
    ∃ r' out, read_raw file r = Done (inl EndOfFile, r') ∧ stream_at F file r' q ds ∧
      rr_output_buffer r' = Some out ∧ rr_recovery_mode r' = rr_recovery_mode r
  end.
Proof.
  intros HF [(p & started & acc & cur & later & Hp & Ha & Hpend & Hout) Hq].
  set (out := default _ (rr_output_buffer r)) in *. set (r0 := set_output_buffer None r).
  assert (inner_done F file r0 out ds (read_inner file (S (length file)) out r0)) as Hin.
  { eapply (read_inner_stream F file _ r0 p); try done; [|lia]. destruct Hp as (k & o & Hr & ->).
    exists k, o. split; [by apply reader_at_buffer|done]. }
  unfold read_raw, bind. change (gets id r) with (Done (r, r)). cbn beta iota zeta. change (modify (set_output_buffer None) r) with (Done (tt, r0)).
  cbn beta iota. fold out. destruct ds as [|[d e] ds']; cbn [inner_done] in Hin.
  - destruct Hin as (out' & r' & -> & [Eb Em] & Es & Eo & Hst). rewrite Es.
    eexists. exists out'. split_and!; [done| |done|done]. split; [by apply in_stream_buffer|cbn; congruence].
  - destruct (decide _).
    + destruct Hin as (out' & r' & later' & -> & <- & [Eb Em] & Hp' & Ha' & Hc'). exists r'.
      split_and!; [done|by eapply stream_next|done].
    + destruct Hin as (out' & err & r' & -> & He & [Eb Em] & Eo & Hst).
      assert (∃ err', at_end err' ∧ match err with
        | Corrupt => ret (inl Corrupt)
        | _ => modify (set_output_buffer (Some out')) ;! ret (inl
                 match err with EndOfFile => if rb_started out' then Incomplete else EndOfFile | _ => err end)
        end r' = Done (@inl RecordReadError bytes err', set_output_buffer (Some out') r')) as (err' & He' & Hm).
      { destruct He as [-> | ->]; [destruct (rb_started out')|]; eexists; split; [by right|done|by left|done|by right|done]. }
      exists err', (set_output_buffer (Some out') r'), out'. split_and!; [|done| |done|done].
      * destruct He as [-> | ->]; exact Hm.
      * split; [by apply in_stream_buffer|cbn; congruence].
Qed.

(** ** The writer *)

Definition writer_ok (w : RecordWriter) : Prop := rw_extent w = length (rw_file w).

Lemma append_loop_ok fuel data pos (first_record : bool) w :
  writer_ok w → 7 ≤ BLOCK_SIZE - rw_extent w mod BLOCK_SIZE → pos ≤ length data →
  (if first_record then pos = 0 else rw_extent w mod BLOCK_SIZE = 0 ∧ pos < length data) →
  length data - pos + (if first_record then 1 else 0) < fuel →
  ∃ fs, chain (negb first_record) (drop pos data) fs ∧ fits (rw_extent w) fs ∧
    append_loop fuel data pos first_record w =
      Done (tt, mkRecordWriter (rw_file w ++ place (rw_extent w) fs) (end_of (rw_extent w) fs)).
Proof.
  pose proof BLOCK_SIZE_bounds as [HB _].
  revert pos first_record w. induction fuel as [|fuel IH]; [lia|]. intros pos first_record w Hw Hroom Hpos Hfirst Hfuel.
  set (p := rw_extent w) in *. set (m := p mod BLOCK_SIZE) in *.
  assert (m < BLOCK_SIZE) as Hm by (apply Nat.mod_upper_bound; lia).
  assert (align p = p) as Ea.
  { unfold align. fold m. by rewrite (proj2 (Nat.ltb_ge _ _)) by lia. }
  cbn [append_loop]. assert ((pos <? length data) || first_record = true) as ->.
  { destruct first_record; [apply orb_true_r|]. rewrite orb_false_r. apply Nat.ltb_lt. lia. }
  unfold bind, gets. cbn beta iota. fold p m. unfold usize_sub, FRAGMENT_HEADER_SIZE.
  rewrite (proj2 (Nat.leb_le _ _)) by lia. cbn [ret]. unfold write_all, advance, modify. cbn beta iota.
  cbn [rw_file rw_extent]. fold p.
  set (taken := (BLOCK_SIZE - m - 7) `min` (length data - pos)).
  set (typ := fragment_type _ _). set (sl := take taken (drop pos data)). set (f := mkFragment typ sl).
  assert (length sl = taken) as El by (unfold sl; rewrite length_take, length_drop; lia).
  assert (fsize f = 7 + taken) as Ef by (unfold fsize; cbn; lia).
  assert (fragment_ok f) as Hf.
  { split; [unfold f, typ, fragment_type; cbn; by destruct first_record, (_ =? _)|lia]. }
  set (w1 := mkRecordWriter _ _).
  assert (w1 = mkRecordWriter (rw_file w ++ encode f) (p + fsize f)) as Ew1.
  { unfold w1, encode. by rewrite Ef, (assoc_L (++)). }
  destruct (decide (pos + taken = length data)) as [Eend|Hmore].
  - assert (sl = drop pos data) as Esl by (unfold sl; apply take_ge; rewrite length_drop; lia).
    exists [f]. split_and!.
    + unfold f, typ. rewrite (proj2 (Nat.eqb_eq _ _) Eend), Esl. destruct first_record; constructor.
    + cbn [fits]. rewrite Ea. fold m. split_and!; [done|lia|done].
    + cbn [place end_of]. rewrite Ea, Nat.sub_diag, app_nil_r, Ew1. cbn [replicate app]. destruct fuel as [|fuel]; [destruct first_record; lia|].
      cbn [append_loop]. rewrite Eend, Nat.ltb_irrefl. reflexivity.
  - assert (taken = BLOCK_SIZE - m - 7) as Et by lia.
    assert (p + fsize f = S (p / BLOCK_SIZE) * BLOCK_SIZE) as Ep.
    { rewrite Ef, Et. pose proof (Nat.div_mod p BLOCK_SIZE ltac:(lia)). unfold m in *. nia. }
    assert (writer_ok w1 ∧ rw_extent w1 mod BLOCK_SIZE = 0) as [Hw1 Hm1].
    { rewrite Ew1. unfold writer_ok. cbn [rw_file rw_extent]. rewrite length_app, length_encode_fragment.
      unfold writer_ok in Hw. split; [unfold p; lia|]. rewrite Ep. apply Nat.Div0.mod_mul. }
    destruct (IH (pos + taken) false w1) as (fs & Hc & Hfits & Hrun); [done|lia|lia|split; [done|lia]| |].
    { destruct first_record; [lia|]. destruct Hfirst as [Hm0 ?]. lia. }
    rewrite <- drop_drop in Hc. exists (f :: fs). rewrite Ew1 in *. cbn [rw_file rw_extent] in *. split_and!.
    + unfold f, typ. rewrite (proj2 (Nat.eqb_neq _ _) Hmore).
      rewrite <- (take_drop taken (drop pos data)). destruct first_record; by constructor.
    + cbn [fits]. rewrite Ea. fold m. split_and!; [done|lia|done].
    + cbn [place end_of]. rewrite Ea, Nat.sub_diag. cbn [replicate app]. by rewrite Hrun, (assoc_L (++)).
Qed.

Lemma align_align p : align (align p) = align p.
Proof.
  pose proof BLOCK_SIZE_bounds as [HB _]. unfold align at 2 3. destruct (_ <? 7) eqn:E; b2p.
  - pose proof (Nat.div_mod p BLOCK_SIZE ltac:(lia)) as Hd.
    pose proof (Nat.mod_upper_bound p BLOCK_SIZE ltac:(lia)).
    replace (p + (BLOCK_SIZE - p mod BLOCK_SIZE)) with (S (p / BLOCK_SIZE) * BLOCK_SIZE + 0) by nia.
    rewrite align_here; lia.
  - unfold align. by rewrite (proj2 (Nat.ltb_ge _ _)) by lia.
Qed.

Lemma align_room p : 7 ≤ BLOCK_SIZE - align p mod BLOCK_SIZE.
Proof.
  pose proof BLOCK_SIZE_bounds as [HB _]. pose proof (align_align p) as E.
  pose proof (Nat.mod_upper_bound (align p) BLOCK_SIZE ltac:(lia)). unfold align at 1 in E.
  destruct (_ <? 7) eqn:Er; b2p; lia.
Qed.

Lemma append_ok w data :
  writer_ok w → ∃ fs, chain false data fs ∧ fits (rw_extent w) fs ∧
    append data w = Done (tt, mkRecordWriter (rw_file w ++ place (rw_extent w) fs) (end_of (rw_extent w) fs)).
Proof.
  intros Hw. pose proof BLOCK_SIZE_bounds as [HB _]. set (p := rw_extent w).
  set (w1 := mkRecordWriter (rw_file w ++ replicate (align p - p) 0%Z) (align p)).
  assert (writer_ok w1) as Hw1.
  { unfold writer_ok in *. cbn. rewrite length_app, length_replicate. pose proof (align_le p). lia. }
  destruct (append_loop_ok (S (S (length data))) data 0 true w1) as (fs & Hc & Hf & Hrun);
    [done|apply align_room|lia|done|lia|].
  exists fs. cbn [negb drop] in Hc. destruct (chain_cons _ _ _ Hc) as (f & fs' & ->).
  cbn [w1 rw_extent rw_file] in *. split_and!.
  - done.
  - cbn [fits] in *. by rewrite align_align in Hf.
  - assert (append data w = append_loop (S (S (length data))) data 0 true w1) as ->.
    { unfold append, bind, gets. cbn beta iota. fold p. unfold FRAGMENT_HEADER_SIZE, w1, align.
      destruct (_ <? 7) eqn:E; cbn beta iota.
      - unfold advance, write_all, modify. cbn [rw_file rw_extent]. fold p. do 2 f_equal. f_equal. f_equal. lia.
      - rewrite Nat.sub_diag. cbn [replicate]. rewrite app_nil_r. by destruct w. }
    rewrite Hrun. cbn [place end_of]. by rewrite align_align, Nat.sub_diag, <- !(assoc_L (++)).
Qed.

(** ** Runs of reads and writes *)

Definition append_records (ds : list bytes) : M RecordWriter unit := for_each ds append.

(** Read until there is an error; at most [fuel] calls. *)
Fixpoint read_records (fuel : nat) (file : bytes) : M RecordReader (list bytes * RecordReadError) :=
  match fuel with
  | O => out_of_fuel
  | S fuel =>
    let! res := read_raw file in
    match res with
    | inl e => ret ([], e)
    | inr d => let! (ds, e) := read_records fuel file in ret (d :: ds, e)
    end
  end.

(** The offset after the records. *)
Definition last_end (q : nat) (ds : list (bytes * nat)) : nat := foldl (λ _ x, x.2) q ds.

Lemma end_of_chains q ds fs : chains q ds fs → end_of q fs = last_end q ds.
Proof. induction 1 as [|p d ds cur later _ _ IH]; [done|]. rewrite end_of_app. cbn. apply IH. Qed.

Lemma append_records_ok ds w :
  writer_ok w → ∃ rs fs, chains (rw_extent w) rs fs ∧ rs.*1 = ds ∧ fits (rw_extent w) fs ∧
    append_records ds w =
      Done (tt, mkRecordWriter (rw_file w ++ place (rw_extent w) fs) (last_end (rw_extent w) rs)) ∧
    ∀ k, ∃ file, append_records (take k ds) w =
        Done (tt, mkRecordWriter file (last_end (rw_extent w) (take k rs))) ∧
      file `prefix_of` rw_file w ++ place (rw_extent w) fs.
Proof.
  unfold append_records. revert w. induction ds as [|d ds IH]; intros w Hw.
  { exists [], []. split_and!; [constructor|done|done| |]; cbn; rewrite app_nil_r.
    - by destruct w.
    - intros k. rewrite !take_nil. exists (rw_file w). split; [by destruct w|done]. }
  destruct (append_ok w d Hw) as (cur & Hc & Hf & Hrun).
  set (w1 := mkRecordWriter (rw_file w ++ place (rw_extent w) cur) (end_of (rw_extent w) cur)) in *.
  destruct (IH w1) as (rs & fs & Hcs & Hrs & Hfs & Hruns & Hpre).
  { unfold writer_ok in *. cbn. rewrite length_app, <- length_place. lia. }
  exists ((d, end_of (rw_extent w) cur) :: rs), (cur ++ fs). split_and!.
  - by constructor.
  - cbn. by rewrite Hrs.
  - by apply fits_app.
  - cbn [for_each]. unfold bind. rewrite Hrun, Hruns. cbn [w1 rw_file rw_extent last_end foldl].
    by rewrite place_app, <- (assoc_L (++)).
  - intros [|k].
    + exists (rw_file w). split; [by destruct w|by apply prefix_app_r].
    + destruct (Hpre k) as (file & Hk & Hle). exists file. cbn [take for_each]. unfold bind.
      rewrite Hrun, Hk. split; [done|]. by rewrite place_app, (assoc_L (++)).
Qed.

Lemma append_records_split ds ds' w w1 :
  append_records ds w = Done (tt, w1) → append_records (ds ++ ds') w = append_records ds' w1.
Proof.
  unfold append_records. revert w. induction ds as [|d ds IH]; intros w; [by intros [= <-]|].
  cbn [for_each app]. unfold bind. destruct (append d w) as [[[] w2]| |]; try done. apply IH.
Qed.

Lemma writer_ok_records ds w w1 : writer_ok w → append_records ds w = Done (tt, w1) → writer_ok w1.
Proof.
  intros Hw. destruct (append_records_ok ds w Hw) as (rs & fs & Hc & _ & _ & -> & _). intros [= <-].
  unfold writer_ok in *. cbn. rewrite length_app, Hw, length_place, <- Hw. symmetry. by apply end_of_chains.
Qed.

(** The first [k] records end in the file and the next one does not. *)
Record complete (len : nat) (ds : list (bytes * nat)) (k : nat) : Prop := mkComplete {
  co_le : k ≤ length ds;
  co_in : ∀ i d x, i < k → ds !! i = Some (d, x) → x ≤ len;
  co_next : ∀ d x, ds !! k = Some (d, x) → len < x;
}.

Lemma complete_unique len ds k k' : complete len ds k → complete len ds k' → k = k'.
Proof.
  assert (∀ i j, complete len ds i → complete len ds j → i < j → False) as Hlt.
  { intros i j [_ _ Hn] [Hl Hi _] Hij. destruct (lookup_lt_is_Some_2 ds i ltac:(lia)) as [[d x] E].
    specialize (Hn _ _ E). specialize (Hi _ _ _ Hij E). lia. }
  intros H1 H2. destruct (lt_eq_lt_dec k k') as [[|]|]; [exfalso|done|exfalso]; eauto.
Qed.

Lemma complete_exists len ds : ∃ k, complete len ds k.
Proof.
  induction ds as [|[d x] ds [k [H1 H2 H3]]]; [exists 0; by split; [|intros; lia|]|]. destruct (decide (x ≤ len)) as [Hx|Hx].
  - exists (S k). split; [cbn; lia| |done]. intros [|i] d' x' Hi; [by intros [= _ <-]|]. cbn. apply H2. lia.
  - exists 0. split; [lia|intros; lia|]. intros d' x' [= _ <-]. lia.
Qed.

Lemma complete_tail len d x ds k : complete len ((d, x) :: ds) (S k) → complete len ds k.
Proof. intros [H1 H2 H3]. split; [cbn in H1; lia| |done]. intros i d' x' Hi. apply (H2 (S i)). lia. Qed.

Lemma complete_last_end q len ds k : q ≤ len → complete len ds k → last_end q (take k ds) ≤ len.
Proof.
  unfold last_end. intros Hq [Hl Hi _]. destruct k as [|k]; [done|].
  destruct (lookup_lt_is_Some_2 ds k ltac:(lia)) as [[d x] E].
  rewrite (take_S_r _ _ _ E), foldl_app. cbn. eapply Hi; [|exact E]. lia.
Qed.

(** Records are read as far as they are complete. *)
Lemma read_records_stream F file fuel r q ds :
  file `prefix_of` F → stream_at F file r q ds → length ds < fuel →
  ∃ k e r' out, read_records fuel file r = Done (take k ds.*1, e, r') ∧ at_end e ∧
    complete (length file) ds k ∧
    stream_at F file r' (last_end q (take k ds)) (drop k ds) ∧ rr_output_buffer r' = Some out.
Proof.
  intros HF. revert r q ds. induction fuel as [|fuel IH]; intros r q ds Hst Hfuel; [lia|].
  pose proof (read_raw_stream F file r q ds HF Hst) as Hread. cbn [read_records]. unfold bind.
  destruct ds as [|[d e] ds].
  { destruct Hread as (r' & out & -> & Hst' & Ho & _). exists 0, EndOfFile, r', out.
    split_and!; try done. by left. }
  destruct (decide (e ≤ length file)) as [Hle|Hlt].
  - destruct Hread as (r1 & -> & Hst1 & _). cbn in Hfuel.
    destruct (IH r1 e ds Hst1 ltac:(lia)) as (k & err & r' & out & -> & He & [H1 H2 H3] & Hst' & Ho).
    exists (S k), err, r', out. split_and!; try done. split; [cbn; lia| |done].
    intros [|i] d' x Hi; [by intros [= _ <-]|]. cbn. apply H2. lia.
  - destruct Hread as (err & r' & out & -> & He & Hst' & Ho & _). exists 0, err, r', out.
    split_and!; try done. split; [cbn; lia|intros; lia|]. intros d' x [= _ <-]. lia.
Qed.

Lemma open_stream F file ds fs :
  chains 0 ds fs → fits 0 fs → F = place 0 fs → stream_at F file RecordReader_open 0 ds.
Proof.
  intros Hc Hf ->. eapply (stream_next _ _ _ 0); [done| |by split|done]. exists 0, 0.
  split; [|done]. split; [done|done|cbn; lia|apply prefix_nil|cbn; lia|done].
Qed.

(** A reader that stopped goes on when the file has grown. *)
Lemma stream_at_grow F file file' r q ds :
  file `prefix_of` file' → stream_at F file r q ds → stream_at F file' r q ds.
Proof.
  intros Hg [(p & started & acc & cur & later & (k & o & Hr & ->) & ?) ?]. split; [|done].
  exists (k * BLOCK_SIZE + o), started, acc, cur, later. split; [|done]. exists k, o.
  split; [by eapply reader_at_grow|done].
Qed.

(** The writer continues after the last complete record. *)
Lemma into_writer_stream F file r q ds :
  file `prefix_of` F → stream_at F file r q ds → q ≤ length file →
  (∀ d x, ds !! 0 = Some (d, x) → length file < x) →
  ∃ r', into_writer file true r = Done (Some (Some (mkRecordWriter (take q file) q)), r').
Proof.
  intros HF Hst Hq Hend. pose proof (read_raw_stream F file r q ds HF Hst) as Hread.
  assert (∃ e r' out, read_raw file r = Done (inl e, r') ∧ at_end e ∧ stream_at F file r' q ds ∧
    rr_output_buffer r' = Some out) as (e & r' & out & Hr & He & [_ Eq] & Ho).
  { destruct ds as [|[d x] ds].
    - destruct Hread as (r' & out & ? & ? & ? & _). exists EndOfFile, r', out. split_and!; try done. by left.
    - rewrite decide_False in Hread by (pose proof (Hend d x eq_refl); lia).
      destruct Hread as (err & r' & out & ? & ? & ? & ? & _). by exists err, r', out. }
  rewrite Ho in Eq. cbn in Eq. exists r'. unfold into_writer, bind. rewrite Hr.
  assert (q - length file = 0) as Eq0 by lia.
  destruct He as [-> | ->]; change (gets id r') with (Done (r', r')); cbn [negb andb ret];
    rewrite Ho; cbn beta iota zeta; rewrite Eq, Eq0; cbn [replicate]; by rewrite app_nil_r.
Qed.

(** [RecordLog.read] on a file that was written by the writer. *)
Lemma read_stream F file r q ds :
  file `prefix_of` F → stream_at F file r q ds → rr_recovery_mode r = AllowIncomplete →
  ∃ r', rr_recovery_mode r' = AllowIncomplete ∧
  match ds with
  | (d, e) :: ds' =>
    if decide (e ≤ length file)%nat
    then RecordLog.read file r = Done (inr (Some d), r') ∧ stream_at F file r' e ds'
    else RecordLog.read file r = Done (inr None, r') ∧ stream_at F file r' q ds
  | [] => RecordLog.read file r = Done (inr None, r') ∧ stream_at F file r' q ds
  end.
Proof.
  intros HF Hst Hm. pose proof (read_raw_stream F file r q ds HF Hst) as Hread.
  assert (∀ res r1, read_raw file r = Done (res, r1) → rr_recovery_mode r1 = rr_recovery_mode r →
    RecordLog.read file r = Done (match res with inr d => inr (Some d) | inl EndOfFile | inl Incomplete => inr None
                                  | inl e => inl e end, r1)) as Hr.
  { intros res r1 E1 E2. unfold RecordLog.read, bind, gets, id, ret. rewrite E1, E2, Hm. by destruct res as [[]|]. }
  destruct ds as [|[d e] ds].
  { destruct Hread as (r1 & out & E & ? & _ & Em). exists r1. split; [congruence|]. by rewrite (Hr _ _ E Em). }
  destruct (decide (e ≤ length file)%nat).
  - destruct Hread as (r1 & E & Hst1 & Em). exists r1. split; [congruence|]. by rewrite (Hr _ _ E Em).
  - destruct Hread as (err & r1 & out & E & He & ? & _ & Em). exists r1. split; [congruence|].
    rewrite (Hr _ _ E Em). by destruct He as [-> | ->].
Qed.
