(* ===== verification/RecordLogTheorems.v ===== *)
(** * Properties of the record log

    The reader on files with any contents ([reader_ok]); then the properties
    of src/pkg/sstable/src/record_log.rs: recovery of a cut file, tailing a
    file that grows, termination, and the records that are lost or mixed after
    an error. *)

From S2P Require Import Prelude Wire Encoding Crc RecordLog RecordLogProofs.

#[local] Open Scope nat_scope.
#[local] Opaque BLOCK_SIZE.

(** ** Files with any contents *)

(** The block is a part of the file, and the cursor is in it. *)
Record reader_ok (file : bytes) (r : RecordReader) : Prop := mkReaderOk {
  ro_offset : rr_block_offset r ≤ length (rr_block r);
  ro_block : length (rr_block r) ≤ BLOCK_SIZE;
  ro_file : rr_file_offset r + length (rr_block r) ≤ max (rr_file_offset r) (length file);
}.

(** The position up to which the file was parsed. *)
Definition cursor (r : RecordReader) : nat := rr_file_offset r + rr_block_offset r.

Lemma reader_ok_open file : reader_ok file RecordReader_open.
Proof. pose proof BLOCK_SIZE_bounds as [? _]. split; cbn; lia. Qed.

Lemma reader_ok_grow file file' r : file `prefix_of` file' → reader_ok file r → reader_ok file' r.
Proof. intros Hp%prefix_length []. split; lia. Qed.

Lemma Fragment_parse_size input room f n :
  Fragment_parse input room = inr (f, n) → 7 ≤ n ≤ length input.
Proof.
  unfold Fragment_parse, FRAGMENT_HEADER_SIZE. intros H.
  repeat (case_match; try done); simplify_eq; b2p; lia.
Qed.

Lemma Fragment_parse_corrupt input room :
  7 ≤ room → Fragment_parse input room = inl Corrupt → 0 < length input.
Proof.
  unfold Fragment_parse, FRAGMENT_HEADER_SIZE. intros Hroom H.
  destruct (room <? 7) eqn:?; [b2p; lia|]. destruct (length input =? 0) eqn:?; [done|]. b2p. lia.
Qed.

Lemma Fragment_parse_dropped input room : Fragment_parse input room ≠ inl Dropped.
Proof. unfold Fragment_parse. repeat case_match; done. Qed.

Lemma wpx_usize_sub {S} pp pf (a b : nat) (Q : nat → S → Prop) s :
  b ≤ a → Q (a - b) s → wpx pp pf (usize_sub a b) Q s.
Proof. intros Hle HQ. unfold usize_sub. rewrite (proj2 (Nat.leb_le _ _) Hle). by apply wpx_ret. Qed.

Lemma wpx_slice_from {S} pp pf l o (Q : bytes → S → Prop) s :
  o ≤ length l → Q (drop o l) s → wpx pp pf (slice_from l o) Q s.
Proof. intros Hle HQ. unfold slice_from. rewrite (proj2 (Nat.leb_le _ _) Hle). by apply wpx_ret. Qed.

(** The fields that reading a block leaves alone. *)
Record same_flags (r r' : RecordReader) : Prop := mkSameFlags {
  sf_buffer : rr_output_buffer r' = rr_output_buffer r;
  sf_mode : rr_recovery_mode r' = rr_recovery_mode r;
  sf_corrupt : rr_block_corrupt r' = rr_block_corrupt r;
}.

Lemma read_block_remainder_any file r :
  reader_ok file r →
  twp (read_block_remainder file) (λ _ r', reader_ok file r' ∧ same_flags r r' ∧
    rr_file_offset r' = rr_file_offset r ∧ rr_block_offset r' = rr_block_offset r) r.
Proof.
  intros [H1 H2 H3]. unfold read_block_remainder. wp_step. destruct (_ =? _) eqn:E; [done|]. b2p.
  split_and!; [|done..]. split; cbn; rewrite ?length_app, ?length_take, ?length_drop; lia.
Qed.

(** What one fragment read does, whatever the file holds. *)
Record fragment_read (file : bytes) (r : RecordReader) (res : RecordReadError + Fragment)
    (r' : RecordReader) : Prop := mkFragmentRead {
  fd_ok : reader_ok file r';
  fd_buffer : same_buffer r r';
  fd_offset : rr_file_offset r ≤ rr_file_offset r';
  fd_cursor : cursor r ≤ cursor r';
  fd_skip : rr_block_corrupt r = true →
    rr_file_offset r + BLOCK_SIZE ≤ rr_file_offset r' ∧ rr_block_corrupt r' = true;
  fd_res : match res with
    | inr _ => cursor r + 7 ≤ cursor r' ≤ length file ∧ rr_block_corrupt r' = rr_block_corrupt r
    | inl Corrupt => cursor r' < length file ∧ rr_block_corrupt r' = true
    | inl Dropped => False
    | inl _ => rr_block_corrupt r' = rr_block_corrupt r
    end;
}.

(** The end of a read, from a state [r1] at a place where a header fits. *)
Lemma parse_fragment_any file r r1 :
  reader_ok file r1 → 7 ≤ BLOCK_SIZE - rr_block_offset r1 → same_flags r r1 →
  rr_file_offset r ≤ rr_file_offset r1 → cursor r ≤ cursor r1 →
  (rr_block_corrupt r = true → rr_file_offset r + BLOCK_SIZE ≤ rr_file_offset r1) →
  twp parse_fragment (fragment_read file r) r1.
Proof.
  intros [H1 H2 H3] Hroom [Eb Em Ec] Ho Hc Hskip. unfold cursor in *. unfold parse_fragment.
  wp_step. wp_step. unfold id. wp_step. apply wpx_usize_sub; [lia|]. wp_step. apply wpx_slice_from; [done|].
  destruct (Fragment_parse _ _) as [e|[f n]] eqn:E.
  - destruct e; repeat wp_step.
    all: try (by apply Fragment_parse_dropped in E).
    all: try (split; [done|done|done|done| |]; [intros; split; [auto|by rewrite Ec]|done]).
    apply Fragment_parse_corrupt in E; [|done]. rewrite length_drop in E.
    split; [done|done|done|done|auto|]. unfold cursor. cbn. split; [lia|done].
  - apply Fragment_parse_size in E. rewrite length_drop in E. repeat wp_step.
    split; unfold cursor; cbn; [|done|done|lia| |].
    + split; cbn; lia.
    + intros Hr. split; [auto|by rewrite Ec].
    + split; [lia|done].
Qed.

Lemma read_fragment_any file r : reader_ok file r → twp (read_fragment file) (fragment_read file r) r.
Proof.
  intros Hr. pose proof BLOCK_SIZE_bounds as [HB _]. unfold read_fragment. wp_step. wp_step. unfold id. wp_step.
  set (start := λ r1 : RecordReader, reader_ok file r1 ∧ same_flags r r1 ∧ rr_file_offset r ≤ rr_file_offset r1 ∧
    cursor r ≤ cursor r1 ∧ (rr_block_corrupt r = true → rr_file_offset r + BLOCK_SIZE ≤ rr_file_offset r1)).
  apply (wpx_mono _ _ _ (λ _ r1, start r1)).
  { destruct Hr as [H1 H2 H3]. unfold start, cursor. destruct (rr_block_corrupt r) eqn:Ec; wp_step.
    - split_and!; cbn; try lia; [split; cbn; lia|by split].
    - by split_and!; [split|split| | |]. }
  intros _ r1 (Hr1 & Hf1 & Ho1 & Hc1 & Hs1). wp_step. wp_use read_block_remainder_any; [done|].
  intros _ r2 (Hr2 & Hf2 & Eo & Eb). wp_step. wp_step.
  assert (same_flags r r2) as Hf by (destruct Hf1, Hf2; split; congruence).
  assert (rr_file_offset r ≤ rr_file_offset r2 ∧ cursor r ≤ cursor r2 ∧
    (rr_block_corrupt r = true → rr_file_offset r + BLOCK_SIZE ≤ rr_file_offset r2)) as (Ho & Hc & Hs).
  { unfold cursor in *. rewrite Eo, Eb. done. }
  clear r1 Hr1 Hf1 Ho1 Hc1 Hs1 Hf2 Eo Eb start. pose proof Hr2 as [H1 H2 H3]. unfold id. wp_step.
  apply wpx_usize_sub; [lia|]. wp_step. unfold FRAGMENT_HEADER_SIZE. destruct (_ <? 7) eqn:E; b2p.
  2:{ wp_step. by apply parse_fragment_any. }
  wp_step. apply wpx_slice_from; [done|]. destruct (all_zero _) eqn:Ez; cbn [negb].
  2:{ repeat wp_step. destruct Hf as [? ? Ef]. split; [done|done|done|done|auto|]. unfold cursor. cbn. split; [|done].
      destruct (decide (rr_block_offset r2 = length (rr_block r2))) as [El|]; [|lia].
      by rewrite El, drop_all in Ez. }
  destruct (_ =? _) eqn:El; b2p.
  2:{ repeat wp_step. destruct Hf as [? ? Ef]. split; [done|done|done|done| |done]. intros. split; [auto|by rewrite Ef]. }
  wp_step. unfold read_block. wp_step. wp_step. wp_use read_block_remainder_any.
  { split; cbn; lia. }
  intros _ r3 (Hr3 & Hf3 & Eo3 & Eb3). repeat wp_step. cbn in Eo3, Eb3.
  apply parse_fragment_any; unfold cursor in *; rewrite ?Eo3, ?Eb3; [done|lia| |lia|lia|].
  - destruct Hf, Hf3; split; cbn in *; congruence.
  - intros Hx. specialize (Hs Hx). lia.
Qed.

(** How much is left to do: it decreases with every call that does not reach
    the end of the file. *)
Definition rank (file : bytes) (r : RecordReader) : nat :=
  3 * (length file - cursor r) + (length file - rr_file_offset r) +
  (if rr_block_corrupt r then 0 else 1).

Definition gain (res : option RecordReadError) : nat :=
  match res with None | Some Dropped => 3 | Some Corrupt => 1 | Some _ => 0 end.

Definition error_of {A} (res : RecordReadError + A) : option RecordReadError :=
  match res with inl e => Some e | inr _ => None end.

Lemma fragment_read_rank file r res r' :
  fragment_read file r res r' → rank file r' + gain (error_of res) ≤ rank file r.
Proof.
  pose proof BLOCK_SIZE_bounds as [HB _]. intros [_ _ Ho Hc Hs Hres]. unfold rank, cursor in *.
  destruct res as [[]|f]; cbn [error_of gain]; try done.
  - rewrite Hres. lia.
  - destruct Hres as [Hlt ->]. destruct (rr_block_corrupt r); [specialize (Hs eq_refl)|]; lia.
  - rewrite Hres. lia.
  - destruct Hres as [Hle ->]. lia.
Qed.

(** What the loop does, from a buffer that is not ended. *)
Record inner_read (file : bytes) (r : RecordReader) (x : RecordBuffer * option RecordReadError)
    (r' : RecordReader) : Prop := mkInnerRead {
  ir_ok : reader_ok file r';
  ir_buffer : same_buffer r r';
  ir_offset : rr_file_offset r ≤ rr_file_offset r';
  ir_skip : rr_block_corrupt r = true →
    rr_file_offset r + BLOCK_SIZE ≤ rr_file_offset r' ∧ rr_block_corrupt r' = true;
  ir_rank : rank file r' + gain x.2 ≤ rank file r;
  ir_in : x.2 = None → cursor r' ≤ length file;
}.

Lemma fragment_inner file r res r' out e :
  fragment_read file r res r' → gain e ≤ gain (error_of res) → inner_read file r (out, e) r'.
Proof.
  intros Hf Hg. pose proof (fragment_read_rank _ _ _ _ Hf). split; try apply Hf; cbn [snd]; [lia|].
  intros ->. pose proof (fd_res _ _ _ _ Hf) as Hres. destruct res as [[]|]; cbn in Hg; [lia..|done|lia|lia].
Qed.

Lemma read_inner_any file fuel out r :
  reader_ok file r → rb_ended out = false → length file - cursor r < fuel →
  twp (read_inner file fuel out) (inner_read file r) r.
Proof.
  revert out r. induction fuel as [|fuel IH]; intros out r Hr He Hfuel; [lia|].
  cbn [read_inner]. rewrite He. wp_step. wp_use read_fragment_any; [done|]. intros [e|f] r1 Hf.
  { wp_step. by eapply fragment_inner. }
  assert (∀ out', twp (read_inner file fuel out') (inner_read file r) r1) as Hgo.
  { intros out'. destruct (rb_ended out') eqn:E.
    - destruct fuel; cbn [read_inner]; rewrite E; wp_step; by eapply fragment_inner.
    - pose proof (fd_res _ _ _ _ Hf) as [Hc _]. wp_use IH; [apply Hf|done|lia|].
      intros x r2 [H1 H2 H3 H4 H5 H6]. pose proof (fragment_read_rank _ _ _ _ Hf) as Hk.
      destruct Hf as [_ Hb Ho _ Hs Hres]. split; [done|by eapply same_buffer_trans|lia| |cbn [error_of gain] in Hk; lia|done].
      intros E1. destruct (Hs E1) as [? E2]. destruct (H4 E2) as [? E3]. split; [lia|done]. }
  destruct (fr_typ f); destruct (rb_started out); cbn [negb]; try apply Hgo; wp_step;
    (eapply fragment_inner; [done|cbn; lia]).
Qed.

Definition buffer_ended (r : RecordReader) : bool := from_option rb_ended false (rr_output_buffer r).

Lemma reader_ok_buffer file r b : reader_ok file r → reader_ok file (set_output_buffer b r).
Proof. by intros []. Qed.

(** One call of [read_raw], whatever the file holds. *)
Record raw_read (file : bytes) (r : RecordReader) (res : RecordReadError + bytes) (r' : RecordReader)
    : Prop := mkRawRead {
  rd_ok : reader_ok file r';
  rd_skip : rr_block_corrupt r = true → rr_block_corrupt r' = true ∧
    (buffer_ended r = false → rr_file_offset r + BLOCK_SIZE ≤ rr_file_offset r');
  rd_fresh : error_of res = None → rr_output_buffer r' = None;
  rd_in : error_of res = None → buffer_ended r = false → cursor r' ≤ length file;
  rd_rank : at_end (default Corrupt (error_of res)) ∨
    rank file r' + Nat.b2n (buffer_ended r') < rank file r + Nat.b2n (buffer_ended r);
}.

Lemma read_raw_any file r : reader_ok file r → twp (read_raw file) (raw_read file r) r.
Proof.
  intros Hr. unfold read_raw. wp_step. wp_step. change (id r) with r. wp_step. wp_step.
  set (out := default _ (rr_output_buffer r)). set (r0 := set_output_buffer None r).
  assert (rb_ended out = buffer_ended r) as Eout by (unfold buffer_ended, out; by destruct (rr_output_buffer r)).
  assert (rank file r0 = rank file r) as Ek by done.
  wp_step. destruct (buffer_ended r) eqn:Eb.
  { cbn [read_inner]. rewrite Eout. repeat wp_step. split; [by apply reader_ok_buffer|by intros E; split; [|rewrite Eb]|done|by rewrite Eb|].
    right. rewrite Ek, Eb. cbn [buffer_ended r0 set_output_buffer rr_output_buffer from_option Nat.b2n]. lia. }
  wp_use read_inner_any; [by apply reader_ok_buffer|done|unfold cursor; cbn; lia|].
  intros [out' e] r1 [H1 [H2 _] H3 H4 H5 H6]. cbn [snd] in H5. change (rr_output_buffer r0) with (@None RecordBuffer) in H2.
  assert (rr_block_corrupt r = true → rr_block_corrupt r1 = true ∧
    (buffer_ended r = false → rr_file_offset r + BLOCK_SIZE ≤ rr_file_offset r1)) as Hs.
  { intros E. by destruct (H4 E). }
  assert (∀ b, rank file (set_output_buffer b r1) = rank file r1) as Es by done.
  assert (buffer_ended r1 = false) as E1 by (unfold buffer_ended; by rewrite H2).
  destruct e as [[]|]; cbn [gain] in H5; repeat wp_step.
  all: try (split; [by apply reader_ok_buffer|exact Hs|done|done|]); try (split; [done|exact Hs|done|done|]).
  all: try (split; [done|exact Hs|done|intros _ _; by apply H6|]).
  all: rewrite ?Eb, ?E1; cbn [Nat.b2n error_of default from_option].
  - left. by destruct (rb_started out'); [right|left].
  - right. lia.
  - right. rewrite Es. destruct (buffer_ended (set_output_buffer (Some out') r1)); cbn [Nat.b2n]; lia.
  - left. by right.
  - right. lia.
Qed.

(** Read until the end is reported, past other errors. *)
Fixpoint drain (fuel : nat) (file : bytes) : M RecordReader (list (RecordReadError + bytes) * RecordReadError) :=
  match fuel with
  | O => out_of_fuel
  | S fuel =>
    let! res := read_raw file in
    match res with
    | inl EndOfFile => ret ([], EndOfFile)
    | inl Incomplete => ret ([], Incomplete)
    | _ => let! (l, e) := drain fuel file in ret (res :: l, e)
    end
  end.

Lemma drain_any file fuel r :
  reader_ok file r → rank file r + Nat.b2n (buffer_ended r) < fuel →
  twp (drain fuel file) (λ x r', at_end x.2 ∧ reader_ok file r') r.
Proof.
  revert r. induction fuel as [|fuel IH]; intros r Hr Hfuel; [lia|]. cbn [drain]. wp_step.
  wp_use read_raw_any; [done|]. intros res r1 [H1 _ _ _ Hk].
  assert (∀ y, (at_end (default Corrupt (error_of y)) → False) → y = res →
    twp (let! (l, e) := drain fuel file in ret (res :: l, e)) (λ x r', at_end x.2 ∧ reader_ok file r') r1) as Hgo.
  { intros y Hy ->. wp_step. wp_use IH; [done|destruct Hk; [done|lia]|]. intros [l e] r2 H2. by wp_step. }
  destruct res as [[]|d]; try (wp_step; cbn; split; [by (left + right)|done]);
    (eapply Hgo; [|done]; intros [|]; done).
Qed.

Lemma rank_bound file r : rank file r ≤ 4 * length file + 1.
Proof. unfold rank. destruct (rr_block_corrupt r); lia. Qed.

(** Read a file to its end after each of the appends [chunks] to it. *)
Fixpoint poll (file : bytes) (chunks : list bytes)
    : M RecordReader (list (list (RecordReadError + bytes) * RecordReadError)) :=
  match chunks with
  | [] => ret []
  | chunk :: chunks =>
    let! x := drain (4 * length (file ++ chunk) + 3) (file ++ chunk) in
    let! xs := poll (file ++ chunk) chunks in
    ret (x :: xs)
  end.

Lemma poll_any file chunks r :
  reader_ok file r →
  twp (poll file chunks) (λ xs _, length xs = length chunks ∧ Forall (λ x, at_end x.2) xs) r.
Proof.
  revert file r. induction chunks as [|c chunks IH]; intros file r Hr; cbn [poll]; [by wp_step|].
  assert (reader_ok (file ++ c) r) as Hc by (eapply reader_ok_grow; [|done]; by apply prefix_app_r).
  wp_step. wp_use drain_any; [done|pose proof (rank_bound (file ++ c) r); destruct (buffer_ended r); cbn [Nat.b2n]; lia|].
  intros x r1 [Hx Hr1]. wp_step. wp_use IH; [done|]. intros xs r2 [El Hxs]. wp_step.
  split; [cbn; by rewrite El|by constructor].
Qed.

(** ** The first [k] records *)

Lemma append_records_grow ds w w' :
  writer_ok w → append_records ds w = Done (tt, w') → length (rw_file w) ≤ length (rw_file w').
Proof.
  intros Hw. destruct (append_records_ok ds w Hw) as (rs & fs & _ & _ & _ & -> & _). intros [= <-].
  cbn. rewrite length_app. lia.
Qed.

Lemma writer_ok_new : writer_ok RecordWriter_new.
Proof. done. Qed.

Lemma take_length_le {A} (l x : list A) : x `prefix_of` l → take (length x) l = x.
Proof. intros [y ->]. apply take_app_length. Qed.

(** The longer prefixes of the records are longer files. *)
Lemma append_records_after ds i j wi wj :
  append_records (take j ds) RecordWriter_new = Done (tt, wj) →
  append_records (take i ds) RecordWriter_new = Done (tt, wi) → j ≤ i →
  length (rw_file wj) ≤ length (rw_file wi).
Proof.
  intros Hj Hi Hle. rewrite <- (take_drop j (take i ds)), take_take, Nat.min_l in Hi by done.
  rewrite (append_records_split _ _ _ _ Hj) in Hi. eapply append_records_grow; [|exact Hi].
  by eapply writer_ok_records; [apply writer_ok_new|].
Qed.

(** Every record takes some bytes. *)
Lemma chains_length p rs fs : chains p rs fs → (p + length rs ≤ last_end p rs)%nat.
Proof.
  induction 1 as [p|p d ds cur later Hc _ IH]; [cbn; lia|]. cbn [length]. change (last_end p ((d, end_of p cur) :: ds)) with (last_end (end_of p cur) ds).
  assert (p < end_of p cur)%nat; [|lia]. destruct cur as [|f cur]; [by inversion Hc|]. cbn [end_of].
  pose proof (end_of_le (align p + fsize f) cur). pose proof (align_le p). unfold fsize in *. lia.
Qed.

(** A file as the writer leaves it: the records with the offsets after them,
    and the reader at its beginning. *)
Lemma written_records ds :
  ∃ w rs, append_records ds RecordWriter_new = Done (tt, w) ∧ rs.*1 = ds ∧
    (∀ file, stream_at (rw_file w) file RecordReader_open 0 rs) ∧
    (∀ k, ∃ wk, append_records (take k ds) RecordWriter_new = Done (tt, wk) ∧
      rw_file wk `prefix_of` rw_file w ∧ rw_extent wk = length (rw_file wk) ∧
      rw_extent wk = last_end 0 (take k rs)) ∧
    (length rs ≤ length (rw_file w))%nat.
Proof.
  destruct (append_records_ok ds RecordWriter_new writer_ok_new) as (rs & fs & Hc & Hrs & Hf & Hrun & Hpre).
  assert (∀ k, ∃ wk, append_records (take k ds) RecordWriter_new = Done (tt, wk) ∧
    rw_file wk `prefix_of` rw_file (mkRecordWriter (rw_file RecordWriter_new ++ place (rw_extent RecordWriter_new) fs) (end_of (rw_extent RecordWriter_new) fs)) ∧
    rw_extent wk = length (rw_file wk) ∧ rw_extent wk = last_end 0 (take k rs)) as Hk.
  { intros k. destruct (Hpre k) as (file & Hk & Hle). eexists. split_and!; [exact Hk|done| |done].
    by apply (writer_ok_records _ _ _ writer_ok_new Hk). }
  eexists _, rs. split_and!; [exact Hrun|done| |exact Hk|].
  - intros file. by eapply open_stream.
  - pose proof (chains_length _ _ _ Hc) as Hlen. rewrite <- (end_of_chains _ _ _ Hc) in Hlen. cbn in Hlen |- *. pose proof (length_place 0 fs). lia.
Qed.

Lemma written ds :
  ∃ w rs, append_records ds RecordWriter_new = Done (tt, w) ∧ rs.*1 = ds ∧
    (∀ file, stream_at (rw_file w) file RecordReader_open 0 rs) ∧
    (∀ k, ∃ wk, append_records (take k ds) RecordWriter_new = Done (tt, wk) ∧
      rw_file wk `prefix_of` rw_file w ∧ rw_extent wk = length (rw_file wk) ∧
      rw_extent wk = last_end 0 (take k rs)).
Proof. destruct (written_records ds) as (w & rs & H1 & H2 & H3 & H4 & _). by exists w, rs. Qed.

(** The first [j] of the records [ds] and no more end within [len] bytes. *)
Record longest (ds : list bytes) (len j : nat) : Prop := mkLongest {
  lo_le : j ≤ length ds;
  lo_in wj : append_records (take j ds) RecordWriter_new = Done (tt, wj) → length (rw_file wj) ≤ len;
  lo_max i wi : j < i ≤ length ds → append_records (take i ds) RecordWriter_new = Done (tt, wi) →
    len < length (rw_file wi);
}.

Lemma complete_longest ds rs len j :
  rs.*1 = ds → complete len rs j →
  (∀ k, ∃ wk, append_records (take k ds) RecordWriter_new = Done (tt, wk) ∧
    rw_extent wk = length (rw_file wk) ∧ rw_extent wk = last_end 0 (take k rs)) →
  longest ds len j.
Proof.
  intros Hrs Hco Hpre. assert (length rs = length ds) as El by (rewrite <- Hrs; by rewrite length_fmap).
  pose proof (co_le _ _ _ Hco) as Hj. split; [lia| |].
  - intros wj Hwj. destruct (Hpre j) as (w1 & Hw1 & E1 & E2). rewrite Hwj in Hw1. injection Hw1 as <-.
    rewrite <- E1, E2. apply complete_last_end; [lia|done].
  - intros i wi Hij Hwi. destruct (Hpre (S j)) as (w1 & Hw1 & E1 & E2).
    pose proof (append_records_after _ _ _ _ _ Hw1 Hwi ltac:(lia)) as Hgrow.
    destruct (lookup_lt_is_Some_2 rs j ltac:(lia)) as [[d x] E]. pose proof (co_next _ _ _ Hco _ _ E) as Hx.
    unfold last_end in E2. rewrite (take_S_r _ _ _ E), foldl_app in E2. cbn in E2. lia.
Qed.

(** Read the file after each of the growths [ns] of it, at first by [len]. *)
Fixpoint follow (fuel : nat) (F : bytes) (len : nat) (ns : list nat) : M RecordReader (list bytes) :=
  match ns with
  | [] => ret []
  | n :: ns =>
    let! (ds, _) := read_records fuel (take (len + n) F) in
    let! ds' := follow fuel F (len + n) ns in
    ret (ds ++ ds')
  end.

Lemma complete_drop len ds k j : complete len (drop k ds) j → k ≤ length ds →
  (∀ i d x, i < k → ds !! i = Some (d, x) → x ≤ len) → complete len ds (k + j).
Proof.
  intros [H1 H2 H3] Hk Hin. rewrite length_drop in H1. split; [lia| |].
  - intros i d x Hi E. destruct (decide (i < k)); [by eapply Hin|].
    apply (H2 (i - k) d x); [lia|]. rewrite lookup_drop. by replace (k + (i - k)) with i by lia.
  - intros d x E. apply (H3 d x). by rewrite lookup_drop.
Qed.

Lemma follow_stream F fuel ns n len r q ds :
  stream_at F (take len F) r q ds → length ds < fuel →
  ∃ k r', follow fuel F len (n :: ns) r = Done (take k ds.*1, r') ∧
    complete (length (take (len + n + sum_list ns) F)) ds k.
Proof.
  revert n len r q ds. induction ns as [|n' ns IH]; intros n len r q ds Hst Hfuel;
    assert (take len F `prefix_of` take (len + n) F) as Hg by (rewrite <- take_take_drop; by apply prefix_app_r);
    destruct (read_records_stream F (take (len + n) F) fuel r q ds) as (k & e & r1 & out & Hrun & He & Hco & Hst1 & _);
    try done; try (by eapply stream_at_grow); try (by apply prefix_take).
  - exists k, r1. cbn [follow sum_list foldr]. unfold bind. rewrite Hrun. cbn. rewrite app_nil_r.
    split; [done|]. by rewrite Nat.add_0_r.
  - destruct (IH n' (len + n) r1 _ (drop k ds) Hst1) as (j & r2 & Hrun2 & Hco2).
    { rewrite length_drop. lia. }
    exists (k + j), r2. remember (n' :: ns) as ms. cbn [follow]. unfold bind. rewrite Hrun, Hrun2. subst ms. split.
    + cbn [ret]. do 2 f_equal. rewrite fmap_drop. by rewrite take_take_drop.
    + cbn [sum_list foldr]. rewrite Nat.add_assoc. apply complete_drop; [done|apply Hco|].
      intros i d x Hi E. pose proof (co_in _ _ _ Hco i d x Hi E) as Hx. rewrite length_take in *. lia.
Qed.

(** Two fragments in the first block. *)
Lemma ahead_two f g :
  fr_typ f ≠ ZERO → fr_typ g ≠ ZERO → fsize f + fsize g ≤ BLOCK_SIZE →
  ahead (encode f ++ encode g) 0 [f; g] ∧ align 0 = 0 ∧ align (fsize f) = fsize f.
Proof.
  pose proof BLOCK_SIZE_bounds as [HB _]. intros Hf Hg Hlen.
  assert (∀ p, p + 7 ≤ BLOCK_SIZE → align p = p) as Ha by (intros p Hp; apply (align_here 0 p); lia).
  assert (align 0 = 0 ∧ align (fsize f) = fsize f) as [E0 E1] by (unfold fsize in *; split; apply Ha; lia).
  split; [|exact (conj E0 E1)]. unfold ahead. cbn [fits place]. rewrite E0. cbn [Nat.add]. rewrite E1, !Nat.sub_diag. cbn [replicate app drop].
  rewrite app_nil_r, !Nat.mod_small by (unfold fsize in *; lia).
  split_and!; [split; [exact Hf|lia]|lia|split; [exact Hg|lia]|lia|exact I|reflexivity].
Qed.

(** A file whose first block is damaged, with two records in the second. *)
Definition damaged : bytes :=
  replicate BLOCK_SIZE 1%Z ++
  match append_records [[1%Z]; [2%Z]] RecordWriter_new with Done (_, w) => rw_file w | _ => [] end.

Definition damaged_run : run (list bytes * RecordReadError * RecordReader) :=
  match read_raw damaged RecordReader_open with
  | Done (inl Corrupt, r) => read_records 3 damaged r
  | _ => Panicked
  end.

Lemma damaged_runs :
  match read_raw damaged RecordReader_open with
  | Done (inl Corrupt, r) => rr_block_corrupt r && bool_decide (rr_file_offset r = 0) &&
      match rr_output_buffer r with None => true | Some _ => false end
  | _ => false
  end = true ∧
  match damaged_run with
  | Done (ds, EndOfFile, _) => bool_decide (ds = [[1%Z]])
  | _ => false
  end = true.
Proof. by vm_compute. Qed.

(** ** Properties *)

(** C29: crash recovery of a log. Whatever records are written and wherever the
    file is cut, the reader returns exactly the records that are complete in
    the cut file and then reports its end, and [into_writer] gives the writer
    that had written exactly these records. *)
Theorem record_log_recovery (ds : list bytes) (n : nat) :
  ∃ w j e r r' wj, append_records ds RecordWriter_new = Done (tt, w) ∧
    let cut := take n (rw_file w) in
    longest ds (length cut) j ∧ append_records (take j ds) RecordWriter_new = Done (tt, wj) ∧
    read_records (S (length ds)) cut RecordReader_open = Done (take j ds, e, r) ∧ at_end e ∧
    into_writer cut true r = Done (Some (Some wj), r').
Proof.
  destruct (written ds) as (w & rs & Hrun & Hrs & Hopen & Hpre). set (cut := take n (rw_file w)).
  assert (cut `prefix_of` rw_file w) as Hcut by apply prefix_take.
  assert (length rs = length ds) as El by (rewrite <- Hrs; by rewrite length_fmap).
  destruct (read_records_stream (rw_file w) cut (S (length ds)) RecordReader_open 0 rs)
    as (j & e & r & out & Hread & He & Hco & Hst & _); [done|apply Hopen|lia|].
  destruct (Hpre j) as (wj & Hwj & Hpj & Ewj & Elast).
  pose proof (complete_last_end 0 _ _ _ (Nat.le_0_l _) Hco) as Hle.
  destruct (into_writer_stream (rw_file w) cut r _ _ Hcut Hst Hle) as [r' Hinto].
  { intros d x. rewrite lookup_drop, Nat.add_0_r. apply Hco. }
  exists w, j, e, r, r', wj. rewrite Hrs in Hread. split; [done|]. cbn zeta. fold cut. split_and!; try done.
  - eapply complete_longest; [done|done|]. intros k. destruct (Hpre k) as (wk & ? & _ & ? & ?). by exists wk.
  - rewrite Hinto. do 4 f_equal. destruct wj as [fj ej]. cbn in *. rewrite <- Elast, Ewj. f_equal.
    unfold cut in *. rewrite length_take in Hle. rewrite take_take, Nat.min_l by lia. by apply take_length_le.
Qed.

(** A reader can follow a file that is still written. However the growth of
    the file is cut into pieces and read in between, the records returned are
    together those that a new reader returns from the file at the end. *)
Theorem record_log_tailing (ds : list bytes) (n : nat) (ns : list nat) :
  ∃ w out e r r', append_records ds RecordWriter_new = Done (tt, w) ∧
    follow (S (length ds)) (rw_file w) 0 (n :: ns) RecordReader_open = Done (out, r) ∧
    read_records (S (length ds)) (take (n + sum_list ns) (rw_file w)) RecordReader_open = Done (out, e, r').
Proof.
  destruct (written ds) as (w & rs & Hrun & Hrs & Hopen & _).
  assert (length rs = length ds) as El by (rewrite <- Hrs; by rewrite length_fmap).
  destruct (follow_stream (rw_file w) (S (length ds)) ns n 0 RecordReader_open 0 rs)
    as (k & r & Hf & Hk); [apply Hopen|lia|].
  destruct (read_records_stream (rw_file w) (take (n + sum_list ns) (rw_file w)) (S (length ds))
    RecordReader_open 0 rs) as (k' & e & r' & out & Hr & _ & Hk' & _); [apply prefix_take|apply Hopen|lia|].
  rewrite <- (complete_unique _ _ _ _ Hk Hk') in Hr. by exists w, (take k rs.*1), e, r, r'.
Qed.

(** C30: reading ends, without a panic, on a file with any contents: however a
    file grows, a caller that reads on past corrupt and dropped records
    reaches the end of the file after each append, within a number of calls
    linear in the size of the file. *)
Theorem record_reader_terminates (chunks : list bytes) :
  ∃ xs r, poll [] chunks RecordReader_open = Done (xs, r) ∧
    length xs = length chunks ∧ Forall (λ x, at_end x.2) xs.
Proof.
  pose proof (poll_any [] chunks RecordReader_open (reader_ok_open [])) as H. unfold wpx in H.
  destruct (poll [] chunks RecordReader_open) as [[xs r]| |]; [|done..]. by exists xs, r.
Qed.

(** After one corrupt block the reader returns at most one record of each
    later block, because the mark of the corrupt block is never removed and
    every later read skips the rest of its block. *)
Theorem corrupt_reader_skips file fuel r ds e r' :
  reader_ok file r → rr_block_corrupt r = true → rr_output_buffer r = None → ds ≠ [] →
  read_records fuel file r = Done (ds, e, r') →
  rr_file_offset r + length ds * BLOCK_SIZE ≤ length file.
Proof.
  revert r ds e r'. induction fuel as [|fuel IH]; [done|]. intros r ds e r' Hr Hc Hb Hne. cbn [read_records].
  pose proof (read_raw_any file r Hr) as Hraw. unfold bind. unfold wpx in Hraw.
  destruct (read_raw file r) as [[[e1|d] r1]| |]; [by intros [= <- _ _]| |done..].
  destruct Hraw as [Hr1 Hs Hf Hin _]. destruct (Hs Hc) as [Hc1 Hs1].
  assert (buffer_ended r = false) as Eb by (unfold buffer_ended; by rewrite Hb).
  specialize (Hs1 Eb). specialize (Hin eq_refl Eb). unfold cursor in Hin.
  destruct (read_records fuel file r1) as [[[ds1 e1] r2]| |] eqn:Hrun; [|done..]. intros [= <- _ _].
  destruct ds1 as [|d1 ds1]; [cbn; lia|].
  pose proof (IH r1 (d1 :: ds1) _ _ Hr1 Hc1 (Hf eq_refl) ltac:(done) Hrun). cbn [length] in *. lia.
Qed.

Lemma corrupt_reader_skips_witness :
  ∃ r r', read_raw damaged RecordReader_open = Done (inl Corrupt, r) ∧
    read_records 3 damaged r = Done ([[1%Z]], EndOfFile, r') ∧
    rr_file_offset r + 1 * BLOCK_SIZE ≤ length damaged.
Proof.
  destruct damaged_runs as [H1 H2]. unfold damaged_run in H2.
  pose proof (read_raw_any damaged _ (reader_ok_open damaged)) as Hraw. unfold wpx in Hraw.
  destruct (read_raw damaged RecordReader_open) as [[[[]|] r]| |]; try done.
  destruct (read_records 3 damaged r) as [[[ds []] r']| |] eqn:Hrun; try done.
  apply bool_decide_eq_true in H2 as ->. apply andb_prop in H1 as [H1 Hb].
  apply andb_prop in H1 as [Hc _]. exists r, r'. split; [done|]. split; [done|].
  refine (corrupt_reader_skips damaged 3 r [[1%Z]] EndOfFile r' (rd_ok _ _ _ _ Hraw) Hc _ _ Hrun).
  - by destruct (rr_output_buffer r).
  - done.
Defined.

(** The data of a record that was reported as dropped is returned as the
    beginning of the next record: a first fragment [a] that is followed by a
    complete record [b] gives the error and then the record [a ++ b], which was
    never written. *)
Theorem dropped_data_returned (a b : bytes) :
  14 + length a + length b ≤ BLOCK_SIZE →
  let file := encode (mkFragment FIRST a) ++ encode (mkFragment FULL b) in
  ∃ r r', read_raw file RecordReader_open = Done (inl Dropped, r) ∧ read_raw file r = Done (inr (a ++ b), r').
Proof.
  intros Hlen file. set (f := mkFragment FIRST a). set (g := mkFragment FULL b).
  destruct (ahead_two f g) as (Hah & E0 & E1); [done|done|unfold fsize; cbn [f g fr_data]; lia|].
  assert (at_pos file RecordReader_open 0) as Hpos.
  { exists 0, 0. split; [|done]. split; [done|done|cbn; lia|apply prefix_nil|cbn; lia|done]. }
  assert (length file = fsize f + fsize g) as El by (unfold file; by rewrite length_app, !length_encode_fragment).
  pose proof (read_fragment_step file file _ 0 f [g] (reflexivity _) Hpos Hah) as S1. unfold stepped in S1.
  rewrite E0, decide_True in S1 by lia. destruct S1 as (r1 & Hr1 & _ & Hp1 & Hah1). cbn [Nat.add] in Hp1, Hah1.
  pose proof (read_fragment_step file file _ (fsize f) g [] (reflexivity _) Hp1 Hah1) as S2. unfold stepped in S2.
  rewrite E1, decide_True in S2 by lia. destruct S2 as (r2 & Hr2 & _).
  assert (length file = S (length file - 1)) as En by (rewrite El; unfold fsize; lia).
  set (out1 := mkRecordBuffer true false 0 a). set (out2 := mkRecordBuffer true true 0 (a ++ b)).
  assert (read_inner file (S (length file)) (mkRecordBuffer false false 0 []) RecordReader_open =
    Done (out2, Some Dropped, r2)) as Hinner.
  { rewrite En. cbn [read_inner rb_ended]. unfold bind. rewrite Hr1. cbn [fr_typ f rb_started rb_ended].
    rewrite Hr2. reflexivity. }
  exists (set_output_buffer (Some out2) r2), (set_output_buffer None r2). split; unfold read_raw, bind.
  - change (gets id RecordReader_open) with (Done (RecordReader_open, RecordReader_open)).
    unfold modify at 1. cbn beta iota zeta. cbn [rr_output_buffer RecordReader_open from_option].
    change (set_output_buffer None _) with RecordReader_open.
    cbn [rr_file_offset rr_block_offset RecordReader_open Nat.add]. rewrite Hinner. reflexivity.
  - cbn [read_inner rb_ended out2]. reflexivity.
Qed.

Lemma dropped_data_returned_witness :
  let file := encode (mkFragment FIRST [1%Z]) ++ encode (mkFragment FULL [2%Z]) in
  ∃ r r', read_raw file RecordReader_open = Done (inl Dropped, r) ∧ read_raw file r = Done (inr [1%Z; 2%Z], r').
Proof.
  apply (dropped_data_returned [1%Z] [2%Z]). pose proof BLOCK_SIZE_Z. cbn [length]. lia.
Defined.
