(* ===== verification/Comparator.v ===== *)
(** * Key order

    The [KeyComparator] trait and [BytewiseComparator] of
    src/pkg/sstable/src/table/comparator.rs, [InternalKey] and
    [InternalKeyComparator] of src/pkg/sstable/src/db/internal_key.rs.
    A trait object is a record of its methods; a method that can panic
    returns [None] then. *)

From S2P Require Import Prelude Wire Encoding.

(** [dyn KeyComparator] *)
Record KeyComparator := mkKeyComparator {
  kc_compare : bytes → bytes → option comparison;
  kc_find_shortest_separator : bytes → bytes → option bytes;
  kc_find_short_successor : bytes → option bytes;
}.

(** ** BytewiseComparator *)

(** [a.cmp(b)] on byte slices *)
Fixpoint bytes_compare (a b : bytes) : comparison :=
  match a, b with
  | [], [] => Eq
  | [], _ :: _ => Lt
  | _ :: _, [] => Gt
  | x :: a', y :: b' => match x ?= y with Eq => bytes_compare a' b' | c => c end
  end.

(** The [while] loop: the length of the common prefix. *)
Fixpoint diff_index (a b : bytes) : nat :=
  match a, b with
  | x :: a', y :: b' => if x =? y then S (diff_index a' b') else O
  | _, _ => O
  end.

(** The [for] loop over the [n] indexes from [i] on. *)
Fixpoint increment_loop (n i : nat) (start limit : bytes) : bytes :=
  match n with
  | O => start
  | S n' =>
    match start !! i, limit !! i with
    | Some s, Some l =>
      if (s <? 255) && (s + 1 <? l) then take i start ++ [s + 1]
      else increment_loop n' (S i) start limit
    | _, _ => start
    end
  end.

Definition bytewise_find_shortest_separator (start limit : bytes) : bytes :=
  let min_length := Nat.min (length start) (length limit) in
  let d := diff_index start limit in
  if (min_length <=? d)%nat then start
  else increment_loop (min_length - d) d start limit.

(** [for i in (0..key.len()).rev()], [n] indexes left *)
Fixpoint successor_loop (n : nat) (key : bytes) : bytes :=
  match n with
  | O => key
  | S i =>
    match key !! i with
    | Some b => if negb (b =? 255) then take i key ++ [b + 1] else successor_loop i key
    | None => key
    end
  end.

Definition bytewise_find_short_successor (key : bytes) : bytes :=
  successor_loop (length key) key.

Definition BytewiseComparator : KeyComparator := mkKeyComparator
  (λ a b, Some (bytes_compare a b))
  (λ a b, Some (bytewise_find_shortest_separator a b))
  (λ a, Some (bytewise_find_short_successor a)).

(** ** Internal keys *)

Inductive ValueType :=
| Deletion | Value | Merge | LogData | ColumnFamilyDeletion | ColumnFamilyValue
| ColumnFamilyMerge | SingleDeletion | ColumnFamilySingleDeletion | BeginPrepareXID
| EndPrepareXID | CommitXID | RollbackXID | NoopType | ColumnFamilyRangeDeletion
| RangeDeletion | ColumnFamilyBlobIndex | BlobIndex | BeginPersistedPrepareXID
| BeginUnprepareXID | MaxValueType.

Definition ValueType_to_value (t : ValueType) : Z :=
  match t with
  | Deletion => 0 | Value => 1 | Merge => 2 | LogData => 3 | ColumnFamilyDeletion => 4
  | ColumnFamilyValue => 5 | ColumnFamilyMerge => 6 | SingleDeletion => 7
  | ColumnFamilySingleDeletion => 8 | BeginPrepareXID => 9 | EndPrepareXID => 10
  | CommitXID => 11 | RollbackXID => 12 | NoopType => 13 | ColumnFamilyRangeDeletion => 14
  | RangeDeletion => 15 | ColumnFamilyBlobIndex => 16 | BlobIndex => 17
  | BeginPersistedPrepareXID => 18 | BeginUnprepareXID => 19 | MaxValueType => 255
  end.

Definition value_types : list ValueType :=
  [Deletion; Value; Merge; LogData; ColumnFamilyDeletion; ColumnFamilyValue;
   ColumnFamilyMerge; SingleDeletion; ColumnFamilySingleDeletion; BeginPrepareXID;
   EndPrepareXID; CommitXID; RollbackXID; NoopType; ColumnFamilyRangeDeletion;
   RangeDeletion; ColumnFamilyBlobIndex; BlobIndex; BeginPersistedPrepareXID;
   BeginUnprepareXID; MaxValueType].

Definition ValueType_from_value (v : Z) : Result ValueType :=
  match List.find (λ t, ValueType_to_value t =? v) value_types with
  | Some t => inr t
  | None => inl EUnknownValueType
  end.

Definition MAX_SEQUENCE : Z := 2 ^ 56 - 1.

Record InternalKey := mkInternalKey {
  ik_user_key : bytes;
  ik_sequence : Z;
  ik_typ : ValueType;
}.

Definition InternalKey_parse (input : bytes) : Result InternalKey :=
  ok! _ := min_size input 8 in
  let user_key := take (length input - 8) input in
  let rest := drop (length input - 8) input in
  let num := from_le_bytes (take 8 rest) in
  ok! typ := ValueType_from_value (Z.land num 255) in
  inr (mkInternalKey user_key (Z.shiftr num 8) typ).

(** [InternalKey::user_key], which asserts the length. *)
Definition InternalKey_user_key (input : bytes) : option bytes :=
  if (length input <? 8)%nat then None else Some (take (length input - 8) input).

Definition InternalKey_before_with_sequence (user_key : bytes) (sequence : Z) : InternalKey :=
  mkInternalKey user_key sequence MaxValueType.

Definition InternalKey_before (user_key : bytes) : InternalKey :=
  InternalKey_before_with_sequence user_key MAX_SEQUENCE.

(** [(self.sequence << 8) | (self.typ as u64)] on u64 *)
Definition InternalKey_serialized (k : InternalKey) : bytes :=
  ik_user_key k ++
  to_le_bytes 8 (Z.lor (Z.shiftl (ik_sequence k) 8 mod U64) (ValueType_to_value (ik_typ k))).

Section InternalKeyComparator.
Variable user : KeyComparator.

Definition internal_compare (a b : bytes) : option comparison :=
  match InternalKey_parse a, InternalKey_parse b with
  | inr a_ik, inr b_ik =>
    c ← kc_compare user (ik_user_key a_ik) (ik_user_key b_ik);
    Some match c with
         | Eq => ik_sequence b_ik ?= ik_sequence a_ik
         | o => o
         end
  | _, _ => None
  end.

(** The last 8 bytes are kept ([start.len() - 8] panics on a short key). *)
Definition internal_find_shortest_separator (start limit : bytes) : option bytes :=
  if (length start <? 8)%nat then None else
  let tail := drop (length start - 8) start in
  limit ← InternalKey_user_key limit;
  sep ← kc_find_shortest_separator user (take (length start - 8) start) limit;
  Some (sep ++ tail).

Definition internal_find_short_successor (key : bytes) : option bytes :=
  if (length key <? 8)%nat then None else
  let tail := drop (length key - 8) key in
  succ ← kc_find_short_successor user (take (length key - 8) key);
  Some (succ ++ tail).

Definition InternalKeyComparator : KeyComparator := mkKeyComparator
  internal_compare internal_find_shortest_separator internal_find_short_successor.
End InternalKeyComparator.

(** ** What a comparator promises *)

Class KeyComparatorLaws (c : KeyComparator) := {
  kc_key : bytes → Prop;
  kc_le : relation bytes;
  kc_le_dec :: RelDecision kc_le;
  kc_le_preorder :: PreOrder kc_le;
  kc_le_total a b : kc_le a b ∨ kc_le b a;
  kc_compare_spec a b : kc_key a → kc_key b →
    ∃ o, kc_compare c a b = Some o ∧
      match o with
      | Lt => ¬ kc_le b a
      | Eq => kc_le a b ∧ kc_le b a
      | Gt => ¬ kc_le a b
      end;
  (* a key between [start] and [limit] *)
  kc_separator_spec start limit : kc_key start → kc_key limit → ¬ kc_le limit start →
    ∃ sep, kc_find_shortest_separator c start limit = Some sep ∧ kc_key sep ∧
      kc_le start sep ∧ ¬ kc_le limit sep;
  (* [start] itself when nothing is between *)
  kc_separator_same start limit : kc_key start → kc_key limit → kc_le start limit → kc_le limit start →
    ∃ sep, kc_find_shortest_separator c start limit = Some sep ∧ kc_key sep ∧
      kc_le start sep ∧ kc_le sep start;
  (* a key from [key] on *)
  kc_successor_spec key : kc_key key →
    ∃ succ, kc_find_short_successor c key = Some succ ∧ kc_key succ ∧ kc_le key succ;
  (* neither is longer *)
  kc_separator_length start limit sep : kc_key start → kc_key limit → kc_le start limit →
    kc_find_shortest_separator c start limit = Some sep → (length sep ≤ length start)%nat;
  kc_successor_length key succ : kc_key key →
    kc_find_short_successor c key = Some succ → (length succ ≤ length key)%nat;
}.

(** ** The bytewise order *)

Definition byte (b : Z) : Prop := 0 ≤ b < 256.

Definition bytes_le (a b : bytes) : Prop := bytes_compare a b ≠ Gt.

Lemma bytes_compare_refl a : bytes_compare a a = Eq.
Proof. induction a as [|x a IH]; cbn; [done|]. by rewrite Z.compare_refl. Qed.

Lemma bytes_compare_antisym a b : bytes_compare b a = CompOpp (bytes_compare a b).
Proof.
  revert b. induction a as [|x a IH]; intros [|y b]; cbn; try done.
  rewrite (Z.compare_antisym x y). destruct (x ?= y); cbn; auto.
Qed.

Lemma bytes_compare_Eq a b : bytes_compare a b = Eq → a = b.
Proof.
  revert b. induction a as [|x a IH]; intros [|y b]; cbn; try done.
  destruct (x ?= y) eqn:E; try done. apply Z.compare_eq in E as ->. intros H. f_equal. auto.
Qed.

Lemma bytes_compare_Lt_trans a b c :
  bytes_compare a b = Lt → bytes_compare b c = Lt → bytes_compare a c = Lt.
Proof.
  revert b c. induction a as [|x a IH]; intros [|y b] [|z c]; cbn; try done.
  destruct (x ?= y) eqn:E1; try done.
  - apply Z.compare_eq in E1 as ->. destruct (y ?= z) eqn:E2; try done. intros. eauto.
  - intros _. rewrite Z.compare_lt_iff in E1. destruct (y ?= z) eqn:E2; try done.
    + apply Z.compare_eq in E2 as ->. by rewrite (proj2 (Z.compare_lt_iff x z)).
    + rewrite Z.compare_lt_iff in E2. by rewrite (proj2 (Z.compare_lt_iff x z)) by lia.
Qed.

Lemma bytes_le_iff a b : bytes_le a b ↔ bytes_compare a b = Lt ∨ a = b.
Proof.
  unfold bytes_le. split.
  - destruct (bytes_compare a b) eqn:E; [right; by apply bytes_compare_Eq|by left|done].
  - intros [->| ->]; [done|]. by rewrite bytes_compare_refl.
Qed.

#[export] Instance bytes_le_preorder : PreOrder bytes_le.
Proof.
  split.
  - intros a. apply bytes_le_iff. by right.
  - intros a b c. rewrite !bytes_le_iff. intros [H1| ->] [H2| ->]; auto.
    left. by eapply bytes_compare_Lt_trans.
Qed.

Lemma bytes_le_total a b : bytes_le a b ∨ bytes_le b a.
Proof.
  unfold bytes_le. rewrite (bytes_compare_antisym a b). destruct (bytes_compare a b); cbn; auto.
Qed.

Lemma bytes_not_le a b : ¬ bytes_le b a ↔ bytes_compare a b = Lt.
Proof.
  unfold bytes_le. rewrite (bytes_compare_antisym a b). destruct (bytes_compare a b); cbn; naive_solver.
Qed.

Lemma bytes_compare_app p a b : bytes_compare (p ++ a) (p ++ b) = bytes_compare a b.
Proof. induction p as [|x p IH]; cbn; [done|]. by rewrite Z.compare_refl. Qed.

(** A list is below one that agrees up to a larger byte. *)
Lemma bytes_compare_bump p x y a b : x < y → bytes_compare (p ++ x :: a) (p ++ y :: b) = Lt.
Proof.
  intros Hxy. rewrite bytes_compare_app. cbn. by rewrite (proj2 (Z.compare_lt_iff x y)).
Qed.

Lemma lookup_split {A} (l : list A) i x : l !! i = Some x → l = take i l ++ x :: drop (S i) l.
Proof. intros Hi. by rewrite <- (take_drop_middle l i x Hi) at 1. Qed.

(** Where [diff_index] stops inside both, the bytes differ. *)
Lemma diff_index_spec a b :
  (diff_index a b < Nat.min (length a) (length b))%nat →
  ∃ p x y a' b', a = p ++ x :: a' ∧ b = p ++ y :: b' ∧ x ≠ y ∧ length p = diff_index a b.
Proof.
  revert b. induction a as [|x a IH]; intros [|y b] Hd; cbn in Hd; try lia.
  cbn [diff_index] in *. destruct (x =? y) eqn:E; b2p.
  - subst y. destruct (IH b) as (p & x' & y' & a' & b' & -> & -> & Hne & Hl); [lia|].
    exists (x :: p), x', y', a', b'. split_and!; try done. cbn. by rewrite Hl.
  - by exists [], x, y, a, b.
Qed.

(** The increment keeps the first difference or moves it below [limit]. *)
Lemma increment_loop_spec n i p x y a b :
  Forall byte (p ++ x :: a) → x < y → (length p <= i)%nat →
  let r := increment_loop n i (p ++ x :: a) (p ++ y :: b) in
  bytes_le (p ++ x :: a) r ∧ bytes_compare r (p ++ y :: b) = Lt ∧
  (length r <= length (p ++ x :: a))%nat ∧ Forall byte r.
Proof.
  intros Hb Hxy. revert i. induction n as [|n IH]; intros i Hi; cbn [increment_loop].
  { split_and!; [done|by apply bytes_compare_bump|done|done]. }
  assert (bytes_le (p ++ x :: a) (p ++ x :: a)) as Hrefl by done.
  pose proof (bytes_compare_bump p x y a b Hxy) as Hlt.
  destruct ((p ++ x :: a) !! i) as [s|] eqn:Es; [|by split_and!].
  destruct ((p ++ y :: b) !! i) as [l|] eqn:El; [|by split_and!].
  destruct (_ && _) eqn:E; [|apply IH; lia]. b2p. destruct E as [E1 E2].
  assert (byte s) as Hs by (rewrite Forall_lookup in Hb; eauto).
  pose proof (lookup_lt_Some _ _ _ Es). rewrite length_app, length_take. cbn [length].
  split_and!; [| |lia|].
  - apply bytes_le_iff. left. rewrite (lookup_split _ _ _ Es) at 1. apply bytes_compare_bump. lia.
  - destruct (decide (i = length p)) as [->|Hne].
    + rewrite take_app_length. rewrite lookup_app_r, Nat.sub_diag in El by lia. cbn in El. simplify_eq.
      by apply bytes_compare_bump.
    + rewrite take_app_ge by lia. destruct (i - length p)%nat as [|k] eqn:Ek; [lia|].
      rewrite <- (assoc_L (++)). cbn. by apply bytes_compare_bump.
  - apply Forall_app. split; [by apply Forall_take|]. constructor; [|done]. unfold byte in *. lia.
Qed.

Lemma bytewise_separator_spec start limit :
  Forall byte start → bytes_compare start limit = Lt →
  let sep := bytewise_find_shortest_separator start limit in
  bytes_le start sep ∧ bytes_compare sep limit = Lt ∧ (length sep <= length start)%nat ∧
  Forall byte sep.
Proof.
  intros Hb Hlt. unfold bytewise_find_shortest_separator.
  destruct (_ <=? _)%nat eqn:E; b2p; [by split_and!|].
  destruct (diff_index_spec start limit) as (p & x & y & a' & b' & -> & -> & Hne & Hl); [lia|].
  apply increment_loop_spec; [done| |lia].
  rewrite bytes_compare_app in Hlt. cbn in Hlt. destruct (x ?= y) eqn:Exy; try done.
  by apply Z.compare_eq in Exy.
Qed.

Lemma successor_loop_spec n key :
  Forall byte key →
  bytes_le key (successor_loop n key) ∧ (length (successor_loop n key) <= length key)%nat ∧
  Forall byte (successor_loop n key).
Proof.
  intros Hb. induction n as [|i IH]; cbn [successor_loop]; [by split_and!|].
  destruct (key !! i) as [b|] eqn:E; [|by split_and!]. destruct (b =? 255) eqn:E1; b2p; [done|].
  cbn [negb]. assert (byte b) as Hbb by (rewrite Forall_lookup in Hb; eauto).
  pose proof (lookup_lt_Some _ _ _ E). split_and!.
  - apply bytes_le_iff. left. rewrite (lookup_split _ _ _ E) at 1. apply bytes_compare_bump. lia.
  - rewrite length_app, length_take. cbn. lia.
  - apply Forall_app. split; [by apply Forall_take|]. constructor; [|done]. unfold byte in *. lia.
Qed.

#[export] Instance bytes_le_dec : RelDecision bytes_le.
Proof. intros a b. unfold bytes_le. apply _. Defined.

Lemma diff_index_same a : diff_index a a = length a.
Proof. induction a as [|x a IH]; cbn; [done|]. by rewrite Z.eqb_refl, IH. Qed.

#[export] Instance BytewiseComparator_laws : KeyComparatorLaws BytewiseComparator.
Proof.
  refine {| kc_key := Forall byte; kc_le := bytes_le; kc_le_dec := bytes_le_dec |}.
  - apply bytes_le_total.
  - intros a b _ _. exists (bytes_compare a b). split; [done|].
    destruct (bytes_compare a b) eqn:E.
    + apply bytes_compare_Eq in E as ->. done.
    + by apply bytes_not_le.
    + apply bytes_not_le. by rewrite bytes_compare_antisym, E.
  - intros start limit Hs Hl Hlt%bytes_not_le.
    destruct (bytewise_separator_spec start limit Hs Hlt) as (H1 & H2 & _ & H3).
    eexists. split_and!; [done|done|done|by apply bytes_not_le].
  - intros start limit Hs _ H1 H2. assert (start = limit) as <-.
    { apply bytes_le_iff in H1 as [H1|]; [|done]. by apply bytes_not_le in H1. }
    exists start. split_and!; try done. cbn. unfold bytewise_find_shortest_separator.
    by rewrite diff_index_same, Nat.min_id, Nat.leb_refl.
  - intros key Hk. destruct (successor_loop_spec (length key) key Hk) as (H1 & _ & H3). by eexists.
  - intros start limit sep Hs _ [Hlt| ->]%bytes_le_iff [= <-].
    + by destruct (bytewise_separator_spec start limit Hs Hlt) as (_ & _ & H & _).
    + unfold bytewise_find_shortest_separator. by rewrite diff_index_same, Nat.min_id, Nat.leb_refl.
  - intros key succ Hk [= <-]. by destruct (successor_loop_spec (length key) key Hk) as (_ & H & _).
Defined.

(** ** Internal keys *)

Lemma ValueType_from_to t : ValueType_from_value (ValueType_to_value t) = inr t.
Proof. by destruct t. Qed.

Lemma ValueType_to_value_range t : 0 ≤ ValueType_to_value t < 256.
Proof. destruct t; cbn; lia. Qed.

Lemma InternalKey_parse_serialized k :
  0 ≤ ik_sequence k ≤ MAX_SEQUENCE → InternalKey_parse (InternalKey_serialized k) = inr k.
Proof.
  intros Hs. unfold InternalKey_serialized, InternalKey_parse, MAX_SEQUENCE in *.
  pose proof (ValueType_to_value_range (ik_typ k)) as Ht.
  rewrite Z.shiftl_mul_pow2, Z.mod_small, Z.lor_comm, lor_disjoint by (unfold U64; lia).
  set (num := ValueType_to_value (ik_typ k) + ik_sequence k * 2 ^ 8).
  unfold min_size. rewrite length_app, length_to_le_bytes, (proj2 (Z.ltb_ge _ _)) by lia. cbn [rbind].
  rewrite Nat.add_sub, take_app_length, drop_app_length, take_ge by by rewrite length_to_le_bytes.
  rewrite from_to_le_bytes by (unfold num; lia).
  assert (Z.land num 255 = ValueType_to_value (ik_typ k)) as ->.
  { change 255 with (Z.ones 8). rewrite Z.land_ones by done. unfold num.
    rewrite Z.mod_add by done. by apply Z.mod_small. }
  rewrite ValueType_from_to. cbn [rbind].
  assert (Z.shiftr num 8 = ik_sequence k) as ->.
  { rewrite Z.shiftr_div_pow2 by done. unfold num. rewrite Z.div_add by done. by rewrite Z.div_small. }
  by destruct k.
Qed.

(** The parts of an internal key, whether or not its type is known. *)
Definition ik_user (a : bytes) : bytes := take (length a - 8) a.
Definition ik_tail (a : bytes) : bytes := drop (length a - 8) a.
Definition ik_seq (a : bytes) : Z := Z.shiftr (from_le_bytes (take 8 (ik_tail a))) 8.

Lemma InternalKey_parse_parts a k :
  InternalKey_parse a = inr k →
  (8 <= length a)%nat ∧ ik_user_key k = ik_user a ∧ ik_sequence k = ik_seq a.
Proof.
  unfold InternalKey_parse, min_size. destruct (_ <? _) eqn:E; [done|]. cbn [rbind].
  destruct (ValueType_from_value _); [done|]. cbn [rbind]. intros [= <-]. b2p. split; [lia|done].
Qed.

Lemma ik_parts_app u t : length t = 8%nat → ik_user (u ++ t) = u ∧ ik_tail (u ++ t) = t.
Proof.
  intros Ht. unfold ik_user, ik_tail. rewrite length_app, Ht, Nat.add_sub.
  by rewrite take_app_length, drop_app_length.
Qed.

(** The parse depends on the last 8 bytes and keeps the rest. *)
Lemma InternalKey_parse_replace a k u :
  InternalKey_parse a = inr k →
  InternalKey_parse (u ++ ik_tail a) = inr (mkInternalKey u (ik_sequence k) (ik_typ k)) ∧
  ik_user (u ++ ik_tail a) = u ∧ ik_seq (u ++ ik_tail a) = ik_seq a.
Proof.
  intros Hp. pose proof (InternalKey_parse_parts _ _ Hp) as (Hl & _ & _).
  assert (length (ik_tail a) = 8%nat) as Ht by (unfold ik_tail; rewrite length_drop; lia).
  destruct (ik_parts_app u (ik_tail a) Ht) as [Hu Htl].
  split_and!; [|done|by unfold ik_seq; rewrite Htl].
  revert Hp. unfold InternalKey_parse, min_size.
  fold (ik_user (u ++ ik_tail a)) (ik_tail (u ++ ik_tail a)) (ik_user a) (ik_tail a).
  rewrite Hu, Htl. rewrite length_app, Ht, !(proj2 (Z.ltb_ge _ _)) by lia. cbn [rbind].
  destruct (ValueType_from_value _); [done|]. cbn [rbind]. by intros [= <-].
Qed.

Section InternalLaws.
Context (user : KeyComparator) `{!KeyComparatorLaws user}.

Definition internal_key (a : bytes) : Prop :=
  ∃ k, InternalKey_parse a = inr k ∧ kc_key (ik_user a).

(** By user key, then newest first. *)
Definition internal_le (a b : bytes) : Prop :=
  kc_le (ik_user a) (ik_user b) ∧ (kc_le (ik_user b) (ik_user a) → ik_seq b ≤ ik_seq a).

#[export] Instance internal_le_dec : RelDecision internal_le.
Proof. intros a b. unfold internal_le. apply _. Defined.

#[export] Instance internal_le_preorder : PreOrder internal_le.
Proof.
  split.
  - intros a. split; [done|]. lia.
  - intros a b c [H1 S1] [H2 S2]. split; [by etrans|]. intros H3.
    assert (kc_le (ik_user b) (ik_user a)) by by etrans.
    assert (kc_le (ik_user c) (ik_user b)) by by etrans. etrans; eauto.
Qed.

Lemma internal_le_total a b : internal_le a b ∨ internal_le b a.
Proof.
  unfold internal_le. destruct (kc_le_total (ik_user a) (ik_user b));
    destruct (decide (kc_le (ik_user a) (ik_user b))), (decide (kc_le (ik_user b) (ik_user a))); try done.
  1,3: destruct (decide (ik_seq b ≤ ik_seq a)); [by left|right; split; [done|lia]].
  - by left.
  - by right.
Qed.

Lemma internal_compare_spec a b :
  internal_key a → internal_key b →
  ∃ o, internal_compare user a b = Some o ∧
    match o with
    | Lt => ¬ internal_le b a
    | Eq => internal_le a b ∧ internal_le b a
    | Gt => ¬ internal_le a b
    end.
Proof.
  intros (ka & Ea & Ka) (kb & Eb & Kb). unfold internal_compare. rewrite Ea, Eb.
  destruct (InternalKey_parse_parts _ _ Ea) as (_ & -> & ->).
  destruct (InternalKey_parse_parts _ _ Eb) as (_ & -> & ->).
  destruct (kc_compare_spec _ _ Ka Kb) as (o & -> & Ho). cbn.
  eexists. split; [done|]. unfold internal_le. destruct o.
  - destruct Ho as [H1 H2]. destruct (ik_seq b ?= ik_seq a) eqn:E.
    + apply Z.compare_eq in E. split; split; try done; lia.
    + rewrite Z.compare_lt_iff in E. intros [_ H]. specialize (H H1). lia.
    + rewrite Z.compare_gt_iff in E. intros [_ H]. specialize (H H2). lia.
  - by intros [? _].
  - by intros [? _].
Qed.

(** A replaced user part: the key stays valid and keeps its sequence. *)
Lemma internal_replace a u :
  internal_key a → kc_key u →
  internal_key (u ++ ik_tail a) ∧ ik_user (u ++ ik_tail a) = u ∧ ik_seq (u ++ ik_tail a) = ik_seq a.
Proof.
  intros (k & Ea & _) Hu. destruct (InternalKey_parse_replace _ _ u Ea) as (Ep & E1 & E2).
  split; [|done]. eexists. split; [exact Ep|]. by rewrite E1.
Qed.

Lemma internal_separator start limit :
  internal_key start → internal_key limit →
  internal_find_shortest_separator user start limit =
    (sep ← kc_find_shortest_separator user (ik_user start) (ik_user limit); Some (sep ++ ik_tail start)).
Proof.
  intros (ks & Es & _) (kl & El & _). unfold internal_find_shortest_separator, InternalKey_user_key.
  destruct (InternalKey_parse_parts _ _ Es) as (Hs & _ & _).
  destruct (InternalKey_parse_parts _ _ El) as (Hl & _ & _).
  rewrite !(proj2 (Nat.ltb_ge _ _)) by lia. done.
Qed.

#[export] Instance InternalKeyComparator_laws : KeyComparatorLaws (InternalKeyComparator user).
Proof.
  refine {| kc_key := internal_key; kc_le := internal_le; kc_le_dec := internal_le_dec |}.
  - apply internal_le_total.
  - apply internal_compare_spec.
  - intros start limit Hs Hl Hlt. cbn. rewrite internal_separator by done.
    pose proof Hs as (ks & Es & Us). pose proof Hl as (kl & El & Ul).
    destruct (decide (kc_le (ik_user limit) (ik_user start))) as [Hle|Hnle].
    + assert (kc_le (ik_user start) (ik_user limit) ∧ ik_seq limit < ik_seq start) as [Hge Hseq].
      { unfold internal_le in Hlt.
        destruct (decide (kc_le (ik_user start) (ik_user limit))) as [H|H];
          [|exfalso; apply Hlt; by split].
        split; [done|]. destruct (decide (ik_seq limit < ik_seq start)); [done|].
        exfalso. apply Hlt. split; [done|]. lia. }
      destruct (kc_separator_same _ _ Us Ul Hge Hle) as (sep & -> & Hk & H1 & H2).
      destruct (internal_replace start sep Hs Hk) as (Hv & Eu & Eq). cbn.
      eexists. split_and!; [done|done|split; rewrite ?Eu, ?Eq; [done|lia]|].
      intros [_ H]. rewrite Eu, Eq in H. assert (kc_le sep (ik_user limit)) as Hsl by by etrans.
      specialize (H Hsl). lia.
    + destruct (kc_separator_spec _ _ Us Ul Hnle) as (sep & -> & Hk & H1 & H2).
      destruct (internal_replace start sep Hs Hk) as (Hv & Eu & Eq). cbn.
      eexists. split_and!; [done|done|split; rewrite ?Eu, ?Eq; [done|lia]|].
      intros [H _]. by rewrite Eu in H.
  - intros start limit Hs Hl [Hge _] [Hle _]. cbn. rewrite internal_separator by done.
    pose proof Hs as (ks & Es & Us). pose proof Hl as (kl & El & Ul).
    destruct (kc_separator_same _ _ Us Ul Hge Hle) as (sep & -> & Hk & H1 & H2).
    destruct (internal_replace start sep Hs Hk) as (Hv & Eu & Eq). cbn. eexists.
    split_and!; [done|done|split; rewrite ?Eu, ?Eq; [done|lia]|split; rewrite ?Eu, ?Eq; [done|lia]].
  - intros key Hs. pose proof Hs as (k & Ek & Uk). cbn. unfold internal_find_short_successor.
    destruct (InternalKey_parse_parts _ _ Ek) as (Hl & _ & _).
    rewrite (proj2 (Nat.ltb_ge _ _)) by lia. fold (ik_user key) (ik_tail key).
    destruct (kc_successor_spec _ Uk) as (succ & -> & Hk & H1).
    destruct (internal_replace key succ Hs Hk) as (Hv & Eu & Eq). cbn. eexists.
    split_and!; [done|done|split; rewrite ?Eu, ?Eq; [done|lia]].
  - intros start limit sep Hs Hl [Hle _]. cbn. rewrite internal_separator by done.
    pose proof Hs as (ks & Es & Us). pose proof Hl as (kl & El & Ul).
    destruct (kc_find_shortest_separator user _ _) as [u|] eqn:E; [|done]. cbn. intros [= <-].
    pose proof (kc_separator_length _ _ _ Us Ul Hle E) as Hlen.
    revert Hlen. unfold ik_user, ik_tail. rewrite length_app, length_take, length_drop. lia.
  - intros key succ Hs. pose proof Hs as (k & Ek & Uk). cbn. unfold internal_find_short_successor.
    destruct (_ <? _)%nat; [done|]. fold (ik_user key) (ik_tail key).
    destruct (kc_find_short_successor user _) as [u|] eqn:E; [|done]. cbn. intros [= <-].
    pose proof (kc_successor_length _ _ Uk E) as Hlen.
    revert Hlen. unfold ik_user, ik_tail. rewrite length_app, length_take, length_drop. lia.
Defined.
End InternalLaws.
