(* ===== verification/DataBlock.v ===== *)
(** * Blocks of key-value pairs

    [BlockHandle] (src/pkg/sstable/src/table/block_handle.rs), the reader
    [DataBlockRef] with its iterators (table/data_block.rs) and the writer
    [DataBlockBuilder] (table/data_block_builder.rs). Slicing out of range
    and overflowing a usize panic, so parsing code has three outcomes:
    [Done (inr _)], [Done (inl _)] for an error and [Panicked]. *)

From stdpp Require Import sorting.
From S2P Require Import Prelude Wire Encoding Comparator.

(** A fallible computation that can panic. *)
Definition RR (A : Type) : Type := run (Result A).

Definition rr_bind {A B} (m : RR A) (k : A → RR B) : RR B :=
  match m with
  | Done (inr a) => k a
  | Done (inl e) => Done (inl e)
  | Panicked => Panicked
  | OutOfFuel => OutOfFuel
  end.
Notation "'rr!' x ':=' m 'in' k" := (rr_bind m (λ x, k))
  (at level 10, x pattern, m at level 100, k at level 200) : run_scope.

Definition rr_of_option {A} (o : option A) : RR A :=
  match o with Some a => Done (inr a) | None => Panicked end.

(** [&l[i..]], which panics past the end. *)
Definition slice_from (l : bytes) (i : Z) : RR bytes :=
  if Z.of_nat (length l) <? i then Panicked else Done (inr (drop (Z.to_nat i) l)).

(** ** Block handles *)

Record BlockHandle := mkBlockHandle { bh_offset : Z; bh_size : Z }.

Definition BlockHandle_parse (input : bytes) : Result (BlockHandle * bytes) :=
  ok! (offset, rest) := from_wire (parse_varint input) in
  ok! (size, rest) := from_wire (parse_varint rest) in
  inr (mkBlockHandle offset size, rest).

Definition BlockHandle_serialized (h : BlockHandle) : bytes :=
  serialize_varint (bh_offset h) ++ serialize_varint (bh_size h).

(** ** Entries *)

Record DataBlockEntry := mkEntry {
  shared_bytes : Z;
  key_delta : bytes;
  value : bytes;
}.

Definition DataBlockEntry_parse (input : bytes) : RR (DataBlockEntry * bytes) :=
  rr! (shared_bytes, input) := Done (from_wire (parse_varint input)) in
  rr! (unshared_bytes, input) := Done (from_wire (parse_varint input)) in
  rr! (value_length, input) := Done (from_wire (parse_varint input)) in
  if U64_MAX <? unshared_bytes + value_length then Panicked else
  rr! _ := Done (min_size input (unshared_bytes + value_length)) in
  let key_delta := take (Z.to_nat unshared_bytes) input in
  let input := drop (Z.to_nat unshared_bytes) input in
  Done (inr (mkEntry (shared_bytes mod 2 ^ 32) key_delta (take (Z.to_nat value_length) input),
             drop (Z.to_nat value_length) input)).

Definition DataBlockEntry_serialize (e : DataBlockEntry) : bytes :=
  serialize_varint (shared_bytes e) ++
  serialize_varint (Z.of_nat (length (key_delta e))) ++
  serialize_varint (Z.of_nat (length (value e))) ++
  key_delta e ++ value e.

(** ** Iterating *)

(** [DataBlockKeyValueIterator] with its inner entry iterator. *)
Record KeyValueIterator := mkKeyValueIterator {
  remaining_entries : bytes;
  it_last_key : bytes;
}.

(** [peek]: the next pair and what remains after it; the key is built in
    [last_key]. *)
Definition kv_peek (it : KeyValueIterator)
    : RR (option (bytes * bytes * bytes) * KeyValueIterator) :=
  match remaining_entries it with
  | [] => Done (inr (None, it))
  | _ :: _ =>
    rr! (entry, rest) := DataBlockEntry_parse (remaining_entries it) in
    if Z.of_nat (length (it_last_key it)) <? shared_bytes entry
    then Done (inl EInsufficientShared) else
    let last_key := take (Z.to_nat (shared_bytes entry)) (it_last_key it) ++ key_delta entry in
    Done (inr (Some (last_key, value entry, rest),
               mkKeyValueIterator (remaining_entries it) last_key))
  end.

(** [DataBlockEntryIterator::next]; a failed parse leaves the iterator where
    it is. *)
Definition entry_next (remaining : bytes) : run (option (Result DataBlockEntry) * bytes) :=
  match remaining with
  | [] => Done (None, remaining)
  | _ :: _ =>
    match DataBlockEntry_parse remaining with
    | Done (inr (entry, rest)) => Done (Some (inr entry), rest)
    | Done (inl e) => Done (Some (inl e), remaining)
    | Panicked => Panicked
    | OutOfFuel => OutOfFuel
    end
  end.

(** [next] *)
Definition kv_next (it : KeyValueIterator)
    : run (option (Result (bytes * bytes)) * KeyValueIterator) :=
  match entry_next (remaining_entries it) with
  | Done (None, rest) => Done (None, mkKeyValueIterator rest (it_last_key it))
  | Done (Some (inl e), rest) => Done (Some (inl e), mkKeyValueIterator rest (it_last_key it))
  | Done (Some (inr entry), rest) =>
    if Z.of_nat (length (it_last_key it)) <? shared_bytes entry
    then Done (Some (inl EInsufficientShared), mkKeyValueIterator rest (it_last_key it)) else
    let last_key := take (Z.to_nat (shared_bytes entry)) (it_last_key it) ++ key_delta entry in
    Done (Some (inr (last_key, value entry)), mkKeyValueIterator rest last_key)
  | Panicked => Panicked
  | OutOfFuel => OutOfFuel
  end.

(** ** The block *)

Record DataBlockRef := mkDataBlockRef {
  db_entries : bytes;
  db_hash_index : option bytes;
  db_restarts : list Z;
}.

(** [UnalignedSlice<u32>] over the bytes, [n] elements of it. *)
Fixpoint u32_slice (n : nat) (l : bytes) : list Z :=
  match n with
  | O => []
  | S n' => from_le_bytes (take 4 l) :: u32_slice n' (drop 4 l)
  end.

(** The part of the input before the last [n] bytes, and these. *)
Definition split_last (input : bytes) (n : nat) : bytes * bytes :=
  (take (length input - n) input, drop (length input - n) input).

Definition DataBlockRef_parse (input : bytes) : Result DataBlockRef :=
  ok! _ := min_size input 4 in
  let '(input, tail) := split_last input 4 in
  let packed := from_le_bytes tail in
  let num_restarts := Z.land packed (2 ^ 31 - 1) in
  if num_restarts <? 1 then inl ENoRestart else
  ok! (input, hash_index) :=
    (if Z.shiftr packed 31 =? 0 then inr (input, None) else
     ok! _ := min_size input 1 in
     let '(input, tail) := split_last input 1 in
     let num_buckets := from_le_bytes tail in
     ok! _ := min_size input num_buckets in
     let '(input, buckets) := split_last input (Z.to_nat num_buckets) in
     inr (input, Some buckets)) in
  ok! _ := min_size input (4 * num_restarts) in
  let '(input, tail) := split_last input (Z.to_nat (4 * num_restarts)) in
  let restarts := u32_slice (Z.to_nat num_restarts) tail in
  if negb (bool_decide (head restarts = Some 0)) then inl EFirstRestartNotZero else
  inr (mkDataBlockRef input hash_index restarts).

(** [iter().rows()] *)
Definition DataBlockRef_rows (b : DataBlockRef) : KeyValueIterator :=
  mkKeyValueIterator (db_entries b) [].

(** [restart_search]; every call halves the restarts, so their number is
    enough fuel. *)
Fixpoint restart_search (fuel : nat) (b : DataBlockRef) (key : bytes) (restarts : list Z)
    (comparator : KeyComparator) : RR Z :=
  match fuel with
  | O => OutOfFuel
  | S fuel' =>
    if (length restarts =? 1)%nat then rr_of_option (head restarts) else
    let mid_index := (length restarts / 2)%nat in
    rr! mid_offset := rr_of_option (restarts !! mid_index) in
    rr! data := slice_from (db_entries b) mid_offset in
    rr! (mid_entry, _) := DataBlockEntry_parse data in
    if negb (shared_bytes mid_entry =? 0) then Done (inl ERestartNotValid) else
    rr! c := rr_of_option (kc_compare comparator key (key_delta mid_entry)) in
    match c with
    | Eq => Done (inr mid_offset)
    | Lt => restart_search fuel' b key (take mid_index restarts) comparator
    | Gt => restart_search fuel' b key (drop mid_index restarts) comparator
    end
  end.

(** The loop of [before]; every round uses up an entry. *)
Fixpoint fast_forward (fuel : nat) (key : bytes) (comparator : KeyComparator)
    (it : KeyValueIterator) : RR KeyValueIterator :=
  rr! (peek, it) := kv_peek it in
  match peek with
  | None => Done (inr it)
  | Some (peek_key, _, rest) =>
    rr! c := rr_of_option (kc_compare comparator key peek_key) in
    match c with
    | Eq | Lt => Done (inr it)
    | Gt =>
      match fuel with
      | O => OutOfFuel
      | S fuel' => fast_forward fuel' key comparator (mkKeyValueIterator rest (it_last_key it))
      end
    end
  end.

Definition DataBlockRef_before (b : DataBlockRef) (key : bytes) (comparator : KeyComparator)
    : RR KeyValueIterator :=
  rr! closest_offset := restart_search (length (db_restarts b)) b key (db_restarts b) comparator in
  rr! remaining := slice_from (db_entries b) closest_offset in
  fast_forward (length remaining) key comparator (mkKeyValueIterator remaining []).

(** ** The builder *)

Record DataBlockBuilder := mkBuilder {
  use_delta_encoding : bool;
  restart_interval : Z;
  buffer : bytes;
  restart_offsets : list Z;
  entries_since_restart : Z;
  last_key : bytes;
}.

Definition Builder_new (use_delta_encoding : bool) (restart_interval : Z) : DataBlockBuilder :=
  mkBuilder use_delta_encoding restart_interval [] [0] 0 [].

Definition Builder_empty (b : DataBlockBuilder) : bool := (length (buffer b) =? 0)%nat.

Definition Builder_current_size (b : DataBlockBuilder) : Z :=
  Z.of_nat (length (buffer b)) + 4 * (Z.of_nat (length (restart_offsets b)) + 1).

Definition Builder_projected_size (b : DataBlockBuilder) (key value : bytes) : Z :=
  Builder_current_size b + Z.of_nat (length key) + Z.of_nat (length value).

(** [add]: the shared bytes are the common prefix with the last key. *)
Definition Builder_add (b : DataBlockBuilder) (key value : bytes) : DataBlockBuilder :=
  let restart := entries_since_restart b >=? restart_interval b in
  let shared := if restart then O
                else if use_delta_encoding b then diff_index (last_key b) key else O in
  let entry := mkEntry (Z.of_nat shared mod 2 ^ 32) (drop shared key) value in
  mkBuilder (use_delta_encoding b) (restart_interval b)
    (buffer b ++ DataBlockEntry_serialize entry)
    (if restart then restart_offsets b ++ [Z.of_nat (length (buffer b)) mod 2 ^ 32]
     else restart_offsets b)
    ((if restart then 0 else entries_since_restart b) + 1)
    key.

Definition serialize_block_footer (hash_index : option bytes) (restarts : list Z) : RR bytes :=
  let buckets := match hash_index with
                 | Some buckets => buckets ++ [Z.of_nat (length buckets)]
                 | None => []
                 end in
  let packed := Z.of_nat (length restarts) mod 2 ^ 32 in
  let packed' := if bool_decide (is_Some hash_index) then Z.lor packed (2 ^ 31) else packed in
  if match hash_index with
     | Some buckets => 255 <? Z.of_nat (length buckets)
     | None => negb (Z.land packed (2 ^ 31) =? 0)
     end then Panicked
  else Done (inr (buckets ++ flat_map (to_le_bytes 4) restarts ++ to_le_bytes 4 packed')).

(** [finish]: the block, the last key, and the reset builder. *)
Definition Builder_finish (b : DataBlockBuilder) : RR (bytes * bytes * DataBlockBuilder) :=
  rr! footer := serialize_block_footer None (restart_offsets b) in
  Done (inr (buffer b ++ footer, last_key b,
             mkBuilder (use_delta_encoding b) (restart_interval b) [] [0] 0 [])).

(** [set_buffer]: the given buffer is cleared first. *)
Definition Builder_set_buffer (b : DataBlockBuilder) (buf : bytes) : run DataBlockBuilder :=
  if Builder_empty b then
    Done (mkBuilder (use_delta_encoding b) (restart_interval b) [] (restart_offsets b)
            (entries_since_restart b) (last_key b))
  else Panicked.

(** Rows added in order. *)
Definition Builder_add_all (b : DataBlockBuilder) (kvs : list (bytes * bytes)) : DataBlockBuilder :=
  foldl (λ b kv, Builder_add b kv.1 kv.2) b kvs.

(** ** The unsorted builder *)

Record UnsortedDataBlockBuilder := mkUnsortedBuilder {
  ub_use_delta_encoding : bool;
  ub_restart_interval : Z;
  ub_data : list (bytes * bytes);
}.

Definition Unsorted_new (use_delta_encoding : bool) (restart_interval : Z) : UnsortedDataBlockBuilder :=
  mkUnsortedBuilder use_delta_encoding restart_interval [].

Definition Unsorted_is_empty (u : UnsortedDataBlockBuilder) : bool := (length (ub_data u) =? 0)%nat.

Definition Unsorted_add (u : UnsortedDataBlockBuilder) (key value : bytes) : UnsortedDataBlockBuilder :=
  mkUnsortedBuilder (ub_use_delta_encoding u) (ub_restart_interval u) (ub_data u ++ [(key, value)]).

(** The order of [(Vec<u8>, Vec<u8>)]. *)
Definition row_le (a b : bytes * bytes) : Prop :=
  match bytes_compare a.1 b.1 with
  | Lt => True
  | Eq => bytes_le a.2 b.2
  | Gt => False
  end.

#[export] Instance row_le_dec : RelDecision row_le.
Proof. intros a b. unfold row_le. destruct (bytes_compare a.1 b.1); apply _. Defined.

(** [finish]; rows that compare equal are equal, so the result of
    [sort_unstable] is the sorted list. *)
Definition Unsorted_finish (u : UnsortedDataBlockBuilder) : RR (bytes * UnsortedDataBlockBuilder) :=
  let data := merge_sort row_le (ub_data u) in
  let builder := Builder_add_all
    (Builder_new (ub_use_delta_encoding u) (ub_restart_interval u)) data in
  rr! (block, _, _) := Builder_finish builder in
  Done (inr (block, mkUnsortedBuilder (ub_use_delta_encoding u) (ub_restart_interval u) data)).

(** ** Entries and rows *)

Definition entry_ok (e : DataBlockEntry) : Prop :=
  0 ≤ shared_bytes e < 2 ^ 32 ∧
  Z.of_nat (length (key_delta e)) + Z.of_nat (length (value e)) < U64.

Lemma parse_serialize_entry e rest :
  entry_ok e → DataBlockEntry_parse (DataBlockEntry_serialize e ++ rest) = Done (inr (e, rest)).
Proof.
  destruct e as [sh kd va]. intros [Hs Hl]. cbn in Hs, Hl.
  unfold DataBlockEntry_parse, DataBlockEntry_serialize. cbn [shared_bytes key_delta value].
  rewrite <- !(assoc_L (++)). unfold U64_MAX, U64 in *.
  rewrite parse_serialize_varint by (unfold U64; lia). cbn [from_wire rr_bind].
  rewrite parse_serialize_varint by (unfold U64; lia). cbn [from_wire rr_bind].
  rewrite parse_serialize_varint by (unfold U64; lia). cbn [from_wire rr_bind].
  rewrite (proj2 (Z.ltb_ge _ _)) by lia. unfold min_size.
  rewrite !length_app, (proj2 (Z.ltb_ge _ _)) by lia. cbn [rr_bind].
  rewrite !Nat2Z.id, take_app_length, drop_app_length, take_app_length, drop_app_length.
  by rewrite Z.mod_small.
Qed.

Definition encode (es : list DataBlockEntry) : bytes := concat (DataBlockEntry_serialize <$> es).

Lemma encode_app es1 es2 : encode (es1 ++ es2) = encode es1 ++ encode es2.
Proof. unfold encode. by rewrite fmap_app, concat_app. Qed.

Lemma encode_cons e es : encode (e :: es) = DataBlockEntry_serialize e ++ encode es.
Proof. done. Qed.

Lemma serialize_entry_cons e : ∃ b l, DataBlockEntry_serialize e = b :: l.
Proof.
  unfold DataBlockEntry_serialize, serialize_varint. cbn [serialize_varint_loop].
  destruct (_ =? _); cbn; eauto.
Qed.

Lemma length_encode_rows es : (length es ≤ length (encode es))%nat.
Proof.
  induction es as [|e es IH]; [done|]. rewrite encode_cons, length_app.
  destruct (serialize_entry_cons e) as (b & l & ->). cbn [length]. lia.
Qed.

(** The row an entry stands for after a row with key [last]. *)
Definition entry_row (last : bytes) (e : DataBlockEntry) : bytes * bytes :=
  (take (Z.to_nat (shared_bytes e)) last ++ key_delta e, value e).

Fixpoint decode_rows (last : bytes) (es : list DataBlockEntry) : option (list (bytes * bytes)) :=
  match es with
  | [] => Some []
  | e :: es' =>
    if Z.of_nat (length last) <? shared_bytes e then None
    else cons (entry_row last e) <$> decode_rows (entry_row last e).1 es'
  end.

(** All the rows an iterator gives. *)
Fixpoint collect_rows (fuel : nat) (it : KeyValueIterator) : RR (list (bytes * bytes)) :=
  match kv_next it with
  | Done (None, _) => Done (inr [])
  | Done (Some (inl e), _) => Done (inl e)
  | Done (Some (inr row), it') =>
    match fuel with
    | O => OutOfFuel
    | S fuel' => rr! rows := collect_rows fuel' it' in Done (inr (row :: rows))
    end
  | Panicked => Panicked
  | OutOfFuel => OutOfFuel
  end.

Lemma kv_next_encode e es last :
  entry_ok e → shared_bytes e ≤ Z.of_nat (length last) →
  kv_next (mkKeyValueIterator (encode (e :: es)) last) =
    Done (Some (inr (entry_row last e)), mkKeyValueIterator (encode es) (entry_row last e).1).
Proof.
  intros Hok Hs. unfold kv_next, entry_next. cbn [remaining_entries it_last_key].
  pose proof (parse_serialize_entry e (encode es) Hok) as Hp. rewrite encode_cons.
  destruct (serialize_entry_cons e) as (b & l & E). rewrite E in *. cbn [app] in *.
  by rewrite Hp, (proj2 (Z.ltb_ge _ _)).
Qed.

Lemma kv_peek_encode e es last :
  entry_ok e → shared_bytes e ≤ Z.of_nat (length last) →
  kv_peek (mkKeyValueIterator (encode (e :: es)) last) =
    Done (inr (Some (entry_row last e, encode es),
               mkKeyValueIterator (encode (e :: es)) (entry_row last e).1)).
Proof.
  intros Hok Hs. unfold kv_peek. cbn [remaining_entries it_last_key].
  pose proof (parse_serialize_entry e (encode es) Hok) as Hp. rewrite encode_cons.
  destruct (serialize_entry_cons e) as (b & l & E). rewrite E in *. cbn [app] in *.
  rewrite Hp. cbn [rr_bind]. by rewrite (proj2 (Z.ltb_ge _ _)).
Qed.

Lemma collect_encode es last rows n :
  Forall entry_ok es → decode_rows last es = Some rows → (length es ≤ n)%nat →
  collect_rows n (mkKeyValueIterator (encode es) last) = Done (inr rows).
Proof.
  intros Hok. revert last rows n.
  induction Hok as [|e es He Hes IH]; intros last rows n Hd Hn; cbn [decode_rows] in Hd.
  - simplify_eq. by destruct n.
  - destruct n as [|n]; cbn [length] in Hn; [lia|].
    destruct (_ <? _) eqn:E in Hd; [done|]; b2p.
    apply fmap_Some in Hd as (rows' & Hd & ->). cbn [collect_rows].
    rewrite kv_next_encode by done. by rewrite (IH _ _ _ Hd) by lia.
Qed.

(** The rows an iterator still gives. *)
Definition iter_rows (it : KeyValueIterator) (rows : list (bytes * bytes)) : Prop :=
  ∃ es last, it = mkKeyValueIterator (encode es) last ∧ Forall entry_ok es ∧ decode_rows last es = Some rows.

Lemma iter_rows_next it rows :
  iter_rows it rows →
  match rows with
  | [] => kv_next it = Done (None, it)
  | row :: rows => ∃ it', kv_next it = Done (Some (inr row), it') ∧ iter_rows it' rows
  end.
Proof.
  intros (es & last & -> & Hok & Hd). destruct Hok as [|e es He Hes]; cbn [decode_rows] in Hd.
  { by simplify_eq. }
  destruct (_ <? _) eqn:E; [done|]; b2p. apply fmap_Some in Hd as (rows' & Hd & ->).
  eexists. split; [by apply kv_next_encode|]. by eexists _, _.
Qed.

Definition final_key (last : bytes) (rows : list (bytes * bytes)) : bytes :=
  default last (fst <$> list.last rows).

Lemma final_key_cons k row rows : final_key k (row :: rows) = final_key row.1 rows.
Proof. unfold final_key. rewrite last_cons. by destruct (list.last rows). Qed.

Lemma decode_rows_snoc k es rows e :
  decode_rows k es = Some rows →
  shared_bytes e ≤ Z.of_nat (length (final_key k rows)) →
  decode_rows k (es ++ [e]) = Some (rows ++ [entry_row (final_key k rows) e]).
Proof.
  revert k rows. induction es as [|e' es IH]; intros k rows Hd Hs; cbn [decode_rows app] in *.
  - simplify_eq. by rewrite (proj2 (Z.ltb_ge _ _)).
  - destruct (_ <? _); [done|]. apply fmap_Some in Hd as (rows' & Hd & ->).
    rewrite final_key_cons in *. by rewrite (IH _ _ Hd Hs).
Qed.

Lemma decode_rows_length k es rows : decode_rows k es = Some rows → length rows = length es.
Proof.
  revert k rows. induction es as [|e es IH]; intros k rows Hd; cbn [decode_rows] in Hd.
  - by simplify_eq.
  - destruct (_ <? _); [done|]. apply fmap_Some in Hd as (rows' & Hd & ->).
    cbn. by rewrite (IH _ _ Hd).
Qed.

(** An entry that shares nothing can be decoded without what precedes it. *)
Lemma decode_rows_restart k es rows r e :
  decode_rows k es = Some rows → es !! r = Some e → shared_bytes e = 0 →
  decode_rows [] (drop r es) = Some (drop r rows) ∧ rows !! r = Some (key_delta e, value e).
Proof.
  revert k rows r. induction es as [|e' es IH]; intros k rows r Hd Hr He; [done|].
  cbn [decode_rows] in Hd.
  destruct (_ <? _); [done|]. apply fmap_Some in Hd as (rows' & Hd & ->).
  destruct r as [|r]; [|exact (IH _ _ _ Hd Hr He)].
  simplify_eq/=. unfold entry_row in *. rewrite He in *. cbn [fst] in *.
  change (Z.to_nat 0) with 0%nat in *. rewrite !take_0 in *. cbn [app] in *. by rewrite Hd.
Qed.

(** ** The invariant of the builder *)

(** [es] are the entries in the buffer, [rs] the positions of the restarts
    among them. *)
Record built (b : DataBlockBuilder) (kvs : list (bytes * bytes))
    (es : list DataBlockEntry) (rs : list nat) : Prop := {
  bt_buffer : buffer b = encode es;
  bt_ok : Forall entry_ok es;
  bt_rows : decode_rows [] es = Some kvs;
  bt_last : last_key b = final_key [] kvs;
  bt_len : (length (last_key b) ≤ length (buffer b))%nat;
  bt_offsets : restart_offsets b = (λ r, Z.of_nat (length (encode (take r es)))) <$> rs;
  bt_head : head rs = Some 0%nat;
  bt_restart i r : rs !! S i = Some r → ∃ e, es !! r = Some e ∧ shared_bytes e = 0;
}.

Lemma built_new d n : built (Builder_new d n) [] [] [0%nat].
Proof. by split. Qed.

Lemma diff_index_le a b : (diff_index a b ≤ length a)%nat.
Proof.
  revert b. induction a as [|x a IH]; intros [|y b]; cbn; try lia.
  specialize (IH b). destruct (x =? y); cbn; lia.
Qed.

Lemma diff_index_take a b : take (diff_index a b) a ++ drop (diff_index a b) b = b.
Proof.
  revert b. induction a as [|x a IH]; intros [|y b]; cbn; try done.
  destruct (x =? y) eqn:E; cbn; [|done]. apply Z.eqb_eq in E as ->. by rewrite IH.
Qed.

(** The number of bytes [add] shares with the last key. *)
Definition add_shared (b : DataBlockBuilder) (key : bytes) : nat :=
  if entries_since_restart b >=? restart_interval b then O
  else if use_delta_encoding b then diff_index (last_key b) key else O.

Lemma add_shared_spec b key :
  (add_shared b key ≤ length (last_key b))%nat ∧
  take (add_shared b key) (last_key b) ++ drop (add_shared b key) key = key.
Proof.
  unfold add_shared. pose proof (diff_index_le (last_key b) key).
  repeat case_match; split; try lia; try done. apply diff_index_take.
Qed.

Lemma length_serialize_entry e :
  (length (key_delta e) + length (value e) ≤ length (DataBlockEntry_serialize e))%nat.
Proof. unfold DataBlockEntry_serialize. rewrite !length_app. lia. Qed.

Lemma offsets_snoc (es : list DataBlockEntry) e (rs : list nat) (H : ∀ r, r ∈ rs → (r ≤ length es)%nat) :
  (λ r, Z.of_nat (length (encode (take r (es ++ [e]))))) <$> rs =
  (λ r, Z.of_nat (length (encode (take r es)))) <$> rs.
Proof. apply list_fmap_ext. intros i r Hr. rewrite take_app_le; [done|]. eauto using list_elem_of_lookup_2. Qed.

Lemma built_positions b kvs es rs r : built b kvs es rs → r ∈ rs → (r ≤ length es)%nat.
Proof.
  intros Hb [[|i] Hi]%list_elem_of_lookup.
  - pose proof (bt_head _ _ _ _ Hb). destruct rs; simplify_eq/=. lia.
  - destruct (bt_restart _ _ _ _ Hb _ _ Hi) as (e & He & _). apply lookup_lt_Some in He. lia.
Qed.

Lemma add_size b key value :
  Builder_current_size b ≤ Builder_current_size (Builder_add b key value) ∧
  (length (buffer b) ≤ length (buffer (Builder_add b key value)))%nat.
Proof.
  unfold Builder_current_size, Builder_add. cbn [buffer restart_offsets].
  case_match; rewrite ?length_app; cbn [length]; lia.
Qed.

Lemma built_add b kvs es rs key v :
  built b kvs es rs → Builder_current_size (Builder_add b key v) < 2 ^ 32 →
  ∃ es' rs', built (Builder_add b key v) (kvs ++ [(key, v)]) es' rs'.
Proof.
  intros Hb Hsz. pose proof Hb as [Hbuf Hok Hrows Hlast Hlen Hoff Hhd Hrs].
  destruct (add_shared_spec b key) as [Hsh Hkey].
  set (e := mkEntry (Z.of_nat (add_shared b key) mod 2 ^ 32) (drop (add_shared b key) key) v).
  assert (Hadd : buffer (Builder_add b key v) = buffer b ++ DataBlockEntry_serialize e) by done.
  unfold Builder_current_size in Hsz. rewrite Hadd in Hsz. rewrite length_app in Hsz.
  pose proof (length_serialize_entry e) as Hl. cbn [key_delta value e] in Hl.
  assert (He : shared_bytes e = Z.of_nat (add_shared b key)) by (cbn; rewrite Z.mod_small; lia).
  assert (Hrow : entry_row (final_key [] kvs) e = (key, v)).
  { unfold entry_row. by rewrite He, Nat2Z.id, <- Hlast; cbn [key_delta e]; rewrite Hkey. }
  assert (Hpos : ∀ r, r ∈ rs → (r ≤ length es)%nat) by eauto using built_positions.
  exists (es ++ [e]), (if entries_since_restart b >=? restart_interval b
                       then rs ++ [length es] else rs).
  split.
  - by rewrite Hadd, encode_app, Hbuf; unfold encode at 3; cbn; rewrite app_nil_r.
  - apply Forall_app; split; [done|]. apply Forall_singleton. split; [rewrite He; lia|].
    unfold U64. cbn [key_delta value e]. lia.
  - rewrite <- Hrow. apply decode_rows_snoc; [done|]. rewrite He, <- Hlast. lia.
  - cbn. unfold final_key. by rewrite last_snoc.
  - rewrite Hadd, length_app. cbn [last_key Builder_add].
    rewrite <- Hkey at 1. rewrite length_app, length_take. lia.
  - unfold Builder_add. cbn [restart_offsets]. rewrite Hoff.
    destruct (_ >=? _); [|by rewrite offsets_snoc].
    rewrite fmap_app, offsets_snoc by done. cbn. rewrite take_app_length, <- Hbuf.
    rewrite Z.mod_small by lia. done.
  - by destruct (_ >=? _), rs.
  - intros i r. destruct (_ >=? _) eqn:E; intros Hi.
    + apply lookup_app_Some in Hi as [Hi|[Hi1 Hi]].
      * destruct (Hrs _ _ Hi) as (e' & ? & ?). exists e'. split; [by apply lookup_app_l_Some|done].
      * apply list_lookup_singleton_Some in Hi as [_ <-]. exists e.
        split; [by apply list_lookup_middle|]. rewrite He. unfold add_shared. by rewrite E.
    + destruct (Hrs _ _ Hi) as (e' & ? & ?). exists e'. split; [by apply lookup_app_l_Some|done].
Qed.

Lemma built_add_all d n kvs :
  Builder_current_size (Builder_add_all (Builder_new d n) kvs) < 2 ^ 32 →
  ∃ es rs, built (Builder_add_all (Builder_new d n) kvs) kvs es rs.
Proof.
  induction kvs as [|[k v] kvs IH] using rev_ind; [eauto using built_new|].
  unfold Builder_add_all in *. rewrite foldl_app. cbn [foldl fst snd]. intros Hsz.
  destruct IH as (es & rs & Hb); [|by eapply built_add].
  pose proof (add_size (foldl (λ b kv, Builder_add b kv.1 kv.2) (Builder_new d n) kvs) k v). lia.
Qed.

(** ** Reading a finished block *)

Lemma split_last_app a b n : length b = n → split_last (a ++ b) n = (a, b).
Proof.
  intros <-. unfold split_last. rewrite length_app, Nat.add_sub.
  by rewrite take_app_length, drop_app_length.
Qed.

Lemma length_u32s restarts : length (flat_map (to_le_bytes 4) restarts) = (4 * length restarts)%nat.
Proof.
  induction restarts as [|r l IH]; [done|].
  cbn [flat_map]. rewrite length_app, length_to_le_bytes, IH. cbn [length]. lia.
Qed.

Lemma u32_slice_flat restarts :
  Forall (λ r, 0 ≤ r < 2 ^ 32) restarts →
  u32_slice (length restarts) (flat_map (to_le_bytes 4) restarts) = restarts.
Proof.
  induction 1 as [|r l Hr Hl IH]; [done|]. cbn [flat_map length u32_slice].
  rewrite take_app_length', drop_app_length' by by rewrite length_to_le_bytes.
  by rewrite from_to_le_bytes, IH.
Qed.

Lemma min_size_ok input n : n ≤ Z.of_nat (length input) → min_size input n = inr tt.
Proof. intros H. unfold min_size. by rewrite (proj2 (Z.ltb_ge _ _)). Qed.

Lemma parse_footer buf restarts :
  head restarts = Some 0 → Forall (λ r, 0 ≤ r < 2 ^ 32) restarts →
  Z.of_nat (length restarts) < 2 ^ 31 →
  ∃ footer, serialize_block_footer None restarts = Done (inr footer) ∧
    length footer = (4 * (length restarts + 1))%nat ∧
    DataBlockRef_parse (buf ++ footer) = inr (mkDataBlockRef buf None restarts).
Proof.
  intros Hhd Hr Hn. set (n := Z.of_nat (length restarts)) in *.
  assert (1 ≤ n) by (destruct restarts; [done|]; unfold n; cbn [length]; lia).
  assert (Hland : Z.land n (2 ^ 31 - 1) = n).
  { change (2 ^ 31 - 1) with (Z.ones 31). rewrite Z.land_ones, Z.mod_small by lia. done. }
  assert (Hbit : Z.land n (2 ^ 31) = 0).
  { apply Z.bits_inj'. intros i Hi. rewrite Z.land_spec, Z.bits_0, Z.pow2_bits_eqb by lia.
    destruct (Z.eqb_spec 31 i) as [<-|]; [|apply andb_false_r].
    rewrite (proj2 (Z.testbit_false n 31 ltac:(lia))); [done|]. by rewrite Z.div_small by lia. }
  unfold serialize_block_footer. fold n.
  rewrite (Z.mod_small n), Hbit by lia. cbn [Z.eqb negb]. eexists; split; [done|].
  cbn [is_Some]. rewrite bool_decide_eq_false_2 by (by intros []). cbn [app].
  split; [rewrite length_app, length_u32s, length_to_le_bytes; lia|].
  unfold DataBlockRef_parse. rewrite (assoc_L (++)).
  rewrite min_size_ok by (rewrite !length_app, length_to_le_bytes; lia). cbn [rbind].
  rewrite split_last_app by apply length_to_le_bytes.
  rewrite from_to_le_bytes, Hland, (proj2 (Z.ltb_ge _ _)) by lia.
  rewrite Z.shiftr_div_pow2, Z.div_small by lia. cbn [Z.eqb rbind].
  rewrite min_size_ok by (rewrite length_app, length_u32s; lia). cbn [rbind].
  rewrite split_last_app by (rewrite length_u32s; unfold n; lia).
  unfold n. by rewrite Nat2Z.id, u32_slice_flat, Hhd by done.
Qed.

(** What a builder with this state writes is read back as its entries. *)
Lemma built_finish b kvs es rs :
  built b kvs es rs → Builder_current_size b < 2 ^ 32 →
  ∃ block, Builder_finish b =
      Done (inr (block, final_key [] kvs,
                 Builder_new (use_delta_encoding b) (restart_interval b))) ∧
    Z.of_nat (length block) = Builder_current_size b ∧
    DataBlockRef_parse block = inr (mkDataBlockRef (encode es) None (restart_offsets b)).
Proof.
  intros Hb Hsz. pose proof Hb as [Hbuf Hok Hrows Hlast Hlen Hoff Hhd Hrs].
  unfold Builder_current_size in *.
  destruct (parse_footer (buffer b) (restart_offsets b)) as (footer & Hf & Hlf & Hp).
  - rewrite Hoff. by destruct rs; simplify_eq/=.
  - rewrite Hoff, Forall_fmap. apply Forall_forall. intros r Hr. cbn.
    enough (length (encode (take r es)) ≤ length (encode es))%nat by (rewrite <- Hbuf in *; lia).
    rewrite <- (take_drop r es) at 2. rewrite encode_app, length_app. lia.
  - lia.
  - exists (buffer b ++ footer). unfold Builder_finish. rewrite Hf. cbn [rr_bind].
    rewrite Hlast. split; [done|]. split; [rewrite length_app; lia|]. by rewrite Hp, Hbuf.
Qed.

(** ** Seeking *)

(** What a parsed block holds. *)
Definition block_holds (b : DataBlockRef) (rows : list (bytes * bytes)) : Prop :=
  ∃ es rs, db_entries b = encode es ∧ Forall entry_ok es ∧ decode_rows [] es = Some rows ∧
    db_restarts b = (λ r, Z.of_nat (length (encode (take r es)))) <$> rs ∧ head rs = Some 0%nat ∧
    ∀ i r, rs !! S i = Some r → ∃ e, es !! r = Some e ∧ shared_bytes e = 0.

Lemma block_holds_rows b rows :
  block_holds b rows → iter_rows (DataBlockRef_rows b) rows ∧ (length rows ≤ length (db_entries b))%nat.
Proof.
  intros (es & rs & He & Hok & Hd & _). unfold DataBlockRef_rows. rewrite He. split; [by exists es, []|].
  rewrite (decode_rows_length _ _ _ Hd). apply length_encode_rows.
Qed.

Lemma built_holds b kvs es rs block :
  built b kvs es rs → DataBlockRef_parse block = inr (mkDataBlockRef (encode es) None (restart_offsets b)) →
  ∃ ref, DataBlockRef_parse block = inr ref ∧ block_holds ref kvs.
Proof.
  intros [] Hp. eexists. split; [exact Hp|]. exists es, rs. by split_and!.
Qed.

Lemma filter_all {A} (P : A → Prop) `{!∀ x, Decision (P x)} l : Forall P l → filter P l = l.
Proof. induction 1; [done|]. rewrite filter_cons_True by done. by f_equal. Qed.

Section seek.
Context (c : KeyComparator) `{!KeyComparatorLaws c} (key : bytes).
Hypothesis Hkey : kc_key key.

(** Rows in strictly increasing order of their keys. *)
Definition rows_sorted (rows : list (bytes * bytes)) : Prop :=
  StronglySorted (λ a b, ¬ kc_le b.1 a.1) rows.

(** The rows from [key] on. *)
Definition rows_from (rows : list (bytes * bytes)) : list (bytes * bytes) :=
  filter (λ kv, kc_le key kv.1) rows.

Lemma rows_from_all row rows :
  rows_sorted (row :: rows) → kc_le key row.1 → rows_from (row :: rows) = row :: rows.
Proof.
  intros [_ Hall]%StronglySorted_inv Hle. unfold rows_from.
  apply filter_all. constructor; [done|]. eapply Forall_impl; [exact Hall|].
  intros kv Hkv. cbn in *. etrans; [exact Hle|]. by destruct (kc_le_total row.1 kv.1).
Qed.

Lemma rows_from_drop rows r :
  Forall (λ kv, ¬ kc_le key kv.1) (take r rows) → rows_from (drop r rows) = rows_from rows.
Proof.
  intros Hr. unfold rows_from. rewrite <- (take_drop r rows) at 2.
  by rewrite filter_app, (filter_none _ (take r rows)).
Qed.

Lemma fast_forward_spec es last rows n :
  Forall entry_ok es → decode_rows last es = Some rows → rows_sorted rows →
  Forall (λ kv, kc_key kv.1) rows → (length es ≤ n)%nat →
  ∃ es' last', fast_forward n key c (mkKeyValueIterator (encode es) last) =
      Done (inr (mkKeyValueIterator (encode es') last')) ∧
    Forall entry_ok es' ∧ decode_rows last' es' = Some (rows_from rows).
Proof.
  intros Hok. revert last rows n.
  induction Hok as [|e es He Hes IH]; intros last rows n Hd Hsort Hk Hn; cbn [decode_rows] in Hd.
  - simplify_eq. exists [], last. by destruct n.
  - destruct n as [|n]; cbn [length] in Hn; [lia|].
    destruct (_ <? _) eqn:E in Hd; [done|]; b2p.
    apply fmap_Some in Hd as (rows' & Hd & ->).
    apply Forall_cons in Hk as [Hk1 Hk]. cbn [fast_forward].
    rewrite kv_peek_encode by done. cbn [rr_bind].
    destruct (entry_row last e) as [k v] eqn:Erow. cbn [fst] in *.
    destruct (kc_compare_spec key k Hkey Hk1) as (o & -> & Ho). cbn [rr_of_option rr_bind].
    assert (Hstop : kc_le key k → ∃ es' last',
      mkKeyValueIterator (encode (e :: es)) k = mkKeyValueIterator (encode es') last' ∧
      Forall entry_ok es' ∧ decode_rows last' es' = Some (rows_from ((k, v) :: rows'))).
    { intros Hle. exists (e :: es), k. split; [done|]. split; [by constructor|].
      rewrite rows_from_all by done. cbn [decode_rows].
      assert (Hrow : entry_row k e = (k, v) ∧ shared_bytes e ≤ Z.of_nat (length k)).
      { destruct He as [? _]. unfold entry_row in *. simplify_eq.
        rewrite length_app, length_take. split; [|lia].
        by rewrite take_app_le, take_take, Nat.min_id by (rewrite length_take; lia). }
      destruct Hrow as [-> Hl]. cbn [fst]. by rewrite (proj2 (Z.ltb_ge _ _)), Hd. }
    destruct o.
    + destruct Hstop as (es' & last' & -> & H); [by apply Ho|]. eauto.
    + destruct Hstop as (es' & last' & -> & H); [by destruct (kc_le_total key k)|]. eauto.
    + destruct (IH k rows' n) as (es' & last' & Hf & Hok' & Hd'); [done| |done|lia|].
      { by apply StronglySorted_inv in Hsort as [? _]. }
      exists es', last'. split; [done|]. split; [done|]. rewrite Hd'.
      unfold rows_from. by rewrite filter_cons_False.
Qed.

Context (es : list DataBlockEntry) (rows : list (bytes * bytes)) (b : DataBlockRef).
Hypothesis Hentries : db_entries b = encode es.
Hypothesis Hok : Forall entry_ok es.
Hypothesis Hrows : decode_rows [] es = Some rows.
Hypothesis Hsorted : rows_sorted rows.
Hypothesis Hkeys : Forall (λ kv, kc_key kv.1) rows.

Definition offset_of (r : nat) : Z := Z.of_nat (length (encode (take r es))).

Lemma slice_from_offset r : slice_from (db_entries b) (offset_of r) = Done (inr (encode (drop r es))).
Proof.
  unfold slice_from, offset_of. rewrite Hentries.
  assert (E : encode es = encode (take r es) ++ encode (drop r es)) by by rewrite <- encode_app, take_drop.
  rewrite E, (proj2 (Z.ltb_ge _ _)) by (rewrite length_app; lia).
  by rewrite Nat2Z.id, drop_app_length.
Qed.

(** A restart from which nothing that is at or after [key] is missed. *)
Definition good_start (r : nat) : Prop :=
  decode_rows [] (drop r es) = Some (drop r rows) ∧
  Forall (λ kv, ¬ kc_le key kv.1) (take r rows).

Lemma take_below r kv :
  rows !! r = Some kv → kc_le kv.1 key → Forall (λ kv, ¬ kc_le key kv.1) (take r rows).
Proof.
  intros Hr Hle. pose proof Hsorted as Hs. unfold rows_sorted in Hs.
  rewrite (lookup_split rows r kv Hr) in Hs.
  apply StronglySorted_app in Hs as (Hall & _ & _). apply Forall_forall.
  intros kv' Hin Hc. apply (Hall kv' kv Hin); [by left|]. by etrans.
Qed.

Lemma restart_search_spec n rs :
  (0 < length rs ≤ n)%nat → (∀ r, head rs = Some r → good_start r) →
  (∀ i r, rs !! S i = Some r → ∃ e, es !! r = Some e ∧ shared_bytes e = 0) →
  ∃ r, restart_search n b key (offset_of <$> rs) c = Done (inr (offset_of r)) ∧ good_start r.
Proof.
  revert rs. induction n as [|n IH]; intros rs Hn Hhd Hrs; [lia|]. cbn [restart_search].
  rewrite length_fmap. destruct (Nat.eqb_spec (length rs) 1) as [E|E].
  { destruct rs as [|r [|]]; try done. exists r. by eauto. }
  pose proof (Nat.div_lt (length rs) 2 ltac:(lia) ltac:(lia)).
  assert (1 ≤ length rs / 2)%nat by (apply (Nat.div_le_lower_bound _ 2); lia).
  set (mid := (length rs / 2)%nat) in *.
  destruct (lookup_lt_is_Some_2 rs mid) as [r Hr]; [lia|].
  rewrite list_lookup_fmap, Hr. cbn [fmap option_fmap option_map rr_of_option rr_bind].
  rewrite slice_from_offset. cbn [rr_bind].
  destruct (Hrs (pred mid) r) as (e & He & Hsh); [by rewrite Nat.succ_pred by lia|].
  destruct (decode_rows_restart _ _ _ _ _ Hrows He Hsh) as [Hdec Hrow].
  rewrite (drop_S es e r He), encode_cons.
  rewrite parse_serialize_entry by (eapply Forall_lookup_1; eauto). cbn [rr_bind].
  rewrite Hsh. cbn [Z.eqb negb].
  assert (Hk : kc_key (key_delta e)).
  { apply (Forall_lookup_1 _ _ _ _ Hkeys Hrow). }
  destruct (kc_compare_spec key (key_delta e) Hkey Hk) as (o & -> & Ho). cbn [rr_of_option rr_bind].
  destruct o.
  - exists r. split; [done|]. split; [done|]. apply (take_below r _ Hrow), Ho.
  - rewrite <- fmap_take. apply IH; [rewrite length_take; lia| |].
    + intros r'. destruct rs, mid; cbn; try done; try lia. intros ?. by apply Hhd.
    + intros i r' [Hi _]%lookup_take_Some. eauto.
  - rewrite <- fmap_drop. apply IH; [rewrite length_drop; lia| |].
    + intros r'. rewrite (drop_S _ _ _ Hr). intros [= <-]. split; [done|].
      apply (take_below r _ Hrow). by destruct (kc_le_total key (key_delta e)).
    + intros i r'. rewrite lookup_drop, Nat.add_succ_r. eauto.
Qed.

Lemma before_rows rs :
  head rs = Some 0%nat →
  (∀ i r, rs !! S i = Some r → ∃ e, es !! r = Some e ∧ shared_bytes e = 0) →
  db_restarts b = offset_of <$> rs →
  ∃ it, DataBlockRef_before b key c = Done (inr it) ∧ iter_rows it (rows_from rows).
Proof.
  intros Hhd Hrs Hr. unfold DataBlockRef_before.
  destruct (restart_search_spec (length rs) rs) as (r & Hs & Hdec & Hbelow).
  - destruct rs; [done|]. cbn [length]. lia.
  - intros r. rewrite Hhd. intros [= <-]. by split.
  - done.
  - rewrite Hr, length_fmap, Hs. cbn [rr_bind]. rewrite slice_from_offset. cbn [rr_bind].
    destruct (fast_forward_spec (drop r es) [] (drop r rows) (length (encode (drop r es))))
      as (es' & last' & Hf & Hok' & Hd').
    + by apply Forall_drop.
    + done.
    + unfold rows_sorted in *. rewrite <- (take_drop r rows) in Hsorted.
      by eapply StronglySorted_app_1_r.
    + by apply Forall_drop.
    + apply length_encode_rows.
    + eexists. split; [exact Hf|]. rewrite rows_from_drop in Hd' by done. by exists es', last'.
Qed.

Lemma before_spec rs n :
  head rs = Some 0%nat →
  (∀ i r, rs !! S i = Some r → ∃ e, es !! r = Some e ∧ shared_bytes e = 0) →
  db_restarts b = offset_of <$> rs → (length es ≤ n)%nat →
  ∃ it, DataBlockRef_before b key c = Done (inr it) ∧
    collect_rows n it = Done (inr (rows_from rows)).
Proof.
  intros Hhd Hrs Hr Hn. destruct (before_rows rs Hhd Hrs Hr) as (it & Hb & es' & last' & -> & Hok' & Hd').
  eexists. split; [exact Hb|]. eapply collect_encode; [done|done|].
  apply decode_rows_length in Hd'. rewrite <- Hd'. unfold rows_from.
  pose proof (length_filter (λ kv, kc_le key kv.1) rows).
  apply decode_rows_length in Hrows. lia.
Qed.
End seek.

Lemma block_holds_before c `{!KeyComparatorLaws c} b rows key :
  block_holds b rows → rows_sorted c rows → Forall (λ kv, kc_key kv.1) rows → kc_key key →
  ∃ it, DataBlockRef_before b key c = Done (inr it) ∧ iter_rows it (filter (λ kv, kc_le key kv.1) rows).
Proof.
  intros (es & rs & He & Hok & Hd & Hr & Hhd & Hrs) Hs Hks Hk.
  by apply (before_rows c key Hk es rows b He Hok Hd Hs Hks rs Hhd Hrs).
Qed.

(** ** Theorems *)

Lemma add_all_config d n kvs :
  use_delta_encoding (Builder_add_all (Builder_new d n) kvs) = d ∧
  restart_interval (Builder_add_all (Builder_new d n) kvs) = n.
Proof.
  induction kvs as [|kv kvs IH] using rev_ind; [done|].
  unfold Builder_add_all in *. by rewrite foldl_app.
Qed.

Lemma block_rows d n kvs :
  let b := Builder_add_all (Builder_new d n) kvs in
  Builder_current_size b < 2 ^ 32 →
  ∃ block ref, Builder_finish b = Done (inr (block, final_key [] kvs, Builder_new d n)) ∧
    Z.of_nat (length block) = Builder_current_size b ∧
    DataBlockRef_parse block = inr ref ∧
    collect_rows (length kvs) (DataBlockRef_rows ref) = Done (inr kvs).
Proof.
  intros b Hsz. destruct (built_add_all d n kvs Hsz) as (es & rs & Hb).
  destruct (built_finish _ _ _ _ Hb Hsz) as (block & Hf & Hl & Hp).
  destruct (add_all_config d n kvs) as [Ed En]. rewrite Ed, En in Hf.
  exists block, (mkDataBlockRef (encode es) None (restart_offsets b)).
  do 3 (split; [done|]). apply collect_encode; [apply Hb|apply Hb|].
  by rewrite (decode_rows_length _ _ _ (bt_rows _ _ _ _ Hb)).
Qed.

(** A block written by [DataBlockBuilder] (any restart interval, with or
    without delta encoding, rows in any order) and parsed again gives back
    exactly the rows that were added, in order; its length is what
    [current_size] promises, and the builder is left as new. *)
Theorem block_roundtrip d n kvs :
  Builder_current_size (Builder_add_all (Builder_new d n) kvs) < 2 ^ 32 →
  ∃ block ref,
    Builder_finish (Builder_add_all (Builder_new d n) kvs) =
      Done (inr (block, final_key [] kvs, Builder_new d n)) ∧
    Z.of_nat (length block) = Builder_current_size (Builder_add_all (Builder_new d n) kvs) ∧
    DataBlockRef_parse block = inr ref ∧
    collect_rows (length kvs) (DataBlockRef_rows ref) = Done (inr kvs).
Proof. apply block_rows. Qed.

Definition sample_rows : list (bytes * bytes) :=
  [([1], [10]); ([1; 2; 3], []); ([1; 2; 4], [11; 12]); ([2], [13]); ([255; 0], [14])].

Lemma block_roundtrip_witness :
  ∃ block ref,
    Builder_finish (Builder_add_all (Builder_new true 2) sample_rows) =
      Done (inr (block, [255; 0], Builder_new true 2)) ∧
    Z.of_nat (length block) = Builder_current_size (Builder_add_all (Builder_new true 2) sample_rows) ∧
    DataBlockRef_parse block = inr ref ∧
    collect_rows 5 (DataBlockRef_rows ref) = Done (inr sample_rows).
Proof. apply (block_roundtrip true 2 sample_rows). by vm_compute. Defined.

(** C34: Seeking in a block of less than 4 GiB, built from rows in strictly
    increasing key order, stops, without a panic or an error, at the first row at or after the
    key: the iterator [before] returns gives exactly the rows from the key
    on, for every comparator that keeps its laws. *)
Theorem block_seek c `{!KeyComparatorLaws c} d n kvs key :
  Builder_current_size (Builder_add_all (Builder_new d n) kvs) < 2 ^ 32 →
  rows_sorted c kvs → Forall (λ kv, kc_key kv.1) kvs → kc_key key →
  ∃ block last b' ref it,
    Builder_finish (Builder_add_all (Builder_new d n) kvs) = Done (inr (block, last, b')) ∧
    DataBlockRef_parse block = inr ref ∧
    DataBlockRef_before ref key c = Done (inr it) ∧
    collect_rows (length kvs) it = Done (inr (filter (λ kv, kc_le key kv.1) kvs)).
Proof.
  intros Hsz Hs Hks Hk. destruct (built_add_all d n kvs Hsz) as (es & rs & Hb).
  destruct (built_finish _ _ _ _ Hb Hsz) as (block & Hf & _ & Hp).
  destruct Hb as [Hbuf Hok Hrows Hlast Hlen Hoff Hhd Hrs].
  set (ref := mkDataBlockRef (encode es) None (restart_offsets (Builder_add_all (Builder_new d n) kvs))) in *.
  destruct (before_spec c key Hk es kvs ref eq_refl Hok Hrows Hs Hks rs (length kvs) Hhd Hrs)
    as (it & Hbe & Hc).
  - exact Hoff.
  - by rewrite (decode_rows_length _ _ _ Hrows).
  - by exists block, (final_key [] kvs), (Builder_new (use_delta_encoding (Builder_add_all (Builder_new d n) kvs))
      (restart_interval (Builder_add_all (Builder_new d n) kvs))), ref, it.
Qed.

Lemma block_seek_witness :
  ∃ block last b' ref it,
    Builder_finish (Builder_add_all (Builder_new true 2) sample_rows) = Done (inr (block, last, b')) ∧
    DataBlockRef_parse block = inr ref ∧
    DataBlockRef_before ref [1; 2; 3; 0] BytewiseComparator = Done (inr it) ∧
    collect_rows 5 it = Done (inr (drop 2 sample_rows)).
Proof.
  destruct (block_seek BytewiseComparator true 2 sample_rows [1; 2; 3; 0])
    as (block & last & b' & ref & it & Hf & Hp & Hb & Hc).
  - by vm_compute.
  - repeat constructor; intros H; by apply H.
  - cbn. repeat (apply Forall_cons; split); try apply Forall_nil; done.
  - cbn. repeat (apply Forall_cons; split); try apply Forall_nil; done.
  - exists block, last, b', ref, it. split; [exact Hf|]. split; [exact Hp|]. split; [exact Hb|].
    etrans; [exact Hc|]. by vm_compute.
Defined.

#[export] Instance row_le_transitive : Transitive row_le.
Proof.
  intros [a1 a2] [b1 b2] [c1 c2]. unfold row_le. cbn.
  destruct (bytes_compare a1 b1) eqn:E1, (bytes_compare b1 c1) eqn:E2; try done.
  - apply bytes_compare_Eq in E1 as ->. rewrite E2. apply transitivity.
  - apply bytes_compare_Eq in E1 as ->. by rewrite E2.
  - apply bytes_compare_Eq in E2 as ->. by rewrite E1.
  - by rewrite (bytes_compare_Lt_trans _ _ _ E1 E2).
Qed.

#[export] Instance row_le_total : Total row_le.
Proof.
  intros [a1 a2] [b1 b2]. unfold row_le. cbn. rewrite (bytes_compare_antisym a1 b1).
  destruct (bytes_compare a1 b1); cbn; auto. apply bytes_le_total.
Qed.

(** A block of [UnsortedDataBlockBuilder] holds the rows that were added,
    sorted by key and then value. *)
Theorem unsorted_block_roundtrip u :
  let data := merge_sort row_le (ub_data u) in
  Builder_current_size
    (Builder_add_all (Builder_new (ub_use_delta_encoding u) (ub_restart_interval u)) data) < 2 ^ 32 →
  ∃ block u' ref rows,
    Unsorted_finish u = Done (inr (block, u')) ∧ DataBlockRef_parse block = inr ref ∧
    collect_rows (length (ub_data u)) (DataBlockRef_rows ref) = Done (inr rows) ∧
    rows ≡ₚ ub_data u ∧ StronglySorted row_le rows.
Proof.
  intros data Hsz. destruct (block_rows _ _ _ Hsz) as (block & ref & Hf & _ & Hp & Hc).
  assert (Hperm : data ≡ₚ ub_data u) by apply merge_sort_Permutation.
  eexists block, _, ref, data. unfold Unsorted_finish. fold data. rewrite Hf.
  split; [done|]. split; [done|]. rewrite <- Hperm. split; [done|]. split; [done|].
  apply StronglySorted_merge_sort; apply _.
Qed.

Lemma unsorted_block_roundtrip_witness :
  ∃ block u' ref rows,
    Unsorted_finish (mkUnsortedBuilder true 16 [([9], [1]); ([3], []); ([9], [0])]) =
      Done (inr (block, u')) ∧ DataBlockRef_parse block = inr ref ∧
    collect_rows 3 (DataBlockRef_rows ref) = Done (inr rows) ∧
    rows ≡ₚ [([9], [1]); ([3], []); ([9], [0])] ∧ StronglySorted row_le rows.
Proof.
  apply (unsorted_block_roundtrip (mkUnsortedBuilder true 16 [([9], [1]); ([3], []); ([9], [0])])).
  by vm_compute.
Defined.

Lemma BlockHandle_roundtrip h rest :
  0 ≤ bh_offset h < U64 → 0 ≤ bh_size h < U64 →
  BlockHandle_parse (BlockHandle_serialized h ++ rest) = inr (h, rest).
Proof.
  intros Ho Hs. unfold BlockHandle_parse, BlockHandle_serialized.
  rewrite <- (assoc_L (++)), parse_serialize_varint by done. cbn [from_wire rbind].
  rewrite parse_serialize_varint by done. by destruct h.
Qed.
