(* ===== verification/Snappy.v ===== *)
(** * Snappy compression

    src/pkg/compression/src/snappy/mod.rs and snappy/window.rs, with the parts
    of deflate/cyclic_buffer.rs they use. The buffer of a window is the input
    itself up to a position ([SliceBuffer]); its hash table of [table_size]
    positions is a map whose absent entries are 0. The hash of four bytes is an
    instruction of the processor, any function here. *)

From S2P Require Import Prelude Wire Encoding.

Definition BLOCK_SIZE : Z := 2 ^ 16.

(** [MatchingWindowSnappyOptions::default()] *)
Definition table_size : Z := 2 ^ 16.
Definition max_match_length : nat := 64.

Record RelativeReference := mkRelativeReference { rf_distance : Z; rf_length : nat }.

(** ** Finding matches *)

Section Window.
Context (crc32c_raw_oneshot : Z → Z).

(** [MatchingWindowSnappy] over the input. *)
Record Window := mkWindow { wd_pos : nat; wd_table : gmap Z Z }.

Definition Window_new : Window := mkWindow 0 ∅.

Definition bucket_index (data : bytes) : Z := crc32c_raw_oneshot (from_le_bytes data) mod table_size.

(** The loop of [advance] over [n] positions from [i] on. *)
Fixpoint record_positions (input : bytes) (n i : nat) (table : gmap Z Z) : gmap Z Z :=
  match n with
  | O => table
  | S n =>
    let buf := take 4 (drop i input) in
    record_positions input n (S i) (<[bucket_index buf := Z.of_nat i mod BLOCK_SIZE]> table)
  end.

(** [advance]: the next [len] bytes of the input. *)
Definition advance (input : bytes) (len : nat) (w : Window) : Window :=
  let end_offset := (wd_pos w + len)%nat in
  let first := (end_offset - (len + 3))%nat in
  let last := (end_offset - 3)%nat in
  mkWindow end_offset (record_positions input (last - first) first (wd_table w)).

(** The loop of [find_match]: the first [i] that is too large or at which [s] and
    [data] differ, and 0 when there is none. *)
Fixpoint match_length (max i : nat) (s data : bytes) : nat :=
  match s, max, data with
  | [], _, _ => O
  | x :: s, S max, y :: data => if x =? y then match_length max (S i) s data else i
  | _ :: _, _, _ => i
  end.

Definition find_match (input : bytes) (w : Window) (data : bytes) : option RelativeReference :=
  if (length data <? 4)%nat then None else
  let relative_offset := default 0 (wd_table w !! bucket_index (take 4 data)) in
  let end_offset := Z.of_nat (wd_pos w) in
  let block_start := end_offset / BLOCK_SIZE * BLOCK_SIZE in
  let offset := block_start + relative_offset in
  if (end_offset <=? offset) && (offset <? BLOCK_SIZE) then None else
  let offset := if end_offset <=? offset then offset - BLOCK_SIZE else offset in
  let s := take (wd_pos w - Z.to_nat offset) (drop (Z.to_nat offset) input) ++ data in
  let len := match_length max_match_length 0 s data in
  if (4 <=? len)%nat then Some (mkRelativeReference (end_offset - offset) len) else None.

(** ** Compressing *)

Definition TAG_TYPE_NBITS : Z := 2.
Definition TAG_TYPE_MASK : Z := 3.
Definition TAG_LITERAL : Z := 0.
Definition TAG_COPY1 : Z := 1.
Definition TAG_COPY2 : Z := 2.
Definition TAG_COPY4 : Z := 3.

(** [as u8] *)
Definition as_u8 (v : Z) : Z := v mod 256.

Definition snappy_write_reference (r : RelativeReference) : option bytes :=
  let length := Z.of_nat (rf_length r) in
  let distance := rf_distance r in
  if negb (length <=? 64) then None
  else if (4 <=? length) && (length <=? 11) && (distance <=? 2047) then
    Some [Z.lor (Z.lor TAG_COPY1 (as_u8 (Z.shiftl (length - 4) 2))) (as_u8 (Z.shiftl (Z.shiftr distance 8) 5));
          as_u8 (Z.land distance 255)]
  else if distance <=? 65535 then
    Some (Z.lor TAG_COPY2 (as_u8 (Z.shiftl (length - 1) 2)) :: to_le_bytes 2 distance)
  else
    Some (Z.lor TAG_COPY4 (as_u8 (Z.shiftl (length - 1) 2)) :: to_le_bytes 4 distance).

(** [u32::leading_zeros] and [ceil_div] of src/pkg/common/src/lib.rs *)
Definition leading_zeros32 (v : Z) : Z := if v =? 0 then 32 else 31 - Z.log2 v.
Definition ceil_div (a b : Z) : Z := if negb (a mod b =? 0) then a / b + 1 else a / b.

Definition snappy_write_literal (data : bytes) : bytes :=
  if (length data =? 0)%nat then [] else
  let len := (Z.of_nat (length data) - 1) mod 2 ^ 32 in
  (if len <? 60 then [Z.lor TAG_LITERAL (as_u8 (Z.shiftl len TAG_TYPE_NBITS))]
   else
     let nbytes := ceil_div (32 - leading_zeros32 len) 8 in
     Z.lor TAG_LITERAL (as_u8 (Z.shiftl (59 + nbytes) TAG_TYPE_NBITS)) ::
     take (Z.to_nat nbytes) (to_le_bytes 4 len)) ++
  data.

(** The loop of [snappy_compress]; every round moves [i]. *)
Fixpoint compress_loop (fuel : nat) (input : bytes) (w : Window) (next_idx i : nat) (output : bytes) : run bytes :=
  match fuel with
  | O => OutOfFuel
  | S fuel =>
    if (i <? length input)%nat then
      match find_match input w (drop i input) with
      | Some r =>
        match snappy_write_reference r with
        | Some ref =>
          let output := output ++ snappy_write_literal (take (i - next_idx) (drop next_idx input)) ++ ref in
          compress_loop fuel input (advance input (rf_length r) w) (i + rf_length r) (i + rf_length r) output
        | None => Panicked
        end
      | None => compress_loop fuel input (advance input 1 w) next_idx (S i) output
      end
    else Done (output ++ snappy_write_literal (take (i - next_idx) (drop next_idx input)))
  end.

Definition snappy_compress (input : bytes) : run bytes :=
  compress_loop (S (length input)) input Window_new 0 0 (serialize_varint (Z.of_nat (length input))).
End Window.

(** ** Decompressing *)

Definition byte (input : bytes) : Result (Z * bytes) :=
  match input with [] => inl EInputTooSmall | b :: rest => inr (b, rest) end.

Definition sized_usize (nbytes : nat) (input : bytes) : Result (Z * bytes) :=
  if (length input <? nbytes)%nat then inl EInputTooSmall
  else inr (from_le_bytes (take nbytes input), drop nbytes input).

(** [le_u16] and [le_u32] of src/pkg/parsing/src/binary.rs *)
Definition le_uint (nbytes : nat) (input : bytes) : Result (Z * bytes) :=
  if (length input <? nbytes)%nat then inl ETooShort
  else inr (from_le_bytes (take nbytes input), drop nbytes input).

Inductive Tag :=
| Literal (size : Z)
| Copy (reference : RelativeReference).

Definition Tag_parse (input : bytes) : Result (Tag * bytes) :=
  ok! (tag, input) := byte input in
  let tag_type := Z.land tag TAG_TYPE_MASK in
  if tag_type =? TAG_LITERAL then
    let tag_upper := Z.shiftr tag TAG_TYPE_NBITS in
    if 60 <=? tag_upper then
      ok! (size, input) := sized_usize (Z.to_nat (tag_upper - 59)) input in
      inr (Literal (size + 1), input)
    else inr (Literal (tag_upper + 1), input)
  else if tag_type =? TAG_COPY1 then
    let len := Z.land (Z.shiftr tag TAG_TYPE_NBITS) 7 + 4 in
    let offset_upper := Z.land (Z.shiftr tag 5) 7 in
    ok! (b, input) := byte input in
    inr (Copy (mkRelativeReference (Z.lor b (Z.shiftl offset_upper 8)) (Z.to_nat len)), input)
  else
    let len := Z.shiftr tag TAG_TYPE_NBITS + 1 in
    ok! (offset, input) := le_uint (if tag_type =? TAG_COPY2 then 2 else 4) input in
    inr (Copy (mkRelativeReference offset (Z.to_nat len)), input).

(** The loop of [copy]: [n] bytes, at most [distance] of them at a time. *)
Fixpoint copy_loop (fuel : nat) (distance len : nat) (output : bytes) : bytes :=
  match fuel, len with
  | S fuel, S _ =>
    let n := Nat.min distance len in
    copy_loop fuel distance (len - n) (output ++ take n (drop (length output - distance) output))
  | _, _ => output
  end.

Definition copy (uncompressed_length : Z) (reference : RelativeReference) (output : bytes) : Result bytes :=
  let len := rf_length reference in
  let distance := rf_distance reference in
  if (Z.of_nat len =? 0) || (distance =? 0) || (Z.of_nat (length output) <? distance) ||
     (uncompressed_length <? Z.of_nat (length output) + Z.of_nat len)
  then inl EInvalidReference
  else inr (copy_loop len (Z.to_nat distance) len output).

(** The loop of [snappy_decompress]; every tag uses up input. *)
Fixpoint decompress_loop (fuel : nat) (uncompressed_length : Z) (input output : bytes) : run (Result (bytes * bytes)) :=
  if Z.of_nat (length output) <? uncompressed_length then
    match fuel with
    | O => OutOfFuel
    | S fuel =>
      match Tag_parse input with
      | inl e => Done (inl e)
      | inr (Literal size, input) =>
        if uncompressed_length <? Z.of_nat (length output) + size then Done (inl ELiteralExceedsSize)
        else if Z.of_nat (length input) <? size then Done (inl ELiteralExceedsInput)
        else decompress_loop fuel uncompressed_length (drop (Z.to_nat size) input) (output ++ take (Z.to_nat size) input)
      | inr (Copy reference, input) =>
        match copy uncompressed_length reference output with
        | inl e => Done (inl e)
        | inr output => decompress_loop fuel uncompressed_length input output
        end
      end
    end
  else Done (inr (output, input)).

(** The bytes written and the rest of the input. *)
Definition snappy_decompress (input output : bytes) : run (Result (bytes * bytes)) :=
  match parse_varint input with
  | inl e => Done (inl (EWire e))
  | inr (uncompressed_length, input) => decompress_loop (S (length input)) uncompressed_length input output
  end.
