(* ===== verification/SnappyTheorems.v ===== *)
(** * Snappy round trip

    What [snappy_compress] writes is what [snappy_decompress] reads, whatever
    the hash function of the window. *)

From S2P Require Import Prelude Wire Encoding Comparator Snappy.

(** ** Tags *)

(** A property of bytes that is checked for all of them. *)
Lemma byte_range_all (n : nat) (P : Z → bool) :
  forallb P (Z.of_nat <$> seq 0 n) = true → ∀ v, 0 ≤ v < Z.of_nat n → P v = true.
Proof.
  intros H v Hv. rewrite forallb_forall in H. apply H, list_elem_of_In, list_elem_of_fmap.
  exists (Z.to_nat v). split; [lia|]. apply elem_of_seq. lia.
Qed.

Definition copy1_tag (l d : Z) : Z := Z.lor (Z.lor TAG_COPY1 (as_u8 (Z.shiftl l 2))) (as_u8 (Z.shiftl d 5)).

Lemma copy1_tag_ok l d :
  0 ≤ l < 8 → 0 ≤ d < 8 →
  Z.land (copy1_tag l d) TAG_TYPE_MASK = TAG_COPY1 ∧
  Z.land (Z.shiftr (copy1_tag l d) TAG_TYPE_NBITS) 7 = l ∧ Z.land (Z.shiftr (copy1_tag l d) 5) 7 = d.
Proof.
  intros Hl Hd.
  pose (P := λ v, let l := v / 8 in let d := v mod 8 in
    (Z.land (copy1_tag l d) TAG_TYPE_MASK =? TAG_COPY1) &&
    (Z.land (Z.shiftr (copy1_tag l d) TAG_TYPE_NBITS) 7 =? l) && (Z.land (Z.shiftr (copy1_tag l d) 5) 7 =? d)).
  assert (P (l * 8 + d) = true) as HP by (apply (byte_range_all 64); [by vm_compute|lia]).
  unfold P in HP. rewrite Z.div_add_l, Z.div_small, Z.add_0_r, Z.add_comm, Z.mod_add, Z.mod_small in HP by lia.
  b2p. lia.
Qed.

Lemma upper_tag_ok t l :
  0 ≤ t < 4 → 0 ≤ l < 64 →
  Z.land (Z.lor t (as_u8 (Z.shiftl l 2))) TAG_TYPE_MASK = t ∧ Z.shiftr (Z.lor t (as_u8 (Z.shiftl l 2))) TAG_TYPE_NBITS = l.
Proof.
  intros Ht Hl.
  pose (P := λ v, let t := v mod 4 in let l := v / 4 in
    (Z.land (Z.lor t (as_u8 (Z.shiftl l 2))) TAG_TYPE_MASK =? t) &&
    (Z.shiftr (Z.lor t (as_u8 (Z.shiftl l 2))) TAG_TYPE_NBITS =? l)).
  assert (P (l * 4 + t) = true) as HP by (apply (byte_range_all 256); [by vm_compute|lia]).
  unfold P in HP. rewrite Z.div_add_l, Z.div_small, Z.add_0_r, Z.add_comm, Z.mod_add, Z.mod_small in HP by lia.
  b2p. lia.
Qed.

Lemma split_distance d : 0 ≤ d → Z.lor (Z.land d 255) (Z.shiftl (Z.shiftr d 8) 8) = d.
Proof.
  intros Hd. change 255 with (Z.ones 8). rewrite Z.land_ones, Z.shiftr_div_pow2, Z.shiftl_mul_pow2 by lia.
  rewrite lor_disjoint by (try apply Z.mod_pos_bound; lia). pose proof (Z.div_mod d (2 ^ 8)). lia.
Qed.

Lemma take_to_le_bytes k n v : (k ≤ n)%nat → take k (to_le_bytes n v) = to_le_bytes k v.
Proof. revert n v. induction k as [|k IH]; intros [|n] v Hk; cbn; [done|done|lia|]. by rewrite IH by lia. Qed.

Lemma le_uint_ok n v rest : 0 ≤ v < 256 ^ Z.of_nat n → le_uint n (to_le_bytes n v ++ rest) = inr (v, rest).
Proof.
  intros Hv. unfold le_uint. rewrite length_app, length_to_le_bytes, (proj2 (Nat.ltb_ge _ _)) by lia.
  rewrite take_app_length', drop_app_length' by (by rewrite length_to_le_bytes). by rewrite from_to_le_bytes.
Qed.

Lemma sized_usize_ok n v rest : 0 ≤ v < 256 ^ Z.of_nat n → sized_usize n (to_le_bytes n v ++ rest) = inr (v, rest).
Proof.
  intros Hv. unfold sized_usize. rewrite length_app, length_to_le_bytes, (proj2 (Nat.ltb_ge _ _)) by lia.
  rewrite take_app_length', drop_app_length' by (by rewrite length_to_le_bytes). by rewrite from_to_le_bytes.
Qed.

(** A reference is parsed as it was written. *)
Lemma write_reference_ok r :
  (1 ≤ rf_length r ≤ 64)%nat → 0 ≤ rf_distance r < 2 ^ 32 →
  ∃ bs, snappy_write_reference r = Some bs ∧ bs ≠ [] ∧ ∀ rest, Tag_parse (bs ++ rest) = inr (Copy r, rest).
Proof.
  destruct r as [d l]. cbn. intros Hl Hd. unfold snappy_write_reference. cbn [rf_length rf_distance].
  rewrite (proj2 (Z.leb_le _ _)) by lia. cbn [negb].
  destruct ((4 <=? Z.of_nat l) && (Z.of_nat l <=? 11) && (d <=? 2047)) eqn:E1; b2p.
  { eexists. split; [done|]. split; [done|]. intros rest. cbn [app].
    destruct (copy1_tag_ok (Z.of_nat l - 4) (Z.shiftr d 8)) as (H1 & H2 & H3); [lia| |].
    { rewrite Z.shiftr_div_pow2 by lia. split; [apply Z.div_pos; lia|]. apply Z.div_lt_upper_bound; lia. }
    unfold Tag_parse. cbn [byte rbind]. fold (copy1_tag (Z.of_nat l - 4) (Z.shiftr d 8)). rewrite H1, H2, H3.
    cbn [Z.eqb TAG_COPY1 TAG_LITERAL Pos.eqb byte rbind]. do 4 f_equal; [|lia].
    unfold as_u8. rewrite Z.mod_small; [apply split_distance; lia|]. change 255 with (Z.ones 8).
    rewrite Z.land_ones by lia. by apply Z.mod_pos_bound. }
  assert (∀ t n, t = TAG_COPY2 ∧ n = 2%nat ∨ t = TAG_COPY4 ∧ n = 4%nat → 0 ≤ d < 256 ^ Z.of_nat n → ∀ rest,
    Tag_parse ((Z.lor t (as_u8 (Z.shiftl (Z.of_nat l - 1) 2)) :: to_le_bytes n d) ++ rest) = inr (Copy (mkRelativeReference d l), rest)) as Hcopy.
  { intros t n Ht Hdn rest. destruct (upper_tag_ok t (Z.of_nat l - 1)) as [H1 H2]; [by destruct Ht as [[-> _]|[-> _]]|lia|].
    unfold Tag_parse. cbn [byte rbind app]. rewrite H1, H2.
    destruct Ht as [[-> ->]|[-> ->]]; cbn [Z.eqb TAG_COPY1 TAG_COPY2 TAG_COPY4 TAG_LITERAL Pos.eqb];
      rewrite le_uint_ok by done; cbn [rbind]; do 4 f_equal; lia. }
  destruct (d <=? 65535) eqn:E2; b2p; (eexists; split; [done|]; split; [done|]).
  - apply (Hcopy TAG_COPY2 2%nat); [by left|]. change (256 ^ Z.of_nat 2) with 65536. lia.
  - apply (Hcopy TAG_COPY4 4%nat); [by right|]. change (256 ^ Z.of_nat 4) with (2 ^ 32). lia.
Qed.

(** ** Literals *)

Lemma literal_size len :
  60 ≤ len < 2 ^ 32 →
  let nbytes := ceil_div (32 - leading_zeros32 len) 8 in 1 ≤ nbytes ≤ 4 ∧ len < 256 ^ nbytes.
Proof.
  intros Hl nbytes. unfold nbytes, ceil_div, leading_zeros32. rewrite (proj2 (Z.eqb_neq len 0)) by lia.
  replace (32 - (31 - Z.log2 len)) with (Z.log2 len + 1) by lia.
  pose proof (Z.log2_spec len ltac:(lia)) as [_ Hlog]. assert (Z.log2 len < 32) as Hlog2 by (by apply Z.log2_lt_pow2; lia).
  pose proof (Z.log2_nonneg len). set (e := Z.log2 len + 1) in *. change 256 with (2 ^ 8).
  assert (∀ n, 0 ≤ n → e ≤ 8 * n → len < (2 ^ 8) ^ n) as Hpow.
  { intros n Hn He. rewrite <- Z.pow_mul_r by lia. eapply Z.lt_le_trans; [exact Hlog|]. apply Z.pow_le_mono_r; lia. }
  pose proof (Z.div_mod e 8 ltac:(lia)). pose proof (Z.mod_pos_bound e 8 ltac:(lia)).
  destruct (e mod 8 =? 0) eqn:E; b2p; cbn [negb]; (split; [lia|apply Hpow; lia]).
Qed.

(** A literal is parsed as its length, followed by its data. *)
Lemma write_literal_ok data :
  data ≠ [] → Z.of_nat (length data) ≤ 2 ^ 32 →
  ∃ bs, snappy_write_literal data = bs ++ data ∧ bs ≠ [] ∧
    ∀ rest, Tag_parse (bs ++ rest) = inr (Literal (Z.of_nat (length data)), rest).
Proof.
  intros Hne Hl. assert (length data ≠ 0)%nat as Hnz by (by destruct data).
  unfold snappy_write_literal. rewrite (proj2 (Nat.eqb_neq _ _)) by done.
  rewrite Z.mod_small by lia. set (len := Z.of_nat (length data) - 1). assert (0 ≤ len < 2 ^ 32) as Hlen by lia.
  destruct (len <? 60) eqn:E; b2p.
  - eexists. split; [done|]. split; [done|]. intros rest. destruct (upper_tag_ok TAG_LITERAL len) as [H1 H2]; [done|lia|].
    unfold Tag_parse. cbn [byte rbind app]. change TAG_TYPE_NBITS with 2 in *. rewrite H1, H2. cbn [Z.eqb TAG_LITERAL].
    rewrite (proj2 (Z.leb_gt _ _)) by lia. do 3 f_equal. lia.
  - destruct (literal_size len ltac:(lia)) as [Hn Hb]. set (nbytes := ceil_div _ 8) in *.
    eexists. split; [done|]. split; [done|]. intros rest. destruct (upper_tag_ok TAG_LITERAL (59 + nbytes)) as [H1 H2]; [done|lia|].
    unfold Tag_parse. cbn [byte rbind app]. change TAG_TYPE_NBITS with 2 in *. rewrite H1, H2. cbn [Z.eqb TAG_LITERAL].
    rewrite (proj2 (Z.leb_le _ _)) by lia. replace (59 + nbytes - 59) with nbytes by lia.
    rewrite take_to_le_bytes, sized_usize_ok by (try rewrite Z2Nat.id; lia). cbn [rbind]. do 3 f_equal. lia.
Qed.

(** ** Copies *)

(** Copying in pieces of at most [distance] bytes writes data that repeats
    what comes [distance] bytes before it. *)
Lemma copy_loop_ok fuel distance len output data :
  (0 < distance ≤ length output)%nat → (len ≤ length data)%nat → (len ≤ fuel)%nat →
  take len (drop (length output - distance) (output ++ data)) = take len data →
  copy_loop fuel distance len output = output ++ take len data.
Proof.
  revert len output data. induction fuel as [|fuel IH]; intros len output data Hd Hl Hf Hrep.
  { assert (len = 0)%nat as -> by lia. by rewrite take_0, app_nil_r. }
  destruct len as [|len']; [by rewrite take_0, app_nil_r|]. set (len := S len') in *. cbn [copy_loop]. fold len.
  change (match len with O => output | S _ => ?x end) with x.
  set (n := Nat.min distance len). assert (0 < n ≤ len)%nat as Hn by (unfold n, len; lia).
  assert (take n (drop (length output - distance) output) = take n data) as ->.
  { rewrite <- (Nat.min_l n len), <- !take_take, <- Hrep by lia. rewrite drop_app_le by lia.
    rewrite !take_take, Nat.min_l by lia. rewrite take_app_le; [done|]. rewrite length_drop. unfold n. lia. }
  rewrite (IH (len - n)%nat (output ++ take n data) (drop n data)).
  - rewrite <- (assoc_L (++)). f_equal. rewrite (take_take_drop data n (len - n)). f_equal. lia.
  - rewrite length_app, length_take. lia.
  - rewrite length_drop. lia.
  - lia.
  - rewrite <- (assoc_L (++)), take_drop. rewrite length_app, length_take, Nat.min_l by lia.
    replace (length output + n - distance)%nat with (length output - distance + n)%nat by lia.
    rewrite <- drop_drop, (take_drop_commute (drop _ _)), (take_drop_commute data). replace (n + (len - n))%nat with len by lia. by rewrite Hrep.
Qed.

(** ** Decoding *)

Section Decode.
Context (ulen : Z).

(** Tags [bs] that extend [out] to [out']. *)
Definition decodes (bs out out' : bytes) : Prop :=
  ∀ rest fuel, (length (bs ++ rest) < fuel)%nat →
    ∃ fuel', (length rest < fuel')%nat ∧ decompress_loop fuel ulen (bs ++ rest) out = decompress_loop fuel' ulen rest out'.

Lemma decodes_nil out : decodes [] out out.
Proof. intros rest fuel Hf. by exists fuel. Qed.

Lemma decodes_app bs1 bs2 out1 out2 out3 :
  decodes bs1 out1 out2 → decodes bs2 out2 out3 → decodes (bs1 ++ bs2) out1 out3.
Proof.
  intros H1 H2 rest fuel Hf. rewrite <- (assoc_L (++)) in *. destruct (H1 (bs2 ++ rest) fuel Hf) as (f1 & Hf1 & ->).
  by apply H2.
Qed.

Lemma decodes_literal data out :
  Z.of_nat (length data) ≤ 2 ^ 32 → Z.of_nat (length out) + Z.of_nat (length data) ≤ ulen →
  decodes (snappy_write_literal data) out (out ++ data).
Proof.
  intros Hl Hu. destruct (decide (data = [])) as [->|Hne]; [rewrite app_nil_r; apply decodes_nil|].
  destruct (write_literal_ok data Hne Hl) as (bs & -> & Hbs & Hp). intros rest fuel Hf. rewrite <- (assoc_L (++)) in *.
  assert (0 < length data)%nat by (destruct data; [done|cbn; lia]). assert (0 < length bs)%nat by (destruct bs; [done|cbn; lia]).
  rewrite !length_app in Hf. destruct fuel as [|fuel]; [lia|]. exists fuel. split; [lia|]. cbn [decompress_loop].
  rewrite (proj2 (Z.ltb_lt _ _)), Hp by lia. rewrite !(proj2 (Z.ltb_ge _ _)) by (try rewrite length_app; lia).
  by rewrite Nat2Z.id, drop_app_length, take_app_length.
Qed.

Lemma decodes_reference r bs out data :
  snappy_write_reference r = Some bs → (1 ≤ rf_length r ≤ 64)%nat → 1 ≤ rf_distance r < 2 ^ 32 →
  rf_distance r ≤ Z.of_nat (length out) → (rf_length r ≤ length data)%nat →
  Z.of_nat (length out) + Z.of_nat (rf_length r) ≤ ulen →
  take (rf_length r) (drop (length out - Z.to_nat (rf_distance r)) (out ++ data)) = take (rf_length r) data →
  decodes bs out (out ++ take (rf_length r) data).
Proof.
  intros Hw Hl Hd Hdo Hld Hu Hrep. destruct (write_reference_ok r Hl ltac:(lia)) as (bs' & Hw' & Hne & Hp).
  rewrite Hw in Hw'. injection Hw' as <-. intros rest fuel Hf. assert (0 < length bs)%nat by (destruct bs; [done|cbn; lia]).
  rewrite length_app in Hf. destruct fuel as [|fuel]; [lia|]. exists fuel. split; [lia|]. cbn [decompress_loop].
  rewrite (proj2 (Z.ltb_lt _ _)), Hp by lia. unfold copy.
  rewrite !(proj2 (Z.eqb_neq _ _)), !(proj2 (Z.ltb_ge _ _)) by lia. cbn [orb].
  by rewrite (copy_loop_ok _ _ _ _ data) by (done || lia).
Qed.
End Decode.

(** ** Matches *)

Lemma match_length_ok max i s data :
  match_length max i s data = 0%nat ∨
  ∃ k, match_length max i s data = (i + k)%nat ∧ (k ≤ max)%nat ∧ (k ≤ length data)%nat ∧ take k s = take k data.
Proof.
  revert max i data. induction s as [|x s IH]; intros max i data; [left; by destruct max, data|].
  assert (∀ m, m = i → m = 0%nat ∨ ∃ k, m = (i + k)%nat ∧ (k ≤ max)%nat ∧ (k ≤ length data)%nat ∧ take k (x :: s) = take k data) as Hstop.
  { intros m ->. right. exists 0%nat. split_and!; [lia..|done]. }
  destruct max as [|max], data as [|y data]; try by apply Hstop. cbn [match_length].
  destruct (x =? y) eqn:E; b2p; [|by apply Hstop].
  destruct (IH max (S i) data) as [?|(k & -> & H1 & H2 & H3)]; [by left|]. right. exists (S k).
  split_and!; [lia|lia|cbn; lia|]. cbn. by rewrite E, H3.
Qed.

Section Compress.
Context (crc32c_raw_oneshot : Z → Z) (input : bytes).

Definition table_ok (t : gmap Z Z) : Prop := map_Forall (λ _ v, 0 ≤ v < BLOCK_SIZE) t.

Lemma record_positions_ok n i t : table_ok t → table_ok (record_positions crc32c_raw_oneshot input n i t).
Proof.
  revert i t. induction n as [|n IH]; intros i t Ht; cbn [record_positions]; [done|]. apply IH.
  apply map_Forall_insert_2; [|done]. by apply Z.mod_pos_bound.
Qed.

(** A match is a repetition of what was read. *)
Lemma find_match_ok w r :
  table_ok (wd_table w) → (wd_pos w ≤ length input)%nat →
  find_match crc32c_raw_oneshot input w (drop (wd_pos w) input) = Some r →
  (4 ≤ rf_length r ≤ 64)%nat ∧ 1 ≤ rf_distance r ≤ 2 ^ 16 ∧ rf_distance r ≤ Z.of_nat (wd_pos w) ∧
  (wd_pos w + rf_length r ≤ length input)%nat ∧
  take (rf_length r) (drop (wd_pos w - Z.to_nat (rf_distance r)) input) = take (rf_length r) (drop (wd_pos w) input).
Proof.
  intros Ht Hp. unfold find_match. destruct (_ <? 4)%nat eqn:E0; [done|].
  set (rel := default 0 _). assert (0 ≤ rel < BLOCK_SIZE) as Hrel.
  { unfold rel. destruct (wd_table w !! _) as [v|] eqn:Ev; [|done]. cbn. by apply (Ht _ _ Ev). }
  set (p := Z.of_nat (wd_pos w)). set (start := p / BLOCK_SIZE * BLOCK_SIZE).
  assert (0 ≤ start ≤ p ∧ p < start + BLOCK_SIZE) as Hst.
  { unfold start. pose proof (Z.div_mod p BLOCK_SIZE ltac:(done)). pose proof (Z.mod_pos_bound p BLOCK_SIZE ltac:(done)).
    assert (0 ≤ p / BLOCK_SIZE) by (apply Z.div_pos; [unfold p; lia|done]). unfold BLOCK_SIZE in *. lia. }
  destruct (_ && _) eqn:E1; [done|].
  set (offset := if p <=? start + rel then start + rel - BLOCK_SIZE else start + rel).
  assert (0 ≤ offset < p ∧ p - offset ≤ 2 ^ 16) as Hoff.
  { unfold offset. unfold BLOCK_SIZE in *. destruct (p <=? start + rel) eqn:E2; cbn [andb] in E1; b2p; lia. }
  assert (Z.to_nat offset < wd_pos w)%nat as Hoffn by (change p with (Z.of_nat (wd_pos w)) in Hoff; lia).
  set (data := drop (wd_pos w) input). set (s := take _ _ ++ data).
  assert (s = drop (Z.to_nat offset) input) as Es.
  { unfold s, data. rewrite <- (take_drop (wd_pos w - Z.to_nat offset) (drop (Z.to_nat offset) input)) at 2. f_equal.
    rewrite drop_drop. f_equal. lia. }
  destruct (match_length_ok max_match_length 0 s data) as [->|(k & -> & H1 & H2 & H3)]; [done|].
  destruct (4 <=? 0 + k)%nat eqn:E4; [|done]. intros [= <-]. cbn [rf_length rf_distance]. apply Nat.leb_le in E4.
  unfold max_match_length in H1. unfold data in H2. rewrite length_drop in H2.
  split_and!; [lia..|]. replace (wd_pos w - Z.to_nat (p - offset))%nat with (Z.to_nat offset) by lia.
  cbn [Nat.add]. by rewrite <- Es.
Qed.

Lemma literal_length data : (length (snappy_write_literal data) ≤ 6 * length data)%nat.
Proof.
  unfold snappy_write_literal. destruct (Nat.eqb_spec (length data) 0) as [|Hn]; [cbn; lia|].
  rewrite length_app. destruct (_ <? 60); cbn [length]; [lia|].
  rewrite length_take, length_to_le_bytes. lia.
Qed.

Lemma reference_length r ref : snappy_write_reference r = Some ref → (length ref ≤ 5)%nat.
Proof. unfold snappy_write_reference. intros H. repeat case_match; simplify_eq; cbn; lia. Qed.

Lemma compress_loop_ok fuel w next_idx i output :
  table_ok (wd_table w) → wd_pos w = i → (next_idx ≤ i ≤ length input)%nat → (length input - i < fuel)%nat →
  Z.of_nat (length input) ≤ 2 ^ 32 →
  ∃ bs, compress_loop crc32c_raw_oneshot fuel input w next_idx i output = Done (output ++ bs) ∧
    decodes (Z.of_nat (length input)) bs (take next_idx input) input ∧
    (length bs ≤ 6 * (length input - next_idx))%nat.
Proof.
  revert w next_idx i output. induction fuel as [|fuel IH]; intros w next_idx i output Ht <- Hi Hf Hlen; [lia|].
  set (i := wd_pos w) in *.
  set (lit := take (i - next_idx) (drop next_idx input)).
  assert (decodes (Z.of_nat (length input)) (snappy_write_literal lit) (take next_idx input) (take i input)) as Hlit.
  { replace (take i input) with (take next_idx input ++ lit).
    - apply decodes_literal; unfold lit; rewrite !length_take, ?length_drop; lia.
    - unfold lit. rewrite take_take_drop. f_equal. lia. }
  assert (length lit = i - next_idx)%nat as Hll by (unfold lit; rewrite length_take, length_drop; lia).
  pose proof (literal_length lit) as Hlb.
  cbn [compress_loop]. fold lit. destruct (i <? length input)%nat eqn:Ei.
  2:{ eexists. split; [done|]. apply Nat.ltb_ge in Ei. rewrite (take_ge input i) in Hlit by lia. split; [done|lia]. }
  apply Nat.ltb_lt in Ei. destruct (find_match _ _ _ _) as [r|] eqn:Er.
  - destruct (find_match_ok w r Ht ltac:(lia) Er) as (Hl & Hd & Hdp & Hend & Hrep). fold i in Hdp, Hend, Hrep.
    destruct (write_reference_ok r ltac:(lia) ltac:(lia)) as (ref & Hw & _). rewrite Hw.
    destruct (IH (advance crc32c_raw_oneshot input (rf_length r) w) (i + rf_length r)%nat (i + rf_length r)%nat
      (output ++ snappy_write_literal lit ++ ref)) as (bs & -> & Hdec & Hbs).
    + by apply record_positions_ok.
    + done.
    + lia.
    + lia.
    + done.
    + exists (snappy_write_literal lit ++ ref ++ bs). split; [by rewrite <- !(assoc_L (++))|].
      pose proof (reference_length r ref Hw). split; [|rewrite !length_app; lia].
      eapply decodes_app; [exact Hlit|]. eapply decodes_app; [|exact Hdec].
      rewrite <- (take_take_drop input i (rf_length r)).
      apply decodes_reference; rewrite ?length_take, ?length_drop, ?(Nat.min_l i) by lia; try lia; [done|].
      rewrite take_drop. exact Hrep.
  - apply IH; [by apply record_positions_ok|cbn; fold i; lia|lia|lia|done].
Qed.
End Compress.

(** Decompressing what was compressed. *)
Lemma decompress_compressed (crc32c_raw_oneshot : Z → Z) (input rest : bytes) :
  Z.of_nat (length input) ≤ 2 ^ 32 →
  ∃ compressed, snappy_compress crc32c_raw_oneshot input = Done compressed ∧
    snappy_decompress (compressed ++ rest) [] = Done (inr (input, rest)) ∧
    (length compressed ≤ 6 * length input + 10)%nat.
Proof.
  intros Hlen. destruct (compress_loop_ok crc32c_raw_oneshot input (S (length input)) Window_new 0 0
    (serialize_varint (Z.of_nat (length input)))) as (bs & Hrun & Hdec & Hbs); [apply map_Forall_empty|done|lia|lia|done|].
  eexists. split; [exact Hrun|]. split; [|rewrite length_app; pose proof (length_serialize_varint_le (Z.of_nat (length input))); lia].
  unfold snappy_decompress.
  rewrite <- (assoc_L (++)), parse_serialize_varint by (unfold U64; lia).
  destruct (Hdec rest (S (length (bs ++ rest))) ltac:(lia)) as (fuel & Hf & Hrun').
  rewrite take_0 in Hrun'. rewrite Hrun'. destruct fuel; cbn [decompress_loop]; by rewrite Z.ltb_irrefl.
Qed.

(** C36: Compression does not panic and is undone: decompressing what
    [snappy_compress] wrote, with anything after it, gives the input and what
    comes after, for any hash function and any input of at most 4 GiB. *)
Theorem snappy_roundtrip (crc32c_raw_oneshot : Z → Z) (input rest : bytes) :
  Z.of_nat (length input) ≤ 2 ^ 32 →
  ∃ compressed, snappy_compress crc32c_raw_oneshot input = Done compressed ∧
    snappy_decompress (compressed ++ rest) [] = Done (inr (input, rest)).
Proof.
  intros Hlen. destruct (decompress_compressed crc32c_raw_oneshot input rest Hlen) as (compressed & Hc & Hd & _).
  by exists compressed.
Qed.

Lemma snappy_roundtrip_witness :
  ∃ compressed, snappy_compress (λ v, v) [1; 2; 3; 4; 5; 1; 2; 3; 4; 5; 1; 2; 3; 4; 5; 6] = Done compressed ∧
    snappy_decompress (compressed ++ [7]) [] = Done (inr ([1; 2; 3; 4; 5; 1; 2; 3; 4; 5; 1; 2; 3; 4; 5; 6], [7])).
Proof. apply (snappy_roundtrip (λ v, v) [1; 2; 3; 4; 5; 1; 2; 3; 4; 5; 1; 2; 3; 4; 5; 6] [7]). by vm_compute. Defined.
