(* ===== verification/Filter.v ===== *)
(** * Filters

    Bloom filters (src/pkg/sstable/src/table/bloom.rs), the [FilterPolicy]
    interface (table/filter_policy.rs) and blocks of filters
    (table/filter_block.rs and table/filter_block_builder.rs). Sums of u32
    numbers and shifts panic on overflow when the build checks for it and wrap
    around otherwise: [overflow_checks] says which. *)

From Stdlib Require Import String Ascii.
From S2P Require Import Prelude Wire Encoding Comparator DataBlock.

(** The bytes of a literal. *)
Definition ascii_byte (a : ascii) : Z := Z.of_N (N_of_ascii a).
Definition literal (s : string) : bytes := ascii_byte <$> list_ascii_of_string s.

(** [trait FilterPolicy]; [create] appends to its output. *)
Record FilterPolicy := mkFilterPolicy {
  fp_name : bytes;
  fp_create : list bytes → bytes → run bytes;
  fp_key_may_match : bytes → bytes → run bool;
}.

(** The policies by name. *)
Abbreviation FilterPolicyRegistry := (gmap bytes FilterPolicy).

(** ** Bloom filters *)

Definition U32 : Z := 2 ^ 32.

(** [hash]: a word of four bytes. *)
Definition hash_word (h w : Z) : Z :=
  let h := (h + w) mod U32 in
  let h := (h * 0xc6a4a793) mod U32 in
  Z.lxor h (Z.shiftr h 16).

(** The [while] loop of [hash] and the rest of the data after it. *)
Fixpoint hash_words (n : nat) (data : bytes) (h : Z) : bytes * Z :=
  match n with
  | O => (data, h)
  | S n => hash_words n (drop 4 data) (hash_word h (from_le_bytes (take 4 data)))
  end.

Definition hash (data : bytes) (seed : Z) : Z :=
  let m := 0xc6a4a793 in
  let h := Z.lxor seed ((m * (Z.of_nat (length data) mod U32)) mod U32) in
  let '(rest, h) := hash_words (length data / 4) data h in
  let h := match rest with [_; _; c] => (h + Z.shiftl c 16) mod U32 | _ => h end in
  let h := match rest with _ :: b :: _ => (h + Z.shiftl b 8) mod U32 | _ => h end in
  match rest with
  | a :: _ =>
    let h := (h + a) mod U32 in
    let h := (h * m) mod U32 in
    Z.lxor h (Z.shiftr h 24)
  | [] => h
  end.

Definition bloom_hash (data : bytes) : Z := hash data 0xbc9f1d34.

(** [u32::rotate_right(17)] *)
Definition rotate_right_17 (h : Z) : Z := Z.lor (Z.shiftr h 17) (Z.shiftl h 15 mod U32).

(** [Bit::get] and [Bit::set] *)
Definition bit_get (data : bytes) (pos : nat) : option bool :=
  (λ b, negb (Z.land b (Z.shiftl 1 (Z.of_nat pos mod 8)) =? 0)) <$> data !! (pos / 8)%nat.
Definition bit_set (data : bytes) (pos : nat) : option bytes :=
  (λ b, <[(pos / 8)%nat := Z.lor b (Z.shiftl 1 (Z.of_nat pos mod 8))]> data) <$> data !! (pos / 8)%nat.

Record BloomFilterPolicy := mkBloomFilterPolicy { bf_bits_per_key : Z; bf_num_probes : nat }.

(** [new]; [probes] is the product of [bits_per_key] and 0.69, rounded down. *)
Definition BloomFilterPolicy_new (bits_per_key : Z) (probes : nat) : BloomFilterPolicy :=
  mkBloomFilterPolicy bits_per_key (Nat.min (Nat.max probes 1) 30).

Section Bloom.
Context (overflow_checks : bool).

(** [h += delta] *)
Definition u32_add (a b : Z) : run Z :=
  if overflow_checks && (U32 <=? a + b) then Panicked else Done ((a + b) mod U32).

(** The inner loop of [create]: [n] probes from [h] on. *)
Fixpoint set_probes (n : nat) (nbits h delta : Z) (filter : bytes) : run bytes :=
  match n with
  | O => Done filter
  | S n =>
    if nbits =? 0 then Panicked else
    match bit_set filter (Z.to_nat (h mod nbits)), u32_add h delta with
    | Some filter, Done h => set_probes n nbits h delta filter
    | _, _ => Panicked
    end
  end.

Fixpoint add_keys (num_probes : nat) (nbits : Z) (keys : list bytes) (filter : bytes) : run bytes :=
  match keys with
  | [] => Done filter
  | key :: keys =>
    let h := bloom_hash key in
    match set_probes num_probes nbits h (rotate_right_17 h) filter with
    | Done filter => add_keys num_probes nbits keys filter
    | Panicked => Panicked
    | OutOfFuel => OutOfFuel
    end
  end.

Definition bloom_create (p : BloomFilterPolicy) (keys : list bytes) (out : bytes) : run bytes :=
  let nbits := Z.max (Z.of_nat (length keys) * bf_bits_per_key p) 64 in
  let nbytes := nbits / 8 + (if nbits mod 8 =? 0 then 0 else 1) in
  let nbits := (nbytes * 8) mod U32 in
  match add_keys (bf_num_probes p) nbits keys (replicate (Z.to_nat nbytes) 0) with
  | Done filter => Done (out ++ filter ++ [Z.of_nat (bf_num_probes p) mod 256])
  | Panicked => Panicked
  | OutOfFuel => OutOfFuel
  end.

(** The loop of [key_may_match]. *)
Fixpoint test_probes (n : nat) (nbits h delta : Z) (filter : bytes) : run bool :=
  match n with
  | O => Done true
  | S n =>
    if nbits =? 0 then Panicked else
    match bit_get filter (Z.to_nat (h mod nbits)) with
    | Some true =>
      match u32_add h delta with
      | Done h => test_probes n nbits h delta filter
      | _ => Panicked
      end
    | Some false => Done false
    | None => Panicked
    end
  end.

Definition bloom_key_may_match (key filter : bytes) : run bool :=
  if (length filter <? 2)%nat then Done false else
  match last filter with
  | None => Panicked
  | Some num_probes =>
    if 30 <? num_probes then Done true else
    let nbits := (8 * (Z.of_nat (length filter) - 1)) mod U32 in
    let h := bloom_hash key in
    test_probes (Z.to_nat num_probes) nbits h (rotate_right_17 h) filter
  end.

(** [impl FilterPolicy for BloomFilterPolicy] *)
Definition bloom_policy (p : BloomFilterPolicy) : FilterPolicy :=
  mkFilterPolicy (literal "leveldb.BuiltinBloomFilter2") (bloom_create p) bloom_key_may_match.

(** [default]: 6 is the product of 10 and 0.69, rounded down. *)
Definition BloomFilterPolicy_default : BloomFilterPolicy := BloomFilterPolicy_new 10 6.

Definition FilterPolicyRegistry_default : FilterPolicyRegistry :=
  let p := bloom_policy BloomFilterPolicy_default in <[fp_name p := p]> ∅.
End Bloom.

Definition registry_get (name : bytes) (r : FilterPolicyRegistry) : option FilterPolicy := r !! name.
Definition registry_wrap (wrapper : FilterPolicy → FilterPolicy) (r : FilterPolicyRegistry) : FilterPolicyRegistry :=
  wrapper <$> r.

(** ** Filters on the user part of internal keys *)

(** [map] with a function that panics *)
Fixpoint user_keys (keys : list bytes) : option (list bytes) :=
  match keys with
  | [] => Some []
  | k :: keys => u ← InternalKey_user_key k; us ← user_keys keys; Some (u :: us)
  end.

(** [InternalKeyFilterPolicy] *)
Definition InternalKeyFilterPolicy (user : FilterPolicy) : FilterPolicy :=
  mkFilterPolicy (fp_name user)
    (λ keys out, match user_keys keys with Some keys => fp_create user keys out | None => Panicked end)
    (λ key filter, match InternalKey_user_key key with
                   | Some key => fp_key_may_match user key filter
                   | None => Panicked
                   end).

(** ** Building a filter block *)

Section Builder.
Context (policy : FilterPolicy).

Record FilterBlockBuilder := mkFilterBlockBuilder {
  fb_output : bytes;
  fb_offsets : list Z;
  fb_base : Z;
  fb_log_base : Z;
  fb_pending_keys : list bytes;
}.

(** [new]: shifting a u64 by 64 or more panics, or shifts by the remainder. *)
Definition FilterBlockBuilder_new (overflow_checks : bool) (log_base : Z) : run FilterBlockBuilder :=
  if overflow_checks && (63 <? log_base) then Panicked
  else Done (mkFilterBlockBuilder [] [] (Z.shiftl 1 (log_base mod 64)) log_base []).

Definition set_filter (output : bytes) (offsets : list Z) (pending : list bytes) (b : FilterBlockBuilder) : FilterBlockBuilder :=
  mkFilterBlockBuilder output offsets (fb_base b) (fb_log_base b) pending.

Definition filter_flush (b : FilterBlockBuilder) : run FilterBlockBuilder :=
  let offsets := fb_offsets b ++ [Z.of_nat (length (fb_output b)) mod U32] in
  if (length (fb_pending_keys b) =? 0)%nat then Done (set_filter (fb_output b) offsets (fb_pending_keys b) b) else
  match fp_create policy (fb_pending_keys b) (fb_output b) with
  | Done output => Done (set_filter output offsets [] b)
  | Panicked => Panicked
  | OutOfFuel => OutOfFuel
  end.

(** The loop of [start_block], [n] times. *)
Fixpoint filter_flushes (n : nat) (b : FilterBlockBuilder) : run FilterBlockBuilder :=
  match n with
  | O => Done b
  | S n =>
    match filter_flush b with
    | Done b => filter_flushes n b
    | Panicked => Panicked
    | OutOfFuel => OutOfFuel
    end
  end.

Definition start_block (offset : Z) (b : FilterBlockBuilder) : run FilterBlockBuilder :=
  let filter_idx := Z.to_nat (offset / fb_base b) in
  if (filter_idx <? length (fb_offsets b))%nat then Panicked
  else filter_flushes (filter_idx - length (fb_offsets b)) b.

Definition add_key (key : bytes) (b : FilterBlockBuilder) : FilterBlockBuilder :=
  set_filter (fb_output b) (fb_offsets b) (fb_pending_keys b ++ [key]) b.

Definition filter_finish (b : FilterBlockBuilder) : run bytes :=
  match (if (0 <? length (fb_pending_keys b))%nat then filter_flush b else Done b) with
  | Done b =>
    Done (fb_output b ++ flat_map (to_le_bytes 4) (fb_offsets b) ++
          to_le_bytes 4 (Z.of_nat (length (fb_output b)) mod U32) ++ [fb_log_base b])
  | Panicked => Panicked
  | OutOfFuel => OutOfFuel
  end.
End Builder.

(** ** Reading a filter block *)

Record FilterBlockRef := mkFilterBlockRef {
  fr_filters : bytes;
  fr_offsets : list Z;
  fr_log_base : Z;
}.

Definition FilterBlockRef_parse (input : bytes) : Result FilterBlockRef :=
  ok! _ := min_size input 5 in
  let footer_start := (length input - 5)%nat in
  let offsets_offset := from_le_bytes (take 4 (drop footer_start input)) in
  if Z.of_nat footer_start <? offsets_offset then inl EOffsetsOutOfRange else
  let buf := take (length input - 1 - Z.to_nat offsets_offset) (drop (Z.to_nat offsets_offset) input) in
  if negb (length buf mod 4 =? 0)%nat then inl EMisalignedOffsets else
  let offsets := u32_slice (length buf / 4) buf in
  if match offsets with [] => negb (offsets_offset =? 0) | _ => false end then inl EDataBeforeOffsets
  else if match offsets with o :: _ => negb (o =? 0) | [] => false end then inl EFirstFilterNotZero
  else if negb (forallb (λ off, off <=? offsets_offset) offsets) then inl EFilterOutOfRange
  else inr (mkFilterBlockRef (take (Z.to_nat offsets_offset) input) offsets (List.last input 0)).

(** [key_may_match]: the number of offsets minus 1 underflows when there is
    none, and slicing panics when an offset is before the one preceding it. *)
Definition key_may_match (overflow_checks : bool) (policy : FilterPolicy) (block_offset : Z) (key : bytes)
    (r : FilterBlockRef) : run bool :=
  if overflow_checks && (63 <? fr_log_base r) then Panicked else
  let filter_idx := Z.to_nat (Z.shiftr block_offset (fr_log_base r mod 64)) in
  match length (fr_offsets r) with
  | O => Panicked
  | S n =>
    if (n <=? filter_idx)%nat then Done true else
    match fr_offsets r !! filter_idx, fr_offsets r !! S filter_idx with
    | Some start_offset, Some end_offset =>
      if end_offset <? start_offset then Panicked
      else fp_key_may_match policy key
        (take (Z.to_nat (end_offset - start_offset)) (drop (Z.to_nat start_offset) (fr_filters r)))
    | _, _ => Panicked
    end
  end.
