(* ===== verification/FilterTheorems.v ===== *)
(** * Filters have no false negatives

    What a table relies on of its filter policy ([FilterPolicyLaws]), that
    Bloom filters keep it when sums wrap around, and that a block of filters
    keeps it for every key and the block the key was added to. *)

From S2P Require Import Prelude Wire Encoding Comparator DataBlock Filter.

(** What a filter promises: for keys of its domain, up to some number of them,
    [create] appends a filter that every one of the keys may match. *)
Class FilterPolicyLaws (policy : FilterPolicy) := {
  fpl_max_keys : nat;
  fpl_bytes_per_key : nat;
  fpl_key : bytes → Prop;
  fpl_create keys out : (length keys ≤ fpl_max_keys)%nat → Forall fpl_key keys →
    ∃ f, fp_create policy keys out = Done (out ++ f) ∧
         (length f ≤ fpl_bytes_per_key * (1 + length keys))%nat ∧
         ∀ key, key ∈ keys → fp_key_may_match policy key f = Done true;
}.

(** ** Bloom filters *)

Lemma land_lor_nonzero a b m : Z.land a m ≠ 0 → Z.land (Z.lor a b) m ≠ 0.
Proof.
  intros Ha H. apply Ha, Z.bits_inj'. intros n Hn. apply (f_equal (λ x, Z.testbit x n)) in H.
  rewrite Z.land_spec, Z.lor_spec, Z.bits_0 in *. by destruct (Z.testbit a n), (Z.testbit b n), (Z.testbit m n).
Qed.

Lemma land_lor_self a k : 0 ≤ k → Z.land (Z.lor a (Z.shiftl 1 k)) (Z.shiftl 1 k) ≠ 0.
Proof.
  intros Hk H. apply (f_equal (λ x, Z.testbit x k)) in H. revert H.
  rewrite Z.land_spec, Z.lor_spec, Z.bits_0, Z.shiftl_spec, Z.sub_diag by done. by rewrite orb_true_r.
Qed.

(** [g] has all the bits of [f], which is as long or shorter. *)
Definition bits_in (f g : bytes) : Prop := ∀ pos, bit_get f pos = Some true → bit_get g pos = Some true.

Lemma bit_set_ok f pos :
  (pos < 8 * length f)%nat →
  ∃ g, bit_set f pos = Some g ∧ length g = length f ∧ bits_in f g ∧ bit_get g pos = Some true.
Proof.
  intros Hp. unfold bit_set. assert (pos / 8 < length f)%nat as Hi by (apply Nat.Div0.div_lt_upper_bound; lia).
  destruct (lookup_lt_is_Some_2 f _ Hi) as [b Hb]. rewrite Hb. cbn. eexists. split; [done|].
  split; [apply length_insert|]. split.
  - intros q. unfold bit_get. destruct (decide (q / 8 = pos / 8)%nat) as [E|E].
    + rewrite E, Hb, list_lookup_insert_eq by done. cbn. intros [= H]. f_equal.
      apply negb_true_iff, Z.eqb_neq in H. by apply negb_true_iff, Z.eqb_neq, land_lor_nonzero.
    + by rewrite list_lookup_insert_ne.
  - unfold bit_get. rewrite list_lookup_insert_eq by done. cbn. f_equal.
    apply negb_true_iff, Z.eqb_neq, land_lor_self. by apply Z.mod_pos_bound.
Qed.

Lemma bits_in_trans f g h : bits_in f g → bits_in g h → bits_in f h.
Proof. unfold bits_in. eauto. Qed.

Lemma bits_in_app f x : bits_in f (f ++ x).
Proof.
  intros pos. unfold bit_get. destruct (f !! _) eqn:E; [|done]. by rewrite (lookup_app_l_Some _ _ _ _ E).
Qed.

Lemma probe_range nbits h (f : bytes) :
  0 < nbits ≤ 8 * Z.of_nat (length f) → (Z.to_nat (h mod nbits) < 8 * length f)%nat.
Proof. intros H. pose proof (Z.mod_pos_bound h nbits ltac:(lia)). lia. Qed.

Lemma set_probes_ok n nbits h delta f :
  0 < nbits ≤ 8 * Z.of_nat (length f) →
  ∃ g, set_probes false n nbits h delta f = Done g ∧ length g = length f ∧ bits_in f g ∧
       ∀ g', bits_in g g' → test_probes false n nbits h delta g' = Done true.
Proof.
  revert h f. induction n as [|n IH]; intros h f Hn; cbn [set_probes test_probes].
  { exists f. by repeat split; intros ?. }
  rewrite (proj2 (Z.eqb_neq nbits 0)) by lia.
  destruct (bit_set_ok f (Z.to_nat (h mod nbits)) (probe_range _ _ _ Hn)) as (f1 & -> & Hl & Hi & Hb).
  cbn [u32_add andb]. destruct (IH ((h + delta) mod U32) f1) as (g & -> & Hg & Hig & Ht); [by rewrite Hl|].
  exists g. split; [done|]. split; [congruence|]. split; [by eapply bits_in_trans|].
  intros g' Hg'. rewrite (Hg' _ (Hig _ Hb)). by apply Ht.
Qed.

Lemma add_keys_ok np nbits keys f :
  0 < nbits ≤ 8 * Z.of_nat (length f) →
  ∃ g, add_keys false np nbits keys f = Done g ∧ length g = length f ∧ bits_in f g ∧
       ∀ key g', key ∈ keys → bits_in g g' →
         test_probes false np nbits (bloom_hash key) (rotate_right_17 (bloom_hash key)) g' = Done true.
Proof.
  revert f. induction keys as [|key keys IH]; intros f Hn; cbn [add_keys].
  { exists f. repeat split; [by intros ?|]. intros key g' Hk. by apply not_elem_of_nil in Hk. }
  destruct (set_probes_ok np nbits (bloom_hash key) (rotate_right_17 (bloom_hash key)) f Hn)
    as (f1 & -> & Hl & Hi & Ht).
  destruct (IH f1) as (g & -> & Hg & Hig & Htg); [by rewrite Hl|].
  exists g. split; [done|]. split; [congruence|]. split; [by eapply bits_in_trans|].
  intros k g' [->|Hk]%elem_of_cons Hg'; [apply Ht; by eapply bits_in_trans|by apply Htg].
Qed.

Lemma bloom_create_ok p keys out :
  (bf_num_probes p ≤ 30)%nat → 0 ≤ bf_bits_per_key p → Z.of_nat (length keys) * bf_bits_per_key p < U32 - 64 →
  ∃ f, bloom_create false p keys out = Done (out ++ f) ∧
       (length f ≤ Z.to_nat (bf_bits_per_key p + 10) * (1 + length keys))%nat ∧
       ∀ key, key ∈ keys → bloom_key_may_match false key f = Done true.
Proof.
  intros Hp Hb Hk. unfold bloom_create. set (nbits := Z.max _ 64). set (nbytes := nbits / 8 + _).
  assert (8 ≤ nbytes ∧ nbytes * 8 < U32 ∧ nbytes * 8 ≤ nbits + 8) as (H8 & Hs & Hn).
  { pose proof (Z.div_mod nbits 8 ltac:(lia)). pose proof (Z.mod_pos_bound nbits 8 ltac:(lia)).
    assert (64 ≤ nbits < U32 - 63) by (unfold nbits, U32 in *; lia). unfold nbytes, U32 in *.
    destruct (Z.eqb_spec (nbits mod 8) 0); lia. }
  rewrite (Z.mod_small (nbytes * 8)) by lia.
  destruct (add_keys_ok (bf_num_probes p) (nbytes * 8) keys (replicate (Z.to_nat nbytes) 0))
    as (g & -> & Hg & _ & Ht); [rewrite length_replicate; lia|]. rewrite length_replicate in Hg.
  eexists. split; [done|]. split.
  { rewrite length_app, Hg. cbn [length]. unfold nbits in Hn. nia. }
  intros key Hkey. unfold bloom_key_may_match.
  rewrite length_app, Hg, last_snoc. cbn [length]. rewrite (proj2 (Nat.ltb_ge _ 2)) by lia.
  rewrite Z.mod_small by lia. rewrite (proj2 (Z.ltb_ge 30 _)) by lia. rewrite Nat2Z.id.
  replace (8 * (Z.of_nat (Z.to_nat nbytes + 1) - 1)) with (nbytes * 8) by lia.
  rewrite Z.mod_small by lia. apply Ht; [done|apply bits_in_app].
Qed.

(** Bloom filters keep the laws when the sums of hashes wrap around. *)
#[export] Instance bloom_laws bits_per_key probes (Hb : 0 < bits_per_key) :
  FilterPolicyLaws (bloom_policy false (BloomFilterPolicy_new bits_per_key probes)).
Proof.
  refine {| fpl_max_keys := Z.to_nat ((U32 - 65) / bits_per_key);
            fpl_bytes_per_key := Z.to_nat (bits_per_key + 10); fpl_key := λ _, True |}. intros keys out Hk _.
  apply (bloom_create_ok (BloomFilterPolicy_new bits_per_key probes)); cbn; [lia|lia|].
  pose proof (Z.mul_div_le (U32 - 65) bits_per_key Hb).
  pose proof (Z.div_pos (U32 - 65) bits_per_key ltac:(done) Hb). nia.
Defined.

Lemma user_keys_ok keys :
  Forall (λ k, (8 ≤ length k)%nat) keys → user_keys keys = Some (ik_user <$> keys).
Proof.
  induction 1 as [|k keys Hk _ IH]; [done|]. cbn [user_keys]. unfold InternalKey_user_key.
  rewrite (proj2 (Nat.ltb_ge _ 8)) by done. cbn. by rewrite IH.
Qed.

(** A policy on user keys gives one on internal keys. *)
#[export] Instance internal_filter_laws user (HU : FilterPolicyLaws user) :
  FilterPolicyLaws (InternalKeyFilterPolicy user).
Proof.
  refine {| fpl_max_keys := fpl_max_keys (policy := user);
            fpl_bytes_per_key := fpl_bytes_per_key (policy := user);
            fpl_key := λ k, (8 ≤ length k)%nat ∧ fpl_key (policy := user) (ik_user k) |}.
  intros keys out Hk Ha. cbn. rewrite user_keys_ok by (eapply Forall_impl; [exact Ha|]; by intros ? [? ?]).
  destruct (fpl_create (policy := user) (ik_user <$> keys) out) as (f & Hf & Hl & Hm).
  - by rewrite length_fmap.
  - apply Forall_fmap. eapply Forall_impl; [exact Ha|]. by intros ? [? ?].
  - exists f. split; [done|]. rewrite length_fmap in Hl. split; [done|]. intros key Hin. rewrite Forall_forall in Ha. unfold InternalKey_user_key.
    rewrite (proj2 (Nat.ltb_ge _ 8)) by (by apply Ha). apply Hm. apply list_elem_of_fmap. by exists key.
Defined.

(** ** Blocks of filters *)

(** The offset of every filter. *)
Definition offsets_of (segs : list bytes) : list Z :=
  imap (λ i _, Z.of_nat (length (concat (take i segs))) mod U32) segs.

Lemma length_offsets_of segs : length (offsets_of segs) = length segs.
Proof. apply length_imap. Qed.

Lemma offsets_of_snoc segs s :
  offsets_of (segs ++ [s]) = offsets_of segs ++ [Z.of_nat (length (concat segs)) mod U32].
Proof.
  unfold offsets_of. rewrite imap_app. cbn [imap]. rewrite Nat.add_0_r, take_app_length. f_equal.
  apply imap_ext. intros i x Hi. apply lookup_lt_Some in Hi. rewrite take_app_le by lia. done.
Qed.

Lemma offsets_of_lookup segs i :
  (i < length segs)%nat → offsets_of segs !! i = Some (Z.of_nat (length (concat (take i segs))) mod U32).
Proof.
  intros Hi. unfold offsets_of. rewrite list_lookup_imap.
  destruct (lookup_lt_is_Some_2 segs i Hi) as [s ->]. done.
Qed.

Section Blocks.
Context (policy : FilterPolicy) {HP : FilterPolicyLaws policy} (overflow_checks : bool).

(** The builder [b] has written the filters [segs], of the keys [groups]. *)
Record filter_inv (groups : list (list bytes)) (segs : list bytes) (b : FilterBlockBuilder) : Prop := {
  fi_output : fb_output b = concat segs;
  fi_offsets : fb_offsets b = offsets_of segs;
  fi_filters : Forall2 (λ g s, ∀ key, key ∈ g → fp_key_may_match policy key s = Done true) groups segs;
}.

Lemma filter_flush_ok groups segs b :
  filter_inv groups segs b → (length (fb_pending_keys b) ≤ fpl_max_keys)%nat → Forall fpl_key (fb_pending_keys b) →
  ∃ s b', filter_flush policy b = Done b' ∧ filter_inv (groups ++ [fb_pending_keys b]) (segs ++ [s]) b' ∧
    fb_pending_keys b' = [] ∧ fb_base b' = fb_base b ∧ fb_log_base b' = fb_log_base b ∧
    (length (fb_output b') ≤ length (fb_output b) + 2 * fpl_bytes_per_key * length (fb_pending_keys b))%nat.
Proof.
  intros [Ho Hf Hg] Hk Ha. unfold filter_flush. destruct (fb_pending_keys b) as [|k ks] eqn:E; cbn [length Nat.eqb].
  - exists [], (set_filter (fb_output b) (fb_offsets b ++ [Z.of_nat (length (fb_output b)) mod U32]) [] b).
    split; [done|]. split; [|split_and!; [done..|cbn; lia]]. split; cbn.
    + by rewrite Ho, concat_app, !app_nil_r.
    + by rewrite Hf, Ho, offsets_of_snoc.
    + apply Forall2_app; [done|]. constructor; [|done]. intros key H. by apply not_elem_of_nil in H.
  - destruct (fpl_create (k :: ks) (fb_output b) Hk Ha) as (s & -> & Hls & Hs). exists s. eexists. split; [done|].
    split; [|split_and!; [done..|cbn [fb_output set_filter length] in *; rewrite length_app; nia]]. split; cbn.
    + by rewrite Ho, concat_app; cbn; rewrite app_nil_r.
    + by rewrite Hf, Ho, offsets_of_snoc.
    + apply Forall2_app; [done|]. by constructor.
Qed.

(** Every key [held] is in the filter of its offset, or is pending while that
    filter is the next to be written. *)
Definition holds_key (groups : list (list bytes)) (b : FilterBlockBuilder) (x : Z * bytes) : Prop :=
  (∃ g, groups !! Z.to_nat (x.1 / fb_base b) = Some g ∧ x.2 ∈ g) ∨
  (Z.to_nat (x.1 / fb_base b) = length groups ∧ x.2 ∈ fb_pending_keys b).

(** The keys that the policy takes. *)
Definition filter_fits (held : list (Z * bytes)) : Prop :=
  (length held ≤ fpl_max_keys)%nat ∧ Forall fpl_key (held.*2).

Definition builder_ok (log_base : Z) (held : list (Z * bytes)) (b : FilterBlockBuilder) : Prop :=
  fb_base b = Z.shiftl 1 log_base ∧ fb_log_base b = log_base ∧ (length (fb_pending_keys b) ≤ length held)%nat ∧
  (∀ key, key ∈ fb_pending_keys b → key ∈ held.*2) ∧
  (length (fb_output b) + 2 * fpl_bytes_per_key * length (fb_pending_keys b) ≤
   2 * fpl_bytes_per_key * length held)%nat ∧
  ∃ groups segs, filter_inv groups segs b ∧ Forall (holds_key groups b) held.

Lemma builder_length b groups segs :
  filter_inv groups segs b → length (fb_offsets b) = length groups.
Proof. intros [_ -> Hg]. rewrite length_offsets_of. symmetry. by eapply Forall2_length. Qed.

Lemma filter_flush_keeps log_base held b :
  builder_ok log_base held b → filter_fits held →
  ∃ b', filter_flush policy b = Done b' ∧ builder_ok log_base held b' ∧
        fb_pending_keys b' = [] ∧ length (fb_offsets b') = S (length (fb_offsets b)).
Proof.
  intros (Hb & Hl & Hp & Hpk & Hsz & groups & segs & Hi & Hh) [Hm Ha].
  destruct (filter_flush_ok _ _ _ Hi ltac:(lia)) as (s & b' & -> & Hi' & Hp' & Hb' & Hl' & Hsz').
  { rewrite Forall_forall in *. eauto. }
  exists b'. split; [done|]. split.
  - split; [congruence|]. split; [congruence|]. rewrite Hp'. split; [cbn; lia|].
    split; [by intros ? ?%not_elem_of_nil|]. split; [cbn; lia|]. do 2 eexists. split; [done|].
    eapply Forall_impl; [exact Hh|]. intros x [(g & Hg & Hx)|[Hx Hk]]; left; rewrite Hb'.
    + exists g. split; [|done]. by apply lookup_app_l_Some.
    + eexists. split; [|done]. rewrite Hx. by apply list_lookup_middle.
  - split; [done|]. rewrite (builder_length _ _ _ Hi'), (builder_length _ _ _ Hi).
    rewrite length_app. cbn. lia.
Qed.

Lemma filter_flushes_ok n log_base held b :
  builder_ok log_base held b → filter_fits held →
  ∃ b', filter_flushes policy n b = Done b' ∧ builder_ok log_base held b' ∧
        length (fb_offsets b') = (n + length (fb_offsets b))%nat.
Proof.
  revert b. induction n as [|n IH]; intros b Hb Hm; cbn [filter_flushes]; [by exists b|].
  destruct (filter_flush_keeps _ _ _ Hb Hm) as (b1 & -> & H1 & _ & Hl1).
  destruct (IH b1 H1 Hm) as (b2 & -> & H2 & Hl2). exists b2. split; [done|]. split; [done|lia].
Qed.

(** After [start_block] the next filter is the one of the offset. *)
Lemma start_block_ok off log_base held b :
  builder_ok log_base held b → filter_fits held →
  (length (fb_offsets b) ≤ Z.to_nat (off / Z.shiftl 1 log_base))%nat →
  ∃ b', start_block policy off b = Done b' ∧ builder_ok log_base held b' ∧
        length (fb_offsets b') = Z.to_nat (off / Z.shiftl 1 log_base).
Proof.
  intros Hb Hm Ho. unfold start_block. rewrite (proj1 Hb).
  rewrite (proj2 (Nat.ltb_ge _ _)) by done.
  destruct (filter_flushes_ok (Z.to_nat (off / Z.shiftl 1 log_base) - length (fb_offsets b)) _ _ _ Hb Hm)
    as (b' & -> & Hb' & Hl'). exists b'. split; [done|]. split; [done|lia].
Qed.

Lemma add_key_ok off key log_base held b :
  builder_ok log_base held b → length (fb_offsets b) = Z.to_nat (off / Z.shiftl 1 log_base) →
  builder_ok log_base (held ++ [(off, key)]) (add_key key b) ∧ fb_offsets (add_key key b) = fb_offsets b.
Proof.
  intros (Hb & Hl & Hp & Hpk & Hsz & groups & segs & Hi & Hh) Ho. split; [|done].
  split; [done|]. split; [done|]. cbn. rewrite !length_app, fmap_app. cbn. split; [lia|].
  split; [intros k; rewrite !elem_of_app; naive_solver|]. split; [lia|].
  exists groups, segs. split; [by destruct Hi|]. apply Forall_app. split.
  - eapply Forall_impl; [exact Hh|]. intros x [H|[H1 H2]]; [by left|right]. split; [done|]. set_solver.
  - constructor; [|done]. right. cbn. rewrite <- (builder_length _ _ _ Hi), Ho, Hb.
    split; [done|set_solver].
Qed.

(** The blocks of a table, each with its offset and its keys, added to the
    filter. *)
Fixpoint filter_blocks (blocks : list (Z * list bytes)) (b : FilterBlockBuilder) : run FilterBlockBuilder :=
  match blocks with
  | [] => Done b
  | (off, keys) :: blocks =>
    match start_block policy off b with
    | Done b => filter_blocks blocks (foldl (λ b k, add_key k b) b keys)
    | Panicked => Panicked
    | OutOfFuel => OutOfFuel
    end
  end.

Definition held_keys (blocks : list (Z * list bytes)) : list (Z * bytes) :=
  flat_map (λ x, pair x.1 <$> x.2) blocks.

Lemma add_keys_keep off keys log_base held b :
  builder_ok log_base held b → length (fb_offsets b) = Z.to_nat (off / Z.shiftl 1 log_base) →
  builder_ok log_base (held ++ (pair off <$> keys)) (foldl (λ b k, add_key k b) b keys) ∧
  fb_offsets (foldl (λ b k, add_key k b) b keys) = fb_offsets b.
Proof.
  revert held b. induction keys as [|k keys IH]; intros held b Hb Ho; cbn [foldl fmap list_fmap].
  { by rewrite app_nil_r. }
  destruct (add_key_ok off k _ _ _ Hb Ho) as [Hb' Ho'].
  destruct (IH _ _ Hb' ltac:(by rewrite Ho')) as [H1 H2]. rewrite cons_middle, app_assoc. by rewrite H2.
Qed.

Lemma filter_fits_app held held' : filter_fits (held ++ held') → filter_fits held.
Proof.
  unfold filter_fits. rewrite length_app, fmap_app, Forall_app. intros [H1 [H2 _]]. split; [lia|done].
Qed.

Lemma filter_blocks_ok blocks log_base held b :
  builder_ok log_base held b → filter_fits (held ++ held_keys blocks) → 0 ≤ log_base →
  StronglySorted Z.le (blocks.*1) →
  Forall (λ off, (length (fb_offsets b) ≤ Z.to_nat (off / Z.shiftl 1 log_base))%nat) (blocks.*1) →
  ∃ b', filter_blocks blocks b = Done b' ∧ builder_ok log_base (held ++ held_keys blocks) b'.
Proof.
  revert held b. induction blocks as [|[off keys] blocks IH]; intros held b Hb Hm H0 Hs Ho.
  { exists b. unfold held_keys. cbn. by rewrite app_nil_r. }
  cbn [filter_blocks]. inversion Hs as [|?? Hs' Hle]; subst. inversion Ho as [|?? Ho1 _]; subst.
  destruct (start_block_ok off _ _ _ Hb (filter_fits_app _ _ Hm) Ho1) as (b1 & -> & Hb1 & Hl1).
  destruct (add_keys_keep off keys _ _ _ Hb1 Hl1) as [Hb2 Hl2].
  unfold held_keys in *. cbn [flat_map fst snd] in *. rewrite app_assoc in *.
  apply IH; [done|done|done|done|]. rewrite Hl2, Hl1.
  eapply Forall_impl; [exact Hle|]. intros off' Hoff.
  assert (0 < Z.shiftl 1 log_base) by (rewrite Z.shiftl_1_l; apply Z.pow_pos_nonneg; lia).
  pose proof (Z.div_le_mono off off' (Z.shiftl 1 log_base) ltac:(done) Hoff). lia.
Qed.

Lemma filter_parse_ok F offs log_base :
  Z.of_nat (length F) < U32 → head (offs ++ [Z.of_nat (length F)]) = Some 0 →
  Forall (λ o, 0 ≤ o ≤ Z.of_nat (length F)) offs →
  FilterBlockRef_parse (F ++ flat_map (to_le_bytes 4) (offs ++ [Z.of_nat (length F)]) ++ [log_base]) =
  inr (mkFilterBlockRef F (offs ++ [Z.of_nat (length F)]) log_base).
Proof.
  intros HF H0 Ho. set (all := offs ++ _) in *. set (us := flat_map _ all).
  assert (length us = 4 * length all)%nat as Hus by apply length_u32s.
  assert (length all = S (length offs)) as Hall by (unfold all; rewrite length_app; cbn; lia).
  assert (us = flat_map (to_le_bytes 4) offs ++ to_le_bytes 4 (Z.of_nat (length F))) as Eus.
  { unfold us, all. rewrite flat_map_app. cbn [flat_map]. by rewrite app_nil_r. }
  assert (from_le_bytes (take 4 (drop (length (F ++ flat_map (to_le_bytes 4) offs)) (F ++ us ++ [log_base]))) =
          Z.of_nat (length F)) as Hread.
  { rewrite Eus, <- (app_assoc (flat_map _ _)), (app_assoc F), drop_app_length.
    rewrite (take_app_length' (to_le_bytes 4 _)) by (by rewrite length_to_le_bytes).
    apply from_to_le_bytes. split; [lia|exact HF]. }
  unfold FilterBlockRef_parse, min_size. rewrite !length_app. cbn [length].
  rewrite (proj2 (Z.ltb_ge _ _)) by lia. cbn [rbind].
  replace (length F + (length us + 1) - 5)%nat with (length (F ++ flat_map (to_le_bytes 4) offs))
    by (rewrite length_app, length_u32s; lia).
  rewrite Hread, (proj2 (Z.ltb_ge (Z.of_nat _) _)) by (rewrite length_app; lia). rewrite Nat2Z.id.
  rewrite drop_app_length. replace (length F + (length us + 1) - 1 - length F)%nat with (length us) by lia.
  rewrite take_app_length. rewrite Hus, Nat.mul_comm, Nat.Div0.mod_mul, Nat.div_mul by done. cbn [Nat.eqb negb].
  assert (Forall (λ o, 0 ≤ o ≤ Z.of_nat (length F)) all) as Ha.
  { unfold all. apply Forall_app. split; [done|]. constructor; [lia|done]. }
  unfold us. rewrite u32_slice_flat.
  2:{ eapply Forall_impl; [exact Ha|]. cbn. unfold U32 in HF. lia. }
  destruct all as [|a rest]; [done|]. cbn in H0. injection H0 as ->. cbn [Z.eqb negb].
  rewrite (proj2 (forallb_forall _ (0 :: rest))).
  2:{ intros x Hx%list_elem_of_In. rewrite Forall_forall in Ha. specialize (Ha x Hx). lia. }
  cbn [negb]. rewrite take_app_length. by rewrite app_assoc, last_last.
Qed.

(** What [finish] has written: the filters, and every key is in one. *)
Lemma filter_finish_written log_base held b :
  builder_ok log_base held b → filter_fits held →
  ∃ (groups : list (list bytes)) (segs : list bytes),
    filter_finish policy b =
      Done (concat segs ++ flat_map (to_le_bytes 4) (offsets_of segs) ++
            to_le_bytes 4 (Z.of_nat (length (concat segs)) mod U32) ++ [log_base]) ∧
    (length (concat segs) ≤ 2 * fpl_bytes_per_key * length held)%nat ∧
    (length segs ≤ S (length (fb_offsets b)))%nat ∧
    Forall2 (λ g s, ∀ key, key ∈ g → fp_key_may_match policy key s = Done true) groups segs ∧
    ∀ x, x ∈ held → ∃ g, groups !! Z.to_nat (x.1 / Z.shiftl 1 log_base) = Some g ∧ x.2 ∈ g.
Proof.
  intros Hb Hm. unfold filter_finish.
  assert (∃ b', (if (0 <? length (fb_pending_keys b))%nat then filter_flush policy b else Done b) = Done b' ∧
                builder_ok log_base held b' ∧ fb_pending_keys b' = [] ∧
                (length (fb_offsets b') ≤ S (length (fb_offsets b)))%nat) as (b' & -> & Hb' & Hp' & Ho').
  { destruct (fb_pending_keys b) as [|k ks] eqn:E; cbn [length Nat.ltb Nat.leb]; [exists b; split_and!; try done; lia|].
    destruct (filter_flush_keeps _ _ _ Hb Hm) as (b' & ? & ? & ? & Hl). exists b'. split_and!; try done. lia. }
  destruct Hb' as (Hbase & <- & _ & _ & Hsz & groups & segs & [Hout Hoff Hg] & Hh). exists groups, segs.
  rewrite Hout, Hoff in *. rewrite length_offsets_of in Ho'.
  split; [done|]. split; [lia|]. split; [done|]. split; [done|]. intros x Hx. rewrite Forall_forall in Hh.
  destruct (Hh x Hx) as [H|[_ H]]; [by rewrite Hbase in H|]. rewrite Hp' in H. by apply not_elem_of_nil in H.
Qed.

Lemma concat_take_le (segs : list bytes) i : (length (concat (take i segs)) ≤ length (concat segs))%nat.
Proof. rewrite <- (take_drop i segs) at 2. rewrite concat_app, length_app. lia. Qed.

Lemma concat_segment (segs : list bytes) i s :
  segs !! i = Some s →
  take (length (concat (take (S i) segs)) - length (concat (take i segs)))
    (drop (length (concat (take i segs))) (concat segs)) = s.
Proof.
  intros Hs. rewrite (take_S_r _ _ _ Hs), concat_app, length_app. cbn [concat]. rewrite app_nil_r.
  replace (_ + length s - _)%nat with (length s) by lia.
  rewrite <- (take_drop_middle _ _ _ Hs) at 2. rewrite concat_app, drop_app_length. cbn [concat].
  apply take_app_length.
Qed.

Lemma written_may_match (groups : list (list bytes)) segs log_base off key (g : list bytes) :
  0 ≤ log_base ≤ 63 → Z.of_nat (length (concat segs)) < U32 →
  Forall2 (λ g s, ∀ key, key ∈ g → fp_key_may_match policy key s = Done true) groups segs →
  groups !! Z.to_nat (off / Z.shiftl 1 log_base) = Some g → key ∈ g →
  key_may_match overflow_checks policy off key
    (mkFilterBlockRef (concat segs) (offsets_of segs ++ [Z.of_nat (length (concat segs))]) log_base) = Done true.
Proof.
  intros Hl Hs Hg Hi Hk. unfold key_may_match. cbn [fr_filters fr_offsets fr_log_base].
  rewrite (proj2 (Z.ltb_ge 63 _)), andb_false_r by lia. rewrite (Z.mod_small log_base) by lia.
  rewrite Z.shiftr_div_pow2 by lia. rewrite Z.shiftl_1_l in Hi. set (i := Z.to_nat _) in *.
  rewrite length_app, length_offsets_of, Nat.add_1_r.
  destruct (Forall2_lookup_l _ _ _ _ _ Hg Hi) as (s & Hsi & Hm). pose proof (lookup_lt_Some _ _ _ Hsi) as Hlt.
  rewrite (proj2 (Nat.leb_gt _ _)) by done.
  rewrite lookup_app_l by (rewrite length_offsets_of; lia). rewrite offsets_of_lookup by done.
  pose proof (concat_take_le segs i). rewrite Z.mod_small by lia.
  assert ((offsets_of segs ++ [Z.of_nat (length (concat segs))]) !! S i =
          Some (Z.of_nat (length (concat (take (S i) segs))))) as ->.
  { destruct (decide (S i < length segs)%nat).
    - rewrite lookup_app_l by (rewrite length_offsets_of; lia). rewrite offsets_of_lookup by done.
      pose proof (concat_take_le segs (S i)). by rewrite Z.mod_small by lia.
    - rewrite lookup_app_r by (rewrite length_offsets_of; lia). rewrite length_offsets_of.
      replace (S i - length segs)%nat with O by lia. cbn. by rewrite take_ge by lia. }
  rewrite (proj2 (Z.ltb_ge _ _)).
  2:{ rewrite (take_S_r _ _ _ Hsi), concat_app, length_app. lia. }
  rewrite <- Nat2Z.inj_sub, !Nat2Z.id.
  2:{ rewrite (take_S_r _ _ _ Hsi), concat_app, length_app. lia. }
  rewrite (concat_segment _ _ _ Hsi). by apply Hm.
Qed.

Lemma offsets_of_range segs :
  Z.of_nat (length (concat segs)) < U32 →
  head (offsets_of segs ++ [Z.of_nat (length (concat segs))]) = Some 0 ∧
  Forall (λ o, 0 ≤ o ≤ Z.of_nat (length (concat segs))) (offsets_of segs).
Proof.
  intros Hs. split; [by destruct segs|]. apply Forall_lookup. intros i o Ho.
  pose proof (lookup_lt_Some _ _ _ Ho) as Hi. rewrite length_offsets_of in Hi.
  rewrite offsets_of_lookup in Ho by done. injection Ho as <-.
  pose proof (concat_take_le segs i). rewrite Z.mod_small by lia. lia.
Qed.

Lemma filter_finish_ok log_base held b :
  builder_ok log_base held b → filter_fits held → 0 ≤ log_base ≤ 63 →
  ∃ block, filter_finish policy b = Done block ∧
    (length block ≤ 2 * fpl_bytes_per_key * length held + 4 * length (fb_offsets b) + 9)%nat ∧
    (Z.of_nat (length block) < U32 →
     ∃ r, FilterBlockRef_parse block = inr r ∧
       ∀ off key, (off, key) ∈ held → key_may_match overflow_checks policy off key r = Done true).
Proof.
  intros Hb Hm Hl. destruct (filter_finish_written _ _ _ Hb Hm) as (groups & segs & -> & Hsz & Hsl & Hg & Hh).
  eexists. split; [done|]. rewrite !length_app, length_u32s, length_to_le_bytes, length_offsets_of. cbn [length].
  split; [lia|]. intros Hlen.
  assert (Z.of_nat (length (concat segs)) < U32) as Hs by lia.
  destruct (offsets_of_range segs Hs) as [H0 Ho]. rewrite Z.mod_small by lia. eexists. split.
  - rewrite <- (filter_parse_ok _ _ log_base Hs H0 Ho), flat_map_app. cbn [flat_map].
    by rewrite app_nil_r, <- app_assoc.
  - intros off key Hx. destruct (Hh _ Hx) as (g & Hi & Hk). by eapply written_may_match.
Qed.
End Blocks.

(** [FilterBlockBuilder::new], [start_block] and [add_key] for every block,
    and [finish]. *)
Definition build_filter (overflow_checks : bool) (policy : FilterPolicy) (log_base : Z)
    (blocks : list (Z * list bytes)) : run bytes :=
  match FilterBlockBuilder_new overflow_checks log_base with
  | Done b =>
    match filter_blocks policy blocks b with
    | Done b => filter_finish policy b
    | Panicked => Panicked
    | OutOfFuel => OutOfFuel
    end
  | Panicked => Panicked
  | OutOfFuel => OutOfFuel
  end.

Lemma new_builder_ok policy (HP : FilterPolicyLaws policy) log_base :
  builder_ok policy log_base [] (mkFilterBlockBuilder [] [] (Z.shiftl 1 log_base) log_base []).
Proof. do 4 (split; [done|]). split; [cbn; lia|]. exists [], []. by split. Qed.

(** A block of filters has no false negatives. For a policy that keeps its
    laws, and blocks added in the order of their offsets, the filters are built
    without a panic; when they fit in 4 GiB the block is read back, and every
    key that was added may match at the offset of its block. *)
Theorem filter_block_complete (overflow_checks : bool) (policy : FilterPolicy) (HP : FilterPolicyLaws policy)
    (log_base : Z) (blocks : list (Z * list bytes)) :
  0 ≤ log_base ≤ 63 → StronglySorted Z.le (blocks.*1) → filter_fits policy (held_keys blocks) →
  ∃ block, build_filter overflow_checks policy log_base blocks = Done block ∧
    (Z.of_nat (length block) < U32 →
     ∃ r, FilterBlockRef_parse block = inr r ∧
       ∀ off keys key, (off, keys) ∈ blocks → key ∈ keys →
         key_may_match overflow_checks policy off key r = Done true).
Proof.
  intros Hl Hs Hm. unfold build_filter, FilterBlockBuilder_new.
  rewrite (proj2 (Z.ltb_ge 63 _)), andb_false_r, Z.mod_small by lia.
  destruct (filter_blocks_ok policy blocks log_base [] _ (new_builder_ok policy HP log_base) Hm ltac:(lia) Hs)
    as (b & -> & Hb); [apply Forall_forall; cbn; lia|].
  destruct (filter_finish_ok policy overflow_checks _ _ _ Hb Hm Hl) as (block & -> & _ & H).
  exists block. split; [done|]. intros Hlen. destruct (H Hlen) as (r & Hr & Hk). exists r. split; [done|].
  intros off keys key Hin Hkey. apply Hk. cbn [app]. unfold held_keys. apply list_elem_of_In, in_flat_map.
  exists (off, keys). split; [by apply list_elem_of_In|]. apply list_elem_of_In. cbn.
  apply list_elem_of_fmap. by exists key.
Qed.

Definition example_policy : FilterPolicy := bloom_policy false BloomFilterPolicy_default.
Definition example_blocks : list (Z * list bytes) := [(0, [[1]; [2; 3]]); (5000, [[4]; [7; 7; 7; 7; 7]])].

Lemma filter_block_complete_witness :
  ∃ block, build_filter true example_policy 11 example_blocks = Done block ∧
    (Z.of_nat (length block) < U32 →
     ∃ r, FilterBlockRef_parse block = inr r ∧
       ∀ off keys key, (off, keys) ∈ example_blocks → key ∈ keys →
         key_may_match true example_policy off key r = Done true).
Proof.
  apply (filter_block_complete true example_policy (bloom_laws 10 6 eq_refl) 11 example_blocks).
  - lia.
  - change (StronglySorted Z.le [0; 5000]). constructor; [constructor; constructor|]. constructor; [lia|constructor].
  - split; [|cbn; by repeat constructor]. change (4 ≤ Z.to_nat ((U32 - 65) / 10))%nat. apply Nat2Z.inj_le. rewrite Z2Nat.id; by vm_compute.
Defined.

(** A build that checks sums for overflow panics when it makes a Bloom
    filter of the one key [[1]]: the probes add to a hash of 32 bits without
    wrapping around. *)
Theorem bloom_create_overflows (out : bytes) :
  fp_create (bloom_policy true BloomFilterPolicy_default) [[1]] out = Panicked.
Proof. vm_compute. reflexivity. Qed.
