(* ===== verification/SkipList.v ===== *)
(** * The skip list behind memtables

    src/pkg/sstable/src/memtable/skip_list.rs. Nodes are shared and changed in
    place: the store is the list of all nodes that were allocated, a pointer
    is a position in it, and [first_node] is at position 0. Every store of a
    pointer is a step of its own, so that the states that concurrent readers
    see while a node is inserted are states of the model. *)

From S2P Require Import Prelude Wire Encoding Comparator.

#[local] Open Scope nat_scope.

Definition HEIGHT : nat := 8.

(** An [Option<Arc<Node>>] is an [option] of a position. *)
Record Node := mkNode {
  nd_key : bytes;
  nd_value : bytes;
  nd_next_nodes : list (option nat);
}.

Abbreviation Store := (list Node).

Definition first_node : nat := 0.

Definition SkipListMemtable_new : Store := [mkNode [] [] (replicate HEIGHT None)].

(** ** Nodes *)

Definition node (i : nat) : M Store Node :=
  let! nodes := gets id in unwrap (nodes !! i).

(** [node.next_nodes[level].load()] *)
Definition load (i level : nat) : M Store (option nat) :=
  let! n := node i in unwrap (nd_next_nodes n !! level).

(** [node.next_nodes[level].store(p)] *)
Definition store (i level : nat) (p : option nat) : M Store unit :=
  let! n := node i in
  assert (level <? length (nd_next_nodes n)) ;!
  modify (λ nodes, <[i := mkNode (nd_key n) (nd_value n) (<[level := p]> (nd_next_nodes n))]> nodes).

(** [Arc::new] *)
Definition alloc (n : Node) : M Store nat :=
  let! nodes := gets id in
  modify (λ nodes, nodes ++ [n]) ;!
  ret (length nodes).

(** ** Insertion *)

(** [num.leading_zeros()] of a u32 *)
Definition leading_zeros (num : Z) : nat :=
  if (num =? 0)%Z then 32 else Z.to_nat (31 - Z.log2 num).

Definition new_level (num : Z) : nat := Nat.min (leading_zeros num / 2) (HEIGHT - 1).

Section SkipList.
Context (comparator : KeyComparator).

Definition compare (a b : bytes) : M Store comparison := unwrap (kc_compare comparator a b).

Definition is_ge (c : comparison) : bool := match c with Lt => false | _ => true end.

(** The loop of [insert]: the nodes before the new one, from the highest
    level down, and the pointers of the new one. *)
Fixpoint insert_loop (fuel : nat) (key : bytes) (new_level current_node current_level : nat)
    (prev_nodes : list nat) (next_nodes : list (option nat))
    : M Store (list nat * list (option nat)) :=
  match fuel with
  | O => out_of_fuel
  | S fuel =>
    let! next_node := load current_node current_level in
    let! moved :=
      (match next_node with
       | Some n =>
         let! next := node n in
         let! c := compare key (nd_key next) in
         ret (if is_ge c then Some n else None)
       | None => ret None
       end) in
    match moved with
    | Some n => insert_loop fuel key new_level n current_level prev_nodes next_nodes
    | None =>
      let next_nodes :=
        if current_level <=? new_level then <[current_level := next_node]> next_nodes else next_nodes in
      let prev_nodes :=
        if current_level <=? new_level then prev_nodes ++ [current_node] else prev_nodes in
      match current_level with
      | O => ret (prev_nodes, next_nodes)
      | S level => insert_loop fuel key new_level current_node level prev_nodes next_nodes
      end
    end
  end.

(** The part of [insert] before the first pointer to the new node is stored:
    the new node and the stores that are left. [num] is the random number. *)
Definition insert_prepare (key value : bytes) (num : Z) : M Store (nat * list (nat * nat)) :=
  let level := new_level num in
  let! nodes := gets id in
  let! first := node first_node in
  let! top := unwrap (match length (nd_next_nodes first) with O => None | S l => Some l end) in
  let! (prev_nodes, next_nodes) :=
    insert_loop (length nodes + length (nd_next_nodes first) + 1) key level first_node top []
      (replicate (level + 1) None) in
  let! new_node := alloc (mkNode key value next_nodes) in
  ret (new_node, imap (λ i prev, (prev, level - i)) prev_nodes).

Definition insert_store (new_node : nat) (x : nat * nat) : M Store unit :=
  store x.1 x.2 (Some new_node).

Definition insert (key value : bytes) (num : Z) : M Store unit :=
  let! (new_node, stores) := insert_prepare key value num in
  for_each stores (insert_store new_node).

(** ** Searching *)

Fixpoint find_loop (fuel : nat) (key : bytes) (current_node current_level : nat)
    : M Store (nat * bool) :=
  match fuel with
  | O => out_of_fuel
  | S fuel =>
    let! next_node := load current_node current_level in
    let! cmp :=
      (match next_node with
       | Some n =>
         let! next := node n in
         let! c := compare key (nd_key next) in
         ret (Some (n, c))
       | None => ret None
       end) in
    match cmp with
    | Some (n, Eq) => ret (n, true)
    | Some (n, Gt) => find_loop fuel key n current_level
    | _ =>
      match current_level with
      | O => ret (current_node, false)
      | S level => find_loop fuel key current_node level
      end
    end
  end.

(** [find_previous_node] from [first_node] *)
Definition find_previous_node (key : bytes) : M Store (nat * bool) :=
  let! nodes := gets id in
  let! first := node first_node in
  let! top := unwrap (match length (nd_next_nodes first) with O => None | S l => Some l end) in
  find_loop (length nodes + length (nd_next_nodes first) + 1) key first_node top.

(** ** Iterators *)

(** [SkipListMemtableIterator] is its [current_node]. *)
Definition iter : M Store (option nat) := load first_node 0.

Definition iter_next (current_node : option nat) : M Store (option (bytes * bytes) * option nat) :=
  match current_node with
  | None => ret (None, None)
  | Some i =>
    let! next := load i 0 in
    let! n := node i in
    ret (Some (nd_key n, nd_value n), next)
  end.

Definition iter_seek (key : bytes) : M Store (option nat) :=
  let! (current_node, found_exact) := find_previous_node key in
  if found_exact then ret (Some current_node) else load current_node 0.
End SkipList.

(** [AlwaysGreaterComparator], whose other methods are [unimplemented!] *)
Definition AlwaysGreaterComparator : KeyComparator :=
  mkKeyComparator (λ _ _, Some Gt) (λ _ _, None) (λ _, None).

Definition key_range : M Store (option (bytes * bytes)) :=
  let! first := load first_node 0 in
  match first with
  | None => ret None
  | Some i =>
    let! first_node := node i in
    let! (last, _) := find_previous_node AlwaysGreaterComparator [] in
    let! last_node := node last in
    ret (Some (nd_key first_node, nd_key last_node))
  end.
