(* ===== verification/SkipListProofs.v ===== *)
(** * The skip list refines a sorted list

    [skip_inv]: every level links the nodes that reach it, in the order of
    their keys. A node that is being inserted is linked from its highest level
    down; [lo] gives the lowest level on which a node is linked so far. *)

From S2P Require Import Prelude Wire Encoding Comparator SkipList.

#[local] Open Scope nat_scope.

(** ** Reading the store *)

Definition height (nodes : Store) (i : nat) : nat :=
  from_option (λ n, length (nd_next_nodes n)) 0 (nodes !! i).
Definition key_at (nodes : Store) (i : nat) : bytes := from_option nd_key [] (nodes !! i).
Definition entry_at (nodes : Store) (i : nat) : bytes * bytes :=
  from_option (λ n, (nd_key n, nd_value n)) ([], []) (nodes !! i).
Definition next_at (nodes : Store) (i l : nat) : option (option nat) :=
  nodes !! i ≫= λ n, nd_next_nodes n !! l.

Definition visible (nodes : Store) (lo : nat → nat) (l j : nat) : Prop :=
  lo j ≤ l ∧ l < height nodes j.

#[export] Instance visible_dec nodes lo l j : Decision (visible nodes lo l j).
Proof. unfold visible. apply _. Defined.

Section Proofs.
Context (comparator : KeyComparator) `{!KeyComparatorLaws comparator}.

Record skip_inv (nodes : Store) (ids : list nat) (lo : nat → nat) : Prop := mkSkipInv {
  sk_ids : 0 :: ids ≡ₚ seq 0 (length nodes);
  sk_first : height nodes 0 = HEIGHT;
  sk_height i : i ∈ ids → 0 < height nodes i ≤ HEIGHT;
  sk_keys i : i ∈ ids → kc_key (key_at nodes i);
  sk_sorted : StronglySorted (λ i j, kc_le (key_at nodes i) (key_at nodes j)) ids;
  sk_next before after i l : ids = before ++ after → last (0 :: before) = Some i → l < height nodes i →
    next_at nodes i l = Some (head (filter (visible nodes lo l) after));
}.

(** A list on which no insertion is in progress. *)
Definition quiet : nat → nat := λ _, 0.

Definition contents (nodes : Store) (ids : list nat) : list (bytes * bytes) := entry_at nodes <$> ids.

(** [nodes] holds the entries [es], in this order. *)
Definition represents (nodes : Store) (es : list (bytes * bytes)) : Prop :=
  ∃ ids, skip_inv nodes ids quiet ∧ es = contents nodes ids.

Lemma new_represents : represents SkipListMemtable_new [].
Proof.
  exists []. split; [|done]. split; try done; [intros i []%not_elem_of_nil..|constructor|].
  intros before after i l E Hi Hl. symmetry in E. apply app_eq_nil in E as [-> ->]. injection Hi as <-.
  unfold next_at, SkipListMemtable_new, height in *. cbn [lookup list_lookup mbind option_bind from_option nd_next_nodes] in *.
  rewrite length_replicate in Hl. apply lookup_replicate. done.
Qed.

Lemma sk_valid nodes ids lo i : skip_inv nodes ids lo → i ∈ ids → i ≠ 0 ∧ ∃ n, nodes !! i = Some n.
Proof.
  intros Hs Hi. pose proof (sk_ids _ _ _ Hs) as Hp. split.
  - intros ->. pose proof (NoDup_seq 0 (length nodes)) as Hn. rewrite <- Hp in Hn. by apply NoDup_cons in Hn as [? _].
  - apply lookup_lt_is_Some. assert (i ∈ seq 0 (length nodes)) as Hin by (rewrite <- Hp; by constructor).
    apply elem_of_seq in Hin. lia.
Qed.

Lemma wp_node pp pf nodes i n (Q : Node → Store → Prop) :
  nodes !! i = Some n → Q n nodes → wpx pp pf (node i) Q nodes.
Proof. intros E HQ. unfold node. wp_step. wp_step. unfold id. rewrite E. by apply wpx_ret. Qed.

Lemma wp_load pp pf nodes i l p (Q : option nat → Store → Prop) :
  next_at nodes i l = Some p → Q p nodes → wpx pp pf (load i l) Q nodes.
Proof.
  unfold next_at. intros E HQ. destruct (nodes !! i) as [n|] eqn:Ei; [|done]. cbn in E.
  unfold load. wp_step. eapply wp_node; [done|]. rewrite E. by apply wpx_ret.
Qed.

Lemma wp_compare pp pf a b (Q : comparison → Store → Prop) nodes :
  kc_key a → kc_key b →
  (∀ o, match o with
        | Lt => ¬ kc_le b a
        | Eq => kc_le a b ∧ kc_le b a
        | Gt => ¬ kc_le a b
        end → Q o nodes) →
  wpx pp pf (compare comparator a b) Q nodes.
Proof.
  intros Ha Hb HQ. unfold compare. destruct (kc_compare_spec a b Ha Hb) as (o & -> & Ho). apply wpx_ret. by apply HQ.
Qed.

(** Comparing with the key of a node. *)
Lemma wp_peek {X} pp pf nodes ids lo n key (k : comparison → M Store X) Q :
  skip_inv nodes ids lo → n ∈ ids → kc_key key →
  (∀ o, match o with
        | Lt => ¬ kc_le (key_at nodes n) key
        | Eq => kc_le key (key_at nodes n) ∧ kc_le (key_at nodes n) key
        | Gt => ¬ kc_le key (key_at nodes n)
        end → wpx pp pf (k o) Q nodes) →
  wpx pp pf (let! next := node n in let! c := compare comparator key (nd_key next) in k c) Q nodes.
Proof.
  intros Hs Hin Hk HQ. destruct (sk_valid _ _ _ _ Hs Hin) as [_ [nd End]]. wp_step. eapply wp_node; [done|].
  assert (key_at nodes n = nd_key nd) as Ek by (unfold key_at; by rewrite End).
  wp_step. rewrite <- Ek. apply wp_compare; [done|by eapply sk_keys|done].
Qed.

(** The pointer of the node at the end of [before]. *)
Lemma wp_next pp pf nodes ids lo before after i l (Q : option nat → Store → Prop) :
  skip_inv nodes ids lo → ids = before ++ after → last (0 :: before) = Some i → l < height nodes i →
  Q (head (filter (visible nodes lo l) after)) nodes → wpx pp pf (load i l) Q nodes.
Proof. intros Hs E Hi Hl HQ. eapply wp_load; [by eapply sk_next|done]. Qed.

Lemma last_snoc_app (before mid : list nat) n : last (0 :: before ++ mid ++ [n]) = Some n.
Proof. rewrite (assoc_L (++)). exact (last_snoc n (0 :: before ++ mid)). Qed.

Lemma is_ge_le (key key' : bytes) o :
  match o with
  | Lt => ¬ kc_le key' key
  | Eq => kc_le key key' ∧ kc_le key' key
  | Gt => ¬ kc_le key key'
  end → (is_ge o = true ↔ kc_le key' key).
Proof. destruct o; cbn; [tauto|by split|]. destruct (kc_le_total key key'); tauto. Qed.

(** ** Searching *)

(** The loop of [find_previous_node] when the keys of [A] are less than [key]
    and those of [B] are not. *)
Lemma find_loop_spec fuel key nodes ids lo A B cur l before A2 :
  skip_inv nodes ids lo → kc_key key → ids = A ++ B →
  Forall (λ i, ¬ kc_le key (key_at nodes i)) A → Forall (λ i, kc_le key (key_at nodes i)) B →
  A = before ++ A2 → last (0 :: before) = Some cur → l < height nodes cur →
  length A2 + l < fuel →
  twp (find_loop comparator fuel key cur l) (λ x s, s = nodes ∧
    if x.2 : bool then x.1 ∈ B ∧ kc_le (key_at nodes x.1) key
    else ∃ before A2, A = before ++ A2 ∧ last (0 :: before) = Some x.1 ∧ 0 < height nodes x.1 ∧
      Forall (λ i, ¬ visible nodes lo 0 i) A2) nodes.
Proof.
  intros Hs Hk Hids HA HB. revert cur l before A2. induction fuel as [|fuel IH]; [lia|].
  intros cur l before A2 EA Hcur Hl Hfuel. cbn [find_loop]. wp_step.
  eapply (wp_next _ _ nodes ids lo before (A2 ++ B)); [done|by rewrite Hids, EA, (assoc_L (++))|done|done|].
  destruct (filter_first (visible nodes lo l) A2) as [(mid & n & A3 & EA2 & Hmid & Hn)|Hnone].
  - assert (head (filter (visible nodes lo l) (A2 ++ B)) = Some n) as ->.
    { by rewrite EA2, <- (assoc_L (++)), <- app_comm_cons, head_filter_first. }
    assert (n ∈ A) as HnA by (rewrite EA, EA2; set_solver).
    wp_step. eapply wp_peek; [done|rewrite Hids; set_solver|done|]. intros o Ho. wp_step.
    rewrite Forall_forall in HA. specialize (HA n HnA). destruct o; [tauto|by destruct (kc_le_total key (key_at nodes n))|].
    apply (IH n l (before ++ mid ++ [n]) A3); [by rewrite EA, EA2, <- !(assoc_L (++))|by rewrite last_snoc_app|apply Hn|].
    subst A2. rewrite length_app in Hfuel. cbn in Hfuel. lia.
  - rewrite head_filter_app by done.
    assert (twp match l with 0 => ret (cur, false) | S level => find_loop comparator fuel key cur level end
      (λ x s, s = nodes ∧ if x.2 : bool then x.1 ∈ B ∧ kc_le (key_at nodes x.1) key
        else ∃ before A2, A = before ++ A2 ∧ last (0 :: before) = Some x.1 ∧ 0 < height nodes x.1 ∧
          Forall (λ i, ¬ visible nodes lo 0 i) A2) nodes) as Hdown.
    { destruct l as [|l]; [wp_step; split; [done|]; by exists before, A2|].
      apply (IH cur l before A2); [done|done|lia|lia]. }
    destruct (filter_first (visible nodes lo l) B) as [(mid & n & B3 & EB & Hmid & Hn)|HnoneB].
    + assert (head (filter (visible nodes lo l) B) = Some n) as -> by by rewrite EB, head_filter_first.
      assert (n ∈ B) as HnB by (rewrite EB; set_solver).
      wp_step. eapply wp_peek; [done|rewrite Hids; set_solver|done|]. intros o Ho. wp_step.
      rewrite Forall_forall in HB. specialize (HB n HnB). destruct o; [|exact Hdown|done].
      wp_step. cbn. split; [done|]. split; [done|apply Ho].
    + rewrite head_filter_none by done. wp_step. wp_step. exact Hdown.
Qed.

(** Both searches start at the top of the first node. *)
Lemma wp_top {X} pp pf nodes ids lo (k : nat → nat → M Store X) Q :
  skip_inv nodes ids lo → wpx pp pf (k (length nodes + HEIGHT + 1) (HEIGHT - 1)) Q nodes →
  wpx pp pf (let! nodes := gets id in
    let! first := node first_node in
    let! top := unwrap (match length (nd_next_nodes first) with O => None | S l => Some l end) in
    k (length nodes + length (nd_next_nodes first) + 1) top) Q nodes.
Proof.
  intros Hs HQ. pose proof (sk_first _ _ _ Hs) as Hf. unfold height in Hf. repeat wp_step.
  destruct (nodes !! 0) as [n|] eqn:E; [|done]. cbn in Hf. eapply wp_node; [done|]. rewrite Hf. by wp_step; apply wpx_ret.
Qed.

Lemma length_ids nodes ids lo : skip_inv nodes ids lo → length nodes = S (length ids).
Proof. intros Hs. pose proof (Permutation_length (sk_ids _ _ _ Hs)) as E. rewrite length_seq in E. done. Qed.

Lemma key_split nodes ids lo key :
  skip_inv nodes ids lo → ∃ A B, ids = A ++ B ∧ Forall (λ i, ¬ kc_le key (key_at nodes i)) A ∧
    Forall (λ i, kc_le key (key_at nodes i)) B.
Proof.
  intros Hs. destruct (sorted_split _ (λ i, ¬ kc_le key (key_at nodes i)) ids (sk_sorted _ _ _ Hs))
    as (A & B & -> & HA & HB).
  - intros x y Hxy Hy Hx. apply Hy. by etrans.
  - exists A, B. split_and!; [done|done|]. eapply Forall_impl; [done|]. intros x Hx. by apply dec_stable.
Qed.

(** Where a seek ends. *)
Lemma iter_seek_spec nodes ids lo A B key :
  skip_inv nodes ids lo → kc_key key → ids = A ++ B →
  Forall (λ i, ¬ kc_le key (key_at nodes i)) A → Forall (λ i, kc_le key (key_at nodes i)) B →
  twp (iter_seek comparator key) (λ it s, s = nodes ∧
    (it = head (filter (visible nodes lo 0) B) ∨
     ∃ i, it = Some i ∧ i ∈ B ∧ kc_le (key_at nodes i) key)) nodes.
Proof.
  intros Hs Hk Hids HA HB. unfold iter_seek. wp_step. unfold find_previous_node. apply (wp_top _ _ nodes ids lo (λ fuel top, find_loop comparator fuel key first_node top)); [done|].
  assert (length nodes = S (length A + length B)) as El by (rewrite (length_ids _ _ _ Hs), Hids, length_app; done).
  wp_use (find_loop_spec _ key nodes ids lo A B 0 (HEIGHT - 1) [] A); try done.
  { rewrite (sk_first _ _ _ Hs). unfold HEIGHT. lia. }
  { unfold HEIGHT. lia. }
  intros [i []] s' [-> H]; cbn in H.
  - wp_step. split; [done|]. right. exists i. split; [done|apply H].
  - destruct H as (before & A2 & EA & Hl & Hh & Hno).
    eapply (wp_next _ _ nodes ids lo before (A2 ++ B)); [done|by rewrite Hids, EA, (assoc_L (++))|done|done|].
    split; [done|]. left. by rewrite head_filter_app.
Qed.

(** All entries that an iterator returns. *)
Fixpoint collect (fuel : nat) (it : option nat) : M Store (list (bytes * bytes)) :=
  match fuel with
  | O => out_of_fuel
  | S fuel =>
    let! (e, it) := iter_next it in
    match e with
    | None => ret []
    | Some e => let! es := collect fuel it in ret (e :: es)
    end
  end.

Lemma collect_from fuel nodes ids lo before after i :
  skip_inv nodes ids lo → ids = before ++ i :: after → length after + 1 < fuel →
  twp (collect fuel (Some i)) (λ es s, s = nodes ∧
    es = contents nodes (i :: filter (visible nodes lo 0) after)) nodes.
Proof.
  intros Hs. revert before after i. induction fuel as [|fuel IH]; intros before after i Hids Hfuel; [lia|].
  assert (i ∈ ids) as Hi by (rewrite Hids; set_solver). destruct (sk_valid _ _ _ _ Hs Hi) as [_ [n En]].
  cbn [collect iter_next]. repeat wp_step.
  eapply (wp_next _ _ nodes ids lo (before ++ [i]) after); [done|by rewrite Hids, <- (assoc_L (++))|
    exact (last_snoc i (0 :: before))|by apply (sk_height _ _ _ Hs)|].
  wp_step. eapply wp_node; [done|]. repeat wp_step.
  assert ((nd_key n, nd_value n) = entry_at nodes i) as -> by (unfold entry_at; by rewrite En).
  destruct (filter_first (visible nodes lo 0) after) as [(mid & j & after' & -> & Hmid & Hj)|Hno].
  - rewrite head_filter_first by done. rewrite length_app in Hfuel. cbn in Hfuel.
    wp_use (IH (before ++ i :: mid) after' j); [by rewrite Hids, <- (assoc_L (++))|lia|].
    intros es s' [-> ->]. wp_step. split; [done|]. unfold contents. cbn. do 2 f_equal.
    rewrite filter_app, (filter_none _ mid), filter_cons_True by done. done.
  - rewrite head_filter_none by done. destruct fuel as [|fuel]; [lia|]. cbn [collect iter_next]. repeat wp_step.
    split; [done|]. by rewrite filter_none.
Qed.

(** ** Inserting *)

(** The nodes around the new one on level [l], when it comes between the nodes
    [A] and [B]. *)
Definition prev_of (nodes : Store) (A : list nat) (l : nat) : nat :=
  default 0 (last (filter (visible nodes quiet l) (0 :: A))).
Definition next_of (nodes : Store) (B : list nat) (l : nat) : option nat :=
  head (filter (visible nodes quiet l) B).

Lemma prev_of_none nodes before A2 cur l :
  last (0 :: before) = Some cur → l < height nodes cur →
  Forall (λ i, ¬ visible nodes quiet l i) A2 → prev_of nodes (before ++ A2) l = cur.
Proof.
  intros Hc Hl Hno. unfold prev_of. rewrite app_comm_cons, filter_app, (filter_none _ A2), app_nil_r by done.
  rewrite (last_filter _ _ _ Hc); [done|]. by split; [apply Nat.le_0_l|].
Qed.

Lemma insert_loop_spec fuel key nl nodes ids A B cur l before A2 prevs nexts :
  skip_inv nodes ids quiet → kc_key key → ids = A ++ B →
  Forall (λ i, kc_le (key_at nodes i) key) A → Forall (λ i, ¬ kc_le (key_at nodes i) key) B →
  A = before ++ A2 → last (0 :: before) = Some cur → l < height nodes cur →
  length A2 + l < fuel →
  twp (insert_loop comparator fuel key nl cur l prevs nexts) (λ x s, s = nodes ∧
    x.1 = prevs ++ (prev_of nodes A <$> reverse (seq 0 (S (l `min` nl)))) ∧
    length x.2 = length nexts ∧
    ∀ k, k < length nexts → x.2 !! k = if decide (k ≤ l `min` nl) then Some (next_of nodes B k) else nexts !! k) nodes.
Proof.
  intros Hs Hk Hids HA HB. revert cur l before A2 prevs nexts. induction fuel as [|fuel IH]; [lia|].
  intros cur l before A2 prevs nexts EA Hcur Hl Hfuel. cbn [insert_loop]. wp_step.
  eapply (wp_next _ _ nodes ids quiet before (A2 ++ B)); [done|by rewrite Hids, EA, (assoc_L (++))|done|done|].
  destruct (filter_first (visible nodes quiet l) A2) as [(mid & n & A3 & EA2 & Hmid & Hn)|Hnone].
  { assert (head (filter (visible nodes quiet l) (A2 ++ B)) = Some n) as ->.
    { by rewrite EA2, <- (assoc_L (++)), <- app_comm_cons, head_filter_first. }
    assert (n ∈ A) as HnA by (rewrite EA, EA2; set_solver).
    wp_step. eapply wp_peek; [done|rewrite Hids; set_solver|done|]. intros o Ho. wp_step.
    rewrite Forall_forall in HA. specialize (HA n HnA). rewrite (proj2 (is_ge_le _ _ _ Ho) HA).
    apply (IH n l (before ++ mid ++ [n]) A3); [by rewrite EA, EA2, <- !(assoc_L (++))|by rewrite last_snoc_app|apply Hn|].
    subst A2. rewrite length_app in Hfuel. cbn in Hfuel. lia. }
  rewrite head_filter_app by done. fold (next_of nodes B l). wp_step.
  apply (wpx_mono _ _ _ (λ moved s, moved = None ∧ s = nodes)).
  { destruct (next_of nodes B l) as [n|] eqn:E; [|by wp_step].
    assert (n ∈ B) as HnB.
    { unfold next_of in E. apply head_Some_elem_of, list_elem_of_filter in E as [_ ?]. done. }
    eapply wp_peek; [done|rewrite Hids; set_solver|done|]. intros o Ho. wp_step. split; [|done].
    rewrite Forall_forall in HB. specialize (HB n HnB). destruct (is_ge o) eqn:Eo; [|done].
    by apply (is_ge_le _ _ _ Ho) in Eo. }
  intros moved s' [-> ->]. cbn zeta beta iota.
  assert (prev_of nodes A l = cur) as Ep by (rewrite EA; by apply prev_of_none).
  set (nexts' := if l <=? nl then _ else nexts). set (prevs' := if l <=? nl then prevs ++ [cur] else prevs).
  assert (length nexts' = length nexts) as En by (unfold nexts'; destruct (_ <=? _); by rewrite ?length_insert).
  assert (∀ k, k < length nexts → l ≤ k → nexts' !! k = if decide (k ≤ l `min` nl) then Some (next_of nodes B k) else nexts !! k) as Hn'.
  { intros k Hk1 Hk2. unfold nexts'. destruct (l <=? nl) eqn:E; b2p.
    - destruct (decide (k = l)) as [->|]; [rewrite list_lookup_insert_eq, decide_True by lia; done|].
      rewrite list_lookup_insert_ne, decide_False by lia. done.
    - rewrite decide_False by lia. done. }
  destruct l as [|l].
  - wp_step. cbn [fst snd]. rewrite Nat.min_0_l in *. split_and!; [done| |done|intros k Hk1; apply Hn'; lia].
    unfold prevs'. cbn. by rewrite Ep.
  - wp_use (IH cur l before A2 prevs' nexts'); [done|done|lia|lia|]. intros [pv nx] s' (-> & E1 & E2 & E3). cbn [fst snd] in *.
    rewrite En in *. split_and!; [done| |done|].
    + rewrite E1. unfold prevs'. destruct (S l <=? nl) eqn:E; b2p.
      * rewrite !Nat.min_l, (reverse_seq_S (S l)) by lia. cbn [fmap list_fmap]. by rewrite Ep, <- (assoc_L (++)).
      * by replace (S l `min` nl) with (l `min` nl) by lia.
    + intros k Hk1. rewrite E3 by done. destruct (decide (k ≤ l `min` nl)); [by rewrite decide_True by lia|].
      destruct (decide (S l ≤ k)); [by apply Hn'|]. rewrite decide_False by lia.
      unfold nexts'. destruct (S l <=? nl) eqn:E; b2p; [rewrite list_lookup_insert_ne by lia|]; done.
Qed.

(** The new node [n] is linked on the levels from [k] on. *)
Definition linked_from (n k : nat) : nat → nat := λ j, if decide (j = n) then k else 0.

Lemma visible_other nodes n k l j : j ≠ n → visible nodes (linked_from n k) l j ↔ visible nodes quiet l j.
Proof. intros Hj. unfold visible, linked_from. by rewrite decide_False. Qed.

(** Where a position in [A ++ n :: B] is. *)
Lemma position_cases (A B before after : list nat) n :
  A ++ n :: B = before ++ after →
  (∃ A2, A = before ++ A2 ∧ after = A2 ++ n :: B) ∨
  (∃ B1, before = A ++ n :: B1 ∧ B = B1 ++ after).
Proof.
  intros E. apply app_eq_inv in E as [(k & -> & ->)|(k & -> & E)]; [left; by exists k|].
  destruct k as [|x k]; cbn in E; [left; exists []; by rewrite !app_nil_r|]. injection E as <- ->. right. by exists k.
Qed.

Lemma ids_lt nodes ids lo i : skip_inv nodes ids lo → i ∈ 0 :: ids → i < length nodes.
Proof. intros Hs. rewrite (sk_ids _ _ _ Hs), elem_of_seq. lia. Qed.

Lemma at_old (nodes : Store) x i :
  i < length nodes → (nodes ++ [x]) !! i = nodes !! i.
Proof. apply lookup_app_l. Qed.

Lemma at_new (nodes : Store) x : (nodes ++ [x]) !! length nodes = Some x.
Proof. by rewrite lookup_app_r, Nat.sub_diag. Qed.

Lemma last_elem (before : list nat) i : last (0 :: before) = Some i → i ∈ 0 :: before.
Proof. apply last_Some_elem_of. Qed.

Lemma alloc_inv nodes A B key value nx nl :
  skip_inv nodes (A ++ B) quiet → kc_key key →
  Forall (λ i, kc_le (key_at nodes i) key) A → Forall (λ i, ¬ kc_le (key_at nodes i) key) B →
  length nx = S nl → nl < HEIGHT → (∀ k, k ≤ nl → nx !! k = Some (next_of nodes B k)) →
  skip_inv (nodes ++ [mkNode key value nx]) (A ++ length nodes :: B) (linked_from (length nodes) (S nl)).
Proof.
  intros Hs Hk HA HB Hlen Hnl Hnx. set (nodes' := nodes ++ [mkNode key value nx]). set (n := length nodes).
  assert (∀ i, i ∈ 0 :: A ++ B → height nodes' i = height nodes i ∧ key_at nodes' i = key_at nodes i ∧
    (∀ l, next_at nodes' i l = next_at nodes i l) ∧ i ≠ n) as Hold.
  { intros i Hi. pose proof (ids_lt _ _ _ _ Hs Hi) as Hlt. unfold height, key_at, next_at, nodes'.
    rewrite (at_old _ _ _ Hlt). split_and!; [done..|unfold n; lia]. }
  assert (height nodes' n = S nl ∧ key_at nodes' n = key) as [Hhn Hkn].
  { unfold height, key_at, nodes', n. by rewrite at_new. }
  assert (∀ l k (P : list nat), P ⊆ 0 :: A ++ B → filter (visible nodes' (linked_from n k) l) P = filter (visible nodes quiet l) P) as Hfil.
  { intros l k P HP. apply filter_ext_in. intros x Hx. destruct (Hold x (HP x Hx)) as (E & _ & _ & Hne).
    unfold visible, linked_from. by rewrite decide_False, E. }
  assert (∀ l, ¬ visible nodes' (linked_from n (S nl)) l n) as Hninv.
  { intros l. unfold visible, linked_from. rewrite decide_True, Hhn by done. lia. }
  split.
  - unfold nodes'. rewrite length_app, Nat.add_1_r, seq_S, <- (sk_ids _ _ _ Hs). cbn [plus]. fold n.
    rewrite <- Permutation_middle, (Permutation_app_comm _ [n]). apply perm_swap.
  - destruct (Hold 0) as (-> & _); [set_solver|apply Hs].
  - intros i Hi. destruct (decide (i = n)) as [->|Hne]; [rewrite Hhn; lia|].
    destruct (Hold i) as (-> & _); [set_solver|]. apply (sk_height _ _ _ Hs). set_solver.
  - intros i Hi. destruct (decide (i = n)) as [->|Hne]; [by rewrite Hkn|].
    destruct (Hold i) as (_ & -> & _); [set_solver|]. apply (sk_keys _ _ _ Hs). set_solver.
  - apply sorted_insert.
    + eapply sorted_impl_in; [|apply (sk_sorted _ _ _ Hs)]. intros x y Hx Hy.
      destruct (Hold x) as (_ & -> & _); [set_solver|]. by destruct (Hold y) as (_ & -> & _); [set_solver|].
    + rewrite Forall_forall in HA |- *. intros x Hx. rewrite Hkn.
      destruct (Hold x) as (_ & -> & _); [set_solver|auto].
    + rewrite Forall_forall in HB |- *. intros x Hx. rewrite Hkn.
      destruct (Hold x) as (_ & -> & _); [set_solver|]. specialize (HB x Hx).
      by destruct (kc_le_total key (key_at nodes x)).
  - intros before after i l E Hi Hl.
    destruct (position_cases _ _ _ _ _ E) as [(A2 & -> & ->)|(B1 & -> & ->)].
    + pose proof (last_elem _ _ Hi) as Hin. destruct (Hold i) as (Eh & _ & En & _); [set_solver|].
      rewrite En. rewrite (sk_next _ _ _ Hs before (A2 ++ B) i l); [|by rewrite <- (assoc_L (++))|done|by rewrite <- Eh].
      do 2 f_equal. rewrite !filter_app, filter_cons_False by done. by rewrite !Hfil by set_solver.
    + rewrite Hfil by set_solver. destruct (decide (B1 = [])) as [->|Hne].
      * change (last ((0 :: A) ++ [n]) = Some i) in Hi. rewrite last_snoc in Hi. injection Hi as <-. rewrite Hhn in Hl.
        unfold next_at, nodes', n. rewrite at_new. cbn. by rewrite Hnx by lia.
      * assert (last (0 :: A ++ B1) = Some i) as Hi'.
        { destruct B1 as [|b B1]; [done|]. by rewrite app_comm_cons, last_app_cons in Hi |- *. }
        destruct (Hold i) as (Eh & _ & En & _); [apply last_elem in Hi'; set_solver|].
        rewrite En. apply (sk_next _ _ _ Hs (A ++ B1) after); [by rewrite <- (assoc_L (++))|done|by rewrite <- Eh].
Qed.

(** Stores of pointers change nothing else. *)
Record same_data (nodes nodes' : Store) : Prop := mkSameData {
  sd_length : length nodes' = length nodes;
  sd_height i : height nodes' i = height nodes i;
  sd_entry i : entry_at nodes' i = entry_at nodes i;
}.

Lemma same_data_refl nodes : same_data nodes nodes.
Proof. done. Qed.

Lemma same_data_trans nodes1 nodes2 nodes3 :
  same_data nodes1 nodes2 → same_data nodes2 nodes3 → same_data nodes1 nodes3.
Proof. intros [] []. split; intros; congruence. Qed.

Lemma key_entry nodes i : key_at nodes i = (entry_at nodes i).1.
Proof. unfold key_at, entry_at. by destruct (nodes !! i). Qed.

Lemma wp_store pp pf nodes i l p (Q : unit → Store → Prop) :
  l < height nodes i →
  (∀ nodes', same_data nodes nodes' → next_at nodes' i l = Some p →
    (∀ j k, (j, k) ≠ (i, l) → next_at nodes' j k = next_at nodes j k) → Q tt nodes') →
  wpx pp pf (store i l p) Q nodes.
Proof.
  intros Hl HQ. unfold height in Hl. destruct (nodes !! i) as [n|] eqn:Ei; cbn in Hl; [|lia].
  unfold store. wp_step. eapply wp_node; [done|]. rewrite (proj2 (Nat.ltb_lt _ _) Hl). repeat wp_step; [|done].
  pose proof (lookup_lt_Some _ _ _ Ei) as Hi. apply HQ.
  - split; [by rewrite length_insert|..]; intros j; unfold height, entry_at;
      (destruct (decide (j = i)) as [->|]; [rewrite list_lookup_insert_eq, Ei by done|by rewrite list_lookup_insert_ne by done]);
      cbn; by rewrite ?length_insert.
  - unfold next_at. rewrite list_lookup_insert_eq by done. cbn. by rewrite list_lookup_insert_eq.
  - intros j k Hjk. unfold next_at. destruct (decide (j = i)) as [->|]; [|by rewrite list_lookup_insert_ne].
    rewrite list_lookup_insert_eq, Ei by done. cbn. rewrite list_lookup_insert_ne by congruence. done.
Qed.

Lemma linked_ids nodes A B n lo :
  skip_inv nodes (A ++ n :: B) lo → (∀ x, x ∈ 0 :: A → x ∉ n :: B) ∧ n ∉ B ∧
    (∀ before A2 i j, A = before ++ A2 → i ∈ 0 :: before → j ∈ A2 → i ≠ j).
Proof.
  intros Hs. pose proof (NoDup_seq 0 (length nodes)) as Hn. rewrite <- (sk_ids _ _ _ Hs) in Hn.
  rewrite app_comm_cons in Hn. pose proof Hn as (HA & Hdis & HnB)%NoDup_app. apply NoDup_cons in HnB as [HnB _].
  split_and!; [done|done|]. intros before A2 i j -> Hi Hj ->. rewrite app_comm_cons in HA. apply NoDup_app in HA as (_ & Hd & _). by eapply Hd.
Qed.

(** What one level of the list is after the store on it. *)
Lemma link_level nodes A B n l lo i before A2 :
  skip_inv nodes (A ++ n :: B) lo → A = before ++ A2 → last (0 :: before) = Some i → l < height nodes i →
  if decide (Forall (λ j, ¬ visible nodes quiet l j) A2) then prev_of nodes A l = i
  else prev_of nodes A l ≠ i.
Proof.
  intros Hs -> Hi Hl. destruct (decide _) as [Hno|Hsome]; [by apply prev_of_none|].
  destruct (filter_first (visible nodes quiet l) (reverse A2)) as [(l1 & j & l2 & E & Hl1 & Hj)|Hno].
  2:{ exfalso. apply Hsome. by rewrite <- (reverse_involutive A2), Forall_reverse. }
  apply (f_equal reverse) in E. rewrite reverse_involutive, reverse_app, reverse_cons in E.
  unfold prev_of. rewrite E, app_comm_cons, !filter_app, (filter_none _ (reverse l1)), app_nil_r by (by apply Forall_reverse).
  assert (filter (visible nodes quiet l) [j] = [j]) as -> by (by rewrite filter_cons_True). rewrite (assoc_L (++)), last_snoc. cbn.
  destruct (linked_ids _ _ _ _ _ Hs) as (_ & _ & Hne). intros ->.
  eapply (Hne before A2 i i); [done|by apply last_elem| |done]. rewrite E. set_solver.
Qed.

Lemma prev_of_in nodes A l : l < height nodes 0 → prev_of nodes A l ∈ 0 :: A ∧ l < height nodes (prev_of nodes A l).
Proof.
  intros Hl. unfold prev_of. destruct (last _) as [x|] eqn:E; [|split; [by left|done]]. cbn.
  apply last_Some_elem_of, list_elem_of_filter in E as [[_ ?] ?]. done.
Qed.

Lemma link_inv nodes nodes' A B n l :
  skip_inv nodes (A ++ n :: B) (linked_from n (S l)) → l < height nodes n →
  same_data nodes nodes' → next_at nodes' (prev_of nodes A l) l = Some (Some n) →
  (∀ j k, (j, k) ≠ (prev_of nodes A l, l) → next_at nodes' j k = next_at nodes j k) →
  skip_inv nodes' (A ++ n :: B) (linked_from n l).
Proof.
  intros Hs Hl [El Eh Ee] Hst Hoth. pose proof (linked_ids _ _ _ _ _ Hs) as (Hdis & HnB & _).
  assert (n ∉ A) as HnA by (intros Hx; apply (Hdis n); [by right|by left]).
  assert (∀ i, key_at nodes' i = key_at nodes i) as Ek by (intros i; by rewrite !key_entry, Ee).
  assert (l < height nodes 0) as Hl0.
  { rewrite (sk_first _ _ _ Hs). pose proof (sk_height _ _ _ Hs n ltac:(set_solver)). lia. }
  pose proof (prev_of_in nodes A l Hl0) as [Hp _].
  split; [rewrite El; apply Hs|rewrite Eh; apply Hs|intros i Hi; rewrite Eh; by apply (sk_height _ _ _ Hs)|
    intros i Hi; rewrite Ek; by apply (sk_keys _ _ _ Hs)|
    eapply sorted_impl_in; [|apply Hs]; intros x y _ _; by rewrite !Ek|].
  intros before after i k E Hi Hk. rewrite Eh in Hk.
  assert (∀ P : list nat, n ∉ P → filter (visible nodes' (linked_from n l) k) P = filter (visible nodes (linked_from n (S l)) k) P) as Hsame.
  { intros P HP. apply filter_ext_in. intros x Hx. unfold visible. rewrite Eh. unfold linked_from.
    by rewrite !decide_False by congruence. }
  pose proof (sk_next _ _ _ Hs before after i k E Hi Hk) as Hnext.
  destruct (position_cases _ _ _ _ _ E) as [(A2 & -> & ->)|(B1 & -> & ->)].
  2:{ rewrite Hsame by set_solver. rewrite Hoth; [done|]. intros [= -> ->]. apply (Hdis _ Hp).
      rewrite app_comm_cons, last_app_cons in Hi. apply last_Some_elem_of in Hi. set_solver. }
  destruct (decide (k = l)) as [->|Hkl].
  2:{ rewrite Hoth, Hnext by congruence. do 2 f_equal. apply filter_ext_in. intros x _.
      unfold visible, linked_from. rewrite Eh. destruct (decide (x = n)); lia. }
  assert (n ∉ A2) as HnA2 by set_solver.
  assert (filter (visible nodes (linked_from n (S l)) l) A2 = filter (visible nodes quiet l) A2) as E1.
  { apply filter_ext_in. intros j Hj. apply visible_other. congruence. }
  pose proof (link_level nodes _ B n l _ i before A2 Hs eq_refl Hi Hk) as Hlev.
  destruct (decide _) as [Hno|Hsome].
  - rewrite <- Hlev, Hst. f_equal. rewrite filter_app, Hsame, E1, filter_none by done.
    rewrite filter_cons_True; [done|]. unfold visible, linked_from. rewrite decide_True, Eh by done. lia.
  - rewrite Hoth, Hnext, !filter_app, (Hsame A2), E1 by congruence. f_equal.
    destruct (filter_first (visible nodes quiet l) A2) as [(l1 & j & l2 & -> & Hl1 & Hj)|]; [|done].
    by rewrite filter_app, (filter_none _ l1), filter_cons_True.
Qed.

(** The first [m] of the stores for the levels below [k]. *)
Lemma link_some nodes0 nodes A B n k m :
  skip_inv nodes (A ++ n :: B) (linked_from n k) → same_data nodes0 nodes → k ≤ height nodes n → m ≤ k →
  twp (for_each (take m ((λ l, (prev_of nodes0 A l, l)) <$> reverse (seq 0 k))) (insert_store n))
    (λ _ s, skip_inv s (A ++ n :: B) (linked_from n (k - m)) ∧ same_data nodes0 s) nodes.
Proof.
  revert nodes k. induction m as [|m IH]; intros nodes k Hs Hd Hk Hm.
  { rewrite take_0. apply wpx_ret. by rewrite Nat.sub_0_r. }
  destruct k as [|k]; [lia|]. rewrite reverse_seq_S, fmap_cons, firstn_cons. cbn [for_each]. wp_step.
  unfold insert_store at 1. cbn [fst snd].
  assert (prev_of nodes0 A k = prev_of nodes A k) as Ep.
  { unfold prev_of. do 2 f_equal. apply filter_ext_in. intros x _. unfold visible. by rewrite (sd_height _ _ Hd). }
  assert (k < height nodes 0) as H0.
  { rewrite (sk_first _ _ _ Hs). pose proof (sk_height _ _ _ Hs n ltac:(set_solver)). lia. }
  destruct (prev_of_in nodes A k H0) as [_ Hp]. rewrite Ep. apply wp_store; [done|]. intros nodes' Hd' Hst Hoth.
  apply IH; [by eapply link_inv|by eapply same_data_trans|rewrite (sd_height _ _ Hd'); lia|lia].
Qed.

Lemma skip_inv_ext nodes ids lo lo' : (∀ j, lo j = lo' j) → skip_inv nodes ids lo → skip_inv nodes ids lo'.
Proof.
  intros E []. split; try done. intros before after i l Hids Hi Hl. erewrite sk_next0 by done. do 2 f_equal.
  apply filter_ext_in. intros x _. unfold visible. by rewrite E.
Qed.

Lemma new_level_lt num : new_level num < HEIGHT.
Proof. unfold new_level, HEIGHT. lia. Qed.

Lemma imap_levels {X} (f : nat → X) nl :
  imap (λ i x, (x, nl - i)) (f <$> reverse (seq 0 (S nl))) = (λ l, (f l, l)) <$> reverse (seq 0 (S nl)).
Proof.
  apply list_eq. intros i. rewrite list_lookup_imap, !list_lookup_fmap.
  destruct (reverse (seq 0 (S nl)) !! i) as [l|] eqn:E; [|done]. cbn. do 2 f_equal.
  pose proof (lookup_lt_Some _ _ _ E) as Hi. rewrite length_reverse, length_seq in Hi.
  rewrite reverse_lookup in E by (by rewrite length_seq). rewrite length_seq in E. apply lookup_seq in E as [-> _]. lia.
Qed.

(** [insert_prepare] finds the place [A], [B] of the new node. *)
Lemma insert_prepare_spec nodes ids key value num :
  skip_inv nodes ids quiet → kc_key key →
  ∃ A B, ids = A ++ B ∧ Forall (λ i, kc_le (key_at nodes i) key) A ∧
    Forall (λ i, ¬ kc_le (key_at nodes i) key) B ∧
    twp (insert_prepare comparator key value num) (λ x nodes', x.1 = length nodes ∧
      (∃ nx, nodes' = nodes ++ [mkNode key value nx]) ∧
      x.2 = (λ l, (prev_of nodes' A l, l)) <$> reverse (seq 0 (S (new_level num))) ∧
      skip_inv nodes' (A ++ length nodes :: B) (linked_from (length nodes) (S (new_level num))) ∧
      height nodes' (length nodes) = S (new_level num)) nodes.
Proof.
  intros Hs Hk. pose proof (new_level_lt num) as Hnl. set (nl := new_level num) in *.
  destruct (sorted_split _ (λ i, kc_le (key_at nodes i) key) ids (sk_sorted _ _ _ Hs)) as (A & B & -> & HA & HB).
  { intros x y Hxy Hy. by etrans. }
  exists A, B. split_and!; [done..|]. unfold insert_prepare. fold nl.
  apply (wp_top _ _ nodes (A ++ B) quiet (λ fuel top,
    let! (prev_nodes, next_nodes) := insert_loop comparator fuel key nl first_node top [] (replicate (nl + 1) None) in
    let! new_node := alloc (mkNode key value next_nodes) in
    ret (new_node, imap (λ i prev, (prev, nl - i)) prev_nodes))); [done|].
  wp_step. wp_use (insert_loop_spec _ key nl nodes (A ++ B) A B 0 (HEIGHT - 1) [] A); try done.
  { rewrite (sk_first _ _ _ Hs). unfold HEIGHT. lia. }
  { rewrite (length_ids _ _ _ Hs), length_app. unfold HEIGHT. lia. }
  intros [pv nx] s' (-> & Epv & Elen & Enx). cbn [fst snd app] in *.
  rewrite length_replicate, Nat.add_1_r in *. rewrite Nat.min_r in Epv, Enx by (unfold HEIGHT in *; lia).
  unfold alloc. repeat wp_step. unfold id. cbn [fst snd].
  assert (skip_inv (nodes ++ [mkNode key value nx]) (A ++ length nodes :: B) (linked_from (length nodes) (S nl))) as Hs'.
  { apply alloc_inv; try done. intros k Hkn. by rewrite Enx, decide_True by lia. }
  split_and!; [done|by eexists| |done|unfold height; by rewrite at_new].
  rewrite Epv, imap_levels. apply list_fmap_ext. intros _ l _. f_equal. unfold prev_of. do 2 f_equal.
  apply filter_ext_in. intros x Hx. unfold visible, height. rewrite at_old; [done|].
  apply (ids_lt _ _ _ _ Hs). set_solver.
Qed.

End Proofs.
