(* ===== verification/SkipListTheorems.v ===== *)
(** * Properties of the skip list

    Insertion, seeking and iterating against a sorted list, readers that run
    between the stores of an insertion, and keys that are inserted twice. *)

From S2P Require Import Prelude Wire Encoding Comparator SkipList SkipListProofs.

#[local] Open Scope nat_scope.

Section Reads.
Context (comparator : KeyComparator) `{!KeyComparatorLaws comparator}.

(** The keys are the same for the comparator. *)
Definition same_key (a b : bytes) : Prop := kc_le a b ∧ kc_le b a.

#[export] Instance same_key_dec a b : Decision (same_key a b).
Proof. unfold same_key. apply _. Defined.

(** The sorted list: a new entry comes after those with the same key. *)
Fixpoint ordered_insert (e : bytes * bytes) (es : list (bytes * bytes)) : list (bytes * bytes) :=
  match es with
  | [] => [e]
  | x :: es' => if decide (kc_le x.1 e.1) then x :: ordered_insert e es' else e :: es
  end.

Lemma ordered_insert_app e es1 es2 :
  Forall (λ x, kc_le x.1 e.1) es1 → Forall (λ x, ¬ kc_le x.1 e.1) es2 →
  ordered_insert e (es1 ++ es2) = es1 ++ e :: es2.
Proof.
  intros H1 H2. induction H1 as [|x es1 Hx _ IH]; cbn; [|by rewrite decide_True, IH].
  destruct H2 as [|x es2 Hx _]; [done|]. cbn. by rewrite decide_False.
Qed.

Lemma ordered_insert_perm e es : ordered_insert e es ≡ₚ e :: es.
Proof.
  induction es as [|x es IH]; cbn; [done|]. destruct (decide _); [|done]. rewrite IH. apply perm_swap.
Qed.

(** Seek and read to the end. *)
Definition read_from (key : bytes) : M Store (list (bytes * bytes)) :=
  let! it := iter_seek comparator key in
  let! nodes := gets id in
  collect (S (length nodes)) it.

Definition read_all : M Store (list (bytes * bytes)) :=
  let! it := iter in
  let! nodes := gets id in
  collect (S (length nodes)) it.

Lemma visible_old nodes ids n k j :
  skip_inv comparator nodes ids (linked_from n k) → j ∈ ids → j ≠ n → visible nodes (linked_from n k) 0 j.
Proof.
  intros Hs Hj Hne. apply visible_other; [done|]. split; [apply Nat.le_0_l|]. by apply (sk_height _ _ _ _ Hs).
Qed.

(** Reading the nodes that are linked on the lowest level. *)
Lemma collect_head nodes ids lo before after :
  skip_inv comparator nodes ids lo → ids = before ++ after →
  twp (collect (S (length nodes)) (head (filter (visible nodes lo 0) after)))
    (λ es s, s = nodes ∧ es = contents nodes (filter (visible nodes lo 0) after)) nodes.
Proof.
  intros Hs Hids. pose proof (length_ids _ _ _ _ Hs) as El.
  destruct (filter_first (visible nodes lo 0) after) as [(mid & j & after' & -> & Hmid & Hj)|Hno].
  - rewrite head_filter_first by done. rewrite filter_app, (filter_none _ mid), filter_cons_True by done.
    apply (collect_from comparator _ nodes ids lo (before ++ mid)); [done|by rewrite Hids, <- (assoc_L (++))|].
    rewrite El, Hids, !length_app. cbn. lia.
  - rewrite filter_none by done. cbn [head collect iter_next]. by repeat wp_step.
Qed.

Definition equals (nodes : Store) (key : bytes) (i : nat) : Prop := same_key (key_at nodes i) key.

#[export] Instance equals_dec nodes key i : Decision (equals nodes key i).
Proof. unfold equals. apply _. Defined.

Lemma read_from_spec nodes ids lo key :
  skip_inv comparator nodes ids lo → kc_key key → length (filter (equals nodes key) ids) ≤ 1 →
  let Q := filter (λ i, kc_le key (key_at nodes i)) ids in
  twp (read_from key) (λ es s, s = nodes ∧
    (es = contents nodes (filter (visible nodes lo 0) Q) ∨
     ∃ i Q', Q = i :: Q' ∧ es = contents nodes (i :: filter (visible nodes lo 0) Q'))) nodes.
Proof.
  intros Hs Hk Huniq Q. destruct (key_split _ _ _ _ key Hs) as (A & B & Hids & HA & HB).
  assert (Q = B) as ->.
  { unfold Q. rewrite Hids, filter_app, filter_none by done. cbn. clear -HB.
    induction HB as [|x B Hx _ IH]; [done|]. by rewrite filter_cons_True, IH. }
  unfold read_from. wp_step. wp_use iter_seek_spec; [done..|]. intros it s' [-> Hit]. wp_step. wp_step. change (id nodes) with nodes.
  destruct Hit as [->|(i & -> & HiB & Hle)].
  { wp_use collect_head; [done|done|]. intros es s' [-> ->]. split; [done|by left]. }
  apply list_elem_of_split in HiB as (B1 & B2 & ->).
  assert (B1 = []) as ->.
  { destruct B1 as [|b B1]; [done|]. exfalso.
    apply Forall_app in HB as [HB1 HB2]. apply Forall_cons in HB1 as [Hb _]. apply Forall_cons in HB2 as [Hi _].
    assert (kc_le (key_at nodes b) (key_at nodes i)) as Hbi.
    { pose proof (sk_sorted _ _ _ _ Hs) as Hst. rewrite Hids in Hst. apply StronglySorted_app_1_r in Hst.
      exact (StronglySorted_app_1_elem_of _ _ _ b i Hst ltac:(by left) ltac:(by left)). }
    rewrite Hids, filter_app, length_app, <- app_comm_cons, filter_cons_True, filter_app, filter_cons_True in Huniq.
    - cbn in Huniq. rewrite length_app in Huniq. cbn in Huniq. lia.
    - by split.
    - split; [by etrans|done]. }
  wp_use (collect_from comparator _ nodes ids lo A B2 i); [done|done| |].
  { rewrite (length_ids _ _ _ _ Hs), Hids, length_app. cbn. lia. }
  intros es s' [-> ->]. split; [done|]. right. by exists i, B2.
Qed.

Lemma read_all_spec nodes ids lo :
  skip_inv comparator nodes ids lo →
  twp read_all (λ es s, s = nodes ∧ es = contents nodes (filter (visible nodes lo 0) ids)) nodes.
Proof.
  intros Hs. unfold read_all, iter, first_node. wp_step.
  eapply (wp_next _ _ _ nodes ids lo [] ids); [done|done|done|rewrite (sk_first _ _ _ _ Hs); unfold HEIGHT; lia|].
  repeat wp_step. change (id nodes) with nodes. by eapply (collect_head nodes ids lo []).
Qed.

(** ** Contents *)

Lemma contents_filter nodes ids key :
  contents nodes (filter (λ i, kc_le key (key_at nodes i)) ids) = filter (λ e, kc_le key e.1) (contents nodes ids).
Proof.
  unfold contents. rewrite filter_fmap. f_equal. apply filter_ext_in. intros x _. by rewrite key_entry.
Qed.

Lemma equals_contents nodes ids key :
  length (filter (equals nodes key) ids) = length (filter (λ e, same_key e.1 key) (contents nodes ids)).
Proof.
  unfold contents. rewrite filter_fmap, length_fmap. f_equal. apply filter_ext_in.
  intros x _. unfold equals. cbn. by rewrite key_entry.
Qed.

Lemma quiet_visible nodes ids : skip_inv comparator nodes ids quiet → Forall (visible nodes quiet 0) ids.
Proof. intros Hs. apply Forall_forall. intros i Hi. split; [done|]. by apply (sk_height _ _ _ _ Hs). Qed.

(** The state after the first [m] stores of an insertion; all of them for a
    large [m]. *)
Definition insert_steps (m : nat) (key value : bytes) (num : Z) : M Store unit :=
  let! (new_node, stores) := insert_prepare comparator key value num in
  for_each (take m stores) (insert_store new_node).

(** Between two stores: the entries of [A] and [B] and the new node [n]
    between them, linked from level [k] on. *)
Record inserting (nodes : Store) (es1 es2 : list (bytes * bytes)) (e : bytes * bytes) (k : nat) : Prop := mkInserting {
  in_nodes : ∃ A n B, skip_inv comparator nodes (A ++ n :: B) (linked_from n k) ∧
    contents nodes A = es1 ∧ entry_at nodes n = e ∧ contents nodes B = es2 ∧ n ∉ A ∧ n ∉ B;
  in_before : Forall (λ x, kc_le x.1 e.1) es1;
  in_after : Forall (λ x, ¬ kc_le x.1 e.1) es2;
}.

Lemma insert_steps_spec nodes es key value num m :
  represents comparator nodes es → kc_key key →
  ∃ es1 es2 k, es = es1 ++ es2 ∧ k = S (new_level num) - m ∧
    twp (insert_steps m key value num) (λ _ s, inserting s es1 es2 (key, value) k) nodes.
Proof.
  intros (ids & Hs & ->) Hk.
  destruct (insert_prepare_spec comparator nodes ids key value num Hs Hk) as (A & B & -> & HA & HB & Hprep).
  exists (contents nodes A), (contents nodes B), (S (new_level num) - m). split_and!; [apply fmap_app|done|].
  set (n := length nodes) in *. set (nl := new_level num) in *.
  unfold insert_steps. wp_step. wp_use Hprep. intros [n' stores] nodes1 (En & [nx Enodes] & Est & Hs1 & Hh). cbn [fst snd] in *.
  subst n' stores. set (m' := m `min` S nl).
  assert (take m ((λ l, (prev_of nodes1 A l, l)) <$> reverse (seq 0 (S nl))) =
          take m' ((λ l, (prev_of nodes1 A l, l)) <$> reverse (seq 0 (S nl)))) as ->.
  { unfold m'. destruct (decide (m ≤ S nl)); [by rewrite Nat.min_l|]. rewrite Nat.min_r by lia.
    rewrite !take_ge by (rewrite length_fmap, length_reverse, length_seq; lia). done. }
  wp_use link_some; [done|apply same_data_refl|by rewrite Hh|unfold m'; lia|].
  intros [] s' [Hs' Hd]. replace (S nl - m') with (S nl - m) in Hs' by (unfold m'; lia).
  assert (∀ i, i ∈ 0 :: A ++ B → entry_at s' i = entry_at nodes i) as Hent.
  { intros i Hi. rewrite (sd_entry _ _ Hd), Enodes. unfold entry_at. by rewrite at_old by by eapply ids_lt. }
  destruct (linked_ids _ _ _ _ _ _ Hs') as (Hdis & HnB & _). split.
  - exists A, n, B. split_and!; [done| | | |intros HnA; apply (Hdis n); [by right|by left]|done].
    + apply list_fmap_ext. intros _ i Hi%list_elem_of_lookup_2. apply Hent. set_solver.
    + rewrite (sd_entry _ _ Hd), Enodes. unfold entry_at, n. by rewrite at_new.
    + apply list_fmap_ext. intros _ i Hi%list_elem_of_lookup_2. apply Hent. set_solver.
  - unfold contents. rewrite Forall_fmap. eapply Forall_impl; [exact HA|]. intros i. cbn. by rewrite key_entry.
  - unfold contents. rewrite Forall_fmap. eapply Forall_impl; [exact HB|]. intros i. cbn. by rewrite key_entry.
Qed.

Lemma inserting_done nodes es1 es2 e : inserting nodes es1 es2 e 0 → represents comparator nodes (es1 ++ e :: es2).
Proof.
  intros [(A & n & B & Hs & <- & <- & <- & _) _ _]. exists (A ++ n :: B). split.
  - eapply skip_inv_ext; [|exact Hs]. intros j. unfold linked_from, quiet. by destruct (decide _).
  - unfold contents. by rewrite fmap_app.
Qed.

Lemma insert_represents nodes es key value num :
  represents comparator nodes es → kc_key key →
  twp (insert comparator key value num) (λ _ s, represents comparator s (ordered_insert (key, value) es)) nodes.
Proof.
  intros Hr Hk. destruct Hr as (ids & Hs & ->).
  destruct (insert_prepare_spec comparator nodes ids key value num Hs Hk) as (A & B & E & _ & _ & Hprep).
  destruct (insert_steps_spec nodes (contents nodes ids) key value num (S (new_level num))) as (es1 & es2 & k & -> & -> & Hrun);
    [by exists ids|done|]. rewrite Nat.sub_diag in Hrun.
  assert (∀ s x, insert_prepare comparator key value num nodes = Done (x, s) →
    take (S (new_level num)) x.2 = x.2) as Hall.
  { intros s x Hx. pose proof (wpx_done _ _ _ _ _ _ _ Hprep Hx) as (_ & _ & -> & _).
    apply take_ge. rewrite length_fmap, length_reverse, length_seq. lia. }
  assert (insert comparator key value num nodes = insert_steps (S (new_level num)) key value num nodes) as Eq.
  { unfold insert, insert_steps, bind. destruct (insert_prepare _ _ _ _ _) as [[x s]| |] eqn:Ex; [|done..].
    specialize (Hall s x eq_refl). destruct x as [n stores]. cbn [snd] in Hall. by rewrite Hall. }
  unfold wpx in *. rewrite Eq. destruct (insert_steps _ _ _ _ _) as [[[] s]| |]; [|done..].
  rewrite ordered_insert_app by apply Hrun. by apply inserting_done.
Qed.

(** Entries from [key] on, if [key] is at most once among [es]. *)
Lemma read_from_represents nodes es key :
  represents comparator nodes es → kc_key key → length (filter (λ e, same_key e.1 key) es) ≤ 1 →
  twp (read_from key) (λ out s, s = nodes ∧ out = filter (λ e, kc_le key e.1) es) nodes.
Proof.
  intros (ids & Hs & ->) Hk Huniq. rewrite <- equals_contents in Huniq.
  wp_use read_from_spec; [done..|]. intros out s' [-> Hout]. split; [done|]. rewrite <- contents_filter.
  pose proof (quiet_visible _ _ Hs) as Hv. rewrite Forall_forall in Hv.
  assert (∀ l, l ⊆ filter (λ i, kc_le key (key_at nodes i)) ids → filter (visible nodes quiet 0) l = l) as Hf.
  { intros l Hl. apply filter_true, Forall_forall. intros i Hi%Hl. apply list_elem_of_filter in Hi as [_ ?]. auto. }
  destruct Hout as [->|(i & Q' & EQ & ->)]; [by rewrite Hf|]. rewrite EQ, Hf; [done|]. rewrite EQ. set_solver.
Qed.

(** A reader sees the list before or after the insertion. *)
Lemma read_from_inserting nodes es1 es2 e k key :
  inserting nodes es1 es2 e k → kc_key key → length (filter (λ e, same_key e.1 key) (es1 ++ e :: es2)) ≤ 1 →
  twp (read_from key) (λ out s, s = nodes ∧
    (out = filter (λ e, kc_le key e.1) (es1 ++ es2) ∨ out = filter (λ e, kc_le key e.1) (es1 ++ e :: es2))) nodes.
Proof.
  intros [(A & n & B & Hs & <- & <- & <- & HnA & HnB) _ _] Hk.
  assert (∀ l1 l2, contents nodes l1 ++ contents nodes l2 = contents nodes (l1 ++ l2)) as Happ by (intros; symmetry; apply fmap_app).
  change (entry_at nodes n :: contents nodes B) with (contents nodes (n :: B)). rewrite !Happ, <- !contents_filter.
  intros Huniq. rewrite <- equals_contents in Huniq. set (P := λ i, kc_le key (key_at nodes i)).
  assert (∀ l : list nat, n ∉ l → l ⊆ A ++ n :: B → filter (visible nodes (linked_from n k) 0) l = l) as Hf.
  { intros l Hn Hl. apply filter_true, Forall_forall. intros i Hi. eapply visible_old; [done|by apply Hl|congruence]. }
  assert (∀ l, n ∉ l → n ∉ filter P l) as Hnf by (intros l Hn; rewrite list_elem_of_filter; tauto).
  assert (∀ l : list nat, filter P l ⊆ l) as Hsub by (intros l x; rewrite list_elem_of_filter; tauto).
  assert (filter (visible nodes (linked_from n k) 0) (filter P (A ++ n :: B)) = filter P (A ++ B) ∨
          filter (visible nodes (linked_from n k) 0) (filter P (A ++ n :: B)) = filter P (A ++ n :: B)) as Hboth.
  { rewrite !filter_app, !filter_cons. rewrite (Hf (filter P A)) by (auto; set_solver).
    destruct (decide (P n)); rewrite ?filter_cons; [destruct (decide (visible _ _ _ n)); [right|left]|left];
      by rewrite (Hf (filter P B)) by (auto; set_solver). }
  wp_use read_from_spec; [done..|]. intros out s' [-> Hout]. split; [done|]. fold P in Hout.
  destruct Hout as [->|(i & Q' & EQ & ->)].
  { destruct Hboth as [-> | ->]; [by left|by right]. }
  assert (NoDup (i :: Q') ∧ i :: Q' ⊆ A ++ n :: B) as [[HiQ _]%NoDup_cons HQ].
  { rewrite <- EQ. split; [|by apply Hsub]. apply NoDup_filter. pose proof (NoDup_seq 0 (length nodes)) as Hn.
    rewrite <- (sk_ids _ _ _ _ Hs) in Hn. by apply NoDup_cons in Hn as [_ ?]. }
  destruct (decide (i = n)) as [->|Hne].
  - right. rewrite EQ. do 2 f_equal. apply Hf; [done|set_solver].
  - rewrite EQ, filter_cons_True in Hboth by (eapply visible_old; [done|apply HQ; by left|done]).
    destruct Hboth as [-> | ->]; [by left|right; by rewrite EQ].
Qed.

(** ** The range of keys *)

Lemma find_loop_last nodes ids fuel key cur l before after :
  skip_inv comparator nodes ids quiet → ids = before ++ after → last (0 :: before) = Some cur →
  l < height nodes cur → length after + l < fuel →
  twp (find_loop AlwaysGreaterComparator fuel key cur l)
    (λ x s, s = nodes ∧ last (0 :: ids) = Some x.1) nodes.
Proof.
  intros Hs. revert cur l before after. induction fuel as [|fuel IH]; [lia|].
  intros cur l before after Hids Hcur Hl Hfuel. cbn [find_loop]. wp_step. eapply (wp_next comparator); [done..|].
  destruct (filter_first (visible nodes quiet l) after) as [(mid & n & after' & Ea & Hmid & Hn)|Hnone].
  - rewrite Ea, head_filter_first by done.
    destruct (sk_valid _ _ _ _ n Hs) as [_ [nd End]]; [rewrite Hids, Ea; set_solver|]. wp_step. wp_step.
    eapply wp_node; [done|]. wp_step. unfold compare. cbn [kc_compare AlwaysGreaterComparator unwrap]. repeat wp_step.
    apply (IH n l (before ++ mid ++ [n]) after'); [by rewrite Hids, Ea, <- !(assoc_L (++))|by rewrite last_snoc_app|apply Hn|].
    subst after. rewrite length_app in Hfuel. cbn in Hfuel. lia.
  - rewrite head_filter_none by done. repeat wp_step. destruct l as [|l]; [|by apply (IH cur l before after); [..|lia|lia]].
    wp_step. cbn. split; [done|]. assert (after = []) as ->.
    { destruct after as [|x after]; [done|]. apply Forall_cons in Hnone as [Hx _]. exfalso. apply Hx.
      pose proof (quiet_visible _ _ Hs) as Hv. rewrite Forall_forall in Hv. apply Hv. rewrite Hids. set_solver. }
    by rewrite Hids, app_nil_r.
Qed.

Definition range_of (es : list (bytes * bytes)) : option (bytes * bytes) :=
  match head es, last es with Some a, Some b => Some (a.1, b.1) | _, _ => None end.

Lemma key_range_spec nodes es :
  represents comparator nodes es → twp key_range (λ out s, s = nodes ∧ out = range_of es) nodes.
Proof.
  intros (ids & Hs & ->). unfold key_range, first_node. wp_step.
  eapply (wp_next comparator _ _ nodes ids quiet [] ids); [done|done|done|rewrite (sk_first _ _ _ _ Hs); unfold HEIGHT; lia|].
  rewrite filter_true by by apply quiet_visible. destruct ids as [|i ids]; cbn [head]; [by wp_step|].
  destruct (sk_valid _ _ _ _ i Hs) as [_ [nd End]]; [by left|]. wp_step. eapply wp_node; [done|].
  wp_step. unfold find_previous_node.
  apply (wp_top comparator _ _ nodes (i :: ids) quiet (λ fuel top, find_loop AlwaysGreaterComparator fuel [] first_node top)); [done|].
  wp_use (find_loop_last nodes (i :: ids) _ [] 0 (HEIGHT - 1) [] (i :: ids)); [done|done|done| | |].
  { rewrite (sk_first _ _ _ _ Hs). unfold HEIGHT. lia. }
  { rewrite (length_ids _ _ _ _ Hs). unfold HEIGHT. lia. }
  intros [j b] s' [-> Hlast]. cbn [fst] in Hlast. rewrite last_cons_cons in Hlast.
  destruct (sk_valid _ _ _ _ j Hs) as [_ [nd' End']]; [by apply last_Some_elem_of|].
  wp_step. eapply wp_node; [done|]. wp_step. split; [done|]. unfold range_of, contents. rewrite fmap_last, Hlast. cbn.
  unfold entry_at. by rewrite End, End'.
Qed.

(** ** Runs of insertions *)

Definition insert_all (ops : list (bytes * bytes * Z)) : M Store unit :=
  for_each ops (λ x, insert comparator x.1.1 x.1.2 x.2).

Definition sorted_entries (ops : list (bytes * bytes * Z)) : list (bytes * bytes) :=
  foldl (λ es x, ordered_insert x.1 es) [] ops.

Lemma insert_all_from nodes es ops :
  represents comparator nodes es → Forall (λ x, kc_key x.1.1) ops →
  twp (insert_all ops) (λ _ s, represents comparator s (foldl (λ es x, ordered_insert x.1 es) es ops)) nodes.
Proof.
  unfold insert_all. intros Hr Hk. revert nodes es Hr.
  induction Hk as [|[[k v] num] ops Hk _ IH]; intros nodes es Hr; cbn [for_each foldl]; [by wp_step|].
  wp_step. wp_use insert_represents; [done|done|]. intros [] s' Hs'. by apply IH.
Qed.

Lemma insert_all_new ops :
  Forall (λ x, kc_key x.1.1) ops →
  ∃ nodes, insert_all ops SkipListMemtable_new = Done (tt, nodes) ∧ represents comparator nodes (sorted_entries ops).
Proof.
  intros Hk. pose proof (insert_all_from _ _ ops (new_represents comparator) Hk) as Hw. unfold wpx in Hw.
  destruct (insert_all _ _) as [[[] nodes]| |]; [|done..]. by exists nodes.
Qed.

Lemma twp_total {A} (m : M Store A) (Q : A → Prop) s :
  twp m (λ a s', s' = s ∧ Q a) s → ∃ a, m s = Done (a, s) ∧ Q a.
Proof. unfold wpx. destruct (m s) as [[a s']| |]; [|done..]. intros [-> ?]. eauto. Qed.
End Reads.

(** ** Properties *)

(** C27: a skip list is a sorted list. Whatever is inserted in whatever order and
    with whatever random numbers, no operation panics, iterating returns the
    entries in the order of their keys, [key_range] returns the first and the
    last key, and seeking a key that was inserted at most once continues with
    exactly the entries from that key on. *)
Theorem skip_list_refines (c : KeyComparator) `{!KeyComparatorLaws c} (ops : list (bytes * bytes * Z)) :
  Forall (λ x, kc_key x.1.1) ops →
  ∃ nodes, insert_all c ops SkipListMemtable_new = Done (tt, nodes) ∧
    read_all nodes = Done (sorted_entries c ops, nodes) ∧
    key_range nodes = Done (range_of (sorted_entries c ops), nodes) ∧
    ∀ key, kc_key key → length (filter (λ e, same_key c e.1 key) (sorted_entries c ops)) ≤ 1 →
      read_from c key nodes = Done (filter (λ e, kc_le key e.1) (sorted_entries c ops), nodes).
Proof.
  intros Hk. destruct (insert_all_new c ops Hk) as (nodes & Hrun & Hr). exists nodes. split_and!; [done|..].
  - destruct Hr as (ids & Hs & ->). destruct (twp_total _ _ _ (read_all_spec c nodes ids quiet Hs)) as (es & -> & ->).
    by rewrite filter_true by (by apply (quiet_visible c)).
  - by destruct (twp_total _ _ _ (key_range_spec c nodes _ Hr)) as (out & -> & ->).
  - intros key Hkey Hu. by destruct (twp_total _ _ _ (read_from_represents c nodes _ key Hr Hkey Hu)) as (out & -> & ->).
Qed.

Definition example_ops : list (bytes * bytes * Z) :=
  [([2], [20], 0); ([1], [10], 2 ^ 31); ([3], [30], 2 ^ 27)]%Z.

Lemma skip_list_refines_witness :
  ∃ nodes, insert_all BytewiseComparator example_ops SkipListMemtable_new = Done (tt, nodes) ∧
    read_all nodes = Done ([([1], [10]); ([2], [20]); ([3], [30])]%Z, nodes) ∧
    read_from BytewiseComparator [2%Z] nodes = Done ([([2], [20]); ([3], [30])]%Z, nodes).
Proof.
  destruct (skip_list_refines BytewiseComparator example_ops) as (nodes & H1 & H2 & _ & H3).
  - repeat constructor; by vm_compute.
  - exists nodes. split; [exact H1|]. split; [rewrite H2; by vm_compute|].
    rewrite (H3 [2%Z]); [by vm_compute|repeat constructor; by vm_compute|vm_compute; lia].
Defined.

(** C28: readers need no lock. A reader that seeks and reads while an entry is
    inserted, after any number [m] of the stores of the insertion, returns
    exactly what it would have returned before or after the whole insertion. *)
Theorem skip_list_concurrent (c : KeyComparator) `{!KeyComparatorLaws c} (ops : list (bytes * bytes * Z))
    (e : bytes * bytes) (num : Z) (m : nat) (key : bytes) :
  Forall (λ x, kc_key x.1.1) ops → kc_key e.1 → kc_key key →
  length (filter (λ x, same_key c x.1 key) (ordered_insert c e (sorted_entries c ops))) ≤ 1 →
  ∃ nodes nodes' out, insert_all c ops SkipListMemtable_new = Done (tt, nodes) ∧
    insert_steps c m e.1 e.2 num nodes = Done (tt, nodes') ∧ read_from c key nodes' = Done (out, nodes') ∧
    (out = filter (λ x, kc_le key x.1) (sorted_entries c ops) ∨
     out = filter (λ x, kc_le key x.1) (ordered_insert c e (sorted_entries c ops))).
Proof.
  intros Hk He Hkey Hu. destruct (insert_all_new c ops Hk) as (nodes & Hrun & Hr). exists nodes.
  destruct e as [k v]. cbn [fst snd] in *.
  destruct (insert_steps_spec c nodes _ k v num m Hr He) as (es1 & es2 & l & Ees & _ & Hw). rewrite Ees in *.
  unfold wpx in Hw. destruct (insert_steps _ _ _ _ _ _) as [[[] nodes']| |]; [|done..]. exists nodes'.
  rewrite ordered_insert_app in Hu |- * by apply Hw.
  destruct (twp_total _ _ _ (read_from_inserting c nodes' _ _ _ _ key Hw Hkey Hu)) as (out & Hout & Hcase).
  by exists out.
Qed.

Lemma skip_list_concurrent_witness :
  ∃ nodes nodes' out, insert_all BytewiseComparator example_ops SkipListMemtable_new = Done (tt, nodes) ∧
    insert_steps BytewiseComparator 3 [2; 5]%Z [25%Z] 0 nodes = Done (tt, nodes') ∧
    read_from BytewiseComparator [2; 5]%Z nodes' = Done (out, nodes') ∧
    (out = [([3], [30])]%Z ∨ out = [([2; 5], [25]); ([3], [30])]%Z).
Proof.
  destruct (skip_list_concurrent BytewiseComparator example_ops ([2; 5], [25])%Z 0 3 [2; 5]%Z)
    as (nodes & nodes' & out & H1 & H2 & H3 & H4).
  - repeat constructor; by vm_compute.
  - repeat constructor; by vm_compute.
  - repeat constructor; by vm_compute.
  - vm_compute. lia.
  - exists nodes, nodes', out. split; [exact H1|]. split; [exact H2|]. split; [exact H3|exact H4].
Defined.
