(* ===== verification/WriteBatch.v ===== *)
(** * Memtables and write batches

    [MemTable] of src/pkg/sstable/src/memtable/memtable.rs over the skip list,
    and [WriteBatch] with its iterator, [apply] and [read_table] of
    src/pkg/sstable/src/db/write_batch.rs. *)

From S2P Require Import Prelude Wire Encoding Comparator SkipList RecordLog.

(** ** MemTable *)

(** The skip list, the numbers its generator will return and the size. *)
Record MemTable := mkMemTable {
  mt_table : Store;
  mt_rng : nat → Z;
  mt_size : Z;
}.

Definition MemTable_new (rng : nat → Z) : MemTable := mkMemTable SkipListMemtable_new rng 0.

(** Run an operation of the skip list. *)
Definition on_table {A} (m : M Store A) : M MemTable A := λ t,
  match m (mt_table t) with
  | Done (a, nodes) => Done (a, mkMemTable nodes (mt_rng t) (mt_size t))
  | Panicked => Panicked
  | OutOfFuel => OutOfFuel
  end.

Definition next_u32 : M MemTable Z := λ t,
  Done (mt_rng t 0%nat, mkMemTable (mt_table t) (λ n, mt_rng t (S n)) (mt_size t)).

Section MemTable.
Context (comparator : KeyComparator).

Definition MemTable_insert (key value : bytes) : M MemTable unit :=
  modify (λ t, mkMemTable (mt_table t) (mt_rng t)
    ((mt_size t + Z.of_nat (length key + length value)) mod U64)) ;!
  let! num := next_u32 in
  on_table (SkipList.insert comparator key value num).
End MemTable.

(** ** Writing a batch *)

(** A batch is its [data]. *)
Definition WriteBatch_new : bytes := replicate 12 0.

(** [&data[a..b]] *)
Definition array_ref (a b : nat) : M bytes bytes :=
  let! data := gets id in
  assert (b <=? length data)%nat ;!
  ret (take (b - a) (drop a data)).

Definition copy_from_slice (a : nat) (src : bytes) : M bytes unit :=
  let! data := gets id in
  assert (a + length src <=? length data)%nat ;!
  modify (λ data, take a data ++ src ++ drop (a + length src) data).

Definition push (l : bytes) : M bytes unit := modify (λ data, data ++ l).

Definition WriteBatch_sequence : M bytes Z :=
  let! l := array_ref 0 8 in ret (from_le_bytes l).

Definition set_sequence (sequence : Z) : M bytes unit := copy_from_slice 0 (to_le_bytes 8 sequence).

Definition WriteBatch_count : M bytes Z :=
  let! l := array_ref 8 12 in ret (from_le_bytes l).

(** [count += 1] panics on overflow. *)
Definition increment_count : M bytes unit :=
  let! l := array_ref 8 12 in
  let count := from_le_bytes l in
  assert (count + 1 <? 2 ^ 32) ;!
  copy_from_slice 8 (to_le_bytes 4 (count + 1)).

Definition WriteBatch_put (key value : bytes) : M bytes unit :=
  increment_count ;!
  push [ValueType_to_value Value] ;!
  push (serialize_slice key) ;!
  push (serialize_slice value).

Definition WriteBatch_delete (key : bytes) : M bytes unit :=
  increment_count ;!
  push [ValueType_to_value Deletion] ;!
  push (serialize_slice key).

Definition WriteBatch_clear : M bytes unit := modify (λ _, replicate 12 0).

(** ** Reading a batch *)

Inductive Write :=
| WriteValue (key value : bytes)
| WriteDeletion (key : bytes).

Record WriteBatchIterator := mkWriteBatchIterator {
  wi_input : bytes;
  wi_sequence : Z;
  wi_remaining_count : Z;
}.

Definition WriteBatchIterator_new (input : bytes) : Result WriteBatchIterator :=
  ok! (sequence, input) := parse_fixed64 input in
  ok! (count, input) := parse_fixed32 input in
  inr (mkWriteBatchIterator input sequence count).

(** [parse_next!(self.input, f)] *)
Definition parse_next {A} (f : bytes → Result (A * bytes)) : M WriteBatchIterator (Result A) := λ it,
  match f (wi_input it) with
  | inl e => Done (inl e, it)
  | inr (a, rest) => Done (inr a, mkWriteBatchIterator rest (wi_sequence it) (wi_remaining_count it))
  end.

Definition next_impl : M WriteBatchIterator (Result (option Write)) :=
  let! it := gets id in
  if wi_remaining_count it =? 0 then ret (inr None) else
  modify (λ it, mkWriteBatchIterator (wi_input it) (wi_sequence it) (wi_remaining_count it - 1)) ;!
  try! v := parse_next parse_u8 in
  try! typ := ret (ValueType_from_value v) in
  match typ with
  | Value =>
    try! key := parse_next parse_slice in
    try! value := parse_next parse_slice in
    ret (inr (Some (WriteValue key value)))
  | Deletion =>
    try! key := parse_next parse_slice in
    ret (inr (Some (WriteDeletion key)))
  | _ => ret (inl EUnsupportedValueType)
  end.

(** ** Applying batches to a memtable *)

(** Run on the first or the second part of a pair of states. *)
Definition on_fst {S T A} (m : M S A) : M (S * T) A := λ '(s, t),
  match m s with
  | Done (a, s') => Done (a, (s', t))
  | Panicked => Panicked
  | OutOfFuel => OutOfFuel
  end.
Definition on_snd {S T A} (m : M T A) : M (S * T) A := λ '(s, t),
  match m t with
  | Done (a, t') => Done (a, (s, t'))
  | Panicked => Panicked
  | OutOfFuel => OutOfFuel
  end.

(** The key and the value of a write in the table. *)
Definition write_entry (sequence : Z) (w : Write) : bytes * bytes :=
  match w with
  | WriteValue key value => (InternalKey_serialized (mkInternalKey key sequence Value), value)
  | WriteDeletion key => (InternalKey_serialized (mkInternalKey key sequence Deletion), [])
  end.

Section Apply.
Context (comparator : KeyComparator).

Fixpoint apply_loop (fuel : nat) : M (WriteBatchIterator * MemTable) (Result unit) :=
  match fuel with
  | O => out_of_fuel
  | S fuel =>
    try! w := on_fst next_impl in
    match w with
    | None => ret (inr tt)
    | Some w =>
      let! it := gets fst in
      let (ikey, value) := write_entry (wi_sequence it) w in
      on_snd (MemTable_insert comparator ikey value) ;!
      apply_loop fuel
    end
  end.

(** At most [remaining_count] writes are left. *)
Definition apply : M (WriteBatchIterator * MemTable) (Result unit) :=
  let! it := gets fst in
  try! _ := apply_loop (S (Z.to_nat (wi_remaining_count it))) in
  let! it := gets fst in
  if negb (length (wi_input it) =? 0)%nat then ret (inl EExtraData) else ret (inr tt).

(** [batch] and [table] in [read_table]: the sequence of the batch. *)
Definition apply_record (record : bytes) : M MemTable (Result Z) := λ table,
  match WriteBatchIterator_new record with
  | inl e => Done (inl e, table)
  | inr it =>
    match apply (it, table) with
    | Done (inl e, (_, table')) => Done (inl e, table')
    | Done (inr _, (it', table')) => Done (inr (wi_sequence it'), table')
    | Panicked => Panicked
    | OutOfFuel => OutOfFuel
    end
  end.

(** [read_table], with the contents of the log; the last component of the
    state is [last_sequence]. *)
Fixpoint read_table (fuel : nat) (file : bytes)
    : M (RecordReader * (MemTable * Z)) ((RecordReadError + ParseError) + unit) :=
  match fuel with
  | O => out_of_fuel
  | S fuel =>
    let! res := on_fst (RecordLog.read file) in
    match res with
    | inl e => ret (inl (inl e))
    | inr None => ret (inr tt)
    | inr (Some record) =>
      let! res := on_snd (on_fst (apply_record record)) in
      match res with
      | inl e => ret (inl (inr e))
      | inr sequence =>
        on_snd (on_snd (modify (λ last_sequence, Z.max last_sequence sequence))) ;!
        read_table fuel file
      end
    end
  end.
End Apply.
