(* ===== verification/WriteBatchTheorems.v ===== *)
(** * Properties of write batches

    The encoding of a batch, applying it to a memtable, and the memtable that
    is recovered from a log of batches that was cut anywhere. *)

From S2P Require Import Prelude Wire Encoding Comparator Crc RecordLog RecordLogProofs RecordLogTheorems.
From S2P Require Import SkipList SkipListProofs SkipListTheorems WriteBatch.

(** ** The encoding *)

Definition write_bytes (w : Write) : bytes :=
  match w with
  | WriteValue key value => [ValueType_to_value Value] ++ serialize_slice key ++ serialize_slice value
  | WriteDeletion key => [ValueType_to_value Deletion] ++ serialize_slice key
  end.

Definition batch_bytes (sequence : Z) (ws : list Write) : bytes :=
  to_le_bytes 8 sequence ++ to_le_bytes 4 (Z.of_nat (length ws)) ++ concat (write_bytes <$> ws).

(** A key or value is shorter than 2^64 bytes. *)
Definition write_ok (w : Write) : Prop :=
  match w with
  | WriteValue key value => Z.of_nat (length key) < U64 ∧ Z.of_nat (length value) < U64
  | WriteDeletion key => Z.of_nat (length key) < U64
  end.

Definition write_key (w : Write) : bytes :=
  match w with WriteValue key _ | WriteDeletion key => key end.

(** Put or delete, in order. *)
Definition add_write (w : Write) : M bytes unit :=
  match w with
  | WriteValue key value => WriteBatch_put key value
  | WriteDeletion key => WriteBatch_delete key
  end.

Lemma increment_count_ok sequence n rest :
  0 ≤ n → n + 1 < 2 ^ 32 →
  increment_count (to_le_bytes 8 sequence ++ to_le_bytes 4 n ++ rest) =
    Done (tt, to_le_bytes 8 sequence ++ to_le_bytes 4 (n + 1) ++ rest).
Proof.
  intros Hn Hlt. unfold increment_count, array_ref, copy_from_slice, bind, gets, assert, modify, ret, id. cbn beta iota.
  rewrite !length_app, !length_to_le_bytes.
  rewrite (proj2 (Nat.leb_le 12 _)) by lia. cbn beta iota.
  rewrite drop_app_length' by (by rewrite length_to_le_bytes).
  rewrite take_app_length' by (by rewrite length_to_le_bytes).
  rewrite from_to_le_bytes by lia. rewrite (proj2 (Z.ltb_lt _ _)) by lia. cbn beta iota.
  rewrite !length_app, !length_to_le_bytes, (proj2 (Nat.leb_le _ _)) by lia. cbn beta iota.
  rewrite take_app_length' by (by rewrite length_to_le_bytes).
  rewrite (assoc_L (++) (to_le_bytes 8 sequence) (to_le_bytes 4 n)).
  by rewrite drop_app_length' by (by rewrite length_app, !length_to_le_bytes).
Qed.

Lemma add_write_ok sequence ws w :
  Z.of_nat (length ws) + 1 < 2 ^ 32 →
  add_write w (batch_bytes sequence ws) = Done (tt, batch_bytes sequence (ws ++ [w])).
Proof.
  intros Hlen. unfold batch_bytes. rewrite fmap_app, concat_app, length_app, Nat2Z.inj_add. cbn [fmap list_fmap concat length].
  rewrite app_nil_r. destruct w; unfold add_write, WriteBatch_put, WriteBatch_delete, bind;
    rewrite increment_count_ok by lia; unfold push, modify; cbn [write_bytes]; by rewrite <- !(assoc_L (++)).
Qed.

Lemma set_sequence_ok sequence sequence' ws :
  set_sequence sequence' (batch_bytes sequence ws) = Done (tt, batch_bytes sequence' ws).
Proof.
  unfold set_sequence, copy_from_slice, batch_bytes, bind, gets, assert, modify, ret, id. cbn beta iota.
  rewrite !length_app, !length_to_le_bytes. rewrite (proj2 (Nat.leb_le _ _)) by lia. cbn beta iota. rewrite take_0.
  by rewrite drop_app_length' by (by rewrite length_to_le_bytes).
Qed.

Lemma WriteBatch_new_ok : WriteBatch_new = batch_bytes 0 [].
Proof. done. Qed.

Lemma add_writes_ok sequence ws ws' :
  Z.of_nat (length ws + length ws') < 2 ^ 32 →
  for_each ws' add_write (batch_bytes sequence ws) = Done (tt, batch_bytes sequence (ws ++ ws')).
Proof.
  revert ws. induction ws' as [|w ws' IH]; intros ws Hlen; cbn [for_each]; [by rewrite app_nil_r|].
  cbn [length] in Hlen. unfold bind. rewrite add_write_ok by lia. rewrite IH by (rewrite length_app; cbn; lia).
  by rewrite <- (assoc_L (++)).
Qed.

(** ** Iterating *)

Lemma parse_next_ok {A} (f : bytes → Result (A * bytes)) (k : A → M WriteBatchIterator (Result (option Write)))
    a input rest sequence n :
  f input = inr (a, rest) →
  try_bind (parse_next f) k (mkWriteBatchIterator input sequence n) = k a (mkWriteBatchIterator rest sequence n).
Proof. intros E. unfold try_bind, bind, parse_next. cbn [wi_input wi_sequence wi_remaining_count]. by rewrite E. Qed.

Lemma next_impl_ok w rest sequence n :
  write_ok w → 0 ≤ n →
  next_impl (mkWriteBatchIterator (write_bytes w ++ rest) sequence (n + 1)) =
    Done (inr (Some w), mkWriteBatchIterator rest sequence n).
Proof.
  intros Hw Hn. unfold next_impl, bind, gets, modify. cbn [id wi_input wi_sequence wi_remaining_count].
  rewrite (proj2 (Z.eqb_neq _ _)) by lia. cbn beta iota. cbn [wi_input wi_sequence wi_remaining_count].
  rewrite Z.add_simpl_r.
  destruct w as [key value|key]; cbn [write_bytes app];
    erewrite (parse_next_ok parse_u8) by reflexivity; unfold try_bind at 1, bind, ret; rewrite ValueType_from_to; cbn beta iota.
  - destruct Hw as [H1 H2].
    rewrite (parse_next_ok _ _ key _ (serialize_slice value ++ rest)) by (by rewrite <- (assoc_L (++)), parse_serialize_slice).
    by rewrite (parse_next_ok _ _ value _ rest) by (by rewrite parse_serialize_slice).
  - by rewrite (parse_next_ok _ _ key _ rest) by (by rewrite parse_serialize_slice).
Qed.

Lemma iterator_new_ok sequence ws :
  0 ≤ sequence < U64 → Z.of_nat (length ws) < 2 ^ 32 →
  WriteBatchIterator_new (batch_bytes sequence ws) =
    inr (mkWriteBatchIterator (concat (write_bytes <$> ws)) sequence (Z.of_nat (length ws))).
Proof.
  intros Hs Hl. unfold WriteBatchIterator_new, batch_bytes. rewrite parse_fixed64_spec by done. cbn [rbind].
  by rewrite parse_fixed32_spec by lia.
Qed.

(** All writes of a batch. *)
Fixpoint collect_writes (fuel : nat) : M WriteBatchIterator (Result (list Write)) :=
  match fuel with
  | O => out_of_fuel
  | S fuel =>
    try! w := next_impl in
    match w with
    | None => ret (inr [])
    | Some w => try! ws := collect_writes fuel in ret (inr (w :: ws))
    end
  end.

Lemma collect_writes_ok ws sequence :
  Forall write_ok ws →
  collect_writes (S (length ws)) (mkWriteBatchIterator (concat (write_bytes <$> ws)) sequence (Z.of_nat (length ws))) =
    Done (inr ws, mkWriteBatchIterator [] sequence 0).
Proof.
  induction 1 as [|w ws Hw _ IH]; [done|]. cbn [length]. remember (S (length ws)) as fuel.
  cbn [collect_writes fmap list_fmap concat]. unfold try_bind, bind.
  replace (Z.of_nat fuel) with (Z.of_nat (length ws) + 1) by lia. rewrite next_impl_ok by (done || lia).
  by rewrite IH.
Qed.

(** ** Applying a batch *)

Section Apply.
Context (user : KeyComparator) `{!KeyComparatorLaws user}.

Abbreviation internal := (InternalKeyComparator user).

Definition holds (t : MemTable) (es : list (bytes * bytes)) : Prop := represents internal (mt_table t) es.

Lemma holds_new rng : holds (MemTable_new rng) [].
Proof. apply new_represents. Qed.

(** What a batch needs: sequence numbers of 56 bits and keys of the order. *)
Record batch_ok (b : Z * list Write) : Prop := mkBatchOk {
  bo_sequence : 0 ≤ b.1 ≤ MAX_SEQUENCE;
  bo_count : Z.of_nat (length b.2) < 2 ^ 32;
  bo_writes : Forall write_ok b.2;
  bo_keys : Forall (λ w, kc_key (write_key w)) b.2;
}.

Lemma serialized_parts k :
  0 ≤ ik_sequence k ≤ MAX_SEQUENCE →
  ik_user (InternalKey_serialized k) = ik_user_key k ∧ ik_seq (InternalKey_serialized k) = ik_sequence k.
Proof.
  intros Hs. destruct (InternalKey_parse_parts _ _ (InternalKey_parse_serialized k Hs)) as (_ & -> & ->). done.
Qed.

Lemma serialized_key k :
  0 ≤ ik_sequence k ≤ MAX_SEQUENCE → kc_key (ik_user_key k) → internal_key user (InternalKey_serialized k).
Proof.
  intros Hs Hk. exists k. split; [by apply InternalKey_parse_serialized|]. by rewrite (proj1 (serialized_parts k Hs)).
Qed.

Lemma write_entry_key sequence w :
  0 ≤ sequence ≤ MAX_SEQUENCE → kc_key (write_key w) → internal_key user (write_entry sequence w).1.
Proof. intros Hs Hk. destruct w; by apply serialized_key. Qed.

Lemma MemTable_insert_ok t es key value :
  holds t es → internal_key user key →
  twp (MemTable_insert internal key value) (λ _ t', holds t' (ordered_insert internal (key, value) es)) t.
Proof.
  intros Ht Hk. unfold MemTable_insert. repeat wp_step. unfold next_u32. eapply wpx_run; [done|]. cbn beta.
  unfold on_table, wpx. cbn [mt_table mt_rng mt_size].
  pose proof (insert_represents internal (mt_table t) es key value (mt_rng t 0%nat) Ht Hk) as Hw. unfold wpx in Hw.
  by destruct (SkipList.insert _ _ _ _ _) as [[[] nodes]| |].
Qed.

(** The entries of a table after a batch. *)
Definition apply_writes (sequence : Z) (ws : list Write) (es : list (bytes * bytes)) : list (bytes * bytes) :=
  foldl (λ es w, ordered_insert internal (write_entry sequence w) es) es ws.

Lemma apply_loop_ok sequence ws fuel t es :
  0 ≤ sequence ≤ MAX_SEQUENCE → Forall write_ok ws → Forall (λ w, kc_key (write_key w)) ws →
  holds t es → (length ws < fuel)%nat →
  twp (apply_loop internal fuel) (λ res s, res = inr tt ∧ s.1 = mkWriteBatchIterator [] sequence 0 ∧
      holds s.2 (apply_writes sequence ws es))
    (mkWriteBatchIterator (concat (write_bytes <$> ws)) sequence (Z.of_nat (length ws)), t).
Proof.
  intros Hs. revert ws t es. induction fuel as [|fuel IH]; intros ws t es Hw Hk Ht Hfuel; [lia|].
  cbn [apply_loop]. apply wpx_try. destruct ws as [|w ws].
  { eapply wpx_run; [done|]. by apply wpx_ret. }
  apply Forall_cons in Hw as [Hw Hws]. apply Forall_cons in Hk as [Hk Hks]. cbn [length fmap list_fmap concat] in *.
  eapply (wpx_run _ _ _ _ _ (inr (Some w))).
  { unfold on_fst. rewrite Nat2Z.inj_succ, <- Z.add_1_r, next_impl_ok by (done || lia). done. }
  cbn beta iota. wp_step. wp_step. cbn [fst wi_sequence]. destruct (write_entry sequence w) as [ikey value] eqn:Ee.
  pose proof (write_entry_key sequence w Hs Hk) as Hik. rewrite Ee in Hik. wp_step.
  pose proof (MemTable_insert_ok t es ikey value Ht Hik) as Hins. unfold wpx at 1, on_snd. unfold wpx in Hins.
  destruct (MemTable_insert _ _ _ _) as [[[] t']| |]; [|done..].
  wp_use IH; [done|done|done|lia|]. intros res s' (-> & E1 & E2). split_and!; [done|done|].
  unfold apply_writes in *. cbn [foldl]. by rewrite Ee.
Qed.

Lemma apply_record_ok b t es :
  batch_ok b → holds t es →
  ∃ t', apply_record internal (batch_bytes b.1 b.2) t = Done (inr b.1, t') ∧ holds t' (apply_writes b.1 b.2 es).
Proof.
  intros [Hs Hc Hw Hk] Ht. unfold apply_record. rewrite iterator_new_ok by (unfold MAX_SEQUENCE, U64 in *; lia).
  set (it := mkWriteBatchIterator _ _ _).
  assert (twp (apply internal) (λ res s, res = inr tt ∧ s.1 = mkWriteBatchIterator [] b.1 0 ∧
    holds s.2 (apply_writes b.1 b.2 es)) (it, t)) as Happ.
  { unfold apply. wp_step. wp_step. apply wpx_try. cbn [fst it wi_remaining_count]. rewrite Nat2Z.id.
    wp_use apply_loop_ok; [done..|lia|]. intros res [it' t'] (-> & E1 & E2). cbn [fst snd] in *. subst it'.
    repeat wp_step. done. }
  unfold wpx in Happ. destruct (apply _ _) as [[res [it' t']]| |]; [|done..].
  destruct Happ as (-> & E1 & E2). cbn [fst snd] in *. subst it'. by exists t'.
Qed.

(** ** Reading a log *)

Definition batch_record (b : Z * list Write) : bytes := batch_bytes b.1 b.2.

Definition apply_batches (bs : list (Z * list Write)) (es : list (bytes * bytes)) : list (bytes * bytes) :=
  foldl (λ es b, apply_writes b.1 b.2 es) es bs.

Definition max_sequence (bs : list (Z * list Write)) (last : Z) : Z := foldl (λ last b, Z.max last b.1) last bs.

Lemma read_table_stream F file fuel r q rs bs t es last :
  file `prefix_of` F → stream_at F file r q rs → rr_recovery_mode r = AllowIncomplete →
  rs.*1 = batch_record <$> bs → Forall batch_ok bs → holds t es → (∃ k, complete (length file) rs k ∧ (k < fuel)%nat) →
  ∃ k r' t', complete (length file) rs k ∧ holds t' (apply_batches (take k bs) es) ∧
    stream_at F file r' (last_end q (take k rs)) (drop k rs) ∧ (take k bs = [] → t' = t) ∧
    read_table internal fuel file (r, (t, last)) = Done (inr tt, (r', (t', max_sequence (take k bs) last))).
Proof.
  intros HF. revert r q rs bs t es last. induction fuel as [|fuel IH]; intros r q rs bs t es last Hst Hm Hrs Hok Ht (k0 & Hk0 & Hfuel); [lia|].
  destruct (read_stream F file r q rs HF Hst Hm) as (r1 & Hm1 & Hread). cbn [read_table]. unfold bind, on_fst at 1.
  destruct rs as [|[d e] rs].
  { destruct Hread as [-> Hst1]. exists 0%nat, r1, t. split_and!; [by split; [|intros; lia|]|done|done|done|done]. }
  destruct bs as [|b bs]; [done|]. cbn [fmap list_fmap fst] in Hrs. injection Hrs as -> Hrs.
  apply Forall_cons in Hok as [Hb Hbs]. destruct (decide (e ≤ length file)%nat) as [Hle|Hgt].
  2:{ destruct Hread as [-> Hst1]. exists 0%nat, r1, t. split_and!; [|done|done|done|done].
      split; [cbn; lia|intros; lia|]. intros d x [= _ <-]. lia. }
  destruct Hread as [-> Hst1]. destruct (apply_record_ok b t es Hb Ht) as (t1 & Ht1 & Hh1).
  unfold on_snd at 1, on_fst at 1, batch_record. rewrite Ht1. unfold on_snd at 1 2, modify. cbn beta iota.
  assert (∃ k, complete (length file) rs k ∧ (k < fuel)%nat) as Hf1.
  { destruct k0 as [|k0]; [pose proof (co_next _ _ _ Hk0 _ _ eq_refl); lia|]. exists k0. split; [by eapply complete_tail|lia]. }
  destruct (IH r1 e rs bs t1 _ (Z.max last b.1) Hst1 Hm1 Hrs Hbs Hh1 Hf1) as (k & r' & t' & [C1 C2 C3] & Hh' & Hst' & _ & ->).
  exists (S k), r', t'. split_and!; [|done|done|done|done]. split; [cbn; lia| |done].
  intros [|i] d x Hi; [by intros [= _ <-]|]. cbn. apply C2. lia.
Qed.

(** Recovery from a log that was cut anywhere. *)
Lemma recover_log (bs : list (Z * list Write)) (n : nat) (rng : nat → Z) :
  Forall batch_ok bs →
  ∃ w j r t, append_records (batch_record <$> bs) RecordWriter_new = Done (tt, w) ∧
    longest (batch_record <$> bs) (length (take n (rw_file w))) j ∧
    read_table internal (S (length bs)) (take n (rw_file w)) (RecordReader_open, (MemTable_new rng, 0)) =
      Done (inr tt, (r, (t, max_sequence (take j bs) 0))) ∧
    holds t (apply_batches (take j bs) []).
Proof.
  intros Hok. destruct (written (batch_record <$> bs)) as (w & rs & Hrun & Hrs & Hopen & Hpre).
  set (cut := take n (rw_file w)).
  assert (length rs = length bs) as El by (rewrite <- (length_fmap fst rs), Hrs; by rewrite length_fmap).
  destruct (read_table_stream (rw_file w) cut (S (length bs)) RecordReader_open 0 rs bs (MemTable_new rng) [] 0)
    as (j & r & t & Hco & Ht & _ & _ & Hread); [apply prefix_take|apply Hopen|done|done|done|apply holds_new| |].
  { destruct (complete_exists (length cut) rs) as [k Hk]. exists k. split; [done|]. pose proof (co_le _ _ _ Hk). lia. }
  exists w, j, r, t. fold cut. split_and!; [done| |done|done].
  eapply complete_longest; [done|done|]. intros k. destruct (Hpre k) as (wk & ? & _ & ? & ?). by exists wk.
Qed.
End Apply.

(** ** Properties *)

(** A batch is read as it was written: building a batch from puts and
    deletes and setting its sequence does not panic, and iterating over its
    bytes gives the same sequence, the same writes in the same order and no
    rest. *)
Theorem write_batch_roundtrip (ws : list Write) (sequence : Z) :
  0 ≤ sequence < U64 → Z.of_nat (length ws) < 2 ^ 32 → Forall write_ok ws →
  ∃ data it it', (for_each ws add_write ;! set_sequence sequence) WriteBatch_new = Done (tt, data) ∧
    WriteBatchIterator_new data = inr it ∧ wi_sequence it = sequence ∧
    wi_remaining_count it = Z.of_nat (length ws) ∧
    collect_writes (S (length ws)) it = Done (inr ws, it') ∧ wi_input it' = [].
Proof.
  intros Hs Hl Hw. rewrite WriteBatch_new_ok. unfold bind.
  rewrite add_writes_ok by (cbn; lia). cbn [app]. rewrite set_sequence_ok. eexists _, _, _.
  split_and!; [done|by apply iterator_new_ok|done|done|by apply collect_writes_ok|done].
Qed.

Lemma write_batch_roundtrip_witness :
  ∃ data it it', (for_each [WriteValue [1] [10]; WriteDeletion [2]] add_write ;! set_sequence 7) WriteBatch_new = Done (tt, data) ∧
    WriteBatchIterator_new data = inr it ∧ wi_sequence it = 7 ∧ wi_remaining_count it = 2 ∧
    collect_writes 3 it = Done (inr [WriteValue [1] [10]; WriteDeletion [2]], it') ∧ wi_input it' = [].
Proof. apply (write_batch_roundtrip [WriteValue [1] [10]; WriteDeletion [2]] 7); [by vm_compute..|repeat constructor]. Defined.

(** Recovery of a memtable. Batches are encoded, written to a record log and
    the file is cut anywhere, as by a crash: [read_table] returns without an
    error, the table holds exactly the writes of the batches that are complete
    in the cut file, applied in order, and the last sequence is theirs. *)
Theorem log_recovery (user : KeyComparator) `{!KeyComparatorLaws user} (bs : list (Z * list Write)) (n : nat) (rng : nat → Z) :
  Forall (batch_ok user) bs →
  ∃ w j r t, append_records (batch_record <$> bs) RecordWriter_new = Done (tt, w) ∧
    let cut := take n (rw_file w) in
    longest (batch_record <$> bs) (length cut) j ∧
    read_table (InternalKeyComparator user) (S (length bs)) cut (RecordReader_open, (MemTable_new rng, 0)) =
      Done (inr tt, (r, (t, max_sequence (take j bs) 0))) ∧
    read_all (mt_table t) = Done (apply_batches user (take j bs) [], mt_table t).
Proof.
  intros Hok. destruct (recover_log user bs n rng Hok) as (w & j & r & t & Hrun & Hl & Hread & (ids & Hs & E)).
  exists w, j, r, t. split; [done|]. cbn zeta. split; [exact Hl|]. split; [exact Hread|].
  destruct (twp_total _ _ _ (read_all_spec _ _ ids quiet Hs)) as (es & -> & ->).
  by rewrite filter_true, <- E by (by apply (quiet_visible (InternalKeyComparator user))).
Qed.

Definition example_batches : list (Z * list Write) :=
  [(1, [WriteValue [1] [10]; WriteValue [2] [20]]); (2, [WriteDeletion [1]])].

Lemma log_recovery_witness :
  ∃ w j r t, append_records (batch_record <$> example_batches) RecordWriter_new = Done (tt, w) ∧
    let cut := take 45 (rw_file w) in
    longest (batch_record <$> example_batches) (length cut) j ∧
    read_table (InternalKeyComparator BytewiseComparator) 3 cut (RecordReader_open, (MemTable_new (λ _, 0), 0)) =
      Done (inr tt, (r, (t, max_sequence (take j example_batches) 0))) ∧
    read_all (mt_table t) = Done (apply_batches BytewiseComparator (take j example_batches) [], mt_table t).
Proof.
  apply (log_recovery BytewiseComparator example_batches 45 (λ _, 0)).
  repeat constructor; by vm_compute.
Defined.
