(* ===== verification/BinaryHeap.v ===== *)
(** * Binary heaps

    src/pkg/common/src/tree/binary_heap.rs, for any comparator (which may
    panic) and any index ([BinaryHeapIndex]). *)

From S2P Require Import Prelude.

#[local] Open Scope nat_scope.

(** [trait BinaryHeapIndex<V>] *)
Class BinaryHeapIndex (V I Query : Type) := {
  record_offset : V → nat → I → I;
  lookup_offset : Query → I → option nat;
  clear_offset : V → I → I;
}.

(** [impl BinaryHeapIndex<V> for ()] *)
#[export] Instance unit_index V : BinaryHeapIndex V unit unit := {
  record_offset := λ _ _ i, i;
  lookup_offset := λ _ _, None;
  clear_offset := λ _ i, i;
}.

Record BinaryHeap (V I : Type) := mkBinaryHeap { bh_items : list V; bh_index : I }.
Arguments mkBinaryHeap {V I}.
Arguments bh_items {V I}.
Arguments bh_index {V I}.

Definition heap_new {V I} (index : I) : BinaryHeap V I := mkBinaryHeap [] index.

Section BinaryHeap.
Context {V I Query : Type} `{!BinaryHeapIndex V I Query}.
Context (comparator : V → V → option comparison).

Abbreviation Heap := (BinaryHeap V I).

Definition set_items (items : list V) (h : Heap) : Heap := mkBinaryHeap items (bh_index h).
Definition set_index (index : I) (h : Heap) : Heap := mkBinaryHeap (bh_items h) index.

(** [&self.items[i]] *)
Definition item (i : nat) : M Heap V := let! h := gets id in unwrap (bh_items h !! i).

(** [self.compare(&self.items[a], &self.items[b])] *)
Definition compare_at (a b : nat) : M Heap comparison :=
  let! x := item a in
  let! y := item b in
  unwrap (comparator x y).

Definition heap_record (x : V) (i : nat) : M Heap unit :=
  modify (λ h, set_index (record_offset x i (bh_index h)) h).

Definition heap_swap (a b : nat) : M Heap unit :=
  let! x := item a in
  let! y := item b in
  modify (λ h, set_items (<[a := y]> (<[b := x]> (bh_items h))) h) ;!
  let! x := item a in
  heap_record x a ;!
  let! y := item b in
  heap_record y b.

(** [pop] and [pop_any] *)
Definition heap_pop : M Heap (option V) :=
  let! h := gets id in
  match last (bh_items h) with
  | None => ret None
  | Some v =>
    modify (λ h, mkBinaryHeap (removelast (bh_items h)) (clear_offset v (bh_index h))) ;!
    ret (Some v)
  end.

Definition heap_swap_remove (index : nat) : M Heap V :=
  let! h := gets id in
  assert (0 <? length (bh_items h)) ;!
  heap_swap index (length (bh_items h) - 1) ;!
  let! v := heap_pop in
  unwrap v.

Definition parent (i : nat) : nat := (i + 1) / 2 - 1.

(** The loop of [insert]. *)
Fixpoint sift_up (fuel i : nat) : M Heap unit :=
  match fuel with
  | O => out_of_fuel
  | S fuel =>
    if i =? 0 then ret tt else
    let! c := compare_at i (parent i) in
    match c with
    | Lt => heap_swap i (parent i) ;! sift_up fuel (parent i)
    | _ => ret tt
    end
  end.

Definition heap_insert (value : V) : M Heap unit :=
  let! h := gets id in
  heap_record value (length (bh_items h)) ;!
  modify (λ h, set_items (bh_items h ++ [value]) h) ;!
  sift_up (S (length (bh_items h))) (length (bh_items h)).

Definition peek_min : M Heap (option V) := gets (λ h, bh_items h !! 0).

(** [min_i] after looking at a child. *)
Definition smaller_child (child min_i : nat) : M Heap nat :=
  let! h := gets id in
  if child <? length (bh_items h) then
    let! c := compare_at child min_i in
    ret match c with Lt => child | _ => min_i end
  else ret min_i.

(** The loop of [remove_at_index]. *)
Fixpoint sift_down (fuel i : nat) : M Heap unit :=
  match fuel with
  | O => out_of_fuel
  | S fuel =>
    let left_child_i := 2 * (i + 1) - 1 in
    let right_child_j := left_child_i + 1 in
    let! min_i := smaller_child left_child_i i in
    let! min_i := smaller_child right_child_j min_i in
    if min_i =? i then ret tt
    else heap_swap i min_i ;! sift_down fuel min_i
  end.

(** The [index] is not used after the check of the length. *)
Definition remove_at_index (index : nat) : M Heap (option V) :=
  let! h := gets id in
  if length (bh_items h) <=? 1 then heap_pop else
  let! v := heap_swap_remove 0 in
  let! h := gets id in
  sift_down (length (bh_items h)) 0 ;!
  ret (Some v).

Definition extract_min : M Heap (option V) := remove_at_index 0.

Definition heap_remove (query : Query) : M Heap (option V) :=
  let! h := gets id in
  match lookup_offset query (bh_index h) with
  | None => ret None
  | Some offset => remove_at_index offset
  end.

Definition pop_any : M Heap (option V) := heap_pop.
End BinaryHeap.
