(* ===== verification/BinaryHeapTheorems.v ===== *)
(** * Properties of binary heaps

    For a total order given by the comparator on the values satisfying
    [good], the heap order is kept, no value is lost, and the first value is
    a smallest one. *)

From S2P Require Import Prelude BinaryHeap.

#[local] Open Scope nat_scope.

(** The comparator compares values that satisfy [good] by the preorder [le]. *)
Record compares {V} (comparator : V → V → option comparison) (good : V → Prop) (le : relation V)
    : Prop := mkCompares {
  cp_preorder : PreOrder le;
  cp_spec a b : good a → good b → ∃ o, comparator a b = Some o ∧
    match o with Lt => le a b ∧ ¬ le b a | Eq => le a b ∧ le b a | Gt => le b a end;
}.

Section Heap.
Context {V I Query : Type} `{!BinaryHeapIndex V I Query}.
Context (comparator : V → V → option comparison).
Context (good : V → Prop) (le : relation V) (Hcmp : compares comparator good le).

#[local] Instance le_preorder : PreOrder le := cp_preorder _ _ _ Hcmp.

Abbreviation Heap := (BinaryHeap V I).

(** The value at [j] is not below the one at its parent. *)
Definition edge_ok (l : list V) (j : nat) : Prop :=
  ∀ x p, l !! j = Some x → l !! parent j = Some p → le p x.

Definition heap_ok (l : list V) : Prop := Forall good l ∧ ∀ j, 0 < j → edge_ok l j.

Lemma parent_lt j : 0 < j → parent j < j.
Proof. intros Hj. unfold parent. pose proof (Nat.div_lt (j + 1) 2 ltac:(lia) ltac:(lia)). lia. Qed.

Lemma parent_children j i : 0 < j → parent j = i ↔ j = 2 * (i + 1) - 1 ∨ j = 2 * (i + 1) - 1 + 1.
Proof.
  intros Hj. unfold parent. pose proof (Nat.div_mod (j + 1) 2 ltac:(lia)) as E.
  pose proof (Nat.mod_upper_bound (j + 1) 2 ltac:(lia)). assert (1 ≤ (j + 1) / 2) by (apply Nat.div_le_lower_bound; lia). lia.
Qed.

Lemma heap_min l x y j : heap_ok l → l !! 0 = Some x → l !! j = Some y → le x y.
Proof.
  intros [_ Hh] Hx. revert y. induction (lt_wf j) as [j _ IH]. intros y Hy.
  destruct (decide (j = 0)) as [->|Hj]; [by simplify_eq|].
  pose proof (parent_lt j ltac:(lia)) as Hp. pose proof (lookup_lt_Some _ _ _ Hy).
  destruct (lookup_lt_is_Some_2 l (parent j) ltac:(lia)) as [p Ep].
  etrans; [by apply (IH (parent j))|]. by apply (Hh j ltac:(lia)).
Qed.

(** ** Swapping *)

Definition swapped (l : list V) (a b : nat) (x y : V) : list V := <[a := y]> (<[b := x]> l).

Lemma swapped_lookup l a b x y k :
  l !! a = Some x → l !! b = Some y →
  swapped l a b x y !! k = if decide (k = a) then Some y else if decide (k = b) then Some x else l !! k.
Proof.
  intros Ha Hb. unfold swapped. pose proof (lookup_lt_Some _ _ _ Ha). pose proof (lookup_lt_Some _ _ _ Hb).
  destruct (decide (k = a)) as [->|]; [rewrite list_lookup_insert_eq by (by rewrite length_insert); done|].
  rewrite list_lookup_insert_ne by done.
  destruct (decide (k = b)) as [->|]; [by rewrite list_lookup_insert_eq|by rewrite list_lookup_insert_ne].
Qed.

Lemma swapped_perm l a b x y : l !! a = Some x → l !! b = Some y → swapped l a b x y ≡ₚ l.
Proof. intros. by apply Permutation_insert_swap. Qed.

Lemma wp_item pp pf (h : Heap) i x (Q : V → Heap → Prop) :
  bh_items h !! i = Some x → Q x h → wpx pp pf (item i) Q h.
Proof. intros E HQ. unfold item. wp_step. wp_step. unfold id. rewrite E. by apply wpx_ret. Qed.

Lemma wp_heap_swap pp pf (h : Heap) a b x y (Q : unit → Heap → Prop) :
  bh_items h !! a = Some x → bh_items h !! b = Some y →
  (∀ h', bh_items h' = swapped (bh_items h) a b x y → Q tt h') → wpx pp pf (heap_swap a b) Q h.
Proof.
  intros Ha Hb HQ. unfold heap_swap. wp_step. eapply wp_item; [done|]. wp_step. eapply wp_item; [done|].
  wp_step. wp_step. wp_step.
  eapply wp_item; [cbn; rewrite (swapped_lookup _ _ _ _ _ _ Ha Hb), decide_True by done; done|].
  unfold heap_record. wp_step. wp_step. wp_step.
  destruct (lookup_lt_is_Some_2 (swapped (bh_items h) a b x y) b) as [z Ez].
  { unfold swapped. rewrite !length_insert. by eapply lookup_lt_Some. }
  eapply wp_item; [exact Ez|].
  wp_step. by apply HQ.
Qed.

Lemma wp_compare_at pp pf (h : Heap) a b x y (Q : comparison → Heap → Prop) :
  Forall good (bh_items h) → bh_items h !! a = Some x → bh_items h !! b = Some y →
  (∀ o, match o with Lt => le x y ∧ ¬ le y x | Eq => le x y ∧ le y x | Gt => le y x end → Q o h) →
  wpx pp pf (compare_at comparator a b) Q h.
Proof.
  intros Hg Ha Hb HQ. unfold compare_at. wp_step. eapply wp_item; [done|]. wp_step. eapply wp_item; [done|].
  rewrite Forall_lookup in Hg. destruct (cp_spec _ _ _ Hcmp x y) as (o & -> & Ho); [eauto..|]. apply wpx_ret. by apply HQ.
Qed.

(** ** Moving a value up *)

(** In order but for the value at [i], which may be below its parent. *)
Record up_inv (l : list V) (i : nat) : Prop := mkUpInv {
  up_good : Forall good l;
  up_edges j : 0 < j → j ≠ i → edge_ok l j;
  up_children j x p : 0 < j → 0 < i → parent j = i → l !! j = Some x → l !! parent i = Some p → le p x;
}.

Lemma up_swap l i x p :
  up_inv l i → 0 < i → l !! i = Some x → l !! parent i = Some p → le x p →
  up_inv (swapped l i (parent i) x p) (parent i).
Proof.
  intros [Hg He Hc] Hi Hx Hp Hle. pose proof (parent_lt i Hi) as Hpi. split.
  - rewrite (swapped_perm _ _ _ _ _ Hx Hp). done.
  - intros j Hj Hne y q. rewrite !(swapped_lookup _ _ _ _ _ _ Hx Hp). pose proof (parent_lt j Hj).
    destruct (decide (j = i)) as [->|Hji].
    { rewrite decide_False, decide_True by lia. intros [= <-] [= <-]. done. }
    rewrite (decide_False (P := j = parent i)) by done. intros Hy. destruct (decide (parent j = i)) as [Ej|].
    { intros [= <-]. by apply (Hc j y p). }
    destruct (decide (parent j = parent i)) as [Ej|]; intros Hq; [injection Hq as <-|by apply (He j Hj Hji y q)].
    etrans; [exact Hle|]. apply (He j Hj Hji y p); [done|by rewrite Ej].
  - intros j y q Hj Hpp Ej. rewrite !(swapped_lookup _ _ _ _ _ _ Hx Hp). pose proof (parent_lt _ Hpp).
    rewrite (decide_False (P := parent (parent i) = i)), (decide_False (P := parent (parent i) = parent i)) by lia.
    intros Hy Hq. assert (le q p) as Hqp by (apply (He (parent i) Hpp ltac:(lia) p q); done).
    destruct (decide (j = i)) as [->|Hji]; [by injection Hy as <-|].
    rewrite decide_False in Hy by (pose proof (parent_lt j Hj); lia).
    etrans; [exact Hqp|]. apply (He j Hj Hji y p); [done|by rewrite Ej].
Qed.

Lemma sift_up_ok fuel i (h : Heap) :
  up_inv (bh_items h) i → i < length (bh_items h) → i < fuel →
  twp (sift_up comparator fuel i) (λ _ h', heap_ok (bh_items h') ∧ bh_items h' ≡ₚ bh_items h) h.
Proof.
  revert i h. induction fuel as [|fuel IH]; intros i h Hinv Hi Hfuel; [lia|]. cbn [sift_up].
  destruct (i =? 0) eqn:E; b2p.
  { wp_step. split; [|done]. split; [apply Hinv|]. intros j Hj. apply (up_edges _ _ Hinv); lia. }
  pose proof (parent_lt i ltac:(lia)) as Hp.
  destruct (lookup_lt_is_Some_2 (bh_items h) i Hi) as [x Ex].
  destruct (lookup_lt_is_Some_2 (bh_items h) (parent i) ltac:(lia)) as [p Ep].
  assert (le p x → heap_ok (bh_items h)) as Hdone.
  { intros Hle. split; [apply Hinv|]. intros j Hj. destruct (decide (j = i)) as [->|]; [|by apply (up_edges _ _ Hinv)].
    intros y q Hy Hq. by simplify_eq. }
  wp_step. eapply wp_compare_at; [apply Hinv|done|done|]. intros [] Ho; [wp_step; split; [apply Hdone, Ho|done]| |wp_step; split; [by apply Hdone|done]].
  wp_step. eapply wp_heap_swap; [done|done|]. intros h' Eh'. wp_use (IH (parent i) h').
  - rewrite Eh'. apply up_swap; try done; [lia|apply Ho].
  - rewrite Eh'. unfold swapped. rewrite !length_insert. lia.
  - lia.
  - intros [] h'' [H1 H2]. split; [done|]. rewrite H2, Eh'. by apply swapped_perm.
Qed.

Lemma heap_insert_ok (h : Heap) v :
  heap_ok (bh_items h) → good v →
  twp (heap_insert comparator v) (λ _ h', heap_ok (bh_items h') ∧ bh_items h' ≡ₚ v :: bh_items h) h.
Proof.
  intros [Hg He] Hv. unfold heap_insert, heap_record. repeat wp_step. unfold id.
  wp_use sift_up_ok; cbn; rewrite ?length_app; cbn; try lia.
  - split; [by apply Forall_app; split; [|constructor]|..].
    + intros j Hj Hne x p. pose proof (parent_lt j Hj) as Hp.
      intros Hx. pose proof (lookup_lt_Some _ _ _ Hx) as Hl. rewrite length_app in Hl. cbn in Hl.
      rewrite lookup_app_l in Hx by lia. rewrite lookup_app_l by lia. by apply He.
    + intros j x p Hj Hi Ej Hx. apply lookup_lt_Some in Hx. rewrite length_app in Hx. cbn in Hx.
      pose proof (parent_lt j Hj). lia.
  - intros [] h' [H1 H2]. split; [done|]. rewrite H2. cbn. by rewrite <- Permutation_cons_append.
Qed.

(** ** Moving a value down *)

(** In order but for the value at [i], which may be above its children. *)
Record down_inv (l : list V) (i : nat) : Prop := mkDownInv {
  dn_good : Forall good l;
  dn_edges j : 0 < j → parent j ≠ i → edge_ok l j;
  dn_children j x p : 0 < j → 0 < i → parent j = i → l !! j = Some x → l !! parent i = Some p → le p x;
}.

Lemma down_swap l i m x y :
  down_inv l i → 0 < m → parent m = i → l !! i = Some x → l !! m = Some y → le y x →
  (∀ j z, 0 < j → parent j = i → l !! j = Some z → le y z) →
  down_inv (swapped l i m x y) m.
Proof.
  intros [Hg He Hc] Hm Epm Hx Hy Hle Hmin. pose proof (parent_lt m Hm) as Hpm. split.
  - by rewrite (swapped_perm _ _ _ _ _ Hx Hy).
  - intros j Hj Hne a b. rewrite !(swapped_lookup _ _ _ _ _ _ Hx Hy). pose proof (parent_lt j Hj).
    rewrite (decide_False (P := parent j = m)) by done.
    destruct (decide (parent j = i)) as [Ej|Hji].
    + rewrite decide_False by lia. intros Ha [= <-]. destruct (decide (j = m)); [by injection Ha as <-|eauto].
    + destruct (decide (j = i)) as [->|Hji']; [intros [= <-] Hb; by apply (Hc m y b ltac:(done) ltac:(lia))|].
      destruct (decide (j = m)) as [->|]; [done|]. intros Ha Hb. by apply (He j Hj Hji a b).
  - intros j a b Hj _ Ej. rewrite !(swapped_lookup _ _ _ _ _ _ Hx Hy), Epm, (decide_True (P := i = i)) by done.
    pose proof (parent_lt j Hj). rewrite !decide_False by lia. intros Ha [= <-].
    apply (He j Hj ltac:(lia) a y); [done|by rewrite Ej].
Qed.

(** [min_i] after looking at a child is the smaller one of the two. *)
Lemma smaller_child_ok (h : Heap) child min_i y :
  Forall good (bh_items h) → bh_items h !! min_i = Some y →
  twp (smaller_child comparator child min_i) (λ m h', h' = h ∧ (m = min_i ∨ m = child) ∧
    ∃ z, bh_items h !! m = Some z ∧ le z y ∧ ∀ w, bh_items h !! child = Some w → le z w) h.
Proof.
  intros Hg Hy. unfold smaller_child. wp_step. wp_step. unfold id. destruct (_ <? _) eqn:E; b2p.
  - destruct (lookup_lt_is_Some_2 _ _ E) as [w Ew]. wp_step. eapply wp_compare_at; [done..|].
    intros [] Ho; wp_step; (split; [done|]).
    + split; [by left|]. exists y. split_and!; [done|done|]. intros w' Hw'. simplify_eq. apply Ho.
    + split; [by right|]. exists w. split_and!; [done|apply Ho|]. intros w' Hw'. by simplify_eq.
    + split; [by left|]. exists y. split_and!; [done|done|]. intros w' Hw'. by simplify_eq.
  - wp_step. split; [done|]. split; [by left|]. exists y. split_and!; [done|done|].
    intros w Hw. apply lookup_lt_Some in Hw. lia.
Qed.

Lemma sift_down_ok fuel i (h : Heap) :
  down_inv (bh_items h) i → i < length (bh_items h) → length (bh_items h) ≤ fuel + i →
  twp (sift_down comparator fuel i) (λ _ h', heap_ok (bh_items h') ∧ bh_items h' ≡ₚ bh_items h) h.
Proof.
  revert i h. induction fuel as [|fuel IH]; intros i h Hinv Hi Hfuel; [lia|]. cbn [sift_down].
  destruct (lookup_lt_is_Some_2 (bh_items h) i Hi) as [x Ex]. pose proof (dn_good _ _ Hinv) as Hg.
  set (lc := 2 * (i + 1) - 1) in *. wp_step. wp_use (smaller_child_ok h lc i x); [done|done|].
  intros m1 h1 (-> & Hm1 & z1 & Ez1 & Hz1 & Hl). wp_step. wp_use (smaller_child_ok h (lc + 1) m1 z1); [done|done|].
  intros m h1 (-> & Hm & z & Ez & Hz & Hr).
  assert (∀ j w, 0 < j → parent j = i → bh_items h !! j = Some w → le z w) as Hmin.
  { intros j w Hj Ej Hw. apply (parent_children _ _ Hj) in Ej as [Ej|Ej]; fold lc in Ej; subst j; [etrans; eauto|eauto]. }
  destruct (m =? i) eqn:E; b2p.
  - subst m. wp_step. split; [|done]. split; [done|]. intros j Hj. destruct (decide (parent j = i)) as [Ej|];
      [|by apply (dn_edges _ _ Hinv)]. intros w p Hw Hp. rewrite Ej in Hp. simplify_eq. eauto.
  - assert (0 < m ∧ parent m = i) as [Hm0 Epm].
    { assert (0 < m) by (unfold lc in *; lia). split; [done|]. apply parent_children; [done|]. fold lc. lia. }
    pose proof (parent_lt m Hm0). wp_step. eapply wp_heap_swap; [done|done|]. intros h' Eh'.
    wp_use (IH m h').
    + rewrite Eh'. apply down_swap; try done. by etrans.
    + rewrite Eh'. unfold swapped. rewrite !length_insert. by eapply lookup_lt_Some.
    + rewrite Eh'. unfold swapped. rewrite !length_insert. lia.
    + intros [] h'' [H1 H2]. split; [done|]. rewrite H2, Eh'. by apply swapped_perm.
Qed.

Lemma wp_heap_pop pp pf (h : Heap) l v (Q : option V → Heap → Prop) :
  bh_items h = l ++ [v] → (∀ h', bh_items h' = l → Q (Some v) h') → wpx pp pf heap_pop Q h.
Proof.
  intros E HQ. unfold heap_pop. wp_step. wp_step. unfold id. rewrite E, last_snoc. repeat wp_step. apply HQ.
  cbn. by rewrite E, removelast_last.
Qed.

(** Whatever the index is, the first value is removed. *)
Lemma remove_at_index_ok (h : Heap) index :
  heap_ok (bh_items h) →
  twp (remove_at_index comparator index) (λ v h', heap_ok (bh_items h') ∧ v = bh_items h !! 0 ∧
    match v with Some v => v :: bh_items h' ≡ₚ bh_items h | None => bh_items h = [] ∧ bh_items h' = [] end) h.
Proof.
  intros Hh. unfold remove_at_index. wp_step. wp_step. unfold id. destruct (_ <=? 1) eqn:E; b2p.
  { destruct (bh_items h) as [|v [|]] eqn:Ei; cbn in E; try lia.
    - unfold heap_pop. wp_step. wp_step. unfold id. rewrite Ei. cbn [last]. wp_step. by rewrite Ei.
    - eapply (wp_heap_pop _ _ _ [] v); [done|]. intros h' ->. split_and!; [|done|done].
      split; [done|]. intros j _ x p Hx. done. }
  destruct (bh_items h) as [|x l] eqn:Ei; [cbn in E; lia|].
  destruct l as [|y mid _] using rev_ind; [cbn in E; lia|]. cbn [lookup list_lookup].
  unfold heap_swap_remove. wp_step. wp_step. wp_step. unfold id. rewrite Ei. cbn [length]. rewrite length_app. cbn [length].
  replace (S (length mid + 1) - 1) with (S (length mid)) by lia. rewrite (proj2 (Nat.ltb_lt _ _)) by lia.
  wp_step. apply wpx_assert; [intros _|done]. wp_step.
  eapply (wp_heap_swap _ _ _ _ _ x y); [by rewrite Ei|rewrite Ei; exact (list_lookup_middle mid [] y _ eq_refl)|].
  intros h1 Eh1. wp_step. eapply (wp_heap_pop _ _ h1 (y :: mid) x).
  { assert (<[length mid := x]> (mid ++ [y]) = mid ++ [x]) as E2.
    { rewrite <- (Nat.add_0_r (length mid)) at 1. by rewrite insert_app_r. }
    rewrite Eh1, Ei. exact (f_equal (cons y) E2). }
  intros h2 Eh2. cbn [unwrap]. wp_step. wp_step. wp_step. wp_step. unfold id. destruct Hh as [Hg He].
  wp_use sift_down_ok.
  - rewrite Eh2. split.
    + apply Forall_cons in Hg as [_ Hg]. apply Forall_app in Hg as [Hg1 Hg2]. apply Forall_cons in Hg2 as [Hg2 _]. by constructor.
    + intros j Hj Hp a b Ha Hb. pose proof (lookup_lt_Some _ _ _ Ha). pose proof (lookup_lt_Some _ _ _ Hb).
      apply (He j Hj a b); [destruct j as [|j]; [lia|]|destruct (parent j) as [|k]; [done|]];
        rewrite app_comm_cons, lookup_app_l by (cbn in *; lia); done.
    + intros. lia.
  - rewrite Eh2. cbn. lia.
  - lia.
  - intros [] h3 [H1 H2]. wp_step. split_and!; [done|done|]. rewrite H2, Eh2.
    rewrite <- Permutation_cons_append. apply perm_skip. done.
Qed.

(** Take all values out of a heap. *)
Fixpoint extract_all (fuel : nat) : M Heap (list V) :=
  match fuel with
  | O => out_of_fuel
  | S fuel =>
    let! v := extract_min comparator in
    match v with
    | None => ret []
    | Some v => let! vs := extract_all fuel in ret (v :: vs)
    end
  end.

Lemma extract_all_ok fuel (h : Heap) :
  heap_ok (bh_items h) → length (bh_items h) < fuel →
  twp (extract_all fuel) (λ vs h', vs ≡ₚ bh_items h ∧ StronglySorted le vs ∧ bh_items h' = []) h.
Proof.
  revert h. induction fuel as [|fuel IH]; intros h Hh Hfuel; [lia|]. cbn [extract_all]. wp_step.
  wp_use remove_at_index_ok; [done|]. intros v h1 (Hh1 & Ev & Hv). destruct v as [v|].
  - pose proof (Permutation_length Hv) as El. cbn in El. wp_step. wp_use (IH h1); [done|lia|].
    intros vs h2 (Hp & Hs & E). wp_step. split_and!; [by rewrite Hp|constructor; [done|]|done].
    apply Forall_forall. intros w Hw. assert (w ∈ bh_items h) as Hin by (rewrite <- Hv, <- Hp; by right).
    apply list_elem_of_lookup in Hin as [j Hj]. by eapply (heap_min _ v w j Hh).
  - wp_step. destruct Hv as [-> ->]. split_and!; [done|constructor|done].
Qed.

Lemma heap_insert_all_ok vs (h : Heap) :
  heap_ok (bh_items h) → Forall good vs →
  twp (for_each vs (heap_insert comparator)) (λ _ h', heap_ok (bh_items h') ∧ bh_items h' ≡ₚ vs ++ bh_items h) h.
Proof.
  intros Hh Hg. revert h Hh. induction Hg as [|v vs Hv _ IH]; intros h Hh; cbn [for_each]; [by wp_step|].
  wp_step. wp_use heap_insert_ok; [done|done|]. intros [] h1 [H1 E1]. wp_use IH; [done|].
  intros [] h2 [H2 E2]. split; [done|]. rewrite E2, E1. cbn. by rewrite Permutation_middle.
Qed.
End Heap.

(** ** Properties *)

(** A binary heap is a priority queue, for every lawful comparator and every
    index: values that are inserted in any order are taken out by
    [extract_min] in ascending order, each exactly once. *)
Theorem binary_heap_sorts {V I Query} `{!BinaryHeapIndex V I Query} comparator good le (values : list V) (index : I) :
  compares comparator good le → Forall good values →
  ∃ out h, (for_each values (heap_insert comparator) ;!
      extract_all comparator (S (length values))) (heap_new index) = Done (out, h) ∧
    out ≡ₚ values ∧ StronglySorted le out ∧ bh_items h = [].
Proof.
  intros Hc Hg.
  assert (twp (for_each values (heap_insert comparator) ;! extract_all comparator (S (length values)))
    (λ out h, out ≡ₚ values ∧ StronglySorted le out ∧ bh_items h = []) (heap_new index)) as Hw.
  { wp_step. wp_use (heap_insert_all_ok comparator good le Hc); [split; [done|]; by intros j _ x p Hx|done|].
    intros [] h [Hh E]. cbn in E. rewrite app_nil_r in E.
    wp_use (extract_all_ok comparator good le Hc); [done|rewrite E; lia|].
    intros out h' (Hp & Hs & E'). split_and!; [by rewrite Hp|done|done]. }
  unfold wpx in Hw. destruct (bind _ _ _) as [[out h]| |]; [|done..]. by exists out, h.
Qed.

Definition Z_comparator (a b : Z) : option comparison := Some (a ?= b)%Z.

Lemma Z_compares : compares Z_comparator (λ _, True) Z.le.
Proof.
  split; [apply _|]. intros a b _ _. eexists. split; [done|]. destruct (Z.compare_spec a b); lia.
Qed.

Lemma binary_heap_sorts_witness :
  ∃ out h, (for_each [3; 1; 2]%Z (heap_insert Z_comparator) ;! extract_all Z_comparator 4) (heap_new ()) = Done (out, h) ∧
    out ≡ₚ [3; 1; 2]%Z ∧ StronglySorted Z.le out ∧ bh_items h = [].
Proof. apply (binary_heap_sorts Z_comparator (λ _, True) Z.le [3; 1; 2]%Z ()); [apply Z_compares|repeat constructor]. Defined.

(** [remove] takes out the first value of the heap, whatever value the query
    asks for: when the index finds the query at any offset, the value at
    offset 0 is removed. *)
Theorem binary_heap_remove_first {V I Query} `{!BinaryHeapIndex V I Query} comparator good le
    (h : BinaryHeap V I) (query : Query) (offset : nat) :
  compares comparator good le → heap_ok good le (bh_items h) → lookup_offset query (bh_index h) = Some offset →
  ∃ h', heap_remove comparator query h = Done (bh_items h !! 0, h').
Proof.
  intros Hc Hh Hq. pose proof (remove_at_index_ok comparator good le Hc h offset Hh) as Hw. unfold wpx in Hw.
  unfold heap_remove, bind. cbn. rewrite Hq. destruct (remove_at_index comparator offset h) as [[v h']| |]; [|done..].
  destruct Hw as (_ & -> & _). by exists h'.
Qed.

(** An index of numbers by value. *)
#[local] Instance Z_index : BinaryHeapIndex Z (list (Z * nat)) Z := {
  record_offset := λ v i index, (v, i) :: index;
  lookup_offset := λ v index, snd <$> List.find (λ x, (x.1 =? v)%Z) index;
  clear_offset := λ v index, List.filter (λ x, negb (x.1 =? v)%Z) index;
}.

Definition example_heap : BinaryHeap Z (list (Z * nat)) :=
  match for_each [1; 2; 3]%Z (heap_insert Z_comparator) (heap_new []) with Done (_, h) => h | _ => heap_new [] end.

Lemma binary_heap_remove_first_witness :
  ∃ h', heap_remove Z_comparator 3%Z example_heap = Done (Some 1%Z, h').
Proof.
  apply (binary_heap_remove_first Z_comparator (λ _, True) Z.le example_heap 3%Z 2); [apply Z_compares| |by vm_compute].
  split; [by apply Forall_true|]. intros j Hj x p Hx Hp.
  change (bh_items example_heap) with [1; 2; 3]%Z in *.
  destruct j as [|[|[|j]]]; [lia|..]; cbn in Hx, Hp; [by simplify_eq..|done].
Defined.
