(* ===== verification/MergeIterator.v ===== *)
(** * Merging iterators

    The [Iterable] trait of src/pkg/sstable/src/iterable.rs for key-value
    entries, and [MergeIterator] of src/pkg/sstable/src/db/merge_iterator.rs,
    which is itself one, over any type of iterators. *)

From S2P Require Import Prelude Wire Encoding Comparator BinaryHeap BinaryHeapTheorems.

(** [KeyValueEntry] *)
Abbreviation KeyValueEntry := (bytes * bytes)%type.

(** [trait Iterable<KeyValueEntry>] *)
Class Iterable (I : Type) := {
  it_next : M I (Result (option KeyValueEntry));
  it_seek : bytes → M I (Result unit);
}.

(** Run a method of an object that is not part of the state. *)
Definition call {S I A} (m : M I A) (i : I) : M S (A * I) := λ s,
  match m i with
  | Done x => Done (x, s)
  | Panicked => Panicked
  | OutOfFuel => OutOfFuel
  end.

Section MergeIterator.
Context {I : Type} `{!Iterable I} (key_comparator : KeyComparator).

(** [MergeIteratorEntry]: the iterator and its next entry. *)
Abbreviation MergeIteratorEntry := (I * KeyValueEntry)%type.

Definition MergeKeysComparator (a b : MergeIteratorEntry) : option comparison :=
  kc_compare key_comparator a.2.1 b.2.1.

Record MergeIterator := mkMergeIterator {
  mi_pending_iters : list I;
  mi_next_queue : BinaryHeap MergeIteratorEntry unit;
  mi_exhausted_iters : list I;
}.

Definition MergeIterator_new (iterators : list I) : MergeIterator :=
  mkMergeIterator iterators (heap_new ()) [].

Definition on_queue {A} (m : M (BinaryHeap MergeIteratorEntry unit) A) : M MergeIterator A := λ s,
  match m (mi_next_queue s) with
  | Done (a, queue) => Done (a, mkMergeIterator (mi_pending_iters s) queue (mi_exhausted_iters s))
  | Panicked => Panicked
  | OutOfFuel => OutOfFuel
  end.

Definition set_pending (l : list I) : M MergeIterator unit :=
  modify (λ s, mkMergeIterator l (mi_next_queue s) (mi_exhausted_iters s)).
Definition set_exhausted (l : list I) : M MergeIterator unit :=
  modify (λ s, mkMergeIterator (mi_pending_iters s) (mi_next_queue s) l).

(** Put an iterator back after its [next]. *)
Definition requeue (next_entry : option KeyValueEntry) (iter : I) : M MergeIterator unit :=
  match next_entry with
  | Some next_entry => on_queue (heap_insert MergeKeysComparator (iter, next_entry))
  | None => let! s := gets id in set_exhausted (mi_exhausted_iters s ++ [iter])
  end.

(** The [while] loop over [pending_iters]. *)
Fixpoint add_pending (fuel : nat) : M MergeIterator (Result unit) :=
  match fuel with
  | O => out_of_fuel
  | S fuel =>
    let! s := gets id in
    match last (mi_pending_iters s) with
    | None => ret (inr tt)
    | Some iter =>
      set_pending (removelast (mi_pending_iters s)) ;!
      let! (res, iter) := call it_next iter in
      match res with
      | inl e => ret (inl e)
      | inr next_entry => requeue next_entry iter ;! add_pending fuel
      end
    end
  end.

Definition merge_next : M MergeIterator (Result (option KeyValueEntry)) :=
  let! s := gets id in
  try! _ := add_pending (S (length (mi_pending_iters s))) in
  let! entry := on_queue (extract_min MergeKeysComparator) in
  match entry with
  | Some (inner, entry) =>
    let! (res, inner) := call it_next inner in
    match res with
    | inl e => ret (inl e)
    | inr next_entry => requeue next_entry inner ;! ret (inr (Some entry))
    end
  | None => ret (inr None)
  end.

(** [while let Some(iter) = self.next_queue.pop_any()] *)
Fixpoint unqueue (fuel : nat) : M MergeIterator unit :=
  match fuel with
  | O => out_of_fuel
  | S fuel =>
    let! entry := on_queue pop_any in
    match entry with
    | None => ret tt
    | Some (inner, _) =>
      let! s := gets id in
      set_pending (mi_pending_iters s ++ [inner]) ;!
      unqueue fuel
    end
  end.

(** [while let Some(iter) = self.exhausted_iters.pop()] *)
Fixpoint unexhaust (fuel : nat) : M MergeIterator unit :=
  match fuel with
  | O => out_of_fuel
  | S fuel =>
    let! s := gets id in
    match last (mi_exhausted_iters s) with
    | None => ret tt
    | Some iter =>
      set_exhausted (removelast (mi_exhausted_iters s)) ;!
      set_pending (mi_pending_iters s ++ [iter]) ;!
      unexhaust fuel
    end
  end.

(** [iter.seek(key)?] for the iterators from the [i]-th of [pending_iters] on. *)
Fixpoint seek_pending (key : bytes) (n i : nat) : M MergeIterator (Result unit) :=
  match n with
  | O => ret (inr tt)
  | S n =>
    let! s := gets id in
    let! iter := unwrap (mi_pending_iters s !! i) in
    let! (res, iter) := call (it_seek key) iter in
    set_pending (<[i := iter]> (mi_pending_iters s)) ;!
    match res with
    | inl e => ret (inl e)
    | inr _ => seek_pending key n (S i)
    end
  end.

Definition merge_seek (key : bytes) : M MergeIterator (Result unit) :=
  let! s := gets id in
  unqueue (S (length (bh_items (mi_next_queue s)))) ;!
  unexhaust (S (length (mi_exhausted_iters s))) ;!
  let! s := gets id in
  seek_pending key (length (mi_pending_iters s)) 0.

#[export] Instance merge_iterable : Iterable MergeIterator :=
  { it_next := merge_next; it_seek := merge_seek }.
End MergeIterator.
Arguments MergeIterator : clear implicits.
