(* ===== verification/MergeIteratorTheorems.v ===== *)
(** * Merging lawful iterators

    [IterableLaws]: what an iterator over entries with distinct keys promises.
    A merge of lawful iterators whose entries have distinct keys keeps the
    promise for all entries together. *)

From S2P Require Import Prelude Wire Encoding Comparator BinaryHeap BinaryHeapTheorems MergeIterator.

Section Laws.
Context (c : KeyComparator) `{!KeyComparatorLaws c}.

Definition entry_lt (a b : KeyValueEntry) : Prop := ¬ kc_le b.1 a.1.

(** Keys of the order, in strictly ascending order. *)
Record entries_ok (es : list KeyValueEntry) : Prop := mkEntriesOk {
  eo_keys : Forall (λ e, kc_key e.1) es;
  eo_sorted : StronglySorted entry_lt es;
}.

(** [it_rep i all rest]: [i] iterates over [all], of which [rest] is left. *)
Class IterableLaws (I : Type) `{!Iterable I} := {
  it_rep : I → list KeyValueEntry → list KeyValueEntry → Prop;
  it_rep_ok i all rest : it_rep i all rest → entries_ok all ∧ rest `suffix_of` all;
  it_next_spec i all rest : it_rep i all rest →
    ∃ i', it_next i = Done (inr (head rest), i') ∧ it_rep i' all (tail rest);
  it_seek_spec i all rest key : it_rep i all rest → kc_key key →
    ∃ i', it_seek key i = Done (inr tt, i') ∧ it_rep i' all (filter (λ e, kc_le key e.1) all);
}.

Lemma entries_suffix es es' : entries_ok es → es' `suffix_of` es → entries_ok es'.
Proof.
  intros [H1 H2] [k ->]. apply Forall_app in H1 as [_ H1]. apply StronglySorted_app_1_r in H2. done.
Qed.

Lemma entry_lt_le a b : entry_lt a b → kc_le a.1 b.1.
Proof. unfold entry_lt. destruct (kc_le_total a.1 b.1); tauto. Qed.

Section Merge.
Context {I : Type} `{!Iterable I, !IterableLaws I}.

(** An iterator with what it stands for. *)
Record Source := mkSource {
  sr_iter : I;
  sr_all : list KeyValueEntry;
  sr_rest : list KeyValueEntry;
}.

Definition source_ok (s : Source) : Prop := it_rep (sr_iter s) (sr_all s) (sr_rest s).
Definition queued_ok (q : Source * KeyValueEntry) : Prop :=
  source_ok q.1 ∧ (q.2 :: sr_rest q.1) `suffix_of` sr_all q.1.

Abbreviation good := (λ x : I * KeyValueEntry, kc_key x.2.1).
Abbreviation le := (λ x y : I * KeyValueEntry, kc_le x.2.1 y.2.1).

Lemma merge_compares : compares (MergeKeysComparator c) good le.
Proof.
  split.
  - split; [by intros ?|]. intros x y z. cbn. apply transitivity.
  - intros a b Ha Hb. destruct (kc_compare_spec _ _ Ha Hb) as (o & E & Ho). exists o. split; [exact E|].
    pose proof (kc_le_total a.2.1 b.2.1). destruct o; tauto.
Qed.

(** [P], [Q] and [X] are the pending, queued and exhausted iterators. *)
Record merging (m : MergeIterator I) (P : list Source) (Q : list (Source * KeyValueEntry)) (X : list Source)
    : Prop := mkMerging {
  mg_pending : mi_pending_iters m = sr_iter <$> P;
  mg_queue : bh_items (mi_next_queue m) = (λ q, (sr_iter q.1, q.2)) <$> Q;
  mg_exhausted : mi_exhausted_iters m = sr_iter <$> X;
  mg_heap : heap_ok good le (bh_items (mi_next_queue m));
  mg_pending_ok : Forall source_ok P;
  mg_queue_ok : Forall queued_ok Q;
  mg_exhausted_ok : Forall (λ s, source_ok s ∧ sr_rest s = []) X;
}.

(** What is left, in any order. *)
Definition left_over (P : list Source) (Q : list (Source * KeyValueEntry)) : list KeyValueEntry :=
  concat (sr_rest <$> P) ++ concat ((λ q, q.2 :: sr_rest q.1) <$> Q).
Definition over (P : list Source) (Q : list (Source * KeyValueEntry)) (X : list Source) : list (list KeyValueEntry) :=
  (sr_all <$> P) ++ (sr_all ∘ fst <$> Q) ++ (sr_all <$> X).

(** The merge of the entries [all], of which [rem] are left. *)
Definition merge_inv (m : MergeIterator I) (alls : list (list KeyValueEntry)) (rem : list KeyValueEntry) : Prop :=
  ∃ P Q X, merging m P Q X ∧ alls ≡ₚ over P Q X ∧ rem ≡ₚ left_over P Q.

Lemma queued_good q : queued_ok q → kc_key q.2.1.
Proof.
  intros [Hs Hsuf]. destruct (it_rep_ok _ _ _ Hs) as [Hall _].
  destruct (entries_suffix _ _ Hall Hsuf) as [Hk _]. by apply Forall_cons in Hk as [? _].
Qed.

Lemma wp_on_queue {A} pp pf (q : M (BinaryHeap (I * KeyValueEntry) unit) A) (Q : A → MergeIterator I → Prop) m :
  wpx pp pf q (λ a h, Q a (mkMergeIterator (mi_pending_iters m) h (mi_exhausted_iters m))) (mi_next_queue m) →
  wpx pp pf (on_queue q) Q m.
Proof. unfold wpx, on_queue. by destruct (q (mi_next_queue m)) as [[a h]| |]. Qed.

Lemma wp_call {S A} pp pf (f : M I A) i a i' (Q : A * I → S → Prop) s :
  f i = Done (a, i') → Q (a, i') s → wpx pp pf (call f i) Q s.
Proof. intros E HQ. unfold wpx, call. by rewrite E. Qed.

(** An iterator that is put back with the entries [rest] ahead. *)
Lemma requeue_ok m P Q X iter all rest :
  merging m P Q X → it_rep iter all (tail rest) → rest `suffix_of` all →
  twp (requeue c (head rest) iter) (λ _ m', ∃ Q' X', merging m' P Q' X' ∧
    over P Q' X' ≡ₚ all :: over P Q X ∧ left_over P Q' ≡ₚ rest ++ left_over P Q) m.
Proof.
  intros [E1 E2 E3 Hh H1 H2 H3] Hrep Hsuf. destruct rest as [|e rest]; cbn [requeue head tail] in *.
  - repeat wp_step. exists Q, (X ++ [mkSource iter all []]). split_and!.
    + split; try done; [cbn; by rewrite E3, fmap_app|]. apply Forall_app. split; [done|]. by repeat constructor.
    + unfold over. rewrite fmap_app. cbn. rewrite !(assoc_L (++)). by rewrite <- Permutation_cons_append.
    + done.
  - set (q := (mkSource iter all rest, e)). assert (queued_ok q) as Hq by done.
    apply wp_on_queue. wp_use (heap_insert_ok _ _ _ merge_compares); [done|by apply (queued_good q)|].
    intros [] h [Hh' Hp]. rewrite E2 in Hp.
    change ((iter, e) :: _) with ((λ q : Source * KeyValueEntry, (sr_iter q.1, q.2)) <$> (q :: Q)) in Hp.
    apply Permutation_map_inv in Hp as (Q' & EQ' & HpQ). exists Q', X. split_and!.
    + split; try done. rewrite <- HpQ. by constructor.
    + unfold over. rewrite <- HpQ. cbn. symmetry. apply Permutation_middle.
    + unfold left_over. rewrite <- HpQ. exact (Permutation_app_swap_app _ (e :: rest) _).
Qed.

(** The loop over the pending iterators. *)
Lemma add_pending_ok fuel m P Q X :
  merging m P Q X → (length P < fuel)%nat →
  twp (add_pending c fuel) (λ res m', res = inr tt ∧ ∃ Q' X', merging m' [] Q' X' ∧
    over [] Q' X' ≡ₚ over P Q X ∧ left_over [] Q' ≡ₚ left_over P Q) m.
Proof.
  revert m P Q X. induction fuel as [|fuel IH]; intros m P Q X Hm Hfuel; [lia|]. cbn [add_pending]. wp_step. wp_step.
  unfold id. rewrite (mg_pending _ _ _ _ Hm), fmap_last. destruct P as [|p P _] using rev_ind.
  { cbn [last fmap option_fmap option_map]. wp_step. split; [done|]. by exists Q, X. }
  rewrite last_snoc. cbn [fmap option_fmap option_map]. rewrite fmap_app. cbn [fmap list_fmap]. rewrite removelast_last.
  pose proof (mg_pending_ok _ _ _ _ Hm) as HP. apply Forall_app in HP as [HP Hp]. apply Forall_cons in Hp as [Hp _].
  destruct (it_next_spec _ _ _ Hp) as (i' & Hnext & Hrep). destruct (it_rep_ok _ _ _ Hp) as [_ Hsuf].
  wp_step. unfold set_pending. wp_step. wp_step. eapply wp_call; [done|]. cbn beta iota. wp_step.
  assert (merging (mkMergeIterator (sr_iter <$> P) (mi_next_queue m) (mi_exhausted_iters m)) P Q X) as Hm'
    by (destruct Hm; by split).
  wp_use requeue_ok; [done..|]. intros [] m1 (Q1 & X1 & Hm1 & Ho1 & Hl1).
  wp_use IH; [done|rewrite length_app in Hfuel; cbn in Hfuel; lia|].
  intros res m2 (-> & Q2 & X2 & Hm2 & Ho2 & Hl2). split; [done|]. exists Q2, X2. split_and!; [done| |].
  - rewrite Ho2, Ho1. unfold over. rewrite fmap_app. cbn. rewrite <- !(assoc_L (++)). cbn. apply Permutation_middle.
  - rewrite Hl2, Hl1. unfold left_over. rewrite fmap_app, concat_app. cbn. rewrite app_nil_r, <- !(assoc_L (++)).
    apply Permutation_app_swap_app.
Qed.

(** The smallest entry that is left. *)
Lemma extract_ok m Q X :
  merging m [] Q X →
  twp (on_queue (extract_min (MergeKeysComparator c))) (λ x m',
    match x with
    | None => Q = [] ∧ merging m' [] [] X
    | Some (inner, e) => ∃ p Q', source_ok p ∧ sr_iter p = inner ∧ (e :: sr_rest p) `suffix_of` sr_all p ∧
        merging m' [] Q' X ∧ Q ≡ₚ (p, e) :: Q' ∧ Forall (λ e', kc_le e.1 e'.1) (left_over [] Q)
    end) m.
Proof.
  intros [E1 E2 E3 Hh H1 H2 H3]. apply wp_on_queue. unfold extract_min.
  wp_use (remove_at_index_ok _ _ _ merge_compares); [done|]. intros v h (Hh' & Ev & Hv). destruct v as [[inner e]|].
  2:{ destruct Hv as [Hv Hv']. rewrite E2 in Hv. apply fmap_nil_inv in Hv. split; [done|]. by split. }
  rewrite E2 in Hv. apply Permutation_map_inv in Hv as (Q1 & EQ1 & HpQ). destruct Q1 as [|[p e'] Q']; [done|].
  injection EQ1 as -> -> EQ'. assert (Forall queued_ok ((p, e') :: Q')) as Hq by (by rewrite <- HpQ).
  apply Forall_cons in Hq as [[Hp Hsuf] HQ']. exists p, Q'. split_and!; try done.
  apply Forall_concat, Forall_fmap, Forall_forall. intros q Hq. cbn.
  assert (kc_le e'.1 q.2.1) as Hle.
  { assert ((sr_iter q.1, q.2) ∈ bh_items (mi_next_queue m)) as Hin by (rewrite E2; apply list_elem_of_fmap; by exists q).
    apply list_elem_of_lookup in Hin as [j Hj]. by apply (heap_min _ _ _ merge_compares _ _ _ j Hh (eq_sym Ev)) in Hj. }
  rewrite Forall_forall in H2. destruct (H2 q Hq) as [Hqs Hqsuf]. destruct (it_rep_ok _ _ _ Hqs) as [Hall _].
  pose proof (eo_sorted _ (entries_suffix _ _ Hall Hqsuf)) as Hsort. apply StronglySorted_cons in Hsort as [Hlt _].
  constructor; [done|]. eapply Forall_impl; [exact Hlt|]. intros x Hx%entry_lt_le. by etrans.
Qed.

(** The next entry is a smallest one. *)
Lemma merge_next_ok m alls rem :
  merge_inv m alls rem →
  twp (merge_next c) (λ res m',
    match res with
    | inl _ => False
    | inr None => rem = [] ∧ merge_inv m' alls []
    | inr (Some e) => ∃ rem', rem ≡ₚ e :: rem' ∧ Forall (λ e', kc_le e.1 e'.1) rem' ∧ merge_inv m' alls rem'
    end) m.
Proof.
  intros (P & Q & X & Hm & Ha & Hr). unfold merge_next. wp_step. wp_step. unfold try_bind. wp_step.
  wp_use add_pending_ok; [done|unfold id; rewrite (mg_pending _ _ _ _ Hm), length_fmap; lia|].
  intros res m1 (-> & Q1 & X1 & Hm1 & Ho1 & Hl1). wp_step. wp_use extract_ok; [done|].
  intros [[inner e]|] m2 Hx.
  2:{ wp_step. destruct Hx as [-> Hm2]. rewrite <- Hl1 in Hr. apply Permutation_nil_r in Hr as ->.
      split; [done|]. exists [], [], X1. split_and!; [done|by rewrite Ha, <- Ho1|done]. }
  destruct Hx as (p & Q' & Hp & <- & Hsuf & Hm2 & HpQ & Hmin).
  destruct (it_next_spec _ _ _ Hp) as (i' & Hnext & Hrep). wp_step. eapply wp_call; [done|]. cbn beta iota. wp_step.
  wp_use (requeue_ok m2 [] Q' X1 i' (sr_all p) (sr_rest p)); [done|done|by eapply suffix_cons_l|].
  intros [] m3 (Q3 & X3 & Hm3 & Ho3 & Hl3). wp_step.
  assert (left_over [] Q1 ≡ₚ e :: left_over [] Q3) as Hleft by (rewrite Hl3; unfold left_over; by rewrite HpQ).
  exists (left_over [] Q3). split_and!.
  - by rewrite Hr, <- Hl1, Hleft.
  - rewrite Hleft in Hmin. by apply Forall_cons in Hmin as [_ ?].
  - exists [], Q3, X3. split_and!; [done| |done]. rewrite Ha, <- Ho1, Ho3. unfold over. by rewrite HpQ.
Qed.

(** ** Seeking *)

Lemma heap_ok_prefix (l k : list (I * KeyValueEntry)) : heap_ok good le (l ++ k) → heap_ok good le l.
Proof.
  intros [Hg He]. apply Forall_app in Hg as [Hg _]. split; [done|]. intros j Hj x p Hx Hp.
  apply (He j Hj x p); by apply lookup_app_l_Some.
Qed.

Lemma unqueue_ok fuel m P Q X :
  merging m P Q X → (length Q < fuel)%nat →
  twp (unqueue fuel) (λ _ m', ∃ P', merging m' P' [] X ∧ over P' [] X ≡ₚ over P Q X) m.
Proof.
  revert m P Q. induction fuel as [|fuel IH]; intros m P Q Hm Hfuel; [lia|]. cbn [unqueue]. wp_step.
  destruct Q as [|q Q _] using rev_ind.
  { apply wp_on_queue. unfold pop_any, heap_pop. wp_step. wp_step. unfold id. rewrite (mg_queue _ _ _ _ Hm). cbn [fmap list_fmap last].
    repeat wp_step. exists P. split; [|done]. destruct Hm; by split. }
  destruct Hm as [E1 E2 E3 Hh H1 H2 H3]. apply wp_on_queue. rewrite fmap_app in E2.
  eapply wp_heap_pop; [exact E2|]. intros h' Eh'. unfold set_pending. repeat wp_step. unfold id. cbn [mi_pending_iters].
  apply Forall_app in H2 as [H2 Hq]. apply Forall_cons in Hq as [[Hq _] _].
  wp_use (IH _ (P ++ [q.1]) Q).
  - split; cbn [mi_pending_iters mi_next_queue mi_exhausted_iters]; [|done|done| | |done|done].
    + by rewrite E1, fmap_app.
    + rewrite Eh'. eapply heap_ok_prefix. by rewrite <- E2.
    + apply Forall_app. by repeat constructor.
  - rewrite length_app in Hfuel. cbn in Hfuel. lia.
  - intros [] m' (P' & Hm' & Ho). exists P'. split; [done|]. rewrite Ho. unfold over. rewrite !fmap_app. cbn.
    rewrite <- !(assoc_L (++)). apply Permutation_app_head. cbn. apply Permutation_middle.
Qed.

Lemma unexhaust_ok fuel m P X :
  merging m P [] X → (length X < fuel)%nat →
  twp (unexhaust fuel) (λ _ m', ∃ P', merging m' P' [] [] ∧ over P' [] [] ≡ₚ over P [] X) m.
Proof.
  revert m P X. induction fuel as [|fuel IH]; intros m P X Hm Hfuel; [lia|]. cbn [unexhaust]. wp_step. wp_step. unfold id.
  rewrite (mg_exhausted _ _ _ _ Hm). destruct X as [|x X _] using rev_ind.
  { cbn [fmap list_fmap last]. wp_step. by exists P. }
  rewrite fmap_app. cbn [fmap list_fmap]. rewrite last_snoc, removelast_last.
  destruct Hm as [E1 E2 E3 Hh H1 H2 H3]. apply Forall_app in H3 as [H3 Hx]. apply Forall_cons in Hx as [[Hx _] _].
  unfold set_exhausted, set_pending. repeat wp_step. wp_use (IH _ (P ++ [x]) X).
  - split; cbn [mi_pending_iters mi_next_queue mi_exhausted_iters]; try done.
    + by rewrite E1, fmap_app.
    + apply Forall_app. by repeat constructor.
  - rewrite length_app in Hfuel. cbn in Hfuel. lia.
  - intros [] m' (P' & Hm' & Ho). exists P'. split; [done|]. rewrite Ho. unfold over. rewrite !fmap_app. cbn.
    rewrite <- !(assoc_L (++)). apply Permutation_app_head. by rewrite (Permutation_app_comm [_]).
Qed.

Definition from_key (key : bytes) (es : list KeyValueEntry) : list KeyValueEntry := filter (λ e, kc_le key e.1) es.

Lemma seek_pending_ok key n m P1 P2 :
  merging m (P1 ++ P2) [] [] → kc_key key → length P2 = n →
  twp (seek_pending key n (length P1)) (λ res m', res = inr tt ∧ ∃ P3, merging m' (P1 ++ P3) [] [] ∧
    sr_all <$> P3 = sr_all <$> P2 ∧ sr_rest <$> P3 = from_key key <$> (sr_all <$> P2)) m.
Proof.
  intros Hm Hk. revert m P1 P2 Hm. induction n as [|n IH]; intros m P1 P2 Hm Hn; cbn [seek_pending].
  { apply nil_length_inv in Hn as ->. wp_step. split; [done|]. by exists []. }
  destruct P2 as [|p P2]; [done|]. injection Hn as Hn. destruct Hm as [E1 E2 E3 Hh H1 H2 H3].
  wp_step. wp_step. unfold id. wp_step.
  assert (mi_pending_iters m !! length P1 = Some (sr_iter p)) as Hp.
  { rewrite E1, fmap_app, fmap_cons, list_lookup_middle; [done|]. by rewrite length_fmap. }
  rewrite Hp. apply wpx_ret. wp_step. apply Forall_app in H1 as [HP1 HP2]. apply Forall_cons in HP2 as [Hps HP2].
  destruct (it_seek_spec _ _ _ key Hps Hk) as (i' & Hseek & Hrep). eapply wp_call; [done|]. cbn beta iota.
  unfold set_pending. wp_step. wp_step. set (p' := mkSource i' (sr_all p) (from_key key (sr_all p))).
  replace (S (length P1)) with (length (P1 ++ [p'])) by (rewrite length_app; cbn; lia).
  wp_use (IH _ (P1 ++ [p']) P2); [|done|].
  - split; cbn [mi_pending_iters mi_next_queue mi_exhausted_iters]; try done.
    + rewrite E1, !fmap_app, fmap_cons. rewrite <- (Nat.add_0_r (length P1)), <- (length_fmap sr_iter P1).
      rewrite insert_app_r. cbn. by rewrite <- (assoc_L (++)).
    + rewrite <- (assoc_L (++)). apply Forall_app. split; [done|]. by constructor.
  - intros res m' (-> & P3 & Hm' & Ea & Er). split; [done|]. exists (p' :: P3). rewrite <- (assoc_L (++)) in Hm'.
    split_and!; [done|cbn; by rewrite Ea|cbn; by rewrite Er].
Qed.

Lemma merge_seek_ok m alls rem key :
  merge_inv m alls rem → kc_key key →
  twp (merge_seek key) (λ res m', res = inr tt ∧ merge_inv m' alls (concat (from_key key <$> alls))) m.
Proof.
  intros (P & Q & X & Hm & Ha & _) Hk. unfold merge_seek. wp_step. wp_step. wp_step. unfold id.
  wp_use unqueue_ok; [done|rewrite (mg_queue _ _ _ _ Hm), length_fmap; lia|]. intros [] m1 (P1 & Hm1 & Ho1). wp_step.
  wp_use unexhaust_ok; [done|rewrite (mg_exhausted _ _ _ _ Hm), length_fmap; lia|]. intros [] m2 (P2 & Hm2 & Ho2).
  wp_step. wp_step. wp_use (seek_pending_ok key _ m2 [] P2); [done|done|by rewrite (mg_pending _ _ _ _ Hm2), length_fmap|].
  intros res m3 (-> & P3 & Hm3 & Ea & Er). split; [done|]. exists P3, [], []. split; [done|].
  assert (alls ≡ₚ sr_all <$> P2) as Halls by (rewrite Ha, <- Ho1, <- Ho2; unfold over; by rewrite app_nil_r).
  unfold over, left_over. cbn. rewrite !app_nil_r, Ea, Er. by rewrite Halls.
Qed.

(** ** The promise of a merge *)

Definition merge_rep (m : MergeIterator I) (all rest : list KeyValueEntry) : Prop :=
  entries_ok all ∧ rest `suffix_of` all ∧
  ∃ alls, concat alls ≡ₚ all ∧ merge_inv m alls rest.

Lemma entry_lt_irrefl e : ¬ entry_lt e e.
Proof. intros H. by apply H. Qed.

Lemma smallest_head e e' (rest rem : list KeyValueEntry) :
  entries_ok (e :: rest) → e :: rest ≡ₚ e' :: rem → Forall (λ x, kc_le e'.1 x.1) rem → e' = e ∧ rest ≡ₚ rem.
Proof.
  intros [_ Hs] Hp Hmin. apply StronglySorted_cons in Hs as [Hlt _]. rewrite Forall_forall in Hlt, Hmin.
  assert (e' ∈ e :: rest) as [->|Hin]%elem_of_cons by (rewrite Hp; by left).
  { split; [done|]. by eapply Permutation_cons_inv. }
  exfalso. apply (Hlt e' Hin). assert (e ∈ e' :: rem) as [->|He]%elem_of_cons by (rewrite <- Hp; by left); [done|auto].
Qed.

Lemma from_key_suffix key all : entries_ok all → from_key key all `suffix_of` all.
Proof.
  intros [_ Hs]. destruct (sorted_split _ (λ e, ¬ kc_le key e.1) all Hs) as (l1 & l2 & -> & H1 & H2).
  { intros x y Hxy Hy Hx. apply Hy. etrans; [exact Hx|by apply entry_lt_le]. }
  exists l1. unfold from_key. rewrite filter_app, filter_none, filter_true; [done| |done].
  eapply Forall_impl; [exact H2|]. intros x Hx. by apply dec_stable.
Qed.

Lemma concat_from_key key alls : concat (from_key key <$> alls) = from_key key (concat alls).
Proof. induction alls as [|l alls IH]; [done|]. cbn. rewrite IH. unfold from_key. by rewrite filter_app. Qed.

#[export] Instance merge_laws : @IterableLaws (MergeIterator I) (merge_iterable c).
Proof.
  refine (@Build_IterableLaws _ (merge_iterable c) merge_rep _ _ _).
  - intros m all rest (? & ? & _). done.
  - intros m all rest (Hok & Hsuf & alls & Hall & Hinv).
    pose proof (merge_next_ok m alls rest Hinv) as Hw. unfold wpx in Hw. cbn [it_next merge_iterable].
    destruct (merge_next c m) as [[[e|[e|]] m']| |]; try done.
    + destruct Hw as (rem' & Hp & Hmin & Hinv'). destruct rest as [|e0 rest]; [by apply Permutation_nil_l in Hp|].
      destruct (smallest_head e0 e rest rem' (entries_suffix _ _ Hok Hsuf) Hp Hmin) as [-> Hr].
      exists m'. split; [done|]. split_and!; [done|by eapply suffix_cons_l|]. exists alls. split; [done|].
      destruct Hinv' as (P & Q & X & ? & ? & Hl). exists P, Q, X. by rewrite <- Hl.
    + destruct Hw as [-> Hinv']. exists m'. split; [done|]. split_and!; [done|done|]. by exists alls.
  - intros m all rest key (Hok & Hsuf & alls & Hall & Hinv) Hk.
    pose proof (merge_seek_ok m alls rest key Hinv Hk) as Hw. unfold wpx in Hw. cbn [it_seek merge_iterable].
    destruct (merge_seek key m) as [[res m']| |]; try done. destruct Hw as (-> & P & Q & X & Hm & Ha & Hl).
    exists m'. split; [done|]. split_and!; [done|by apply from_key_suffix|]. exists alls. split; [done|].
    exists P, Q, X. split_and!; [done|done|]. rewrite <- Hl, concat_from_key. unfold from_key. by rewrite Hall.
Defined.

Lemma merge_new_rep iters (sources : list Source) all :
  iters = sr_iter <$> sources → Forall source_ok sources → Forall (λ s, sr_rest s = sr_all s) sources →
  entries_ok all → concat (sr_all <$> sources) ≡ₚ all → merge_rep (MergeIterator_new iters) all all.
Proof.
  intros -> Hs Hr Hok Hall. split_and!; [done|done|]. exists (sr_all <$> sources). split; [done|].
  exists sources, [], []. split_and!.
  - by split.
  - unfold over. cbn. by rewrite app_nil_r.
  - unfold left_over. cbn. rewrite app_nil_r, <- Hall. f_equiv. clear -Hr.
    induction Hr as [|s sources E _ IH]; [done|]. cbn. by rewrite E, IH.
Qed.
End Merge.

(** All entries that an iterator returns. *)
Fixpoint it_collect {I} `{!Iterable I} (fuel : nat) : M I (Result (list KeyValueEntry)) :=
  match fuel with
  | O => out_of_fuel
  | S fuel =>
    try! e := it_next in
    match e with
    | None => ret (inr [])
    | Some e => try! es := it_collect fuel in ret (inr (e :: es))
    end
  end.

Lemma it_collect_ok {I} `{!Iterable I, !IterableLaws I} fuel (i : I) all rest :
  it_rep i all rest → (length rest < fuel)%nat → ∃ i', it_collect fuel i = Done (inr rest, i') ∧ it_rep i' all [].
Proof.
  revert i rest. induction fuel as [|fuel IH]; intros i rest Hrep Hfuel; [lia|]. cbn [it_collect]. unfold try_bind, bind.
  destruct (it_next_spec _ _ _ Hrep) as (i1 & -> & Hrep1). destruct rest as [|e rest]; cbn [head tail] in *; [by exists i1|].
  cbn in Hfuel. destruct (IH i1 rest Hrep1 ltac:(lia)) as (i2 & -> & Hrep2). by exists i2.
Qed.
End Laws.
