(* ===== verification/Snapshot.v ===== *)
(** * Snapshots

    [Snapshot] and [SnapshotIterator] of src/pkg/sstable/src/db/snapshot.rs: a
    merge of the memtables and of the tables on disk, of which the newest
    version of a key up to a sequence number is returned. The iterators over
    tables on disk are any [Iterable]; a memtable does not change while an
    iterator over it runs. *)

From S2P Require Import Prelude Wire Encoding Comparator SkipList RecordLog WriteBatch.
From S2P Require Import BinaryHeap MergeIterator.

(** ** Iterators over memtables *)

(** [SkipListMemtableIterator] with the table it points into. *)
Record MemTableIterator := mkMemTableIterator {
  mti_table : Store;
  mti_current_node : option nat;
}.

Section MemTableIterator.
Context (comparator : KeyComparator).

Definition mem_next : M MemTableIterator (Result (option KeyValueEntry)) := λ it,
  match iter_next (mti_current_node it) (mti_table it) with
  | Done ((e, current), _) => Done (inr e, mkMemTableIterator (mti_table it) current)
  | Panicked => Panicked
  | OutOfFuel => OutOfFuel
  end.

Definition mem_seek (key : bytes) : M MemTableIterator (Result unit) := λ it,
  match iter_seek comparator key (mti_table it) with
  | Done (current, _) => Done (inr tt, mkMemTableIterator (mti_table it) current)
  | Panicked => Panicked
  | OutOfFuel => OutOfFuel
  end.

Definition mem_iterable : Iterable MemTableIterator := {| it_next := mem_next; it_seek := mem_seek |}.

(** [MemTable::iter] *)
Definition MemTable_iter {S} (t : MemTable) : M S MemTableIterator := λ s,
  match iter (mt_table t) with
  | Done (current, _) => Done (mkMemTableIterator (mt_table t) current, s)
  | Panicked => Panicked
  | OutOfFuel => OutOfFuel
  end.
End MemTableIterator.

(** Two kinds of boxed iterators. *)
Section Sum.
Context {I J : Type} (HI : Iterable I) (HJ : Iterable J).

Definition on_inl {A} (m : M I A) (i : I) : run (A * (I + J)) :=
  match m i with Done (a, i') => Done (a, inl i') | Panicked => Panicked | OutOfFuel => OutOfFuel end.
Definition on_inr {A} (m : M J A) (j : J) : run (A * (I + J)) :=
  match m j with Done (a, j') => Done (a, inr j') | Panicked => Panicked | OutOfFuel => OutOfFuel end.

Definition sum_iterable : Iterable (I + J) := {|
  it_next := λ x, match x with inl i => on_inl it_next i | inr j => on_inr it_next j end;
  it_seek := λ key x, match x with inl i => on_inl (it_seek key) i | inr j => on_inr (it_seek key) j end;
|}.
End Sum.

(** ** Iterating over versions *)

Record SnapshotIteratorOptions := mkSnapshotIteratorOptions {
  so_return_all_versions : bool;
  so_last_sequence : option Z;
  so_first_sequence : option Z;
}.

(** [SnapshotIteratorOptions::default()] *)
Definition default_options : SnapshotIteratorOptions := mkSnapshotIteratorOptions false None None.

Record SnapshotKeyValueEntry := mkSnapshotKeyValueEntry {
  se_key : bytes;
  se_value : option bytes;
  se_sequence : Z;
}.

Section SnapshotIterator.
Context {I : Type} `{!Iterable I}.

Record SnapshotIterator := mkSnapshotIterator {
  si_options : SnapshotIteratorOptions;
  si_inner : I;
  si_last_user_key : option bytes;
}.

Definition on_inner {A} (m : M I A) : M SnapshotIterator A := λ s,
  match m (si_inner s) with
  | Done (a, inner) => Done (a, mkSnapshotIterator (si_options s) inner (si_last_user_key s))
  | Panicked => Panicked
  | OutOfFuel => OutOfFuel
  end.

Definition set_last_user_key (k : option bytes) : M SnapshotIterator unit :=
  modify (λ s, mkSnapshotIterator (si_options s) (si_inner s) k).

(** Whether an entry is passed over because of its sequence. *)
Definition skip_sequence (o : SnapshotIteratorOptions) (sequence : Z) : bool :=
  match so_last_sequence o with Some l => l <? sequence | None => false end ||
  match so_first_sequence o with Some f => sequence <? f | None => false end.

Definition is_deletion (t : ValueType) : bool := match t with Deletion => true | _ => false end.

(** The [while] loop of [next]. *)
Fixpoint snapshot_next (fuel : nat) : M SnapshotIterator (Result (option SnapshotKeyValueEntry)) :=
  match fuel with
  | O => out_of_fuel
  | S fuel =>
    try! entry := on_inner it_next in
    match entry with
    | None => ret (inr None)
    | Some (key, value) =>
      try! ikey := ret (InternalKey_parse key) in
      let user_key := take (length (ik_user_key ikey)) key in
      let! s := gets id in
      if skip_sequence (si_options s) (ik_sequence ikey) then snapshot_next fuel
      else if negb (so_return_all_versions (si_options s)) && bool_decide (Some user_key = si_last_user_key s)
      then snapshot_next fuel
      else
        (if so_return_all_versions (si_options s) then ret tt else set_last_user_key (Some user_key)) ;!
        let value := if is_deletion (ik_typ ikey) then None else Some value in
        ret (inr (Some (mkSnapshotKeyValueEntry user_key value (ik_sequence ikey))))
    end
  end.

Definition snapshot_seek (key : bytes) : M SnapshotIterator (Result unit) :=
  let! s := gets id in
  let inner_key :=
    match so_last_sequence (si_options s) with
    | Some last_sequence => InternalKey_before_with_sequence key last_sequence
    | None => InternalKey_before key
    end in
  try! _ := on_inner (it_seek (InternalKey_serialized inner_key)) in
  set_last_user_key None ;!
  ret (inr tt).
End SnapshotIterator.
Arguments SnapshotIterator : clear implicits.

(** ** Snapshots *)

Section Snapshot.
Context {J : Type} (HJ : Iterable J) (comparator : KeyComparator).

(** [sn_tables]: the iterators over the tables of level 0 and over the other
    levels of the version, in the order in which they are created. *)
Record Snapshot := mkSnapshot {
  sn_last_sequence : Z;
  sn_compaction_waterline : option Z;
  sn_memtables : list MemTable;
  sn_tables : list J;
}.

Abbreviation Inner := (MergeIterator (MemTableIterator + J)).

#[local] Instance part_iterable : Iterable (MemTableIterator + J) := sum_iterable (mem_iterable comparator) HJ.
#[local] Instance inner_iterable : Iterable Inner := merge_iterable comparator.

Fixpoint memtable_iters (ts : list MemTable) : M Snapshot (list (MemTableIterator + J)) :=
  match ts with
  | [] => ret []
  | t :: ts =>
    let! it := MemTable_iter t in
    let! its := memtable_iters ts in
    ret (inl it :: its)
  end.

Definition iter_with_options (options : SnapshotIteratorOptions) : M Snapshot (Result (SnapshotIterator Inner)) :=
  let! s := gets id in
  let last_sequence := default (sn_last_sequence s) (so_last_sequence options) in
  let options := mkSnapshotIteratorOptions (so_return_all_versions options) (Some last_sequence) (so_first_sequence options) in
  if sn_last_sequence s <? last_sequence then ret (inl ESequenceAfterSnapshot)
  else if last_sequence <? default 0 (sn_compaction_waterline s) then ret (inl ESequenceBelowWaterline)
  else if match so_first_sequence options with Some f => sn_last_sequence s <? f | None => false end
  then ret (inl EFirstAfterLast)
  else
    let! its := memtable_iters (sn_memtables s) in
    ret (inr (mkSnapshotIterator options (MergeIterator_new (its ++ (inr <$> sn_tables s))) None)).

(** [entry]; at most [fuel] entries are read. *)
Definition snapshot_entry (fuel : nat) (user_key : bytes) : M Snapshot (Result (option SnapshotKeyValueEntry)) :=
  try! it := iter_with_options default_options in
  let! (res, it) := call (snapshot_seek user_key) it in
  match res with
  | inl e => ret (inl e)
  | inr _ =>
    let! (res, _) := call (snapshot_next fuel) it in
    match res with
    | inl e => ret (inl e)
    | inr (Some entry) => ret (inr (if bool_decide (se_key entry = user_key) then Some entry else None))
    | inr None => ret (inr None)
    end
  end.

Definition snapshot_get (fuel : nat) (user_key : bytes) : M Snapshot (Result (option bytes)) :=
  try! entry := snapshot_entry fuel user_key in
  ret (inr match entry with Some entry => se_value entry | None => None end).
End Snapshot.
Arguments Snapshot : clear implicits.
