(* ===== verification/SnapshotProofs.v ===== *)
(** * Reading a snapshot

    Memtables are lawful iterators, and so are the two kinds together; what
    [seek] and [next] of a snapshot iterator return, for any lawful inner
    iterator. *)

From S2P Require Import Prelude Wire Encoding Comparator SkipList SkipListProofs SkipListTheorems.
From S2P Require Import RecordLog WriteBatch WriteBatchTheorems BinaryHeap MergeIterator MergeIteratorTheorems Snapshot.

(** ** Memtables *)

Section MemTable.
Context (c : KeyComparator) `{!KeyComparatorLaws c}.

Record mem_rep (it : MemTableIterator) (all rest : list KeyValueEntry) : Prop := mkMemRep {
  mr_ok : entries_ok c all;
  mr_ids : ∃ before after, skip_inv c (mti_table it) (before ++ after) quiet ∧
    all = contents (mti_table it) (before ++ after) ∧
    mti_current_node it = head after ∧ rest = contents (mti_table it) after;
}.

Lemma mem_iter_ok {S} t all (s : S) :
  represents c (mt_table t) all → entries_ok c all →
  ∃ it, MemTable_iter t s = Done (it, s) ∧ mem_rep it all all.
Proof.
  intros (ids & Hs & ->) Hok. unfold MemTable_iter.
  assert (twp iter (λ it nodes, nodes = mt_table t ∧ it = head ids) (mt_table t)) as Hw.
  { unfold iter, first_node. eapply (wp_next c _ _ _ ids quiet [] ids); [done|done|done|rewrite (sk_first _ _ _ _ Hs); unfold HEIGHT; lia|].
    by rewrite filter_true by (by apply (quiet_visible c)). }
  unfold wpx in Hw. destruct (iter (mt_table t)) as [[it nodes]| |]; [|done..]. destruct Hw as [-> ->].
  eexists. split; [done|]. split; [done|]. by exists [], ids.
Qed.

Lemma mem_next_ok it all rest :
  mem_rep it all rest → ∃ it', mem_next it = Done (inr (head rest), it') ∧ mem_rep it' all (tail rest).
Proof.
  intros [Hok (before & after & Hs & Eall & Ecur & ->)]. unfold mem_next. rewrite Ecur.
  destruct after as [|i after]; cbn [head tail contents fmap list_fmap iter_next].
  { eexists. split; [done|]. split; [done|]. by exists before, []. }
  assert (twp (iter_next (Some i)) (λ x nodes, nodes = mti_table it ∧ x = (Some (entry_at (mti_table it) i), head after)) (mti_table it)) as Hw.
  { cbn [iter_next]. wp_step. eapply (wp_next c _ _ _ (before ++ i :: after) quiet (before ++ [i]) after);
      [done|by rewrite <- (assoc_L (++))|exact (last_snoc i (0%nat :: before))| |].
    - apply (sk_height _ _ _ _ Hs). set_solver.
    - destruct (sk_valid _ _ _ _ i Hs) as [_ [n En]]; [set_solver|]. wp_step. eapply wp_node; [done|]. wp_step.
      split; [done|]. unfold entry_at. rewrite En. f_equal. rewrite filter_true; [done|].
      pose proof (quiet_visible c _ _ Hs) as Hv. by apply Forall_app in Hv as [_ [_ ?]%Forall_cons]. }
  unfold wpx in Hw. cbn [iter_next] in Hw. destruct (bind _ _ _) as [[x nodes]| |]; [|done..]. destruct Hw as [-> ->].
  eexists. split; [done|]. split; [done|]. exists (before ++ [i]), after. by rewrite <- !(assoc_L (++)).
Qed.

Lemma mem_seek_ok it all rest key :
  mem_rep it all rest → kc_key key →
  ∃ it', mem_seek c key it = Done (inr tt, it') ∧ mem_rep it' all (filter (λ e, kc_le key e.1) all).
Proof.
  intros [Hok (before & after & Hs & Eall & _ & _)] Hk. set (nodes := mti_table it) in *. set (ids := before ++ after) in *.
  destruct (key_split _ _ _ _ key Hs) as (A & B & Eids & HA & HB).
  pose proof (iter_seek_spec c nodes ids quiet A B key Hs Hk Eids HA HB) as Hw. unfold wpx in Hw. unfold mem_seek. fold nodes.
  destruct (iter_seek c key nodes) as [[cur nodes']| |]; [|done..]. destruct Hw as [-> Hcur].
  pose proof (quiet_visible c _ _ Hs) as Hv. rewrite Eids in Hv. apply Forall_app in Hv as [_ HvB].
  assert (cur = head B) as ->.
  { destruct Hcur as [->|(i & -> & Hi & Hle)]; [by rewrite filter_true|].
    apply list_elem_of_split in Hi as (B1 & B2 & ->). destruct B1 as [|b B1]; [done|]. exfalso.
    pose proof (eo_sorted _ _ Hok) as Hsort. rewrite Eall, Eids in Hsort. unfold contents in Hsort.
    rewrite fmap_app in Hsort. apply StronglySorted_app_1_r in Hsort. cbn in Hsort. apply StronglySorted_cons in Hsort as [Hb _].
    apply Forall_cons in HB as [HB _]. rewrite Forall_forall in Hb. apply (Hb (entry_at nodes i)).
    - apply list_elem_of_fmap. exists i. split; [done|set_solver].
    - rewrite <- !key_entry. by etrans. }
  eexists. split; [done|]. split; [done|]. exists A, B. fold nodes. rewrite <- Eids. split_and!; [done|done|done|].
  rewrite Eall, <- contents_filter, Eids, filter_app, filter_none, filter_true by done. done.
Qed.

Definition mem_laws : @IterableLaws c _ MemTableIterator (mem_iterable c).
Proof.
  refine (@Build_IterableLaws _ _ _ (mem_iterable c) mem_rep _ _ _).
  - intros it all rest [Hok (before & after & _ & -> & _ & ->)]. split; [done|]. unfold contents. rewrite fmap_app. by eexists.
  - intros it all rest Hr. by apply mem_next_ok.
  - intros it all rest key Hr Hk. by eapply mem_seek_ok.
Defined.
End MemTable.

(** ** Two kinds of iterators *)

Section Sum.
Context (c : KeyComparator) `{!KeyComparatorLaws c}.
Context {I J : Type} (HI : Iterable I) (HJ : Iterable J) (LI : IterableLaws c I) (LJ : IterableLaws c J).

Definition sum_rep (x : I + J) (all rest : list KeyValueEntry) : Prop :=
  match x with inl i => it_rep c i all rest | inr j => it_rep c j all rest end.

Definition sum_laws : @IterableLaws c _ (I + J) (sum_iterable HI HJ).
Proof.
  refine (@Build_IterableLaws _ _ _ (sum_iterable HI HJ) sum_rep _ _ _).
  - intros [i|j] all rest Hr; exact (it_rep_ok c _ _ _ Hr).
  - intros [i|j] all rest Hr; destruct (it_next_spec c _ _ _ Hr) as (x & E & Hx); eexists; cbn; unfold on_inl, on_inr;
      rewrite E; (split; [done|exact Hx]).
  - intros [i|j] all rest key Hr Hk; destruct (it_seek_spec c _ _ _ key Hr Hk) as (x & E & Hx); eexists; cbn; unfold on_inl, on_inr;
      rewrite E; (split; [done|exact Hx]).
Defined.
End Sum.

(** ** Versions *)

(** The entry of a snapshot for an internal entry. *)
Definition ik_type (key : bytes) : ValueType :=
  match InternalKey_parse key with inr k => ik_typ k | inl _ => Deletion end.

Definition version_of (e : KeyValueEntry) : SnapshotKeyValueEntry :=
  mkSnapshotKeyValueEntry (ik_user e.1) (if is_deletion (ik_type e.1) then None else Some e.2) (ik_seq e.1).

Section Versions.
Context (user : KeyComparator) `{!KeyComparatorLaws user} `{!AntiSymm (=) (@kc_le user _)}.
Abbreviation internal := (InternalKeyComparator user).
Context {I : Type} `{!Iterable I, !IterableLaws internal I}.

Definition up_to (s : Z) : SnapshotIteratorOptions := mkSnapshotIteratorOptions false (Some s) None.

Definition passed (s : Z) (lk : option bytes) (e : KeyValueEntry) : Prop :=
  s < ik_seq e.1 ∨ Some (ik_user e.1) = lk.

#[export] Instance passed_dec s lk e : Decision (passed s lk e).
Proof. unfold passed. apply _. Defined.

Lemma parse_entry (e : KeyValueEntry) : internal_key user e.1 →
  ∃ k, InternalKey_parse e.1 = inr k ∧ ik_typ k = ik_type e.1 ∧ ik_sequence k = ik_seq e.1 ∧
    take (length (ik_user_key k)) e.1 = ik_user e.1.
Proof.
  intros (k & E & _). exists k. split; [done|]. destruct (InternalKey_parse_parts _ _ E) as (Hl & Eu & Es).
  split_and!; [unfold ik_type; by rewrite E|done|]. rewrite Eu. unfold ik_user at 1.
  rewrite length_take, Nat.min_l by lia. done.
Qed.

(** One round of the loop of [next]. *)
Lemma snapshot_next_step s fuel it all rest :
  it_rep internal (si_inner it) all rest → si_options it = up_to s →
  ∃ i', it_rep internal i' all (tail rest) ∧
    snapshot_next (S fuel) it =
      match rest with
      | [] => Done (inr None, mkSnapshotIterator (up_to s) i' (si_last_user_key it))
      | e :: _ =>
        if decide (passed s (si_last_user_key it) e)
        then snapshot_next fuel (mkSnapshotIterator (up_to s) i' (si_last_user_key it))
        else Done (inr (Some (version_of e)), mkSnapshotIterator (up_to s) i' (Some (ik_user e.1)))
      end.
Proof.
  intros Hrep Ho. destruct (it_next_spec _ _ _ _ Hrep) as (i' & Hnext & Hrep'). exists i'. split; [done|].
  cbn [snapshot_next]. unfold try_bind, bind. unfold on_inner at 1. rewrite Hnext, Ho.
  destruct rest as [|[key value] rest]; cbn [head]; [done|].
  destruct (it_rep_ok _ _ _ _ Hrep) as [Hok Hsuf]. pose proof (entries_suffix _ _ _ Hok Hsuf) as [Hk _].
  apply Forall_cons in Hk as [Hk _]. destruct (parse_entry (key, value) Hk) as (k & Ek & Et & Es & Eu). cbn [fst] in *.
  unfold ret at 1. rewrite Ek. unfold gets, id. cbn beta iota. rewrite Es, Eu. cbn [si_options si_last_user_key].
  unfold skip_sequence. cbn [up_to so_last_sequence so_first_sequence so_return_all_versions negb andb]. rewrite orb_false_r.
  destruct (decide (passed _ _ _)) as [Hp|Hp]; unfold passed in Hp; cbn [fst] in Hp.
  - destruct (s <? ik_seq key) eqn:E1; b2p; [done|]. rewrite bool_decide_eq_true_2; [done|]. by destruct Hp; [lia|].
  - rewrite (proj2 (Z.ltb_ge _ _)) by (apply Z.nlt_ge; tauto). rewrite bool_decide_eq_false_2 by tauto.
    unfold set_last_user_key, modify, version_of, ret. cbn. by rewrite Et.
Qed.

(** The next version: entries that are passed over, then one that is not. *)
Lemma snapshot_next_ok s fuel it all rest :
  it_rep internal (si_inner it) all rest → si_options it = up_to s → (length rest < fuel)%nat →
  ∃ it' skipped, si_options it' = up_to s ∧ Forall (passed s (si_last_user_key it)) skipped ∧
    ((rest = skipped ∧ snapshot_next fuel it = Done (inr None, it')) ∨
     ∃ e rest', rest = skipped ++ e :: rest' ∧ ¬ passed s (si_last_user_key it) e ∧
       it_rep internal (si_inner it') all rest' ∧ si_last_user_key it' = Some (ik_user e.1) ∧
       snapshot_next fuel it = Done (inr (Some (version_of e)), it')).
Proof.
  revert it rest. induction fuel as [|fuel IH]; intros it rest Hrep Ho Hfuel; [lia|].
  destruct (snapshot_next_step s fuel it all rest Hrep Ho) as (i' & Hrep' & ->).
  destruct rest as [|e rest]; cbn [tail] in Hrep'; [exists (mkSnapshotIterator (up_to s) i' (si_last_user_key it)), []; split_and!; [done|done|by left]|].
  destruct (decide _) as [Hp|Hp].
  2:{ exists (mkSnapshotIterator (up_to s) i' (Some (ik_user e.1))), []. split_and!; [done|done|]. right. by exists e, rest. }
  set (it1 := mkSnapshotIterator (up_to s) i' (si_last_user_key it)). cbn in Hfuel.
  destruct (IH it1 rest Hrep' eq_refl ltac:(lia)) as (it' & skipped & Ho' & Hs & Hres).
  exists it', (e :: skipped). split_and!; [done|by constructor|].
  destruct Hres as [[-> Hrun]|(e' & rest' & -> & Hne & Hr & Hl & Hrun)]; [left|right; exists e', rest']; done.
Qed.

Lemma snapshot_seek_ok s it all rest key :
  it_rep internal (si_inner it) all rest → si_options it = up_to s → 0 ≤ s ≤ MAX_SEQUENCE → kc_key key →
  ∃ i', snapshot_seek key it = Done (inr tt, mkSnapshotIterator (up_to s) i' None) ∧
    it_rep internal i' all
      (filter (λ e, kc_le key (ik_user e.1) ∧ (kc_le (ik_user e.1) key → ik_seq e.1 ≤ s)) all).
Proof.
  intros Hrep Ho Hs Hk. set (sk := InternalKey_before_with_sequence key s).
  assert (internal_key user (InternalKey_serialized sk)) as Hsk by (by apply serialized_key).
  destruct (it_seek_spec internal _ _ _ (InternalKey_serialized sk) Hrep Hsk) as (i' & Hseek & Hrep'). exists i'. split.
  - unfold snapshot_seek, bind, gets, id. rewrite Ho. cbn [up_to so_last_sequence]. fold sk.
    unfold try_bind, bind, on_inner. rewrite Hseek. unfold set_last_user_key, modify, ret. cbn. by rewrite Ho.
  - destruct (serialized_parts sk Hs) as [Eu Eq]. 
    rewrite (filter_ext_in _ (λ e : KeyValueEntry, internal_le user (InternalKey_serialized sk) e.1)); [exact Hrep'|].
    intros e _. unfold internal_le. rewrite Eu, Eq. done.
Qed.

(** The versions of a key up to a sequence. *)
Definition matching (key : bytes) (s : Z) (e : KeyValueEntry) : Prop := ik_user e.1 = key ∧ ik_seq e.1 ≤ s.

#[export] Instance matching_dec key s e : Decision (matching key s e).
Proof. unfold matching. apply _. Defined.

Lemma entry_lt_user a b : entry_lt internal a b → kc_le (ik_user a.1) (ik_user b.1).
Proof. intros H. apply entry_lt_le in H as [H _]. done. Qed.

(** The first entry from the sought key on that is not too new. *)
Lemma seek_first s key all skipped e rest :
  entries_ok internal all →
  filter (λ e, kc_le key (ik_user e.1) ∧ (kc_le (ik_user e.1) key → ik_seq e.1 ≤ s)) all = skipped ++ e :: rest →
  Forall (λ x, s < ik_seq x.1) skipped → ik_seq e.1 ≤ s →
  head (filter (matching key s) all) = if decide (ik_user e.1 = key) then Some e else None.
Proof.
  intros [_ Hsort] Hf Hsk He.
  rewrite <- (filter_filter_impl (matching key s) (λ e, kc_le key (ik_user e.1) ∧ (kc_le (ik_user e.1) key → ik_seq e.1 ≤ s)) all).
  2:{ intros x [<- Hx]. done. }
  rewrite Hf. rewrite head_filter_app.
  2:{ eapply Forall_impl; [exact Hsk|]. cbn. intros x Hx [_ Hle]. lia. }
  destruct (decide (ik_user e.1 = key)) as [Eu|Hne]; [by rewrite filter_cons_True|].
  rewrite filter_cons_False by (by intros [? _]). apply head_filter_none, Forall_forall. intros x Hx [Ex _].
  assert (StronglySorted (entry_lt internal) (skipped ++ e :: rest)) as Hs by (rewrite <- Hf; by apply sorted_filter).
  apply StronglySorted_app_1_r, StronglySorted_cons in Hs as [Hlt _]. rewrite Forall_forall in Hlt.
  apply Hne. apply (anti_symm kc_le).
  - rewrite <- Ex. apply entry_lt_user. auto.
  - assert (e ∈ skipped ++ e :: rest) as Hin by set_solver. rewrite <- Hf in Hin.
    apply list_elem_of_filter in Hin as [[? _] _]. done.
Qed.

(** [seek] and [next]: the newest version of the key up to [s]. *)
Lemma seek_next_ok s fuel it all rest key :
  it_rep internal (si_inner it) all rest → si_options it = up_to s → 0 ≤ s ≤ MAX_SEQUENCE → kc_key key →
  (length all < fuel)%nat →
  ∃ it1 it2 res, snapshot_seek key it = Done (inr tt, it1) ∧ snapshot_next fuel it1 = Done (inr res, it2) ∧
    match res with Some v => if bool_decide (se_key v = key) then Some v else None | None => None end =
      version_of <$> head (filter (matching key s) all).
Proof.
  intros Hrep Ho Hs Hk Hfuel. destruct (it_rep_ok _ _ _ _ Hrep) as [Hok _].
  destruct (snapshot_seek_ok s it all rest key Hrep Ho Hs Hk) as (i' & Hseek & Hrep').
  set (rest0 := filter _ all) in Hrep'. set (it1 := mkSnapshotIterator (up_to s) i' None).
  destruct (snapshot_next_ok s fuel it1 all rest0 Hrep' eq_refl) as (it2 & skipped & _ & Hsk & Hres).
  { unfold rest0. pose proof (length_filter (λ e, kc_le key (ik_user e.1) ∧ (kc_le (ik_user e.1) key → ik_seq e.1 ≤ s)) all). lia. }
  assert (Forall (λ x, s < ik_seq x.1) skipped) as Hsk'.
  { eapply Forall_impl; [exact Hsk|]. intros x [?|?]; done. }
  exists it1, it2. destruct Hres as [[E Hrun]|(e & rest' & E & Hp & _ & _ & Hrun)].
  - exists None. split_and!; [done|done|].
    assert (filter (matching key s) all = []) as ->; [|done].
    rewrite <- (filter_filter_impl (matching key s) (λ e, kc_le key (ik_user e.1) ∧ (kc_le (ik_user e.1) key → ik_seq e.1 ≤ s)) all).
    2:{ intros x [<- Hx]. done. }
    fold rest0. rewrite E. apply filter_none. eapply Forall_impl; [exact Hsk'|]. cbn. intros x Hx [_ Hle]. lia.
  - exists (Some (version_of e)). split_and!; [done|done|].
    assert (ik_seq e.1 ≤ s) as He by (apply Z.nlt_ge; intros ?; apply Hp; by left).
    rewrite (seek_first s key all skipped e rest' Hok E Hsk' He). cbn.
    destruct (decide (ik_user e.1 = key)); [by rewrite bool_decide_eq_true_2|by rewrite bool_decide_eq_false_2].
Qed.

(** *** Iterating *)

(** The newest version of its key up to [s]. *)
Definition newest (s : Z) (all : list KeyValueEntry) (e : KeyValueEntry) : Prop :=
  ik_seq e.1 ≤ s ∧ Forall (λ x, matching (ik_user e.1) s x → ik_seq x.1 ≤ ik_seq e.1) all.

#[export] Instance newest_dec s all e : Decision (newest s all e).
Proof. unfold newest. apply _. Defined.

(** The last user key stands for the versions that were read. *)
Definition seen (s : Z) (lk : option bytes) (before rest : list KeyValueEntry) : Prop :=
  ∀ e, e ∈ rest → ik_seq e.1 ≤ s →
    (Some (ik_user e.1) = lk ↔ Exists (matching (ik_user e.1) s) before).

Lemma entry_lt_seq a b : entry_lt internal a b → ik_user a.1 = ik_user b.1 → ik_seq b.1 < ik_seq a.1.
Proof. intros H Eu. apply Z.nle_gt. intros Hle. apply H. split; [by rewrite Eu|done]. Qed.

(** An entry is the newest one when no version of its key comes before it. *)
Lemma newest_split s before e rest :
  StronglySorted (entry_lt internal) (before ++ e :: rest) →
  newest s (before ++ e :: rest) e ↔ ik_seq e.1 ≤ s ∧ ¬ Exists (matching (ik_user e.1) s) before.
Proof.
  intros Hs. pose proof (StronglySorted_app_1_r _ _ _ Hs) as [Hrest _]%StronglySorted_cons.
  pose proof (λ x y, StronglySorted_app_1_elem_of _ _ _ x y Hs) as Hbefore. unfold newest. split.
  - intros [He Hall]. split; [done|]. intros (x & Hx & Hm)%Exists_exists. apply Forall_app in Hall as [Hall _].
    rewrite Forall_forall in Hall. specialize (Hall x Hx Hm).
    pose proof (entry_lt_seq x e (Hbefore x e Hx ltac:(set_solver)) (proj1 Hm)). lia.
  - intros [He Hno]. split; [done|]. apply Forall_app. split; [|apply Forall_cons; split; [lia|]].
    + apply Forall_forall. intros x Hx Hm. destruct Hno. apply Exists_exists. by exists x.
    + eapply Forall_impl; [exact Hrest|]. intros x Hx [Ex _]. pose proof (entry_lt_seq e x Hx (eq_sym Ex)). lia.
Qed.

Lemma seen_passed s lk before e rest :
  seen s lk before (e :: rest) → passed s lk e →
  StronglySorted (entry_lt internal) (before ++ e :: rest) →
  ¬ newest s (before ++ e :: rest) e ∧ seen s lk (before ++ [e]) rest.
Proof.
  intros Hseen Hp Hs. split.
  - rewrite newest_split by done. intros [He Hno]. destruct Hp as [?|Hp]; [lia|].
    apply Hno, Hseen; [set_solver|done|done].
  - intros x Hx Hxs. rewrite Exists_app, (Hseen x) by (done || set_solver). rewrite Exists_cons, Exists_nil.
    split; [by left|]. intros [?|[[Eu He]|[]]]; [done|]. apply Hseen; [set_solver|done|]. rewrite <- Eu.
    destruct Hp as [?|Hp]; [lia|]. done.
Qed.

Lemma seen_read s lk before e rest :
  seen s lk before (e :: rest) → ¬ passed s lk e →
  StronglySorted (entry_lt internal) (before ++ e :: rest) →
  newest s (before ++ e :: rest) e ∧ seen s (Some (ik_user e.1)) (before ++ [e]) rest.
Proof.
  intros Hseen Hp Hs. assert (ik_seq e.1 ≤ s) as He by (apply Z.nlt_ge; intros ?; apply Hp; by left). split.
  - rewrite newest_split by done. split; [done|]. intros Hex. apply Hp. right. apply Hseen; [set_solver|done|done].
  - intros x Hx Hxs. rewrite Exists_app, Exists_cons, Exists_nil. split; [intros [= Eu]; right; left; split; [done|lia]|].
    intros [Hex|[[Eu _]|[]]]; [|by rewrite Eu]. apply Exists_exists in Hex as (y & Hy & Eu & _). f_equal.
    pose proof (StronglySorted_app_1_r _ _ _ Hs) as [Hrest _]%StronglySorted_cons. rewrite Forall_forall in Hrest.
    apply (anti_symm kc_le); [|apply entry_lt_user; auto].
    rewrite <- Eu. apply entry_lt_user, (StronglySorted_app_1_elem_of _ _ _ y e Hs); set_solver.
Qed.

Lemma seen_skip s lk before skipped rest :
  seen s lk before (skipped ++ rest) → Forall (passed s lk) skipped →
  StronglySorted (entry_lt internal) (before ++ skipped ++ rest) →
  Forall (λ e, ¬ newest s (before ++ skipped ++ rest) e) skipped ∧ seen s lk (before ++ skipped) rest.
Proof.
  intros Hseen Hp. revert before Hseen. induction Hp as [|e skipped He Hp IH]; intros before Hseen Hs.
  - by rewrite app_nil_r.
  - cbn [app] in *. destruct (seen_passed s lk before e (skipped ++ rest) Hseen He Hs) as [Hn Hseen'].
    specialize (IH (before ++ [e]) Hseen'). rewrite <- !(assoc_L (++)) in IH. cbn [app] in IH.
    destruct (IH Hs) as [H1 H2]. split; [by constructor|done].
Qed.

(** All versions that a snapshot iterator returns. *)
Fixpoint snapshot_collect (fuel n : nat) : M (SnapshotIterator I) (Result (list SnapshotKeyValueEntry)) :=
  match n with
  | O => out_of_fuel
  | S n =>
    try! v := snapshot_next fuel in
    match v with
    | None => ret (inr [])
    | Some v => try! vs := snapshot_collect fuel n in ret (inr (v :: vs))
    end
  end.

Lemma snapshot_collect_ok s fuel n it before rest :
  it_rep internal (si_inner it) (before ++ rest) rest → si_options it = up_to s →
  seen s (si_last_user_key it) before rest → (length rest < fuel)%nat → (length rest < n)%nat →
  ∃ it', snapshot_collect fuel n it = Done (inr (version_of <$> filter (newest s (before ++ rest)) rest), it').
Proof.
  revert it before rest. induction n as [|n IH]; intros it before rest Hrep Ho Hseen Hfuel Hn; [lia|].
  destruct (it_rep_ok _ _ _ _ Hrep) as [[_ Hsort] _].
  destruct (snapshot_next_ok s fuel it _ rest Hrep Ho Hfuel) as (it1 & skipped & Ho1 & Hsk & Hres).
  cbn [snapshot_collect]. unfold try_bind at 1, bind at 1.
  destruct Hres as [[E ->]|(e & rest' & E & Hp & Hrep1 & Hl & ->)].
  - subst rest. rewrite <- (app_nil_r skipped) in Hseen, Hsort.
    destruct (seen_skip _ _ _ _ _ Hseen Hsk Hsort) as [Hno _]. rewrite app_nil_r in Hno. exists it1.
    by rewrite filter_none.
  - subst rest. destruct (seen_skip _ _ _ _ _ Hseen Hsk Hsort) as [Hno Hseen1].
    set (all := before ++ skipped ++ e :: rest') in *.
    assert (all = (before ++ skipped) ++ e :: rest') as Eall by (unfold all; by rewrite <- (assoc_L (++))).
    rewrite Eall in Hsort. destruct (seen_read _ _ _ _ _ Hseen1 Hp Hsort) as [Hnew Hseen2]. rewrite <- Eall in Hnew.
    assert (all = ((before ++ skipped) ++ [e]) ++ rest') as Eall' by (rewrite Eall; by rewrite <- !(assoc_L (++))).
    rewrite Eall' in Hrep1. rewrite length_app in Hfuel, Hn. cbn in Hfuel, Hn.
    destruct (IH it1 ((before ++ skipped) ++ [e]) rest' Hrep1 Ho1) as [it' Hrun]; [by rewrite Hl|lia|lia|].
    rewrite <- Eall' in Hrun. exists it'. unfold try_bind, bind. rewrite Hrun.
    by rewrite filter_app, (filter_none _ skipped), filter_cons_True by done.
Qed.

Lemma seek_collect_ok s fuel it all rest key :
  it_rep internal (si_inner it) all rest → si_options it = up_to s → 0 ≤ s ≤ MAX_SEQUENCE → kc_key key →
  (length all < fuel)%nat →
  ∃ it1 it2, snapshot_seek key it = Done (inr tt, it1) ∧
    snapshot_collect fuel fuel it1 =
      Done (inr (version_of <$> filter (λ e, newest s all e ∧ kc_le key (ik_user e.1)) all), it2).
Proof.
  intros Hrep Ho Hs Hk Hfuel. destruct (snapshot_seek_ok s it all rest key Hrep Ho Hs Hk) as (i' & Hseek & Hrep').
  set (from := λ e : KeyValueEntry, kc_le key (ik_user e.1) ∧ (kc_le (ik_user e.1) key → ik_seq e.1 ≤ s)) in Hrep'.
  pose proof (length_filter from all) as Hlen. destruct (it_rep_ok _ _ _ _ Hrep') as [_ [before Hb]].
  assert (Forall (λ e, ¬ from e) before) as Hno.
  { assert (filter from before = []) as He.
    { pose proof (f_equal (filter from) Hb) as Hf. rewrite filter_app, filter_filter_impl in Hf by done.
      apply (f_equal length) in Hf. rewrite length_app in Hf. apply length_zero_iff_nil. lia. }
    apply Forall_forall. intros e He1 He2. apply (not_elem_of_nil e). rewrite <- He. by apply list_elem_of_filter. }
  set (it1 := mkSnapshotIterator (up_to s) i' None).
  destruct (snapshot_collect_ok s fuel fuel it1 before (filter from all)) as (it2 & Hrun).
  - by rewrite <- Hb.
  - done.
  - intros e [Hfe _]%list_elem_of_filter _. split; [done|]. intros (x & Hx & Eu & Hxs)%Exists_exists.
    rewrite Forall_forall in Hno. destruct (Hno x Hx). split; [rewrite Eu; apply Hfe|done].
  - lia.
  - lia.
  - exists it1, it2. split; [done|]. rewrite Hrun, <- Hb. do 3 f_equal. rewrite list_filter_filter. f_equal. apply filter_ext_in.
    intros e _. unfold from, newest. naive_solver.
Qed.

Lemma newest_head s all e :
  entries_ok internal all → e ∈ all → newest s all e ↔ head (filter (matching (ik_user e.1) s) all) = Some e.
Proof.
  intros [_ Hsort] He. apply list_elem_of_split in He as (before & rest & ->). rewrite newest_split by done. split.
  - intros [He Hno]. rewrite head_filter_app; [by rewrite filter_cons_True|]. by apply Forall_Exists_neg.
  - intros E. pose proof E as Hin. apply head_Some_elem_of, list_elem_of_filter in Hin as [[_ He] _]. split; [done|].
    intros (x & Hx & Hm)%Exists_exists. pose proof (StronglySorted_app_1_elem_of _ _ _ x e Hsort Hx ltac:(set_solver)) as Hlt.
    apply list_elem_of_split in Hx as (b1 & b2 & ->). rewrite <- (assoc_L (++)), filter_app in E. cbn [app] in E.
    rewrite filter_cons_True in E by done. destruct (filter _ b1) as [|y l] eqn:Ef.
    + injection E as ->. by apply Hlt.
    + injection E as ->. assert (e ∈ filter (matching (ik_user e.1) s) b1) as Hy by (rewrite Ef; set_solver).
      apply list_elem_of_filter in Hy as [_ Hy].
      apply (StronglySorted_app_1_elem_of _ _ _ e e Hsort); set_solver.
Qed.
End Versions.
