(* ===== verification/SnapshotTheorems.v ===== *)
(** * Reading a database

    A snapshot over memtables and tables returns, for a key, the newest of its
    writes up to the snapshot's sequence, and iterates over the newest versions
    of all keys in order; with the log, what was written is what is read. *)

From S2P Require Import Prelude Wire Encoding Comparator SkipList SkipListProofs SkipListTheorems.
From S2P Require Import RecordLog RecordLogProofs RecordLogTheorems WriteBatch WriteBatchTheorems.
From S2P Require Import BinaryHeap MergeIterator MergeIteratorTheorems Snapshot SnapshotProofs.

Section Snapshot.
Context (user : KeyComparator) `{!KeyComparatorLaws user} `{!AntiSymm (=) (@kc_le user _)}.
Abbreviation internal := (InternalKeyComparator user).
Context {J : Type} {HJ : Iterable J} {LJ : IterableLaws internal J}.

(** The instances of the parts of a snapshot. *)
#[local] Existing Instance mem_laws.
#[local] Existing Instance sum_laws.
#[local] Instance parts_iterable : Iterable (MemTableIterator + J) := sum_iterable (mem_iterable internal) HJ.
#[local] Instance parts_laws : IterableLaws internal (MemTableIterator + J) :=
  sum_laws internal (mem_iterable internal) HJ (mem_laws internal) LJ.
#[local] Instance snapshot_iterable : Iterable (MergeIterator (MemTableIterator + J)) := merge_iterable internal.

(** What the memtables and the tables of a snapshot hold. *)
Record snapshot_holds (s : Snapshot J) (all : list KeyValueEntry) : Prop := mkSnapshotHolds {
  sh_ok : entries_ok internal all;
  sh_sequence : 0 ≤ sn_last_sequence s ≤ MAX_SEQUENCE;
  sh_parts : ∃ mems tabs, Forall2 (λ t es, holds user t es ∧ entries_ok internal es) (sn_memtables s) mems ∧
    Forall2 (λ j es, it_rep internal j es es) (sn_tables s) tabs ∧ concat mems ++ concat tabs ≡ₚ all;
}.

Abbreviation whole := (λ s : Source, sr_rest s = sr_all s).

Lemma memtable_iters_ok (ts : list MemTable) mems (s : Snapshot J) :
  Forall2 (λ t es, holds user t es ∧ entries_ok internal es) ts mems →
  ∃ sources : list (@Source (MemTableIterator + J)),
    memtable_iters ts s = Done (sr_iter <$> sources, s) ∧ Forall (source_ok internal) sources ∧
    Forall whole sources ∧ sr_all <$> sources = mems.
Proof.
  induction 1 as [|t es ts mems [Ht Hok] _ (sources & Hrun & Hs & Hw & Ha)]; [by exists []|].
  destruct (mem_iter_ok internal t es s Ht Hok) as (it & Hit & Hrep).
  exists (mkSource (inl it) es es :: sources). cbn [memtable_iters]. unfold bind. rewrite Hit, Hrun.
  split_and!; [done|by constructor|by constructor|]. cbn. by rewrite Ha.
Qed.

Lemma table_sources (tables : list J) tabs :
  Forall2 (λ j es, it_rep internal j es es) tables tabs →
  ∃ sources : list (@Source (MemTableIterator + J)), inr <$> tables = sr_iter <$> sources ∧
    Forall (source_ok internal) sources ∧ Forall whole sources ∧ sr_all <$> sources = tabs.
Proof.
  induction 1 as [|j es tables tabs Hj _ (sources & Hrun & Hs & Hw & Ha)]; [by exists []|].
  exists (mkSource (inr j) es es :: sources). cbn. split_and!; [by rewrite Hrun|by constructor|by constructor|by rewrite Ha].
Qed.

(** The iterator over a snapshot, up to its last sequence or an earlier one. *)
Lemma iter_with_options_ok s all last :
  snapshot_holds s all → default 0 (sn_compaction_waterline s) ≤ default (sn_last_sequence s) last ≤ sn_last_sequence s →
  ∃ inner : MergeIterator (MemTableIterator + J),
    iter_with_options (mkSnapshotIteratorOptions false last None) s =
      Done (inr (mkSnapshotIterator (up_to (default (sn_last_sequence s) last)) inner None), s) ∧
    it_rep internal inner all all.
Proof.
  intros [Hok _ (mems & tabs & Hm & Ht & Hp)] Hl.
  destruct (memtable_iters_ok _ _ s Hm) as (ms & Hrun & Hms & Hmw & <-).
  destruct (table_sources _ _ Ht) as (tsrc & Htab & Hts & Htw & <-).
  exists (MergeIterator_new (sr_iter <$> (ms ++ tsrc))). split.
  - unfold iter_with_options, bind, gets. change (id s) with s. cbn [so_last_sequence so_return_all_versions so_first_sequence].
    rewrite !(proj2 (Z.ltb_ge _ _)) by lia. rewrite Hrun, Htab, <- fmap_app. done.
  - apply (merge_new_rep internal _ (ms ++ tsrc)); [done|by apply Forall_app..|done|].
    by rewrite fmap_app, concat_app.
Qed.
(** What [entry] returns: the newest version of the key. *)
Lemma snapshot_entry_ok s all key fuel :
  snapshot_holds s all → default 0 (sn_compaction_waterline s) ≤ sn_last_sequence s → kc_key key → (length all < fuel)%nat →
  snapshot_entry HJ internal fuel key s =
    Done (inr (version_of <$> head (filter (matching key (sn_last_sequence s)) all)), s).
Proof.
  intros Hs Hw Hk Hfuel. destruct (iter_with_options_ok s all None Hs ltac:(cbn; lia)) as (inner & Hit & Hrep).
  set (it := mkSnapshotIterator _ inner None) in Hit. cbn [default] in it.
  destruct (seek_next_ok user (sn_last_sequence s) fuel it all all key Hrep eq_refl (sh_sequence _ _ Hs) Hk Hfuel)
    as (it1 & it2 & res & Hseek & Hnext & Hres).
  change (@snapshot_seek _ (inner_iterable HJ internal) key it = Done (inr tt, it1)) in Hseek.
  change (@snapshot_next _ (inner_iterable HJ internal) fuel it1 = Done (inr res, it2)) in Hnext.
  unfold snapshot_entry, try_bind, bind, default_options. rewrite Hit. unfold call. rewrite Hseek, Hnext, <- Hres.
  by destruct res as [v|].
Qed.

Lemma snapshot_get_ok s all key fuel :
  snapshot_holds s all → default 0 (sn_compaction_waterline s) ≤ sn_last_sequence s → kc_key key → (length all < fuel)%nat →
  snapshot_get HJ internal fuel key s =
    Done (inr (head (filter (matching key (sn_last_sequence s)) all) ≫= λ e, se_value (version_of e)), s).
Proof.
  intros Hs Hw Hk Hfuel. unfold snapshot_get, try_bind, bind. rewrite (snapshot_entry_ok s all key fuel) by done.
  by destruct (head _).
Qed.

(** What an iterator returns after a seek: the newest versions. *)
Lemma snapshot_scan_ok s all last key fuel :
  snapshot_holds s all → kc_key key → (length all < fuel)%nat →
  let sequence := default (sn_last_sequence s) last in
  default 0 (sn_compaction_waterline s) ≤ sequence ≤ sn_last_sequence s → 0 ≤ sequence →
  ∃ it it1 it2, iter_with_options (mkSnapshotIteratorOptions false last None) s = Done (inr it, s) ∧
    @snapshot_seek _ (inner_iterable HJ internal) key it = Done (inr tt, it1) ∧
    @snapshot_collect _ (inner_iterable HJ internal) fuel fuel it1 =
      Done (inr (version_of <$> filter (λ e, newest sequence all e ∧ kc_le key (ik_user e.1)) all), it2).
Proof.
  intros Hall Hk Hfuel sequence Hseq Hpos. pose proof (sh_sequence _ _ Hall).
  destruct (iter_with_options_ok s all last Hall Hseq) as (inner & Hit & Hrep). fold sequence in Hit.
  destruct (seek_collect_ok user sequence fuel (mkSnapshotIterator (up_to sequence) inner None) all all key)
    as (it1 & it2 & Hseek & Hrun); [exact Hrep|done|lia|done|done|].
  eexists _, it1, it2. split_and!; [exact Hit|exact Hseek|exact Hrun].
Qed.
End Snapshot.

(** ** Writes *)

(** The writes of a list of batches, with their sequences. *)
Definition writes (bs : list (Z * list Write)) : list (Z * Write) := bs ≫= λ b, pair b.1 <$> b.2.
Definition entry_of (x : Z * Write) : KeyValueEntry := write_entry x.1 x.2.
Definition write_value (w : Write) : option bytes :=
  match w with WriteValue _ value => Some value | WriteDeletion _ => None end.

(** What a database should say of a key: its last write up to a sequence. *)
Definition written_version (x : Z * Write) : SnapshotKeyValueEntry :=
  mkSnapshotKeyValueEntry (write_key x.2) (write_value x.2) x.1.
Definition model_entry (key : bytes) (s : Z) (bs : list (Z * list Write)) : option SnapshotKeyValueEntry :=
  written_version <$> last (filter (λ x, write_key x.2 = key ∧ x.1 ≤ s) (writes bs)).
Definition model_get (key : bytes) (s : Z) (bs : list (Z * list Write)) : option bytes :=
  model_entry key s bs ≫= se_value.

(** What the writers of a database guarantee: batches are numbered in ascending
    order, and a batch writes a key once. *)
Record history_ok (user : KeyComparator) `{!KeyComparatorLaws user} (bs : list (Z * list Write)) : Prop := mkHistoryOk {
  ho_batches : Forall (batch_ok user) bs;
  ho_sequences : StronglySorted (λ a b, a.1 < b.1) bs;
  ho_distinct : Forall (λ b, NoDup (write_key <$> b.2)) bs;
}.

Lemma elem_of_writes x bs : x ∈ writes bs ↔ ∃ b, b ∈ bs ∧ x.1 = b.1 ∧ x.2 ∈ b.2.
Proof.
  unfold writes. rewrite list_elem_of_bind. split.
  - intros (b & (w & -> & Hw)%list_elem_of_fmap & Hb). by exists b.
  - intros (b & Hb & E & Hw). exists b. split; [|done]. destruct x as [s w]. cbn in *. subst s.
    by apply list_elem_of_fmap_2.
Qed.

Lemma writes_sorted bs : StronglySorted (λ a b, a.1 < b.1) bs → StronglySorted (λ a b, a.1 ≤ b.1) (writes bs).
Proof.
  induction 1 as [|b bs _ IH Hb]; [constructor|]. unfold writes. cbn. apply StronglySorted_app_2; [| |done].
  - intros x y (w & -> & _)%list_elem_of_fmap (b' & Hb' & -> & _)%elem_of_writes. rewrite Forall_forall in Hb.
    specialize (Hb b' Hb'). cbn. lia.
  - clear. induction b.2 as [|w ws IH]; cbn; constructor; [done|]. apply Forall_fmap, Forall_forall. intros. cbn. lia.
Qed.

Definition write_version (x : Z * Write) : bytes * Z := (write_key x.2, x.1).

Lemma writes_distinct bs :
  StronglySorted (λ a b, a.1 < b.1) bs → Forall (λ b, NoDup (write_key <$> b.2)) bs → NoDup (write_version <$> writes bs).
Proof.
  induction 1 as [|b bs _ IH Hb]; [constructor|]. intros [Hd Hds]%Forall_cons. unfold writes. cbn. rewrite fmap_app.
  apply NoDup_app. split_and!; [| |by apply IH].
  - rewrite <- list_fmap_compose. change (write_version ∘ pair b.1) with ((λ k, (k, b.1)) ∘ write_key).
    rewrite list_fmap_compose. apply NoDup_fmap; [intros x y [= ->]; done|done].
  - intros v (x & -> & (w & -> & _)%list_elem_of_fmap)%list_elem_of_fmap (y & E & (b' & Hb' & Ey & _)%elem_of_writes)%list_elem_of_fmap.
    rewrite Forall_forall in Hb. specialize (Hb b' Hb'). injection E as _ E. cbn in E. lia.
Qed.

Section Entries.
Context (user : KeyComparator) `{!KeyComparatorLaws user} `{!AntiSymm (=) (@kc_le user _)}.
Abbreviation internal := (InternalKeyComparator user).

Definition ordered (a b : KeyValueEntry) : Prop := internal_le user a.1 b.1.

(** The version of an entry: its user key and its sequence. *)
Definition entry_version (e : KeyValueEntry) : bytes * Z := (ik_user e.1, ik_seq e.1).

Lemma entry_of_version x : 0 ≤ x.1 ≤ MAX_SEQUENCE → entry_version (entry_of x) = write_version x.
Proof.
  intros Hs. unfold entry_version, entry_of, write_version. destruct x as [s [key value|key]]; cbn [fst snd write_entry write_key] in *;
    f_equal; apply serialized_parts; done.
Qed.

Lemma entry_of_written x : 0 ≤ x.1 ≤ MAX_SEQUENCE → version_of (entry_of x) = written_version x.
Proof.
  intros Hs. pose proof (entry_of_version x Hs) as [= E1 E2]. unfold version_of, written_version. rewrite E1, E2. f_equal.
  unfold ik_type, entry_of. destruct x as [s [key value|key]]; cbn [fst snd write_entry write_value] in *;
    by rewrite InternalKey_parse_serialized.
Qed.

Lemma same_version a b : ordered a b → ¬ entry_lt internal a b → entry_version a = entry_version b.
Proof.
  intros Hab Hba. unfold entry_lt in Hba. apply dec_stable in Hba. destruct Hab as [H1 S1], Hba as [H2 S2].
  unfold entry_version. f_equal; [by apply (anti_symm kc_le)|]. specialize (S1 H2). specialize (S2 H1). lia.
Qed.

Lemma ordered_insert_sorted e es :
  StronglySorted ordered es →
  StronglySorted ordered (ordered_insert internal e es).
Proof.
  induction 1 as [|x es Hs IH Hx]; [repeat constructor|]. cbn [ordered_insert]. destruct (decide _) as [Hle|Hgt].
  - constructor; [done|]. rewrite ordered_insert_perm. by constructor.
  - assert (ordered e x) as Hex by (destruct (internal_le_total user e.1 x.1); [done|by destruct Hgt]).
    constructor; [by constructor|]. constructor; [done|]. eapply Forall_impl; [exact Hx|]. intros y Hy. unfold ordered in *. by etrans.
Qed.

Lemma apply_writes_ok sequence ws es :
  StronglySorted ordered es →
  StronglySorted ordered (apply_writes user sequence ws es) ∧
  apply_writes user sequence ws es ≡ₚ (entry_of <$> (pair sequence <$> ws)) ++ es.
Proof.
  unfold apply_writes. revert es. induction ws as [|w ws IH]; intros es Hs; [done|]. cbn [foldl].
  destruct (IH (ordered_insert internal (write_entry sequence w) es) (ordered_insert_sorted _ _ Hs)) as [H1 H2].
  split; [done|]. rewrite H2, ordered_insert_perm. cbn. unfold entry_of at 2. cbn. by rewrite Permutation_middle.
Qed.

Lemma apply_batches_ok bs es :
  StronglySorted ordered es →
  StronglySorted ordered (apply_batches user bs es) ∧
  apply_batches user bs es ≡ₚ (entry_of <$> writes bs) ++ es.
Proof.
  unfold apply_batches. revert es. induction bs as [|b bs IH]; intros es Hs; [done|]. cbn [foldl].
  destruct (apply_writes_ok b.1 b.2 es Hs) as [S1 P1]. destruct (IH _ S1) as [S2 P2]. split; [done|].
  rewrite P2, P1. unfold writes. cbn. rewrite fmap_app, <- (assoc_L (++)).
  rewrite (assoc (++)), (comm (++) (entry_of <$> _)). by rewrite <- (assoc_L (++)).
Qed.

Abbreviation distinct bs := (NoDup (write_version <$> writes bs)).

Lemma batch_writes bs x : Forall (batch_ok user) bs → x ∈ writes bs → 0 ≤ x.1 ≤ MAX_SEQUENCE ∧ kc_key (write_key x.2).
Proof.
  intros Hok (b & Hb & -> & Hx)%elem_of_writes. rewrite Forall_forall in Hok. destruct (Hok b Hb) as [Hs _ _ Hk].
  split; [done|]. rewrite Forall_forall in Hk. auto.
Qed.

Lemma entry_versions bs : Forall (batch_ok user) bs → entry_version <$> (entry_of <$> writes bs) = write_version <$> writes bs.
Proof.
  intros Hok. rewrite <- list_fmap_compose. apply list_fmap_ext. intros i x Hx%list_elem_of_lookup_2.
  apply entry_of_version. by eapply batch_writes.
Qed.

(** Batches with distinct versions give a table with distinct keys. *)
Lemma apply_batches_entries bs :
  Forall (batch_ok user) bs → distinct bs →
  entries_ok internal (apply_batches user bs []) ∧ apply_batches user bs [] ≡ₚ entry_of <$> writes bs.
Proof.
  intros Hok Hd. destruct (apply_batches_ok bs [] ltac:(constructor)) as [Hs Hp]. rewrite app_nil_r in Hp.
  split; [|done]. split.
  - rewrite Hp. apply Forall_fmap, Forall_forall. intros x Hx. destruct (batch_writes _ _ Hok Hx) as [H1 H2].
    destruct x as [q [k v|k]]; by apply serialized_key.
  - rewrite <- entry_versions, <- Hp in Hd by done. eapply sorted_impl_in, (sorted_nodup _ _ _ Hs Hd).
    intros a b _ _ [Hab Hne]. apply dec_stable. intros Hnlt. apply Hne. by apply same_version.
Qed.

(** The newest version of a key is its last write. *)
Lemma newest_write bs all key s :
  history_ok user bs → entries_ok internal all → all ≡ₚ entry_of <$> writes bs →
  head (filter (matching key s) all) = entry_of <$> last (filter (λ x, write_key x.2 = key ∧ x.1 ≤ s) (writes bs)).
Proof.
  intros [Hok Hs Hd] [_ Hsort] Hp. rewrite <- fmap_last.
  set (mine := filter (λ x : Z * Write, write_key x.2 = key ∧ x.1 ≤ s) (writes bs)).
  assert (∀ x, x ∈ mine → 0 ≤ x.1 ≤ MAX_SEQUENCE ∧ entry_version (entry_of x) = (key, x.1)) as Hmine.
  { intros x [[<- _] Hx]%list_elem_of_filter. destruct (batch_writes _ _ Hok Hx) as [Hr _]. by rewrite entry_of_version. }
  apply (head_last (λ e, ik_seq e.1)).
  - unfold mine. rewrite Hp, filter_fmap. f_equiv. erewrite filter_ext_in; [done|]. intros x Hx. unfold matching. cbn.
    destruct (batch_writes _ _ Hok Hx) as [Hr _]. pose proof (entry_of_version x Hr) as [= -> ->]. done.
  - eapply sorted_impl_in, sorted_filter, Hsort.
    intros a b [[Ea _] _]%list_elem_of_filter [[Eb _] _]%list_elem_of_filter Hab.
    apply (entry_lt_seq user); [done|congruence].
  - apply (StronglySorted_fmap entry_of (λ a b : Z * Write, ik_seq (entry_of a).1 < ik_seq (entry_of b).1)); [done|].
    pose proof (sorted_nodup _ _ _ (writes_sorted _ Hs) (writes_distinct _ Hs Hd)) as Hw.
    eapply sorted_impl_in, sorted_filter, Hw. intros a b Ha Hb [Hle Hne].
    destruct (Hmine a Ha) as [_ [= _ ->]], (Hmine b Hb) as [_ [= _ ->]].
    apply list_elem_of_filter in Ha as [[Ka _] _], Hb as [[Kb _] _]. unfold write_version in Hne.
    assert (a.1 ≠ b.1) by congruence. lia.
Qed.

Lemma newest_entry bs all key s :
  history_ok user bs → entries_ok internal all → all ≡ₚ entry_of <$> writes bs →
  version_of <$> head (filter (matching key s) all) = model_entry key s bs.
Proof.
  intros Hh Hok Hp. rewrite (newest_write bs) by done. unfold model_entry.
  destruct (last _) as [x|] eqn:E; [|done]. cbn. f_equal. apply entry_of_written.
  apply last_Some_elem_of, list_elem_of_filter in E as [_ Hx]. by eapply batch_writes; [apply Hh|].
Qed.

(** *** Writing batches *)

(** The batches of a memtable, as they are applied one after the other. *)
Definition write_all (bs : list (Z * list Write)) : M MemTable unit :=
  for_each bs (λ b, let! _ := apply_record internal (batch_record b) in ret tt).

Lemma write_all_ok bs t es :
  Forall (batch_ok user) bs → holds user t es →
  ∃ t', write_all bs t = Done (tt, t') ∧ holds user t' (apply_batches user bs es).
Proof.
  unfold write_all. intros Hok. revert t es. induction Hok as [|b bs Hb _ IH]; intros t es Ht; cbn [for_each]; [by exists t|].
  destruct (apply_record_ok user b t es Hb Ht) as (t1 & E1 & Ht1). unfold bind at 1. unfold bind at 1, batch_record. rewrite E1.
  by apply IH.
Qed.

Lemma writes_concat (parts : list (list (Z * list Write))) : writes (concat parts) = concat (writes <$> parts).
Proof. induction parts as [|p parts IH]; [done|]. cbn. rewrite <- IH. apply bind_app. Qed.

(** Parts of a history: each is a table, and together they hold its writes. *)
Lemma parts_entries (parts : list (list (Z * list Write))) bs :
  history_ok user bs → concat parts ≡ₚ bs →
  Forall (λ p, Forall (batch_ok user) p ∧ entries_ok internal (apply_batches user p [])) parts ∧
  concat ((λ p, apply_batches user p []) <$> parts) ≡ₚ entry_of <$> writes bs.
Proof.
  intros [Hok Hs Hd] Hp. assert (distinct (concat parts)) as Hdp.
  { unfold writes. rewrite Hp. by apply writes_distinct. }
  rewrite <- Hp in Hok. assert (writes bs ≡ₚ writes (concat parts)) as -> by (unfold writes; by rewrite Hp).
  clear Hp Hs Hd bs. rewrite writes_concat in *. induction parts as [|p parts IH]; [done|].
  csimpl in *. rewrite !fmap_app. rewrite fmap_app in Hdp. apply NoDup_app in Hdp as (H1 & _ & H2). apply Forall_app in Hok as [Hok1 Hok2].
  destruct (IH Hok2 H2) as [IH1 IH2]. destruct (apply_batches_entries p Hok1 H1) as [He Hpm].
  split; [by constructor|]. by rewrite Hpm, IH2.
Qed.
End Entries.

(** ** A database *)

(** The batches of a history, applied to the memtables of a snapshot or stored in
    its tables. *)
Record database (user : KeyComparator) `{!KeyComparatorLaws user} {J} {HJ : Iterable J}
    {LJ : IterableLaws (InternalKeyComparator user) J} (s : Snapshot J) (bs : list (Z * list Write)) : Prop := mkDatabase {
  db_history : history_ok user bs;
  db_sequence : 0 ≤ sn_last_sequence s ≤ MAX_SEQUENCE;
  db_waterline : default 0 (sn_compaction_waterline s) ≤ sn_last_sequence s;
  db_parts : ∃ tbs dbs,
    Forall2 (λ t tb, ∃ rng, write_all user tb (MemTable_new rng) = Done (tt, t)) (sn_memtables s) tbs ∧
    Forall2 (λ j db, it_rep (InternalKeyComparator user) j (apply_batches user db []) (apply_batches user db [])) (sn_tables s) dbs ∧
    concat tbs ++ concat dbs ≡ₚ bs;
}.

Section Database.
Context (user : KeyComparator) `{!KeyComparatorLaws user} `{!AntiSymm (=) (@kc_le user _)}.
Abbreviation internal := (InternalKeyComparator user).
Context {J : Type} {HJ : Iterable J} {LJ : IterableLaws internal J}.

Lemma database_holds (s : Snapshot J) bs :
  database user s bs → ∃ all, snapshot_holds user s all ∧ all ≡ₚ entry_of <$> writes bs.
Proof.
  intros [Hh Hs _ (tbs & dbs & Ht & Hd & Hp)]. pose proof Hh as [Hok Hso Hdi].
  exists (apply_batches user bs []).
  destruct (apply_batches_entries user bs Hok (writes_distinct _ Hso Hdi)) as [He Hpe]. split; [|done].
  rewrite <- concat_app in Hp. destruct (parts_entries user (tbs ++ dbs) bs Hh Hp) as [Hparts Hall].
  apply Forall_app in Hparts as [Hm _]. rewrite fmap_app, concat_app in Hall. split; [done|done|].
  eexists _, _. split_and!; [| |rewrite Hall; by symmetry].
  - apply Forall2_fmap_r. clear -Ht Hm. induction Ht as [|t tb ts tbs [rng Hrun] _ IH]; [constructor|].
    apply Forall_cons in Hm as [[Hok He] Hm]. constructor; [|by apply IH]. split; [|done].
    destruct (write_all_ok user tb (MemTable_new rng) [] Hok (holds_new user rng)) as (t' & E & Ht'). congruence.
  - by apply Forall2_fmap_r.
Qed.

Lemma database_fuel bs all fuel : all ≡ₚ entry_of <$> writes bs → (length (writes bs) < fuel)%nat → (length all < fuel)%nat.
Proof. intros ->%Permutation_length. by rewrite length_fmap. Qed.

Lemma scan_elem bs all key s v :
  history_ok user bs → entries_ok internal all → all ≡ₚ entry_of <$> writes bs →
  v ∈ version_of <$> filter (λ e, newest s all e ∧ kc_le key (ik_user e.1)) all ↔
    kc_le key (se_key v) ∧ model_entry (se_key v) s bs = Some v.
Proof.
  intros Hh Hok Hp. rewrite <- (newest_entry user bs all) by done. rewrite list_elem_of_fmap. split.
  - intros (e & -> & [[Hn Hle] He]%list_elem_of_filter). split; [done|]. apply (newest_head user) in Hn; [|done..]. cbn. by rewrite Hn.
  - intros [Hle (e & He & ->)%fmap_Some]. exists e. split; [done|]. apply list_elem_of_filter.
    pose proof (head_Some_elem_of _ _ He) as [_ Hin]%list_elem_of_filter. split; [|done]. split; [|done].
    by apply (newest_head user).
Qed.

Lemma scan_sorted all key s :
  entries_ok internal all →
  StronglySorted (λ a b, ¬ kc_le (se_key b) (se_key a)) (version_of <$> filter (λ e, newest s all e ∧ kc_le key (ik_user e.1)) all).
Proof.
  intros [_ Hsort]. apply (StronglySorted_fmap version_of (λ a b : KeyValueEntry, ¬ kc_le (ik_user b.1) (ik_user a.1))); [done|].
  eapply sorted_impl_in, sorted_filter, Hsort. intros a b [[Ha _] Hina]%list_elem_of_filter [[Hb _] _]%list_elem_of_filter Hlt Hle.
  assert (ik_user a.1 = ik_user b.1) as Eu by (apply (anti_symm kc_le); [by apply entry_lt_user|done]).
  pose proof (entry_lt_seq user a b Hlt Eu). destruct Hb as [_ Hb]. rewrite Forall_forall in Hb.
  specialize (Hb a Hina (conj Eu (proj1 Ha))). lia.
Qed.
End Database.

#[export] Instance bytewise_antisymm : AntiSymm (=) (@kc_le BytewiseComparator _).
Proof.
  intros a b Hab Hba. apply bytes_le_iff in Hab as [Hab|]; [|done]. apply bytes_not_le in Hab. done.
Qed.

(** A history of three batches, of which the first two are in a table and the
    third is in a memtable. *)
Definition example_table : list (Z * list Write) :=
  [(1, [WriteValue [1] [10]; WriteValue [2] [20]]); (2, [WriteDeletion [1]])].
Definition example_mem : list (Z * list Write) := [(3, [WriteValue [2] [30]; WriteValue [4] [40]])].

Lemma example_history : history_ok BytewiseComparator (example_table ++ example_mem).
Proof.
  split; [repeat constructor; by vm_compute|repeat constructor|].
  repeat constructor; by rewrite ?elem_of_cons, ?elem_of_nil; naive_solver.
Qed.

#[local] Instance bytewise_mem_iterable : Iterable MemTableIterator := mem_iterable (InternalKeyComparator BytewiseComparator).
#[local] Instance bytewise_mem_laws : IterableLaws (InternalKeyComparator BytewiseComparator) MemTableIterator :=
  mem_laws (InternalKeyComparator BytewiseComparator).

(** An iterator over a memtable to which batches were written. *)
Lemma example_iterator bs :
  history_ok BytewiseComparator bs →
  ∃ it, it_rep (InternalKeyComparator BytewiseComparator) it (apply_batches BytewiseComparator bs []) (apply_batches BytewiseComparator bs []).
Proof.
  intros [H1 H2 H3]. destruct (write_all_ok BytewiseComparator bs _ _ H1 (holds_new BytewiseComparator (λ _, 9))) as (t & _ & Hh).
  destruct (mem_iter_ok (InternalKeyComparator BytewiseComparator) t _ tt Hh) as (it & _ & Hrep).
  - refine (proj1 (apply_batches_entries BytewiseComparator bs H1 _)). by apply writes_distinct.
  - exists it. exact Hrep.
Qed.

Lemma history_app user `{!KeyComparatorLaws user} bs bs' : history_ok user (bs ++ bs') → history_ok user bs ∧ history_ok user bs'.
Proof.
  intros [[H1 H1']%Forall_app H2 [H3 H3']%Forall_app].
  split; split; [done|by eapply StronglySorted_app_1_l|done|done|by eapply StronglySorted_app_1_r|done].
Qed.

Lemma example_iterators : ∃ i j,
  it_rep (InternalKeyComparator BytewiseComparator) i (apply_batches BytewiseComparator example_table []) (apply_batches BytewiseComparator example_table []) ∧
  it_rep (InternalKeyComparator BytewiseComparator) j (apply_batches BytewiseComparator example_mem []) (apply_batches BytewiseComparator example_mem []).
Proof.
  destruct (history_app _ _ _ example_history) as [H1 H2].
  destruct (example_iterator _ H1) as [i Hi], (example_iterator _ H2) as [j Hj]. exists i, j. split; [exact Hi|exact Hj].
Qed.

Lemma example_entries : entries_ok (InternalKeyComparator BytewiseComparator) (apply_batches BytewiseComparator (example_table ++ example_mem) []).
Proof.
  pose proof example_history as [H1 H2 H3]. refine (proj1 (apply_batches_entries BytewiseComparator _ H1 _)). by apply writes_distinct.
Qed.

Lemma example_contents :
  concat [apply_batches BytewiseComparator example_table []; apply_batches BytewiseComparator example_mem []] ≡ₚ
  apply_batches BytewiseComparator (example_table ++ example_mem) [].
Proof.
  pose proof example_history as [H1 H2 H3].
  destruct (parts_entries BytewiseComparator [example_table; example_mem] _ example_history) as [_ Hp].
  { cbn [concat]. by rewrite app_nil_r. }
  rewrite (proj2 (apply_batches_entries BytewiseComparator _ H1 (writes_distinct _ H2 H3))). exact Hp.
Qed.

Lemma example_database : ∃ t it, database BytewiseComparator (mkSnapshot 3 None [t] [it]) (example_table ++ example_mem).
Proof.
  destruct (history_app _ _ _ example_history) as [H1 [H2 _ _]].
  destruct (write_all_ok BytewiseComparator example_mem _ _ H2 (holds_new BytewiseComparator (λ _, 5))) as (t & Ht & _).
  destruct (example_iterator _ H1) as [it Hrep].
  exists t, it. split; [apply example_history|cbn; unfold MAX_SEQUENCE; lia|cbn; lia|]. exists [example_mem], [example_table].
  split_and!; [constructor; [exists (λ _, 5); exact Ht|constructor]|constructor; [exact Hrep|constructor]|].
  cbn [concat]. rewrite !app_nil_r. apply (comm (++)).
Qed.

(** C21: reading a database is reading its history: whatever batches were written,
    and however they are spread over memtables and tables, [get] returns without
    an error the value of the last write of the key up to the snapshot's
    sequence, and nothing when there is no such write or it is a deletion. The
    memtables are skip lists; the tables are any iterators that return their
    entries in order and whose seeks stop exactly at the sought key. *)
Theorem database_get (user : KeyComparator) `{!KeyComparatorLaws user} `{!AntiSymm (=) (@kc_le user _)}
    {J} {HJ : Iterable J} {LJ : IterableLaws (InternalKeyComparator user) J}
    (s : Snapshot J) (bs : list (Z * list Write)) (key : bytes) (fuel : nat) :
  database user s bs → kc_key key → (length (writes bs) < fuel)%nat →
  snapshot_get HJ (InternalKeyComparator user) fuel key s = Done (inr (model_get key (sn_last_sequence s) bs), s).
Proof.
  intros Hdb Hk Hfuel. destruct (database_holds user s bs Hdb) as (all & Hall & Hp).
  rewrite (snapshot_get_ok user s all) by (done || apply Hdb || by eapply database_fuel).
  unfold model_get. rewrite <- (newest_entry user bs all) by (done || apply Hdb || apply Hall).
  by destruct (head _).
Qed.

Lemma database_get_witness :
  ∃ s : Snapshot MemTableIterator, length (sn_memtables s) = 1%nat ∧ length (sn_tables s) = 1%nat ∧
    snapshot_get bytewise_mem_iterable (InternalKeyComparator BytewiseComparator) 6 [1] s = Done (inr None, s) ∧
    snapshot_get bytewise_mem_iterable (InternalKeyComparator BytewiseComparator) 6 [2] s = Done (inr (Some [30]), s).
Proof.
  destruct example_database as (t & it & Hdb). exists (mkSnapshot 3 None [t] [it]).
  split; [exact eq_refl|split; [exact eq_refl|]].
  split; [apply (database_get BytewiseComparator _ _ [1] 6 Hdb)|apply (database_get BytewiseComparator _ _ [2] 6 Hdb)].
  1, 3: repeat constructor; lia.
  all: cbn; lia.
Defined.

(** C22: iterating over a database is iterating over its history: for any sequence
    up to the snapshot's, after a seek the iterator returns, in strictly
    ascending order of the user keys, exactly the last write up to the sequence
    of each key from the sought one on, deletions included. The tables are any
    iterators that return their entries in order and whose seeks stop exactly
    at the sought key. *)
Theorem database_scan (user : KeyComparator) `{!KeyComparatorLaws user} `{!AntiSymm (=) (@kc_le user _)}
    {J} {HJ : Iterable J} {LJ : IterableLaws (InternalKeyComparator user) J}
    (s : Snapshot J) (bs : list (Z * list Write)) (last : option Z) (key : bytes) (fuel : nat) :
  database user s bs → kc_key key → (length (writes bs) < fuel)%nat →
  let sequence := default (sn_last_sequence s) last in
  default 0 (sn_compaction_waterline s) ≤ sequence ≤ sn_last_sequence s → 0 ≤ sequence →
  ∃ it it1 it2 vs, iter_with_options (mkSnapshotIteratorOptions false last None) s = Done (inr it, s) ∧
    @snapshot_seek _ (inner_iterable HJ (InternalKeyComparator user)) key it = Done (inr tt, it1) ∧
    @snapshot_collect _ (inner_iterable HJ (InternalKeyComparator user)) fuel fuel it1 = Done (inr vs, it2) ∧
    StronglySorted (λ a b, ¬ kc_le (se_key b) (se_key a)) vs ∧
    ∀ v, v ∈ vs ↔ kc_le key (se_key v) ∧ model_entry (se_key v) sequence bs = Some v.
Proof.
  intros Hdb Hk Hfuel sequence Hseq Hpos. destruct (database_holds user s bs Hdb) as (all & Hall & Hp).
  destruct (snapshot_scan_ok user s all last key fuel Hall Hk (database_fuel _ _ _ Hp Hfuel) Hseq Hpos)
    as (it & it1 & it2 & Hit & Hseek & Hrun). pose proof (sh_ok _ _ _ Hall) as Hok.
  eexists it, it1, it2, _. split_and!; [exact Hit|exact Hseek|exact Hrun|by apply scan_sorted|].
  intros v. by apply (scan_elem user bs all key sequence v (db_history _ _ _ Hdb)).
Qed.

Lemma database_scan_witness :
  ∃ (s : Snapshot MemTableIterator) it it1 it2 vs,
    iter_with_options (mkSnapshotIteratorOptions false (Some 2) None) s = Done (inr it, s) ∧
    @snapshot_seek _ (inner_iterable bytewise_mem_iterable (InternalKeyComparator BytewiseComparator)) [0] it = Done (inr tt, it1) ∧
    @snapshot_collect _ (inner_iterable bytewise_mem_iterable (InternalKeyComparator BytewiseComparator)) 6 6 it1 = Done (inr vs, it2) ∧
    StronglySorted (λ a b, ¬ bytes_le (se_key b) (se_key a)) vs ∧
    ∀ v, v ∈ vs ↔ bytes_le [0] (se_key v) ∧ model_entry (se_key v) 2 (example_table ++ example_mem) = Some v.
Proof.
  destruct example_database as (t & it & Hdb). exists (mkSnapshot 3 None [t] [it]).
  apply (database_scan BytewiseComparator _ _ (Some 2) [0] 6 Hdb); [repeat constructor; lia|cbn; lia..].
Defined.

(** *** After a crash *)

Lemma history_take user `{!KeyComparatorLaws user} bs j : history_ok user bs → history_ok user (take j bs).
Proof.
  intros [H1 H2 H3]. split; [by apply Forall_take| |by apply Forall_take].
  rewrite <- (take_drop j bs) in H2. by eapply StronglySorted_app_1_l.
Qed.

Lemma max_sequence_bound bs last :
  0 ≤ last ≤ MAX_SEQUENCE → Forall (λ b : Z * list Write, 0 ≤ b.1 ≤ MAX_SEQUENCE) bs → 0 ≤ max_sequence bs last ≤ MAX_SEQUENCE.
Proof.
  unfold max_sequence. intros Hl Hb. revert last Hl. induction Hb as [|b bs Hb _ IH]; intros last Hl; cbn; [done|]. apply IH. lia.
Qed.

(** C20: durability: the batches of a history are written to a log, the log is cut
    anywhere, as by a crash, and the memtable is read from what is left. Then
    [get] on a snapshot at the recovered sequence returns for every key the
    value of its last write in the batches that are complete in the log. *)
Theorem recovered_get (user : KeyComparator) `{!KeyComparatorLaws user} `{!AntiSymm (=) (@kc_le user _)}
    {J} {HJ : Iterable J} {LJ : IterableLaws (InternalKeyComparator user) J}
    (bs : list (Z * list Write)) (n : nat) (rng : nat → Z) :
  history_ok user bs →
  ∃ w j r t, append_records (batch_record <$> bs) RecordWriter_new = Done (tt, w) ∧
    let cut := take n (rw_file w) in
    let last := max_sequence (take j bs) 0 in
    let s := mkSnapshot last None [t] [] : Snapshot J in
    longest (batch_record <$> bs) (length cut) j ∧
    read_table (InternalKeyComparator user) (S (length bs)) cut (RecordReader_open, (MemTable_new rng, 0)) =
      Done (inr tt, (r, (t, last))) ∧
    ∀ key, kc_key key →
      snapshot_get HJ (InternalKeyComparator user) (S (length (writes (take j bs)))) key s =
        Done (inr (model_get key last (take j bs)), s).
Proof.
  intros Hh. destruct (recover_log user bs n rng (ho_batches _ _ Hh)) as (w & j & r & t & Hrun & Hl & Hread & Ht).
  exists w, j, r, t. split; [done|]. cbn zeta. split; [exact Hl|]. split; [exact Hread|]. intros key Hk.
  set (s := mkSnapshot _ _ _ _). pose proof (history_take user bs j Hh) as Hhj. pose proof Hhj as [Hok Hs Hd].
  destruct (apply_batches_entries user _ Hok (writes_distinct _ Hs Hd)) as [He Hp].
  assert (0 ≤ sn_last_sequence s ≤ MAX_SEQUENCE) as Hseq.
  { apply max_sequence_bound; [unfold MAX_SEQUENCE; lia|]. eapply Forall_impl; [exact Hok|]. by intros b []. }
  assert (snapshot_holds user s (apply_batches user (take j bs) [])) as Hsh.
  { split; [done|done|]. exists [apply_batches user (take j bs) []], []. split_and!; [constructor; [done|constructor]|constructor|].
    cbn [concat]. by rewrite !app_nil_r. }
  rewrite (snapshot_get_ok user s _ key _ Hsh) by (done || (rewrite Hp, length_fmap; lia) || (cbn in *; lia)).
  unfold model_get. rewrite <- (newest_entry user _ _ key _ Hhj He Hp). by destruct (head _).
Qed.

Lemma recovered_get_witness :
  ∃ w j r t, append_records (batch_record <$> (example_table ++ example_mem)) RecordWriter_new = Done (tt, w) ∧
    let cut := take 60 (rw_file w) in
    let last := max_sequence (take j (example_table ++ example_mem)) 0 in
    let s := mkSnapshot last None [t] [] : Snapshot MemTableIterator in
    longest (batch_record <$> (example_table ++ example_mem)) (length cut) j ∧
    read_table (InternalKeyComparator BytewiseComparator) 4 cut (RecordReader_open, (MemTable_new (λ _, 3), 0)) =
      Done (inr tt, (r, (t, last))) ∧
    ∀ key, Forall byte key →
      snapshot_get bytewise_mem_iterable (InternalKeyComparator BytewiseComparator)
          (S (length (writes (take j (example_table ++ example_mem))))) key s =
        Done (inr (model_get key last (take j (example_table ++ example_mem))), s).
Proof.
  exact (recovered_get BytewiseComparator (HJ := bytewise_mem_iterable) (LJ := bytewise_mem_laws)
    (example_table ++ example_mem) 60 (λ _, 3) example_history).
Defined.

(** *** A batch that writes a key twice *)

(** A batch at sequence 1 that is applied to an empty memtable, and the value of
    a key that is then read. *)
Definition read_back (rng : nat → Z) (ws : list Write) (key : bytes) : run (Result (option bytes)) :=
  match write_all BytewiseComparator [(1, ws)] (MemTable_new rng) with
  | Done (_, t) =>
    match snapshot_get bytewise_mem_iterable (InternalKeyComparator BytewiseComparator) (S (length ws)) key (mkSnapshot 1 None [t] []) with
    | Done (res, _) => Done res
    | Panicked => Panicked
    | OutOfFuel => OutOfFuel
    end
  | Panicked => Panicked
  | OutOfFuel => OutOfFuel
  end.

(** The condition that a batch writes a key once is needed: two writes of a
    key in one batch have the same internal key as far as the comparator sees,
    and which of them a read finds depends on the random heights of the nodes
    of the skip list. After a deletion and a put of a key the key is absent or
    present, and of two puts either value may be read. *)
Theorem batch_duplicates_random :
  ∃ rng rng' : nat → Z,
    read_back rng [WriteDeletion [1]; WriteValue [1] [10]] [1] = Done (inr None) ∧
    read_back rng' [WriteDeletion [1]; WriteValue [1] [10]] [1] = Done (inr (Some [10])) ∧
    read_back rng [WriteValue [1] [9]; WriteValue [1] [10]] [1] = Done (inr (Some [9])) ∧
    read_back rng' [WriteValue [1] [9]; WriteValue [1] [10]] [1] = Done (inr (Some [10])).
Proof.
  exists (λ n, if (n =? 0)%nat then 0 else 2 ^ 31), (λ n, if (n =? 0)%nat then 2 ^ 31 else 0).
  split_and!; vm_compute; exact eq_refl.
Qed.

(** ** Merging *)

(** The next [k] entries of an iterator. *)
Fixpoint it_take {I} `{!Iterable I} (k : nat) : M I (Result (list KeyValueEntry)) :=
  match k with
  | O => ret (inr [])
  | S k =>
    try! e := it_next in
    match e with
    | None => ret (inr [])
    | Some e => try! es := it_take k in ret (inr (e :: es))
    end
  end.

Lemma it_take_ok c `{!KeyComparatorLaws c} {I} `{!Iterable I, !IterableLaws c I} k (i : I) all rest :
  it_rep c i all rest → ∃ i', it_take k i = Done (inr (take k rest), i') ∧ it_rep c i' all (drop k rest).
Proof.
  revert i rest. induction k as [|k IH]; intros i rest Hrep; cbn [it_take]; [by exists i|]. unfold try_bind, bind.
  destruct (it_next_spec c _ _ _ Hrep) as (i1 & -> & Hrep1). destruct rest as [|e rest]; cbn [head tail] in *; [by exists i1|].
  destruct (IH i1 rest Hrep1) as (i2 & -> & Hrep2). by exists i2.
Qed.

(** C35: A merge iterator is an iterator over the sorted union: for any
    iterators that return their entries in order, whose seeks stop exactly at
    the sought key and whose entries have distinct keys, it returns all entries
    in ascending order, and a seek, wherever the reading stands, moves it to
    the first entry that is not before the sought key. *)
Theorem merge_iterator_refines (c : KeyComparator) `{!KeyComparatorLaws c} {I} {HI : Iterable I} {LI : IterableLaws c I}
    (iters : list I) (contents : list (list KeyValueEntry)) (all : list KeyValueEntry) (k fuel : nat) (key : bytes) :
  Forall2 (λ i es, it_rep c i es es) iters contents → entries_ok c all → concat contents ≡ₚ all → kc_key key →
  (length all < fuel)%nat →
  let next := @it_take _ (merge_iterable c) in
  let collect := @it_collect _ (merge_iterable c) in
  ∃ m1 m2 m3 m4, next k (MergeIterator_new iters) = Done (inr (take k all), m1) ∧
    collect fuel m1 = Done (inr (drop k all), m2) ∧
    merge_seek key m1 = Done (inr tt, m3) ∧ collect fuel m3 = Done (inr (filter (λ e, kc_le key e.1) all), m4).
Proof.
  intros Hi Hok Hp Hk Hfuel next collect.
  assert (∃ sources, iters = sr_iter <$> sources ∧ Forall (source_ok c) sources ∧
    Forall (λ s, sr_rest s = sr_all s) sources ∧ sr_all <$> sources = contents) as (sources & Ei & Hs & Hw & <-).
  { clear -Hi. induction Hi as [|i es iters contents Hi _ (sources & -> & Hs & Hw & <-)]; [by exists []|].
    exists (mkSource i es es :: sources). split_and!; [done|by constructor|by constructor|done]. }
  pose proof (merge_new_rep c iters sources all Ei Hs Hw Hok Hp) as Hrep.
  destruct (@it_take_ok c _ _ (merge_iterable c) (merge_laws c) k (MergeIterator_new iters) all all Hrep) as (m1 & E1 & Hrep1).
  destruct (@it_collect_ok c _ _ (merge_iterable c) (merge_laws c) fuel m1 all _ Hrep1) as (m2 & E2 & _); [rewrite length_drop; lia|].
  destruct (@it_seek_spec c _ _ (merge_iterable c) (merge_laws c) m1 all _ key Hrep1 Hk) as (m3 & E3 & Hrep3).
  destruct (@it_collect_ok c _ _ (merge_iterable c) (merge_laws c) fuel m3 all _ Hrep3) as (m4 & E4 & _).
  { pose proof (length_filter (λ e, kc_le key e.1) all). lia. }
  exists m1, m2, m3, m4. split_and!; [exact E1|exact E2|exact E3|exact E4].
Qed.

Lemma merge_iterator_refines_witness :
  ∃ i j : MemTableIterator,
  let next := @it_take _ (merge_iterable (InternalKeyComparator BytewiseComparator)) in
  let collect := @it_collect _ (merge_iterable (InternalKeyComparator BytewiseComparator)) in
  let all := apply_batches BytewiseComparator (example_table ++ example_mem) [] in
  let key := InternalKey_serialized (mkInternalKey [2] 1 Value) in
  ∃ m1 m2 m3 m4, next 2%nat (MergeIterator_new [i; j]) = Done (inr (take 2 all), m1) ∧
    collect 6%nat m1 = Done (inr (drop 2 all), m2) ∧
    merge_seek key m1 = Done (inr tt, m3) ∧
    collect 6%nat m3 = Done (inr (filter (λ e, internal_le BytewiseComparator key e.1) all), m4).
Proof.
  destruct example_iterators as (i & j & Hi & Hj). exists i, j.
  refine (merge_iterator_refines (InternalKeyComparator BytewiseComparator) [i; j]
    [apply_batches BytewiseComparator example_table []; apply_batches BytewiseComparator example_mem []]
    (apply_batches BytewiseComparator (example_table ++ example_mem) []) 2 6
    (InternalKey_serialized (mkInternalKey [2] 1 Value)) _ _ _ _ _).
  - constructor; [exact Hi|constructor; [exact Hj|constructor]].
  - apply example_entries.
  - exact example_contents.
  - by apply serialized_key; [unfold MAX_SEQUENCE; cbn; lia|repeat constructor; lia].
  - rewrite <- example_contents. vm_compute. lia.
Defined.
