(* ===== verification/Table.v ===== *)
(** * Tables

    Files of sorted rows, of src/pkg/sstable/src/table: the footer
    (footer.rs), blocks with their compression and checksum (raw_block.rs),
    properties (table_properties.rs), the writer (table_builder.rs) and the
    reader with its index and iterator (table.rs). A file is the list of its
    bytes. Zlib and the CRC instruction that the snappy encoder hashes with
    are parameters. *)

From Stdlib Require Import String Ascii.
From S2P Require Import Prelude Wire Encoding Crc Snappy Comparator DataBlock MergeIterator Filter.

(** ** UTF-8, as [std::str::from_utf8] checks it *)

Definition between (a b x : Z) : bool := (a <=? x) && (x <=? b).
Definition continuation (b : Z) : bool := between 0x80 0xbf b.

Fixpoint utf8_valid (l : bytes) : bool :=
  match l with
  | [] => true
  | a :: l1 =>
    if a <? 0x80 then utf8_valid l1 else
    match l1 with
    | [] => false
    | b :: l2 =>
      if between 0xc2 0xdf a then continuation b && utf8_valid l2 else
      match l2 with
      | [] => false
      | c :: l3 =>
        if between 0xe0 0xef a then
          between (if a =? 0xe0 then 0xa0 else 0x80) (if a =? 0xed then 0x9f else 0xbf) b &&
          continuation c && utf8_valid l3
        else
        match l3 with
        | [] => false
        | d :: l4 =>
          between 0xf0 0xf4 a &&
          between (if a =? 0xf0 then 0x90 else 0x80) (if a =? 0xf4 then 0x8f else 0xbf) b &&
          continuation c && continuation d && utf8_valid l4
        end
      end
    end
  end.

Definition from_utf8 (l : bytes) : Result bytes := if utf8_valid l then inr l else inl ENotUtf8.

(** [parsing::complete] *)
Definition complete {A} (r : Result (A * bytes)) : Result A :=
  ok! (v, rest) := r in
  match rest with [] => inr v | _ :: _ => inl EExtraData end.

(** ** The footer *)

Inductive ChecksumType := CkNone | CkCRC32C | CkXXHash | CkXXHash64.

Definition ChecksumType_to_value (t : ChecksumType) : Z :=
  match t with CkNone => 0 | CkCRC32C => 1 | CkXXHash => 2 | CkXXHash64 => 3 end.
Definition ChecksumType_from_value (v : Z) : Result ChecksumType :=
  if v =? 0 then inr CkNone else if v =? 1 then inr CkCRC32C
  else if v =? 2 then inr CkXXHash else if v =? 3 then inr CkXXHash64
  else inl EUnknownChecksum.

#[export] Instance ChecksumType_eq_dec : EqDecision ChecksumType.
Proof. solve_decision. Defined.

Definition BLOCK_BASED_MAGIC : Z := 0x88e241b785f4cff7.
Definition BLOCK_BASED_MAGIC_LEGACY : Z := 0xdb4775248b80fb57.
Definition MAGIC_SIZE : nat := 8.
Definition BLOCK_HANDLE_MAX_SIZE : nat := 20.
Definition LEGACY_FOOTER_SIZE : nat := 48.
Definition FOOTER_SIZE : nat := 53.
Definition MAX_SUPPORTED_FOOTER_VERSION : Z := 1.

Record Footer := mkFooter {
  ft_checksum_type : ChecksumType;
  ft_metaindex_handle : BlockHandle;
  ft_index_handle : BlockHandle;
  ft_footer_version : Z;
}.

Definition check_zero_padding (data : bytes) : Result unit :=
  if forallb (Z.eqb 0) data then inr tt else inl ENonZeroPadding.

(** [parse]; the handles of the new format can take the bytes of the version,
    which then underflows. *)
Definition Footer_parse (input : bytes) : RR Footer :=
  rr! _ := Done (min_size input (Z.of_nat MAGIC_SIZE)) in
  let magic_start := (length input - MAGIC_SIZE)%nat in
  let magic := from_le_bytes (take MAGIC_SIZE (drop magic_start input)) in
  if magic =? BLOCK_BASED_MAGIC then
    rr! _ := Done (min_size input (Z.of_nat FOOTER_SIZE)) in
    let data := take (FOOTER_SIZE - MAGIC_SIZE) (drop (length input - FOOTER_SIZE) input) in
    rr! first := rr_of_option (head data) in
    rr! checksum_type := Done (ChecksumType_from_value first) in
    rr! (metaindex_handle, data) := Done (BlockHandle_parse (drop 1 data)) in
    rr! (index_handle, data) := Done (BlockHandle_parse data) in
    if (length data <? 4)%nat then Panicked else
    let footer_version_start := (length data - 4)%nat in
    rr! _ := Done (check_zero_padding (take footer_version_start data)) in
    let footer_version := from_le_bytes (take 4 (drop footer_version_start data)) in
    if footer_version =? 0 then Done (inl EOldFooterVersion)
    else if MAX_SUPPORTED_FOOTER_VERSION <=? footer_version then Done (inl EFooterVersion)
    else Done (inr (mkFooter checksum_type metaindex_handle index_handle footer_version))
  else if magic =? BLOCK_BASED_MAGIC_LEGACY then
    rr! _ := Done (min_size input (Z.of_nat LEGACY_FOOTER_SIZE)) in
    let data := take (LEGACY_FOOTER_SIZE - MAGIC_SIZE) (drop (length input - LEGACY_FOOTER_SIZE) input) in
    rr! (metaindex_handle, data) := Done (BlockHandle_parse data) in
    rr! (index_handle, data) := Done (BlockHandle_parse data) in
    rr! _ := Done (check_zero_padding data) in
    Done (inr (mkFooter CkCRC32C metaindex_handle index_handle 0))
  else Done (inl EIncorrectMagic).

(** [out.resize(n, 0)] *)
Definition resize_zero (n : nat) (l : bytes) : bytes := take n l ++ replicate (n - length l) 0.

Definition Footer_handles (f : Footer) : bytes :=
  resize_zero (2 * BLOCK_HANDLE_MAX_SIZE)
    (BlockHandle_serialized (ft_metaindex_handle f) ++ BlockHandle_serialized (ft_index_handle f)).

(** [serialize]: the assertion on the checksum type panics. *)
Definition Footer_serialize (f : Footer) : run bytes :=
  if ft_footer_version f =? 0 then
    if bool_decide (ft_checksum_type f = CkCRC32C) then
      Done (Footer_handles f ++ to_le_bytes 8 BLOCK_BASED_MAGIC_LEGACY)
    else Panicked
  else
    Done (ChecksumType_to_value (ft_checksum_type f) :: Footer_handles f ++
          to_le_bytes 4 (ft_footer_version f) ++ to_le_bytes 8 BLOCK_BASED_MAGIC).

Definition Footer_read_from_file (file : bytes) : RR Footer :=
  if (length file <? FOOTER_SIZE)%nat then Done (inl EFileTooSmall)
  else Footer_parse (drop (length file - FOOTER_SIZE) file).

(** ** Blocks in the file *)

Inductive CompressionType := CpNone | CpSnappy | CpZLib | CpBZip2 | CpLZ4 | CpLZ4HC | CpXPress | CpZstd.

Definition CompressionType_to_value (t : CompressionType) : Z :=
  match t with
  | CpNone => 0 | CpSnappy => 1 | CpZLib => 2 | CpBZip2 => 3
  | CpLZ4 => 4 | CpLZ4HC => 5 | CpXPress => 6 | CpZstd => 7
  end.
Definition compression_types : list CompressionType :=
  [CpNone; CpSnappy; CpZLib; CpBZip2; CpLZ4; CpLZ4HC; CpXPress; CpZstd].
Definition CompressionType_from_value (v : Z) : Result CompressionType :=
  match List.find (λ t, CompressionType_to_value t =? v) compression_types with
  | Some t => inr t
  | None => inl EUnknownCompression
  end.

Definition BLOCK_TRAILER_SIZE : nat := 5.

Record RawBlock := mkRawBlock { rb_data : bytes; rb_compression_type : CompressionType }.

(** [LocalFile::read_exact_at] *)
Definition read_exact_at (file : bytes) (offset len : Z) : Result bytes :=
  if Z.of_nat (length file) <? offset + len then inl EUnexpectedEof
  else inr (take (Z.to_nat len) (drop (Z.to_nat offset) file)).

(** The checksum of a block and its compression type. *)
Definition block_checksum (t : ChecksumType) (data : bytes) : Result Z :=
  match t with
  | CkNone => inr 0
  | CkCRC32C => inr (masked (crc32c_update data CRC32CHasher_new))
  | _ => inl EUnsupportedChecksum
  end.

Definition RawBlock_read (file : bytes) (footer : Footer) (handle : BlockHandle) : RR RawBlock :=
  let len := bh_size handle + Z.of_nat BLOCK_TRAILER_SIZE in
  if U64_MAX <? len then Panicked else
  rr! buf := Done (read_exact_at file (bh_offset handle) len) in
  let trailer_start := Z.to_nat (bh_size handle) in
  let trailer := drop trailer_start buf in
  rr! first := rr_of_option (head trailer) in
  rr! compression_type := Done (CompressionType_from_value first) in
  let checksum := from_le_bytes (take 4 (drop 1 trailer)) in
  rr! expected_checksum := Done (block_checksum (ft_checksum_type footer) (take (trailer_start + 1) buf)) in
  if negb (checksum =? expected_checksum) then Done (inl EIncorrectChecksum)
  else Done (inr (mkRawBlock (take trailer_start buf) compression_type)).

Section Compression.
Context (zlib_decode : bytes → Result bytes).

Definition RawBlock_decompress (b : RawBlock) : RR bytes :=
  match rb_compression_type b with
  | CpNone => Done (inr (rb_data b))
  | CpSnappy =>
    rr! (out, remaining) := snappy_decompress (rb_data b) [] in
    match remaining with [] => Done (inr out) | _ :: _ => Done (inl EUndecodedData) end
  | CpZLib => Done (zlib_decode (rb_data b))
  | _ => Done (inl EUnsupportedCompression)
  end.

(** [DataBlock::read] *)
Definition DataBlock_read (file : bytes) (footer : Footer) (handle : BlockHandle) : RR DataBlockRef :=
  rr! raw := RawBlock_read file footer handle in
  rr! data := RawBlock_decompress raw in
  Done (DataBlockRef_parse data).

(** [FilterBlock::read] *)
Definition FilterBlock_read (file : bytes) (footer : Footer) (handle : BlockHandle) : RR FilterBlockRef :=
  rr! raw := RawBlock_read file footer handle in
  rr! block := RawBlock_decompress raw in
  Done (FilterBlockRef_parse block).
End Compression.

(** ** Properties *)

Inductive PropertyValue := PropU64 (v : Z) | PropString (s : bytes).

(** [message TableProperties]: its fields by number, all of them optional. *)
Abbreviation TableProperties := (gmap Z PropertyValue).

Inductive PropertyType := TU64 | TString.

(** The number, type and [dacha.key] of each field. *)
Definition property_fields : list (Z * PropertyType * bytes) := [
  (2, TU64, literal "rocksdb.raw.key.size"); (3, TU64, literal "rocksdb.raw.value.size");
  (4, TU64, literal "rocksdb.num.entries"); (5, TU64, literal "rocksdb.deleted.keys");
  (6, TU64, literal "dacha.num_stale_entries"); (7, TU64, literal "dacha.stale_value_size");
  (31, TU64, literal "dacha.stale_clear_waterline"); (1, TU64, literal "rocksdb.data.size");
  (8, TU64, literal "rocksdb.index.size"); (9, TU64, literal "rocksdb.index.partitions");
  (10, TU64, literal "rocksdb.top-level.index.size"); (11, TU64, literal "rocksdb.index.key.is.user.key");
  (12, TU64, literal "rocksdb.index.value.is.delta.encoded"); (13, TU64, literal "rocksdb.filter.size");
  (14, TU64, literal "rocksdb.num.data.blocks"); (15, TU64, literal "rocksdb.merge.operands");
  (16, TU64, literal "rocksdb.num.range-deletions"); (17, TU64, literal "rocksdb.format.version");
  (18, TU64, literal "rocksdb.fixed.key.length"); (19, TU64, literal "rocksdb.column.family.id");
  (20, TU64, literal "rocksdb.creation.time"); (21, TU64, literal "rocksdb.oldest.key.time");
  (22, TU64, literal "rocksdb.file.creation.time"); (23, TString, literal "rocksdb.column.family.name");
  (24, TString, literal "rocksdb.filter.policy"); (25, TString, literal "rocksdb.comparator");
  (26, TString, literal "rocksdb.merge.operator"); (27, TString, literal "rocksdb.prefix.extractor.name");
  (28, TString, literal "rocksdb.property.collectors"); (29, TString, literal "rocksdb.compression");
  (30, TString, literal "rocksdb.compression_options")]%string.

(** The value of a field of the given type. *)
Definition parse_property (t : PropertyType) (value : bytes) : Result PropertyValue :=
  match t with
  | TU64 => ok! v := complete (from_wire (parse_varint value)) in inr (PropU64 v)
  | TString => ok! s := from_utf8 value in inr (PropString s)
  end.

(** The loop of [parse_table_properties]; every field of the message has a
    key and one of the two types, so its other errors do not arise. *)
Fixpoint parse_properties_loop (fields : list (Z * PropertyType * bytes)) (data : gmap bytes bytes)
    (props : TableProperties) : Result TableProperties :=
  match fields with
  | [] => inr props
  | (number, t, key) :: fields =>
    match data !! key with
    | None => parse_properties_loop fields data props
    | Some value =>
      ok! v := parse_property t value in
      parse_properties_loop fields (delete key data) (<[number := v]> props)
    end
  end.

Definition parse_table_properties (data : gmap bytes bytes) : Result TableProperties :=
  parse_properties_loop property_fields data ∅.

Definition serialize_property (v : PropertyValue) : bytes :=
  match v with PropU64 v => serialize_varint v | PropString s => s end.

(** The map it returns, as the list of its pairs; the keys are distinct. *)
Definition serialize_table_properties (props : TableProperties) : list (bytes * bytes) :=
  omap (λ f, (λ v, (f.2, serialize_property v)) <$> props !! f.1.1) property_fields.

(** ** The builder *)

Record SSTableBuilderOptions := mkBuilderOptions {
  o_block_size : Z;
  (** [((block_size as f32) * (1. - block_size_deviation)) as usize] *)
  o_min_block_size : Z;
  o_block_restart_interval : Z;
  o_use_delta_encoding : bool;
  o_checksum : ChecksumType;
  o_compression : CompressionType;
  o_comparator : KeyComparator;
  o_filter_policy : option FilterPolicy;
  o_filter_log_base : Z;
}.

Definition METAINDEX_PROPERTIES_KEY : bytes := literal "rocksdb.properties".
Definition FILTER_PREFIX : bytes := literal "filter.".

Record SSTableBuilder := mkSSTableBuilder {
  sb_file : bytes;
  sb_file_len : Z;
  sb_index_block_builder : DataBlockBuilder;
  sb_filter_block_builder : option FilterBlockBuilder;
  sb_data_block_builder : DataBlockBuilder;
  sb_properties : TableProperties;
  sb_properties_block_builder : UnsortedDataBlockBuilder;
  (** [PendingDataBlock] *)
  sb_pending_data_block : option (bytes * BlockHandle);
}.

Definition sb_append (data : bytes) (s : SSTableBuilder) : SSTableBuilder :=
  mkSSTableBuilder (sb_file s ++ data) (sb_file_len s + Z.of_nat (length data)) (sb_index_block_builder s)
    (sb_filter_block_builder s) (sb_data_block_builder s) (sb_properties s) (sb_properties_block_builder s)
    (sb_pending_data_block s).
Definition sb_set_index (b : DataBlockBuilder) (s : SSTableBuilder) : SSTableBuilder :=
  mkSSTableBuilder (sb_file s) (sb_file_len s) b (sb_filter_block_builder s) (sb_data_block_builder s)
    (sb_properties s) (sb_properties_block_builder s) (sb_pending_data_block s).
Definition sb_set_filter (f : option FilterBlockBuilder) (s : SSTableBuilder) : SSTableBuilder :=
  mkSSTableBuilder (sb_file s) (sb_file_len s) (sb_index_block_builder s) f (sb_data_block_builder s)
    (sb_properties s) (sb_properties_block_builder s) (sb_pending_data_block s).
Definition sb_set_data (b : DataBlockBuilder) (s : SSTableBuilder) : SSTableBuilder :=
  mkSSTableBuilder (sb_file s) (sb_file_len s) (sb_index_block_builder s) (sb_filter_block_builder s) b
    (sb_properties s) (sb_properties_block_builder s) (sb_pending_data_block s).
Definition sb_set_properties (p : TableProperties) (s : SSTableBuilder) : SSTableBuilder :=
  mkSSTableBuilder (sb_file s) (sb_file_len s) (sb_index_block_builder s) (sb_filter_block_builder s)
    (sb_data_block_builder s) p (sb_properties_block_builder s) (sb_pending_data_block s).
Definition sb_set_properties_block (u : UnsortedDataBlockBuilder) (s : SSTableBuilder) : SSTableBuilder :=
  mkSSTableBuilder (sb_file s) (sb_file_len s) (sb_index_block_builder s) (sb_filter_block_builder s)
    (sb_data_block_builder s) (sb_properties s) u (sb_pending_data_block s).
Definition sb_set_pending (p : option (bytes * BlockHandle)) (s : SSTableBuilder) : SSTableBuilder :=
  mkSSTableBuilder (sb_file s) (sb_file_len s) (sb_index_block_builder s) (sb_filter_block_builder s)
    (sb_data_block_builder s) (sb_properties s) (sb_properties_block_builder s) p.

(** Run code that has no access to the receiver. *)
Definition lift_rr {S A} (m : RR A) : M S (Result A) := λ s,
  match m with
  | Done r => Done (r, s)
  | Panicked => Panicked
  | OutOfFuel => OutOfFuel
  end.
Definition lift_run {S A} (m : run A) : M S A := λ s,
  match m with
  | Done a => Done (a, s)
  | Panicked => Panicked
  | OutOfFuel => OutOfFuel
  end.

Section Builder.
Context (crc32c_raw_oneshot : Z → Z) (zlib_encode : bytes → Result bytes) (overflow_checks : bool).
Context (options : SSTableBuilderOptions).

(** [open], on a new file *)
Definition SSTableBuilder_open : run SSTableBuilder :=
  match
    match o_filter_policy options with
    | Some _ =>
      match FilterBlockBuilder_new overflow_checks (o_filter_log_base options) with
      | Done b => Done (Some b)
      | Panicked => Panicked
      | OutOfFuel => OutOfFuel
      end
    | None => Done None
    end
  with
  | Done filter =>
    Done (mkSSTableBuilder [] 0 (Builder_new false 1) filter
            (Builder_new (o_use_delta_encoding options) (o_block_restart_interval options))
            ∅ (Unsorted_new false 1) None)
  | Panicked => Panicked
  | OutOfFuel => OutOfFuel
  end.

Definition estimated_file_size (s : SSTableBuilder) : Z :=
  sb_file_len s + Builder_current_size (sb_data_block_builder s) + Builder_current_size (sb_index_block_builder s).

(** The first half of [write_raw_block]. *)
Definition compress_block (block_buffer : bytes) : RR bytes :=
  match o_compression options with
  | CpNone => Done (inr block_buffer)
  | CpSnappy =>
    match snappy_compress crc32c_raw_oneshot block_buffer with
    | Done out => Done (inr out)
    | Panicked => Panicked
    | OutOfFuel => OutOfFuel
    end
  | CpZLib => Done (zlib_encode block_buffer)
  | _ => Done (inl EUnsupportedCompression)
  end.

Definition write_raw_block (block_buffer : bytes) : M SSTableBuilder (Result BlockHandle) :=
  try! compressed_data := lift_rr (compress_block block_buffer) in
  let! s := gets id in
  let block_handle := mkBlockHandle (sb_file_len s) (Z.of_nat (length compressed_data)) in
  let compressed_data := compressed_data ++ [CompressionType_to_value (o_compression options)] in
  try! checksum := ret (block_checksum (o_checksum options) compressed_data) in
  modify (sb_append (compressed_data ++ to_le_bytes 4 checksum)) ;!
  ret (inr block_handle).

Definition table_flush : M SSTableBuilder (Result unit) :=
  let! s := gets id in
  if Builder_empty (sb_data_block_builder s) then ret (inr tt) else
  try! (block_buffer, last_key, b) := lift_rr (Builder_finish (sb_data_block_builder s)) in
  modify (sb_set_data b) ;!
  try! block_handle := write_raw_block block_buffer in
  let! b := lift_run (Builder_set_buffer b block_buffer) in
  modify (sb_set_data b) ;!
  let! s := gets id in
  assert (bool_decide (sb_pending_data_block s = None)) ;!
  modify (sb_set_pending (Some (last_key, block_handle))) ;!
  match o_filter_policy options, sb_filter_block_builder s with
  | Some policy, Some filter_builder =>
    let! f := lift_run (start_block policy (sb_file_len s) filter_builder) in
    modify (sb_set_filter (Some f)) ;!
    ret (inr tt)
  | _, _ => ret (inr tt)
  end.

(** The handle goes to the index under [index_key]. *)
Definition index_add (index_key : option bytes) (handle : BlockHandle) : M SSTableBuilder unit :=
  let! index_key := unwrap index_key in
  let! s := gets id in
  modify (sb_set_index (Builder_add (sb_index_block_builder s) index_key (BlockHandle_serialized handle))).

Definition table_add (key value : bytes) : M SSTableBuilder (Result unit) :=
  let! s := gets id in
  try! _ :=
    (if (o_block_size options <? Builder_projected_size (sb_data_block_builder s) key value) &&
        (o_min_block_size options <? Builder_current_size (sb_data_block_builder s))
     then table_flush else ret (inr tt)) in
  let! s := gets id in
  modify (sb_set_pending None) ;!
  try! _ :=
    match sb_pending_data_block s with
    | Some (last_key, handle) =>
      let! c := unwrap (kc_compare (o_comparator options) last_key key) in
      match c with
      | Lt => index_add (kc_find_shortest_separator (o_comparator options) last_key key) handle ;! ret (inr tt)
      | _ => ret (inl EKeysOutOfOrder)
      end
    | None => ret (inr tt)
    end in
  let! s := gets id in
  modify (sb_set_data (Builder_add (sb_data_block_builder s) key value)) ;!
  modify (sb_set_filter (add_key key <$> sb_filter_block_builder s)) ;!
  ret (inr tt).

Definition add_custom_property (key value : bytes) (s : SSTableBuilder) : SSTableBuilder :=
  sb_set_properties_block (Unsorted_add (sb_properties_block_builder s) key value) s.

(** The filter block, if any, and its row of the metaindex. *)
Definition write_filter (metaindex_builder : UnsortedDataBlockBuilder)
    : M SSTableBuilder (Result UnsortedDataBlockBuilder) :=
  let! s := gets id in
  modify (sb_set_filter None) ;!
  match o_filter_policy options, sb_filter_block_builder s with
  | Some policy, Some filter_builder =>
    let! buffer := lift_run (filter_finish policy filter_builder) in
    try! handle := write_raw_block buffer in
    ret (inr (Unsorted_add metaindex_builder (FILTER_PREFIX ++ fp_name policy) (BlockHandle_serialized handle)))
  | _, _ => ret (inr metaindex_builder)
  end.

(** The properties block of these and the custom properties, if any, and its
    row of the metaindex. *)
Definition write_property_rows (properties : list (bytes * bytes)) (metaindex_builder : UnsortedDataBlockBuilder)
    : M SSTableBuilder (Result UnsortedDataBlockBuilder) :=
  modify (λ s, foldl (λ s kv, add_custom_property kv.1 kv.2 s) s properties) ;!
  let! s := gets id in
  if Unsorted_is_empty (sb_properties_block_builder s) then ret (inr metaindex_builder) else
  try! (buffer, u) := lift_rr (Unsorted_finish (sb_properties_block_builder s)) in
  modify (sb_set_properties_block u) ;!
  try! handle := write_raw_block buffer in
  ret (inr (Unsorted_add metaindex_builder METAINDEX_PROPERTIES_KEY (BlockHandle_serialized handle))).

Definition write_properties (metaindex_builder : UnsortedDataBlockBuilder)
    : M SSTableBuilder (Result UnsortedDataBlockBuilder) :=
  let! s := gets id in
  write_property_rows (serialize_table_properties (sb_properties s)) metaindex_builder.

(** [finish]; the result is the file it has written. *)
Definition table_finish : M SSTableBuilder (Result bytes) :=
  try! _ := table_flush in
  let! s := gets id in
  modify (sb_set_pending None) ;!
  match sb_pending_data_block s with
  | Some (last_key, handle) => index_add (kc_find_short_successor (o_comparator options) last_key) handle
  | None => ret tt
  end ;!
  try! metaindex_builder := write_filter (Unsorted_new false 1) in
  try! metaindex_builder := write_properties metaindex_builder in
  let! s := gets id in
  try! (buf, _, b) := lift_rr (Builder_finish (sb_index_block_builder s)) in
  modify (sb_set_index b) ;!
  try! index_handle := write_raw_block buf in
  try! (buf, _) := lift_rr (Unsorted_finish metaindex_builder) in
  try! metaindex_handle := write_raw_block buf in
  let! footer := lift_run (Footer_serialize (mkFooter CkCRC32C metaindex_handle index_handle 0)) in
  let! s := gets id in
  ret (inr (sb_file s ++ footer)).
End Builder.

(** ** The index *)

(** [trait SliceLike]; [sl_index] and the slices panic out of range. *)
Class SliceLike (S Item : Type) := {
  sl_len : S → nat;
  sl_index : S → nat → option Item;
  sl_slice : S → nat → nat → option S;
  sl_slice_from : S → nat → option S;
}.

(** The loop of [lower_bound_by] over any [SliceLike]; the slice shrinks in
    every round. *)
Fixpoint lower_bound_slice {S Item} `{!SliceLike S Item} (fuel : nat) (greater_eq : Item → option bool)
    (values : S) (offset : nat) (best : option nat) : run (option nat) :=
  if (sl_len values =? 0)%nat then Done best else
  match fuel with
  | O => OutOfFuel
  | S fuel =>
    let mid_idx := (sl_len values / 2)%nat in
    match (x ← sl_index values mid_idx; greater_eq x) with
    | None => Panicked
    | Some true =>
      match sl_slice values 0 mid_idx with
      | Some values => lower_bound_slice fuel greater_eq values offset (Some (mid_idx + offset)%nat)
      | None => Panicked
      end
    | Some false =>
      match sl_slice_from values (mid_idx + 1) with
      | Some values => lower_bound_slice fuel greater_eq values (offset + (mid_idx + 1)) best
      | None => Panicked
      end
    end
  end.

Record IndexBlockSlice := mkIndexBlockSlice {
  is_last_keys : bytes;
  is_last_key_offsets : list Z;
}.

Definition slice_index (s : IndexBlockSlice) (idx : nat) : option bytes :=
  start ← is_last_key_offsets s !! idx;
  let end_ := default (Z.of_nat (length (is_last_keys s)) mod 2 ^ 32) (is_last_key_offsets s !! (idx + 1)%nat) in
  if (end_ <? start) || (Z.of_nat (length (is_last_keys s)) <? end_) then None
  else Some (take (Z.to_nat (end_ - start)) (drop (Z.to_nat start) (is_last_keys s))).

(** [slice] and [slice_from] keep all the keys and cut the offsets. *)
#[export] Instance IndexBlockSlice_slice_like : SliceLike IndexBlockSlice bytes := {
  sl_len s := length (is_last_key_offsets s);
  sl_index := slice_index;
  sl_slice s start end_ :=
    if (start <=? end_)%nat && (end_ <=? length (is_last_key_offsets s))%nat then
      Some (mkIndexBlockSlice (is_last_keys s) (take (end_ - start) (drop start (is_last_key_offsets s))))
    else None;
  sl_slice_from s start :=
    if (start <=? length (is_last_key_offsets s))%nat then
      Some (mkIndexBlockSlice (is_last_keys s) (drop start (is_last_key_offsets s)))
    else None;
}.

Record IndexBlock := mkIndexBlock {
  ib_last_keys : bytes;
  ib_last_key_offsets : list Z;
  ib_block_handles : list BlockHandle;
}.

(** The loop of [create]; every row takes at least a byte of the block. *)
Fixpoint IndexBlock_loop (fuel : nat) (it : KeyValueIterator) (b : IndexBlock) : RR IndexBlock :=
  match kv_next it with
  | Done (None, _) => Done (inr b)
  | Done (Some (inl e), _) => Done (inl e)
  | Done (Some (inr (key, value)), it) =>
    match complete (BlockHandle_parse value) with
    | inl e => Done (inl e)
    | inr handle =>
      match fuel with
      | O => OutOfFuel
      | S fuel =>
        IndexBlock_loop fuel it
          (mkIndexBlock (ib_last_keys b ++ key)
             (ib_last_key_offsets b ++ [Z.of_nat (length (ib_last_keys b)) mod 2 ^ 32])
             (ib_block_handles b ++ [handle]))
      end
    end
  | Panicked => Panicked
  | OutOfFuel => OutOfFuel
  end.

Definition IndexBlock_create (block : DataBlockRef) : RR IndexBlock :=
  IndexBlock_loop (length (db_entries block)) (DataBlockRef_rows block) (mkIndexBlock [] [] []).

(** [Ordering::is_ge] *)
Definition is_ge (c : comparison) : bool := match c with Lt => false | _ => true end.

Definition IndexBlock_lookup (b : IndexBlock) (key : bytes) (comparator : KeyComparator) : run (option nat) :=
  lower_bound_slice (length (ib_last_key_offsets b)) (λ a, is_ge <$> kc_compare comparator a key)
    (mkIndexBlockSlice (ib_last_keys b) (ib_last_key_offsets b)) 0 None.

(** ** Opening a table *)

Record SSTable := mkSSTable {
  st_file : bytes;
  st_footer : Footer;
  st_index : IndexBlock;
  st_properties : TableProperties;
  st_filter : option (FilterPolicy * FilterBlockRef);
  st_comparator : KeyComparator;
}.

Section Open.
Context (zlib_decode : bytes → Result bytes).

(** [parse_properties]: a later row replaces an earlier one. *)
Fixpoint properties_loop (fuel : nat) (it : KeyValueIterator) (pairs : gmap bytes bytes) : RR (gmap bytes bytes) :=
  match kv_next it with
  | Done (None, _) => Done (inr pairs)
  | Done (Some (inl e), _) => Done (inl e)
  | Done (Some (inr (key, value)), it) =>
    match from_utf8 key, fuel with
    | inl e, _ => Done (inl e)
    | inr _, O => OutOfFuel
    | inr key, S fuel => properties_loop fuel it (<[key := value]> pairs)
    end
  | Panicked => Panicked
  | OutOfFuel => OutOfFuel
  end.

Definition parse_properties (block : DataBlockRef) : RR TableProperties :=
  rr! pairs := properties_loop (length (db_entries block)) (DataBlockRef_rows block) ∅ in
  Done (parse_table_properties pairs).

(** [strip_prefix] *)
Definition strip_prefix (prefix name : bytes) : option bytes :=
  if bool_decide (take (length prefix) name = prefix) then Some (drop (length prefix) name) else None.

(** A row of the metaindex. *)
Definition open_row (file : bytes) (footer : Footer) (registry : FilterPolicyRegistry) (key value : bytes)
    (props : TableProperties) (filter : option (FilterPolicy * FilterBlockRef))
    : RR (TableProperties * option (FilterPolicy * FilterBlockRef)) :=
  rr! name := Done (from_utf8 key) in
  rr! handle := Done (complete (BlockHandle_parse value)) in
  if bool_decide (name = METAINDEX_PROPERTIES_KEY) then
    rr! block := DataBlock_read zlib_decode file footer handle in
    rr! props := parse_properties block in
    Done (inr (props, filter))
  else
    match strip_prefix FILTER_PREFIX name with
    | Some filter_name =>
      match filter with
      | Some _ => Done (inl EManyFilters)
      | None =>
        match registry_get filter_name registry with
        | Some policy =>
          rr! block := FilterBlock_read zlib_decode file footer handle in
          Done (inr (props, Some (policy, block)))
        | None => Done (inr (props, filter))
        end
      end
    | None => Done (inr (props, filter))
    end.

Fixpoint open_loop (fuel : nat) (file : bytes) (footer : Footer) (registry : FilterPolicyRegistry)
    (it : KeyValueIterator) (props : TableProperties) (filter : option (FilterPolicy * FilterBlockRef))
    : RR (TableProperties * option (FilterPolicy * FilterBlockRef)) :=
  match kv_next it with
  | Done (None, _) => Done (inr (props, filter))
  | Done (Some (inl e), _) => Done (inl e)
  | Done (Some (inr (key, value)), it) =>
    rr! (props, filter) := open_row file footer registry key value props filter in
    match fuel with
    | O => OutOfFuel
    | S fuel => open_loop fuel file footer registry it props filter
    end
  | Panicked => Panicked
  | OutOfFuel => OutOfFuel
  end.

(** [open_impl] *)
Definition SSTable_open (file : bytes) (comparator : KeyComparator) (registry : FilterPolicyRegistry) : RR SSTable :=
  rr! footer := Footer_read_from_file file in
  rr! block := DataBlock_read zlib_decode file footer (ft_index_handle footer) in
  rr! index := IndexBlock_create block in
  rr! metaindex := DataBlock_read zlib_decode file footer (ft_metaindex_handle footer) in
  rr! (props, filter) :=
    open_loop (length (db_entries metaindex)) file footer registry (DataBlockRef_rows metaindex) ∅ None in
  Done (inr (mkSSTable file footer index props filter comparator)).

(** ** Iterating over a table

    Blocks come from the block cache, which returns what [DataBlock_read]
    gives. *)

Record SSTableIterator := mkSSTableIterator {
  ti_table : SSTable;
  ti_current_block_index : nat;
  ti_current_block : option KeyValueIterator;
}.

Definition SSTable_iter (t : SSTable) : SSTableIterator := mkSSTableIterator t 0 None.

Definition num_blocks (t : SSTable) : nat := length (ib_block_handles (st_index t)).

Definition read_block (t : SSTable) (handle : BlockHandle) : RR DataBlockRef :=
  DataBlock_read zlib_decode (st_file t) (st_footer t) handle.

Definition ti_set (index : nat) (block : option KeyValueIterator) : M SSTableIterator unit :=
  modify (λ s, mkSSTableIterator (ti_table s) index block).

(** The loop of [next]: a block is opened, or finished, or gives a row. *)
Fixpoint table_next_loop (fuel : nat) : M SSTableIterator (Result (option KeyValueEntry)) :=
  let! s := gets id in
  match ti_current_block s with
  | Some block_iter =>
    let! (res, block_iter) := lift_run (kv_next block_iter) in
    match res with
    | Some res =>
      ti_set (ti_current_block_index s) (Some block_iter) ;!
      match res with
      | inl e => ret (inl e)
      | inr kv => ret (inr (Some kv))
      end
    | None =>
      ti_set (ti_current_block_index s + 1) None ;!
      match fuel with O => out_of_fuel | S fuel => table_next_loop fuel end
    end
  | None =>
    match ib_block_handles (st_index (ti_table s)) !! ti_current_block_index s with
    | Some block_handle =>
      try! block := lift_rr (read_block (ti_table s) block_handle) in
      ti_set (ti_current_block_index s) (Some (DataBlockRef_rows block)) ;!
      match fuel with O => out_of_fuel | S fuel => table_next_loop fuel end
    | None => ret (inr None)
    end
  end.

(** Two rounds for every block that is left, and one for the current one. *)
Definition table_next : M SSTableIterator (Result (option KeyValueEntry)) :=
  let! s := gets id in
  table_next_loop (2 * num_blocks (ti_table s) + 1).

Definition table_seek (start_key : bytes) : M SSTableIterator (Result unit) :=
  let! s := gets id in
  let! index := lift_run (IndexBlock_lookup (st_index (ti_table s)) start_key (st_comparator (ti_table s))) in
  match index with
  | None => ti_set (num_blocks (ti_table s)) None ;! ret (inr tt)
  | Some block_index =>
    let! block_handle := unwrap (ib_block_handles (st_index (ti_table s)) !! block_index) in
    try! block := lift_rr (read_block (ti_table s) block_handle) in
    try! iter := lift_rr (DataBlockRef_before block start_key (st_comparator (ti_table s))) in
    ti_set block_index (Some iter) ;!
    ret (inr tt)
  end.

#[export] Instance SSTableIterator_iterable : Iterable SSTableIterator :=
  {| it_next := table_next; it_seek := table_seek |}.
End Open.
