(* ===== verification/TableProofs.v ===== *)
(** * Reading tables

    The footer and blocks that the writer stores are read back; what a table
    holds ([table_holds]), and that its iterator gives its rows. *)

From Stdlib Require Import String Ascii.
From S2P Require Import Prelude Algorithms Wire Encoding Crc Snappy SnappyTheorems Comparator DataBlock MergeIterator MergeIteratorTheorems Filter FilterTheorems Table.

(** ** The footer *)

Definition handle_ok (h : BlockHandle) : Prop := 0 ≤ bh_offset h < U64 ∧ 0 ≤ bh_size h < U64.

Lemma length_handle h : (length (BlockHandle_serialized h) ≤ 20)%nat.
Proof.
  unfold BlockHandle_serialized. rewrite length_app.
  pose proof (length_serialize_varint_le (bh_offset h)). pose proof (length_serialize_varint_le (bh_size h)). lia.
Qed.

Lemma resize_zero_le n l : (length l ≤ n)%nat → resize_zero n l = l ++ replicate (n - length l) 0.
Proof. intros H. unfold resize_zero. by rewrite take_ge. Qed.

Lemma length_footer_handles f : length (Footer_handles f) = 40%nat.
Proof.
  unfold Footer_handles, resize_zero. rewrite !length_app, length_take, length_replicate, !length_app.
  change (2 * BLOCK_HANDLE_MAX_SIZE)%nat with 40%nat. lia.
Qed.

Lemma zero_padding n : check_zero_padding (replicate n 0) = inr tt.
Proof. unfold check_zero_padding. by induction n. Qed.

(** The two handles and the zeros after them. *)
Lemma parse_footer_handles f rest :
  handle_ok (ft_metaindex_handle f) → handle_ok (ft_index_handle f) →
  ∃ rest' n, BlockHandle_parse (Footer_handles f ++ rest) = inr (ft_metaindex_handle f, rest') ∧
    BlockHandle_parse rest' = inr (ft_index_handle f, replicate n 0 ++ rest).
Proof.
  intros [H1 H2] [H3 H4]. unfold Footer_handles. change (2 * BLOCK_HANDLE_MAX_SIZE)%nat with 40%nat.
  pose proof (length_handle (ft_metaindex_handle f)). pose proof (length_handle (ft_index_handle f)).
  rewrite resize_zero_le by (rewrite length_app; lia). rewrite <- !(assoc_L (++)). eexists _, _.
  split; [by apply BlockHandle_roundtrip|]. by apply BlockHandle_roundtrip.
Qed.

Lemma footer_tail (a b : bytes) n : length b = n → drop (length (a ++ b) - n) (a ++ b) = b.
Proof. intros <-. rewrite length_app, Nat.add_sub. apply drop_app_length. Qed.

Lemma parse_legacy_footer f prefix :
  ft_footer_version f = 0 → ft_checksum_type f = CkCRC32C →
  handle_ok (ft_metaindex_handle f) → handle_ok (ft_index_handle f) →
  ∃ out, Footer_serialize f = Done out ∧ length out = 48%nat ∧ Footer_parse (prefix ++ out) = Done (inr f).
Proof.
  intros Hv Hc Hm Hi. unfold Footer_serialize. rewrite Hv, Hc. cbn [Z.eqb].
  rewrite bool_decide_eq_true_2 by done. eexists. split; [done|].
  rewrite length_app, length_footer_handles, length_to_le_bytes. split; [done|].
  set (magic := to_le_bytes 8 _). assert (length magic = 8%nat) as Hlm by apply length_to_le_bytes.
  unfold Footer_parse. rewrite min_size_ok by (rewrite !length_app, length_footer_handles, Hlm; unfold MAGIC_SIZE; lia).
  cbn [rr_bind]. rewrite (assoc_L (++)), (footer_tail _ magic) by done.
  rewrite (take_ge magic) by (rewrite Hlm; unfold MAGIC_SIZE; lia).
  assert (from_le_bytes magic = BLOCK_BASED_MAGIC_LEGACY) as -> by by apply from_to_le_bytes.
  change (BLOCK_BASED_MAGIC_LEGACY =? BLOCK_BASED_MAGIC) with false. rewrite Z.eqb_refl.
  rewrite min_size_ok by (rewrite !length_app, length_footer_handles, Hlm; unfold LEGACY_FOOTER_SIZE; lia).
  cbn [rr_bind].
  rewrite <- (assoc_L (++)), (footer_tail prefix (Footer_handles f ++ magic))
    by (rewrite length_app, length_footer_handles, Hlm; done).
  rewrite take_app_length' by (rewrite length_footer_handles; done).
  destruct (parse_footer_handles f [] Hm Hi) as (rest' & n & H1 & H2). rewrite app_nil_r in H1, H2.
  rewrite H1. cbn [rr_bind]. rewrite H2. cbn [rr_bind]. rewrite zero_padding. cbn [rr_bind].
  by destruct f; cbn in *; subst.
Qed.

Lemma parse_new_footer f prefix :
  1 ≤ ft_footer_version f < 2 ^ 32 → handle_ok (ft_metaindex_handle f) → handle_ok (ft_index_handle f) →
  ∃ out, Footer_serialize f = Done out ∧ length out = 53%nat ∧
    Footer_parse (prefix ++ out) = Done (inl EFooterVersion).
Proof.
  intros Hv Hm Hi. unfold Footer_serialize. rewrite (proj2 (Z.eqb_neq _ 0)) by lia. eexists. split; [done|].
  set (magic := to_le_bytes 8 _). assert (length magic = 8%nat) as Hlm by apply length_to_le_bytes.
  set (version := to_le_bytes 4 _). assert (length version = 4%nat) as Hlv by apply length_to_le_bytes.
  set (ck := ChecksumType_to_value _). set (out := ck :: _).
  assert (length out = 53%nat) as Hlo.
  { unfold out. cbn [length]. by rewrite !length_app, length_footer_handles, Hlv, Hlm. }
  split; [done|]. unfold Footer_parse. rewrite min_size_ok by (rewrite length_app; unfold MAGIC_SIZE; lia).
  cbn [rr_bind]. assert (prefix ++ out = (prefix ++ ck :: Footer_handles f ++ version) ++ magic) as E.
  { unfold out. rewrite <- (assoc_L (++) prefix). cbn [app]. by rewrite <- (assoc_L (++)). }
  rewrite E at 1 2. rewrite (footer_tail _ magic) by done.
  rewrite (take_ge magic) by (rewrite Hlm; unfold MAGIC_SIZE; lia).
  assert (from_le_bytes magic = BLOCK_BASED_MAGIC) as -> by by apply from_to_le_bytes. rewrite Z.eqb_refl.
  rewrite min_size_ok by (rewrite length_app; unfold FOOTER_SIZE; lia). cbn [rr_bind].
  rewrite (footer_tail prefix out) by done. unfold out, FOOTER_SIZE, MAGIC_SIZE. cbn [Nat.sub take head rr_of_option rr_bind].
  assert (ChecksumType_from_value ck = inr (ft_checksum_type f)) as -> by (unfold ck; by destruct (ft_checksum_type f)).
  cbn [rr_bind drop]. rewrite (assoc_L (++) (Footer_handles f)), take_app_length'
    by (rewrite length_app, length_footer_handles, Hlv; done).
  destruct (parse_footer_handles f version Hm Hi) as (rest' & n & H1 & H2).
  rewrite drop_0, H1. cbn [rr_bind]. rewrite H2. cbn [rr_bind].
  rewrite (proj2 (Nat.ltb_ge _ 4)) by (rewrite length_app; lia).
  replace (length (replicate n 0%Z ++ version) - 4)%nat with (length (replicate n 0%Z)) by (rewrite length_app; lia).
  rewrite take_app_length, zero_padding. cbn [rr_bind]. rewrite drop_app_length, (take_ge version) by lia.
  unfold version. rewrite from_to_le_bytes by (change (256 ^ Z.of_nat 4) with (2 ^ 32); lia).
  rewrite (proj2 (Z.eqb_neq _ 0)) by lia. rewrite (proj2 (Z.leb_le _ _)); [done|].
  unfold MAX_SUPPORTED_FOOTER_VERSION. lia.
Qed.

(** ** Blocks in a file *)

Lemma CompressionType_from_to t : CompressionType_from_value (CompressionType_to_value t) = inr t.
Proof. by destruct t. Qed.

(** The bytes of a block in the file. *)
Definition block_bytes (t : CompressionType) (compressed : bytes) : bytes :=
  let data := compressed ++ [CompressionType_to_value t] in
  data ++ to_le_bytes 4 (masked (crc32c_update data CRC32CHasher_new)).

Lemma length_block_bytes t compressed : length (block_bytes t compressed) = (length compressed + 5)%nat.
Proof. unfold block_bytes. rewrite !length_app, length_to_le_bytes. cbn. lia. Qed.

Lemma read_block_bytes file t compressed suffix footer :
  ft_checksum_type footer = CkCRC32C → Z.of_nat (length compressed) + 5 ≤ U64_MAX →
  RawBlock_read ((file ++ block_bytes t compressed) ++ suffix) footer
    (mkBlockHandle (Z.of_nat (length file)) (Z.of_nat (length compressed))) = Done (inr (mkRawBlock compressed t)).
Proof.
  intros Hf Hl. unfold RawBlock_read. cbn [bh_size bh_offset].
  rewrite (proj2 (Z.ltb_ge U64_MAX _)) by (unfold BLOCK_TRAILER_SIZE; lia).
  unfold read_exact_at. rewrite !length_app, length_block_bytes, (proj2 (Z.ltb_ge _ _)) by (unfold BLOCK_TRAILER_SIZE; lia).
  cbn [rr_bind]. rewrite !Nat2Z.id, <- (assoc_L (++)), drop_app_length.
  replace (Z.to_nat (Z.of_nat (length compressed) + Z.of_nat BLOCK_TRAILER_SIZE))
    with (length (block_bytes t compressed)) by (rewrite length_block_bytes; unfold BLOCK_TRAILER_SIZE; lia).
  rewrite take_app_length. unfold block_bytes. set (data := compressed ++ _).
  set (sum := masked _).
  assert (drop (length compressed) (data ++ to_le_bytes 4 sum) = CompressionType_to_value t :: to_le_bytes 4 sum) as ->.
  { unfold data. by rewrite <- (assoc_L (++)), drop_app_length. }
  cbn [head rr_of_option rr_bind]. rewrite CompressionType_from_to. cbn [rr_bind drop]. rewrite drop_0.
  rewrite (take_ge (to_le_bytes 4 sum)) by (by rewrite length_to_le_bytes).
  rewrite from_to_le_bytes by (unfold sum, masked; apply Z.mod_pos_bound; done).
  replace (length compressed + 1)%nat with (length data) by (unfold data; rewrite length_app; cbn; lia).
  rewrite take_app_length, Hf. cbn [block_checksum rr_bind]. fold sum. rewrite Z.eqb_refl. cbn [negb].
  unfold data. rewrite <- (assoc_L (++)), take_app_length. done.
Qed.

(** The zlib library decodes what it encodes, in little more space than the
    data takes. *)
Definition zlib_ok (zlib_encode zlib_decode : bytes → Result bytes) : Prop :=
  ∀ data, ∃ compressed, zlib_encode data = inr compressed ∧ zlib_decode compressed = inr data ∧
    (length compressed ≤ 6 * length data + 10)%nat.

(** The compression types that the builder supports. *)
Definition compression_ok (zlib_encode zlib_decode : bytes → Result bytes) (t : CompressionType) : Prop :=
  t = CpNone ∨ t = CpSnappy ∨ (t = CpZLib ∧ zlib_ok zlib_encode zlib_decode).

Section Stored.
Context (zlib_decode : bytes → Result bytes).

(** The block at [h] of a file that starts with [file] is [data]. *)
Definition stored_raw (file : bytes) (h : BlockHandle) (data : bytes) : Prop :=
  handle_ok h ∧
  ∀ suffix footer, ft_checksum_type footer = CkCRC32C →
    ∃ raw, RawBlock_read (file ++ suffix) footer h = Done (inr raw) ∧
           RawBlock_decompress zlib_decode raw = Done (inr data).

(** It is a block of the given rows. *)
Definition stored (file : bytes) (h : BlockHandle) (rows : list (bytes * bytes)) : Prop :=
  ∃ data ref, stored_raw file h data ∧ DataBlockRef_parse data = inr ref ∧ block_holds ref rows.

Lemma stored_raw_app file h data more : stored_raw file h data → stored_raw (file ++ more) h data.
Proof.
  intros [Hh H]. split; [done|]. intros suffix footer Hf. destruct (H (more ++ suffix) footer Hf) as (raw & H1 & H2).
  exists raw. by rewrite <- (assoc_L (++)).
Qed.

Lemma stored_app file h rows more : stored file h rows → stored (file ++ more) h rows.
Proof. intros (data & ref & H1 & H2). exists data, ref. split; [by apply stored_raw_app|done]. Qed.

Lemma stored_read file h rows suffix footer :
  stored file h rows → ft_checksum_type footer = CkCRC32C →
  ∃ ref, DataBlock_read zlib_decode (file ++ suffix) footer h = Done (inr ref) ∧ block_holds ref rows.
Proof.
  intros (data & ref & [_ H1] & H2 & H3) Hf. destruct (H1 suffix footer Hf) as (raw & Hr & Hd).
  exists ref. unfold DataBlock_read. rewrite Hr. cbn [rr_bind]. rewrite Hd. cbn [rr_bind]. by rewrite H2.
Qed.

Context (crc32c_raw_oneshot : Z → Z) (zlib_encode : bytes → Result bytes) (options : SSTableBuilderOptions).
Hypothesis Hcompression : compression_ok zlib_encode zlib_decode (o_compression options).
Hypothesis Hchecksum : o_checksum options = CkCRC32C.

Lemma compress_block_ok buffer :
  Z.of_nat (length buffer) ≤ 2 ^ 32 →
  ∃ compressed, compress_block crc32c_raw_oneshot zlib_encode options buffer = Done (inr compressed) ∧
    RawBlock_decompress zlib_decode (mkRawBlock compressed (o_compression options)) = Done (inr buffer) ∧
    (length compressed ≤ 6 * length buffer + 10)%nat.
Proof.
  intros Hl. unfold compress_block. destruct Hcompression as [->|[->|[-> Hz]]].
  - exists buffer. split; [done|]. split; [done|lia].
  - destruct (decompress_compressed crc32c_raw_oneshot buffer [] Hl) as (c & -> & Hd & Hc). exists c.
    split; [done|]. split; [|done]. unfold RawBlock_decompress. cbn. rewrite app_nil_r in Hd. by rewrite Hd.
  - destruct (Hz buffer) as (c & -> & Hd & Hc). exists c. split; [done|]. split; [|done].
    unfold RawBlock_decompress. cbn. by rewrite Hd.
Qed.

Lemma write_raw_block_ok buffer s :
  Z.of_nat (length buffer) ≤ 2 ^ 32 → sb_file_len s = Z.of_nat (length (sb_file s)) →
  Z.of_nat (length (sb_file s)) < U64 →
  ∃ h data, write_raw_block crc32c_raw_oneshot zlib_encode options buffer s = Done (inr h, sb_append data s) ∧
    stored_raw (sb_file s ++ data) h buffer ∧ bh_offset h = sb_file_len s ∧
    (length data ≤ 6 * length buffer + 15)%nat.
Proof.
  intros Hl Hs Hf. destruct (compress_block_ok buffer Hl) as (c & Hc & Hd & Hlc).
  exists (mkBlockHandle (sb_file_len s) (Z.of_nat (length c))), (block_bytes (o_compression options) c).
  unfold write_raw_block, try_bind, bind, lift_rr, gets, ret, modify. rewrite Hc, Hchecksum. cbn [block_checksum].
  split; [done|]. split.
  - split; [split; cbn; unfold U64 in *; lia|]. intros suffix footer Hft.
    eexists. split; [rewrite Hs; apply read_block_bytes; [done|unfold U64_MAX; lia]|done].
  - split; [done|]. rewrite length_block_bytes. lia.
Qed.
End Stored.

(** ** Searching the index *)

(** A data block: its key in the index, its handle and its rows. *)
Record TBlock := mkTBlock { tb_key : bytes; tb_handle : BlockHandle; tb_rows : list (bytes * bytes) }.

Definition index_of (blocks : list TBlock) : IndexBlock :=
  mkIndexBlock (concat (tb_key <$> blocks)) (offsets_of (tb_key <$> blocks)) (tb_handle <$> blocks).

(** The slice of an index from [a] to [b]. *)
Definition index_slice (keys : list bytes) (a b : nat) : IndexBlockSlice :=
  mkIndexBlockSlice (concat keys) (take (b - a) (drop a (offsets_of keys))).

(** What follows the key [i] in the buffer. *)
Definition keys_after (keys : list bytes) (i : nat) : bytes := concat (drop (S i) keys).

Lemma concat_from (keys : list bytes) i k :
  keys !! i = Some k → drop (length (concat (take i keys))) (concat keys) = k ++ keys_after keys i.
Proof.
  intros Hk. rewrite <- (take_drop_middle _ _ _ Hk) at 2. by rewrite concat_app, drop_app_length.
Qed.

(** The last element of a slice runs to the end of the buffer. *)
Lemma slice_index_ok keys a b i k :
  Z.of_nat (length (concat keys)) < U32 → (b ≤ length keys)%nat → (a + i < b)%nat → keys !! (a + i)%nat = Some k →
  slice_index (index_slice keys a b) i =
    Some (if (S (a + i) <? b)%nat then k else k ++ keys_after keys (a + i)).
Proof.
  intros Hs Hb Hi Hk. unfold slice_index, index_slice. cbn [is_last_keys is_last_key_offsets].
  assert (∀ j, (a + j < b)%nat → take (b - a) (drop a (offsets_of keys)) !! j =
            Some (Z.of_nat (length (concat (take (a + j) keys))))) as Hl.
  { intros j Hj. rewrite lookup_take_lt by lia. rewrite lookup_drop, offsets_of_lookup by lia.
    pose proof (concat_take_le keys (a + j)). by rewrite Z.mod_small by lia. }
  rewrite (Hl i) by lia. cbn [mbind option_bind].
  pose proof (concat_take_le keys (a + i)). pose proof (concat_take_le keys (S (a + i))).
  assert (length (concat (take (S (a + i)) keys)) = length (concat (take (a + i) keys)) + length k)%nat as HS.
  { rewrite (take_S_r _ _ _ Hk), concat_app, length_app. cbn. by rewrite app_nil_r. }
  destruct (Nat.ltb_spec (S (a + i)) b).
  - rewrite (Hl (i + 1)%nat) by lia. cbn [default]. replace (a + (i + 1))%nat with (S (a + i)) by lia.
    change (id (Z.of_nat (length (concat (take (S (a + i)) keys)))))
      with (Z.of_nat (length (concat (take (S (a + i)) keys)))).
    rewrite !(proj2 (Z.ltb_ge _ _)) by lia. cbn [orb]. rewrite Nat2Z.id, <- Nat2Z.inj_sub, Nat2Z.id by lia.
    by rewrite (concat_segment _ _ _ Hk).
  - rewrite lookup_ge_None_2 by (rewrite length_take; lia). cbn [default].
    rewrite (Z.mod_small (Z.of_nat (length (concat keys)))) by (unfold U32 in Hs; lia).
    rewrite !(proj2 (Z.ltb_ge _ _)) by lia. cbn [orb]. rewrite Nat2Z.id, (concat_from _ _ _ Hk).
    rewrite take_ge; [done|]. rewrite <- (concat_from _ _ _ Hk), length_drop. lia.
Qed.

Section Lookup.
Context (keys : list bytes) (greater_eq : bytes → option bool).
Hypothesis Hsize : Z.of_nat (length (concat keys)) < U32.

(** The comparisons that a search makes; one with what follows the key can
    only be larger. *)
Definition comparable (i : nat) (k : bytes) : Prop :=
  ∃ x y, greater_eq k = Some x ∧ greater_eq (k ++ keys_after keys i) = Some y ∧ (x = true → y = true).
Hypothesis Hcmp : ∀ i k, keys !! i = Some k → comparable i k.

(** From the [j]-th key on the keys are large enough. *)
Context (j : nat).
Hypothesis Hj : ∀ i k, keys !! i = Some k → greater_eq k = Some (bool_decide (j ≤ i)%nat).

(** A key was large enough, alone or with what follows it. *)
Definition seems_ge (i : nat) : Prop :=
  ∃ k, keys !! i = Some k ∧ (greater_eq k = Some true ∨ greater_eq (k ++ keys_after keys i) = Some true).

Lemma lower_bound_index fuel a b best :
  (a ≤ b ≤ length keys)%nat → (b - a ≤ fuel)%nat → (a ≤ j)%nat →
  match best with None => b = length keys | Some r => r = b ∧ seems_ge r end →
  ∃ res, lower_bound_slice fuel greater_eq (index_slice keys a b) a best = Done res ∧
    match res with None => (length keys ≤ j)%nat | Some r => (r ≤ j)%nat ∧ seems_ge r end.
Proof.
  revert a b best. induction fuel as [|fuel IH]; intros a b best Hab Hf Haj Hbest.
  - cbn [lower_bound_slice]. assert (sl_len (index_slice keys a b) = 0%nat) as ->.
    { cbn. rewrite length_take. lia. }
    cbn [Nat.eqb]. eexists. split; [done|]. destruct best as [r|]; [|lia]. destruct Hbest. split; [lia|done].
  - cbn [lower_bound_slice]. assert (sl_len (index_slice keys a b) = (b - a)%nat) as Hlen.
    { cbn. rewrite length_take, length_drop, length_offsets_of. lia. }
    rewrite Hlen. destruct (Nat.eqb_spec (b - a) 0) as [E|E].
    { eexists. split; [done|]. destruct best as [r|]; [|lia]. destruct Hbest. split; [lia|done]. }
    set (mid := ((b - a) / 2)%nat). assert (a + mid < b)%nat as Hmid.
    { unfold mid. pose proof (Nat.div_lt (b - a) 2 ltac:(lia) ltac:(lia)). lia. }
    destruct (lookup_lt_is_Some_2 keys (a + mid)) as [k Hk]; [lia|].
    cbn [sl_index IndexBlockSlice_slice_like]. rewrite (slice_index_ok keys a b mid k Hsize (proj2 Hab) Hmid Hk). cbn [mbind option_bind].
    destruct (Hcmp _ _ Hk) as (x & y & Hx & Hy & Hxy). pose proof (Hj _ _ Hk) as Hjk.
    assert (∃ z, greater_eq (if (S (a + mid) <? b)%nat then k else k ++ keys_after keys (a + mid)) = Some z ∧
                 (x = true → z = true) ∧ (z = true → seems_ge (a + mid))) as (z & -> & Hxz & Hz).
    { destruct (_ <? _)%nat; [exists x|exists y]; (split; [done|]); (split; [done|]); intros ->;
        exists k; (split; [done|]); [by left|by right]. }
    destruct z.
    + cbn [sl_slice IndexBlockSlice_slice_like index_slice is_last_key_offsets is_last_keys].
      cbn [Nat.leb andb]. rewrite (proj2 (Nat.leb_le mid _)) by (rewrite length_take, length_drop, length_offsets_of; lia).
      rewrite Nat.sub_0_r, drop_0, take_take, Nat.min_l by lia.
      destruct (IH a (a + mid)%nat (Some (mid + a)%nat)) as (res & Hr & Hres); [lia|lia|done| |].
      { split; [lia|]. rewrite Nat.add_comm. by apply Hz. }
      unfold index_slice in Hr. replace (a + mid - a)%nat with mid in Hr by lia. by exists res.
    + assert (x = false) as -> by (destruct x; [by rewrite Hxz|done]).
      rewrite Hx in Hjk. injection Hjk as Hjk. symmetry in Hjk. apply bool_decide_eq_false in Hjk.
      cbn [sl_slice_from IndexBlockSlice_slice_like index_slice is_last_key_offsets is_last_keys].
      rewrite (proj2 (Nat.leb_le _ _)) by (rewrite length_take, length_drop, length_offsets_of; lia).
      rewrite skipn_firstn_comm, drop_drop.
      destruct (IH (a + (mid + 1))%nat b best) as (res & Hr & Hres); [lia|lia|lia|done|].
      unfold index_slice in Hr. replace (b - (a + (mid + 1)))%nat with (b - a - (mid + 1))%nat in Hr by lia.
      by exists res.
Qed.
End Lookup.

(** ** Iterating *)

Section Iterate.
Context (zlib_decode : bytes → Result bytes) (c : KeyComparator) `{!KeyComparatorLaws c}.

Definition block_rows_of (blocks : list TBlock) : list (bytes * bytes) := concat (tb_rows <$> blocks).

(** The key of a block is at or after its rows and before those of the
    blocks after it. *)
Definition separates (blocks : list TBlock) : Prop :=
  ∀ i b, blocks !! i = Some b →
    kc_key (tb_key b) ∧ tb_rows b ≠ [] ∧ Forall (λ row, kc_le row.1 (tb_key b)) (tb_rows b) ∧
    Forall (λ row, ¬ kc_le row.1 (tb_key b)) (block_rows_of (drop (S i) blocks)).

Record table_holds (t : SSTable) (blocks : list TBlock) : Prop := mkTableHolds {
  th_comparator : st_comparator t = c;
  th_index : st_index t = index_of blocks;
  th_size : Z.of_nat (length (concat (tb_key <$> blocks))) < U32;
  th_blocks : Forall (λ b, ∃ ref, read_block zlib_decode t (tb_handle b) = Done (inr ref) ∧
                                  block_holds ref (tb_rows b)) blocks;
  th_entries : entries_ok c (block_rows_of blocks);
  th_separates : separates blocks;
}.

(** [i] iterates over a table with the rows [all], of which [rest] is left. *)
Definition table_rep (i : SSTableIterator) (all rest : list (bytes * bytes)) : Prop :=
  ∃ blocks, table_holds (ti_table i) blocks ∧ all = block_rows_of blocks ∧
    match ti_current_block i with
    | None => rest = block_rows_of (drop (ti_current_block_index i) blocks)
    | Some it =>
      (ti_current_block_index i < length blocks)%nat ∧
      ∃ rows, iter_rows it rows ∧ rest = rows ++ block_rows_of (drop (S (ti_current_block_index i)) blocks)
    end.

Lemma drop_block blocks i b :
  blocks !! i = Some b → block_rows_of (drop i blocks) = tb_rows b ++ block_rows_of (drop (S i) blocks).
Proof. intros Hb. by rewrite (drop_S _ _ _ Hb). Qed.

Lemma holds_num_blocks t blocks : table_holds t blocks → num_blocks t = length blocks.
Proof. intros H. unfold num_blocks. rewrite (th_index _ _ H). cbn. apply length_fmap. Qed.

Lemma holds_handle t blocks i :
  table_holds t blocks → ib_block_handles (st_index t) !! i = tb_handle <$> blocks !! i.
Proof. intros H. rewrite (th_index _ _ H). cbn. by rewrite list_lookup_fmap. Qed.

(** The rounds that are needed at most. *)
Definition rounds (i : SSTableIterator) : nat :=
  let n := (num_blocks (ti_table i) - ti_current_block_index i)%nat in
  match ti_current_block i with Some _ => (2 * n - 1)%nat | None => (2 * n)%nat end.

Lemma table_next_loop_ok fuel i all rest :
  table_rep i all rest → (rounds i ≤ fuel)%nat →
  ∃ i', table_next_loop zlib_decode fuel i = Done (inr (head rest), i') ∧ table_rep i' all (tail rest).
Proof.
  revert i rest. induction fuel as [|fuel IH]; intros i rest (blocks & Ht & Ha & Hcur) Hr;
    unfold rounds in Hr; rewrite (holds_num_blocks _ _ Ht) in Hr.
  all: cbn [table_next_loop]; unfold bind, gets, id, ret, lift_run, ti_set, modify, out_of_fuel.
  all: destruct (ti_current_block i) as [it|] eqn:Ecur.
  - destruct Hcur as [Hlt _]. lia.
  - rewrite (holds_handle _ _ _ Ht), lookup_ge_None_2 by lia. cbn [fmap option_fmap option_map].
    rewrite drop_ge in Hcur by lia. subst rest. exists i. split; [done|].
    exists blocks. rewrite Ecur, drop_ge by lia. done.
  - destruct Hcur as (Hlt & rows & Hrows & Hrest). apply iter_rows_next in Hrows as Hnext.
    destruct rows as [|row rows]; [|destruct Hnext as (it' & Hnext & Hrows')]; rewrite Hnext.
    + apply IH.
      * exists blocks. split; [done|]. split; [done|]. cbn. by rewrite Hrest, Nat.add_1_r.
      * unfold rounds. cbn. rewrite (holds_num_blocks _ _ Ht). lia.
    + subst rest. eexists. split; [done|]. exists blocks. split; [done|]. split; [done|]. cbn. eauto.
  - rewrite (holds_handle _ _ _ Ht). destruct (blocks !! ti_current_block_index i) as [b|] eqn:Eb.
    + cbn [fmap option_fmap option_map]. unfold try_bind, bind, lift_rr.
      pose proof (proj1 (Forall_lookup _ _) (th_blocks _ _ Ht) _ _ Eb) as (ref & -> & Hh).
      pose proof (lookup_lt_Some _ _ _ Eb). apply IH.
      * exists blocks. split; [done|]. split; [done|]. cbn. split; [done|]. exists (tb_rows b).
        split; [by apply block_holds_rows|]. by rewrite Hcur, (drop_block _ _ _ Eb).
      * unfold rounds. cbn. rewrite (holds_num_blocks _ _ Ht). lia.
    + cbn [fmap option_fmap option_map]. apply lookup_ge_None in Eb. rewrite drop_ge in Hcur by lia. subst rest.
      exists i. split; [done|]. exists blocks. rewrite Ecur, drop_ge by lia. done.
Qed.

Lemma table_next_ok i all rest :
  table_rep i all rest →
  ∃ i', table_next zlib_decode i = Done (inr (head rest), i') ∧ table_rep i' all (tail rest).
Proof.
  intros H. unfold table_next, bind, gets. apply table_next_loop_ok; [done|].
  unfold rounds. change (id i) with i. destruct (ti_current_block i); lia.
Qed.

(** Keys that are large enough are so from some position on. *)
Lemma upward_split {A} (P : A → Prop) `{!∀ x, Decision (P x)} (l : list A) :
  (∀ i i' x y, (i < i')%nat → l !! i = Some x → l !! i' = Some y → P x → P y) →
  ∃ j, (j ≤ length l)%nat ∧ ∀ i x, l !! i = Some x → (P x ↔ (j ≤ i)%nat).
Proof.
  induction l as [|x l IH]; intros Hup; [by exists 0%nat|].
  destruct (decide (P x)) as [Hx|Hx].
  - exists 0%nat. split; [lia|]. intros [|i] y Hy; [cbn in Hy; simplify_eq; split; [lia|done]|].
    split; [lia|]. intros _. apply (Hup 0%nat (S i) x y); [lia|done|done|done].
  - destruct IH as (j & Hj & Hl).
    + intros i i' y z Hi Hy Hz. apply (Hup (S i) (S i') y z); [lia|done|done].
    + exists (S j). split; [cbn; lia|]. intros [|i] y Hy; [cbn in Hy; simplify_eq; split; [done|lia]|].
      rewrite (Hl i y Hy). lia.
Qed.

Context (key : bytes) (Hkey : kc_key key).
Definition index_ge (a : bytes) : option bool := is_ge <$> kc_compare c a key.

Lemma index_ge_spec k : kc_key k → index_ge k = Some (bool_decide (kc_le key k)).
Proof.
  intros Hk. unfold index_ge. destruct (kc_compare_spec k key Hk Hkey) as (o & -> & Ho). cbn. f_equal. symmetry.
  destruct o; cbn; [apply bool_decide_eq_true, Ho|by apply bool_decide_eq_false|].
  apply bool_decide_eq_true. by destruct (kc_le_total key k).
Qed.

Context (blocks : list TBlock) (Hsep : separates blocks).

Lemma separators_up i i' b b' :
  (i < i')%nat → blocks !! i = Some b → blocks !! i' = Some b' → kc_le (tb_key b) (tb_key b').
Proof.
  intros Hi Hb Hb'. destruct (Hsep _ _ Hb) as (_ & _ & _ & Hafter). destruct (Hsep _ _ Hb') as (_ & Hne & Hle & _).
  destruct (tb_rows b') as [|row rows] eqn:E; [done|]. apply Forall_cons in Hle as [Hle _].
  rewrite Forall_forall in Hafter. assert (¬ kc_le row.1 (tb_key b)) as Hn.
  { apply Hafter. unfold block_rows_of. apply list_elem_of_In, in_concat. exists (tb_rows b').
    rewrite E. split; [|by left]. apply list_elem_of_In, list_elem_of_fmap. exists b'. split; [done|].
    apply (list_elem_of_lookup_2 _ (i' - S i)). rewrite lookup_drop. by replace (S i + (i' - S i))%nat with i' by lia. }
  etrans; [|exact Hle]. by destruct (kc_le_total row.1 (tb_key b)).
Qed.

(** The first block with a key at or after the one that is sought. *)
Lemma first_block :
  ∃ j, (j ≤ length blocks)%nat ∧ ∀ i b, blocks !! i = Some b → (kc_le key (tb_key b) ↔ (j ≤ i)%nat).
Proof.
  apply (upward_split (λ b, kc_le key (tb_key b))). intros i i' b b' Hi Hb Hb' Hle.
  etrans; [exact Hle|]. by eapply separators_up.
Qed.

Context (j : nat) (Hj : ∀ i b, blocks !! i = Some b → (kc_le key (tb_key b) ↔ (j ≤ i)%nat)).

(** Rows of earlier blocks are before the key. *)
Lemma rows_before i b : blocks !! i = Some b → (i < j)%nat → Forall (λ row, ¬ kc_le key row.1) (tb_rows b).
Proof.
  intros Hb Hi. destruct (Hsep _ _ Hb) as (_ & _ & Hle & _). eapply Forall_impl; [exact Hle|].
  intros row Hr Hk. apply (Nat.lt_irrefl i). apply (Nat.lt_le_trans _ j); [done|]. apply (Hj _ _ Hb). by etrans.
Qed.

Lemma rows_from_block i :
  (i ≤ j)%nat → filter (λ e, kc_le key e.1) (block_rows_of blocks) =
                filter (λ e, kc_le key e.1) (block_rows_of (drop i blocks)).
Proof.
  intros Hi. rewrite <- (take_drop i blocks) at 1. unfold block_rows_of. rewrite fmap_app, concat_app, filter_app.
  rewrite filter_none; [done|]. apply Forall_forall. intros row Hrow.
  apply list_elem_of_In, in_concat in Hrow as (rows & Hrows & Hrow).
  apply list_elem_of_In, list_elem_of_fmap in Hrows as (b & -> & [i' Hb]%list_elem_of_lookup).
  apply lookup_take_Some in Hb as [Hb Hi']. apply list_elem_of_In in Hrow.
  pose proof (rows_before i' b Hb ltac:(lia)) as Hall. rewrite Forall_forall in Hall. by apply Hall.
Qed.

Lemma rows_after i b :
  blocks !! i = Some b → (j ≤ i)%nat → Forall (λ row, kc_le key row.1) (block_rows_of (drop (S i) blocks)).
Proof.
  intros Hb Hi. destruct (Hsep _ _ Hb) as (_ & _ & _ & Hafter). eapply Forall_impl; [exact Hafter|].
  intros row Hr. cbn in Hr. etrans; [by apply (Hj _ _ Hb)|]. by destruct (kc_le_total row.1 (tb_key b)).
Qed.

(** From the block [r] on, the rows of its search and all after it cover the
    rows from the key on, and are these when [r] is the first block. *)
Lemma found_rows r b :
  entries_ok c (block_rows_of blocks) → blocks !! r = Some b → (r ≤ j)%nat →
  ∃ extra, filter (λ e, kc_le key e.1) (tb_rows b) ++ block_rows_of (drop (S r) blocks) =
           extra ++ filter (λ e, kc_le key e.1) (block_rows_of blocks) ∧
    Forall (λ e, ¬ kc_le key e.1) extra ∧
    (r = j ∧ extra = [] ∨
     (r < j)%nat ∧ block_rows_of (drop (S r) blocks) = extra ++ filter (λ e, kc_le key e.1) (block_rows_of blocks)).
Proof.
  intros He Hb Hr. rewrite (rows_from_block r Hr), (drop_block _ _ _ Hb), filter_app.
  destruct (decide (r = j)) as [->|Hne].
  - exists []. rewrite (filter_all _ (block_rows_of (drop (S j) blocks))) by (by eapply rows_after).
    split; [done|]. split; [constructor|by left].
  - rewrite (filter_none _ (tb_rows b)) by (apply (rows_before r); [done|lia]). cbn [app].
    assert (entries_ok c (block_rows_of (drop (S r) blocks))) as He'.
    { eapply entries_suffix; [exact He|]. exists (block_rows_of (take (S r) blocks)).
      unfold block_rows_of. by rewrite <- concat_app, <- fmap_app, take_drop. }
    destruct (from_key_suffix c key _ He') as [extra Hx]. exists extra. unfold from_key in Hx.
    split; [exact Hx|]. split; [|right; split; [lia|exact Hx]].
    apply Forall_forall. intros e Hin Hle. assert (e ∈ filter (λ e, kc_le key e.1) extra) as Hf by by apply list_elem_of_filter.
    apply (f_equal (filter (λ e, kc_le key e.1))) in Hx. rewrite filter_app, (filter_filter_impl _ _ _) in Hx by done.
    apply (f_equal length) in Hx. rewrite length_app in Hx. apply list_elem_of_In in Hf.
    destruct (filter _ extra); [done|cbn in Hx; lia].
Qed.
End Iterate.

Section Seek.
Context (zlib_decode : bytes → Result bytes) (c : KeyComparator) `{!KeyComparatorLaws c}.

(** Every comparison of the search is defined, and one with what follows a
    key finds it at or after the key that is sought when it is. *)
Definition searchable (blocks : list TBlock) (key : bytes) : Prop :=
  ∀ i k, (tb_key <$> blocks) !! i = Some k → comparable (tb_key <$> blocks) (index_ge c key) i k.

(** The search took the block [r] for one from the key on, because of what
    follows its key. *)
Definition mistaken (blocks : list TBlock) (key : bytes) (r : nat) (b : TBlock) : Prop :=
  blocks !! r = Some b ∧ ¬ kc_le key (tb_key b) ∧
  index_ge c key (tb_key b ++ keys_after (tb_key <$> blocks) r) = Some true.

Lemma lookup_ok t blocks key :
  table_holds zlib_decode c t blocks → kc_key key → searchable blocks key →
  ∃ j res, (∀ i b, blocks !! i = Some b → (kc_le key (tb_key b) ↔ (j ≤ i)%nat)) ∧ (j ≤ length blocks)%nat ∧
    IndexBlock_lookup (st_index t) key (st_comparator t) = Done res ∧
    match res with
    | None => j = length blocks
    | Some r => (r ≤ j)%nat ∧ (r < length blocks)%nat ∧ seems_ge (tb_key <$> blocks) (index_ge c key) r
    end.
Proof.
  intros Ht Hkey Hs. destruct (first_block c key blocks (th_separates _ _ _ _ Ht)) as (j & Hjn & Hj).
  assert (∀ i k, (tb_key <$> blocks) !! i = Some k → index_ge c key k = Some (bool_decide (j ≤ i)%nat)) as Hk.
  { intros i k Hk. apply list_lookup_fmap_Some in Hk as (b & -> & Hb).
    destruct (th_separates _ _ _ _ Ht i b Hb) as [Hkb _].
    rewrite (index_ge_spec c key Hkey _ Hkb). f_equal. apply bool_decide_ext, Hj, Hb. }
  destruct (lower_bound_index (tb_key <$> blocks) (index_ge c key) (th_size _ _ _ _ Ht) Hs j Hk
    (length blocks) 0 (length blocks) None) as (res & Hres & Hr).
  { rewrite length_fmap. lia. }
  { lia. }
  { lia. }
  { by rewrite length_fmap. }
  exists j, res. split; [done|]. split; [done|].
  unfold IndexBlock_lookup. rewrite (th_index _ _ _ _ Ht), (th_comparator _ _ _ _ Ht). cbn [index_of ib_last_keys ib_last_key_offsets].
  split.
  - rewrite length_offsets_of, length_fmap. unfold index_slice in Hres. rewrite drop_0, Nat.sub_0_r in Hres.
    rewrite take_ge in Hres by (rewrite length_offsets_of, length_fmap; lia). exact Hres.
  - destruct res as [r|]; [|rewrite length_fmap in Hr; lia]. destruct Hr as (Hrj & k & Hkr & Hge).
    pose proof (lookup_lt_Some _ _ _ Hkr) as Hlt. rewrite length_fmap in Hlt.
    split; [done|]. split; [done|]. by exists k.
Qed.

Lemma block_sorted blocks i b :
  entries_ok c (block_rows_of blocks) → blocks !! i = Some b →
  rows_sorted c (tb_rows b) ∧ Forall (λ kv, kc_key kv.1) (tb_rows b).
Proof.
  intros [Hk Hs] Hb. unfold block_rows_of in *. rewrite <- (take_drop_middle _ _ _ Hb), fmap_app in Hk, Hs.
  cbn [fmap list_fmap] in Hk, Hs. rewrite concat_app in Hk, Hs. cbn [concat] in Hk, Hs.
  apply Forall_app in Hk as [_ Hk]. apply Forall_app in Hk as [Hk _]. split; [|done].
  apply StronglySorted_app_1_r in Hs. by apply StronglySorted_app_1_l in Hs.
Qed.

(** [seek] gives the rows from the key on, after rows before it when the
    search was mistaken. *)
Lemma table_seek_ok i blocks key :
  table_holds zlib_decode c (ti_table i) blocks → kc_key key → searchable blocks key →
  ∃ i' extra, table_seek zlib_decode key i = Done (inr tt, i') ∧
    table_rep zlib_decode c i' (block_rows_of blocks)
      (extra ++ filter (λ e, kc_le key e.1) (block_rows_of blocks)) ∧
    Forall (λ e, ¬ kc_le key e.1) extra ∧
    (extra = [] ∨ ∃ r b, mistaken blocks key r b ∧
       block_rows_of (drop (S r) blocks) = extra ++ filter (λ e, kc_le key e.1) (block_rows_of blocks)).
Proof.
  intros Ht Hkey Hs. destruct (lookup_ok _ _ _ Ht Hkey Hs) as (j & res & Hj & Hjn & Hl & Hres).
  unfold table_seek, bind, gets, lift_run. change (id i) with i. rewrite Hl. destruct res as [r|].
  - destruct Hres as (Hrj & Hrn & k & Hk & Hge). destruct (lookup_lt_is_Some_2 _ _ Hrn) as [b Hb].
    rewrite (holds_handle _ _ _ _ _ Ht), Hb. cbn [fmap option_fmap option_map unwrap].
    unfold ret at 1, try_bind, bind, lift_rr, ti_set, modify, ret.
    pose proof (proj1 (Forall_lookup _ _) (th_blocks _ _ _ _ Ht) _ _ Hb) as (ref & -> & Hh).
    destruct (block_sorted _ _ _ (th_entries _ _ _ _ Ht) Hb) as [Hsort Hkeys].
    rewrite (th_comparator _ _ _ _ Ht).
    destruct (block_holds_before c ref (tb_rows b) key Hh Hsort Hkeys Hkey) as (it & -> & Hit).
    destruct (found_rows c key blocks (th_separates _ _ _ _ Ht) j Hj r b (th_entries _ _ _ _ Ht) Hb Hrj) as (extra & Hx & Hbefore & He).
    eexists _, extra. split; [done|]. split.
    { exists blocks. split; [done|]. split; [done|]. cbn. split; [done|]. eexists. split; [exact Hit|done]. }
    split; [done|]. destruct He as [[_ ->]|[Hlt Hpre]]; [by left|right]. exists r, b. split; [|done].
    assert (¬ kc_le key (tb_key b)) as Hnle by (rewrite (Hj r b Hb); lia).
    split; [done|]. split; [done|]. rewrite list_lookup_fmap, Hb in Hk. cbn in Hk. injection Hk as <-.
    destruct Hge as [Hge|]; [|done]. destruct (th_separates _ _ _ _ Ht r b Hb) as [Hkb _].
    rewrite (index_ge_spec c key Hkey _ Hkb), bool_decide_eq_false_2 in Hge; done.
  - eexists _, []. split; [done|]. split; [|split; [constructor|by left]]. exists blocks. split; [done|]. split; [done|].
    cbn. rewrite (holds_num_blocks _ _ _ _ Ht), drop_ge by done.
    rewrite (rows_from_block c key blocks (th_separates _ _ _ _ Ht) j Hj j ltac:(done)).
    by rewrite Hres, drop_ge.
Qed.
End Seek.

(** ** Keys that other keys follow

    A search of the index compares the sought key with a key of the index and
    all keys after it, read as one key. *)

(** Such a comparison is defined, and it does not put a key before the sought
    one when the key alone is not before it. *)
Class JoinLaws (c : KeyComparator) `{!KeyComparatorLaws c} : Prop :=
  join_spec k ks key : kc_key k → Forall kc_key ks → kc_key key →
    ∃ o, kc_compare c (k ++ concat ks) key = Some o ∧ (kc_le key k → o ≠ Lt).

(** More bytes make a key larger. *)
Class ExtendLaws (c : KeyComparator) `{!KeyComparatorLaws c} : Prop :=
  extend_spec k more key : kc_key k → kc_key key →
    ∃ o, kc_compare c (k ++ more) key = Some o ∧ (kc_le key k → more ≠ [] → o = Gt).

#[export] Instance bytewise_extend : ExtendLaws BytewiseComparator (KeyComparatorLaws0 := BytewiseComparator_laws).
Proof.
  intros k more key _ _. eexists. split; [done|]. cbn. unfold bytes_le. revert k.
  induction key as [|x key IH]; intros [|y k]; cbn; intros Hle Hm; try done.
  - by destruct more.
  - rewrite (Z.compare_antisym y x) in Hle. destruct (y ?= x); cbn in Hle; [by apply IH|done|done].
Qed.

#[export] Instance bytewise_join : JoinLaws BytewiseComparator (KeyComparatorLaws0 := BytewiseComparator_laws).
Proof.
  intros k ks key Hk _ Hkey. destruct (decide (concat ks = [])) as [->|Hne].
  - rewrite app_nil_r. destruct (kc_compare_spec k key Hk Hkey) as (o & Ho & Hle). exists o. split; [done|].
    by intros ? ->.
  - destruct (extend_spec k (concat ks) key Hk Hkey) as (o & Ho & Hgt). exists o. split; [done|].
    intros Hle. by rewrite Hgt.
Qed.

(** The keys of a database: what follows the user key makes it larger. *)
#[export] Instance internal_join user `{!KeyComparatorLaws user, !ExtendLaws user} : JoinLaws (InternalKeyComparator user).
Proof.
  intros k ks key Hk Hks Hkey. destruct ks as [|last init _] using rev_ind.
  - cbn [concat]. rewrite app_nil_r. destruct (kc_compare_spec k key Hk Hkey) as (o & Ho & Hle). exists o.
    split; [done|]. by intros ? ->.
  - apply Forall_app in Hks as [_ [(kl & El & _) _]%Forall_cons_1]. destruct Hk as (kk & Ek & Uk), Hkey as (kq & Eq & Uq).
    destruct (InternalKey_parse_parts _ _ Ek) as (Hlen & _ & _).
    set (more := ik_tail k ++ concat init ++ ik_user last).
    assert (k ++ concat (init ++ [last]) = (ik_user k ++ more) ++ ik_tail last) as ->.
    { unfold more. rewrite concat_app, <- !(assoc_L (++)). cbn [concat]. rewrite app_nil_r.
      unfold ik_user, ik_tail. by rewrite (app_assoc (take _ k)), !take_drop. }
    destruct (InternalKey_parse_replace _ _ (ik_user k ++ more) El) as (Ej & _ & _).
    destruct (InternalKey_parse_parts _ _ Eq) as (_ & Euq & _).
    destruct (extend_spec (ik_user k) more (ik_user key) Uk Uq) as (o & Ho & Hgt).
    cbn. unfold internal_compare. rewrite Ej, Eq. cbn. rewrite Euq, Ho. cbn. eexists. split; [done|].
    intros [Hle _]. rewrite Hgt; [done|done|]. unfold more, ik_tail. intros E%(f_equal length).
    rewrite !length_app, length_drop in E. cbn in E. lia.
Qed.

Lemma join_searchable c `{!KeyComparatorLaws c, !JoinLaws c} blocks key :
  separates c blocks → kc_key key → searchable c blocks key.
Proof.
  intros Hsep Hkey i k Hk.
  assert (Forall kc_key (tb_key <$> blocks)) as Hkeys.
  { apply Forall_lookup. intros j x Hx. apply list_lookup_fmap_Some in Hx as (b & -> & Hb). by destruct (Hsep j b Hb). }
  pose proof (Forall_lookup_1 _ _ _ _ Hkeys Hk) as Hkk. unfold comparable, keys_after, index_ge at 2.
  destruct (join_spec k (drop (S i) (tb_key <$> blocks)) key Hkk (Forall_drop _ _ _ Hkeys) Hkey) as (o & -> & Ho).
  eexists _, _. split; [by apply index_ge_spec|]. split; [done|]. intros Hle%bool_decide_eq_true.
  specialize (Ho Hle). by destruct o.
Qed.
