(* ===== verification/TableProperties.v ===== *)
(** * Properties of tables

    Properties written to a block and parsed again are the same. *)

From Stdlib Require Import String Ascii.
From S2P Require Import Prelude Wire Encoding Crc Comparator DataBlock Filter Table.

(** A value of the type of its field. *)
Definition property_ok (t : PropertyType) (v : PropertyValue) : Prop :=
  match t, v with
  | TU64, PropU64 v => 0 ≤ v < U64
  | TString, PropString s => utf8_valid s = true
  | _, _ => False
  end.

(** Fields of the message with values of their types. *)
Definition properties_ok (props : TableProperties) : Prop :=
  ∀ number v, props !! number = Some v → ∃ t key, (number, t, key) ∈ property_fields ∧ property_ok t v.

Lemma parse_serialize_property t v : property_ok t v → parse_property t (serialize_property v) = inr v.
Proof.
  destruct t, v as [v|s]; cbn [property_ok serialize_property parse_property]; try done.
  - intros Hv. pose proof (parse_serialize_varint v [] Hv) as H. rewrite app_nil_r in H. by rewrite H.
  - intros H. unfold from_utf8. by rewrite H.
Qed.

Abbreviation field_key := (snd : Z * PropertyType * bytes → bytes).
Abbreviation field_number := (λ f : Z * PropertyType * bytes, f.1.1).

Lemma property_fields_distinct : NoDup (field_key <$> property_fields) ∧ NoDup (field_number <$> property_fields).
Proof. split; apply (bool_decide_unpack _); vm_compute; exact I. Qed.

Lemma property_keys_utf8 : Forall (λ f, utf8_valid (field_key f) = true) property_fields.
Proof. apply Forall_forall. apply (Forall_forall (λ f, utf8_valid (field_key f) = true)). by repeat constructor. Qed.

(** The loop over the rest of the fields. *)
Lemma parse_properties_loop_ok fields data acc (props : TableProperties) :
  NoDup (field_key <$> fields) → NoDup (field_number <$> fields) →
  (∀ f, f ∈ fields → data !! field_key f = serialize_property <$> props !! field_number f) →
  (∀ f v, f ∈ fields → props !! field_number f = Some v → property_ok f.1.2 v) →
  (∀ n, n ∈ field_number <$> fields → acc !! n = None) →
  (∀ n, n ∉ field_number <$> fields → acc !! n = props !! n) →
  parse_properties_loop fields data acc = inr props.
Proof.
  revert data acc. induction fields as [|[[number t] key] fields IH]; intros data acc Hk Hn Hd Ht Ha Hb.
  { cbn. f_equal. apply map_eq. intros n. apply Hb. apply not_elem_of_nil. }
  cbn [fmap list_fmap fst snd] in *. apply NoDup_cons in Hk as [Hk1 Hk], Hn as [Hn1 Hn].
  cbn [parse_properties_loop]. pose proof (Hd (number, t, key) ltac:(left)) as Hdk. cbn [fst snd] in Hdk. rewrite Hdk.
  destruct (props !! number) as [v|] eqn:Ev; cbn [fmap option_fmap option_map].
  - rewrite parse_serialize_property by (apply (Ht (number, t, key)); [left|done]). cbn [rbind]. apply IH; [done|done|..].
    + intros f Hf. rewrite lookup_delete_ne; [apply Hd; by right|]. intros ->. by apply Hk1, list_elem_of_fmap_2.
    + intros f w Hf. apply Ht. by right.
    + intros n Hin. rewrite lookup_insert_ne by set_solver. apply Ha. by right.
    + intros n Hin. destruct (decide (n = number)) as [->|Hne]; [by rewrite lookup_insert_eq|].
      rewrite lookup_insert_ne by done. apply Hb. by apply not_elem_of_cons.
  - apply IH; [done|done|..].
    + intros f Hf. apply Hd. by right.
    + intros f w Hf. apply Ht. by right.
    + intros n Hin. apply Ha. by right.
    + intros n Hin. destruct (decide (n = number)) as [->|Hne]; [rewrite Ev; apply Ha; left|].
      apply Hb. by apply not_elem_of_cons.
Qed.

Lemma serialize_lookup props key value :
  (key, value) ∈ serialize_table_properties props ↔
  ∃ f, f ∈ property_fields ∧ field_key f = key ∧ serialize_property <$> props !! field_number f = Some value.
Proof.
  unfold serialize_table_properties. rewrite list_elem_of_omap. split.
  - intros (f & Hf & He). exists f. split; [done|]. destruct (props !! f.1.1); [|done]. cbn in *. by simplify_eq.
  - intros (f & Hf & <- & He). exists f. split; [done|]. destruct (props !! f.1.1); [|done]. cbn in *. by simplify_eq.
Qed.

Lemma serialize_keys_distinct props : NoDup ((serialize_table_properties props).*1).
Proof.
  unfold serialize_table_properties. generalize (proj1 property_fields_distinct). generalize property_fields.
  intros fields. induction fields as [|f fields IH]; [constructor|]. cbn [fmap list_fmap omap list_omap].
  intros [Hf Hn]%NoDup_cons. destruct (props !! f.1.1) as [v|]; cbn; [|by apply IH].
  constructor; [|by apply IH]. intros (kv & E & Hin)%list_elem_of_fmap. apply Hf.
  apply list_elem_of_omap in Hin as (g & Hg & Hv). destruct (props !! g.1.1); [|done]. cbn in Hv. simplify_eq. cbn in *.
  rewrite E. by apply list_elem_of_fmap_2.
Qed.

(** The pairs, in any order. *)
Lemma parse_serialize_properties props rows :
  properties_ok props → rows ≡ₚ serialize_table_properties props →
  parse_table_properties (list_to_map rows) = inr props.
Proof.
  intros Hok Hrows. destruct property_fields_distinct as [Hk Hn].
  assert (NoDup (rows.*1)) as Hnd by (rewrite Hrows; apply serialize_keys_distinct).
  assert (∀ f g, f ∈ property_fields → g ∈ property_fields → field_number f = field_number g → f = g) as Hinj.
  { intros f g [i Hf]%list_elem_of_lookup [j Hg]%list_elem_of_lookup E.
    assert (i = j) as ->; [|congruence]. eapply (NoDup_lookup _ _ _ _ Hn); rewrite list_lookup_fmap; [by rewrite Hf|by rewrite Hg, E]. }
  assert (∀ f g, f ∈ property_fields → g ∈ property_fields → field_key f = field_key g → f = g) as Hinjk.
  { intros f g [i Hf]%list_elem_of_lookup [j Hg]%list_elem_of_lookup E.
    assert (i = j) as ->; [|congruence]. eapply (NoDup_lookup _ _ _ _ Hk); rewrite list_lookup_fmap; [by rewrite Hf|by rewrite Hg, E]. }
  apply parse_properties_loop_ok; [done|done|..].
  - intros f Hf. destruct (serialize_property <$> props !! field_number f) as [value|] eqn:E.
    + apply elem_of_list_to_map_1; [done|]. rewrite Hrows. apply serialize_lookup. by exists f.
    + apply not_elem_of_list_to_map_1. intros ([k value] & Ek & Hin)%list_elem_of_fmap. cbn in Ek. subst k.
      rewrite Hrows in Hin. apply serialize_lookup in Hin as (g & Hg & Eg & Hv).
      rewrite (Hinjk g f Hg Hf Eg) in Hv. congruence.
  - intros f v Hf Hv. destruct (Hok _ _ Hv) as (t & key & Hin & Ht). by rewrite (Hinj f _ Hf Hin eq_refl).
  - intros n _. apply lookup_empty.
  - intros n Hnin. rewrite lookup_empty. symmetry. apply eq_None_not_Some. intros [v Hv].
    destruct (Hok _ _ Hv) as (t & key & Hin & _). apply Hnin. apply list_elem_of_fmap. by exists (n, t, key).
Qed.

Lemma properties_loop_ok fuel it rows pairs :
  iter_rows it rows → (length rows ≤ fuel)%nat → Forall (λ kv, utf8_valid kv.1 = true) rows →
  properties_loop fuel it pairs = Done (inr (foldl (λ m kv, <[kv.1 := kv.2]> m) pairs rows)).
Proof.
  revert it fuel pairs. induction rows as [|[k v] rows IH]; intros it fuel pairs Hit Hf Hu.
  all: apply iter_rows_next in Hit; destruct fuel as [|fuel]; cbn [length] in Hf; try lia.
  1-2: cbn [properties_loop]; by rewrite Hit.
  apply Forall_cons in Hu as [Hk Hu]. destruct Hit as (it' & Hn & Hit). cbn [properties_loop fst] in *.
  rewrite Hn. unfold from_utf8. rewrite Hk. rewrite (IH it' fuel); [done|done|lia|done].
Qed.

Lemma foldl_insert (rows : list (bytes * bytes)) :
  foldl (λ m kv, <[kv.1 := kv.2]> m) (∅ : gmap bytes bytes) rows = list_to_map (reverse rows).
Proof.
  induction rows as [|[k v] rows IH] using rev_ind; [done|].
  rewrite foldl_app, reverse_snoc, IH. done.
Qed.

Lemma parse_properties_ok ref rows props :
  block_holds ref rows → rows ≡ₚ serialize_table_properties props → properties_ok props →
  parse_properties ref = Done (inr props).
Proof.
  intros Hh Hp Hok. destruct (block_holds_rows _ _ Hh) as [Hit Hlen]. unfold parse_properties.
  rewrite (properties_loop_ok _ _ rows _ Hit Hlen).
  - cbn [rr_bind]. rewrite foldl_insert, (parse_serialize_properties props); [done|done|].
    by rewrite reverse_Permutation.
  - apply Forall_forall. intros [k v] Hin. rewrite Hp in Hin. apply serialize_lookup in Hin as (f & Hf & <- & _).
    pose proof property_keys_utf8 as H. rewrite Forall_forall in H. by apply H.
Qed.

Lemma serialize_empty props : properties_ok props → serialize_table_properties props = [] → props = ∅.
Proof.
  intros Hok Hs. apply map_eq. intros n. rewrite lookup_empty. apply eq_None_not_Some. intros [v Hv].
  destruct (Hok _ _ Hv) as (t & key & Hin & _).
  assert ((key, serialize_property v) ∈ serialize_table_properties props) as H.
  { apply serialize_lookup. exists (n, t, key). cbn. by rewrite Hv. }
  rewrite Hs in H. by apply not_elem_of_nil in H.
Qed.
