(* ===== verification/TableBuild.v ===== *)
(** * Writing tables

    What the builder has written and what it still holds while rows are
    added in ascending order ([building]), and that the finished file opens
    to a table of these rows. *)

From Stdlib Require Import String Ascii.
From S2P Require Import Prelude Algorithms Wire Encoding Crc Snappy SnappyTheorems Comparator DataBlock MergeIterator MergeIteratorTheorems Filter FilterTheorems Table TableProofs TableProperties.

(** ** Sizes *)

(** A bound of what a row takes in a block and in the index. *)
Definition row_weight (row : bytes * bytes) : nat := (64 + length row.1 + length row.2)%nat.
Definition weight (rows : list (bytes * bytes)) : nat := sum_list_with row_weight rows.

Lemma weight_cons row l : weight (row :: l) = (row_weight row + weight l)%nat.
Proof. done. Qed.

Lemma weight_app l1 l2 : weight (l1 ++ l2) = (weight l1 + weight l2)%nat.
Proof. apply sum_list_with_app. Qed.

Lemma weight_in l row : row ∈ l → (row_weight row ≤ weight l)%nat.
Proof. apply sum_list_with_in. Qed.

Lemma weight_length l : (64 * length l ≤ weight l)%nat.
Proof.
  induction l as [|row l IH]; [done|]. rewrite weight_cons.
  unfold row_weight. cbn [length]. lia.
Qed.

Lemma weight_one k v : weight [(k, v)] = (64 + length k + length v)%nat.
Proof. unfold weight, sum_list_with, row_weight. cbn [fst snd]. lia. Qed.

Lemma length_entry_le e :
  (length (DataBlockEntry_serialize e) ≤ 30 + length (key_delta e) + length (value e))%nat.
Proof.
  unfold DataBlockEntry_serialize. rewrite !length_app. pose proof (length_serialize_varint_le (shared_bytes e)).
  pose proof (length_serialize_varint_le (Z.of_nat (length (key_delta e)))).
  pose proof (length_serialize_varint_le (Z.of_nat (length (value e)))). lia.
Qed.

Lemma add_current_size b key v :
  Builder_current_size (Builder_add b key v) ≤
  Builder_current_size b + 34 + Z.of_nat (length key) + Z.of_nat (length v).
Proof.
  unfold Builder_current_size, Builder_add. cbn [buffer restart_offsets]. rewrite length_app.
  set (e := mkEntry _ _ _). pose proof (length_entry_le e) as He. unfold e in He at 2 3.
  cbn [key_delta value] in He. rewrite length_drop in He.
  case_match; rewrite ?length_app; cbn [length]; lia.
Qed.

(** A block is smaller than the weight of its rows, with room for 30 bytes a
    row. *)
Lemma add_all_size d n rows :
  Builder_current_size (Builder_add_all (Builder_new d n) rows) + 30 * Z.of_nat (length rows) ≤ 8 + Z.of_nat (weight rows).
Proof.
  induction rows as [|[k v] rows IH] using rev_ind; [done|].
  unfold Builder_add_all in *. rewrite foldl_app, weight_app, length_app. cbn [foldl fst snd length].
  pose proof (add_current_size (foldl (λ b kv, Builder_add b kv.1 kv.2) (Builder_new d n) rows) k v).
  rewrite weight_one. lia.
Qed.

Lemma add_all_snoc d n rows k v :
  Builder_add (Builder_add_all (Builder_new d n) rows) k v = Builder_add_all (Builder_new d n) (rows ++ [(k, v)]).
Proof. unfold Builder_add_all. by rewrite foldl_app. Qed.

Lemma add_all_empty d n rows : Builder_empty (Builder_add_all (Builder_new d n) rows) = bool_decide (rows = []).
Proof.
  destruct rows as [|[k v] rows _] using rev_ind; [done|]. rewrite <- add_all_snoc.
  rewrite bool_decide_eq_false_2 by (by destruct rows). unfold Builder_empty, Builder_add. cbn [buffer].
  apply Nat.eqb_neq. rewrite length_app. destruct (serialize_entry_cons (mkEntry
    (Z.of_nat (add_shared (Builder_add_all (Builder_new d n) rows) k) mod 2 ^ 32)
    (drop (add_shared (Builder_add_all (Builder_new d n) rows) k) k) v)) as (b & l & E).
  unfold add_shared in E. rewrite E. cbn. lia.
Qed.

(** The block of some rows: it is finished without a panic and read back. *)
Lemma finish_block d n rows :
  Builder_current_size (Builder_add_all (Builder_new d n) rows) < 2 ^ 32 →
  ∃ block ref, Builder_finish (Builder_add_all (Builder_new d n) rows) =
      Done (inr (block, final_key [] rows, Builder_new d n)) ∧
    Z.of_nat (length block) = Builder_current_size (Builder_add_all (Builder_new d n) rows) ∧
    DataBlockRef_parse block = inr ref ∧ block_holds ref rows.
Proof.
  intros Hsz. destruct (built_add_all d n rows Hsz) as (es & rs & Hb).
  destruct (built_finish _ _ _ _ Hb Hsz) as (block & Hf & Hl & Hp).
  destruct (add_all_config d n rows) as [Ed En]. rewrite Ed, En in Hf.
  destruct (built_holds _ _ _ _ _ Hb Hp) as (ref & Hp' & Hh). by exists block, ref.
Qed.

(** ** The keys of the index *)

Section Chain.
Context (c : KeyComparator) `{!KeyComparatorLaws c}.

(** The key of every block is the separator of its last row and the first row
    after it. *)
Fixpoint chain (blocks : list TBlock) (next : list (bytes * bytes)) : Prop :=
  match blocks with
  | [] => True
  | b :: blocks =>
    (∃ f, head (block_rows_of blocks ++ next) = Some f ∧
          kc_find_shortest_separator c (final_key [] (tb_rows b)) f.1 = Some (tb_key b)) ∧
    chain blocks next
  end.

Lemma chain_more blocks next more : chain blocks next → chain blocks (next ++ more).
Proof.
  induction blocks as [|b blocks IH]; [done|]. cbn. intros [(f & Hf & Hs) Hc]. split; [|by apply IH].
  exists f. split; [|done]. rewrite app_assoc. by destruct (block_rows_of blocks ++ next).
Qed.

Lemma chain_snoc blocks b next :
  tb_rows b ≠ [] → chain blocks (tb_rows b) →
  (∃ f, head next = Some f ∧ kc_find_shortest_separator c (final_key [] (tb_rows b)) f.1 = Some (tb_key b)) →
  chain (blocks ++ [b]) next.
Proof.
  intros Hne. induction blocks as [|b' blocks IH]; cbn; [done|]. intros [(f & Hf & Hs) Hc] Hb. split; [|by apply IH].
  exists f. split; [|done]. unfold block_rows_of in *. rewrite fmap_app, concat_app. cbn.
  rewrite app_nil_r, <- app_assoc. revert Hf. destruct (concat (tb_rows <$> blocks)); [|done]. cbn.
  by destruct (tb_rows b).
Qed.

Lemma final_key_last rows k : rows ≠ [] → ∃ row, list.last rows = Some row ∧ final_key k rows = row.1.
Proof.
  intros H. destruct rows as [|row rows _] using rev_ind; [done|]. exists row.
  unfold final_key. by rewrite last_snoc.
Qed.

Lemma entries_last_lt rows last k v :
  entries_ok c (rows ++ last ++ [(k, v)]) → last ≠ [] →
  kc_key (final_key [] last) ∧ kc_key k ∧ ¬ kc_le k (final_key [] last).
Proof.
  intros [Hk Hs] Hne. destruct (final_key_last last [] Hne) as (row & Hrow & ->).
  apply last_Some in Hrow as [init ->]. apply Forall_app in Hk as [_ Hk]. rewrite !Forall_app in Hk.
  destruct Hk as [[_ Hrow] Hkv]. apply Forall_cons in Hrow as [Hrow _], Hkv as [Hkv _].
  split; [done|]. split; [done|]. apply StronglySorted_app_1_r in Hs.
  by apply (StronglySorted_app_1_elem_of _ _ _ row (k, v) Hs); [rewrite elem_of_app; right; left|left].
Qed.

Lemma entries_app_l l1 l2 : entries_ok c (l1 ++ l2) → entries_ok c l1.
Proof. intros [H1 H2]. apply Forall_app in H1 as [H1 _]. apply StronglySorted_app_1_l in H2. by split. Qed.

Lemma chain_lookup blocks next i b :
  chain blocks next → blocks !! i = Some b →
  ∃ f, head (block_rows_of (drop (S i) blocks) ++ next) = Some f ∧
    kc_find_shortest_separator c (final_key [] (tb_rows b)) f.1 = Some (tb_key b).
Proof.
  revert i. induction blocks as [|b' blocks IH]; intros i Hc Hb; [done|]. destruct Hc as [Hs Hc].
  destruct i as [|i]; [|by apply (IH i)]. cbn in Hb. by simplify_eq.
Qed.

(** The keys of a finished index; the last one is a successor. *)
Definition indexed (blocks : list TBlock) : Prop :=
  blocks = [] ∨ ∃ init b, blocks = init ++ [b] ∧ chain init (tb_rows b) ∧
    kc_find_short_successor c (final_key [] (tb_rows b)) = Some (tb_key b).

Lemma block_rows_split blocks i b :
  blocks !! i = Some b →
  block_rows_of blocks = block_rows_of (take i blocks) ++ tb_rows b ++ block_rows_of (drop (S i) blocks).
Proof.
  intros Hb. rewrite <- (take_drop_middle _ _ _ Hb) at 1. unfold block_rows_of. by rewrite fmap_app, concat_app.
Qed.

(** Rows are up to the last one of their block. *)
Lemma rows_le_final rows row : entries_ok c rows → row ∈ rows → kc_le row.1 (final_key [] rows).
Proof.
  intros [_ Hs] Hin. destruct (final_key_last rows []) as (l & Hl & ->); [by intros ->; apply not_elem_of_nil in Hin|].
  apply last_Some in Hl as [init ->]. apply elem_of_app in Hin as [Hin|Hin].
  - apply entry_lt_le. apply (StronglySorted_app_1_elem_of _ _ _ row l Hs Hin). by left.
  - apply list_elem_of_singleton in Hin as ->. done.
Qed.

(** The key of a block, and that it separates the block from what follows. *)
Lemma indexed_block blocks i b :
  indexed blocks → Forall (λ b, tb_rows b ≠ []) blocks → entries_ok c (block_rows_of blocks) → blocks !! i = Some b →
  kc_key (tb_key b) ∧ kc_le (final_key [] (tb_rows b)) (tb_key b) ∧
  (length (tb_key b) ≤ length (final_key [] (tb_rows b)))%nat ∧
  ∀ f, head (block_rows_of (drop (S i) blocks)) = Some f → ¬ kc_le f.1 (tb_key b).
Proof.
  intros Hix Hne He Hb. pose proof (Forall_lookup_1 _ _ _ _ Hne Hb) as Hneb.
  rewrite (block_rows_split _ _ _ Hb) in He.
  assert (kc_key (final_key [] (tb_rows b))) as Hkey.
  { destruct (final_key_last (tb_rows b) [] Hneb) as (l & Hl & ->). apply last_Some in Hl as [init E].
    destruct He as [Hk _]. rewrite E in Hk. rewrite !Forall_app in Hk. destruct Hk as (_ & [_ Hk] & _).
    by apply Forall_cons in Hk as [Hk _]. }
  destruct Hix as [->|(init & b' & -> & Hch & Hsucc)]; [done|].
  apply lookup_app_Some in Hb as [Hb|[Hi Hb]].
  - destruct (chain_lookup _ _ _ _ Hch Hb) as (f & Hf & Hsep). pose proof (lookup_lt_Some _ _ _ Hb).
    assert (head (block_rows_of (drop (S i) (init ++ [b']))) = Some f) as Hf'.
    { rewrite drop_app_le by lia. unfold block_rows_of. rewrite fmap_app, concat_app. cbn. by rewrite app_nil_r. }
    destruct (block_rows_of (drop (S i) (init ++ [b']))) as [|f' rest]; [done|]. injection Hf' as ->.
    destruct (entries_last_lt (block_rows_of (take i (init ++ [b']))) (tb_rows b) f.1 f.2) as (_ & Hk2 & Hlt); [|done|].
    { apply (entries_app_l _ rest). rewrite <- !app_assoc. cbn. by destruct f. }
    destruct (kc_separator_spec _ _ Hkey Hk2 Hlt) as (sep & Hsep' & Hks & H1 & H2).
    assert (sep = tb_key b) as -> by congruence. split; [done|]. split; [done|]. split.
    + eapply kc_separator_length; [exact Hkey|exact Hk2| |exact Hsep].
      by destruct (kc_le_total (final_key [] (tb_rows b)) f.1).
    + intros f0 [= <-]. done.
  - apply list_lookup_singleton_Some in Hb as [Hi' ->].
    destruct (kc_successor_spec _ Hkey) as (sep & Hsep & Hks & H1).
    assert (sep = tb_key b) as -> by congruence. split; [done|]. split; [done|].
    split; [by eapply kc_successor_length|]. intros f Hf. rewrite drop_ge in Hf by (rewrite length_app; cbn; lia). done.
Qed.

Lemma indexed_separates blocks :
  indexed blocks → Forall (λ b, tb_rows b ≠ []) blocks → entries_ok c (block_rows_of blocks) → separates c blocks.
Proof.
  intros Hix Hne He i b Hb. destruct (indexed_block _ _ _ Hix Hne He Hb) as (Hk & Hle & _ & Haf).
  rewrite (block_rows_split _ _ _ Hb) in He. split; [done|]. split; [by apply (Forall_lookup_1 _ _ _ _ Hne Hb)|].
  assert (entries_ok c (tb_rows b ++ block_rows_of (drop (S i) blocks))) as He1 by (eapply entries_suffix; [exact He|by eexists]).
  split.
  - apply Forall_forall. intros row Hrow. etrans; [|exact Hle]. apply rows_le_final; [|done].
    by eapply entries_app_l.
  - assert (entries_ok c (block_rows_of (drop (S i) blocks))) as [_ Hs] by (eapply entries_suffix; [exact He1|by eexists]).
    destruct (block_rows_of (drop (S i) blocks)) as [|f rest]; [done|]. specialize (Haf f eq_refl).
    constructor; [done|]. apply StronglySorted_inv in Hs as [_ Hs]. eapply Forall_impl; [exact Hs|].
    intros row Hrow Hk'. apply Haf. etrans; [by apply entry_lt_le|done].
Qed.
End Chain.

Section Build.
Context (crc32c_raw_oneshot : Z → Z) (zlib_encode zlib_decode : bytes → Result bytes) (overflow_checks : bool).
Context (options : SSTableBuilderOptions) (policy : FilterPolicy) {HP : FilterPolicyLaws policy}.
Context {HC : KeyComparatorLaws (o_comparator options)}.

(** Options that the builder supports: every compression but the ones it has
    no code for, and the checksum that the footer it writes announces. *)
Record options_ok : Prop := mkOptionsOk {
  oo_compression : compression_ok zlib_encode zlib_decode (o_compression options);
  oo_checksum : o_checksum options = CkCRC32C;
  oo_filter : o_filter_policy options = None ∨ o_filter_policy options = Some policy;
  oo_log_base : 0 ≤ o_filter_log_base options ≤ 63;
  oo_name : utf8_valid (fp_name policy) = true ∧ Z.of_nat (length (fp_name policy)) < 2 ^ 20;
}.
Hypothesis Hoptions : options_ok.

Abbreviation c := (o_comparator options).
Abbreviation new_data := (Builder_new (o_use_delta_encoding options) (o_block_restart_interval options)).
Abbreviation base := (Z.shiftl 1 (o_filter_log_base options)).

(** A bound of the size of the filter block: the filters, and an offset for
    every [base] bytes of the file. *)
Definition filter_size (rows : list (bytes * bytes)) : Z :=
  Z.of_nat (2 * fpl_bytes_per_key * length rows) + 24 * Z.of_nat (weight rows) / base + 9.

(** Rows that fit in a table: keys and values with 64 bytes for each row are
    below 1 GiB, so that the offsets of a block and of the index fit in 32
    bits; the filter takes the keys and its block is below 4 GiB. *)
Record rows_fit (rows : list (bytes * bytes)) : Prop := mkRowsFit {
  rf_weight : Z.of_nat (weight rows) < 2 ^ 30;
  rf_filter : o_filter_policy options = Some policy →
    (length rows ≤ fpl_max_keys)%nat ∧ Forall fpl_key (rows.*1) ∧ filter_size rows < 2 ^ 32;
}.

Lemma base_positive : 0 < base.
Proof. rewrite Z.shiftl_1_l. apply Z.pow_pos_nonneg; [lia|apply Hoptions]. Qed.

Lemma weight_sublist l l' : l `sublist_of` l' → (weight l ≤ weight l')%nat.
Proof. induction 1; rewrite ?weight_cons; lia. Qed.

Lemma rows_fit_sublist l l' : rows_fit l' → l `sublist_of` l' → rows_fit l.
Proof.
  intros [Hw Hf] Hs. pose proof (weight_sublist _ _ Hs). pose proof (sublist_length _ _ Hs).
  split; [lia|]. intros Ho. destruct (Hf Ho) as (H1 & H2 & H3). split; [lia|]. split.
  - rewrite Forall_fmap in *. rewrite Forall_forall in *. intros x Hx. apply H2. by eapply elem_of_submseteq, sublist_submseteq.
  - eapply Z.le_lt_trans; [|exact H3]. unfold filter_size. apply Z.add_le_mono_r, Z.add_le_mono; [nia|].
    apply Z.div_le_mono; [apply base_positive|lia].
Qed.

(** The keys of rows in a block at an offset. *)
Definition held_rows (off : Z) (rows : list (bytes * bytes)) : list (Z * bytes) := pair off <$> rows.*1.
Definition held_blocks (blocks : list TBlock) : list (Z * bytes) :=
  flat_map (λ b, held_rows (bh_offset (tb_handle b)) (tb_rows b)) blocks.

Definition index_row (b : TBlock) : bytes * bytes := (tb_key b, BlockHandle_serialized (tb_handle b)).

(** The filter has the keys [held]; the block being built is at [off]. *)
Definition filter_state (f : option FilterBlockBuilder) (held : list (Z * bytes)) (off : Z) : Prop :=
  match f with
  | None => o_filter_policy options = None
  | Some f =>
    o_filter_policy options = Some policy ∧ builder_ok policy (o_filter_log_base options) held f ∧
    length (fb_offsets f) = Z.to_nat (off / base)
  end.

(** [blocks] are in the index, [last] is the block written after them, and
    [cur] the rows not written yet. *)
Record building (blocks : list TBlock) (last cur : list (bytes * bytes)) (s : SSTableBuilder) : Prop := mkBuilding {
  bd_len : sb_file_len s = Z.of_nat (length (sb_file s));
  bd_data : sb_data_block_builder s = Builder_add_all new_data cur;
  bd_index : sb_index_block_builder s = Builder_add_all (Builder_new false 1) (index_row <$> blocks);
  bd_stored : Forall (λ b, stored zlib_decode (sb_file s) (tb_handle b) (tb_rows b) ∧ tb_rows b ≠ []) blocks;
  bd_chain : chain c blocks (last ++ cur);
  bd_pending : match sb_pending_data_block s with
               | None => last = []
               | Some (k, h) => last ≠ [] ∧ cur = [] ∧ k = final_key [] last ∧ stored zlib_decode (sb_file s) h last
               end;
  bd_filter : filter_state (sb_filter_block_builder s)
    (held_blocks blocks ++
     match sb_pending_data_block s with Some (_, h) => held_rows (bh_offset h) last | None => [] end ++
     held_rows (sb_file_len s) cur) (sb_file_len s);
  bd_size : (length (sb_file s) ≤ 6 * weight (block_rows_of blocks ++ last))%nat;
}.

Lemma length_held_rows off rows : length (held_rows off rows) = length rows.
Proof. unfold held_rows. by rewrite !length_fmap. Qed.

Lemma held_rows_keys off rows : (held_rows off rows).*2 = rows.*1.
Proof. unfold held_rows. rewrite <- list_fmap_compose. apply list_fmap_id. Qed.

Lemma held_blocks_keys blocks : (held_blocks blocks).*2 = (block_rows_of blocks).*1.
Proof.
  unfold held_blocks, block_rows_of. induction blocks as [|b blocks IH]; [done|]. cbn [flat_map fmap list_fmap concat].
  by rewrite !fmap_app, IH, held_rows_keys.
Qed.

Lemma held_fits held rows :
  held.*2 = rows.*1 → rows_fit rows → o_filter_policy options = Some policy → filter_fits policy held.
Proof.
  intros E Hf Ho. destruct (rf_filter _ Hf Ho) as (H1 & H2 & _). split; [|by rewrite E].
  rewrite <- (length_fmap snd held), E, length_fmap. done.
Qed.

Lemma set_filter_same s : sb_set_filter (sb_filter_block_builder s) s = s.
Proof. by destruct s. Qed.

(** The last step of [flush]. *)
Lemma filter_start s held off :
  filter_state (sb_filter_block_builder s) held off → 0 ≤ off ≤ sb_file_len s →
  (o_filter_policy options = Some policy → filter_fits policy held) →
  ∃ f, match o_filter_policy options, sb_filter_block_builder s with
       | Some policy, Some filter_builder =>
         let! f := lift_run (start_block policy (sb_file_len s) filter_builder) in
         modify (sb_set_filter (Some f)) ;!
         ret (inr tt)
       | _, _ => ret (inr tt)
       end s = Done (inr tt : Result unit, sb_set_filter f s) ∧ filter_state f held (sb_file_len s).
Proof.
  intros Hf Hoff Hfit. destruct (sb_filter_block_builder s) as [f|] eqn:Ef; cbn [filter_state] in Hf.
  - destruct Hf as (Hp & Hb & Ho). rewrite Hp.
    destruct (start_block_ok policy (sb_file_len s) (o_filter_log_base options) held f Hb (Hfit Hp)) as (f' & Hs & Hb' & Ho').
    { rewrite Ho. apply Z2Nat.inj_le; [apply Z.div_pos; [lia|]|apply Z.div_pos; [lia|]|apply Z.div_le_mono; [|lia]];
        rewrite Z.shiftl_1_l; apply Z.pow_pos_nonneg; (lia || apply Hoptions). }
    exists (Some f'). unfold bind, lift_run, modify, ret. rewrite Hs. split; [done|]. by split.
  - exists None. pose proof (set_filter_same s) as E. rewrite Ef in E. rewrite Hf, E. done.
Qed.

Lemma table_flush_empty blocks last s :
  building blocks last [] s → table_flush crc32c_raw_oneshot zlib_encode options s = Done (inr tt, s).
Proof.
  intros Hb. unfold table_flush, bind, gets. change (id s) with s. by rewrite (bd_data _ _ _ _ Hb).
Qed.

Lemma fit_size rows d n cur :
  rows_fit rows → cur `sublist_of` rows → Builder_current_size (Builder_add_all (Builder_new d n) cur) < 2 ^ 31.
Proof.
  intros [Hw _] Hsub. pose proof (add_all_size d n cur).
  pose proof (weight_sublist _ _ Hsub). lia.
Qed.

Lemma table_flush_ok blocks cur s :
  building blocks [] cur s → cur ≠ [] → rows_fit (block_rows_of blocks ++ cur) →
  ∃ s', table_flush crc32c_raw_oneshot zlib_encode options s = Done (inr tt, s') ∧ building blocks cur [] s' ∧
    sb_pending_data_block s' ≠ None ∧
    sb_properties s' = sb_properties s ∧ sb_properties_block_builder s' = sb_properties_block_builder s.
Proof.
  intros [Hlen Hdata Hindex Hst Hch Hpend Hfilter Hsize] Hne Hfit.
  assert (sb_pending_data_block s = None) as Hp.
  { destruct (sb_pending_data_block s) as [[]|]; [|done]. by destruct Hpend. }
  rewrite Hp in Hfilter. cbn [app] in Hfilter.
  pose proof (fit_size _ (o_use_delta_encoding options) (o_block_restart_interval options) cur Hfit
    (sublist_inserts_l _ _ _ (reflexivity _))) as Hsz.
  destruct (finish_block _ _ cur (Z.lt_trans _ (2 ^ 31) (2 ^ 32) Hsz eq_refl)) as (block & ref & Hfin & Hl & Hparse & Hholds).
  set (s1 := sb_set_data new_data s).
  assert (Z.of_nat (weight (block_rows_of blocks ++ cur)) < 2 ^ 31) as Hw by (destruct Hfit; lia).
  rewrite weight_app in Hw. rewrite app_nil_r in Hsize.
  destruct (write_raw_block_ok zlib_decode crc32c_raw_oneshot zlib_encode options (oo_compression Hoptions)
    (oo_checksum Hoptions) block s1) as (h & data & Hwr & Hraw & Hoff & Hld); [lia|done|cbn; unfold U64; lia|].
  destruct (filter_start (sb_set_pending (Some (final_key [] cur, h)) (sb_set_data new_data (sb_append data s1)))
    (held_blocks blocks ++ held_rows (sb_file_len s) cur) (sb_file_len s)) as (f & Hff & Hf).
  { exact Hfilter. }
  { cbn. lia. }
  { intros Ho. eapply held_fits; [|exact Hfit|done]. by rewrite !fmap_app, held_blocks_keys, held_rows_keys. }
  eexists. split.
  - unfold table_flush, bind at 1, gets. change (id s) with s.
    rewrite Hdata, add_all_empty, bool_decide_eq_false_2 by done.
    unfold try_bind at 1, bind at 1, lift_rr at 1. rewrite Hfin. unfold bind at 1, modify at 1. fold s1.
    unfold try_bind at 1, bind at 1. rewrite Hwr. unfold bind at 1, lift_run at 1.
    rewrite (eq_refl : Builder_set_buffer new_data block = Done new_data).
    unfold bind at 1, modify at 1. unfold bind at 1, gets. unfold bind at 1, assert.
    rewrite (bool_decide_eq_true_2 (sb_pending_data_block _ = None)) by exact Hp. exact Hff.
  - split; [|done]. split; cbn [sb_file sb_file_len sb_data_block_builder sb_index_block_builder
      sb_filter_block_builder sb_pending_data_block sb_set_filter sb_set_pending sb_set_data sb_append s1].
    + rewrite length_app. lia.
    + done.
    + done.
    + eapply Forall_impl; [exact Hst|]. intros b [H1 H2]. split; [by apply stored_app|done].
    + by rewrite app_nil_r.
    + split; [done|]. split; [done|]. split; [done|]. by exists block, ref.
    + cbn [held_rows fmap list_fmap]. rewrite app_nil_r. rewrite Hoff. exact Hf.
    + rewrite length_app, weight_app. pose proof (add_all_size (o_use_delta_encoding options) (o_block_restart_interval options) cur).
      assert (1 ≤ length cur)%nat by (destruct cur; [done|cbn; lia]). lia.
Qed.

Lemma filter_add_key f held off k :
  filter_state f held off → filter_state (add_key k <$> f) (held ++ [(off, k)]) off.
Proof.
  destruct f as [f|]; cbn; [|done]. intros (Hp & Hb & Ho).
  destruct (add_key_ok policy off k _ _ _ Hb Ho) as [Hb' Ho']. split; [done|]. by split.
Qed.

Lemma held_rows_snoc off rows k v : held_rows off (rows ++ [(k, v)]) = held_rows off rows ++ [(off, k)].
Proof. unfold held_rows. by rewrite !fmap_app. Qed.

(** The rest of [add] once the block being built is settled. *)
Definition add_row (k v : bytes) (s : SSTableBuilder) : SSTableBuilder :=
  sb_set_filter (add_key k <$> sb_filter_block_builder s) (sb_set_data (Builder_add (sb_data_block_builder s) k v) s).

Lemma add_row_same_block blocks cur s k v :
  building blocks [] cur s → building blocks [] (cur ++ [(k, v)]) (add_row k v (sb_set_pending None s)).
Proof.
  intros [Hlen Hdata Hindex Hst Hch Hpend Hfilter Hsize].
  assert (sb_pending_data_block s = None) as Hp.
  { destruct (sb_pending_data_block s) as [[]|]; [|done]. by destruct Hpend. }
  rewrite Hp in Hfilter. split; cbn; try done.
  - by rewrite Hdata, add_all_snoc.
  - by apply (chain_more c blocks cur).
  - rewrite held_rows_snoc, app_assoc. by apply filter_add_key.
Qed.

Lemma add_row_next_block blocks last s k v sep h :
  building blocks last [] s → sb_pending_data_block s = Some (final_key [] last, h) →
  kc_find_shortest_separator c (final_key [] last) k = Some sep →
  building (blocks ++ [mkTBlock sep h last]) [] [(k, v)]
    (add_row k v (sb_set_index (Builder_add (sb_index_block_builder s) sep (BlockHandle_serialized h))
                    (sb_set_pending None s))).
Proof.
  intros [Hlen Hdata Hindex Hst Hch Hpend Hfilter Hsize] Hp Hsep. rewrite Hp in Hpend, Hfilter.
  destruct Hpend as (Hne & _ & _ & Hlast). rewrite app_nil_r in Hch.
  split; cbn; try done.
  - by rewrite Hdata.
  - by rewrite Hindex, add_all_snoc, fmap_app.
  - apply Forall_app. split; [done|]. by constructor.
  - apply chain_snoc; [done|done|]. by exists (k, v).
  - unfold held_blocks. rewrite flat_map_app. cbn. rewrite app_nil_r. cbn in Hfilter. rewrite app_nil_r in Hfilter.
    by apply filter_add_key.
  - rewrite app_nil_r. unfold block_rows_of in *. rewrite fmap_app, concat_app. cbn. by rewrite app_nil_r.
Qed.

(** [add] after the block was or was not written. *)
Lemma add_settled blocks last cur s k v :
  building blocks last cur s → entries_ok c (block_rows_of blocks ++ last ++ cur ++ [(k, v)]) →
  ∃ blocks' cur' s',
    (let! s := gets id in
     modify (sb_set_pending None) ;!
     try! _ :=
       match sb_pending_data_block s with
       | Some (last_key, handle) =>
         let! o := unwrap (kc_compare c last_key k) in
         match o with
         | Lt => index_add (kc_find_shortest_separator c last_key k) handle ;! ret (inr tt)
         | _ => ret (inl EKeysOutOfOrder)
         end
       | None => ret (inr tt)
       end in
     let! s := gets id in
     modify (sb_set_data (Builder_add (sb_data_block_builder s) k v)) ;!
     modify (sb_set_filter (add_key k <$> sb_filter_block_builder s)) ;!
     ret (inr tt)) s = Done (inr tt : Result unit, s') ∧
    building blocks' [] cur' s' ∧ cur' ≠ [] ∧
    block_rows_of blocks' ++ cur' = block_rows_of blocks ++ last ++ cur ++ [(k, v)] ∧
    sb_properties s' = sb_properties s ∧ sb_properties_block_builder s' = sb_properties_block_builder s.
Proof.
  intros Hb He. pose proof (bd_pending _ _ _ _ Hb) as Hp.
  unfold bind at 1, gets. change (id s) with s. unfold bind at 1, modify at 1.
  destruct (sb_pending_data_block s) as [[key h]|] eqn:E.
  - destruct Hp as (Hne & -> & -> & Hst). cbn [app] in He.
    destruct (entries_last_lt c _ _ _ _ He Hne) as (Hk1 & Hk2 & Hlt).
    destruct (kc_compare_spec _ _ Hk1 Hk2) as (o & Ho & Hspec).
    assert (o = Lt) as -> by (destruct o; [by destruct Hspec|done|]; destruct Hspec;
      by destruct (kc_le_total (final_key [] last) k)).
    destruct (kc_separator_spec _ _ Hk1 Hk2 Hlt) as (sep & Hsep & _).
    exists (blocks ++ [mkTBlock sep h last]), [(k, v)],
      (add_row k v (sb_set_index (Builder_add (sb_index_block_builder s) sep (BlockHandle_serialized h))
                      (sb_set_pending None s))). split.
    + unfold try_bind, bind, unwrap. rewrite Ho. unfold ret, index_add, bind, unwrap, gets, modify, ret.
      rewrite Hsep. reflexivity.
    + split; [by apply add_row_next_block|]. split; [done|]. split; [|done].
      unfold block_rows_of. rewrite fmap_app, concat_app. cbn. by rewrite app_nil_r, <- app_assoc.
  - subst last. exists blocks, (cur ++ [(k, v)]), (add_row k v (sb_set_pending None s)). split; [reflexivity|].
    split; [by apply add_row_same_block|]. split; [by destruct cur|]. done.
Qed.

Lemma table_add_ok blocks last cur s k v :
  building blocks last cur s → entries_ok c (block_rows_of blocks ++ last ++ cur ++ [(k, v)]) →
  rows_fit (block_rows_of blocks ++ last ++ cur) →
  ∃ blocks' cur' s',
    table_add crc32c_raw_oneshot zlib_encode options k v s = Done (inr tt, s') ∧
    building blocks' [] cur' s' ∧ cur' ≠ [] ∧
    block_rows_of blocks' ++ cur' = block_rows_of blocks ++ last ++ cur ++ [(k, v)] ∧
    sb_properties s' = sb_properties s ∧ sb_properties_block_builder s' = sb_properties_block_builder s.
Proof.
  intros Hb He Hfit. unfold table_add, bind at 1, gets at 1. change (id s) with s. unfold try_bind at 1, bind at 1.
  destruct (_ && _).
  - destruct (decide (cur = [])) as [->|Hne].
    + rewrite (table_flush_empty _ _ _ Hb). by apply add_settled.
    + assert (last = []) as ->.
      { pose proof (bd_pending _ _ _ _ Hb) as Hp. destruct (sb_pending_data_block s) as [[]|]; [|done]. by destruct Hp as (_ & ? & _). }
      destruct (table_flush_ok _ _ _ Hb Hne Hfit) as (s1 & -> & Hb1 & _ & E1 & E2).
      destruct (add_settled blocks cur [] s1 k v Hb1 He) as (blocks' & cur' & s' & Hrun & Hb' & Hne' & Hrows & P1 & P2).
      exists blocks', cur', s'. split; [exact Hrun|]. split; [done|]. split; [done|]. split; [done|]. split; congruence.
  - by apply add_settled.
Qed.

(** Rows added one after the other. *)
Fixpoint add_rows (rows : list (bytes * bytes)) : M SSTableBuilder (Result unit) :=
  match rows with
  | [] => ret (inr tt)
  | (k, v) :: rows => try! _ := table_add crc32c_raw_oneshot zlib_encode options k v in add_rows rows
  end.

Lemma rows_fit_app l1 l2 : rows_fit (l1 ++ l2) → rows_fit l1.
Proof.
  intros Hf. apply (rows_fit_sublist _ _ Hf). by apply sublist_inserts_r.
Qed.

Lemma add_rows_ok rows blocks cur s :
  building blocks [] cur s → entries_ok c (block_rows_of blocks ++ cur ++ rows) →
  rows_fit (block_rows_of blocks ++ cur ++ rows) →
  ∃ blocks' cur' s',
    add_rows rows s = Done (inr tt, s') ∧ building blocks' [] cur' s' ∧
    block_rows_of blocks' ++ cur' = block_rows_of blocks ++ cur ++ rows ∧ (cur ≠ [] ∨ rows ≠ [] → cur' ≠ []) ∧
    sb_properties s' = sb_properties s ∧ sb_properties_block_builder s' = sb_properties_block_builder s.
Proof.
  revert blocks cur s. induction rows as [|[k v] rows IH]; intros blocks cur s Hb He Hfit.
  { exists blocks, cur, s. rewrite app_nil_r. split_and!; try done. by intros []. }
  destruct (table_add_ok blocks [] cur s k v Hb) as (b1 & c1 & s1 & Hrun & Hb1 & Hne1 & Hr1 & P1 & P2).
  { apply (entries_app_l c _ rows). cbn [app]. by rewrite <- !app_assoc. }
  { apply (rows_fit_app _ ((k, v) :: rows)). cbn [app]. by rewrite <- app_assoc. }
  cbn [app] in Hr1. destruct (IH b1 c1 s1 Hb1) as (b2 & c2 & s2 & Hrun2 & Hb2 & Hr2 & Hne2 & Q1 & Q2).
  1-2: rewrite app_assoc, Hr1, <- !app_assoc; done.
  exists b2, c2, s2. cbn [add_rows]. unfold try_bind, bind. rewrite Hrun. split; [done|]. split; [done|].
  split; [by rewrite Hr2, app_assoc, Hr1, <- !app_assoc|]. split; [|split; congruence].
  intros _. apply Hne2. by left.
Qed.

(** ** Finishing *)

(** All rows are in blocks of the index. *)
Record finished (blocks : list TBlock) (s : SSTableBuilder) : Prop := mkFinished {
  fn_len : sb_file_len s = Z.of_nat (length (sb_file s));
  fn_index : sb_index_block_builder s = Builder_add_all (Builder_new false 1) (index_row <$> blocks);
  fn_stored : Forall (λ b, stored zlib_decode (sb_file s) (tb_handle b) (tb_rows b) ∧ tb_rows b ≠ []) blocks;
  fn_indexed : indexed c blocks;
  fn_filter : filter_state (sb_filter_block_builder s) (held_blocks blocks) (sb_file_len s);
  fn_size : (length (sb_file s) ≤ 6 * weight (block_rows_of blocks))%nat;
}.

Lemma chain_nil blocks : chain c blocks [] → blocks = [].
Proof.
  intros H. destruct blocks as [|b blocks _] using rev_ind; [done|].
  destruct (chain_lookup c _ _ (length blocks) b H) as (f & Hf & _); [by apply list_lookup_middle|].
  rewrite drop_ge in Hf by (rewrite length_app; cbn; lia). done.
Qed.

Lemma finish_pending blocks last s k h succ :
  building blocks last [] s → sb_pending_data_block s = Some (k, h) →
  kc_find_short_successor c k = Some succ →
  finished (blocks ++ [mkTBlock succ h last])
    (sb_set_index (Builder_add (sb_index_block_builder s) succ (BlockHandle_serialized h)) (sb_set_pending None s)).
Proof.
  intros [Hlen Hdata Hindex Hst Hch Hpend Hfilter Hsize] Hp Hsucc. rewrite Hp in Hpend, Hfilter.
  destruct Hpend as (Hne & _ & -> & Hlast). rewrite app_nil_r in Hch.
  split; cbn; try done.
  - by rewrite Hindex, add_all_snoc, fmap_app.
  - apply Forall_app. split; [done|]. by constructor.
  - right. by exists blocks, (mkTBlock succ h last).
  - unfold held_blocks. rewrite flat_map_app. cbn. rewrite app_nil_r. cbn in Hfilter. by rewrite app_nil_r in Hfilter.
  - unfold block_rows_of in *. rewrite fmap_app, concat_app. cbn. by rewrite app_nil_r.
Qed.

Lemma finish_index blocks cur s :
  building blocks [] cur s → entries_ok c (block_rows_of blocks ++ cur) → rows_fit (block_rows_of blocks ++ cur) →
  ∃ blocks' s1 s2, table_flush crc32c_raw_oneshot zlib_encode options s = Done (inr tt, s1) ∧
    match sb_pending_data_block s1 with
    | Some (last_key, handle) => index_add (kc_find_short_successor c last_key) handle
    | None => ret tt
    end (sb_set_pending None s1) = Done (tt, s2) ∧
    finished blocks' s2 ∧ block_rows_of blocks' = block_rows_of blocks ++ cur ∧
    sb_properties s2 = sb_properties s ∧ sb_properties_block_builder s2 = sb_properties_block_builder s.
Proof.
  intros Hb He Hfit. destruct (decide (cur = [])) as [->|Hne].
  - pose proof (chain_nil _ (bd_chain _ _ _ _ Hb)) as ->. exists [], s, (sb_set_pending None s).
    split; [by eapply table_flush_empty|]. destruct Hb as [Hlen Hdata Hindex Hst Hch Hpend Hfilter Hsize].
    destruct (sb_pending_data_block s) as [[]|] eqn:E; [by destruct Hpend|]. split; [done|].
    split; [|done]. split; cbn; try done. by left.
  - destruct (table_flush_ok _ _ _ Hb Hne Hfit) as (s1 & Hf & Hb1 & Hp & P1 & P2).
    destruct (sb_pending_data_block s1) as [[k h]|] eqn:E; [|done].
    pose proof (bd_pending _ _ _ _ Hb1) as Hpend. rewrite E in Hpend. destruct Hpend as (_ & _ & Hk & _).
    assert (kc_key k) as Hkk.
    { subst k. destruct (final_key_last cur [] Hne) as (row & Hl & ->). apply last_Some in Hl as [init ->].
      destruct He as [He _]. rewrite !Forall_app in He. destruct He as (_ & _ & He). by apply Forall_cons in He as [? _]. }
    destruct (kc_successor_spec _ Hkk) as (succ & Hsucc & _).
    exists (blocks ++ [mkTBlock succ h cur]), s1,
      (sb_set_index (Builder_add (sb_index_block_builder s1) succ (BlockHandle_serialized h)) (sb_set_pending None s1)).
    split; [done|]. rewrite E. split.
    + unfold index_add, bind, unwrap. rewrite Hsucc. unfold ret, gets, modify. reflexivity.
    + split; [by apply (finish_pending _ _ _ k)|]. split; [|done].
      unfold block_rows_of. rewrite fmap_app, concat_app. cbn. by rewrite app_nil_r.
Qed.

(** The index is small. *)
Lemma index_weight blocks :
  indexed c blocks → Forall (λ b, tb_rows b ≠ []) blocks → entries_ok c (block_rows_of blocks) →
  (weight (index_row <$> blocks) ≤ 2 * weight (block_rows_of blocks))%nat ∧
  (length (concat (tb_key <$> blocks)) ≤ weight (block_rows_of blocks))%nat.
Proof.
  intros Hi Hne He.
  assert (Forall (λ b, length (tb_key b) + 64 ≤ weight (tb_rows b))%nat blocks) as Hb.
  { apply Forall_lookup. intros i b Hb. destruct (indexed_block c _ _ _ Hi Hne He Hb) as (_ & _ & Hl & _).
    destruct (final_key_last (tb_rows b) [] (Forall_lookup_1 _ _ _ _ Hne Hb)) as (row & Hrow & Hk).
    apply last_Some_elem_of, weight_in in Hrow. rewrite Hk in Hl. unfold row_weight in Hrow. lia. }
  clear Hi Hne He. unfold block_rows_of. induction Hb as [|b blocks Hb _ [IH1 IH2]]; [done|].
  cbn [fmap list_fmap concat]. rewrite weight_app, weight_cons, length_app. unfold row_weight at 1. cbn [index_row fst snd].
  pose proof (length_handle (tb_handle b)). change (list_fmap TBlock (list (bytes * bytes)) tb_rows blocks) with (tb_rows <$> blocks). lia.
Qed.

(** More was written after [s]. *)
Record grown (s s' : SSTableBuilder) : Prop := mkGrown {
  gr_file : ∃ data, sb_file s' = sb_file s ++ data;
  gr_len : sb_file_len s' = Z.of_nat (length (sb_file s'));
  gr_index : sb_index_block_builder s' = sb_index_block_builder s;
  gr_size : Z.of_nat (length (sb_file s')) ≤ Z.of_nat (length (sb_file s)) + 2 ^ 36;
}.

(** A block of at most 4 GiB is written. *)
Lemma write_grown buffer s s0 :
  Z.of_nat (length buffer) ≤ 2 ^ 32 → sb_file_len s0 = Z.of_nat (length (sb_file s0)) →
  Z.of_nat (length (sb_file s0)) < 2 ^ 40 →
  sb_file s0 = sb_file s → sb_index_block_builder s0 = sb_index_block_builder s →
  ∃ h s', write_raw_block crc32c_raw_oneshot zlib_encode options buffer s0 = Done (inr h, s') ∧ grown s s' ∧
    stored_raw zlib_decode (sb_file s') h buffer ∧
    sb_properties s' = sb_properties s0 ∧ sb_properties_block_builder s' = sb_properties_block_builder s0.
Proof.
  intros Hb Hl Hs Ef Ei.
  destruct (write_raw_block_ok zlib_decode crc32c_raw_oneshot zlib_encode options (oo_compression Hoptions)
    (oo_checksum Hoptions) buffer s0 Hb Hl ltac:(unfold U64; lia)) as (h & data & Hw & Hst & _ & Hd).
  exists h, (sb_append data s0). split; [done|]. split; [|done]. split; cbn.
  - exists data. by rewrite Ef.
  - rewrite length_app. lia.
  - done.
  - rewrite length_app, Ef. lia.
Qed.

(** The row of the filter in the metaindex, and what it stands for. *)
Definition filter_rows (file : bytes) (blocks : list TBlock) (rows : list (bytes * bytes)) : Prop :=
  match o_filter_policy options with
  | None => rows = []
  | Some _ => ∃ h block r, rows = [(FILTER_PREFIX ++ fp_name policy, BlockHandle_serialized h)] ∧
      stored_raw zlib_decode file h block ∧ FilterBlockRef_parse block = inr r ∧
      ∀ off key, (off, key) ∈ held_blocks blocks → key_may_match overflow_checks policy off key r = Done true
  end.

Definition meta_builder (rows : list (bytes * bytes)) : UnsortedDataBlockBuilder := mkUnsortedBuilder false 1 rows.

Lemma offsets_bound size w :
  (size ≤ 6 * w)%nat → 4 * Z.of_nat (Z.to_nat (Z.of_nat size / base)) ≤ 24 * Z.of_nat w / base.
Proof.
  intros Hs. pose proof base_positive. rewrite Z2Nat.id by (apply Z.div_pos; lia).
  apply Z.div_le_lower_bound; [done|]. pose proof (Z.mul_div_le (Z.of_nat size) base ltac:(done)). lia.
Qed.

Lemma write_filter_ok blocks s :
  finished blocks s → rows_fit (block_rows_of blocks) →
  ∃ rows s', write_filter crc32c_raw_oneshot zlib_encode options (Unsorted_new false 1) s = Done (inr (meta_builder rows), s') ∧
    grown s s' ∧ filter_rows (sb_file s') blocks rows ∧
    sb_properties s' = sb_properties s ∧ sb_properties_block_builder s' = sb_properties_block_builder s.
Proof.
  intros [Hlen Hindex Hst Hix Hfilter Hsize] Hfit. unfold write_filter, bind at 1, gets. change (id s) with s.
  unfold bind at 1, modify at 1. unfold filter_rows.
  pose proof (rf_weight _ Hfit) as Hw.
  destruct (sb_filter_block_builder s) as [f|] eqn:Ef; cbn [filter_state] in Hfilter.
  - destruct Hfilter as (Hp & Hb & Ho). rewrite Hp.
    assert (filter_fits policy (held_blocks blocks)) as Hff by (eapply held_fits; [apply held_blocks_keys|done|done]).
    destruct (filter_finish_ok policy overflow_checks _ _ _ Hb Hff (oo_log_base Hoptions)) as (block & Hfin & Hlb & Hparse).
    assert (length (held_blocks blocks) = length (block_rows_of blocks)) as Hh.
    { rewrite <- (length_fmap snd), held_blocks_keys. apply length_fmap. }
    assert (Z.of_nat (length block) < 2 ^ 32) as Hbl.
    { destruct (rf_filter _ Hfit Hp) as (_ & _ & Hsz). rewrite Hh, Ho, Hlen in Hlb. eapply Z.le_lt_trans; [|exact Hsz].
      unfold filter_size. pose proof (offsets_bound (length (sb_file s)) (weight (block_rows_of blocks)) Hsize). lia. }
    destruct (Hparse Hbl) as (r & Hr & Hmatch).
    destruct (write_grown block s (sb_set_filter None s)) as (h & s' & Hwr & Hg & Hraw & P1 & P2); [lia|done|cbn; lia|done|done|].
    exists [(FILTER_PREFIX ++ fp_name policy, BlockHandle_serialized h)], s'. split.
    + unfold bind at 1, lift_run. rewrite Hfin. unfold try_bind, bind at 1. rewrite Hwr. reflexivity.
    + split; [done|]. split; [|done]. by exists h, block, r.
  - rewrite Hfilter. exists [], (sb_set_filter None s). split; [done|]. split; [|done]. split; cbn; try done.
    + exists []. by rewrite app_nil_r.
    + lia.
Qed.

Lemma add_properties l s :
  foldl (λ s kv, add_custom_property kv.1 kv.2 s) s l =
  sb_set_properties_block
    (mkUnsortedBuilder (ub_use_delta_encoding (sb_properties_block_builder s))
       (ub_restart_interval (sb_properties_block_builder s)) (ub_data (sb_properties_block_builder s) ++ l)) s.
Proof.
  revert s. induction l as [|[k v] l IH]; intros s; cbn [foldl fst snd].
  - rewrite app_nil_r. by destruct s as [? ? ? ? ? ? [] ?].
  - rewrite IH. cbn. rewrite <- app_assoc. done.
Qed.

Lemma weight_permutation l1 l2 : l1 ≡ₚ l2 → weight l1 = weight l2.
Proof. intros H. unfold weight. by rewrite H. Qed.

(** An unsorted block of rows that weigh less than 2 GiB. *)
Lemma unsorted_finish_ok rows :
  Z.of_nat (weight rows) < 2 ^ 31 →
  ∃ block u ref, Unsorted_finish (meta_builder rows) = Done (inr (block, u)) ∧
    Z.of_nat (length block) ≤ 2 ^ 32 ∧ DataBlockRef_parse block = inr ref ∧ block_holds ref (merge_sort row_le rows).
Proof.
  intros Hw. unfold Unsorted_finish. cbn [meta_builder ub_data ub_use_delta_encoding ub_restart_interval].
  assert (merge_sort row_le rows ≡ₚ rows) as Hp by apply merge_sort_Permutation.
  pose proof (add_all_size false 1 (merge_sort row_le rows)) as Hsz. rewrite (weight_permutation _ _ Hp) in Hsz.
  destruct (finish_block false 1 (merge_sort row_le rows)) as (block & ref & -> & Hl & Hr & Hh); [lia|].
  eexists _, _, _. split; [done|]. split; [lia|done].
Qed.

Definition properties_rows (file : bytes) (props : TableProperties) (rows : list (bytes * bytes)) : Prop :=
  (serialize_table_properties props = [] ∧ rows = []) ∨
  ∃ h prows, rows = [(METAINDEX_PROPERTIES_KEY, BlockHandle_serialized h)] ∧
    stored zlib_decode file h prows ∧ prows ≡ₚ serialize_table_properties props.

Lemma write_property_rows_ok l rows s :
  sb_properties_block_builder s = Unsorted_new false 1 →
  sb_file_len s = Z.of_nat (length (sb_file s)) → Z.of_nat (length (sb_file s)) < 2 ^ 40 →
  Z.of_nat (weight l) < 2 ^ 31 →
  ∃ rows' s', write_property_rows crc32c_raw_oneshot zlib_encode options l (meta_builder rows) s =
      Done (inr (meta_builder (rows ++ rows')) : Result _, s') ∧ grown s s' ∧
    ((l = [] ∧ rows' = []) ∨
     ∃ h prows, rows' = [(METAINDEX_PROPERTIES_KEY, BlockHandle_serialized h)] ∧
       stored zlib_decode (sb_file s') h prows ∧ prows ≡ₚ l).
Proof.
  intros Hu Hl Hs Hw. unfold write_property_rows, bind at 1, modify at 1. rewrite add_properties, Hu.
  set (s0 := sb_set_properties_block _ s). unfold bind at 1, gets. change (id s0) with s0.
  change (sb_properties_block_builder s0) with (meta_builder l). unfold Unsorted_is_empty. cbn [meta_builder ub_data].
  destruct (Nat.eqb_spec (length l) 0) as [E|E].
  - apply nil_length_inv in E. exists [], s0. rewrite app_nil_r. split; [done|]. split; [|by left].
    split; [exists []; by rewrite app_nil_r|done|done|cbn; lia].
  - destruct (unsorted_finish_ok l Hw) as (block & u & ref & Hf & Hbl & Hr & Hh). fold (meta_builder l).
    destruct (write_grown block s (sb_set_properties_block u s0) Hbl Hl Hs eq_refl eq_refl) as (h & s' & Hwr & Hg & Hraw & _).
    exists [(METAINDEX_PROPERTIES_KEY, BlockHandle_serialized h)], s'. split.
    + unfold try_bind at 1, bind at 1, lift_rr. rewrite Hf. unfold bind at 1, modify at 1.
      unfold try_bind, bind. rewrite Hwr. done.
    + split; [done|]. right. exists h, (merge_sort row_le l). split; [done|].
      split; [by exists block, ref|apply merge_sort_Permutation].
Qed.

Lemma write_properties_ok props rows s :
  sb_properties s = props → sb_properties_block_builder s = Unsorted_new false 1 →
  sb_file_len s = Z.of_nat (length (sb_file s)) → Z.of_nat (length (sb_file s)) < 2 ^ 40 →
  Z.of_nat (weight (serialize_table_properties props)) < 2 ^ 31 →
  ∃ rows' s', write_properties crc32c_raw_oneshot zlib_encode options (meta_builder rows) s =
      Done (inr (meta_builder (rows ++ rows')), s') ∧ grown s s' ∧ properties_rows (sb_file s') props rows'.
Proof.
  intros <- Hu Hl Hs Hw. unfold properties_rows, write_properties, bind at 1, gets.
  by apply write_property_rows_ok.
Qed.

(** A finished file: its body and its footer. *)
Definition written (file : bytes) (blocks : list TBlock) (props : TableProperties) : Prop :=
  ∃ body ih mh footer frows prows,
    file = body ++ footer ∧ Footer_serialize (mkFooter CkCRC32C mh ih 0) = Done footer ∧
    stored zlib_decode body ih (index_row <$> blocks) ∧
    stored zlib_decode body mh (merge_sort row_le (frows ++ prows)) ∧
    filter_rows body blocks frows ∧ properties_rows body props prows ∧
    Forall (λ b, stored zlib_decode body (tb_handle b) (tb_rows b) ∧ tb_rows b ≠ []) blocks ∧ (5 ≤ length body)%nat.

Lemma filter_rows_app file more blocks rows : filter_rows file blocks rows → filter_rows (file ++ more) blocks rows.
Proof.
  unfold filter_rows. destruct (o_filter_policy options); [|done]. intros (h & block & r & H1 & H2 & H3).
  exists h, block, r. split; [done|]. split; [by apply stored_raw_app|done].
Qed.

Lemma properties_rows_app file more props rows :
  properties_rows file props rows → properties_rows (file ++ more) props rows.
Proof.
  intros [H|(h & prows & H1 & H2 & H3)]; [by left|right]. exists h, prows. split; [done|].
  split; [by apply stored_app|done].
Qed.

Lemma meta_rows_weight file file' blocks props frows prows :
  filter_rows file blocks frows → properties_rows file' props prows → Z.of_nat (weight (frows ++ prows)) < 2 ^ 31.
Proof.
  intros Hf Hp. rewrite weight_app. destruct (oo_name Hoptions) as [_ Hname].
  assert (Z.of_nat (weight frows) < 2 ^ 30) as H1.
  { unfold filter_rows in Hf. destruct (o_filter_policy options); [|by subst]. destruct Hf as (h & _ & _ & -> & _).
    rewrite weight_one, length_app. pose proof (length_handle h). change (length FILTER_PREFIX) with 7%nat. lia. }
  assert (Z.of_nat (weight prows) < 2 ^ 30) as H2.
  { destruct Hp as [[_ ->]|(h & _ & -> & _)]; [done|]. rewrite weight_one. pose proof (length_handle h).
    change (length METAINDEX_PROPERTIES_KEY) with 18%nat. lia. }
  lia.
Qed.

Lemma stored_length file h rows : stored zlib_decode file h rows → (5 ≤ length file)%nat.
Proof.
  intros (data & ref & [[Ho Hs] H] & _). destruct (H [] (mkFooter CkCRC32C h h 0) eq_refl) as (raw & Hr & _).
  unfold RawBlock_read in Hr. destruct (_ <? _); [done|]. unfold read_exact_at in Hr.
  destruct (_ <? _) eqn:E; [done|]. b2p. rewrite app_nil_r in E. unfold BLOCK_TRAILER_SIZE in E. lia.
Qed.

(** The index, the metaindex and the footer. *)
Lemma write_tail rows meta s :
  sb_index_block_builder s = Builder_add_all (Builder_new false 1) rows → Z.of_nat (weight rows) < 2 ^ 31 →
  Z.of_nat (weight meta) < 2 ^ 31 →
  sb_file_len s = Z.of_nat (length (sb_file s)) → Z.of_nat (length (sb_file s)) < 2 ^ 39 →
  ∃ ih mh footer d s',
    (try! (buf, _, b) := lift_rr (Builder_finish (sb_index_block_builder s)) in
     modify (sb_set_index b) ;!
     try! index_handle := write_raw_block crc32c_raw_oneshot zlib_encode options buf in
     try! (buf, _) := lift_rr (Unsorted_finish (meta_builder meta)) in
     try! metaindex_handle := write_raw_block crc32c_raw_oneshot zlib_encode options buf in
     let! footer := lift_run (Footer_serialize (mkFooter CkCRC32C metaindex_handle index_handle 0)) in
     let! s := gets id in
     ret (inr (sb_file s ++ footer))) s = Done (inr (sb_file s' ++ footer) : Result bytes, s') ∧
    sb_file s' = sb_file s ++ d ∧ Footer_serialize (mkFooter CkCRC32C mh ih 0) = Done footer ∧
    stored zlib_decode (sb_file s') ih rows ∧ stored zlib_decode (sb_file s') mh (merge_sort row_le meta) ∧
    Z.of_nat (length (sb_file s' ++ footer)) < 2 ^ 41.
Proof.
  intros Hi Hw Hmw Hl Hs. pose proof (add_all_size false 1 rows) as Hsz.
  destruct (finish_block false 1 rows) as (ibuf & iref & Hib & Hil & Hip & Hih); [lia|].
  destruct (write_grown ibuf (sb_set_index (Builder_new false 1) s) (sb_set_index (Builder_new false 1) s))
    as (ih & s5 & Hwi & [[d5 E5] Hl5 Hi5 Hs5] & Hri & _); [lia|done|cbn; lia|done|done|]. cbn in E5, Hs5.
  destruct (unsorted_finish_ok meta Hmw) as (mbuf & u & mref & Hm & Hml & Hmp & Hmh).
  destruct (write_grown mbuf s5 s5 Hml Hl5 ltac:(lia) eq_refl eq_refl) as (mh & s6 & Hwm & [[d6 E6] Hl6 Hi6 Hs6] & Hrm & _).
  destruct (parse_legacy_footer (mkFooter CkCRC32C mh ih 0) [] eq_refl eq_refl (proj1 Hrm) (proj1 Hri)) as (footer & Hfs & Hfl & _).
  exists ih, mh, footer, (d5 ++ d6), s6. split.
  - unfold try_bind at 1, bind at 1, lift_rr at 1. rewrite Hi, Hib. unfold bind at 1, modify at 1.
    unfold try_bind at 1, bind at 1. rewrite Hwi. unfold try_bind at 1, bind at 1, lift_rr at 1. rewrite Hm.
    unfold try_bind at 1, bind at 1. rewrite Hwm. unfold bind at 1, lift_run at 1. rewrite Hfs. done.
  - split; [by rewrite E6, E5, <- app_assoc|]. split; [done|].
    split; [rewrite E6; apply stored_app; by exists ibuf, iref|]. split; [by exists mbuf, mref|].
    rewrite length_app, Hfl. lia.
Qed.

Lemma table_finish_ok blocks cur s props :
  building blocks [] cur s → entries_ok c (block_rows_of blocks ++ cur) → rows_fit (block_rows_of blocks ++ cur) →
  sb_properties s = props → sb_properties_block_builder s = Unsorted_new false 1 →
  Z.of_nat (weight (serialize_table_properties props)) < 2 ^ 31 →
  ∃ blocks' file s', table_finish crc32c_raw_oneshot zlib_encode options s = Done (inr file, s') ∧
    block_rows_of blocks' = block_rows_of blocks ++ cur ∧ indexed c blocks' ∧ written file blocks' props ∧
    Z.of_nat (length file) < 2 ^ 41.
Proof.
  intros Hb He Hfit Hp Hu Hpw. destruct (finish_index _ _ _ Hb He Hfit) as (bs & s1 & s2 & Hfl & Hix & Hfin & Hrows & P1 & P2).
  rewrite <- Hrows in He, Hfit.
  assert (Z.of_nat (weight (block_rows_of bs)) < 2 ^ 31) as Hw by (destruct Hfit; lia).
  destruct (write_filter_ok bs s2 Hfin Hfit) as (frows & s3 & Hwf & Hg3 & Hf3 & P3 & P4).
  pose proof Hfin as [Hl2 Hi2 Hst2 Hx2 _ Hs2]. destruct Hg3 as [[d3 E3] Hl3 Hi3 Hs3].
  destruct (write_properties_ok props frows s3) as (prows & s4 & Hwp & [[d4 E4] Hl4 Hi4 Hs4] & Hp4); [congruence|congruence|done|lia|done|].
  assert (Forall (λ b, tb_rows b ≠ []) bs) as Hne by (eapply Forall_impl; [exact Hst2|]; by intros b [? ?]).
  destruct (index_weight bs Hx2 Hne He) as [Hiw _].
  assert (Z.of_nat (weight (index_row <$> bs)) < 2 ^ 31) as Hiw' by (destruct Hfit; nia).
  destruct (write_tail (index_row <$> bs) (frows ++ prows) s4) as (ih & mh & footer & d & s6 & Htail & E6 & Hfs & Hist & Hmst & Hlen);
    [congruence|done|by eapply meta_rows_weight|done|lia|].
  exists bs, (sb_file s6 ++ footer), s6. split.
  - unfold table_finish, try_bind at 1, bind at 1. rewrite Hfl. unfold bind at 1, gets at 1. change (id s1) with s1.
    unfold bind at 1, modify at 1. unfold bind at 1. rewrite Hix. unfold try_bind at 1, bind at 1. rewrite Hwf.
    unfold try_bind at 1, bind at 1. rewrite Hwp. exact Htail.
  - split; [done|]. split; [done|]. split; [|done]. exists (sb_file s6), ih, mh, footer, frows, prows. do 4 (split; [done|]).
    split; [rewrite E6, E4, <- !app_assoc; by apply filter_rows_app|].
    split; [rewrite E6; by apply properties_rows_app|]. split; [|by eapply stored_length].
    eapply Forall_impl; [exact Hst2|]. intros b [H1 H2].
    split; [rewrite E6, E4, E3, <- !app_assoc; by apply stored_app|done].
Qed.

(** ** Opening what was written *)

Lemma complete_handle h : handle_ok h → complete (BlockHandle_parse (BlockHandle_serialized h)) = inr h.
Proof.
  intros [H1 H2]. pose proof (BlockHandle_roundtrip h [] H1 H2) as H. rewrite app_nil_r in H. unfold complete. by rewrite H.
Qed.

Lemma index_of_snoc blocks b :
  index_of (blocks ++ [b]) =
  mkIndexBlock (ib_last_keys (index_of blocks) ++ tb_key b)
    (ib_last_key_offsets (index_of blocks) ++ [Z.of_nat (length (ib_last_keys (index_of blocks))) mod 2 ^ 32])
    (ib_block_handles (index_of blocks) ++ [tb_handle b]).
Proof.
  unfold index_of. cbn. rewrite !fmap_app. cbn. rewrite concat_app, offsets_of_snoc. cbn. by rewrite app_nil_r.
Qed.

Lemma IndexBlock_loop_ok fuel it blocks prev :
  iter_rows it (index_row <$> blocks) → (length blocks ≤ fuel)%nat → Forall (λ b, handle_ok (tb_handle b)) blocks →
  IndexBlock_loop fuel it (index_of prev) = Done (inr (index_of (prev ++ blocks))).
Proof.
  revert it fuel prev. induction blocks as [|b blocks IH]; intros it fuel prev Hit Hf Hh.
  all: apply iter_rows_next in Hit; destruct fuel as [|fuel]; cbn [length fmap list_fmap] in Hf, Hit; try lia.
  1-2: cbn [IndexBlock_loop]; by rewrite Hit, app_nil_r.
  apply Forall_cons in Hh as [Hb Hh]. destruct Hit as (it' & Hn & Hit). cbn [IndexBlock_loop]. rewrite Hn.
  unfold index_row at 1. rewrite complete_handle by done. rewrite <- index_of_snoc.
  rewrite (IH it' fuel (prev ++ [b])) by (done || lia). by rewrite <- app_assoc.
Qed.

Lemma IndexBlock_create_ok ref blocks :
  block_holds ref (index_row <$> blocks) → Forall (λ b, handle_ok (tb_handle b)) blocks →
  IndexBlock_create ref = Done (inr (index_of blocks)).
Proof.
  intros Hh Hb. destruct (block_holds_rows _ _ Hh) as [Hit Hl]. rewrite length_fmap in Hl.
  unfold IndexBlock_create. exact (IndexBlock_loop_ok _ _ blocks [] Hit Hl Hb).
Qed.

Lemma utf8_ascii_app a l : Forall (λ b, b < 0x80) a → utf8_valid (a ++ l) = utf8_valid l.
Proof.
  induction 1 as [|b a Hb _ IH]; [done|]. cbn [app utf8_valid]. by rewrite (proj2 (Z.ltb_lt _ _)).
Qed.

Context (registry : FilterPolicyRegistry).

(** What opening makes of the filter. *)
Definition opened_filter (blocks : list TBlock) (filter : option (FilterPolicy * FilterBlockRef)) : Prop :=
  match o_filter_policy options, registry_get (fp_name policy) registry with
  | Some _, Some p =>
    ∃ r, filter = Some (p, r) ∧
      ∀ b row, b ∈ blocks → row ∈ tb_rows b →
        key_may_match overflow_checks policy (bh_offset (tb_handle b)) row.1 r = Done true
  | _, _ => filter = None
  end.

Lemma in_held_blocks blocks b row :
  b ∈ blocks → row ∈ tb_rows b → (bh_offset (tb_handle b), row.1) ∈ held_blocks blocks.
Proof.
  intros Hb Hrow. unfold held_blocks. apply list_elem_of_In, in_flat_map. exists b. split; [by apply list_elem_of_In|].
  apply list_elem_of_In. unfold held_rows. by apply list_elem_of_fmap_2, list_elem_of_fmap_2.
Qed.

Lemma open_filter_run body footer ft h block r props :
  stored_raw zlib_decode body h block → FilterBlockRef_parse block = inr r → ft_checksum_type ft = CkCRC32C →
  open_row zlib_decode (body ++ footer) ft registry (FILTER_PREFIX ++ fp_name policy) (BlockHandle_serialized h) props None =
    Done (inr (props, (λ p, (p, r)) <$> registry_get (fp_name policy) registry)).
Proof.
  intros [Hh Hraw] Hparse Hft. unfold open_row, from_utf8.
  rewrite utf8_ascii_app, (proj1 (oo_name Hoptions)) by (repeat constructor; done).
  cbn [rr_bind]. rewrite complete_handle by done. cbn [rr_bind].
  rewrite bool_decide_eq_false_2 by done. unfold strip_prefix. rewrite take_app_length, drop_app_length.
  rewrite bool_decide_eq_true_2 by done. destruct (registry_get _ _) as [p|]; [|done].
  unfold FilterBlock_read. destruct (Hraw footer ft Hft) as (raw & -> & Hd). cbn [rr_bind]. rewrite Hd. cbn [rr_bind].
  by rewrite Hparse.
Qed.

(** The row of the filter. *)
Lemma open_filter_row body footer ft blocks frows props :
  filter_rows body blocks frows → ft_checksum_type ft = CkCRC32C →
  ∃ filter, opened_filter blocks filter ∧
    match frows with
    | [] => filter = None
    | (k, v) :: rest => rest = [] ∧ k !! 0%nat = Some 102 ∧
      open_row zlib_decode (body ++ footer) ft registry k v props None = Done (inr (props, filter))
    end.
Proof.
  intros Hf Hft. unfold filter_rows, opened_filter in *. destruct (o_filter_policy options) as [p0|] eqn:Ep.
  2:{ subst frows. by exists None. }
  destruct Hf as (h & block & r & -> & Hst & Hparse & Hm). eexists. split.
  2:{ split; [done|]. split; [done|]. by eapply open_filter_run. }
  destruct (registry_get _ _) as [p|]; [|done]. exists r. split; [done|].
  intros b row Hb Hrow. apply Hm. by apply in_held_blocks.
Qed.

(** The row of the properties. *)
Lemma open_properties_row body footer ft props prows filter :
  properties_rows body props prows → properties_ok props → ft_checksum_type ft = CkCRC32C →
  match prows with
  | [] => props = ∅
  | (k, v) :: rest => rest = [] ∧ k !! 0%nat = Some 114 ∧
    open_row zlib_decode (body ++ footer) ft registry k v ∅ filter = Done (inr (props, filter))
  end.
Proof.
  intros [[Hs ->]|(h & rows & -> & Hst & Hp)] Hok Hft; [by apply serialize_empty|].
  split; [done|]. split; [done|]. unfold open_row. assert (from_utf8 METAINDEX_PROPERTIES_KEY = inr METAINDEX_PROPERTIES_KEY) as -> by done.
  cbn [rr_bind]. destruct Hst as (data & ref & Hraw & Hparse & Hh). rewrite complete_handle by apply Hraw. cbn [rr_bind].
  rewrite bool_decide_eq_true_2 by done.
  destruct (stored_read zlib_decode body h rows footer ft) as (ref' & -> & Hh'); [by exists data, ref|done|].
  cbn [rr_bind]. by rewrite (parse_properties_ok _ _ _ Hh' Hp Hok).
Qed.

Lemma open_loop_nil fuel file ft it props filter :
  iter_rows it [] → open_loop zlib_decode fuel file ft registry it props filter = Done (inr (props, filter)).
Proof. intros Hit. apply iter_rows_next in Hit. destruct fuel; cbn [open_loop]; by rewrite Hit. Qed.

Lemma open_loop_cons fuel file ft it k v rows props filter props' filter' :
  iter_rows it ((k, v) :: rows) →
  open_row zlib_decode file ft registry k v props filter = Done (inr (props', filter')) →
  ∃ it', iter_rows it' rows ∧
    open_loop zlib_decode (S fuel) file ft registry it props filter =
    open_loop zlib_decode fuel file ft registry it' props' filter'.
Proof.
  intros Hit Hrow. apply iter_rows_next in Hit as (it' & Hn & Hit'). exists it'. split; [done|].
  cbn [open_loop]. rewrite Hn, Hrow. done.
Qed.

(** A key that starts with f is before one that starts with r. *)
Lemma meta_sorted k1 v1 k2 v2 :
  k1 !! 0%nat = Some 102 → k2 !! 0%nat = Some 114 →
  merge_sort row_le [(k1, v1); (k2, v2)] = [(k1, v1); (k2, v2)].
Proof.
  intros H1 H2. destruct k1 as [|x k1], k2 as [|y k2]; try done. cbn in H1, H2. simplify_eq.
  unfold merge_sort. cbn. rewrite decide_True; [done|]. by unfold row_le.
Qed.

Lemma open_metaindex body footer ft blocks props frows prows ref :
  filter_rows body blocks frows → properties_rows body props prows → properties_ok props →
  ft_checksum_type ft = CkCRC32C → block_holds ref (merge_sort row_le (frows ++ prows)) →
  ∃ filter, opened_filter blocks filter ∧
    open_loop zlib_decode (length (db_entries ref)) (body ++ footer) ft registry (DataBlockRef_rows ref) ∅ None =
      Done (inr (props, filter)).
Proof.
  intros Hf Hp Hok Hft Hh. destruct (block_holds_rows _ _ Hh) as [Hit Hlen].
  destruct (open_filter_row body footer ft blocks frows ∅ Hf Hft) as (filter & Hopen & Hfr).
  pose proof (open_properties_row body footer ft props prows filter Hp Hok Hft) as Hpr.
  exists filter. split; [done|]. set (fuel := length (db_entries ref)) in *.
  destruct frows as [|[k1 v1] frows]; [subst filter|destruct Hfr as (-> & H1 & Hr1)];
    (destruct prows as [|[k2 v2] prows]; [subst props|destruct Hpr as (-> & H2 & Hr2)]); cbn [app] in Hit, Hlen.
  - by apply open_loop_nil.
  - destruct fuel as [|fuel]; [cbn in Hlen; lia|].
    destruct (open_loop_cons fuel (body ++ footer) ft _ k2 v2 [] ∅ None _ _ Hit Hr2) as (it' & Hit' & ->).
    by apply open_loop_nil.
  - destruct fuel as [|fuel]; [cbn in Hlen; lia|].
    destruct (open_loop_cons fuel (body ++ footer) ft _ k1 v1 [] ∅ None _ _ Hit Hr1) as (it' & Hit' & ->).
    by apply open_loop_nil.
  - rewrite meta_sorted in Hit, Hlen by done. destruct fuel as [|[|fuel]]; [cbn in Hlen; lia..|].
    destruct (open_loop_cons (S fuel) (body ++ footer) ft _ k1 v1 _ ∅ None _ _ Hit Hr1) as (it' & Hit' & ->).
    destruct (open_loop_cons fuel (body ++ footer) ft _ k2 v2 [] _ _ _ _ Hit' Hr2) as (it2 & Hit2 & ->).
    by apply open_loop_nil.
Qed.

Lemma open_written file blocks props :
  written file blocks props → indexed c blocks → entries_ok c (block_rows_of blocks) →
  rows_fit (block_rows_of blocks) → properties_ok props →
  ∃ t, SSTable_open zlib_decode file c registry = Done (inr t) ∧ table_holds zlib_decode c t blocks ∧
    st_properties t = props ∧ opened_filter blocks (st_filter t).
Proof.
  intros (body & ih & mh & footer & frows & prows & -> & Hfs & Hist & Hmst & Hf & Hp & Hst & Hlen) Hix He Hfit Hok.
  set (ft := mkFooter CkCRC32C mh ih 0) in *.
  assert (handle_ok mh ∧ handle_ok ih) as [Hmh Hih].
  { destruct Hist as (? & ? & [? _] & _), Hmst as (? & ? & [? _] & _). done. }
  assert (Forall (λ b, tb_rows b ≠ []) blocks) as Hne by (eapply Forall_impl; [exact Hst|]; by intros b [? ?]).
  unfold SSTable_open. assert (Footer_read_from_file (body ++ footer) = Done (inr ft)) as ->.
  { destruct (parse_legacy_footer ft (drop (length body - 5) body) eq_refl eq_refl Hmh Hih) as (out & Ho & Hlo & Hpf).
    rewrite Hfs in Ho. injection Ho as <-. unfold Footer_read_from_file, FOOTER_SIZE. rewrite length_app, Hlo.
    rewrite (proj2 (Nat.ltb_ge _ _)) by lia. rewrite drop_app_le by lia.
    by replace (length body + 48 - 53)%nat with (length body - 5)%nat by lia. }
  cbn [rr_bind ft_index_handle ft_metaindex_handle ft].
  destruct (stored_read zlib_decode body ih _ footer ft Hist eq_refl) as (iref & -> & Hiref). cbn [rr_bind].
  rewrite (IndexBlock_create_ok _ _ Hiref).
  2:{ eapply Forall_impl; [exact Hst|]. by intros b [(? & ? & [? _] & _) _]. }
  cbn [rr_bind]. destruct (stored_read zlib_decode body mh _ footer ft Hmst eq_refl) as (mref & -> & Hmref). cbn [rr_bind].
  destruct (open_metaindex body footer ft blocks props frows prows mref Hf Hp Hok eq_refl Hmref) as (filter & Hopen & ->).
  cbn [rr_bind]. eexists. split; [done|]. split; [|done]. split; cbn; try done.
  - destruct (index_weight _ Hix Hne He) as [_ Hw]. destruct Hfit as [Hfw _]. unfold U32. lia.
  - eapply Forall_impl; [exact Hst|]. intros b [Hb _]. by apply stored_read.
  - by apply indexed_separates.
Qed.
End Build.
