(* ===== verification/TableTheorems.v ===== *)
(** * Theorems about tables *)

From Stdlib Require Import String Ascii.
From S2P Require Import Prelude Algorithms Wire Encoding Crc Snappy SnappyTheorems Comparator DataBlock MergeIterator MergeIteratorTheorems Filter FilterTheorems Table TableProofs TableProperties TableBuild.

(** [SSTableBuilder::open], the properties, [add] for every row and [finish]. *)
Definition build_table (crc32c_raw_oneshot : Z → Z) (zlib_encode : bytes → Result bytes) (overflow_checks : bool)
    (options : SSTableBuilderOptions) (props : TableProperties) (rows : list (bytes * bytes)) : RR bytes :=
  match SSTableBuilder_open overflow_checks options with
  | Done s =>
    match (try! _ := add_rows crc32c_raw_oneshot zlib_encode options rows in
           table_finish crc32c_raw_oneshot zlib_encode options) (sb_set_properties props s) with
    | Done (r, _) => Done r
    | Panicked => Panicked
    | OutOfFuel => OutOfFuel
    end
  | Panicked => Panicked
  | OutOfFuel => OutOfFuel
  end.

Section Tables.
Context (crc32c_raw_oneshot : Z → Z) (zlib_encode zlib_decode : bytes → Result bytes) (overflow_checks : bool).
Context (options : SSTableBuilderOptions) (policy : FilterPolicy) {HP : FilterPolicyLaws policy}.
Context {HC : KeyComparatorLaws (o_comparator options)} (registry : FilterPolicyRegistry).

Lemma open_building :
  options_ok zlib_encode zlib_decode options policy →
  ∃ s, SSTableBuilder_open overflow_checks options = Done s ∧ ∀ props,
    building zlib_decode options policy [] [] [] (sb_set_properties props s) ∧
    sb_properties_block_builder s = Unsorted_new false 1.
Proof.
  intros Ho. unfold SSTableBuilder_open. destruct (oo_filter _ _ _ _ Ho) as [E|E]; rewrite E.
  - eexists. split; [done|]. intros props. split; [|done]. by split.
  - unfold FilterBlockBuilder_new. destruct (oo_log_base _ _ _ _ Ho) as [H1 H2].
    rewrite (proj2 (Z.ltb_ge 63 _)), andb_false_r, Z.mod_small by lia. eexists. split; [done|].
    intros props. split; [|done]. split; try done. split; [done|]. split; [by apply new_builder_ok|].
    cbn. by rewrite Z.div_0_l by (rewrite Z.shiftl_1_l; pose proof (Z.pow_pos_nonneg 2 (o_filter_log_base options)); lia).
Qed.

(** A table is built and opened. *)
Lemma build_open props rows :
  options_ok zlib_encode zlib_decode options policy → entries_ok (o_comparator options) rows → rows_fit options policy rows →
  properties_ok props → Z.of_nat (weight (serialize_table_properties props)) < 2 ^ 31 →
  ∃ file blocks t, build_table crc32c_raw_oneshot zlib_encode overflow_checks options props rows = Done (inr file) ∧
    SSTable_open zlib_decode file (o_comparator options) registry = Done (inr t) ∧
    table_holds zlib_decode (o_comparator options) t blocks ∧ block_rows_of blocks = rows ∧
    indexed (o_comparator options) blocks ∧ Forall (λ b, tb_rows b ≠ []) blocks ∧ st_properties t = props ∧
    opened_filter overflow_checks options policy registry blocks (st_filter t).
Proof.
  intros Ho He Hfit Hp Hw. destruct (open_building Ho) as (s & Hs & Hopen). destruct (Hopen props) as [Hb Hu].
  destruct (add_rows_ok crc32c_raw_oneshot zlib_encode zlib_decode options policy Ho rows [] [] _ Hb He Hfit)
    as (bs & cur & s1 & Hrun & Hb1 & Hr1 & _ & P1 & P2). cbn [block_rows_of app] in Hr1.
  destruct (table_finish_ok crc32c_raw_oneshot zlib_encode zlib_decode overflow_checks options policy Ho bs cur s1 props)
    as (blocks & file & s2 & Hfin & Hrows & Hix & Hwr & _); [done|by rewrite Hr1|by rewrite Hr1|done| |done|].
  { by rewrite P2. }
  assert (block_rows_of blocks = rows) as Hall by (rewrite Hrows, Hr1; done).
  destruct (open_written zlib_encode zlib_decode overflow_checks options policy Ho registry file blocks props)
    as (t & Ht & Hh & Hpr & Hof); [done|done|by rewrite Hall|by rewrite Hall|done|].
  exists file, blocks, t. unfold build_table, try_bind, bind. rewrite Hs, Hrun, Hfin.
  split; [done|]. split; [done|]. split; [done|]. split; [done|]. split; [done|]. split; [|done].
  apply Forall_lookup. intros i b Hbi. by destruct (th_separates _ _ _ _ Hh i b Hbi) as (_ & ? & _).
Qed.

Lemma table_iter_rep t blocks :
  table_holds zlib_decode (o_comparator options) t blocks →
  table_rep zlib_decode (o_comparator options) (SSTable_iter t) (block_rows_of blocks) (block_rows_of blocks).
Proof. intros H. exists blocks. split; [done|]. done. Qed.
End Tables.

Lemma table_collect_ok zlib_decode c `{!KeyComparatorLaws c} fuel i all rest :
  table_rep zlib_decode c i all rest → (length rest < fuel)%nat →
  ∃ i', @it_collect _ (SSTableIterator_iterable zlib_decode) fuel i = Done (inr rest, i').
Proof.
  revert i rest. induction fuel as [|fuel IH]; intros i rest Hrep Hf; [lia|]. cbn [it_collect]. unfold try_bind, bind.
  destruct (table_next_ok zlib_decode c i all rest Hrep) as (i1 & Hn & Hrep1).
  change (it_next i) with (table_next zlib_decode i). rewrite Hn.
  destruct rest as [|e rest]; cbn [head tail] in *; [by exists i1|].
  destruct (IH i1 rest Hrep1 ltac:(cbn in Hf; lia)) as (i2 & ->). by exists i2.
Qed.

(** C31: A table of rows in ascending order is built without a panic or an
    error, opens, and gives back its properties (of the fields that exist, with
    values of their types) and, when iterated over, exactly its rows in order. This holds for every comparator that keeps its
    laws, with and without a filter, for the CRC32C checksum (the one that the
    footer of a built table announces), for blocks that are not compressed,
    compressed by snappy with any hash, or by a zlib that decodes what it
    encodes, and for rows of less than 1 GiB, counted with 64 bytes a row. *)
Theorem table_roundtrip (crc32c_raw_oneshot : Z → Z) (zlib_encode zlib_decode : bytes → Result bytes)
    (overflow_checks : bool) (options : SSTableBuilderOptions) (policy : FilterPolicy) (HP : FilterPolicyLaws policy)
    (HC : KeyComparatorLaws (o_comparator options)) (registry : FilterPolicyRegistry)
    (props : TableProperties) (rows : list (bytes * bytes)) :
  options_ok zlib_encode zlib_decode options policy → entries_ok (o_comparator options) rows → rows_fit options policy rows →
  properties_ok props → Z.of_nat (weight (serialize_table_properties props)) < 2 ^ 31 →
  ∃ file t i, build_table crc32c_raw_oneshot zlib_encode overflow_checks options props rows = Done (inr file) ∧
    SSTable_open zlib_decode file (o_comparator options) registry = Done (inr t) ∧ st_properties t = props ∧
    @it_collect _ (SSTableIterator_iterable zlib_decode) (S (length rows)) (SSTable_iter t) = Done (inr rows, i).
Proof.
  intros Ho He Hfit Hp Hw.
  destruct (build_open crc32c_raw_oneshot zlib_encode zlib_decode overflow_checks options policy registry props rows Ho He Hfit Hp Hw)
    as (file & blocks & t & Hbuild & Hopen & Hh & <- & _ & _ & Hpr & _).
  destruct (table_collect_ok zlib_decode (o_comparator options) (S (length (block_rows_of blocks))) _ _ _ (table_iter_rep zlib_decode options t blocks Hh)
    ltac:(lia)) as (i & Hi).
  by exists file, t, i.
Qed.

(** ** Seeking with the bytewise comparator *)

(** A separator is the key before it, or no key from the limit on starts with
    it. *)
Lemma increment_loop_cases n i p x y a b :
  x < y → (length p ≤ i)%nat →
  increment_loop n i (p ++ x :: a) (p ++ y :: b) = p ++ x :: a ∨
  ∀ z, bytes_compare (increment_loop n i (p ++ x :: a) (p ++ y :: b) ++ z) (p ++ y :: b) = Lt.
Proof.
  intros Hxy. revert i. induction n as [|n IH]; intros i Hi; cbn [increment_loop]; [by left|].
  destruct ((p ++ x :: a) !! i) as [s|] eqn:Es; [|by left]. destruct ((p ++ y :: b) !! i) as [l|] eqn:El; [|by left].
  destruct (_ && _) eqn:E; [|apply IH; lia]. b2p. destruct E as [E1 E2]. right. intros z.
  rewrite take_app_ge by done. destruct (i - length p)%nat as [|k] eqn:Ek.
  - rewrite lookup_app_r in Es, El by lia. rewrite Ek in Es, El. cbn in Es, El. simplify_eq.
    cbn [take]. rewrite app_nil_r, <- app_assoc. by apply bytes_compare_bump.
  - cbn [take]. rewrite <- !app_assoc. cbn [app]. by apply bytes_compare_bump.
Qed.

Lemma bytewise_separator_cases start limit :
  bytes_compare start limit = Lt →
  bytewise_find_shortest_separator start limit = start ∨
  ∀ z, bytes_compare (bytewise_find_shortest_separator start limit ++ z) limit = Lt.
Proof.
  intros Hlt. unfold bytewise_find_shortest_separator. destruct (_ <=? _)%nat eqn:E; b2p; [by left|].
  destruct (diff_index_spec start limit) as (p & x & y & a & b & -> & -> & Hne & Hl); [lia|].
  apply increment_loop_cases; [|lia]. rewrite bytes_compare_app in Hlt. cbn in Hlt.
  destruct (x ?= y) eqn:Exy; try done. by apply Z.compare_eq in Exy.
Qed.

(** A key that only seems large enough is a part of the one that is sought. *)
Lemma seems_prefix k tail key :
  bytes_compare (k ++ tail) key ≠ Lt → bytes_compare k key = Lt → k `prefix_of` key ∧ k ≠ key.
Proof.
  intros H1 H2. split; [|intros ->; by rewrite bytes_compare_refl in H2].
  revert key H1 H2. induction k as [|x k IH]; intros [|y key] H1 H2; try done.
  - apply prefix_nil.
  - cbn in *. destruct (x ?= y) eqn:E; try done. apply Z.compare_eq in E as ->. by apply prefix_cons, IH.
Qed.

Lemma between_prefix k x key :
  k `prefix_of` key → bytes_compare k x = Lt → bytes_compare x key = Lt → k `prefix_of` x.
Proof.
  intros [z ->]. revert x. induction k as [|y k IH]; intros x H1 H2; [apply prefix_nil|].
  destruct x as [|w x]; [done|]. cbn in H1, H2. rewrite (Z.compare_antisym y w) in H2.
  destruct (y ?= w) eqn:E; try done. apply Z.compare_eq in E as ->. by apply prefix_cons, IH.
Qed.

Lemma indexed_next c blocks r b :
  indexed c blocks → blocks !! r = Some b →
  block_rows_of (drop (S r) blocks) = [] ∨
  ∃ f, head (block_rows_of (drop (S r) blocks)) = Some f ∧
    kc_find_shortest_separator c (final_key [] (tb_rows b)) f.1 = Some (tb_key b).
Proof.
  intros [->|(init & l & -> & Hch & _)] Hb; [done|]. apply lookup_app_Some in Hb as [Hb|[Hi Hb]].
  - right. destruct (chain_lookup c _ _ _ _ Hch Hb) as (f & Hf & Hs). exists f. split; [|done].
    apply lookup_lt_Some in Hb. rewrite drop_app_le by lia. unfold block_rows_of in *.
    rewrite fmap_app, concat_app. cbn. by rewrite app_nil_r.
  - left. apply list_lookup_singleton_Some in Hb as [Hi' ->]. rewrite drop_ge by (rewrite length_app; cbn; lia). done.
Qed.

(** A mistaken search does no harm when no row's key is a part of the key. *)
Lemma mistaken_harmless blocks key r b extra :
  indexed BytewiseComparator blocks → Forall (λ b, tb_rows b ≠ []) blocks →
  entries_ok BytewiseComparator (block_rows_of blocks) → separates BytewiseComparator blocks →
  (∀ row, row ∈ block_rows_of blocks → row.1 `prefix_of` key → row.1 = key) →
  mistaken BytewiseComparator blocks key r b → Forall (λ e, ¬ bytes_le key e.1) extra →
  extra `prefix_of` block_rows_of (drop (S r) blocks) → extra = [].
Proof.
  intros Hix Hne He Hsep Hpre (Hb & Hk & Hge) Hext Hp. unfold index_ge in Hge. cbn in Hge, Hk.
  assert (tb_key b `prefix_of` key ∧ tb_key b ≠ key) as [Hkp Hkne].
  { apply (seems_prefix _ (keys_after (tb_key <$> blocks) r)); [|by apply bytes_not_le].
    intros E. rewrite E in Hge. done. }
  destruct extra as [|x extra]; [done|]. exfalso. apply Forall_cons in Hext as [Hx _].
  destruct (Hsep r b Hb) as (_ & _ & _ & Hafter). destruct Hp as [more Hrows].
  rewrite Hrows in Hafter. apply Forall_cons in Hafter as [Hkx _]. cbn in Hkx.
  assert (tb_key b `prefix_of` x.1) as [z Hz].
  { apply (between_prefix _ _ key Hkp); [by apply bytes_not_le|by apply bytes_not_le]. }
  destruct (indexed_next _ _ _ _ Hix Hb) as [E|(f & Hf & Hs)]; [by rewrite E in Hrows|].
  rewrite Hrows in Hf. cbn in Hf. injection Hf as <-. cbn in Hs. injection Hs as Hs.
  destruct (final_key_last (tb_rows b) [] (Forall_lookup_1 _ _ _ _ Hne Hb)) as (l & Hl & Hfk).
  apply last_Some_elem_of in Hl. rewrite Hfk in Hs.
  assert (bytes_compare l.1 x.1 = Lt) as Hlx.
  { apply bytes_not_le. destruct He as [_ He]. rewrite (block_rows_split _ _ _ Hb), app_assoc in He.
    apply (StronglySorted_app_1_elem_of _ _ _ l x He); [by rewrite elem_of_app; right|]. rewrite Hrows. left. }
  destruct (bytewise_separator_cases _ _ Hlx) as [E|E].
  - rewrite E in Hs. apply Hkne. rewrite <- Hs. apply Hpre; [|by rewrite Hs].
    rewrite (block_rows_split _ _ _ Hb), !elem_of_app. right. by left.
  - specialize (E z). rewrite Hs, <- Hz in E. by rewrite bytes_compare_refl in E.
Qed.

(** The options with the bytewise comparator. *)
Definition bytewise (o : SSTableBuilderOptions) : SSTableBuilderOptions :=
  mkBuilderOptions (o_block_size o) (o_min_block_size o) (o_block_restart_interval o) (o_use_delta_encoding o)
    (o_checksum o) (o_compression o) BytewiseComparator (o_filter_policy o) (o_filter_log_base o).

(** Building, opening and seeking. *)
Lemma build_seek crc32c_raw_oneshot zlib_encode zlib_decode overflow_checks options policy (HP : FilterPolicyLaws policy)
    (HC : KeyComparatorLaws (o_comparator options)) (HJ : JoinLaws (o_comparator options)) registry props rows key :
  options_ok zlib_encode zlib_decode options policy → entries_ok (o_comparator options) rows → rows_fit options policy rows →
  properties_ok props → Z.of_nat (weight (serialize_table_properties props)) < 2 ^ 31 → kc_key key →
  ∃ file blocks t i1 i2 extra,
    build_table crc32c_raw_oneshot zlib_encode overflow_checks options props rows = Done (inr file) ∧
    SSTable_open zlib_decode file (o_comparator options) registry = Done (inr t) ∧
    table_seek zlib_decode key (SSTable_iter t) = Done (inr tt, i1) ∧
    @it_collect _ (SSTableIterator_iterable zlib_decode) (S (length rows)) i1 =
      Done (inr (extra ++ filter (λ e, kc_le key e.1) rows), i2) ∧
    Forall (λ e, ¬ kc_le key e.1) extra ∧
    (table_holds zlib_decode (o_comparator options) t blocks ∧ block_rows_of blocks = rows ∧
     indexed (o_comparator options) blocks ∧ Forall (λ b, tb_rows b ≠ []) blocks) ∧
    (extra = [] ∨ ∃ r b, mistaken (o_comparator options) blocks key r b ∧ extra `prefix_of` block_rows_of (drop (S r) blocks)).
Proof.
  intros Ho He Hfit Hp Hw Hkey.
  destruct (build_open crc32c_raw_oneshot zlib_encode zlib_decode overflow_checks options policy registry
    props rows Ho He Hfit Hp Hw) as (file & blocks & t & Hbuild & Hopen & Hh & Hrows & Hix & Hne & _).
  destruct (table_seek_ok zlib_decode (o_comparator options) (SSTable_iter t) blocks key Hh Hkey)
    as (i1 & extra & Hseek & Hrep & Hext & Hmis); [apply (join_searchable _); [apply Hh|done]|].
  assert (length (extra ++ filter (λ e, kc_le key e.1) (block_rows_of blocks)) < S (length rows))%nat as Hlen.
  { rewrite <- Hrows. destruct Hmis as [->|(r & b & _ & E)].
    - pose proof (length_filter (λ e, kc_le key e.1) (block_rows_of blocks)). cbn. lia.
    - cbn in E. rewrite <- E. rewrite <- (take_drop (S r) blocks) at 2. unfold block_rows_of. rewrite fmap_app, concat_app, length_app. lia. }
  destruct (table_collect_ok zlib_decode (o_comparator options) (S (length rows)) i1 _ _ Hrep Hlen) as (i2 & Hc).
  subst rows. exists file, blocks, t, i1, i2, extra. do 6 (split; [done|]).
  destruct Hmis as [->|(r & b & Hmis & Hpr)]; [by left|]. right. exists r, b. split; [done|]. rewrite Hpr. by eexists.
Qed.

(** ** Examples *)

Definition no_zlib (data : bytes) : Result bytes := inl EUnsupportedCompression.
Definition example_options : SSTableBuilderOptions :=
  mkBuilderOptions 40 20 2 true CkCRC32C CpSnappy BytewiseComparator (Some example_policy) 2.
Definition example_props : TableProperties := {[ 4 := PropU64 4; 25 := PropString [98; 119] ]}.
Definition example_rows : list (bytes * bytes) :=
  [([97], replicate 30 1); ([97; 0], [2]); ([97; 1], [3]); ([98], replicate 20 4)].

Lemma example_options_ok : options_ok no_zlib no_zlib example_options example_policy.
Proof. split; [by right; left|done|by right|done|by vm_compute]. Qed.

Lemma example_rows_ok : entries_ok BytewiseComparator example_rows.
Proof.
  unfold example_rows. split.
  - cbn. repeat (apply Forall_cons; split); try apply Forall_nil; done.
  - repeat constructor; intros H; by apply H.
Qed.

#[local] Instance example_laws : FilterPolicyLaws example_policy := bloom_laws 10 6 eq_refl.

Lemma example_rows_fit : rows_fit example_options example_policy example_rows.
Proof.
  split; [by vm_compute|]. intros _. split; [|split; [cbn; by repeat constructor|by vm_compute]].
  change (4 ≤ Z.to_nat ((U32 - 65) / 10))%nat. apply Nat2Z.inj_le. rewrite Z2Nat.id; by vm_compute.
Qed.

Lemma example_props_ok : properties_ok example_props.
Proof.
  intros n v Hv. unfold example_props in Hv. apply lookup_insert_Some in Hv as [[<- <-]|[_ Hv]].
  - exists TU64, (literal "rocksdb.num.entries"). split; [|done]. by apply (list_elem_of_lookup_2 _ 2).
  - apply lookup_singleton_Some in Hv as [<- <-]. exists TString, (literal "rocksdb.comparator"). split; [|done].
    by apply (list_elem_of_lookup_2 _ 25).
Qed.

Lemma table_roundtrip_witness :
  ∃ file t i, build_table id no_zlib true example_options example_props example_rows = Done (inr file) ∧
    SSTable_open no_zlib file BytewiseComparator (FilterPolicyRegistry_default false) = Done (inr t) ∧
    st_properties t = example_props ∧
    @it_collect _ (SSTableIterator_iterable no_zlib) 5 (SSTable_iter t) = Done (inr example_rows, i).
Proof.
  apply (table_roundtrip id no_zlib no_zlib true example_options example_policy example_laws BytewiseComparator_laws
    (FilterPolicyRegistry_default false) example_props example_rows).
  - apply example_options_ok.
  - apply example_rows_ok.
  - apply example_rows_fit.
  - apply example_props_ok.
  - by vm_compute.
Defined.

(** C32: A table gives back, after a seek to any key, every row from the key
    on, in order and without a panic or an error; only rows before the key can
    come first. This holds for every comparator that keeps its laws and under
    which a key followed by other keys is not before what it is not before,
    as the keys of plain tables and of a database are. *)
Theorem table_seek_covers (crc32c_raw_oneshot : Z → Z) (zlib_encode zlib_decode : bytes → Result bytes)
    (overflow_checks : bool) (options : SSTableBuilderOptions) (policy : FilterPolicy) (HP : FilterPolicyLaws policy)
    (HC : KeyComparatorLaws (o_comparator options)) (HJ : JoinLaws (o_comparator options))
    (registry : FilterPolicyRegistry) (props : TableProperties) (rows : list (bytes * bytes)) (key : bytes) :
  options_ok zlib_encode zlib_decode options policy → entries_ok (o_comparator options) rows → rows_fit options policy rows →
  properties_ok props → Z.of_nat (weight (serialize_table_properties props)) < 2 ^ 31 → kc_key key →
  ∃ file t i1 i2 extra,
    build_table crc32c_raw_oneshot zlib_encode overflow_checks options props rows = Done (inr file) ∧
    SSTable_open zlib_decode file (o_comparator options) registry = Done (inr t) ∧
    table_seek zlib_decode key (SSTable_iter t) = Done (inr tt, i1) ∧
    @it_collect _ (SSTableIterator_iterable zlib_decode) (S (length rows)) i1 =
      Done (inr (extra ++ filter (λ e, kc_le key e.1) rows), i2) ∧
    Forall (λ e, ¬ kc_le key e.1) extra.
Proof.
  intros Ho He Hfit Hp Hw Hkey.
  destruct (build_seek crc32c_raw_oneshot zlib_encode zlib_decode overflow_checks options policy HP HC HJ registry props rows key
    Ho He Hfit Hp Hw Hkey) as (file & blocks & t & i1 & i2 & extra & H1 & H2 & H3 & H4 & H5 & _).
  by exists file, t, i1, i2, extra.
Qed.

(** A table of a database: two versions of the key 1 and one of the key 2. *)
Definition internal_options : SSTableBuilderOptions :=
  mkBuilderOptions 20 10 2 true CkCRC32C CpZLib (InternalKeyComparator BytewiseComparator) None 2.
Definition internal_row (k seq : Z) (v : bytes) : bytes * bytes := (InternalKey_serialized (mkInternalKey [k] seq Value), v).
Definition internal_rows : list (bytes * bytes) := [internal_row 1 7 [70]; internal_row 1 5 [50]; internal_row 2 6 [60]].

Lemma internal_row_key k seq v :
  byte k → 0 ≤ seq ≤ MAX_SEQUENCE → kc_key (c := InternalKeyComparator BytewiseComparator) (internal_row k seq v).1.
Proof.
  intros Hk Hs. eexists. split; [by apply InternalKey_parse_serialized|]. change (Forall byte [k]). by apply Forall_singleton.
Qed.

Lemma internal_rows_ok : entries_ok (InternalKeyComparator BytewiseComparator) internal_rows.
Proof.
  split.
  - do 3 (apply Forall_cons_2; [by apply internal_row_key|]). apply Forall_nil_2.
  - repeat constructor; intros H; revert H; apply (bool_decide_unpack (¬ _)); by vm_compute.
Qed.

Lemma table_seek_covers_witness :
  ∃ file t i1 i2 extra,
    build_table id inr true internal_options example_props internal_rows = Done (inr file) ∧
    SSTable_open inr file (InternalKeyComparator BytewiseComparator) ∅ = Done (inr t) ∧
    table_seek inr (internal_row 1 5 []).1 (SSTable_iter t) = Done (inr tt, i1) ∧
    @it_collect _ (SSTableIterator_iterable inr) 4 i1 =
      Done (inr (extra ++ filter (λ e, kc_le (c := InternalKeyComparator BytewiseComparator) (internal_row 1 5 []).1 e.1) internal_rows), i2) ∧
    Forall (λ e, ¬ kc_le (c := InternalKeyComparator BytewiseComparator) (internal_row 1 5 []).1 e.1) extra.
Proof.
  apply (table_seek_covers id inr inr true internal_options example_policy example_laws
    (InternalKeyComparator_laws BytewiseComparator) (internal_join BytewiseComparator) ∅ example_props
    internal_rows (internal_row 1 5 []).1).
  - split; [right; right; split; [done|]|done|by left|done|by vm_compute].
    intros data. exists data. split; [done|]. split; [done|lia].
  - apply internal_rows_ok.
  - by split.
  - apply example_props_ok.
  - by vm_compute.
  - by apply internal_row_key.
Defined.

(** A seek in a table is exact when the key of no row is a proper part at
    the start of the key that is sought (as for keys of one length): the
    iterator gives the rows from the key on and nothing else. *)
Theorem table_seek_exact (crc32c_raw_oneshot : Z → Z) (zlib_encode zlib_decode : bytes → Result bytes)
    (overflow_checks : bool) (o : SSTableBuilderOptions) (policy : FilterPolicy) (HP : FilterPolicyLaws policy)
    (registry : FilterPolicyRegistry) (props : TableProperties) (rows : list (bytes * bytes)) (key : bytes) :
  options_ok zlib_encode zlib_decode (bytewise o) policy → entries_ok BytewiseComparator rows → rows_fit (bytewise o) policy rows →
  properties_ok props → Z.of_nat (weight (serialize_table_properties props)) < 2 ^ 31 → Forall byte key →
  (∀ row, row ∈ rows → row.1 `prefix_of` key → row.1 = key) →
  ∃ file t i1 i2,
    build_table crc32c_raw_oneshot zlib_encode overflow_checks (bytewise o) props rows = Done (inr file) ∧
    SSTable_open zlib_decode file BytewiseComparator registry = Done (inr t) ∧
    table_seek zlib_decode key (SSTable_iter t) = Done (inr tt, i1) ∧
    @it_collect _ (SSTableIterator_iterable zlib_decode) (S (length rows)) i1 =
      Done (inr (filter (λ e, bytes_le key e.1) rows), i2).
Proof.
  intros Ho He Hfit Hp Hw Hkey Hpre.
  destruct (build_seek crc32c_raw_oneshot zlib_encode zlib_decode overflow_checks (bytewise o) policy HP BytewiseComparator_laws
    bytewise_join registry props rows key
    Ho He Hfit Hp Hw Hkey) as (file & blocks & t & i1 & i2 & extra & H1 & H2 & H3 & H4 & H5 & (Hh & Hrows & Hix & Hne) & Hmis).
  assert (extra = []) as ->.
  { destruct Hmis as [->|(r & b & Hmis & Hpr)]; [done|]. rewrite <- Hrows in Hpre.
    by eapply mistaken_harmless; [exact Hix|exact Hne|apply Hh|apply Hh|exact Hpre|exact Hmis|exact H5|]. }
  by exists file, t, i1, i2.
Qed.

Lemma table_seek_exact_witness :
  ∃ file t i1 i2,
    build_table id no_zlib true (bytewise example_options) example_props example_rows = Done (inr file) ∧
    SSTable_open no_zlib file BytewiseComparator ∅ = Done (inr t) ∧
    table_seek no_zlib [97] (SSTable_iter t) = Done (inr tt, i1) ∧
    @it_collect _ (SSTableIterator_iterable no_zlib) 5 i1 =
      Done (inr (filter (λ e, bytes_le [97] e.1) example_rows), i2).
Proof.
  apply (table_seek_exact id no_zlib no_zlib true example_options example_policy example_laws ∅ example_props
    example_rows [97]).
  - apply example_options_ok.
  - apply example_rows_ok.
  - apply example_rows_fit.
  - apply example_props_ok.
  - by vm_compute.
  - by repeat constructor.
  - intros row Hrow [k Hk]. unfold example_rows in Hrow.
    do 4 (apply elem_of_cons in Hrow as [->|Hrow]; [cbn in Hk; by simplify_eq|]). by apply not_elem_of_nil in Hrow.
Defined.

(** Build a table, open it, seek a key and take the next row. *)
Definition build_seek_next (options : SSTableBuilderOptions) (rows : list (bytes * bytes)) (key : bytes)
    : RR (option KeyValueEntry) :=
  rr! file := build_table id no_zlib false options ∅ rows in
  rr! t := SSTable_open no_zlib file (o_comparator options) ∅ in
  match table_seek no_zlib key (SSTable_iter t) with
  | Done (inl e, _) => Done (inl e)
  | Done (inr _, i) =>
    match table_next no_zlib i with
    | Done (r, _) => Done r
    | Panicked => Panicked
    | OutOfFuel => OutOfFuel
    end
  | Panicked => Panicked
  | OutOfFuel => OutOfFuel
  end.

(** A seek in a table can stop too early. In a table of the rows a, a0,
    a1 and b (0 and 1 being these bytes) the search compares the first key of
    the index together with all that follow it, so that a seek to a1 is
    followed by the row a0, although a1 is in the table. *)
Theorem table_seek_early :
  build_seek_next example_options example_rows [97; 1] = Done (inr (Some ([97; 0], [2]))) ∧
  ([97; 1], [3]) ∈ example_rows.
Proof. split; [vm_compute; reflexivity|]. by apply (list_elem_of_lookup_2 _ 2). Qed.

(** C33: The filter of a table has no false negatives. When the reader knows the
    filter policy, the opened table has a filter that every row may match at
    the offset of the block that holds the row. *)
Theorem table_filter_complete (crc32c_raw_oneshot : Z → Z) (zlib_encode zlib_decode : bytes → Result bytes)
    (overflow_checks : bool) (options : SSTableBuilderOptions) (policy : FilterPolicy) (HP : FilterPolicyLaws policy)
    (HC : KeyComparatorLaws (o_comparator options)) (registry : FilterPolicyRegistry)
    (props : TableProperties) (rows : list (bytes * bytes)) :
  options_ok zlib_encode zlib_decode options policy → entries_ok (o_comparator options) rows → rows_fit options policy rows →
  properties_ok props → Z.of_nat (weight (serialize_table_properties props)) < 2 ^ 31 →
  o_filter_policy options = Some policy → registry_get (fp_name policy) registry = Some policy →
  ∃ file t filter, build_table crc32c_raw_oneshot zlib_encode overflow_checks options props rows = Done (inr file) ∧
    SSTable_open zlib_decode file (o_comparator options) registry = Done (inr t) ∧
    st_filter t = Some (policy, filter) ∧
    ∀ row, row ∈ rows → ∃ handle block block_rows,
      handle ∈ ib_block_handles (st_index t) ∧ read_block zlib_decode t handle = Done (inr block) ∧
      collect_rows (length block_rows) (DataBlockRef_rows block) = Done (inr block_rows) ∧ row ∈ block_rows ∧
      key_may_match overflow_checks policy (bh_offset handle) row.1 filter = Done true.
Proof.
  intros Ho He Hfit Hp Hw Hpol Hreg.
  destruct (build_open crc32c_raw_oneshot zlib_encode zlib_decode overflow_checks options policy registry props rows Ho He Hfit Hp Hw)
    as (file & blocks & t & Hbuild & Hopen & Hh & <- & _ & _ & _ & Hf).
  unfold opened_filter in Hf. rewrite Hpol, Hreg in Hf. destruct Hf as (r & Hr & Hm). exists file, t, r.
  split; [done|]. split; [done|]. split; [done|]. intros row Hrow.
  apply list_elem_of_In, in_concat in Hrow as (brows & Hb & Hrow). apply list_elem_of_In in Hb, Hrow.
  apply list_elem_of_fmap in Hb as (b & -> & Hb). pose proof Hb as [i Hi]%list_elem_of_lookup.
  pose proof (proj1 (Forall_lookup _ _) (th_blocks _ _ _ _ Hh) _ _ Hi) as (block & Hread & es & rs & He1 & He2 & He3 & _).
  exists (tb_handle b), block, (tb_rows b). split; [rewrite (th_index _ _ _ _ Hh); by apply list_elem_of_fmap_2|].
  split; [done|]. split; [|split; [done|by apply Hm]]. unfold DataBlockRef_rows. rewrite He1.
  apply collect_encode; [done|done|]. by rewrite (decode_rows_length _ _ _ He3).
Qed.

Lemma table_filter_complete_witness :
  ∃ file t filter, build_table id no_zlib true example_options example_props example_rows = Done (inr file) ∧
    SSTable_open no_zlib file BytewiseComparator (FilterPolicyRegistry_default false) = Done (inr t) ∧
    st_filter t = Some (example_policy, filter) ∧
    ∀ row, row ∈ example_rows → ∃ handle block block_rows,
      handle ∈ ib_block_handles (st_index t) ∧ read_block no_zlib t handle = Done (inr block) ∧
      collect_rows (length block_rows) (DataBlockRef_rows block) = Done (inr block_rows) ∧ row ∈ block_rows ∧
      key_may_match true example_policy (bh_offset handle) row.1 filter = Done true.
Proof.
  apply (table_filter_complete id no_zlib no_zlib true example_options example_policy example_laws BytewiseComparator_laws
    (FilterPolicyRegistry_default false) example_props example_rows).
  - apply example_options_ok.
  - apply example_rows_ok.
  - apply example_rows_fit.
  - apply example_props_ok.
  - by vm_compute.
  - reflexivity.
  - apply lookup_insert_eq.
Defined.

(** A footer of version 0 is read back after any bytes, and one of a later
    version, which the code writes too, never is: parsing it gives an error
    for every version. *)
Theorem footer_versions (f : Footer) (prefix : bytes) :
  handle_ok (ft_metaindex_handle f) → handle_ok (ft_index_handle f) → 0 ≤ ft_footer_version f < 2 ^ 32 →
  ft_checksum_type f = CkCRC32C →
  ∃ out, Footer_serialize f = Done out ∧
    Footer_parse (prefix ++ out) = Done (if ft_footer_version f =? 0 then inr f else inl EFooterVersion).
Proof.
  intros Hm Hi Hv Hc. destruct (Z.eqb_spec (ft_footer_version f) 0) as [E|E].
  - destruct (parse_legacy_footer f prefix E Hc Hm Hi) as (out & H1 & _ & H2). by exists out.
  - destruct (parse_new_footer f prefix ltac:(lia) Hm Hi) as (out & H1 & _ & H2). by exists out.
Qed.

Lemma footer_versions_witness :
  ∃ out, Footer_serialize (mkFooter CkCRC32C (mkBlockHandle 300 20) (mkBlockHandle 10 200) 1) = Done out ∧
    Footer_parse ([1; 2; 3] ++ out) = Done (inl EFooterVersion).
Proof. apply (footer_versions (mkFooter CkCRC32C (mkBlockHandle 300 20) (mkBlockHandle 10 200) 1) [1; 2; 3]); done. Defined.
