(* ===== verification/BlockCache.v ===== *)
(** * The cache of data blocks

    [DataBlockCache], [BlockCacheFile::lookup_or_read] and the drop of a
    [DataBlockPtr] of src/pkg/sstable/src/table/table.rs. A block is behind
    an [Arc]: [cs_arcs] has the blocks that were read, and a position in it is
    an [Arc], whose strong count is the number of entries and pointers that
    refer to it. Every operation runs under the lock of the state. *)

From S2P Require Import Prelude Wire Encoding Comparator DataBlock Filter Table.

(** [(table_id, block_offset)] *)
Abbreviation CacheKey := (Z * Z)%type.

Section Cache.
Context {Block : Type}.
(** [estimated_memory_usage], and [read_block] of the file with an id. *)
Context (usage : Block → Z) (read_block : Z → BlockHandle → RR Block).
(** [unused_blocks.iter().next()], any element of the set. *)
Context (choose : gset CacheKey → option CacheKey).

(** [DataBlockCacheState], the blocks behind its [Arc]s, and the pointers that
    were returned, each until its drop. *)
Record CacheState := mkCacheState {
  cs_last_table_id : Z;
  cs_loaded_blocks : gmap CacheKey nat;
  cs_unused_blocks : gset CacheKey;
  cs_loaded_size : Z;
  cs_allowed_size : Z;
  cs_arcs : list Block;
  cs_ptrs : list (option (CacheKey * nat));
}.

Definition DataBlockCache_new (allowed_size : Z) : CacheState := mkCacheState 0 ∅ ∅ 0 allowed_size [] [].

Definition cs_set_table_id (id : Z) (s : CacheState) : CacheState :=
  mkCacheState id (cs_loaded_blocks s) (cs_unused_blocks s) (cs_loaded_size s) (cs_allowed_size s) (cs_arcs s) (cs_ptrs s).
Definition cs_set_unused (unused : gset CacheKey) (s : CacheState) : CacheState :=
  mkCacheState (cs_last_table_id s) (cs_loaded_blocks s) unused (cs_loaded_size s) (cs_allowed_size s) (cs_arcs s) (cs_ptrs s).
Definition cs_set_loaded (loaded : gmap CacheKey nat) (size : Z) (s : CacheState) : CacheState :=
  mkCacheState (cs_last_table_id s) loaded (cs_unused_blocks s) size (cs_allowed_size s) (cs_arcs s) (cs_ptrs s).
Definition cs_set_arcs (arcs : list Block) (s : CacheState) : CacheState :=
  mkCacheState (cs_last_table_id s) (cs_loaded_blocks s) (cs_unused_blocks s) (cs_loaded_size s) (cs_allowed_size s) arcs (cs_ptrs s).
Definition cs_set_ptrs (ptrs : list (option (CacheKey * nat))) (s : CacheState) : CacheState :=
  mkCacheState (cs_last_table_id s) (cs_loaded_blocks s) (cs_unused_blocks s) (cs_loaded_size s) (cs_allowed_size s) (cs_arcs s) ptrs.

(** [cache_file]: the id of the file in the cache. *)
Definition cache_file : M CacheState Z :=
  let! s := gets id in
  let id := cs_last_table_id s + 1 in
  modify (cs_set_table_id id) ;!
  ret id.

(** A new [DataBlockPtr]. *)
Definition new_ptr (key : CacheKey) (arc : nat) : M CacheState nat :=
  let! s := gets id in
  modify (cs_set_ptrs (cs_ptrs s ++ [Some (key, arc)])) ;!
  ret (length (cs_ptrs s)).

(** The loop that frees unused blocks; each round takes one of them. *)
Fixpoint free_unused (fuel : nat) (block_size : Z) : M CacheState unit :=
  let! s := gets id in
  if cs_allowed_size s <=? cs_loaded_size s + block_size then
    match choose (cs_unused_blocks s) with
    | Some block_key =>
      match fuel with
      | O => out_of_fuel
      | S fuel =>
        modify (cs_set_unused (cs_unused_blocks s ∖ {[block_key]})) ;!
        let! arc := unwrap (cs_loaded_blocks s !! block_key) in
        let! block := unwrap (cs_arcs s !! arc) in
        assert (usage block <=? cs_loaded_size s) ;!
        modify (cs_set_loaded (delete block_key (cs_loaded_blocks s)) (cs_loaded_size s - usage block)) ;!
        free_unused fuel block_size
      end
    | None => ret tt
    end
  else ret tt.

(** A round of the loop of [lookup_or_read] of the file [id]: the pointer, or
    [None] when it waits for a change of the state. *)
Definition lookup_or_read (id_ : Z) (block_handle : BlockHandle) : M CacheState (Result (option nat)) :=
  let key := (id_, bh_offset block_handle) in
  let block_size := bh_size block_handle in
  let! s := gets id in
  match cs_loaded_blocks s !! key with
  | Some arc => let! ptr := new_ptr key arc in ret (inr (Some ptr))
  | None =>
    if cs_allowed_size s <? block_size then ret (inl EBlockTooLarge) else
    free_unused (size (cs_unused_blocks s)) block_size ;!
    let! s := gets id in
    if cs_loaded_size s + block_size <=? cs_allowed_size s then
      try! block := lift_rr (read_block id_ block_handle) in
      let arc := length (cs_arcs s) in
      modify (cs_set_arcs (cs_arcs s ++ [block])) ;!
      modify (cs_set_loaded (<[key := arc]> (cs_loaded_blocks s)) (cs_loaded_size s + usage block)) ;!
      let! ptr := new_ptr key arc in
      ret (inr (Some ptr))
    else ret (inr None)
  end.

(** [Arc::strong_count] *)
Definition strong_count (arc : nat) (s : CacheState) : nat :=
  (size (filter (λ kv : CacheKey * nat, kv.2 = arc) (cs_loaded_blocks s)) +
   length (filter (λ p : option (CacheKey * nat), snd <$> p = Some arc) (cs_ptrs s)))%nat.

(** The task that [drop] of a [DataBlockPtr] starts. *)
Definition drop_ptr (ptr : nat) : M CacheState unit :=
  let! s := gets id in
  match cs_ptrs s !! ptr with
  | Some (Some (cache_key, inner)) =>
    let count := strong_count inner s in
    modify (cs_set_ptrs (<[ptr := None]> (cs_ptrs s))) ;!
    if (count =? 2)%nat then modify (cs_set_unused (cs_unused_blocks s ∪ {[cache_key]})) else ret tt
  | _ => ret tt
  end.

(** [deref] *)
Definition ptr_block (ptr : nat) (s : CacheState) : option Block :=
  p ← cs_ptrs s !! ptr; q ← p; cs_arcs s !! q.2.

(** What the users of a cache do, in any order. *)
Inductive CacheOp :=
| OpFile
| OpLookup (id_ : Z) (block_handle : BlockHandle)
| OpDrop (ptr : nat).

Definition cache_op (op : CacheOp) : M CacheState unit :=
  match op with
  | OpFile => let! _ := cache_file in ret tt
  | OpLookup id_ handle => let! _ := lookup_or_read id_ handle in ret tt
  | OpDrop ptr => drop_ptr ptr
  end.

Definition cache_ops (ops : list CacheOp) : M CacheState unit := for_each ops cache_op.
End Cache.
