(* ===== verification/BlockCacheTheorems.v ===== *)
(** * Properties of the cache of data blocks

    What every pointer of the cache refers to, that the loop that frees
    blocks ends, that the recorded size is the size of the blocks, that the
    cache does not panic and a lookup does not wait forever while every block
    has at most one pointer, and the panic that two pointers to one block
    can cause. *)

From S2P Require Import Prelude Wire Encoding Comparator DataBlock Filter Table BlockCache.

(** A list with one element that satisfies [P]. *)
Lemma filter_single {A} (P : A → Prop) `{!∀ x, Decision (P x)} (l : list A) i x :
  l !! i = Some x → P x → (∀ j y, l !! j = Some y → P y → j = i) → filter P l = [x].
Proof.
  intros Hi HP Hone. rewrite <- (take_drop_middle l i x Hi).
  rewrite filter_app, filter_cons_True by done. rewrite !filter_none; [done| |].
  - apply Forall_lookup. intros j y Hj Hy. rewrite lookup_drop in Hj.
    specialize (Hone _ _ Hj Hy). lia.
  - apply Forall_lookup. intros j y Hj Hy. apply lookup_take_Some in Hj as [Hj ?].
    specialize (Hone _ _ Hj Hy). lia.
Qed.

Section CacheProofs.
Context {Block : Type}.
Context (usage : Block → Z) (read_block : Z → BlockHandle → RR Block).
Context (choose : gset CacheKey → option CacheKey).
(** [iter().next()] gives an element of the set, if it has one. *)
Context (choose_in : ∀ X k, choose X = Some k → k ∈ X) (choose_none : ∀ X, choose X = None → X = ∅).
Context (usage_nonneg : ∀ b, 0 ≤ usage b).

(** A block that a read of the file of [key] at its offset returns. *)
Definition readable (key : CacheKey) (block : Block) : Prop :=
  ∃ handle, bh_offset handle = key.2 ∧ read_block key.1 handle = Done (inr block).

(** The blocks of the cache, and the memory they use. *)
Definition cs_blocks (s : CacheState) : gmap CacheKey Block := omap (λ arc, cs_arcs s !! arc) (cs_loaded_blocks s).
Definition total_usage (blocks : gmap CacheKey Block) : Z := map_fold (λ _ b n, usage b + n) 0 blocks.

Lemma total_usage_insert k b blocks :
  blocks !! k = None → total_usage (<[k := b]> blocks) = usage b + total_usage blocks.
Proof. intros Hk. unfold total_usage. rewrite map_fold_insert_L; [done| |done]. intros. lia. Qed.

Lemma total_usage_delete k b blocks :
  blocks !! k = Some b → total_usage blocks = usage b + total_usage (delete k blocks).
Proof. intros Hk. unfold total_usage. rewrite (map_fold_delete_L _ _ k b); [done| |done]. intros. lia. Qed.

Lemma total_usage_nonneg blocks : 0 ≤ total_usage blocks.
Proof.
  induction blocks as [|k b blocks Hk IH] using map_ind; [done|].
  rewrite total_usage_insert by done. specialize (usage_nonneg b). lia.
Qed.

(** The pointer [i] is alive and refers to [arc]. *)
Definition live (s : CacheState (Block := Block)) (i : nat) (key : CacheKey) (arc : nat) : Prop :=
  cs_ptrs s !! i = Some (Some (key, arc)).

(** [owners] has the key each block was read for. *)
Record cache_inv (owners : list CacheKey) (s : CacheState) : Prop := {
  ci_arcs : Forall2 readable owners (cs_arcs s);
  ci_loaded : ∀ k a, cs_loaded_blocks s !! k = Some a → owners !! a = Some k;
  ci_ptrs : ∀ i k a, live s i k a → owners !! a = Some k;
  ci_kept : ∀ k a, cs_loaded_blocks s !! k = Some a → k ∈ cs_unused_blocks s ∨ ∃ i, live s i k a;
  ci_size : cs_loaded_size s = total_usage (cs_blocks s);
}.

(** At most one pointer to each block, and the unused blocks are loaded. *)
Record exclusive (s : CacheState (Block := Block)) : Prop := {
  ex_single : ∀ i j k a a', live s i k a → live s j k a' → i = j;
  ex_unused : ∀ k, k ∈ cs_unused_blocks s → is_Some (cs_loaded_blocks s !! k);
}.

Lemma owned_block owners s a k :
  cache_inv owners s → owners !! a = Some k → ∃ b, cs_arcs s !! a = Some b ∧ readable k b.
Proof. intros Hinv Ha. destruct (Forall2_lookup_l _ _ _ _ _ (ci_arcs _ _ Hinv) Ha) as (b & ? & ?). by exists b. Qed.

Lemma cache_inv_new n : cache_inv [] (DataBlockCache_new n).
Proof. split; try done; intros; unfold live in *; by set_solver. Qed.

Lemma exclusive_new n : exclusive (DataBlockCache_new n).
Proof. split; unfold live; cbn; set_solver. Qed.

(** ** Freeing blocks *)

Lemma cs_blocks_lookup owners s k a :
  cache_inv owners s → cs_loaded_blocks s !! k = Some a →
  ∃ b, cs_arcs s !! a = Some b ∧ cs_blocks s !! k = Some b.
Proof.
  intros Hinv Hk. destruct (owned_block owners s a k Hinv) as (b & Hb & _); [by eapply ci_loaded|].
  exists b. split; [done|]. unfold cs_blocks. by rewrite lookup_omap, Hk.
Qed.

(** What the freeing of blocks keeps. *)
Record freed (s s' : CacheState (Block := Block)) : Prop := {
  fr_ptrs : cs_ptrs s' = cs_ptrs s;
  fr_arcs : cs_arcs s' = cs_arcs s;
  fr_allowed : cs_allowed_size s' = cs_allowed_size s;
  fr_unused : cs_unused_blocks s' ⊆ cs_unused_blocks s;
  fr_loaded : cs_loaded_blocks s' ⊆ cs_loaded_blocks s;
  fr_size : cs_loaded_size s' ≤ cs_loaded_size s;
}.

Lemma freed_refl s : freed s s.
Proof. split; [done..|lia]. Qed.

Lemma freed_trans s1 s2 s3 : freed s1 s2 → freed s2 s3 → freed s1 s3.
Proof. intros [] []. split; [congruence..|set_solver|by etrans|lia]. Qed.

(** The state after a block was freed. *)
Definition free_one (s : CacheState (Block := Block)) (k : CacheKey) (b : Block) : CacheState :=
  cs_set_loaded (delete k (cs_loaded_blocks s)) (cs_loaded_size s - usage b) (cs_set_unused (cs_unused_blocks s ∖ {[k]}) s).

Lemma free_one_inv owners s k a b :
  cache_inv owners s → cs_loaded_blocks s !! k = Some a → cs_arcs s !! a = Some b →
  cache_inv owners (free_one s k b) ∧ freed s (free_one s k b) ∧ (exclusive s → exclusive (free_one s k b)).
Proof.
  intros Hinv Hk Hb. assert (cs_blocks s !! k = Some b) as Hbl.
  { unfold cs_blocks. by rewrite lookup_omap, Hk. }
  split_and!.
  - destruct Hinv as [Ha Hl Hp Hkept Hs]. split; cbn; [done| |done| |].
    + intros k' a' [_ Hk']%lookup_delete_Some. eauto.
    + intros k' a' [Hne Hk']%lookup_delete_Some. destruct (Hkept k' a' Hk') as [?|?]; [left; set_solver|by right].
    + rewrite Hs, (total_usage_delete k b) by done. unfold cs_blocks. cbn. rewrite omap_delete. lia.
  - split; cbn; [done..|set_solver|apply delete_subseteq|]. specialize (usage_nonneg b). lia.
  - intros [H1 H2]. split; [exact H1|]. cbn. intros k' [Hin Hne]%elem_of_difference.
    rewrite lookup_delete_ne by set_solver. auto.
Qed.

Lemma free_unused_spec (P : Prop) owners size_ fuel s :
  (size (cs_unused_blocks s) <= fuel)%nat → cache_inv owners s → (P → exclusive s) →
  wpx (¬ P) False (free_unused usage choose fuel size_)
    (λ _ s', cache_inv owners s' ∧ (P → exclusive s') ∧ freed s s' ∧
       (cs_unused_blocks s' = ∅ ∨ cs_loaded_size s' + size_ < cs_allowed_size s')) s.
Proof.
  revert s. induction fuel as [|fuel IH]; intros s Hf Hinv Hex; cbn [free_unused]; repeat wp_step;
    destruct (cs_allowed_size (id s) <=? _) eqn:Hle; cbn [id] in *; b2p;
    try (apply wpx_ret; split_and!; [done..|apply freed_refl|right; lia]).
  all: destruct (choose (cs_unused_blocks s)) as [k|] eqn:Hc;
    [|apply wpx_ret; split_and!; [done..|apply freed_refl|left; by apply choose_none]].
  - apply choose_in in Hc. assert (cs_unused_blocks s = ∅) as Hz.
    { apply leibniz_equiv. apply size_empty_inv. lia. }
    set_solver.
  - apply choose_in in Hc. repeat wp_step; cbn.
    + destruct (free_one_inv owners s k a a0) as (Hinv1 & Hfr1 & Hex1); [done..|].
      eapply wpx_mono; [apply (IH (free_one s k a0)); [|done|by intros; apply Hex1, Hex]|].
      * cbn. rewrite size_difference by set_solver. rewrite size_singleton. lia.
      * intros [] s' (? & ? & ? & ?). split_and!; [done..|by eapply freed_trans|done].
    + b2p. exfalso. destruct (cs_blocks_lookup owners s k a) as (b & Hb & Hbl); [done..|]. simplify_eq.
      rewrite (ci_size _ _ Hinv), (total_usage_delete k a0) in * by done.
      pose proof (total_usage_nonneg (delete k (cs_blocks s))). lia.
    + destruct (cs_blocks_lookup owners s k a) as (b & Hb & Hbl); [done..|]. congruence.
    + intros HP. destruct (ex_unused _ (Hex HP) k Hc). congruence.
Qed.

(** ** Looking up a block *)

(** The state with one more pointer, and the one after a read as well. *)
Definition add_ptr (s : CacheState (Block := Block)) (k : CacheKey) (a : nat) : CacheState :=
  cs_set_ptrs (cs_ptrs s ++ [Some (k, a)]) s.
Definition load_one (s : CacheState (Block := Block)) (k : CacheKey) (b : Block) : CacheState :=
  add_ptr (cs_set_loaded (<[k := length (cs_arcs s)]> (cs_loaded_blocks s)) (cs_loaded_size s + usage b)
    (cs_set_arcs (cs_arcs s ++ [b]) s)) k (length (cs_arcs s)).

Lemma live_add s s0 k a i k' a' :
  cs_ptrs s0 = cs_ptrs s →
  live (add_ptr s0 k a) i k' a' ↔ live s i k' a' ∨ i = length (cs_ptrs s) ∧ k' = k ∧ a' = a.
Proof.
  intros Hp. unfold live, add_ptr. cbn. rewrite Hp, lookup_snoc_Some. split; [naive_solver|].
  intros [H|(-> & -> & ->)]; [left; split; [by eapply lookup_lt_Some|done]|by right].
Qed.

Lemma exclusive_add s s0 k a :
  cs_ptrs s0 = cs_ptrs s → exclusive s → (∀ i a, ¬ live s i k a) →
  (∀ k, k ∈ cs_unused_blocks s0 → is_Some (cs_loaded_blocks s0 !! k)) → exclusive (add_ptr s0 k a).
Proof.
  intros Hp [Hs _] Hn Hu. split; [|exact Hu]. intros i j k' a1 a2.
  rewrite !(live_add s) by done. intros [?|(-> & -> & ->)] [?|(-> & ? & ->)]; simplify_eq; eauto; by edestruct Hn.
Qed.

Lemma add_ptr_inv owners s k a :
  cache_inv owners s → cs_loaded_blocks s !! k = Some a → cache_inv owners (add_ptr s k a).
Proof.
  intros [Ha Hl Hp Hk Hs] Hka. split; cbn; [done|done| | |done].
  - intros i k' a'. rewrite (live_add s) by done. naive_solver.
  - intros k' a' Hk'. destruct (Hk k' a' Hk') as [?|[i ?]]; [by left|right; exists i]. rewrite (live_add s) by done. by left.
Qed.

Lemma load_one_inv owners s k b :
  cache_inv owners s → cs_loaded_blocks s !! k = None → readable k b →
  cache_inv (owners ++ [k]) (load_one s k b).
Proof.
  intros [Ha Hl Hp Hk Hs] Hka Hr. pose proof (Forall2_length _ _ _ Ha) as Hlen.
  assert (∀ a k', owners !! a = Some k' → (owners ++ [k]) !! a = Some k') as Hext by eauto using lookup_app_l_Some.
  assert ((owners ++ [k]) !! length (cs_arcs s) = Some k) as Hnew by (rewrite <- Hlen; apply list_lookup_middle; done).
  split; cbn.
  - apply Forall2_app; [done|by constructor].
  - intros k' a' [[<- <-]|[Hne Hk']]%lookup_insert_Some; eauto.
  - intros i k' a'. unfold load_one. rewrite (live_add s) by done. naive_solver.
  - intros k' a' [[<- <-]|[Hne Hk']]%lookup_insert_Some.
    + right. exists (length (cs_ptrs s)). unfold load_one. rewrite (live_add s) by done. by right.
    + destruct (Hk k' a' Hk') as [?|[i ?]]; [by left|right; exists i]. unfold load_one. rewrite (live_add s) by done. by left.
  - rewrite Hs. match goal with |- _ = total_usage ?m => assert (m = <[k := b]> (cs_blocks s)) as -> end.
    { unfold cs_blocks. cbn. rewrite omap_insert, list_lookup_middle by done. f_equal.
      apply map_eq. intros k'. rewrite !lookup_omap. destruct (cs_loaded_blocks s !! k') as [a'|] eqn:Hk'; [|done].
      cbn. apply lookup_app_l. rewrite <- Hlen. eapply lookup_lt_Some, Hl, Hk'. }
    rewrite total_usage_insert; [lia|]. unfold cs_blocks. by rewrite lookup_omap, Hka.
Qed.

(** What an operation keeps of the pointers that are alive. *)
Definition keeps (s s' : CacheState (Block := Block)) : Prop :=
  cs_allowed_size s' = cs_allowed_size s ∧ cs_ptrs s `prefix_of` cs_ptrs s' ∧ cs_arcs s `prefix_of` cs_arcs s'.

(** The outcome of [lookup_or_read]: a pointer to the block, an error of the
    cache or of the read, or nothing yet when no more can be freed. *)
Definition lookup_result (id_ : Z) (handle : BlockHandle) (s : CacheState (Block := Block)) (r : Result (option nat))
  (s' : CacheState (Block := Block)) : Prop :=
  match r with
  | inr (Some ptr) => ∃ a, live s' ptr (id_, bh_offset handle) a
  | inr None => cs_ptrs s' = cs_ptrs s ∧ cs_unused_blocks s' = ∅ ∧ cs_allowed_size s' < cs_loaded_size s' + bh_size handle
  | inl e => e = EBlockTooLarge ∧ cs_allowed_size s' < bh_size handle ∨ read_block id_ handle = Done (inl e)
  end.

(** Blocks that use no more memory than their handles say. *)
Definition uncompressed : Prop := ∀ id_ handle b, read_block id_ handle = Done (inr b) → usage b ≤ bh_size handle.

Context (reads : ∀ id_ handle, ∃ r, read_block id_ handle = Done r).

Lemma lookup_spec (P : Prop) owners id_ handle s :
  cache_inv owners s → (P → exclusive s ∧ ∀ i a, ¬ live s i (id_, bh_offset handle) a) →
  wpx (¬ P) False (lookup_or_read usage read_block choose id_ handle)
    (λ r s', (∃ owners', cache_inv owners' s') ∧ (P → exclusive s') ∧ keeps s s' ∧
       (uncompressed → cs_loaded_size s ≤ cs_allowed_size s → cs_loaded_size s' ≤ cs_allowed_size s') ∧
       lookup_result id_ handle s r s') s.
Proof.
  intros Hinv HP. unfold lookup_or_read. set (key := (id_, bh_offset handle)) in *. repeat wp_step. cbn [id].
  destruct (cs_loaded_blocks s !! key) as [a|] eqn:Hk.
  - unfold new_ptr. repeat wp_step. cbn [id]. change (cs_set_ptrs _ s) with (add_ptr s key a). split_and!.
    + eauto using add_ptr_inv.
    + intros [Hex Hn]%HP. apply (exclusive_add s); [done..|apply Hex].
    + split_and!; [done| |done]. by eexists.
    + done.
    + exists a. rewrite (live_add s) by done. by right.
  - destruct (cs_allowed_size s <? bh_size handle) eqn:Htoo; b2p.
    { apply wpx_ret. split_and!; [eauto|naive_solver|done|done|]. left. done. }
    apply wpx_bind. eapply wpx_mono; [apply (free_unused_spec P owners); [done..|naive_solver]|].
    intros [] s1 (Hinv1 & Hex1 & Hfr & Hend). destruct Hfr as [Hptr Harc Hall Hun Hlo Hsz].
    assert (cs_loaded_blocks s1 !! key = None) as Hk1 by (eapply lookup_weaken_None; eauto).
    assert (keeps s s1) as Hkeep by (unfold keeps; rewrite Hptr, Harc; done).
    repeat wp_step. cbn [id]. destruct (cs_loaded_size s1 + _ <=? _) eqn:Hfit; b2p.
    2: { apply wpx_ret. split_and!; [eauto|done|done|lia|]. split_and!; [done| |done]. destruct Hend; [done|lia]. }
    apply wpx_bind. unfold wpx at 1, lift_rr. destruct (reads id_ handle) as [[e|b] Hr]; rewrite Hr.
    { apply wpx_ret. split_and!; [eauto|done|done|lia|]. by right. }
    unfold new_ptr. repeat wp_step. cbn [id].
    match goal with |- _ ∧ (_ → exclusive ?s2) ∧ _ => change s2 with (load_one s1 key b) end.
    assert (readable key b) as Hread by (by exists handle). split_and!.
    + eauto using load_one_inv.
    + intros HP'. destruct (HP HP') as [Hex Hn]. apply (exclusive_add s1); [done|auto| |].
      * intros i a. unfold live. rewrite Hptr. apply Hn.
      * cbn. intros k Hin. destruct (ex_unused _ (Hex1 HP') k Hin) as [a ?]. rewrite lookup_insert_is_Some. 
        destruct (decide (key = k)); eauto.
    + unfold keeps. cbn. rewrite Hptr, Harc. split_and!; [lia|by eexists..].
    + cbn. intros Hu _. specialize (Hu _ _ _ Hr). lia.
    + exists (length (cs_arcs s1)). unfold load_one. rewrite (live_add s1) by done. by right.
Qed.

(** ** Dropping a pointer *)

(** The pointers to a block with one pointer. *)
Lemma count_ptrs owners s i k a :
  cache_inv owners s → live s i k a → (∀ j k', live s j k' a → j = i) →
  strong_count a s = (size (filter (λ kv : CacheKey * nat, kv.2 = a) (cs_loaded_blocks s)) + 1)%nat.
Proof.
  intros Hinv Hi Hone. unfold strong_count. do 2 f_equal. rewrite (filter_single _ _ i (Some (k, a))); [done..|].
  intros j [[k' a']|] Hj Hs; cbn in Hs; simplify_eq. eauto.
Qed.

Lemma count_loaded owners s k a :
  cache_inv owners s → cs_loaded_blocks s !! k = Some a →
  size (filter (λ kv : CacheKey * nat, kv.2 = a) (cs_loaded_blocks s)) = 1%nat.
Proof.
  intros Hinv Hk. rewrite <- (map_size_singleton (M := gmap CacheKey) k a). f_equal. apply map_eq. intros k'. apply option_eq. intros a'.
  rewrite map_lookup_filter_Some, lookup_singleton_Some. cbn. split; [intros [Hk' ->]|intros [-> ->]; done].
  pose proof (ci_loaded _ _ Hinv _ _ Hk). pose proof (ci_loaded _ _ Hinv _ _ Hk'). naive_solver.
Qed.

(** With a single pointer, the count is 2 exactly when the cache has the block. *)
Lemma count_single owners s i k a :
  cache_inv owners s → live s i k a → (∀ j k', live s j k' a → j = i) →
  strong_count a s = 2%nat ↔ cs_loaded_blocks s !! k = Some a.
Proof.
  intros Hinv Hi Hone. rewrite (count_ptrs owners s i k a) by done. split.
  - intros Hc. destruct (map_choose (filter (λ kv : CacheKey * nat, kv.2 = a) (cs_loaded_blocks s))) as (k' & a' & Hk').
    { intros Hz. rewrite Hz, map_size_empty in Hc. lia. }
    apply map_lookup_filter_Some in Hk' as [Hk' Ha]. cbn in Ha. subst a'.
    pose proof (ci_loaded _ _ Hinv _ _ Hk'). pose proof (ci_ptrs _ _ Hinv _ _ _ Hi). by simplify_eq.
  - intros Hk. by rewrite (count_loaded owners s k a).
Qed.

(** The state after the drop of the pointer [i]. *)
Definition drop_one (s : CacheState (Block := Block)) (i : nat) (k : CacheKey) (a : nat) : CacheState :=
  let s1 := cs_set_ptrs (<[i := None]> (cs_ptrs s)) s in
  if (strong_count a s =? 2)%nat then cs_set_unused (cs_unused_blocks s ∪ {[k]}) s1 else s1.

Lemma drop_one_fields s i k a :
  cs_allowed_size (drop_one s i k a) = cs_allowed_size s ∧ cs_arcs (drop_one s i k a) = cs_arcs s ∧
  cs_loaded_blocks (drop_one s i k a) = cs_loaded_blocks s ∧ cs_loaded_size (drop_one s i k a) = cs_loaded_size s ∧
  cs_unused_blocks s ⊆ cs_unused_blocks (drop_one s i k a).
Proof. unfold drop_one. destruct (_ =? 2)%nat; cbn; set_solver. Qed.

Lemma live_drop s i k a j k' a' : live (drop_one s i k a) j k' a' ↔ j ≠ i ∧ live s j k' a'.
Proof.
  assert (cs_ptrs (drop_one s i k a) = <[i := None]> (cs_ptrs s)) as Hp by (unfold drop_one; by destruct (_ =? 2)%nat).
  unfold live. rewrite Hp, list_lookup_insert_Some. naive_solver.
Qed.

Lemma drop_one_inv owners s i k a : cache_inv owners s → live s i k a → cache_inv owners (drop_one s i k a).
Proof.
  intros Hinv Hi. pose proof Hinv as [Ha Hl Hp Hk Hs].
  destruct (drop_one_fields s i k a) as (_ & Harc & Hlo & Hsz & Hun). split.
  - by rewrite Harc.
  - by rewrite Hlo.
  - intros j k' a' [_ ?]%live_drop. eauto.
  - rewrite Hlo. intros k' a' Hk'. destruct (Hk k' a' Hk') as [?|[j Hj]]; [left; set_solver|].
    destruct (decide (j = i)) as [->|Hne]; [|right; exists j; by apply live_drop].
    unfold live in Hi, Hj. simplify_eq.
    destruct (decide (Some (k, a) ∈ <[i := None]> (cs_ptrs s))) as [[j' Hj']%list_elem_of_lookup|Hno].
    + right. exists j'. apply live_drop. apply list_lookup_insert_Some in Hj'. naive_solver.
    + left. unfold drop_one. rewrite (proj2 (Nat.eqb_eq _ _)); [cbn; set_solver|].
      apply (count_single owners s i k a); [done..| |done]. intros j k' Hj.
      pose proof (Hp _ _ _ Hj). pose proof (Hp _ _ _ Hi). simplify_eq.
      destruct (decide (j = i)); [done|]. destruct Hno. apply list_elem_of_lookup. exists j.
      by rewrite list_lookup_insert_ne by done.
  - unfold cs_blocks. rewrite Hsz, Harc, Hlo. exact Hs.
Qed.

Lemma drop_one_exclusive owners s i k a :
  cache_inv owners s → exclusive s → live s i k a → exclusive (drop_one s i k a).
Proof.
  intros Hinv [H1 H2] Hi. split.
  - intros j1 j2 k' a1 a2 [_ ?]%live_drop [_ ?]%live_drop. eauto.
  - intros k' Hin. destruct (drop_one_fields s i k a) as (_ & _ & -> & _). unfold drop_one in Hin.
    destruct (_ =? 2)%nat eqn:Hc; cbn in Hin; [|auto]. apply elem_of_union in Hin as [?| ->%elem_of_singleton]; [auto|].
    apply Nat.eqb_eq, (count_single owners s i k a) in Hc; [by eexists|done..|].
    intros j k' Hj. pose proof (ci_ptrs _ _ Hinv _ _ _ Hj). pose proof (ci_ptrs _ _ Hinv _ _ _ Hi). simplify_eq. eauto.
Qed.

Lemma drop_spec ptr s :
  drop_ptr ptr s = Done (tt, match cs_ptrs s !! ptr with Some (Some (k, a)) => drop_one s ptr k a | _ => s end).
Proof.
  unfold drop_ptr, bind, gets, modify, ret, drop_one. cbn. destruct (cs_ptrs s !! ptr) as [[[k a]|]|]; [|done..].
  by destruct (_ =? 2)%nat.
Qed.

(** ** Sequences of operations *)

(** A lookup of a block that no pointer refers to. *)
Definition single_use (op : CacheOp) (s : CacheState (Block := Block)) : Prop :=
  match op with
  | OpLookup id_ handle => ∀ i a, ¬ live s i (id_, bh_offset handle) a
  | _ => True
  end.

(** The states of a cache of [n] bytes that is used in this way. *)
Inductive reach (n : Z) : CacheState → Prop :=
| reach_new : reach n (DataBlockCache_new n)
| reach_op op s s' :
  reach n s → single_use op s → cache_op usage read_block choose op s = Done (tt, s') → reach n s'.

(** What holds between operations; [P] tells whether blocks have one pointer. *)
Definition cache_ok (P : Prop) (n : Z) (s : CacheState) : Prop :=
  (∃ owners, cache_inv owners s) ∧ (P → exclusive s) ∧ cs_allowed_size s = n ∧
  (uncompressed → 0 ≤ n → cs_loaded_size s ≤ n).

Lemma cache_ok_new P n : cache_ok P n (DataBlockCache_new n).
Proof. split_and!; [exists []; apply cache_inv_new|intros; apply exclusive_new|done|done]. Qed.

Lemma op_ok (P : Prop) n op s :
  cache_ok P n s → (P → single_use op s) →
  wpx (¬ P) False (cache_op usage read_block choose op) (λ _ s', cache_ok P n s') s.
Proof.
  intros ([owners Hinv] & Hex & Hn & Hfit) Hop. destruct op as [|id_ handle|ptr]; cbn [cache_op].
  - unfold cache_file. repeat wp_step. split_and!; [|intros HP; by destruct (Hex HP)|done..].
    exists owners. by destruct Hinv.
  - apply wpx_bind. eapply wpx_mono; [apply (lookup_spec P owners); [done|]; intros HP; split; [by apply Hex|by apply (Hop HP)]|].
    intros r s' (Hinv' & Hex' & (Hall & _) & Hfit' & _). apply wpx_ret.
    rewrite Hn in *. split_and!; [done..|]. intros Hu Hn0. rewrite <- Hall. apply Hfit'; auto.
  - eapply wpx_run; [apply drop_spec|]. destruct (cs_ptrs s !! ptr) as [[[k a]|]|] eqn:Hp; [|split_and!; eauto..].
    destruct (drop_one_fields s ptr k a) as (Hall & _ & _ & Hsz & _). split_and!.
    + exists owners. by apply drop_one_inv.
    + intros HP. eauto using drop_one_exclusive.
    + congruence.
    + by rewrite Hsz.
Qed.

Lemma reach_ok n s : reach n s → cache_ok True n s.
Proof.
  induction 1 as [|op s s' _ IH Hop Hs]; [apply cache_ok_new|].
  by eapply (wpx_done _ _ _ (λ _, cache_ok True n)); [apply (op_ok True n op s)|].
Qed.

Lemma live_block owners s i k a :
  cache_inv owners s → live s i k a → ∃ b, ptr_block i s = Some b ∧ readable k b.
Proof.
  intros Hinv Hi. destruct (owned_block owners s a k) as (b & Hb & Hr); [done|by eapply ci_ptrs|].
  exists b. split; [|done]. unfold ptr_block. unfold live in Hi. by rewrite Hi.
Qed.

Lemma cache_ops_ok ops n s :
  cache_ok False n s → wpx True False (cache_ops usage read_block choose ops) (λ _, cache_ok False n) s.
Proof.
  intros Hs. apply (wpx_for_each _ _ _ (λ _, cache_ok False n)); [done| |done].
  intros op _ s' Hs'. by eapply wpx_weaken; [| |apply (op_ok False n op s')].
Qed.

(** For every sequence of lookups and drops on a cache of [n] bytes (the
    loop that frees blocks always ends): every pointer that is alive refers to
    a block that a read of its file at its offset returns, also after the cache
    freed the block; the recorded size is the memory of the loaded blocks; and
    while no block is larger in memory than in the file, the cache stays
    within its size. *)
Theorem block_cache_transparent ops n :
  0 ≤ n →
  wpx True False (cache_ops usage read_block choose ops) (λ _ s,
    (∀ ptr key arc, live s ptr key arc → ∃ b, ptr_block ptr s = Some b ∧ readable key b) ∧
    cs_loaded_size s = total_usage (cs_blocks s) ∧
    (uncompressed → cs_loaded_size s ≤ n)) (DataBlockCache_new n).
Proof.
  intros Hn. eapply wpx_mono; [apply (cache_ops_ok ops n), cache_ok_new|].
  intros [] s ([owners Hinv] & _ & _ & Hfit).
  split_and!; [eauto using live_block|apply (ci_size owners s Hinv)|auto].
Qed.


(** A cache without pointers and unused blocks is empty. *)
Lemma waits_in_use owners s :
  cache_inv owners s → cs_unused_blocks s = ∅ → (∀ i k a, ¬ live s i k a) → cs_loaded_size s = 0.
Proof.
  intros Hinv Hu Hn. assert (cs_loaded_blocks s = ∅) as Hz.
  { apply map_empty. intros k. apply eq_None_not_Some. intros [a Hk].
    destruct (ci_kept _ _ Hinv k a Hk) as [?|[i ?]]; [set_solver|by eapply Hn]. }
  rewrite (ci_size _ _ Hinv). unfold cs_blocks. by rewrite Hz, omap_empty.
Qed.

(** In a cache that is used in this way and has no pointer left, the lookup
    of a block that fits in the cache does not wait: it returns a pointer to
    the block, or the error of its read. *)
Theorem block_cache_progress n s id_ handle :
  reach n s → (∀ i k a, ¬ live s i k a) → bh_size handle ≤ n →
  ∃ r s', lookup_or_read usage read_block choose id_ handle s = Done (r, s') ∧
    match r with
    | inr (Some ptr) => ∃ b, ptr_block ptr s' = Some b ∧ readable (id_, bh_offset handle) b
    | inr None => False
    | inl e => read_block id_ handle = Done (inl e)
    end.
Proof.
  intros Hs Hnone Hfit. destruct (reach_ok n s Hs) as ([owners Hinv] & Hex & Hn & _).
  pose proof (lookup_spec True owners id_ handle s Hinv) as Hw. unfold wpx in Hw.
  destruct (lookup_or_read _ _ _ _ _ s) as [[r s']| |]; [|naive_solver..].
  destruct Hw as ([owners' Hinv'] & _ & (Hall & _) & _ & Hr); [by split; [apply Hex|]|].
  exists r, s'. split; [done|]. rewrite Hn in Hall. destruct r as [e|[ptr|]]; cbn in Hr.
  - destruct Hr as [[_ ?]|?]; [lia|done].
  - destruct Hr as [a Ha]. eauto using live_block.
  - destruct Hr as (Hp & Hun & Hlt). apply (waits_in_use owners' s') in Hun; [lia|done|].
    intros i k a Hi. apply (Hnone i k a). unfold live. by rewrite <- Hp.
Qed.
End CacheProofs.

(** ** A cache of files whose blocks have the size of their handles *)

Definition sample_read (id_ : Z) (handle : BlockHandle) : RR nat := Done (inr (Z.to_nat (bh_size handle))).
Definition sample_choose (X : gset CacheKey) : option CacheKey := head (elements X).

Lemma sample_choose_in X k : sample_choose X = Some k → k ∈ X.
Proof. intros Hk. apply elem_of_elements. by apply head_Some_elem_of. Qed.

Lemma sample_choose_none X : sample_choose X = None → X = ∅.
Proof. intros Hk. apply leibniz_equiv, elements_empty_inv. by apply head_None. Qed.

Lemma sample_reads id_ handle : ∃ r, sample_read id_ handle = Done r.
Proof. by eexists. Qed.

(** Blocks of 60 bytes at the offsets 0, 100 and 200 of the file 1. *)
Definition block_at (offset : Z) : BlockHandle := mkBlockHandle offset 60.
Definition look (offset : Z) : CacheOp := OpLookup 1 (block_at offset).

Lemma block_cache_transparent_witness :
  wpx True False (cache_ops Z.of_nat sample_read sample_choose [OpFile; look 0; OpDrop 0; look 100; look 0]) (λ _ s,
    (∀ ptr key arc, live s ptr key arc → ∃ b, ptr_block ptr s = Some b ∧ readable sample_read key b) ∧
    cs_loaded_size s = total_usage Z.of_nat (cs_blocks s) ∧
    (uncompressed Z.of_nat sample_read → cs_loaded_size s ≤ 100)) (DataBlockCache_new 100).
Proof.
  apply (block_cache_transparent Z.of_nat sample_read sample_choose sample_choose_in sample_choose_none);
    [apply Nat2Z.is_nonneg|apply sample_reads|done].
Defined.


Lemma block_cache_progress_witness :
  ∃ r s', lookup_or_read Z.of_nat sample_read sample_choose 1 (block_at 0) (DataBlockCache_new 100) = Done (r, s') ∧
    match r with
    | inr (Some ptr) => ∃ b, ptr_block ptr s' = Some b ∧ readable sample_read (1, 0) b
    | inr None => False
    | inl e => sample_read 1 (block_at 0) = Done (inl e)
    end.
Proof.
  apply (block_cache_progress Z.of_nat sample_read sample_choose sample_choose_in sample_choose_none)
    with (n := 100) (handle := block_at 0); [apply Nat2Z.is_nonneg|apply sample_reads|apply reach_new|done|done].
Defined.

(** Two pointers to a block that the cache has freed panic it. A hit leaves
    the key of the block in [unused_blocks] (src/pkg/sstable/src/table/table.rs,
    [lookup_or_read]), so the next read may free a block that is in use; when
    one of its two pointers is dropped the count is 2 without an entry of the
    cache, and the key it adds to [unused_blocks] has no block to remove when
    the cache frees memory again. *)
Theorem block_cache_panics :
  (∃ s, cache_ops Z.of_nat sample_read sample_choose
     [OpFile; look 0; OpDrop 0; look 0; look 0; look 100; OpDrop 1] (DataBlockCache_new 100) = Done (tt, s) ∧
     (1, 0) ∈ cs_unused_blocks s ∧ cs_loaded_blocks s !! (1, 0) = None ∧ ptr_block 2 s = Some 60%nat) ∧
  cache_ops Z.of_nat sample_read sample_choose
    [OpFile; look 0; OpDrop 0; look 0; look 0; look 100; OpDrop 1; look 200] (DataBlockCache_new 100) = Panicked.
Proof.
  split; [|by vm_compute]. eexists. split; [by vm_compute|]. split; [|by vm_compute].
  set_solver.
Qed.
