(* ===== verification/VersionEdit.v ===== *)
(** * Version edits

    src/pkg/sstable/src/db/version_edit.rs: the records of the manifest, their
    encoding, and reading one from a log. *)

From S2P Require Import Prelude Wire Encoding Comparator DataBlock Filter Table RecordLog.

(** [parse_string], [serialize_string] of src/pkg/sstable/src/encoding.rs *)
Definition parse_string (input : bytes) : Result (bytes * bytes) :=
  ok! (data, input) := parse_slice input in
  ok! value := from_utf8 data in
  inr (value, input).
Definition serialize_string (value : bytes) : bytes := serialize_slice value.

(** [Tag] *)
Inductive EditTag :=
| TComparator | TLogNumber | TNextFileNumber | TLastSequence | TCompactPointer | TDeletedFile | TNewFile
| TPrevLogNumber | TMinLogNumberToKeep | TNewFile2 | TNewFile3 | TNewFile4 | TColumnFamily | TColumnFamilyAdd
| TColumnFamilyDrop | TMaxColumnFamily | TInAtomicGroup | TCompactionWaterline.

Definition EditTag_to_value (t : EditTag) : Z :=
  match t with
  | TComparator => 1 | TLogNumber => 2 | TNextFileNumber => 3 | TLastSequence => 4 | TCompactPointer => 5
  | TDeletedFile => 6 | TNewFile => 7 | TPrevLogNumber => 9 | TMinLogNumberToKeep => 10
  | TNewFile2 => 100 | TNewFile3 => 102 | TNewFile4 => 103 | TColumnFamily => 200 | TColumnFamilyAdd => 201
  | TColumnFamilyDrop => 202 | TMaxColumnFamily => 203 | TInAtomicGroup => 300 | TCompactionWaterline => 800
  end.

Definition edit_tags : list EditTag :=
  [TComparator; TLogNumber; TNextFileNumber; TLastSequence; TCompactPointer; TDeletedFile; TNewFile;
   TPrevLogNumber; TMinLogNumberToKeep; TNewFile2; TNewFile3; TNewFile4; TColumnFamily; TColumnFamilyAdd;
   TColumnFamilyDrop; TMaxColumnFamily; TInAtomicGroup; TCompactionWaterline].

Definition EditTag_from_value (v : Z) : Result EditTag :=
  match head (filter (λ t, EditTag_to_value t = v) edit_tags) with
  | Some t => inr t
  | None => inl EUnknownTag
  end.

Record NewFileEntry := mkNewFileEntry {
  nf_level : Z;
  nf_number : Z;
  nf_file_size : Z;
  nf_smallest_key : bytes;
  nf_largest_key : bytes;
  nf_sequence_range : option (Z * Z);
}.

Record DeletedFileEntry := mkDeletedFileEntry { df_level : Z; df_number : Z }.

Record VersionEdit := mkVersionEdit {
  ve_comparator : option bytes;
  ve_log_number : option Z;
  ve_prev_log_number : option Z;
  ve_last_sequence : option Z;
  ve_new_files : list NewFileEntry;
  ve_deleted_files : list DeletedFileEntry;
  ve_next_file_number : option Z;
  ve_compaction_waterline : option Z;
}.

Definition VersionEdit_default : VersionEdit := mkVersionEdit None None None None [] [] None None.

(** [NewFileEntry::compare] *)
Definition NewFileEntry_compare (kc : KeyComparator) (a b : NewFileEntry) : option comparison :=
  match nf_level a ?= nf_level b with
  | Eq =>
    match kc_compare kc (nf_smallest_key a) (nf_smallest_key b) with
    | Some Eq => Some (nf_number a ?= nf_number b)
    | key_ord => key_ord
    end
  | level_ord => Some level_ord
  end.

(** ** Reading *)

(** The assignments to the fields of [edit]. *)
Definition set_comparator (v : bytes) (e : VersionEdit) : VersionEdit :=
  mkVersionEdit (Some v) (ve_log_number e) (ve_prev_log_number e) (ve_last_sequence e) (ve_new_files e)
    (ve_deleted_files e) (ve_next_file_number e) (ve_compaction_waterline e).
Definition set_log_number (v : Z) (e : VersionEdit) : VersionEdit :=
  mkVersionEdit (ve_comparator e) (Some v) (ve_prev_log_number e) (ve_last_sequence e) (ve_new_files e)
    (ve_deleted_files e) (ve_next_file_number e) (ve_compaction_waterline e).
Definition set_prev_log_number (v : option Z) (e : VersionEdit) : VersionEdit :=
  mkVersionEdit (ve_comparator e) (ve_log_number e) v (ve_last_sequence e) (ve_new_files e)
    (ve_deleted_files e) (ve_next_file_number e) (ve_compaction_waterline e).
Definition set_last_sequence (v : Z) (e : VersionEdit) : VersionEdit :=
  mkVersionEdit (ve_comparator e) (ve_log_number e) (ve_prev_log_number e) (Some v) (ve_new_files e)
    (ve_deleted_files e) (ve_next_file_number e) (ve_compaction_waterline e).
Definition push_new_file (v : NewFileEntry) (e : VersionEdit) : VersionEdit :=
  mkVersionEdit (ve_comparator e) (ve_log_number e) (ve_prev_log_number e) (ve_last_sequence e)
    (ve_new_files e ++ [v]) (ve_deleted_files e) (ve_next_file_number e) (ve_compaction_waterline e).
Definition push_deleted_file (v : DeletedFileEntry) (e : VersionEdit) : VersionEdit :=
  mkVersionEdit (ve_comparator e) (ve_log_number e) (ve_prev_log_number e) (ve_last_sequence e)
    (ve_new_files e) (ve_deleted_files e ++ [v]) (ve_next_file_number e) (ve_compaction_waterline e).
Definition set_next_file_number (v : Z) (e : VersionEdit) : VersionEdit :=
  mkVersionEdit (ve_comparator e) (ve_log_number e) (ve_prev_log_number e) (ve_last_sequence e) (ve_new_files e)
    (ve_deleted_files e) (Some v) (ve_compaction_waterline e).
Definition set_waterline (v : Z) (e : VersionEdit) : VersionEdit :=
  mkVersionEdit (ve_comparator e) (ve_log_number e) (ve_prev_log_number e) (ve_last_sequence e) (ve_new_files e)
    (ve_deleted_files e) (ve_next_file_number e) (Some v).

(** [parse_next!(input, parse_varint)], a u64, and cast to a u32 *)
Definition next_varint (input : bytes) : Result (Z * bytes) := from_wire (parse_varint input).
Definition next_u32 (input : bytes) : Result (Z * bytes) :=
  ok! (v, input) := next_varint input in inr (v mod 2 ^ 32, input).

(** The fields that [NewFile] and [NewFile2] share. *)
Definition parse_new_file (input : bytes) : Result (NewFileEntry * bytes) :=
  ok! (level, input) := next_u32 input in
  ok! (number, input) := next_varint input in
  ok! (file_size, input) := next_varint input in
  ok! (smallest_key, input) := parse_slice input in
  ok! (largest_key, input) := parse_slice input in
  inr (mkNewFileEntry level number file_size smallest_key largest_key None, input).

(** A round of the loop of [read]: the edit, [touched_files] and the rest of
    the input. *)
Definition parse_edit_field (edit : VersionEdit) (touched_files : gset Z) (input : bytes)
    : Result (VersionEdit * gset Z * bytes) :=
  ok! (v, input) := next_u32 input in
  ok! record_id := EditTag_from_value v in
  match record_id with
  | TComparator =>
    ok! (value, input) := parse_string input in
    inr (set_comparator value edit, touched_files, input)
  | TLogNumber =>
    ok! (num, input) := next_varint input in
    inr (set_log_number num edit, touched_files, input)
  | TLastSequence =>
    ok! (num, input) := next_varint input in
    inr (set_last_sequence num edit, touched_files, input)
  | TNewFile =>
    ok! (file, input) := parse_new_file input in
    if decide (nf_number file ∈ touched_files) then inl EFileCreatedTwice else
    inr (push_new_file file edit, {[nf_number file]} ∪ touched_files, input)
  | TNewFile2 =>
    ok! (file, input) := parse_new_file input in
    ok! (smallest_seq, input) := next_varint input in
    ok! (largest_seq, input) := next_varint input in
    inr (push_new_file (mkNewFileEntry (nf_level file) (nf_number file) (nf_file_size file) (nf_smallest_key file)
           (nf_largest_key file) (Some (smallest_seq, largest_seq))) edit, touched_files, input)
  | TPrevLogNumber =>
    ok! (num, input) := next_varint input in
    inr (set_prev_log_number (Some num) edit, touched_files, input)
  | TNextFileNumber =>
    ok! (num, input) := next_varint input in
    inr (set_next_file_number num edit, touched_files, input)
  | TDeletedFile =>
    ok! (level, input) := next_u32 input in
    ok! (file_number, input) := next_varint input in
    if decide (file_number ∈ touched_files) then inl EFileDeletedTwice else
    inr (push_deleted_file (mkDeletedFileEntry level file_number) edit, {[file_number]} ∪ touched_files, input)
  | TCompactionWaterline =>
    ok! (num, input) := next_varint input in
    inr (set_waterline num edit, touched_files, input)
  | _ => inl EUnsupportedTag
  end.

(** The loop of [read]; each round uses up a tag, so that the length of the
    record bounds it. *)
Fixpoint parse_edit_loop (fuel : nat) (edit : VersionEdit) (touched_files : gset Z) (input : bytes) : RR VersionEdit :=
  match input, fuel with
  | [], _ => Done (inr edit)
  | _ :: _, O => OutOfFuel
  | _ :: _, S fuel =>
    rr! (edit, touched_files, input) := Done (parse_edit_field edit touched_files input) in
    parse_edit_loop fuel edit touched_files input
  end.

Definition parse_edit (record : bytes) : RR VersionEdit :=
  parse_edit_loop (length record) VersionEdit_default ∅ record.

(** [VersionEdit::read] from a file with the given contents. *)
Definition VersionEdit_read (file : bytes) : M RecordReader ((RecordReadError + ParseError) + option VersionEdit) :=
  let! res := RecordLog.read file in
  match res with
  | inl e => ret (inl (inl e))
  | inr None => ret (inr None)
  | inr (Some record) =>
    let! res := lift_run (parse_edit record) in
    ret match res with inl e => inl (inr e) | inr edit => inr (Some edit) end
  end.

(** ** Writing *)

Definition serialize_tag (t : EditTag) : bytes := serialize_varint (EditTag_to_value t).

Definition serialize_number (t : EditTag) (num : option Z) : bytes :=
  match num with Some num => serialize_tag t ++ serialize_varint num | None => [] end.

(** The loop over [deleted_files], with [touched_files]. *)
Fixpoint serialize_deleted (files : list DeletedFileEntry) (touched_files : gset Z) (out : bytes)
    : Result (gset Z * bytes) :=
  match files with
  | [] => inr (touched_files, out)
  | file :: files =>
    if decide (df_number file ∈ touched_files) then inl EFileDeletedTwice else
    serialize_deleted files ({[df_number file]} ∪ touched_files)
      (out ++ serialize_tag TDeletedFile ++ serialize_varint (df_level file) ++ serialize_varint (df_number file))
  end.

Definition serialize_new_file (file : NewFileEntry) : bytes :=
  serialize_tag (match nf_sequence_range file with Some _ => TNewFile2 | None => TNewFile end) ++
  serialize_varint (nf_level file) ++
  serialize_varint (nf_number file) ++
  serialize_varint (nf_file_size file) ++
  serialize_slice (nf_smallest_key file) ++
  serialize_slice (nf_largest_key file) ++
  match nf_sequence_range file with Some (min, max) => serialize_varint min ++ serialize_varint max | None => [] end.

(** The loop over [new_files]. *)
Fixpoint serialize_new (files : list NewFileEntry) (touched_files : gset Z) (out : bytes) : Result bytes :=
  match files with
  | [] => inr out
  | file :: files =>
    if decide (nf_number file ∈ touched_files) then inl EFileTouched else
    serialize_new files ({[nf_number file]} ∪ touched_files) (out ++ serialize_new_file file)
  end.

(** [VersionEdit::serialize] *)
Definition VersionEdit_serialize (e : VersionEdit) : Result bytes :=
  let out :=
    match ve_comparator e with
    | Some comparator => serialize_tag TComparator ++ serialize_string comparator
    | None => []
    end ++
    serialize_number TLogNumber (ve_log_number e) ++
    serialize_number TPrevLogNumber (ve_prev_log_number e) ++
    serialize_number TLastSequence (ve_last_sequence e) ++
    serialize_number TNextFileNumber (ve_next_file_number e) ++
    serialize_number TCompactionWaterline (ve_compaction_waterline e) in
  ok! (touched_files, out) := serialize_deleted (ve_deleted_files e) ∅ out in
  serialize_new (ve_new_files e) touched_files out.
