(* ===== verification/VersionEditTheorems.v ===== *)
(** * Properties of version edits

    Every edit that can be written is read back as it was, an edit that names
    a file twice is refused when it is written, and reading always ends. *)

From Stdlib Require Import String.
From S2P Require Import Prelude Wire Encoding Comparator DataBlock Filter Table RecordLog VersionEdit.

(** ** Edits that fit their encoding *)

Definition u64 (v : Z) : Prop := 0 ≤ v < 2 ^ 64.
Definition opt_u64 (v : option Z) : Prop := from_option u64 True v.
Definition slice_ok (l : bytes) : Prop := Z.of_nat (length l) < 2 ^ 64.

Record file_ok (f : NewFileEntry) : Prop := {
  fo_level : 0 ≤ nf_level f < 2 ^ 32;
  fo_number : u64 (nf_number f);
  fo_size : u64 (nf_file_size f);
  fo_smallest : slice_ok (nf_smallest_key f);
  fo_largest : slice_ok (nf_largest_key f);
  fo_range : from_option (λ r, u64 r.1 ∧ u64 r.2) True (nf_sequence_range f);
}.

Record edit_ok (e : VersionEdit) : Prop := {
  eo_comparator : from_option (λ s, utf8_valid s = true ∧ slice_ok s) True (ve_comparator e);
  eo_log_number : opt_u64 (ve_log_number e);
  eo_prev_log_number : opt_u64 (ve_prev_log_number e);
  eo_last_sequence : opt_u64 (ve_last_sequence e);
  eo_next_file_number : opt_u64 (ve_next_file_number e);
  eo_waterline : opt_u64 (ve_compaction_waterline e);
  eo_new : Forall file_ok (ve_new_files e);
  eo_deleted : Forall (λ d, 0 ≤ df_level d < 2 ^ 32 ∧ u64 (df_number d)) (ve_deleted_files e);
}.

(** The numbers of the files of an edit, in the order they are written. *)
Definition touched (e : VersionEdit) : list Z := (df_number <$> ve_deleted_files e) ++ (nf_number <$> ve_new_files e).

(** ** The fields of an edit *)

Inductive EditField :=
| FComparator (s : bytes)
| FNumber (t : EditTag) (n : Z)
| FDeleted (d : DeletedFileEntry)
| FNew (f : NewFileEntry).

Definition field_bytes (f : EditField) : bytes :=
  match f with
  | FComparator s => serialize_tag TComparator ++ serialize_string s
  | FNumber t n => serialize_tag t ++ serialize_varint n
  | FDeleted d => serialize_tag TDeletedFile ++ serialize_varint (df_level d) ++ serialize_varint (df_number d)
  | FNew f => serialize_new_file f
  end.

Definition number_setter (t : EditTag) : option (Z → VersionEdit → VersionEdit) :=
  match t with
  | TLogNumber => Some set_log_number
  | TPrevLogNumber => Some (λ n, set_prev_log_number (Some n))
  | TLastSequence => Some set_last_sequence
  | TNextFileNumber => Some set_next_file_number
  | TCompactionWaterline => Some set_waterline
  | _ => None
  end.

Definition field_ok (f : EditField) : Prop :=
  match f with
  | FComparator s => utf8_valid s = true ∧ slice_ok s
  | FNumber t n => is_Some (number_setter t) ∧ u64 n
  | FDeleted d => 0 ≤ df_level d < 2 ^ 32 ∧ u64 (df_number d)
  | FNew f => file_ok f
  end.

(** The file of a field, if the reader records it as touched. *)
Definition field_touches (f : EditField) : option Z :=
  match f with
  | FDeleted d => Some (df_number d)
  | FNew f => match nf_sequence_range f with Some _ => None | None => Some (nf_number f) end
  | _ => None
  end.

Definition field_apply (f : EditField) (e : VersionEdit) : VersionEdit :=
  match f with
  | FComparator s => set_comparator s e
  | FNumber t n => match number_setter t with Some set => set n e | None => e end
  | FDeleted d => push_deleted_file d e
  | FNew f => push_new_file f e
  end.

Definition option_fields (t : EditTag) (n : option Z) : list EditField := from_option (λ n, [FNumber t n]) [] n.

Definition edit_fields (e : VersionEdit) : list EditField :=
  from_option (λ s, [FComparator s]) [] (ve_comparator e) ++
  option_fields TLogNumber (ve_log_number e) ++
  option_fields TPrevLogNumber (ve_prev_log_number e) ++
  option_fields TLastSequence (ve_last_sequence e) ++
  option_fields TNextFileNumber (ve_next_file_number e) ++
  option_fields TCompactionWaterline (ve_compaction_waterline e) ++
  (FDeleted <$> ve_deleted_files e) ++ (FNew <$> ve_new_files e).

(** ** Parsing what was written *)

Lemma next_varint_ok v rest : u64 v → next_varint (serialize_varint v ++ rest) = inr (v, rest).
Proof. intros Hv. unfold next_varint. by rewrite parse_serialize_varint. Qed.

Lemma next_u32_ok v rest : 0 ≤ v < 2 ^ 32 → next_u32 (serialize_varint v ++ rest) = inr (v, rest).
Proof.
  intros Hv. unfold next_u32. rewrite next_varint_ok by (unfold u64; lia). cbn. by rewrite Z.mod_small.
Qed.

Lemma tag_ok t rest :
  next_u32 (serialize_tag t ++ rest) = inr (EditTag_to_value t, rest) ∧
  EditTag_from_value (EditTag_to_value t) = inr t.
Proof. split; [apply next_u32_ok; by destruct t|by destruct t]. Qed.

Lemma parse_string_ok s rest :
  utf8_valid s = true → slice_ok s → parse_string (serialize_string s ++ rest) = inr (s, rest).
Proof.
  intros Hs Hl. unfold parse_string, serialize_string. rewrite parse_serialize_slice by done. cbn.
  unfold from_utf8. by rewrite Hs.
Qed.

(** The files that the reader has touched after a field. *)
Definition touch (f : EditField) (t : gset Z) : gset Z := from_option (λ n, {[n]} ∪ t) t (field_touches f).

Lemma parse_new_file_ok f rest :
  file_ok f →
  parse_new_file (serialize_varint (nf_level f) ++ serialize_varint (nf_number f) ++ serialize_varint (nf_file_size f) ++
    serialize_slice (nf_smallest_key f) ++ serialize_slice (nf_largest_key f) ++ rest) =
  inr (mkNewFileEntry (nf_level f) (nf_number f) (nf_file_size f) (nf_smallest_key f) (nf_largest_key f) None, rest).
Proof.
  intros [? ? ? ? ? _]. unfold parse_new_file.
  rewrite next_u32_ok by done. cbn [rbind]. rewrite !next_varint_ok by done. cbn [rbind].
  rewrite !next_varint_ok by done. cbn [rbind]. rewrite parse_serialize_slice by done. cbn [rbind].
  by rewrite parse_serialize_slice by done.
Qed.

Lemma parse_edit_field_ok f e t rest :
  field_ok f → (∀ n, field_touches f = Some n → n ∉ t) →
  parse_edit_field e t (field_bytes f ++ rest) = inr (field_apply f e, touch f t, rest).
Proof.
  intros Hf Ht. unfold parse_edit_field, touch. destruct f as [s|tag n|d|f]; cbn [field_bytes field_ok field_touches field_apply] in *.
  - destruct Hf as [Hu Hs]. rewrite <- !(assoc_L (++)). destruct (tag_ok TComparator (serialize_string s ++ rest)) as [-> Htag].
    cbn [rbind]. rewrite Htag. cbn [rbind]. by rewrite parse_string_ok by done.
  - destruct Hf as [[set Hset] Hn]. rewrite <- !(assoc_L (++)).
    destruct (tag_ok tag (serialize_varint n ++ rest)) as [-> Htag]. cbn [rbind]. rewrite Htag. cbn [rbind].
    destruct tag; cbn in Hset; try discriminate; rewrite next_varint_ok by done; cbn; by injection Hset as <-.
  - destruct Hf as [Hl Hn]. rewrite <- !(assoc_L (++)).
    destruct (tag_ok TDeletedFile (serialize_varint (df_level d) ++ serialize_varint (df_number d) ++ rest)) as [-> Htag].
    cbn [rbind]. rewrite Htag. cbn [rbind]. rewrite next_u32_ok by done. cbn [rbind].
    rewrite next_varint_ok by done. cbn [rbind]. rewrite decide_False by auto. by destruct d.
  - unfold serialize_new_file. pose proof (fo_range f Hf) as Hr.
    destruct f as [level number size smallest largest [[lo hi]|]]; cbn [nf_sequence_range nf_level nf_number nf_file_size nf_smallest_key nf_largest_key from_option] in *;
      rewrite <- !(assoc_L (++)); match goal with |- context [next_u32 (serialize_tag ?tag ++ ?l)] => destruct (tag_ok tag l) as [-> Htag] end;
      cbn [rbind]; rewrite Htag; cbn [rbind].
    + rewrite (parse_new_file_ok (mkNewFileEntry level number size smallest largest (Some (lo, hi)))) by done. cbn [rbind].
      destruct Hr. rewrite !next_varint_ok by done. cbn [rbind]. by rewrite next_varint_ok by done.
    + rewrite (parse_new_file_ok (mkNewFileEntry level number size smallest largest None)) by done. cbn.
      by rewrite decide_False by auto.
Qed.

(** The files the reader touches over a list of fields are distinct and new. *)
Definition fresh (fs : list EditField) (t : gset Z) : Prop :=
  NoDup (omap field_touches fs) ∧ ∀ n, n ∈ omap field_touches fs → n ∉ t.

Lemma fresh_cons f fs t :
  fresh (f :: fs) t → (∀ n, field_touches f = Some n → n ∉ t) ∧ fresh fs (touch f t).
Proof.
  unfold fresh, touch. cbn [omap list_omap]. destruct (field_touches f) as [n|] eqn:Hf; cbn [from_option].
  - intros [[Hn Hd]%NoDup_cons Ht]. split; [intros ? [= <-]; apply Ht; set_solver|]. split; [done|]. set_solver.
  - intros [Hd Ht]. split; [done|]. by split.
Qed.

Lemma length_field_bytes f : (0 < length (field_bytes f))%nat.
Proof.
  assert (∀ t l, (0 < length (serialize_tag t ++ l))%nat) as Ht.
  { intros t l. rewrite length_app. pose proof (length_serialize_varint_le (EditTag_to_value t)). unfold serialize_tag. lia. }
  destruct f; apply Ht.
Qed.

Lemma parse_edit_loop_ok fs : ∀ fuel e t,
  Forall field_ok fs → fresh fs t → (length (concat (field_bytes <$> fs)) <= fuel)%nat →
  parse_edit_loop fuel e t (concat (field_bytes <$> fs)) = Done (inr (foldl (λ e f, field_apply f e) e fs)).
Proof.
  induction fs as [|f fs IH]; intros fuel e t Hok Hfr Hfuel; [by destruct fuel|].
  apply Forall_cons in Hok as [Hf Hok]. apply fresh_cons in Hfr as [Ht Hfr].
  cbn [fmap list_fmap concat foldl] in *. pose proof (length_field_bytes f). rewrite length_app in Hfuel.
  destruct fuel as [|fuel]; [lia|].
  pose proof (parse_edit_field_ok f e t (concat (field_bytes <$> fs)) Hf Ht) as Hp.
  destruct (field_bytes f ++ _) as [|b l] eqn:Hl.
  { apply (f_equal length) in Hl. rewrite length_app in Hl. cbn in Hl. lia. }
  cbn [parse_edit_loop]. rewrite Hp. cbn [rr_bind]. apply IH; [done..|]. lia.
Qed.

(** ** Writing the fields *)

Lemma serialize_deleted_ok ds : ∀ t out,
  NoDup (df_number <$> ds) → (∀ n, n ∈ df_number <$> ds → n ∉ t) →
  serialize_deleted ds t out = inr (list_to_set (df_number <$> ds) ∪ t, out ++ concat (field_bytes <$> (FDeleted <$> ds))).
Proof.
  induction ds as [|d ds IH]; intros t out Hd Ht; cbn.
  - rewrite app_nil_r. do 2 f_equal. set_solver.
  - cbn in Hd. apply NoDup_cons in Hd as [Hn Hd]. rewrite decide_False by (apply Ht; set_solver).
    rewrite IH; [|done|set_solver]. do 2 f_equal; [set_solver|]. by rewrite <- !(assoc_L (++)).
Qed.

Lemma serialize_new_ok fs : ∀ (t : gset Z) out,
  NoDup (nf_number <$> fs) → (∀ n, n ∈ nf_number <$> fs → n ∉ t) →
  serialize_new fs t out = inr (out ++ concat (field_bytes <$> (FNew <$> fs))).
Proof.
  induction fs as [|f fs IH]; intros t out Hd Ht; cbn; [by rewrite app_nil_r|].
  cbn in Hd. apply NoDup_cons in Hd as [Hn Hd]. rewrite decide_False by (apply Ht; set_solver).
  rewrite IH; [|done|set_solver]. f_equal. by rewrite <- !(assoc_L (++)).
Qed.

Lemma serialize_number_fields t n : serialize_number t n = concat (field_bytes <$> option_fields t n).
Proof. destruct n; cbn; by rewrite ?app_nil_r. Qed.

Lemma serialize_fields e :
  NoDup (touched e) → VersionEdit_serialize e = inr (concat (field_bytes <$> edit_fields e)).
Proof.
  unfold touched. intros (Hd & Hdis & Hn)%NoDup_app. unfold VersionEdit_serialize.
  rewrite serialize_deleted_ok by set_solver. cbn [rbind]. rewrite serialize_new_ok by set_solver. f_equal.
  unfold edit_fields. rewrite !serialize_number_fields, !fmap_app, !concat_app, <- !(assoc_L (++)). f_equal.
  destruct (ve_comparator e); cbn; by rewrite ?app_nil_r.
Qed.

(** ** Reading the fields back *)

Lemma apply_deleted ds : ∀ e,
  foldl (λ e f, field_apply f e) e (FDeleted <$> ds) =
  mkVersionEdit (ve_comparator e) (ve_log_number e) (ve_prev_log_number e) (ve_last_sequence e) (ve_new_files e)
    (ve_deleted_files e ++ ds) (ve_next_file_number e) (ve_compaction_waterline e).
Proof.
  induction ds as [|d ds IH]; intros e; cbn; [rewrite app_nil_r; by destruct e|].
  rewrite IH. cbn. by rewrite <- (assoc_L (++)).
Qed.

Lemma apply_new fs : ∀ e,
  foldl (λ e f, field_apply f e) e (FNew <$> fs) =
  mkVersionEdit (ve_comparator e) (ve_log_number e) (ve_prev_log_number e) (ve_last_sequence e) (ve_new_files e ++ fs)
    (ve_deleted_files e) (ve_next_file_number e) (ve_compaction_waterline e).
Proof.
  induction fs as [|d fs IH]; intros e; cbn; [rewrite app_nil_r; by destruct e|].
  rewrite IH. cbn. by rewrite <- (assoc_L (++)).
Qed.

Lemma apply_fields e : foldl (λ e f, field_apply f e) VersionEdit_default (edit_fields e) = e.
Proof.
  unfold edit_fields, option_fields. rewrite !foldl_app, apply_new, apply_deleted.
  destruct e as [[] [] [] [] new del [] []]; reflexivity.
Qed.

Lemma option_fields_ok t n : is_Some (number_setter t) → opt_u64 n → Forall field_ok (option_fields t n).
Proof. destruct n; repeat constructor; auto; by unfold opt_u64, u64 in *; cbn in *; lia. Qed.

Lemma fields_ok e : edit_ok e → Forall field_ok (edit_fields e).
Proof.
  intros [Hc H1 H2 H3 H4 H5 Hn Hd]. unfold edit_fields. rewrite !Forall_app, !Forall_fmap.
  split_and!; [|by apply option_fields_ok; [eexists|]..|done|done].
  destruct (ve_comparator e); repeat constructor; by destruct Hc.
Qed.

(** The files the reader touches are among those of the edit. *)
Lemma touched_fields e : omap field_touches (edit_fields e) `sublist_of` touched e.
Proof.
  assert (∀ t n, omap field_touches (option_fields t n) = []) as Ho by (intros t [n|]; done).
  unfold edit_fields, touched. rewrite !omap_app, !Ho. destruct (ve_comparator e); cbn [from_option omap list_omap field_touches app].
  all: apply sublist_app; [induction (ve_deleted_files e); cbn; [done|by constructor]|].
  all: induction (ve_new_files e) as [|f fs IH]; cbn; [done|]; destruct (nf_sequence_range f); by constructor.
Qed.

Lemma fresh_fields e : NoDup (touched e) → fresh (edit_fields e) ∅.
Proof. intros Hd. split; [by eapply sublist_NoDup, touched_fields|]. set_solver. Qed.

Lemma edit_roundtrip e :
  edit_ok e → NoDup (touched e) → ∃ out, VersionEdit_serialize e = inr out ∧ parse_edit out = Done (inr e).
Proof.
  intros Hok Hd. exists (concat (field_bytes <$> edit_fields e)). split; [by apply serialize_fields|].
  unfold parse_edit. rewrite parse_edit_loop_ok; [by rewrite apply_fields|by apply fields_ok|by apply fresh_fields|done].
Qed.

(** ** Edits that name a file twice *)

Lemma serialize_deleted_inv ds : ∀ t out r,
  serialize_deleted ds t out = inr r →
  NoDup (df_number <$> ds) ∧ (∀ n, n ∈ df_number <$> ds → n ∉ t) ∧ r.1 = list_to_set (df_number <$> ds) ∪ t.
Proof.
  induction ds as [|d ds IH]; intros t out r; cbn.
  - intros [= <-]. split_and!; [constructor|set_solver|cbn; set_solver].
  - destruct (decide _) as [|Hn]; [done|]. intros (Hd & Ht & Hr)%IH.
    split_and!; [constructor; [set_solver|done]|set_solver|rewrite Hr; set_solver].
Qed.

Lemma serialize_new_inv fs : ∀ (t : gset Z) out r,
  serialize_new fs t out = inr r → NoDup (nf_number <$> fs) ∧ (∀ n, n ∈ nf_number <$> fs → n ∉ t).
Proof.
  induction fs as [|f fs IH]; intros t out r; cbn.
  - intros _. split; [constructor|set_solver].
  - destruct (decide _) as [|Hn]; [done|]. intros (Hd & Ht)%IH. split; [constructor; [set_solver|done]|set_solver].
Qed.

Lemma serialize_inv e out : VersionEdit_serialize e = inr out → NoDup (touched e).
Proof.
  unfold VersionEdit_serialize. destruct (serialize_deleted _ _ _) as [|[t out']] eqn:Hd; [done|].
  apply serialize_deleted_inv in Hd as (Hd & _ & Ht). cbn in Ht |- *. subst t. intros (Hn & Ht)%serialize_new_inv.
  apply NoDup_app. split_and!; [done|set_solver|done].
Qed.

(** ** Reading ends *)

Lemma next_varint_shorter input v rest : next_varint input = inr (v, rest) → (length rest < length input)%nat ∧ u64 v.
Proof.
  unfold next_varint, from_wire. destruct (parse_varint input) as [|[v' rest']] eqn:Hp; [done|]. intros [= -> ->].
  apply parse_varint_spec in Hp as (Hv & p & -> & Hl). rewrite length_app. split; [lia|done].
Qed.

Lemma next_u32_shorter input v rest : next_u32 input = inr (v, rest) → (length rest < length input)%nat.
Proof.
  unfold next_u32. destruct (next_varint input) as [|[v' rest']] eqn:Hp; [done|]. cbn. intros [= <- <-].
  by apply next_varint_shorter in Hp as [? _].
Qed.

Lemma parse_slice_shorter input v rest : parse_slice input = inr (v, rest) → (length rest < length input)%nat.
Proof.
  unfold parse_slice. change (from_wire (parse_varint input)) with (next_varint input).
  destruct (next_varint input) as [|[n rest']] eqn:Hp; [done|]. cbn. apply next_varint_shorter in Hp as [Hl _].
  destruct (_ <? n); [done|]. intros [= _ <-]. rewrite length_drop. lia.
Qed.

(** Split the binds of a parser in the hypothesis [H]. *)
Ltac parse_inv H :=
  repeat match type of H with
  | rbind ?r _ = inr _ => let E := fresh "E" in destruct r as [|?] eqn:E; [discriminate H|]; cbn [rbind] in H
  | (let '(_, _) := ?p in _) = inr _ => destruct p; cbn beta iota in H
  | (if decide ?P then _ else _) = inr _ => destruct (decide P); [discriminate H|]
  end.

Ltac shorter :=
  repeat match goal with
  | E : next_varint _ = inr (_, _) |- _ => apply next_varint_shorter in E as [E _]
  | E : next_u32 _ = inr (_, _) |- _ => apply next_u32_shorter in E
  | E : parse_slice _ = inr (_, _) |- _ => apply parse_slice_shorter in E
  end.

Lemma parse_new_file_shorter input f rest : parse_new_file input = inr (f, rest) → (length rest < length input)%nat.
Proof. unfold parse_new_file. intros H. parse_inv H. simplify_eq. shorter. lia. Qed.

Lemma parse_string_shorter input s rest : parse_string input = inr (s, rest) → (length rest < length input)%nat.
Proof. unfold parse_string. intros H. parse_inv H. simplify_eq. by shorter. Qed.

Lemma parse_edit_field_shorter e t input e' t' rest :
  parse_edit_field e t input = inr (e', t', rest) → (length rest < length input)%nat.
Proof.
  unfold parse_edit_field. intros H. parse_inv H. destruct e0; try discriminate H; parse_inv H; simplify_eq;
    repeat match goal with
    | E : parse_new_file _ = inr (_, _) |- _ => apply parse_new_file_shorter in E
    | E : parse_string _ = inr (_, _) |- _ => apply parse_string_shorter in E
    end; shorter; lia.
Qed.

Lemma parse_edit_loop_ends fuel : ∀ e t input, (length input <= fuel)%nat → ∃ r, parse_edit_loop fuel e t input = Done r.
Proof.
  induction fuel as [|fuel IH]; intros e t [|b input] Hl; cbn [parse_edit_loop]; [by eexists|cbn in Hl; lia|by eexists|].
  destruct (parse_edit_field e t (b :: input)) as [err|[[e' t'] rest]] eqn:Hp; cbn [rr_bind]; [by eexists|].
  apply parse_edit_field_shorter in Hp. apply IH. cbn in *. lia.
Qed.

(** ** Properties *)

(** C38: An edit whose fields fit their encoding is written exactly when it names
    no file twice, and what was written is read back as the same edit; reading
    ends for every record. *)
Theorem version_edit_roundtrip (e : VersionEdit) :
  edit_ok e →
  (NoDup (touched e) → ∃ out, VersionEdit_serialize e = inr out ∧ parse_edit out = Done (inr e)) ∧
  (¬ NoDup (touched e) → ∃ err, VersionEdit_serialize e = inl err) ∧
  (∀ record, ∃ r, parse_edit record = Done r).
Proof.
  intros Hok. split_and!; [by apply edit_roundtrip| |].
  - intros Hd. destruct (VersionEdit_serialize e) as [err|out] eqn:Hs; [by exists err|]. by apply serialize_inv in Hs.
  - intros record. by apply parse_edit_loop_ends.
Qed.

(** An edit with a number, a deleted and two new files. *)
Definition sample_edit : VersionEdit :=
  mkVersionEdit (Some (literal "leveldb.BytewiseComparator"%string)) (Some 7) None (Some 100)
    [mkNewFileEntry 1 8 300 [1; 2] [5] (Some (3, 90)); mkNewFileEntry 0 9 2 [6] [7] None]
    [mkDeletedFileEntry 0 5] (Some 10) None.

Lemma sample_edit_ok : edit_ok sample_edit.
Proof.
  split; [split; by vm_compute|split; cbn; lia|done|split; cbn; lia..|done| |].
  - apply Forall_cons; split; [|apply Forall_singleton]; split; unfold u64, slice_ok; cbn; lia.
  - apply Forall_singleton. unfold u64. cbn. lia.
Qed.

Lemma version_edit_roundtrip_witness :
  (∃ out, VersionEdit_serialize sample_edit = inr out ∧ parse_edit out = Done (inr sample_edit)) ∧
  ∃ r, parse_edit [7; 1] = Done r.
Proof.
  destruct (version_edit_roundtrip sample_edit sample_edit_ok) as (H1 & _ & H3). split; [|apply H3].
  apply H1. apply (bool_decide_eq_true_1 _). vm_compute. done.
Defined.
