(* ===== verification/Version.v ===== *)
(** * Versions of a database

    src/pkg/sstable/src/db/version.rs: the tables of each level ([Version]),
    the state that the manifest records ([VersionSet]), its recovery from the
    manifest, the level of a new table and the choice of tables to compact.
    The callbacks at the release of a table are not part of the state. *)

From S2P Require Import Prelude Wire Encoding Comparator DataBlock Filter Table RecordLog VersionEdit.

(** [SliceLike for &[T]] *)
#[export] Instance list_slice_like {A} : SliceLike (list A) A := {
  sl_len l := length l;
  sl_index l i := l !! i;
  sl_slice l start end_ :=
    if (start <=? end_)%nat && (end_ <=? length l)%nat then Some (take (end_ - start) (drop start l)) else None;
  sl_slice_from l start := if (start <=? length l)%nat then Some (drop start l) else None;
}.

(** [lower_bound_by] on a slice; the test may panic. *)
Definition lower_bound_list {A} (l : list A) (greater_eq : A → option bool) : run (option nat) :=
  lower_bound_slice (length l) greater_eq l 0 None.

(** The options of src/pkg/sstable/src/db/options.rs that versions depend on,
    and the name of the comparator. *)
Record EmbeddedDBOptions := mkEmbeddedDBOptions {
  do_max_memtable_level : nat;
  do_level0_file_num_compaction_trigger : nat;
  do_target_file_size_base : Z;
  do_target_file_size_multiplier : Z;
  do_max_bytes_for_level_base : Z;
  do_max_bytes_for_level_multiplier : Z;
  do_comparator : KeyComparator;
  do_comparator_name : bytes;
}.

(** [base * multiplier.pow(exp)] on u64 *)
Definition u64_mul_pow (base multiplier : Z) (exp : nat) : option Z :=
  let p := multiplier ^ Z.of_nat exp in
  if U64_MAX <? p then None else if U64_MAX <? base * p then None else Some (base * p).

(** [Ordering::is_le] *)
Definition is_le (c : comparison) : bool := match c with Gt => false | _ => true end.

(** ** Key ranges *)

Record KeyRangeRef := mkKeyRangeRef { kr_smallest : bytes; kr_largest : bytes }.

Definition overlaps_with (kc : KeyComparator) (self other : KeyRangeRef) : option bool :=
  c ← kc_compare kc (kr_smallest self) (kr_smallest other);
  match c with
  | Eq => Some true
  | Lt => is_ge <$> kc_compare kc (kr_largest self) (kr_smallest other)
  | Gt => is_le <$> kc_compare kc (kr_smallest self) (kr_largest other)
  end.

Definition range_union (kc : KeyComparator) (self other : KeyRangeRef) : option KeyRangeRef :=
  c ← kc_compare kc (kr_smallest self) (kr_smallest other);
  let smallest := if is_le c then kr_smallest self else kr_smallest other in
  d ← kc_compare kc (kr_largest self) (kr_largest other);
  let largest := if is_ge d then kr_largest self else kr_largest other in
  Some (mkKeyRangeRef smallest largest).

(** A [for] loop that stops at the first element that passes the test. *)
Fixpoint any {A} (f : A → option bool) (l : list A) : option bool :=
  match l with
  | [] => Some false
  | x :: l => match f x with Some false => any f l | r => r end
  end.

(** ** Versions *)

Section Version.
(** [SSTable], a table that is open. *)
Context {T : Type} (options : EmbeddedDBOptions).

Record LevelTableEntry := mkLevelTableEntry { lt_table : option T; lt_entry : NewFileEntry }.

Record Level := mkLevel {
  lv_total_size : Z;
  lv_max_size : Z;
  lv_target_file_size : Z;
  lv_tables : list LevelTableEntry;
}.

Record Version := mkVersion { levels : list Level }.

Definition Version_new : Version := mkVersion [].

Definition key_range (t : LevelTableEntry) : KeyRangeRef :=
  mkKeyRangeRef (nf_smallest_key (lt_entry t)) (nf_largest_key (lt_entry t)).

Definition set_tables (tables : list LevelTableEntry) (l : Level) : Level :=
  mkLevel (lv_total_size l) (lv_max_size l) (lv_target_file_size l) tables.
Definition set_level (n : nat) (l : Level) (v : Version) : Version := mkVersion (<[n := l]> (levels v)).
Definition push_level (l : Level) (v : Version) : Version := mkVersion (levels v ++ [l]).

(** A level with a number, without tables. *)
Definition new_level (number : nat) : option Level :=
  match number with
  | O => Some (mkLevel 0 0 0 [])
  | S n =>
    max_size ← u64_mul_pow (do_max_bytes_for_level_base options) (do_max_bytes_for_level_multiplier options) n;
    target_file_size ← u64_mul_pow (do_target_file_size_base options) (do_target_file_size_multiplier options) n;
    Some (mkLevel 0 max_size target_file_size [])
  end.

(** The loop of [insert] that adds [n] levels. *)
Fixpoint grow_levels (n : nat) : M Version unit :=
  match n with
  | O => ret tt
  | S n =>
    let! v := gets id in
    let! l := unwrap (new_level (length (levels v))) in
    modify (push_level l) ;!
    grow_levels n
  end.

(** [Vec::insert] *)
Definition vec_insert {A} (i : nat) (x : A) (l : list A) : list A := take i l ++ x :: drop i l.

Definition Version_insert (entry : NewFileEntry) (table : option T) : M Version unit :=
  let number := Z.to_nat (nf_level entry) in
  let! v := gets id in
  grow_levels (S number - length (levels v)) ;!
  let! v := gets id in
  let! level := unwrap (levels v !! number) in
  if (number =? 0)%nat then
    modify (set_level 0 (set_tables (lv_tables level ++ [mkLevelTableEntry table entry]) level))
  else
    let! idx := lift_run (lower_bound_list (lv_tables level)
      (λ e1, is_ge <$> NewFileEntry_compare (do_comparator options) (lt_entry e1) entry)) in
    let idx := default (length (lv_tables level)) idx in
    modify (set_level number (set_tables (vec_insert idx (mkLevelTableEntry table entry) (lv_tables level)) level)).

(** [iter().position(..)] *)
Definition position (number : Z) (tables : list LevelTableEntry) : option nat :=
  fst <$> list_find (λ e, nf_number (lt_entry e) = number) tables.

(** [Vec::remove] *)
Definition vec_remove {A} (i : nat) (l : list A) : list A := take i l ++ drop (S i) l.

Definition Version_remove (entry : DeletedFileEntry) : M Version bool :=
  let number := Z.to_nat (df_level entry) in
  let! v := gets id in
  let! level := unwrap (levels v !! number) in
  match position (df_number entry) (lv_tables level) with
  | Some idx =>
    modify (set_level number (set_tables (vec_remove idx (lv_tables level)) level)) ;! ret true
  | None => ret false
  end.

(** ** The version set *)

Record VersionSet := mkVersionSet {
  vs_latest_version : Version;
  vs_next_file_number : Z;
  vs_log_number : option Z;
  vs_prev_log_number : option Z;
  vs_last_sequence : Z;
  vs_compaction_waterline : option Z;
}.

Definition VersionSet_new : VersionSet := mkVersionSet Version_new 2 None None 0 None.

Definition to_version_edit (exclude_logs : bool) (s : VersionSet) : VersionEdit :=
  mkVersionEdit
    (Some (do_comparator_name options))
    (if exclude_logs then None else vs_log_number s)
    (if exclude_logs then None else vs_prev_log_number s)
    (Some (vs_last_sequence s))
    (concat ((λ level, lt_entry <$> lv_tables level) <$> levels (vs_latest_version s)))
    []
    (Some (vs_next_file_number s))
    (vs_compaction_waterline s).

(** [write_to_new]: the log with the edit. *)
Definition write_to_new (exclude_logs : bool) (s : VersionSet) : M RecordWriter (Result unit) :=
  try! out := ret (VersionEdit_serialize (to_version_edit exclude_logs s)) in
  append out ;!
  ret (inr tt).

Definition set_latest_version (v : Version) (s : VersionSet) : VersionSet :=
  mkVersionSet v (vs_next_file_number s) (vs_log_number s) (vs_prev_log_number s) (vs_last_sequence s)
    (vs_compaction_waterline s).

(** Run an operation of [latest_version]. *)
Definition on_version {A} (m : M Version A) : M VersionSet A := λ s,
  match m (vs_latest_version s) with
  | Done (a, v) => Done (a, set_latest_version v s)
  | Panicked => Panicked
  | OutOfFuel => OutOfFuel
  end.

(** The value of a previous log number in an edit: 0 stands for none. *)
Definition prev_log (n : Z) : option Z := if n =? 0 then None else Some n.

Definition apply_new_edit (edit : VersionEdit) (new_tables : list T) : M VersionSet unit :=
  let! s := gets id in
  let last_sequence := default (vs_last_sequence s) (ve_last_sequence edit) in
  assert (vs_last_sequence s <=? last_sequence) ;!
  let next_file_number := default (vs_next_file_number s) (ve_next_file_number edit) in
  assert (vs_next_file_number s <=? next_file_number) ;!
  modify (λ s, mkVersionSet (vs_latest_version s) next_file_number
    match ve_log_number edit with Some n => Some n | None => vs_log_number s end
    match ve_prev_log_number edit with Some n => prev_log n | None => vs_prev_log_number s end
    last_sequence
    match ve_compaction_waterline edit with Some n => Some n | None => vs_compaction_waterline s end) ;!
  for_each (ve_deleted_files edit) (λ entry,
    let! removed := on_version (Version_remove entry) in
    assert removed) ;!
  for_each (zip (ve_new_files edit) new_tables) (λ et, on_version (Version_insert et.1 (Some et.2))).

(** ** Recovery *)

(** The errors of [recover_existing]. *)
Inductive RecoverError :=
| RRead (e : RecordReadError + ParseError)
| RComparatorChanged
| RComparatorMismatch
| RInvalidLogNumber
| RLogNumberDecreased
| RLogNumberTooSmall
| RSequenceDecreased
| RNextFileDecreased
| RNoSuchFile
| RFileNumberTooSmall
| RNoComparator
| RMissingNextFile
| RNextFileTooSmall.

(** The variables [version], [base_edit] and [highest_file_number_seen]. *)
Record Recovery := mkRecovery {
  rc_version : Version;
  rc_base_edit : VersionEdit;
  rc_highest : Z;
}.

Definition rc_set_base (f : VersionEdit → VersionEdit) (r : Recovery) : Recovery :=
  mkRecovery (rc_version r) (f (rc_base_edit r)) (rc_highest r).
Definition rc_set_highest (n : Z) (r : Recovery) : Recovery := mkRecovery (rc_version r) (rc_base_edit r) n.

Definition on_rc_version {A} (m : M Version A) : M Recovery A := λ r,
  match m (rc_version r) with
  | Done (a, v) => Done (a, mkRecovery v (rc_base_edit r) (rc_highest r))
  | Panicked => Panicked
  | OutOfFuel => OutOfFuel
  end.

Abbreviation R := (RecoverError + unit)%type.

Definition recover_comparator (edit : VersionEdit) : M Recovery R :=
  match ve_comparator edit with
  | None => ret (inr tt)
  | Some name =>
    let! r := gets id in
    if bool_decide (is_Some (ve_comparator (rc_base_edit r))) then ret (inl RComparatorChanged) else
    if bool_decide (do_comparator_name options ≠ name) then ret (inl RComparatorMismatch) else
    modify (rc_set_base (set_comparator name)) ;! ret (inr tt)
  end.

Definition recover_log_number (edit : VersionEdit) : M Recovery R :=
  match ve_log_number edit with
  | None => ret (inr tt)
  | Some log_number =>
    let! r := gets id in
    if log_number <? 2 then ret (inl RInvalidLogNumber) else
    if match ve_log_number (rc_base_edit r) with Some base => log_number <? base | None => false end
    then ret (inl RLogNumberDecreased) else
    if log_number <? rc_highest r then ret (inl RLogNumberTooSmall) else
    modify (rc_set_base (set_log_number log_number)) ;! ret (inr tt)
  end.

Definition recover_prev_log_number (edit : VersionEdit) : M Recovery R :=
  match ve_prev_log_number edit with
  | None => ret (inr tt)
  | Some n => modify (rc_set_base (set_prev_log_number (prev_log n))) ;! ret (inr tt)
  end.

Definition recover_last_sequence (edit : VersionEdit) : M Recovery R :=
  match ve_last_sequence edit with
  | None => ret (inr tt)
  | Some last_sequence =>
    let! r := gets id in
    if match ve_last_sequence (rc_base_edit r) with Some base => last_sequence <? base | None => false end
    then ret (inl RSequenceDecreased) else
    modify (rc_set_base (set_last_sequence last_sequence)) ;! ret (inr tt)
  end.

Definition recover_next_file_number (edit : VersionEdit) : M Recovery R :=
  match ve_next_file_number edit with
  | None => ret (inr tt)
  | Some next_file_number =>
    let! r := gets id in
    if match ve_next_file_number (rc_base_edit r) with Some base => next_file_number <? base | None => false end
    then ret (inl RNextFileDecreased) else
    modify (rc_set_base (set_next_file_number next_file_number)) ;! ret (inr tt)
  end.

Definition recover_waterline (edit : VersionEdit) : M Recovery R :=
  match ve_compaction_waterline edit with
  | None => ret (inr tt)
  | Some num => modify (rc_set_base (set_waterline num)) ;! ret (inr tt)
  end.

Fixpoint recover_deleted (files : list DeletedFileEntry) : M Recovery R :=
  match files with
  | [] => ret (inr tt)
  | file :: files =>
    let! removed := on_rc_version (Version_remove file) in
    if negb removed then ret (inl RNoSuchFile) else recover_deleted files
  end.

(** [sort_by_key(|f| f.number)], a stable sort *)
Fixpoint insert_by_number (f : NewFileEntry) (l : list NewFileEntry) : list NewFileEntry :=
  match l with
  | [] => [f]
  | g :: l' => if nf_number f <=? nf_number g then f :: l else g :: insert_by_number f l'
  end.
Definition sort_by_number (l : list NewFileEntry) : list NewFileEntry := foldr insert_by_number [] l.

Fixpoint recover_new (files : list NewFileEntry) : M Recovery R :=
  match files with
  | [] => ret (inr tt)
  | file :: files =>
    let! r := gets id in
    if nf_number file <=? rc_highest r then ret (inl RFileNumberTooSmall) else
    modify (rc_set_highest (nf_number file)) ;!
    if bool_decide (ve_comparator (rc_base_edit r) = None) then ret (inl RNoComparator) else
    on_rc_version (Version_insert file None) ;!
    recover_new files
  end.

(** A round of the loop of [recover_existing]. *)
Definition recover_edit (edit : VersionEdit) : M Recovery R :=
  try! _ := recover_comparator edit in
  try! _ := recover_log_number edit in
  try! _ := recover_prev_log_number edit in
  try! _ := recover_last_sequence edit in
  try! _ := recover_next_file_number edit in
  try! _ := recover_waterline edit in
  try! _ := recover_deleted (ve_deleted_files edit) in
  try! _ := recover_new (sort_by_number (ve_new_files edit)) in
  modify (λ r, rc_set_highest
    match ve_log_number (rc_base_edit r) with Some n => Z.max (rc_highest r) n | None => rc_highest r end r) ;!
  ret (inr tt).

Definition recover_finish (r : Recovery) : RecoverError + VersionSet :=
  let base_edit := rc_base_edit r in
  match ve_next_file_number base_edit with
  | None => inl RMissingNextFile
  | Some next_file_number =>
    if next_file_number <=? rc_highest r then inl RNextFileTooSmall else
    inr (mkVersionSet (rc_version r) next_file_number (ve_log_number base_edit) (ve_prev_log_number base_edit)
      (default 0 (ve_last_sequence base_edit)) (ve_compaction_waterline base_edit))
  end.

(** The loop of [recover_existing] over a manifest with the given contents;
    every round reads a record. *)
Fixpoint recover_loop (fuel : nat) (file : bytes) (reader : RecordReader) (r : Recovery)
    : run ((RecoverError + VersionSet) * RecordReader) :=
  match VersionEdit_read file reader with
  | Done (inl e, reader) => Done (inl (RRead e), reader)
  | Done (inr None, reader) => Done (recover_finish r, reader)
  | Done (inr (Some edit), reader) =>
    match recover_edit edit r with
    | Done (inl e, _) => Done (inl e, reader)
    | Done (inr _, r) =>
      match fuel with
      | O => OutOfFuel
      | S fuel => recover_loop fuel file reader r
      end
    | Panicked => Panicked
    | OutOfFuel => OutOfFuel
    end
  | Panicked => Panicked
  | OutOfFuel => OutOfFuel
  end.

Definition recover_existing (fuel : nat) (file : bytes) : M RecordReader (RecoverError + VersionSet) := λ reader,
  recover_loop fuel file reader (mkRecovery Version_new VersionEdit_default 0).

(** ** Levels of new tables *)

Definition target_file_size (level : nat) : option Z :=
  u64_mul_pow (do_target_file_size_base options) (do_target_file_size_multiplier options) (Nat.max level 1 - 1).

Record SelectedMemtableLevel := mkSelectedMemtableLevel { sm_level : nat; sm_found_overlap : bool }.

(** The loop of [pick_memtable_level] from a level on: [highest_level] and
    [found_overlap]. *)
Fixpoint pick_loop (range : KeyRangeRef) (ls : list Level) (level highest_level : nat) : option (nat * bool) :=
  match ls with
  | [] => Some (highest_level, false)
  | l :: ls =>
    match any (λ table, overlaps_with (do_comparator options) range (key_range table)) (lv_tables l) with
    | Some true => Some (highest_level, true)
    | Some false => pick_loop range ls (S level) level
    | None => None
    end
  end.

Definition pick_memtable_level (s : VersionSet) (range : KeyRangeRef) : option SelectedMemtableLevel :=
  '(highest_level, found_overlap) ← pick_loop range (levels (vs_latest_version s)) 0 0;
  let highest_level :=
    if negb found_overlap && (highest_level <? do_max_memtable_level options)%nat
    then do_max_memtable_level options else highest_level in
  Some (mkSelectedMemtableLevel (Nat.min (do_max_memtable_level options) highest_level) found_overlap).

(** ** Tables to compact *)

Record CompactionSpec := mkCompactionSpec {
  cp_level : nat;
  cp_tables : list LevelTableEntry;
  cp_next_level : nat;
  cp_next_level_tables : list LevelTableEntry;
  cp_found_overlap : bool;
}.

Definition find_overlapping_tables (s : VersionSet) (first_level : nat) (range : KeyRangeRef) : option bool :=
  any (λ l, any (λ table, overlaps_with (do_comparator options) (key_range table) range) (lv_tables l))
    (drop first_level (levels (vs_latest_version s))).

(** The loop over [i], [j] and [new_total_size]; each round moves [j] or [i]. *)
Fixpoint widen_loop (fuel : nat) (tables : list LevelTableEntry) (max_size : Z) (i j : nat) (new_total_size : Z)
    : run (nat * nat) :=
  if max_size <? new_total_size then
    match fuel with
    | O => OutOfFuel
    | S fuel =>
      if (j <? length tables)%nat then
        match tables !! j with
        | Some t =>
          let size := nf_file_size (lt_entry t) in
          if new_total_size <? size then Panicked
          else widen_loop fuel tables max_size i (S j) (new_total_size - size)
        | None => Panicked
        end
      else if (0 <? i)%nat then
        match tables !! j with
        | Some t =>
          let size := nf_file_size (lt_entry t) in
          if new_total_size <? size then Panicked
          else widen_loop fuel tables max_size (i - 1) j (new_total_size - size)
        | None => Panicked
        end
      else Done (i, j)
    end
  else Done (i, j).

(** The first level from [n] on that is over its limit. *)
Fixpoint level_over_limit (ls : list Level) (n : nat) : option nat :=
  match ls with
  | [] => None
  | l :: ls => if lv_max_size l <? lv_total_size l then Some n else level_over_limit ls (S n)
  end.

(** The level to compact and its tables; [rng] is a random number. *)
Definition select_level (rng : Z) (s : VersionSet) : run (option (nat * list LevelTableEntry)) :=
  let ls := levels (vs_latest_version s) in
  match ls with
  | level0 :: _ :: _ =>
    if (do_level0_file_num_compaction_trigger options <=? length (lv_tables level0))%nat
    then Done (Some (0%nat, lv_tables level0)) else
    match level_over_limit (drop 1 ls) 1 with
    | None => Done None
    | Some n =>
      match ls !! n with
      | None => Panicked
      | Some level =>
        let tables := lv_tables level in
        match tables with
        | [] => Panicked
        | _ :: _ =>
          let i := (Z.to_nat rng mod length tables)%nat in
          match widen_loop (2 * length tables) tables (lv_max_size level) i i (lv_total_size level) with
          | Done (i, j) => Done (Some (n, take (j - i) (drop i tables)))
          | Panicked => Panicked
          | OutOfFuel => OutOfFuel
          end
        end
      end
    end
  | _ => Done None
  end.

(** The union of the key ranges of tables. *)
Fixpoint union_ranges (range : KeyRangeRef) (tables : list LevelTableEntry) : option KeyRangeRef :=
  match tables with
  | [] => Some range
  | t :: tables => range ← range_union (do_comparator options) range (key_range t); union_ranges range tables
  end.

(** The loop that drops tables from both ends of the next level; each round
    drops one. *)
Fixpoint trim_tables (fuel : nat) (range : KeyRangeRef) (tables : list LevelTableEntry) : run (list LevelTableEntry) :=
  match head tables, last tables with
  | Some first, Some last =>
    match fuel with
    | O => OutOfFuel
    | S fuel =>
      match overlaps_with (do_comparator options) (key_range first) range with
      | None => Panicked
      | Some false => trim_tables fuel range (drop 1 tables)
      | Some true =>
        match overlaps_with (do_comparator options) (key_range last) range with
        | None => Panicked
        | Some false => trim_tables fuel range (take (length tables - 1) tables)
        | Some true => Done tables
        end
      end
    end
  | _, _ => Done tables
  end.

Definition select_tables_to_compaction (rng : Z) (s : VersionSet) : run (option CompactionSpec) :=
  match select_level rng s with
  | Done None => Done None
  | Done (Some (level_num, tables)) =>
    match tables with
    | [] => Panicked
    | first :: rest =>
      match union_ranges (key_range first) rest with
      | None => Panicked
      | Some range =>
        let next_level := S level_num in
        let next := from_option lv_tables [] (levels (vs_latest_version s) !! next_level) in
        match trim_tables (length next) range next with
        | Done next_level_tables =>
          match find_overlapping_tables s (S next_level) range with
          | Some found_overlap => Done (Some (mkCompactionSpec level_num tables next_level next_level_tables found_overlap))
          | None => Panicked
          end
        | Panicked => Panicked
        | OutOfFuel => OutOfFuel
        end
      end
    end
  | Panicked => Panicked
  | OutOfFuel => OutOfFuel
  end.
End Version.

Arguments LevelTableEntry : clear implicits.
Arguments Level : clear implicits.
Arguments Version : clear implicits.
Arguments VersionSet : clear implicits.
Arguments CompactionSpec : clear implicits.
Arguments Recovery : clear implicits.
