(* ===== verification/VersionProofs.v ===== *)
(** * Versions against lists of files per level

    A version is represented by the list of the files of each level. What
    [Version::insert] and [Version::remove] do to a version is described on
    these lists; applying an edit in memory and recovering it from the
    manifest are shown to do the same to them. *)

From S2P Require Import Prelude Wire Encoding Algorithms Comparator DataBlock Filter Table RecordLog RecordLogProofs.
From S2P Require Import VersionEdit VersionEditTheorems Version.

(** ** Binary search on a slice *)

Lemma lower_bound_slice_list {A} (ge : A → option bool) (p : A → bool) fuel : ∀ l offset best,
  (length l <= fuel)%nat → (∀ x, x ∈ l → ge x = Some (p x)) →
  lower_bound_slice fuel ge l offset best = Done (lower_bound_loop (S fuel) p l offset best).
Proof.
  induction fuel as [|fuel IH]; intros l offset best Hl Hp.
  { destruct l; [done|cbn in Hl; lia]. }
  cbn [lower_bound_slice lower_bound_loop sl_len list_slice_like].
  destruct (Nat.eqb_spec (length l) 0) as [E|E]; [done|].
  pose proof (Nat.div_lt (length l) 2 ltac:(lia) ltac:(lia)) as Hmid. set (mid := (length l / 2)%nat) in *.
  destruct (lookup_lt_is_Some_2 l mid Hmid) as [x Hx]. cbn [sl_index list_slice_like]. rewrite Hx. cbn [mbind option_bind].
  rewrite (Hp x) by (by eapply list_elem_of_lookup_2). destruct (p x); cbn [sl_slice sl_slice_from list_slice_like].
  - cbn [Nat.leb andb]. rewrite (proj2 (Nat.leb_le _ _)) by lia. rewrite Nat.sub_0_r, drop_0.
    apply IH; [rewrite length_take; lia|]. intros y Hy. apply Hp. apply elem_of_take in Hy as (i & Hi & _). by eapply list_elem_of_lookup_2.
  - rewrite (proj2 (Nat.leb_le _ _)) by lia. apply IH; [rewrite length_drop; lia|].
    intros y Hy. apply Hp. apply list_elem_of_lookup in Hy as [i Hi]. rewrite lookup_drop in Hi. by eapply list_elem_of_lookup_2.
Qed.

Lemma lower_bound_list_spec {A} (ge : A → option bool) (p : A → bool) l n :
  (∀ x, x ∈ l → ge x = Some (p x)) → (n ≤ length l)%nat → holds_before (λ x, negb (p x)) n l →
  lower_bound_list l ge = Done (index_from n (length l)).
Proof.
  intros Hp Hn Hb. unfold lower_bound_list. rewrite (lower_bound_slice_list ge p) by done.
  f_equal. by apply (lower_bound_by_spec p l n).
Qed.

(** ** Files of a level *)

Section Files.
Context (options : EmbeddedDBOptions).
Abbreviation kc := (do_comparator options).
Context `{!KeyComparatorLaws kc}.

(** The order of the files of a level from 1 on. *)
Definition file_lt (a b : NewFileEntry) : Prop :=
  ¬ kc_le (nf_smallest_key b) (nf_smallest_key a) ∨
  (kc_le (nf_smallest_key a) (nf_smallest_key b) ∧ kc_le (nf_smallest_key b) (nf_smallest_key a) ∧
   nf_number a < nf_number b).

#[global] Instance file_lt_dec : RelDecision file_lt.
Proof. unfold RelDecision, file_lt. intros a b. apply _. Defined.

#[global] Instance file_lt_trans : Transitive file_lt.
Proof.
  intros a b c. unfold file_lt. intros [H1|(H1 & H1' & H1'')] [H2|(H2 & H2' & H2'')].
  - left. intros H. destruct (kc_le_total (nf_smallest_key a) (nf_smallest_key b)) as [Hab|Hab]; [|done].
    destruct (kc_le_total (nf_smallest_key b) (nf_smallest_key c)) as [Hbc|Hbc]; [|done]. apply H2. by etrans.
  - left. intros H. apply H1. by etrans.
  - left. intros H. apply H2. by etrans.
  - right. split_and!; [by etrans..|lia].
Qed.

Lemma file_lt_irrefl a : ¬ file_lt a a.
Proof. unfold file_lt. intros [H|H]; [by apply H|lia]. Qed.

Lemma file_lt_total a b : nf_number a ≠ nf_number b → file_lt a b ∨ file_lt b a.
Proof.
  intros Hn. unfold file_lt.
  destruct (decide (kc_le (nf_smallest_key a) (nf_smallest_key b))), (decide (kc_le (nf_smallest_key b) (nf_smallest_key a))); try tauto.
  destruct (decide (nf_number a < nf_number b)); [tauto|]. assert (nf_number b < nf_number a) by lia. tauto.
Qed.

Definition file_keys (f : NewFileEntry) : Prop := kc_key (nf_smallest_key f) ∧ kc_key (nf_largest_key f).

Lemma file_compare_spec a b :
  file_keys a → file_keys b → nf_level a = nf_level b →
  ∃ o, NewFileEntry_compare kc a b = Some o ∧ is_ge o = bool_decide (¬ file_lt a b).
Proof.
  intros [Ha _] [Hb _] Hl. unfold NewFileEntry_compare. rewrite Hl, Z.compare_refl.
  destruct (kc_compare_spec _ _ Ha Hb) as (o & Ho & Hspec). rewrite Ho. unfold file_lt. destruct o.
  - destruct Hspec. eexists. split; [done|]. destruct (Z.compare_spec (nf_number a) (nf_number b)); cbn; symmetry.
    + apply bool_decide_eq_true. intros [?|?]; [done|lia].
    + apply bool_decide_eq_false. tauto.
    + apply bool_decide_eq_true. intros [?|?]; [done|lia].
  - eexists. split; [done|]. cbn. symmetry. apply bool_decide_eq_false. tauto.
  - eexists. split; [done|]. cbn. symmetry. apply bool_decide_eq_true. intros [H|(H & _)]; [|done].
    destruct (kc_le_total (nf_smallest_key a) (nf_smallest_key b)); done.
Qed.

(** Where a file is inserted. *)
Definition insert_file (n : nat) (f : NewFileEntry) (l : list NewFileEntry) : list NewFileEntry :=
  match n with
  | O => l ++ [f]
  | S _ => vec_insert (length (filter (λ g, file_lt g f) l)) f l
  end.

(** The order of the files of a level. *)
Definition level_lt (n : nat) (a b : NewFileEntry) : Prop :=
  match n with O => nf_number a < nf_number b | S _ => file_lt a b end.

Lemma sorted_prefix {A} (R : relation A) `{!RelDecision R, !Transitive R} l x i y :
  StronglySorted R l → l !! i = Some y → R y x ↔ (i < length (filter (λ z, R z x) l))%nat.
Proof.
  intros Hs. revert i y. induction Hs as [|z l _ IH Hz]; intros [|i] y; cbn [lookup list_lookup]; try done.
  - intros [= ->]. rewrite filter_cons. destruct (decide (R y x)) as [|Hn]; cbn; [split; [lia|done]|].
    split; [done|]. rewrite filter_none; [cbn; lia|]. rewrite Forall_forall in Hz |- *. intros w Hw Hwx.
    apply Hn. by etrans; [apply Hz|].
  - intros Hi. rewrite filter_cons. destruct (decide (R z x)) as [|Hn]; cbn; [rewrite IH by done; lia|].
    rewrite (filter_none _ l); [cbn; split; [|lia]|].
    + intros Hyx. destruct Hn. rewrite Forall_forall in Hz. etrans; [apply Hz; by eapply list_elem_of_lookup_2|done].
    + rewrite Forall_forall in Hz |- *. intros w Hw Hwx. apply Hn. by etrans; [apply Hz|].
Qed.

Lemma vec_insert_sorted n f l :
  StronglySorted (level_lt n) l → Forall (λ g, nf_number g ≠ nf_number f) l → (n = 0%nat → Forall (λ g, nf_number g < nf_number f) l) →
  StronglySorted (level_lt n) (insert_file n f l).
Proof.
  intros Hs Hne H0. destruct n as [|n]; cbn [insert_file level_lt] in *.
  - rewrite <- (app_nil_r (l ++ [f])), <- (assoc_L (++)). apply sorted_insert; [by rewrite app_nil_r|auto|done].
  - unfold vec_insert. apply sorted_insert; [by rewrite take_drop| |]; apply Forall_lookup; intros i g Hi.
    + apply lookup_take_Some in Hi as [Hi Hlt]. by apply (sorted_prefix file_lt l f i g).
    + rewrite lookup_drop in Hi. destruct (file_lt_total g f) as [H|H]; [|exfalso|done].
      * rewrite Forall_lookup in Hne. by eapply Hne.
      * apply (sorted_prefix file_lt l f _ g Hs Hi) in H. lia.
Qed.

(** ** Versions as lists of files *)

Context {T : Type}.
Implicit Types (v : Version T) (A : nat → list NewFileEntry).

(** The files of a level. *)
Definition files v (n : nat) : list NewFileEntry := lt_entry <$> from_option lv_tables [] (levels v !! n).

Definition no_tables (l : Level T) : Level T := set_tables [] l.

(** The files of the levels are the lists of [A], which are sorted and of
    their level, and the sizes of the levels are those they were made with. *)
Record holds v A : Prop := {
  ho_files : ∀ n, files v n = A n;
  ho_levels : ∀ n l, levels v !! n = Some l → new_level options n = Some (no_tables l);
  ho_sorted : ∀ n, StronglySorted (level_lt n) (A n);
  ho_keys : ∀ n, Forall (λ f, nf_level f = Z.of_nat n ∧ file_keys f) (A n);
}.

Definition level_of (f : NewFileEntry) : nat := Z.to_nat (nf_level f).

Definition abs_insert (f : NewFileEntry) A : nat → list NewFileEntry :=
  λ n, if decide (n = level_of f) then insert_file n f (A n) else A n.

(** The files without the first one with a number. *)
Definition remove_file (number : Z) (l : list NewFileEntry) : list NewFileEntry :=
  match list_find (λ f, nf_number f = number) l with Some (i, _) => vec_remove i l | None => l end.

Definition abs_remove (d : DeletedFileEntry) A : nat → list NewFileEntry :=
  λ n, if decide (n = Z.to_nat (df_level d)) then remove_file (df_number d) (A n) else A n.

(** A level can be made with its sizes. *)
Definition level_fits (n : nat) : Prop := ∀ m, (m ≤ n)%nat → is_Some (new_level (T := T) options m).

Lemma holds_ext v A B : holds v A → (∀ n, A n = B n) → holds v B.
Proof. intros [H1 H2 H3 H4] HAB. split; [intros n; by rewrite <- HAB|done|intros n; rewrite <- HAB; auto..]. Qed.

Lemma version_new_holds : holds Version_new (λ _, []).
Proof. split; try done; intros; constructor. Qed.

Lemma new_level_empty n (l : Level T) : new_level options n = Some l → lv_tables l = [] ∧ lv_total_size l = 0.
Proof. destruct n; unfold new_level; intros H; by simplify_option_eq. Qed.

Lemma grow_levels_spec k v A :
  holds v A → (∀ m, (length (levels v) ≤ m < length (levels v) + k)%nat → is_Some (new_level (T := T) options m)) →
  ∃ v', grow_levels options k v = Done (tt, v') ∧ holds v' A ∧ length (levels v') = (length (levels v) + k)%nat.
Proof.
  revert v. induction k as [|k IH]; intros v Hv Hfit; cbn [grow_levels].
  { exists v. split_and!; [done|done|lia]. }
  destruct (Hfit (length (levels v))) as [l Hl]; [lia|].
  pose proof (new_level_empty _ _ Hl) as [Hnil _].
  destruct (IH (push_level l v)) as (v' & Hrun & Hv' & Hlen).
  - destruct Hv as [H1 H2 H3 H4]. split; [|..|done|done].
    + intros n. rewrite <- H1. unfold files, push_level. cbn [levels].
      destruct (decide (n < length (levels v))%nat) as [|Hge]; [by rewrite lookup_app_l|].
      rewrite lookup_app_r by lia. rewrite (lookup_ge_None_2 (levels v)) by lia.
      destruct (n - length (levels v))%nat as [|i] eqn:E; cbn; [by rewrite Hnil|done].
    + cbn [levels push_level]. intros n l' [Hn|[-> <-]]%lookup_snoc_Some; [apply H2, Hn|].
      rewrite Hl. unfold no_tables, set_tables. destruct l; cbn in *. by subst.
  - cbn [levels push_level]. intros m Hm. rewrite length_app in Hm. cbn in Hm. apply Hfit. lia.
  - exists v'. split_and!; [|done|rewrite Hlen; cbn [levels push_level]; rewrite length_app; cbn; lia].
    unfold bind, gets, id. rewrite Hl. exact Hrun.
Qed.

Lemma files_set v n l m :
  (n < length (levels v))%nat →
  files (set_level n l v) m = if decide (m = n) then lt_entry <$> lv_tables l else files v m.
Proof.
  intros Hn. unfold files, set_level. cbn [levels]. destruct (decide (m = n)) as [->|Hne].
  - by rewrite list_lookup_insert_eq.
  - by rewrite list_lookup_insert_ne.
Qed.

Lemma holds_set v A n l tables B :
  holds v A → levels v !! n = Some l → (∀ m, m ≠ n → B m = A m) → B n = lt_entry <$> tables →
  StronglySorted (level_lt n) (B n) → Forall (λ f, nf_level f = Z.of_nat n ∧ file_keys f) (B n) →
  holds (set_level n (set_tables tables l) v) B.
Proof.
  intros [H1 H2 H3 H4] Hl HB HBn Hs Hk. pose proof (lookup_lt_Some _ _ _ Hl) as Hn. split.
  - intros m. rewrite files_set by done. destruct (decide (m = n)) as [->|Hne]; [done|by rewrite H1, HB].
  - intros m l'. unfold set_level. cbn [levels]. intros [(-> & <- & _)|[? Hm]]%list_lookup_insert_Some; [|auto].
    rewrite (H2 _ _ Hl). done.
  - intros m. destruct (decide (m = n)) as [->|Hne]; [done|by rewrite HB].
  - intros m. destruct (decide (m = n)) as [->|Hne]; [done|by rewrite HB].
Qed.

Lemma fmap_vec_insert {X Y} (g : X → Y) i x l : g <$> vec_insert i x l = vec_insert i (g x) (g <$> l).
Proof. unfold vec_insert. by rewrite fmap_app, fmap_cons, fmap_take, fmap_drop. Qed.

Lemma fmap_vec_remove {X Y} (g : X → Y) i l : g <$> vec_remove i l = vec_remove i (g <$> l).
Proof. unfold vec_remove. by rewrite fmap_app, fmap_take, fmap_drop. Qed.

(** The place of a file among the tables of a level. *)
Lemma insert_index (tables : list (LevelTableEntry T)) f n :
  StronglySorted file_lt (lt_entry <$> tables) → Forall (λ g, nf_level g = Z.of_nat n ∧ file_keys g) (lt_entry <$> tables) →
  file_keys f → nf_level f = Z.of_nat n →
  ∃ idx, lower_bound_list tables (λ e, is_ge <$> NewFileEntry_compare kc (lt_entry e) f) = Done idx ∧
    default (length tables) idx = length (filter (λ g, file_lt g f) (lt_entry <$> tables)).
Proof.
  intros Hs Hk Hf Hl. set (n0 := length (filter (λ g, file_lt g f) (lt_entry <$> tables))).
  assert (n0 ≤ length tables)%nat as Hle.
  { unfold n0. etrans; [apply length_filter|]. by rewrite length_fmap. }
  exists (index_from n0 (length tables)). split.
  - apply (lower_bound_list_spec _ (λ e, bool_decide (¬ file_lt (lt_entry e) f))); [|done|].
    + intros e He. rewrite Forall_fmap, Forall_forall in Hk. destruct (Hk e He) as [Hle' Hke].
      destruct (file_compare_spec (lt_entry e) f) as (o & -> & Ho); [done|done|cbn in *; congruence|]. cbn. by rewrite Ho.
    + intros i e Hi. assert ((lt_entry <$> tables) !! i = Some (lt_entry e)) as Hi' by (by rewrite list_lookup_fmap, Hi).
      pose proof (sorted_prefix file_lt _ f i _ Hs Hi') as Hiff. fold n0 in Hiff.
      apply eq_bool_prop_intro. rewrite negb_True, !bool_decide_spec. rewrite <- Hiff. split; [apply dec_stable|tauto].
  - unfold index_from. destruct (n0 <? length tables)%nat eqn:E; b2p; cbn; lia.
Qed.

Lemma insert_holds f t v A :
  holds v A → file_keys f → 0 ≤ nf_level f → level_fits (level_of f) →
  Forall (λ g, nf_number g ≠ nf_number f) (A (level_of f)) →
  (level_of f = 0%nat → Forall (λ g, nf_number g < nf_number f) (A 0%nat)) →
  ∃ v', Version_insert options f t v = Done (tt, v') ∧ holds v' (abs_insert f A).
Proof.
  intros Hv Hf Hl Hfit Hne H0. unfold Version_insert. fold (level_of f). set (n := level_of f) in *.
  destruct (grow_levels_spec (S n - length (levels v)) v A Hv) as (v1 & Hrun & Hv1 & Hlen).
  { intros m Hm. apply Hfit. lia. }
  destruct (lookup_lt_is_Some_2 (levels v1) n) as [l Hn]; [lia|].
  assert (lt_entry <$> lv_tables l = A n) as Htab by (rewrite <- (ho_files _ _ Hv1); unfold files; by rewrite Hn).
  assert (nf_level f = Z.of_nat n) as Hln by (unfold n, level_of; lia).
  unfold bind at 1, gets at 1, id at 1. unfold bind at 1. rewrite Hrun. unfold bind at 1, gets at 1, id at 1.
  unfold bind at 1. rewrite Hn. cbn [unwrap ret].
  assert (∀ tables, lt_entry <$> tables = insert_file n f (A n) →
    holds (set_level n (set_tables tables l) v1) (abs_insert f A)) as Hset.
  { intros tables Ht. unfold abs_insert. apply (holds_set v1 A n l); [done|done|..]; fold n.
    - intros m Hm. by rewrite decide_False.
    - by rewrite decide_True.
    - rewrite decide_True by done. apply vec_insert_sorted; [apply (ho_sorted _ _ Hv)|done|]. intros E. rewrite E. auto.
    - rewrite decide_True by done. pose proof (ho_keys _ _ Hv n) as Hk. unfold insert_file, vec_insert.
      destruct n; rewrite ?Forall_app, ?Forall_cons; split_and!; try done; [by apply Forall_take|by apply Forall_drop]. }
  destruct (Nat.eqb_spec n 0) as [E|E].
  - eexists. split; [done|]. rewrite E in Hset. apply Hset. rewrite fmap_app, Htab, E. done.
  - destruct n as [|n']; [done|]. pose proof (ho_sorted _ _ Hv1 (S n')) as Hs. cbn [level_lt] in Hs.
    destruct (insert_index (lv_tables l) f (S n')) as (idx & Hidx & Hdef);
      [by rewrite Htab|rewrite Htab; apply (ho_keys _ _ Hv1)|done|done|].
    unfold bind at 1, lift_run. rewrite Hidx. eexists. split; [done|]. apply Hset.
    by rewrite fmap_vec_insert, Hdef, Htab.
Qed.

Lemma position_files number (tables : list (LevelTableEntry T)) :
  position number tables = fst <$> list_find (λ f, nf_number f = number) (lt_entry <$> tables).
Proof.
  unfold position. induction tables as [|t tables IH]; cbn; [done|]. destruct (decide _); [done|].
  destruct (list_find (λ e : LevelTableEntry T, _) tables) as [[]|], (list_find (λ f, _) (lt_entry <$> tables)) as [[]|]; by cbn in *; simplify_eq.
Qed.

Lemma vec_remove_sorted {X} (R : relation X) i l : StronglySorted R l → StronglySorted R (vec_remove i l).
Proof.
  intros Hs. unfold vec_remove. apply StronglySorted_app. rewrite <- (take_drop i l) in Hs.
  apply StronglySorted_app in Hs as (H1 & H2 & H3). split_and!; [|done|].
  - intros x y Hx Hy. apply H1; [done|]. replace (S i) with (i + 1)%nat in Hy by lia. rewrite <- drop_drop in Hy.
    apply list_elem_of_lookup in Hy as [j Hj]. rewrite lookup_drop in Hj. by eapply list_elem_of_lookup_2.
  - replace (S i) with (i + 1)%nat by lia. rewrite <- drop_drop. destruct (drop i l) as [|x l']; [done|].
    cbn. rewrite drop_0. by apply StronglySorted_inv in H3 as [? _].
Qed.

Lemma remove_holds d v A :
  holds v A → (∃ f, f ∈ A (Z.to_nat (df_level d)) ∧ nf_number f = df_number d) →
  ∃ v', Version_remove d v = Done (true, v') ∧ holds v' (abs_remove d A).
Proof.
  intros Hv (f & Hf & Hnum). unfold Version_remove. set (n := Z.to_nat (df_level d)) in *.
  destruct (levels v !! n) as [l|] eqn:Hn.
  2:{ rewrite <- (ho_files _ _ Hv) in Hf. unfold files in Hf. rewrite Hn in Hf. by apply elem_of_nil in Hf. }
  assert (lt_entry <$> lv_tables l = A n) as Htab by (rewrite <- (ho_files _ _ Hv); unfold files; by rewrite Hn).
  unfold bind at 1, gets at 1, id at 1. unfold bind at 1. rewrite Hn. cbn [unwrap ret].
  rewrite position_files, Htab. destruct (list_find_elem_of (λ f, nf_number f = df_number d) _ f Hf Hnum) as [[i g] Hi].
  rewrite Hi. cbn [fmap option_fmap option_map fst]. eexists. split; [done|].
  assert (abs_remove d A n = vec_remove i (A n)) as Hrem.
  { unfold abs_remove. fold n. rewrite decide_True by done. unfold remove_file. by rewrite Hi. }
  apply (holds_set v A n l); [done|done|..].
  - intros m Hm. unfold abs_remove. fold n. by rewrite decide_False.
  - by rewrite Hrem, fmap_vec_remove, Htab.
  - rewrite Hrem. apply vec_remove_sorted, (ho_sorted _ _ Hv).
  - rewrite Hrem. pose proof (ho_keys _ _ Hv n). unfold vec_remove. apply Forall_app. split; [by apply Forall_take|by apply Forall_drop].
Qed.

(** ** Sequences of files *)

(** A file that can be inserted next, and files that can be inserted or
    removed one after the other. *)
Definition insert_ok (f : NewFileEntry) A : Prop :=
  file_keys f ∧ 0 ≤ nf_level f ∧ level_fits (level_of f) ∧
  Forall (λ g, nf_number g ≠ nf_number f) (A (level_of f)) ∧
  (level_of f = 0%nat → Forall (λ g, nf_number g < nf_number f) (A 0%nat)).

Fixpoint insertable (fs : list NewFileEntry) A : Prop :=
  match fs with [] => True | f :: fs => insert_ok f A ∧ insertable fs (abs_insert f A) end.

Fixpoint removable (ds : list DeletedFileEntry) A : Prop :=
  match ds with
  | [] => True
  | d :: ds => (∃ f, f ∈ A (Z.to_nat (df_level d)) ∧ nf_number f = df_number d) ∧ removable ds (abs_remove d A)
  end.

Definition abs_inserts (fs : list NewFileEntry) A : nat → list NewFileEntry := foldl (λ A f, abs_insert f A) A fs.
Definition abs_removes (ds : list DeletedFileEntry) A : nat → list NewFileEntry := foldl (λ A d, abs_remove d A) A ds.
Definition abs_edit (e : VersionEdit) A : nat → list NewFileEntry :=
  abs_inserts (ve_new_files e) (abs_removes (ve_deleted_files e) A).

(** The conditions only depend on the lists of the levels. *)
Definition same A B : Prop := ∀ n, A n = B n.

Lemma abs_insert_same f A B : same A B → same (abs_insert f A) (abs_insert f B).
Proof. intros H n. unfold abs_insert. by rewrite H. Qed.

Lemma insert_ok_same f A B : same A B → insert_ok f A → insert_ok f B.
Proof. unfold insert_ok, same. intros H. by rewrite !H. Qed.

Lemma inserts_same fs : ∀ A B, same A B → same (abs_inserts fs A) (abs_inserts fs B) ∧ (insertable fs A → insertable fs B).
Proof.
  induction fs as [|f fs IH]; intros A B H; [done|]. cbn.
  destruct (IH _ _ (abs_insert_same f A B H)) as [H1 H2]. split; [done|]. intros [Hf Hfs]. eauto using insert_ok_same.
Qed.

Lemma removes_same ds : ∀ A B, same A B → same (abs_removes ds A) (abs_removes ds B) ∧ (removable ds A → removable ds B).
Proof.
  induction ds as [|d ds IH]; intros A B H; [done|]. cbn.
  assert (same (abs_remove d A) (abs_remove d B)) as Hd by (intros n; unfold abs_remove; by rewrite H).
  destruct (IH _ _ Hd) as [H1 H2]. split; [done|]. rewrite H. tauto.
Qed.

(** In memory. *)
Lemma removes_memory ds : ∀ (s : VersionSet T) A,
  holds (vs_latest_version s) A → removable ds A →
  ∃ v', for_each ds (λ entry, let! removed := on_version (Version_remove entry) in assert removed) s =
    Done (tt, set_latest_version v' s) ∧ holds v' (abs_removes ds A).
Proof.
  induction ds as [|d ds IH]; intros s A Hs Hr; cbn [for_each].
  { exists (vs_latest_version s). split; [by destruct s|done]. }
  destruct Hr as [Hd Hr]. destruct (remove_holds d _ A Hs Hd) as (v1 & Hrun & Hv1).
  destruct (IH (set_latest_version v1 s) (abs_remove d A)) as (v' & Hrun' & Hv'); [done|done|].
  exists v'. split; [|done]. unfold bind at 1. unfold bind at 1, on_version at 1. rewrite Hrun. cbn [assert ret]. exact Hrun'.
Qed.

Lemma inserts_memory fs : ∀ ts (s : VersionSet T) A,
  length ts = length fs → holds (vs_latest_version s) A → insertable fs A →
  ∃ v', for_each (zip fs ts) (λ et, on_version (Version_insert options et.1 (Some et.2))) s =
    Done (tt, set_latest_version v' s) ∧ holds v' (abs_inserts fs A).
Proof.
  induction fs as [|f fs IH]; intros [|t ts] s A Hlen Hs Hr; cbn in Hlen; try lia; cbn [for_each zip zip_with].
  { exists (vs_latest_version s). split; [by destruct s|done]. }
  destruct Hr as [(H1 & H2 & H3 & H4 & H5) Hr].
  destruct (insert_holds f (Some t) _ A Hs H1 H2 H3 H4 H5) as (v1 & Hrun & Hv1).
  destruct (IH ts (set_latest_version v1 s) (abs_insert f A)) as (v' & Hrun' & Hv'); [lia|done|done|].
  exists v'. split; [|done]. unfold bind at 1, on_version at 1. cbn [fst snd]. rewrite Hrun. exact Hrun'.
Qed.

(** In the recovery. *)
Lemma removes_recovery ds : ∀ (r : Recovery T) A,
  holds (rc_version r) A → removable ds A →
  ∃ v', recover_deleted ds r = Done (inr tt, mkRecovery v' (rc_base_edit r) (rc_highest r)) ∧ holds v' (abs_removes ds A).
Proof.
  induction ds as [|d ds IH]; intros r A Hs Hr; cbn [recover_deleted].
  { exists (rc_version r). split; [by destruct r|done]. }
  destruct Hr as [Hd Hr]. destruct (remove_holds d _ A Hs Hd) as (v1 & Hrun & Hv1).
  destruct (IH (mkRecovery v1 (rc_base_edit r) (rc_highest r)) (abs_remove d A)) as (v' & Hrun' & Hv'); [done|done|].
  exists v'. split; [|done]. unfold bind at 1, on_rc_version at 1. rewrite Hrun. exact Hrun'.
Qed.

(** The largest number of files in ascending order. *)
Definition highest_of (fs : list NewFileEntry) (n : Z) : Z := from_option nf_number n (last fs).

Lemma inserts_recovery fs : ∀ (r : Recovery T) A,
  holds (rc_version r) A → insertable fs A → is_Some (ve_comparator (rc_base_edit r)) →
  StronglySorted (λ f g, nf_number f < nf_number g) fs → Forall (λ f, rc_highest r < nf_number f) fs →
  ∃ v', recover_new options fs r = Done (inr tt, mkRecovery v' (rc_base_edit r) (highest_of fs (rc_highest r))) ∧
    holds v' (abs_inserts fs A).
Proof.
  induction fs as [|f fs IH]; intros r A Hs Hr Hc Hsort Hn; cbn [recover_new].
  { exists (rc_version r). split; [by destruct r|done]. }
  destruct Hr as [(H1 & H2 & H3 & H4 & H5) Hr]. apply StronglySorted_inv in Hsort as [Hsort Hf].
  apply Forall_cons in Hn as [Hn _].
  destruct (insert_holds f None _ A Hs H1 H2 H3 H4 H5) as (v1 & Hrun & Hv1).
  destruct (IH (mkRecovery v1 (rc_base_edit r) (nf_number f)) (abs_insert f A)) as (v' & Hrun' & Hv'); [done..|].
  exists v'. split; [|done]. unfold bind at 1, gets at 1, id at 1. rewrite (proj2 (Z.leb_gt _ _)) by lia.
  unfold bind at 1, modify at 1. rewrite (bool_decide_eq_false_2 (ve_comparator (rc_base_edit r) = None)) by (destruct Hc; congruence).
  unfold bind at 1, on_rc_version at 1. cbn [rc_version rc_set_highest]. rewrite Hrun.
  etrans; [exact Hrun'|]. cbn [rc_base_edit rc_highest]. unfold highest_of. destruct fs as [|g fs]; [done|]. cbn [last]. destruct (last (g :: fs)) eqn:E; [done|by apply last_None in E].
Qed.

(** ** Which files a version has *)

Lemma elem_of_vec_insert {X} i (x y : X) l : y ∈ vec_insert i x l ↔ y = x ∨ y ∈ l.
Proof. unfold vec_insert. rewrite <- (take_drop i l) at 3. rewrite !elem_of_app, elem_of_cons. tauto. Qed.

Lemma insert_file_perm n f l : insert_file n f l ≡ₚ f :: l.
Proof.
  destruct n as [|n]; cbn [insert_file]; [by rewrite Permutation_app_comm|].
  unfold vec_insert. rewrite <- Permutation_middle. by rewrite take_drop.
Qed.

Lemma elem_of_abs_insert f A n g : g ∈ abs_insert f A n ↔ (g = f ∧ n = level_of f) ∨ g ∈ A n.
Proof.
  unfold abs_insert. destruct (decide (n = level_of f)); [|tauto]. rewrite insert_file_perm, elem_of_cons. tauto.
Qed.

Lemma elem_of_abs_inserts fs : ∀ A n g, g ∈ abs_inserts fs A n ↔ (g ∈ fs ∧ n = level_of g) ∨ g ∈ A n.
Proof.
  induction fs as [|f fs IH]; intros A n g; [cbn; set_solver|].
  change (abs_inserts (f :: fs) A) with (abs_inserts fs (abs_insert f A)). rewrite IH, elem_of_abs_insert, elem_of_cons.
  split; [intros [?|[[-> ?]|?]]|intros [[[->|?] ?]|?]]; auto; tauto.
Qed.

Lemma vec_remove_sublist {X} i (l : list X) : vec_remove i l `sublist_of` l.
Proof.
  unfold vec_remove. rewrite <- (take_drop i l) at 3. apply sublist_app; [done|].
  replace (S i) with (i + 1)%nat by lia. rewrite <- drop_drop. apply sublist_drop.
Qed.

Lemma remove_file_sublist x l : remove_file x l `sublist_of` l.
Proof. unfold remove_file. destruct (list_find _ l) as [[i g]|]; [apply vec_remove_sublist|done]. Qed.

(** Files with other numbers stay. *)
Lemma remove_file_keeps x l f : f ∈ l → nf_number f ≠ x → f ∈ remove_file x l.
Proof.
  intros Hf Hx. unfold remove_file. destruct (list_find _ l) as [[i g]|] eqn:E; [|done].
  apply list_find_Some in E as (Hi & Hg & _). unfold vec_remove. rewrite <- (take_drop_middle l i g Hi) in Hf.
  rewrite elem_of_app, elem_of_cons in Hf. rewrite elem_of_app. naive_solver.
Qed.

Lemma abs_remove_sublist d A n : abs_remove d A n `sublist_of` A n.
Proof. unfold abs_remove. destruct (decide _); [apply remove_file_sublist|done]. Qed.

Lemma abs_removes_sublist ds : ∀ A n, abs_removes ds A n `sublist_of` A n.
Proof. induction ds as [|d ds IH]; intros A n; cbn; [done|]. etrans; [apply IH|apply abs_remove_sublist]. Qed.

Lemma elem_of_sublist {X} (x : X) l l' : x ∈ l → l `sublist_of` l' → x ∈ l'.
Proof. intros Hx Hl. apply sublist_submseteq, submseteq_Permutation in Hl as [k ->]. apply elem_of_app. by left. Qed.

Lemma removable_distinct ds : ∀ A,
  NoDup (df_number <$> ds) → (∀ d, d ∈ ds → ∃ f, f ∈ A (Z.to_nat (df_level d)) ∧ nf_number f = df_number d) →
  removable ds A.
Proof.
  induction ds as [|d ds IH]; intros A Hd Hin; [done|]. cbn in Hd. apply NoDup_cons in Hd as [Hn Hd]. cbn. split.
  - apply Hin. by left.
  - apply IH; [done|]. intros d' Hd'. destruct (Hin d') as (f & Hf & Hnum); [by right|]. exists f. split; [|done].
    unfold abs_remove. destruct (decide _); [|done]. apply remove_file_keeps; [done|]. rewrite Hnum. intros E.
    apply Hn. rewrite <- E. by apply list_elem_of_fmap_2.
Qed.

(** Files in ascending order of their numbers, after all others. *)
Definition files_fit (fs : list NewFileEntry) : Prop :=
  Forall (λ f, file_keys f ∧ 0 ≤ nf_level f ∧ level_fits (level_of f)) fs ∧
  StronglySorted (λ f g, nf_number f < nf_number g) fs.

Lemma insertable_sorted fs : ∀ A,
  files_fit fs → (∀ n g f, g ∈ A n → f ∈ fs → nf_number g < nf_number f) → insertable fs A.
Proof.
  induction fs as [|f fs IH]; intros A [Hok Hs] Hlt; [done|]. apply Forall_cons in Hok as [(H1 & H2 & H3) Hok].
  apply StronglySorted_inv in Hs as [Hs Hf]. cbn. split.
  - split_and!; [done..| |intros _]; apply Forall_forall; intros g Hg; specialize (Hlt _ _ f Hg ltac:(by left)); lia.
  - apply IH; [by split|]. intros n g h [[-> _]|Hg]%elem_of_abs_insert Hh; [|apply (Hlt n); [done|by right]].
    rewrite Forall_forall in Hf. auto.
Qed.

(** ** Files sorted by their numbers *)

Lemma insert_by_number_perm f l : insert_by_number f l ≡ₚ f :: l.
Proof.
  induction l as [|g l IH]; cbn; [done|]. destruct (_ <=? _); [done|]. rewrite IH. apply Permutation_swap.
Qed.

Lemma sort_by_number_perm l : sort_by_number l ≡ₚ l.
Proof. induction l as [|f l IH]; cbn; [done|]. by rewrite insert_by_number_perm, IH. Qed.

Lemma insert_by_number_sorted f l :
  StronglySorted (λ f g, nf_number f < nf_number g) l → Forall (λ g, nf_number g ≠ nf_number f) l →
  StronglySorted (λ f g, nf_number f < nf_number g) (insert_by_number f l).
Proof.
  induction l as [|g l IH]; intros Hs Hne; cbn; [by repeat constructor|].
  apply Forall_cons in Hne as [Hg Hne]. pose proof Hs as Hs'. apply StronglySorted_inv in Hs as [Hs Hl].
  destruct (_ <=? _) eqn:E; b2p.
  - constructor; [done|]. constructor; [lia|]. eapply Forall_impl; [exact Hl|]. cbn. intros. lia.
  - constructor; [auto|]. rewrite insert_by_number_perm. constructor; [lia|done].
Qed.

Lemma sort_by_number_sorted l :
  NoDup (nf_number <$> l) → StronglySorted (λ f g, nf_number f < nf_number g) (sort_by_number l).
Proof.
  induction l as [|f l IH]; cbn; [constructor|]. intros [Hn Hd]%NoDup_cons. apply insert_by_number_sorted; [auto|].
  rewrite sort_by_number_perm. apply Forall_forall. intros g Hg E. apply Hn. rewrite <- E. by apply list_elem_of_fmap_2.
Qed.

Lemma sort_by_number_id l : StronglySorted (λ f g, nf_number f < nf_number g) l → sort_by_number l = l.
Proof.
  induction 1 as [|f l _ IH Hf]; [done|]. change (sort_by_number (f :: l)) with (insert_by_number f (sort_by_number l)).
  rewrite IH. destruct l as [|g l]; cbn; [done|].
  apply Forall_cons in Hf as [Hf _]. by rewrite (proj2 (Z.leb_le _ _)) by lia.
Qed.
End Files.
