(* ===== verification/VersionRecovery.v ===== *)
(** * Recovery of a version set from its manifest

    The states of a version set that the database can reach, the edits it
    applies to them, and that recovering the manifest (a first record with
    everything, then one record per edit) gives the state after the edits that
    are complete in the file, up to empty levels above the last table. *)

From S2P Require Import Prelude Wire Encoding Algorithms Comparator DataBlock Filter Table RecordLog RecordLogProofs.
From S2P Require Import VersionEdit VersionEditTheorems Version VersionProofs.

Section Recovery.
Context (options : EmbeddedDBOptions).
Abbreviation kc := (do_comparator options).
Context `{!KeyComparatorLaws kc} {T : Type}.
Implicit Types (s : VersionSet T) (r : Recovery T) (A : nat → list NewFileEntry) (e : VersionEdit).

(** ** States and edits *)

(** No two files have one number. *)
Definition unique A : Prop :=
  (∀ n, NoDup (nf_number <$> A n)) ∧
  (∀ n m f g, f ∈ A n → g ∈ A m → nf_number f = nf_number g → n = m).

Record set_ok s A : Prop := {
  so_holds : holds options (vs_latest_version s) A;
  so_numbers : ∀ n f, f ∈ A n → 0 < nf_number f < vs_next_file_number s;
  so_unique : unique A;
  so_files : ∀ n f, f ∈ A n → file_ok f ∧ level_fits (T := T) options n;
  so_next : 2 ≤ vs_next_file_number s < 2 ^ 64;
  so_log : ∀ n, vs_log_number s = Some n → 2 ≤ n < vs_next_file_number s;
  so_prev : ∀ n, vs_prev_log_number s = Some n → 0 < n < 2 ^ 64;
  so_sequence : u64 (vs_last_sequence s);
  so_waterline : opt_u64 (vs_compaction_waterline s);
}.

(** The file number after an edit. *)
Definition next_of e s : Z := default (vs_next_file_number s) (ve_next_file_number e).

(** An edit with new numbers for its log and its files. *)
Record valid_edit s A e : Prop := {
  va_comparator : ve_comparator e = None;
  va_next : vs_next_file_number s ≤ next_of e s < 2 ^ 64;
  va_log : ∀ n, ve_log_number e = Some n → vs_next_file_number s ≤ n < next_of e s;
  va_prev : opt_u64 (ve_prev_log_number e);
  va_sequence : ∀ n, ve_last_sequence e = Some n → vs_last_sequence s ≤ n < 2 ^ 64;
  va_waterline : opt_u64 (ve_compaction_waterline e);
  va_deleted : NoDup (df_number <$> ve_deleted_files e);
  va_removes : ∀ d, d ∈ ve_deleted_files e →
    0 ≤ df_level d < 2 ^ 32 ∧ ∃ f, f ∈ A (Z.to_nat (df_level d)) ∧ nf_number f = df_number d;
  va_fit : files_fit (T := T) options (ve_new_files e);
  va_files : Forall (λ f, file_ok f ∧ vs_next_file_number s ≤ nf_number f < next_of e s) (ve_new_files e);
}.

(** The fields after an edit, with a new version. *)
Definition edited e s (v : Version T) : VersionSet T :=
  mkVersionSet v (next_of e s)
    match ve_log_number e with Some n => Some n | None => vs_log_number s end
    match ve_prev_log_number e with Some n => prev_log n | None => vs_prev_log_number s end
    (default (vs_last_sequence s) (ve_last_sequence e))
    match ve_compaction_waterline e with Some n => Some n | None => vs_compaction_waterline s end.

Lemma edit_removable s A e : valid_edit s A e → removable (ve_deleted_files e) A.
Proof. intros He. apply removable_distinct; [apply He|]. intros d Hd. by apply (va_removes _ _ _ He). Qed.

Lemma elem_of_removes (ds : list DeletedFileEntry) A n f : f ∈ abs_removes ds A n → f ∈ A n.
Proof. intros Hf. eapply elem_of_sublist; [done|apply abs_removes_sublist]. Qed.

Lemma edit_insertable s A e :
  set_ok s A → valid_edit s A e → insertable (T := T) options (ve_new_files e) (abs_removes (ve_deleted_files e) A).
Proof.
  intros Hs He. apply insertable_sorted; [apply He|]. intros n g f Hg%elem_of_removes Hf.
  pose proof (so_numbers _ _ Hs _ _ Hg). pose proof (va_files _ _ _ He) as Hfs. rewrite Forall_forall in Hfs.
  specialize (Hfs f Hf). lia.
Qed.

Lemma unique_removes (ds : list DeletedFileEntry) A : unique A → unique (abs_removes ds A).
Proof.
  intros [H1 H2]. split; [|intros n m f g Hf%elem_of_removes Hg%elem_of_removes; eauto].
  intros n. eapply sublist_NoDup; [apply H1|]. apply fmap_sublist, abs_removes_sublist.
Qed.

Lemma unique_inserts fs : ∀ A,
  unique A → StronglySorted (λ f g, nf_number f < nf_number g) fs →
  (∀ n g f, g ∈ A n → f ∈ fs → nf_number g < nf_number f) → unique (abs_inserts options fs A).
Proof.
  induction fs as [|f fs IH]; intros A [H1 H2] Hs Hlt; [done|]. apply StronglySorted_inv in Hs as [Hs Hf].
  change (abs_inserts options (f :: fs) A) with (abs_inserts options fs (abs_insert options f A)). apply IH; [|done|].
  - split.
    + intros n. unfold abs_insert. destruct (decide _); [|done]. rewrite insert_file_perm. cbn. constructor; [|done].
      intros (g & E & Hg)%list_elem_of_fmap. specialize (Hlt n g f Hg ltac:(by left)). lia.
    + intros n m g h. rewrite !elem_of_abs_insert. intros [[-> ->]|Hg] [[-> ->]|Hh] E; [done| | |by eapply H2].
      * specialize (Hlt _ _ f Hh ltac:(by left)). lia.
      * specialize (Hlt _ _ f Hg ltac:(by left)). lia.
  - intros n g h [[-> _]|Hg]%elem_of_abs_insert Hh; [|apply (Hlt n); [done|by right]].
    rewrite Forall_forall in Hf. auto.
Qed.

Lemma edit_files s A e n f :
  set_ok s A → valid_edit s A e → f ∈ abs_edit options e A n →
  (f ∈ ve_new_files e ∧ n = level_of f) ∨ f ∈ A n.
Proof. unfold abs_edit. rewrite elem_of_abs_inserts. intros _ _ [?|?%elem_of_removes]; auto. Qed.

Lemma edit_set_ok s A e v :
  set_ok s A → valid_edit s A e → holds options v (abs_edit options e A) → set_ok (edited e s v) (abs_edit options e A).
Proof.
  intros Hs He Hv. pose proof (va_files _ _ _ He) as Hfs. rewrite Forall_forall in Hfs.
  pose proof (va_next _ _ _ He) as Hn. split; unfold edited; cbn; [done|..].
  - intros n f [[Hf _]|Hf]%(edit_files s A e); [|pose proof (so_numbers _ _ Hs _ _ Hf); lia|done|done].
    specialize (Hfs f Hf). pose proof (so_next _ _ Hs). lia.
  - apply unique_inserts; [apply unique_removes, Hs|apply He|]. intros n g f Hg%elem_of_removes Hf.
    pose proof (so_numbers _ _ Hs _ _ Hg). specialize (Hfs f Hf). lia.
  - intros n f [[Hf ->]|Hf]%(edit_files s A e); [|by apply (so_files _ _ Hs)|done|done].
    split; [by apply Hfs|]. destruct (va_fit _ _ _ He) as [Hfit _]. rewrite Forall_forall in Hfit. by apply Hfit.
  - pose proof (so_next _ _ Hs). lia.
  - intros n Hlog. pose proof (so_next _ _ Hs). destruct (ve_log_number e) eqn:E; simplify_eq.
    + pose proof (va_log _ _ _ He _ E). lia.
    + pose proof (so_log _ _ Hs _ Hlog). lia.
  - intros n. pose proof (va_prev _ _ _ He) as Hp. destruct (ve_prev_log_number e) as [m|]; [|apply (so_prev _ _ Hs)].
    unfold prev_log. destruct (Z.eqb_spec m 0); [done|]. intros [= <-]. cbn in Hp. unfold u64 in Hp. lia.
  - pose proof (so_sequence _ _ Hs). destruct (ve_last_sequence e) eqn:E; [|done]. cbn.
    pose proof (va_sequence _ _ _ He _ E). unfold u64 in *. lia.
  - pose proof (so_waterline _ _ Hs). pose proof (va_waterline _ _ _ He). by destruct (ve_compaction_waterline e).
Qed.

(** Applying a valid edit does not panic. *)
Lemma apply_valid_edit s A e ts :
  set_ok s A → valid_edit s A e → length ts = length (ve_new_files e) →
  ∃ v, apply_new_edit options e ts s = Done (tt, edited e s v) ∧ holds options v (abs_edit options e A).
Proof.
  intros Hs He Hts. unfold apply_new_edit. unfold bind at 1, gets, id.
  rewrite (proj2 (Z.leb_le (vs_last_sequence s) _)).
  2:{ destruct (ve_last_sequence e) eqn:E; cbn; [by apply (va_sequence _ _ _ He)|lia]. }
  unfold bind at 1. cbn [assert ret]. fold (next_of e s). rewrite (proj2 (Z.leb_le _ _)) by apply He.
  unfold bind at 1. cbn [assert ret]. unfold bind at 1, modify at 1. unfold bind at 1.
  lazymatch goal with |- context [for_each (ve_deleted_files e) ?f ?st] => change st with (edited e s (vs_latest_version s)) end.
  destruct (removes_memory options (ve_deleted_files e) (edited e s (vs_latest_version s)) A) as (v1 & Hrun1 & Hv1);
    [apply Hs|by eapply edit_removable|].
  destruct (inserts_memory options (ve_new_files e) ts (edited e s v1) _ Hts Hv1) as (v & Hrun & Hv);
    [by eapply edit_insertable|].
  exists v. split; [|done]. rewrite Hrun1. exact Hrun.
Qed.

(** ** Recovering an edit *)

Definition set_opt {X} (set : X → VersionEdit → VersionEdit) (o : option X) (b : VersionEdit) : VersionEdit :=
  match o with Some x => set x b | None => b end.

(** The base edit after an edit. *)
Definition base_of e (b : VersionEdit) : VersionEdit :=
  set_opt set_waterline (ve_compaction_waterline e)
    (set_opt set_next_file_number (ve_next_file_number e)
      (set_opt set_last_sequence (ve_last_sequence e)
        (set_opt (λ n, set_prev_log_number (prev_log n)) (ve_prev_log_number e)
          (set_opt set_log_number (ve_log_number e)
            (set_opt set_comparator (ve_comparator e) b))))).

(** An edit that passes the checks. *)
Record accepted e (b : VersionEdit) (highest : Z) : Prop := {
  ac_comparator : ∀ c, ve_comparator e = Some c → ve_comparator b = None ∧ c = do_comparator_name options;
  ac_log : ∀ n, ve_log_number e = Some n → 2 ≤ n ∧ highest ≤ n ∧ ∀ m, ve_log_number b = Some m → m ≤ n;
  ac_sequence : ∀ n m, ve_last_sequence e = Some n → ve_last_sequence b = Some m → m ≤ n;
  ac_next : ∀ n m, ve_next_file_number e = Some n → ve_next_file_number b = Some m → m ≤ n;
}.

(** A step of the recovery that only changes the base edit. *)
Definition rebases (m : M (Recovery T) (RecoverError + unit)) (b b' : VersionEdit) (h : Z) : Prop :=
  ∀ v, m (mkRecovery v b h) = Done (inr tt, mkRecovery v b' h).

Lemma comparator_rebases e b h : accepted e b h → rebases (recover_comparator options e) b (set_opt set_comparator (ve_comparator e) b) h.
Proof.
  intros [Hc _ _ _] v. unfold recover_comparator. destruct (ve_comparator e) as [c|]; [|done]. destruct (Hc c eq_refl) as [Hb ->].
  unfold bind, gets, id. cbn [rc_base_edit]. rewrite Hb.
  rewrite bool_decide_eq_false_2 by (by intros []). by rewrite bool_decide_eq_false_2 by tauto.
Qed.

Lemma log_rebases e b h b1 :
  accepted e b h → ve_log_number b1 = ve_log_number b →
  rebases (recover_log_number e) b1 (set_opt set_log_number (ve_log_number e) b1) h.
Proof.
  intros [_ Hl _ _] E v. unfold recover_log_number. destruct (ve_log_number e) as [n|]; [|done].
  destruct (Hl n eq_refl) as (Hn2 & Hh & Hm). unfold bind, gets, id. cbn [rc_base_edit rc_highest].
  rewrite E, !(proj2 (Z.ltb_ge _ _)) by lia. destruct (ve_log_number b) as [m|]; [|done]. by rewrite (proj2 (Z.ltb_ge _ _)) by auto.
Qed.

Lemma sequence_rebases e b h b1 :
  accepted e b h → ve_last_sequence b1 = ve_last_sequence b →
  rebases (recover_last_sequence e) b1 (set_opt set_last_sequence (ve_last_sequence e) b1) h.
Proof.
  intros [_ _ Hs _] E v. unfold recover_last_sequence. destruct (ve_last_sequence e) as [n|]; [|done].
  unfold bind, gets, id. cbn [rc_base_edit]. rewrite E. destruct (ve_last_sequence b) as [m|]; [|done].
  by rewrite (proj2 (Z.ltb_ge _ _)) by eauto.
Qed.

Lemma next_rebases e b h b1 :
  accepted e b h → ve_next_file_number b1 = ve_next_file_number b →
  rebases (recover_next_file_number e) b1 (set_opt set_next_file_number (ve_next_file_number e) b1) h.
Proof.
  intros [_ _ _ Hs] E v. unfold recover_next_file_number. destruct (ve_next_file_number e) as [n|]; [|done].
  unfold bind, gets, id. cbn [rc_base_edit]. rewrite E. destruct (ve_next_file_number b) as [m|]; [|done].
  by rewrite (proj2 (Z.ltb_ge _ _)) by eauto.
Qed.

(** The number of the last file or log. *)
Definition highest_after e (b : VersionEdit) (h : Z) : Z :=
  let h := highest_of (sort_by_number (ve_new_files e)) h in
  from_option (Z.max h) h (ve_log_number (base_of e b)).

Lemma recover_accepted e (v : Version T) b h A :
  accepted e b h → holds options v A → removable (ve_deleted_files e) A →
  insertable (T := T) options (sort_by_number (ve_new_files e)) (abs_removes (ve_deleted_files e) A) →
  is_Some (ve_comparator (base_of e b)) → NoDup (nf_number <$> ve_new_files e) →
  Forall (λ f, h < nf_number f) (ve_new_files e) →
  ∃ v', recover_edit options e (mkRecovery v b h) = Done (inr tt, mkRecovery v' (base_of e b) (highest_after e b h)) ∧
    holds options v' (abs_inserts options (sort_by_number (ve_new_files e)) (abs_removes (ve_deleted_files e) A)).
Proof.
  intros Hac Hv Hrem Hins Hcmp Hnd Hh.
  destruct (removes_recovery options (ve_deleted_files e) (mkRecovery v (base_of e b) h) A Hv Hrem) as (v1 & Hrun1 & Hv1).
  destruct (inserts_recovery options (sort_by_number (ve_new_files e)) (mkRecovery v1 (base_of e b) h) _ Hv1 Hins Hcmp)
    as (v2 & Hrun2 & Hv2); [by apply sort_by_number_sorted|by rewrite sort_by_number_perm|].
  exists v2. split; [|done]. unfold recover_edit, try_bind, bind at 1. rewrite (comparator_rebases e b h Hac v).
  unfold bind at 1. rewrite (log_rebases e b h) by (done || by destruct (ve_comparator e)).
  unfold bind at 1. set (b2 := set_opt set_log_number _ _).
  assert (∀ v, recover_prev_log_number e (mkRecovery v b2 h) =
    Done (inr tt, mkRecovery v (set_opt (λ n, set_prev_log_number (prev_log n)) (ve_prev_log_number e) b2) h)) as ->.
  { intros v'. unfold recover_prev_log_number. by destruct (ve_prev_log_number e). }
  unfold bind at 1. rewrite (sequence_rebases e b h)
    by (done || unfold b2; by destruct (ve_prev_log_number e), (ve_log_number e), (ve_comparator e)).
  unfold bind at 1. rewrite (next_rebases e b h)
    by (done || unfold b2; by destruct (ve_last_sequence e), (ve_prev_log_number e), (ve_log_number e), (ve_comparator e)).
  unfold bind at 1. set (b5 := set_opt set_next_file_number _ _).
  assert (∀ v, recover_waterline e (mkRecovery v b5 h) =
    Done (inr tt, mkRecovery v (set_opt set_waterline (ve_compaction_waterline e) b5) h)) as ->.
  { intros v'. unfold recover_waterline. by destruct (ve_compaction_waterline e). }
  change (set_opt set_waterline (ve_compaction_waterline e) b5) with (base_of e b).
  unfold bind at 1. rewrite Hrun1. cbn [rc_base_edit rc_highest]. unfold bind at 1. rewrite Hrun2. done.
Qed.

(** ** Following the version set *)

(** The state of a recovery that has the values of a version set. *)
Record recovered r s A : Prop := {
  re_holds : holds options (rc_version r) A;
  re_comparator : is_Some (ve_comparator (rc_base_edit r));
  re_next : ve_next_file_number (rc_base_edit r) = Some (vs_next_file_number s);
  re_log : ve_log_number (rc_base_edit r) = vs_log_number s;
  re_prev : ve_prev_log_number (rc_base_edit r) = vs_prev_log_number s;
  re_sequence : ve_last_sequence (rc_base_edit r) = Some (vs_last_sequence s);
  re_waterline : ve_compaction_waterline (rc_base_edit r) = vs_compaction_waterline s;
  re_highest : 0 ≤ rc_highest r < vs_next_file_number s;
}.

Lemma base_of_fields e b :
  ve_next_file_number (base_of e b) = match ve_next_file_number e with Some n => Some n | None => ve_next_file_number b end ∧
  ve_log_number (base_of e b) = match ve_log_number e with Some n => Some n | None => ve_log_number b end ∧
  ve_prev_log_number (base_of e b) = match ve_prev_log_number e with Some n => prev_log n | None => ve_prev_log_number b end ∧
  ve_last_sequence (base_of e b) = match ve_last_sequence e with Some n => Some n | None => ve_last_sequence b end ∧
  ve_compaction_waterline (base_of e b) = match ve_compaction_waterline e with Some n => Some n | None => ve_compaction_waterline b end ∧
  ve_comparator (base_of e b) = match ve_comparator e with Some n => Some n | None => ve_comparator b end.
Proof.
  unfold base_of.
  by destruct (ve_compaction_waterline e), (ve_next_file_number e), (ve_last_sequence e), (ve_prev_log_number e), (ve_log_number e), (ve_comparator e).
Qed.

Lemma highest_of_range fs h n : h < n → 0 ≤ h → Forall (λ f, 0 ≤ nf_number f < n) fs → 0 ≤ highest_of fs h < n.
Proof.
  intros Hh H0 Hfs. unfold highest_of. destruct (last fs) as [f|] eqn:E; cbn; [|lia].
  apply last_Some_elem_of in E. rewrite Forall_forall in Hfs. auto.
Qed.

Lemma highest_after_range e b h n :
  0 ≤ h < n → Forall (λ f, 0 ≤ nf_number f < n) (ve_new_files e) →
  (∀ l, ve_log_number (base_of e b) = Some l → 0 ≤ l < n) → 0 ≤ highest_after e b h < n.
Proof.
  intros Hh Hfs Hl. unfold highest_after.
  pose proof (highest_of_range (sort_by_number (ve_new_files e)) h n ltac:(lia) ltac:(lia) ltac:(by rewrite sort_by_number_perm)).
  destruct (ve_log_number (base_of e b)) as [l|]; cbn; [specialize (Hl l eq_refl)|]; lia.
Qed.

Lemma sorted_numbers_nodup fs : StronglySorted (λ f g, nf_number f < nf_number g) fs → NoDup (nf_number <$> fs).
Proof.
  induction 1 as [|f fs _ IH Hf]; cbn; constructor; [|done]. intros (g & E & Hg)%list_elem_of_fmap.
  rewrite Forall_forall in Hf. specialize (Hf g Hg). lia.
Qed.

(** Recovering a valid edit follows applying it. *)
Lemma recover_valid_edit r s A e v :
  set_ok s A → valid_edit s A e → recovered r s A → holds options v (abs_edit options e A) →
  ∃ r', recover_edit options e r = Done (inr tt, r') ∧ recovered r' (edited e s v) (abs_edit options e A).
Proof.
  intros Hs He Hr Hv. destruct r as [rv b h]. destruct Hr as [Rh Rc Rn Rl Rp Rs Rw Rg]. cbn in *.
  pose proof (va_files _ _ _ He) as Hfs. destruct (va_fit _ _ _ He) as [_ Hsort].
  pose proof (sort_by_number_id _ Hsort) as Hid. pose proof (va_next _ _ _ He) as Hnext. pose proof (so_next _ _ Hs).
  destruct (base_of_fields e b) as (B1 & B2 & B3 & B4 & B5 & B6). rewrite (va_comparator _ _ _ He) in B6.
  destruct (recover_accepted e rv b h A) as (v' & Hrun & Hv').
  - split; rewrite ?(va_comparator _ _ _ He), ?Rl, ?Rn, ?Rs; [done| | |].
    + intros n Hn. pose proof (va_log _ _ _ He _ Hn). split_and!; [lia|lia|]. intros m Hm. pose proof (so_log _ _ Hs _ Hm). lia.
    + intros n m Hn [= <-]. by apply (va_sequence _ _ _ He).
    + intros n m Hn [= <-]. unfold next_of in Hnext. rewrite Hn in Hnext. cbn in Hnext. lia.
  - done.
  - by eapply edit_removable.
  - rewrite Hid. by eapply edit_insertable.
  - by rewrite B6.
  - by apply sorted_numbers_nodup.
  - eapply Forall_impl; [exact Hfs|]. cbn. intros f [_ Hf]. lia.
  - eexists. split; [exact Hrun|]. rewrite Hid in Hv'. split; cbn; [done|by rewrite B6|..].
    + rewrite B1. unfold next_of. by destruct (ve_next_file_number e).
    + rewrite B2. by destruct (ve_log_number e).
    + rewrite B3. by destruct (ve_prev_log_number e).
    + rewrite B4. by destruct (ve_last_sequence e).
    + rewrite B5. by destruct (ve_compaction_waterline e).
    + apply highest_after_range; [lia| |].
      * eapply Forall_impl; [exact Hfs|]. cbn. intros f [_ Hf]. lia.
      * rewrite B2. intros l. destruct (ve_log_number e) as [l'|] eqn:E.
        -- intros [= <-]. pose proof (va_log _ _ _ He _ E). lia.
        -- rewrite Rl. intros Hl. pose proof (so_log _ _ Hs _ Hl). lia.
Qed.

(** ** The first record *)

Lemma filter_concat (ls : list (list NewFileEntry)) : ∀ k n,
  (∀ i l, ls !! i = Some l → Forall (λ f, level_of f = (k + i)%nat) l) →
  filter (λ f, level_of f = n) (concat ls) = if (n <? k)%nat then [] else default [] (ls !! (n - k)%nat).
Proof.
  induction ls as [|l ls IH]; intros k n Hl; cbn [concat]; [by destruct (_ <? _)%nat|].
  rewrite filter_app, (IH (S k)).
  2:{ intros i l' Hi. replace (S k + i)%nat with (k + S i)%nat by lia. by apply Hl. }
  pose proof (Hl 0%nat l eq_refl) as H0. rewrite Nat.add_0_r in H0.
  destruct (Nat.ltb_spec n k), (Nat.ltb_spec n (S k)); try lia.
  - rewrite filter_none; [done|]. eapply Forall_impl; [exact H0|]. cbn. intros. lia.
  - assert (n = k) as -> by lia. rewrite Nat.sub_diag, filter_true by done. cbn. by rewrite app_nil_r.
  - rewrite filter_none by (eapply Forall_impl; [exact H0|]; cbn; intros; lia).
    replace (n - k)%nat with (S (n - S k)) by lia. done.
Qed.

Lemma first_files s A n :
  set_ok s A → filter (λ f, level_of f = n) (ve_new_files (to_version_edit options false s)) = A n.
Proof.
  intros Hs. pose proof (so_holds _ _ Hs) as Hh. cbn [to_version_edit ve_new_files].
  rewrite (filter_concat _ 0).
  - rewrite Nat.sub_0_r, list_lookup_fmap, <- (ho_files _ _ _ Hh). unfold files. by destruct (levels _ !! n).
  - intros i l Hi. rewrite list_lookup_fmap in Hi. apply fmap_Some in Hi as (lv & Hi & ->).
    assert (lt_entry <$> lv_tables lv = A i) as -> by (rewrite <- (ho_files _ _ _ Hh); unfold files; by rewrite Hi).
    eapply Forall_impl; [apply (ho_keys _ _ _ Hh)|]. intros f [Hf _]. unfold level_of. by rewrite Hf, Nat2Z.id.
Qed.

Lemma elem_of_first s A f :
  set_ok s A → f ∈ ve_new_files (to_version_edit options false s) ↔ f ∈ A (level_of f).
Proof. intros Hs. rewrite <- (first_files s A) by done. rewrite list_elem_of_filter. tauto. Qed.

(** A list without duplicates from the parts with each value of a function. *)
Lemma NoDup_filters {X Y} (g : X → Y) (k : X → nat) (l : list X) :
  (∀ n, NoDup (g <$> filter (λ x, k x = n) l)) → (∀ x y, x ∈ l → y ∈ l → g x = g y → k x = k y) → NoDup (g <$> l).
Proof.
  induction l as [|x l IH]; intros Hn Hk; cbn; [constructor|]. constructor.
  - intros (y & E & Hy)%list_elem_of_fmap. assert (k x = k y) as Exy by (apply Hk; [by left|by right|done]).
    specialize (Hn (k x)). rewrite filter_cons_True in Hn by done. cbn in Hn. apply NoDup_cons in Hn as [Hn _].
    apply Hn. rewrite E. apply list_elem_of_fmap_2. by apply list_elem_of_filter.
  - apply IH; [|intros; apply Hk; [by right..|done]]. intros n. specialize (Hn n). rewrite filter_cons in Hn.
    destruct (decide _); [|done]. cbn in Hn. by apply NoDup_cons in Hn as [_ ?].
Qed.

Lemma first_nodup s A : set_ok s A → NoDup (nf_number <$> ve_new_files (to_version_edit options false s)).
Proof.
  intros Hs. destruct (so_unique _ _ Hs) as [H1 H2]. apply (NoDup_filters _ level_of).
  - intros n. by rewrite (first_files s A).
  - intros f g Hf%(elem_of_first s A) Hg%(elem_of_first s A) E; [by eapply H2|done|done].
Qed.

(** Inserting the files of all levels gives the levels. *)
Lemma inserts_filter fs : ∀ A n, abs_inserts options fs A n ≡ₚ filter (λ f, level_of f = n) fs ++ A n.
Proof.
  induction fs as [|f fs IH]; intros A n; [done|].
  change (abs_inserts options (f :: fs) A) with (abs_inserts options fs (abs_insert options f A)).
  rewrite IH, filter_cons. unfold abs_insert. destruct (decide (n = level_of f)) as [->|Hne].
  - rewrite decide_True by done. rewrite insert_file_perm. cbn. by rewrite <- Permutation_middle.
  - by rewrite decide_False by done.
Qed.

#[local] Instance level_lt_antisymm n : AntiSymm (=) (level_lt options n).
Proof.
  intros a b. destruct n; cbn; [lia|]. intros H1 H2. destruct (file_lt_irrefl options a). by etrans.
Qed.

Lemma recover_first s A :
  set_ok s A →
  ∃ r, recover_edit options (to_version_edit options false s) (mkRecovery Version_new VersionEdit_default 0) = Done (inr tt, r) ∧
    recovered r s A.
Proof.
  intros Hs. set (e := to_version_edit options false s). pose proof (so_next _ _ Hs).
  assert (∀ f, f ∈ ve_new_files e → f ∈ A (level_of f)) as Hel by (intros f; apply (elem_of_first s A f Hs)).
  assert (files_fit (T := T) options (sort_by_number (ve_new_files e))) as Hfit.
  { split; [|by apply sort_by_number_sorted, (first_nodup s A)]. rewrite sort_by_number_perm. apply Forall_forall. intros f Hf%Hel.
    pose proof (ho_keys _ _ _ (so_holds _ _ Hs) (level_of f)) as Hk. rewrite Forall_forall in Hk. destruct (Hk f Hf) as [Hl ?].
    destruct (so_files _ _ Hs _ _ Hf). split_and!; [done|lia|done]. }
  assert (Forall (λ f, 0 < nf_number f < vs_next_file_number s) (ve_new_files e)) as Hnum.
  { apply Forall_forall. intros f Hf%Hel. by apply (so_numbers _ _ Hs _ _ Hf). }
  destruct (base_of_fields e VersionEdit_default) as (B1 & B2 & B3 & B4 & B5 & B6).
  destruct (recover_accepted e Version_new VersionEdit_default 0 (λ _, [])) as (v & Hrun & Hv).
  - split; cbn; [by intros c [= <-]| |done|done]. intros n Hn. pose proof (so_log _ _ Hs _ Hn). split_and!; [lia|lia|done].
  - apply version_new_holds.
  - done.
  - apply insertable_sorted; [done|]. intros n g f Hg. by apply elem_of_nil in Hg.
  - rewrite B6. by eexists.
  - by eapply first_nodup.
  - eapply Forall_impl; [exact Hnum|]. cbn. lia.
  - eexists. split; [exact Hrun|]. split; cbn [rc_version rc_base_edit rc_highest].
    + eapply holds_ext; [exact Hv|]. intros n. apply (StronglySorted_unique (level_lt options n)); [apply (ho_sorted _ _ _ Hv)|apply (ho_sorted _ _ _ (so_holds _ _ Hs))|].
      rewrite inserts_filter, app_nil_r, sort_by_number_perm. by rewrite (first_files s A).
    + by rewrite B6.
    + by rewrite B1.
    + rewrite B2. cbn. by destruct (vs_log_number s).
    + rewrite B3. cbn. pose proof (so_prev _ _ Hs) as Hp. destruct (vs_prev_log_number s) as [p|]; [|done].
      unfold prev_log. specialize (Hp p eq_refl). by destruct (Z.eqb_spec p 0); [lia|].
    + by rewrite B4.
    + rewrite B5. cbn. by destruct (vs_compaction_waterline s).
    + apply highest_after_range; [lia|eapply Forall_impl; [exact Hnum|]; cbn; lia|]. rewrite B2. cbn.
      intros l Hl. pose proof (so_log _ _ Hs l). destruct (vs_log_number s); simplify_eq. specialize (H0 eq_refl). lia.
Qed.

(** ** Runs *)

(** The states of a version set, with the files it has. *)
Definition state_ok s : Prop := set_ok s (files (vs_latest_version s)).
Definition edit_valid s e : Prop := valid_edit s (files (vs_latest_version s)) e.

Lemma set_ok_state s A : set_ok s A → state_ok s.
Proof.
  intros Hs. pose proof (ho_files _ _ _ (so_holds _ _ Hs)) as E. destruct Hs as [H1 H2 H3 H4 H5 H6 H7 H8 H9].
  split; try done.
  - eapply holds_ext; [exact H1|]. done.
  - intros n f. rewrite E. apply H2.
  - destruct H3 as [Ha Hb]. split; [intros n; by rewrite E|intros n m f g; rewrite !E; apply Hb].
  - intros n f. rewrite E. apply H4.
Qed.

(** The state after edits that are applied in memory, each with the tables of
    its new files. *)
Inductive after : VersionSet T → list (VersionEdit * list T) → VersionSet T → Prop :=
| after_nil s : after s [] s
| after_cons s e ts es s1 s' :
  edit_valid s e → length ts = length (ve_new_files e) → apply_new_edit options e ts s = Done (tt, s1) →
  after s1 es s' → after s ((e, ts) :: es) s'.

(** Version sets with the same numbers and the same files in each level. *)
Definition same_set {T1 T2} (s1 : VersionSet T1) (s2 : VersionSet T2) : Prop :=
  (∀ n, files (vs_latest_version s1) n = files (vs_latest_version s2) n) ∧
  vs_next_file_number s1 = vs_next_file_number s2 ∧ vs_log_number s1 = vs_log_number s2 ∧
  vs_prev_log_number s1 = vs_prev_log_number s2 ∧ vs_last_sequence s1 = vs_last_sequence s2 ∧
  vs_compaction_waterline s1 = vs_compaction_waterline s2.

Lemma apply_state_ok s e ts :
  state_ok s → edit_valid s e → length ts = length (ve_new_files e) →
  ∃ v, apply_new_edit options e ts s = Done (tt, edited e s v) ∧ holds options v (abs_edit options e (files (vs_latest_version s))) ∧
    state_ok (edited e s v).
Proof.
  intros Hs He Hts. destruct (apply_valid_edit s _ e ts Hs He Hts) as (v & Hrun & Hv). exists v. split_and!; [done..|].
  by eapply set_ok_state, edit_set_ok.
Qed.

Lemma recovered_files r s A : recovered r s A → holds options (vs_latest_version s) A → recovered r s (files (vs_latest_version s)).
Proof.
  intros [R1 R2 R3 R4 R5 R6 R7 R8] Hh. split; try done. eapply holds_ext; [exact R1|]. intros n. symmetry. apply (ho_files _ _ _ Hh).
Qed.

(** The end of the recovery. *)
Lemma recover_finish_same r s :
  recovered r s (files (vs_latest_version s)) → ∃ s', recover_finish r = inr s' ∧ same_set s' s ∧ rc_version r = vs_latest_version s'.
Proof.
  intros [R1 R2 R3 R4 R5 R6 R7 R8]. unfold recover_finish. rewrite R3. rewrite (proj2 (Z.leb_gt _ _)) by lia.
  eexists. split; [done|]. split; [|done]. split_and!; cbn; [apply (ho_files _ _ _ R1)|done|done|done|by rewrite R6|done].
Qed.

(** ** Edits are encoded *)

Definition name_ok : Prop := utf8_valid (do_comparator_name options) = true ∧ slice_ok (do_comparator_name options).

Lemma edit_valid_encoded s e : state_ok s → edit_valid s e → edit_ok e ∧ NoDup (touched e).
Proof.
  intros Hs He. pose proof (va_next _ _ _ He) as Hn. pose proof (so_next _ _ Hs). pose proof (va_files _ _ _ He) as Hf.
  pose proof (so_sequence _ _ Hs) as Hseq. unfold u64 in Hseq. split.
  - split; rewrite ?(va_comparator _ _ _ He); [done|..]; try apply He.
    + destruct (ve_log_number e) eqn:E; [|done]. pose proof (va_log _ _ _ He _ E). cbn. unfold u64. lia.
    + destruct (ve_last_sequence e) eqn:E; [|done]. pose proof (va_sequence _ _ _ He _ E). cbn. unfold u64. lia.
    + unfold next_of in Hn. destruct (ve_next_file_number e); [|done]. cbn in *. unfold u64. lia.
    + eapply Forall_impl; [exact Hf|]. by intros f [? _].
    + apply Forall_forall. intros d Hd. destruct (va_removes _ _ _ He d Hd) as (Hl & f & Hf' & <-). split; [done|].
      pose proof (so_numbers _ _ Hs _ _ Hf'). unfold u64. lia.
  - apply NoDup_app. split_and!; [apply He| |apply sorted_numbers_nodup, He].
    intros x (d & -> & Hd)%list_elem_of_fmap (f & E & Hin)%list_elem_of_fmap.
    destruct (va_removes _ _ _ He d Hd) as (_ & g & Hg & E'). pose proof (so_numbers _ _ Hs _ _ Hg).
    rewrite Forall_forall in Hf. destruct (Hf f Hin) as [_ ?]. lia.
Qed.

Lemma first_encoded s : name_ok → state_ok s → edit_ok (to_version_edit options false s) ∧ NoDup (touched (to_version_edit options false s)).
Proof.
  intros Hname Hs. pose proof (so_next _ _ Hs). split; [|by eapply (first_nodup s)].
  split; cbn [to_version_edit ve_comparator ve_log_number ve_prev_log_number ve_last_sequence ve_next_file_number ve_compaction_waterline ve_deleted_files];
    [done| | |apply Hs|unfold opt_u64, u64; cbn; lia|apply Hs| |done].
  - destruct (vs_log_number s) eqn:E; [|done]. pose proof (so_log _ _ Hs _ E). cbn. unfold u64. lia.
  - destruct (vs_prev_log_number s) eqn:E; [|done]. pose proof (so_prev _ _ Hs _ E). cbn. unfold u64. lia.
  - apply Forall_forall. intros f Hf%(elem_of_first s (files (vs_latest_version s)) f Hs). by apply (so_files _ _ Hs _ _ Hf).
Qed.
End Recovery.
