(* ===== verification/VersionTheorems.v ===== *)
(** * Properties of versions

    Recovery of a version set from a manifest that is cut anywhere, and the
    choice of levels and tables. *)

From Stdlib Require Import String.
From S2P Require Import Prelude Wire Encoding Algorithms Comparator DataBlock Filter Table.
From S2P Require Import RecordLog RecordLogProofs RecordLogTheorems VersionEdit VersionEditTheorems.
From S2P Require Import Version VersionProofs VersionRecovery.

(** ** Reading a manifest *)

Section Manifest.
Context (options : EmbeddedDBOptions).
Abbreviation kc := (do_comparator options).
Context `{!KeyComparatorLaws kc} {T : Type}.

(** The record of an edit. *)
Definition record_of (d : bytes) (e : VersionEdit) : Prop := VersionEdit_serialize e = inr d.

Lemma read_edit F file reader q d x rs e :
  file `prefix_of` F → stream_at F file reader q ((d, x) :: rs) → rr_recovery_mode reader = AllowIncomplete →
  record_of d e → edit_ok e → NoDup (touched e) →
  ∃ reader', rr_recovery_mode reader' = AllowIncomplete ∧
    if decide (x ≤ length file)%nat
    then VersionEdit_read file reader = Done (inr (Some e), reader') ∧ stream_at F file reader' x rs
    else VersionEdit_read file reader = Done (inr None, reader') ∧ stream_at F file reader' q ((d, x) :: rs).
Proof.
  intros HF Hst Hm Hd Hok Hnd. destruct (read_stream F file reader q _ HF Hst Hm) as (reader' & Hm' & Hread).
  exists reader'. split; [done|]. destruct (decide (x ≤ length file)%nat); unfold VersionEdit_read, bind at 1.
  - destruct Hread as [-> Hst']. split; [|done]. destruct (edit_roundtrip e Hok Hnd) as (out & Hout & Hparse).
    unfold record_of in Hd. rewrite Hd in Hout. injection Hout as ->. unfold bind, lift_run. by rewrite Hparse.
  - by destruct Hread as [-> ?].
Qed.

Lemma recover_loop_stream F file fuel : ∀ reader q rs (r : Recovery T) s es s',
  file `prefix_of` F → stream_at F file reader q rs → rr_recovery_mode reader = AllowIncomplete →
  Forall2 record_of rs.*1 es.*1 → state_ok options s → recovered options r s (files (vs_latest_version s)) →
  after options s es s' → (length rs <= fuel)%nat →
  ∃ k sk r' reader', complete (length file) rs k ∧ after options s (take k es) sk ∧
    recovered options r' sk (files (vs_latest_version sk)) ∧
    stream_at F file reader' (last_end q (take k rs)) (drop k rs) ∧
    recover_loop options fuel file reader r = Done (recover_finish r', reader').
Proof.
  induction fuel as [|fuel IH]; intros reader q rs r s es s' HF Hst Hm Hrec Hs Hr Haft Hfuel;
    (destruct rs as [|[d x] rs]; [|]).
  1, 3: destruct (read_stream F file reader q [] HF Hst Hm) as (reader' & _ & Hread & Hst');
    exists 0%nat, s, r, reader'; (split_and!; [by split; [|intros; lia|]|constructor|done|done|]);
    cbn [recover_loop]; unfold VersionEdit_read, bind; by rewrite Hread.
  { cbn in Hfuel. lia. }
  destruct es as [|[e ts] es]; [by inversion Hrec|]. cbn [fmap list_fmap fst] in Hrec.
  apply Forall2_cons in Hrec as [Hd Hrec]. inversion Haft as [|? ? ? ? s1 ? He Hts Hrun Haft']; subst.
  destruct (edit_valid_encoded options s e Hs He) as [Hok Hnd].
  destruct (read_edit F file reader q d x rs e HF Hst Hm Hd Hok Hnd) as (reader' & Hm' & Hread).
  cbn [recover_loop]. destruct (decide (x ≤ length file)%nat) as [Hle|Hgt].
  2:{ destruct Hread as [-> Hst']. exists 0%nat, s, r, reader'. split_and!; [|constructor|done|done|done].
      split; [cbn; lia|intros; lia|]. intros ? ? [= _ <-]. lia. }
  destruct Hread as [-> Hst']. destruct (apply_state_ok options s e ts Hs He Hts) as (v & Hrun' & Hv & Hs1).
  rewrite Hrun in Hrun'. injection Hrun' as ->.
  destruct (recover_valid_edit options r s _ e v Hs He Hr Hv) as (r1 & -> & Hr1).
  destruct (IH reader' x rs r1 _ es s' HF Hst' Hm' Hrec Hs1) as (k & sk & r' & reader2 & [C1 C2 C3] & Hk & Hr' & Hst2 & Hloop);
    [by eapply recovered_files, Hv|done|cbn in Hfuel; lia|].
  exists (S k), sk, r', reader2. split_and!; [|by econstructor|done|done|done]. split; [cbn; lia| |done].
  intros [|i] ? ? Hi; [by intros [= _ <-]|]. cbn. apply C2. lia.
Qed.

(** The records of the manifest of a version set. *)
Definition manifest_edits (s : VersionSet T) (es : list (VersionEdit * list T)) : list VersionEdit :=
  to_version_edit options false s :: es.*1.

Lemma after_encoded (s s' : VersionSet T) es :
  state_ok options s → after options s es s' → Forall (λ e, edit_ok e ∧ NoDup (touched e)) es.*1 ∧ state_ok options s'.
Proof.
  intros Hs Haft. induction Haft as [|s e ts es s1 s' He Hts Hrun _ IH]; [by split; [constructor|]|].
  destruct (apply_state_ok options s e ts Hs He Hts) as (v & Hrun' & _ & Hs1). rewrite Hrun in Hrun'. injection Hrun' as ->.
  destruct (IH Hs1) as [IH1 IH2]. split; [|done]. cbn. constructor; [|done]. by apply (edit_valid_encoded options s).
Qed.

Lemma new_state_ok : state_ok options (VersionSet_new (T := T)).
Proof.
  split; cbn; try done; try (intros n f Hf; by apply elem_of_nil in Hf).
  - apply version_new_holds.
  - split; [intros n; constructor|]. intros n m f g Hf. by apply elem_of_nil in Hf.
Qed.

Lemma serialize_all es : Forall (λ e, edit_ok e ∧ NoDup (touched e)) es → ∃ ds, Forall2 record_of ds es.
Proof.
  induction 1 as [|e es [Hok Hnd] _ [ds IH]]; [by exists []|].
  destruct (edit_roundtrip e Hok Hnd) as (d & Hd & _). exists (d :: ds). by constructor.
Qed.

(** C23: Durability of the version set. The manifest of a version set has a first
    record with everything and a record for each edit that was applied in
    memory. Whatever edits were applied, applying them does not panic, they can
    all be written, and wherever the file is cut the recovery returns the
    version set after exactly the edits that are complete in it: the same files
    in the same order in each level and the same numbers. Without the first
    record the recovery reports an error. *)
Theorem manifest_recovery (s s' : VersionSet T) (es : list (VersionEdit * list T)) (n : nat) :
  name_ok options → state_ok options s → after options s es s' →
  ∃ ds w j, Forall2 record_of ds (manifest_edits s es) ∧ append_records ds RecordWriter_new = Done (tt, w) ∧
    let cut := take n (rw_file w) in
    longest ds (length cut) j ∧
    match j with
    | O => ∃ reader, recover_existing (T := T) options (S (length es)) cut RecordReader_open = Done (inl RMissingNextFile, reader)
    | S k => ∃ sk r reader, after options s (take k es) sk ∧
        recover_existing (T := T) options (S (length es)) cut RecordReader_open = Done (inr r, reader) ∧ same_set r sk
    end.
Proof.
  intros Hname Hs Haft. destruct (after_encoded s s' es Hs Haft) as [Henc _].
  destruct (first_encoded options s Hname Hs) as [Hok Hnd].
  destruct (serialize_all (manifest_edits s es)) as (ds & Hds); [by constructor|].
  destruct (written ds) as (w & rs & Hrun & Hrs & Hopen & Hpre).
  set (cut := take n (rw_file w)). assert (cut `prefix_of` rw_file w) as Hcut by apply prefix_take.
  assert (∀ j, complete (length cut) rs j → longest ds (length cut) j) as Hlong.
  { intros j Hco. eapply complete_longest; [done|done|]. intros k. destruct (Hpre k) as (wk & ? & _ & ? & ?). by exists wk. }
  destruct rs as [|[d x] rs]; [subst ds; by inversion Hds|].
  pose proof Hds as Hds'. rewrite <- Hrs in Hds'. apply Forall2_cons in Hds' as [Hd Hrec].
  change (Forall2 record_of rs.*1 es.*1) in Hrec.
  destruct (read_edit (rw_file w) cut RecordReader_open 0 d x rs _ Hcut (Hopen cut) eq_refl Hd Hok Hnd) as (reader & Hm & Hread).
  assert (length rs = length es) as Hlen by (apply Forall2_length in Hrec; by rewrite !length_fmap in Hrec).
  destruct (decide (x ≤ length cut)%nat) as [Hle|Hgt].
  - destruct Hread as [Hread Hst]. destruct (recover_first options s _ Hs) as (r0 & Hr0 & Hrec0).
    destruct (recover_loop_stream (rw_file w) cut (length es) reader x rs r0 s es s' Hcut Hst Hm Hrec Hs)
      as (k & sk & r' & reader2 & [C1 C2 C3] & Hk & Hr' & _ & Hloop); [done|done|lia|].
    destruct (recover_finish_same options r' sk Hr') as (r & Hfin & Hsame & _).
    exists ds, w, (S k). split_and!; [done|done|]. cbn zeta. fold cut. split.
    + apply Hlong. split; [cbn; lia| |done]. intros [|i] ? ? Hi; [by intros [= _ <-]|]. cbn. apply C2. lia.
    + exists sk, r, reader2. split_and!; [done| |done]. unfold recover_existing. cbn [recover_loop]. rewrite Hread, Hr0.
      by rewrite Hloop, Hfin.
  - exists ds, w, 0%nat. split_and!; [done|done|]. cbn zeta. fold cut. split.
    + apply Hlong. split; [cbn; lia|intros; lia|]. intros ? ? [= _ <-]. lia.
    + exists reader. unfold recover_existing. cbn [recover_loop]. by rewrite (proj1 Hread).
Qed.
End Manifest.

(** ** Key ranges *)

Section Ranges.
Context (options : EmbeddedDBOptions).
Abbreviation kc := (do_comparator options).
Context `{!KeyComparatorLaws kc} {T : Type}.
Implicit Types (r : KeyRangeRef) (t : LevelTableEntry T) (s : VersionSet T).

Definition range_ok r : Prop := kc_key (kr_smallest r) ∧ kc_key (kr_largest r) ∧ kc_le (kr_smallest r) (kr_largest r).

(** A key that is in both ranges exists. *)
Definition overlap r1 r2 : Prop := kc_le (kr_smallest r1) (kr_largest r2) ∧ kc_le (kr_smallest r2) (kr_largest r1).

#[global] Instance overlap_dec r1 r2 : Decision (overlap r1 r2).
Proof. apply _. Defined.

Lemma overlaps_with_spec r1 r2 : range_ok r1 → range_ok r2 → overlaps_with kc r1 r2 = Some (bool_decide (overlap r1 r2)).
Proof.
  intros (K1 & K2 & L1) (K3 & K4 & L2). unfold overlaps_with, overlap.
  destruct (kc_compare_spec _ _ K1 K3) as (o & -> & Ho). cbn. destruct o.
  - destruct Ho. rewrite bool_decide_eq_true_2; [done|]. split; by etrans.
  - destruct (kc_compare_spec _ _ K2 K3) as (o' & -> & Ho'). cbn. f_equal. symmetry.
    assert (kc_le (kr_smallest r1) (kr_largest r2)) as H1.
    { destruct (kc_le_total (kr_smallest r1) (kr_smallest r2)); [by etrans|done]. }
    destruct o'; cbn; [apply bool_decide_eq_true; tauto|apply bool_decide_eq_false; tauto|apply bool_decide_eq_true].
    split; [done|]. destruct (kc_le_total (kr_smallest r2) (kr_largest r1)); done.
  - destruct (kc_compare_spec _ _ K1 K4) as (o' & -> & Ho'). cbn. f_equal. symmetry.
    assert (kc_le (kr_smallest r2) (kr_largest r1)) as H1.
    { destruct (kc_le_total (kr_smallest r1) (kr_smallest r2)); [done|by etrans]. }
    destruct o'; cbn; [apply bool_decide_eq_true; tauto| |apply bool_decide_eq_false; tauto].
    apply bool_decide_eq_true. split; [|done]. destruct (kc_le_total (kr_smallest r1) (kr_largest r2)); done.
Qed.

Lemma overlap_comm r1 r2 : overlap r1 r2 ↔ overlap r2 r1.
Proof. unfold overlap. tauto. Qed.

Lemma any_spec {X} (f : X → option bool) (P : X → Prop) `{!∀ x, Decision (P x)} l :
  (∀ x, x ∈ l → f x = Some (bool_decide (P x))) → any f l = Some (bool_decide (Exists P l)).
Proof.
  induction l as [|x l IH]; intros Hf; cbn [any]; [done|].
  rewrite (Hf x) by (by left). destruct (decide (P x)).
  - rewrite bool_decide_eq_true_2 by done. by rewrite bool_decide_eq_true_2 by (by left).
  - rewrite bool_decide_eq_false_2 by done. rewrite IH by (intros; apply Hf; by right). f_equal.
    apply bool_decide_ext. rewrite Exists_cons. tauto.
Qed.

(** The range of the union. *)
Lemma range_union_spec r1 r2 :
  range_ok r1 → range_ok r2 → ∃ r, range_union kc r1 r2 = Some r ∧ range_ok r ∧
    (∀ k, kc_le (kr_smallest r) k ↔ kc_le (kr_smallest r1) k ∨ kc_le (kr_smallest r2) k) ∧
    (∀ k, kc_le k (kr_largest r) ↔ kc_le k (kr_largest r1) ∨ kc_le k (kr_largest r2)).
Proof.
  intros (K1 & K2 & L1) (K3 & K4 & L2). unfold range_union.
  destruct (kc_compare_spec _ _ K1 K3) as (o & -> & Ho), (kc_compare_spec _ _ K2 K4) as (o' & -> & Ho'). cbn.
  eexists. split; [done|].
  assert (is_le o = true → kc_le (kr_smallest r1) (kr_smallest r2)) as A1.
  { destruct o; [intros _; apply Ho|intros _|done]. by destruct (kc_le_total (kr_smallest r1) (kr_smallest r2)). }
  assert (is_le o = false → kc_le (kr_smallest r2) (kr_smallest r1)) as A2.
  { destruct o; [done|done|intros _]. by destruct (kc_le_total (kr_smallest r1) (kr_smallest r2)). }
  assert (is_ge o' = true → kc_le (kr_largest r2) (kr_largest r1)) as B1.
  { destruct o'; [intros _; apply Ho'|done|intros _]. by destruct (kc_le_total (kr_largest r1) (kr_largest r2)). }
  assert (is_ge o' = false → kc_le (kr_largest r1) (kr_largest r2)) as B2.
  { destruct o'; [done|intros _|done]. by destruct (kc_le_total (kr_largest r1) (kr_largest r2)). }
  unfold range_ok. cbn. destruct (is_le o), (is_ge o'); cbn; (split; [split_and!; [done|done|]|split; intros k; split]);
    try tauto; try (intros [?|?]; first [done|etrans; [|eassumption]; by auto|etrans; [eassumption|]; by auto]).
  - etrans; [by apply A1|done].
  - etrans; [by apply A2|done].
Qed.

(** ** The level of a memtable *)

(** The tables of a level. *)
Definition tables_at s (n : nat) : list (LevelTableEntry T) := from_option lv_tables [] (levels (vs_latest_version s) !! n).

Definition ranges_ok s : Prop := ∀ n, Forall (λ t, range_ok (key_range t)) (tables_at s n).

Definition overlaps_level r (l : Level T) : Prop := Exists (λ t, overlap r (key_range t)) (lv_tables l).

Lemma pick_loop_spec r (ls : list (Level T)) : ∀ level highest,
  range_ok r → Forall (λ l, Forall (λ t, range_ok (key_range t)) (lv_tables l)) ls →
  ∃ i found, pick_loop options r ls level highest = Some (match i with O => highest | S i => (level + i)%nat end, found) ∧
    (i ≤ length ls)%nat ∧ (∀ j l, (j < i)%nat → ls !! j = Some l → ¬ overlaps_level r l) ∧
    if found then ∃ l, ls !! i = Some l ∧ overlaps_level r l else i = length ls.
Proof.
  induction ls as [|l ls IH]; intros level highest Hr Hls; cbn [pick_loop].
  { exists 0%nat, false. split_and!; [done|done|intros; lia|done]. }
  apply Forall_cons in Hls as [Hl Hls]. rewrite Forall_forall in Hl.
  rewrite (any_spec _ (λ t, overlap r (key_range t))) by (intros t Ht; apply overlaps_with_spec; auto).
  destruct (bool_decide _) eqn:E; fold (overlaps_level r l) in E; [apply bool_decide_eq_true in E|apply bool_decide_eq_false in E].
  - exists 0%nat, true. split_and!; [done|lia|intros; lia|by exists l].
  - destruct (IH (S level) level Hr Hls) as (i & found & Hpick & Hi & Hno & Hend).
    exists (S i), found. rewrite Hpick. split_and!; [|cbn; lia| |].
    + do 2 f_equal. destruct i; cbn; lia.
    + intros [|j] l' Hj; [by intros [= ->]|]. cbn. apply Hno. lia.
    + destruct found; [done|]. cbn. lia.
Qed.

Lemma elem_of_level s n t : t ∈ tables_at s n ↔ ∃ l, levels (vs_latest_version s) !! n = Some l ∧ t ∈ lv_tables l.
Proof. unfold tables_at. destruct (levels _ !! n); cbn; [naive_solver|]. rewrite elem_of_nil. naive_solver. Qed.

(** The level of a new table. *)
Lemma pick_level_spec s r :
  range_ok r → ranges_ok s →
  ∃ sel, pick_memtable_level options s r = Some sel ∧ (sm_level sel ≤ do_max_memtable_level options)%nat ∧
    (sm_found_overlap sel = true ↔ ∃ n t, t ∈ tables_at s n ∧ overlap r (key_range t)) ∧
    ((0 < sm_level sel)%nat → ∀ n t, (n ≤ sm_level sel)%nat → t ∈ tables_at s n → ¬ overlap r (key_range t)) ∧
    ((sm_level sel < do_max_memtable_level options)%nat →
     ∃ n t, (n ≤ S (sm_level sel))%nat ∧ t ∈ tables_at s n ∧ overlap r (key_range t)).
Proof.
  intros Hr Hs. assert (Forall (λ l, Forall (λ t, range_ok (key_range t)) (lv_tables l)) (levels (vs_latest_version s))) as Hls.
  { apply Forall_lookup. intros n l Hl. specialize (Hs n). unfold tables_at in Hs. by rewrite Hl in Hs. }
  destruct (pick_loop_spec r (levels (vs_latest_version s)) 0 0 Hr Hls) as (i & found & Hpick & Hi & Hno & Hend).
  unfold pick_memtable_level. rewrite Hpick. cbn [mbind option_bind]. eexists. split; [done|]. cbn [sm_level sm_found_overlap].
  assert (∀ n t, (n < i)%nat → t ∈ tables_at s n → ¬ overlap r (key_range t)) as Hbelow.
  { intros n t Hn (l & Hl & Ht)%elem_of_level Ho. apply (Hno n l Hn Hl). apply Exists_exists. eauto. }
  set (h := match i with O => 0%nat | S i => (0 + i)%nat end) in *. assert (i ≤ S h ∧ h ≤ i)%nat as Hh by (unfold h; destruct i; lia).
  destruct found; cbn [negb andb].
  - destruct Hend as (l & Hl & (t & Ht & Ho)%Exists_exists). assert (t ∈ tables_at s i) as Hti by (apply elem_of_level; eauto).
    split_and!; [lia|split; [|done]; intros _; eauto| |].
    + intros Hpos n t' Hn. apply Hbelow. unfold h in *. destruct i; lia.
    + intros Hlt. exists i, t. split_and!; [lia|done|done].
  - assert (∀ n t, t ∈ tables_at s n → ¬ overlap r (key_range t)) as Hnone.
    { intros n t Ht. pose proof Ht as (l & Hl%lookup_lt_Some & _)%elem_of_level. apply (Hbelow n); [lia|done]. }
    split_and!; [lia|split; [done|]; intros (n & t & Ht & Ho); by eapply Hnone in Ht|intros _ n t _; apply Hnone|].
    intros Hlt. exfalso. destruct (_ <? _)%nat eqn:E; b2p; lia.
Qed.

(** The level of a new table that is made from a memtable: for every key
    range there is a level of at most [max_memtable_level] such that, unless it
    is level 0, no table of it or of a level before it overlaps the range; it
    is the last one with this property, and [found_overlap] is true exactly
    when some table of some level overlaps. *)
Theorem pick_level_ok s r :
  range_ok r → ranges_ok s →
  ∃ sel, pick_memtable_level options s r = Some sel ∧ (sm_level sel ≤ do_max_memtable_level options)%nat ∧
    (sm_found_overlap sel = true ↔ ∃ n t, t ∈ tables_at s n ∧ overlap r (key_range t)) ∧
    ((0 < sm_level sel)%nat → ∀ n t, (n ≤ sm_level sel)%nat → t ∈ tables_at s n → ¬ overlap r (key_range t)) ∧
    ((sm_level sel < do_max_memtable_level options)%nat →
     ∃ n t, (n ≤ S (sm_level sel))%nat ∧ t ∈ tables_at s n ∧ overlap r (key_range t)).
Proof. apply pick_level_spec. Qed.

(** ** Tables to compact *)

(** Tables in the order of their keys that do not overlap. *)
Definition disjoint_tables (tables : list (LevelTableEntry T)) : Prop :=
  StronglySorted (λ t t', ¬ kc_le (kr_smallest (key_range t')) (kr_largest (key_range t))) tables.

Lemma disjoint_app l1 l2 : disjoint_tables (l1 ++ l2) → disjoint_tables l1 ∧ disjoint_tables l2.
Proof. unfold disjoint_tables. rewrite StronglySorted_app. tauto. Qed.

(** What is between two tables that overlap a range overlaps it. *)
Lemma overlap_between r t1 t t2 :
  range_ok (key_range t) → overlap (key_range t1) r → overlap (key_range t2) r →
  ¬ kc_le (kr_smallest (key_range t)) (kr_largest (key_range t1)) →
  ¬ kc_le (kr_smallest (key_range t2)) (kr_largest (key_range t)) → overlap (key_range t) r.
Proof.
  intros (_ & _ & Ht) [O1 O2] [O3 O4] N1 N2. split.
  - etrans; [apply Ht|]. etrans; [|apply O3]. by destruct (kc_le_total (kr_largest (key_range t)) (kr_smallest (key_range t2))).
  - etrans; [apply O2|]. etrans; [|apply Ht]. by destruct (kc_le_total (kr_largest (key_range t1)) (kr_smallest (key_range t))).
Qed.

Lemma trim_tables_spec r fuel : ∀ tables,
  range_ok r → Forall (λ t, range_ok (key_range t)) tables → disjoint_tables tables → (length tables ≤ fuel)%nat →
  trim_tables options fuel r tables = Done (filter (λ t, overlap (key_range t) r) tables).
Proof.
  induction fuel as [|fuel IH]; intros tables Hr Hok Hd Hf.
  { destruct tables; [done|cbn in Hf; lia]. }
  destruct tables as [|t ts]; [done|]. destruct (last (t :: ts)) as [t'|] eqn:Hlast; [|by apply last_None in Hlast].
  pose proof Hok as [Ht Hts]%Forall_cons. pose proof Hlast as [l Hl]%last_Some.
  assert (range_ok (key_range t')) as Ht' by (rewrite Hl in Hok; apply Forall_app in Hok as [_ Hok]; by apply Forall_cons in Hok as [? _]).
  cbn [trim_tables head]. rewrite Hlast, !overlaps_with_spec by done.
  destruct (bool_decide (overlap (key_range t) r)) eqn:E1; [apply bool_decide_eq_true in E1|apply bool_decide_eq_false in E1].
  2:{ cbn [drop]. rewrite drop_0, IH; [by rewrite filter_cons_False|done|done|by apply StronglySorted_inv in Hd as [? _]|cbn in Hf; lia]. }
  destruct (bool_decide (overlap (key_range t') r)) eqn:E2; [apply bool_decide_eq_true in E2|apply bool_decide_eq_false in E2].
  - f_equal. symmetry. apply filter_true. apply Forall_lookup. intros i x Hi.
    destruct (decide (i = 0)%nat) as [->|Hi0]; [by injection Hi as <-|].
    rewrite Hl in Hi. apply lookup_snoc_Some in Hi as [[Hlt Hi]|[_ <-]]; [|done].
    assert (x ∈ ts) as Hx.
    { destruct i as [|i]; [done|]. assert ((t :: ts) !! S i = Some x) as Hi' by (rewrite Hl; by apply lookup_app_l_Some).
      by eapply (list_elem_of_lookup_2 ts i). }
    apply (overlap_between r t x t'); [|done|done| |].
    + rewrite Forall_forall in Hts. auto.
    + apply StronglySorted_inv in Hd as [_ Hd]. rewrite Forall_forall in Hd. auto.
    + rewrite Hl in Hd. unfold disjoint_tables in Hd. apply StronglySorted_app in Hd as (Hd & _). apply Hd; [by eapply list_elem_of_lookup_2|by left].
  - rewrite Hl, length_app. cbn [length]. replace (length l + 1 - 1)%nat with (length l) by lia. rewrite take_app_length.
    rewrite Hl in Hok, Hd, Hf. rewrite IH; [|done|by apply Forall_app in Hok as [? _]|by apply disjoint_app in Hd as [? _]|rewrite length_app in Hf; cbn in Hf; lia].
    by rewrite filter_app, filter_cons_False, app_nil_r by done.
Qed.

(** A range that spans those of tables, exactly. *)
Definition spans r (tables : list (LevelTableEntry T)) : Prop :=
  range_ok r ∧
  (∀ k, kc_le (kr_smallest r) k ↔ Exists (λ t, kc_le (kr_smallest (key_range t)) k) tables) ∧
  (∀ k, kc_le k (kr_largest r) ↔ Exists (λ t, kc_le k (kr_largest (key_range t))) tables).

Lemma union_ranges_spec ts : ∀ r done,
  spans r done → Forall (λ t, range_ok (key_range t)) ts → ∃ r', union_ranges options r ts = Some r' ∧ spans r' (done ++ ts).
Proof.
  induction ts as [|t ts IH]; intros r done (Hr & Hs & Hl) Hok; cbn [union_ranges].
  { exists r. rewrite app_nil_r. done. }
  apply Forall_cons in Hok as [Ht Hok]. destruct (range_union_spec r (key_range t) Hr Ht) as (r1 & -> & Hr1 & Hs1 & Hl1).
  cbn. destruct (IH r1 (done ++ [t])) as (r' & Hrun & Hr'); [|done|].
  - split_and!; [done|intros k; rewrite Hs1, Hs|intros k; rewrite Hl1, Hl]; rewrite Exists_app, Exists_cons, Exists_nil; tauto.
  - exists r'. split; [done|]. by rewrite <- (assoc_L (++)) in Hr'.
Qed.

Lemma no_level_over_limit (ls : list (Level T)) : ∀ n, Forall (λ l, lv_total_size l ≤ lv_max_size l) ls → level_over_limit ls n = None.
Proof.
  induction ls as [|l ls IH]; intros n Hls; cbn; [done|]. apply Forall_cons in Hls as [Hl Hls].
  rewrite (proj2 (Z.ltb_ge _ _)) by lia. auto.
Qed.

(** The limits of the levels are not negative, and their recorded sizes are 0. *)
Lemma levels_empty s A :
  holds options (vs_latest_version s) A → 0 ≤ do_max_bytes_for_level_base options →
  0 ≤ do_max_bytes_for_level_multiplier options →
  Forall (λ l, lv_total_size l = 0 ∧ 0 ≤ lv_max_size l) (levels (vs_latest_version s)).
Proof.
  intros Hh Hb Hm. apply Forall_lookup. intros n l Hl. pose proof (ho_levels _ _ _ Hh n l Hl) as Hnew.
  pose proof (new_level_empty options _ _ Hnew) as [_ Ht]. cbn in Ht. split; [done|].
  destruct n as [|n]; unfold new_level in Hnew; [injection Hnew as ? <- ?; done|].
  apply bind_Some in Hnew as (size & Hsize & Hnew). apply bind_Some in Hnew as (target & _ & [= _ <- _]).
  unfold u64_mul_pow in Hsize. destruct (_ <? _); [done|]. destruct (_ <? _); [done|]. injection Hsize as <-.
  apply Z.mul_nonneg_nonneg; [done|]. by apply Z.pow_nonneg.
Qed.

(** The tables of a compaction. *)
Lemma select_compaction_spec (rng : Z) s A :
  holds options (vs_latest_version s) A → ranges_ok s → (∀ n, (0 < n)%nat → disjoint_tables (tables_at s n)) →
  0 ≤ do_max_bytes_for_level_base options → 0 ≤ do_max_bytes_for_level_multiplier options →
  (0 < do_level0_file_num_compaction_trigger options)%nat →
  ∃ res, select_tables_to_compaction options rng s = Done res ∧
    match res with
    | None => (length (levels (vs_latest_version s)) ≤ 1)%nat ∨
              (length (tables_at s 0) < do_level0_file_num_compaction_trigger options)%nat
    | Some c =>
      (do_level0_file_num_compaction_trigger options ≤ length (tables_at s 0))%nat ∧
      cp_level c = 0%nat ∧ cp_tables c = tables_at s 0 ∧ cp_next_level c = 1%nat ∧
      ∃ r, spans r (tables_at s 0) ∧
        cp_next_level_tables c = filter (λ t, overlap (key_range t) r) (tables_at s 1) ∧
        (cp_found_overlap c = true ↔ ∃ n t, (2 ≤ n)%nat ∧ t ∈ tables_at s n ∧ overlap (key_range t) r)
    end.
Proof.
  intros Hh Hok Hdis Hb Hm Htrig. pose proof (levels_empty s A Hh Hb Hm) as Hempty.
  unfold select_tables_to_compaction, select_level.
  destruct (levels (vs_latest_version s)) as [|l0 [|l1 ls]] eqn:Hls; [eexists; split; [done|]; left; cbn; lia..|].
  assert (tables_at s 0 = lv_tables l0 ∧ tables_at s 1 = lv_tables l1) as [T0 T1] by (unfold tables_at; by rewrite Hls).
  rewrite T0. destruct (_ <=? length (lv_tables l0))%nat eqn:E; b2p.
  2:{ rewrite no_level_over_limit; [eexists; split; [done|]; by right|]. apply Forall_cons in Hempty as [_ Hempty].
      cbn [drop]. eapply Forall_impl; [exact Hempty|]. cbn. lia. }
  pose proof (Hok 0%nat) as Hok0. rewrite T0 in Hok0.
  destruct (lv_tables l0) as [|t ts] eqn:Htab; [cbn in E; lia|]. pose proof Hok0 as [Ht Hts]%Forall_cons.
  destruct (union_ranges_spec ts (key_range t) [t]) as (r & -> & Hspan); [|done|].
  { split_and!; [done|intros k; by rewrite Exists_cons, Exists_nil; split; [left|intros [?|?]]..]. }
  cbn [lookup list_lookup from_option]. pose proof (Hok 1%nat) as Hok1. rewrite T1 in Hok1.
  rewrite (trim_tables_spec r); [|apply Hspan|done|rewrite <- T1; apply Hdis; lia|done].
  unfold find_overlapping_tables. rewrite Hls.
  rewrite (any_spec _ (λ l, Exists (λ t, overlap (key_range t) r) (lv_tables l))).
  2:{ intros l (i & Hi)%list_elem_of_lookup. rewrite lookup_drop, <- Hls in Hi. apply any_spec. intros x Hx.
      apply overlaps_with_spec; [|apply Hspan]. specialize (Hok (2 + i)%nat). rewrite Forall_forall in Hok. apply Hok.
      apply elem_of_level. eauto. }
  eexists. split; [done|]. cbn [cp_level cp_tables cp_next_level cp_next_level_tables cp_found_overlap].
  split_and!; [done..|]. exists r. split_and!; [done|by rewrite T1|]. rewrite bool_decide_eq_true, Exists_exists. split.
  - intros (l & (i & Hi)%list_elem_of_lookup & (x & Hx & Ho)%Exists_exists). rewrite lookup_drop, <- Hls in Hi.
    exists (2 + i)%nat, x. split_and!; [lia|apply elem_of_level; eauto|done].
  - intros (n & x & Hn & (l & Hl & Hx)%elem_of_level & Ho). exists l. split; [|apply Exists_exists; eauto].
    rewrite Hls in Hl. apply list_elem_of_lookup. exists (n - 2)%nat. rewrite lookup_drop. replace (2 + (n - 2))%nat with n by lia. done.
Qed.

(** C39: The tables that [select_tables_to_compaction] selects. In every
    version set that edits lead to from a new one, if the ranges of its tables
    are in order and the tables of each level after the first do not overlap,
    the selection does not panic. It selects, exactly when level 0 has enough
    tables and is not the only level, all of them with all tables of level 1
    that overlap their range, and tells whether a later level overlaps it. It
    never selects the tables of another level, however large they are: the size
    of a level that is compared with its limit is never updated. (Tables with
    stale entries are selected elsewhere, by [select_stale_table_to_compact].)
    The trigger is positive and the limits are not negative. *)
Theorem select_compaction_ok (rng : Z) (es : list (VersionEdit * list T)) s :
  after options VersionSet_new es s → ranges_ok s → (∀ n, (0 < n)%nat → disjoint_tables (tables_at s n)) →
  0 ≤ do_max_bytes_for_level_base options → 0 ≤ do_max_bytes_for_level_multiplier options →
  (0 < do_level0_file_num_compaction_trigger options)%nat →
  ∃ res, select_tables_to_compaction options rng s = Done res ∧
    match res with
    | None => (length (levels (vs_latest_version s)) ≤ 1)%nat ∨
              (length (tables_at s 0) < do_level0_file_num_compaction_trigger options)%nat
    | Some c =>
      (do_level0_file_num_compaction_trigger options ≤ length (tables_at s 0))%nat ∧
      cp_level c = 0%nat ∧ cp_tables c = tables_at s 0 ∧ cp_next_level c = 1%nat ∧
      ∃ r, spans r (tables_at s 0) ∧
        cp_next_level_tables c = filter (λ t, overlap (key_range t) r) (tables_at s 1) ∧
        (cp_found_overlap c = true ↔ ∃ n t, (2 ≤ n)%nat ∧ t ∈ tables_at s n ∧ overlap (key_range t) r)
    end.
Proof.
  intros Haft. destruct (after_encoded options _ _ _ (new_state_ok options) Haft) as [_ Hs].
  exact (select_compaction_spec rng s _ (so_holds _ _ _ Hs)).
Qed.
End Ranges.

(** ** Examples *)

Definition sample_options : EmbeddedDBOptions :=
  mkEmbeddedDBOptions 2 2 100 1 1000 10 BytewiseComparator (literal "leveldb.BytewiseComparator"%string).

(** A log is made, and a table with a few keys in each of two levels. *)
Definition log_edit : VersionEdit := mkVersionEdit None (Some 2) None None [] [] (Some 3) None.
Definition table_edit : VersionEdit :=
  mkVersionEdit None None (Some 0) (Some 9)
    [mkNewFileEntry 1 3 50 [1] [4] (Some (1, 9)); mkNewFileEntry 0 4 50 [3] [7] None] [] (Some 5) None.

Lemma sample_name_ok : name_ok sample_options.
Proof. split; by vm_compute. Qed.

Lemma sample_state_ok : state_ok sample_options (VersionSet_new (T := unit)).
Proof. apply new_state_ok. Qed.

Lemma log_edit_valid : edit_valid sample_options (VersionSet_new (T := unit)) log_edit.
Proof.
  split; unfold next_of; cbn; try done; try lia.
  - intros n [= <-]. lia.
  - constructor.
  - intros d Hd. by apply elem_of_nil in Hd.
  - split; constructor.
Qed.

(** The state after the first edit. *)
Definition after_log : VersionSet unit := mkVersionSet Version_new 3 (Some 2) None 0 None.

Lemma table_edit_valid : edit_valid sample_options after_log table_edit.
Proof.
  assert (∀ l, Forall (λ b, 0 ≤ b < 256) l → kc_key (KeyComparatorLaws := BytewiseComparator_laws) l) as Hkey by done.
  split; unfold next_of; cbn; try done; try lia.
  - intros n [= <-]. lia.
  - constructor.
  - intros d Hd. by apply elem_of_nil in Hd.
  - split.
    + repeat apply Forall_cons_2; [..|constructor]; (split; [split; apply Hkey; repeat constructor; lia|split; [cbn; lia|]]);
        intros [|[|m]] Hm; unfold level_of in Hm; cbn in Hm; try lia; by eexists.
    + repeat constructor; cbn; lia.
  - repeat apply Forall_cons_2; [..|constructor]; (split; [|cbn; lia]); split; unfold u64, slice_ok; cbn; lia.
Qed.

Lemma manifest_recovery_witness :
  ∃ ds w j, Forall2 record_of ds (manifest_edits sample_options (VersionSet_new (T := unit)) [(log_edit, []); (table_edit, [(); ()])]) ∧
    append_records ds RecordWriter_new = Done (tt, w) ∧
    let cut := take 60 (rw_file w) in
    longest ds (length cut) j ∧
    match j with
    | O => ∃ reader, recover_existing (T := unit) sample_options 3 cut RecordReader_open = Done (inl RMissingNextFile, reader)
    | S k => ∃ sk r reader, after sample_options (VersionSet_new (T := unit)) (take k [(log_edit, []); (table_edit, [(); ()])]) sk ∧
        recover_existing (T := unit) sample_options 3 cut RecordReader_open = Done (inr r, reader) ∧ same_set r sk
    end.
Proof.
  destruct (apply_state_ok sample_options _ table_edit [(); ()]
    ltac:(eapply set_ok_state, (edit_set_ok sample_options _ _ log_edit Version_new sample_state_ok log_edit_valid), version_new_holds)
    table_edit_valid eq_refl) as (v & Hv & _).
  apply (manifest_recovery sample_options VersionSet_new (edited table_edit after_log v)
    [(log_edit, []); (table_edit, [(); ()])] 60 sample_name_ok sample_state_ok).
  apply after_cons with (s1 := after_log); [apply log_edit_valid|done|reflexivity|].
  eapply after_cons; [apply table_edit_valid|done|exact Hv|constructor].
Defined.

(** Two tables in level 0 and one in each of the levels 1 and 2. *)
Definition sample_table (level number : Z) (smallest largest : bytes) : LevelTableEntry unit :=
  mkLevelTableEntry (Some tt) (mkNewFileEntry level number 10 smallest largest None).
Definition sample_set : VersionSet unit :=
  mkVersionSet (mkVersion
    [mkLevel 0 0 0 [sample_table 0 5 [1] [4]; sample_table 0 6 [3] [5]];
     mkLevel 0 1000 100 [sample_table 1 4 [2] [3]; sample_table 1 3 [7] [8]];
     mkLevel 0 10000 100 [sample_table 2 2 [9] [9]]]) 7 None None 0 None.

Lemma sample_key l : forallb (λ b, (0 <=? b) && (b <? 256)) l = true → kc_key (KeyComparatorLaws := BytewiseComparator_laws) l.
Proof.
  intros Hl. apply Forall_forall. intros b Hb. rewrite forallb_forall in Hl. specialize (Hl b). rewrite <- list_elem_of_In in Hl.
  specialize (Hl Hb). unfold byte. b2p. lia.
Qed.

Lemma sample_ranges_ok : ranges_ok sample_options sample_set.
Proof.
  intros [|[|[|n]]]; cbn; repeat apply Forall_cons_2; try apply Forall_nil_2;
    (split; [by apply sample_key|split; [by apply sample_key|by vm_compute]]).
Qed.

(** The edit that makes it. *)
Definition sample_edit : VersionEdit :=
  mkVersionEdit None None None None
    [mkNewFileEntry 2 2 10 [9] [9] None; mkNewFileEntry 1 3 10 [7] [8] None; mkNewFileEntry 1 4 10 [2] [3] None;
     mkNewFileEntry 0 5 10 [1] [4] None; mkNewFileEntry 0 6 10 [3] [5] None] [] (Some 7) None.

Lemma sample_edit_valid : edit_valid sample_options (VersionSet_new (T := unit)) sample_edit.
Proof.
  split; unfold next_of; cbn; try done; try lia.
  - constructor.
  - intros d Hd. by apply elem_of_nil in Hd.
  - split.
    + repeat apply Forall_cons_2; [..|constructor]; (split; [split; by apply sample_key|split; [cbn; lia|]]);
        intros [|[|[|m]]] Hm; unfold level_of in Hm; cbn in Hm; try lia; by eexists.
    + repeat constructor; cbn; lia.
  - repeat apply Forall_cons_2; [..|constructor]; (split; [|cbn; lia]); split; unfold u64, slice_ok; cbn; lia.
Qed.

Lemma sample_after : after sample_options VersionSet_new [(sample_edit, replicate 5 ())] sample_set.
Proof. apply after_cons with (s1 := sample_set); [apply sample_edit_valid|done|by vm_compute|constructor]. Qed.

Lemma pick_level_ok_witness :
  ∃ sel, pick_memtable_level sample_options sample_set (mkKeyRangeRef [8] [9]) = Some sel ∧ (sm_level sel ≤ 2)%nat ∧
    (sm_found_overlap sel = true ↔ ∃ n t, t ∈ tables_at sample_set n ∧ overlap sample_options (mkKeyRangeRef [8] [9]) (key_range t)) ∧
    ((0 < sm_level sel)%nat → ∀ n t, (n ≤ sm_level sel)%nat → t ∈ tables_at sample_set n →
      ¬ overlap sample_options (mkKeyRangeRef [8] [9]) (key_range t)) ∧
    ((sm_level sel < 2)%nat →
     ∃ n t, (n ≤ S (sm_level sel))%nat ∧ t ∈ tables_at sample_set n ∧ overlap sample_options (mkKeyRangeRef [8] [9]) (key_range t)).
Proof.
  apply (pick_level_ok sample_options sample_set (mkKeyRangeRef [8] [9])); [|apply sample_ranges_ok].
  split; [by apply sample_key|split; [by apply sample_key|by vm_compute]].
Defined.

Lemma select_compaction_ok_witness :
  ∃ res, select_tables_to_compaction sample_options 5 sample_set = Done res ∧ is_Some res.
Proof.
  destruct (select_compaction_ok sample_options 5 _ sample_set sample_after) as (res & Hres & Hspec).
  - apply sample_ranges_ok.
  - intros [|[|[|n]]] Hn; [lia|..]; cbn; repeat constructor; by vm_compute.
  - done.
  - done.
  - cbn. lia.
  - exists res. split; [done|]. destruct res; [by eexists|]. cbn in Hspec. lia.
Defined.
