(* ===== verification/LevelIterator.v ===== *)
(** * Iterators over a level

    [LevelIterator] of src/pkg/sstable/src/db/level_iterator.rs, over any
    type of tables and of iterators over a table, and the iterators that a
    snapshot creates over a version (src/pkg/sstable/src/db/snapshot.rs). *)

From S2P Require Import Prelude Wire Encoding Comparator MergeIterator Snapshot VersionEdit Table Version.

Section LevelIterator.
(** [SSTable], [SSTableIterator] and [SSTable::iter] *)
Context {T J : Type} (table_iter : T → J) {HJ : Iterable J} (options : EmbeddedDBOptions).

Record LevelIterator := mkLevelIterator {
  li_version : Version T;
  li_level_index : nat;
  li_next_table_index : nat;
  li_current_table_iterator : option J;
}.

Definition LevelIterator_new (version : Version T) (level_index : nat) : run LevelIterator :=
  if (level_index =? 0)%nat then Panicked else Done (mkLevelIterator version level_index 0 None).

Definition li_set (next_table_index : nat) (current : option J) : M LevelIterator unit :=
  modify (λ s, mkLevelIterator (li_version s) (li_level_index s) next_table_index current).

(** [&self.version.levels[self.level_index].tables] *)
Definition li_tables : M LevelIterator (list (LevelTableEntry T)) :=
  let! s := gets id in
  let! level := unwrap (levels (li_version s) !! li_level_index s) in
  ret (lv_tables level).

(** [tables[i].table().await.iter()] *)
Definition entry_iter (tables : list (LevelTableEntry T)) (i : nat) : option J :=
  entry ← tables !! i;
  table ← lt_table entry;
  Some (table_iter table).

(** The iterator that a round of [next] takes or opens, if there is one. *)
Definition take_iterator (tables : list (LevelTableEntry T)) : M LevelIterator (option J) :=
  let! s := gets id in
  match li_current_table_iterator s with
  | Some iter => li_set (li_next_table_index s) None ;! ret (Some iter)
  | None =>
    if (length tables <=? li_next_table_index s)%nat then ret None else
    let! iter := unwrap (entry_iter tables (li_next_table_index s)) in
    li_set (S (li_next_table_index s)) None ;!
    ret (Some iter)
  end.

(** The loop of [next]: every round but the last finishes a table. *)
Fixpoint level_next_loop (fuel : nat) (tables : list (LevelTableEntry T))
    : M LevelIterator (Result (option KeyValueEntry)) :=
  let! iter := take_iterator tables in
  match iter with
  | None => ret (inr None)
  | Some iter =>
    let! (entry, iter) := call it_next iter in
    match entry with
    | inl e => ret (inl e)
    | inr (Some entry) =>
      let! s := gets id in
      li_set (li_next_table_index s) (Some iter) ;!
      ret (inr (Some entry))
    | inr None =>
      match fuel with
      | O => out_of_fuel
      | S fuel => level_next_loop fuel tables
      end
    end
  end.

Definition level_next : M LevelIterator (Result (option KeyValueEntry)) :=
  let! tables := li_tables in
  level_next_loop (length tables) tables.

Definition level_seek (key : bytes) : M LevelIterator (Result unit) :=
  let! tables := li_tables in
  let! table_idx := lift_run (lower_bound_list tables
    (λ table, is_ge <$> kc_compare (do_comparator options) (nf_largest_key (lt_entry table)) key)) in
  match table_idx with
  | Some idx =>
    let! iter := unwrap (entry_iter tables idx) in
    let! (res, iter) := call (it_seek key) iter in
    match res with
    | inl e => ret (inl e)
    | inr _ => li_set (S idx) (Some iter) ;! ret (inr tt)
    end
  | None => li_set (length tables) None ;! ret (inr tt)
  end.

#[export] Instance level_iterable : Iterable LevelIterator := {| it_next := level_next; it_seek := level_seek |}.

(** The iterators of a snapshot over the tables of a version: one for every
    table of level 0 and one for every other level. *)
Fixpoint table_iters (entries : list (LevelTableEntry T)) : run (list (J + LevelIterator)) :=
  match entries with
  | [] => Done []
  | entry :: entries =>
    match lt_table entry, table_iters entries with
    | Some table, Done iters => Done (inl (table_iter table) :: iters)
    | None, _ => Panicked
    | _, r => r
    end
  end.

Fixpoint level_iters (version : Version T) (level_indices : list nat) : run (list (J + LevelIterator)) :=
  match level_indices with
  | [] => Done []
  | i :: level_indices =>
    match LevelIterator_new version i, level_iters version level_indices with
    | Done iter, Done iters => Done (inr iter :: iters)
    | Done _, r => r
    | Panicked, _ => Panicked
    | OutOfFuel, _ => OutOfFuel
    end
  end.

Definition version_iters (version : Version T) : run (list (J + LevelIterator)) :=
  match table_iters (from_option lv_tables [] (levels version !! 0%nat)),
    level_iters version (seq 1 (length (levels version) - 1)) with
  | Done iters, Done iters' => Done (iters ++ iters')
  | Done _, r => r
  | r, _ => r
  end.
End LevelIterator.
Arguments LevelIterator : clear implicits.
