(* ===== verification/LevelIteratorTheorems.v ===== *)
(** * Properties of the iterators over a level

    A level iterator over tables in order is an iterator over the rows of all
    of them, for [next] and for [seek]; reading a version is reading the rows
    of its tables. *)

From S2P Require Import Prelude Algorithms Wire Encoding Comparator SkipList RecordLog WriteBatch BinaryHeap MergeIterator MergeIteratorTheorems.
From S2P Require Import Snapshot SnapshotProofs SnapshotTheorems VersionEdit Table TableProofs Version VersionProofs LevelIterator.

Section Level.
Context {T J : Type} (table_iter : T → J) {HJ : Iterable J} (options : EmbeddedDBOptions).
Abbreviation c := (do_comparator options).
Context `{!KeyComparatorLaws c} {LJ : IterableLaws c J}.
Abbreviation Entry := (LevelTableEntry T).

(** An open table with the given rows, the last of which has the largest key
    of its entry. *)
Definition entry_holds (e : Entry) (rows : list KeyValueEntry) : Prop :=
  ∃ t l k v, lt_table e = Some t ∧ it_rep c (table_iter t) rows rows ∧ rows = l ++ [(k, v)] ∧ nf_largest_key (lt_entry e) = k.

(** The rows that are left. *)
Definition li_left (next : nat) (current : option J) (rows : list (list KeyValueEntry)) (rest : list KeyValueEntry) : Prop :=
  match current with
  | None => rest = concat (drop next rows)
  | Some j => ∃ i r rj, next = S i ∧ rows !! i = Some r ∧ it_rep c j r rj ∧ rest = rj ++ concat (drop next rows)
  end.

Definition level_rep (it : LevelIterator T J) (all rest : list KeyValueEntry) : Prop :=
  ∃ level rows, levels (li_version it) !! li_level_index it = Some level ∧
    Forall2 entry_holds (lv_tables level) rows ∧ entries_ok c all ∧ all = concat rows ∧
    li_left (li_next_table_index it) (li_current_table_iterator it) rows rest.

Lemma concat_drop_suffix {A} n (l : list (list A)) : concat (drop n l) `suffix_of` concat l.
Proof. exists (concat (take n l)). by rewrite <- concat_app, take_drop. Qed.

Lemma level_rep_ok it all rest : level_rep it all rest → entries_ok c all ∧ rest `suffix_of` all.
Proof.
  intros (level & rows & _ & _ & Hok & -> & Hl). split; [done|]. unfold li_left in Hl.
  destruct (li_current_table_iterator it) as [j|]; [|subst; apply concat_drop_suffix].
  destruct Hl as (i & r & rj & -> & Hr & Hj & ->). destruct (it_rep_ok _ _ _ _ Hj) as [_ [k ->]].
  etrans; [|apply (concat_drop_suffix i)]. exists k. rewrite (drop_S _ _ _ Hr). cbn. by rewrite <- app_assoc.
Qed.

Lemma entry_iter_ok tables rows i r :
  Forall2 entry_holds tables rows → rows !! i = Some r →
  ∃ j, entry_iter table_iter tables i = Some j ∧ it_rep c j r r.
Proof.
  intros Ht Hr. destruct (Forall2_lookup_r _ _ _ _ _ Ht Hr) as (e & He & t & _ & _ & _ & E & Hrep & _).
  exists (table_iter t). unfold entry_iter. rewrite He. cbn. by rewrite E.
Qed.

(** The rounds of [next]. *)
Lemma level_next_loop_ok fuel it level rows rest :
  Forall2 entry_holds (lv_tables level) rows →
  li_left (li_next_table_index it) (li_current_table_iterator it) rows rest →
  (from_option (λ _, 1) 0 (li_current_table_iterator it) + (length rows - li_next_table_index it) ≤ fuel)%nat →
  ∃ it', level_next_loop table_iter fuel (lv_tables level) it = Done (inr (head rest), it') ∧
    li_version it' = li_version it ∧ li_level_index it' = li_level_index it ∧
    li_left (li_next_table_index it') (li_current_table_iterator it') rows (tail rest).
Proof.
  intros Ht. pose proof (Forall2_length _ _ _ Ht) as Hlen. revert it rest.
  induction fuel as [|fuel IH]; intros it rest Hl Hf; destruct it as [v n next [j|]]; cbn in Hl, Hf; try lia.
  - subst rest. rewrite drop_ge by lia. exists (mkLevelIterator v n next None). cbn.
    unfold take_iterator, bind, gets. cbn. rewrite (proj2 (Nat.leb_le _ _)) by lia. by rewrite drop_ge by lia.
  - destruct Hl as (i & r & rj & -> & Hr & Hj & ->). destruct (it_next_spec _ _ _ _ Hj) as (j' & Hn & Hj').
    cbn [level_next_loop]. unfold take_iterator, bind at 1 2, gets at 1. cbn. unfold call, bind at 1. rewrite Hn.
    destruct rj as [|e rj]; cbn [head tail] in *.
    + destruct (IH (mkLevelIterator v n (S i) None) (concat (drop (S i) rows)) eq_refl ltac:(cbn; lia)) as (it' & -> & ?).
      by exists it'.
    + eexists. split; [done|]. cbn. split; [done|]. split; [done|]. by exists i, r, rj.
  - subst rest. cbn [level_next_loop]. unfold take_iterator, bind at 1 2, gets at 1. cbn.
    destruct (decide (length rows ≤ next)%nat) as [Hge|Hlt].
    + rewrite (proj2 (Nat.leb_le _ _)), drop_ge by lia. eexists. split; [done|]. cbn. by rewrite drop_ge by lia.
    + rewrite (proj2 (Nat.leb_gt _ _)) by lia. destruct (lookup_lt_is_Some_2 rows next ltac:(lia)) as [r Hr].
      destruct (entry_iter_ok _ _ _ _ Ht Hr) as (j & Hj & Hrep). rewrite Hj. cbn.
      destruct (it_next_spec _ _ _ _ Hrep) as (j' & Hn & Hj'). unfold call, bind at 1. rewrite Hn.
      rewrite (drop_S _ _ _ Hr). destruct r as [|e r]; cbn [head tail concat app] in *.
      * destruct (IH (mkLevelIterator v n (S next) None) (concat (drop (S next) rows)) eq_refl ltac:(cbn; lia)) as (it' & -> & ?).
        by exists it'.
      * eexists. split; [done|]. cbn. split; [done|]. split; [done|]. by exists next, (e :: r), r.
Qed.

Lemma li_tables_ok (it : LevelIterator T J) level :
  levels (li_version it) !! li_level_index it = Some level → li_tables it = Done (lv_tables level, it).
Proof. intros H. unfold li_tables, bind, gets. change (id it) with it. by rewrite H. Qed.

Lemma level_next_ok it all rest : level_rep it all rest →
  ∃ it', level_next table_iter it = Done (inr (head rest), it') ∧ level_rep it' all (tail rest).
Proof.
  intros (level & rows & Hv & Ht & Hok & -> & Hl). pose proof (Forall2_length _ _ _ Ht) as Hlen.
  destruct (level_next_loop_ok (length (lv_tables level)) it level rows rest Ht Hl) as (it' & Hrun & Ev & Ei & Hl').
  { rewrite Hlen. unfold li_left in Hl. destruct (li_current_table_iterator it); cbn [from_option]; [|lia].
    destruct Hl as (i & r & rj & -> & Hr & _). apply lookup_lt_Some in Hr. lia. }
  exists it'. split.
  - unfold level_next, bind. by rewrite (li_tables_ok it level Hv).
  - exists level, rows. by rewrite Ev, Ei.
Qed.

(** The rows up to and after the last row of a table. *)
Lemma last_row_bounds l k v rest :
  entries_ok c ((l ++ [(k, v)]) ++ rest) →
  Forall (λ e, kc_le e.1 k) (l ++ [(k, v)]) ∧ Forall (λ e, kc_le k e.1) rest ∧ entries_ok c rest.
Proof.
  intros Hok. pose proof Hok as [_ Hs]. split; [|split].
  - apply StronglySorted_app_1_l in Hs. apply Forall_app. split; [|by repeat constructor].
    apply Forall_forall. intros e He. apply (entry_lt_le c e (k, v)), (StronglySorted_app_1_elem_of _ _ _ _ _ Hs); set_solver.
  - apply Forall_forall. intros e He. apply (entry_lt_le c (k, v) e), (StronglySorted_app_1_elem_of _ _ _ _ _ Hs); set_solver.
  - eapply entries_suffix; [exact Hok|]. by eexists.
Qed.

(** The first table that reaches the key has the first row from it on. *)
Lemma level_seek_split key tables rows :
  Forall2 entry_holds tables rows → entries_ok c (concat rows) →
  ∃ n, (n ≤ length tables)%nat ∧
    holds_before (λ e : Entry, negb (bool_decide (kc_le key (nf_largest_key (lt_entry e))))) n tables ∧
    filter (λ e, kc_le key e.1) (concat rows) =
      match rows !! n with Some r => filter (λ e, kc_le key e.1) r ++ concat (drop (S n) rows) | None => [] end.
Proof.
  induction 1 as [|e r tables rows He Ht IH]; [exists 0%nat; done|]. cbn [concat]. intros Hok.
  destruct He as (t & l & k & v & _ & _ & -> & Ek). destruct (last_row_bounds _ _ _ _ Hok) as (Hr & Hrest & Hok').
  rewrite filter_app. destruct (decide (kc_le key k)) as [Hle|Hnle].
  - exists 0%nat. split; [lia|]. split.
    + intros i x Hx. rewrite (bool_decide_eq_false_2 (i < 0)%nat) by lia. rewrite bool_decide_eq_true_2; [done|].
      destruct i as [|i]; [injection Hx as <-; by rewrite Ek|]. cbn in Hx.
      destruct (Forall2_lookup_l _ _ _ _ _ Ht Hx) as (r & Hi & _ & l' & k' & v' & _ & _ & -> & ->).
      etrans; [exact Hle|]. rewrite Forall_forall in Hrest. apply (Hrest (k', v')).
      apply list_elem_of_In, in_concat. exists (l' ++ [(k', v')]). split; [|apply in_or_app; right; by left].
      apply list_elem_of_In. by eapply list_elem_of_lookup_2.
    + cbn [lookup list_lookup drop]. rewrite drop_0. f_equal. apply filter_true.
      eapply Forall_impl; [exact Hrest|]. intros x Hx. cbn. by etrans.
  - destruct (IH Hok') as (n & Hn & Hb & Hf). exists (S n). split; [cbn; lia|]. split.
    + intros [|i] x Hx; [injection Hx as <-; by rewrite Ek, bool_decide_eq_false_2|].
      rewrite (Hb i x Hx). apply bool_decide_ext. lia.
    + rewrite (filter_none _ (l ++ _)); [exact Hf|]. eapply Forall_impl; [exact Hr|]. intros x Hx Hk. apply Hnle. by etrans.
Qed.

Lemma level_seek_ok it all rest key : level_rep it all rest → kc_key key →
  ∃ it', level_seek table_iter options key it = Done (inr tt, it') ∧ level_rep it' all (filter (λ e, kc_le key e.1) all).
Proof.
  intros (level & rows & Hv & Ht & Hok & -> & _) Hk. pose proof (Forall2_length _ _ _ Ht) as Hlen.
  destruct (level_seek_split key _ _ Ht Hok) as (n & Hn & Hb & ->).
  assert (lower_bound_list (lv_tables level) (λ e, is_ge <$> kc_compare c (nf_largest_key (lt_entry e)) key) =
    Done (index_from n (length (lv_tables level)))) as Hlb.
  { apply (lower_bound_list_spec _ (λ e : Entry, bool_decide (kc_le key (nf_largest_key (lt_entry e))))); [|done|done].
    intros e [i He]%list_elem_of_lookup. apply (index_ge_spec c key Hk).
    destruct (Forall2_lookup_l _ _ _ _ _ Ht He) as (r & _ & t & l & k & v & _ & Hrep & -> & ->).
    destruct (it_rep_ok _ _ _ _ Hrep) as [[Hks _] _]. rewrite Forall_forall in Hks. apply (Hks (k, v)). set_solver. }
  unfold level_seek, bind at 1. rewrite (li_tables_ok it level Hv). unfold bind at 1, lift_run. rewrite Hlb. unfold index_from.
  destruct (rows !! n) as [r|] eqn:Hr.
  - pose proof (lookup_lt_Some _ _ _ Hr). rewrite (proj2 (Nat.ltb_lt _ _)) by lia.
    destruct (entry_iter_ok _ _ _ _ Ht Hr) as (j & Hj & Hrep). rewrite Hj.
    destruct (it_seek_spec _ _ _ _ key Hrep Hk) as (j' & Hs & Hj'). unfold bind, call. cbn. rewrite Hs.
    eexists. split; [done|]. exists level, rows. split_and!; [done..|]. cbn. by exists n, r, (filter (λ e, kc_le key e.1) r).
  - apply lookup_ge_None in Hr. rewrite (proj2 (Nat.ltb_ge _ _)) by lia.
    eexists. split; [done|]. exists level, rows. split_and!; [done..|]. cbn. by rewrite drop_ge by lia.
Qed.

Definition level_laws : @IterableLaws c _ (LevelIterator T J) (level_iterable table_iter options).
Proof.
  refine {| it_rep := level_rep |}.
  - exact level_rep_ok.
  - exact level_next_ok.
  - exact level_seek_ok.
Defined.
End Level.
