(* ===== verification/Compaction.v ===== *)
(** * Writing tables

    [build_tables_from_iterator] of src/pkg/sstable/src/db/db.rs: the entries
    of an iterator over internal keys go through the compaction filter to one
    or more new tables. The builder and the reader of tables are those of any
    [TableStore]; the one of src/pkg/sstable/src/table is an instance. *)

From S2P Require Import Prelude Wire Encoding Comparator DataBlock MergeIterator Snapshot Filter Table VersionEdit Version.

(** ** Tables *)

(** [SSTableBuilder] ([B]) and [SSTable] ([T]), as the database uses them. *)
Class TableStore (B T : Type) := {
  ts_open : run B;
  ts_properties : B → TableProperties;
  ts_set_properties : TableProperties → B → B;
  ts_add : bytes → bytes → M B (Result unit);
  ts_estimated_file_size : B → Z;
  ts_finish : M B (Result bytes);
  ts_read : bytes → RR T;
}.

Definition sstable_store (crc32c_raw_oneshot : Z → Z) (zlib_encode zlib_decode : bytes → Result bytes)
    (overflow_checks : bool) (options : SSTableBuilderOptions) (registry : FilterPolicyRegistry)
    : TableStore SSTableBuilder SSTable := {|
  ts_open := SSTableBuilder_open overflow_checks options;
  ts_properties := sb_properties;
  ts_set_properties := sb_set_properties;
  ts_add := table_add crc32c_raw_oneshot zlib_encode options;
  ts_estimated_file_size := estimated_file_size;
  ts_finish := table_finish crc32c_raw_oneshot zlib_encode options;
  ts_read file := SSTable_open zlib_decode file (o_comparator options) registry;
|}.

(** The options of tables with [wrap_with_internal_keys] *)
Definition wrap_with_internal_keys (o : SSTableBuilderOptions) : SSTableBuilderOptions :=
  mkBuilderOptions (o_block_size o) (o_min_block_size o) (o_block_restart_interval o) (o_use_delta_encoding o)
    (o_checksum o) (o_compression o) (InternalKeyComparator (o_comparator o))
    (InternalKeyFilterPolicy <$> o_filter_policy o) (o_filter_log_base o).

(** ** Properties of a table *)

(** A field of a number with its default, and [set_..(.. + amount)] *)
Definition prop_u64 (field : Z) (props : TableProperties) : Z :=
  match props !! field with Some (PropU64 v) => v | _ => 0 end.
Definition prop_set (field v : Z) : M TableProperties unit := modify <[field := PropU64 v]>.
Definition prop_add (field amount : Z) : M TableProperties unit :=
  let! props := gets id in
  let! v := u64_add (prop_u64 field props) amount in
  prop_set field v.

(** [bool_to_num!] *)
Definition bool_to_num (b : bool) : Z := if b then 1 else 0.

Definition RAW_KEY_SIZE : Z := 2.
Definition RAW_VALUE_SIZE : Z := 3.
Definition NUM_ENTRIES : Z := 4.
Definition NUM_DELETIONS : Z := 5.
Definition NUM_STALE_ENTRIES : Z := 6.
Definition STALE_VALUE_SIZE : Z := 7.
Definition STALE_CLEAR_WATERLINE : Z := 31.

(** The counters after an entry. *)
Definition count_entry (key value : bytes) (typ : ValueType) (is_stale : bool) : M TableProperties unit :=
  prop_add RAW_KEY_SIZE (Z.of_nat (length key)) ;!
  prop_add RAW_VALUE_SIZE (Z.of_nat (length value)) ;!
  prop_add NUM_ENTRIES 1 ;!
  prop_add NUM_DELETIONS (bool_to_num (is_deletion typ)) ;!
  prop_add NUM_STALE_ENTRIES (bool_to_num is_stale) ;!
  prop_add STALE_VALUE_SIZE (bool_to_num is_stale * Z.of_nat (length value)).

Definition update_properties (key value : bytes) (typ : ValueType) (is_stale : bool) (first_seq : Z)
    : M TableProperties unit :=
  count_entry key value typ is_stale ;!
  let! props := gets id in
  if is_stale && (prop_u64 STALE_CLEAR_WATERLINE props <? first_seq) then prop_set STALE_CLEAR_WATERLINE first_seq
  else if bool_decide (props !! STALE_CLEAR_WATERLINE = None) then prop_set STALE_CLEAR_WATERLINE 0
  else ret tt.

(** ** Building tables *)

Section Build.
Context {B T I : Type} {HT : TableStore B T} {HI : Iterable I}.

Record CurrentTable := mkCurrentTable {
  ct_builder : B;
  ct_first_key : bytes;
  ct_last_key : bytes;
  ct_smallest_seq : Z;
  ct_largest_seq : Z;
  ct_number : Z;
}.

(** The local variables, the edit and the table files by their numbers. The
    contents of a file that is not finished are not part of the state. *)
Record BuildTables := mkBuildTables {
  bt_iterator : I;
  bt_current_table : option CurrentTable;
  bt_last_user_key : option bytes;
  bt_first_seq : Z;
  bt_last_entry_below_waterline : bool;
  bt_version_edit : VersionEdit;
  bt_files : gmap Z bytes;
}.

Definition bt_set_iterator (i : I) (s : BuildTables) : BuildTables :=
  mkBuildTables i (bt_current_table s) (bt_last_user_key s) (bt_first_seq s) (bt_last_entry_below_waterline s)
    (bt_version_edit s) (bt_files s).
Definition bt_set_current (t : option CurrentTable) (s : BuildTables) : BuildTables :=
  mkBuildTables (bt_iterator s) t (bt_last_user_key s) (bt_first_seq s) (bt_last_entry_below_waterline s)
    (bt_version_edit s) (bt_files s).
Definition bt_new_key (user_key : bytes) (sequence : Z) (s : BuildTables) : BuildTables :=
  mkBuildTables (bt_iterator s) (bt_current_table s) (Some user_key) sequence false (bt_version_edit s) (bt_files s).
Definition bt_set_below (s : BuildTables) : BuildTables :=
  mkBuildTables (bt_iterator s) (bt_current_table s) (bt_last_user_key s) (bt_first_seq s) true
    (bt_version_edit s) (bt_files s).
Definition bt_set_edit (f : VersionEdit → VersionEdit) (s : BuildTables) : BuildTables :=
  mkBuildTables (bt_iterator s) (bt_current_table s) (bt_last_user_key s) (bt_first_seq s)
    (bt_last_entry_below_waterline s) (f (bt_version_edit s)) (bt_files s).
Definition bt_set_file (number : Z) (file : bytes) (s : BuildTables) : BuildTables :=
  mkBuildTables (bt_iterator s) (bt_current_table s) (bt_last_user_key s) (bt_first_seq s)
    (bt_last_entry_below_waterline s) (bt_version_edit s) (<[number := file]> (bt_files s)).

Abbreviation Build := (M BuildTables).

Definition bt_next : Build (Result (option KeyValueEntry)) :=
  let! s := gets id in
  let! (entry, iterator) := call it_next (bt_iterator s) in
  modify (bt_set_iterator iterator) ;!
  ret entry.

(** The compaction filter: whether the entry is stale and whether it is
    kept. *)
Definition compaction_filter (remove_deleted : bool) (compaction_waterline : Z) (user_key : bytes) (ikey : InternalKey)
    : Build (bool * bool) :=
  let! s := gets id in
  let is_stale := bool_decide (Some user_key = bt_last_user_key s) in
  (if is_stale then ret tt else modify (bt_new_key user_key (ik_sequence ikey))) ;!
  if compaction_waterline <? ik_sequence ikey then ret (is_stale, true)
  else
    let! s := gets id in
    let first_below_waterline := negb (bt_last_entry_below_waterline s) in
    modify bt_set_below ;!
    if first_below_waterline then ret (is_stale, negb (remove_deleted && is_deletion (ik_typ ikey)))
    else ret (is_stale, false).

(** [current_table.take()], or a new table *)
Definition take_table (key : bytes) (sequence : Z) : Build (Result CurrentTable) :=
  let! s := gets id in
  match bt_current_table s with
  | Some table => modify (bt_set_current None) ;! ret (inr table)
  | None =>
    let! number := unwrap (ve_next_file_number (bt_version_edit s)) in
    let! next := u64_add number 1 in
    modify (bt_set_edit (set_next_file_number next)) ;!
    (** the file is created with [create_new] *)
    if bool_decide (is_Some (bt_files s !! number)) then ret (inl EFileExists) else
    modify (bt_set_file number []) ;!
    let! builder := lift_run ts_open in
    ret (inr (mkCurrentTable builder key key sequence sequence number))
  end.

(** [finish] and the entry of the new file *)
Definition finish_table (level : Z) (table : CurrentTable) : Build (Result unit) :=
  let! (file, _) := call ts_finish (ct_builder table) in
  match file with
  | inl e => ret (inl e)
  | inr file =>
    modify (bt_set_file (ct_number table) file) ;!
    modify (bt_set_edit (push_new_file (mkNewFileEntry level (ct_number table) (Z.of_nat (length file))
      (ct_first_key table) (ct_last_key table) (Some (ct_smallest_seq table, ct_largest_seq table))))) ;!
    ret (inr tt)
  end.

(** An entry that is kept. *)
Definition add_entry (level target_file_size : Z) (key value : bytes) (ikey : InternalKey) (is_stale : bool)
    : Build (Result unit) :=
  let! s := gets id in
  try! table := take_table key (ik_sequence ikey) in
  let! (_, props) := call (update_properties key value (ik_typ ikey) is_stale (bt_first_seq s))
    (ts_properties (ct_builder table)) in
  let! (res, builder) := call (ts_add key value) (ts_set_properties props (ct_builder table)) in
  match res with
  | inl e => ret (inl e)
  | inr _ =>
    let table := mkCurrentTable builder (ct_first_key table) key (Z.min (ik_sequence ikey) (ct_smallest_seq table))
      (Z.max (ik_sequence ikey) (ct_largest_seq table)) (ct_number table) in
    if target_file_size <=? ts_estimated_file_size builder then finish_table level table
    else modify (bt_set_current (Some table)) ;! ret (inr tt)
  end.

(** The loop over the entries; at most [fuel] of them. *)
Fixpoint build_loop (fuel : nat) (remove_deleted : bool) (level target_file_size compaction_waterline : Z)
    : Build (Result unit) :=
  match fuel with
  | O => out_of_fuel
  | S fuel =>
    try! entry := bt_next in
    match entry with
    | None => ret (inr tt)
    | Some (key, value) =>
      try! ikey := ret (InternalKey_parse key) in
      let user_key := take (length (ik_user_key ikey)) key in
      let! (is_stale, keep) := compaction_filter remove_deleted compaction_waterline user_key ikey in
      try! _ := (if keep : bool then add_entry level target_file_size key value ikey is_stale else ret (inr tt)) in
      build_loop fuel remove_deleted level target_file_size compaction_waterline
    end
  end.

(** The loop that opens the new tables. *)
Fixpoint open_tables (files : gmap Z bytes) (entries : list NewFileEntry) : RR (list T) :=
  match entries with
  | [] => Done (inr [])
  | entry :: entries =>
    match files !! nf_number entry with
    | None => Done (inl ENoFile)
    | Some file =>
      rr! table := ts_read file in
      rr! tables := open_tables files entries in
      Done (inr (table :: tables))
    end
  end.

Definition build_tables_from_iterator (fuel : nat) (remove_deleted : bool) (target_file_size level : Z)
    (compaction_waterline : option Z) : Build (Result (list T)) :=
  try! _ := build_loop fuel remove_deleted level target_file_size (default U64_MAX compaction_waterline) in
  let! s := gets id in
  modify (bt_set_current None) ;!
  try! _ := match bt_current_table s with Some table => finish_table level table | None => ret (inr tt) end in
  let! s := gets id in
  lift_rr (open_tables (bt_files s) (ve_new_files (bt_version_edit s))).

(** The variables before the loop. *)
Definition bt_start (iterator : I) (edit : VersionEdit) (files : gmap Z bytes) : BuildTables :=
  mkBuildTables iterator None None 0 false edit files.
End Build.
Arguments CurrentTable : clear implicits.
Arguments BuildTables : clear implicits.
