(* ===== verification/CompactionProofs.v ===== *)
(** * The compaction filter and the tables it writes

    The entries that the filter keeps, as a set; what a read at or above the
    waterline sees of them; and the run of [build_tables_from_iterator]. *)

From S2P Require Import Prelude Wire Encoding Comparator DataBlock MergeIterator MergeIteratorTheorems.
From S2P Require Import SkipList RecordLog WriteBatch Snapshot SnapshotProofs Filter Table VersionEdit Version Compaction.

(** ** What is kept *)

Definition deletion (e : KeyValueEntry) : bool := is_deletion (ik_type e.1).

(** Newer than the waterline, or the newest entry of its key up to it and not
    a deletion that is removed. *)
Definition kept (remove_deleted : bool) (w : Z) (es : list KeyValueEntry) (e : KeyValueEntry) : Prop :=
  w < ik_seq e.1 ∨ (newest w es e ∧ remove_deleted && deletion e = false).

#[export] Instance kept_dec rd w es e : Decision (kept rd w es e).
Proof. unfold kept. apply _. Defined.

Definition compacted (remove_deleted : bool) (w : Z) (es : list KeyValueEntry) : list KeyValueEntry :=
  filter (kept remove_deleted w es) es.

(** What a read of a key at a sequence returns. *)
Definition visible (s : Z) (key : bytes) (all : list KeyValueEntry) : option bytes :=
  head (filter (matching key s) all) ≫= λ e, se_value (version_of e).

Section Filter.
Context (user : KeyComparator) `{!KeyComparatorLaws user} `{!AntiSymm (=) (@kc_le user _)}.
Abbreviation internal := (InternalKeyComparator user).
Implicit Types (es all others : list KeyValueEntry) (e : KeyValueEntry).

(** *** Reads *)

Lemma entry_unique all e e' :
  entries_ok internal all → e ∈ all → e' ∈ all → ik_user e.1 = ik_user e'.1 → ik_seq e.1 = ik_seq e'.1 → e = e'.
Proof.
  intros [_ Hs] [i Hi]%list_elem_of_lookup [j Hj]%list_elem_of_lookup Eu Es.
  assert (∀ i j a b, (i < j)%nat → all !! i = Some a → all !! j = Some b → entry_lt internal a b) as Hlt.
  { intros i' j' a b Hij Ha Hb. rewrite <- (take_drop_middle _ _ _ Ha) in Hs.
    apply StronglySorted_app_1_r, StronglySorted_cons in Hs as [Hs _]. rewrite Forall_forall in Hs. apply Hs.
    apply (list_elem_of_lookup_2 _ (j' - S i')). rewrite lookup_drop. by replace (S i' + (j' - S i'))%nat with j' by lia. }
  destruct (decide (i = j)) as [->|Hne]; [congruence|].
  destruct (decide (i < j)%nat) as [Hij|Hij].
  - pose proof (entry_lt_seq user _ _ (Hlt i j _ _ Hij Hi Hj) Eu). lia.
  - pose proof (entry_lt_seq user _ _ (Hlt j i _ _ ltac:(lia) Hj Hi) (eq_sym Eu)). lia.
Qed.

Lemma newest_sub s all es e : newest s all e → (∀ x, x ∈ es → x ∈ all) → newest s es e.
Proof. intros [He Hall] Hsub. split; [done|]. rewrite Forall_forall in *. auto. Qed.

Lemma visible_newest s key all e :
  entries_ok internal all → e ∈ all → ik_user e.1 = key → newest s all e → visible s key all = se_value (version_of e).
Proof. intros Hok He <- Hn. unfold visible. by rewrite (proj1 (newest_head user s all e Hok He) Hn). Qed.

Lemma visible_none s key all : (∀ e, e ∈ all → ¬ matching key s e) → visible s key all = None.
Proof. intros H. unfold visible. rewrite head_filter_none; [done|]. by apply Forall_forall. Qed.

Lemma visible_cases s key all :
  entries_ok internal all →
  (∀ e, e ∈ all → ¬ matching key s e) ∨ ∃ e, e ∈ all ∧ ik_user e.1 = key ∧ newest s all e.
Proof.
  intros Hok. destruct (head (filter (matching key s) all)) as [e|] eqn:E.
  - right. exists e. pose proof E as Hin. apply head_Some_elem_of, list_elem_of_filter in Hin as [[<- Hs] Hin].
    split_and!; [done|done|]. by apply (newest_head user).
  - left. apply head_None in E. intros e He Hm. apply (not_elem_of_nil e). rewrite <- E. by apply list_elem_of_filter.
Qed.

(** A read at or above the waterline, or above all the entries, does not see
    the compaction, when no other entry is older than a deletion that is
    removed. *)
Lemma compacted_visible rd w es others all all' s key :
  entries_ok internal all → entries_ok internal all' →
  all ≡ₚ es ++ others → all' ≡ₚ compacted rd w es ++ others → (∀ e, e ∈ es → ik_seq e.1 ≤ w → ik_seq e.1 ≤ s) →
  (rd = true → ∀ e o, e ∈ es → deletion e = true → o ∈ others → ik_user o.1 = ik_user e.1 → ik_seq e.1 < ik_seq o.1) →
  visible s key all' = visible s key all.
Proof.
  intros Hok Hok' Hp Hp' Hw Hdel.
  assert (∀ x, x ∈ all' → x ∈ all) as Hsub.
  { intros x. rewrite Hp, Hp', !elem_of_app. unfold compacted. rewrite list_elem_of_filter. tauto. }
  destruct (visible_cases s key all Hok) as [Hnone|(e & He & Ek & Hn)].
  { rewrite !visible_none; [done|done|]. intros x Hx. by apply Hnone, Hsub. }
  rewrite (visible_newest s key all e Hok He Ek Hn). destruct (decide (e ∈ all')) as [He'|He'].
  { apply visible_newest; [done|done|done|]. by eapply newest_sub. }
  rewrite Hp' in He'. apply not_elem_of_app in He' as [Hc Ho]. rewrite Hp in He. apply elem_of_app in He as [He|?]; [|done].
  unfold compacted in Hc. rewrite list_elem_of_filter in Hc. unfold kept in Hc.
  assert (ik_seq e.1 ≤ w) as Hle by (apply Z.nlt_ge; intros ?; apply Hc; auto).
  assert (newest w es e) as Hnw.
  { split; [done|]. destruct Hn as [_ Hn]. rewrite Forall_forall in *. intros x Hx [Eu Hs]. apply Hn; [|split; [done|by apply Hw]].
    rewrite Hp. apply elem_of_app. by left. }
  destruct (rd && deletion e) eqn:Erd; [|destruct Hc; auto]. apply andb_true_iff in Erd as [-> Hd].
  unfold version_of at 1. unfold deletion in Hd. rewrite Hd. apply visible_none. intros x Hx [Eu Hs].
  pose proof (Hsub x Hx) as Hxa.
  assert (ik_seq x.1 ≤ ik_seq e.1) as Hxe.
  { destruct Hn as [_ Hn]. rewrite Forall_forall in Hn. apply Hn; [by apply Hsub|]. split; [congruence|done]. }
  rewrite Hp' in Hx. apply elem_of_app in Hx as [Hx|Hx].
  - apply list_elem_of_filter in Hx as [[?|[[_ Hnx] Hrd]] Hx]; [lia|]. rewrite Forall_forall in Hnx.
    specialize (Hnx e He ltac:(split; [congruence|done])).
    assert (x = e) as ->; [|unfold deletion in Hrd; by rewrite Hd in Hrd].
    apply (entry_unique all); [done|done| |congruence|lia]. rewrite Hp, elem_of_app. by left.
  - specialize (Hdel eq_refl e x He Hd Hx ltac:(congruence)). lia.
Qed.

(** *** The state of the filter *)

(** The last user key, and whether an entry of it up to the waterline was
    read, after the entries [before]. *)
Record scanned (w : Z) (lk : option bytes) (below : bool) (before : list KeyValueEntry) : Prop := mkScanned {
  sc_last : lk = (λ e, ik_user e.1) <$> last before;
  sc_below : ∀ u, lk = Some u → below = bool_decide (Exists (matching u w) before);
}.

Lemma scanned_start w : scanned w None false [].
Proof. by split. Qed.

Lemma scanned_same_key before e rest u :
  StronglySorted (entry_lt internal) (before ++ e :: rest) → u ∈ before → ik_user u.1 = ik_user e.1 →
  Some (ik_user e.1) = (λ e, ik_user e.1) <$> last before.
Proof.
  intros Hs Hu Eu. destruct before as [|l before _] using rev_ind; [by apply not_elem_of_nil in Hu|].
  rewrite last_snoc. cbn. f_equal. rewrite <- app_assoc in Hs. cbn in Hs.
  assert (kc_le (ik_user l.1) (ik_user e.1)) as H1.
  { apply (entry_lt_user user). apply (StronglySorted_app_1_elem_of _ (before ++ [l]) (e :: rest)); [by rewrite <- app_assoc|set_solver..]. }
  apply elem_of_app in Hu as [Hu|Hu%list_elem_of_singleton]; [|by subst].
  assert (kc_le (ik_user u.1) (ik_user l.1)) as H2.
  { apply (entry_lt_user user). apply (StronglySorted_app_1_elem_of _ before (l :: e :: rest)); [done|done|set_solver]. }
  rewrite Eu in H2. by apply (anti_symm kc_le).
Qed.

(** Whether an entry up to the waterline is the first one of its key. *)
Lemma scanned_below w lk below before e rest :
  scanned w lk below before → StronglySorted (entry_lt internal) (before ++ e :: rest) →
  (if bool_decide (Some (ik_user e.1) = lk) then below else false) = bool_decide (Exists (matching (ik_user e.1) w) before).
Proof.
  intros [Hl Hb] Hs. case_bool_decide as E; [by apply Hb|]. symmetry. apply bool_decide_eq_false.
  intros (x & Hx & Eu & _)%Exists_exists. apply E. rewrite Hl. by eapply scanned_same_key.
Qed.

Lemma scanned_step w lk below before e rest :
  scanned w lk below before → StronglySorted (entry_lt internal) (before ++ e :: rest) →
  scanned w (Some (ik_user e.1))
    (if w <? ik_seq e.1 then if bool_decide (Some (ik_user e.1) = lk) then below else false else true) (before ++ [e]).
Proof.
  intros Hsc Hs. split; [by rewrite last_snoc|]. intros u [= <-].
  rewrite (scanned_below w lk below before e rest) by done. destruct (Z.ltb_spec w (ik_seq e.1)) as [Hlt|Hge].
  - apply bool_decide_ext. rewrite Exists_app, Exists_cons, Exists_nil. unfold matching. split; [by left|].
    intros [?|[[_ ?]|[]]]; [done|lia].
  - symmetry. apply bool_decide_eq_true. rewrite Exists_app, Exists_cons. right. left. by split.
Qed.

(** Whether an entry is kept. *)
Lemma kept_split rd w lk below before e rest :
  scanned w lk below before → StronglySorted (entry_lt internal) (before ++ e :: rest) →
  kept rd w (before ++ e :: rest) e ↔
  w < ik_seq e.1 ∨ ((if bool_decide (Some (ik_user e.1) = lk) then below else false) = false ∧ rd && deletion e = false).
Proof.
  intros Hsc Hs. rewrite (scanned_below w lk below before e rest) by done. unfold kept.
  rewrite (newest_split user) by done. rewrite bool_decide_eq_false.
  destruct (decide (w < ik_seq e.1)); [tauto|]. assert (ik_seq e.1 ≤ w) by lia. tauto.
Qed.
End Filter.
