(* ===== verification/CompactionBuild.v ===== *)
(** * The run of [build_tables_from_iterator]

    The loop against the interface of tables: what it writes to the tables,
    to their properties and to the version edit. *)

From S2P Require Import Prelude Wire Encoding Comparator DataBlock MergeIterator MergeIteratorTheorems.
From S2P Require Import SkipList RecordLog WriteBatch Snapshot SnapshotProofs Filter FilterTheorems.
From S2P Require Import Table TableProofs TableProperties TableBuild VersionEdit VersionEditTheorems Version Compaction CompactionProofs.

(** ** The laws of tables *)

(** [ts_rep b rows p]: [b] has got the rows and the properties; [ts_rows t
    rows p]: the table has them; [ts_fit]: rows that fit in a table. *)
Class TableStoreLaws (c : KeyComparator) `{!KeyComparatorLaws c} (B T : Type) `{!TableStore B T} := {
  ts_fit : list KeyValueEntry → Prop;
  ts_rep : B → list KeyValueEntry → TableProperties → Prop;
  ts_rows : T → list KeyValueEntry → TableProperties → Prop;
  ts_fit_infix l1 l2 l3 : ts_fit (l1 ++ l2 ++ l3) → ts_fit l2;
  ts_fit_weight rows : ts_fit rows → Z.of_nat (weight rows) < 2 ^ 31;
  ts_open_spec : ∃ b, ts_open = Done b ∧ ts_rep b [] ∅;
  ts_properties_spec b rows p : ts_rep b rows p → ts_properties b = p ∧ ∀ p', ts_rep (ts_set_properties p' b) rows p';
  ts_add_spec b rows p k v : ts_rep b rows p → entries_ok c (rows ++ [(k, v)]) → ts_fit (rows ++ [(k, v)]) →
    ∃ b', ts_add k v b = Done (inr tt, b') ∧ ts_rep b' (rows ++ [(k, v)]) p;
  ts_finish_spec b rows p : ts_rep b rows p → entries_ok c rows → ts_fit rows →
    properties_ok p → Z.of_nat (weight (serialize_table_properties p)) < 2 ^ 31 →
    ∃ file b' t, ts_finish b = Done (inr file, b') ∧ Z.of_nat (length file) < 2 ^ 41 ∧
      ts_read file = Done (inr t) ∧ ts_rows t rows p;
}.

(** ** Properties *)

Definition total_keys (rows : list KeyValueEntry) : Z := Z.of_nat (sum_list_with (λ e, length e.1) rows).
Definition total_values (rows : list KeyValueEntry) : Z := Z.of_nat (sum_list_with (λ e, length e.2) rows).
Definition total_deletions (rows : list KeyValueEntry) : Z := Z.of_nat (length (filter (λ e, deletion e = true) rows)).

(** The fields that are set. *)
Definition counters : list Z :=
  [RAW_KEY_SIZE; RAW_VALUE_SIZE; NUM_ENTRIES; NUM_DELETIONS; NUM_STALE_ENTRIES; STALE_VALUE_SIZE; STALE_CLEAR_WATERLINE].

(** The properties of a table with the given rows. *)
Record counted (rows : list KeyValueEntry) (p : TableProperties) : Prop := mkCounted {
  cn_keys : prop_u64 RAW_KEY_SIZE p = total_keys rows;
  cn_values : prop_u64 RAW_VALUE_SIZE p = total_values rows;
  cn_entries : prop_u64 NUM_ENTRIES p = Z.of_nat (length rows);
  cn_deletions : prop_u64 NUM_DELETIONS p = total_deletions rows;
  cn_stale : 0 ≤ prop_u64 NUM_STALE_ENTRIES p ≤ Z.of_nat (length rows);
  cn_stale_values : 0 ≤ prop_u64 STALE_VALUE_SIZE p ≤ total_values rows;
  cn_waterline : 0 ≤ prop_u64 STALE_CLEAR_WATERLINE p ≤ MAX_SEQUENCE;
  cn_fields : ∀ n v, p !! n = Some v → n ∈ counters ∧ ∃ x, v = PropU64 x;
}.

Lemma counted_empty : counted [] ∅.
Proof. by split. Qed.

Lemma weight_totals rows : Z.of_nat (weight rows) = 64 * Z.of_nat (length rows) + total_keys rows + total_values rows.
Proof.
  unfold total_keys, total_values, weight. induction rows as [|[k v] rows IH]; [done|]. cbn [sum_list_with length].
  unfold row_weight at 1. cbn [fst snd]. lia.
Qed.

Lemma total_deletions_le rows : 0 ≤ total_deletions rows ≤ Z.of_nat (length rows).
Proof. unfold total_deletions. pose proof (length_filter (λ e, deletion e = true) rows). lia. Qed.

(** Every field is a u64. *)
Lemma counted_bounds rows p n :
  counted rows p → Z.of_nat (weight rows) < 2 ^ 31 → n ∈ counters → 0 ≤ prop_u64 n p < 2 ^ 57.
Proof.
  intros [H1 H2 H3 H4 H5 H6 H7 _] Hw Hn. pose proof (weight_totals rows). pose proof (total_deletions_le rows).
  assert (0 ≤ total_keys rows ∧ 0 ≤ total_values rows) as [? ?] by (unfold total_keys, total_values; lia).
  unfold MAX_SEQUENCE in H7. unfold counters in Hn. repeat (apply elem_of_cons in Hn as [->|Hn]; [lia|]).
  by apply not_elem_of_nil in Hn.
Qed.

Lemma prop_u64_insert n m v (p : TableProperties) :
  prop_u64 n (<[m := PropU64 v]> p) = if decide (n = m) then v else prop_u64 n p.
Proof. unfold prop_u64. destruct (decide (n = m)) as [->|Hne]; [by rewrite lookup_insert_eq|by rewrite lookup_insert_ne]. Qed.

Lemma prop_add_ok n amount (p : TableProperties) :
  prop_u64 n p + amount ≤ U64_MAX → prop_add n amount p = Done (tt, <[n := PropU64 (prop_u64 n p + amount)]> p).
Proof.
  intros H. unfold prop_add, prop_set, bind, gets, u64_add. cbn. by rewrite (proj2 (Z.leb_le _ _)).
Qed.

Lemma prop_u64_eq n v (p : TableProperties) : prop_u64 n (<[n := PropU64 v]> p) = v.
Proof. by rewrite prop_u64_insert, decide_True. Qed.
Lemma prop_u64_ne n m v (p : TableProperties) : n ≠ m → prop_u64 n (<[m := PropU64 v]> p) = prop_u64 n p.
Proof. intros H. by rewrite prop_u64_insert, decide_False. Qed.

Ltac props := repeat (rewrite prop_u64_eq || rewrite prop_u64_ne by done).

Lemma count_entry_ok rows p k v typ stale :
  counted rows p → Z.of_nat (weight (rows ++ [(k, v)])) < 2 ^ 31 → is_deletion typ = deletion (k, v) →
  ∃ p', count_entry k v typ stale p = Done (tt, p') ∧ counted (rows ++ [(k, v)]) p'.
Proof.
  intros Hc Hw Ht. unfold count_entry. rewrite Ht. rewrite weight_app in Hw. pose proof (counted_bounds rows p) as Hb.
  assert (Z.of_nat (weight [(k, v)]) = 64 + Z.of_nat (length k) + Z.of_nat (length v)) as Hw1 by (rewrite weight_one; lia).
  assert (∀ n, n ∈ counters → 0 ≤ prop_u64 n p < 2 ^ 57) as Hb' by (intros n Hn; apply (Hb n Hc); [lia|done]).
  assert (0 ≤ bool_to_num stale ≤ 1 ∧ 0 ≤ bool_to_num (deletion (k, v)) ≤ 1) as [Hs Hd] by (destruct stale, (deletion (k, v)); cbn; lia).
  unfold bind. unfold counters in Hb'. 
  rewrite prop_add_ok by (specialize (Hb' RAW_KEY_SIZE ltac:(set_solver)); unfold U64_MAX; lia).
  rewrite prop_add_ok by (props; specialize (Hb' RAW_VALUE_SIZE ltac:(set_solver)); unfold U64_MAX; lia).
  rewrite prop_add_ok by (props; specialize (Hb' NUM_ENTRIES ltac:(set_solver)); unfold U64_MAX; lia).
  rewrite prop_add_ok by (props; specialize (Hb' NUM_DELETIONS ltac:(set_solver)); unfold U64_MAX; lia).
  rewrite prop_add_ok by (props; specialize (Hb' NUM_STALE_ENTRIES ltac:(set_solver)); unfold U64_MAX; lia).
  rewrite prop_add_ok by (props; specialize (Hb' STALE_VALUE_SIZE ltac:(set_solver)); unfold U64_MAX; nia).
  eexists. split; [done|]. destruct Hc as [H1 H2 H3 H4 H5 H6 H7 H8].
  assert (total_values (rows ++ [(k, v)]) = total_values rows + Z.of_nat (length v)) as Hv.
  { unfold total_values. rewrite sum_list_with_app. cbn. lia. }
  split; props; rewrite ?length_app; cbn [length]; try (rewrite ?Hv; lia).
  - rewrite H1. unfold total_keys. rewrite sum_list_with_app. cbn [sum_list_with fst]. lia.
  - rewrite H4. unfold total_deletions. rewrite filter_app, length_app. cbn [filter list_filter].
    destruct (decide _) as [E|E]; [rewrite E; cbn; lia|]. apply not_true_is_false in E. rewrite E. cbn. lia.
  - rewrite Hv. nia.
  - intros n x. repeat (rewrite lookup_insert_Some; intros [[<- <-]|[_ Hx]]; [split; [unfold counters; set_solver|eauto]|revert Hx]).
    apply H8.
Qed.

Lemma update_properties_ok rows p k v typ stale first_seq :
  counted rows p → Z.of_nat (weight (rows ++ [(k, v)])) < 2 ^ 31 → is_deletion typ = deletion (k, v) →
  0 ≤ first_seq ≤ MAX_SEQUENCE →
  ∃ p', update_properties k v typ stale first_seq p = Done (tt, p') ∧ counted (rows ++ [(k, v)]) p'.
Proof.
  intros Hc Hw Ht Hf. destruct (count_entry_ok rows p k v typ stale Hc Hw Ht) as (p1 & Hrun & Hc1).
  assert (∀ x, 0 ≤ x ≤ MAX_SEQUENCE → counted (rows ++ [(k, v)]) (<[STALE_CLEAR_WATERLINE := PropU64 x]> p1)) as Hset.
  { intros x Hx. destruct Hc1 as [H1 H2 H3 H4 H5 H6 H7 H8]. split; props; try done.
    intros n y [[<- <-]|[_ Hy]]%lookup_insert_Some; [split; [unfold counters; set_solver|eauto]|by apply H8]. }
  unfold update_properties, bind, gets. rewrite Hrun. change (id p1) with p1. destruct (_ && _); [|case_bool_decide].
  - eexists. split; [done|]. by apply Hset.
  - eexists. split; [done|]. apply Hset. by vm_compute.
  - by exists p1.
Qed.

(** The properties fit in the table. *)
Lemma serialized_weight (p : TableProperties) fields :
  (∀ n v, p !! n = Some v → ∃ x, v = PropU64 x) →
  (weight (omap (λ f : Z * PropertyType * bytes, (λ v, (f.2, serialize_property v)) <$> p !! f.1.1) fields) ≤
   sum_list_with (λ f : Z * PropertyType * bytes, 74 + length f.2) fields)%nat.
Proof.
  intros Hp. induction fields as [|f fields IH]; [done|]. cbn [omap list_omap sum_list_with].
  destruct (p !! f.1.1) as [v|] eqn:E; cbn [fmap option_fmap option_map]; [|lia].
  destruct (Hp _ _ E) as [x ->]. rewrite weight_cons. unfold row_weight. cbn [fst snd serialize_property].
  pose proof (length_serialize_varint_le x). lia.
Qed.

Lemma counted_properties rows p :
  counted rows p → Z.of_nat (weight rows) < 2 ^ 31 →
  properties_ok p ∧ Z.of_nat (weight (serialize_table_properties p)) < 2 ^ 31.
Proof.
  intros Hc Hw. split.
  - intros n v Hv. destruct (cn_fields _ _ Hc n v Hv) as [Hn [x ->]].
    pose proof (counted_bounds rows p n Hc Hw Hn) as Hb. unfold prop_u64 in Hb. rewrite Hv in Hb.
    assert (∃ key, (n, TU64, key) ∈ property_fields) as [key Hkey].
    { unfold counters in Hn. repeat (apply elem_of_cons in Hn as [->|Hn];
        [eexists; first [by apply (list_elem_of_lookup_2 _ 0)|by apply (list_elem_of_lookup_2 _ 1)|by apply (list_elem_of_lookup_2 _ 2)
          |by apply (list_elem_of_lookup_2 _ 3)|by apply (list_elem_of_lookup_2 _ 4)|by apply (list_elem_of_lookup_2 _ 5)
          |by apply (list_elem_of_lookup_2 _ 6)]|]).
      by apply not_elem_of_nil in Hn. }
    exists TU64, key. split; [done|]. cbn. unfold U64. lia.
  - assert (Z.of_nat (sum_list_with (λ f : Z * PropertyType * bytes, 74 + length f.2)%nat property_fields) < 2 ^ 31) as Hs by by vm_compute.
    unfold serialize_table_properties. pose proof (serialized_weight p property_fields) as Hle.
    specialize (Hle ltac:(intros n v Hv; apply (cn_fields _ _ Hc n v Hv))). lia.
Qed.

(** ** The filter *)

Section Loop.
Context (user : KeyComparator) `{!KeyComparatorLaws user} `{!AntiSymm (=) (@kc_le user _)}.
Abbreviation internal := (InternalKeyComparator user).
Context {B T I : Type} {HT : TableStore B T} {LT : TableStoreLaws internal B T} {HI : Iterable I} {LI : IterableLaws internal I}.
Context (rd : bool) (w level target : Z).
Abbreviation State := (BuildTables B I).

Definition filter_keep (below : bool) (sequence : Z) (del : bool) : bool :=
  (w <? sequence) || (negb below && negb (rd && del)).

(** The state after the filter. *)
Definition filtered (u : bytes) (sequence : Z) (s : State) : State :=
  let s := if bool_decide (Some u = bt_last_user_key s) then s else bt_new_key u sequence s in
  if w <? sequence then s else bt_set_below s.

Lemma compaction_filter_ok u ikey (s : State) :
  compaction_filter rd w u ikey s =
    Done ((bool_decide (Some u = bt_last_user_key s),
           filter_keep (if bool_decide (Some u = bt_last_user_key s) then bt_last_entry_below_waterline s else false)
             (ik_sequence ikey) (is_deletion (ik_typ ikey))),
          filtered u (ik_sequence ikey) s).
Proof.
  unfold compaction_filter, filtered, filter_keep, bind, gets, modify, ret. change (id s) with s.
  case_bool_decide; cbn; destruct (w <? ik_sequence ikey); cbn; try done.
  by destruct (bt_last_entry_below_waterline s); cbn.
Qed.

Lemma filtered_fields u q (s : State) :
  bt_iterator (filtered u q s) = bt_iterator s ∧ bt_current_table (filtered u q s) = bt_current_table s ∧
  bt_last_user_key (filtered u q s) = Some u ∧
  bt_last_entry_below_waterline (filtered u q s) =
    (if w <? q then if bool_decide (Some u = bt_last_user_key s) then bt_last_entry_below_waterline s else false else true) ∧
  bt_first_seq (filtered u q s) = (if bool_decide (Some u = bt_last_user_key s) then bt_first_seq s else q) ∧
  bt_version_edit (filtered u q s) = bt_version_edit s ∧ bt_files (filtered u q s) = bt_files s.
Proof. unfold filtered. case_bool_decide as E; destruct (w <? q); cbn; by rewrite <- ?E. Qed.

(** What the filter decides about the next entry. *)
Lemma filter_next_ok before e rest ikey (s : State) :
  scanned w (bt_last_user_key s) (bt_last_entry_below_waterline s) before →
  StronglySorted (entry_lt internal) (before ++ e :: rest) →
  ik_sequence ikey = ik_seq e.1 → is_deletion (ik_typ ikey) = deletion e →
  compaction_filter rd w (ik_user e.1) ikey s =
    Done ((bool_decide (Some (ik_user e.1) = bt_last_user_key s), bool_decide (kept rd w (before ++ e :: rest) e)),
          filtered (ik_user e.1) (ik_seq e.1) s) ∧
  scanned w (bt_last_user_key (filtered (ik_user e.1) (ik_seq e.1) s))
    (bt_last_entry_below_waterline (filtered (ik_user e.1) (ik_seq e.1) s)) (before ++ [e]).
Proof.
  intros Hsc Hs Eq Ed. destruct (filtered_fields (ik_user e.1) (ik_seq e.1) s) as (_ & _ & -> & -> & _). split.
  - rewrite compaction_filter_ok, Eq, Ed. do 3 f_equal. pose proof (kept_split user rd w _ _ before e rest Hsc Hs) as Hkept.
    symmetry. unfold filter_keep. destruct (Z.ltb_spec w (ik_seq e.1)); [apply bool_decide_eq_true; tauto|].
    destruct (if bool_decide _ then _ else _), (rd && deletion e); cbn; rewrite ?bool_decide_eq_true, ?bool_decide_eq_false, Hkept;
      (lia || naive_solver lia).
  - by apply (scanned_step user w _ _ before e rest).
Qed.

(** ** Tables *)

(** The first and the last key and the sequences of rows. *)
Record spanned (rows : list KeyValueEntry) (first last : bytes) (lo hi : Z) : Prop := mkSpanned {
  sp_first : fst <$> head rows = Some first;
  sp_last : fst <$> list.last rows = Some last;
  sp_bounds : Forall (λ e, lo ≤ ik_seq e.1 ≤ hi) rows;
  sp_lo : Exists (λ e, ik_seq e.1 = lo) rows;
  sp_hi : Exists (λ e, ik_seq e.1 = hi) rows;
}.

Lemma spanned_one k v : spanned [(k, v)] k k (ik_seq k) (ik_seq k).
Proof. split; [done|done| |by left|by left]. apply Forall_singleton. cbn. lia. Qed.

Lemma spanned_snoc rows first last lo hi k v :
  spanned rows first last lo hi → spanned (rows ++ [(k, v)]) first k (Z.min (ik_seq k) lo) (Z.max (ik_seq k) hi).
Proof.
  intros [H1 H2 H3 H4 H5]. split.
  - by destruct rows.
  - by rewrite last_snoc.
  - apply Forall_app. split; [|apply Forall_singleton; cbn; lia]. eapply Forall_impl; [exact H3|]. cbn. intros. lia.
  - apply Exists_app. destruct (Z.min_spec (ik_seq k) lo) as [[_ ->]|[_ ->]]; [right; by left|by left].
  - apply Exists_app. destruct (Z.max_spec (ik_seq k) hi) as [[_ ->]|[_ ->]]; [by left|right; by left].
Qed.

(** A table file with the given rows and its entry. *)
Definition table_written (files : gmap Z bytes) (rows : list KeyValueEntry) (f : NewFileEntry) : Prop :=
  ∃ lo hi file t p, nf_level f = level ∧ nf_sequence_range f = Some (lo, hi) ∧
    spanned rows (nf_smallest_key f) (nf_largest_key f) lo hi ∧
    files !! nf_number f = Some file ∧ nf_file_size f = Z.of_nat (length file) ∧ Z.of_nat (length file) < 2 ^ 41 ∧
    ts_read file = Done (inr t) ∧ ts_rows t rows p ∧ counted rows p.

(** The table being built. *)
Definition current_ok (t : CurrentTable B) (rows : list KeyValueEntry) : Prop :=
  spanned rows (ct_first_key t) (ct_last_key t) (ct_smallest_seq t) (ct_largest_seq t) ∧
  ∃ p, ts_rep (ct_builder t) rows p ∧ counted rows p.

Lemma written_insert files n file rows f :
  table_written files rows f → nf_number f ≠ n → table_written (<[n := file]> files) rows f.
Proof.
  intros (lo & hi & file' & t & p & H1 & H2 & H3 & H4 & H5) Hne. exists lo, hi, file', t, p.
  do 3 (split; [done|]). split; [by rewrite lookup_insert_ne|done].
Qed.

Lemma edit_eta e :
  e = mkVersionEdit (ve_comparator e) (ve_log_number e) (ve_prev_log_number e) (ve_last_sequence e) (ve_new_files e)
    (ve_deleted_files e) (ve_next_file_number e) (ve_compaction_waterline e).
Proof. by destruct e. Qed.

Context (edit : VersionEdit) (files : gmap Z bytes) (n : Z).

(** The edit with new files and the next file number. *)
Definition built_edit (fs : list NewFileEntry) (next : Z) : VersionEdit :=
  mkVersionEdit (ve_comparator edit) (ve_log_number edit) (ve_prev_log_number edit) (ve_last_sequence edit) fs
    (ve_deleted_files edit) (Some next) (ve_compaction_waterline edit).

(** The finished tables with their entries; [used] is 1 when another number
    is in use. *)
Record finished_inv (ds : list (list KeyValueEntry * NewFileEntry)) (used : Z) (s : State) : Prop := mkFinishedInv {
  fi_edit : bt_version_edit s = built_edit ds.*2 (n + Z.of_nat (length ds) + used);
  fi_numbers : nf_number <$> ds.*2 = seqZ n (Z.of_nat (length ds));
  fi_written : Forall (λ d, d.1 ≠ [] ∧ table_written (bt_files s) d.1 d.2) ds;
  fi_old : ∀ m, m < n → bt_files s !! m = files !! m;
  fi_fresh : ∀ m, n + Z.of_nat (length ds) + used ≤ m → bt_files s !! m = None;
}.

(** ... and the rows of the current one. *)
Definition tables_inv (ds : list (list KeyValueEntry * NewFileEntry)) (cur : list KeyValueEntry) (s : State) : Prop :=
  match bt_current_table s with
  | None => cur = [] ∧ finished_inv ds 0 s
  | Some t => cur ≠ [] ∧ ct_number t = n + Z.of_nat (length ds) ∧ current_ok t cur ∧ finished_inv ds 1 s
  end.

(** The variables of the filter and the iterator are the same. *)
Definition same_filter (s s' : State) : Prop :=
  bt_iterator s' = bt_iterator s ∧ bt_last_user_key s' = bt_last_user_key s ∧ bt_first_seq s' = bt_first_seq s ∧
  bt_last_entry_below_waterline s' = bt_last_entry_below_waterline s.

Lemma numbers_lt ds d : nf_number <$> ds.*2 = seqZ n (Z.of_nat (length ds)) → d ∈ ds →
  n ≤ nf_number (d : list KeyValueEntry * NewFileEntry).2 < n + Z.of_nat (length ds).
Proof.
  intros Hn Hd. assert (nf_number d.2 ∈ nf_number <$> ds.*2) as Hin by (by apply list_elem_of_fmap_2, list_elem_of_fmap_2).
  rewrite Hn in Hin. apply elem_of_seqZ in Hin. lia.
Qed.

(** A table is finished. *)
Lemma finish_table_ok ds cur t (s : State) :
  bt_current_table s = None → cur ≠ [] → ct_number t = n + Z.of_nat (length ds) → current_ok t cur → finished_inv ds 1 s →
  entries_ok internal cur → ts_fit cur →
  ∃ f s', finish_table level t s = Done (inr tt, s') ∧ bt_current_table s' = None ∧
    finished_inv (ds ++ [(cur, f)]) 0 s' ∧ same_filter s s'.
Proof.
  intros Hcur Hne Hnum (Hsp & p & Hrep & Hcn) [Hed Hns Hwr Hold Hfr] Hok Hfit.
  destruct (counted_properties cur p Hcn (ts_fit_weight _ Hfit)) as [Hp Hw].
  destruct (ts_finish_spec _ _ _ Hrep Hok Hfit Hp Hw) as (file & b & tab & Hfin & Hlen & Hread & Hrows).
  set (f := mkNewFileEntry level (ct_number t) (Z.of_nat (length file)) (ct_first_key t) (ct_last_key t)
    (Some (ct_smallest_seq t, ct_largest_seq t))).
  eexists f, _. split; [|split; [|split]].
  - unfold finish_table, bind, call. rewrite Hfin. unfold modify, ret. done.
  - done.
  - split; cbn.
    + rewrite Hed. unfold push_new_file, built_edit. cbn. rewrite length_app. cbn. unfold f. f_equal; [|f_equal; lia].
      rewrite fmap_app. done.
    + rewrite !fmap_app, Hns, length_app. cbn. rewrite Nat2Z.inj_add, seqZ_app by lia. f_equal. rewrite Hnum. done.
    + apply Forall_app. split.
      * apply Forall_forall. intros d Hd. rewrite Forall_forall in Hwr. destruct (Hwr d Hd) as [Hd1 Hd2]. split; [done|].
        apply written_insert; [done|]. pose proof (numbers_lt ds d Hns Hd). lia.
      * apply Forall_singleton. split; [done|]. exists (ct_smallest_seq t), (ct_largest_seq t), file, tab, p.
        do 3 (split; [done|]). split; [cbn; by rewrite lookup_insert_eq|done].
    + intros m Hm. rewrite lookup_insert_ne by lia. auto.
    + intros m Hm. rewrite length_app in Hm. cbn in Hm. rewrite lookup_insert_ne by lia. apply Hfr. lia.
  - by split_and!.
Qed.

(** The table that an entry goes to: the current one, or a new one. *)
Definition open_for (t : CurrentTable B) (cur : list KeyValueEntry) (k : bytes) : Prop :=
  (∃ p, ts_rep (ct_builder t) cur p ∧ counted cur p) ∧
  ∀ v, spanned (cur ++ [(k, v)]) (ct_first_key t) k (Z.min (ik_seq k) (ct_smallest_seq t)) (Z.max (ik_seq k) (ct_largest_seq t)).

Lemma take_table_ok ds cur k (s : State) :
  tables_inv ds cur s → n + Z.of_nat (length ds) < U64_MAX →
  ∃ t s', take_table k (ik_seq k) s = Done (inr t, s') ∧ bt_current_table s' = None ∧
    ct_number t = n + Z.of_nat (length ds) ∧ open_for t cur k ∧ finished_inv ds 1 s' ∧ same_filter s s'.
Proof.
  unfold tables_inv. intros Hinv Hn. unfold take_table, bind at 1, gets. change (id s) with s.
  destruct (bt_current_table s) as [t|] eqn:Et.
  - destruct Hinv as (Hne & Hnum & (Hsp & Hrep) & [H1 H2 H3 H4 H5]). exists t, (bt_set_current None s).
    split; [done|]. split; [done|]. split; [done|]. split; [|done]. split; [done|]. intros v. by eapply spanned_snoc.
  - destruct Hinv as [-> [H1 H2 H3 H4 H5]]. rewrite H1. cbn [ve_next_file_number built_edit unwrap].
    rewrite !Z.add_0_r in *. unfold bind at 1, ret at 1. unfold u64_add, bind at 1. rewrite (proj2 (Z.leb_le _ _)) by lia.
    unfold bind at 1, ret at 1, modify at 1. rewrite (H5 (n + Z.of_nat (length ds))) by lia.
    rewrite bool_decide_eq_false_2 by (by intros []). destruct ts_open_spec as (b & Hb & Hrep).
    unfold bind at 1, modify at 1. unfold bind at 1, lift_run. rewrite Hb. eexists _, _. split; [done|].
    split; [done|]. split; [done|]. split; [|split; [|done]].
    + split; [exists ∅; split; [done|apply counted_empty]|]. intros v. cbn. rewrite Z.min_id, Z.max_id. apply spanned_one.
    + split; cbn; [by rewrite H1|done| |intros m Hm; rewrite lookup_insert_ne by lia; auto|intros m Hm; rewrite lookup_insert_ne by lia; apply H5; lia].
      apply Forall_forall. intros d Hd. rewrite Forall_forall in H3. destruct (H3 d Hd) as [Hd1 Hd2]. split; [done|].
      apply written_insert; [done|]. pose proof (numbers_lt ds d H2 Hd). lia.
Qed.

(** An entry is added. *)
Lemma add_entry_ok ds cur k v ikey stale (s : State) :
  tables_inv ds cur s → n + Z.of_nat (length ds) < U64_MAX → ik_sequence ikey = ik_seq k →
  is_deletion (ik_typ ikey) = deletion (k, v) → 0 ≤ bt_first_seq s ≤ MAX_SEQUENCE →
  entries_ok internal (cur ++ [(k, v)]) → ts_fit (cur ++ [(k, v)]) →
  ∃ s' ds' cur', add_entry level target k v ikey stale s = Done (inr tt, s') ∧ tables_inv ds' cur' s' ∧ same_filter s s' ∧
    concat ds'.*1 ++ cur' = concat ds.*1 ++ cur ++ [(k, v)].
Proof.
  intros Hinv Hn Eq Ed Hf Hok Hfit. pose proof (ts_fit_weight _ Hfit) as Hw.
  destruct (take_table_ok ds cur k s Hinv Hn) as (t & s1 & Htake & Hcur & Hnum & [(p & Hrep & Hcn) Hsp] & Hfin & Hsf).
  destruct (ts_properties_spec _ _ _ Hrep) as [Hp Hset].
  destruct (update_properties_ok cur p k v (ik_typ ikey) stale (bt_first_seq s) Hcn Hw Ed Hf) as (p' & Hup & Hcn').
  destruct (ts_add_spec _ _ _ k v (Hset p') Hok Hfit) as (b & Hadd & Hrep').
  unfold add_entry, bind at 1, gets. change (id s) with s. unfold try_bind at 1, bind at 1. rewrite Eq, Htake.
  unfold bind at 1, call at 1. rewrite Hp, Hup. unfold bind at 1, call at 1. rewrite Hadd.
  set (t' := mkCurrentTable b _ _ _ _ _).
  assert (current_ok t' (cur ++ [(k, v)])) as Ht' by (split; [apply Hsp|by exists p']).
  assert (cur ++ [(k, v)] ≠ []) as Hne by (by destruct cur).
  destruct (target <=? ts_estimated_file_size b).
  - destruct (finish_table_ok ds (cur ++ [(k, v)]) t' s1) as (f & s' & Hrun & Hcur' & Hfin' & Hsf'); [done..|].
    exists s', (ds ++ [(cur ++ [(k, v)], f)]), []. split; [done|]. split; [unfold tables_inv; by rewrite Hcur'|]. split.
    + unfold same_filter in *. intuition congruence.
    + rewrite fmap_app, concat_app. cbn. by rewrite !app_nil_r.
  - exists (bt_set_current (Some t') s1), ds, (cur ++ [(k, v)]). split; [done|]. split; [|done].
    unfold tables_inv. cbn. split; [done|]. split; [done|]. split; [done|]. by destruct Hfin.
Qed.

(** ** The loop *)

Record loop_inv (all before rest : list KeyValueEntry) (ds : list (list KeyValueEntry * NewFileEntry))
    (cur : list KeyValueEntry) (s : State) : Prop := mkLoopInv {
  lp_all : all = before ++ rest;
  lp_iter : ∃ full, it_rep internal (bt_iterator s) full rest;
  lp_scan : scanned w (bt_last_user_key s) (bt_last_entry_below_waterline s) before;
  lp_first : 0 ≤ bt_first_seq s ≤ MAX_SEQUENCE;
  lp_tables : tables_inv ds cur s;
  lp_rows : concat ds.*1 ++ cur = filter (kept rd w all) before;
}.

(** There are at most as many tables as rows. *)
Lemma finished_le_rows ds used (s : State) : finished_inv ds used s → (length ds ≤ length (concat ds.*1))%nat.
Proof.
  intros [_ _ Hwr _ _]. induction Hwr as [|[rows f] ds [Hd _] _ IH]; [done|]. cbn in *. rewrite length_app.
  destruct rows; [done|]. cbn. lia.
Qed.

Lemma tables_le_rows ds cur (s : State) : tables_inv ds cur s → (length ds ≤ length (concat ds.*1))%nat.
Proof.
  unfold tables_inv. destruct (bt_current_table s); [intros (_ & _ & _ & Hfi)|intros [_ Hfi]]; by eapply finished_le_rows.
Qed.

Lemma tables_inv_same ds cur (s s' : State) :
  tables_inv ds cur s → bt_current_table s' = bt_current_table s → bt_version_edit s' = bt_version_edit s →
  bt_files s' = bt_files s → tables_inv ds cur s'.
Proof.
  unfold tables_inv. intros Hinv -> He Hf. destruct (bt_current_table s).
  - destruct Hinv as (? & ? & ? & [H1 H2 H3 H4 H5]). split_and!; try done. split; by rewrite ?He, ?Hf.
  - destruct Hinv as (? & [H1 H2 H3 H4 H5]). split; [done|]. split; by rewrite ?He, ?Hf.
Qed.

Lemma entries_infix l1 l2 l3 : entries_ok internal (l1 ++ l2 ++ l3) → entries_ok internal l2.
Proof.
  intros [H1 H2]. rewrite !Forall_app in H1. split; [tauto|].
  eapply StronglySorted_app_1_l, StronglySorted_app_1_r, H2.
Qed.

Lemma entries_filter (P : KeyValueEntry → Prop) `{!∀ e, Decision (P e)} es : entries_ok internal es → entries_ok internal (filter P es).
Proof.
  intros [H1 H2]. split; [|by apply sorted_filter]. rewrite Forall_forall in *.
  intros e [_ He]%list_elem_of_filter. auto.
Qed.

(** The entries of a compaction. *)
Record input_ok (all : list KeyValueEntry) : Prop := mkInputOk {
  in_ok : entries_ok internal all;
  in_sequences : Forall (λ e, 0 ≤ ik_seq e.1 ≤ MAX_SEQUENCE) all;
  in_fit : ts_fit (compacted rd w all);
  in_numbers : n + Z.of_nat (length all) < U64_MAX;
}.

Lemma kept_next all before e rest (rows : list KeyValueEntry) cur :
  all = before ++ e :: rest → input_ok all → rows ++ cur = filter (kept rd w all) before → kept rd w all e →
  entries_ok internal (cur ++ [e]) ∧ ts_fit (cur ++ [e]) ∧ rows ++ cur ++ [e] = filter (kept rd w all) (before ++ [e]).
Proof.
  intros Hall [Hok _ Hfit _] Hrows Hk.
  assert (compacted rd w all = rows ++ (cur ++ [e]) ++ filter (kept rd w all) rest) as Hc.
  { unfold compacted. transitivity (filter (kept rd w all) (before ++ e :: rest)); [by rewrite <- Hall|]. rewrite filter_app, filter_cons_True, <- Hrows by done. by rewrite <- !app_assoc. }
  split_and!.
  - apply (entries_infix rows _ (filter (kept rd w all) rest)). rewrite <- Hc. by apply entries_filter.
  - apply (ts_fit_infix rows _ (filter (kept rd w all) rest)). by rewrite <- Hc.
  - rewrite filter_app, <- Hrows, filter_cons_True by done. by rewrite <- app_assoc.
Qed.

(** A round of the loop. *)
Lemma build_round all before e rest ds cur (s : State) :
  loop_inv all before (e :: rest) ds cur s → input_ok all →
  ∃ ikey s1 s2 ds' cur',
    bt_next s = Done (inr (Some e), s1) ∧ InternalKey_parse e.1 = inr ikey ∧
    (let! (is_stale, keep) := compaction_filter rd w (take (length (ik_user_key ikey)) e.1) ikey in
     if keep : bool then add_entry level target e.1 e.2 ikey is_stale else ret (inr tt))%run s1 = Done (inr tt, s2) ∧
    loop_inv all (before ++ [e]) rest ds' cur' s2.
Proof.
  intros [Hall (full & Hit) Hsc Hfs Htab Hrows] Hin. pose proof Hin as [[Hkeys Hsort] Hseqs _ Hn].
  destruct (it_next_spec _ _ _ _ Hit) as (i' & Hnext & Hit'). cbn [head tail] in *.
  assert (internal_key user e.1) as Hik by (rewrite Forall_forall in Hkeys; apply Hkeys; subst all; set_solver).
  destruct (parse_entry user e Hik) as (ikey & Hparse & Htyp & Hseq & Huser).
  set (s1 := bt_set_iterator i' s). exists ikey, s1. rewrite Hall in Hsort.
  destruct (filter_next_ok before e rest ikey s1 Hsc Hsort Hseq ltac:(by rewrite Htyp)) as [Hfilter Hsc']. rewrite <- Hall in Hfilter.
  set (s2 := filtered (ik_user e.1) (ik_seq e.1) s1) in *.
  destruct (filtered_fields (ik_user e.1) (ik_seq e.1) s1) as (F1 & F2 & F3 & F4 & F5 & F6 & F7). fold s2 in F1, F2, F3, F4, F5, F6, F7.
  assert (tables_inv ds cur s2) as Htab2 by (by apply (tables_inv_same ds cur s)).
  assert (0 ≤ bt_first_seq s2 ≤ MAX_SEQUENCE) as Hfs2.
  { rewrite F5. destruct (bool_decide _); [done|]. rewrite Forall_forall in Hseqs. apply Hseqs. rewrite Hall. set_solver. }
  assert (∀ s3 ds' cur', same_filter s2 s3 → tables_inv ds' cur' s3 →
    concat ds'.*1 ++ cur' = filter (kept rd w all) (before ++ [e]) → loop_inv all (before ++ [e]) rest ds' cur' s3) as Hnew.
  { intros s3 ds' cur' (E1 & E2 & E3 & E4) Ht Hr. split; [by rewrite Hall, <- app_assoc| |by rewrite E2, E4|by rewrite E3|done|done].
    exists full. by rewrite E1, F1. }
  rewrite Huser. unfold bind at 1. rewrite Hfilter.
  assert (bt_next s = Done (inr (Some e), s1)) as Hbt by (unfold bt_next, bind, gets, call; change (id s) with s; by rewrite Hnext).
  destruct (decide (kept rd w all e)) as [Hk|Hk].
  - destruct (kept_next all before e rest (concat ds.*1) cur Hall Hin Hrows Hk) as (Hok' & Hfit' & Hr').
    assert (length ds < length all)%nat as Hlen.
    { pose proof (tables_le_rows ds cur s Htab) as H. apply (f_equal length) in Hrows. rewrite length_app in Hrows.
      pose proof (length_filter (kept rd w all) before). rewrite Hall, length_app. cbn. lia. }
    destruct e as [k v]. destruct (add_entry_ok ds cur k v ikey (bool_decide (Some (ik_user k) = bt_last_user_key s1)) s2)
      as (s3 & ds' & cur' & Hrun & Htab3 & Hsf & Hcat); [done|lia|done|by rewrite Htyp|done|done|done|].
    exists s3, ds', cur'. split_and!; [done|done| |].
    + rewrite (bool_decide_eq_true_2 (kept _ _ _ _)) by done. exact Hrun.
    + apply Hnew; [done|done|]. by rewrite Hcat.
  - exists s2, ds, cur. split_and!; [done|done| |].
    + by rewrite (bool_decide_eq_false_2 (kept _ _ _ _)).
    + apply Hnew; [done|done|]. rewrite filter_app, filter_cons_False, app_nil_r by done. done.
Qed.

Lemma build_loop_ok fuel : ∀ all before rest ds cur (s : State),
  loop_inv all before rest ds cur s → input_ok all → (length rest < fuel)%nat →
  ∃ s' ds' cur', build_loop fuel rd level target w s = Done (inr tt, s') ∧ loop_inv all all [] ds' cur' s'.
Proof.
  induction fuel as [|fuel IH]; intros all before rest ds cur s Hinv Hin Hf; [lia|]. destruct rest as [|e rest].
  - destruct Hinv as [Hall (full & Hit) Hsc Hfs Htab Hrows]. rewrite app_nil_r in Hall.
    destruct (it_next_spec _ _ _ _ Hit) as (i' & Hnext & Hit').
    exists (bt_set_iterator i' s), ds, cur. split.
    + cbn [build_loop]. unfold try_bind, bind at 1, bt_next, bind, gets, call. change (id s) with s. by rewrite Hnext.
    + subst before. split; [by rewrite app_nil_r|by exists full|done|done|by apply (tables_inv_same ds cur s)|done].
  - destruct (build_round all before e rest ds cur s Hinv Hin) as (ikey & s1 & s2 & ds' & cur' & Hnext & Hparse & Hrun & Hinv').
    destruct (IH all _ rest ds' cur' s2 Hinv' Hin ltac:(cbn in Hf; lia)) as (s3 & ds3 & cur3 & Hloop & Hinv3).
    exists s3, ds3, cur3. split; [|done]. cbn [build_loop]. unfold try_bind at 1, bind at 1. rewrite Hnext. destruct e as [k v].
    unfold try_bind at 1, bind at 1. cbn [fst snd] in *. rewrite Hparse. unfold ret at 1.
    unfold bind at 1 in Hrun. unfold bind at 1. destruct (compaction_filter _ _ _ _ _) as [[[stale keep] s4]| |]; [|done..].
    unfold try_bind, bind. by rewrite Hrun.
Qed.

(** The new tables are opened. *)
Lemma open_tables_ok (ds : list (list KeyValueEntry * NewFileEntry)) fs :
  Forall (λ d, d.1 ≠ [] ∧ table_written fs d.1 d.2) ds →
  ∃ tables, open_tables fs ds.*2 = Done (inr tables) ∧ Forall2 (λ t d, ∃ p, ts_rows t d.1 p ∧ counted d.1 p) tables ds.
Proof.
  induction 1 as [|d ds [_ Hd] _ (tables & Hrun & Hall)]; [by exists []|].
  destruct Hd as (lo & hi & file & t & p & _ & _ & _ & Hfile & _ & _ & Hread & Hrows & Hcn).
  exists (t :: tables). cbn [fmap list_fmap open_tables]. rewrite Hfile, Hread. cbn [rr_bind].
  change (list_fmap _ _ snd ds) with (ds.*2). rewrite Hrun. cbn [rr_bind]. split; [done|]. constructor; [by exists p|done].
Qed.

(** What is built: the entries that are kept, in order, in tables with
    consecutive numbers. *)
Record tables_built (all : list KeyValueEntry) (ds : list (list KeyValueEntry * NewFileEntry)) (tables : list T)
    (s : State) : Prop := mkTablesBuilt {
  tb_rows_kept : concat ds.*1 = compacted rd w all;
  tb_tables : Forall2 (λ t d, ∃ p, ts_rows t d.1 p ∧ counted d.1 p) tables ds;
  tb_finished : finished_inv ds 0 s;
}.

Lemma build_tables_ok fuel i full all waterline :
  it_rep internal i full all → w = default U64_MAX waterline → input_ok all → (length all < fuel)%nat →
  ve_new_files edit = [] → ve_next_file_number edit = Some n → (∀ m, n ≤ m → files !! m = None) →
  ∃ ds tables s',
    build_tables_from_iterator fuel rd target level waterline (bt_start i edit files) = Done (inr tables, s') ∧
    tables_built all ds tables s'.
Proof.
  intros Hit Hw Hin Hf Hnew Hnext Hfresh.
  assert (loop_inv all [] all [] [] (bt_start i edit files)) as Hstart.
  { split; [done|by exists full|apply scanned_start|by vm_compute| |done]. split; [done|]. split; try done.
    - unfold built_edit. cbn. rewrite !Z.add_0_r, <- Hnext, <- Hnew. apply edit_eta.
    - cbn. intros m Hm. apply Hfresh. lia. }
  destruct (build_loop_ok fuel all [] all [] [] _ Hstart Hin Hf) as (s1 & ds & cur & Hloop & [_ _ _ _ Htab Hrows]).
  unfold build_tables_from_iterator, try_bind at 1, bind at 1. rewrite <- Hw, Hloop. unfold bind at 1, gets at 1.
  change (id s1) with s1. unfold bind at 1, modify at 1.
  assert (∀ ds' (s2 : State), finished_inv ds' 0 s2 → concat ds'.*1 = compacted rd w all →
    ∃ tables, (let! s := gets id in lift_rr (open_tables (bt_files s) (ve_new_files (bt_version_edit s))))%run s2 =
      Done (inr tables, s2) ∧ tables_built all ds' tables s2) as Hopen.
  { intros ds' s2 Hfi Hc. destruct (open_tables_ok ds' (bt_files s2) (fi_written _ _ _ Hfi)) as (tables & Hrun & Hall).
    exists tables. split; [|done]. unfold bind, gets, lift_rr. change (id s2) with s2. rewrite (fi_edit _ _ _ Hfi). cbn.
    by rewrite Hrun. }
  unfold tables_inv in Htab. destruct (bt_current_table s1) as [t|].
  - destruct Htab as (Hne & Hnum & Hcur & Hfi).
    destruct (finish_table_ok ds cur t (bt_set_current None s1)) as (f & s2 & Hrun & _ & Hfi2 & _); [done|done|done|done|by destruct Hfi|..].
    + apply (entries_infix (concat ds.*1) _ []). rewrite app_nil_r, Hrows. by apply entries_filter, Hin.
    + apply (ts_fit_infix (concat ds.*1) _ []). rewrite app_nil_r, Hrows. apply Hin.
    + destruct (Hopen _ s2 Hfi2) as (tables & Hrun2 & Hb); [rewrite fmap_app, concat_app; cbn; by rewrite app_nil_r|].
      eexists _, tables, s2. split; [|exact Hb]. unfold try_bind at 1, bind at 1. rewrite Hrun. exact Hrun2.
  - destruct Htab as [-> Hfi]. rewrite app_nil_r in Hrows.
    destruct (Hopen ds (bt_set_current None s1)) as (tables & Hrun2 & Hb); [by destruct Hfi|done|].
    eexists _, tables, _. split; [|exact Hb]. exact Hrun2.
Qed.
End Loop.
