(* ===== verification/CompactionTheorems.v ===== *)
(** * Properties of compactions

    The tables of src/pkg/sstable/src/table keep the laws of the interface,
    and what is proved against it holds for them: the entries a compaction
    keeps are in its tables, its edit can be written, and reads do not see
    it. *)

From S2P Require Import Prelude Wire Encoding Comparator DataBlock MergeIterator MergeIteratorTheorems.
From S2P Require Import SkipList RecordLog WriteBatch WriteBatchTheorems Snapshot SnapshotProofs SnapshotTheorems Filter FilterTheorems.
From S2P Require Import Table TableProofs TableProperties TableBuild TableTheorems VersionEdit VersionEditTheorems Version.
From S2P Require Import Compaction CompactionProofs CompactionBuild.

(** ** The tables of the database *)

Section Tables.
Context (crc32c_raw_oneshot : Z → Z) (zlib_encode zlib_decode : bytes → Result bytes) (overflow_checks : bool).
Context (options : SSTableBuilderOptions) (policy : FilterPolicy) {HP : FilterPolicyLaws policy}.
Context {HC : KeyComparatorLaws (o_comparator options)} (registry : FilterPolicyRegistry).
Context (Hoptions : options_ok zlib_encode zlib_decode options policy).
Abbreviation store := (sstable_store crc32c_raw_oneshot zlib_encode zlib_decode overflow_checks options registry).

Definition sst_rep (b : SSTableBuilder) (rows : list KeyValueEntry) (p : TableProperties) : Prop :=
  ∃ blocks cur, building zlib_decode options policy blocks [] cur b ∧ block_rows_of blocks ++ cur = rows ∧
    sb_properties b = p ∧ sb_properties_block_builder b = Unsorted_new false 1.

Definition sst_rows (t : SSTable) (rows : list KeyValueEntry) (p : TableProperties) : Prop :=
  ∃ blocks, table_holds zlib_decode (o_comparator options) t blocks ∧ block_rows_of blocks = rows ∧ st_properties t = p.

Lemma building_properties blocks last cur s p :
  building zlib_decode options policy blocks last cur (sb_set_properties p s) ↔ building zlib_decode options policy blocks last cur s.
Proof. by split; intros [? ? ? ? ? ? ? ?]; split. Qed.

Lemma fit_infix l1 l2 l3 : rows_fit options policy (l1 ++ l2 ++ l3) → rows_fit options policy l2.
Proof.
  intros Hf. apply (rows_fit_sublist zlib_encode zlib_decode options policy Hoptions _ _ Hf).
  by apply sublist_inserts_l, sublist_inserts_r.
Qed.

Definition sstable_laws : @TableStoreLaws (o_comparator options) _ SSTableBuilder SSTable store.
Proof.
  refine (@Build_TableStoreLaws _ _ _ _ store (rows_fit options policy) sst_rep sst_rows fit_infix _ _ _ _ _).
  - intros rows [Hw _]. lia.
  - destruct (open_building zlib_encode zlib_decode overflow_checks options policy Hoptions) as (s & Hs & Hb). exists s. split; [done|].
    destruct (Hb ∅) as [Hb1 Hu]. exists [], []. split; [exact (proj1 (building_properties _ _ _ _ _) Hb1)|]. split; [done|].
    split; [|done]. clear -Hs. cbn in Hs. unfold SSTableBuilder_open in Hs.
    destruct (o_filter_policy options); [destruct (FilterBlockBuilder_new _ _)|]; by simplify_eq.
  - intros b rows p (blocks & cur & Hb & Hr & Hp & Hu). split; [done|]. intros p'. exists blocks, cur.
    split; [exact (proj2 (building_properties _ _ _ _ _) Hb)|done].
  - intros b rows p k v (blocks & cur & Hb & <- & Hp & Hu) Hok Hfit.
    destruct (table_add_ok crc32c_raw_oneshot zlib_encode zlib_decode options policy Hoptions blocks [] cur b k v Hb)
      as (blocks' & cur' & b' & Hrun & Hb' & _ & Hr' & P1 & P2).
    + by rewrite <- app_assoc in Hok.
    + cbn [app]. by apply (rows_fit_app zlib_encode zlib_decode options policy Hoptions _ [(k, v)]).
    + exists b'. split; [done|]. exists blocks', cur'. split; [done|]. split; [by rewrite Hr', <- app_assoc|]. split; congruence.
  - intros b rows p (blocks & cur & Hb & <- & Hp & Hu) Hok Hfit Hpo Hw.
    destruct (table_finish_ok crc32c_raw_oneshot zlib_encode zlib_decode overflow_checks options policy Hoptions blocks cur b p)
      as (blocks' & file & b' & Hrun & Hr' & Hix & Hwr & Hlen); [done..|].
    destruct (open_written zlib_encode zlib_decode overflow_checks options policy Hoptions registry file blocks' p)
      as (t & Hopen & Hh & Hpr & _); [done|done|by rewrite Hr'|by rewrite Hr'|done|].
    exists file, b', t. split; [done|]. split; [done|]. split; [done|]. by exists blocks'.
Defined.
End Tables.

(** What [build_tables_from_iterator] does with tables in files. *)
Lemma build_sstables (crc32c_raw_oneshot : Z → Z) (zlib_encode zlib_decode : bytes → Result bytes)
    (overflow_checks : bool) (o : SSTableBuilderOptions) (policy : FilterPolicy) (HP : FilterPolicyLaws policy)
    (HC : KeyComparatorLaws (o_comparator o)) (HA : AntiSymm (=) (@kc_le (o_comparator o) _)) (registry : FilterPolicyRegistry)
    (I : Type) (HI : Iterable I) (LI : IterableLaws (InternalKeyComparator (o_comparator o)) I)
    (i : I) (full all : list KeyValueEntry) (fuel : nat) (remove_deleted : bool) (target level n : Z)
    (waterline : option Z) (edit : VersionEdit) (files : gmap Z bytes) :
  let options := wrap_with_internal_keys o in
  let w := default U64_MAX waterline in
  options_ok zlib_encode zlib_decode options policy → it_rep (InternalKeyComparator (o_comparator o)) i full all →
  Forall (λ e, 0 ≤ ik_seq e.1 ≤ MAX_SEQUENCE) all → rows_fit options policy (compacted remove_deleted w all) →
  n + Z.of_nat (length all) < U64_MAX → (length all < fuel)%nat →
  ve_new_files edit = [] → ve_next_file_number edit = Some n → (∀ m, n ≤ m → files !! m = None) →
  ∃ ds tables s',
    @build_tables_from_iterator _ _ _
      (sstable_store crc32c_raw_oneshot zlib_encode zlib_decode overflow_checks options registry) _
      fuel remove_deleted target level waterline (bt_start i edit files) = Done (inr tables, s') ∧
    concat ds.*1 = compacted remove_deleted w all ∧ Forall (λ d, d.1 ≠ []) ds ∧
    bt_version_edit s' = built_edit edit ds.*2 (n + Z.of_nat (length ds)) ∧
    nf_number <$> ds.*2 = seqZ n (Z.of_nat (length ds)) ∧
    Forall (λ d, ∃ lo hi, nf_level d.2 = level ∧ nf_sequence_range d.2 = Some (lo, hi) ∧
      spanned d.1 (nf_smallest_key d.2) (nf_largest_key d.2) lo hi) ds ∧
    Forall2 (λ t d, counted d.1 (st_properties t) ∧ ∃ i',
      @it_collect _ (SSTableIterator_iterable zlib_decode) (S (length d.1)) (SSTable_iter t) = Done (inr d.1, i')) tables ds.
Proof.
  intros options w Ho Hit Hseq Hfit Hn Hf Hnew Hnext Hfresh.
  pose (LT := @sstable_laws crc32c_raw_oneshot zlib_encode zlib_decode overflow_checks options policy HP _ registry Ho).
  destruct (it_rep_ok _ _ _ _ Hit) as [Hok Hsuf].
  destruct (build_tables_ok (LT := LT) (o_comparator o) remove_deleted w level target edit files n fuel i full all waterline Hit eq_refl)
    as (ds & tables & s' & Hrun & [Hrows Htab [Hed Hns Hwr _ _]]); [|done|done|done|done|].
  { split; [|done|exact Hfit|done]. by eapply entries_suffix. }
  exists ds, tables, s'. split; [exact Hrun|]. rewrite Z.add_0_r in Hed. split; [done|].
  split; [eapply Forall_impl; [exact Hwr|]; by intros d [? _]|]. split; [done|]. split; [done|]. split.
  - eapply Forall_impl; [exact Hwr|]. intros d [_ (lo & hi & ? & ? & ? & H1 & H2 & H3 & _)]. by exists lo, hi.
  - eapply Forall2_impl; [exact Htab|]. intros t d (p & (blocks & Hh & Hr & <-) & Hc). split; [done|]. rewrite <- Hr.
    apply (table_collect_ok zlib_decode _ _ _ _ _ (table_iter_rep zlib_decode options t blocks Hh)). lia.
Qed.

(** C24: a compaction writes the entries it keeps, and only these. For any
    iterator over entries in order, [build_tables_from_iterator] returns
    without a panic or an error; its tables hold, one after the other and in
    order, exactly the entries newer than the waterline and the newest entry
    of each key up to it (but for the deletions it removes). None of them is
    empty, their numbers are consecutive from the next file number on, their
    entries in the edit have the first and the last key and the range of
    sequences of their rows, and their properties count their keys, values,
    entries and deletions. *)
Theorem compaction_tables (crc32c_raw_oneshot : Z → Z) (zlib_encode zlib_decode : bytes → Result bytes)
    (overflow_checks : bool) (o : SSTableBuilderOptions) (policy : FilterPolicy) (HP : FilterPolicyLaws policy)
    (HC : KeyComparatorLaws (o_comparator o)) (HA : AntiSymm (=) (@kc_le (o_comparator o) _)) (registry : FilterPolicyRegistry)
    (I : Type) (HI : Iterable I) (LI : IterableLaws (InternalKeyComparator (o_comparator o)) I)
    (i : I) (full all : list KeyValueEntry) (fuel : nat) (remove_deleted : bool) (target level n : Z)
    (waterline : option Z) (edit : VersionEdit) (files : gmap Z bytes) :
  let options := wrap_with_internal_keys o in
  let w := default U64_MAX waterline in
  options_ok zlib_encode zlib_decode options policy → it_rep (InternalKeyComparator (o_comparator o)) i full all →
  Forall (λ e, 0 ≤ ik_seq e.1 ≤ MAX_SEQUENCE) all → rows_fit options policy (compacted remove_deleted w all) →
  n + Z.of_nat (length all) < U64_MAX → (length all < fuel)%nat →
  ve_new_files edit = [] → ve_next_file_number edit = Some n → (∀ m, n ≤ m → files !! m = None) →
  ∃ ds tables s',
    @build_tables_from_iterator _ _ _
      (sstable_store crc32c_raw_oneshot zlib_encode zlib_decode overflow_checks options registry) _
      fuel remove_deleted target level waterline (bt_start i edit files) = Done (inr tables, s') ∧
    concat ds.*1 = compacted remove_deleted w all ∧ Forall (λ d, d.1 ≠ []) ds ∧
    bt_version_edit s' = built_edit edit ds.*2 (n + Z.of_nat (length ds)) ∧
    nf_number <$> ds.*2 = seqZ n (Z.of_nat (length ds)) ∧
    Forall (λ d, ∃ lo hi, nf_level d.2 = level ∧ nf_sequence_range d.2 = Some (lo, hi) ∧
      spanned d.1 (nf_smallest_key d.2) (nf_largest_key d.2) lo hi) ds ∧
    Forall2 (λ t d, counted d.1 (st_properties t) ∧ ∃ i',
      @it_collect _ (SSTableIterator_iterable zlib_decode) (S (length d.1)) (SSTable_iter t) = Done (inr d.1, i')) tables ds.
Proof. by eapply build_sstables. Qed.

Definition plain_options : SSTableBuilderOptions :=
  mkBuilderOptions 40 20 2 true CkCRC32C CpSnappy BytewiseComparator (Some example_policy) 2.
Definition internal_policy : FilterPolicy := InternalKeyFilterPolicy example_policy.
#[local] Instance internal_policy_laws : FilterPolicyLaws internal_policy :=
  internal_filter_laws example_policy (bloom_laws 10 6 eq_refl).

Definition history_entries : list KeyValueEntry := apply_batches BytewiseComparator (example_table ++ example_mem) [].

Lemma plain_options_ok : options_ok no_zlib no_zlib (wrap_with_internal_keys plain_options) internal_policy.
Proof. split; [by right; left|done|by right|done|by vm_compute]. Qed.

Lemma history_sequences : Forall (λ e, 0 ≤ ik_seq e.1 ≤ MAX_SEQUENCE) history_entries.
Proof. apply (bool_decide_unpack _). by vm_compute. Qed.

Lemma history_compacted : compacted true 2 history_entries =
  [write_entry 3 (WriteValue [2] [30]); write_entry 1 (WriteValue [2] [20]); write_entry 3 (WriteValue [4] [40])].
Proof. by vm_compute. Qed.

Lemma history_fits : rows_fit (wrap_with_internal_keys plain_options) internal_policy (compacted true 2 history_entries).
Proof.
  rewrite history_compacted.
  split; [by vm_compute|]. intros _. split; [|split; [|by vm_compute]].
  - change (3 ≤ Z.to_nat ((U32 - 65) / 10))%nat. apply Nat2Z.inj_le. rewrite Z2Nat.id; by vm_compute.
  - cbn [fmap list_fmap]. repeat (apply Forall_cons; split); try apply Forall_nil.
    all: first [exact Logic.I|apply Nat.leb_le; by vm_compute|split; [apply Nat.leb_le; by vm_compute|exact Logic.I]].
Qed.

Lemma compaction_tables_witness : ∃ (i : MemTableIterator) ds tables s',
  @build_tables_from_iterator _ _ _
    (sstable_store id no_zlib no_zlib true (wrap_with_internal_keys plain_options) (registry_wrap InternalKeyFilterPolicy (FilterPolicyRegistry_default false)))
    (mem_iterable (InternalKeyComparator BytewiseComparator)) 6 true 30 0 (Some 2)
    (bt_start i (set_next_file_number 7 VersionEdit_default) ∅) = Done (inr tables, s') ∧
  concat ds.*1 = [write_entry 3 (WriteValue [2] [30]); write_entry 1 (WriteValue [2] [20]); write_entry 3 (WriteValue [4] [40])] ∧
  nf_number <$> ds.*2 = seqZ 7 (Z.of_nat (length ds)).
Proof.
  destruct (example_iterator _ example_history) as [i Hi]. exists i.
  destruct (compaction_tables id no_zlib no_zlib true plain_options internal_policy internal_policy_laws BytewiseComparator_laws _
    (registry_wrap InternalKeyFilterPolicy (FilterPolicyRegistry_default false)) _ (mem_iterable (InternalKeyComparator BytewiseComparator))
    (mem_laws (InternalKeyComparator BytewiseComparator)) i history_entries history_entries 6 true 30 0 7 (Some 2)
    (set_next_file_number 7 VersionEdit_default) ∅) as (ds & tables & s' & Hrun & Hrows & _ & _ & Hns & _).
  - apply plain_options_ok.
  - exact Hi.
  - apply history_sequences.
  - apply history_fits.
  - by vm_compute.
  - change (length history_entries) with 5%nat. lia.
  - done.
  - done.
  - intros m _. apply lookup_empty.
  - exists ds, tables, s'. split; [exact Hrun|]. split; [|exact Hns]. rewrite <- history_compacted. exact Hrows.
Defined.

(** ** The edit of a compaction *)

Section Typed.
Context (user : KeyComparator) `{!KeyComparatorLaws user}.
Abbreviation internal := (InternalKeyComparator user).
Context {B T : Type} {HT : TableStore B T} {LT : TableStoreLaws internal B T}.

Lemma spanned_typed rows first last lo hi :
  spanned rows first last lo hi → Z.of_nat (weight rows) < 2 ^ 31 → Forall (λ e, 0 ≤ ik_seq e.1 ≤ MAX_SEQUENCE) rows →
  slice_ok first ∧ slice_ok last ∧ u64 lo ∧ u64 hi.
Proof.
  intros [H1 H2 _ H4 H5] Hw Hs. rewrite Forall_forall in Hs. unfold MAX_SEQUENCE in Hs.
  assert (∀ e, e ∈ rows → slice_ok e.1) as Hk.
  { intros e He. pose proof (weight_in rows e He) as Hle. unfold slice_ok, row_weight in *. lia. }
  assert (∀ x, Exists (λ e, ik_seq e.1 = x) rows → u64 x) as Hx.
  { intros x (e & He & <-)%Exists_exists. specialize (Hs e He). unfold u64. lia. }
  split_and!; [| |by apply Hx|by apply Hx].
  - destruct rows as [|e rows]; [done|]. injection H1 as <-. apply Hk. set_solver.
  - destruct (list.last rows) as [e|] eqn:E; [|done]. injection H2 as <-. by apply Hk, last_Some_elem_of.
Qed.

Lemma written_typed level files rows f :
  table_written user level files rows f → u64 (nf_number f) → 0 ≤ level < 2 ^ 32 →
  Z.of_nat (weight rows) < 2 ^ 31 → Forall (λ e, 0 ≤ ik_seq e.1 ≤ MAX_SEQUENCE) rows → file_ok f.
Proof.
  intros (lo & hi & file & t & p & H1 & H2 & H3 & _ & H5 & H6 & _) Hn Hl Hw Hs.
  destruct (spanned_typed _ _ _ _ _ H3 Hw Hs) as (K1 & K2 & K3 & K4).
  split; [by rewrite H1|done|rewrite H5; unfold u64; lia|done|done|by rewrite H2].
Qed.
End Typed.

(** C26: the edit of a compaction is well typed. Every number that
    [build_tables_from_iterator] puts into the version edit fits the integer
    type of its field, every key fits the encoding, and no file number occurs
    twice; so that the edit can be written to the manifest and is read back as
    it is. This is proved against the interface of tables and iterators. *)
Theorem compaction_edit_typed (user : KeyComparator) (HC : KeyComparatorLaws user) (HA : AntiSymm (=) (@kc_le user _))
    (B T I : Type) (HT : TableStore B T) (LT : TableStoreLaws (InternalKeyComparator user) B T)
    (HI : Iterable I) (LI : IterableLaws (InternalKeyComparator user) I)
    (i : I) (full all : list KeyValueEntry) (fuel : nat) (remove_deleted : bool) (target level n : Z)
    (waterline : option Z) (edit : VersionEdit) (files : gmap Z bytes) :
  it_rep (InternalKeyComparator user) i full all → input_ok user remove_deleted (default U64_MAX waterline) n all →
  (length all < fuel)%nat → ve_new_files edit = [] → ve_next_file_number edit = Some n → (∀ m, n ≤ m → files !! m = None) →
  0 ≤ level < 2 ^ 32 → edit_ok edit → NoDup (df_number <$> ve_deleted_files edit) →
  Forall (λ d, df_number d < n) (ve_deleted_files edit) →
  ∃ tables s' out,
    build_tables_from_iterator fuel remove_deleted target level waterline (bt_start i edit files) = Done (inr tables, s') ∧
    edit_ok (bt_version_edit s') ∧ VersionEdit_serialize (bt_version_edit s') = inr out ∧
    parse_edit out = Done (inr (bt_version_edit s')).
Proof.
  intros Hit Hin Hf Hnew Hnext Hfresh Hlevel Hedit Hnd Hdel.
  destruct (build_tables_ok user remove_deleted _ level target edit files n fuel i full all waterline Hit eq_refl Hin Hf Hnew Hnext Hfresh)
    as (ds & tables & s' & Hrun & [Hrows Htab Hfin]).
  assert (length ds ≤ length all)%nat as Hlen.
  { etrans; [by eapply finished_le_rows|]. rewrite Hrows. apply length_filter. }
  destruct Hfin as [Hed Hns Hwr _ _]. rewrite Z.add_0_r in Hed. exists tables, s'.
  assert (edit_ok (bt_version_edit s') ∧ NoDup (touched (bt_version_edit s'))) as [Hok Hndt].
  2:{ destruct (edit_roundtrip _ Hok Hndt) as (out & H1 & H2). exists out. split; [exact Hrun|]. done. }
  destruct Hin as [Hok Hseq Hfit Hnum]. pose proof (eo_next_file_number _ Hedit) as Hn. rewrite Hnext in Hn.
  unfold opt_u64, u64 in Hn. cbn in Hn. unfold U64_MAX in Hnum.
  assert (∀ d, d ∈ ds → file_ok d.2) as Hfiles.
  { intros d Hd. rewrite Forall_forall in Hwr. destruct (Hwr d Hd) as [_ Hd']. pose proof (numbers_lt n ds d Hns Hd).
    apply (written_typed user level (bt_files s') d.1); [done|unfold u64; lia|done| |].
    - apply list_elem_of_split in Hd as (l1 & l2 & ->). apply ts_fit_weight.
      apply (ts_fit_infix (concat l1.*1) _ (concat l2.*1)). by rewrite <- Hrows, fmap_app, concat_app in Hfit.
    - apply Forall_forall. intros e He. rewrite Forall_forall in Hseq. apply Hseq.
      assert (e ∈ compacted remove_deleted (default U64_MAX waterline) all) as Hin; [|by apply list_elem_of_filter in Hin as [_ ?]].
      rewrite <- Hrows. apply list_elem_of_In, in_concat. exists d.1. split; apply list_elem_of_In; [by apply list_elem_of_fmap_2|done]. }
  rewrite Hed. split.
  - destruct Hedit as [E1 E2 E3 E4 E5 E6 E7 E8]. split; try done; cbn.
    + unfold u64. lia.
    + apply Forall_forall. intros f (d & -> & Hd)%list_elem_of_fmap. by apply Hfiles.
  - unfold touched. cbn. rewrite Hns. apply NoDup_app. split; [done|]. split; [|apply NoDup_seqZ].
    intros x (d & -> & Hd)%list_elem_of_fmap [? _]%elem_of_seqZ. rewrite Forall_forall in Hdel. specialize (Hdel d Hd). lia.
Qed.

Lemma compaction_edit_typed_witness : ∃ (i : MemTableIterator) tables s' out,
  @build_tables_from_iterator _ _ _
    (sstable_store id no_zlib no_zlib true (wrap_with_internal_keys plain_options) (FilterPolicyRegistry_default false))
    (mem_iterable (InternalKeyComparator BytewiseComparator)) 6 true 30 1 (Some 2)
    (bt_start i (push_deleted_file (mkDeletedFileEntry 1 5) (set_next_file_number 7 VersionEdit_default)) ∅) = Done (inr tables, s') ∧
  edit_ok (bt_version_edit s') ∧ VersionEdit_serialize (bt_version_edit s') = inr out ∧
  parse_edit out = Done (inr (bt_version_edit s')).
Proof.
  destruct (example_iterator _ example_history) as [i Hi]. exists i.
  apply (compaction_edit_typed BytewiseComparator BytewiseComparator_laws _ _ _ _ _
    (sstable_laws id no_zlib no_zlib true (wrap_with_internal_keys plain_options) internal_policy (FilterPolicyRegistry_default false) plain_options_ok)
    _ (mem_laws (InternalKeyComparator BytewiseComparator)) i history_entries history_entries 6 true 30 1 7).
  - exact Hi.
  - split; [apply example_entries|apply history_sequences|apply history_fits|by vm_compute].
  - change (length history_entries) with 5%nat. lia.
  - done.
  - done.
  - intros m _. apply lookup_empty.
  - done.
  - split; cbn; try done. apply Forall_singleton. unfold u64. cbn. lia.
  - cbn. apply NoDup_singleton.
  - apply Forall_singleton. cbn. lia.
Defined.

(** ** Reads *)

(** Reads before and after some entries are replaced by those that are kept. *)
Lemma compacted_reads (user : KeyComparator) `{!KeyComparatorLaws user} `{!AntiSymm (=) (@kc_le user _)}
    {J} {HJ : Iterable J} {LJ : IterableLaws (InternalKeyComparator user) J} (s s' : Snapshot J)
    (es others all all' : list KeyValueEntry) (remove_deleted : bool) (w : Z) (key : bytes) (fuel : nat) :
  snapshot_holds user s all → snapshot_holds user s' all' →
  all ≡ₚ es ++ others → all' ≡ₚ compacted remove_deleted w es ++ others →
  sn_last_sequence s' = sn_last_sequence s →
  default 0 (sn_compaction_waterline s) ≤ sn_last_sequence s → default 0 (sn_compaction_waterline s') ≤ sn_last_sequence s →
  (∀ e, e ∈ es → ik_seq e.1 ≤ w → ik_seq e.1 ≤ sn_last_sequence s) →
  (remove_deleted = true → ∀ e o, e ∈ es → deletion e = true → o ∈ others → ik_user o.1 = ik_user e.1 → ik_seq e.1 < ik_seq o.1) →
  kc_key key → (length all < fuel)%nat →
  ∃ v, snapshot_get HJ (InternalKeyComparator user) fuel key s = Done (inr v, s) ∧
       snapshot_get HJ (InternalKeyComparator user) fuel key s' = Done (inr v, s').
Proof.
  intros Hs Hs' Hp Hp' Hl Hw Hw' Hold Hdel Hk Hf. exists (visible (sn_last_sequence s) key all). split.
  - exact (snapshot_get_ok user s all key fuel Hs Hw Hk Hf).
  - rewrite (snapshot_get_ok user s' all'); [|done|by rewrite Hl|done|].
    + rewrite Hl. do 2 f_equal. f_equal. apply (compacted_visible user remove_deleted w es others); [apply Hs|apply Hs'|done..].
    + apply Permutation_length in Hp, Hp'. rewrite length_app in *. pose proof (length_filter (kept remove_deleted w es) es).
      unfold compacted in Hp'. lia.
Qed.

(** C25: compactions do not change what is read. Let
    [build_tables_from_iterator] run over the entries [all] of a database:
    it returns tables, and when a snapshot of the database is replaced by one
    with the rows of these tables in the place of the entries, every [get] of
    a sequence at or above the waterline (or above all the entries) returns
    the same value as before. This is for options that the builder supports
    and entries that fit in tables, and for snapshots over lawful iterators,
    whose seeks are exact; and when the compaction removes deletions, no entry
    outside of it may be as old as, or older than, a deletion of its key in
    it. *)
Theorem compaction_keeps_reads (crc32c_raw_oneshot : Z → Z) (zlib_encode zlib_decode : bytes → Result bytes)
    (overflow_checks : bool) (o : SSTableBuilderOptions) (policy : FilterPolicy) (HP : FilterPolicyLaws policy)
    (HC : KeyComparatorLaws (o_comparator o)) (HA : AntiSymm (=) (@kc_le (o_comparator o) _)) (registry : FilterPolicyRegistry)
    (I : Type) (HI : Iterable I) (LI : IterableLaws (InternalKeyComparator (o_comparator o)) I)
    (i : I) (full all : list KeyValueEntry) (fuel : nat) (remove_deleted : bool) (target level n : Z)
    (waterline : option Z) (edit : VersionEdit) (files : gmap Z bytes) :
  let user := o_comparator o in
  let options := wrap_with_internal_keys o in
  let w := default U64_MAX waterline in
  options_ok zlib_encode zlib_decode options policy → it_rep (InternalKeyComparator (o_comparator o)) i full all →
  Forall (λ e, 0 ≤ ik_seq e.1 ≤ MAX_SEQUENCE) all → rows_fit options policy (compacted remove_deleted w all) →
  n + Z.of_nat (length all) < U64_MAX → (length all < fuel)%nat →
  ve_new_files edit = [] → ve_next_file_number edit = Some n → (∀ m, n ≤ m → files !! m = None) →
  ∃ rows tables st,
    @build_tables_from_iterator _ _ _
      (sstable_store crc32c_raw_oneshot zlib_encode zlib_decode overflow_checks options registry) _
      fuel remove_deleted target level waterline (bt_start i edit files) = Done (inr tables, st) ∧
    concat rows = compacted remove_deleted w all ∧
    Forall2 (λ t l, ∃ i',
      @it_collect _ (SSTableIterator_iterable zlib_decode) (S (length l)) (SSTable_iter t) = Done (inr l, i')) tables rows ∧
    ∀ (J : Type) (HJ : Iterable J) (LJ : IterableLaws (InternalKeyComparator user) J) (s s' : Snapshot J)
      (others before after : list KeyValueEntry) (key : bytes) (fuel' : nat),
      snapshot_holds user s before → snapshot_holds user s' after →
      before ≡ₚ all ++ others → after ≡ₚ concat rows ++ others →
      sn_last_sequence s' = sn_last_sequence s →
      default 0 (sn_compaction_waterline s) ≤ sn_last_sequence s → default 0 (sn_compaction_waterline s') ≤ sn_last_sequence s →
      (∀ e, e ∈ all → ik_seq e.1 ≤ w → ik_seq e.1 ≤ sn_last_sequence s) →
      (remove_deleted = true → ∀ e o, e ∈ all → deletion e = true → o ∈ others → ik_user o.1 = ik_user e.1 → ik_seq e.1 < ik_seq o.1) →
      kc_key key → (length before < fuel')%nat →
      ∃ v, snapshot_get HJ (InternalKeyComparator user) fuel' key s = Done (inr v, s) ∧
           snapshot_get HJ (InternalKeyComparator user) fuel' key s' = Done (inr v, s').
Proof.
  intros user options w Ho Hit Hseq Hfit Hn Hf Hnew Hnext Hfresh.
  destruct (build_sstables crc32c_raw_oneshot zlib_encode zlib_decode overflow_checks o policy HP HC HA registry I HI LI
    i full all fuel remove_deleted target level n waterline edit files Ho Hit Hseq Hfit Hn Hf Hnew Hnext Hfresh)
    as (ds & tables & st & Hrun & Hrows & _ & _ & _ & _ & Htab).
  exists ds.*1, tables, st. split; [exact Hrun|]. split; [exact Hrows|]. split.
  - apply Forall2_fmap_r. eapply Forall2_impl; [exact Htab|]. by intros t d [_ ?].
  - intros J HJ LJ s s' others before after key fuel' Hs Hs' Hp Hp'. rewrite Hrows in Hp'.
    by apply (compacted_reads user s s' all others before after).
Qed.

Definition compacted_history : list (Z * list Write) :=
  [(1, [WriteValue [2] [20]]); (3, [WriteValue [2] [30]; WriteValue [4] [40]])].

Lemma compacted_history_ok : history_ok BytewiseComparator compacted_history.
Proof.
  split; [repeat constructor; by vm_compute|repeat constructor|].
  repeat constructor; by rewrite ?elem_of_cons, ?elem_of_nil; naive_solver.
Qed.

#[local] Instance reads_iterable : Iterable MemTableIterator := mem_iterable (InternalKeyComparator BytewiseComparator).
#[local] Instance reads_laws : IterableLaws (InternalKeyComparator BytewiseComparator) MemTableIterator :=
  mem_laws (InternalKeyComparator BytewiseComparator).

(** A snapshot of one table. *)
Lemma table_snapshot (i : MemTableIterator) all :
  it_rep (InternalKeyComparator BytewiseComparator) i all all → snapshot_holds BytewiseComparator (mkSnapshot 3 None [] [i]) all.
Proof.
  intros Hi. split; [apply (it_rep_ok _ _ _ _ Hi)|by vm_compute|]. exists [], [all]. cbn [sn_memtables sn_tables concat app].
  split; [constructor|]. split; [by constructor|]. by rewrite app_nil_r.
Qed.

Lemma compaction_keeps_reads_witness : ∃ (i i' : MemTableIterator) tables st,
  @build_tables_from_iterator _ _ _
    (sstable_store id no_zlib no_zlib true (wrap_with_internal_keys plain_options) (registry_wrap InternalKeyFilterPolicy (FilterPolicyRegistry_default false)))
    (mem_iterable (InternalKeyComparator BytewiseComparator)) 6 true 30 0 (Some 2)
    (bt_start i (set_next_file_number 7 VersionEdit_default) ∅) = Done (inr tables, st) ∧
  snapshot_holds BytewiseComparator (mkSnapshot 3 None [] [i]) history_entries ∧
  snapshot_holds BytewiseComparator (mkSnapshot 3 None [] [i']) (compacted true 2 history_entries) ∧
  ∃ v, snapshot_get _ (InternalKeyComparator BytewiseComparator) 9 [1] (mkSnapshot 3 None [] [i]) = Done (inr v, mkSnapshot 3 None [] [i]) ∧
       snapshot_get _ (InternalKeyComparator BytewiseComparator) 9 [1] (mkSnapshot 3 None [] [i']) = Done (inr v, mkSnapshot 3 None [] [i']).
Proof.
  destruct (example_iterator _ example_history) as [i Hi], (example_iterator _ compacted_history_ok) as [i' Hi'].
  assert (apply_batches BytewiseComparator compacted_history [] = compacted true 2 history_entries) as E by by vm_compute.
  rewrite E in Hi'. exists i, i'. pose proof (table_snapshot i _ Hi) as H. pose proof (table_snapshot i' _ Hi') as H'.
  destruct (compaction_keeps_reads id no_zlib no_zlib true plain_options internal_policy internal_policy_laws BytewiseComparator_laws _
    (registry_wrap InternalKeyFilterPolicy (FilterPolicyRegistry_default false)) _ (mem_iterable (InternalKeyComparator BytewiseComparator))
    (mem_laws (InternalKeyComparator BytewiseComparator)) i history_entries history_entries 6 true 30 0 7 (Some 2)
    (set_next_file_number 7 VersionEdit_default) ∅) as (rows & tables & st & Hrun & Hrows & _ & Hreads).
  - apply plain_options_ok.
  - exact Hi.
  - apply history_sequences.
  - apply history_fits.
  - by vm_compute.
  - change (length history_entries) with 5%nat. lia.
  - done.
  - done.
  - intros m _. apply lookup_empty.
  - exists tables, st. split; [exact Hrun|]. split; [exact H|]. split; [exact H'|].
    apply (Hreads _ _ _ _ _ [] history_entries (compacted true 2 history_entries) [1] 9%nat H H').
    + by rewrite app_nil_r.
    + rewrite app_nil_r, Hrows. done.
    + done.
    + by vm_compute.
    + by vm_compute.
    + intros e _ He. cbn in *. lia.
    + intros _ e o _ _ Ho. by apply not_elem_of_nil in Ho.
    + by repeat constructor.
    + change (length history_entries) with 5%nat. lia.
Defined.
