(* ===== verification/VersionRows.v ===== *)
(** * The rows of a version

    What the tables of a version hold: iterating over a version is iterating
    over the rows of its tables, and how inserting and removing tables changes
    them. The rows of a table are given by the number of its file. *)

From S2P Require Import Prelude Algorithms Wire Encoding Comparator SkipList RecordLog WriteBatch BinaryHeap MergeIterator MergeIteratorTheorems.
From S2P Require Import Snapshot SnapshotProofs SnapshotTheorems VersionEdit Filter Table TableProofs Version VersionProofs VersionRecovery VersionTheorems.
From S2P Require Import LevelIterator LevelIteratorTheorems Compaction CompactionProofs CompactionBuild.

Section Rows.
Context {B T J : Type} {HT : TableStore B T} (table_iter : T → J) {HJ : Iterable J} (options : EmbeddedDBOptions).
Abbreviation c := (do_comparator options).
Context `{!KeyComparatorLaws c} {LT : TableStoreLaws c B T} {LJ : IterableLaws c J}.
Implicit Types (R : Z → list KeyValueEntry) (e : LevelTableEntry T) (v : Version T).

(** The iterator over a table with rows. *)
Hypothesis table_iter_rep : ∀ t rows p, ts_rows t rows p → entries_ok c rows → it_rep c (table_iter t) rows rows.

Definition rows_of R e : list KeyValueEntry := R (nf_number (lt_entry e)).

(** An open table whose entry has its first and its last key. *)
Definition table_ok R e : Prop :=
  ∃ t p, lt_table e = Some t ∧ ts_rows t (rows_of R e) p ∧ entries_ok c (rows_of R e) ∧
    fst <$> head (rows_of R e) = Some (nf_smallest_key (lt_entry e)) ∧
    fst <$> last (rows_of R e) = Some (nf_largest_key (lt_entry e)).

Definition entries_of v : list (LevelTableEntry T) := concat (lv_tables <$> levels v).

Definition contents R v : list KeyValueEntry := concat (rows_of R <$> entries_of v).

(** All file numbers are below [next], and the tables of a level other than
    the first are in order. *)
Record version_ok R (next : Z) v : Prop := mkVersionOk {
  vo_tables : Forall (λ e, table_ok R e ∧ nf_number (lt_entry e) < next) (entries_of v);
  vo_disjoint : ∀ n l, levels v !! S n = Some l → disjoint_tables options (lv_tables l);
}.

(** *** Rows in the range of their table *)

Lemma sorted_first es k : entries_ok c es → fst <$> head es = Some k → Forall (λ x, kc_le k x.1) es.
Proof.
  intros [_ Hs] Hk. destruct es as [|x es]; [done|]. injection Hk as <-. apply StronglySorted_cons in Hs as [Hx _].
  constructor; [done|]. eapply Forall_impl; [exact Hx|]. intros y Hy. by apply entry_lt_le.
Qed.

Lemma sorted_last es k : entries_ok c es → fst <$> last es = Some k → Forall (λ x, kc_le x.1 k) es.
Proof.
  intros [_ Hs] Hk. destruct (last es) as [y|] eqn:E; [|done]. injection Hk as <-.
  apply last_Some in E as [l ->]. apply Forall_app. split; [|by constructor].
  apply Forall_forall. intros x Hx. apply entry_lt_le, (StronglySorted_app_1_elem_of _ _ _ _ _ Hs); [done|by left].
Qed.

Lemma table_bounds R e x :
  table_ok R e → x ∈ rows_of R e → kc_le (nf_smallest_key (lt_entry e)) x.1 ∧ kc_le x.1 (nf_largest_key (lt_entry e)).
Proof.
  intros (t & p & _ & _ & Hok & Hf & Hl) Hx. split.
  - eapply Forall_forall in Hx; [|by apply (sorted_first _ _ Hok Hf)]. done.
  - eapply Forall_forall in Hx; [|by apply (sorted_last _ _ Hok Hl)]. done.
Qed.

Lemma table_range R e : table_ok R e → range_ok options (key_range e).
Proof.
  intros (t & p & _ & _ & Hok & Hf & Hl). pose proof Hok as [Hk _]. rewrite Forall_forall in Hk.
  destruct (rows_of R e) as [|x es] eqn:E; [done|]. injection Hf as Hf.
  destruct (last (x :: es)) as [y|] eqn:Ey; [|done]. injection Hl as Hl.
  unfold range_ok, key_range. cbn [kr_smallest kr_largest]. rewrite <- Hf, <- Hl. split_and!.
  - apply Hk. by left.
  - apply Hk. by apply last_Some_elem_of.
  - assert (Forall (λ z, kc_le x.1 z.1) (x :: es)) as Hall by (by apply sorted_first).
    rewrite Forall_forall in Hall. apply Hall. by apply last_Some_elem_of.
Qed.

(** Lists one after the other. *)
Lemma entries_app l1 l2 :
  entries_ok c l1 → entries_ok c l2 → (∀ x y, x ∈ l1 → y ∈ l2 → entry_lt c x y) → entries_ok c (l1 ++ l2).
Proof. intros [K1 S1] [K2 S2] H. split; [by apply Forall_app|]. by apply StronglySorted_app_2. Qed.

Lemma elem_of_rows R es x : x ∈ concat (rows_of R <$> es) ↔ ∃ e, e ∈ es ∧ x ∈ rows_of R e.
Proof.
  induction es as [|e es IH]; cbn; [split; [by intros ?%elem_of_nil|by intros (? & ?%elem_of_nil & _)]|]. rewrite elem_of_app, IH. split.
  - intros [H|(e' & H1 & H2)]; [exists e; split; [by left|done]|exists e'; split; [by right|done]].
  - intros (e' & [->|H1]%elem_of_cons & H2); [by left|right; by exists e'].
Qed.

Lemma disjoint_rows R es :
  Forall (table_ok R) es → disjoint_tables options es → entries_ok c (concat (rows_of R <$> es)).
Proof.
  intros Hok Hd. induction Hd as [|e es _ IH He]; [split; constructor|]. apply Forall_cons in Hok as [Hok Hoks]. cbn.
  apply entries_app; [by destruct Hok as (? & ? & _ & _ & ? & _)|by apply IH|].
  intros x y Hx (e' & He' & Hy)%elem_of_rows. rewrite Forall_forall in He, Hoks. specialize (He _ He').
  pose proof (table_bounds _ _ _ Hok Hx) as [_ Hle]. pose proof (table_bounds _ _ _ (Hoks _ He') Hy) as [Hge _].
  intros Hyx. apply He. cbn. etrans; [exact Hge|]. by etrans.
Qed.

(** *** Iterating over a version *)

#[local] Instance iters_iterable : Iterable (J + LevelIterator T J) := sum_iterable HJ (level_iterable table_iter options).
#[local] Instance iters_laws : IterableLaws c (J + LevelIterator T J) :=
  sum_laws c HJ (level_iterable table_iter options) LJ (level_laws table_iter options).

Lemma table_entry_holds R e : table_ok R e → entry_holds table_iter options e (rows_of R e).
Proof.
  intros (t & p & Ht & Hr & Hok & _ & Hl). destruct (last (rows_of R e)) as [[k w]|] eqn:E; [|done].
  injection Hl as Hl. apply last_Some in E as [l E]. exists t, l, k, w. split_and!; [done|by eapply table_iter_rep|done|done].
Qed.

Lemma table_iters_ok R es :
  Forall (table_ok R) es →
  ∃ its, table_iters (J := J) table_iter es = Done its ∧ Forall2 (λ j rows, it_rep c j rows rows) its (rows_of R <$> es).
Proof.
  induction 1 as [|e es He _ (its & IH & Hits)]; [by exists []|]. destruct He as (t & p & Ht & Hr & Hok & _).
  exists (inl (table_iter t) :: its). cbn. rewrite Ht, IH. split; [done|]. constructor; [|done]. by eapply table_iter_rep.
Qed.

Lemma level_iters_ok R v ns :
  (∀ n, n ∈ ns → ∃ l, levels v !! n = Some l ∧ n ≠ 0%nat ∧ Forall (table_ok R) (lv_tables l) ∧ disjoint_tables options (lv_tables l)) →
  ∃ its, level_iters (J := J) v ns = Done its ∧
    Forall2 (λ j rows, it_rep c j rows rows) its ((λ n, concat (rows_of R <$> from_option lv_tables [] (levels v !! n))) <$> ns).
Proof.
  induction ns as [|n ns IH]; intros Hns; [by exists []|].
  destruct IH as (its & IH & Hits); [intros m Hm; apply Hns; by right|].
  destruct (Hns n) as (l & Hl & Hn & Ht & Hd); [by left|]. cbn [level_iters LevelIterator_new].
  unfold LevelIterator_new. rewrite (proj2 (Nat.eqb_neq _ _)) by done. rewrite IH. eexists. split; [done|]. cbn [fmap list_fmap].
  constructor; [|done]. rewrite Hl. cbn [from_option]. exists l, (rows_of R <$> lv_tables l).
  split_and!; [done| |by apply disjoint_rows|done|done].
  cbn [li_version]. apply Forall2_fmap_r, Forall_Forall2_diag. eapply Forall_impl; [exact Ht|]. intros e. apply table_entry_holds.
Qed.

Lemma concat_levels R v :
  concat (rows_of R <$> from_option lv_tables [] (levels v !! 0%nat)) ++
    concat ((λ n, concat (rows_of R <$> from_option lv_tables [] (levels v !! n))) <$> seq 1 (length (levels v) - 1)) =
  contents R v.
Proof.
  unfold contents, entries_of. destruct v as [[|l ls]]; [done|]. cbn [levels length lookup list_lookup from_option].
  rewrite fmap_cons. cbn [concat]. rewrite fmap_app, concat_app. f_equal. rewrite Nat.sub_succ, Nat.sub_0_r.
  rewrite <- fmap_S_seq, <- list_fmap_compose. rewrite <- (take_ge ls (length ls)) at 2 by done.
  generalize (length ls) at 1 2. intros n.
  induction n as [|n IH]; [done|]. rewrite seq_S, fmap_app, concat_app. cbn [fmap list_fmap concat].
  rewrite IH. unfold compose. cbn [lookup list_lookup Nat.add]. destruct (ls !! n) as [l1|] eqn:E.
  - rewrite (take_S_r _ _ _ E), fmap_app, concat_app, fmap_app, concat_app. cbn. by rewrite !app_nil_r.
  - rewrite (take_ge ls (S n)), (take_ge ls n); [by rewrite !app_nil_r|by apply lookup_ge_None|apply lookup_ge_None in E; lia].
Qed.

Lemma elem_of_entries_of v e : e ∈ entries_of v ↔ ∃ n l, levels v !! n = Some l ∧ e ∈ lv_tables l.
Proof.
  unfold entries_of. rewrite list_elem_of_In, in_concat. split.
  - intros (ts & (l & -> & [n Hl]%list_elem_of_lookup)%list_elem_of_In%list_elem_of_fmap & He%list_elem_of_In). by exists n, l.
  - intros (n & l & Hl & He). exists (lv_tables l). split; [|by apply list_elem_of_In].
    apply list_elem_of_In, list_elem_of_fmap. exists l. split; [done|]. by eapply list_elem_of_lookup_2.
Qed.

Lemma level_tables_ok R next v n l : version_ok R next v → levels v !! n = Some l → Forall (table_ok R) (lv_tables l).
Proof.
  intros [Ht _] Hl. apply Forall_forall. intros e He. rewrite Forall_forall in Ht. apply Ht, elem_of_entries_of. by exists n, l.
Qed.

(** The iterators over a version hold the rows of its tables. *)
Lemma version_iters_ok R next v :
  version_ok R next v →
  ∃ its parts, version_iters (J := J) table_iter v = Done its ∧ Forall2 (λ j rows, it_rep c j rows rows) its parts ∧
    concat parts = contents R v.
Proof.
  intros Hv. unfold version_iters.
  destruct (table_iters_ok R (from_option lv_tables [] (levels v !! 0%nat))) as (its & -> & Hits).
  { destruct (levels v !! 0%nat) as [l|] eqn:E; [|constructor]. by eapply level_tables_ok. }
  destruct (level_iters_ok R v (seq 1 (length (levels v) - 1))) as (its' & -> & Hits').
  { intros n [H1 H2]%elem_of_seq. destruct (lookup_lt_is_Some_2 (levels v) n) as [l Hl]; [lia|]. exists l.
    split_and!; [done|lia|by eapply level_tables_ok|]. destruct n as [|n]; [lia|]. by eapply vo_disjoint. }
  eexists _, _. split; [done|]. split; [by apply Forall2_app|]. rewrite concat_app. apply concat_levels.
Qed.

(** *** Tables after an edit *)

(** Every table of a version after an insert or a removal was there before,
    or is the one that was inserted. *)
Lemma grow_members k : ∀ v v', grow_levels options k v = Done (tt, v') → entries_of v' = entries_of v.
Proof.
  induction k as [|k IH]; intros v v'; cbn [grow_levels]; [by intros [= <-]|]. unfold bind at 1, gets at 1, id at 1.
  unfold bind at 1. destruct (new_level options (length (levels v))) as [l|] eqn:El; [|done]. cbn [unwrap ret].
  unfold bind at 1, modify at 1. intros ->%IH. destruct (new_level_empty options _ _ El) as [Hnil _].
  unfold entries_of, push_level. cbn [levels]. rewrite fmap_app, concat_app. cbn. by rewrite Hnil, !app_nil_r.
Qed.

Lemma set_level_members v n l tables e :
  levels v !! n = Some l → e ∈ entries_of (set_level n (set_tables tables l) v) → e ∈ tables ∨ e ∈ entries_of v.
Proof.
  intros Hl (m & l' & Hm & He)%elem_of_entries_of. unfold set_level in Hm. cbn [levels] in Hm.
  apply list_lookup_insert_Some in Hm as [(-> & <- & _)|[_ Hm]]; [by left|right]. apply elem_of_entries_of. by exists m, l'.
Qed.

Lemma insert_members f t v v' e :
  Version_insert options f t v = Done (tt, v') → e ∈ entries_of v' → e = mkLevelTableEntry t f ∨ e ∈ entries_of v.
Proof.
  unfold Version_insert. unfold bind at 1, gets at 1, id at 1. unfold bind at 1.
  destruct (grow_levels _ _ v) as [[[] v1]| |] eqn:Hg; [|done..]. unfold bind at 1, gets at 1, id at 1. unfold bind at 1.
  destruct (levels v1 !! _) as [l|] eqn:El; [|done]. cbn [unwrap ret]. rewrite <- (grow_members _ _ _ Hg).
  assert (∀ e, e ∈ lv_tables l → e ∈ entries_of v1) as Hl by (intros x Hx; apply elem_of_entries_of; by eexists _, _).
  destruct (Nat.eqb_spec (Z.to_nat (nf_level f)) 0) as [E|E].
  - rewrite E in El. intros [= <-] [[He%Hl|He]%elem_of_app|He]%(set_level_members v1 0 l); [by right| |by right|done].
    left. by apply list_elem_of_singleton in He.
  - unfold bind at 1, lift_run. destruct (lower_bound_list _ _) as [idx| |]; [|done..].
    intros [= <-] [[->|?%Hl]%elem_of_vec_insert|?]%(set_level_members v1 _ l); auto.
Qed.

Lemma remove_members d v v' b e : Version_remove d v = Done (b, v') → e ∈ entries_of v' → e ∈ entries_of v.
Proof.
  unfold Version_remove. unfold bind at 1, gets at 1, id at 1. unfold bind at 1.
  destruct (levels v !! _) as [l|] eqn:El; [|done]. cbn [unwrap ret]. destruct (position _ _) as [i|]; [|by intros [= _ <-]].
  intros [= _ <-] [He|?]%(set_level_members v _ l); [|done|done]. apply elem_of_entries_of. eexists _, l. split; [done|].
  eapply elem_of_sublist; [done|apply vec_remove_sublist].
Qed.

Lemma removes_members ds : ∀ (s s' : VersionSet T) e,
  for_each ds (λ entry, let! removed := on_version (Version_remove entry) in assert removed) s = Done (tt, s') →
  e ∈ entries_of (vs_latest_version s') → e ∈ entries_of (vs_latest_version s).
Proof.
  induction ds as [|d ds IH]; intros s s' e; cbn [for_each]; [by intros [= <-]|]. unfold bind at 1. unfold bind at 1, on_version at 1.
  destruct (Version_remove d _) as [[[] v1]| |] eqn:Hr; [|done..]. cbn [assert ret]. intros Hrun He.
  eapply remove_members; [exact Hr|]. by apply (IH _ _ _ Hrun) in He.
Qed.

Lemma inserts_members fts : ∀ (s s' : VersionSet T) e,
  for_each fts (λ et, on_version (Version_insert options et.1 (Some et.2))) s = Done (tt, s') →
  e ∈ entries_of (vs_latest_version s') →
  (∃ f t, (f, t) ∈ fts ∧ e = mkLevelTableEntry (Some t) f) ∨ e ∈ entries_of (vs_latest_version s).
Proof.
  induction fts as [|[f t] fts IH]; intros s s' e; cbn [for_each]; [intros [= <-]; auto|]. unfold bind at 1, on_version at 1. cbn [fst snd].
  destruct (Version_insert _ f _ _) as [[[] v1]| |] eqn:Hr; [|done..]. intros Hrun He.
  destruct (IH _ _ _ Hrun He) as [(f' & t' & Hin & ->)|[->|He']%(insert_members _ _ _ _ _ Hr)].
  - left. exists f', t'. split; [by right|done].
  - left. exists f, t. split; [by left|done].
  - by right.
Qed.

Lemma apply_members ed ts (s s' : VersionSet T) e :
  apply_new_edit options ed ts s = Done (tt, s') → e ∈ entries_of (vs_latest_version s') →
  (∃ f t, (f, t) ∈ zip (ve_new_files ed) ts ∧ e = mkLevelTableEntry (Some t) f) ∨ e ∈ entries_of (vs_latest_version s).
Proof.
  unfold apply_new_edit. unfold bind at 1, gets at 1, id at 1. unfold assert at 1.
  destruct (_ <=? _); [|done]. unfold bind at 1, ret at 1. unfold assert at 1. destruct (_ <=? _); [|done].
  unfold bind at 1, ret at 1. unfold bind at 1, modify at 1. unfold bind at 1.
  destruct (for_each (ve_deleted_files ed) _ _) as [[[] s1]| |] eqn:Hr; [|done..]. intros Hrun He.
  destruct (inserts_members _ _ _ _ Hrun He) as [?|He']; [by left|right]. by apply (removes_members _ _ _ _ Hr) in He'.
Qed.

(** *** Files after an edit *)

Implicit Types (A : nat → list NewFileEntry) (f g : NewFileEntry).

(** The files of the first [n] levels. *)
Definition flat A (n : nat) : list NewFileEntry := concat (A <$> seq 0 n).

Lemma flat_S A n : flat A (S n) = flat A n ++ A n.
Proof. unfold flat. rewrite seq_S, fmap_app, concat_app. cbn. by rewrite app_nil_r. Qed.

Lemma elem_of_flat A n f : f ∈ flat A n ↔ ∃ m, (m < n)%nat ∧ f ∈ A m.
Proof.
  induction n as [|n IH]; [split; [by intros ?%elem_of_nil|intros (? & ? & _); lia]|]. rewrite flat_S, elem_of_app, IH. split.
  - intros [(m & Hm & Hf)|Hf]; [exists m; split; [lia|done]|exists n; split; [lia|done]].
  - intros (m & Hm & Hf). destruct (decide (m = n)) as [->|]; [by right|left; exists m; split; [lia|done]].
Qed.

Lemma flat_files v : lt_entry <$> entries_of v = flat (files v) (length (levels v)).
Proof.
  unfold flat, entries_of, files. destruct v as [ls]. cbn [levels]. rewrite <- (take_ge ls (length ls)) at 1 by done.
  generalize (length ls) at 1 2. intros n. induction n as [|n IH]; [done|].
  rewrite seq_S, fmap_app, concat_app, <- IH. cbn. rewrite app_nil_r. destruct (ls !! n) as [l|] eqn:E.
  - rewrite (take_S_r _ _ _ E), fmap_app, concat_app, fmap_app. cbn. by rewrite app_nil_r.
  - rewrite (take_ge ls (S n)), (take_ge ls n); [by rewrite app_nil_r|by apply lookup_ge_None|apply lookup_ge_None in E; lia].
Qed.

Lemma flat_more A n k : (∀ m, (n ≤ m)%nat → A m = []) → flat A (n + k) = flat A n.
Proof.
  intros H. induction k as [|k IH]; [by rewrite Nat.add_0_r|]. by rewrite Nat.add_succ_r, flat_S, IH, H, app_nil_r by lia.
Qed.

Lemma flat_insert f A n : (level_of f < n)%nat → flat (abs_insert options f A) n ≡ₚ f :: flat A n.
Proof.
  induction n as [|n IH]; [lia|]. intros Hl. rewrite !flat_S. unfold abs_insert at 2. destruct (decide (n = level_of f)) as [->|Hne].
  - rewrite insert_file_perm, <- Permutation_middle. constructor. apply reflexive_eq. f_equal. unfold flat. f_equal.
    apply list_fmap_ext. intros i m Hm%lookup_seq. unfold abs_insert. rewrite decide_False; [done|lia].
  - rewrite IH by lia. done.
Qed.

Lemma flat_inserts fs : ∀ A n,
  Forall (λ f, (level_of f < n)%nat) fs → flat (abs_inserts options fs A) n ≡ₚ fs ++ flat A n.
Proof.
  induction fs as [|f fs IH]; intros A n; [done|]. intros [Hf Hfs]%Forall_cons.
  change (abs_inserts options (f :: fs) A) with (abs_inserts options fs (abs_insert options f A)).
  rewrite IH, flat_insert by done. by rewrite <- Permutation_middle.
Qed.

Definition other_file (ds : list DeletedFileEntry) f : Prop := nf_number f ∉ df_number <$> ds.

Lemma remove_file_filter x (l : list NewFileEntry) :
  NoDup (nf_number <$> l) → remove_file x l = filter (λ f, nf_number f ≠ x) l.
Proof.
  unfold remove_file. induction l as [|f l IH]; [done|]. rewrite fmap_cons. intros [Hn Hnd]%NoDup_cons. rewrite filter_cons. cbn [list_find].
  destruct (decide (nf_number f = x)) as [<-|Hne].
  - rewrite decide_False by tauto. cbn. rewrite drop_0, filter_true; [done|]. apply Forall_forall. intros g Hg E. apply Hn.
    rewrite <- E. by apply list_elem_of_fmap_2.
  - rewrite decide_True by done. rewrite <- (IH Hnd). by destruct (list_find _ l) as [[i g]|].
Qed.

Lemma removes_filter ds : ∀ A n,
  unique A → (∀ d, d ∈ ds → ∃ f, f ∈ A (Z.to_nat (df_level d)) ∧ nf_number f = df_number d) → NoDup (df_number <$> ds) →
  abs_removes ds A n = filter (other_file ds) (A n).
Proof.
  induction ds as [|d ds IH]; intros A n HA Hds Hnd.
  { cbn. rewrite filter_true; [done|]. apply Forall_forall. intros f _. unfold other_file. apply not_elem_of_nil. }
  cbn in Hnd. apply NoDup_cons in Hnd as [Hd Hnd]. change (abs_removes (d :: ds) A) with (abs_removes ds (abs_remove d A)).
  assert (∀ m, abs_remove d A m = filter (λ f, nf_number f ≠ df_number d) (A m)) as Hrem.
  { intros m. unfold abs_remove. destruct (decide _) as [->|Hne]; [apply remove_file_filter, HA|].
    rewrite filter_true; [done|]. apply Forall_forall. intros f Hf E. destruct (Hds d ltac:(by left)) as (g & Hg & Eg).
    apply Hne. eapply (proj2 HA); [exact Hf|exact Hg|congruence]. }
  rewrite IH; [|by apply (unique_removes [d])| |done].
  - rewrite Hrem, list_filter_filter. apply list_filter_iff. intros f. unfold other_file. cbn. rewrite not_elem_of_cons. tauto.
  - intros d' Hd'. destruct (Hds d' ltac:(by right)) as (f & Hf & E). exists f. split; [|done]. rewrite Hrem.
    apply list_elem_of_filter. split; [|done]. rewrite E. intros E'. apply Hd. rewrite <- E'. by apply list_elem_of_fmap_2.
Qed.

Definition file_rows R f : list KeyValueEntry := R (nf_number f).

(** The files of a version that an edit does not remove. *)
Definition kept_files (ds : list DeletedFileEntry) v : list NewFileEntry := filter (other_file ds) (lt_entry <$> entries_of v).

Lemma contents_files R v : contents R v = concat (file_rows R <$> (lt_entry <$> entries_of v)).
Proof. unfold contents. by rewrite <- list_fmap_compose. Qed.

Lemma flat_filter (P : NewFileEntry → Prop) `{!∀ f, Decision (P f)} A n : flat (λ m, filter P (A m)) n = filter P (flat A n).
Proof. induction n as [|n IH]; [done|]. by rewrite !flat_S, filter_app, IH. Qed.

Lemma flat_ext A A' n : (∀ m, A m = A' m) → flat A n = flat A' n.
Proof. intros H. unfold flat. f_equal. apply list_fmap_ext. auto. Qed.

Lemma files_beyond v n : (length (levels v) ≤ n)%nat → files v n = [].
Proof. intros H. unfold files. by rewrite lookup_ge_None_2. Qed.

(** The files after an edit. *)
Lemma edit_entries (s : VersionSet T) ed v' :
  state_ok options s → edit_valid options s ed → holds options v' (abs_edit options ed (files (vs_latest_version s))) →
  lt_entry <$> entries_of v' ≡ₚ ve_new_files ed ++ kept_files (ve_deleted_files ed) (vs_latest_version s).
Proof.
  intros Hs He Hv'. set (v := vs_latest_version s). unfold kept_files. rewrite !flat_files.
  set (N := (length (levels v') + length (levels v))%nat).
  rewrite <- (flat_more (files v') _ (length (levels v))) by (intros; by apply files_beyond). fold N.
  rewrite <- (flat_more (files v) _ (length (levels v'))) by (intros; by apply files_beyond).
  rewrite (Nat.add_comm (length (levels v))). fold N.
  rewrite (flat_ext _ _ N (ho_files _ _ _ Hv')). unfold abs_edit. rewrite flat_inserts.
  - rewrite <- flat_filter. f_equiv. apply reflexive_eq, flat_ext. intros m. apply removes_filter; [apply Hs| |apply He].
    intros d Hd. by apply (va_removes _ _ _ _ He).
  - apply Forall_forall. intros f Hf. destruct (decide (level_of f < length (levels v'))%nat) as [|Hge]; [lia|].
    assert (f ∈ files v' (level_of f)) as Hin.
    { rewrite (ho_files _ _ _ Hv'). unfold abs_edit. apply elem_of_abs_inserts. by left. }
    rewrite files_beyond in Hin by lia. by apply elem_of_nil in Hin.
Qed.

(** Files whose ranges are one after the other. *)
Definition disjoint_files (fs : list NewFileEntry) : Prop :=
  StronglySorted (λ f g, ¬ kc_le (nf_smallest_key g) (nf_largest_key f)) fs.

Lemma disjoint_entries (es : list (LevelTableEntry T)) : disjoint_tables options es ↔ disjoint_files (lt_entry <$> es).
Proof.
  unfold disjoint_tables, disjoint_files. split.
  - induction 1 as [|e es _ IH He]; cbn; constructor; [done|]. by apply Forall_fmap.
  - induction es as [|e es IH]; cbn; [constructor|]. intros [H1 H2]%StronglySorted_inv. constructor; [auto|].
    rewrite Forall_fmap in H2. exact H2.
Qed.

(** The tables after an edit: their files, those that were there and the new
    ones. *)
Lemma edit_version_ok R R' (s : VersionSet T) ed ts v' :
  state_ok options s → edit_valid options s ed → length ts = length (ve_new_files ed) →
  version_ok R (vs_next_file_number s) (vs_latest_version s) → (∀ m, m < vs_next_file_number s → R' m = R m) →
  Forall2 (λ f t, table_ok R' (mkLevelTableEntry (Some t) f)) (ve_new_files ed) ts →
  (∀ n, disjoint_files (abs_edit options ed (files (vs_latest_version s)) (S n))) →
  apply_new_edit options ed ts s = Done (tt, edited ed s v') →
  holds options v' (abs_edit options ed (files (vs_latest_version s))) →
  version_ok R' (next_of ed s) v' ∧
  contents R' v' ≡ₚ concat (file_rows R' <$> ve_new_files ed) ++
    concat (file_rows R <$> kept_files (ve_deleted_files ed) (vs_latest_version s)).
Proof.
  intros Hs He Hlen Hv HR Hnew Hdis Hrun Hv'. pose proof (va_next _ _ _ _ He) as Hnext. pose proof (vo_tables _ _ _ Hv) as Ht.
  rewrite Forall_forall in Ht. split; [split|].
  - apply Forall_forall. intros e Hin.
    destruct (apply_members ed ts s (edited ed s v') e Hrun Hin) as [(f & t & [i Hi]%list_elem_of_lookup & ->)|Hold].
    + apply lookup_zip_with_Some in Hi as (f' & t' & [= <- <-] & Hf & Ht'). split.
      * by apply (Forall2_lookup_lr _ _ _ _ _ _ Hnew Hf Ht').
      * cbn. pose proof (va_files _ _ _ _ He) as Hfs. rewrite Forall_forall in Hfs.
        destruct (Hfs f) as [_ ?]; [by eapply list_elem_of_lookup_2|lia].
    + destruct (Ht e Hold) as [(t & p & H) Hn]. split; [|lia]. exists t, p. unfold rows_of in *. by rewrite (HR _ Hn).
  - intros n l Hl. apply disjoint_entries. specialize (Hdis n). rewrite <- (ho_files _ _ _ Hv') in Hdis. unfold files in Hdis.
    by rewrite Hl in Hdis.
  - rewrite contents_files, (edit_entries s ed v' Hs He Hv'), fmap_app, concat_app. f_equiv. apply reflexive_eq. f_equal.
    apply list_fmap_ext. intros i f Hf%list_elem_of_lookup_2. unfold file_rows. apply HR.
    apply list_elem_of_filter in Hf as [_ (e & -> & Hin)%list_elem_of_fmap]. by destruct (Ht e Hin).
Qed.

(** *** Levels without overlaps *)

Definition file_range f : KeyRangeRef := mkKeyRangeRef (nf_smallest_key f) (nf_largest_key f).
Definition ordered_file f : Prop := kc_le (nf_smallest_key f) (nf_largest_key f).
Abbreviation apart f g := (¬ overlap options (file_range f) (file_range g)).

Lemma insert_disjoint n f (l : list NewFileEntry) :
  StronglySorted (file_lt options) l → disjoint_files l → Forall ordered_file l → ordered_file f → Forall (λ g, apart f g) l →
  disjoint_files (insert_file options (S n) f l).
Proof.
  intros Hs Hd Hl Hf Hap. cbn [insert_file]. unfold vec_insert, disjoint_files.
  rewrite Forall_forall in Hl, Hap. unfold overlap in Hap. cbn in Hap. unfold ordered_file in *.
  set (k := length _). apply sorted_insert; [by rewrite take_drop| |]; apply Forall_lookup; intros i g Hi.
  - apply lookup_take_Some in Hi as [Hi Hk]. apply (sorted_prefix (file_lt options) l f i g Hs Hi) in Hk as Hlt.
    pose proof (list_elem_of_lookup_2 _ _ _ Hi) as Hg. intros Hle. apply (Hap g Hg). split; [done|]. etrans; [|exact Hf].
    destruct Hlt as [Hlt|[? _]]; [|done]. by destruct (kc_le_total (nf_smallest_key g) (nf_smallest_key f)).
  - rewrite lookup_drop in Hi. pose proof (list_elem_of_lookup_2 _ _ _ Hi) as Hg. intros Hle. apply (Hap g Hg). split; [|done].
    assert (¬ file_lt options g f) as Hnlt by (intros Hlt%(sorted_prefix (file_lt options) l f _ g Hs Hi); lia).
    transitivity (nf_smallest_key g); [|by apply Hl]. apply dec_stable. intros Hn. apply Hnlt. by left.
Qed.

Lemma inserts_disjoint fs : ∀ A,
  insertable (T := T) options fs A → (∀ n, StronglySorted (level_lt options n) (A n)) → (∀ n, Forall ordered_file (A n)) →
  Forall ordered_file fs → disjoint_files fs →
  (∀ f g, f ∈ fs → level_of f ≠ 0%nat → g ∈ A (level_of f) → apart f g) →
  (∀ n, disjoint_files (A (S n))) → ∀ n, disjoint_files (abs_inserts options fs A (S n)).
Proof.
  induction fs as [|f fs IH]; intros A Hins Hs Ho Hof Hd Hap HA n; [done|]. destruct Hins as [(H1 & H2 & H3 & H4 & H5) Hins].
  apply Forall_cons in Hof as [Hf Hof]. apply StronglySorted_inv in Hd as [Hd Hfd].
  change (abs_inserts options (f :: fs) A) with (abs_inserts options fs (abs_insert options f A)).
  apply IH; [done| | |done|done| |].
  - intros m. unfold abs_insert. destruct (decide (m = level_of f)) as [->|]; [|done]. apply vec_insert_sorted; [done|done|].
    intros E. rewrite E. auto.
  - intros m. unfold abs_insert. destruct (decide (m = level_of f)) as [->|]; [|done]. rewrite insert_file_perm. by constructor.
  - intros h g Hh Hlh [[-> _]|Hg]%elem_of_abs_insert; [|apply Hap; [by right|done|done]].
    rewrite Forall_forall in Hfd. specialize (Hfd h Hh). unfold overlap. cbn. tauto.
  - intros m. unfold abs_insert. destruct (decide (S m = level_of f)) as [E|]; [|done]. apply insert_disjoint; [|done|done|done|].
    + apply (Hs (S m)).
    + apply Forall_forall. intros g Hg. apply Hap; [by left|lia|by rewrite <- E].
Qed.

Lemma version_files_ordered R next v n : version_ok R next v → Forall ordered_file (files v n).
Proof.
  intros Hv. unfold files. destruct (levels v !! n) as [l|] eqn:El; [|constructor]. cbn. apply Forall_fmap.
  eapply Forall_impl; [by eapply level_tables_ok|]. intros e He. by destruct (table_range _ _ He) as (_ & _ & ?).
Qed.

Lemma version_files_disjoint R next v n : version_ok R next v → disjoint_files (files v (S n)).
Proof.
  intros Hv. unfold files. destruct (levels v !! S n) as [l|] eqn:El; [|constructor]. cbn. apply disjoint_entries.
  by eapply vo_disjoint.
Qed.

(** New files that are apart from those that stay in their level. *)
Lemma edit_disjoint R (s : VersionSet T) ed :
  state_ok options s → edit_valid options s ed → version_ok R (vs_next_file_number s) (vs_latest_version s) →
  Forall ordered_file (ve_new_files ed) → disjoint_files (ve_new_files ed) →
  (∀ f g, f ∈ ve_new_files ed → level_of f ≠ 0%nat → g ∈ files (vs_latest_version s) (level_of f) →
    other_file (ve_deleted_files ed) g → apart f g) →
  ∀ n, disjoint_files (abs_edit options ed (files (vs_latest_version s)) (S n)).
Proof.
  intros Hs He Hv Hof Hd Hap. set (A := files (vs_latest_version s)) in *.
  assert (∀ n, abs_removes (ve_deleted_files ed) A n = filter (other_file (ve_deleted_files ed)) (A n)) as Hrem.
  { intros n. apply removes_filter; [apply Hs| |apply He]. intros d Hd'. by apply (va_removes _ _ _ _ He). }
  apply inserts_disjoint; [by apply (edit_insertable options s)| | |done|done| |].
  - intros n. pose proof (ho_sorted _ _ _ (so_holds _ _ _ Hs) n) as Hsn. rewrite Hrem. by apply sorted_filter.
  - intros n. rewrite Hrem. apply Forall_forall. intros g [_ Hg]%list_elem_of_filter.
    pose proof (version_files_ordered _ _ _ n Hv) as Ho. rewrite Forall_forall in Ho. auto.
  - intros f g Hf Hl Hg. rewrite Hrem in Hg. apply list_elem_of_filter in Hg as [? ?]. auto.
  - intros n. rewrite Hrem. by eapply sorted_filter, version_files_disjoint.
Qed.
End Rows.
