(* ===== verification/Database.v ===== *)
(** * The database

    [EmbeddedDB] of src/pkg/sstable/src/db/db.rs: writing batches, taking
    snapshots and reading them, and the rounds of the compaction thread, on an
    explicit state of the memory and of the files. A round of the compaction
    thread is a selection, which reads the state and writes files, and a
    commit, which changes the state under its lock; writes and reads of other
    tasks can come between the two. *)

From Stdlib Require Import SpecFloat.
From S2P Require Import Prelude Wire Encoding Comparator DataBlock SkipList RecordLog WriteBatch MergeIterator Snapshot.
From S2P Require Import Filter Table VersionEdit Version LevelIterator Compaction.

(** ** Floating point *)

(** Numbers of 32 bits: [as f32], [/] and [f32::max] *)
Abbreviation f32_prec := 24.
Abbreviation f32_emax := 128.

Definition f32_of (n : Z) : spec_float := binary_normalize f32_prec f32_emax n 0 false.
Definition f32_div (a b : spec_float) : spec_float := SFdiv f32_prec f32_emax a b.
Definition f32_max (a b : spec_float) : spec_float :=
  match a, b with
  | S754_nan, _ => b
  | _, S754_nan => a
  | _, _ => if SFltb a b then b else a
  end.

(** ** Options *)

(** The options that the database itself uses. *)
Record DatabaseOptions := mkDatabaseOptions {
  eo_read_only : bool;
  eo_write_buffer_size : Z;
  eo_max_manifest_file_size : Z;
  eo_disable_wal : bool;
  eo_enable_compaction_waterline : bool;
  eo_stale_compaction_threshold : spec_float;
  eo_version : EmbeddedDBOptions;
}.

(** [wrap_with_internal_keys]: the comparator of the user keys is wrapped. *)
Definition wrap_database_options (o : DatabaseOptions) : DatabaseOptions :=
  let v := eo_version o in
  mkDatabaseOptions (eo_read_only o) (eo_write_buffer_size o) (eo_max_manifest_file_size o) (eo_disable_wal o)
    (eo_enable_compaction_waterline o) (eo_stale_compaction_threshold o)
    (mkEmbeddedDBOptions (do_max_memtable_level v) (do_level0_file_num_compaction_trigger v)
      (do_target_file_size_base v) (do_target_file_size_multiplier v) (do_max_bytes_for_level_base v)
      (do_max_bytes_for_level_multiplier v) (InternalKeyComparator (do_comparator v)) (do_comparator_name v)).

Section Database.
(** [B] and [T] are the builder and the reader of tables, [J] the iterators
    over a table; [rngs n] are the numbers that the generator of the [n]th
    memtable returns. *)
Context {B T J : Type} {HT : TableStore B T} (table_iter : T → J) {HJ : Iterable J}.
Context (table_properties : T → TableProperties).
Context (options : DatabaseOptions) (rngs : nat → nat → Z).
Abbreviation vo := (eo_version options).
Abbreviation comparator := (do_comparator vo).

(** ** Tables with stale entries *)

(** Whether a table of level 1 or a later one is compacted in place. *)
Definition stale_table (compaction_waterline : Z) (entry : LevelTableEntry T) : option bool :=
  table ← lt_table entry;
  let props := table_properties table in
  let has field := bool_decide (is_Some (props !! field)) in
  if negb (has RAW_VALUE_SIZE && has NUM_ENTRIES && has NUM_STALE_ENTRIES && has STALE_VALUE_SIZE &&
           has STALE_CLEAR_WATERLINE) then None
  else if compaction_waterline <? prop_u64 STALE_CLEAR_WATERLINE props then Some false
  else
    let stale_fraction :=
      f32_div (f32_of (prop_u64 NUM_STALE_ENTRIES props))
        (f32_max (f32_of (prop_u64 NUM_ENTRIES props))
          (f32_div (f32_of (prop_u64 STALE_VALUE_SIZE props)) (f32_of (prop_u64 RAW_VALUE_SIZE props)))) in
    Some (negb (SFltb stale_fraction (eo_stale_compaction_threshold options))).

(** [found_tables]: the tables that are compacted, with their levels. *)
Fixpoint stale_tables (compaction_waterline : Z) (level : nat) (entries : list (LevelTableEntry T))
    : option (list (LevelTableEntry T * nat)) :=
  match entries with
  | [] => Some []
  | entry :: entries =>
    stale ← stale_table compaction_waterline entry;
    rest ← stale_tables compaction_waterline level entries;
    Some (if stale : bool then (entry, level) :: rest else rest)
  end.

Fixpoint stale_levels (compaction_waterline : Z) (level : nat) (ls : list (Level T))
    : option (list (LevelTableEntry T * nat)) :=
  match ls with
  | [] => Some []
  | l :: ls =>
    tables ← stale_tables compaction_waterline level (lv_tables l);
    rest ← stale_levels compaction_waterline (S level) ls;
    Some (tables ++ rest)
  end.

Definition select_stale_table_to_compact (compaction_waterline : Z) (s : VersionSet T) : run (option (CompactionSpec T)) :=
  match stale_levels compaction_waterline 1 (drop 1 (levels (vs_latest_version s))) with
  | None => Panicked
  | Some found_tables =>
    match last found_tables with
    | None => Done None
    | Some (table, level) =>
      match find_overlapping_tables vo s (S level) (key_range table) with
      | None => Panicked
      | Some found_overlap => Done (Some (mkCompactionSpec level [table] level [] found_overlap))
      end
    end
  end.

(** ** State *)

(** An [Arc] of a memtable is its place in [db_memtables]. *)
Record ImmutableTable := mkImmutableTable { im_table : nat; im_last_sequence : Z }.

(** A log file is its number with its writer. *)
Record EmbeddedDBState := mkEmbeddedDBState {
  es_log : option (Z * RecordWriter);
  es_log_last_sequence : Z;
  es_mutable_table : nat;
  es_immutable_table : option ImmutableTable;
  es_version_set : VersionSet T;
}.

(** The contents of the files by their numbers, and CURRENT. *)
Record Directory := mkDirectory {
  dir_tables : gmap Z bytes;
  dir_logs : gmap Z bytes;
  dir_manifests : gmap Z bytes;
  dir_current : option Z;
}.

(** The database, all memtables that were made and the manifest of the
    compaction thread. *)
Record EmbeddedDB := mkEmbeddedDB {
  db_state : EmbeddedDBState;
  db_next_compaction_waterline : Z;
  db_memtables : list MemTable;
  db_manifest : Z * RecordWriter;
  db_dir : Directory;
}.

Definition es_set_log (log : option (Z * RecordWriter)) (s : EmbeddedDBState) : EmbeddedDBState :=
  mkEmbeddedDBState log (es_log_last_sequence s) (es_mutable_table s) (es_immutable_table s) (es_version_set s).
Definition es_set_sequence (sequence : Z) (s : EmbeddedDBState) : EmbeddedDBState :=
  mkEmbeddedDBState (es_log s) sequence (es_mutable_table s) (es_immutable_table s) (es_version_set s).
Definition es_set_mutable (table : nat) (s : EmbeddedDBState) : EmbeddedDBState :=
  mkEmbeddedDBState (es_log s) (es_log_last_sequence s) table (es_immutable_table s) (es_version_set s).
Definition es_set_immutable (table : option ImmutableTable) (s : EmbeddedDBState) : EmbeddedDBState :=
  mkEmbeddedDBState (es_log s) (es_log_last_sequence s) (es_mutable_table s) table (es_version_set s).
Definition es_set_version_set (v : VersionSet T) (s : EmbeddedDBState) : EmbeddedDBState :=
  mkEmbeddedDBState (es_log s) (es_log_last_sequence s) (es_mutable_table s) (es_immutable_table s) v.

Definition set_dir_tables (f : gmap Z bytes → gmap Z bytes) (d : Directory) : Directory :=
  mkDirectory (f (dir_tables d)) (dir_logs d) (dir_manifests d) (dir_current d).
Definition set_dir_logs (f : gmap Z bytes → gmap Z bytes) (d : Directory) : Directory :=
  mkDirectory (dir_tables d) (f (dir_logs d)) (dir_manifests d) (dir_current d).
Definition set_dir_manifests (f : gmap Z bytes → gmap Z bytes) (d : Directory) : Directory :=
  mkDirectory (dir_tables d) (dir_logs d) (f (dir_manifests d)) (dir_current d).
Definition set_current (number : Z) (d : Directory) : Directory :=
  mkDirectory (dir_tables d) (dir_logs d) (dir_manifests d) (Some number).

Abbreviation DB := (M EmbeddedDB).

Definition on_state (f : EmbeddedDBState → EmbeddedDBState) : DB unit :=
  modify (λ s, mkEmbeddedDB (f (db_state s)) (db_next_compaction_waterline s) (db_memtables s) (db_manifest s) (db_dir s)).
Definition on_dir (f : Directory → Directory) : DB unit :=
  modify (λ s, mkEmbeddedDB (db_state s) (db_next_compaction_waterline s) (db_memtables s) (db_manifest s) (f (db_dir s))).
Definition set_memtables (tables : list MemTable) : DB unit :=
  modify (λ s, mkEmbeddedDB (db_state s) (db_next_compaction_waterline s) tables (db_manifest s) (db_dir s)).
Definition set_manifest (manifest : Z * RecordWriter) : DB unit :=
  modify (λ s, mkEmbeddedDB (db_state s) (db_next_compaction_waterline s) (db_memtables s) manifest (db_dir s)).
Definition set_next_waterline (value : Z) : DB unit :=
  modify (λ s, mkEmbeddedDB (db_state s) value (db_memtables s) (db_manifest s) (db_dir s)).

(** [Arc::new(MemTable::new(..))] *)
Definition new_memtable : DB nat :=
  let! s := gets id in
  let n := length (db_memtables s) in
  set_memtables (db_memtables s ++ [MemTable_new (rngs n)]) ;!
  ret n.

(** Run an operation of a memtable. *)
Definition on_memtable {A} (n : nat) (m : M MemTable A) : DB A :=
  let! s := gets id in
  let! t := unwrap (db_memtables s !! n) in
  let! (a, t) := call m t in
  set_memtables (<[n := t]> (db_memtables s)) ;!
  ret a.

Definition memtable (n : nat) : DB MemTable :=
  let! s := gets id in
  unwrap (db_memtables s !! n).

(** Run an operation of the version set. *)
Definition on_version_set {A} (m : M (VersionSet T) A) : DB A :=
  let! s := gets id in
  let! (a, v) := call m (es_version_set (db_state s)) in
  on_state (es_set_version_set v) ;!
  ret a.

(** ** Writing *)

(** A task that returns an error after [enter()] does not get to [exit()]:
    the permit of the lock is dropped, and its [Drop] panics
    (src/pkg/executor/src/sync/rwlock.rs). *)
Definition entered {A} (m : DB (Result A)) : DB (Result A) := λ s,
  match m s with
  | Done (inl _, _) => Panicked
  | r => r
  end.

(** The batch with the sequence it is written with. *)
Definition assign_sequence (batch : bytes) : DB (Result bytes) :=
  let! s := gets id in
  let last := es_log_last_sequence (db_state s) in
  let! (sequence, _) := call WriteBatch_sequence batch in
  if negb (sequence =? 0) then
    if sequence <=? last then ret (inl ENonMonotonicSequence) else ret (inr batch)
  else
    let! next := u64_add last 1 in
    let! (_, batch) := call (set_sequence next) batch in
    ret (inr batch).

(** [append] and [flush] of the log, if there is one. *)
Definition append_log (data : bytes) : DB unit :=
  let! s := gets id in
  match es_log (db_state s) with
  | None => ret tt
  | Some (number, log) =>
    let! (_, log) := call (append data) log in
    on_state (es_set_log (Some (number, log))) ;!
    on_dir (set_dir_logs <[number := rw_file log]>)
  end.

Definition write (batch : bytes) : DB (Result unit) :=
  if eo_read_only options then ret (inl EReadOnly) else
  let! (count, _) := call WriteBatch_count batch in
  if count =? 0 then ret (inl EEmptyBatch) else
  entered (
    try! batch := assign_sequence batch in
    let! (sequence, _) := call WriteBatch_sequence batch in
    on_state (es_set_sequence sequence) ;!
    append_log batch ;!
    let! s := gets id in
    try! _ := on_memtable (es_mutable_table (db_state s)) (apply_record comparator batch) in
    ret (inr tt)).

(** [set] and [delete] *)
Definition db_set (key value : bytes) : DB (Result unit) :=
  let! (_, batch) := call (WriteBatch_put key value) WriteBatch_new in
  write batch.
Definition db_delete (key : bytes) : DB (Result unit) :=
  let! (_, batch) := call (WriteBatch_delete key) WriteBatch_new in
  write batch.

(** ** Reading *)

(** A snapshot shares its memtables with the database. *)
Record DBSnapshot := mkDBSnapshot {
  ds_last_sequence : Z;
  ds_compaction_waterline : option Z;
  ds_memtables : list nat;
  ds_version : Version T;
}.

Definition snapshot : DB DBSnapshot :=
  let! s := gets id in
  let st := db_state s in
  ret (mkDBSnapshot (es_log_last_sequence st) (vs_compaction_waterline (es_version_set st))
    (es_mutable_table st :: from_option (λ m, [im_table m]) [] (es_immutable_table st))
    (vs_latest_version (es_version_set st))).

(** The snapshot with the memtables as they are now and the iterators over
    its version. *)
Abbreviation Iters := (J + LevelIterator T J)%type.
#[local] Instance iters_iterable : Iterable Iters := sum_iterable HJ (level_iterable table_iter vo).

Definition snapshot_now (d : DBSnapshot) : DB (Snapshot Iters) :=
  let! s := gets id in
  let! memtables := unwrap (mapM (λ n, db_memtables s !! n) (ds_memtables d)) in
  let! tables := lift_run (version_iters table_iter (ds_version d)) in
  ret (mkSnapshot (ds_last_sequence d) (ds_compaction_waterline d) memtables tables).

(** [Snapshot::get]; at most [fuel] entries are read. *)
Definition get_at (fuel : nat) (d : DBSnapshot) (key : bytes) : DB (Result (option bytes)) :=
  let! view := snapshot_now d in
  let! (res, _) := call (snapshot_get iters_iterable comparator fuel key) view in
  ret res.

Definition get (fuel : nat) (key : bytes) : DB (Result (option bytes)) :=
  let! d := snapshot in
  get_at fuel d key.

(** The second round of the loop finds the value it stored. *)
Definition update_compaction_waterline (value : Z) : DB (Result unit) :=
  if negb (eo_enable_compaction_waterline options) then ret (inl EWaterlineDisabled) else
  let! s := gets id in
  if value <=? db_next_compaction_waterline s then ret (inr tt)
  else set_next_waterline value ;! ret (inr tt).

(** ** The compaction thread *)

(** What a round does under the lock of the state. *)
Inductive Job :=
| ApplyEdit (edit : VersionEdit)
| SwapMemtable (edit : VersionEdit) (log : option (Z * RecordWriter))
| FlushMemtable (edit : VersionEdit) (tables : list T)
| CompactTables (edit : VersionEdit) (tables : list T)
| SwitchManifest.

(** [serialize], [append] and [flush]: a record of the manifest *)
Definition write_edit (edit : VersionEdit) : DB (Result unit) :=
  try! out := ret (VersionEdit_serialize edit) in
  let! s := gets id in
  let (number, manifest) := db_manifest s in
  let! (_, manifest) := call (append out) manifest in
  set_manifest (number, manifest) ;!
  on_dir (set_dir_manifests <[number := rw_file manifest]>) ;!
  ret (inr tt).

(** [RecordWriter::create_new] of a log and of a manifest *)
Definition create_log (number : Z) : DB (Result RecordWriter) :=
  let! s := gets id in
  if bool_decide (is_Some (dir_logs (db_dir s) !! number)) then ret (inl EFileExists) else
  on_dir (set_dir_logs <[number := []]>) ;!
  ret (inr RecordWriter_new).
Definition create_manifest (number : Z) : DB (Result RecordWriter) :=
  let! s := gets id in
  if bool_decide (is_Some (dir_manifests (db_dir s) !! number)) then ret (inl EFileExists) else
  on_dir (set_dir_manifests <[number := []]>) ;!
  ret (inr RecordWriter_new).

(** [file::remove_file] of a log and of a manifest *)
Definition remove_log (number : Z) : DB (Result unit) :=
  let! s := gets id in
  if bool_decide (is_Some (dir_logs (db_dir s) !! number)) then on_dir (set_dir_logs (delete number)) ;! ret (inr tt)
  else ret (inl ENoFile).
Definition remove_manifest (number : Z) : DB (Result unit) :=
  let! s := gets id in
  if bool_decide (is_Some (dir_manifests (db_dir s) !! number))
  then on_dir (set_dir_manifests (delete number)) ;! ret (inr tt)
  else ret (inl ENoFile).

(** A new value of the waterline: the waterline of the round, or the job that
    stores it. *)
Definition select_waterline : DB (Result (option Z + Job)) :=
  if negb (eo_enable_compaction_waterline options) then ret (inr (inl None)) else
  let! s := gets id in
  let next := db_next_compaction_waterline s in
  let! last := unwrap (vs_compaction_waterline (es_version_set (db_state s))) in
  if last <? next then
    let edit := set_waterline next VersionEdit_default in
    try! _ := write_edit edit in
    ret (inr (inr (ApplyEdit edit)))
  else ret (inr (inl (Some next))).

(** The mutable memtable is full: a new log is started. *)
Definition select_swap : DB (Result Job) :=
  if eo_disable_wal options then ret (inr (SwapMemtable VersionEdit_default None)) else
  let! s := gets id in
  let vs := es_version_set (db_state s) in
  let number := vs_next_file_number vs in
  let! next := u64_add number 1 in
  let edit := set_log_number number (set_prev_log_number (vs_log_number vs)
    (set_next_file_number next VersionEdit_default)) in
  try! log := create_log number in
  try! _ := write_edit edit in
  ret (inr (SwapMemtable edit (Some (number, log)))).

(** The tables of an iterator are built, with the files of the directory. *)
Definition build_tables {I} (HI : Iterable I) (fuel : nat) (iterator : I) (remove_deleted : bool) (edit : VersionEdit)
    (target_file_size level : Z) (compaction_waterline : option Z) : DB (Result (list T * VersionEdit)) :=
  let! s := gets id in
  let! (tables, bt) := call (build_tables_from_iterator fuel remove_deleted target_file_size level compaction_waterline)
    (bt_start iterator edit (dir_tables (db_dir s))) in
  on_dir (set_dir_tables (λ _, bt_files bt)) ;!
  try! tables := ret tables in
  ret (inr (tables, bt_version_edit bt)).

(** The immutable memtable is written to tables. *)
Definition select_flush (fuel : nat) (compaction_waterline : option Z) (m : ImmutableTable) : DB (Result Job) :=
  let! table := memtable (im_table m) in
  let! (range, _) := call SkipList.key_range (mt_table table) in
  match range with
  | None => ret (inl EEmptyMemtable)
  | Some (smallest, largest) =>
    let! s := gets id in
    let vs := es_version_set (db_state s) in
    let! selected_level := unwrap (pick_memtable_level vo vs (mkKeyRangeRef smallest largest)) in
    let old_log_number := vs_prev_log_number vs in
    let edit := set_next_file_number (vs_next_file_number vs) (set_last_sequence (im_last_sequence m) VersionEdit_default) in
    let edit := match old_log_number with Some _ => set_prev_log_number (Some 0) edit | None => edit end in
    let! target := unwrap (target_file_size vo (sm_level selected_level)) in
    let! iterator := MemTable_iter table in
    try! (tables, edit) := build_tables (mem_iterable comparator) fuel iterator (negb (sm_found_overlap selected_level))
      edit target (Z.of_nat (sm_level selected_level)) compaction_waterline in
    try! _ := write_edit edit in
    try! _ := match old_log_number with Some number => remove_log number | None => ret (inr tt) end in
    ret (inr (FlushMemtable edit tables))
  end.

(** The iterators over the tables of a compaction. *)
Fixpoint entry_iters (entries : list (LevelTableEntry T)) : option (list J) :=
  match entries with
  | [] => Some []
  | entry :: entries =>
    table ← lt_table entry;
    iters ← entry_iters entries;
    Some (table_iter table :: iters)
  end.

Definition deleted_file (entry : LevelTableEntry T) : DeletedFileEntry :=
  mkDeletedFileEntry (nf_level (lt_entry entry)) (nf_number (lt_entry entry)).

(** A compaction; its tables go to level 1, whatever the next level is. *)
Definition select_compact (fuel : nat) (compaction_waterline : option Z) (compaction : CompactionSpec T) : DB (Result Job) :=
  let! s := gets id in
  let entries := cp_tables compaction ++ cp_next_level_tables compaction in
  let edit := fold_left (λ edit entry, push_deleted_file (deleted_file entry) edit) entries
    (set_next_file_number (vs_next_file_number (es_version_set (db_state s))) VersionEdit_default) in
  let! iters := unwrap (entry_iters entries) in
  let! target := unwrap (target_file_size vo (cp_next_level compaction)) in
  try! (tables, edit) := build_tables (merge_iterable comparator) fuel (MergeIterator_new iters)
    (negb (cp_found_overlap compaction)) edit target 1 compaction_waterline in
  try! _ := write_edit edit in
  ret (inr (CompactTables edit tables)).

(** [compaction_spec] *)
Definition select_spec (rng : Z) (compaction_waterline : option Z) : DB (option (CompactionSpec T)) :=
  let! s := gets id in
  let vs := es_version_set (db_state s) in
  let! spec := lift_run (select_tables_to_compaction vo rng vs) in
  match spec with
  | Some _ => ret spec
  | None =>
    if eo_enable_compaction_waterline options then
      let! waterline := unwrap compaction_waterline in
      lift_run (select_stale_table_to_compact waterline vs)
    else ret None
  end.

(** A round up to the lock: the first kind of work there is. *)
Definition select_job (fuel : nat) (rng : Z) : DB (Result (option Job)) :=
  try! waterline := select_waterline in
  match waterline with
  | inr job => ret (inr (Some job))
  | inl compaction_waterline =>
    let! s := gets id in
    let! mutable_table := memtable (es_mutable_table (db_state s)) in
    match es_immutable_table (db_state s) with
    | None =>
      if eo_write_buffer_size options <=? mt_size mutable_table then
        try! job := select_swap in ret (inr (Some job))
      else
        let! spec := select_spec rng compaction_waterline in
        match spec with
        | Some compaction => try! job := select_compact fuel compaction_waterline compaction in ret (inr (Some job))
        | None =>
          ret (inr (if eo_max_manifest_file_size options <=? Z.of_nat (rw_extent (db_manifest s).2)
                    then Some SwitchManifest else None))
        end
    | Some m => try! job := select_flush fuel compaction_waterline m in ret (inr (Some job))
    end
  end.

(** The new manifest has a record of the whole version set. *)
Definition switch_manifest : DB (Result unit) :=
  let! s := gets id in
  let number := vs_next_file_number (es_version_set (db_state s)) in
  let! next := u64_add number 1 in
  on_version_set (apply_new_edit vo (set_next_file_number next VersionEdit_default) []) ;!
  try! manifest := create_manifest number in
  let! s := gets id in
  let! (res, manifest) := call (write_to_new vo false (es_version_set (db_state s))) manifest in
  try! _ := ret res in
  on_dir (set_dir_manifests <[number := rw_file manifest]>) ;!
  on_dir (set_current number) ;!
  let! s := gets id in
  set_manifest (number, manifest) ;!
  remove_manifest (db_manifest s).1.

(** The rest of a round. *)
Definition commit_job (job : Job) : DB (Result unit) :=
  match job with
  | ApplyEdit edit => on_version_set (apply_new_edit vo edit []) ;! ret (inr tt)
  | SwapMemtable edit log =>
    let! table := new_memtable in
    let! s := gets id in
    on_state (es_set_immutable (Some (mkImmutableTable (es_mutable_table (db_state s)) (es_log_last_sequence (db_state s))))) ;!
    on_state (es_set_mutable table) ;!
    if eo_disable_wal options then ret (inr tt) else
    on_version_set (apply_new_edit vo edit []) ;!
    on_state (es_set_log log) ;!
    ret (inr tt)
  | FlushMemtable edit tables =>
    on_state (es_set_immutable None) ;!
    on_version_set (apply_new_edit vo edit tables) ;!
    ret (inr tt)
  | CompactTables edit tables => on_version_set (apply_new_edit vo edit tables) ;! ret (inr tt)
  | SwitchManifest => switch_manifest
  end.

(** ** Opening *)

Inductive OpenError :=
| OpenFailed (e : ParseError)
| OpenRecover (e : RecoverError)
| OpenLog (e : RecordReadError + ParseError)
| OpenReadOnly
| OpenPrevLogWithoutWal
| OpenLogWithoutWal
| OpenNoLog
| OpenWaterlineChanged
| OpenNotAtEnd
| OpenMissing
| OpenExists.

(** [cleanup_unused_files]: the files that are left *)
Definition cleanup_unused_files (tables logs manifests : list Z) : DB unit :=
  on_dir (λ d, mkDirectory
    (filter (λ f, f.1 ∈ tables) (dir_tables d)) (filter (λ f, f.1 ∈ logs) (dir_logs d))
    (filter (λ f, f.1 ∈ manifests) (dir_manifests d)) (dir_current d)).

(** The first log of a new database. *)
Definition first_log : DB (Result (option (Z * RecordWriter))) :=
  if eo_disable_wal options then ret (inr None) else
  let! s := gets id in
  let number := vs_next_file_number (es_version_set (db_state s)) in
  let! next := u64_add number 1 in
  on_version_set (apply_new_edit vo (set_log_number number (set_next_file_number next VersionEdit_default)) []) ;!
  try! log := create_log number in
  ret (inr (Some (number, log))).

(** [open_new] from a database without a manifest and a log. *)
Definition start_new : DB (Result unit) :=
  let! s := gets id in
  let number := vs_next_file_number (es_version_set (db_state s)) in
  let! next := u64_add number 1 in
  on_version_set (apply_new_edit vo (set_next_file_number next VersionEdit_default) []) ;!
  (if eo_enable_compaction_waterline options
   then on_version_set (apply_new_edit vo (set_waterline 0 VersionEdit_default) []) else ret tt) ;!
  try! manifest := create_manifest number in
  try! log := first_log in
  let! s := gets id in
  let! (res, manifest) := call (write_to_new vo false (es_version_set (db_state s))) manifest in
  try! _ := ret res in
  on_dir (set_dir_manifests <[number := rw_file manifest]>) ;!
  set_manifest (number, manifest) ;!
  on_dir (set_current number) ;!
  cleanup_unused_files [] (from_option (λ l, [l.1]) [] log) [number] ;!
  on_state (es_set_log log) ;!
  let! s := gets id in
  on_state (es_set_sequence (vs_last_sequence (es_version_set (db_state s)))) ;!
  ret (inr tt).

Definition empty_database (dir : Directory) : EmbeddedDB :=
  mkEmbeddedDB (mkEmbeddedDBState None 0 0 None VersionSet_new) 0 [MemTable_new (rngs 0)] (0, RecordWriter_new) dir.

Definition open_new (dir : Directory) : run (OpenError + EmbeddedDB) :=
  if eo_read_only options then Done (inl OpenReadOnly) else
  match start_new (empty_database dir) with
  | Done (inl e, _) => Done (inl (OpenFailed e))
  | Done (inr _, s) => Done (inr s)
  | Panicked => Panicked
  | OutOfFuel => OutOfFuel
  end.

(** [open_all]: a table that cannot be opened panics, because the lock of its
    entry is not left with [exit()]. *)
Fixpoint open_entries (tables : gmap Z bytes) (entries : list (LevelTableEntry T)) : run (list (LevelTableEntry T)) :=
  match entries with
  | [] => Done []
  | entry :: entries =>
    let opened :=
      match lt_table entry with
      | Some _ => Done (inr entry)
      | None =>
        match tables !! nf_number (lt_entry entry) with
        | None => Done (inl ENoFile)
        | Some file => rr! table := ts_read file in Done (inr (mkLevelTableEntry (Some table) (lt_entry entry)))
        end
      end in
    match opened, open_entries tables entries with
    | Done (inr entry), Done entries => Done (entry :: entries)
    | Done (inr _), r => r
    | OutOfFuel, _ => OutOfFuel
    | _, _ => Panicked
    end
  end.

Fixpoint open_levels (tables : gmap Z bytes) (ls : list (Level T)) : run (list (Level T)) :=
  match ls with
  | [] => Done []
  | l :: ls =>
    match open_entries tables (lv_tables l), open_levels tables ls with
    | Done entries, Done ls => Done (set_tables entries l :: ls)
    | Done _, r => r
    | Panicked, _ => Panicked
    | OutOfFuel, _ => OutOfFuel
    end
  end.

Definition open_all (dir : Directory) (vs : VersionSet T) : run (VersionSet T) :=
  match open_levels (dir_tables dir) (levels (vs_latest_version vs)) with
  | Done ls => Done (set_latest_version (mkVersion ls) vs)
  | Panicked => Panicked
  | OutOfFuel => OutOfFuel
  end.

(** The memtable of a log: the table, the last sequence and the reader. Every
    record takes at least a byte of the file. *)
Definition read_log (dir : Directory) (number : Z) (rng : nat → Z) (last_sequence : Z)
    : run (OpenError + (MemTable * Z * (bytes * RecordReader))) :=
  match dir_logs dir !! number with
  | None => Done (inl (OpenFailed ENoFile))
  | Some file =>
    match read_table comparator (S (length file)) file (RecordReader_open, (MemTable_new rng, last_sequence)) with
    | Done (inl e, _) => Done (inl (OpenLog e))
    | Done (inr _, (reader, (table, last_sequence))) => Done (inr (table, last_sequence, (file, reader)))
    | Panicked => Panicked
    | OutOfFuel => OutOfFuel
    end
  end.

(** [into_writer(true)?.unwrap()] *)
Definition continue_writer (file : bytes) (reader : RecordReader) : run (OpenError + RecordWriter) :=
  match into_writer file true reader with
  | Done (Some (Some w), _) => Done (inr w)
  | Done (Some None, _) => Panicked
  | Done (None, _) => Done (inl OpenNotAtEnd)
  | Panicked => Panicked
  | OutOfFuel => OutOfFuel
  end.

Abbreviation Open A := (run (OpenError + A)%type).

Definition obind {A C} (m : Open A) (k : A → Open C) : Open C :=
  match m with
  | Done (inl e) => Done (inl e)
  | Done (inr a) => k a
  | Panicked => Panicked
  | OutOfFuel => OutOfFuel
  end.

(** [prev_log_number]: the immutable memtable, if there is one, and the last
    sequence. *)
Definition open_prev_log (dir : Directory) (vs : VersionSet T) : Open (option MemTable * Z) :=
  match vs_prev_log_number vs with
  | None => Done (inr (None, vs_last_sequence vs))
  | Some number =>
    if eo_disable_wal options then Done (inl OpenPrevLogWithoutWal) else
    obind (read_log dir number (rngs 1) (vs_last_sequence vs)) (λ '(table, last, _), Done (inr (Some table, last)))
  end.

(** The mutable memtable with the last sequence, and the log with its number. *)
Definition open_log (dir : Directory) (vs : VersionSet T) (last_sequence : Z)
    : Open (MemTable * Z * option (Z * RecordWriter)) :=
  if eo_disable_wal options then
    match vs_log_number vs with
    | Some _ => Done (inl OpenLogWithoutWal)
    | None => Done (inr (MemTable_new (rngs 0), last_sequence, None))
    end
  else
    match vs_log_number vs with
    | None => Done (inl OpenNoLog)
    | Some number =>
      obind (read_log dir number (rngs 0) last_sequence) (λ '(table, last, (file, reader)),
      if eo_read_only options then Done (inr (table, last, None)) else
      obind (continue_writer file reader) (λ w, Done (inr (table, last, Some (number, w)))))
    end.

Definition version_numbers (vs : VersionSet T) : list Z :=
  concat ((λ l, (λ e, nf_number (lt_entry e)) <$> lv_tables l) <$> levels (vs_latest_version vs)).

(** The state after opening; the manifest of a database that is read only is
    not used. The file of the log has the length its writer starts at. *)
Definition opened_database (dir : Directory) (number : Z) (manifest : RecordWriter) (vs : VersionSet T)
    (mutable_table : MemTable) (log : option (Z * RecordWriter)) (immutable_table : option MemTable) (prev_last last : Z)
    : EmbeddedDB :=
  let keep n := bool_decide (n ∈ option_list (vs_prev_log_number vs) ++ option_list (vs_log_number vs)) in
  mkEmbeddedDB
    (mkEmbeddedDBState log last 0 (const (mkImmutableTable 1 prev_last) <$> immutable_table) vs)
    (default 0 (vs_compaction_waterline vs))
    (mutable_table :: option_list immutable_table)
    (number, manifest)
    (mkDirectory (filter (λ f, f.1 ∈ version_numbers vs) (dir_tables dir))
      (from_option (λ l, <[l.1 := rw_file l.2]>) id log (filter (λ f, keep f.1) (dir_logs dir)))
      {[number := rw_file manifest]} (dir_current dir)).

Definition open_existing (dir : Directory) (number : Z) : Open EmbeddedDB :=
  match dir_manifests dir !! number with
  | None => Done (inl (OpenFailed ENoFile))
  | Some file =>
    match recover_existing vo (S (length file)) file RecordReader_open with
    | Done (inl e, _) => Done (inl (OpenRecover e))
    | Done (inr vs, reader) =>
      match open_all dir vs with
      | Done vs =>
        obind (open_prev_log dir vs) (λ '(immutable_table, prev_last),
        obind (open_log dir vs prev_last) (λ '(mutable_table, last, log),
        if negb (Bool.eqb (bool_decide (is_Some (vs_compaction_waterline vs))) (eo_enable_compaction_waterline options))
        then Done (inl OpenWaterlineChanged) else
        obind (if eo_read_only options then Done (inr (mkRecordWriter file (length file))) else continue_writer file reader)
          (λ manifest, Done (inr (opened_database dir number manifest vs mutable_table log immutable_table prev_last last)))))
      | Panicked => Panicked
      | OutOfFuel => OutOfFuel
      end
    | Panicked => Panicked
    | OutOfFuel => OutOfFuel
    end
  end.

(** [open_impl], with the existing manifest or a new one. *)
Definition open_impl (create_if_missing error_if_exists : bool) (dir : Directory) : Open EmbeddedDB :=
  match dir_current dir with
  | Some number => if error_if_exists then Done (inl OpenExists) else open_existing dir number
  | None => if create_if_missing then open_new dir else Done (inl OpenMissing)
  end.
End Database.
