(* ===== verification/DatabaseReads.v ===== *)
(** * What the tables of a database stand for

    The tables of a database [represent] the batches that were flushed to
    them: they hold some of their entries, and enough of them for reads at or
    after the last one. Memtables with the later batches on top of such tables
    are read like the whole history. *)

From S2P Require Import Prelude Wire Encoding Comparator SkipList SkipListProofs WriteBatch WriteBatchTheorems.
From S2P Require Import MergeIterator MergeIteratorTheorems Snapshot SnapshotProofs SnapshotTheorems.
From S2P Require Import VersionEdit Version Compaction CompactionProofs.

Abbreviation Batch := (Z * list Write)%type.

(** The sequence of the last batch, or the initial one. *)
Definition last_seq (bs : list Batch) : Z := from_option fst 0 (last bs).

Lemma last_seq_snoc bs b : last_seq (bs ++ [b]) = b.1.
Proof. unfold last_seq. by rewrite last_snoc. Qed.

Section Reads.
Context (user : KeyComparator) `{!KeyComparatorLaws user} `{!AntiSymm (=) (@kc_le user _)}.
Abbreviation internal := (InternalKeyComparator user).
Implicit Types (bs : list Batch) (all : list KeyValueEntry) (e : KeyValueEntry).

Abbreviation entries bs := (entry_of <$> writes bs).

Lemma writes_app bs bs' : writes (bs ++ bs') = writes bs ++ writes bs'.
Proof. unfold writes. apply bind_app. Qed.

Lemma entries_seq bs e : history_ok user bs → e ∈ entries bs → ∃ b, b ∈ bs ∧ ik_seq e.1 = b.1.
Proof.
  intros [Hok _ _] (x & -> & Hx)%list_elem_of_fmap. pose proof (batch_writes user _ _ Hok Hx) as [Hs _].
  apply elem_of_writes in Hx as (b & Hb & E & _). exists b. split; [done|]. pose proof (entry_of_version x Hs) as [= _ ->]. done.
Qed.

Lemma last_seq_max bs b : history_ok user bs → b ∈ bs → b.1 ≤ last_seq bs.
Proof.
  intros [_ Hs _] Hb. unfold last_seq. destruct (last bs) as [l|] eqn:E; [|by apply last_None in E; subst; apply elem_of_nil in Hb].
  apply last_Some in E as [bs' ->]. cbn. apply elem_of_app in Hb as [Hb|Hb%list_elem_of_singleton]; [|subst; lia].
  assert (b.1 < l.1); [|lia]. apply (StronglySorted_app_1_elem_of _ _ _ _ _ Hs Hb). by left.
Qed.

Lemma last_seq_nonneg bs : history_ok user bs → 0 ≤ last_seq bs ≤ MAX_SEQUENCE.
Proof.
  intros [Hok _ _]. unfold last_seq. destruct (last bs) as [l|] eqn:E; cbn; [|unfold MAX_SEQUENCE; lia].
  apply last_Some_elem_of in E. rewrite Forall_forall in Hok. by destruct (Hok l E).
Qed.

Lemma last_seq_app bs bs' : history_ok user (bs ++ bs') → last_seq bs ≤ last_seq (bs ++ bs').
Proof.
  intros Hh. unfold last_seq at 1. destruct (last bs) as [l|] eqn:E; [|by apply last_seq_nonneg].
  cbn. apply last_seq_max; [done|]. apply elem_of_app. left. by apply last_Some_elem_of.
Qed.

(** Entries of later batches are newer. *)
Lemma later_seq bs bs' e : history_ok user (bs ++ bs') → e ∈ entries bs' → bs ≠ [] → last_seq bs < ik_seq e.1.
Proof.
  intros Hh He Hne. destruct (history_app user _ _ Hh) as [_ Hh']. destruct (entries_seq bs' e Hh' He) as (b & Hb & ->).
  unfold last_seq. destruct (last bs) as [l|] eqn:E; [|by apply last_None in E]. apply last_Some_elem_of in E.
  apply (StronglySorted_app_1_elem_of _ _ _ _ _ (ho_sequences _ _ Hh) E Hb).
Qed.

Lemma history_entries_ok bs : history_ok user bs → entries_ok internal (apply_batches user bs []) ∧ apply_batches user bs [] ≡ₚ entries bs.
Proof. intros [Hok Hs Hd]. exact (apply_batches_entries user bs Hok (writes_distinct _ Hs Hd)). Qed.

Lemma entries_nodup all : entries_ok internal all → NoDup all.
Proof.
  intros [_ Hs]. induction Hs as [|e all _ IH He]; [constructor|]. constructor; [|done]. intros Hin.
  rewrite Forall_forall in He. by apply (He e Hin).
Qed.

(** A read depends on the matching entries. *)
Lemma visible_ext s s' key all all' :
  entries_ok internal all → entries_ok internal all' →
  (∀ e, (e ∈ all ∧ matching key s e) ↔ (e ∈ all' ∧ matching key s' e)) → visible s key all = visible s' key all'.
Proof.
  intros Hok Hok' Hiff. destruct (visible_cases user s key all Hok) as [Hnone|(e & He & Ek & Hs & Hn)].
  - rewrite !visible_none; [done| |done]. intros e He Hm. destruct (proj2 (Hiff e) (conj He Hm)) as [He' Hm']. by apply (Hnone e).
  - destruct (proj1 (Hiff e)) as [He' [_ Hs']]; [by split|]. rewrite (visible_newest user s key all e) by done. symmetry.
    apply (visible_newest user); [done|done|done|]. split; [done|]. apply Forall_forall. intros x Hx Hm. rewrite Ek in Hm.
    destruct (proj2 (Hiff x) (conj Hx Hm)) as [Hx' Hm']. rewrite Forall_forall in Hn. apply (Hn x Hx'). by rewrite Ek.
Qed.

Lemma visible_history bs all key s :
  history_ok user bs → entries_ok internal all → all ≡ₚ entries bs → visible s key all = model_get key s bs.
Proof.
  intros Hh Hok Hp. unfold visible, model_get. rewrite <- (newest_entry user bs all) by done. by destruct (head _).
Qed.

(** Tables that stand for batches. *)
Record represents all bs : Prop := mkRepresents {
  rp_ok : entries_ok internal all;
  rp_sub : ∀ e, e ∈ all → e ∈ entries bs;
  rp_reads : ∀ key, visible (last_seq bs) key all = model_get key (last_seq bs) bs;
}.

Lemma represents_perm all bs : represents all bs → ∀ es, all ≡ₚ es → ∀ e, e ∈ es → e ∈ entries bs.
Proof. intros H es Hp e He. apply (rp_sub _ _ H). by rewrite Hp. Qed.

(** Later batches on top of the tables. *)
Lemma stacked_entries bs bs' all :
  history_ok user (bs ++ bs') → represents all bs → ∃ all', entries_ok internal all' ∧ all' ≡ₚ entries bs' ++ all.
Proof.
  intros Hh Hr. destruct (history_entries_ok _ Hh) as [Hok Hp]. set (H := apply_batches user (bs ++ bs') []) in *.
  exists (filter (λ e, e ∈ entries bs' ∨ e ∈ all) H). split.
  { destruct Hok as [Hk Hs]. split; [|by apply sorted_filter]. apply Forall_forall. intros e [_ He]%list_elem_of_filter.
    rewrite Forall_forall in Hk. auto. }
  pose proof (entries_nodup _ Hok) as Hnd. rewrite Hp, writes_app, fmap_app in Hnd. apply NoDup_app in Hnd as (_ & Hdis & Hnd').
  apply NoDup_Permutation.
  - apply NoDup_filter, entries_nodup, Hok.
  - apply NoDup_app. split_and!; [done| |apply entries_nodup, Hr]. intros e He' He. by apply (Hdis e (rp_sub _ _ Hr e He)).
  - intros e. rewrite list_elem_of_filter, elem_of_app. split; [tauto|]. intros Hor. split; [done|]. rewrite Hp, writes_app, fmap_app, elem_of_app.
    destruct Hor as [?|?%(rp_sub _ _ Hr)]; auto.
Qed.

Lemma stacked_reads bs bs' all all' s key :
  history_ok user (bs ++ bs') → represents all bs → entries_ok internal all' → all' ≡ₚ entries bs' ++ all → last_seq bs ≤ s →
  visible s key all' = model_get key s (bs ++ bs').
Proof.
  intros Hh Hr Hok' Hp' Hs. destruct (history_entries_ok _ Hh) as [Hok Hp]. set (H := apply_batches user (bs ++ bs') []) in *.
  destruct (history_app user _ _ Hh) as [Hh1 Hh2]. destruct (history_entries_ok _ Hh1) as [Hok1 Hp1].
  assert (∀ x, x ∈ H ↔ x ∈ entries bs ∨ x ∈ entries bs') as HH by (intros x; by rewrite Hp, writes_app, fmap_app, elem_of_app).
  assert (∀ x, x ∈ entries bs → ik_seq x.1 ≤ last_seq bs) as Hold.
  { intros x Hx. destruct (entries_seq bs x Hh1 Hx) as (b & Hb & ->). by apply last_seq_max. }
  rewrite <- (visible_history _ H key s Hh Hok Hp).
  destruct (visible_cases user s key H Hok) as [Hnone|(e & He & Ek & Hes & Hn)].
  { rewrite !visible_none; [done|done|]. intros x. rewrite Hp', elem_of_app. intros Hx. apply Hnone, HH.
    destruct Hx as [?|?%(rp_sub _ _ Hr)]; auto. }
  assert (∀ x, x ∈ all' → x ∈ H) as Hsub.
  { intros x. rewrite Hp', elem_of_app, HH. intros [?|?%(rp_sub _ _ Hr)]; auto. }
  destruct (decide (e ∈ all')) as [Hin|Hnin].
  { rewrite (visible_newest user s key H e) by done. apply (visible_newest user); [done|done|done|]. by eapply newest_sub; [by split|]. }
  rewrite Hp', elem_of_app in Hnin. assert (e ∈ entries bs) as Heb by (apply HH in He as [?|?]; tauto).
  assert (bs ≠ []) as Hne by (intros ->; by apply elem_of_nil in Heb).
  rewrite Forall_forall in Hn. transitivity (visible (last_seq bs) key all); [|transitivity (visible (last_seq bs) key (apply_batches user bs []))].
  - apply visible_ext; [done|apply Hr|]. intros x. rewrite Hp', elem_of_app. split.
    + intros [[Hx|Hx] [Ex Hxs]]; [|split; [done|split; [done|apply Hold, (rp_sub _ _ Hr x Hx)]]]. exfalso.
      pose proof (later_seq bs bs' x Hh Hx Hne). specialize (Hold e Heb).
      specialize (Hn x ltac:(apply HH; by right)). rewrite Ek in Hn. specialize (Hn (conj Ex Hxs)). lia.
    + intros [Hx [Ex Hxs]]. split; [by right|]. split; [done|lia].
  - rewrite (rp_reads _ _ Hr). symmetry. by apply visible_history.
  - rewrite (visible_newest user s key H e) by (done || by split; [|apply Forall_forall]). apply (visible_newest user); [done|by rewrite Hp1|done|].
    split; [auto|]. apply Forall_forall. intros x Hx [Ex Hxs]. apply Hn; [apply HH; left; by rewrite <- Hp1|]. split; [done|lia].
Qed.

(** A flush: the tables with the next batches. *)
Lemma stacked_represents bs bs' all :
  history_ok user (bs ++ bs') → represents all bs → ∃ all', all' ≡ₚ entries bs' ++ all ∧ represents all' (bs ++ bs').
Proof.
  intros Hh Hr. destruct (stacked_entries bs bs' all Hh Hr) as (all' & Hok & Hp). exists all'. split; [done|]. split; [done| |].
  - intros e. rewrite Hp, writes_app, fmap_app, !elem_of_app. intros [?|?%(rp_sub _ _ Hr)]; auto.
  - intros key. apply (stacked_reads bs bs' all); [done..|]. by apply last_seq_app.
Qed.

(** No entry of [others] is hidden by a deletion that is removed. *)
Definition removal_safe (remove_deleted : bool) (es others : list KeyValueEntry) : Prop :=
  remove_deleted = true →
  ∀ e o, e ∈ es → deletion e = true → o ∈ others → ik_user o.1 = ik_user e.1 → ik_seq e.1 < ik_seq o.1.

(** A compaction of some of the entries. *)
Lemma compacted_represents rd w es others all bs :
  history_ok user bs → represents all bs → all ≡ₚ es ++ others → removal_safe rd es others →
  ∃ all', all' ≡ₚ compacted rd w es ++ others ∧ represents all' bs.
Proof.
  intros Hh Hr Hp Hsafe. pose proof (rp_ok _ _ Hr) as Hok. pose proof (entries_nodup _ Hok) as Hnd. rewrite Hp in Hnd.
  apply NoDup_app in Hnd as (Hnd1 & Hdis & Hnd2).
  set (all' := filter (λ e, e ∈ compacted rd w es ∨ e ∈ others) all).
  assert (∀ e, e ∈ compacted rd w es → e ∈ es) as Hsub by (intros e; unfold compacted; rewrite list_elem_of_filter; tauto).
  assert (all' ≡ₚ compacted rd w es ++ others) as Hp'.
  { apply NoDup_Permutation; [by apply NoDup_filter, entries_nodup| |].
    - apply NoDup_app. split_and!; [by apply NoDup_filter|auto|done].
    - intros e. unfold all'. rewrite list_elem_of_filter, Hp, !elem_of_app. naive_solver. }
  assert (entries_ok internal all') as Hok'.
  { destruct Hok as [Hk Hs]. split; [|by apply sorted_filter]. apply Forall_forall. intros e [_ He]%list_elem_of_filter.
    rewrite Forall_forall in Hk. auto. }
  exists all'. split; [done|]. split; [done| |].
  - intros e [_ He]%list_elem_of_filter. by apply (rp_sub _ _ Hr).
  - intros key. rewrite <- (rp_reads _ _ Hr). apply (compacted_visible user rd w es others); [done..| |done].
    intros e He _. assert (e ∈ all) as Hin by (rewrite Hp; apply elem_of_app; by left).
    destruct (entries_seq bs e Hh (rp_sub _ _ Hr e Hin)) as (b & Hb & ->). by apply last_seq_max.
Qed.

Lemma represents_nil : represents [] [].
Proof. split; [split; constructor|intros e He; by apply elem_of_nil in He|done]. Qed.

Lemma model_get_later key s bs rest : Forall (λ b, s < b.1) rest → model_get key s (bs ++ rest) = model_get key s bs.
Proof.
  intros Hr. unfold model_get, model_entry. rewrite writes_app, filter_app, (filter_none _ (writes rest)); [by rewrite app_nil_r|].
  apply Forall_forall. intros x (b & Hb & -> & _)%elem_of_writes [_ Hle]. rewrite Forall_forall in Hr. specialize (Hr b Hb). cbn in *. lia.
Qed.
End Reads.
