(* ===== verification/DatabaseProofs.v ===== *)
(** * Invariants of the database

    What the memory of a database holds ([mem_ok]), in terms of the batches
    that were written to it, and how writing and reading keep it. *)

From S2P Require Import Prelude Wire Encoding Comparator SkipList SkipListProofs SkipListTheorems RecordLog RecordLogProofs RecordLogTheorems.
From S2P Require Import WriteBatch WriteBatchTheorems MergeIterator MergeIteratorTheorems Snapshot SnapshotProofs SnapshotTheorems.
From S2P Require Import Filter Table VersionEdit VersionEditTheorems Version VersionProofs VersionRecovery VersionTheorems.
From S2P Require Import LevelIterator LevelIteratorTheorems Compaction CompactionProofs CompactionBuild VersionRows Database DatabaseReads.

Abbreviation table_holds_batches := WriteBatchTheorems.holds.

(** ** Logs *)

(** The writer of a log with records. *)
Definition log_of (ds : list bytes) (w : RecordWriter) : Prop := append_records ds RecordWriter_new = Done (tt, w).

Lemma log_of_new : log_of [] RecordWriter_new.
Proof. done. Qed.

Lemma log_of_append ds w d : log_of ds w → ∃ w', append d w = Done (tt, w') ∧ log_of (ds ++ [d]) w'.
Proof.
  intros Hw. pose proof (writer_ok_records _ _ _ writer_ok_new Hw) as Hok. destruct (append_ok w d Hok) as (fs & _ & _ & Ha).
  eexists. split; [exact Ha|]. unfold log_of. rewrite (append_records_split _ _ _ _ Hw).
  unfold append_records. cbn [for_each]. unfold bind. by rewrite Ha.
Qed.

(** ** Batches *)

Lemma batch_count_ok q ws : Z.of_nat (length ws) < 2 ^ 32 → WriteBatch_count (batch_bytes q ws) = Done (Z.of_nat (length ws), batch_bytes q ws).
Proof.
  intros Hlen. unfold WriteBatch_count, array_ref, batch_bytes, bind, gets, assert, ret, id. cbn beta iota.
  rewrite !length_app, !length_to_le_bytes. rewrite (proj2 (Nat.leb_le _ _)) by lia. cbn beta iota.
  rewrite drop_app_length' by (by rewrite length_to_le_bytes). rewrite take_app_length' by (by rewrite length_to_le_bytes).
  rewrite from_to_le_bytes; [done|]. lia.
Qed.

Lemma batch_sequence_ok q ws : 0 ≤ q < U64 → WriteBatch_sequence (batch_bytes q ws) = Done (q, batch_bytes q ws).
Proof.
  intros Hq. unfold WriteBatch_sequence, array_ref, batch_bytes, bind, gets, assert, ret, id. cbn beta iota.
  rewrite !length_app, !length_to_le_bytes. rewrite (proj2 (Nat.leb_le _ _)) by lia. cbn beta iota. rewrite drop_0.
  rewrite take_app_length' by (by rewrite length_to_le_bytes). rewrite from_to_le_bytes; [done|]. unfold U64 in Hq. lia.
Qed.

Lemma apply_batches_app user `{!KeyComparatorLaws user} bs bs' es : apply_batches user (bs ++ bs') es = apply_batches user bs' (apply_batches user bs es).
Proof. unfold apply_batches. apply foldl_app. Qed.

Section Database.
Context (o : DatabaseOptions).
Abbreviation user := (do_comparator (eo_version o)).
Abbreviation internal := (InternalKeyComparator user).
Abbreviation options := (wrap_database_options o).
Abbreviation vo := (eo_version options).
Context `{!KeyComparatorLaws user} `{!AntiSymm (=) (@kc_le user _)}.
#[local] Instance vo_laws : KeyComparatorLaws (do_comparator vo) := InternalKeyComparator_laws user.
Context {B T J : Type} {HT : TableStore B T} (table_iter : T → J) {HJ : Iterable J}.
Context {LT : @TableStoreLaws (do_comparator vo) vo_laws B T HT} {LJ : @IterableLaws (do_comparator vo) vo_laws J HJ}.
Hypothesis table_iter_rep : ∀ t rows p, ts_rows t rows p → entries_ok (do_comparator vo) rows → it_rep (do_comparator vo) (table_iter t) rows rows.
Implicit Types (s : EmbeddedDB (T := T)) (R : Z → list KeyValueEntry) (bo bi bm : list Batch).

(** The default configuration. *)
Record options_default : Prop := mkOptionsDefault {
  od_read_only : eo_read_only o = false;
  od_wal : eo_disable_wal o = false;
  od_waterline : eo_enable_compaction_waterline o = false;
  od_buffer : 0 < eo_write_buffer_size o;
}.

Abbreviation version_set s := (es_version_set (db_state s)).

Definition memtable_holds s (n : nat) (bs : list Batch) : Prop :=
  ∃ t, db_memtables s !! n = Some t ∧ table_holds_batches user t (apply_batches user bs []) ∧ (bs = [] → mt_size t = 0).

(** The immutable memtable and its log. *)
Definition immutable_ok s bo bi : Prop :=
  match es_immutable_table (db_state s) with
  | None => bi = [] ∧ vs_prev_log_number (version_set s) = None
  | Some m => bi ≠ [] ∧ im_table m ≠ es_mutable_table (db_state s) ∧ im_last_sequence m = last_seq (bo ++ bi) ∧
      memtable_holds s (im_table m) bi ∧ is_Some (vs_prev_log_number (version_set s))
  end.

(** The batches [bo] were flushed to tables, those of [bi] are in the
    immutable memtable and those of [bm] in the mutable one and in the log.
    The rows of the tables are given by [R]. *)
Record mem_ok s R bo bi bm : Prop := mkMemOk {
  ok_history : history_ok user (bo ++ bi ++ bm);
  ok_batches : Forall (λ b : Batch, b.2 ≠ []) (bo ++ bi ++ bm);
  ok_set : state_ok vo (version_set s);
  ok_version : version_ok vo R (vs_next_file_number (version_set s)) (vs_latest_version (version_set s));
  ok_rows : ∃ all, all ≡ₚ contents R (vs_latest_version (version_set s)) ∧ represents user all bo;
  ok_mutable : memtable_holds s (es_mutable_table (db_state s)) bm;
  ok_immutable : immutable_ok s bo bi;
  ok_sequence : es_log_last_sequence (db_state s) = last_seq (bo ++ bi ++ bm);
  ok_flushed : vs_last_sequence (version_set s) = last_seq bo;
  ok_waterline : vs_compaction_waterline (version_set s) = None;
  ok_log : ∃ n w, es_log (db_state s) = Some (n, w) ∧ vs_log_number (version_set s) = Some n ∧
    log_of (batch_record <$> bm) w;
}.

(** *** Writing *)

(** The sequence of a batch. *)
Definition assigned s (q : Z) : Z := if q =? 0 then es_log_last_sequence (db_state s) + 1 else q.

(** What the caller of [write] has to provide: writes of distinct keys, and
    a sequence that fits and is new. *)
Record write_fits s (q : Z) (ws : list Write) : Prop := mkWriteFits {
  wf_some : ws ≠ [];
  wf_sequence : 0 ≤ q;
  wf_new : es_log_last_sequence (db_state s) < assigned s q;
  wf_batch : batch_ok user (assigned s q, ws);
  wf_distinct : NoDup (write_key <$> ws);
}.

(** The state after a write. *)
Definition written_state s (q : Z) (ws : list Write) (n : Z) (w : RecordWriter) (t : MemTable) : EmbeddedDB (T := T) :=
  let st := db_state s in
  mkEmbeddedDB
    (mkEmbeddedDBState (Some (n, w)) (assigned s q) (es_mutable_table st) (es_immutable_table st) (es_version_set st))
    (db_next_compaction_waterline s) (<[es_mutable_table st := t]> (db_memtables s)) (db_manifest s)
    (set_dir_logs <[n := rw_file w]> (db_dir s)).

Lemma assign_sequence_ok s q ws :
  write_fits s q ws → assign_sequence (batch_bytes q ws) s = Done (inr (batch_bytes (assigned s q) ws), s).
Proof.
  intros [_ Hq Hnew [Hs Hc _ _] _]. unfold assigned in *. cbn [fst snd] in *. unfold MAX_SEQUENCE in Hs.
  unfold assign_sequence, bind at 1, gets at 1. change (id s) with s. unfold bind at 1, call at 1.
  assert (q < U64) by (unfold U64; destruct (Z.eqb_spec q 0); lia).
  rewrite batch_sequence_ok by lia. destruct (Z.eqb_spec q 0) as [->|Hne]; cbn [negb].
  - unfold bind at 1, u64_add. rewrite (proj2 (Z.leb_le _ _)) by (unfold U64_MAX, U64; lia). unfold ret at 1.
    unfold bind, call. by rewrite set_sequence_ok.
  - rewrite (proj2 (Z.leb_gt _ _)) by lia. done.
Qed.

Lemma write_run s q ws n w w' t t' :
  eo_read_only o = false → write_fits s q ws → es_log (db_state s) = Some (n, w) →
  append (batch_bytes (assigned s q) ws) w = Done (tt, w') → db_memtables s !! es_mutable_table (db_state s) = Some t →
  apply_record internal (batch_bytes (assigned s q) ws) t = Done (inr (assigned s q), t') →
  write options (batch_bytes q ws) s = Done (inr tt, written_state s q ws n w' t').
Proof.
  intros Hro Hf Hlog Happ Ht Happly. pose proof Hf as [Hws Hq Hnew [Hs Hc _ _] _]. cbn [fst snd] in *.
  unfold write. change (eo_read_only options) with (eo_read_only o). rewrite Hro.
  unfold bind at 1, call at 1. rewrite batch_count_ok by done.
  destruct (Z.eqb_spec (Z.of_nat (length ws)) 0) as [E|_]; [destruct ws; [done|cbn in E; lia]|].
  unfold entered, try_bind at 1, bind at 1. rewrite (assign_sequence_ok s q ws Hf).
  unfold bind at 1, call at 1. rewrite batch_sequence_ok by (unfold MAX_SEQUENCE, U64 in *; lia).
  unfold bind at 1, on_state at 1, modify at 1. unfold bind at 1, append_log at 1, bind at 1, gets at 1. cbn [id db_state es_log es_set_sequence].
  rewrite Hlog. unfold bind at 1, call at 1. rewrite Happ. unfold bind at 1, on_state at 1, modify at 1, on_dir at 1, modify at 1.
  unfold bind at 1, gets at 1. cbn [id db_state es_mutable_table es_set_log es_set_sequence].
  unfold try_bind, bind at 1, on_memtable at 1, bind at 1, gets at 1. cbn [id db_memtables]. unfold bind at 1. rewrite Ht. cbn [unwrap ret].
  unfold bind at 1, call at 1. change (do_comparator vo) with internal. rewrite Happly. done.
Qed.

(** A longer history. *)
Lemma history_snoc bs b :
  history_ok user bs → batch_ok user b → NoDup (write_key <$> b.2) → (bs ≠ [] → last_seq bs < b.1) → history_ok user (bs ++ [b]).
Proof.
  intros Hh Hb Hd Hlt. pose proof Hh as [H1 H2 H3]. split; [by apply Forall_app; split; [|constructor]| |by apply Forall_app; split; [|constructor]].
  apply StronglySorted_app_2; [|done|repeat constructor]. intros a x Ha ->%list_elem_of_singleton.
  pose proof (last_seq_max user bs a Hh Ha). assert (bs ≠ []) by (intros ->; by apply elem_of_nil in Ha). specialize (Hlt ltac:(done)). lia.
Qed.

Lemma apply_writes_some q ws es : ws ≠ [] → apply_writes user q ws es ≠ [].
Proof.
  intros Hws. assert (length (apply_writes user q ws es) = (length ws + length es)%nat) as Hlen.
  { unfold apply_writes. clear. revert es. induction ws as [|w ws IH]; intros es; [done|]. cbn [foldl]. rewrite IH.
    rewrite (Permutation_length (ordered_insert_perm _ _ _)). cbn. lia. }
  destruct ws; [done|]. intros E. rewrite E in Hlen. cbn in Hlen. lia.
Qed.

Lemma write_ok s R bo bi bm q ws :
  options_default → mem_ok s R bo bi bm → write_fits s q ws →
  ∃ n w t, write options (batch_bytes q ws) s = Done (inr tt, written_state s q ws n w t) ∧
    vs_log_number (version_set s) = Some n ∧ log_of (batch_record <$> (bm ++ [(assigned s q, ws)])) w ∧
    mem_ok (written_state s q ws n w t) R bo bi (bm ++ [(assigned s q, ws)]).
Proof.
  intros Hd [H1 H2 H3 H4 H5 (t & Ht & Hh & Hsz) H7 H8 H9 H10 (n & w & Hlog & Hn & Hw)] Hf. pose proof Hf as [F1 F2 F3 F4 F5].
  destruct (log_of_append _ _ (batch_bytes (assigned s q) ws) Hw) as (w' & Happ & Hw').
  destruct (apply_record_ok user (assigned s q, ws) t _ F4 Hh) as (t' & Happly & Hh'). cbn [fst snd] in *.
  exists n, w', t'. split; [by eapply write_run; [apply Hd|..]|]. split; [done|].
  assert (log_of (batch_record <$> (bm ++ [(assigned s q, ws)])) w') as Hw2 by (by rewrite fmap_app). split; [done|].
  assert (bo ++ bi ++ bm ++ [(assigned s q, ws)] = (bo ++ bi ++ bm) ++ [(assigned s q, ws)]) as Ea by (by rewrite <- !(assoc_L (++))).
  split; cbn [db_state es_log es_log_last_sequence es_mutable_table es_immutable_table es_version_set written_state]; [| |done|done|done| | | |done|done|].
  - rewrite Ea. apply history_snoc; [done|done|done|]. intros _. by rewrite <- H8.
  - rewrite Ea. apply Forall_app. split; [done|]. by constructor.
  - exists t'. cbn [db_memtables written_state]. rewrite list_lookup_insert_eq by (by eapply lookup_lt_Some). split; [done|]. split.
    + rewrite apply_batches_app. exact Hh'.
    + intros E. by destruct bm.
  - unfold immutable_ok in *. cbn. destruct (es_immutable_table (db_state s)) as [m|]; [|done].
    destruct H7 as (I1 & I2 & I3 & (tm & Itm & I4) & I5). split_and!; [done..| |done].
    exists tm. cbn [db_memtables written_state]. by rewrite list_lookup_insert_ne by done.
  - rewrite Ea, last_seq_snoc. done.
  - by exists n, w'.
Qed.

(** *** Reading *)

Abbreviation DBSnap := (DBSnapshot (T := T)).

(** A snapshot of a database with the batches [bs]: its version stands for
    the first ones and its memtables hold the next ones; the rest is newer
    than the snapshot. The mutable memtable of the database, with [bm], can be
    the first one of the snapshot; then there is no rest. *)
Record snap_ok s R (bs bm : list Batch) (d : DBSnap) : Prop := mkSnapOk {
  sk_version : version_ok vo R (vs_next_file_number (version_set s)) (ds_version d);
  sk_waterline : ds_compaction_waterline d = None;
  sk_parts : ∃ bo ps rest all, bs = bo ++ concat (reverse ps) ++ rest ∧
    all ≡ₚ contents R (ds_version d) ∧ represents user all bo ∧
    Forall2 (memtable_holds s) (ds_memtables d) ps ∧
    last_seq bo ≤ ds_last_sequence d ≤ MAX_SEQUENCE ∧ Forall (λ b, ds_last_sequence d < b.1) rest ∧
    (es_mutable_table (db_state s) ∉ ds_memtables d ∨
     rest = [] ∧ ∃ ids ps', ds_memtables d = es_mutable_table (db_state s) :: ids ∧ ps = bm :: ps' ∧
       es_mutable_table (db_state s) ∉ ids);
}.

Lemma concat_reverse {A} (ps : list (list A)) : concat (reverse ps) ≡ₚ concat ps.
Proof. by rewrite reverse_Permutation. Qed.

Lemma memtables_ok s ids ps :
  Forall (λ p, history_ok user p) ps → Forall2 (memtable_holds s) ids ps →
  ∃ ts ess, mapM (λ n, db_memtables s !! n) ids = Some ts ∧
    Forall2 (λ t es, table_holds_batches user t es ∧ entries_ok internal es) ts ess ∧
    concat ess ≡ₚ entry_of <$> writes (concat ps).
Proof.
  intros Hps. induction 1 as [|n p ids ps (t & Ht & Hh & _) _ IH]; [exists [], []; by split_and!|].
  apply Forall_cons in Hps as [Hp Hps]. destruct (IH Hps) as (ts & ess & Hm & Hts & Hc).
  destruct (history_entries_ok user p Hp) as [Hok Hperm]. exists (t :: ts), (apply_batches user p [] :: ess). split_and!.
  - cbn. rewrite Ht. cbn. by rewrite Hm.
  - by constructor.
  - cbn [concat]. rewrite writes_app, fmap_app. by rewrite Hc, Hperm.
Qed.

Lemma history_parts (ps : list (list Batch)) bs rest :
  history_ok user (bs ++ concat ps ++ rest) → Forall (λ p, history_ok user p) ps.
Proof.
  revert bs. induction ps as [|p ps IH]; intros bs Hh; [constructor|]. cbn [concat] in Hh. constructor.
  - rewrite <- (assoc_L (++)) in Hh. apply history_app in Hh as [_ Hh]. by apply history_app in Hh as [? _].
  - apply (IH (bs ++ p)). by rewrite <- !(assoc_L (++)) in *.
Qed.

(** The snapshot as it is read now. *)
Lemma snapshot_now_ok s R bs bm d :
  history_ok user bs → snap_ok s R bs bm d →
  ∃ view all, snapshot_now table_iter d s = Done (view, s) ∧
    @snapshot_holds user _ _ _ (iters_laws table_iter vo) view all ∧
    sn_last_sequence view = ds_last_sequence d ∧ sn_compaction_waterline view = None ∧
    ∀ key, visible (ds_last_sequence d) key all = model_get key (ds_last_sequence d) bs.
Proof.
  intros Hh [Hv Hwl (bo & ps & rest & tab & -> & Hp & Hr & Hm & Hl & Hrest & _)].
  assert (Forall (λ p, history_ok user p) ps) as Hps by (rewrite <- (reverse_involutive ps); apply Forall_reverse; by eapply history_parts).
  destruct (memtables_ok s _ _ Hps Hm) as (ts & ess & Hmap & Hts & Hess).
  destruct (version_iters_ok table_iter vo table_iter_rep R _ _ Hv) as (its & parts & Hits & Hreps & Hparts).
  rewrite (assoc_L (++)) in Hh. destruct (history_app user _ _ Hh) as [Hh1 _].
  destruct (stacked_entries user bo _ tab Hh1 Hr) as (all & Hok & Hall).
  exists (mkSnapshot (ds_last_sequence d) (ds_compaction_waterline d) ts its), all. split_and!; [| |done|done|].
  - unfold snapshot_now, bind at 1, gets at 1. change (id s) with s. unfold bind at 1. rewrite Hmap. cbn [unwrap ret].
    unfold bind, lift_run. by rewrite Hits.
  - split; cbn [sn_last_sequence sn_memtables sn_tables]; [done| |].
    + pose proof (last_seq_nonneg user bo ltac:(by apply history_app in Hh1 as [? _])). lia.
    + exists ess, parts. split; [done|]. split; [exact Hreps|]. rewrite Hess, Hparts, Hall, <- Hp.
      apply Permutation_app_tail, fmap_Permutation. unfold writes. by rewrite concat_reverse.
  - intros key. rewrite (stacked_reads user bo _ tab all _ key Hh1 Hr Hok Hall) by lia.
    rewrite (assoc_L (++)). symmetry. by apply model_get_later.
Qed.

Lemma get_at_ok s R bs bm d key :
  history_ok user bs → snap_ok s R bs bm d → kc_key (c := user) key →
  ∃ n, ∀ fuel, (n < fuel)%nat → get_at table_iter options fuel d key s = Done (inr (model_get key (ds_last_sequence d) bs), s).
Proof.
  intros Hh Hd Hk. destruct (snapshot_now_ok s R bs bm d Hh Hd) as (view & all & Hnow & Hview & El & Ew & Hreads).
  exists (length all). intros fuel Hf. unfold get_at, bind at 1. rewrite Hnow. unfold bind, call.
  assert (snapshot_get (iters_iterable table_iter options) internal fuel key view = Done (inr (visible (sn_last_sequence view) key all), view)) as Hget.
  { apply (@snapshot_get_ok user _ _ _ _ (iters_laws table_iter vo) view all key fuel Hview); [|done|done].
    rewrite Ew. cbn. pose proof (sh_sequence _ _ _ Hview). lia. }
  change (do_comparator vo) with internal. rewrite Hget, El, Hreads. done.
Qed.

Lemma current_snap_ok s R bo bi bm :
  mem_ok s R bo bi bm →
  ∃ d, snapshot s = Done (d, s) ∧ ds_last_sequence d = last_seq (bo ++ bi ++ bm) ∧ snap_ok s R (bo ++ bi ++ bm) bm d.
Proof.
  intros [H1 H2 H3 H4 (all & Hp & Hr) H6 H7 H8 H9 H10 _]. eexists. split; [unfold snapshot, bind, gets, ret, id; reflexivity|]. split; [done|].
  split; cbn [ds_version ds_compaction_waterline ds_memtables ds_last_sequence]; [done|done|].
  exists bo, (bm :: from_option (λ _, [bi]) [] (es_immutable_table (db_state s))), [], all. unfold immutable_ok in H7.
  pose proof (last_seq_nonneg user _ H1). pose proof (last_seq_app user _ _ H1).
  split_and!; [|done|done| |lia|lia|constructor|right; split; [done|]].
  - rewrite app_nil_r, reverse_cons, concat_app. destruct (es_immutable_table (db_state s)); cbn; [by rewrite !app_nil_r|].
    destruct H7 as [-> _]. by rewrite app_nil_r.
  - constructor; [done|]. destruct (es_immutable_table (db_state s)) as [m|]; [|constructor]. cbn. constructor; [|constructor]. by apply H7.
  - eexists _, _. split_and!; [done|done|]. destruct (es_immutable_table (db_state s)) as [m|]; cbn; [|apply not_elem_of_nil].
    rewrite list_elem_of_singleton. intros E. by apply (proj1 (proj2 H7)).
Qed.

(** The reads of a database. *)
Lemma get_ok s R bo bi bm key :
  mem_ok s R bo bi bm → kc_key (c := user) key →
  ∃ n, ∀ fuel, (n < fuel)%nat →
    get table_iter options fuel key s = Done (inr (model_get key (last_seq (bo ++ bi ++ bm)) (bo ++ bi ++ bm)), s).
Proof.
  intros Hm Hk. destruct (current_snap_ok s R bo bi bm Hm) as (d & Hd & El & Hs).
  destruct (get_at_ok s R _ bm d key (ok_history _ _ _ _ _ Hm) Hs Hk) as (n & Hn). exists n. intros fuel Hf.
  unfold get, bind at 1. rewrite Hd, (Hn fuel Hf), El. done.
Qed.

(** *** Snapshots and other operations *)

(** A snapshot does not change when more files are made. *)
Lemma version_ok_extend R R' next next' v :
  version_ok vo R next v → next ≤ next' → (∀ m, m < next → R' m = R m) →
  version_ok vo R' next' v ∧ contents R' v = contents R v.
Proof.
  intros [Ht Hd] Hn HR. rewrite Forall_forall in Ht. split; [split; [|done]|].
  - apply Forall_forall. intros e He. destruct (Ht e He) as [(t & p & H) Hlt]. split; [|lia]. exists t, p. unfold rows_of in *. by rewrite (HR _ Hlt).
  - unfold contents. f_equal. apply list_fmap_ext. intros i e He%list_elem_of_lookup_2. unfold rows_of. apply HR. by apply Ht.
Qed.

Lemma snap_ok_write s R bs bm d q ws n w t :
  snap_ok s R bs bm d → memtable_holds s (es_mutable_table (db_state s)) bm →
  ds_last_sequence d ≤ es_log_last_sequence (db_state s) → es_log_last_sequence (db_state s) < assigned s q →
  table_holds_batches user t (apply_batches user (bm ++ [(assigned s q, ws)]) []) →
  snap_ok (written_state s q ws n w t) R (bs ++ [(assigned s q, ws)]) (bm ++ [(assigned s q, ws)]) d.
Proof.
  intros [Hv Hwl (bo & ps & rest & all & -> & Hp & Hr & Hm & Hl & Hrest & Hmut)] Hbm Hle Hlt Ht. split; [done|done|].
  set (b := (assigned s q, ws)) in *. set (mut := es_mutable_table (db_state s)) in *.
  assert (mut < length (db_memtables s))%nat as Hlen by (destruct Hbm as (? & ? & _); by eapply lookup_lt_Some).
  assert (memtable_holds (written_state s q ws n w t) mut (bm ++ [b])) as Hnew.
  { exists t. cbn [db_memtables written_state]. fold mut. rewrite list_lookup_insert_eq by done. split_and!; [done|done|]. by destruct bm. }
  assert (∀ ids ps, mut ∉ ids → Forall2 (memtable_holds s) ids ps → Forall2 (memtable_holds (written_state s q ws n w t)) ids ps) as Hold.
  { intros ids ps' Hn Hall. induction Hall as [|k p ids ps' (t' & Hk & ?) _ IH]; [constructor|]. apply not_elem_of_cons in Hn as [Hne Hn].
    constructor; [|by apply IH]. exists t'. cbn [db_memtables written_state]. fold mut. by rewrite list_lookup_insert_ne. }
  destruct Hmut as [Hmut|(-> & ids & ps' & Hids & -> & Hmut)].
  - exists bo, ps, (rest ++ [b]), all. split_and!; [by rewrite <- !(assoc_L (++))|done|done|by apply Hold|lia|lia| |by left].
    apply Forall_app. split; [done|]. constructor; [cbn; lia|constructor].
  - rewrite Hids in Hm |- *. apply Forall2_cons in Hm as [_ Hm]. exists bo, ((bm ++ [b]) :: ps'), [], all.
    split_and!; [|done|done|constructor; [done|by apply Hold]|lia|lia|constructor|right; split; [done|by exists ids, ps']].
    rewrite !app_nil_r, !reverse_cons, !concat_app. cbn. rewrite !app_nil_r. by rewrite <- !(assoc_L (++)).
Qed.
End Database.
