(* ===== verification/DatabaseJobs.v ===== *)
(** * The compaction thread

    The tables that [build_tables_from_iterator] writes, as the new files of
    an edit: their entries are well formed, in order and hold the entries that
    the compaction keeps. What the files of a database hold ([disk_ok]), and
    that each round of the compaction thread keeps what the memory and the
    files hold. Between the selection of a round and its commit the files are
    one edit ahead of the memory. *)

From S2P Require Import Prelude Wire Encoding Comparator SkipList SkipListProofs SkipListTheorems RecordLog RecordLogProofs RecordLogTheorems.
From S2P Require Import WriteBatch WriteBatchTheorems MergeIterator MergeIteratorTheorems Snapshot SnapshotProofs SnapshotTheorems.
From S2P Require Import Filter Table TableBuild VersionEdit VersionEditTheorems Version VersionProofs VersionRecovery VersionTheorems.
From S2P Require Import LevelIterator LevelIteratorTheorems Compaction CompactionProofs CompactionBuild CompactionTheorems VersionRows Database DatabaseReads DatabaseProofs.

(** ** New tables in a version set *)

Section Tables.
Context (o : DatabaseOptions).
Abbreviation user := (do_comparator (eo_version o)).
Abbreviation internal := (InternalKeyComparator user).
Abbreviation options := (wrap_database_options o).
Abbreviation vo := (eo_version options).
Context `{!KeyComparatorLaws user} `{!AntiSymm (=) (@kc_le user _)}.
#[local] Existing Instance vo_laws.
Context {B T I : Type} {HT : TableStore B T} {HI : Iterable I}.
Context {LT : @TableStoreLaws (do_comparator vo) (vo_laws o) B T HT}.
Implicit Types (R : Z → list KeyValueEntry) (ds : list (list KeyValueEntry * NewFileEntry)).

(** The rows by file number, with those of new files. *)
Definition with_rows R ds (m : Z) : list KeyValueEntry :=
  match list_find (λ d, nf_number d.2 = m) ds with Some (_, d) => d.1 | None => R m end.

Lemma with_rows_old R ds m : Forall (λ d, nf_number d.2 ≠ m) ds → with_rows R ds m = R m.
Proof.
  intros Hds. unfold with_rows. destruct (list_find _ ds) as [[i d]|] eqn:E; [|done]. apply list_find_Some in E as (Hi & Hd & _).
  rewrite Forall_forall in Hds. by destruct (Hds d); [eapply list_elem_of_lookup_2|].
Qed.

Lemma with_rows_new R ds d : NoDup (nf_number <$> ds.*2) → d ∈ ds → with_rows R ds (nf_number d.2) = d.1.
Proof.
  intros Hnd Hd. unfold with_rows. destruct (list_find_elem_of (λ x, nf_number x.2 = nf_number d.2) ds d Hd eq_refl) as [[i x] E].
  rewrite E. apply list_find_Some in E as (Hi & Hx & _). apply list_elem_of_lookup in Hd as [j Hj].
  assert (i = j) as ->; [|congruence]. eapply (NoDup_lookup _ _ _ (nf_number d.2) Hnd); rewrite !list_lookup_fmap; [rewrite Hi|rewrite Hj]; cbn; congruence.
Qed.

(** Rows that are cut into tables. *)
Lemma infix_rows ds d (rows : list KeyValueEntry) :
  concat ds.*1 = rows → entries_ok internal rows → d ∈ ds → entries_ok internal d.1 ∧ ∀ x, x ∈ d.1 → x ∈ rows.
Proof.
  intros <- Hok [l1 [l2 ->]]%list_elem_of_split. rewrite fmap_app, concat_app in *. cbn in *. split.
  - by eapply entries_infix.
  - intros x Hx. rewrite !elem_of_app. auto.
Qed.

Lemma spanned_bounds rows first last lo hi :
  spanned rows first last lo hi → entries_ok internal rows →
  (∃ x, x ∈ rows ∧ x.1 = first) ∧ (∃ y, y ∈ rows ∧ y.1 = last) ∧
  @kc_le internal _ first last ∧ ∀ x, x ∈ rows → @kc_le internal _ first x.1 ∧ @kc_le internal _ x.1 last.
Proof.
  intros [H1 H2 _ _ _] Hok.
  assert (Forall (λ x, @kc_le internal _ first x.1) rows) as Hf by (apply (sorted_first vo rows first); done).
  assert (Forall (λ x, @kc_le internal _ x.1 last) rows) as Hl by (apply (sorted_last vo rows last); done).
  rewrite Forall_forall in Hf, Hl. destruct (head rows) as [x|] eqn:Ex; [|done]. injection H1 as <-.
  destruct (list.last rows) as [y|] eqn:Ey; [|done]. injection H2 as <-.
  apply head_Some_elem_of in Ex as Hx. apply last_Some_elem_of in Ey as Hy. split_and!; [by exists x|by exists y|by apply Hf|auto].
Qed.

(** The files that were written from [all]. *)
Record files_written R (rd : bool) (w level n : Z) (all : list KeyValueEntry) (tables : list T) (files : gmap Z bytes)
    ds : Prop := mkFilesWritten {
  fw_tables : Forall2 (λ f t, table_ok vo (with_rows R ds) (mkLevelTableEntry (Some t) f)) ds.*2 tables;
  fw_rows : concat (file_rows (with_rows R ds) <$> ds.*2) = compacted rd w all;
  fw_agree : ∀ m, m < n → with_rows R ds m = R m;
  fw_ordered : Forall (ordered_file vo) ds.*2;
  fw_disjoint : disjoint_files vo ds.*2;
  fw_keys : Forall (λ f, (∃ x, x ∈ all ∧ x.1 = nf_smallest_key f) ∧ (∃ y, y ∈ all ∧ y.1 = nf_largest_key f)) ds.*2;
  fw_files : Forall (λ f, file_ok f ∧ file_keys vo f ∧ nf_level f = level ∧ n ≤ nf_number f < n + Z.of_nat (length ds)) ds.*2;
  fw_sorted : StronglySorted (λ f g, nf_number f < nf_number g) ds.*2;
  fw_contents : Forall (λ f, ∃ file t p, files !! nf_number f = Some file ∧ ts_read file = Done (inr t) ∧
    ts_rows t (file_rows (with_rows R ds) f) p) ds.*2;
}.

Lemma segments_disjoint (fs : list NewFileEntry) : ∀ (rs : list (list KeyValueEntry)),
  entries_ok internal (concat rs) →
  Forall2 (λ rows f, (∃ x, x ∈ rows ∧ x.1 = nf_smallest_key f) ∧ (∃ y, y ∈ rows ∧ y.1 = nf_largest_key f)) rs fs →
  disjoint_files vo fs.
Proof.
  intros rs [_ Hs] Hf. revert Hs. induction Hf as [|rows f rs fs [_ (y & Hy & Ey)] Hf IH]; intros Hs; [constructor|].
  cbn [concat] in Hs. constructor; [apply IH; by eapply StronglySorted_app_1_r|]. apply Forall_forall. intros g [i Hg]%list_elem_of_lookup.
  destruct (Forall2_lookup_r _ _ _ _ _ Hf Hg) as (rows' & Hr & (x & Hx & Ex) & _). rewrite <- Ey, <- Ex.
  apply (StronglySorted_app_1_elem_of _ _ _ y x Hs Hy). apply list_elem_of_In, in_concat. exists rows'.
  split; apply list_elem_of_In; [by eapply list_elem_of_lookup_2|done].
Qed.

Lemma numbers_sorted (fs : list NewFileEntry) n : nf_number <$> fs = seqZ n (Z.of_nat (length fs)) → StronglySorted (λ f g, nf_number f < nf_number g) fs.
Proof.
  revert n. induction fs as [|f fs IH]; intros n Hn; [constructor|]. cbn [length] in Hn. rewrite seqZ_cons in Hn by lia.
  rewrite fmap_cons in Hn. injection Hn as Hf Hn. rewrite Nat2Z.inj_succ, Z.pred_succ in Hn. constructor; [by apply (IH (Z.succ n))|].
  apply Forall_forall. intros g Hg%(list_elem_of_fmap_2 nf_number). rewrite Hn in Hg. apply elem_of_seqZ in Hg. lia.
Qed.

(** One of the tables: its rows are a part of those that are kept. *)
Lemma written_file (level : Z) (files : gmap Z bytes) (d : list KeyValueEntry * NewFileEntry) :
  table_written user level files d.1 d.2 → entries_ok internal d.1 → Z.of_nat (weight d.1) < 2 ^ 31 →
  Forall (λ e, 0 ≤ ik_seq e.1 ≤ MAX_SEQUENCE) d.1 → u64 (nf_number d.2) → 0 ≤ level < 2 ^ 32 →
  file_ok d.2 ∧ file_keys vo d.2 ∧ nf_level d.2 = level ∧ ordered_file vo d.2 ∧
  (∃ x, x ∈ d.1 ∧ x.1 = nf_smallest_key d.2) ∧ (∃ y, y ∈ d.1 ∧ y.1 = nf_largest_key d.2) ∧
  fst <$> head d.1 = Some (nf_smallest_key d.2) ∧ fst <$> list.last d.1 = Some (nf_largest_key d.2) ∧
  ∃ file t p, files !! nf_number d.2 = Some file ∧ ts_read file = Done (inr t) ∧ ts_rows t d.1 p.
Proof.
  intros Hw Hok Hwt Hs Hn Hl. pose proof (written_typed user level files d.1 d.2 Hw Hn Hl Hwt Hs) as Hf.
  destruct Hw as (lo & hi & file & t & p & H1 & _ & H3 & H4 & _ & _ & H5 & H6 & _).
  destruct (spanned_bounds _ _ _ _ _ H3 Hok) as (B1 & B2 & B3 & _). pose proof Hok as [Hk _]. rewrite Forall_forall in Hk.
  assert (file_keys vo d.2) as Hkeys.
  { destruct B1 as (x & Hx & Ex), B2 as (y & Hy & Ey). unfold file_keys. rewrite <- Ex, <- Ey. split; apply Hk; done. }
  do 6 (split; [done|]). split; [apply H3|]. split; [apply H3|]. by exists file, t, p.
Qed.

(** All of them. *)
Lemma files_written_intro R (rd : bool) (w level n : Z) (all : list KeyValueEntry) (tables : list T) (files : gmap Z bytes) ds :
  concat ds.*1 = compacted rd w all → entries_ok internal (compacted rd w all) →
  (∀ d, d ∈ ds → entries_ok internal d.1 ∧ ∀ x, x ∈ d.1 → x ∈ all) →
  nf_number <$> ds.*2 = seqZ n (Z.of_nat (length ds)) → (∀ d, d ∈ ds → n ≤ nf_number d.2 < n + Z.of_nat (length ds)) →
  Forall2 (λ t d, ∃ p, ts_rows t d.1 p ∧ counted d.1 p) tables ds →
  Forall (λ d, file_ok d.2 ∧ file_keys vo d.2 ∧ nf_level d.2 = level ∧ ordered_file vo d.2 ∧
    (∃ x, x ∈ d.1 ∧ x.1 = nf_smallest_key d.2) ∧ (∃ y, y ∈ d.1 ∧ y.1 = nf_largest_key d.2) ∧
    fst <$> head d.1 = Some (nf_smallest_key d.2) ∧ fst <$> list.last d.1 = Some (nf_largest_key d.2) ∧
    ∃ file t p, files !! nf_number d.2 = Some file ∧ ts_read file = Done (inr t) ∧ ts_rows t d.1 p) ds →
  files_written R rd w level n all tables files ds.
Proof.
  intros Hrows Hok Hinf Hns Hnums Htab Hds.
  assert (NoDup (nf_number <$> ds.*2)) as Hnd by (rewrite Hns; apply NoDup_seqZ).
  assert (∀ d, d ∈ ds → file_rows (with_rows R ds) d.2 = d.1) as Hr by (intros d; by apply with_rows_new).
  assert (file_rows (with_rows R ds) <$> ds.*2 = ds.*1) as Er.
  { rewrite <- list_fmap_compose. apply list_fmap_ext. intros i d Hd%list_elem_of_lookup_2. by apply Hr. }
  assert (∀ P : NewFileEntry → Prop, (∀ d, d ∈ ds → P d.2) → Forall P ds.*2) as Hall by (intros P HP; apply Forall_fmap, Forall_forall; exact HP).
  rewrite Forall_forall in Hds. split.
  - apply Forall2_fmap_l, Forall2_same_length_lookup_2; [by rewrite (Forall2_length _ _ _ Htab)|]. intros i d t Hi Ht.
    destruct (Forall2_lookup_lr _ _ _ _ _ _ Htab Ht Hi) as (p & Hp & _). apply list_elem_of_lookup_2 in Hi as Hd.
    unfold table_ok, rows_of. cbn [lt_entry lt_table]. exists t, p. change (with_rows R ds (nf_number d.2)) with (file_rows (with_rows R ds) d.2).
    rewrite (Hr d Hd). destruct (Hds d Hd) as (_ & _ & _ & _ & _ & _ & ? & ? & _). by destruct (Hinf d Hd).
  - by rewrite Er.
  - intros m Hm. apply with_rows_old, Forall_forall. intros d Hd. specialize (Hnums d Hd). lia.
  - apply Hall. intros d Hd. apply (Hds d Hd).
  - apply (segments_disjoint _ ds.*1); [by rewrite Hrows|]. apply Forall2_fmap, Forall_Forall2_diag, Forall_forall. intros d Hd. split; apply (Hds d Hd).
  - apply Hall. intros d Hd. destruct (Hds d Hd) as (_ & _ & _ & _ & (x & Hx & ?) & (y & Hy & ?) & _). destruct (Hinf d Hd) as [_ Hin].
    split; [exists x|exists y]; auto.
  - apply Hall. intros d Hd. destruct (Hds d Hd) as (? & ? & ? & _). split_and!; try done; by apply Hnums.
  - apply (numbers_sorted _ n). by rewrite length_fmap.
  - apply Hall. intros d Hd. rewrite (Hr d Hd). apply (Hds d Hd).
Qed.

Lemma build_written R (i : I) (LI : @IterableLaws internal _ I HI) (full all : list KeyValueEntry) (rd : bool) (waterline : option Z)
    (level target n : Z) (edit : VersionEdit) (files : gmap Z bytes) (fuel : nat) :
  let w := default U64_MAX waterline in
  it_rep internal i full all → entries_ok internal all → Forall (λ e, 0 ≤ ik_seq e.1 ≤ MAX_SEQUENCE) all →
  ts_fit (compacted rd w all) → 0 < n → n + Z.of_nat (length all) < U64_MAX → (length all < fuel)%nat → 0 ≤ level < 2 ^ 32 →
  ve_new_files edit = [] → ve_next_file_number edit = Some n → (∀ m, n ≤ m → files !! m = None) →
  ∃ ds tables bt, build_tables_from_iterator fuel rd target level waterline (bt_start i edit files) = Done (inr tables, bt) ∧
    bt_version_edit bt = built_edit edit ds.*2 (n + Z.of_nat (length ds)) ∧
    files_written R rd w level n all tables (bt_files bt) ds ∧ (length ds ≤ length all)%nat ∧
    (∀ m, m < n → bt_files bt !! m = files !! m) ∧ (∀ m, n + Z.of_nat (length ds) ≤ m → bt_files bt !! m = None).
Proof.
  intros w Hit Hok Hseq Hfit Hn Hnum Hf Hlev Hnew Hnext Hfresh.
  destruct (@build_tables_ok user _ _ B T I HT LT HI LI rd w level target edit files n fuel i full all waterline Hit eq_refl
    (mkInputOk user rd w n all Hok Hseq Hfit Hnum) Hf Hnew Hnext Hfresh) as (ds & tables & bt & Hrun & [Hrows Htab [F1 F2 F3 F4 F5]]).
  rewrite !Z.add_0_r in *.
  assert (entries_ok internal (compacted rd w all)) as Hcok by (by apply entries_filter).
  assert (∀ x, x ∈ compacted rd w all → x ∈ all) as Hsub by (intros x; unfold compacted; rewrite list_elem_of_filter; tauto).
  assert (NoDup (nf_number <$> ds.*2)) as Hnd by (rewrite F2; apply NoDup_seqZ).
  assert (∀ d, d ∈ ds → n ≤ nf_number d.2 < n + Z.of_nat (length ds)) as Hnums.
  { intros d Hd. apply (list_elem_of_fmap_2 snd), (list_elem_of_fmap_2 nf_number) in Hd. rewrite F2 in Hd. apply elem_of_seqZ in Hd. lia. }
  assert (length ds ≤ length all)%nat as Hlen.
  { transitivity (length (compacted rd w all)); [|apply length_filter]. rewrite <- Hrows. clear -F3.
    induction ds as [|d ds IH]; [done|]. apply Forall_cons in F3 as [[Hd _] F3]. cbn. rewrite length_app.
    specialize (IH F3). destruct d.1; [done|]. cbn. lia. }
  assert (∀ d, d ∈ ds → entries_ok internal d.1 ∧ ∀ x, x ∈ d.1 → x ∈ all) as Hinf.
  { intros d Hd. destruct (infix_rows ds d _ Hrows Hcok Hd) as [? Hin]. split; [done|]. intros x Hx. by apply Hsub, Hin. }
  assert (∀ d, d ∈ ds → Z.of_nat (weight d.1) < 2 ^ 31) as Hwt.
  { intros d [l1 [l2 E]]%list_elem_of_split. apply ts_fit_weight, (ts_fit_infix (concat l1.*1) _ (concat l2.*1)).
    rewrite <- Hrows, E, fmap_app, concat_app in Hfit. exact Hfit. }
  rewrite Forall_forall in F3. rewrite Forall_forall in Hseq.
  assert (∀ d, d ∈ ds → u64 (nf_number d.2)) as Hu by (intros d Hd; specialize (Hnums d Hd); unfold u64, U64_MAX, U64 in *; lia).
  exists ds, tables, bt. split; [exact Hrun|]. split; [exact F1|]. split; [|done].
  eapply files_written_intro; try done. apply Forall_forall. intros d Hd. destruct (Hinf d Hd) as [Hdok Hin].
  apply written_file; [exact (proj2 (F3 d Hd))|done|by apply Hwt| |by apply Hu|done].
  apply Forall_forall. intros x Hx. by apply Hseq, Hin.
Qed.
End Tables.

Section Database.
Context (o : DatabaseOptions).
Abbreviation user := (do_comparator (eo_version o)).
Abbreviation internal := (InternalKeyComparator user).
Abbreviation options := (wrap_database_options o).
Abbreviation vo := (eo_version options).
Context `{!KeyComparatorLaws user} `{!AntiSymm (=) (@kc_le user _)}.
#[local] Existing Instance vo_laws.
Context {B T J : Type} {HT : TableStore B T} (table_iter : T → J) {HJ : Iterable J}.
Context {LT : @TableStoreLaws (do_comparator vo) (vo_laws o) B T HT} {LJ : @IterableLaws (do_comparator vo) (vo_laws o) J HJ}.
Hypothesis table_iter_rep : ∀ t rows p, ts_rows t rows p → entries_ok (do_comparator vo) rows → it_rep (do_comparator vo) (table_iter t) rows rows.
Context (table_properties : T → TableProperties) (rngs : nat → nat → Z).
Implicit Types (s : EmbeddedDB (T := T)) (R : Z → list KeyValueEntry) (bo bi bm : list Batch) (vs vd : VersionSet T).
Abbreviation version_set s := (es_version_set (db_state s)).
Abbreviation mem_ok := (mem_ok o).
Abbreviation Job := (Job (T := T)).

(** ** Files *)

Definition log_file (d : Directory) (n : Z) (bs : list Batch) : Prop :=
  ∃ w, log_of (batch_record <$> bs) w ∧ dir_logs d !! n = Some (rw_file w).

Definition table_file (d : Directory) R (f : NewFileEntry) : Prop :=
  ∃ file t p, dir_tables d !! nf_number f = Some file ∧ ts_read file = Done (inr t) ∧ ts_rows t (file_rows R f) p.

(** A manifest whose edits lead to a version set, whatever tables it has
    open. *)
Definition manifest_of vd (w : RecordWriter) : Prop :=
  ∃ (first vs : VersionSet T) es ds, state_ok vo first ∧ after vo first es vs ∧ same_set vs vd ∧ Forall2 record_of ds (manifest_edits vo first es) ∧ log_of ds w.

(** The files of a version set with its logs. *)
Record disk_ok s vd R bi bm : Prop := mkDiskOk {
  dk_current : dir_current (db_dir s) = Some (db_manifest s).1;
  dk_manifest_file : dir_manifests (db_dir s) !! (db_manifest s).1 = Some (rw_file (db_manifest s).2);
  dk_manifest : manifest_of vd (db_manifest s).2;
  dk_tables : Forall (table_file (db_dir s) R) (lt_entry <$> entries_of (vs_latest_version vd));
  dk_prev : match vs_prev_log_number vd with None => bi = [] | Some p => bi ≠ [] ∧ log_file (db_dir s) p bi end;
  dk_log : ∃ n, vs_log_number vd = Some n ∧ log_file (db_dir s) n bm ∧ vs_prev_log_number vd ≠ Some n;
  dk_fresh : ∀ m, vs_next_file_number vd ≤ m →
    dir_tables (db_dir s) !! m = None ∧ dir_logs (db_dir s) !! m = None ∧ dir_manifests (db_dir s) !! m = None;
}.

(** A version set that comes after another one and stands for batches. *)
Record installed vs R vd R' bo : Prop := mkInstalled {
  in_set : state_ok vo vd;
  in_version : version_ok vo R' (vs_next_file_number vd) (vs_latest_version vd);
  in_rows : ∃ all, all ≡ₚ contents R' (vs_latest_version vd) ∧ represents user all bo;
  in_next : vs_next_file_number vs ≤ vs_next_file_number vd;
  in_agree : ∀ m, m < vs_next_file_number vs → R' m = R m;
  in_flushed : vs_last_sequence vd = last_seq bo;
  in_waterline : vs_compaction_waterline vd = None;
}.

(** What is left to do under the lock, with the version set, the rows and
    the batches after it. *)
Inductive job_ok s R bo bi bm : option Job → VersionSet T → (Z → list KeyValueEntry) → list Batch → list Batch → list Batch → Prop :=
| job_none : job_ok s R bo bi bm None (version_set s) R bo bi bm
| job_switch : job_ok s R bo bi bm (Some SwitchManifest) (version_set s) R bo bi bm
| job_swap edit n vd :
  es_immutable_table (db_state s) = None → bm ≠ [] →
  apply_new_edit vo edit [] (version_set s) = Done (tt, vd) → installed (version_set s) R vd R bo →
  vs_log_number vd = Some n → vs_prev_log_number vd = vs_log_number (version_set s) →
  job_ok s R bo bi bm (Some (SwapMemtable edit (Some (n, RecordWriter_new)))) vd R bo bm []
| job_flush edit tables vd R' :
  is_Some (es_immutable_table (db_state s)) →
  apply_new_edit vo edit tables (version_set s) = Done (tt, vd) → installed (version_set s) R vd R' (bo ++ bi) →
  vs_log_number vd = vs_log_number (version_set s) → vs_prev_log_number vd = None →
  job_ok s R bo bi bm (Some (FlushMemtable edit tables)) vd R' (bo ++ bi) [] bm
| job_compact edit tables vd R' :
  es_immutable_table (db_state s) = None →
  apply_new_edit vo edit tables (version_set s) = Done (tt, vd) → installed (version_set s) R vd R' bo →
  vs_log_number vd = vs_log_number (version_set s) → vs_prev_log_number vd = vs_prev_log_number (version_set s) →
  job_ok s R bo bi bm (Some (CompactTables edit tables)) vd R' bo bi bm.

(** ** Committing *)

Lemma on_version_set_ok {A} (m : M (VersionSet T) A) s a vd :
  m (version_set s) = Done (a, vd) →
  on_version_set m s = Done (a, mkEmbeddedDB (es_set_version_set vd (db_state s)) (db_next_compaction_waterline s) (db_memtables s) (db_manifest s) (db_dir s)).
Proof. intros Hm. unfold on_version_set, bind at 1, gets at 1. change (id s) with s. unfold bind, call. by rewrite Hm. Qed.

(** The state after a flush or a compaction. *)
Definition installed_state s vd (im : option ImmutableTable) : EmbeddedDB (T := T) :=
  mkEmbeddedDB (es_set_version_set vd (es_set_immutable im (db_state s))) (db_next_compaction_waterline s)
    (db_memtables s) (db_manifest s) (db_dir s).

Lemma commit_flush_ok s R bo bi bm edit tables vd R' :
  mem_ok s R bo bi bm → apply_new_edit vo edit tables (version_set s) = Done (tt, vd) →
  installed (version_set s) R vd R' (bo ++ bi) → vs_log_number vd = vs_log_number (version_set s) → vs_prev_log_number vd = None →
  commit_job options rngs (FlushMemtable edit tables) s = Done (inr tt, installed_state s vd None) ∧
  mem_ok (installed_state s vd None) R' (bo ++ bi) [] bm.
Proof.
  intros [H1 H2 H3 H4 H5 H6 H7 H8 H9 H10 H11] Happ [I1 I2 I3 I4 I5 I6 I7] Hlog Hprev. split.
  - cbn [commit_job]. unfold bind at 1, on_state, modify at 1. unfold bind at 1.
    by rewrite (on_version_set_ok _ _ tt vd) by exact Happ.
  - split; cbn [installed_state db_state es_set_version_set es_set_immutable es_version_set es_log_last_sequence es_mutable_table es_log app];
      [by rewrite <- (assoc_L (++))|by rewrite <- (assoc_L (++))|done|done|done|done|done|by rewrite <- (assoc_L (++))|done|done|].
    by rewrite Hlog.
Qed.

Lemma commit_compact_ok s R bo bi bm edit tables vd R' :
  mem_ok s R bo bi bm → es_immutable_table (db_state s) = None → apply_new_edit vo edit tables (version_set s) = Done (tt, vd) →
  installed (version_set s) R vd R' bo → vs_log_number vd = vs_log_number (version_set s) →
  vs_prev_log_number vd = vs_prev_log_number (version_set s) →
  commit_job options rngs (CompactTables edit tables) s = Done (inr tt, installed_state s vd None) ∧
  mem_ok (installed_state s vd None) R' bo bi bm.
Proof.
  intros [H1 H2 H3 H4 H5 H6 H7 H8 H9 H10 H11] Him Happ [I1 I2 I3 I4 I5 I6 I7] Hlog Hprev.
  unfold immutable_ok in H7. rewrite Him in H7. split.
  - cbn [commit_job]. unfold bind at 1. rewrite (on_version_set_ok _ _ tt vd) by exact Happ. unfold installed_state.
    destruct (db_state s) as [? ? ? im ?]. cbn in Him |- *. by subst im.
  - split; cbn [installed_state db_state es_set_version_set es_set_immutable es_version_set es_log_last_sequence es_mutable_table es_log];
      [done..| |done|done|done|by rewrite Hlog].
    unfold immutable_ok. cbn. by rewrite Hprev.
Qed.

(** The state after the memtables are swapped. *)
Definition swapped_state s vd (log : option (Z * RecordWriter)) : EmbeddedDB (T := T) :=
  let st := db_state s in
  let n := length (db_memtables s) in
  mkEmbeddedDB
    (mkEmbeddedDBState log (es_log_last_sequence st) n (Some (mkImmutableTable (es_mutable_table st) (es_log_last_sequence st))) vd)
    (db_next_compaction_waterline s) (db_memtables s ++ [MemTable_new (rngs n)]) (db_manifest s) (db_dir s).

Lemma memtable_holds_app s s' n bs :
  (∃ l, db_memtables s' = db_memtables s ++ l) → memtable_holds o s n bs → memtable_holds o s' n bs.
Proof. intros [l Hl] (t & Ht & ?). exists t. split; [|done]. rewrite Hl. by apply lookup_app_l_Some. Qed.

Lemma commit_swap_ok s R bo bi bm edit n vd :
  options_default o → mem_ok s R bo bi bm → es_immutable_table (db_state s) = None → bm ≠ [] →
  apply_new_edit vo edit [] (version_set s) = Done (tt, vd) → installed (version_set s) R vd R bo →
  vs_log_number vd = Some n → vs_prev_log_number vd = vs_log_number (version_set s) →
  commit_job options rngs (SwapMemtable edit (Some (n, RecordWriter_new))) s =
    Done (inr tt, swapped_state s vd (Some (n, RecordWriter_new))) ∧
  mem_ok (swapped_state s vd (Some (n, RecordWriter_new))) R bo bm [].
Proof.
  intros Hd [H1 H2 H3 H4 H5 H6 H7 H8 H9 H10 (n0 & w0 & L1 & L2 & L3)] Him Hbm Happ [I1 I2 I3 I4 I5 I6 I7] Hlog Hprev.
  unfold immutable_ok in H7. rewrite Him in H7. destruct H7 as [-> _]. cbn [app] in *. split.
  - cbn [commit_job]. unfold bind at 1, new_memtable at 1, bind at 1, gets at 1. change (id s) with s.
    unfold bind at 1, set_memtables at 1, modify at 1, ret at 1. unfold bind at 1, gets at 1. cbn [id db_state].
    unfold bind at 1, on_state at 1, modify at 1. unfold bind at 1, on_state at 1, modify at 1.
    change (eo_disable_wal options) with (eo_disable_wal o). rewrite (od_wal _ Hd). unfold bind at 1.
    rewrite (on_version_set_ok _ _ tt vd) by exact Happ. done.
  - assert (es_mutable_table (db_state s) < length (db_memtables s))%nat as Hlt by (destruct H6 as (? & ? & _); by eapply lookup_lt_Some).
    split; cbn [swapped_state db_state es_version_set es_log_last_sequence es_mutable_table es_log app];
      [by rewrite app_nil_r|by rewrite app_nil_r|done|done|done| | |by rewrite app_nil_r|done|done|].
    + exists (MemTable_new (rngs (length (db_memtables s)))). cbn [db_memtables swapped_state].
      split_and!; [by rewrite list_lookup_middle|apply WriteBatchTheorems.holds_new|done].
    + unfold immutable_ok. cbn [swapped_state db_state es_immutable_table es_mutable_table es_version_set im_table im_last_sequence].
      split_and!; [done|lia|by rewrite H8| |by rewrite Hprev, L2].
      eapply memtable_holds_app; [|exact H6]. by eexists.
    + eexists _, _. split_and!; [done|done|]. apply log_of_new.
Qed.

(** *** A new manifest *)

Lemma installed_same vs R vd bo :
  vs_latest_version vd = vs_latest_version vs → vs_last_sequence vd = vs_last_sequence vs → state_ok vo vd →
  vs_next_file_number vs ≤ vs_next_file_number vd → vs_compaction_waterline vd = None →
  version_ok vo R (vs_next_file_number vs) (vs_latest_version vs) → (∃ all, all ≡ₚ contents R (vs_latest_version vs) ∧ represents user all bo) →
  vs_last_sequence vs = last_seq bo → installed vs R vd R bo.
Proof.
  intros Ev Es Hs Hn Hw Hv Hr Hl. split; [done| |by rewrite Ev|done|done|by rewrite Es|done]. rewrite Ev.
  by apply (version_ok_extend o R R (vs_next_file_number vs)).
Qed.

(** An edit without files. *)
Lemma numbers_edit_valid vs ed :
  state_ok vo vs → ve_comparator ed = None → ve_new_files ed = [] → ve_deleted_files ed = [] → ve_last_sequence ed = None →
  ve_compaction_waterline ed = None → vs_next_file_number vs ≤ next_of ed vs < 2 ^ 64 →
  (∀ n, ve_log_number ed = Some n → vs_next_file_number vs ≤ n < next_of ed vs) → opt_u64 (ve_prev_log_number ed) →
  edit_valid vo vs ed ∧ apply_new_edit vo ed [] vs = Done (tt, edited ed vs (vs_latest_version vs)) ∧
  state_ok vo (edited ed vs (vs_latest_version vs)).
Proof.
  intros Hs E1 E2 E3 E4 E5 Hn Hlog Hprev.
  assert (edit_valid vo vs ed) as He.
  { split; rewrite ?E2, ?E3, ?E4, ?E5; [done|done|done|done|done|done|constructor| |split; constructor|constructor].
    intros d Hd. by apply elem_of_nil in Hd. }
  split; [done|]. destruct (apply_state_ok vo vs ed [] Hs He ltac:(by rewrite E2)) as (v & Hrun & _ & Hs').
  enough (v = vs_latest_version vs) as -> by done. revert Hrun. unfold apply_new_edit. unfold bind at 1, gets at 1, id at 1.
  unfold assert at 1. destruct (_ <=? _); [|done]. unfold bind at 1, ret at 1. unfold assert at 1. destruct (_ <=? _); [|done].
  unfold bind at 1, ret at 1. unfold bind at 1, modify at 1. rewrite E2, E3. unfold bind, ret. cbn. by intros [= ->].
Qed.

(** The state after a switch to a new manifest. *)
Definition switched_state s vd (n : Z) (w : RecordWriter) : EmbeddedDB (T := T) :=
  mkEmbeddedDB (es_set_version_set vd (db_state s)) (db_next_compaction_waterline s) (db_memtables s) (n, w)
    (mkDirectory (dir_tables (db_dir s)) (dir_logs (db_dir s))
      (delete (db_manifest s).1 (<[n := rw_file w]> (<[n := []]> (dir_manifests (db_dir s))))) (Some n)).

Lemma switch_manifest_ok s R bo bi bm :
  name_ok vo → mem_ok s R bo bi bm → disk_ok s (version_set s) R bi bm →
  vs_next_file_number (version_set s) + 1 < U64_MAX →
  ∃ vd n w, switch_manifest options s = Done (inr tt, switched_state s vd n w) ∧
    mem_ok (switched_state s vd n w) R bo bi bm ∧ disk_ok (switched_state s vd n w) vd R bi bm ∧
    vs_next_file_number (version_set s) ≤ vs_next_file_number vd.
Proof.
  intros Hname [H1 H2 H3 H4 H5 H6 H7 H8 H9 H10 H11] [D1 D2 D3 D4 D5 D6 D7] Hnext.
  set (vs := version_set s) in *. set (n := vs_next_file_number vs) in *. unfold U64_MAX, U64 in Hnext.
  set (ed := set_next_file_number (n + 1) VersionEdit_default).
  pose proof (so_next _ _ _ H3) as Hn2. fold n in Hn2.
  destruct (numbers_edit_valid vs ed) as (He & Hrun & Hs'); [done..|cbn; fold n; lia|done|done|].
  set (vd := edited ed vs (vs_latest_version vs)) in *.
  destruct (first_encoded vo vd Hname Hs') as [Hok Hnd]. destruct (edit_roundtrip _ Hok Hnd) as (out & Hout & _).
  destruct (log_of_append [] _ out log_of_new) as (w & Hw & Hlog).
  destruct (D7 n) as (F1 & F2 & F3); [done|].
  assert ((db_manifest s).1 ≠ n) as Hne by congruence.
  exists vd, n, w. split_and!.
  - unfold switch_manifest, bind at 1, gets at 1. change (id s) with s. fold vs n. unfold bind at 1, u64_add.
    rewrite (proj2 (Z.leb_le _ _)) by (unfold U64_MAX, U64; lia). unfold ret at 1. fold ed. unfold bind at 1.
    rewrite (on_version_set_ok _ _ tt vd) by exact Hrun. unfold try_bind at 1, bind at 1, create_manifest at 1, bind at 1, gets at 1.
    cbn [id db_dir]. rewrite F3, bool_decide_eq_false_2 by (by intros []). unfold bind at 1, on_dir at 1, modify at 1, ret at 1.
    unfold bind at 1, gets at 1. cbn [id db_state es_version_set es_set_version_set]. unfold bind at 1, call at 1.
    unfold write_to_new, try_bind at 1, bind at 1, ret at 1. rewrite Hout. unfold bind at 1. rewrite Hw. unfold ret at 1.
    unfold try_bind at 1, bind at 1, ret at 1. unfold bind at 1, on_dir at 1, modify at 1. unfold bind at 1, on_dir at 1, modify at 1.
    unfold bind at 1, gets at 1. cbn [id db_manifest]. unfold bind at 1, set_manifest at 1, modify at 1.
    unfold remove_manifest, bind at 1, gets at 1. cbn [id db_dir dir_manifests set_current set_dir_manifests].
    rewrite bool_decide_eq_true_2; [|rewrite !lookup_insert_ne, D2 by done; by eexists]. done.
  - assert (version_ok vo R (vs_next_file_number vd) (vs_latest_version vd)) as Hv'
      by (apply (version_ok_extend o R R n); [done|cbn; fold n; lia|done]).
    split; cbn [switched_state db_state es_version_set es_set_version_set es_log_last_sequence es_mutable_table es_log]; done.
  - split; cbn [switched_state db_dir db_manifest dir_current dir_manifests dir_tables dir_logs fst snd]; [done| | |done|done|done|].
    + by rewrite lookup_delete_ne, lookup_insert_eq by done.
    + exists vd, vd, [], [out]. split; [done|]. split; [constructor|]. split; [by split_and!|]. split; [by constructor|done].
    + intros m Hm. cbn in Hm. fold n in Hm. destruct (D7 m ltac:(fold n; lia)) as (G1 & G2 & G3). split_and!; [done|done|].
      apply lookup_delete_None. right. rewrite !lookup_insert_ne by lia. done.
  - cbn. fold n. lia.
Qed.

(** ** Selecting *)

(** The state after a record of the manifest. *)
Definition manifest_state s (w : RecordWriter) : EmbeddedDB (T := T) :=
  mkEmbeddedDB (db_state s) (db_next_compaction_waterline s) (db_memtables s) ((db_manifest s).1, w)
    (set_dir_manifests <[(db_manifest s).1 := rw_file w]> (db_dir s)).

Lemma after_snoc vs es vs' e ts vd :
  after vo vs es vs' → edit_valid vo vs' e → length ts = length (ve_new_files e) → apply_new_edit vo e ts vs' = Done (tt, vd) →
  after vo vs (es ++ [(e, ts)]) vd.
Proof.
  intros Haft He Hl Hrun. induction Haft as [vs|vs e0 ts0 es s1 vs' H1 H2 H3 _ IH]; cbn; econstructor; [done..|constructor|done|done|done|].
  by apply IH.
Qed.

Lemma same_set_valid vs vs' e : same_set vs vs' → edit_valid vo vs' e → edit_valid vo vs e.
Proof.
  intros (S1 & S2 & S3 & S4 & S5 & S6) [E1 E2 E3 E4 E5 E6 E7 E8 E9 E10]. unfold edit_valid.
  assert (next_of e vs = next_of e vs') as En by (unfold next_of; by rewrite S2).
  split; rewrite ?En, ?S2, ?S5; try done. intros d Hd. destruct (E8 d Hd) as (H1 & f & Hf & H2). split; [done|]. exists f. by rewrite S1.
Qed.

Lemma same_set_apply vs vs' e ts vd :
  same_set vs vs' → state_ok vo vs → state_ok vo vs' → edit_valid vo vs' e → length ts = length (ve_new_files e) →
  apply_new_edit vo e ts vs' = Done (tt, vd) → ∃ vd0, apply_new_edit vo e ts vs = Done (tt, vd0) ∧ same_set vd0 vd.
Proof.
  intros Hss Hs Hs' He Hl Hrun. pose proof Hss as (S1 & S2 & S3 & S4 & S5 & S6). pose proof (same_set_valid _ _ _ Hss He) as He0.
  destruct (apply_state_ok vo vs e ts Hs He0 Hl) as (v0 & Hrun0 & Hv0 & _).
  destruct (apply_state_ok vo vs' e ts Hs' He Hl) as (v & Hrun' & Hv & _). rewrite Hrun in Hrun'. injection Hrun' as ->.
  exists (edited e vs v0). split; [done|]. split_and!; cbn; [|unfold next_of; by rewrite S2|by rewrite S3|by rewrite S4|by rewrite S5|by rewrite S6].
  intros n. rewrite (ho_files _ _ _ Hv0), (ho_files _ _ _ Hv). destruct (removes_same (ve_deleted_files e) _ _ S1) as [H1 _].
  unfold abs_edit. by apply (inserts_same vo (T := T)).
Qed.

Lemma write_edit_ok s vs edit ts vd :
  manifest_of vs (db_manifest s).2 → state_ok vo vs → edit_valid vo vs edit → length ts = length (ve_new_files edit) →
  apply_new_edit vo edit ts vs = Done (tt, vd) →
  ∃ w, write_edit edit s = Done (inr tt, manifest_state s w) ∧ manifest_of vd w.
Proof.
  intros (first & vs0 & es & ds & M1 & M2 & M3 & M4 & M5) Hs He Hl Hrun.
  destruct (edit_valid_encoded vo vs edit Hs He) as [Hok Hnd]. destruct (edit_roundtrip edit Hok Hnd) as (out & Hout & _).
  destruct (log_of_append ds _ out M5) as (w & Hw & Hlog). exists w. split.
  - unfold write_edit, try_bind at 1, bind at 1, ret at 1. rewrite Hout. unfold bind at 1, gets at 1. change (id s) with s.
    unfold manifest_state. destruct (db_manifest s) as [n m]. cbn [fst snd] in *. unfold bind at 1, call at 1. by rewrite Hw.
  - destruct (after_encoded vo first vs0 es M1 M2) as [_ Hs0].
    destruct (same_set_apply vs0 vs edit ts vd M3 Hs0 Hs He Hl Hrun) as (vd0 & Hrun0 & Hsame).
    exists first, vd0, (es ++ [(edit, ts)]), (ds ++ [out]). split; [done|]. split; [eapply after_snoc; [done|by apply (same_set_valid vs0 vs)|done|done]|].
    split; [done|]. split; [|done]. unfold manifest_edits in *. rewrite fmap_app. rewrite app_comm_cons. apply Forall2_app; [done|]. by constructor.
Qed.

(** The files after a record of the manifest, for another version set. *)
Lemma disk_ok_manifest s file w vd R' bi' bm' :
  dir_current (db_dir s) = Some (db_manifest s).1 → dir_manifests (db_dir s) !! (db_manifest s).1 = Some file → manifest_of vd w →
  Forall (table_file (db_dir s) R') (lt_entry <$> entries_of (vs_latest_version vd)) →
  match vs_prev_log_number vd with None => bi' = [] | Some p => bi' ≠ [] ∧ log_file (db_dir s) p bi' end →
  (∃ n, vs_log_number vd = Some n ∧ log_file (db_dir s) n bm' ∧ vs_prev_log_number vd ≠ Some n) →
  (∀ m, vs_next_file_number vd ≤ m → dir_tables (db_dir s) !! m = None ∧ dir_logs (db_dir s) !! m = None ∧ dir_manifests (db_dir s) !! m = None) →
  disk_ok (manifest_state s w) vd R' bi' bm'.
Proof.
  intros D1 D2 Hw Ht Hp Hl Hf. split; cbn [manifest_state db_dir db_manifest dir_current dir_manifests set_dir_manifests fst snd dir_tables dir_logs]; try done.
  - by rewrite lookup_insert_eq.
  - intros m Hm. destruct (Hf m Hm) as (F1 & F2 & F3). split_and!; [done|done|]. apply lookup_insert_None. split; [done|].
    congruence.
Qed.

(** The invariants of the memory do not depend on the files. *)
Lemma mem_ok_same s s' R bo bi bm :
  db_state s' = db_state s → db_memtables s' = db_memtables s → mem_ok s R bo bi bm → mem_ok s' R bo bi bm.
Proof.
  intros E1 E2 [H1 H2 H3 H4 H5 H6 H7 H8 H9 H10 H11].
  assert (∀ n bs, memtable_holds o s n bs → memtable_holds o s' n bs) as Hmem by (intros n bs (t & ?); exists t; by rewrite E2).
  split; rewrite ?E1; try done; [by apply Hmem|]. unfold immutable_ok in *. rewrite E1.
  destruct (es_immutable_table (db_state s)) as [m|]; [|done]. destruct H7 as (? & ? & ? & ?%Hmem & ?). done.
Qed.

Lemma job_ok_same s s' R bo bi bm job vd R' bo' bi' bm' :
  db_state s' = db_state s → job_ok s R bo bi bm job vd R' bo' bi' bm' → job_ok s' R bo bi bm job vd R' bo' bi' bm'.
Proof. intros E []; rewrite <- E in *; by econstructor. Qed.

(** What a selection does. *)
Definition selected s R bo bi bm (m : M (EmbeddedDB (T := T)) (Result (option Job))) : Prop :=
  ∃ job s' vd R' bo' bi' bm', m s = Done (inr job, s') ∧ db_state s' = db_state s ∧ db_memtables s' = db_memtables s ∧
    job_ok s' R bo bi bm job vd R' bo' bi' bm' ∧ disk_ok s' vd R' bi' bm'.

Lemma create_log_ok s n :
  dir_logs (db_dir s) !! n = None →
  create_log n s = Done (inr RecordWriter_new, mkEmbeddedDB (db_state s) (db_next_compaction_waterline s) (db_memtables s)
    (db_manifest s) (set_dir_logs <[n := []]> (db_dir s))).
Proof.
  intros Hn. unfold create_log, bind at 1, gets at 1. change (id s) with s. rewrite Hn, bool_decide_eq_false_2 by (by intros []). done.
Qed.

Lemma log_file_insert d n m file bs : n ≠ m → log_file d m bs → log_file (set_dir_logs <[n := file]> d) m bs.
Proof. intros Hne (w & Hw & Hd). exists w. split; [done|]. cbn. by rewrite lookup_insert_ne. Qed.

Lemma select_swap_ok s R bo bi bm :
  options_default o → mem_ok s R bo bi bm → disk_ok s (version_set s) R bi bm → es_immutable_table (db_state s) = None →
  bm ≠ [] → vs_next_file_number (version_set s) + 1 < U64_MAX →
  selected s R bo bi bm (try! job := select_swap options in ret (inr (Some job))).
Proof.
  intros Hd [H1 H2 H3 H4 H5 H6 H7 H8 H9 H10 (n0 & w0 & L1 & L2 & L3)] [D1 D2 D3 D4 D5 (n1 & D6 & D6f & D6n) D7] Him Hbm Hnext.
  set (vs := version_set s) in *. set (n := vs_next_file_number vs) in *. unfold U64_MAX, U64 in Hnext.
  pose proof (so_next _ _ _ H3) as Hn2. fold n in Hn2. assert (n0 = n1) as -> by congruence.
  pose proof (so_log _ _ _ H3 _ L2) as Hn1. fold n in Hn1. destruct (D7 n) as (F1 & F2 & F3); [done|].
  set (ed := set_log_number n (set_prev_log_number (vs_log_number vs) (set_next_file_number (n + 1) VersionEdit_default))).
  destruct (numbers_edit_valid vs ed) as (He & Hrun & Hs'); [done..|cbn; fold n; lia|intros ? [= <-]; cbn; lia| |].
  { cbn. rewrite L2. cbn. unfold u64. lia. }
  set (vd := edited ed vs (vs_latest_version vs)) in *.
  assert (vs_prev_log_number vd = Some n1) as Hprev.
  { cbn. rewrite L2. unfold prev_log. by rewrite (proj2 (Z.eqb_neq _ _)) by lia. }
  set (s1 := mkEmbeddedDB (db_state s) (db_next_compaction_waterline s) (db_memtables s) (db_manifest s) (set_dir_logs <[n := []]> (db_dir s))).
  destruct (write_edit_ok s1 vs ed [] vd D3 H3 He eq_refl Hrun) as (w & Hwrite & Hman).
  exists (Some (SwapMemtable ed (Some (n, RecordWriter_new)))), (manifest_state s1 w), vd, R, bo, bm, []. split_and!; [|done|done| |].
  - unfold try_bind at 1, bind at 1, select_swap. change (eo_disable_wal options) with (eo_disable_wal o). rewrite (od_wal _ Hd).
    unfold bind at 1, gets at 1. change (id s) with s. fold vs n. unfold bind at 1, u64_add.
    rewrite (proj2 (Z.leb_le _ _)) by (unfold U64_MAX, U64; lia). unfold ret at 1. fold ed. unfold try_bind at 1, bind at 1.
    rewrite create_log_ok by done. fold s1. unfold try_bind at 1, bind at 1. rewrite Hwrite. done.
  - apply job_swap; [done|done|exact Hrun| |done|]; cbn [manifest_state db_state s1].
    + apply installed_same; [done|done|done|change (n ≤ n + 1); lia|done|done|done|done].
    + by rewrite Hprev, <- L2.
  - eapply disk_ok_manifest; [done|exact D2|done| | | |]; cbn [s1 db_dir].
    + exact D4.
    + rewrite Hprev. split; [done|]. apply log_file_insert; [lia|done].
    + exists n. split; [done|]. split; [|rewrite Hprev; intros [= E]; lia].
      exists RecordWriter_new. split; [done|]. cbn. by rewrite lookup_insert_eq.
    + intros m Hm. cbn in Hm. fold n in Hm. destruct (D7 m ltac:(fold n; lia)) as (G1 & G2 & G3). split_and!; [done| |done].
      cbn. rewrite lookup_insert_ne by lia. done.
Qed.
End Database.
