(* ===== verification/DatabaseSelect.v ===== *)
(** * Rounds that build tables

    The selection of a round that writes new tables, from the immutable
    memtable or from the tables of a compaction: the version set after the
    round stands for the same batches, and for those of the memtable. *)

From S2P Require Import Prelude Wire Encoding Comparator SkipList SkipListProofs SkipListTheorems RecordLog RecordLogProofs RecordLogTheorems.
From S2P Require Import WriteBatch WriteBatchTheorems MergeIterator MergeIteratorTheorems Snapshot SnapshotProofs SnapshotTheorems.
From S2P Require Import Filter Table TableBuild VersionEdit VersionEditTheorems Version VersionProofs VersionRecovery VersionTheorems.
From S2P Require Import LevelIterator LevelIteratorTheorems Compaction CompactionProofs CompactionBuild CompactionTheorems VersionRows.
From S2P Require Import Database DatabaseReads DatabaseProofs DatabaseJobs.

Section Database.
Context (o : DatabaseOptions).
Abbreviation user := (do_comparator (eo_version o)).
Abbreviation internal := (InternalKeyComparator user).
Abbreviation options := (wrap_database_options o).
Abbreviation vo := (eo_version options).
Context `{!KeyComparatorLaws user} `{!AntiSymm (=) (@kc_le user _)}.
#[local] Existing Instance vo_laws.
Context {B T J : Type} {HT : TableStore B T} (table_iter : T → J) {HJ : Iterable J}.
Context {LT : @TableStoreLaws (do_comparator vo) (vo_laws o) B T HT} {LJ : @IterableLaws (do_comparator vo) (vo_laws o) J HJ}.
Hypothesis table_iter_rep : ∀ t rows p, ts_rows t rows p → entries_ok (do_comparator vo) rows → it_rep (do_comparator vo) (table_iter t) rows rows.
Context (table_properties : T → TableProperties).
Implicit Types (s : EmbeddedDB (T := T)) (R : Z → list KeyValueEntry) (bo bi bm : list Batch) (vs vd : VersionSet T).
Implicit Types (ds : list (list KeyValueEntry * NewFileEntry)).
Abbreviation version_set s := (es_version_set (db_state s)).
Abbreviation mem_ok := (mem_ok o).

(** ** The edit of new tables *)

(** What an edit does besides adding tables. *)
Record base_edit vs (ed : VersionEdit) : Prop := mkBaseEdit {
  be_comparator : ve_comparator ed = None;
  be_log : ve_log_number ed = None;
  be_prev : opt_u64 (ve_prev_log_number ed);
  be_sequence : ∀ n, ve_last_sequence ed = Some n → vs_last_sequence vs ≤ n < 2 ^ 64;
  be_waterline : ve_compaction_waterline ed = None;
  be_deleted : NoDup (df_number <$> ve_deleted_files ed);
  be_removes : ∀ d, d ∈ ve_deleted_files ed →
    0 ≤ df_level d < 2 ^ 32 ∧ ∃ f, f ∈ files (vs_latest_version vs) (Z.to_nat (df_level d)) ∧ nf_number f = df_number d;
}.

Lemma built_valid vs R ed rd w level all tables (files : gmap Z bytes) ds :
  let n := vs_next_file_number vs in
  state_ok vo vs → base_edit vs ed → files_written o R rd w level n all tables files ds →
  n + Z.of_nat (length ds) < U64_MAX → 0 ≤ level → level_fits (T := T) vo (Z.to_nat level) →
  edit_valid vo vs (built_edit ed ds.*2 (n + Z.of_nat (length ds))).
Proof.
  intros n Hs [E1 E2 E3 E4 E5 E6 E7] Hw Hn Hl Hfit. pose proof (fw_files _ _ _ _ _ _ _ _ _ _ Hw) as Hf. rewrite Forall_forall in Hf.
  unfold U64_MAX, U64 in Hn. split; cbn; [done| |by rewrite E2|done|done|by rewrite E5|done|done| |].
  - unfold next_of. cbn. fold n. lia.
  - split; [|by eapply fw_sorted]. apply Forall_forall. intros f Hin. destruct (Hf f Hin) as (_ & ? & Hlev & _).
    split; [done|]. rewrite Hlev. unfold level_of. by rewrite Hlev.
  - apply Forall_forall. intros f Hin. destruct (Hf f Hin) as (? & _ & _ & ?). done.
Qed.

Lemma built_installed vs R ed rd w level all tables (dir : gmap Z bytes) ds bo :
  let n := vs_next_file_number vs in
  let ed' := built_edit ed ds.*2 (n + Z.of_nat (length ds)) in
  state_ok vo vs → version_ok vo R n (vs_latest_version vs) → base_edit vs ed →
  files_written o R rd w level n all tables dir ds →
  n + Z.of_nat (length ds) < U64_MAX → 0 ≤ level → level_fits (T := T) vo (Z.to_nat level) →
  (∀ f g, f ∈ ds.*2 → Z.to_nat level ≠ 0%nat → g ∈ files (vs_latest_version vs) (Z.to_nat level) →
    other_file (ve_deleted_files ed) g → ¬ overlap vo (file_range f) (file_range g)) →
  (∃ all', all' ≡ₚ compacted rd w all ++ concat (file_rows R <$> kept_files (ve_deleted_files ed) (vs_latest_version vs)) ∧
    represents user all' bo) →
  default (vs_last_sequence vs) (ve_last_sequence ed) = last_seq bo → vs_compaction_waterline vs = None →
  ∃ v, apply_new_edit vo ed' tables vs = Done (tt, edited ed' vs v) ∧ installed o vs R (edited ed' vs v) (with_rows R ds) bo ∧
    lt_entry <$> entries_of v ≡ₚ ds.*2 ++ kept_files (ve_deleted_files ed) (vs_latest_version vs).
Proof.
  intros n ed' Hs Hv Hbase Hw Hn Hl Hfit Hap (all' & Hp & Hr) Hseq Hwl.
  assert (edit_valid vo vs ed') as He by (by eapply built_valid).
  assert (length tables = length (ve_new_files ed')) as Hlen by (symmetry; exact (Forall2_length _ _ _ (fw_tables _ _ _ _ _ _ _ _ _ _ Hw))).
  destruct (apply_state_ok vo vs ed' tables Hs He Hlen) as (v & Hrun & Hh & Hs').
  assert (∀ m, disjoint_files vo (abs_edit vo ed' (files (vs_latest_version vs)) (S m))) as Hdis.
  { apply (edit_disjoint vo R); [done|done|done|by eapply fw_ordered|by eapply fw_disjoint|].
    intros f g Hf. pose proof (fw_files _ _ _ _ _ _ _ _ _ _ Hw) as Hfs. rewrite Forall_forall in Hfs. destruct (Hfs f Hf) as (_ & _ & Elev & _).
    unfold level_of. rewrite Elev. by apply Hap. }
  destruct (edit_version_ok vo R (with_rows R ds) vs ed' tables v Hs He Hlen Hv) as [Hv' Hc];
    [by eapply fw_agree|by eapply fw_tables|exact Hdis|exact Hrun|exact Hh|].
  exists v. split; [done|]. split.
  - split; cbn [edited vs_next_file_number vs_latest_version vs_last_sequence vs_compaction_waterline]; [exact Hs'|exact Hv'| |apply He|by eapply fw_agree|exact Hseq|].
    + exists all'. split; [|done]. rewrite Hp, Hc. cbn. by rewrite (fw_rows _ _ _ _ _ _ _ _ _ _ Hw).
    + cbn. by rewrite (be_waterline _ _ Hbase).
  - exact (edit_entries vo vs ed' v Hs He Hh).
Qed.

(** ** Files of new tables *)

Definition tables_state s (files : gmap Z bytes) : EmbeddedDB (T := T) :=
  mkEmbeddedDB (db_state s) (db_next_compaction_waterline s) (db_memtables s) (db_manifest s) (set_dir_tables (λ _, files) (db_dir s)).

Lemma new_table_files s R rd w level n all tables files ds (v v' : Version T) deleted :
  version_ok vo R n v → Forall (table_file o (db_dir s) R) (lt_entry <$> entries_of v) →
  files_written o R rd w level n all tables files ds → (∀ m, m < n → files !! m = dir_tables (db_dir s) !! m) →
  lt_entry <$> entries_of v' ≡ₚ ds.*2 ++ kept_files deleted v →
  Forall (table_file o (db_dir (tables_state s files)) (with_rows R ds)) (lt_entry <$> entries_of v').
Proof.
  intros Hv Ht Hw Hold ->. apply Forall_app. split.
  - eapply Forall_impl; [by eapply fw_contents|]. intros f (file & t & p & ?). by exists file, t, p.
  - apply Forall_forall. intros f [_ Hf]%list_elem_of_filter. rewrite Forall_forall in Ht. destruct (Ht f Hf) as (file & t & p & H1 & H2 & H3).
    apply list_elem_of_fmap in Hf as (e & -> & He). pose proof (vo_tables _ _ _ _ Hv) as Hn. rewrite Forall_forall in Hn.
    destruct (Hn e He) as [_ Hlt]. exists file, t, p. split_and!; [|done|].
    + cbn. by rewrite Hold.
    + unfold file_rows. by rewrite (fw_agree _ _ _ _ _ _ _ _ _ _ Hw).
Qed.

(** ** Deletions that are removed *)

(** Every deletion lies between entries of [inner], and is not of the last
    key of it. *)
Definition deletions_inside (inner es : list KeyValueEntry) : Prop :=
  ∀ e, e ∈ es → deletion e = true →
    (∃ x, x ∈ inner ∧ @kc_le internal _ x.1 e.1) ∧ ∃ y, y ∈ inner ∧ ¬ @kc_le user _ (ik_user y.1) (ik_user e.1).

Lemma inside_safe rd inner es others lo hi :
  (∀ x, x ∈ inner → @kc_le internal _ lo x.1 ∧ @kc_le internal _ x.1 hi) →
  (rd = true → ∀ x, x ∈ others → ¬ (@kc_le internal _ lo x.1 ∧ @kc_le internal _ x.1 hi)) →
  deletions_inside inner es → removal_safe rd es others.
Proof.
  intros Hin Hout Hdel Hrd e x Hes Hd Hx Eu. destruct (Hdel e Hes Hd) as [(a & Ha & Hle) (b & Hb & Hlt)].
  destruct (decide (ik_seq e.1 < ik_seq x.1)) as [|Hge]; [done|exfalso]. apply (Hout Hrd x Hx). split.
  - etrans; [apply (Hin a Ha)|]. etrans; [exact Hle|]. change (internal_le user e.1 x.1). split; [by rewrite Eu|intros _; lia].
  - etrans; [|apply (Hin b Hb)]. change (internal_le user x.1 b.1). unfold internal_le. rewrite Eu.
    destruct (kc_le_total (ik_user e.1) (ik_user b.1)); tauto.
Qed.

(** ** Limits *)

(** Options whose sizes fit their types, for the levels that are used. *)
Record options_fit : Prop := mkOptionsFit {
  of_default : options_default o;
  of_name : name_ok vo;
  of_levels : level_fits (T := T) vo (S (do_max_memtable_level vo));
  of_level : Z.of_nat (do_max_memtable_level vo) < 2 ^ 32;
  of_base : 0 ≤ do_max_bytes_for_level_base vo;
  of_multiplier : 0 ≤ do_max_bytes_for_level_multiplier vo;
  of_trigger : (0 < do_level0_file_num_compaction_trigger vo)%nat;
}.

(** Entries that fit into tables, file numbers that are left and enough fuel
    to read all entries. *)
Record room s (bs : list Batch) (fuel : nat) : Prop := mkRoom {
  ro_fit : ∀ es, entries_ok internal es → (∀ e, e ∈ es → e ∈ entry_of <$> writes bs) → ts_fit es;
  ro_numbers : vs_next_file_number (version_set s) + Z.of_nat (length (writes bs)) + 1 < U64_MAX;
  ro_fuel : (length (writes bs) < fuel)%nat;
}.

Lemma room_less s bs bs' fuel : room s (bs ++ bs') fuel → room s bs fuel ∧ room s bs' fuel.
Proof.
  intros [H1 H2 H3]. rewrite writes_app, length_app in H2, H3. split; split; try lia; intros es Hok Hes; apply H1; try done;
    intros e He; rewrite writes_app, fmap_app, elem_of_app; auto.
Qed.

Lemma level_target n : options_fit → (n ≤ S (do_max_memtable_level vo))%nat → is_Some (target_file_size vo n).
Proof.
  intros Hf Hn. unfold target_file_size. destruct (of_levels Hf (S (Nat.max n 1 - 1))) as [l Hl]; [lia|]. cbn in Hl.
  destruct (u64_mul_pow (do_max_bytes_for_level_base _) _ _); [|done]. cbn in Hl. by destruct (u64_mul_pow _ _ _).
Qed.

Lemma level_fits_le n m : level_fits (T := T) vo n → (m ≤ n)%nat → level_fits (T := T) vo m.
Proof. intros H Hm k Hk. apply H. lia. Qed.

Lemma version_ranges_ok R next vs : version_ok vo R next (vs_latest_version vs) → ranges_ok vo vs.
Proof.
  intros Hv n. unfold tables_at. destruct (levels _ !! n) as [l|] eqn:El; [|constructor].
  eapply Forall_impl; [exact (level_tables_ok vo R next (vs_latest_version vs) n l Hv El)|]. intros e. apply (table_range vo).
Qed.

(** ** Ranges *)

Lemma overlap_inside lo hi f r :
  overlap vo (file_range f) r → @kc_le internal _ lo (nf_smallest_key f) → @kc_le internal _ (nf_largest_key f) hi →
  overlap vo (mkKeyRangeRef lo hi) r.
Proof. intros [H1 H2] Hlo Hhi. split; cbn in *; [by etrans|by etrans]. Qed.

Lemma elem_of_tables_at vs n e : e ∈ tables_at vs n → e ∈ entries_of (vs_latest_version vs).
Proof.
  unfold tables_at. destruct (levels _ !! n) as [l|] eqn:E; cbn; [|by intros ?%elem_of_nil]. intros He. apply elem_of_entries_of. eauto.
Qed.

Lemma elem_of_levels vs e : e ∈ entries_of (vs_latest_version vs) → ∃ n, e ∈ tables_at vs n.
Proof. intros (n & l & Hl & He)%elem_of_entries_of. exists n. unfold tables_at. by rewrite Hl. Qed.

Lemma row_overlap R next vs e x lo hi :
  version_ok vo R next (vs_latest_version vs) → e ∈ entries_of (vs_latest_version vs) → x ∈ rows_of R e →
  @kc_le internal _ lo x.1 → @kc_le internal _ x.1 hi → overlap vo (mkKeyRangeRef lo hi) (key_range e).
Proof.
  intros [Ht _] He Hx Hlo Hhi. rewrite Forall_forall in Ht. destruct (table_bounds vo R e x (proj1 (Ht e He)) Hx) as [H1 H2].
  split; cbn; [exact (transitivity Hlo H2)|exact (transitivity H1 Hhi)].
Qed.

Lemma file_at vs n g : g ∈ files (vs_latest_version vs) n → ∃ e, e ∈ tables_at vs n ∧ g = lt_entry e.
Proof. unfold files, tables_at. intros (e & -> & He)%list_elem_of_fmap. eauto. Qed.

Lemma kept_nothing (v : Version T) : kept_files [] v = lt_entry <$> entries_of v.
Proof. unfold kept_files. apply filter_true, Forall_forall. intros f _. unfold other_file. apply not_elem_of_nil. Qed.

(** ** The immutable memtable *)

Lemma flush_represents bo bi R (v : Version T) rd w es :
  history_ok user (bo ++ bi) → (∃ all, all ≡ₚ contents R v ∧ represents user all bo) → es ≡ₚ entry_of <$> writes bi →
  removal_safe rd es (contents R v) →
  ∃ all, all ≡ₚ compacted rd w es ++ concat (file_rows R <$> kept_files [] v) ∧ represents user all (bo ++ bi).
Proof.
  intros Hh (all & Hp & Hr) He Hsafe. destruct (stacked_represents user bo bi all Hh Hr) as (all' & Hp' & Hr').
  rewrite kept_nothing, <- contents_files. apply (compacted_represents user rd w es (contents R v) all' (bo ++ bi)); [done|done| |done].
  by rewrite Hp', Hp, He.
Qed.

Lemma writes_some bs : Forall (λ b : Batch, b.2 ≠ []) bs → bs ≠ [] → writes bs ≠ [].
Proof.
  destruct bs as [|[q ws] bs]; [done|]. intros [Hb _]%Forall_cons _. unfold writes. cbn. by destruct ws.
Qed.

Record flushed_table s bi (m : ImmutableTable) (t : MemTable) (es : list KeyValueEntry) (lo hi : bytes) : Prop := mkFlushedTable {
  ft_table : db_memtables s !! im_table m = Some t;
  ft_holds : table_holds_batches user t es;
  ft_ok : entries_ok internal es;
  ft_perm : es ≡ₚ entry_of <$> writes bi;
  ft_range : SkipList.key_range (mt_table t) = Done (Some (lo, hi), mt_table t);
  ft_bounds : ∀ x, x ∈ es → @kc_le internal _ lo x.1 ∧ @kc_le internal _ x.1 hi;
  ft_range_ok : range_ok vo (mkKeyRangeRef lo hi);
}.

Lemma flushed_memtable s R bo bi bm m :
  mem_ok s R bo bi bm → es_immutable_table (db_state s) = Some m → ∃ t es lo hi, flushed_table s bi m t es lo hi.
Proof.
  intros Hm Him. pose proof (ok_immutable _ _ _ _ _ _ Hm) as Hi. unfold immutable_ok in Hi. rewrite Him in Hi.
  destruct Hi as (Hne & _ & _ & (t & Ht & Hh & _) & _). pose proof (ok_history _ _ _ _ _ _ Hm) as Hhist.
  apply history_app in Hhist as [_ Hhist]. apply history_app in Hhist as [Hhist _].
  destruct (history_entries_ok user bi Hhist) as [Hok Hp]. set (es := apply_batches user bi []) in *.
  assert (es ≠ []) as Hes.
  { intros E. rewrite E in Hp. symmetry in Hp. apply Permutation_nil_r in Hp. apply fmap_nil_inv in Hp. revert Hp. apply writes_some; [|done].
    pose proof (ok_batches _ _ _ _ _ _ Hm) as Hb. apply Forall_app in Hb as [_ Hb]. by apply Forall_app in Hb as [Hb _]. }
  destruct (head es) as [a|] eqn:Ea; [|by destruct es]. destruct (list.last es) as [b|] eqn:Eb; [|by apply last_None in Eb].
  pose proof (key_range_spec internal (mt_table t) es Hh) as Hr. unfold wpx in Hr.
  assert (Forall (λ x, @kc_le internal _ a.1 x.1) es) as Hlo by (apply (sorted_first vo es a.1 Hok); by rewrite Ea).
  assert (Forall (λ x, @kc_le internal _ x.1 b.1) es) as Hhi by (apply (sorted_last vo es b.1 Hok); by rewrite Eb).
  rewrite Forall_forall in Hlo. rewrite Forall_forall in Hhi. pose proof Hok as [Hk _]. rewrite Forall_forall in Hk.
  apply head_Some_elem_of in Ea as Ha. apply last_Some_elem_of in Eb as Hb.
  exists t, es, a.1, b.1. split; [done|done|done|done| |auto|].
  - destruct (SkipList.key_range (mt_table t)) as [[out nodes]| |]; [|done..]. destruct Hr as [-> ->]. unfold range_of. by rewrite Ea, Eb.
  - split; [by apply Hk|]. split; [by apply Hk|]. by apply Hlo.
Qed.

(** The level for it, and what that means for its deletions and its tables. *)
Lemma flush_level s R bo bi bm m t es lo hi :
  options_fit → mem_ok s R bo bi bm → flushed_table s bi m t es lo hi →
  ∃ sel target, pick_memtable_level vo (version_set s) (mkKeyRangeRef lo hi) = Some sel ∧
    (sm_level sel ≤ do_max_memtable_level vo)%nat ∧ target_file_size vo (sm_level sel) = Some target ∧
    (sm_level sel ≠ 0%nat → ∀ f g, @kc_le internal _ lo (nf_smallest_key f) → @kc_le internal _ (nf_largest_key f) hi →
      g ∈ files (vs_latest_version (version_set s)) (sm_level sel) → ¬ overlap vo (file_range f) (file_range g)) ∧
    (deletions_inside es es → removal_safe (negb (sm_found_overlap sel)) es (contents R (vs_latest_version (version_set s)))).
Proof.
  intros Hfit Hm [F1 F2 F3 F4 F5 F6 F7]. pose proof (ok_version _ _ _ _ _ _ Hm) as Hv.
  destruct (pick_level_spec vo (version_set s) _ F7 (version_ranges_ok _ _ _ Hv)) as (sel & Hpick & Hle & Hfound & Hno & _).
  destruct (level_target (sm_level sel) Hfit) as [target Htarget]; [lia|]. exists sel, target. split_and!; [done..| |].
  - intros Hne f g Hlo Hhi (e & He & ->)%file_at Ho. apply (Hno ltac:(lia) (sm_level sel) e ltac:(done) He).
    by apply (overlap_inside lo hi f).
  - intros Hdel. apply (inside_safe _ es es _ lo hi); [done| |done]. intros Hrd x Hx [H1 H2]. apply negb_true_iff in Hrd.
    unfold contents in Hx. apply elem_of_rows in Hx as (e & He & Hx). pose proof (row_overlap _ _ _ _ _ _ _ Hv He Hx H1 H2) as Ho.
    apply elem_of_levels in He as [n He]. rewrite (proj2 Hfound) in Hrd; [done|]. by exists n, e.
Qed.

(** ** Building *)

(** The state after the tables and the edit are written. *)
Record tables_selected s R bo' (ed : VersionEdit) (s' : EmbeddedDB (T := T)) (ed' : VersionEdit) tables vd R' : Prop := mkTablesSelected {
  ts_state : db_state s' = db_state s;
  ts_memtables : db_memtables s' = db_memtables s;
  ts_logs : dir_logs (db_dir s') = dir_logs (db_dir s);
  ts_apply : apply_new_edit vo ed' tables (version_set s) = Done (tt, vd);
  ts_installed : installed o (version_set s) R vd R' bo';
  ts_prev : vs_prev_log_number vd = match ve_prev_log_number ed with Some n => prev_log n | None => vs_prev_log_number (version_set s) end;
  ts_log : vs_log_number vd = vs_log_number (version_set s);
  ts_disk : ∀ bi' bm', match vs_prev_log_number vd with None => bi' = [] | Some p => bi' ≠ [] ∧ log_file (db_dir s) p bi' end →
    (∃ n, vs_log_number vd = Some n ∧ log_file (db_dir s) n bm' ∧ vs_prev_log_number vd ≠ Some n) → disk_ok o s' vd R' bi' bm';
}.

Section Build.
Context {I : Type} {HI : Iterable I} {LI : @IterableLaws internal _ I HI}.

Lemma build_selects s R bo bi bm bo' rd level target all (i : I) full ed fuel :
  let vs := version_set s in
  mem_ok s R bo bi bm → disk_ok o s vs R bi bm → base_edit vs ed → ve_new_files ed = [] → ve_next_file_number ed = Some (vs_next_file_number vs) →
  it_rep internal i full all → entries_ok internal all → Forall (λ e, 0 ≤ ik_seq e.1 ≤ MAX_SEQUENCE) all →
  ts_fit (compacted rd U64_MAX all) → vs_next_file_number vs + Z.of_nat (length all) < U64_MAX → (length all < fuel)%nat →
  0 ≤ level < 2 ^ 32 → level_fits (T := T) vo (Z.to_nat level) →
  (∀ f g, (∃ x, x ∈ all ∧ x.1 = nf_smallest_key f) → (∃ y, y ∈ all ∧ y.1 = nf_largest_key f) → Z.to_nat level ≠ 0%nat →
    g ∈ files (vs_latest_version vs) (Z.to_nat level) → other_file (ve_deleted_files ed) g → ¬ overlap vo (file_range f) (file_range g)) →
  (∃ all', all' ≡ₚ compacted rd U64_MAX all ++ concat (file_rows R <$> kept_files (ve_deleted_files ed) (vs_latest_version vs)) ∧
    represents user all' bo') →
  default (vs_last_sequence vs) (ve_last_sequence ed) = last_seq bo' →
  ∃ s1 s' ed' tables vd R', build_tables HI fuel i rd ed target level None s = Done (inr (tables, ed'), s1) ∧
    write_edit ed' s1 = Done (inr tt, s') ∧ tables_selected s R bo' ed s' ed' tables vd R'.
Proof.
  intros vs Hm Hd Hbase Hnew Hnext Hit Hok Hseq Hfit Hnum Hfuel Hlev Hlf Hap Hrep Hlast.
  pose proof (ok_set _ _ _ _ _ _ Hm) as Hs. pose proof (so_next _ _ _ Hs) as Hn2. fold vs in Hs, Hn2.
  destruct (build_written o R i LI full all rd None level target (vs_next_file_number vs) ed (dir_tables (db_dir s)) fuel)
    as (ds & tables & bt & Hrun & Hed & Hw & Hlen & Hold & Hfresh); [done|done|done|exact Hfit|lia|done|done|done|done|done| |].
  { intros k Hk. by apply (dk_fresh _ _ _ _ _ _ Hd). }
  set (n := vs_next_file_number vs) in *. set (s1 := tables_state s (bt_files bt)).
  set (ed' := built_edit ed ds.*2 (n + Z.of_nat (length ds))) in *.
  destruct (built_installed vs R ed rd U64_MAX level all tables (bt_files bt) ds bo') as (v & Happ & Hinst & Hperm);
    [done|exact (ok_version _ _ _ _ _ _ Hm)|done|exact Hw|fold n; lia|lia|done| |done|done|exact (ok_waterline _ _ _ _ _ _ Hm)|].
  { intros f g Hf. pose proof (fw_keys _ _ _ _ _ _ _ _ _ _ Hw) as Hkeys. rewrite Forall_forall in Hkeys. destruct (Hkeys f Hf). by apply Hap. }
  fold n ed' in Happ, Hinst. set (vd := edited ed' vs v) in *.
  destruct (write_edit_ok o s1 vs ed' tables vd) as (w & Hwrite & Hman); [exact (dk_manifest _ _ _ _ _ _ Hd)|done| | |exact Happ|].
  { eapply built_valid; [done|done|exact Hw|fold n; lia|lia|done]. }
  { symmetry. exact (Forall2_length _ _ _ (fw_tables _ _ _ _ _ _ _ _ _ _ Hw)). }
  exists s1, (manifest_state s1 w), ed', tables, vd, (with_rows R ds). split; [|split; [exact Hwrite|]].
  - unfold build_tables, bind at 1, gets at 1. change (id s) with s. unfold bind at 1, call at 1. rewrite Hrun, Hed. done.
  - split; [done|done|done|exact Happ|exact Hinst|done|cbn; by rewrite (be_log _ _ Hbase)|]. intros bi' bm' Hp Hl.
    eapply disk_ok_manifest; [exact (dk_current _ _ _ _ _ _ Hd)|exact (dk_manifest_file _ _ _ _ _ _ Hd)|exact Hman| |exact Hp|exact Hl|].
    + eapply new_table_files; [exact (ok_version _ _ _ _ _ _ Hm)|exact (dk_tables _ _ _ _ _ _ Hd)|exact Hw|done|exact Hperm].
    + intros k Hk. cbn in Hk. destruct (dk_fresh _ _ _ _ _ _ Hd k) as (G1 & G2 & G3); [fold vs n; unfold next_of in Hk; cbn in Hk; lia|].
      split_and!; [|done|done]. apply Hfresh. exact Hk.
Qed.
End Build.

(** ** The selection of a flush *)

Lemma entries_fit bs es : history_ok user bs → (∀ e, e ∈ es → e ∈ entry_of <$> writes bs) → Forall (λ e, 0 ≤ ik_seq e.1 ≤ MAX_SEQUENCE) es.
Proof.
  intros Hh Hes. apply Forall_forall. intros e He. destruct (entries_seq user bs e Hh (Hes e He)) as (b & Hb & ->).
  pose proof (ho_batches _ _ Hh) as Hok. rewrite Forall_forall in Hok. apply (Hok b Hb).
Qed.

(** The log of the memtable is removed. *)
Definition removed_log s (p : Z) : EmbeddedDB (T := T) :=
  mkEmbeddedDB (db_state s) (db_next_compaction_waterline s) (db_memtables s) (db_manifest s) (set_dir_logs (delete p) (db_dir s)).

Lemma remove_log_ok s p : is_Some (dir_logs (db_dir s) !! p) → remove_log p s = Done (inr tt, removed_log s p).
Proof. intros Hp. unfold remove_log, bind at 1, gets at 1. change (id s) with s. by rewrite bool_decide_eq_true_2. Qed.

Lemma disk_ok_removed s vd R bm p :
  vs_prev_log_number vd = None → vs_log_number vd ≠ Some p → disk_ok o s vd R [] bm → disk_ok o (removed_log s p) vd R [] bm.
Proof.
  intros Hp Hl [D1 D2 D3 D4 D5 (n & D6 & (w & W1 & W2) & D6n) D7]. split; [done|done|done|done|by rewrite Hp| |].
  - exists n. split_and!; [done| |done]. exists w. split; [done|]. cbn. rewrite lookup_delete_ne; [done|congruence].
  - intros m Hm. destruct (D7 m Hm) as (? & ? & ?). split_and!; [done| |done]. cbn. apply lookup_delete_None. by right.
Qed.

Definition flush_edit vs (m : ImmutableTable) : VersionEdit :=
  set_prev_log_number (Some 0) (set_next_file_number (vs_next_file_number vs) (set_last_sequence (im_last_sequence m) VersionEdit_default)).

Lemma flush_base_edit s R bo bi bm m :
  mem_ok s R bo bi bm → im_last_sequence m = last_seq (bo ++ bi) → base_edit (version_set s) (flush_edit (version_set s) m).
Proof.
  intros Hm El. pose proof (ok_history _ _ _ _ _ _ Hm) as Hh. rewrite (assoc_L (++)) in Hh. apply history_app in Hh as [Hh _].
  split; cbn; [done|done|unfold u64; lia| |done|constructor|intros d Hd; by apply elem_of_nil in Hd].
  intros n [= <-]. rewrite El, (ok_flushed _ _ _ _ _ _ Hm). pose proof (last_seq_app user _ _ Hh). pose proof (last_seq_nonneg user _ Hh).
  unfold MAX_SEQUENCE in *. lia.
Qed.

Lemma deletions_ext inner inner' es es' :
  (∀ x, x ∈ inner ↔ x ∈ inner') → (∀ x, x ∈ es ↔ x ∈ es') → deletions_inside inner es → deletions_inside inner' es'.
Proof.
  intros Hi He H e Hin Hd. destruct (H e ltac:(by apply He) Hd) as [(x & Hx & ?) (y & Hy & ?)].
  split; [exists x|exists y]; (split; [by apply Hi|done]).
Qed.

Lemma select_flush_run s bi m t es lo hi sel target it fuel p s1 s' ed' tables :
  flushed_table s bi m t es lo hi → pick_memtable_level vo (version_set s) (mkKeyRangeRef lo hi) = Some sel →
  target_file_size vo (sm_level sel) = Some target → MemTable_iter t s = Done (it, s) → vs_prev_log_number (version_set s) = Some p →
  build_tables (mem_iterable internal) fuel it (negb (sm_found_overlap sel)) (flush_edit (version_set s) m) target
    (Z.of_nat (sm_level sel)) None s = Done (inr (tables, ed'), s1) →
  write_edit ed' s1 = Done (inr tt, s') → is_Some (dir_logs (db_dir s') !! p) →
  select_flush options fuel None m s = Done (inr (FlushMemtable ed' tables), removed_log s' p).
Proof.
  intros [F1 _ _ _ F5 _ _] Hpick Htarget Hit Hp Hbuild Hwrite Hlog. unfold select_flush. unfold bind at 1, memtable at 1, bind at 1, gets at 1.
  change (id s) with s. rewrite F1. cbn [unwrap]. unfold ret at 1. unfold bind at 1, call at 1. rewrite F5.
  unfold bind at 1, gets at 1. change (id s) with s. unfold bind at 1. rewrite Hpick. cbn [unwrap]. unfold ret at 1.
  unfold bind at 1. rewrite Htarget. cbn [unwrap]. unfold ret at 1. unfold bind at 1. rewrite Hit, Hp. fold (flush_edit (version_set s) m).
  unfold try_bind at 1, bind at 1. change (do_comparator vo) with internal. rewrite Hbuild. unfold try_bind at 1, bind at 1. rewrite Hwrite.
  unfold try_bind at 1, bind at 1. rewrite remove_log_ok by done. done.
Qed.

Lemma select_flush_ok s R bo bi bm m fuel :
  options_fit → mem_ok s R bo bi bm → disk_ok o s (version_set s) R bi bm → es_immutable_table (db_state s) = Some m →
  room s (bo ++ bi ++ bm) fuel → deletions_inside (entry_of <$> writes bi) (entry_of <$> writes bi) →
  selected o s R bo bi bm (try! job := select_flush options fuel None m in ret (inr (Some job))).
Proof.
  intros Hfit Hm Hd Him Hroom Hdel. pose proof (ok_immutable _ _ _ _ _ _ Hm) as Hi. unfold immutable_ok in Hi. rewrite Him in Hi.
  destruct Hi as (Hbi & _ & Hlast & _ & [p Hp]). destruct (flushed_memtable s R bo bi bm m Hm Him) as (t & es & lo & hi & Ft).
  pose proof (ft_perm _ _ _ _ _ _ _ Ft) as Hperm. pose proof (ft_bounds _ _ _ _ _ _ _ Ft) as Hbounds.
  destruct (flush_level s R bo bi bm m t es lo hi Hfit Hm Ft) as (sel & target & Hpick & Hle & Htarget & Hap & Hsafe).
  destruct (mem_iter_ok internal t es s (ft_holds _ _ _ _ _ _ _ Ft) (ft_ok _ _ _ _ _ _ _ Ft)) as (it & Hit & Hrep).
  pose proof (ok_history _ _ _ _ _ _ Hm) as Hh. pose proof Hh as Hh'. rewrite (assoc_L (++)) in Hh'. apply history_app in Hh' as [Hhb _].
  destruct (history_app user _ _ Hhb) as [_ Hhi]. destruct (room_less _ _ _ _ Hroom) as [_ Hr1]. destruct (room_less _ _ _ _ Hr1) as [[H1 H2 H3] _].
  assert (∀ e, e ∈ es → e ∈ entry_of <$> writes bi) as Hes by (intros e; by rewrite Hperm).
  assert (length es = length (writes bi)) as Elen by (by rewrite Hperm, length_fmap).
  destruct (build_selects (LI := mem_laws internal) s R bo bi bm (bo ++ bi) (negb (sm_found_overlap sel)) (Z.of_nat (sm_level sel)) target es it es
    (flush_edit (version_set s) m) fuel) as (s1 & s' & ed' & tables & vd & R' & Hbuild & Hwrite & [T1 T2 T3 T4 T5 T6 T7 T8]);
    [done|done|by eapply flush_base_edit|done|done|exact Hrep|apply Ft|by eapply entries_fit| |lia|lia|pose proof (of_level Hfit); lia| | | |done|].
  - apply H1; [apply entries_filter, Ft|]. intros e. unfold compacted. rewrite list_elem_of_filter. intros [_ He]. auto.
  - rewrite Nat2Z.id. eapply level_fits_le; [apply Hfit|lia].
  - intros f g (x & Hx & Ex) (y & Hy & Ey) Hne Hg _. rewrite Nat2Z.id in *. apply Hap; [done| | |done].
    + rewrite <- Ex. by apply Hbounds.
    + rewrite <- Ey. by apply Hbounds.
  - apply flush_represents; [done|by eapply ok_rows|done|]. apply Hsafe. by eapply deletions_ext; [| |exact Hdel]; intros x; rewrite Hperm.
  - pose proof (dk_prev _ _ _ _ _ _ Hd) as Hprev. rewrite Hp in Hprev. destruct Hprev as [_ (wp & _ & Hwp)].
    destruct (dk_log _ _ _ _ _ _ Hd) as (n & Hn & Hnf & Hne). rewrite Hp in Hne.
    exists (Some (FlushMemtable ed' tables)), (removed_log s' p), vd, R', (bo ++ bi), [], bm. split_and!; [|done|done| |].
    + unfold try_bind, bind. erewrite select_flush_run; [done|done|done|done|done|done|exact Hbuild|exact Hwrite|].
      rewrite T3, Hwp. by eexists.
    + apply job_flush; cbn [removed_log db_state]; rewrite ?T1; [by rewrite Him|done|done|done|done].
    + apply disk_ok_removed; [done|rewrite T7, Hn; congruence|]. apply T8; [by rewrite T6|]. exists n. rewrite T6, T7. done.
Qed.
End Database.
