(* ===== verification/DatabaseCompact.v ===== *)
(** * Rounds of the compaction thread

    The selection of a compaction of tables, and of a whole round: whatever is
    selected, the files and the job that is left stand for the same batches. *)

From S2P Require Import Prelude Wire Encoding Comparator SkipList SkipListProofs SkipListTheorems RecordLog RecordLogProofs RecordLogTheorems.
From S2P Require Import WriteBatch WriteBatchTheorems MergeIterator MergeIteratorTheorems Snapshot SnapshotProofs SnapshotTheorems.
From S2P Require Import Filter Table TableBuild VersionEdit VersionEditTheorems Version VersionProofs VersionRecovery VersionTheorems.
From S2P Require Import LevelIterator LevelIteratorTheorems Compaction CompactionProofs CompactionBuild CompactionTheorems VersionRows.
From S2P Require Import Database DatabaseReads DatabaseProofs DatabaseJobs DatabaseSelect.

Section Database.
Context (o : DatabaseOptions).
Abbreviation user := (do_comparator (eo_version o)).
Abbreviation internal := (InternalKeyComparator user).
Abbreviation options := (wrap_database_options o).
Abbreviation vo := (eo_version options).
Context `{!KeyComparatorLaws user} `{!AntiSymm (=) (@kc_le user _)}.
#[local] Existing Instance vo_laws.
Context {B T J : Type} {HT : TableStore B T} (table_iter : T → J) {HJ : Iterable J}.
Context {LT : @TableStoreLaws (do_comparator vo) (vo_laws o) B T HT} {LJ : @IterableLaws (do_comparator vo) (vo_laws o) J HJ}.
Hypothesis table_iter_rep : ∀ t rows p, ts_rows t rows p → entries_ok (do_comparator vo) rows → it_rep (do_comparator vo) (table_iter t) rows rows.
Context (table_properties : T → TableProperties).
Implicit Types (s : EmbeddedDB (T := T)) (R : Z → list KeyValueEntry) (bo bi bm : list Batch) (vs vd : VersionSet T).
Implicit Types (ds : list (list KeyValueEntry * NewFileEntry)).
Abbreviation version_set s := (es_version_set (db_state s)).
Abbreviation mem_ok := (mem_ok o).

Implicit Types (e : LevelTableEntry T).

(** ** The tables of a compaction *)

(** The tables of level 0, and those of level 1 in their range [r]. *)
Record compaction_of vs (c : CompactionSpec T) (r : KeyRangeRef) : Prop := mkCompactionOf {
  cpo_tables : cp_tables c = tables_at vs 0;
  cpo_next : cp_next_level_tables c = filter (λ t, overlap vo (key_range t) r) (tables_at vs 1);
  cpo_level : cp_next_level c = 1%nat;
  cpo_span : spans vo r (tables_at vs 0);
  cpo_found : cp_found_overlap c = true ↔ ∃ n t, (2 ≤ n)%nat ∧ t ∈ tables_at vs n ∧ overlap vo (key_range t) r;
}.

Definition chosen (c : CompactionSpec T) : list (LevelTableEntry T) := cp_tables c ++ cp_next_level_tables c.

Lemma chosen_at vs c r e : compaction_of vs c r → e ∈ chosen c → e ∈ tables_at vs 0 ∨ e ∈ tables_at vs 1 ∧ overlap vo (key_range e) r.
Proof.
  intros [H1 H2 _ _ _] [He|He]%elem_of_app; [left; by rewrite <- H1|right]. rewrite H2 in He. by apply list_elem_of_filter in He as [? ?].
Qed.

Lemma chosen_entries vs c r e : compaction_of vs c r → e ∈ chosen c → e ∈ entries_of (vs_latest_version vs).
Proof. intros Hc He. destruct (chosen_at _ _ _ _ Hc He) as [H|[H _]]; by apply elem_of_tables_at in H. Qed.

(** A level has its own files, and they are different ones. *)
Lemma entries_numbers vs : state_ok vo vs → NoDup (nf_number <$> (lt_entry <$> entries_of (vs_latest_version vs))).
Proof.
  intros Hs. rewrite flat_files. pose proof (so_unique _ _ _ Hs) as [Hu1 Hu2]. generalize (length (levels (vs_latest_version vs))). intros n.
  induction n as [|n IH]; [constructor|]. rewrite flat_S, fmap_app. apply NoDup_app. split_and!; [done| |apply Hu1].
  intros x (f & -> & Hf)%list_elem_of_fmap (g & E & Hg)%list_elem_of_fmap. apply elem_of_flat in Hf as (m & Hm & Hf).
  assert (m = n); [|lia]. by eapply Hu2.
Qed.

Lemma filter_complement {A} (P : A → Prop) `{!∀ x, Decision (P x)} (l : list A) : l ≡ₚ filter P l ++ filter (λ x, ¬ P x) l.
Proof.
  induction l as [|x l IH]; [done|]. rewrite !filter_cons. destruct (decide (P x)).
  - rewrite decide_False by tauto. cbn. by rewrite <- IH.
  - rewrite decide_True by done. by rewrite <- Permutation_middle, <- IH.
Qed.

(** The tables that stay. *)
Definition unchosen vs (r : KeyRangeRef) : list (LevelTableEntry T) :=
  filter (λ t, ¬ overlap vo (key_range t) r) (tables_at vs 1) ++ concat (lv_tables <$> drop 2 (levels (vs_latest_version vs))).

Lemma chosen_perm vs c r : compaction_of vs c r → entries_of (vs_latest_version vs) ≡ₚ chosen c ++ unchosen vs r.
Proof.
  intros [E1 E2 _ _ _]. unfold chosen. rewrite E1, E2. unfold unchosen, tables_at, entries_of.
  destruct (levels (vs_latest_version vs)) as [|l0 [|l1 ls]]; cbn; [done|by rewrite !app_nil_r|].
  rewrite <- (assoc_L (++)). apply Permutation_app_head. rewrite (assoc_L (++)). apply Permutation_app_tail, (filter_complement (λ t, overlap vo (key_range t) r)).
Qed.

Lemma unchosen_at vs r e : e ∈ unchosen vs r → ∃ n, e ∈ tables_at vs n ∧ (n = 1%nat ∧ ¬ overlap vo (key_range e) r ∨ (2 ≤ n)%nat).
Proof.
  intros [[Ho He]%list_elem_of_filter|He]%elem_of_app; [exists 1%nat; auto|].
  apply list_elem_of_In, in_concat in He as (ts & (l & -> & [k Hk]%list_elem_of_lookup)%list_elem_of_In%list_elem_of_fmap & He%list_elem_of_In).
  rewrite lookup_drop in Hk. exists (2 + k)%nat. split; [|right; lia]. unfold tables_at. by rewrite Hk.
Qed.

Definition deletes (es : list (LevelTableEntry T)) : list DeletedFileEntry := deleted_file <$> es.

Lemma other_unchosen vs c r :
  state_ok vo vs → compaction_of vs c r → kept_files (deletes (chosen c)) (vs_latest_version vs) ≡ₚ lt_entry <$> unchosen vs r.
Proof.
  intros Hs Hc. pose proof (entries_numbers vs Hs) as Hnd. unfold kept_files. rewrite (chosen_perm vs c r Hc) in Hnd |- *.
  rewrite fmap_app, filter_app. rewrite !fmap_app in Hnd. rewrite filter_none, filter_true; [done| |].
  - apply Forall_forall. intros f Hf Hin. apply NoDup_app in Hnd as (_ & Hdis & _). eapply Hdis; [|by apply list_elem_of_fmap_2].
    unfold deletes in Hin. rewrite <- !list_fmap_compose in *. exact Hin.
  - apply Forall_forall. intros f Hf Hn. apply Hn. unfold deletes. rewrite <- list_fmap_compose.
    apply list_elem_of_fmap in Hf as (e & -> & He). apply list_elem_of_fmap. by exists e.
Qed.

(** ** Ranges of a compaction *)

Lemma sorted_lookup {A} (P : relation A) (l : list A) i j x y :
  StronglySorted P l → l !! i = Some x → l !! j = Some y → (i < j)%nat → P x y.
Proof.
  intros Hs Hi Hj Hij. rewrite <- (take_drop_middle l i x Hi) in Hs. apply StronglySorted_app_1_r in Hs. apply StronglySorted_cons in Hs as [Hx _].
  rewrite Forall_forall in Hx. apply Hx, list_elem_of_lookup. exists (j - S i)%nat. rewrite lookup_drop. rewrite <- Hj. f_equal. lia.
Qed.

Abbreviation ile := (@kc_le internal _).

Lemma span_row R next vs r e x :
  version_ok vo R next (vs_latest_version vs) → spans vo r (tables_at vs 0) → e ∈ tables_at vs 0 → x ∈ rows_of R e →
  ile (kr_smallest r) x.1 ∧ ile x.1 (kr_largest r).
Proof.
  intros [Ht _] (_ & Hlo & Hhi) He Hx. rewrite Forall_forall in Ht.
  destruct (table_bounds vo R e x (proj1 (Ht e (elem_of_tables_at _ _ _ He))) Hx) as [H1 H2].
  split; [apply Hlo|apply Hhi]; apply Exists_exists; by exists e.
Qed.

(** Two tables of level 1 are apart. *)
Lemma level_apart R next vs e e' :
  version_ok vo R next (vs_latest_version vs) → e ∈ tables_at vs 1 → e' ∈ tables_at vs 1 → e ≠ e' →
  ¬ ile (nf_smallest_key (lt_entry e')) (nf_largest_key (lt_entry e)) ∨ ¬ ile (nf_smallest_key (lt_entry e)) (nf_largest_key (lt_entry e')).
Proof.
  intros [_ Hd] He He' Hne. unfold tables_at in He, He'. destruct (levels _ !! 1%nat) as [l|] eqn:El; [|by apply elem_of_nil in He].
  specialize (Hd 0%nat l El). cbn in He, He'. apply list_elem_of_lookup in He as [i Hi]. apply list_elem_of_lookup in He' as [j Hj].
  unfold disjoint_tables in Hd. destruct (Nat.lt_trichotomy i j) as [Hij|[->|Hij]]; [left| |right].
  - exact (sorted_lookup _ _ _ _ _ _ Hd Hi Hj Hij).
  - congruence.
  - exact (sorted_lookup _ _ _ _ _ _ Hd Hj Hi Hij).
Qed.

Lemma chosen_side R next vs c r e :
  version_ok vo R next (vs_latest_version vs) → compaction_of vs c r → e ∈ tables_at vs 1 → ¬ overlap vo (key_range e) r →
  (∀ e' x, e' ∈ chosen c → x ∈ rows_of R e' → ¬ ile (nf_smallest_key (lt_entry e)) x.1) ∨
  (∀ e' x, e' ∈ chosen c → x ∈ rows_of R e' → ¬ ile x.1 (nf_largest_key (lt_entry e))).
Proof.
  intros Hv Hc He Hno. assert (∀ e, e ∈ tables_at vs 1 → ile (nf_smallest_key (lt_entry e)) (nf_largest_key (lt_entry e))) as Hord.
  { intros e' He'. pose proof (version_ranges_ok o R next vs Hv 1%nat) as Hr. rewrite Forall_forall in Hr. apply (Hr e' He'). }
  assert (∀ e' x, e' ∈ chosen c → x ∈ rows_of R e' → (ile (kr_smallest r) x.1 ∧ ile x.1 (kr_largest r)) ∨
    e' ∈ tables_at vs 1 ∧ e' ≠ e ∧ overlap vo (key_range e') r ∧ ile (nf_smallest_key (lt_entry e')) x.1 ∧ ile x.1 (nf_largest_key (lt_entry e'))) as Hrow.
  { intros e' x He' Hx. destruct (chosen_at _ _ _ _ Hc He') as [H0|[H1 Ho]].
    - left. eapply span_row; [done|apply Hc|done|done].
    - right. pose proof (vo_tables _ _ _ _ Hv) as Ht. rewrite Forall_forall in Ht.
      destruct (table_bounds vo R e' x (proj1 (Ht e' (elem_of_tables_at _ _ _ H1))) Hx). split_and!; try done; congruence. }
  assert (¬ ile (nf_smallest_key (lt_entry e)) (kr_largest r) ∨ ¬ ile (kr_smallest r) (nf_largest_key (lt_entry e))) as [Hs|Hs].
  { unfold overlap in Hno. cbn in Hno. destruct (decide (ile (nf_smallest_key (lt_entry e)) (kr_largest r))); [right; tauto|by left]. }
  - left. intros e' x He' Hx Hle. destruct (Hrow e' x He' Hx) as [[_ H]|(H1 & Hne & [Ho _] & _ & H)]; [by apply Hs; etrans|]. cbn in Ho.
    destruct (level_apart R next vs e e' Hv He H1) as [Ha|Ha]; [done| |].
    + apply Ha. etrans; [exact Ho|]. destruct (kc_le_total (c := internal) (kr_largest r) (nf_smallest_key (lt_entry e))); [|done].
      etrans; [done|]. by apply Hord.
    + apply Ha. by etrans.
  - right. intros e' x He' Hx Hle. destruct (Hrow e' x He' Hx) as [[H _]|(H1 & Hne & [_ Ho] & H & _)]; [by apply Hs; etrans|]. cbn in Ho.
    destruct (level_apart R next vs e e' Hv He H1) as [Ha|Ha]; [done| |].
    + apply Ha. by etrans.
    + apply Ha. etrans; [by apply Hord|]. destruct (kc_le_total (c := internal) (nf_largest_key (lt_entry e)) (kr_smallest r)); [|done].
      by etrans.
Qed.

Lemma chosen_apart R next vs c r f g :
  version_ok vo R next (vs_latest_version vs) → compaction_of vs c r →
  (∃ e x, e ∈ chosen c ∧ x ∈ rows_of R e ∧ x.1 = nf_smallest_key f) → (∃ e y, e ∈ chosen c ∧ y ∈ rows_of R e ∧ y.1 = nf_largest_key f) →
  g ∈ files (vs_latest_version vs) 1 → other_file (deletes (chosen c)) g → ¬ overlap vo (file_range f) (file_range g).
Proof.
  intros Hv Hc (e1 & x & He1 & Hx & Ex) (e2 & y & He2 & Hy & Ey) (e & He & ->)%file_at Hother [O1 O2]. cbn in O1, O2.
  assert (¬ overlap vo (key_range e) r) as Hno.
  { intros Ho. apply Hother. unfold deletes. rewrite <- list_fmap_compose. apply list_elem_of_fmap. exists e. split; [done|].
    apply elem_of_app. right. rewrite (cpo_next _ _ _ Hc). by apply list_elem_of_filter. }
  destruct (chosen_side R next vs c r e Hv Hc He Hno) as [Hs|Hs].
  - apply (Hs e2 y He2 Hy). by rewrite Ey.
  - apply (Hs e1 x He1 Hx). by rewrite Ex.
Qed.

Lemma overlap_sym r r' : overlap vo r r' → overlap vo r' r.
Proof. unfold overlap. tauto. Qed.

Lemma chosen_safe R next vs c r es :
  version_ok vo R next (vs_latest_version vs) → compaction_of vs c r →
  deletions_inside o (concat (rows_of R <$> tables_at vs 0)) es →
  removal_safe (negb (cp_found_overlap c)) es (concat (rows_of R <$> unchosen vs r)).
Proof.
  intros Hv Hc Hdel. apply (inside_safe o _ (concat (rows_of R <$> tables_at vs 0)) es _ (kr_smallest r) (kr_largest r)); [| |done].
  - intros x (e & He & Hx)%elem_of_rows. eapply span_row; [done|apply Hc|done|done].
  - intros Hrd x (e & He & Hx)%elem_of_rows [H1 H2]. apply negb_true_iff in Hrd.
    apply unchosen_at in He as (n & He & Hn). pose proof (elem_of_tables_at _ _ _ He) as Hin.
    pose proof (row_overlap o R next vs e x _ _ Hv Hin Hx H1 H2) as Ho%overlap_sym. destruct r as [lo hi]. cbn in Ho.
    destruct Hn as [[-> Hno]|Hn]; [done|]. rewrite (proj2 (cpo_found _ _ _ Hc)) in Hrd; [done|]. by exists n, e.
Qed.

(** ** Merging the tables *)

Lemma entry_iters_ok R es :
  Forall (table_ok vo R) es →
  ∃ sources : list (Source (I := J)), entry_iters table_iter es = Some (sr_iter <$> sources) ∧ Forall (@source_ok internal (vo_laws o) J HJ LJ) sources ∧
    Forall (λ i, sr_rest i = sr_all i) sources ∧ sr_all <$> sources = rows_of R <$> es.
Proof.
  induction 1 as [|e es (t & p & Ht & Hr & Hok & _) _ (ss & IH1 & IH2 & IH3 & IH4)]; [by exists []|].
  exists (mkSource (table_iter t) (rows_of R e) (rows_of R e) :: ss). cbn. rewrite Ht. cbn. rewrite IH1. cbn. split_and!; [done| |by constructor|].
  - constructor; [|done]. by apply (table_iter_rep t _ p).
  - by rewrite <- IH4.
Qed.

(** Some of the entries, in order. *)
Lemma some_entries (all es others : list KeyValueEntry) :
  entries_ok internal all → all ≡ₚ es ++ others → ∃ es', es' ≡ₚ es ∧ entries_ok internal es'.
Proof.
  intros Hok Hp. pose proof (entries_nodup _ _ Hok) as Hnd. exists (filter (λ x, x ∈ es) all). split; [|by apply entries_filter].
  apply NoDup_Permutation; [by apply NoDup_filter|rewrite Hp in Hnd; by apply NoDup_app in Hnd as [? _]|].
  intros e. rewrite list_elem_of_filter, Hp, elem_of_app. tauto.
Qed.

Lemma compacted_tables s R bo bi bm c r :
  mem_ok s R bo bi bm → compaction_of (version_set s) c r →
  ∃ its all rest, entry_iters table_iter (chosen c) = Some its ∧ @merge_rep internal (vo_laws o) J HJ LJ (MergeIterator_new its) all all ∧
    all ≡ₚ concat (rows_of R <$> chosen c) ∧ represents user rest bo ∧ rest ≡ₚ all ++ concat (rows_of R <$> unchosen (version_set s) r).
Proof.
  intros Hm Hc. pose proof (ok_version _ _ _ _ _ _ Hm) as Hv. destruct (ok_rows _ _ _ _ _ _ Hm) as (rest & Hp & Hr).
  unfold contents in Hp. rewrite (chosen_perm _ _ _ Hc), fmap_app, concat_app in Hp.
  destruct (some_entries rest _ _ (rp_ok _ _ _ Hr) Hp) as (all & Hall & Hok).
  destruct (entry_iters_ok R (chosen c)) as (ss & Hits & S1 & S2 & S3).
  { pose proof (vo_tables _ _ _ _ Hv) as Ht. rewrite Forall_forall in Ht |- *. intros e He. by apply Ht, (chosen_entries _ c r). }
  exists (sr_iter <$> ss), all, rest. split_and!; [done| |done|done|by rewrite Hall].
  apply (@merge_new_rep internal (vo_laws o) J HJ LJ _ ss); [done|done|done|done|]. by rewrite S3, Hall.
Qed.

(** ** The selection of a compaction *)

Definition compact_edit vs (es : list (LevelTableEntry T)) : VersionEdit :=
  mkVersionEdit None None None None [] (deletes es) (Some (vs_next_file_number vs)) None.

Lemma compact_edit_fold vs es :
  fold_left (λ edit entry, push_deleted_file (deleted_file entry) edit) es (set_next_file_number (vs_next_file_number vs) VersionEdit_default) =
  compact_edit vs es.
Proof.
  induction es as [|e es IH] using rev_ind; [done|]. rewrite fold_left_app, IH. cbn. unfold compact_edit, push_deleted_file. cbn.
  unfold deletes. by rewrite fmap_app.
Qed.

Lemma compact_base_edit vs c r : state_ok vo vs → compaction_of vs c r → base_edit vs (compact_edit vs (chosen c)).
Proof.
  intros Hs Hc. pose proof (entries_numbers vs Hs) as Hnd. split; cbn; try done.
  - rewrite (chosen_perm vs c r Hc), !fmap_app in Hnd. apply NoDup_app in Hnd as [Hnd _]. unfold deletes.
    rewrite <- list_fmap_compose in Hnd. rewrite <- list_fmap_compose. exact Hnd.
  - intros d (e & -> & He)%list_elem_of_fmap. apply (chosen_entries vs c r e Hc), elem_of_levels in He as [n He].
    assert (lt_entry e ∈ files (vs_latest_version vs) n) as Hf by (unfold files; by apply list_elem_of_fmap_2).
    pose proof (ho_keys _ _ _ (so_holds _ _ _ Hs) n) as Hk. rewrite Forall_forall in Hk. destruct (Hk _ Hf) as [El _].
    destruct (so_files _ _ _ Hs n _ Hf) as [[Hfl _ _ _ _ _] _]. cbn. split; [done|]. exists (lt_entry e). split; [|done]. by rewrite El, Nat2Z.id.
Qed.

Lemma length_entries bs es :
  NoDup es → (∀ x : KeyValueEntry, x ∈ es → x ∈ entry_of <$> writes bs) → (length es ≤ length (writes bs))%nat.
Proof.
  intros Hnd Hsub. rewrite <- (length_fmap entry_of (writes bs)). apply submseteq_length, NoDup_submseteq; [done|]. exact Hsub.
Qed.

Lemma select_compact_run s c fuel its target s1 s' ed' tables :
  entry_iters table_iter (chosen c) = Some its → target_file_size vo (cp_next_level c) = Some target →
  build_tables (merge_iterable internal) fuel (MergeIterator_new its) (negb (cp_found_overlap c))
    (compact_edit (version_set s) (chosen c)) target 1 None s = Done (inr (tables, ed'), s1) →
  write_edit ed' s1 = Done (inr tt, s') →
  select_compact table_iter options fuel None c s = Done (inr (CompactTables ed' tables), s').
Proof.
  intros Hits Htarget Hbuild Hwrite. unfold select_compact, bind at 1, gets at 1. change (id s) with s. fold (chosen c).
  rewrite compact_edit_fold. unfold bind at 1. rewrite Hits. cbn [unwrap]. unfold ret at 1. unfold bind at 1. rewrite Htarget. cbn [unwrap].
  unfold ret at 1. unfold try_bind at 1, bind at 1. change (do_comparator vo) with internal. rewrite Hbuild. unfold try_bind at 1, bind at 1.
  by rewrite Hwrite.
Qed.

Lemma select_compact_ok s R bo bi bm c r fuel :
  options_fit o (T := T) → mem_ok s R bo bi bm → disk_ok o s (version_set s) R bi bm → es_immutable_table (db_state s) = None →
  room o s (bo ++ bi ++ bm) fuel → compaction_of (version_set s) c r →
  deletions_inside o (concat (rows_of R <$> tables_at (version_set s) 0)) (concat (rows_of R <$> chosen c)) →
  selected o s R bo bi bm (try! job := select_compact table_iter options fuel None c in ret (inr (Some job))).
Proof.
  intros Hfit Hm Hd Him Hroom Hc Hdel. pose proof (ok_version _ _ _ _ _ _ Hm) as Hv. pose proof (ok_set _ _ _ _ _ _ Hm) as Hs.
  destruct (compacted_tables s R bo bi bm c r Hm Hc) as (its & all & rest & Hits & Hrep & Hall & Hr & Hp).
  pose proof (ok_history _ _ _ _ _ _ Hm) as Hh. destruct (history_app user _ _ Hh) as [Hhb _]. destruct (room_less o s _ _ _ Hroom) as [[H1 H2 H3] _].
  destruct (it_rep_ok (IterableLaws := @merge_laws internal (vo_laws o) J HJ LJ) _ _ _ _ Hrep) as [Hok _].
  assert (∀ x : KeyValueEntry, x ∈ all → x ∈ entry_of <$> writes bo) as Hsub by (intros x Hx; apply (rp_sub _ _ _ Hr); rewrite Hp; apply elem_of_app; by left).
  pose proof (length_entries bo all (entries_nodup _ _ Hok) Hsub) as Hlen.
  destruct (level_target o (T := T) 1 Hfit) as [target Htarget]; [lia|].
  destruct (build_selects o (LI := @merge_laws internal (vo_laws o) J HJ LJ) s R bo bi bm bo (negb (cp_found_overlap c)) 1 target all (MergeIterator_new its) all
    (compact_edit (version_set s) (chosen c)) fuel) as (s1 & s' & ed' & tables & vd & R' & Hbuild & Hwrite & [T1 T2 T3 T4 T5 T6 T7 T8]);
    [done|done|by eapply compact_base_edit|done|done|exact Hrep|exact Hok|by eapply entries_fit| |lia|lia|lia| | | |by eapply ok_flushed|].
  - apply H1; [by apply entries_filter|]. intros x. unfold compacted. rewrite list_elem_of_filter. intros [_ ?]. auto.
  - eapply level_fits_le; [apply Hfit|]. change (1 ≤ S (do_max_memtable_level vo))%nat. lia.
  - intros f g (x & Hx & Ex) (y & Hy & Ey) _. apply (chosen_apart R _ _ c r f g Hv Hc).
    + rewrite Hall in Hx. apply elem_of_rows in Hx as (e & He & Hx). by exists e, x.
    + rewrite Hall in Hy. apply elem_of_rows in Hy as (e & He & Hy). by exists e, y.
  - pose proof (fmap_Permutation (file_rows R) _ _ (other_unchosen _ c r Hs Hc)) as Hk. rewrite <- list_fmap_compose in Hk.
    destruct (compacted_represents user (negb (cp_found_overlap c)) U64_MAX all _ rest bo Hhb Hr Hp) as (all' & Hp' & Hr').
    { apply (chosen_safe R (vs_next_file_number (version_set s)) (version_set s) c r); [exact Hv|done|]. eapply deletions_ext; [done| |exact Hdel]. intros x. by rewrite Hall. }
    exists all'. split; [|done]. rewrite Hp'. apply Permutation_app_head. by rewrite Hk.
  - pose proof (ok_immutable _ _ _ _ _ _ Hm) as Hi. unfold immutable_ok in Hi. rewrite Him in Hi. destruct Hi as [-> Hprev].
    exists (Some (CompactTables ed' tables)), s', vd, R', bo, [], bm. split_and!; [|done|done| |].
    + unfold try_bind, bind. erewrite select_compact_run; [done|done|rewrite (cpo_level _ _ _ Hc); done|exact Hbuild|exact Hwrite].
    + apply job_compact; rewrite ?T1; [done|done|done|done|done].
    + destruct (dk_log _ _ _ _ _ _ Hd) as (n & Hn & Hnf & Hne). cbn in T6. apply T8; [by rewrite T6, Hprev|].
      exists n. rewrite T6, T7. done.
Qed.

(** ** The selection of a round *)

(** The deletions that the next round removes hide nothing. *)
Definition removals_inside s R bi : Prop :=
  match es_immutable_table (db_state s) with
  | Some _ => deletions_inside o (entry_of <$> writes bi) (entry_of <$> writes bi)
  | None => ∀ c r, compaction_of (version_set s) c r →
      deletions_inside o (concat (rows_of R <$> tables_at (version_set s) 0)) (concat (rows_of R <$> chosen c))
  end.

Lemma select_spec_ok s R bo bi bm rng :
  options_fit o (T := T) → mem_ok s R bo bi bm →
  ∃ res, select_spec table_properties options rng None s = Done (res, s) ∧
    match res with None => True | Some c => ∃ r, compaction_of (version_set s) c r end.
Proof.
  intros Hfit Hm. pose proof (ok_version _ _ _ _ _ _ Hm) as Hv. pose proof (ok_set _ _ _ _ _ _ Hm) as Hs.
  destruct (select_compaction_spec vo rng (version_set s) _ (so_holds _ _ _ Hs) (version_ranges_ok o R _ _ Hv)) as (res & Hrun & Hres); try apply Hfit.
  { intros [|n] Hn; [lia|]. unfold tables_at. destruct (levels _ !! S n) as [l|] eqn:El; [|constructor]. by apply (vo_disjoint _ _ _ _ Hv n). }
  exists res. split.
  - unfold select_spec, bind at 1, gets at 1. change (id s) with s. unfold bind at 1, lift_run at 1. rewrite Hrun. destruct res; [done|].
    change (eo_enable_compaction_waterline options) with (eo_enable_compaction_waterline o). by rewrite (od_waterline _ (of_default _ Hfit)).
  - destruct res as [c|]; [|done]. destruct Hres as (_ & _ & H2 & H3 & r & H4 & H5 & H6). exists r. by split.
Qed.

Lemma select_none s R bo bi bm job :
  disk_ok o s (version_set s) R bi bm → job_ok o s R bo bi bm job (version_set s) R bo bi bm → selected o s R bo bi bm (ret (inr job)).
Proof. intros Hd Hj. by exists job, s, (version_set s), R, bo, bi, bm. Qed.

Lemma select_job_run s t fuel rng :
  eo_enable_compaction_waterline o = false → db_memtables s !! es_mutable_table (db_state s) = Some t →
  select_job table_iter table_properties options fuel rng s =
  match es_immutable_table (db_state s) with
  | None =>
    if eo_write_buffer_size o <=? mt_size t then (try! job := select_swap options in ret (inr (Some job))) s
    else (let! spec := select_spec table_properties options rng None in
      match spec with
      | Some c => try! job := select_compact table_iter options fuel None c in ret (inr (Some job))
      | None => ret (inr (if eo_max_manifest_file_size o <=? Z.of_nat (rw_extent (db_manifest s).2) then Some SwitchManifest else None))
      end) s
  | Some m => (try! job := select_flush options fuel None m in ret (inr (Some job))) s
  end.
Proof.
  intros Hw Ht. unfold select_job, select_waterline. change (eo_enable_compaction_waterline options) with (eo_enable_compaction_waterline o).
  rewrite Hw. cbn [negb]. unfold try_bind at 1, bind at 1, ret at 1. unfold bind at 1, gets at 1. change (id s) with s.
  unfold bind at 1, memtable at 1, bind at 1, gets at 1. change (id s) with s. rewrite Ht. cbn [unwrap]. unfold ret at 1.
  change (eo_write_buffer_size options) with (eo_write_buffer_size o). change (eo_max_manifest_file_size options) with (eo_max_manifest_file_size o).
  destruct (es_immutable_table (db_state s)); [done|]. by destruct (_ <=? _).
Qed.

Lemma selected_run s R bo bi bm (m m' : M (EmbeddedDB (T := T)) (Result (option (Job (T := T))))) :
  m' s = m s → selected o s R bo bi bm m → selected o s R bo bi bm m'.
Proof. intros E (job & s' & vd & R' & bo' & bi' & bm' & H). exists job, s', vd, R', bo', bi', bm'. by rewrite E. Qed.

Lemma select_job_ok s R bo bi bm fuel rng :
  options_fit o (T := T) → mem_ok s R bo bi bm → disk_ok o s (version_set s) R bi bm → room o s (bo ++ bi ++ bm) fuel → removals_inside s R bi →
  selected o s R bo bi bm (select_job table_iter table_properties options fuel rng).
Proof.
  intros Hfit Hm Hd Hroom Hsafe. pose proof (of_default _ Hfit) as Hdef. destruct (ok_mutable _ _ _ _ _ _ Hm) as (t & Ht & _ & Hsize).
  pose proof (select_job_run s t fuel rng (od_waterline _ Hdef) Ht) as Hrun. unfold removals_inside in Hsafe.
  destruct (es_immutable_table (db_state s)) as [m|] eqn:Him; [eapply selected_run; [exact Hrun|by apply select_flush_ok]|].
  destruct (_ <=? mt_size t) eqn:Hfull.
  - eapply selected_run; [exact Hrun|]. apply select_swap_ok; [done|done|done|done| |].
    + intros ->. rewrite Hsize in Hfull by done. apply Z.leb_le in Hfull. pose proof (od_buffer _ Hdef). lia.
    + pose proof (ro_numbers _ _ _ _ Hroom). lia.
  - destruct (select_spec_ok s R bo bi bm rng Hfit Hm) as (res & Hspec & Hres). unfold bind at 1 in Hrun. rewrite Hspec in Hrun.
    destruct res as [c|]; (eapply selected_run; [exact Hrun|]).
    + destruct Hres as [r Hc]. eapply select_compact_ok; [done..|exact Hc|by apply (Hsafe c r)].
    + apply select_none; [done|]. destruct (eo_max_manifest_file_size o <=? _); [apply job_switch|apply job_none].
Qed.
End Database.
