(* ===== verification/DatabaseRounds.v ===== *)
(** * Writes, rounds and snapshots

    Writes and snapshots come at any time, also between the selection and the
    commit of a round: what is selected stays right, and what a snapshot reads
    stays the same. *)

From S2P Require Import Prelude Wire Encoding Comparator SkipList SkipListProofs SkipListTheorems RecordLog RecordLogProofs RecordLogTheorems.
From S2P Require Import WriteBatch WriteBatchTheorems MergeIterator MergeIteratorTheorems Snapshot SnapshotProofs SnapshotTheorems.
From S2P Require Import Filter Table TableBuild VersionEdit VersionEditTheorems Version VersionProofs VersionRecovery VersionTheorems.
From S2P Require Import LevelIterator LevelIteratorTheorems Compaction CompactionProofs CompactionBuild CompactionTheorems VersionRows.
From S2P Require Import Database DatabaseReads DatabaseProofs DatabaseJobs DatabaseSelect DatabaseCompact.

Section Database.
Context (o : DatabaseOptions).
Abbreviation user := (do_comparator (eo_version o)).
Abbreviation internal := (InternalKeyComparator user).
Abbreviation options := (wrap_database_options o).
Abbreviation vo := (eo_version options).
Context `{!KeyComparatorLaws user} `{!AntiSymm (=) (@kc_le user _)}.
#[local] Existing Instance vo_laws.
Context {B T J : Type} {HT : TableStore B T} (table_iter : T → J) {HJ : Iterable J}.
Context {LT : @TableStoreLaws (do_comparator vo) (vo_laws o) B T HT} {LJ : @IterableLaws (do_comparator vo) (vo_laws o) J HJ}.
Hypothesis table_iter_rep : ∀ t rows p, ts_rows t rows p → entries_ok (do_comparator vo) rows → it_rep (do_comparator vo) (table_iter t) rows rows.
Context (table_properties : T → TableProperties) (rngs : nat → nat → Z).
Implicit Types (s : EmbeddedDB (T := T)) (R : Z → list KeyValueEntry) (bo bi bm : list Batch) (vs vd : VersionSet T).
Implicit Types (ds : list (DBSnapshot (T := T))).
Abbreviation version_set s := (es_version_set (db_state s)).
Abbreviation mem_ok := (mem_ok o).

Abbreviation Job := (Job (T := T)).


(** What the memory and the files of a database hold, with a job that was
    selected and not committed. *)
Definition database_ok s (job : option Job) R bo bi bm : Prop :=
  mem_ok s R bo bi bm ∧ ∃ vd R' bo' bi' bm', job_ok o s R bo bi bm job vd R' bo' bi' bm' ∧ disk_ok o s vd R' bi' bm'.

(** ** Writes *)

(** The files after a record of the current log. *)
Lemma disk_ok_written s vd R bi bm bi' bm' q ws n w t :
  disk_ok o s vd R bi bm → is_Some (dir_logs (db_dir s) !! n) →
  match vs_prev_log_number vd with None => bi' = [] | Some p => bi' ≠ [] ∧ log_file (db_dir (written_state s q ws n w t)) p bi' end →
  (∃ k, vs_log_number vd = Some k ∧ log_file (db_dir (written_state s q ws n w t)) k bm' ∧ vs_prev_log_number vd ≠ Some k) →
  disk_ok o (written_state s q ws n w t) vd R bi' bm'.
Proof.
  intros [D1 D2 D3 D4 D5 D6 D7] [file Hn] Hp Hl. split; [done|done|done|done|done|done|].
  intros m Hm. destruct (D7 m Hm) as (F1 & F2 & F3). split_and!; [done| |done]. cbn. rewrite lookup_insert_ne; [done|congruence].
Qed.

Lemma job_ok_written s R bo bi bm job vd R' bo' bi' bm' q ws n w t b :
  mem_ok s R bo bi bm → job_ok o s R bo bi bm job vd R' bo' bi' bm' → disk_ok o s vd R' bi' bm' →
  vs_log_number (version_set s) = Some n → log_of (batch_record <$> (bm ++ [b])) w →
  ∃ bi2 bm2, job_ok o (written_state s q ws n w t) R bo bi (bm ++ [b]) job vd R' bo' bi2 bm2 ∧
    disk_ok o (written_state s q ws n w t) vd R' bi2 bm2.
Proof.
  intros Hm Hj Hd Hn Hw. pose proof (dk_prev _ _ _ _ _ _ Hd) as Hprev. destruct (dk_log _ _ _ _ _ _ Hd) as (k & Hk & (wk & Wk1 & Wk2) & Hne).
  assert (log_file (db_dir (written_state s q ws n w t)) n (bm ++ [b])) as Hnew by (exists w; split; [done|cbn; by rewrite lookup_insert_eq]).
  assert (∀ p bs, p ≠ n → log_file (db_dir s) p bs → log_file (db_dir (written_state s q ws n w t)) p bs) as Hold.
  { intros p bs Hp. by apply log_file_insert. }
  assert (vs_log_number vd = Some n → disk_ok o (written_state s q ws n w t) vd R' bi' (bm ++ [b])) as Hlog.
  { intros E. assert (k = n) as -> by congruence. eapply disk_ok_written; [done|by rewrite Wk2| |by exists n].
    destruct (vs_prev_log_number vd) as [p|]; [|done]. split; [by apply Hprev|]. apply Hold; [congruence|by apply Hprev]. }
  destruct Hj as [| |edit n' vd H1 H2 H3 H4 H5 H6|edit tables vd R' H1 H2 H3 H4 H5|edit tables vd R' H1 H2 H3 H4 H5].
  - exists bi, (bm ++ [b]). split; [exact (job_none o (written_state s q ws n w t) R bo bi (bm ++ [b]))|by apply Hlog].
  - exists bi, (bm ++ [b]). split; [exact (job_switch o (written_state s q ws n w t) R bo bi (bm ++ [b]))|by apply Hlog].
  - exists (bm ++ [b]), []. rewrite H6, Hn in Hprev. rewrite H6, Hn in Hne. assert (n' = k) as -> by congruence. split.
    + apply job_swap; try done. by destruct bm.
    + destruct Hprev as [_ (wp & _ & Hwp)]. eapply disk_ok_written; [done|by rewrite Hwp| |].
      * rewrite H6, Hn. split; [by destruct bm|done].
      * exists k. rewrite H6, Hn. split_and!; [done| |done]. apply Hold; [congruence|]. by exists wk.
  - exists [], (bm ++ [b]). split; [by apply job_flush|]. apply Hlog. by rewrite H4.
  - exists bi, (bm ++ [b]). split; [by apply job_compact|]. apply Hlog. by rewrite H4.
Qed.

(** ** Snapshots *)

(** Snapshots that were taken. *)
Definition snapshots_ok s R (bs bm : list Batch) (ds : list (DBSnapshot (T := T))) : Prop :=
  Forall (λ d, snap_ok o s R bs bm d ∧ ds_last_sequence d ≤ es_log_last_sequence (db_state s)) ds.

Lemma snapshots_same s s' R bs bm ds :
  db_state s' = db_state s → db_memtables s' = db_memtables s → snapshots_ok s R bs bm ds → snapshots_ok s' R bs bm ds.
Proof.
  intros E1 E2 Hds. eapply Forall_impl; [exact Hds|]. cbn. intros d [[H1 H2 (bo & ps & rest & all & H)] Hle]. rewrite E1. split; [|done].
  split; [by rewrite E1|done|]. exists bo, ps, rest, all. rewrite E1. destruct H as (? & ? & ? & Hm & Hl & ? & ?).
  do 3 (split; [done|]). split; [|done]. eapply Forall2_impl; [exact Hm|]. intros n p (t & ?). exists t. by rewrite E2.
Qed.

(** A snapshot keeps its memtables and its version; a new memtable is not one
    of its memtables. *)
Lemma snapshot_advance s s' R R' bs bm bm' d :
  snap_ok o s R bs bm d → (∃ l, db_memtables s' = db_memtables s ++ l) →
  vs_next_file_number (version_set s) ≤ vs_next_file_number (version_set s') →
  (∀ m, m < vs_next_file_number (version_set s) → R' m = R m) →
  (es_mutable_table (db_state s') = es_mutable_table (db_state s) ∧ bm' = bm ∨ es_mutable_table (db_state s') = length (db_memtables s)) →
  snap_ok o s' R' bs bm' d.
Proof.
  intros [H1 H2 (bo & ps & rest & all & E & Hp & Hr & Hm & Hl & Hrest & Hmut)] Happ Hn HR Hm'.
  destruct (version_ok_extend o R R' _ _ _ H1 Hn HR) as [Hv Ec].
  assert (Forall2 (memtable_holds o s') (ds_memtables d) ps) as Hmem.
  { eapply Forall2_impl; [exact Hm|]. intros n p. by apply memtable_holds_app. }
  split; [done|done|]. exists bo, ps, rest, all. split_and!; try done; [by rewrite Ec|lia|lia|].
  destruct Hm' as [[-> ->]| ->]; [done|]. left. intros Hin. apply list_elem_of_lookup in Hin as [i Hi].
  destruct (Forall2_lookup_l _ _ _ _ _ Hm Hi) as (p & _ & t & Ht & _). apply lookup_lt_Some in Ht. lia.
Qed.

Lemma snapshots_advance s s' R R' bs bm bm' ds :
  snapshots_ok s R bs bm ds → (∃ l, db_memtables s' = db_memtables s ++ l) →
  vs_next_file_number (version_set s) ≤ vs_next_file_number (version_set s') →
  (∀ m, m < vs_next_file_number (version_set s) → R' m = R m) → es_log_last_sequence (db_state s') = es_log_last_sequence (db_state s) →
  (es_mutable_table (db_state s') = es_mutable_table (db_state s) ∧ bm' = bm ∨ es_mutable_table (db_state s') = length (db_memtables s)) →
  snapshots_ok s' R' bs bm' ds.
Proof.
  intros Hds H1 H2 H3 H4 H5. eapply Forall_impl; [exact Hds|]. cbn. intros d [Hd Hle]. split; [by eapply snapshot_advance|]. by rewrite H4.
Qed.

(** ** The operations *)

Lemma write_database s job R bo bi bm ds q ws :
  options_default o → database_ok s job R bo bi bm → snapshots_ok s R (bo ++ bi ++ bm) bm ds → write_fits o s q ws →
  let b := (assigned s q, ws) in
  ∃ s', write options (batch_bytes q ws) s = Done (inr tt, s') ∧ database_ok s' job R bo bi (bm ++ [b]) ∧
    snapshots_ok s' R ((bo ++ bi ++ bm) ++ [b]) (bm ++ [b]) ds.
Proof.
  intros Hdef [Hm (vd & R' & bo' & bi' & bm' & Hj & Hd)] Hds Hf b.
  destruct (write_ok o s R bo bi bm q ws Hdef Hm Hf) as (n & w & t & Hrun & Hn & Hw & Hm').
  destruct (job_ok_written s R bo bi bm job vd R' bo' bi' bm' q ws n w t b Hm Hj Hd Hn Hw) as (bi2 & bm2 & Hj' & Hd').
  exists (written_state s q ws n w t). split_and!; [done|by split; [|exists vd, R', bo', bi2, bm2]|].
  pose proof (ok_mutable _ _ _ _ _ _ Hm) as Hmut. pose proof Hmut as (t0 & Ht0 & _).
  destruct (ok_mutable _ _ _ _ _ _ Hm') as (t1 & Ht1 & Hh1 & _). cbn in Ht1.
  rewrite list_lookup_insert_eq in Ht1 by (by eapply lookup_lt_Some). injection Ht1 as <-.
  eapply Forall_impl; [exact Hds|]. cbn. intros d [Hd1 Hd2]. pose proof (wf_new _ _ _ _ Hf). split; [|lia].
  by apply snap_ok_write.
Qed.

Lemma select_database s R bo bi bm ds fuel rng :
  options_fit o (T := T) → database_ok s None R bo bi bm → snapshots_ok s R (bo ++ bi ++ bm) bm ds →
  room o s (bo ++ bi ++ bm) fuel → removals_inside o s R bi →
  ∃ job s', select_job table_iter table_properties options fuel rng s = Done (inr job, s') ∧ database_ok s' job R bo bi bm ∧
    snapshots_ok s' R (bo ++ bi ++ bm) bm ds.
Proof.
  intros Hfit [Hm (vd & R' & bo' & bi' & bm' & Hj & Hd)] Hds Hroom Hsafe.
  assert (disk_ok o s (version_set s) R bi bm) as Hd' by (by inversion Hj; subst).
  destruct (select_job_ok o table_iter table_iter_rep table_properties s R bo bi bm fuel rng Hfit Hm Hd' Hroom Hsafe)
    as (job & s' & vd1 & R1 & bo1 & bi1 & bm1 & Hrun & E1 & E2 & Hj1 & Hd1).
  exists job, s'. split_and!; [done|split; [by eapply mem_ok_same|by exists vd1, R1, bo1, bi1, bm1]|by eapply snapshots_same].
Qed.

Lemma snapshot_database s job R bo bi bm ds :
  database_ok s job R bo bi bm → snapshots_ok s R (bo ++ bi ++ bm) bm ds →
  ∃ d, snapshot s = Done (d, s) ∧ ds_last_sequence d = last_seq (bo ++ bi ++ bm) ∧ snapshots_ok s R (bo ++ bi ++ bm) bm (d :: ds).
Proof.
  intros [Hm _] Hds. destruct (current_snap_ok o s R bo bi bm Hm) as (d & Hd & El & Hs). exists d. split_and!; [done|done|].
  constructor; [|done]. split; [done|]. by rewrite El, (ok_sequence _ _ _ _ _ _ Hm).
Qed.

Lemma disk_ok_same s s' vd R bi bm :
  db_dir s' = db_dir s → db_manifest s' = db_manifest s → disk_ok o s vd R bi bm → disk_ok o s' vd R bi bm.
Proof. intros E1 E2 [D1 D2 D3 D4 D5 D6 D7]. by split; rewrite ?E1, ?E2. Qed.

Lemma idle_database s R bo bi bm : mem_ok s R bo bi bm → disk_ok o s (version_set s) R bi bm → database_ok s None R bo bi bm.
Proof. intros Hm Hd. split; [done|]. exists (version_set s), R, bo, bi, bm. split; [apply job_none|done]. Qed.

Lemma commit_database s job R bo bi bm ds :
  options_fit o (T := T) → database_ok s (Some job) R bo bi bm → snapshots_ok s R (bo ++ bi ++ bm) bm ds →
  vs_next_file_number (version_set s) + 1 < U64_MAX →
  ∃ s' R' bo' bi' bm', commit_job options rngs job s = Done (inr tt, s') ∧ database_ok s' None R' bo' bi' bm' ∧
    bo' ++ bi' ++ bm' = bo ++ bi ++ bm ∧ snapshots_ok s' R' (bo ++ bi ++ bm) bm' ds.
Proof.
  intros Hfit [Hm (vd & R' & bo' & bi' & bm' & Hj & Hd)] Hds Hnext.
  pose proof (λ s' R' bm', snapshots_advance s s' R R' (bo ++ bi ++ bm) bm bm' ds Hds) as Hadv.
  inversion Hj as [| |edit n vd0 H1 H2 H3 H4 H5 H6|edit tables vd0 R0 H1 H2 H3 H4 H5|edit tables vd0 R0 H1 H2 H3 H4 H5]; subst.
  - destruct (switch_manifest_ok o s R' bo' bi' bm' (of_name _ Hfit) Hm Hd Hnext) as (vd & n & w & Hrun & Hm' & Hd' & Hle).
    exists (switched_state s vd n w), R', bo', bi', bm'. split_and!; [done|by apply idle_database|done|].
    apply Hadv; [exists []; by rewrite app_nil_r|done|done|done|by left].
  - destruct (commit_swap_ok o rngs s R' bo' bi bi' edit n vd (of_default _ Hfit) Hm H1 H2 H3 H4 H5 H6) as [Hrun Hm'].
    exists (swapped_state rngs s vd (Some (n, RecordWriter_new))), R', bo', bi', []. split_and!; [done| | |].
    + apply idle_database; [done|]. by apply (disk_ok_same s).
    + pose proof (ok_immutable _ _ _ _ _ _ Hm) as Hi. unfold immutable_ok in Hi. rewrite H1 in Hi. destruct Hi as [-> _]. cbn. by rewrite app_nil_r.
    + apply Hadv; [by eexists|apply H4|done|done|by right].
  - destruct (commit_flush_ok o rngs s R bo bi bm' edit tables vd R' Hm H2 H3 H4 H5) as [Hrun Hm'].
    exists (installed_state s vd None), R', (bo ++ bi), [], bm'. split_and!; [done| |by rewrite <- (assoc_L (++))|].
    + apply idle_database; [done|]. by apply (disk_ok_same s).
    + apply Hadv; [exists []; by rewrite app_nil_r|apply H3|apply H3|done|by left].
  - destruct (commit_compact_ok o rngs s R bo' bi' bm' edit tables vd R' Hm H1 H2 H3 H4 H5) as [Hrun Hm'].
    exists (installed_state s vd None), R', bo', bi', bm'. split_and!; [done| |done|].
    + apply idle_database; [done|]. by apply (disk_ok_same s).
    + apply Hadv; [exists []; by rewrite app_nil_r|apply H3|apply H3|done|by left].
Qed.
End Database.
