(* ===== verification/DatabaseOpen.v ===== *)
(** * Opening a database

    A new database is empty. A database that is opened again, after a crash at
    any point between two operations, holds what was written to it; when the
    end of its log is lost, it holds the batches of the log that are left. *)

From S2P Require Import Prelude Wire Encoding Comparator SkipList SkipListProofs SkipListTheorems RecordLog RecordLogProofs RecordLogTheorems.
From S2P Require Import WriteBatch WriteBatchTheorems MergeIterator MergeIteratorTheorems Snapshot SnapshotProofs SnapshotTheorems.
From S2P Require Import Filter Table TableBuild VersionEdit VersionEditTheorems Version VersionProofs VersionRecovery VersionTheorems.
From S2P Require Import LevelIterator LevelIteratorTheorems Compaction CompactionProofs CompactionBuild CompactionTheorems VersionRows.
From S2P Require Import Database DatabaseReads DatabaseProofs DatabaseJobs DatabaseSelect DatabaseCompact DatabaseRounds.

Section Database.
Context (o : DatabaseOptions).
Abbreviation user := (do_comparator (eo_version o)).
Abbreviation internal := (InternalKeyComparator user).
Abbreviation options := (wrap_database_options o).
Abbreviation vo := (eo_version options).
Context `{!KeyComparatorLaws user} `{!AntiSymm (=) (@kc_le user _)}.
#[local] Existing Instance vo_laws.
Context {B T J : Type} {HT : TableStore B T} (table_iter : T → J) {HJ : Iterable J}.
Context {LT : @TableStoreLaws (do_comparator vo) (vo_laws o) B T HT} {LJ : @IterableLaws (do_comparator vo) (vo_laws o) J HJ}.
Hypothesis table_iter_rep : ∀ t rows p, ts_rows t rows p → entries_ok (do_comparator vo) rows → it_rep (do_comparator vo) (table_iter t) rows rows.
Context (table_properties : T → TableProperties) (rngs : nat → nat → Z).
Implicit Types (s : EmbeddedDB (T := T)) (R : Z → list KeyValueEntry) (bo bi bm : list Batch) (vs vd : VersionSet T).
Abbreviation version_set s := (es_version_set (db_state s)).
Abbreviation mem_ok := (mem_ok o).

Abbreviation Job := (Job (T := T)).



(** ** Logs *)

(** A log that was cut anywhere: the batches that are left, and a writer that
    continues after them. *)
Lemma log_opens bs w cut (rng : nat → Z) last :
  Forall (batch_ok user) bs → log_of (batch_record <$> bs) w →
  let file := take cut (rw_file w) in
  ∃ j wj t reader, read_table internal (S (length file)) file (RecordReader_open, (MemTable_new rng, last)) =
      Done (inr tt, (reader, (t, max_sequence (take j bs) last))) ∧
    table_holds_batches user t (apply_batches user (take j bs) []) ∧ (take j bs = [] → mt_size t = 0) ∧
    log_of (batch_record <$> take j bs) wj ∧ continue_writer file reader = Done (inr wj) ∧
    ((length (rw_file w) ≤ cut)%nat → take j bs = bs).
Proof.
  intros Hok Hw file. destruct (written_records (batch_record <$> bs)) as (w0 & rs & Hrun & Hrs & Hopen & Hpre & Hlen).
  unfold log_of in Hw. rewrite Hw in Hrun. injection Hrun as <-.
  assert (length rs = length bs) as El by (rewrite <- (length_fmap fst rs), Hrs; by rewrite length_fmap).
  destruct (complete_exists (length file) rs) as [j Hj].
  destruct (Hpre j) as (wj & Hwj & Hpj & Ej1 & Ej2). pose proof (complete_last_end 0 _ _ _ ltac:(lia) Hj) as Hend.
  assert (j ≤ length file)%nat as Hjf.
  { destruct (written_records (take j (batch_record <$> bs))) as (w1 & rs1 & Hrun1 & Hrs1 & _ & _ & Hlen1). rewrite Hwj in Hrun1. injection Hrun1 as <-.
    pose proof (co_le _ _ _ Hj). rewrite <- (length_fmap fst rs1), Hrs1, length_take, length_fmap in Hlen1. lia. }
  destruct (read_table_stream user (rw_file w) file (S (length file)) RecordReader_open 0 rs bs (MemTable_new rng) [] last)
    as (k & reader & t & Hk & Ht & Hst & Hnil & Hread);
    [apply prefix_take|apply Hopen|done|done|done|apply WriteBatchTheorems.holds_new|exists j; split; [done|lia]|].
  assert (k = j) as -> by (by eapply complete_unique). exists j, wj, t, reader. split_and!; [done|done| | | |].
  - intros E. by rewrite (Hnil E).
  - unfold log_of. by rewrite fmap_take.
  - destruct (into_writer_stream (rw_file w) file reader _ _ ltac:(apply prefix_take) Hst Hend) as [r' Hinto].
    { intros d x. rewrite lookup_drop, Nat.add_0_r. apply Hj. }
    unfold continue_writer. rewrite Hinto. do 2 f_equal. rewrite <- Ej2. destruct wj as [fj ej]. cbn in *. subst ej. f_equal.
    assert (length fj ≤ cut)%nat by (rewrite <- Ej2 in Hend; unfold file in Hend; rewrite length_take in Hend; lia).
    unfold file. rewrite take_take, Nat.min_l by done. destruct Hpj as [tl E]. rewrite E. by apply take_app_length.
  - intros Hcut. apply take_ge. assert (file = rw_file w) as Ef by (by apply take_ge).
    destruct (decide (length bs ≤ j)%nat) as [|Hlt]; [done|exfalso]. destruct (lookup_lt_is_Some_2 rs j) as [[d x] Ex]; [lia|].
    pose proof (co_next _ _ _ Hj d x Ex) as Hx. destruct (Hpre (S j)) as (w1 & _ & P1 & P2 & P3). rewrite (take_S_r _ _ _ Ex) in P3.
    unfold last_end in P3. rewrite foldl_app in P3. cbn in P3. apply prefix_length in P1. rewrite Ef in Hx. lia.
Qed.

(** ** The manifest *)

(** No table of a version is open. *)
Definition closed (v : Version T) : Prop := ∀ e, e ∈ entries_of v → lt_table e = None.

(** A step of the recovery that opens no table. *)
Definition opens_nothing {A} (m : M (Recovery T) A) : Prop :=
  ∀ r a r', m r = Done (a, r') → closed (rc_version r) → closed (rc_version r').

Lemma opens_bind {A C} (m : M (Recovery T) A) (k : A → M (Recovery T) C) :
  opens_nothing m → (∀ a, opens_nothing (k a)) → opens_nothing (bind m k).
Proof.
  intros Hm Hk r c r'. unfold bind. destruct (m r) as [[a r1]| |] eqn:E; [|done..]. intros Hr Hc. eapply Hk; [exact Hr|]. by eapply Hm.
Qed.

Lemma opens_ret {A} (a : A) : opens_nothing (ret a).
Proof. by intros r b r' [= _ <-]. Qed.

Lemma opens_gets {A} (f : Recovery T → A) : opens_nothing (gets f).
Proof. by intros r b r' [= _ <-]. Qed.

Lemma opens_modify (f : Recovery T → Recovery T) : (∀ r, rc_version (f r) = rc_version r) → opens_nothing (modify f).
Proof. intros Hf r b r' [= _ <-]. by rewrite Hf. Qed.

Lemma opens_version {A} (m : M (Version T) A) : (∀ v a v', m v = Done (a, v') → closed v → closed v') → opens_nothing (on_rc_version m).
Proof. intros Hm r a r'. unfold on_rc_version. destruct (m (rc_version r)) as [[b v]| |] eqn:E; [|done..]. intros [= -> <-]. by eapply Hm. Qed.

Ltac opens :=
  repeat match goal with
  | |- opens_nothing (try_bind _ _) => unfold try_bind
  | |- opens_nothing (bind _ _) => apply opens_bind; [|intros ?]
  | |- opens_nothing (ret _) => apply opens_ret
  | |- opens_nothing (gets _) => apply opens_gets
  | |- opens_nothing (modify _) => by apply opens_modify
  | |- opens_nothing (match ?x with _ => _ end) => destruct x
  end.

Lemma recover_deleted_opens fs : opens_nothing (recover_deleted fs).
Proof.
  induction fs as [|f fs IH]; cbn [recover_deleted]; opens; [|done]. apply opens_version. intros v a v' Hrun Hc e He. apply Hc.
  by eapply remove_members.
Qed.

Lemma recover_new_opens fs : opens_nothing (recover_new vo fs).
Proof.
  induction fs as [|f fs IH]; cbn [recover_new]; opens; [|done]. apply opens_version. intros v [] v' Hrun Hc e He.
  destruct (insert_members vo f None v v' e Hrun He) as [->|?]; [done|by apply Hc].
Qed.

Lemma recover_edit_opens e : opens_nothing (recover_edit vo e).
Proof.
  unfold recover_edit, recover_comparator, recover_log_number, recover_prev_log_number, recover_last_sequence, recover_next_file_number, recover_waterline.
  opens; first [apply recover_deleted_opens|apply recover_new_opens].
Qed.

Lemma recover_closed fuel file : ∀ reader (r : Recovery T) r' reader',
  recover_loop vo fuel file reader r = Done (inr r', reader') → closed (rc_version r) → closed (vs_latest_version r').
Proof.
  induction fuel as [|fuel IH]; intros reader r r' reader'; cbn [recover_loop].
  all: destruct (VersionEdit_read file reader) as [[[|[e|]] reader1]| |]; [done| | |done|done].
  1, 3: destruct (recover_edit vo e r) as [[[|[]] r1]| |] eqn:E; try done.
  - intros Hrun Hc. eapply IH; [exact Hrun|]. by eapply recover_edit_opens.
  - unfold recover_finish. destruct (ve_next_file_number _); [|done]. destruct (_ <=? _); [done|]. by intros [= <- _].
  - unfold recover_finish. destruct (ve_next_file_number _); [|done]. destruct (_ <=? _); [done|]. by intros [= <- _].
Qed.

Lemma existing_closed fuel file reader (r : VersionSet T) reader' :
  recover_existing vo fuel file reader = Done (inr r, reader') → closed (vs_latest_version r).
Proof. unfold recover_existing. intros H. apply (recover_closed _ _ _ _ _ _ H). intros e He. by apply elem_of_nil in He. Qed.

Lemma after_functional (vs : VersionSet T) es vd vd' : after vo vs es vd → after vo vs es vd' → vd = vd'.
Proof.
  intros H. revert vd'. induction H as [|vs e ts es s1 vd _ _ Hrun _ IH]; intros vd' H'; inversion H' as [|? ? ? ? s2 ? _ _ Hrun' Hrest]; subst; [done|].
  rewrite Hrun in Hrun'. injection Hrun' as <-. by apply IH.
Qed.

(** All records of a whole file are complete. *)
Lemma complete_all ds w (rs : list (bytes * nat)) k :
  log_of ds w → rs.*1 = ds →
  (∀ k, ∃ wk, append_records (take k ds) RecordWriter_new = Done (tt, wk) ∧ rw_file wk `prefix_of` rw_file w ∧
    rw_extent wk = length (rw_file wk) ∧ rw_extent wk = last_end 0 (take k rs)) →
  (k < length rs)%nat → ∃ d x, rs !! k = Some (d, x) ∧ (x ≤ length (rw_file w))%nat.
Proof.
  intros Hw Hrs Hpre Hk. destruct (lookup_lt_is_Some_2 rs k Hk) as [[d x] Ex]. exists d, x. split; [done|].
  destruct (Hpre (S k)) as (w1 & _ & P1 & P2 & P3). rewrite (take_S_r _ _ _ Ex) in P3. unfold last_end in P3. rewrite foldl_app in P3.
  cbn in P3. apply prefix_length in P1. lia.
Qed.

Lemma manifest_opens vd w :
  name_ok vo → manifest_of o vd w →
  ∃ (r : VersionSet T) reader, recover_existing vo (S (length (rw_file w))) (rw_file w) RecordReader_open = Done (inr r, reader) ∧
    same_set r vd ∧ holds vo (vs_latest_version r) (files (vs_latest_version vd)) ∧ closed (vs_latest_version r) ∧
    continue_writer (rw_file w) reader = Done (inr w).
Proof.
  intros Hname (first & vs & es & ds & M1 & M2 & M3 & M4 & M5). destruct (first_encoded vo first Hname M1) as [Hok Hnd].
  destruct (written_records ds) as (w0 & rs & Hrun & Hrs & Hopen & Hpre & Hlen). unfold log_of in M5. rewrite M5 in Hrun. injection Hrun as <-.
  pose proof (λ k, complete_all ds w rs k M5 Hrs Hpre) as Hall. set (file := rw_file w) in *.
  assert (last_end 0 rs = length file ∧ rw_extent w = length file) as [Hlast Hext].
  { destruct (Hpre (length ds)) as (w1 & W1 & _ & W2 & W3). rewrite take_ge, M5 in W1 by done. injection W1 as <-. fold file in W2.
    rewrite (take_ge rs) in W3 by (by rewrite <- Hrs, length_fmap). split; [|done]. by rewrite <- W3. }
  rewrite <- Hrs in M4. destruct rs as [|[d x] rs]; [by inversion M4|]. unfold manifest_edits in M4. rewrite fmap_cons in M4. apply Forall2_cons in M4 as [Hd Hrec].
  destruct (Hall 0%nat ltac:(cbn; lia)) as (? & ? & [= <- <-] & Hx).
  destruct (read_edit file file RecordReader_open 0 d x rs _ (reflexivity file) (Hopen file) eq_refl Hd Hok Hnd) as (reader & Hm & Hread).
  rewrite decide_True in Hread by done. destruct Hread as [Hread Hst]. destruct (recover_first vo first _ M1) as (r0 & Hr0 & Hrec0).
  destruct (recover_loop_stream vo file file (length file) reader x rs r0 first es vs (reflexivity file) Hst Hm Hrec M1)
    as (k & sk & r' & reader2 & [C1 C2 C3] & Hk & Hr' & Hst2 & Hloop); [done|done|cbn in Hlen; lia|].
  assert (k = length rs) as ->.
  { destruct (decide (k < length rs)%nat) as [Hlt|]; [exfalso|lia]. destruct (Hall (S k)) as (d' & x' & E & Hle); [cbn; lia|].
    pose proof (C3 d' x' E). lia. }
  apply Forall2_length in Hrec. rewrite !length_fmap in Hrec. rewrite take_ge in Hk by lia.
  assert (sk = vs) as -> by (by eapply after_functional). destruct (recover_finish_same vo r' vs Hr') as (r & Hfin & Hsame & Ev).
  assert (recover_existing vo (S (length file)) file RecordReader_open = Done (inr r, reader2)) as Hrecover.
  { unfold recover_existing. cbn [recover_loop]. rewrite Hread, Hr0. by rewrite Hloop, Hfin. }
  exists r, reader2. split; [done|]. split; [|split; [|split]].
  - destruct Hsame as (S1 & S2 & S3 & S4 & S5 & S6). destruct M3 as (N1 & N2 & N3 & N4 & N5 & N6).
    split_and!; [intros n; by rewrite S1|congruence..].
  - rewrite <- Ev. eapply holds_ext; [apply Hr'|]. apply M3.
  - by eapply existing_closed.
  - change (last_end 0 ((d, x) :: rs)) with (last_end x rs) in Hlast. rewrite (take_ge rs), drop_ge, Hlast in Hst2 by done.
    destruct (into_writer_stream file file reader2 _ [] (reflexivity file) Hst2) as [r1 Hinto]; [done|done|].
    unfold continue_writer. rewrite Hinto, take_ge by done. rewrite <- Hext. by destruct w.
Qed.

(** ** The tables *)

Lemma files_entries (v v' : Version T) : (∀ n, files v n = files v' n) → lt_entry <$> entries_of v = lt_entry <$> entries_of v'.
Proof.
  intros H. rewrite !flat_files. rewrite <- (flat_more (files v) _ (length (levels v'))) by (intros; by apply files_beyond).
  rewrite <- (flat_more (files v') _ (length (levels v))) by (intros; by apply files_beyond).
  rewrite (Nat.add_comm (length (levels v'))). by apply flat_ext.
Qed.

(** What the rows of a table are besides its file. *)
Definition rows_ok R (f : NewFileEntry) : Prop :=
  entries_ok internal (file_rows R f) ∧ fst <$> head (file_rows R f) = Some (nf_smallest_key f) ∧
  fst <$> list.last (file_rows R f) = Some (nf_largest_key f).

Lemma version_rows_ok R next v f : version_ok vo R next v → f ∈ lt_entry <$> entries_of v → rows_ok R f.
Proof.
  intros [Ht _] (e & -> & He)%list_elem_of_fmap. rewrite Forall_forall in Ht. destruct (Ht e He) as [(t & p & _ & _ & H1 & H2 & H3) _]. done.
Qed.

Lemma open_entries_ok (dir : Directory) R es :
  (∀ e, e ∈ es → lt_table e = None) → Forall (λ f, table_file o dir R f ∧ rows_ok R f) (lt_entry <$> es) →
  ∃ es', open_entries (dir_tables dir) es = Done es' ∧ lt_entry <$> es' = lt_entry <$> es ∧ Forall (table_ok vo R) es'.
Proof.
  induction es as [|e es IH]; intros Hc Hf; [by exists []|]. rewrite fmap_cons in Hf.
  apply Forall_cons in Hf as [[(file & t & p & Hfile & Hread & Hrows) (R1 & R2 & R3)] Hf].
  destruct IH as (es' & Hrun & El & Hok); [intros e' He'; apply Hc; by right|done|].
  exists (mkLevelTableEntry (Some t) (lt_entry e) :: es'). cbn [open_entries]. rewrite (Hc e) by (by left). rewrite Hfile, Hread, Hrun.
  split_and!; [done|by rewrite !fmap_cons, El|]. constructor; [|done]. by exists t, p.
Qed.

Lemma open_levels_ok (dir : Directory) R ls :
  (∀ l e, l ∈ ls → e ∈ lv_tables l → lt_table e = None) →
  Forall (λ l, Forall (λ f, table_file o dir R f ∧ rows_ok R f) (lt_entry <$> lv_tables l)) ls →
  ∃ ls', open_levels (dir_tables dir) ls = Done ls' ∧
    Forall2 (λ l l', no_tables l' = no_tables l ∧ lt_entry <$> lv_tables l' = lt_entry <$> lv_tables l ∧ Forall (table_ok vo R) (lv_tables l')) ls ls'.
Proof.
  intros Hc. induction 1 as [|l ls Hl _ IH]; [by exists []|]. destruct IH as (ls' & Hrun & Hall); [intros l' e Hl' He; eapply Hc; [by right|done]|].
  destruct (open_entries_ok dir R (lv_tables l)) as (es' & Hes & El & Hok); [intros e He; eapply Hc; [by left|done]|done|].
  exists (set_tables es' l :: ls'). cbn [open_levels]. rewrite Hes, Hrun. split; [done|]. constructor; [|done]. by split_and!.
Qed.

Lemma opened_files (v : Version T) ls' R :
  Forall2 (λ l l', no_tables l' = no_tables l ∧ lt_entry <$> lv_tables l' = lt_entry <$> lv_tables l ∧ Forall (table_ok vo R) (lv_tables l')) (levels v) ls' →
  (∀ n, files (mkVersion ls') n = files v n) ∧ (∀ A, holds vo v A → holds vo (mkVersion ls') A) ∧ Forall (table_ok vo R) (entries_of (mkVersion ls')).
Proof.
  intros Hall. assert (∀ n, files (mkVersion ls') n = files v n) as Hf.
  { intros n. unfold files. cbn [levels]. destruct (levels v !! n) as [l|] eqn:El.
    - destruct (Forall2_lookup_l _ _ _ _ _ Hall El) as (l' & -> & _ & E & _). exact E.
    - apply lookup_ge_None in El. rewrite (Forall2_length _ _ _ Hall) in El. by rewrite (lookup_ge_None_2 ls'). }
  split_and!; [done| |].
  - intros A [H1 H2 H3 H4]. split; [intros n; by rewrite Hf| |done|done]. intros n l' El'.
    destruct (Forall2_lookup_r _ _ _ _ _ Hall El') as (l & El & E & _). rewrite E. by apply H2.
  - apply Forall_forall. intros e (n & l' & El' & He)%elem_of_entries_of. destruct (Forall2_lookup_r _ _ _ _ _ Hall El') as (l & _ & _ & _ & Hok).
    rewrite Forall_forall in Hok. by apply Hok.
Qed.

(** A version set with the files of another one. *)
Lemma same_state_ok vs vd : same_set vs vd → state_ok vo vd → holds vo (vs_latest_version vs) (files (vs_latest_version vs)) → state_ok vo vs.
Proof.
  intros (S1 & S2 & S3 & S4 & S5 & S6) [H1 H2 [H3a H3b] H4 H5 H6 H7 H8 H9] Hh. split; rewrite ?S2, ?S3, ?S4, ?S5, ?S6; try done.
  - intros n f. rewrite S1. apply H2.
  - split; [intros n; rewrite S1; apply H3a|]. intros n m f g. rewrite !S1. apply H3b.
  - intros n f. rewrite S1. apply H4.
Qed.

Lemma same_version_ok R vs vd :
  same_set vs vd → state_ok vo vs → version_ok vo R (vs_next_file_number vd) (vs_latest_version vd) →
  Forall (table_ok vo R) (entries_of (vs_latest_version vs)) →
  version_ok vo R (vs_next_file_number vs) (vs_latest_version vs) ∧ contents R (vs_latest_version vs) = contents R (vs_latest_version vd).
Proof.
  intros (S1 & _) Hs Hv Ht. split; [split|].
  - apply Forall_forall. intros e He. rewrite Forall_forall in Ht. split; [by apply Ht|]. apply elem_of_levels in He as [n He].
    apply (so_numbers _ _ _ Hs n). unfold files. by apply list_elem_of_fmap_2.
  - intros n l Hl. apply disjoint_entries. pose proof (version_files_disjoint vo R _ _ n Hv) as Hd. rewrite <- S1 in Hd. unfold files in Hd. by rewrite Hl in Hd.
  - rewrite !contents_files. by rewrite (files_entries _ _ S1).
Qed.

Lemma open_all_ok (dir : Directory) R r vd :
  same_set r vd → holds vo (vs_latest_version r) (files (vs_latest_version vd)) → closed (vs_latest_version r) →
  state_ok vo vd → version_ok vo R (vs_next_file_number vd) (vs_latest_version vd) →
  Forall (table_file o dir R) (lt_entry <$> entries_of (vs_latest_version vd)) →
  ∃ vs, open_all dir r = Done vs ∧ same_set vs vd ∧ state_ok vo vs ∧
    version_ok vo R (vs_next_file_number vs) (vs_latest_version vs) ∧ contents R (vs_latest_version vs) = contents R (vs_latest_version vd).
Proof.
  intros Hss Hh Hc Hs Hv Ht. pose proof Hss as (S1 & S2 & S3 & S4 & S5 & S6). rewrite <- (files_entries _ _ S1) in Ht. rewrite Forall_forall in Ht.
  destruct (open_levels_ok dir R (levels (vs_latest_version r))) as (ls' & Hrun & Hall).
  - intros l e [n Hl]%list_elem_of_lookup He. apply Hc, elem_of_entries_of. eauto.
  - apply Forall_forall. intros l [n Hl]%list_elem_of_lookup. apply Forall_forall. intros f Hf.
    assert (f ∈ lt_entry <$> entries_of (vs_latest_version r)) as Hin.
    { apply list_elem_of_fmap in Hf as (e & -> & He). apply list_elem_of_fmap_2, elem_of_entries_of. eauto. }
    split; [by apply Ht|]. rewrite (files_entries _ _ S1) in Hin. by eapply version_rows_ok.
  - destruct (opened_files _ _ R Hall) as (F1 & F2 & F3). set (vs := set_latest_version (mkVersion ls') r).
    assert (same_set vs vd) as Hss' by (split_and!; try done; intros n; cbn; by rewrite F1).
    assert (state_ok vo vs) as Hs'.
    { apply (same_state_ok vs vd); [done|done|]. eapply holds_ext; [apply F2, Hh|]. intros n. symmetry. apply Hss'. }
    destruct (same_version_ok R vs vd Hss' Hs' Hv F3) as [Hv' Ec]. exists vs. split_and!; [unfold open_all; by rewrite Hrun|done|done|done|done].
Qed.

(** ** The logs *)

Lemma max_sequence_last pre bs : history_ok user (pre ++ bs) → max_sequence bs (last_seq pre) = last_seq (pre ++ bs).
Proof.
  revert pre. induction bs as [|b bs IH]; intros pre Hh; [by rewrite app_nil_r|]. rewrite cons_middle, (assoc_L (++)) in Hh |- *.
  rewrite <- (IH _ Hh). change (max_sequence (b :: bs) (last_seq pre)) with (max_sequence bs (Z.max (last_seq pre) b.1)).
  apply history_app in Hh as [Hh _]. pose proof (last_seq_app user _ _ Hh) as Hle. rewrite last_seq_snoc in *. f_equal. lia.
Qed.

Lemma read_log_ok (dir : Directory) n bs w cut rng pre :
  history_ok user (pre ++ bs) → log_of (batch_record <$> bs) w → dir_logs dir !! n = Some (take cut (rw_file w)) →
  ∃ j wj t reader, read_log options dir n rng (last_seq pre) =
      Done (inr (t, last_seq (pre ++ take j bs), (take cut (rw_file w), reader))) ∧
    table_holds_batches user t (apply_batches user (take j bs) []) ∧ (take j bs = [] → mt_size t = 0) ∧
    log_of (batch_record <$> take j bs) wj ∧ continue_writer (take cut (rw_file w)) reader = Done (inr wj) ∧
    ((length (rw_file w) ≤ cut)%nat → take j bs = bs).
Proof.
  intros Hh Hw Hn. destruct (history_app user _ _ Hh) as [_ Hbs].
  destruct (log_opens bs w cut rng (last_seq pre) (ho_batches _ _ Hbs) Hw) as (j & wj & t & reader & Hrun & H).
  exists j, wj, t, reader. split; [|exact H]. unfold read_log. rewrite Hn. change (do_comparator vo) with internal. rewrite Hrun.
  rewrite max_sequence_last; [done|]. rewrite <- (take_drop j bs), (assoc_L (++)) in Hh. by apply history_app in Hh as [? _].
Qed.

Lemma open_prev_log_ok (dir : Directory) vs bo bi :
  eo_disable_wal o = false → history_ok user (bo ++ bi) → vs_last_sequence vs = last_seq bo →
  match vs_prev_log_number vs with None => bi = [] | Some p => bi ≠ [] ∧ log_file dir p bi end →
  ∃ im, open_prev_log options rngs dir vs = Done (inr (im, last_seq (bo ++ bi))) ∧
    match im with
    | None => bi = [] ∧ vs_prev_log_number vs = None
    | Some t => bi ≠ [] ∧ is_Some (vs_prev_log_number vs) ∧ table_holds_batches user t (apply_batches user bi [])
    end.
Proof.
  intros Hwal Hh Hl Hp. unfold open_prev_log. rewrite Hl. destruct (vs_prev_log_number vs) as [p|] eqn:Ep.
  - destruct Hp as [Hne (w & Hw & Hfile)]. rewrite <- (take_ge (rw_file w) (length (rw_file w)) ltac:(done)) in Hfile.
    destruct (read_log_ok dir p bi w _ (rngs 1) bo Hh Hw Hfile) as (j & wj & t & reader & Hrun & Ht & _ & _ & _ & Hall).
    rewrite (Hall ltac:(done)) in *. exists (Some t). change (eo_disable_wal options) with (eo_disable_wal o). rewrite Hwal, Hrun.
    split; [done|]. split_and!; [done|by eexists|done].
  - subst bi. exists None. rewrite app_nil_r. done.
Qed.

Lemma open_log_ok (dir : Directory) vs pre bm n w cut :
  eo_disable_wal o = false → eo_read_only o = false → history_ok user (pre ++ bm) → vs_log_number vs = Some n →
  log_of (batch_record <$> bm) w → dir_logs dir !! n = Some (take cut (rw_file w)) →
  ∃ j wj t, open_log options rngs dir vs (last_seq pre) = Done (inr (t, last_seq (pre ++ take j bm), Some (n, wj))) ∧
    table_holds_batches user t (apply_batches user (take j bm) []) ∧ (take j bm = [] → mt_size t = 0) ∧
    log_of (batch_record <$> take j bm) wj ∧ ((length (rw_file w) ≤ cut)%nat → take j bm = bm).
Proof.
  intros Hwal Hro Hh Hn Hw Hfile. destruct (read_log_ok dir n bm w cut (rngs 0) pre Hh Hw Hfile) as (j & wj & t & reader & Hrun & H1 & H2 & H3 & H4 & H5).
  exists j, wj, t. split; [|done]. unfold open_log. change (eo_disable_wal options) with (eo_disable_wal o). rewrite Hwal, Hn, Hrun. cbn [obind].
  change (eo_read_only options) with (eo_read_only o). by rewrite Hro, H4.
Qed.

(** ** Opening again *)

(** The end of a log is lost. *)
Definition lose_log (n : Z) (cut : nat) (d : Directory) : Directory := set_dir_logs (alter (take cut) n) d.

(** What the version set of the files stands for. *)
Record files_stand vd R bo : Prop := mkFilesStand {
  fs_set : state_ok vo vd;
  fs_version : version_ok vo R (vs_next_file_number vd) (vs_latest_version vd);
  fs_rows : ∃ all, all ≡ₚ contents R (vs_latest_version vd) ∧ represents user all bo;
  fs_flushed : vs_last_sequence vd = last_seq bo;
  fs_waterline : vs_compaction_waterline vd = None;
}.

Lemma same_set_trans (a b c : VersionSet T) : same_set a b → same_set b c → same_set a c.
Proof. intros (A1 & A2 & A3 & A4 & A5 & A6) (B1 & B2 & B3 & B4 & B5 & B6). split_and!; [intros n; by rewrite A1|congruence..]. Qed.

Lemma same_set_sym (a b : VersionSet T) : same_set a b → same_set b a.
Proof. intros (A1 & A2 & A3 & A4 & A5 & A6). by split_and!. Qed.

(** The memory after opening. *)
Lemma opened_mem_ok (dir : Directory) number w vs vd R bo bi bm n wj t im :
  same_set vs vd → files_stand vd R bo → state_ok vo vs → version_ok vo R (vs_next_file_number vs) (vs_latest_version vs) →
  contents R (vs_latest_version vs) = contents R (vs_latest_version vd) →
  history_ok user (bo ++ bi ++ bm) → Forall (λ b : Batch, b.2 ≠ []) (bo ++ bi ++ bm) → vs_log_number vd = Some n →
  table_holds_batches user t (apply_batches user bm []) → (bm = [] → mt_size t = 0) → log_of (batch_record <$> bm) wj →
  match im with
  | None => bi = [] ∧ vs_prev_log_number vs = None
  | Some t => bi ≠ [] ∧ is_Some (vs_prev_log_number vs) ∧ table_holds_batches user t (apply_batches user bi [])
  end →
  mem_ok (opened_database dir number w vs t (Some (n, wj)) im (last_seq (bo ++ bi)) (last_seq (bo ++ bi ++ bm))) R bo bi bm.
Proof.
  intros (S1 & S2 & S3 & S4 & S5 & S6) [F1 F2 F3 F4 F5] Hs Hv Ec Hh Hb Hn Ht Hsize Hlog Him.
  split; cbn [opened_database db_state es_version_set es_mutable_table es_log_last_sequence es_log]; try done.
  - by rewrite Ec.
  - by exists t.
  - unfold immutable_ok. cbn [opened_database db_state es_immutable_table]. destruct im as [ti|]; cbn; [|done].
    destruct Him as (I1 & I2 & I3). split_and!; [done|done|done| |done]. by exists ti.
  - by rewrite S5.
  - by rewrite S6.
  - exists n, wj. split_and!; [done| |done]. by rewrite S3.
Qed.

(** The files after opening. *)
Lemma opened_disk_ok s vs vd R bi bm bm' n wj t im prev_last last cut :
  disk_ok o s vd R bi bm → same_set vs vd → vs_log_number vd = Some n → log_of (batch_record <$> bm') wj →
  disk_ok o (opened_database (lose_log n cut (db_dir s)) (db_manifest s).1 (db_manifest s).2 vs t (Some (n, wj)) im prev_last last) vs R bi bm'.
Proof.
  intros [D1 D2 (first & vs0 & es & ds & M1 & M2 & M3 & M4) D4 D5 (n0 & D6 & (w & W1 & W2) & D6n) D7] Hss Hn Hlog.
  pose proof Hss as (S1 & S2 & S3 & S4 & S5 & S6). assert (n0 = n) as -> by congruence.
  split; cbn [opened_database db_dir db_manifest dir_current dir_manifests dir_tables dir_logs fst snd lose_log set_dir_logs from_option]; [done| | | | | |].
  - by rewrite lookup_singleton_eq.
  - exists first, vs0, es, ds. split_and!; [done|done| |apply M4|apply M4]. by eapply same_set_trans, same_set_sym.
  - rewrite (files_entries _ _ S1). apply Forall_forall. intros f Hf. rewrite Forall_forall in D4. destruct (D4 f Hf) as (file & t' & p & H1 & H2 & H3).
    exists file, t', p. split_and!; [|done|done]. cbn. apply map_lookup_filter_Some. split; [done|]. cbn.
    rewrite <- (files_entries _ _ S1) in Hf. apply list_elem_of_fmap in Hf as (e & -> & (k & l & Hl & He)%elem_of_entries_of).
    unfold version_numbers. apply list_elem_of_In, in_concat. eexists. split; [apply in_map, list_elem_of_In, list_elem_of_lookup; by exists k|].
    apply list_elem_of_In, list_elem_of_fmap. by exists e.
  - rewrite S4. destruct (vs_prev_log_number vd) as [p|] eqn:Ep; [|done]. destruct D5 as [? (wp & P1 & P2)]. split; [done|]. exists wp. split; [done|]. cbn.
    rewrite lookup_insert_ne by congruence. apply map_lookup_filter_Some. rewrite lookup_alter_ne by congruence. split; [done|]. cbn.
    apply bool_decide_pack. by left.
  - exists n. rewrite S3, S4. split_and!; [done| |done]. exists wj. split; [done|]. cbn. by rewrite lookup_insert_eq.
  - intros m Hm. rewrite S2 in Hm. destruct (D7 m Hm) as (G1 & G2 & G3). split_and!.
    + apply map_lookup_filter_None. by left.
    + rewrite lookup_insert_ne by congruence. apply map_lookup_filter_None. left. rewrite lookup_alter_ne; [done|congruence].
    + rewrite lookup_singleton_ne; [done|congruence].
Qed.

Lemma open_existing_ok s vd R bo bi bm n cut create :
  options_fit o (T := T) → disk_ok o s vd R bi bm → files_stand vd R bo → history_ok user (bo ++ bi ++ bm) →
  Forall (λ b : Batch, b.2 ≠ []) (bo ++ bi ++ bm) → vs_log_number vd = Some n →
  ∃ s' j, open_impl options rngs create false (lose_log n cut (db_dir s)) = Done (inr s') ∧
    mem_ok s' R bo bi (take j bm) ∧ disk_ok o s' (version_set s') R bi (take j bm) ∧
    (∀ file, dir_logs (db_dir s) !! n = Some file → (length file ≤ cut)%nat → take j bm = bm).
Proof.
  intros Hfit Hd Hst Hh Hb Hn. pose proof (of_default _ Hfit) as Hdef. set (dir := lose_log n cut (db_dir s)).
  destruct (manifest_opens vd _ (of_name _ Hfit) (dk_manifest _ _ _ _ _ _ Hd)) as (r & reader & Hrec & Hss & Hho & Hcl & Hcont).
  destruct (open_all_ok dir R r vd Hss Hho Hcl (fs_set _ _ _ Hst) (fs_version _ _ _ Hst) (dk_tables _ _ _ _ _ _ Hd))
    as (vs & Hall & Hss' & Hs' & Hv' & Ec). pose proof Hss' as (S1 & S2 & S3 & S4 & S5 & S6).
  destruct (dk_log _ _ _ _ _ _ Hd) as (n0 & Hn0 & (w & Hw & Hfile) & Hne). assert (n0 = n) as -> by congruence.
  pose proof Hh as Hh'. rewrite (assoc_L (++)) in Hh'. destruct (history_app user _ _ Hh') as [Hhp _].
  destruct (open_prev_log_ok dir vs bo bi (od_wal _ Hdef) Hhp) as (im & Hprev & Him).
  { by rewrite S5, (fs_flushed _ _ _ Hst). }
  { rewrite S4. pose proof (dk_prev _ _ _ _ _ _ Hd) as Hp. destruct (vs_prev_log_number vd) as [p|]; [|done]. destruct Hp as [? (wp & ? & ?)].
    split; [done|]. exists wp. split; [done|]. cbn. rewrite lookup_alter_ne; [done|congruence]. }
  destruct (open_log_ok dir vs (bo ++ bi) bm n w cut (od_wal _ Hdef) (od_read_only _ Hdef) Hh') as (j & wj & t & Hlog & Ht & Hsize & Hwj & Hwhole);
    [by rewrite S3|done|cbn; by rewrite lookup_alter_eq, Hfile|].
  exists (opened_database dir (db_manifest s).1 (db_manifest s).2 vs t (Some (n, wj)) im (last_seq (bo ++ bi)) (last_seq (bo ++ bi ++ take j bm))), j.
  split_and!.
  - unfold open_impl. change (dir_current dir) with (dir_current (db_dir s)). rewrite (dk_current _ _ _ _ _ _ Hd). unfold open_existing.
    change (dir_manifests dir) with (dir_manifests (db_dir s)). rewrite (dk_manifest_file _ _ _ _ _ _ Hd), Hrec, Hall, Hprev. cbn [obind].
    rewrite Hlog. cbn [obind]. rewrite S6, (fs_waterline _ _ _ Hst). change (eo_enable_compaction_waterline options) with (eo_enable_compaction_waterline o).
    change (eo_read_only options) with (eo_read_only o). rewrite (od_waterline _ Hdef), (od_read_only _ Hdef), Hcont.
    cbn. by rewrite <- (assoc_L (++)).
  - assert (history_ok user (bo ++ bi ++ take j bm)) as Hj.
    { rewrite <- (take_drop j bm), !(assoc_L (++)) in Hh. apply history_app in Hh as [Hh _]. by rewrite <- (assoc_L (++)) in Hh. }
    apply (opened_mem_ok dir _ _ vs vd); try done. rewrite <- (take_drop j bm), !(assoc_L (++)) in Hb. apply Forall_app in Hb as [Hb _]. by rewrite <- (assoc_L (++)) in Hb.
  - apply (opened_disk_ok s vs vd R bi bm); done.
  - intros file. rewrite Hfile. intros [= <-]. apply Hwhole.
Qed.

(** ** A new database *)

Definition numbered_set : VersionSet T := edited (set_next_file_number 3 VersionEdit_default) VersionSet_new Version_new.
Definition first_set : VersionSet T :=
  edited (set_log_number 3 (set_next_file_number 4 VersionEdit_default)) numbered_set Version_new.

Definition new_state (dir : Directory) (w : RecordWriter) : EmbeddedDB (T := T) :=
  mkEmbeddedDB (mkEmbeddedDBState (Some (3, RecordWriter_new)) 0 0 None first_set) 0 [MemTable_new (rngs 0)] (2, w)
    (mkDirectory (filter (λ f, f.1 ∈ []) (dir_tables dir)) (filter (λ f, f.1 ∈ [3]) (<[3 := []]> (dir_logs dir)))
      (filter (λ f, f.1 ∈ [2]) (<[2 := rw_file w]> (<[2 := []]> (dir_manifests dir)))) (Some 2)).

Lemma first_set_ok :
  apply_new_edit (T := T) vo (set_next_file_number 3 VersionEdit_default) [] VersionSet_new = Done (tt, numbered_set) ∧
  apply_new_edit vo (set_log_number 3 (set_next_file_number 4 VersionEdit_default)) [] numbered_set = Done (tt, first_set) ∧
  state_ok vo first_set.
Proof.
  assert (state_ok vo (VersionSet_new (T := T))) as Hs0.
  { split; cbn; try done; try (intros n f Hf; by apply elem_of_nil in Hf).
    - apply version_new_holds.
    - split; [intros n; constructor|]. intros n m f g Hf. by apply elem_of_nil in Hf. }
  destruct (numbers_edit_valid o (T := T) VersionSet_new (set_next_file_number 3 VersionEdit_default)) as (_ & Hrun1 & Hs1); [done..|cbn; lia|done|done|].
  destruct (numbers_edit_valid o _ (set_log_number 3 (set_next_file_number 4 VersionEdit_default)) Hs1) as (_ & Hrun2 & Hs2);
    [done..|cbn; lia|intros ? [= <-]; cbn; lia|done|]. done.
Qed.

Lemma start_new_run (dir : Directory) :
  options_fit o (T := T) → dir_manifests dir !! 2 = None → dir_logs dir !! 3 = None →
  ∃ out w, record_of out (to_version_edit vo false first_set) ∧ log_of [out] w ∧
    start_new options (empty_database rngs dir) = Done (inr tt, new_state dir w).
Proof.
  intros Hfit Hman Hlog. pose proof (of_default _ Hfit) as Hdef. destruct first_set_ok as (Hrun1 & Hrun2 & Hs2).
  destruct (first_encoded vo first_set (of_name _ Hfit) Hs2) as [Hok Hnd].
  destruct (edit_roundtrip _ Hok Hnd) as (out & Hout & _). destruct (log_of_append [] _ out log_of_new) as (w & Hw & Hlogw).
  exists out, w. split_and!; [done|done|]. unfold start_new, bind at 1, gets at 1. cbn [id empty_database db_state es_version_set vs_next_file_number VersionSet_new].
  unfold bind at 1, u64_add at 1. rewrite (proj2 (Z.leb_le _ _)) by (unfold U64_MAX, U64; lia). unfold ret at 1. change (2 + 1) with 3.
  unfold bind at 1. rewrite (on_version_set_ok _ (empty_database rngs dir) tt numbered_set) by exact Hrun1. change (eo_enable_compaction_waterline options) with (eo_enable_compaction_waterline o).
  rewrite (od_waterline _ Hdef). unfold bind at 1, ret at 1. unfold try_bind at 1, bind at 1, create_manifest at 1, bind at 1, gets at 1. cbn [id db_dir empty_database].
  rewrite Hman, bool_decide_eq_false_2 by (by intros []). unfold bind at 1, on_dir at 1, modify at 1, ret at 1.
  unfold try_bind at 1, bind at 1, first_log at 1. change (eo_disable_wal options) with (eo_disable_wal o). rewrite (od_wal _ Hdef).
  unfold bind at 1, gets at 1. cbn [id db_state es_version_set es_set_version_set numbered_set edited next_of set_next_file_number ve_next_file_number vs_next_file_number default from_option].
  unfold bind at 1, u64_add at 1. rewrite (proj2 (Z.leb_le _ _)) by (unfold U64_MAX, U64; lia). unfold ret at 1. change (3 + 1) with 4.
  unfold bind at 1. rewrite (on_version_set_ok _ _ tt first_set) by exact Hrun2. unfold try_bind at 1, bind at 1. rewrite create_log_ok by done.
  unfold ret at 1. unfold bind at 1, gets at 1. cbn [id db_state es_version_set es_set_version_set]. unfold bind at 1, call at 1.
  unfold write_to_new, try_bind at 1, bind at 1, ret at 1. rewrite Hout. unfold bind at 1. rewrite Hw. unfold ret at 1.
  reflexivity.
Qed.

(** There is a new manifest and a new log; whatever else is in the directory
    is removed. *)
Lemma open_new_ok (dir : Directory) error :
  options_fit o (T := T) → dir_current dir = None → dir_manifests dir !! 2 = None → dir_logs dir !! 3 = None →
  ∃ s, open_impl options rngs true error dir = Done (inr s) ∧ mem_ok s (λ _, []) [] [] [] ∧ disk_ok o s (version_set s) (λ _, []) [] [].
Proof.
  intros Hfit Hcur Hman Hlog. pose proof (of_default _ Hfit) as Hdef. destruct first_set_ok as (_ & _ & Hs2).
  destruct (start_new_run dir Hfit Hman Hlog) as (out & w & Hout & Hw & Hrun). exists (new_state dir w). split_and!.
  - unfold open_impl. rewrite Hcur. unfold open_new. change (eo_read_only options) with (eo_read_only o). by rewrite (od_read_only _ Hdef), Hrun.
  - split; cbn [new_state db_state es_version_set es_mutable_table es_log_last_sequence es_log]; [|constructor|done| | | |by split|done|done|done|].
    + split; constructor.
    + split; [constructor|]. intros n l Hl. by cbn in Hl.
    + exists []. split; [done|apply represents_nil].
    + exists (MemTable_new (rngs 0)). split_and!; [done|apply WriteBatchTheorems.holds_new|done].
    + exists 3, RecordWriter_new. by split_and!.
  - split; cbn [new_state db_dir db_manifest dir_current dir_manifests dir_tables dir_logs fst snd db_state es_version_set]; [reflexivity| | | |reflexivity| |].
    + apply map_lookup_filter_Some. rewrite lookup_insert_eq. split; [done|]. by left.
    + exists first_set, first_set, [], [out]. split; [done|]. split; [constructor|]. split; [by split_and!|]. split; [by constructor|done].
    + constructor.
    + exists 3. split_and!; [done| |done]. exists RecordWriter_new. split; [done|]. cbn. apply map_lookup_filter_Some.
      rewrite lookup_insert_eq. split; [done|]. by left.
    + intros m Hm. cbn in Hm. split_and!; apply map_lookup_filter_None; right; intros x _; cbn; [by intros ?%elem_of_nil|..];
        intros ->%list_elem_of_singleton; lia.
Qed.
End Database.
