(* ===== verification/DatabaseMachine.v ===== *)
(** * The database as a machine

    The states a database can be in: it is opened, batches are written to it,
    snapshots are taken, the compaction thread selects and commits its rounds,
    and it is opened again, at any point. The invariant of these states gives
    what is read from them. *)

From S2P Require Import Prelude Wire Encoding Comparator SkipList SkipListProofs SkipListTheorems RecordLog RecordLogProofs RecordLogTheorems.
From S2P Require Import WriteBatch WriteBatchTheorems MergeIterator MergeIteratorTheorems Snapshot SnapshotProofs SnapshotTheorems.
From S2P Require Import Filter Table TableBuild VersionEdit VersionEditTheorems Version VersionProofs VersionRecovery VersionTheorems.
From S2P Require Import LevelIterator LevelIteratorTheorems Compaction CompactionProofs CompactionBuild CompactionTheorems VersionRows.
From S2P Require Import Database DatabaseReads DatabaseProofs DatabaseJobs DatabaseSelect DatabaseCompact DatabaseRounds DatabaseOpen.

Section Database.
Context (o : DatabaseOptions).
Abbreviation user := (do_comparator (eo_version o)).
Abbreviation internal := (InternalKeyComparator user).
Abbreviation options := (wrap_database_options o).
Abbreviation vo := (eo_version options).
Context `{!KeyComparatorLaws user} `{!AntiSymm (=) (@kc_le user _)}.
#[local] Existing Instance vo_laws.
Context {B T J : Type} {HT : TableStore B T} (table_iter : T → J) {HJ : Iterable J}.
Context {LT : @TableStoreLaws (do_comparator vo) (vo_laws o) B T HT} {LJ : @IterableLaws (do_comparator vo) (vo_laws o) J HJ}.
Hypothesis table_iter_rep : ∀ t rows p, ts_rows t rows p → entries_ok (do_comparator vo) rows → it_rep (do_comparator vo) (table_iter t) rows rows.
Context (table_properties : T → TableProperties) (rngs : nat → nat → Z).
Implicit Types (s : EmbeddedDB (T := T)) (R : Z → list KeyValueEntry) (bo bi bm : list Batch) (vs vd : VersionSet T).
Abbreviation version_set s := (es_version_set (db_state s)).

Abbreviation Job := (Job (T := T)).




(** ** States *)

(** A database with the job that was selected and not committed, the batches
    that were written to it and the snapshots that were taken, each with the
    batches of its time. *)
Record World := mkWorld {
  w_db : EmbeddedDB (T := T);
  w_job : option Job;
  w_history : list Batch;
  w_snapshots : list (DBSnapshot (T := T) * list Batch);
}.

(** No entry that hides another one is dropped in the next round: there are
    no deletions, or each deletion that could be dropped is inside of the
    range that is searched for older entries. *)
Definition removals_hide s (bs : list Batch) : Prop :=
  Forall (λ e, deletion e = false) (entry_of <$> writes bs) ∨
  match es_immutable_table (db_state s) with
  | Some m => ∀ t es, db_memtables s !! im_table m = Some t → table_holds_batches user t es → deletions_inside o es es
  | None => ∀ c r R, compaction_of o (version_set s) c r → Forall (table_ok vo R) (chosen c) →
      deletions_inside o (concat (rows_of R <$> tables_at (version_set s) 0)) (concat (rows_of R <$> chosen c))
  end.

(** The files after a crash. The end of the log that is written to can be
    lost; that of a log that the manifest already calls the previous one is
    not. *)
Definition crashed (w : World) (cut : nat) : Directory :=
  match w_job w with
  | Some (SwapMemtable _ _) => db_dir (w_db w)
  | _ => from_option (λ l, lose_log l.1 cut (db_dir (w_db w))) (db_dir (w_db w)) (es_log (db_state (w_db w)))
  end.

(** The batches up to the last sequence of a database. *)
Definition survivors s (bs : list Batch) : list Batch := filter (λ b, b.1 ≤ es_log_last_sequence (db_state s)) bs.

(** A directory without a database. *)
Record vacant (dir : Directory) : Prop := mkVacant {
  vc_current : dir_current dir = None;
  vc_manifest : dir_manifests dir !! 2 = None;
  vc_log : dir_logs dir !! 3 = None;
}.

Inductive reaches : World → Prop :=
| reaches_new dir error s :
  vacant dir → open_impl options rngs true error dir = Done (inr s) → reaches (mkWorld s None [] [])
| reaches_write w q ws s :
  reaches w → write_fits o (w_db w) q ws → write options (batch_bytes q ws) (w_db w) = Done (inr tt, s) →
  reaches (mkWorld s (w_job w) (w_history w ++ [(assigned (w_db w) q, ws)]) (w_snapshots w))
| reaches_snapshot w d s :
  reaches w → snapshot (w_db w) = Done (d, s) →
  reaches (mkWorld s (w_job w) (w_history w) ((d, w_history w) :: w_snapshots w))
| reaches_select w fuel rng job s :
  reaches w → w_job w = None → room o (w_db w) (w_history w) fuel → removals_hide (w_db w) (w_history w) →
  select_job table_iter table_properties options fuel rng (w_db w) = Done (inr job, s) →
  reaches (mkWorld s job (w_history w) (w_snapshots w))
| reaches_commit w job s :
  reaches w → w_job w = Some job → vs_next_file_number (version_set (w_db w)) + 1 < U64_MAX →
  commit_job options rngs job (w_db w) = Done (inr tt, s) →
  reaches (mkWorld s None (w_history w) (w_snapshots w))
| reaches_reopen w create cut s :
  reaches w → open_impl options rngs create false (crashed w cut) = Done (inr s) →
  reaches (mkWorld s None (survivors s (w_history w)) []).

(** ** The invariant *)

Definition taken_ok (bs : list Batch) (x : DBSnapshot (T := T) * list Batch) : Prop :=
  ∃ rest, bs = x.2 ++ rest ∧ ds_last_sequence x.1 = last_seq x.2 ∧ Forall (λ b, last_seq x.2 < b.1) rest.

Record world_ok (w : World) R bo bi bm : Prop := mkWorldOk {
  wo_history : w_history w = bo ++ bi ++ bm;
  wo_database : database_ok o (w_db w) (w_job w) R bo bi bm;
  wo_snapshots : snapshots_ok o (w_db w) R (w_history w) bm (w_snapshots w).*1;
  wo_taken : Forall (taken_ok (w_history w)) (w_snapshots w);
  wo_positive : Forall (λ b, 0 < b.1) (w_history w);
}.

Lemma world_mem w R bo bi bm : world_ok w R bo bi bm → mem_ok o (w_db w) R bo bi bm.
Proof. intros H. apply (wo_database _ _ _ _ _ H). Qed.

Lemma world_history_ok w R bo bi bm : world_ok w R bo bi bm → history_ok user (w_history w).
Proof. intros H. rewrite (wo_history _ _ _ _ _ H). apply (ok_history _ _ _ _ _ _ (world_mem _ _ _ _ _ H)). Qed.

Lemma world_sequence w R bo bi bm : world_ok w R bo bi bm → es_log_last_sequence (db_state (w_db w)) = last_seq (w_history w).
Proof. intros H. rewrite (wo_history _ _ _ _ _ H). apply (ok_sequence _ _ _ _ _ _ (world_mem _ _ _ _ _ H)). Qed.

(** *** Deletions *)

Lemma no_deletions (inner es : list KeyValueEntry) bs :
  Forall (λ e, deletion e = false) (entry_of <$> writes bs) → (∀ e, e ∈ es → e ∈ entry_of <$> writes bs) → deletions_inside o inner es.
Proof. intros Hb Hes e He Hd. rewrite Forall_forall in Hb. rewrite (Hb e (Hes e He)) in Hd. done. Qed.

Lemma removals_ok s R bo bi bm : mem_ok o s R bo bi bm → removals_hide s (bo ++ bi ++ bm) → removals_inside o s R bi.
Proof.
  intros Hm Hr. unfold removals_hide, removals_inside in *. pose proof (ok_immutable _ _ _ _ _ _ Hm) as Hi. unfold immutable_ok in Hi.
  assert (∀ e, e ∈ entry_of <$> writes bi → e ∈ entry_of <$> writes (bo ++ bi ++ bm)) as Hsub.
  { intros e He. rewrite !writes_app, !fmap_app, !elem_of_app. auto. }
  assert (∀ c r, compaction_of o (version_set s) c r → ∀ e, e ∈ chosen c → e ∈ entries_of (vs_latest_version (version_set s))) as Hch.
  { intros c r Hc e He. by apply (chosen_entries o (version_set s) c r). }
  destruct (es_immutable_table (db_state s)) as [m|].
  - destruct Hr as [Hno|Hin]; [by eapply no_deletions|]. destruct Hi as (_ & _ & _ & (t & Ht & Hh & _) & _).
    pose proof (ok_history _ _ _ _ _ _ Hm) as Hhist. apply history_app in Hhist as [_ Hhist]. apply history_app in Hhist as [Hhist _].
    destruct (history_entries_ok user bi Hhist) as [_ Hp]. eapply deletions_ext; [| |exact (Hin t _ Ht Hh)]; intros x; by rewrite Hp.
  - intros c r Hc. pose proof (vo_tables _ _ _ _ (ok_version _ _ _ _ _ _ Hm)) as Ht. rewrite Forall_forall in Ht. destruct Hr as [Hno|Hin].
    + eapply no_deletions; [exact Hno|]. intros x (e & He & Hx)%elem_of_rows. destruct (ok_rows _ _ _ _ _ _ Hm) as (all & Hp & Hr).
      rewrite writes_app, fmap_app, elem_of_app. left. apply (rp_sub _ _ _ Hr). rewrite Hp. apply elem_of_rows. exists e. split; [by eapply Hch|done].
    + apply (Hin c r); [done|]. apply Forall_forall. intros e He. by apply Ht, (Hch c r).
Qed.

(** *** Each operation succeeds and keeps the invariant *)

Section Steps.
Hypothesis Hfit : options_fit o (T := T).

Lemma new_world dir error :
  vacant dir → ∃ s, open_impl options rngs true error dir = Done (inr s) ∧ world_ok (mkWorld s None [] []) (λ _, []) [] [] [].
Proof.
  intros [H1 H2 H3]. destruct (open_new_ok o rngs dir error Hfit H1 H2 H3) as (s & Hrun & Hm & Hd). exists s. split; [done|].
  split; cbn; [done|by apply idle_database|constructor|constructor|constructor].
Qed.

Lemma write_world w R bo bi bm q ws :
  world_ok w R bo bi bm → write_fits o (w_db w) q ws →
  let b := (assigned (w_db w) q, ws) in
  ∃ s, write options (batch_bytes q ws) (w_db w) = Done (inr tt, s) ∧
    world_ok (mkWorld s (w_job w) (w_history w ++ [b]) (w_snapshots w)) R bo bi (bm ++ [b]).
Proof.
  intros Hw Hf b. pose proof Hw as [W1 W2 W3 W4 W5]. pose proof (world_sequence _ _ _ _ _ Hw) as Hseq. pose proof (wf_new _ _ _ _ Hf) as Hnew.
  pose proof (world_history_ok _ _ _ _ _ Hw) as Hh. rewrite W1 in W3.
  destruct (write_database o (w_db w) (w_job w) R bo bi bm _ q ws (of_default _ Hfit) W2 W3 Hf) as (s & Hrun & Hd & Hs).
  exists s. split; [done|]. split; cbn [w_db w_job w_history w_snapshots]; [by rewrite W1, <- !(assoc_L (++))|done|by rewrite W1| |].
  - eapply Forall_impl; [exact W4|]. intros x (rest & E & El & Hrest). exists (rest ++ [b]). split_and!; [by rewrite E, <- (assoc_L (++))|done|].
    apply Forall_app. split; [done|]. constructor; [|constructor]. cbn. rewrite E in Hh, Hseq. pose proof (last_seq_app user _ _ Hh). lia.
  - apply Forall_app. split; [done|]. constructor; [|constructor]. cbn. pose proof (last_seq_nonneg user _ Hh). lia.
Qed.

Lemma snapshot_world w R bo bi bm :
  world_ok w R bo bi bm →
  ∃ d, snapshot (w_db w) = Done (d, w_db w) ∧ world_ok (mkWorld (w_db w) (w_job w) (w_history w) ((d, w_history w) :: w_snapshots w)) R bo bi bm.
Proof.
  intros [W1 W2 W3 W4 W5]. rewrite W1 in W3. destruct (snapshot_database o (w_db w) (w_job w) R bo bi bm _ W2 W3) as (d & Hrun & El & Hs).
  exists d. split; [done|]. split; cbn [w_db w_job w_history w_snapshots]; [done|done|by rewrite W1| |done].
  constructor; [|done]. exists []. split_and!; [by rewrite app_nil_r|cbn; by rewrite W1|constructor].
Qed.

Lemma select_world w R bo bi bm fuel rng :
  world_ok w R bo bi bm → w_job w = None → room o (w_db w) (w_history w) fuel → removals_hide (w_db w) (w_history w) →
  ∃ job s, select_job table_iter table_properties options fuel rng (w_db w) = Done (inr job, s) ∧
    world_ok (mkWorld s job (w_history w) (w_snapshots w)) R bo bi bm.
Proof.
  intros Hw Hj Hroom Hr. pose proof Hw as [W1 W2 W3 W4 W5]. rewrite Hj in W2. rewrite W1 in W3, Hroom, Hr.
  destruct (select_database o table_iter table_iter_rep table_properties (w_db w) R bo bi bm _ fuel rng Hfit W2 W3 Hroom) as (job & s & Hrun & Hd & Hs).
  { apply (removals_ok _ R bo bi bm); [by eapply world_mem|done]. }
  exists job, s. split; [done|]. split; cbn [w_db w_job w_history w_snapshots]; [done|done|by rewrite W1|done|done].
Qed.

Lemma commit_world w R bo bi bm job :
  world_ok w R bo bi bm → w_job w = Some job → vs_next_file_number (version_set (w_db w)) + 1 < U64_MAX →
  ∃ s R' bo' bi' bm', commit_job options rngs job (w_db w) = Done (inr tt, s) ∧
    world_ok (mkWorld s None (w_history w) (w_snapshots w)) R' bo' bi' bm'.
Proof.
  intros [W1 W2 W3 W4 W5] Hj Hn. rewrite Hj in W2. rewrite W1 in W3.
  destruct (commit_database o rngs (w_db w) job R bo bi bm _ Hfit W2 W3 Hn) as (s & R' & bo' & bi' & bm' & Hrun & Hd & E & Hs).
  exists s, R', bo', bi', bm'. split; [done|]. split; cbn [w_db w_job w_history w_snapshots]; [by rewrite W1|done|by rewrite W1|done|done].
Qed.

(** *** Opening again *)

Lemma job_files s job R bo bi bm :
  database_ok o s job R bo bi bm →
  ∃ vd R' bo' bi' bm', disk_ok o s vd R' bi' bm' ∧ files_stand o vd R' bo' ∧ bo' ++ bi' ++ bm' = bo ++ bi ++ bm ∧
    match job with
    | Some (SwapMemtable _ _) => bm' = []
    | _ => bm' = bm ∧ vs_log_number vd = vs_log_number (version_set s)
    end.
Proof.
  intros [Hm (vd & R' & bo' & bi' & bm' & Hj & Hd)].
  assert (files_stand o (version_set s) R bo) as Hst by (split; apply Hm).
  assert (∀ vd R' bo, installed o (version_set s) R vd R' bo → files_stand o vd R' bo) as Hin by (intros ? ? ? []; by split).
  exists vd, R', bo', bi', bm'. split; [done|].
  inversion Hj as [| |edit n vd0 H1 H2 H3 H4 H5 H6|edit tables vd0 R0 H1 H2 H3 H4 H5|edit tables vd0 R0 H1 H2 H3 H4 H5]; subst.
  - by split_and!.
  - by split_and!.
  - split; [by eapply Hin|]. split; [|done]. pose proof (ok_immutable _ _ _ _ _ _ Hm) as Hi. unfold immutable_ok in Hi. rewrite H1 in Hi.
    destruct Hi as [-> _]. by rewrite app_nil_r.
  - split; [by eapply Hin|]. split; [by rewrite <- (assoc_L (++))|done].
  - split; [by eapply Hin|]. done.
Qed.

Lemma lose_nothing n file (d : Directory) : dir_logs d !! n = Some file → lose_log n (length file) d = d.
Proof.
  intros Hn. unfold lose_log, set_dir_logs. destruct d as [tables logs manifests current]. cbn in *. f_equal. apply map_eq. intros m.
  destruct (decide (m = n)) as [->|]; [|by rewrite lookup_alter_ne]. rewrite lookup_alter_eq, Hn. cbn. by rewrite take_ge.
Qed.

Lemma survivors_prefix (a b : list Batch) :
  history_ok user (a ++ b) → Forall (λ x, 0 < x.1) (a ++ b) → filter (λ x, x.1 ≤ last_seq a) (a ++ b) = a.
Proof.
  intros Hh Hp. destruct (history_app user _ _ Hh) as [Ha _]. rewrite filter_app, filter_true, filter_none; [by rewrite app_nil_r| |].
  - apply Forall_forall. intros x Hx Hle. destruct (decide (a = [])) as [->|Hne].
    + rewrite Forall_forall in Hp. specialize (Hp x Hx). cbn in Hle. lia.
    + unfold last_seq in Hle. destruct (last a) as [l|] eqn:E; [|by apply last_None in E]. apply last_Some_elem_of in E.
      pose proof (StronglySorted_app_1_elem_of _ _ _ _ _ (ho_sequences _ _ Hh) E Hx) as Hlt. cbn in Hlt, Hle. lia.
  - apply Forall_forall. intros x Hx. by apply (last_seq_max user).
Qed.

(** The end of the log is not lost. *)
Definition nothing_lost s (cut : nat) : Prop := ∀ n w, es_log (db_state s) = Some (n, w) → (length (rw_file w) ≤ cut)%nat.

Lemma reopen_files s job R bo bi bm create cut :
  database_ok o s job R bo bi bm →
  ∃ s' R' bo' bi' bm' j, open_impl options rngs create false (crashed (mkWorld s job (bo ++ bi ++ bm) []) cut) = Done (inr s') ∧
    mem_ok o s' R' bo' bi' (take j bm') ∧ disk_ok o s' (version_set s') R' bi' (take j bm') ∧ bo' ++ bi' ++ bm' = bo ++ bi ++ bm ∧
    (nothing_lost s cut → take j bm' = bm').
Proof.
  intros Hdb. destruct (job_files s job R bo bi bm Hdb) as (vd & R' & bo' & bi' & bm' & Hd & Hst & E & Hjob). destruct Hdb as [Hm _].
  pose proof (ok_history _ _ _ _ _ _ Hm) as Hh. pose proof (ok_batches _ _ _ _ _ _ Hm) as Hb. rewrite <- E in Hh, Hb.
  destruct (dk_log _ _ _ _ _ _ Hd) as (n & Hn & (wf & Hwf & Hfile) & _). destruct (ok_log _ _ _ _ _ _ Hm) as (n' & wr & Hlog & Hn' & Hwr).
  assert (∀ cut, ∃ s' j, open_impl options rngs create false (lose_log n cut (db_dir s)) = Done (inr s') ∧
    mem_ok o s' R' bo' bi' (take j bm') ∧ disk_ok o s' (version_set s') R' bi' (take j bm') ∧
    ((length (rw_file wf) ≤ cut)%nat → take j bm' = bm')) as Hopen.
  { intros c. destruct (open_existing_ok o rngs s vd R' bo' bi' bm' n c create Hfit Hd Hst Hh Hb Hn) as (s' & j & H1 & H2 & H3 & H4).
    exists s', j. split_and!; [done|done|done|]. by apply H4. }
  assert ((∃ edit log, job = Some (SwapMemtable edit log)) ∨ bm' = bm ∧ vs_log_number vd = vs_log_number (version_set s)) as [(edit & log & ->)|[-> Hvl]].
  { destruct job as [[]|]; eauto. }
  - destruct (Hopen (length (rw_file wf))) as (s' & j & H1 & H2 & H3 & H4). rewrite (lose_nothing n (rw_file wf) _ Hfile) in H1.
    exists s', R', bo', bi', bm', j. split_and!; [exact H1|done|done|done|]. intros _. by apply H4.
  - assert (n' = n) as -> by congruence. assert (wf = wr) as -> by (unfold log_of in *; congruence).
    destruct (Hopen (match job with Some (SwapMemtable _ _) => length (rw_file wr) | _ => cut end)) as (s' & j & H1 & H2 & H3 & H4).
    exists s', R', bo', bi', bm, j. split_and!; [|done|done|done|].
    + unfold crashed. cbn [w_job w_db]. rewrite Hlog. destruct job as [[]|]; try exact H1. by rewrite (lose_nothing n (rw_file wr) _ Hfile) in H1.
    + intros Hlost. apply H4. destruct job as [[]|]; try by apply (Hlost n). done.
Qed.

Lemma reopen_world w R bo bi bm create cut :
  world_ok w R bo bi bm →
  ∃ s k R' bo' bi' bm', open_impl options rngs create false (crashed w cut) = Done (inr s) ∧
    survivors s (w_history w) = take k (w_history w) ∧ (nothing_lost (w_db w) cut → survivors s (w_history w) = w_history w) ∧
    world_ok (mkWorld s None (survivors s (w_history w)) []) R' bo' bi' bm'.
Proof.
  intros Hw. pose proof Hw as [W1 W2 W3 W4 W5]. pose proof (world_history_ok _ _ _ _ _ Hw) as Hh.
  destruct (reopen_files (w_db w) (w_job w) R bo bi bm create cut W2) as (s & R' & bo' & bi' & bm' & j & Hrun & Hm & Hd & E & Hlost).
  rewrite W1, <- E in Hh, W5 |- *. set (bs := bo' ++ bi' ++ take j bm').
  assert (bo' ++ bi' ++ bm' = bs ++ drop j bm') as Eb by (unfold bs; by rewrite <- !(assoc_L (++)), take_drop).
  assert (survivors s (bo' ++ bi' ++ bm') = bs) as Es.
  { unfold survivors. rewrite (ok_sequence _ _ _ _ _ _ Hm). fold bs. rewrite Eb in Hh, W5 |- *. by apply survivors_prefix. }
  exists s, (length bs), R', bo', bi', (take j bm'). rewrite Es. split_and!; [exact Hrun|by rewrite Eb, take_app_length|intros Hl; unfold bs; by rewrite Hlost|].
  split; cbn [w_db w_job w_history w_snapshots]; [done|by apply idle_database|constructor|constructor|]. rewrite Eb in W5. by apply Forall_app in W5 as [? _].
Qed.

(** *** All states *)

Lemma reaches_ok w : reaches w → ∃ R bo bi bm, world_ok w R bo bi bm.
Proof.
  induction 1 as [dir error s Hv Hrun|w q ws s _ (R & bo & bi & bm & IH) Hf Hrun|w d s _ (R & bo & bi & bm & IH) Hrun
    |w fuel rng job s _ (R & bo & bi & bm & IH) Hj Hroom Hr Hrun|w job s _ (R & bo & bi & bm & IH) Hj Hn Hrun|w create cut s _ (R & bo & bi & bm & IH) Hrun].
  - destruct (new_world dir error Hv) as (s' & Hrun' & Hw). rewrite Hrun in Hrun'. injection Hrun' as <-. eauto.
  - destruct (write_world w R bo bi bm q ws IH Hf) as (s' & Hrun' & Hw). rewrite Hrun in Hrun'. injection Hrun' as <-. eauto.
  - destruct (snapshot_world w R bo bi bm IH) as (d' & Hrun' & Hw). rewrite Hrun in Hrun'. injection Hrun' as <- ->. eauto.
  - destruct (select_world w R bo bi bm fuel rng IH Hj Hroom Hr) as (job' & s' & Hrun' & Hw). rewrite Hrun in Hrun'. injection Hrun' as <- <-. eauto.
  - destruct (commit_world w R bo bi bm job IH Hj Hn) as (s' & R' & bo' & bi' & bm' & Hrun' & Hw). rewrite Hrun in Hrun'. injection Hrun' as <-. eauto.
  - destruct (reopen_world w R bo bi bm create cut IH) as (s' & k & R' & bo' & bi' & bm' & Hrun' & _ & _ & Hw). rewrite Hrun in Hrun'. injection Hrun' as <-. eauto.
Qed.
End Steps.
End Database.
