(* ===== verification/DatabaseSample.v ===== *)
(** * A sample database

    A store that keeps the rows of a table as they are, with its iterators,
    as an instance of what the theorems of the database are proved against;
    and a run of a database over it. *)

From Stdlib Require Import SpecFloat.
From S2P Require Import Prelude Wire Encoding Comparator SkipList SkipListProofs SkipListTheorems RecordLog RecordLogProofs RecordLogTheorems.
From S2P Require Import WriteBatch WriteBatchTheorems MergeIterator MergeIteratorTheorems Snapshot SnapshotProofs SnapshotTheorems.
From S2P Require Import Filter Table TableBuild VersionEdit VersionEditTheorems Version VersionProofs VersionRecovery VersionTheorems.
From S2P Require Import LevelIterator LevelIteratorTheorems Compaction CompactionProofs CompactionBuild CompactionTheorems VersionRows.
From S2P Require Import Database DatabaseReads DatabaseProofs DatabaseJobs DatabaseSelect DatabaseCompact DatabaseRounds DatabaseOpen DatabaseMachine.

(** ** Rows in a file *)

Definition row_bytes (e : KeyValueEntry) : bytes :=
  (Z.of_nat (length e.1) :: e.1) ++ (Z.of_nat (length e.2) :: e.2).
Definition rows_bytes (rows : list KeyValueEntry) : bytes := concat (row_bytes <$> rows).

Definition take_slice (b : bytes) : bytes * bytes :=
  match b with [] => ([], []) | n :: b => (take (Z.to_nat n) b, drop (Z.to_nat n) b) end.

Fixpoint rows_of_bytes (fuel : nat) (b : bytes) : list KeyValueEntry :=
  match fuel, b with
  | O, _ | _, [] => []
  | S fuel, _ => let (k, b) := take_slice b in let (v, b) := take_slice b in (k, v) :: rows_of_bytes fuel b
  end.

Lemma take_slice_ok k b : take_slice (Z.of_nat (length k) :: k ++ b) = (k, b).
Proof. cbn. by rewrite Nat2Z.id, take_app_length, drop_app_length. Qed.

Lemma rows_roundtrip rows fuel : (length rows ≤ fuel)%nat → rows_of_bytes fuel (rows_bytes rows) = rows.
Proof.
  revert fuel. induction rows as [|[k v] rows IH]; intros fuel Hf; [by destruct fuel|]. destruct fuel as [|fuel]; [cbn in Hf; lia|].
  change (rows_bytes ((k, v) :: rows)) with (row_bytes (k, v) ++ rows_bytes rows). unfold row_bytes. cbn [fst snd].
  rewrite <- (assoc_L (++)). cbn [app rows_of_bytes]. rewrite take_slice_ok, take_slice_ok. f_equal. apply IH. cbn in Hf. lia.
Qed.

Lemma length_rows_bytes rows : (length rows ≤ length (rows_bytes rows) ≤ weight rows)%nat.
Proof.
  induction rows as [|[k v] rows IH]; [done|]. change (rows_bytes ((k, v) :: rows)) with (row_bytes (k, v) ++ rows_bytes rows).
  rewrite weight_cons, length_app. unfold row_bytes, row_weight. rewrite length_app. cbn [length fst snd]. lia.
Qed.

(** ** The store *)

#[export] Instance row_store : TableStore (list KeyValueEntry * TableProperties) (list KeyValueEntry) := {|
  ts_open := Done ([], ∅);
  ts_properties b := b.2;
  ts_set_properties p b := (b.1, p);
  ts_add k v := λ b, Done (inr tt, (b.1 ++ [(k, v)], b.2));
  ts_estimated_file_size b := Z.of_nat (weight b.1);
  ts_finish := λ b, Done (inr (rows_bytes b.1), b);
  ts_read file := Done (inr (rows_of_bytes (length file) file));
|}.

Definition row_iter (rows : list KeyValueEntry) : list KeyValueEntry * list KeyValueEntry := (rows, rows).

Section Rows.
Context (c : KeyComparator) `{!KeyComparatorLaws c}.

#[export] Instance row_laws : TableStoreLaws c (list KeyValueEntry * TableProperties) (list KeyValueEntry).
Proof.
  refine (@Build_TableStoreLaws c _ _ _ row_store (λ rows, Z.of_nat (weight rows) < 2 ^ 31) (λ b rows p, b = (rows, p)) (λ t rows p, t = rows) _ _ _ _ _ _).
  - intros l1 l2 l3. unfold weight. rewrite !sum_list_with_app. lia.
  - done.
  - by exists ([], ∅).
  - by intros b rows p ->.
  - intros b rows p k v -> _ _. eexists. done.
  - intros b rows p -> _ Hfit _ _. pose proof (length_rows_bytes rows). exists (rows_bytes rows), (rows, p), rows. split_and!; [done|lia| |done].
    cbn. by rewrite rows_roundtrip by lia.
Defined.

#[export] Instance row_iterable : Iterable (list KeyValueEntry * list KeyValueEntry) := {|
  it_next := λ i, Done (inr (head i.2), (i.1, tail i.2));
  it_seek key := λ i, Done (inr tt, (i.1, filter (λ e, kc_le key e.1) i.1));
|}.

Lemma suffix_from_key (rows : list KeyValueEntry) key : entries_ok c rows → filter (λ e, kc_le key e.1) rows `suffix_of` rows.
Proof.
  intros [_ Hs]. induction Hs as [|e rows Hs IH He]; [done|]. rewrite filter_cons. destruct (decide (kc_le key e.1)) as [Hle|_].
  - rewrite filter_true; [done|]. eapply Forall_impl; [exact He|]. intros x Hx. etrans; [exact Hle|]. by apply entry_lt_le.
  - etrans; [exact IH|]. by exists [e].
Qed.

#[export] Instance row_iter_laws : IterableLaws c (list KeyValueEntry * list KeyValueEntry).
Proof.
  refine (@Build_IterableLaws c _ _ row_iterable (λ i all rest, i = (all, rest) ∧ entries_ok c all ∧ rest `suffix_of` all) _ _ _).
  - by intros i all rest (-> & ? & ?).
  - intros i all rest (-> & Hok & Hs). eexists. split; [done|]. split_and!; [done|done|]. destruct rest as [|e rest]; [done|]. etrans; [|exact Hs]. by exists [e].
  - intros i all rest key (-> & Hok & Hs) Hk. eexists. split; [done|]. split_and!; [done|done|]. by apply suffix_from_key.
Defined.

Lemma row_iter_rep (t rows : list KeyValueEntry) (p : TableProperties) :
  ts_rows t rows p → entries_ok c rows → it_rep c (row_iter t) rows rows.
Proof. intros -> Hok. by split_and!. Qed.
End Rows.

(** ** A run *)

Definition sample_db_options : DatabaseOptions :=
  mkDatabaseOptions false 1 1000000 false false (f32_of 1) (mkEmbeddedDBOptions 2 4 1000 1 10000 10 BytewiseComparator [98]).
Abbreviation so := (wrap_database_options sample_db_options).
#[export] Instance sample_laws : KeyComparatorLaws (do_comparator (eo_version sample_db_options)) := BytewiseComparator_laws.
#[export] Instance sample_antisymm : AntiSymm (=) (@kc_le (do_comparator (eo_version sample_db_options)) sample_laws) := bytewise_antisymm.
#[export] Existing Instance vo_laws.
Abbreviation SampleDB := (EmbeddedDB (T := list KeyValueEntry)).
Abbreviation SampleJob := (Job (T := list KeyValueEntry)).
#[export] Instance sample_iterable : Iterable (list KeyValueEntry * list KeyValueEntry) := row_iterable (do_comparator (eo_version so)).
Definition sample_iter_laws : @IterableLaws (do_comparator (eo_version so)) (vo_laws sample_db_options) _ sample_iterable :=
  row_iter_laws (do_comparator (eo_version so)).
Definition sample_table_laws : @TableStoreLaws (do_comparator (eo_version so)) (vo_laws sample_db_options) _ _ row_store :=
  row_laws (do_comparator (eo_version so)).
#[export] Existing Instance sample_iter_laws.
#[export] Existing Instance sample_table_laws.

Definition sample_rngs (n m : nat) : Z := 0.
Definition sample_properties (t : list KeyValueEntry) : TableProperties := ∅.
Definition no_files : Directory := mkDirectory ∅ ∅ ∅ None.

Definition state_after {A} (s : SampleDB) (r : run (A * SampleDB)) : SampleDB := match r with Done (_, s) => s | _ => s end.
Definition job_after (r : run (Result (option SampleJob) * SampleDB)) : option SampleJob := match r with Done (inr job, _) => job | _ => None end.
Definition succeeds {A} (r : run (Result A * SampleDB)) : bool := match r with Done (inr _, _) => true | _ => false end.

Lemma succeeds_unit s (r : run (Result unit * SampleDB)) : succeeds r = true → r = Done (inr tt, state_after s r).
Proof. by destruct r as [[[|[]] ?]| |]. Qed.
Lemma succeeds_job s (r : run (Result (option SampleJob) * SampleDB)) : succeeds r = true → r = Done (inr (job_after r), state_after s r).
Proof. by destruct r as [[[] ?]| |]. Qed.

Definition db0 : SampleDB :=
  match open_impl so sample_rngs true false no_files with Done (inr s) => s | _ => empty_database sample_rngs no_files end.
Definition put1 : list Write := [WriteValue [1] [7]].
Definition db1 : SampleDB := state_after db0 (write so (batch_bytes 0 put1) db0).
Definition snap1 : DBSnapshot (T := list KeyValueEntry) :=
  mkDBSnapshot (es_log_last_sequence (db_state db1)) None [0%nat] (vs_latest_version (es_version_set (db_state db1))).
Definition select2 : run (Result (option SampleJob) * SampleDB) := select_job row_iter sample_properties so 10 0 db1.
Definition put3 : list Write := [WriteValue [2] [8]; WriteValue [3] []].
Definition db3 : SampleDB := state_after db1 (write so (batch_bytes 0 put3) (state_after db1 select2)).
Definition commit4 : run (Result unit * SampleDB) :=
  match job_after select2 with Some job => commit_job so sample_rngs job db3 | None => Panicked end.
Definition select5 : run (Result (option SampleJob) * SampleDB) := select_job row_iter sample_properties so 10 0 (state_after db3 commit4).
Definition delete6 : list Write := [WriteDeletion [1]].
Definition db6 : SampleDB := state_after db3 (write so (batch_bytes 0 delete6) (state_after db3 select5)).

Definition sample_world : World (T := list KeyValueEntry) :=
  mkWorld db6 (job_after select5) [(1, put1); (2, put3); (3, delete6)] [(snap1, [(1, put1)])].

Lemma sample_fit : options_fit sample_db_options (T := list KeyValueEntry).
Proof.
  split; [by split|by split; [vm_compute|cbn; unfold slice_ok; cbn; lia]| |cbn; lia..].
  intros m Hm. destruct m as [|[|[|[|m]]]]; [by eexists..|]. cbn in Hm. lia.
Qed.

Lemma sample_write_fits (s : SampleDB) n ws :
  es_log_last_sequence (db_state s) = n → 0 ≤ n < 100 → ws ≠ [] → (length ws < 100)%nat →
  Forall (λ w, WriteBatchTheorems.write_ok w ∧ kc_key (c := BytewiseComparator) (write_key w)) ws → NoDup (write_key <$> ws) →
  write_fits sample_db_options s 0 ws.
Proof.
  intros Hl Hn Hne Hlen Hws Hnd. split; unfold assigned; cbn; rewrite ?Hl; [done|done|lia| |done].
  apply Forall_and in Hws as [H1 H2]. split; cbn; [unfold MAX_SEQUENCE; lia|lia|done|done].
Qed.

Lemma sample_room (s : SampleDB) n bs :
  vs_next_file_number (es_version_set (db_state s)) = n → 0 ≤ n < 100 → (length (writes bs) < 10)%nat → Z.of_nat (weight (entry_of <$> writes bs)) < 10000 →
  room sample_db_options s bs 10.
Proof.
  intros Hn Hb Hlen Hw. split; [|rewrite Hn; unfold U64_MAX, U64; lia|lia]. intros es Hok Hes. change (Z.of_nat (weight es) < 2 ^ 31).
  assert (es ⊆+ entry_of <$> writes bs) as [k Hk]%submseteq_Permutation.
  { apply NoDup_submseteq; [|exact Hes]. by apply (entries_nodup BytewiseComparator). }
  assert (weight (entry_of <$> writes bs) = weight es + weight k)%nat as E; [|lia].
  unfold weight. by rewrite Hk, sum_list_with_app.
Qed.

Lemma small_bytes (l : bytes) : forallb (λ b, (0 <=? b) && (b <? 256)) l = true → kc_key (c := BytewiseComparator) l.
Proof. apply sample_key. Qed.

Ltac sample_batch n :=
  apply (sample_write_fits _ n); [by vm_compute|lia|done|cbn; lia|repeat constructor; cbn; try lia; by apply small_bytes
    |repeat (constructor; [rewrite ?not_elem_of_cons; split_and?; (done || apply not_elem_of_nil)|]); constructor].

Lemma sample_reaches : reaches sample_db_options row_iter sample_properties sample_rngs sample_world.
Proof.
  pose (W := reaches sample_db_options row_iter sample_properties sample_rngs).
  assert (W (mkWorld db0 None [] [])) as H0.
  { apply (reaches_new _ _ _ _ no_files false); [by split|]. unfold db0. by destruct (open_impl so sample_rngs true false no_files) as [[|]| |] eqn:E; vm_compute in E. }
  assert (W (mkWorld db1 None [(1, put1)] [])) as H1.
  { apply (reaches_write _ _ _ _ (mkWorld db0 None [] []) 0 put1); [exact H0|sample_batch 0|]. apply succeeds_unit. by vm_compute. }
  assert (W (mkWorld db1 None [(1, put1)] [(snap1, [(1, put1)])])) as H2.
  { apply (reaches_snapshot _ _ _ _ (mkWorld db1 None [(1, put1)] []) snap1 db1 H1). unfold snapshot, bind, gets, ret. cbn [w_db id]. unfold snap1. by vm_compute. }
  assert (W (mkWorld (state_after db1 select2) (job_after select2) [(1, put1)] [(snap1, [(1, put1)])])) as H3.
  { apply (reaches_select _ _ _ _ (mkWorld db1 None [(1, put1)] [(snap1, [(1, put1)])]) 10 0); [exact H2|done| |left; by repeat constructor|].
    - apply (sample_room _ 4); [by vm_compute|lia|cbn; lia|by vm_compute].
    - apply succeeds_job. by vm_compute. }
  assert (W (mkWorld db3 (job_after select2) [(1, put1); (2, put3)] [(snap1, [(1, put1)])])) as H4.
  { apply (reaches_write _ _ _ _ _ 0 put3 db3 H3); [sample_batch 1|]. apply succeeds_unit. by vm_compute. }
  assert (W (mkWorld (state_after db3 commit4) None [(1, put1); (2, put3)] [(snap1, [(1, put1)])])) as H5.
  { destruct (job_after select2) as [job|] eqn:Ej; [|by vm_compute in Ej].
    apply (reaches_commit _ _ _ _ _ job (state_after db3 commit4) H4); [done|by vm_compute|].
    assert (commit_job so sample_rngs job db3 = commit4) as E by (unfold commit4; by rewrite Ej). cbn [w_db]. rewrite E. apply succeeds_unit. by vm_compute. }
  assert (W (mkWorld (state_after db3 select5) (job_after select5) [(1, put1); (2, put3)] [(snap1, [(1, put1)])])) as H6.
  { apply (reaches_select _ _ _ _ _ 10 0 (job_after select5) (state_after db3 select5) H5); [done| |left; by repeat constructor|].
    - apply (sample_room _ 5); [by vm_compute|lia|cbn; lia|by vm_compute].
    - apply succeeds_job. by vm_compute. }
  apply (reaches_write _ _ _ _ _ 0 delete6 db6 H6); [sample_batch 2|]. apply succeeds_unit. by vm_compute.
Qed.
