(* ===== verification/DatabaseTheorems.v ===== *)
(** * Theorems of the database

    A database is a map: whatever was written, flushed, compacted, lost in a
    crash and opened again, a read returns the value of the map that the
    batches describe, as long as the tables are read right and deletions are
    not dropped early. Without these two conditions it does not: the last part
    has runs of the database that lose a key, and that return a deleted one. *)

From Stdlib Require Import SpecFloat.
From S2P Require Import Prelude Wire Encoding Comparator DataBlock SkipList SkipListProofs SkipListTheorems RecordLog RecordLogProofs RecordLogTheorems.
From S2P Require Import WriteBatch WriteBatchTheorems MergeIterator MergeIteratorTheorems Snapshot SnapshotProofs SnapshotTheorems.
From S2P Require Import Filter Table TableBuild VersionEdit VersionEditTheorems Version VersionProofs VersionRecovery VersionTheorems.
From S2P Require Import LevelIterator LevelIteratorTheorems Compaction CompactionProofs CompactionBuild CompactionTheorems VersionRows.
From S2P Require Import Database DatabaseReads DatabaseProofs DatabaseJobs DatabaseSelect DatabaseCompact DatabaseRounds DatabaseOpen DatabaseMachine DatabaseSample.

Section Database.
Context (o : DatabaseOptions).
Abbreviation user := (do_comparator (eo_version o)).
Abbreviation internal := (InternalKeyComparator user).
Abbreviation options := (wrap_database_options o).
Abbreviation vo := (eo_version options).
Context `{!KeyComparatorLaws user} `{!AntiSymm (=) (@kc_le user _)}.
#[local] Existing Instance vo_laws.
Context {B T J : Type} {HT : TableStore B T} (table_iter : T → J) {HJ : Iterable J}.
Context {LT : @TableStoreLaws (do_comparator vo) (vo_laws o) B T HT} {LJ : @IterableLaws (do_comparator vo) (vo_laws o) J HJ}.
Hypothesis table_iter_rep : ∀ t rows p, ts_rows t rows p → entries_ok (do_comparator vo) rows → it_rep (do_comparator vo) (table_iter t) rows rows.
Context (table_properties : T → TableProperties) (rngs : nat → nat → Z).
Implicit Types (s : EmbeddedDB (T := T)) (R : Z → list KeyValueEntry) (bo bi bm : list Batch) (vs vd : VersionSet T).
Abbreviation version_set s := (es_version_set (db_state s)).

Abbreviation Job := (Job (T := T)).

(** ** The specification *)

(** The map that batches describe. *)
Definition map_write (m : gmap bytes bytes) (w : Write) : gmap bytes bytes :=
  match w with
  | WriteValue key value => <[key := value]> m
  | WriteDeletion key => delete key m
  end.
Definition map_of (bs : list Batch) : gmap bytes bytes := foldl (λ m b, foldl map_write m b.2) ∅ bs.

Lemma map_of_writes bs : map_of bs = foldl map_write ∅ (writes bs).*2.
Proof.
  unfold map_of. generalize (∅ : gmap bytes bytes) as m. induction bs as [|[q ws] bs IH]; intros m; [done|]. cbn [foldl]. rewrite IH.
  unfold writes. cbn [mbind list_bind]. rewrite fmap_app, foldl_app. f_equal. f_equal. rewrite <- list_fmap_compose. cbn. symmetry. apply list_fmap_id.
Qed.

Lemma map_lookup (ws : list (Z * Write)) key :
  foldl map_write ∅ ws.*2 !! key = last (filter (λ x, write_key x.2 = key) ws) ≫= λ x, se_value (written_version x).
Proof.
  induction ws as [|[q w] ws IH] using rev_ind; [done|]. rewrite fmap_app, foldl_app, filter_app. cbn [foldl fmap list_fmap snd].
  rewrite filter_cons, filter_nil. cbn [snd]. destruct (decide (write_key w = key)) as [<-|Hne].
  - rewrite last_snoc. destruct w; cbn; [by rewrite lookup_insert_eq|by rewrite lookup_delete_eq].
  - rewrite app_nil_r, <- IH. destruct w; cbn in *; [by rewrite lookup_insert_ne|by rewrite lookup_delete_ne].
Qed.

(** Reading at the last sequence. *)
Lemma model_get_map key bs : history_ok user bs → model_get key (last_seq bs) bs = map_of bs !! key.
Proof.
  intros Hh. rewrite map_of_writes, map_lookup. unfold model_get, model_entry. rewrite <- list_filter_filter, (filter_true _ (writes bs)); [by destruct (last _)|].
  apply Forall_forall. intros x (b & Hb & -> & _)%elem_of_writes. by apply (last_seq_max user).
Qed.

Hypothesis Hfit : options_fit o (T := T).
Abbreviation World := (World (T := T)).
Abbreviation reaches := (reaches o table_iter table_properties rngs).

(** ** Reads *)

(** C1: A database is a map. In every state that can be reached by opening,
    writing, taking snapshots, selecting and committing the rounds of the
    compaction thread (with writes between the two), crashing and opening
    again, [get] returns without an error what the batches that were written
    make of the key: the value of the last write of it, or nothing if that was
    a deletion. This holds for a database with a log and without a compaction
    waterline, for all tables that are read back as they were written and whose
    iterators seek exactly, and for rounds that drop no deletion that hides
    another entry. *)
Theorem database_refines_map (w : World) (key : bytes) :
  reaches w → kc_key (c := user) key →
  ∃ n, ∀ fuel, (n < fuel)%nat → get table_iter options fuel key (w_db w) = Done (inr (map_of (w_history w) !! key), w_db w).
Proof.
  intros Hr Hk. destruct (reaches_ok o table_iter table_iter_rep table_properties rngs Hfit w Hr) as (R & bo & bi & bm & Hw).
  destruct (get_ok o table_iter table_iter_rep (w_db w) R bo bi bm key (world_mem _ _ _ _ _ _ Hw) Hk) as (n & Hn). exists n. intros fuel Hf.
  rewrite (Hn fuel Hf), <- (wo_history _ _ _ _ _ _ Hw). by rewrite model_get_map by (by eapply world_history_ok).
Qed.

(** C5: Snapshots are isolated. In every state that can be reached, a snapshot
    that was taken since the database was opened returns what the database
    held when it was taken, whatever was written, flushed and compacted since.
    As for the map, this holds for a database with a log and without a
    compaction waterline, for tables that are read back as they were written
    and whose iterators seek exactly, and for rounds that drop no deletion
    that hides another entry. *)
Theorem database_snapshot_get (w : World) (d : DBSnapshot (T := T)) (bs : list Batch) (key : bytes) :
  reaches w → (d, bs) ∈ w_snapshots w → kc_key (c := user) key →
  ∃ n, ∀ fuel, (n < fuel)%nat → get_at table_iter options fuel d key (w_db w) = Done (inr (map_of bs !! key), w_db w).
Proof.
  intros Hr Hd Hk. destruct (reaches_ok o table_iter table_iter_rep table_properties rngs Hfit w Hr) as (R & bo & bi & bm & Hw).
  pose proof (world_history_ok _ _ _ _ _ _ Hw) as Hh. pose proof (wo_taken _ _ _ _ _ _ Hw) as Ht. rewrite Forall_forall in Ht.
  destruct (Ht _ Hd) as (rest & E & El & Hrest). cbn [fst snd] in *.
  pose proof (wo_snapshots _ _ _ _ _ _ Hw) as Hs. unfold snapshots_ok in Hs. rewrite Forall_forall in Hs.
  destruct (Hs d ltac:(apply list_elem_of_fmap; by exists (d, bs))) as [Hsnap _].
  destruct (get_at_ok o table_iter table_iter_rep (w_db w) R _ bm d key Hh Hsnap Hk) as (n & Hn). exists n. intros fuel Hf.
  rewrite (Hn fuel Hf), El, E, model_get_later by done. rewrite E in Hh. destruct (history_app user _ _ Hh) as [Hh' _]. by rewrite model_get_map.
Qed.

(** ** Progress *)

(** C6: Nothing goes wrong. In every state that can be reached, writing a
    batch of distinct keys with a sequence that is new, taking a snapshot,
    selecting a round and committing it return without an error and without
    a panic, as long as there are file numbers, enough fuel to read the
    entries, the entries fit into tables and the selected round drops no
    deletion that hides another entry ([removals_hide]). *)
Theorem database_progress (w : World) :
  reaches w →
  (∀ q ws, write_fits o (w_db w) q ws → ∃ s, write options (batch_bytes q ws) (w_db w) = Done (inr tt, s)) ∧
  (∃ d, snapshot (w_db w) = Done (d, w_db w)) ∧
  (∀ fuel rng, w_job w = None → room o (w_db w) (w_history w) fuel → removals_hide o (w_db w) (w_history w) →
    ∃ job s, select_job table_iter table_properties options fuel rng (w_db w) = Done (inr job, s)) ∧
  (∀ job, w_job w = Some job → vs_next_file_number (version_set (w_db w)) + 1 < U64_MAX →
    ∃ s, commit_job options rngs job (w_db w) = Done (inr tt, s)).
Proof.
  intros Hr. destruct (reaches_ok o table_iter table_iter_rep table_properties rngs Hfit w Hr) as (R & bo & bi & bm & Hw). split_and!.
  - intros q ws Hf. destruct (write_world o Hfit w R bo bi bm q ws Hw Hf) as (s & Hrun & _). eauto.
  - destruct (snapshot_world o w R bo bi bm Hw) as (d & Hrun & _). eauto.
  - intros fuel rng Hj Hroom Hrem.
    destruct (select_world o table_iter table_iter_rep table_properties Hfit w R bo bi bm fuel rng Hw Hj Hroom Hrem) as (job & s & Hrun & _). eauto.
  - intros job Hj Hn. destruct (commit_world o rngs Hfit w R bo bi bm job Hw Hj Hn) as (s & R' & bo' & bi' & bm' & Hrun & _). eauto.
Qed.

(** ** Durability *)

(** C2: Crash recovery. In every state that can be reached, also between the
    selection and the commit of a round, the directory can be opened again
    without an error. The database then holds a prefix of the batches that
    were written: all of them, unless the end of the log was lost. *)
Theorem database_recovery (w : World) (create : bool) (cut : nat) :
  reaches w →
  ∃ s k, open_impl options rngs create false (crashed w cut) = Done (inr s) ∧
    (nothing_lost (w_db w) cut → take k (w_history w) = w_history w) ∧
    ∀ key, kc_key (c := user) key →
      ∃ n, ∀ fuel, (n < fuel)%nat → get table_iter options fuel key s = Done (inr (map_of (take k (w_history w)) !! key), s).
Proof.
  intros Hr. destruct (reaches_ok o table_iter table_iter_rep table_properties rngs Hfit w Hr) as (R & bo & bi & bm & Hw).
  destruct (reopen_world o rngs Hfit w R bo bi bm create cut Hw) as (s & k & R' & bo' & bi' & bm' & Hrun & Ek & Hlost & Hw').
  exists s, k. rewrite <- Ek. split_and!; [done|done|]. intros key Hk.
  destruct (get_ok o table_iter table_iter_rep s R' bo' bi' bm' key (world_mem _ _ _ _ _ _ Hw') Hk) as (n & Hn). exists n. intros fuel Hf.
  pose proof (wo_history _ _ _ _ _ _ Hw') as Eh. cbn in Eh. rewrite (Hn fuel Hf), <- Eh. rewrite model_get_map; [done|].
  exact (world_history_ok _ _ _ _ _ _ Hw').
Qed.
End Database.

(** ** Witnesses *)

Lemma database_refines_map_witness :
  reaches sample_db_options row_iter sample_properties sample_rngs sample_world ∧
  ∃ n, ∀ fuel, (n < fuel)%nat → get row_iter so fuel [2] db6 = Done (inr (Some [8]), db6).
Proof.
  split; [exact sample_reaches|].
  destruct (database_refines_map sample_db_options row_iter (row_iter_rep _) sample_properties sample_rngs sample_fit sample_world [2]
    sample_reaches (small_bytes [2] eq_refl)) as (n & Hn).
  exists n. intros fuel Hf. assert (map_of (w_history sample_world) !! [2] = Some [8]) as E by (by vm_compute). rewrite E in Hn. exact (Hn fuel Hf).
Defined.

Lemma database_snapshot_get_witness :
  ∃ n, ∀ fuel, (n < fuel)%nat → get_at row_iter so fuel snap1 [1] db6 = Done (inr (Some [7]), db6).
Proof.
  destruct (database_snapshot_get sample_db_options row_iter (row_iter_rep _) sample_properties sample_rngs sample_fit sample_world snap1 [(1, put1)] [1]
    sample_reaches ltac:(by left) (small_bytes [1] eq_refl)) as (n & Hn).
  exists n. intros fuel Hf. assert (map_of [(1, put1)] !! [1] = Some [7]) as E by (by vm_compute). rewrite E in Hn. exact (Hn fuel Hf).
Defined.

Lemma database_progress_witness :
  ∃ job s, w_job sample_world = Some job ∧ commit_job so sample_rngs job (w_db sample_world) = Done (inr tt, s).
Proof.
  destruct (database_progress sample_db_options row_iter (row_iter_rep _) sample_properties sample_rngs sample_fit sample_world sample_reaches)
    as (_ & _ & _ & Hcommit).
  destruct (w_job sample_world) as [job|] eqn:E; [|by vm_compute in E].
  destruct (Hcommit job eq_refl) as [s Hs]; [by vm_compute|]. exists job, s. split; [exact eq_refl|exact Hs].
Defined.

Lemma database_recovery_witness :
  ∃ s k, open_impl so sample_rngs false false (crashed sample_world 20) = Done (inr s) ∧
    ∃ n, ∀ fuel, (n < fuel)%nat →
      get row_iter so fuel [1] s = Done (inr (map_of (take k (w_history sample_world)) !! [1]), s).
Proof.
  destruct (database_recovery sample_db_options row_iter (row_iter_rep _) sample_properties sample_rngs sample_fit sample_world false 20
    sample_reaches) as (s & k & Hs & _ & Hget).
  exists s, k. split; [exact Hs|]. exact (Hget [1] (small_bytes [1] eq_refl)).
Defined.

(** ** Errors *)

(** A batch with a sequence of its own that is not new. [write] panics:
    the error is returned while the lock of the state is entered, and leaving
    it that way panics. *)
Theorem stale_sequence_panics {T : Type} (o : DatabaseOptions) (s : EmbeddedDB (T := T)) (q : Z) (ws : list Write) :
  eo_read_only o = false → ws ≠ [] → Z.of_nat (length ws) < 2 ^ 32 → 0 < q < U64 → q ≤ es_log_last_sequence (db_state s) →
  write (wrap_database_options o) (batch_bytes q ws) s = Panicked.
Proof.
  intros Hro Hws Hlen Hq Hle. unfold write. change (eo_read_only (wrap_database_options o)) with (eo_read_only o). rewrite Hro.
  unfold bind at 1, call at 1. rewrite batch_count_ok by done.
  destruct (Z.eqb_spec (Z.of_nat (length ws)) 0) as [E|_]; [destruct ws; [done|cbn in E; lia]|].
  unfold entered, try_bind at 1, bind at 1, assign_sequence, bind at 1, gets at 1. change (id s) with s. unfold bind at 1, call at 1.
  rewrite batch_sequence_ok by lia. rewrite (proj2 (Z.eqb_neq _ _)) by lia. cbn [negb]. by rewrite (proj2 (Z.leb_le _ _)) by lia.
Qed.

Lemma stale_sequence_panics_witness : write so (batch_bytes 3 put1) db6 = Panicked.
Proof. apply (stale_sequence_panics sample_db_options db6 3 put1); [done|done|by vm_compute|by vm_compute|by vm_compute]. Defined.

(** *** Runs over tables of the source *)

Section Runs.
Context (builder : SSTableBuilderOptions) (trigger : nat).

#[local] Instance sstables : TableStore SSTableBuilder SSTable :=
  sstable_store (λ _, 0) (λ b, inr b) (λ b, inr b) true (wrap_with_internal_keys builder) ∅.
#[local] Instance sstable_iters : Iterable SSTableIterator := SSTableIterator_iterable (λ b, inr b).
Definition run_options : DatabaseOptions :=
  wrap_database_options (mkDatabaseOptions false 1 1000000 false false (f32_of 1)
    (mkEmbeddedDBOptions 2 trigger 1000 1 10000 10 BytewiseComparator [98])).
Abbreviation DB A := (M (EmbeddedDB (T := SSTable)) (Result A)).

(** A round of the compaction thread. *)
Definition round : DB unit :=
  try! job := select_job SSTable_iter st_properties run_options 100 0 in
  match job with None => ret (inr tt) | Some job => commit_job run_options (λ _ _, 0) job end.
Definition run_set (key value : bytes) : DB unit := db_set run_options key value.
Definition run_delete (key : bytes) : DB unit := db_delete run_options key.
Definition run_get (key : bytes) : DB (option bytes) := get SSTable_iter run_options 100 key.

(** The results of a program, from a new database. *)
Definition run_new {A} (m : DB A) : option (Result A) :=
  match open_impl run_options (λ _ _, 0) true false (mkDirectory ∅ ∅ ∅ None) with
  | Done (inr s) => match m s with Done (r, _) => Some r | _ => None end
  | _ => None
  end.

(** A key is written, flushed, deleted and flushed again: it is read before
    and after the last flush. *)
Definition flush_deletion : option (Result (option bytes * option bytes)) := run_new (
  try! _ := run_set [1] [7] in
  try! _ := round in
  try! _ := round in
  try! _ := run_delete [1] in
  try! before := run_get [1] in
  try! _ := round in
  try! _ := round in
  try! after := run_get [1] in
  ret (inr (before, after))).

(** A deletion in a table of level 1, with the value in level 2; then a
    compaction of another key of the table: the deleted key is read before and
    after it. *)
Definition compact_deletion : option (Result (option bytes * option bytes)) := run_new (
  try! _ := run_set [1] [7] in
  try! _ := round in
  try! _ := round in
  try! _ := run_delete [1] in
  try! _ := run_set [5] [7] in
  try! _ := round in
  try! _ := round in
  try! _ := run_set [5] [8] in
  try! _ := round in
  try! _ := round in
  try! before := run_get [1] in
  try! _ := round in
  try! after := run_get [1] in
  ret (inr (before, after))).

(** Four keys are written and flushed: one is read before and after it. *)
Definition flush_values : option (Result (option bytes * option bytes)) := run_new (
  try! _ := run_set [97] (replicate 30 1) in
  try! _ := run_set [97; 0] [2] in
  try! _ := run_set [97; 1] [3] in
  try! _ := run_set [98] (replicate 20 4) in
  try! before := run_get [97; 1] in
  try! _ := round in
  try! _ := round in
  try! after := run_get [97; 1] in
  ret (inr (before, after))).
End Runs.

Definition large_blocks : SSTableBuilderOptions := mkBuilderOptions 4096 1024 16 true CkCRC32C CpSnappy BytewiseComparator None 11.
Definition small_blocks : SSTableBuilderOptions := mkBuilderOptions 40 20 2 true CkCRC32C CpSnappy BytewiseComparator None 11.

(** A flush can bring back a deleted key. The deletion is the only entry
    of its memtable; the older value in a table has the same user key but is
    not in the range of internal keys of the memtable, so that the flush finds
    no overlap and drops the deletion. *)
Theorem deleted_key_returns : flush_deletion large_blocks 4 = Some (inr (None, Some [7])).
Proof. vm_compute. reflexivity. Qed.

(** A compaction can bring back a deleted key. The deeper levels are only
    searched for the range of the tables of level 0, not for that of the tables
    of level 1 that are compacted with them; a deletion in one of these is
    dropped although the level below has the value. *)
Theorem compacted_key_returns : compact_deletion large_blocks 1 = Some (inr (None, Some [7])).
Proof. vm_compute. reflexivity. Qed.

(** A flush can lose a key. In a table with several blocks the index is
    searched too early for some keys; what the read finds there is another
    key, so that it returns nothing. *)
Theorem flushed_key_lost : flush_values small_blocks 4 = Some (inr (Some [3], None)).
Proof. vm_compute. reflexivity. Qed.
