(* ===== verification/StorageTheorems.v ===== *)
(** * Theorems about encodings and keys

    Round trips and bounds of the wire format, of internal keys and of the
    comparators. Those of blocks are in DataBlock.v. *)

From S2P Require Import Prelude Wire Encoding Comparator DataBlock.

(** ** The wire format *)

(** Parsing a serialized varint gives back the number and what follows
    it, for every 64-bit number. *)
Theorem varint_roundtrip v rest :
  0 ≤ v < U64 → parse_varint (serialize_varint v ++ rest) = inr (v, rest).
Proof. apply parse_serialize_varint. Qed.

Lemma varint_roundtrip_witness :
  parse_varint (serialize_varint (2 ^ 64 - 1) ++ [7]) = inr (2 ^ 64 - 1, [7]).
Proof. apply (varint_roundtrip (2 ^ 64 - 1) [7]). by vm_compute. Defined.

(** Whatever the input, a varint that is parsed is a 64-bit number, and
    its parsing uses up at least one and at most ten bytes of the input. *)
Theorem varint_bounded input v rest :
  parse_varint input = inr (v, rest) →
  0 ≤ v < U64 ∧ ∃ p, input = p ++ rest ∧ (0 < length p <= 10)%nat.
Proof. apply parse_varint_spec. Qed.

Lemma varint_bounded_witness :
  0 ≤ 300 < U64 ∧ ∃ p, [172; 2; 9] = p ++ [9] ∧ (0 < length p <= 10)%nat.
Proof. apply (varint_bounded [172; 2; 9] 300 [9]). by vm_compute. Defined.

(** The zigzag encoding of a signed 32- or 64-bit number is decoded to
    the number exactly when it fits in one bit less: decoding shifts an
    [i32] or [i64], which copies the top bit. *)
Theorem zigzag_roundtrip n :
  (- 2 ^ 63 ≤ n < 2 ^ 63 →
   decode_zigzag64 (encode_zigzag64 n) = n ↔ - 2 ^ 62 ≤ n < 2 ^ 62) ∧
  (- 2 ^ 31 ≤ n < 2 ^ 31 →
   decode_zigzag32 (encode_zigzag32 n) = inr n ↔ - 2 ^ 30 ≤ n < 2 ^ 30).
Proof.
  split; intros Hn.
  - rewrite decode_encode_zigzag64 by done. by apply (to_signed_fixed 63).
  - rewrite decode_encode_zigzag32 by done. rewrite <- (to_signed_fixed 31) by done.
    split; [by intros [= E]|by intros ->].
Qed.

Lemma zigzag_roundtrip_witness :
  decode_zigzag64 (encode_zigzag64 (- 12345)) = - 12345 ∧
  decode_zigzag64 (encode_zigzag64 (2 ^ 62)) ≠ 2 ^ 62.
Proof.
  split.
  - by apply (proj1 (zigzag_roundtrip (- 12345))).
  - intros E. apply (proj1 (zigzag_roundtrip (2 ^ 62))) in E; lia.
Defined.

(** A field tag survives serialization for every field number the wire
    format allows. *)
Theorem tag_roundtrip t rest :
  0 ≤ field_number t < 2 ^ 29 → Tag_parse (Tag_serialize t ++ rest) = inr (t, rest).
Proof. apply Tag_parse_serialize. Qed.

Lemma tag_roundtrip_witness :
  Tag_parse (Tag_serialize (mkTag (2 ^ 29 - 1) Word32_t) ++ [1]) = inr (mkTag (2 ^ 29 - 1) Word32_t, [1]).
Proof. by apply (tag_roundtrip (mkTag (2 ^ 29 - 1) Word32_t) [1]). Defined.

(** A message of varint, fixed-width and length-delimited fields is
    parsed back to the same fields, in order. *)
Theorem message_roundtrip fs :
  Forall WireField_ok fs → parse_all (flat_map WireField_serialize fs) = inr fs.
Proof. apply parse_all_serialize. Qed.

Definition sample_fields : list WireField :=
  [mkWireField 1 (Varint 300); mkWireField 2 (LengthDelim [1; 2; 3]);
   mkWireField 100 (Word32 [0; 0; 0; 1]); mkWireField 3 (LengthDelim [])].

Lemma message_roundtrip_witness : parse_all (flat_map WireField_serialize sample_fields) = inr sample_fields.
Proof.
  apply (message_roundtrip sample_fields). unfold sample_fields, WireField_ok.
  repeat (apply Forall_cons; split); try apply Forall_nil; by vm_compute.
Defined.

(** The fields of a group are not collected into it. *)
Example group_items_lost :
  parse_all [11; 16; 5; 12] = inr [mkWireField 2 (Varint 5); mkWireField 1 (Group [])].
Proof. by vm_compute. Qed.

(** [next_impl] and [parse_all] end within as many rounds as the input
    has bytes: more fuel never changes their results. *)
Theorem parse_all_terminates it fuel :
  (length (wfi_input it) <= fuel)%nat →
  next_impl_loop fuel it = next_impl it ∧
  parse_all_loop fuel it = parse_all_loop (length (wfi_input it)) it.
Proof. intros H. split; [by apply next_impl_fuel|by apply parse_all_fuel]. Qed.

Lemma parse_all_terminates_witness :
  next_impl_loop 100 (WireFieldIter_new [11; 16; 5; 12]) = next_impl (WireFieldIter_new [11; 16; 5; 12]) ∧
  parse_all_loop 100 (WireFieldIter_new [11; 16; 5; 12]) =
    parse_all_loop 4 (WireFieldIter_new [11; 16; 5; 12]).
Proof. apply (parse_all_terminates (WireFieldIter_new [11; 16; 5; 12]) 100). cbn. lia. Defined.

(** ** Internal keys *)

(** An internal key whose sequence number fits in 56 bits is parsed back
    from its serialization. *)
Theorem internal_key_roundtrip k :
  0 ≤ ik_sequence k ≤ MAX_SEQUENCE → InternalKey_parse (InternalKey_serialized k) = inr k.
Proof. apply InternalKey_parse_serialized. Qed.

Lemma internal_key_roundtrip_witness :
  InternalKey_parse (InternalKey_serialized (mkInternalKey [1; 2] MAX_SEQUENCE Value)) =
    inr (mkInternalKey [1; 2] MAX_SEQUENCE Value).
Proof. by apply (internal_key_roundtrip (mkInternalKey [1; 2] MAX_SEQUENCE Value)). Defined.

(** An internal key orders by user key and then by descending sequence
    number, so that of the versions of a key the newest comes first. *)
Theorem internal_key_order user `{!KeyComparatorLaws user} a b :
  kc_key (ik_user_key a) → kc_key (ik_user_key b) →
  0 ≤ ik_sequence a ≤ MAX_SEQUENCE → 0 ≤ ik_sequence b ≤ MAX_SEQUENCE →
  ∃ o, internal_compare user (InternalKey_serialized a) (InternalKey_serialized b) = Some o ∧
    match o with
    | Lt => ¬ kc_le (ik_user_key b) (ik_user_key a) ∨
            (kc_le (ik_user_key a) (ik_user_key b) ∧ ik_sequence b < ik_sequence a)
    | Eq => kc_le (ik_user_key a) (ik_user_key b) ∧ kc_le (ik_user_key b) (ik_user_key a) ∧
            ik_sequence a = ik_sequence b
    | Gt => ¬ kc_le (ik_user_key a) (ik_user_key b) ∨
            (kc_le (ik_user_key b) (ik_user_key a) ∧ ik_sequence a < ik_sequence b)
    end.
Proof.
  intros Ha Hb Sa Sb. unfold internal_compare. rewrite !InternalKey_parse_serialized by done.
  destruct (kc_compare_spec _ _ Ha Hb) as (o & -> & Ho). cbn [mbind option_bind].
  eexists. split; [done|]. destruct o; [|by left|by left].
  destruct Ho as [H1 H2]. destruct (Z.compare_spec (ik_sequence b) (ik_sequence a)); [done|by right|by right].
Qed.

Lemma internal_key_order_witness :
  ∃ o, internal_compare BytewiseComparator (InternalKey_serialized (mkInternalKey [1; 2] 9 Value))
         (InternalKey_serialized (mkInternalKey [1; 2] 5 Deletion)) = Some o ∧ o = Lt.
Proof.
  destruct (internal_key_order BytewiseComparator (mkInternalKey [1; 2] 9 Value)
    (mkInternalKey [1; 2] 5 Deletion)) as (o & Ho & _); try done; try (by repeat constructor).
  exists o. split; [done|]. vm_compute in Ho. by simplify_eq.
Defined.

(** The separator of two byte strings lies at or after the first and
    strictly before the second and is no longer than the first. *)
Theorem bytewise_separator_between start limit :
  Forall byte start → bytes_compare start limit = Lt →
  let sep := bytewise_find_shortest_separator start limit in
  bytes_le start sep ∧ bytes_compare sep limit = Lt ∧ (length sep <= length start)%nat.
Proof. intros Hs Hl sep. by destruct (bytewise_separator_spec start limit Hs Hl) as (? & ? & ? & _). Qed.

Lemma bytewise_separator_between_witness :
  let sep := bytewise_find_shortest_separator [1; 2; 3; 4] [1; 9] in
  bytes_le [1; 2; 3; 4] sep ∧ bytes_compare sep [1; 9] = Lt ∧ (length sep <= 4)%nat.
Proof.
  apply (bytewise_separator_between [1; 2; 3; 4] [1; 9]); [|done].
  repeat (apply Forall_cons; split); try apply Forall_nil; done.
Defined.

(** A separator of two internal keys, under any lawful order of the user
    keys, is an internal key at or after the first and before the second. *)
Theorem internal_separator_between user `{!KeyComparatorLaws user} start limit :
  internal_key user start → internal_key user limit → ¬ internal_le user limit start →
  ∃ sep, internal_find_shortest_separator user start limit = Some sep ∧ internal_key user sep ∧
    internal_le user start sep ∧ ¬ internal_le user limit sep.
Proof. apply (@kc_separator_spec _ (InternalKeyComparator_laws user)). Qed.

Definition key_a : bytes := InternalKey_serialized (mkInternalKey [1; 2; 3] 9 Value).
Definition key_b : bytes := InternalKey_serialized (mkInternalKey [1; 7] 5 Value).

Lemma internal_separator_between_witness :
  ∃ sep, internal_find_shortest_separator BytewiseComparator key_a key_b = Some sep ∧
    internal_key BytewiseComparator sep ∧ internal_le BytewiseComparator key_a sep ∧
    ¬ internal_le BytewiseComparator key_b sep.
Proof.
  apply (internal_separator_between BytewiseComparator key_a key_b).
  - eexists. split; [by vm_compute|]. cbn.
    repeat (apply Forall_cons; split); try apply Forall_nil; done.
  - eexists. split; [by vm_compute|]. cbn.
    repeat (apply Forall_cons; split); try apply Forall_nil; done.
  - intros [H _]. by apply H.
Defined.

(** The successor of a byte string is at or after it and no longer. *)
Theorem bytewise_successor_after key :
  Forall byte key →
  bytes_le key (bytewise_find_short_successor key) ∧
  (length (bytewise_find_short_successor key) <= length key)%nat.
Proof. intros Hk. by destruct (successor_loop_spec (length key) key Hk) as (? & ? & _). Qed.

Lemma bytewise_successor_after_witness :
  bytes_le [1; 2; 255] (bytewise_find_short_successor [1; 2; 255]) ∧
  (length (bytewise_find_short_successor [1; 2; 255]%Z) <= 3)%nat.
Proof.
  apply (bytewise_successor_after [1; 2; 255]).
  repeat (apply Forall_cons; split); try apply Forall_nil; done.
Defined.
